(* ===== verification/_CoqProject ===== *)
-Q . S2P
Prelude.v
Ids.v
Bag.v
Snowball.v
SnowTree.v
Linked.v
Hashmap.v
Cache.v
Poll.v
Topological.v
EngineTree.v
EngineVotes.v
EnginePoll.v
Engine.v
Database.v
Memdb.v
Versiondb.v
Prefixdb.v
Packer.v
Sampler.v
Validators.v
Funds.v
Reward.v
Bimap.v
Codec.v
CodecWrite.v
CodecSize.v
CodecRead.v
CodecManager.v
Dbhelpers.v
Btree.v
Interval.v
Bootstrap.v
Heap.v
StakerIterators.v
StakerDiffIterator.v
Stakers.v
StakerStack.v
Diff.v
Uptime.v
Metadata.v
Cacher.v
Linkeddb.v
LinkeddbList.v
Atomic.v
Locks.v
SharedMemory.v
Throttler.v
