(* ===== verification/Prelude.v ===== *)
(** * A verification library for AvalancheGo

    AvalancheGo is a node of the Avalanche network.  It runs chains; on each a virtual machine
    builds blocks, and the nodes agree on one chain of blocks by repeated polls of random
    validators.  This library models the parts of the node that carry its logic, as executable
    functions, and proves what makes them correct.  Below, paths are relative to [src/].

    ** How the parts fit together

    A poll asks a sample of validators ([utils/sampler], [snow/validators]) which block they
    prefer, collects the votes ([snow/consensus/snowman/poll], [utils/bag]) and hands them to
    the Snowman engine ([snow/consensus/snowman]), which has a tree of snowball instances
    ([snow/consensus/snowball]) for every block with children.  A node that joins first
    fetches and executes the accepted blocks ([snow/engine/snowman/bootstrap]).  State is kept
    in layered key-value databases ([database]) in the encoding of the codec ([codec],
    [utils/wrappers]), behind caches ([cache], [utils/linked]).  On the P-chain
    ([vms/platformvm]) transactions move funds ([vms/secp256k1fx], [vms/components/avax]) and
    stake them; the stakers are the validators.

    ** Files

    - [Prelude]: results of fallible functions, 64-bit arithmetic, sums over maps, the hint
      database [ava] and shared lemmas.
    - [Ids] ([ids]), [Bag] ([utils/bag]): identifiers and their bits, multisets.
    - [Snowball] (the instances of [snow/consensus/snowball], the classes [Factory] and
      [FactoryLaws]) and [SnowTree] ([tree.go]).
    - [Linked], [Hashmap] ([utils/linked]), [Cache] ([cache]): a list with pointers, the ordered
      map on it, and the two LRU caches.
    - [Poll] ([snowman/poll]), [Topological] ([snowman/topological.go] and its blocks and
      metrics), whose invariants are in [EngineTree] (the block tree), [EngineVotes]
      (transitive votes), [EnginePoll] (one poll) and [Engine] (every run).
    - [Database] (the interface with its laws, batches, iterators), [Memdb], [Versiondb],
      [Prefixdb] (implementations of it) and [Dbhelpers] (clients of it).
    - [Packer] ([utils/math], [utils/wrappers]), [Codec], [CodecWrite], [CodecSize],
      [CodecRead] ([codec/reflectcodec]) and [CodecManager] ([linearcodec], [hierarchycodec],
      [manager.go]).
    - [Sampler] ([utils/sampler]) and [Validators] ([snow/validators]).
    - [Funds] ([vms/secp256k1fx], [vms/components/avax], [vms/platformvm/stakeable],
      [vms/platformvm/utxo]), [Reward] ([vms/platformvm/reward]), [Bimap] ([utils/bimap]).
    - [Btree] (the interface of [google/btree]), [Interval], [Bootstrap]
      ([snow/engine/snowman/bootstrap]).
    - [Heap] ([utils/heap]), [StakerIterators], [StakerDiffIterator], [Stakers], [StakerStack], [Diff]:
      the stakers and the diffs of the P-chain state ([vms/platformvm/state]).
    - [Uptime] ([snow/uptime]) and [Metadata] ([metadata_*.go] of [vms/platformvm/state]): how long
      validators were connected, and how this is stored.
    - [Cacher] (the interface of [cache]), [Linkeddb], [LinkeddbList] ([database/linkeddb]): a list in a
      database, on any database and cache; [Atomic], [SharedMemory] and
      [Locks] ([chains/atomic]): the memory that chains share, its atomic changes and its locks.
    - [Throttler] ([network/throttling], the throttlers by bytes): the bytes that messages of the
      network may use, and the messages that wait for them.

    A struct is a record, a method with a pointer receiver a function that returns the new
    record, an interface a class of operations; what clients rely on is a class of laws
    ([FactoryLaws], [ConsensusLaws], [DatabaseLaws], [WriterLaws], [WeightedLaws],
    [TypeCodecLaws], [BTreeLaws], [IteratorLaws],
    [StakersLaws], [ChainLaws], [UptimeStateLaws], [CacherLaws]), proved of each implementation and
    used by the proofs of the clients.  Where objects are shared and changed in place (list
    elements, validators, intervals) there is a heap of them.

    ** What the theorems show

    - Consensus: on every run the accepted blocks form a chain, nothing is decided twice, the
      preference is the branch that the snowball instances prefer, no call panics and all
      loops end; decisions of the tree are final; beta unanimous polls finalize; a poll that
      ends early has the result of the full poll; polls are reported in order.
    - Bootstrapping: the intervals and their copy on disk are the set of stored heights;
      processing stores exactly the wanted ancestors; execution takes every stored block once,
      by height.
    - Data: the list, the hash map, the caches, the heaps and the databases implement
      sequences, ordered maps and finite maps; a versioned database is transactional; prefixed
      databases are isolated; a linked database is a list, whatever is cached.
    - Encoding: what is packed or marshalled is read back, everything that is accepted is the
      canonical encoding of a typed value, and sizes are exact; a panic needs a map with
      interfaces in its keys and a registered type that cannot be hashed
      ([interface_key_panics]).
    - Sampling: draws are unbiased, weights are respected, no validator is sampled more often
      than its weight; validator sets follow the changes and inform their listeners.
    - Funds and stakers: accepted transactions conserve every asset, are signed and keep
      locked funds locked; rewards are the documented formula; iterators over stakers
      list the set in order, and the changes of the current set come in the documented
      order.  A diff of the state reads as the state after its changes, and
      applying it makes them.  Uptime is exactly the time of connection, and what is stored of
      it is read back.  Shared memory finds exactly the elements that were sent and not consumed,
      is changed atomically, and its locks exclude each other and never deadlock.
    - Network: the throttlers account for every byte; without bytes set aside for validators no
      message waits forever, and with them messages can ([throttler_can_stall]).

    ** Modelling decisions and bounds

    - [uint64] and smaller integers are integers in their range, with wrap-around or overflow
      errors written out.  Go's [int] counters and lengths are unbounded: they count polls,
      votes or elements in memory.  Times are integers.
    - The order in which Go ranges over a map is a parameter ([iter_map], [iter_set],
      [range_keys], [range], [map_range]): any permutation of the entries, new for every
      iteration where the code iterates repeatedly.
    - Calls to the VM (verify, accept, reject) fail as parameters say.  Hash functions,
      signature recovery, the parser of blocks and the source of randomness are parameters;
      what is assumed of them is a hypothesis of the theorems that need it.
    - Loops that are not structural take fuel, and the theorems show that it suffices: the
      number of processing blocks for the loops of the engine, the ancestors plus two for
      [process], one more turn than entries for loops over iterators, the number of registered
      types plus one for the codec (values nest through interfaces of registered types), the
      length of the array for heaps, the stakers that are left for iterators.  A loop that
      draws until a value is accepted returns for a source of randomness that is [fair].
    - A nil dereference or an index out of range is [None] or an error of its own, and the
      theorems show that it does not occur, except where a finding says so.
    - [Parameters.Alpha] of old configurations is not modelled; mutexes make every exported
      method one step, except in [Locks] and [Throttler], where concurrent calls interleave.

    ** Not modelled

    Networking other than the throttlers by bytes, APIs, processes, configuration and genesis
    data (input and output); generated protocol buffers; bindings of storage engines and of
    cryptography, and remote procedure calls (third-party code); metrics, logging and tracing;
    floating point (health ratios, [weighted_array.go]) other than the shares of [Throttler];
    the engine's message handlers; the on-disk state, the transaction rules and the blocks of
    the P-chain other than what is listed above; the X-chain's own state; the proposer VM; the
    experimental merkle database; the wallet; the tests. *)

From stdpp Require Export base numbers option list list_numbers sets gmap fin_maps.
From Stdlib Require Export ZArith Lia.

(** ** Results of fallible Go functions

    A Go function that returns [(A, error)] is a function into [result E A]. *)

Inductive result (E A : Type) : Type :=
  | Ok (a : A)
  | Err (e : E).
Arguments Ok {E A} a.
Arguments Err {E A} e.

Definition result_bind {E A B} (r : result E A) (k : A → result E B) : result E B :=
  match r with
  | Ok a => k a
  | Err e => Err e
  end.

Declare Scope go_scope.
Delimit Scope go_scope with go.
Notation "'let?' x ':=' e 'in' k" :=
  (result_bind e (fun x => k))
  (at level 10, x name, e at level 100, k at level 200) : go_scope.
Notation "'let?' ' p ':=' e 'in' k" :=
  (result_bind e (fun x => match x with p => k end))
  (at level 10, p pattern, e at level 100, k at level 200) : go_scope.
Open Scope go_scope.

#[export] Instance result_eq_dec {E A} `{EqDecision E, EqDecision A} : EqDecision (result E A).
Proof. solve_decision. Defined.

Lemma result_bind_Ok {E A B} (r : result E A) (k : A → result E B) b :
  result_bind r k = Ok b ↔ ∃ a, r = Ok a ∧ k a = Ok b.
Proof. destruct r; simpl; naive_solver. Qed.

(** ** Machine integers

    A [uint64] is a [Z] in [[0, 2^64)]; the arithmetic that Go lets wrap is
    written with [u64]. *)

Definition MaxUint64 : Z := 2 ^ 64 - 1.
Definition u64 (z : Z) : Z := z mod 2 ^ 64.
Definition is_u64 (z : Z) : Prop := (0 ≤ z ≤ MaxUint64)%Z.

#[export] Instance is_u64_dec z : Decision (is_u64 z).
Proof. unfold is_u64. apply _. Defined.

Lemma u64_range z : is_u64 (u64 z).
Proof.
  unfold is_u64, u64, MaxUint64.
  pose proof (Z.mod_pos_bound z (2 ^ 64) ltac:(lia)). lia.
Qed.

Lemma u64_id z : is_u64 z → u64 z = z.
Proof. unfold is_u64, u64, MaxUint64. intros. apply Z.mod_small. lia. Qed.

(** ** Zero values *)

(** Go initialises a variable of type [T] with the zero value of [T]. *)
Class GoZero (T : Type) := go_zero : T.

(** ** Automation *)

Create HintDb ava.
#[export] Hint Resolve u64_range : ava.

(** Turn the boolean comparisons of the code into propositions. *)
Ltac bool_to_prop :=
  repeat match goal with
  | H : context [bool_decide _] |- _ => rewrite bool_decide_eq_true in H || rewrite bool_decide_eq_false in H
  | H : _ && _ = true |- _ => apply andb_true_iff in H as [? ?]
  | H : _ || _ = false |- _ => apply orb_false_iff in H as [? ?]
  | H : negb _ = true |- _ => apply negb_true_iff in H
  | H : negb _ = false |- _ => apply negb_false_iff in H
  | H : (_ <? _)%Z = true |- _ => apply Z.ltb_lt in H
  | H : (_ <? _)%Z = false |- _ => apply Z.ltb_ge in H
  | H : (_ <=? _)%Z = true |- _ => apply Z.leb_le in H
  | H : (_ <=? _)%Z = false |- _ => apply Z.leb_gt in H
  | H : (_ =? _)%Z = true |- _ => apply Z.eqb_eq in H
  | H : (_ =? _)%Z = false |- _ => apply Z.eqb_neq in H
  end.

(** Split every [if] and [match] of the goal, recording the tests. *)
Ltac split_ifs :=
  repeat (case_match; simplify_eq/=); bool_to_prop.

Lemma Z_eqb_bool_decide (x y : Z) : (x =? y)%Z = bool_decide (x = y).
Proof. case_bool_decide as E; [by apply Z.eqb_eq|by apply Z.eqb_neq]. Qed.

(** ** Sums over finite maps *)

Section sum.
Context `{Countable K}.
Implicit Types m : gmap K Z.

Definition map_sum (m : gmap K Z) : Z := map_fold (λ _ c acc, c + acc)%Z 0%Z m.

Lemma map_sum_empty : map_sum ∅ = 0%Z.
Proof. apply map_fold_empty. Qed.

Lemma map_sum_insert_new m k c :
  m !! k = None → map_sum (<[k := c]> m) = (c + map_sum m)%Z.
Proof. intros Hk. apply map_fold_insert_L; [lia|done]. Qed.

Lemma map_sum_delete m k c :
  m !! k = Some c → map_sum m = (c + map_sum (delete k m))%Z.
Proof.
  intros Hk. rewrite <- (insert_delete_id m k c Hk) at 1.
  apply map_sum_insert_new, lookup_delete_eq.
Qed.

Lemma map_sum_insert m k c :
  map_sum (<[k := c]> m) = (c + map_sum m - default 0 (m !! k))%Z.
Proof.
  destruct (m !! k) as [c'|] eqn:Hk; simpl.
  - rewrite <- (insert_delete_eq m k c), map_sum_insert_new by apply lookup_delete_eq.
    rewrite (map_sum_delete m k c' Hk). lia.
  - rewrite map_sum_insert_new by done. lia.
Qed.

Lemma map_sum_nonneg m : map_Forall (λ _ c, 0 ≤ c)%Z m → (0 ≤ map_sum m)%Z.
Proof.
  induction m as [|k c m Hk IH] using map_ind; intros Hm.
  - by rewrite map_sum_empty.
  - rewrite map_sum_insert_new by done.
    apply map_Forall_insert in Hm as [Hc Hm]; [|done]. specialize (IH Hm). lia.
Qed.

(** One element of a map of non-negative counts is at most the total. *)
Lemma map_sum_lookup_le m k c :
  map_Forall (λ _ c, 0 ≤ c)%Z m → m !! k = Some c → (c ≤ map_sum m)%Z.
Proof.
  intros Hm Hk. rewrite (map_sum_delete m k c Hk).
  pose proof (map_sum_nonneg (delete k m) (map_Forall_delete _ _ _ Hm)). lia.
Qed.

(** Two distinct elements together are at most the total. *)
Lemma map_sum_two_le m k1 k2 c1 c2 :
  map_Forall (λ _ c, 0 ≤ c)%Z m → k1 ≠ k2 →
  m !! k1 = Some c1 → m !! k2 = Some c2 → (c1 + c2 ≤ map_sum m)%Z.
Proof.
  intros Hm Hne H1 H2. rewrite (map_sum_delete m k1 c1 H1).
  pose proof (map_sum_lookup_le (delete k1 m) k2 c2 (map_Forall_delete _ _ _ Hm)).
  rewrite lookup_delete_ne in * by done. specialize (H0 H2). lia.
Qed.

(** Sums are monotone in the counts. *)
Lemma map_sum_mono m m' :
  map_Forall (λ _ c, 0 ≤ c)%Z m → map_Forall (λ _ c, 0 ≤ c)%Z m' →
  (∀ k, default 0 (m !! k) ≤ default 0 (m' !! k))%Z → (map_sum m ≤ map_sum m')%Z.
Proof.
  revert m'. induction m as [|k c m Hk IH] using map_ind; intros m' Hm Hm' Hle.
  - rewrite map_sum_empty. by apply map_sum_nonneg.
  - apply map_Forall_insert in Hm as [Hc Hm]; [|done]. rewrite map_sum_insert_new by done.
    assert (map_sum m ≤ map_sum (delete k m'))%Z as Hd.
    { apply IH; [done|by apply map_Forall_delete|]. intros k'. specialize (Hle k').
      rewrite lookup_insert, lookup_delete in *. case_decide as E; [subst|done].
      rewrite Hk. simpl. lia. }
    specialize (Hle k). rewrite lookup_insert_eq in Hle. simpl in Hle.
    destruct (m' !! k) as [c'|] eqn:E; simpl in Hle.
    + rewrite (map_sum_delete m' k c' E). lia.
    + rewrite delete_id in Hd by done. lia.
Qed.

Lemma map_sum_filter (P : K * Z → Prop) `{∀ x, Decision (P x)} m :
  map_sum m = (map_sum (filter P m) + map_sum (filter (λ x, ¬ P x) m))%Z.
Proof.
  induction m as [|k c m Hk IH] using map_ind.
  - by rewrite !map_filter_empty, map_sum_empty.
  - destruct (decide (P (k, c))).
    + rewrite map_filter_insert_True by done.
      rewrite map_filter_insert_False by naive_solver.
      rewrite (delete_id m) by done.
      rewrite !map_sum_insert_new; [lia|by apply map_lookup_filter_None; left|done].
    + rewrite map_filter_insert_False by done.
      rewrite map_filter_insert_True by done.
      rewrite (delete_id m) by done.
      rewrite !map_sum_insert_new; [lia|by apply map_lookup_filter_None; left|done].
Qed.
End sum.

(** ** Lists *)

(** A fold whose step is an invariant-preserving update preserves the
    invariant. *)
Lemma foldl_invariant {A B} (P : A → Prop) (f : A → B → A) (l : list B) (a : A) :
  P a → (∀ a b, b ∈ l → P a → P (f a b)) → P (foldl f a l).
Proof.
  revert a. induction l as [|b l IH]; intros a Ha Hf; simpl; [done|].
  apply IH; [apply Hf; [left|done]|].
  intros a' b' Hb'. apply Hf. by right.
Qed.

(** [List.find] returns the first element that satisfies the test. *)
Lemma find_Some_first {A} (p : A → bool) (l : list A) (x : A) :
  List.find p l = Some x →
  ∃ i, l !! i = Some x ∧ p x = true ∧ ∀ j y, (j < i)%nat → l !! j = Some y → p y = false.
Proof.
  induction l as [|a l IH]; simpl; [done|].
  destruct (p a) eqn:Ha; intros Hf.
  - simplify_eq. exists 0%nat. split_and!; [done..|lia].
  - destruct (IH Hf) as (i & Hi & Hx & Hlt). exists (S i). split_and!; [done..|].
    intros [|j] y Hj Hy; simplify_eq/=; [done|]. apply (Hlt j); [lia|done].
Qed.

(** A filter that keeps everything. *)
Lemma list_filter_all {A} (P : A → Prop) `{∀ x, Decision (P x)} (l : list A) :
  Forall P l → filter P l = l.
Proof.
  induction 1 as [|x l Hx Hl IH]; [done|]. by rewrite filter_cons_True, IH.
Qed.
