(* ===== verification/Ids.v ===== *)
(** * Identifiers and their bits

    Models [ids/id.go] (the type [ID], [Bit], [XOR], [Compare]'s equality) and
    [ids/bits.go] ([EqualSubset], [FirstDifferenceSubset]).  An [ID] is an array
    of 32 bytes; bit [i] of an identifier is bit [i mod 8] of byte [i / 8].

    The two subset functions work byte-wise with masks.  The theorems relate them
    to the bit-wise reading: [EqualSubset] is equality of all the bits of the
    range, [FirstDifferenceSubset] is the least index of the range where the bits
    differ. *)

From S2P Require Import Prelude.

Open Scope Z_scope.

(** ** Data *)

Definition IDLen : Z := 32.
Definition NumBits : Z := 256.
Definition BitsPerByte : Z := 8.

(** [type ID [IDLen]byte]. *)
Notation ID := (list Z).

Definition is_byte (b : Z) : Prop := 0 ≤ b < 256.
Definition valid_ID (id : ID) : Prop :=
  length id = Z.to_nat IDLen ∧ Forall is_byte id.

#[export] Instance is_byte_dec b : Decision (is_byte b).
Proof. unfold is_byte. apply _. Defined.
#[export] Instance valid_ID_dec id : Decision (valid_ID id).
Proof. unfold valid_ID. apply _. Defined.

(** [Empty], the all zero identifier. *)
Definition Empty : ID := replicate (Z.to_nat IDLen) 0.
#[export] Instance ID_zero : GoZero ID := Empty.

(** ** Operations of [ids/id.go] *)

(** [id[i]].  Every caller indexes inside the array. *)
Definition byte_at (id : ID) (i : Z) : Z := default 0 (id !! Z.to_nat i).

(** [id[lo:hi]]. *)
Definition slice (id : ID) (lo hi : Z) : list Z :=
  take (Z.to_nat (hi - lo)) (drop (Z.to_nat lo) id).

Definition Bit (id : ID) (i : Z) : Z :=
  let byteIndex := i / BitsPerByte in
  let bitIndex := i mod BitsPerByte in
  let b := byte_at id byteIndex in
  let b := Z.shiftr b bitIndex in
  Z.land b 1.

Definition XOR (id other : ID) : ID := zip_with Z.lxor id other.

(** ** Operations of [ids/bits.go] *)

Definition startMask (startBit : Z) : Z := Z.shiftl (-1) startBit.
Definition stopMask (stopBit : Z) : Z := Z.shiftl 1 (stopBit + 1) - 1.

Definition EqualSubset (start stop : Z) (id1 id2 : ID) : bool :=
  let stop := stop - 1 in
  if (stop <? start) || (stop <? 0) then true
  else if NumBits <=? stop then false
  else
    let startIndex := start / BitsPerByte in
    let stopIndex := stop / BitsPerByte in
    if (startIndex + 1 <? stopIndex)
       && negb (bool_decide (slice id1 (startIndex + 1) stopIndex
                             = slice id2 (startIndex + 1) stopIndex))
    then false
    else
      let startMask := startMask (start mod BitsPerByte) in
      let stopMask := stopMask (stop mod BitsPerByte) in
      if startIndex =? stopIndex then
        let mask := Z.land startMask stopMask in
        let b1 := Z.land mask (byte_at id1 startIndex) in
        let b2 := Z.land mask (byte_at id2 startIndex) in
        b1 =? b2
      else
        let start1 := Z.land startMask (byte_at id1 startIndex) in
        let start2 := Z.land startMask (byte_at id2 startIndex) in
        let stop1 := Z.land stopMask (byte_at id1 stopIndex) in
        let stop2 := Z.land stopMask (byte_at id2 stopIndex) in
        (start1 =? start2) && (stop1 =? stop2).

(** [bits.TrailingZeros8] of the Go standard library: the index of the lowest
    set bit of a byte, 8 for zero. *)
Definition TrailingZeros8 (x : Z) : Z :=
  default 8 (List.find (Z.testbit x) (seqZ 0 8)).

(** The loop over the interior bytes; [n] is the number of bytes left. *)
Fixpoint interior_diff (n : nat) (i : Z) (id1 id2 : ID) : option Z :=
  match n with
  | O => None
  | S n =>
      let b1 := byte_at id1 i in
      let b2 := byte_at id2 i in
      if b1 =? b2 then interior_diff n (i + 1) id1 id2
      else Some (TrailingZeros8 (Z.lxor b1 b2) + i * BitsPerByte)
  end.

Definition FirstDifferenceSubset (start stop : Z) (id1 id2 : ID) : Z * bool :=
  let stop := stop - 1 in
  if (stop <? start) || (stop <? 0) || (NumBits <=? stop) then (0, false)
  else
    let startIndex := start / BitsPerByte in
    let stopIndex := stop / BitsPerByte in
    let startMask := startMask (start mod BitsPerByte) in
    let stopMask := stopMask (stop mod BitsPerByte) in
    if startIndex =? stopIndex then
      let mask := Z.land startMask stopMask in
      let b1 := Z.land mask (byte_at id1 startIndex) in
      let b2 := Z.land mask (byte_at id2 startIndex) in
      if b1 =? b2 then (0, false)
      else (TrailingZeros8 (Z.lxor b1 b2) + startIndex * BitsPerByte, true)
    else
      let start1 := Z.land startMask (byte_at id1 startIndex) in
      let start2 := Z.land startMask (byte_at id2 startIndex) in
      if negb (start1 =? start2) then
        (TrailingZeros8 (Z.lxor start1 start2) + startIndex * BitsPerByte, true)
      else
        match interior_diff (Z.to_nat (stopIndex - (startIndex + 1))) (startIndex + 1) id1 id2 with
        | Some i => (i, true)
        | None =>
            let stop1 := Z.land stopMask (byte_at id1 stopIndex) in
            let stop2 := Z.land stopMask (byte_at id2 stopIndex) in
            if negb (stop1 =? stop2) then
              (TrailingZeros8 (Z.lxor stop1 stop2) + stopIndex * BitsPerByte, true)
            else (0, false)
        end.

(** ** Bit-level reading *)

(** The identifiers agree on the bits [lo <= i < hi]. *)
Definition bits_agree (lo hi : Z) (id1 id2 : ID) : Prop :=
  ∀ i, lo ≤ i < hi → Bit id1 i = Bit id2 i.

Lemma Bit_testbit id i :
  Bit id i = Z.b2z (Z.testbit (byte_at id (i / 8)) (i mod 8)).
Proof.
  unfold Bit, BitsPerByte. rewrite Z.testbit_spec' by (apply Z.mod_pos_bound; lia).
  rewrite <- Z.shiftr_div_pow2 by (apply Z.mod_pos_bound; lia).
  by rewrite (Z.land_ones _ 1) by lia.
Qed.

Lemma Bit_eq_iff id1 id2 i :
  Bit id1 i = Bit id2 i ↔
  Z.testbit (byte_at id1 (i / 8)) (i mod 8) = Z.testbit (byte_at id2 (i / 8)) (i mod 8).
Proof. rewrite !Bit_testbit. split; [apply Z.b2z_inj|congruence]. Qed.

Lemma Bit_0_or_1 id i : Bit id i = 0 ∨ Bit id i = 1.
Proof. rewrite Bit_testbit. destruct (Z.testbit _ _); auto. Qed.

Lemma byte_at_range id i : valid_ID id → 0 ≤ byte_at id i < 256.
Proof.
  intros [_ Hid]. unfold byte_at. destruct (id !! Z.to_nat i) eqn:E; simpl; [|lia].
  eapply (Forall_lookup_1 _ _ _ _ Hid E).
Qed.

Lemma byte_testbit_high b k : 0 ≤ b < 256 → 8 ≤ k → Z.testbit b k = false.
Proof.
  intros Hb Hk. destruct (decide (b = 0)) as [->|]; [apply Z.testbit_0_l|].
  apply Z.bits_above_log2; [lia|]. apply Z.log2_lt_pow2; [lia|].
  assert (2 ^ 8 ≤ 2 ^ k) by (apply Z.pow_le_mono_r; lia). lia.
Qed.

Lemma byte_eq_iff b1 b2 :
  0 ≤ b1 < 256 → 0 ≤ b2 < 256 →
  b1 = b2 ↔ ∀ k, 0 ≤ k < 8 → Z.testbit b1 k = Z.testbit b2 k.
Proof.
  intros H1 H2. split; [intros ->; done|intros Hk].
  apply Z.bits_inj'. intros k Hk0. destruct (decide (k < 8)); [apply Hk; lia|].
  by rewrite !byte_testbit_high by lia.
Qed.

Lemma testbit_startMask s k : 0 ≤ s → 0 ≤ k → Z.testbit (startMask s) k = (s <=? k).
Proof.
  intros Hs Hk. unfold startMask. rewrite Z.shiftl_spec by done.
  destruct (Z.leb_spec s k).
  - by rewrite Z.bits_m1 by lia.
  - by rewrite Z.testbit_neg_r by lia.
Qed.

Lemma testbit_stopMask s k : 0 ≤ s → 0 ≤ k → Z.testbit (stopMask s) k = (k <=? s).
Proof.
  intros Hs Hk. unfold stopMask. rewrite Z.shiftl_1_l. change (2 ^ (s + 1) - 1) with (Z.pred (2 ^ (s + 1))). rewrite <- Z.ones_equiv.
  all: destruct (Z.leb_spec k s).
  - by rewrite Z.ones_spec_low by lia.
  - by rewrite Z.ones_spec_high by lia.
Qed.

Lemma masked_eq_iff m b1 b2 :
  Z.land m b1 = Z.land m b2 ↔
  ∀ k, 0 ≤ k → Z.testbit m k = true → Z.testbit b1 k = Z.testbit b2 k.
Proof.
  split.
  - intros E k Hk Hm. apply (f_equal (λ z, Z.testbit z k)) in E.
    by rewrite !Z.land_spec, Hm in E.
  - intros H. apply Z.bits_inj'. intros k Hk. rewrite !Z.land_spec.
    destruct (Z.testbit m k) eqn:Em; simpl; auto.
Qed.

(** Two bytes agree on the bit positions [lo .. hi]. *)
Definition byte_agree (lo hi b1 b2 : Z) : Prop :=
  ∀ k, lo ≤ k ≤ hi → Z.testbit b1 k = Z.testbit b2 k.

Lemma masked_both_iff s t b1 b2 :
  0 ≤ s → 0 ≤ t →
  Z.land (Z.land (startMask s) (stopMask t)) b1 = Z.land (Z.land (startMask s) (stopMask t)) b2
  ↔ byte_agree s t b1 b2.
Proof.
  intros Hs Ht. rewrite masked_eq_iff. unfold byte_agree. split; intros H k Hk.
  - apply H; [lia|]. rewrite Z.land_spec, testbit_startMask, testbit_stopMask by lia. lia.
  - rewrite Z.land_spec, testbit_startMask, testbit_stopMask by lia. intros. apply H. lia.
Qed.

Lemma masked_start_iff s b1 b2 :
  0 ≤ s → 0 ≤ b1 < 256 → 0 ≤ b2 < 256 →
  Z.land (startMask s) b1 = Z.land (startMask s) b2 ↔ byte_agree s 7 b1 b2.
Proof.
  intros Hs H1 H2. rewrite masked_eq_iff. unfold byte_agree. split; intros H k Hk.
  - apply H; [lia|]. rewrite testbit_startMask by lia. lia.
  - rewrite testbit_startMask by lia. intros. destruct (decide (k < 8)); [apply H; lia|].
    by rewrite !byte_testbit_high by lia.
Qed.

Lemma masked_stop_iff t b1 b2 :
  0 ≤ t →
  Z.land (stopMask t) b1 = Z.land (stopMask t) b2 ↔ byte_agree 0 t b1 b2.
Proof.
  intros Ht. rewrite masked_eq_iff. unfold byte_agree. split; intros H k Hk.
  - apply H; [lia|]. rewrite testbit_stopMask by lia. lia.
  - rewrite testbit_stopMask by lia. intros. apply H. lia.
Qed.

Lemma byte_agree_full b1 b2 :
  0 ≤ b1 < 256 → 0 ≤ b2 < 256 → b1 = b2 ↔ byte_agree 0 7 b1 b2.
Proof.
  intros H1 H2. rewrite byte_eq_iff by done. unfold byte_agree.
  split; intros H k Hk; apply H; lia.
Qed.

(** Arithmetic of [i / 8] and [i mod 8]. *)
Lemma bit_index_split i : i = 8 * (i / 8) + i mod 8 ∧ 0 ≤ i mod 8 < 8.
Proof. pose proof (Z.div_mod i 8 ltac:(lia)). pose proof (Z.mod_pos_bound i 8 ltac:(lia)). lia. Qed.

Lemma bit_index_make c k : 0 ≤ k < 8 → (8 * c + k) / 8 = c ∧ (8 * c + k) mod 8 = k.
Proof.
  intros Hk. replace (8 * c + k) with (k + c * 8) by lia.
  rewrite Z.div_add, Z.mod_add, Z.div_small, Z.mod_small by lia. lia.
Qed.

(** Agreement on a range of bits, as agreement of parts of bytes. *)
Lemma bits_agree_one_byte id1 id2 c s t :
  0 ≤ s → t < 8 →
  bits_agree (8 * c + s) (8 * c + t + 1) id1 id2
  ↔ byte_agree s t (byte_at id1 c) (byte_at id2 c).
Proof.
  intros Hs Ht. unfold bits_agree, byte_agree. split.
  - intros H k Hk. specialize (H (8 * c + k) ltac:(lia)).
    apply Bit_eq_iff in H. by destruct (bit_index_make c k ltac:(lia)) as [E1 E2]; rewrite E1, E2 in H.
  - intros H i Hi. apply Bit_eq_iff.
    destruct (bit_index_split i) as [E Hm]. assert (i / 8 = c) as Ec by lia. rewrite Ec.
    apply H. lia.
Qed.

Lemma bits_agree_split lo mid hi id1 id2 :
  lo ≤ mid ≤ hi →
  bits_agree lo hi id1 id2 ↔ bits_agree lo mid id1 id2 ∧ bits_agree mid hi id1 id2.
Proof.
  intros Hm. unfold bits_agree. split.
  - intros H. split; intros i Hi; apply H; lia.
  - intros [H1 H2] i Hi. destruct (decide (i < mid)); [apply H1|apply H2]; lia.
Qed.

Lemma bits_agree_bytes lo hi id1 id2 :
  valid_ID id1 → valid_ID id2 → lo ≤ hi →
  bits_agree (8 * lo) (8 * hi) id1 id2 ↔ ∀ c, lo ≤ c < hi → byte_at id1 c = byte_at id2 c.
Proof.
  intros V1 V2 Hle. split.
  - intros H c Hc. apply byte_agree_full; auto using byte_at_range.
    apply (bits_agree_one_byte _ _ c 0 7); [lia..|]. intros i Hi. apply H. lia.
  - intros H i Hi. apply Bit_eq_iff. rewrite (H (i / 8)); [done|].
    destruct (bit_index_split i). lia.
Qed.

Lemma slice_eq_iff lo hi id1 id2 :
  valid_ID id1 → valid_ID id2 → 0 ≤ lo → hi ≤ 32 →
  slice id1 lo hi = slice id2 lo hi ↔ ∀ c, lo ≤ c < hi → byte_at id1 c = byte_at id2 c.
Proof.
  intros [L1 _] [L2 _] Hlo Hhi. unfold slice, byte_at, IDLen in *. split.
  - intros E c Hc. apply (f_equal (λ l : list Z, l !! Z.to_nat (c - lo))) in E.
    rewrite !lookup_take_lt, !lookup_drop in E by lia.
    replace (Z.to_nat lo + Z.to_nat (c - lo))%nat with (Z.to_nat c) in E by lia. by rewrite E.
  - intros H. apply list_eq. intros i.
    destruct (decide (i < Z.to_nat (hi - lo))%nat); [|by rewrite !lookup_take_ge by lia].
    rewrite !lookup_take_lt, !lookup_drop by lia.
    specialize (H (lo + Z.of_nat i) ltac:(lia)).
    replace (Z.to_nat (lo + Z.of_nat i)) with (Z.to_nat lo + i)%nat in H by lia.
    destruct (lookup_lt_is_Some_2 id1 (Z.to_nat lo + i)) as [x1 E1]; [lia|].
    destruct (lookup_lt_is_Some_2 id2 (Z.to_nat lo + i)) as [x2 E2]; [lia|].
    rewrite E1, E2 in *. simpl in H. by subst.
Qed.

(** The range of bits of two different bytes: the end of the first byte, the
    whole bytes between them and the start of the last one. *)
Lemma bits_agree_many_bytes id1 id2 a z s t :
  valid_ID id1 → valid_ID id2 → a < z → 0 ≤ s < 8 → 0 ≤ t < 8 →
  bits_agree (8 * a + s) (8 * z + t + 1) id1 id2 ↔
  byte_agree s 7 (byte_at id1 a) (byte_at id2 a)
  ∧ (∀ c, a + 1 ≤ c < z → byte_at id1 c = byte_at id2 c)
  ∧ byte_agree 0 t (byte_at id1 z) (byte_at id2 z).
Proof.
  intros V1 V2 Haz Hs Ht.
  rewrite (bits_agree_split _ (8 * (a + 1))), (bits_agree_split (8 * (a + 1)) (8 * z)) by lia.
  rewrite bits_agree_bytes by (done || lia).
  replace (8 * (a + 1)) with (8 * a + 7 + 1) by lia.
  replace (8 * z) with (8 * z + 0) at 1 by lia.
  by rewrite !bits_agree_one_byte by lia.
Qed.

(** [EqualSubset] decides agreement on the range of bits. *)
Lemma EqualSubset_iff start stop id1 id2 :
  valid_ID id1 → valid_ID id2 → 0 ≤ start → stop ≤ NumBits →
  EqualSubset start stop id1 id2 = true ↔ bits_agree start stop id1 id2.
Proof.
  intros V1 V2 Hs Ht. unfold EqualSubset, NumBits, BitsPerByte in *.
  destruct ((stop - 1 <? start) || (stop - 1 <? 0)) eqn:E.
  { split; [|done]. intros _ i Hi. lia. }
  destruct (Z.leb_spec 256 (stop - 1)); [lia|].
  destruct (bit_index_split start) as [Es Rs]. destruct (bit_index_split (stop - 1)) as [Et Rt].
  set (a := start / 8) in *. set (s := start mod 8) in *.
  set (z := (stop - 1) / 8) in *. set (t := (stop - 1) mod 8) in *.
  replace start with (8 * a + s) by lia. replace stop with (8 * z + t + 1) by lia.
  assert (a ≤ z) by lia.
  destruct (Z.eqb_spec a z) as [->|Hne].
  - rewrite (proj2 (Z.ltb_ge _ _)) by lia. simpl.
    rewrite Z.eqb_eq, masked_both_iff, bits_agree_one_byte by lia. done.
  - rewrite bits_agree_many_bytes by (done || lia).
    rewrite <- slice_eq_iff by (done || lia).
    rewrite <- masked_start_iff by (lia || auto using byte_at_range).
    rewrite <- masked_stop_iff by lia.
    destruct (Z.ltb_spec (a + 1) z); simpl.
    + case_bool_decide; simpl; [rewrite andb_true_iff, !Z.eqb_eq|]; naive_solver.
    + rewrite andb_true_iff, !Z.eqb_eq. split; [|naive_solver].
      intros [? ?]. split_and!; [done| |done].
      apply slice_eq_iff; (done || lia).
Qed.

(** ** The first difference *)

(** [i] is the least bit of [lo .. hi-1] where the identifiers differ. *)
Definition first_difference (lo hi : Z) (id1 id2 : ID) (i : Z) : Prop :=
  lo ≤ i < hi ∧ Bit id1 i ≠ Bit id2 i ∧ bits_agree lo i id1 id2.

Lemma TrailingZeros8_spec x :
  0 < x < 256 →
  let k := TrailingZeros8 x in
  0 ≤ k < 8 ∧ Z.testbit x k = true ∧ ∀ j, 0 ≤ j < k → Z.testbit x j = false.
Proof.
  intros Hx. unfold TrailingZeros8. destruct (List.find _ _) as [k|] eqn:Hf; simpl.
  - apply find_Some_first in Hf as (i & Hi & Hk & Hlt).
    apply lookup_seqZ in Hi as [-> Hi]. split_and!; [lia..|done|].
    intros j Hj. apply (Hlt (Z.to_nat j)); [lia|]. apply lookup_seqZ. lia.
  - exfalso. assert (x = 0); [|lia]. apply byte_eq_iff; [lia..|].
    intros k Hk. rewrite Z.testbit_0_l. apply (List.find_none _ _ Hf).
    apply list_elem_of_In, elem_of_seqZ. lia.
Qed.

Lemma byte_of_bits x : (∀ k, 8 ≤ k → Z.testbit x k = false) → 0 ≤ x < 256.
Proof.
  intros H. assert (x = Z.land x (Z.ones 8)) as ->.
  { apply Z.bits_inj'. intros k Hk. rewrite Z.land_spec.
    destruct (decide (k < 8)).
    - rewrite Z.ones_spec_low by lia. by rewrite andb_true_r.
    - rewrite H by lia. done. }
  rewrite Z.land_ones by lia. apply Z.mod_pos_bound. lia.
Qed.

(** The first differing bit of a masked byte, as an index of the identifiers. *)
Lemma byte_first_difference id1 id2 c m lo hi :
  valid_ID id1 → valid_ID id2 → 0 ≤ lo → hi < 8 →
  (∀ k, 0 ≤ k < 8 → Z.testbit m k = (lo <=? k) && (k <=? hi)) →
  let x1 := Z.land m (byte_at id1 c) in
  let x2 := Z.land m (byte_at id2 c) in
  x1 ≠ x2 →
  first_difference (8 * c + lo) (8 * c + hi + 1) id1 id2 (TrailingZeros8 (Z.lxor x1 x2) + c * 8).
Proof.
  intros V1 V2 Hlo Hhi Hm x1 x2 Hne. subst x1 x2.
  pose proof (byte_at_range id1 c V1) as R1. pose proof (byte_at_range id2 c V2) as R2.
  assert (∀ k, Z.testbit (Z.lxor (Z.land m (byte_at id1 c)) (Z.land m (byte_at id2 c))) k
             = Z.testbit m k && xorb (Z.testbit (byte_at id1 c) k) (Z.testbit (byte_at id2 c) k)) as Hx.
  { intros k. rewrite Z.lxor_spec, !Z.land_spec. by destruct (Z.testbit m k). }
  set (x := Z.lxor _ _) in *.
  assert (x ≠ 0) as Hx0 by (by intros ?%Z.lxor_eq).
  assert (0 ≤ x < 256) as Hxr.
  { apply byte_of_bits. intros k Hk. rewrite Hx, (byte_testbit_high (byte_at id1 c)), (byte_testbit_high (byte_at id2 c)) by lia. apply andb_false_r. }
  destruct (TrailingZeros8_spec x ltac:(lia)) as (Hk & Hset & Hlow).
  set (k := TrailingZeros8 x) in *.
  rewrite Hx, Hm in Hset by lia. bool_to_prop.
  assert (xorb (Z.testbit (byte_at id1 c) k) (Z.testbit (byte_at id2 c) k) = true) as Hd by done.
  replace (k + c * 8) with (8 * c + k) by lia. split_and!; [lia..| |].
  - rewrite Bit_eq_iff. destruct (bit_index_make c k ltac:(lia)) as [-> ->].
    by destruct (Z.testbit (byte_at id1 c) k), (Z.testbit (byte_at id2 c) k).
  - replace (8 * c + k) with (8 * c + (k - 1) + 1) by lia.
    apply bits_agree_one_byte; [lia..|]. intros j Hj.
    specialize (Hlow j ltac:(lia)). rewrite Hx, Hm in Hlow by lia.
    rewrite (proj2 (Z.leb_le lo j)), (proj2 (Z.leb_le j hi)) in Hlow by lia. simpl in Hlow.
    by destruct (Z.testbit (byte_at id1 c) j), (Z.testbit (byte_at id2 c) j).
Qed.

(** A first difference of a part of the range is one of the whole range when the
    bits before the part agree. *)
Lemma first_difference_widen lo lo' hi' hi id1 id2 i :
  lo ≤ lo' → hi' ≤ hi → bits_agree lo lo' id1 id2 →
  first_difference lo' hi' id1 id2 i → first_difference lo hi id1 id2 i.
Proof.
  intros Hlo Hhi Hag (Hi & Hne & Hag'). split_and!; [lia..|done|].
  apply (bits_agree_split lo lo' i); [lia|]. done.
Qed.

Lemma interior_diff_spec n i id1 id2 :
  valid_ID id1 → valid_ID id2 →
  match interior_diff n i id1 id2 with
  | Some d => first_difference (8 * i) (8 * (i + Z.of_nat n)) id1 id2 d
  | None => bits_agree (8 * i) (8 * (i + Z.of_nat n)) id1 id2
  end.
Proof.
  intros V1 V2. revert i. induction n as [|n IH]; intros i; simpl.
  { intros k Hk. lia. }
  assert (first_difference (8 * i + 0) (8 * i + 7 + 1) id1 id2
            (TrailingZeros8 (Z.lxor (byte_at id1 i) (byte_at id2 i)) + i * 8)
          ∨ byte_at id1 i = byte_at id2 i) as Hbyte.
  { destruct (decide (byte_at id1 i = byte_at id2 i)); [by right|left].
    pose proof (byte_first_difference id1 id2 i (-1) 0 7 V1 V2) as Hb.
    rewrite !Z.land_m1_l in Hb. apply Hb; [lia..| |done].
    intros k Hk. rewrite Z.bits_m1 by lia. lia. }
  unfold BitsPerByte. destruct (Z.eqb_spec (byte_at id1 i) (byte_at id2 i)) as [E|E].
  - specialize (IH (i + 1)). replace (i + 1 + Z.of_nat n) with (i + Z.of_nat (S n)) in IH by lia.
    assert (bits_agree (8 * i) (8 * (i + 1)) id1 id2).
    { apply bits_agree_bytes; [done..|lia|]. intros c Hc. by replace c with i by lia. }
    destruct (interior_diff n (i + 1) id1 id2).
    + eapply first_difference_widen; [| |done|apply IH]; lia.
    + by apply (bits_agree_split _ (8 * (i + 1))); [lia|].
  - destruct Hbyte as [Hb|]; [|done].
    eapply first_difference_widen; [| | |apply Hb]; [lia..|]. intros k Hk; lia.
Qed.

(** [FirstDifferenceSubset] finds the first differing bit of the range, and
    reports that there is none exactly when the range agrees. *)
Lemma FirstDifferenceSubset_spec start stop id1 id2 :
  valid_ID id1 → valid_ID id2 → 0 ≤ start → stop ≤ NumBits →
  match FirstDifferenceSubset start stop id1 id2 with
  | (i, true) => first_difference start stop id1 id2 i
  | (i, false) => i = 0 ∧ bits_agree start stop id1 id2
  end.
Proof.
  intros V1 V2 Hs Ht. unfold FirstDifferenceSubset, NumBits, BitsPerByte in *.
  destruct ((stop - 1 <? start) || (stop - 1 <? 0) || (256 <=? stop - 1)) eqn:E.
  { split; [done|]. intros i Hi. lia. }
  destruct (bit_index_split start) as [Es Rs]. destruct (bit_index_split (stop - 1)) as [Et Rt].
  set (a := start / 8) in *. set (s := start mod 8) in *.
  set (z := (stop - 1) / 8) in *. set (t := (stop - 1) mod 8) in *.
  replace start with (8 * a + s) by lia. replace stop with (8 * z + t + 1) by lia.
  destruct (Z.eqb_spec a z) as [->|Hne].
  - destruct (Z.eqb_spec (Z.land (Z.land (startMask s) (stopMask t)) (byte_at id1 z))
                         (Z.land (Z.land (startMask s) (stopMask t)) (byte_at id2 z))) as [Eq|Neq].
    + apply masked_both_iff in Eq; [|lia..]. by rewrite bits_agree_one_byte by lia.
    + apply byte_first_difference; [done..|lia|lia| |done].
      intros k Hk. by rewrite Z.land_spec, testbit_startMask, testbit_stopMask by lia.
  - destruct (Z.eqb_spec (Z.land (startMask s) (byte_at id1 a)) (Z.land (startMask s) (byte_at id2 a)))
      as [Eq|Neq]; simpl.
    2:{ eapply (first_difference_widen _ (8 * a + s) (8 * a + 7 + 1)); [lia..|intros k Hk; lia|].
        apply byte_first_difference; [done..|lia|lia| |done].
        intros k Hk. rewrite testbit_startMask by lia. lia. }
    rewrite masked_start_iff in Eq by (lia || auto using byte_at_range).
    rewrite <- bits_agree_one_byte in Eq by lia.
    pose proof (interior_diff_spec (Z.to_nat (z - (a + 1))) (a + 1) id1 id2 V1 V2) as Hint.
    replace (a + 1 + Z.of_nat (Z.to_nat (z - (a + 1)))) with z in Hint by lia.
    replace (8 * a + 7 + 1) with (8 * (a + 1)) in Eq by lia.
    destruct (interior_diff _ _ _ _).
    { eapply first_difference_widen; [| |done|apply Hint]; lia. }
    assert (bits_agree (8 * a + s) (8 * z) id1 id2) as Hag
      by (apply (bits_agree_split _ (8 * (a + 1))); [lia|done]).
    destruct (Z.eqb_spec (Z.land (stopMask t) (byte_at id1 z)) (Z.land (stopMask t) (byte_at id2 z)))
      as [Eq'|Neq']; simpl.
    + split; [done|]. apply (bits_agree_split _ (8 * z)); [lia|]. split; [done|].
      apply masked_stop_iff in Eq'; [|lia].
      rewrite <- bits_agree_one_byte in Eq' by lia. by rewrite Z.add_0_r in Eq'.
    + eapply (first_difference_widen _ (8 * z + 0)); [lia| |by rewrite Z.add_0_r|].
      2:{ apply (byte_first_difference _ _ _ _ 0 t); [done..|lia|lia| |done].
          intros k Hk. rewrite testbit_stopMask by lia. lia. }
      lia.
Qed.

(** The two subset functions agree with each other. *)
Lemma FirstDifferenceSubset_none start stop id1 id2 :
  valid_ID id1 → valid_ID id2 → 0 ≤ start → stop ≤ NumBits →
  (FirstDifferenceSubset start stop id1 id2).2 = false ↔ EqualSubset start stop id1 id2 = true.
Proof.
  intros V1 V2 Hs Ht. rewrite EqualSubset_iff by done.
  pose proof (FirstDifferenceSubset_spec start stop id1 id2 V1 V2 Hs Ht) as H.
  destruct (FirstDifferenceSubset start stop id1 id2) as [i []]; simpl in *.
  - split; [done|]. intros Hag. destruct H as (Hi & Hne & _). by destruct Hne; apply Hag.
  - naive_solver.
Qed.

(** Identifiers that agree on every bit are equal. *)
Lemma bits_agree_all id1 id2 :
  valid_ID id1 → valid_ID id2 → bits_agree 0 NumBits id1 id2 → id1 = id2.
Proof.
  intros V1 V2 Hag. change 0 with (8 * 0) in Hag. change NumBits with (8 * 32) in Hag.
  rewrite bits_agree_bytes in Hag by (done || lia).
  rewrite <- slice_eq_iff in Hag by (done || lia). destruct V1 as [L1 _], V2 as [L2 _].
  unfold slice, IDLen in *. simpl in Hag. rewrite !drop_0 in Hag.
  rewrite !firstn_all2 in Hag by lia. done.
Qed.

#[export] Hint Resolve byte_at_range Bit_0_or_1 : ava.

(** ** Properties *)

(** The two range functions of the identifiers are correct for valid
    identifiers and a range [start .. stop-1] of bits.  [EqualSubset] holds exactly
    when all the bits of the range agree; [FirstDifferenceSubset] returns the least
    differing bit of the range, or [(0, false)] when there is none. *)
Theorem range_functions_correct start stop id1 id2 :
  valid_ID id1 → valid_ID id2 → 0 ≤ start → stop ≤ NumBits →
  (EqualSubset start stop id1 id2 = true ↔ ∀ i, start ≤ i < stop → Bit id1 i = Bit id2 i)
  ∧ match FirstDifferenceSubset start stop id1 id2 with
    | (i, true) => start ≤ i < stop ∧ Bit id1 i ≠ Bit id2 i
                   ∧ ∀ j, start ≤ j < i → Bit id1 j = Bit id2 j
    | (i, false) => i = 0 ∧ ∀ j, start ≤ j < stop → Bit id1 j = Bit id2 j
    end.
Proof.
  intros V1 V2 Hs Ht. split; [by apply EqualSubset_iff|].
  by pose proof (FirstDifferenceSubset_spec start stop id1 id2 V1 V2 Hs Ht) as H.
Qed.

(** Two identifiers that differ first in bit 13 (bit 5 of byte 1). *)
Definition sample_id : ID := [1; 32] ++ replicate 30 0.
Definition sample_id' : ID := [1; 64] ++ replicate 30 0.

Lemma range_functions_correct_witness :
  FirstDifferenceSubset 3 256 sample_id sample_id' = (13, true)
  ∧ Bit sample_id 13 ≠ Bit sample_id' 13
  ∧ (EqualSubset 3 13 sample_id sample_id' = true
     ↔ ∀ i, 3 ≤ i < 13 → Bit sample_id i = Bit sample_id' i).
Proof.
  assert (valid_ID sample_id) as V1 by (by vm_compute; repeat constructor).
  assert (valid_ID sample_id') as V2 by (by vm_compute; repeat constructor).
  split; [reflexivity|]. split.
  - pose proof (proj2 (range_functions_correct 3 256 sample_id sample_id' V1 V2
      ltac:(lia) ltac:(vm_compute; congruence))) as H.
    replace (FirstDifferenceSubset 3 256 sample_id sample_id') with (13, true) in H by reflexivity.
    tauto.
  - apply (range_functions_correct 3 13 sample_id sample_id' V1 V2);
      [lia|vm_compute; congruence].
Defined.
