(* ===== verification/Bag.v ===== *)
(** * Multisets

    Models [utils/bag/bag.go].  A [Bag] keeps the number of times each element
    was added, the total and the set of the elements that met a threshold.  Go
    iterates over a map in an unspecified order, so the operations that iterate
    take the order as an argument: a permutation of the entries of the map.

    The invariant [wf_bag] is that counts are positive and that the size is their
    sum.  [Filter] and [Split] are shown to be the restriction of the counts,
    whatever the order, and [Mode] to be an element of maximal count. *)

From S2P Require Import Prelude.

Open Scope Z_scope.

Record Bag (T : Type) `{Countable T} := mkBag {
  counts : gmap T Z;
  size : Z;
  threshold : Z;
  metThreshold : gset T;
}.
Arguments mkBag {T _ _} _ _ _ _.
Arguments counts {T _ _} _.
Arguments size {T _ _} _.
Arguments threshold {T _ _} _.
Arguments metThreshold {T _ _} _.

#[export] Instance Bag_eq_dec `{Countable T} : EqDecision (Bag T).
Proof. solve_decision. Defined.

Section bag.
  Context `{Countable T}.
  Implicit Types (b : Bag T) (elt : T) (count : Z).

  (** The zero value [Bag[T]{}]. *)
Definition empty_bag : Bag T := mkBag ∅ 0 0 ∅.

  (** An iteration over [b.counts]: its entries in some order. *)
Definition iteration (b : Bag T) (order : list (T * Z)) : Prop :=
  order ≡ₚ map_to_list (counts b).

Definition Count (b : Bag T) (elt : T) : Z := default 0 (counts b !! elt).

Definition Len (b : Bag T) : Z := size b.

Definition SetThreshold (b : Bag T) (t : Z) : Bag T :=
  if threshold b =? t then b
  else
    mkBag (counts b) (size b) t
      (foldl (λ met p, if t <=? p.2 then {[p.1]} ∪ met else met) ∅ (map_to_list (counts b))).

Definition AddCount (b : Bag T) (elt : T) (count : Z) : Bag T :=
  if count <=? 0 then b
  else
    let totalCount := Count b elt + count in
    mkBag (<[elt := totalCount]> (counts b)) (size b + count) (threshold b)
      (if threshold b <=? totalCount then {[elt]} ∪ metThreshold b else metThreshold b).

Definition Add (b : Bag T) (elts : list T) : Bag T :=
  foldl (λ b elt, AddCount b elt 1) b elts.

Definition Of (elts : list T) : Bag T := Add empty_bag elts.

  (** [List] returns the keys of the map, in an unspecified order. *)
Definition List (b : Bag T) : list T := (map_to_list (counts b)).*1.

Definition Equals (b other : Bag T) : bool :=
  (size b =? size other) && bool_decide (counts b = counts other).

Definition mode_step (acc p : T * Z) : T * Z :=
  if acc.2 <? p.2 then p else acc.

Definition Mode_iter `{GoZero T} (order : list (T * Z)) : T * Z :=
  foldl mode_step (go_zero, 0) order.

Definition Mode `{GoZero T} (b : Bag T) : T * Z := Mode_iter (map_to_list (counts b)).

Definition Threshold (b : Bag T) : gset T := metThreshold b.

Definition Filter_iter (filterFunc : T → bool) (order : list (T * Z)) : Bag T :=
  foldl (λ newBag p, if filterFunc p.1 then AddCount newBag p.1 p.2 else newBag)
    empty_bag order.

Definition Filter (b : Bag T) (filterFunc : T → bool) : Bag T :=
  Filter_iter filterFunc (map_to_list (counts b)).

Definition Split_iter (splitFunc : T → bool) (order : list (T * Z)) : Bag T * Bag T :=
  foldl (λ splitVotes p,
           if splitFunc p.1 then (splitVotes.1, AddCount splitVotes.2 p.1 p.2)
           else (AddCount splitVotes.1 p.1 p.2, splitVotes.2))
    (empty_bag, empty_bag) order.

Definition Split (b : Bag T) (splitFunc : T → bool) : Bag T * Bag T :=
  Split_iter splitFunc (map_to_list (counts b)).

Definition Remove (b : Bag T) (elt : T) : Bag T :=
  let count := Count b elt in
  mkBag (delete elt (counts b)) (size b - count) (threshold b) (metThreshold b).

  (** ** The invariant *)

Definition wf_bag (b : Bag T) : Prop :=
  map_Forall (λ _ c, 0 < c) (counts b) ∧ size b = map_sum (counts b).

Definition wf_threshold (b : Bag T) : Prop :=
  ∀ elt, elt ∈ metThreshold b ↔ ∃ c, counts b !! elt = Some c ∧ threshold b ≤ c.

Lemma wf_empty_bag : wf_bag empty_bag.
Proof. split; simpl; [apply map_Forall_empty|symmetry; apply map_sum_empty]. Qed.

Lemma wf_counts_nonneg b : wf_bag b → map_Forall (λ _ c, 0 ≤ c) (counts b).
Proof. intros [Hp _]. eapply map_Forall_impl; [apply Hp|]. simpl. lia. Qed.

Lemma wf_AddCount b elt count : wf_bag b → wf_bag (AddCount b elt count).
Proof.
  intros [Hp Hs]. unfold AddCount, Count. destruct (Z.leb_spec count 0); [done|]. split; simpl.
  - apply map_Forall_insert_2; [|done].
    destruct (counts b !! elt) as [c|] eqn:E; simpl; [specialize (Hp _ _ E); simpl in Hp|]; lia.
  - rewrite map_sum_insert. lia.
Qed.

Lemma Count_AddCount b elt count elt' :
  0 ≤ count →
  Count (AddCount b elt count) elt' = Count b elt' + if decide (elt = elt') then count else 0.
Proof.
  intros Hc. unfold AddCount. destruct (Z.leb_spec count 0).
  - case_decide; lia.
  - unfold Count at 1. simpl. rewrite lookup_insert. case_decide; subst; simpl; [done|].
    unfold Count. lia.
Qed.

Lemma Len_AddCount b elt count : 0 ≤ count → Len (AddCount b elt count) = Len b + count.
Proof.
  intros. unfold AddCount, Len. destruct (Z.leb_spec count 0); simpl; lia.
Qed.

Lemma wf_threshold_empty : wf_threshold empty_bag.
Proof. intros elt. simpl. rewrite lookup_empty. set_solver. Qed.

Lemma wf_threshold_AddCount b elt count :
  wf_threshold b → wf_threshold (AddCount b elt count).
Proof.
  intros Hth. unfold AddCount, Count. destruct (Z.leb_spec count 0); [done|]. intros x. simpl.
  rewrite lookup_insert. specialize (Hth x).
  destruct (Z.leb_spec (threshold b) (default 0 (counts b !! elt) + count));
    rewrite ?elem_of_union, ?elem_of_singleton, Hth; case_decide; subst.
  - split; [eauto|by left].
  - naive_solver.
  - split; [|naive_solver lia]. intros (c & Hc & Hle). rewrite Hc in *. simpl in *. lia.
  - naive_solver.
Qed.

Lemma wf_Remove b elt : wf_bag b → wf_bag (Remove b elt).
Proof.
  intros [Hp Hs]. split; simpl; [by apply map_Forall_delete|]. unfold Count.
  destruct (counts b !! elt) as [c|] eqn:E; simpl.
  - rewrite (map_sum_delete _ _ _ E) in Hs. lia.
  - rewrite delete_id by done. lia.
Qed.

Lemma Count_nonneg b elt : wf_bag b → 0 ≤ Count b elt.
Proof.
  intros [Hp _]. unfold Count. destruct (counts b !! elt) as [c|] eqn:E; simpl; [|lia].
  specialize (Hp _ _ E). simpl in Hp. lia.
Qed.

Lemma Count_le_Len b elt : wf_bag b → Count b elt ≤ Len b.
Proof.
  intros Hwf. pose proof (wf_counts_nonneg b Hwf) as Hn. destruct Hwf as [_ Hs].
  unfold Count, Len. rewrite Hs. destruct (counts b !! elt) as [c|] eqn:E; simpl.
  - by eapply map_sum_lookup_le.
  - by apply map_sum_nonneg.
Qed.

Lemma Len_nonneg b : wf_bag b → 0 ≤ Len b.
Proof.
  intros Hwf. unfold Len. rewrite (proj2 Hwf). by apply map_sum_nonneg, wf_counts_nonneg.
Qed.

Lemma Count_two_le_Len b x y : wf_bag b → x ≠ y → Count b x + Count b y ≤ Len b.
Proof.
  intros Hwf Hne. pose proof (Count_le_Len b x Hwf). pose proof (Count_le_Len b y Hwf).
  pose proof (wf_counts_nonneg b Hwf) as Hn. unfold Count, Len in *.
  destruct (counts b !! x) as [cx|] eqn:Ex; simpl in *; [|lia].
  destruct (counts b !! y) as [cy|] eqn:Ey; simpl in *; [|lia].
  rewrite (proj2 Hwf). by eapply map_sum_two_le.
Qed.

  (** ** Filter and Split: restriction of the counts, in any order *)

Lemma counts_Filter_aux (f : T → bool) (order : list (T * Z)) (b0 : Bag T) :
  NoDup order.*1 → Forall (λ p, 0 < p.2) order →
  (∀ k, k ∈ order.*1 → counts b0 !! k = None) →
  counts (foldl (λ nb p, if f p.1 then AddCount nb p.1 p.2 else nb) b0 order)
  = list_to_map (base.filter (λ p, f p.1 = true) order) ∪ counts b0.
Proof.
  revert b0. induction order as [|[k c] order IH]; intros b0 Hnd Hpos Hnew; simpl.
  { by rewrite (left_id_L ∅ (∪)). }
  inversion_clear Hnd as [|? ? Hk Hnd']. inversion_clear Hpos as [|? ? Hc Hpos']. simpl in Hc.
  rewrite filter_cons. simpl. destruct (f k) eqn:Hf.
  - rewrite decide_True by done. rewrite IH; [|done..|].
    + unfold AddCount, Count. rewrite (Hnew k) by (left; done). simpl.
      destruct (Z.leb_spec c 0); [lia|]. simpl.
      rewrite <- insert_union_r, insert_union_l; [done|].
      apply not_elem_of_list_to_map_1. intros Hin. apply Hk.
      apply list_elem_of_fmap in Hin as ([k' c'] & -> & Hin).
      apply list_elem_of_filter in Hin as [_ Hin]. apply list_elem_of_fmap. by exists (k', c').
    + intros k' Hk'. unfold AddCount. destruct (Z.leb_spec c 0); [apply Hnew; by right|]. simpl.
      rewrite lookup_insert_ne by (intros ->; done). apply Hnew. by right.
  - rewrite decide_False by congruence. apply IH; [done..|]. intros k' Hk'. apply Hnew. by right.
Qed.

Lemma iteration_self b : iteration b (map_to_list (counts b)).
Proof. unfold iteration. reflexivity. Qed.

Lemma iteration_order b order :
  wf_bag b → iteration b order → NoDup order.*1 ∧ Forall (λ p, 0 < p.2) order.
Proof.
  intros [Hp _] Hord. split.
  - rewrite Hord. apply NoDup_fst_map_to_list.
  - rewrite Hord. apply Forall_forall. intros [k c] Hin%elem_of_map_to_list. by apply (Hp k).
Qed.

Lemma counts_Filter_iter b order f :
  wf_bag b → iteration b order →
  counts (Filter_iter f order) = base.filter (λ p : T * Z, f p.1 = true) (counts b).
Proof.
  intros Hwf Hord. destruct (iteration_order b order Hwf Hord) as [Hnd Hpos].
  unfold Filter_iter. rewrite counts_Filter_aux by done. simpl. rewrite (right_id_L ∅ (∪)).
  apply map_eq. intros k. apply option_eq. intros c.
  rewrite map_lookup_filter_Some, <- elem_of_list_to_map.
  - rewrite list_elem_of_filter, Hord, elem_of_map_to_list. simpl. naive_solver.
  - eapply sublist_NoDup; [exact Hnd|]. apply fmap_sublist, sublist_filter.
Qed.

Lemma wf_foldl_AddCount (f : T → bool) order b0 :
  wf_bag b0 → wf_bag (foldl (λ nb p, if f p.1 then AddCount nb p.1 p.2 else nb) b0 order).
Proof.
  intros Hb. apply foldl_invariant; [done|]. intros b' p _ Hb'.
  destruct (f p.1); auto using wf_AddCount.
Qed.

Lemma wf_Filter b f : wf_bag (Filter b f).
Proof. apply wf_foldl_AddCount, wf_empty_bag. Qed.

Lemma Split_iter_Filter f order :
  Split_iter f order = (Filter_iter (λ x, negb (f x)) order, Filter_iter f order).
Proof.
  unfold Split_iter, Filter_iter.
  generalize empty_bag at 2 4 as b2. generalize empty_bag at 1 2 as b1.
  induction order as [|[k c] order IH]; intros b1 b2; simpl; [done|].
  destruct (f k); simpl; apply IH.
Qed.

Lemma Split_Filter b f : Split b f = (Filter b (λ x, negb (f x)), Filter b f).
Proof. apply Split_iter_Filter. Qed.

Lemma Count_Filter b f elt :
  wf_bag b → Count (Filter b f) elt = if f elt then Count b elt else 0.
Proof.
  intros Hwf. unfold Count, Filter. rewrite (counts_Filter_iter b) by (done || apply iteration_self).
  rewrite map_lookup_filter. destruct (counts b !! elt) as [c|]; simpl.
  - destruct (f elt) eqn:E; by simplify_option_eq.
  - by destruct (f elt).
Qed.

Lemma Len_Split_iter b f order :
  wf_bag b → iteration b order →
  Len (Split_iter f order).1 + Len (Split_iter f order).2 = Len b.
Proof.
  intros Hwf Hord. rewrite Split_iter_Filter. simpl. unfold Len.
  assert (∀ g, size (Filter_iter g order) = map_sum (counts (Filter_iter g order))) as Hs
    by (intros g; apply wf_foldl_AddCount, wf_empty_bag).
  rewrite !Hs, (proj2 Hwf). rewrite !(counts_Filter_iter b) by done.
  rewrite (map_sum_filter (λ p : T * Z, f p.1 = true) (counts b)), Z.add_comm. f_equal.
  f_equal. apply map_filter_ext. intros k c _. simpl. destruct (f k); naive_solver.
Qed.

Lemma Len_Split b f : wf_bag b → Len (Split b f).1 + Len (Split b f).2 = Len b.
Proof. intros. apply Len_Split_iter; [done|apply iteration_self]. Qed.

Lemma Len_Filter_le b f : wf_bag b → Len (Filter b f) ≤ Len b.
Proof.
  intros Hwf. pose proof (Len_Split b f Hwf) as Hs. rewrite Split_Filter in Hs. simpl in Hs.
  pose proof (Len_nonneg _ (wf_Filter b (λ x, negb (f x)))). lia.
Qed.

  (** ** Mode: an element of maximal count, in any order *)

Lemma mode_fold_spec order (acc : T * Z) :
  let r := foldl mode_step acc order in
  acc.2 ≤ r.2 ∧ (r = acc ∨ r ∈ order) ∧ ∀ p, p ∈ order → p.2 ≤ r.2.
Proof.
  revert acc. induction order as [|p order IH]; intros acc; simpl.
  { split_and!; [lia|by left|]. intros p Hp. by apply elem_of_nil in Hp. }
  destruct (IH (mode_step acc p)) as (H1 & H2 & H3).
  assert (acc.2 ≤ (mode_step acc p).2 ∧ p.2 ≤ (mode_step acc p).2
          ∧ (mode_step acc p = acc ∨ mode_step acc p = p)) as (Ha & Hp & Hor).
  { unfold mode_step. destruct (Z.ltb_spec acc.2 p.2); split_and!; auto; lia. }
  split_and!; [lia| |].
  - destruct H2 as [->|H2]; [|right; by right]. destruct Hor as [->| ->]; [by left|right; by left].
  - intros q [->|Hq]%elem_of_cons; [lia|]. by apply H3.
Qed.

Context `{GoZero T}.

Lemma Mode_iter_spec b order :
  wf_bag b → iteration b order →
  let r := Mode_iter order in
  (∀ elt, Count b elt ≤ r.2) ∧ 0 ≤ r.2 ∧ (0 < r.2 → Count b r.1 = r.2).
Proof.
  intros Hwf Hord r. destruct (mode_fold_spec order (go_zero, 0)) as (H1 & H2 & H3).
  change (foldl mode_step (go_zero, 0) order) with r in *. split_and!; [|done|].
  - intros elt. unfold Count. destruct (counts b !! elt) as [c|] eqn:E; simpl; [|done].
    apply (H3 (elt, c)). rewrite Hord. by apply elem_of_map_to_list.
  - intros Hr. destruct H2 as [E|H2]; [rewrite E in Hr; simpl in Hr; lia|].
    rewrite Hord in H2. destruct r as [x c]. apply elem_of_map_to_list in H2. simpl.
    unfold Count. by rewrite H2.
Qed.

  (** An element with more than half of the votes is the mode, whatever the
      iteration order. *)
Lemma Mode_iter_majority b order x :
  wf_bag b → iteration b order → Len b < 2 * Count b x →
  Mode_iter order = (x, Count b x).
Proof.
  intros Hwf Hord Hmaj. destruct (Mode_iter_spec b order Hwf Hord) as (H1 & H2 & H3).
  destruct (Mode_iter order) as [y c]; simpl in *.
  pose proof (Len_nonneg b Hwf). pose proof (H1 x). specialize (H3 ltac:(lia)).
  destruct (decide (x = y)) as [->|Hne]; [by rewrite H3|].
  pose proof (Count_two_le_Len b x y Hwf Hne). lia.
Qed.

  (** The frequency that [Mode] reports does not depend on the order. *)
Lemma Mode_iter_freq b o1 o2 :
  wf_bag b → iteration b o1 → iteration b o2 → (Mode_iter o1).2 = (Mode_iter o2).2.
Proof.
  intros Hwf Ho1 Ho2.
  destruct (Mode_iter_spec b o1 Hwf Ho1) as (A1 & A2 & A3).
  destruct (Mode_iter_spec b o2 Hwf Ho2) as (B1 & B2 & B3).
  pose proof (A1 (Mode_iter o2).1). pose proof (B1 (Mode_iter o1).1).
  destruct (decide (0 < (Mode_iter o1).2)); destruct (decide (0 < (Mode_iter o2).2));
    repeat match goal with H : ?a < ?b → _, H' : ?a < ?b |- _ => specialize (H H') end; lia.
Qed.
End bag.

#[export] Hint Resolve wf_empty_bag wf_AddCount wf_Remove wf_Filter Count_nonneg Len_nonneg : ava.

(** ** Properties *)

Section properties.
Context `{Countable T} `{GoZero T}.

(** [Filter] and [Split] do not depend on the order in which Go iterates over
    the map: for every order they keep exactly the counts of the elements that
    satisfy the predicate, they keep the invariant, and the two bags of a split
    share out all the votes. *)
Theorem filter_split_correct (b : Bag T) (order : list (T * Z)) (f : T → bool) :
  wf_bag b → iteration b order →
  counts (Filter_iter f order) = base.filter (λ p : T * Z, f p.1 = true) (counts b)
  ∧ wf_bag (Filter_iter f order)
  ∧ Split_iter f order = (Filter_iter (λ x, negb (f x)) order, Filter_iter f order)
  ∧ Len (Split_iter f order).1 + Len (Split_iter f order).2 = Len b.
Proof.
  intros Hwf Hord. split_and!.
  - by apply counts_Filter_iter.
  - apply wf_foldl_AddCount, wf_empty_bag.
  - apply Split_iter_Filter.
  - by apply Len_Split_iter.
Qed.

(** [Mode] returns an element of maximal count whatever the iteration order,
    its count does not depend on the order, and an element with more than half of
    the votes is the mode for every order. *)
Theorem mode_correct (b : Bag T) (o1 o2 : list (T * Z)) :
  wf_bag b → iteration b o1 → iteration b o2 →
  (∀ elt, Count b elt ≤ (Mode_iter o1).2)
  ∧ (0 < (Mode_iter o1).2 → Count b (Mode_iter o1).1 = (Mode_iter o1).2)
  ∧ (Mode_iter o1).2 = (Mode_iter o2).2
  ∧ ∀ x, Len b < 2 * Count b x → Mode_iter o1 = (x, Count b x) ∧ Mode_iter o2 = (x, Count b x).
Proof.
  intros Hwf H1 H2. destruct (Mode_iter_spec b o1 Hwf H1) as (A & _ & B).
  split_and!; [done..|by apply (Mode_iter_freq b)|].
  intros x Hx. split; by apply Mode_iter_majority.
Qed.
End properties.

Definition sample_bag : Bag Z := AddCount (AddCount (AddCount empty_bag 1 3) 2 4) 3 1.
#[local] Instance sample_zero : GoZero Z := 0.

(** Another order than the one of [map_to_list]. *)
Definition sample_order : list (Z * Z) := reverse (map_to_list (counts sample_bag)).

Lemma sample_bag_wf : wf_bag sample_bag.
Proof. repeat apply wf_AddCount. apply wf_empty_bag. Qed.

Lemma filter_split_correct_witness :
  Len (Split_iter (λ x, x =? 2) sample_order).2 = 4
  ∧ Len (Split_iter (λ x, x =? 2) sample_order).1
    + Len (Split_iter (λ x, x =? 2) sample_order).2 = Len sample_bag.
Proof.
  split; [vm_compute; reflexivity|].
  apply (filter_split_correct sample_bag sample_order (λ x, x =? 2)).
  - exact sample_bag_wf.
  - apply reverse_Permutation.
Defined.

Lemma mode_correct_witness :
  Mode_iter sample_order = (2, 4)
  ∧ (Mode_iter sample_order).2 = (Mode sample_bag).2.
Proof.
  split; [vm_compute; reflexivity|].
  apply (mode_correct sample_bag).
  - exact sample_bag_wf.
  - apply reverse_Permutation.
  - apply iteration_self.
Defined.

(** [Remove] keeps the count invariant, but it does not touch the threshold
    set: an element that met the threshold stays in [Threshold()] after all its
    instances were removed. *)
Theorem remove_keeps_threshold `{Countable T} (b : Bag T) (elt : T) :
  wf_bag b → wf_threshold b → threshold b ≤ Count b elt → 0 < Count b elt →
  wf_bag (Remove b elt) ∧ Count (Remove b elt) elt = 0
  ∧ elt ∈ Threshold (Remove b elt) ∧ ¬ wf_threshold (Remove b elt).
Proof.
  intros Hwf Hth Hle Hpos. unfold Threshold. simpl.
  assert (elt ∈ metThreshold b) as Hin.
  { apply Hth. unfold Count in *. destruct (counts b !! elt) as [c|]; simpl in *; [|lia]. eauto. }
  assert (counts (Remove b elt) !! elt = None) as Hnone by apply lookup_delete_eq.
  split_and!; [by apply wf_Remove|by unfold Count; rewrite Hnone|done|].
  intros Hth'. apply Hth' in Hin as (c & Hc & _). congruence.
Qed.

Lemma remove_keeps_threshold_witness :
  2 ∈ Threshold (Remove sample_bag 2) ∧ Count (Remove sample_bag 2) 2 = 0.
Proof.
  destruct (remove_keeps_threshold sample_bag 2) as (_ & A & B & _); [| | | |split; done].
  - exact sample_bag_wf.
  - repeat apply wf_threshold_AddCount. apply wf_threshold_empty.
  - vm_compute. congruence.
  - reflexivity.
Defined.
