(* ===== verification/Snowball.v ===== *)
(** * Slush, snowflake and snowball instances

    Models [snow/consensus/snowball]: the parameters and their check
    ([parameters.go]), the slush, snowflake and snowball instances over one
    ([unary_*.go]), two ([binary_*.go]) and any number of choices ([nnary_*.go]),
    the factories ([factory.go]), the interfaces of [consensus.go] and the flat
    multi-choice instance ([flat.go]).

    A struct is a record, an embedded struct is a field of that record, a method
    with a pointer receiver is a function that returns the new record.  Go's [int]
    counters are integers; they grow by one per poll.  The interfaces [Unary],
    [Binary] and [Nnary] with their [Factory] are the class [Factory]; the class
    [FactoryLaws] states what the tree of snowball instances relies on, and both
    the snowflake and the snowball factories are shown to provide it. *)

From S2P Require Import Prelude Ids Bag.

Open Scope Z_scope.

(** ** Parameters *)

Record Parameters := mkParameters {
  K : Z;
  AlphaPreference : Z;
  AlphaConfidence : Z;
  Beta : Z;
  ConcurrentRepolls : Z;
  OptimalProcessing : Z;
  MaxOutstandingItems : Z;
  MaxItemProcessingTime : Z;
}.

#[export] Instance Parameters_eq_dec : EqDecision Parameters.
Proof. solve_decision. Defined.

Definition DefaultParameters : Parameters :=
  {| K := 20; AlphaPreference := 15; AlphaConfidence := 15; Beta := 20;
     ConcurrentRepolls := 4; OptimalProcessing := 10; MaxOutstandingItems := 256;
     MaxItemProcessingTime := 30 * 1000000000 |}.

(** The error of [Verify]: every failing case wraps [ErrParametersInvalid]; the
    constructors tell the cases apart. *)
Inductive ParametersInvalid :=
  | errAlphaPreference
  | errAlphaConfidence
  | errK
  | errEasterEgg
  | errConcurrentRepollsNonPositive
  | errConcurrentRepollsBeta
  | errOptimalProcessing
  | errMaxOutstandingItems
  | errMaxItemProcessingTime.

(** Go's [p.K/2] truncates towards zero. *)
Definition Verify (p : Parameters) : result ParametersInvalid () :=
  if AlphaPreference p <=? Z.quot (K p) 2 then Err errAlphaPreference
  else if AlphaConfidence p <? AlphaPreference p then Err errAlphaConfidence
  else if K p <? AlphaConfidence p then Err errK
  else if (AlphaConfidence p =? 3) && (AlphaPreference p =? 28) then Err errEasterEgg
  else if ConcurrentRepolls p <=? 0 then Err errConcurrentRepollsNonPositive
  else if Beta p <? ConcurrentRepolls p then Err errConcurrentRepollsBeta
  else if OptimalProcessing p <=? 0 then Err errOptimalProcessing
  else if MaxOutstandingItems p <=? 0 then Err errMaxOutstandingItems
  else if MaxItemProcessingTime p <=? 0 then Err errMaxItemProcessingTime
  else Ok ().

(** The conditions that the comment of [Verify] lists. *)
Definition valid_parameters (p : Parameters) : Prop :=
  Z.quot (K p) 2 < AlphaPreference p ≤ AlphaConfidence p ∧ AlphaConfidence p ≤ K p
  ∧ 0 < ConcurrentRepolls p ≤ Beta p
  ∧ 0 < OptimalProcessing p
  ∧ 0 < MaxOutstandingItems p
  ∧ 0 < MaxItemProcessingTime p.

Lemma Verify_Ok_iff p : Verify p = Ok () ↔ valid_parameters p.
Proof.
  unfold Verify, valid_parameters. split.
  - intros H. split_ifs; lia.
  - intros. split_ifs; try done; try lia.
Qed.

(** An alpha majority of at most [K] votes is more than half of them. *)
Lemma valid_alpha_majority p :
  valid_parameters p → 0 < AlphaPreference p ∧ K p < 2 * AlphaPreference p.
Proof.
  intros ([H1 H2] & H3 & _). destruct (decide (0 ≤ K p)).
  - rewrite Z.quot_div_nonneg in H1 by lia.
    pose proof (Z.div_mod (K p) 2 ltac:(lia)). pose proof (Z.mod_pos_bound (K p) 2 ltac:(lia)). lia.
  - pose proof (Z.quot_opp_l (K p) 2 ltac:(lia)) as Hq.
    rewrite (Z.quot_div_nonneg (- K p) 2) in Hq by lia.
    pose proof (Z.div_mod (- K p) 2 ltac:(lia)). pose proof (Z.mod_pos_bound (- K p) 2 ltac:(lia)). lia.
Qed.

(** ** Arrays of two elements, indexed by a choice (0 or 1) *)

Definition get2 {A} (p : A * A) (i : Z) : A := if i =? 0 then p.1 else p.2.
Definition set2 {A} (p : A * A) (i : Z) (a : A) : A * A :=
  if i =? 0 then (a, p.2) else (p.1, a).

Definition is_choice (i : Z) : Prop := i = 0 ∨ i = 1.

Lemma get2_set2_eq {A} (p : A * A) i a : get2 (set2 p i a) i = a.
Proof. unfold get2, set2. by destruct (i =? 0). Qed.

Lemma get2_set2_ne {A} (p : A * A) i j a :
  is_choice i → is_choice j → i ≠ j → get2 (set2 p i a) j = get2 p j.
Proof. intros [-> | ->] [-> | ->] Hne; done. Qed.

Lemma is_choice_flip i : is_choice i → is_choice (1 - i).
Proof. unfold is_choice. lia. Qed.

Lemma is_choice_cases i j : is_choice i → is_choice j → j = i ∨ j = 1 - i.
Proof. unfold is_choice. lia. Qed.

#[export] Hint Resolve is_choice_flip : ava.

(** ** Binary instances *)

Module Binary.

Record binarySlush := mkSlush { preference : Z }.

Definition newBinarySlush (choice : Z) : binarySlush := mkSlush choice.
Definition binarySlush_RecordSuccessfulPoll (sl : binarySlush) (choice : Z) : binarySlush :=
  mkSlush choice.

Record binarySnowflake := mkSnowflake {
  sf_slush : binarySlush;
  confidence : Z;
  alphaPreference : Z;
  alphaConfidence : Z;
  beta : Z;
  finalized : bool;
}.

Definition newBinarySnowflake (alphaPreference alphaConfidence beta choice : Z)
    : binarySnowflake :=
  mkSnowflake (newBinarySlush choice) 0 alphaPreference alphaConfidence beta false.

Definition binarySnowflake_Preference (sf : binarySnowflake) : Z := preference (sf_slush sf).

Definition binarySnowflake_RecordUnsuccessfulPoll (sf : binarySnowflake) : binarySnowflake :=
  mkSnowflake (sf_slush sf) 0 (alphaPreference sf) (alphaConfidence sf) (beta sf) (finalized sf).

Definition binarySnowflake_RecordPoll (sf : binarySnowflake) (count choice : Z) : binarySnowflake :=
  if finalized sf then sf
  else if count <? alphaPreference sf then binarySnowflake_RecordUnsuccessfulPoll sf
  else if count <? alphaConfidence sf then
    mkSnowflake (binarySlush_RecordSuccessfulPoll (sf_slush sf) choice) 0
      (alphaPreference sf) (alphaConfidence sf) (beta sf) (finalized sf)
  else
    let confidence := if binarySnowflake_Preference sf =? choice then confidence sf + 1 else 1 in
    mkSnowflake (binarySlush_RecordSuccessfulPoll (sf_slush sf) choice) confidence
      (alphaPreference sf) (alphaConfidence sf) (beta sf) (beta sf <=? confidence).

Definition binarySnowflake_Finalized (sf : binarySnowflake) : bool := finalized sf.

Record binarySnowball := mkSnowball {
  sb_snowflake : binarySnowflake;
  sb_preference : Z;
  preferenceStrength : Z * Z;
}.

Definition newBinarySnowball (alphaPreference alphaConfidence beta choice : Z)
    : binarySnowball :=
  mkSnowball (newBinarySnowflake alphaPreference alphaConfidence beta choice) choice (0, 0).

Definition binarySnowball_Finalized (sb : binarySnowball) : bool := binarySnowflake_Finalized (sb_snowflake sb).

Definition binarySnowball_Preference (sb : binarySnowball) : Z :=
  if binarySnowball_Finalized sb then binarySnowflake_Preference (sb_snowflake sb) else sb_preference sb.

Definition binarySnowball_RecordPoll (sb : binarySnowball) (count choice : Z) : binarySnowball :=
  let sb :=
    if alphaPreference (sb_snowflake sb) <=? count then
      let strength :=
        set2 (preferenceStrength sb) choice (get2 (preferenceStrength sb) choice + 1) in
      let preference :=
        if get2 strength (1 - choice) <? get2 strength choice then choice else sb_preference sb in
      mkSnowball (sb_snowflake sb) preference strength
    else sb in
  mkSnowball (binarySnowflake_RecordPoll (sb_snowflake sb) count choice) (sb_preference sb)
    (preferenceStrength sb).

Definition binarySnowball_RecordUnsuccessfulPoll (sb : binarySnowball) : binarySnowball :=
  mkSnowball (binarySnowflake_RecordUnsuccessfulPoll (sb_snowflake sb)) (sb_preference sb)
    (preferenceStrength sb).

End Binary.

(** ** Unary instances *)

Module Unary.

Record unarySnowflake := mkSnowflake {
  beta : Z;
  alphaPreference : Z;
  alphaConfidence : Z;
  confidence : Z;
  finalized : bool;
}.

Definition newUnarySnowflake (alphaPreference alphaConfidence beta : Z) : unarySnowflake :=
  mkSnowflake beta alphaPreference alphaConfidence 0 false.

Definition unarySnowflake_RecordUnsuccessfulPoll (sf : unarySnowflake) : unarySnowflake :=
  mkSnowflake (beta sf) (alphaPreference sf) (alphaConfidence sf) 0 (finalized sf).

Definition unarySnowflake_RecordPoll (sf : unarySnowflake) (count : Z) : unarySnowflake :=
  if count <? alphaConfidence sf then unarySnowflake_RecordUnsuccessfulPoll sf
  else
    let confidence := confidence sf + 1 in
    mkSnowflake (beta sf) (alphaPreference sf) (alphaConfidence sf) confidence
      (finalized sf || (beta sf <=? confidence)).

Definition unarySnowflake_Finalized (sf : unarySnowflake) : bool := finalized sf.

Definition unarySnowflake_Extend (sf : unarySnowflake) (choice : Z) : Binary.binarySnowflake :=
  Binary.mkSnowflake (Binary.mkSlush choice) (confidence sf) (alphaPreference sf)
    (alphaConfidence sf) (beta sf) (finalized sf).

Definition unarySnowflake_Clone (sf : unarySnowflake) : unarySnowflake := sf.

Record unarySnowball := mkSnowball {
  sb_snowflake : unarySnowflake;
  preferenceStrength : Z;
}.

Definition newUnarySnowball (alphaPreference alphaConfidence beta : Z) : unarySnowball :=
  mkSnowball (newUnarySnowflake alphaPreference alphaConfidence beta) 0.

Definition unarySnowball_RecordPoll (sb : unarySnowball) (count : Z) : unarySnowball :=
  let strength :=
    if alphaPreference (sb_snowflake sb) <=? count then preferenceStrength sb + 1
    else preferenceStrength sb in
  mkSnowball (unarySnowflake_RecordPoll (sb_snowflake sb) count) strength.

Definition unarySnowball_RecordUnsuccessfulPoll (sb : unarySnowball) : unarySnowball :=
  mkSnowball (unarySnowflake_RecordUnsuccessfulPoll (sb_snowflake sb)) (preferenceStrength sb).

Definition unarySnowball_Finalized (sb : unarySnowball) : bool := unarySnowflake_Finalized (sb_snowflake sb).

Definition unarySnowball_Extend (sb : unarySnowball) (choice : Z) : Binary.binarySnowball :=
  let sf := sb_snowflake sb in
  let bs :=
    Binary.mkSnowball
      (Binary.mkSnowflake (Binary.mkSlush choice) (confidence sf) (alphaPreference sf)
         (alphaConfidence sf) (beta sf) (unarySnowball_Finalized sb))
      choice (0, 0) in
  Binary.mkSnowball (Binary.sb_snowflake bs) (Binary.sb_preference bs)
    (set2 (Binary.preferenceStrength bs) choice (preferenceStrength sb)).

Definition unarySnowball_Clone (sb : unarySnowball) : unarySnowball := sb.

End Unary.

(** ** Instances over any number of choices *)

Module Nnary.

Record nnarySlush := mkSlush { preference : ID }.

Definition newNnarySlush (choice : ID) : nnarySlush := mkSlush choice.
Definition nnarySlush_RecordSuccessfulPoll (sl : nnarySlush) (choice : ID) : nnarySlush :=
  mkSlush choice.

Record nnarySnowflake := mkSnowflake {
  sf_slush : nnarySlush;
  beta : Z;
  alphaPreference : Z;
  alphaConfidence : Z;
  confidence : Z;
  finalized : bool;
}.

Definition newNnarySnowflake (alphaPreference alphaConfidence beta : Z) (choice : ID)
    : nnarySnowflake :=
  mkSnowflake (newNnarySlush choice) beta alphaPreference alphaConfidence 0 false.

Definition nnarySnowflake_Preference (sf : nnarySnowflake) : ID := preference (sf_slush sf).

(** Snowflake and snowball over any number of choices need no registration. *)
Definition nnarySnowflake_Add (sf : nnarySnowflake) (choice : ID) : nnarySnowflake := sf.

Definition nnarySnowflake_RecordUnsuccessfulPoll (sf : nnarySnowflake) : nnarySnowflake :=
  mkSnowflake (sf_slush sf) (beta sf) (alphaPreference sf) (alphaConfidence sf) 0 (finalized sf).

Definition nnarySnowflake_RecordPoll (sf : nnarySnowflake) (count : Z) (choice : ID) : nnarySnowflake :=
  if finalized sf then sf
  else if count <? alphaPreference sf then nnarySnowflake_RecordUnsuccessfulPoll sf
  else if count <? alphaConfidence sf then
    mkSnowflake (nnarySlush_RecordSuccessfulPoll (sf_slush sf) choice) (beta sf)
      (alphaPreference sf) (alphaConfidence sf) 0 (finalized sf)
  else
    let confidence := if bool_decide (nnarySnowflake_Preference sf = choice) then confidence sf + 1 else 1 in
    mkSnowflake (nnarySlush_RecordSuccessfulPoll (sf_slush sf) choice) (beta sf)
      (alphaPreference sf) (alphaConfidence sf) confidence (beta sf <=? confidence).

Definition nnarySnowflake_Finalized (sf : nnarySnowflake) : bool := finalized sf.

Record nnarySnowball := mkSnowball {
  sb_snowflake : nnarySnowflake;
  sb_preference : ID;
  maxPreferenceStrength : Z;
  preferenceStrength : gmap ID Z;
}.

Definition newNnarySnowball (alphaPreference alphaConfidence beta : Z) (choice : ID)
    : nnarySnowball :=
  mkSnowball (newNnarySnowflake alphaPreference alphaConfidence beta choice) choice 0 ∅.

Definition nnarySnowball_Finalized (sb : nnarySnowball) : bool := nnarySnowflake_Finalized (sb_snowflake sb).

Definition nnarySnowball_Preference (sb : nnarySnowball) : ID :=
  if nnarySnowball_Finalized sb then nnarySnowflake_Preference (sb_snowflake sb) else sb_preference sb.

Definition nnarySnowball_RecordPoll (sb : nnarySnowball) (count : Z) (choice : ID) : nnarySnowball :=
  let sb :=
    if alphaPreference (sb_snowflake sb) <=? count then
      let strength := default 0 (preferenceStrength sb !! choice) + 1 in
      let strengths := <[choice := strength]> (preferenceStrength sb) in
      if maxPreferenceStrength sb <? strength
      then mkSnowball (sb_snowflake sb) choice strength strengths
      else mkSnowball (sb_snowflake sb) (sb_preference sb) (maxPreferenceStrength sb) strengths
    else sb in
  mkSnowball (nnarySnowflake_RecordPoll (sb_snowflake sb) count choice) (sb_preference sb)
    (maxPreferenceStrength sb) (preferenceStrength sb).

Definition nnarySnowball_RecordUnsuccessfulPoll (sb : nnarySnowball) : nnarySnowball :=
  mkSnowball (nnarySnowflake_RecordUnsuccessfulPoll (sb_snowflake sb)) (sb_preference sb)
    (maxPreferenceStrength sb) (preferenceStrength sb).

Definition nnarySnowball_Add (sb : nnarySnowball) (choice : ID) : nnarySnowball :=
  mkSnowball (nnarySnowflake_Add (sb_snowflake sb) choice) (sb_preference sb)
    (maxPreferenceStrength sb) (preferenceStrength sb).

End Nnary.

(** ** The abstract snowflake

    The specification of a snowflake instance over a type [C] of choices: it looks
    only at the history of the polls.  A history lists the events, the most recent
    first; an event is a poll (number of votes, choice) or an unsuccessful poll. *)

Module Spec.
Section spec.
Context {C : Type} `{EqDecision C}.
Variables (alphaP alphaC beta : Z).

Definition event : Type := option (Z * C).

(** The event raises the confidence in [c]. *)
Definition good (e : event) (c : C) : bool :=
  match e with
  | Some (n, c') => (alphaP <=? n) && (alphaC <=? n) && bool_decide (c' = c)
  | None => false
  end.

(** The number of the latest events in a row that are good for [c]. *)
Fixpoint streak (h : list event) (c : C) : Z :=
  match h with
  | e :: h => if good e c then 1 + streak h c else 0
  | [] => 0
  end.

(** At some time of the history, the last [beta] polls in a row were for [c]. *)
Definition decided (h : list event) (c : C) : Prop :=
  ∃ h', h' `suffix_of` h ∧ beta ≤ streak h' c.

Record flake := mkFlake { pref : C; conf : Z; fin : bool }.

Definition step (st : flake) (e : event) : flake :=
  match e with
  | None => mkFlake (pref st) 0 (fin st)
  | Some (n, c) =>
      if fin st then st
      else if n <? alphaP then mkFlake (pref st) 0 (fin st)
      else if n <? alphaC then mkFlake c 0 (fin st)
      else
        let conf := if bool_decide (pref st = c) then conf st + 1 else 1 in
        mkFlake c conf (beta <=? conf)
  end.

Definition run (init : C) (h : list event) : flake :=
  foldr (λ e st, step st e) (mkFlake init 0 false) h.

Lemma streak_nonneg h c : 0 ≤ streak h c.
Proof. induction h as [|e h IH]; simpl; [lia|]. destruct (good e c); lia. Qed.

(** The invariant that ties the state to the history. *)
Definition run_inv (h : list event) (st : flake) : Prop :=
  (∀ c, fin st = false → 0 < streak h c → c = pref st)
  ∧ if fin st then decided h (pref st)
    else conf st = streak h (pref st) ∧ ∀ c, ¬ decided h c.

Lemma not_decided_cons e h c :
  (∀ c, ¬ decided h c) → streak (e :: h) c < beta → ¬ decided (e :: h) c.
Proof.
  intros Hnd Hlt ([|x h'] & Hsuf & Hb).
  { apply (Hnd c). exists []. split; [apply suffix_nil|done]. }
  apply suffix_cons_inv in Hsuf as [E|Hsuf]; [rewrite E in Hb; lia|].
  apply (Hnd c). by exists (x :: h').
Qed.

Lemma run_inv_step h st e : 1 ≤ beta → run_inv h st → run_inv (e :: h) (step st e).
Proof.
  intros Hbeta [Hpos Hst]. destruct (fin st) eqn:Hfin.
  { assert (fin (step st e) = true ∧ pref (step st e) = pref st) as [E1 E2].
    { destruct e as [[n c]|]; simpl; [by rewrite Hfin|done]. }
    split; [by rewrite E1|]. rewrite E1, E2. destruct Hst as (h' & Hs & Hb).
    exists h'. split; [by apply suffix_cons_r|done]. }
  destruct Hst as [Hconf Hnd]. unfold run_inv.
  assert (∀ c, good e c = false → ¬ decided (e :: h) c) as Hbad.
  { intros c Hg. apply not_decided_cons; [done|]. simpl. rewrite Hg. lia. }
  destruct e as [[n c]|]; simpl; rewrite ?Hfin.
  2:{ simpl. split; [lia|]. split; [done|]. intros c. by apply Hbad. }
  destruct (Z.ltb_spec n alphaP); [|destruct (Z.ltb_spec n alphaC)]; simpl.
  - rewrite (proj2 (Z.leb_gt alphaP n)) by lia. simpl. split; [lia|].
    split; [done|]. intros c'. apply Hbad. simpl. rewrite (proj2 (Z.leb_gt alphaP n)) by lia. done.
  - rewrite (proj2 (Z.leb_gt alphaC n)), andb_false_r by lia. simpl. split; [lia|].
    split; [done|]. intros c'. apply Hbad. simpl.
    rewrite (proj2 (Z.leb_gt alphaC n)), andb_false_r by lia. done.
  - rewrite (proj2 (Z.leb_le alphaP n)), (proj2 (Z.leb_le alphaC n)) by lia. simpl.
    set (conf' := if bool_decide (pref st = c) then conf st + 1 else 1).
    assert (conf' = 1 + streak h c) as Hc'.
    { unfold conf'. case_bool_decide as E; [subst; lia|].
      pose proof (streak_nonneg h c). destruct (decide (0 < streak h c)) as [Hp|]; [|lia].
      by rewrite (Hpos c) in E. }
    split.
    { intros c' _. case_bool_decide; [done|lia]. }
    destruct (Z.leb_spec beta conf').
    + exists (Some (n, c) :: h). split; [done|]. simpl.
      rewrite (proj2 (Z.leb_le alphaP n)), (proj2 (Z.leb_le alphaC n)) by lia.
      rewrite bool_decide_true by done. simpl. lia.
    + rewrite bool_decide_true by done. split; [done|]. intros c'.
      apply not_decided_cons; [done|]. simpl.
      rewrite (proj2 (Z.leb_le alphaP n)), (proj2 (Z.leb_le alphaC n)) by lia. simpl.
      case_bool_decide; [subst|]; lia.
Qed.

Lemma run_spec init h : 1 ≤ beta → run_inv h (run init h).
Proof.
  intros Hbeta. induction h as [|e h IH]; simpl.
  - split; simpl; [lia|]. split; [done|]. intros c (h' & Hs & Hb).
    apply suffix_nil_inv in Hs as ->. simpl in Hb. lia.
  - by apply run_inv_step.
Qed.

(** The instance is finalized exactly when some choice was decided, and then its
    preference is a decided choice. *)
Lemma run_finalized init h :
  1 ≤ beta →
  (fin (run init h) = true ↔ ∃ c, decided h c)
  ∧ (fin (run init h) = true → decided h (pref (run init h))).
Proof.
  intros Hbeta. destruct (run_spec init h Hbeta) as [_ Hst].
  destruct (fin (run init h)); naive_solver.
Qed.
End spec.
End Spec.

(** ** The instances refine the abstract snowflake *)

Module Refine.
Import Spec.

Definition bin_abs (sf : Binary.binarySnowflake) : flake :=
  mkFlake (Binary.binarySnowflake_Preference sf) (Binary.confidence sf) (Binary.finalized sf).

Definition bin_event (sf : Binary.binarySnowflake) (e : event) : Binary.binarySnowflake :=
  match e with
  | None => Binary.binarySnowflake_RecordUnsuccessfulPoll sf
  | Some (n, c) => Binary.binarySnowflake_RecordPoll sf n c
  end.

Definition bin_sb_event (sb : Binary.binarySnowball) (e : event) : Binary.binarySnowball :=
  match e with
  | None => Binary.binarySnowball_RecordUnsuccessfulPoll sb
  | Some (n, c) => Binary.binarySnowball_RecordPoll sb n c
  end.

Definition nn_abs (sf : Nnary.nnarySnowflake) : flake :=
  mkFlake (Nnary.nnarySnowflake_Preference sf) (Nnary.confidence sf) (Nnary.finalized sf).

Definition nn_event (sf : Nnary.nnarySnowflake) (e : event) : Nnary.nnarySnowflake :=
  match e with
  | None => Nnary.nnarySnowflake_RecordUnsuccessfulPoll sf
  | Some (n, c) => Nnary.nnarySnowflake_RecordPoll sf n c
  end.

Definition nn_sb_event (sb : Nnary.nnarySnowball) (e : event) : Nnary.nnarySnowball :=
  match e with
  | None => Nnary.nnarySnowball_RecordUnsuccessfulPoll sb
  | Some (n, c) => Nnary.nnarySnowball_RecordPoll sb n c
  end.

(** The thresholds of an instance never change. *)
Definition bin_thresholds (sf : Binary.binarySnowflake) : Z * Z * Z :=
  (Binary.alphaPreference sf, Binary.alphaConfidence sf, Binary.beta sf).
Definition nn_thresholds (sf : Nnary.nnarySnowflake) : Z * Z * Z :=
  (Nnary.alphaPreference sf, Nnary.alphaConfidence sf, Nnary.beta sf).

Lemma bin_event_refines sf e :
  bin_abs (bin_event sf e)
  = step (Binary.alphaPreference sf) (Binary.alphaConfidence sf) (Binary.beta sf) (bin_abs sf) e
  ∧ bin_thresholds (bin_event sf e) = bin_thresholds sf.
Proof.
  destruct e as [[n c]|]; [|done]. simpl. unfold Binary.binarySnowflake_RecordPoll.
  destruct (Binary.finalized sf) eqn:Ef; [done|].
  destruct (n <? _); [by unfold bin_abs; simpl; rewrite ?Ef|].
  destruct (n <? _); [by unfold bin_abs; simpl; rewrite ?Ef|].
  split; [|done]. unfold bin_abs; simpl. by rewrite Z_eqb_bool_decide.
Qed.

Lemma nn_event_refines sf e :
  nn_abs (nn_event sf e)
  = step (Nnary.alphaPreference sf) (Nnary.alphaConfidence sf) (Nnary.beta sf) (nn_abs sf) e
  ∧ nn_thresholds (nn_event sf e) = nn_thresholds sf.
Proof.
  destruct e as [[n c]|]; [|done]. simpl. unfold Nnary.nnarySnowflake_RecordPoll.
  destruct (Nnary.finalized sf) eqn:Ef; [done|].
  destruct (n <? _); [by unfold nn_abs; simpl; rewrite ?Ef|].
  destruct (n <? _); by unfold nn_abs; simpl; rewrite ?Ef.
Qed.

Lemma bin_sb_event_snowflake sb e :
  Binary.sb_snowflake (bin_sb_event sb e) = bin_event (Binary.sb_snowflake sb) e.
Proof.
  destruct e as [[n c]|]; [|done]. simpl. unfold Binary.binarySnowball_RecordPoll.
  by destruct (_ <=? n).
Qed.

Lemma nn_sb_event_snowflake sb e :
  Nnary.sb_snowflake (nn_sb_event sb e) = nn_event (Nnary.sb_snowflake sb) e.
Proof.
  destruct e as [[n c]|]; [|done]. simpl. unfold Nnary.nnarySnowball_RecordPoll.
  destruct (_ <=? n); [|done]. by destruct (_ <? _).
Qed.

Section runs.
Variables (alphaP alphaC beta : Z).

Definition bin_run (init : Z) (h : list event) : Binary.binarySnowball :=
  foldr (λ e sb, bin_sb_event sb e) (Binary.newBinarySnowball alphaP alphaC beta init) h.
Definition nn_run (init : ID) (h : list event) : Nnary.nnarySnowball :=
  foldr (λ e sb, nn_sb_event sb e) (Nnary.newNnarySnowball alphaP alphaC beta init) h.

Lemma bin_run_refines init h :
  bin_abs (Binary.sb_snowflake (bin_run init h)) = run alphaP alphaC beta init h
  ∧ bin_thresholds (Binary.sb_snowflake (bin_run init h)) = (alphaP, alphaC, beta).
Proof.
  induction h as [|e h [IH1 IH2]]; simpl; [done|]. rewrite bin_sb_event_snowflake.
  destruct (bin_event_refines (Binary.sb_snowflake (bin_run init h)) e) as [-> ->].
  rewrite IH1. unfold bin_thresholds in *. injection IH2 as E1 E2 E3. by rewrite E1, E2, E3.
Qed.

Lemma nn_run_refines init h :
  nn_abs (Nnary.sb_snowflake (nn_run init h)) = run alphaP alphaC beta init h
  ∧ nn_thresholds (Nnary.sb_snowflake (nn_run init h)) = (alphaP, alphaC, beta).
Proof.
  induction h as [|e h [IH1 IH2]]; simpl; [done|]. rewrite nn_sb_event_snowflake.
  destruct (nn_event_refines (Nnary.sb_snowflake (nn_run init h)) e) as [-> ->].
  rewrite IH1. unfold nn_thresholds in *. injection IH2 as E1 E2 E3. by rewrite E1, E2, E3.
Qed.

(** The support of a choice: the number of polls of the history in which it got
    at least [alphaP] votes. *)
Definition support {C} `{EqDecision C} (h : list (Spec.event (C := C))) (c : C) : Z :=
  foldr (λ e acc, match e with
                  | Some (n, c') => if (alphaP <=? n) && bool_decide (c' = c) then 1 + acc else acc
                  | None => acc
                  end) 0 h.

Lemma support_nonneg {C} `{EqDecision C} (h : list (Spec.event (C := C))) c : 0 ≤ support h c.
Proof. induction h as [|[[n c']|] h IH]; simpl; [lia| |lia]. destruct (_ && _); lia. Qed.

(** The snowball preference is a choice with the largest support. *)
Lemma nn_run_strength init h :
  let sb := nn_run init h in
  (∀ c, default 0 (Nnary.preferenceStrength sb !! c) = support h c)
  ∧ (∀ c, support h c ≤ Nnary.maxPreferenceStrength sb)
  ∧ support h (Nnary.sb_preference sb) = Nnary.maxPreferenceStrength sb.
Proof.
  induction h as [|[[n c]|] h (IH1 & IH2 & IH3)]; simpl in *.
  { split_and!; intros; [by rewrite lookup_empty|lia|done]. }
  2: by split_and!.
  destruct (nn_run_refines init h) as [_ Ht]. unfold nn_thresholds in Ht. injection Ht as Ht _ _.
  set (sb := nn_run init h) in *. unfold Nnary.nnarySnowball_RecordPoll.
  rewrite Ht. destruct (alphaP <=? n) eqn:En; simpl; [|by split_and!].
  rewrite IH1. destruct (Z.ltb_spec (Nnary.maxPreferenceStrength sb) (support h c + 1)); simpl.
  - split_and!.
    + intros c'. rewrite lookup_insert. case_decide; case_bool_decide; simplify_eq/=; [lia|apply IH1].
    + intros c'. specialize (IH2 c'). case_bool_decide; subst; lia.
    + rewrite bool_decide_true by done. lia.
  - split_and!.
    + intros c'. rewrite lookup_insert. case_decide; case_bool_decide; simplify_eq/=; [lia|apply IH1].
    + intros c'. specialize (IH2 c'). case_bool_decide; subst; lia.
    + case_bool_decide; subst; lia.
Qed.

(** The binary snowball: the preferred choice is at least as supported as the
    other one, when every poll is for choice 0 or 1. *)
Definition binary_history (h : list (Spec.event (C := Z))) : Prop :=
  Forall (λ e, match e with Some (_, c) => is_choice c | None => True end) h.

Lemma bin_run_strength init h :
  is_choice init → binary_history h →
  let sb := bin_run init h in
  is_choice (Binary.sb_preference sb)
  ∧ (∀ c, is_choice c → get2 (Binary.preferenceStrength sb) c = support h c)
  ∧ support h (1 - Binary.sb_preference sb) ≤ support h (Binary.sb_preference sb).
Proof.
  intros Hinit Hh. induction Hh as [|[[n c]|] h Hc Hh IH]; simpl in *.
  { split_and!; [done| |lia]. intros c [-> | ->]; done. }
  2: done.
  destruct IH as (IH1 & IH2 & IH3).
  destruct (bin_run_refines init h) as [_ Ht]. injection Ht as Ht _ _.
  set (sb := bin_run init h) in *. unfold Binary.binarySnowball_RecordPoll.
  rewrite Ht. destruct (alphaP <=? n) eqn:En; simpl; [|by split_and!].
  rewrite !get2_set2_eq, get2_set2_ne by (auto with ava; unfold is_choice in *; lia).
  rewrite !IH2 by auto with ava.
  assert (∀ c', is_choice c' →
    get2 (set2 (Binary.preferenceStrength sb) c (support h c + 1)) c'
    = (if bool_decide (c = c') then 1 + support h c' else support h c')) as Hget.
  { intros c' Hc'. case_bool_decide; [subst; rewrite get2_set2_eq; lia|].
    rewrite get2_set2_ne by done. by apply IH2. }
  destruct (Z.ltb_spec (support h (1 - c)) (support h c + 1)); simpl; split_and!; auto.
  - repeat case_bool_decide; unfold is_choice in *; lia.
  - destruct (is_choice_cases c (Binary.sb_preference sb) Hc IH1) as [E|E]; rewrite E in *;
      replace (1 - (1 - c)) with c in * by lia;
      repeat case_bool_decide; unfold is_choice in *; lia.
Qed.

(** ** Unary instances and their extension

    A unary instance that did not finalize extends to the binary instance that
    would have seen the same polls, all for the original choice. *)

Definition un_sb_event (sb : Unary.unarySnowball) (e : option Z) : Unary.unarySnowball :=
  match e with
  | None => Unary.unarySnowball_RecordUnsuccessfulPoll sb
  | Some n => Unary.unarySnowball_RecordPoll sb n
  end.

(** A poll of a unary instance, as a poll for the choice [c]. *)
Definition with_choice (c : Z) (e : option Z) : Spec.event (C := Z) :=
  option_map (λ n, (n, c)) e.

Definition un_run (h : list (option Z)) : Unary.unarySnowball :=
  foldr (λ e sb, un_sb_event sb e) (Unary.newUnarySnowball alphaP alphaC beta) h.

Lemma un_sb_event_extend sb e c :
  is_choice c →
  Unary.alphaPreference (Unary.sb_snowflake sb) ≤ Unary.alphaConfidence (Unary.sb_snowflake sb) →
  Unary.unarySnowball_Finalized sb = false →
  Unary.unarySnowball_Extend (un_sb_event sb e) c
  = bin_sb_event (Unary.unarySnowball_Extend sb c) (with_choice c e).
Proof.
  intros Hc Hle Hfin. destruct sb as [[be aP aC co fi] st].
  unfold Unary.unarySnowball_Finalized, Unary.unarySnowflake_Finalized in Hfin. simpl in *. subst fi.
  assert (∀ x : Z, get2 (set2 (0, 0) c x) (1 - c) = 0) as Hz by (by destruct Hc as [-> | ->]).
  destruct e as [n|]; [|done]. simpl.
  unfold Unary.unarySnowball_RecordPoll, Binary.binarySnowball_RecordPoll, Unary.unarySnowball_Extend, Unary.unarySnowflake_RecordPoll,
    Binary.binarySnowflake_RecordPoll, Unary.unarySnowball_Finalized, Unary.unarySnowflake_Finalized, Binary.binarySnowflake_Preference.
  simpl.
  assert (∀ x y : Z, set2 (set2 (0, 0) c x) c y = set2 (0, 0) c y) as Hss
    by (intros; by destruct Hc as [-> | ->]).
  destruct (Z.leb_spec aP n); simpl; rewrite ?get2_set2_eq, ?Hss, ?Hz, ?Z.eqb_refl.
  - rewrite (proj2 (Z.ltb_ge n aP)) by lia.
    destruct (n <? aC); simpl; by destruct (_ <? _).
  - rewrite (proj2 (Z.ltb_lt n aP)), (proj2 (Z.ltb_lt n aC)) by lia. done.
Qed.

Lemma un_run_thresholds h :
  let sf := Unary.sb_snowflake (un_run h) in
  Unary.alphaPreference sf = alphaP ∧ Unary.alphaConfidence sf = alphaC ∧ Unary.beta sf = beta.
Proof.
  induction h as [|[n|] h IH]; simpl in *; [done| |done].
  unfold Unary.unarySnowflake_RecordPoll. by destruct (_ <? _).
Qed.

Lemma un_run_finalized_mono h e :
  Unary.unarySnowball_Finalized (un_run h) = true → Unary.unarySnowball_Finalized (un_run (e :: h)) = true.
Proof.
  unfold Unary.unarySnowball_Finalized, Unary.unarySnowflake_Finalized. intros Hf. destruct e as [n|]; simpl; [|done].
  unfold Unary.unarySnowflake_RecordPoll. destruct (_ <? _); simpl; [done|]. by rewrite Hf.
Qed.

Lemma un_run_extend h c :
  is_choice c → alphaP ≤ alphaC → Unary.unarySnowball_Finalized (un_run h) = false →
  Unary.unarySnowball_Extend (un_run h) c = bin_run c (map (with_choice c) h).
Proof.
  intros Hc Hle. induction h as [|e h IH]; intros Hf.
  { by destruct Hc as [-> | ->]. }
  destruct (un_run_thresholds h) as (T1 & T2 & _).
  assert (Unary.unarySnowball_Finalized (un_run h) = false) as Hf'.
  { destruct (Unary.unarySnowball_Finalized (un_run h)) eqn:E; [|done].
    by rewrite (un_run_finalized_mono h e E) in Hf. }
  change (un_run (e :: h)) with (un_sb_event (un_run h) e).
  rewrite un_sb_event_extend by (done || lia). by rewrite (IH Hf').
Qed.
End runs.
End Refine.

(** ** The interfaces and their factories *)

(** The interfaces [Unary], [Binary], [Nnary] and [Factory] of [consensus.go]. *)
Class Factory := {
  unary : Type;
  binary : Type;
  nnary : Type;
  NewNnary : Parameters → ID → nnary;
  NewUnary : Parameters → unary;
  N_Add : nnary → ID → nnary;
  N_Preference : nnary → ID;
  N_RecordPoll : nnary → Z → ID → nnary;
  N_RecordUnsuccessfulPoll : nnary → nnary;
  N_Finalized : nnary → bool;
  B_Preference : binary → Z;
  B_RecordPoll : binary → Z → Z → binary;
  B_RecordUnsuccessfulPoll : binary → binary;
  B_Finalized : binary → bool;
  U_RecordPoll : unary → Z → unary;
  U_RecordUnsuccessfulPoll : unary → unary;
  U_Finalized : unary → bool;
  U_Extend : unary → Z → binary;
  U_Clone : unary → unary;
}.

Definition snowballFactory : Factory := {|
  NewNnary params choice :=
    Nnary.newNnarySnowball (AlphaPreference params) (AlphaConfidence params) (Beta params) choice;
  NewUnary params :=
    Unary.newUnarySnowball (AlphaPreference params) (AlphaConfidence params) (Beta params);
  N_Add := Nnary.nnarySnowball_Add;
  N_Preference := Nnary.nnarySnowball_Preference;
  N_RecordPoll := Nnary.nnarySnowball_RecordPoll;
  N_RecordUnsuccessfulPoll := Nnary.nnarySnowball_RecordUnsuccessfulPoll;
  N_Finalized := Nnary.nnarySnowball_Finalized;
  B_Preference := Binary.binarySnowball_Preference;
  B_RecordPoll := Binary.binarySnowball_RecordPoll;
  B_RecordUnsuccessfulPoll := Binary.binarySnowball_RecordUnsuccessfulPoll;
  B_Finalized := Binary.binarySnowball_Finalized;
  U_RecordPoll := Unary.unarySnowball_RecordPoll;
  U_RecordUnsuccessfulPoll := Unary.unarySnowball_RecordUnsuccessfulPoll;
  U_Finalized := Unary.unarySnowball_Finalized;
  U_Extend := Unary.unarySnowball_Extend;
  U_Clone := Unary.unarySnowball_Clone;
|}.

Definition snowflakeFactory : Factory := {|
  NewNnary params choice :=
    Nnary.newNnarySnowflake (AlphaPreference params) (AlphaConfidence params) (Beta params) choice;
  NewUnary params :=
    Unary.newUnarySnowflake (AlphaPreference params) (AlphaConfidence params) (Beta params);
  N_Add := Nnary.nnarySnowflake_Add;
  N_Preference := Nnary.nnarySnowflake_Preference;
  N_RecordPoll := Nnary.nnarySnowflake_RecordPoll;
  N_RecordUnsuccessfulPoll := Nnary.nnarySnowflake_RecordUnsuccessfulPoll;
  N_Finalized := Nnary.nnarySnowflake_Finalized;
  B_Preference := Binary.binarySnowflake_Preference;
  B_RecordPoll := Binary.binarySnowflake_RecordPoll;
  B_RecordUnsuccessfulPoll := Binary.binarySnowflake_RecordUnsuccessfulPoll;
  B_Finalized := Binary.binarySnowflake_Finalized;
  U_RecordPoll := Unary.unarySnowflake_RecordPoll;
  U_RecordUnsuccessfulPoll := Unary.unarySnowflake_RecordUnsuccessfulPoll;
  U_Finalized := Unary.unarySnowflake_Finalized;
  U_Extend := Unary.unarySnowflake_Extend;
  U_Clone := Unary.unarySnowflake_Clone;
|}.

(** What a client of a factory relies on.  The laws speak of the confidence of an
    instance: [u_conf u], and [b_conf b c], the confidence of a binary instance in
    the choice [c] (zero unless [c] is its snowflake preference).  [u_ok] and
    [b_ok] are invariants of the instances that the factory produces. *)
Class FactoryLaws (F : Factory) := {
  u_ok : Parameters → unary → Prop;
  b_ok : Parameters → binary → Prop;
  u_conf : unary → Z;
  b_conf : binary → Z → Z;

  law_new_unary p :
    1 ≤ Beta p →
    u_ok p (NewUnary p) ∧ u_conf (NewUnary p) = 0 ∧ U_Finalized (NewUnary p) = (false : bool);
  law_u_ok p u :
    u_ok p u → 1 ≤ Beta p ∧ 0 ≤ u_conf u ∧ (U_Finalized u = false → u_conf u < Beta p);
  law_U_poll p u n :
    u_ok p u →
    u_ok p (U_RecordPoll u n)
    ∧ u_conf (U_RecordPoll u n) = (if n <? AlphaConfidence p then 0 else u_conf u + 1)
    ∧ U_Finalized (U_RecordPoll u n)
      = U_Finalized u || (Beta p <=? u_conf (U_RecordPoll u n));
  law_U_reset p u :
    u_ok p u →
    u_ok p (U_RecordUnsuccessfulPoll u)
    ∧ u_conf (U_RecordUnsuccessfulPoll u) = 0
    ∧ U_Finalized (U_RecordUnsuccessfulPoll u) = U_Finalized u;
  law_U_clone u : U_Clone u = u;
  law_extend p u c :
    u_ok p u → is_choice c → U_Finalized u = false →
    b_ok p (U_Extend u c) ∧ B_Preference (U_Extend u c) = c
    ∧ B_Finalized (U_Extend u c) = false
    ∧ ∀ i, b_conf (U_Extend u c) i = if i =? c then u_conf u else 0;

  law_b_ok p b :
    b_ok p b →
    is_choice (B_Preference b) ∧ ∀ i, 0 ≤ b_conf b i ∧ (B_Finalized b = false → b_conf b i < Beta p);
  law_B_poll p b n c :
    b_ok p b → is_choice c → B_Finalized b = false →
    b_ok p (B_RecordPoll b n c)
    ∧ (∀ i, b_conf (B_RecordPoll b n c) i
            = if (n <? AlphaPreference p) || (n <? AlphaConfidence p) then 0
              else if i =? c then b_conf b c + 1 else 0)
    ∧ B_Finalized (B_RecordPoll b n c) = (Beta p <=? b_conf (B_RecordPoll b n c) c)
    ∧ (B_Finalized (B_RecordPoll b n c) = true → B_Preference (B_RecordPoll b n c) = c);
  law_B_stable p b n c :
    b_ok p b → is_choice c → B_Finalized b = true →
    b_ok p (B_RecordPoll b n c)
    ∧ B_Finalized (B_RecordPoll b n c) = true ∧ B_Preference (B_RecordPoll b n c) = B_Preference b;
  law_B_reset p b :
    b_ok p b →
    b_ok p (B_RecordUnsuccessfulPoll b)
    ∧ (∀ i, b_conf (B_RecordUnsuccessfulPoll b) i = 0)
    ∧ B_Preference (B_RecordUnsuccessfulPoll b) = B_Preference b
    ∧ B_Finalized (B_RecordUnsuccessfulPoll b) = B_Finalized b;

  law_N_stable s n c :
    N_Finalized s = true →
    N_Finalized (N_RecordPoll s n c) = true ∧ N_Preference (N_RecordPoll s n c) = N_Preference s;
  law_N_reset s :
    N_Preference (N_RecordUnsuccessfulPoll s) = N_Preference s
    ∧ N_Finalized (N_RecordUnsuccessfulPoll s) = N_Finalized s;
}.

(** *** The invariants of the snowflake instances *)

Definition un_sf_ok (p : Parameters) (sf : Unary.unarySnowflake) : Prop :=
  Unary.alphaPreference sf = AlphaPreference p ∧ Unary.alphaConfidence sf = AlphaConfidence p
  ∧ Unary.beta sf = Beta p ∧ 1 ≤ Beta p ∧ 0 ≤ Unary.confidence sf
  ∧ (Unary.finalized sf = false → Unary.confidence sf < Beta p).

Definition bin_sf_ok (p : Parameters) (sf : Binary.binarySnowflake) : Prop :=
  Binary.alphaPreference sf = AlphaPreference p ∧ Binary.alphaConfidence sf = AlphaConfidence p
  ∧ Binary.beta sf = Beta p ∧ 1 ≤ Beta p ∧ 0 ≤ Binary.confidence sf
  ∧ is_choice (Binary.binarySnowflake_Preference sf)
  ∧ (Binary.finalized sf = false → Binary.confidence sf < Beta p).

Definition bin_sf_conf (sf : Binary.binarySnowflake) (i : Z) : Z :=
  if i =? Binary.binarySnowflake_Preference sf then Binary.confidence sf else 0.

Lemma un_sf_new_ok p :
  1 ≤ Beta p →
  un_sf_ok p (Unary.newUnarySnowflake (AlphaPreference p) (AlphaConfidence p) (Beta p)).
Proof. intros. unfold un_sf_ok. simpl. split_and!; (done || lia). Qed.

Lemma un_sf_poll_ok p sf n :
  un_sf_ok p sf →
  un_sf_ok p (Unary.unarySnowflake_RecordPoll sf n)
  ∧ Unary.confidence (Unary.unarySnowflake_RecordPoll sf n)
    = (if n <? AlphaConfidence p then 0 else Unary.confidence sf + 1)
  ∧ Unary.finalized (Unary.unarySnowflake_RecordPoll sf n)
    = Unary.finalized sf || (Beta p <=? Unary.confidence (Unary.unarySnowflake_RecordPoll sf n)).
Proof.
  intros (H1 & H2 & H3 & H4 & H5 & H6). unfold Unary.unarySnowflake_RecordPoll, un_sf_ok. rewrite H2.
  destruct (n <? AlphaConfidence p); simpl; rewrite ?H3.
  - rewrite (proj2 (Z.leb_gt _ _)), orb_false_r by lia. split_and!; auto; lia.
  - split_and!; auto; [lia|]. intros [_ Hb]%orb_false_iff. bool_to_prop. lia.
Qed.

Lemma un_sf_reset_ok p sf : un_sf_ok p sf → un_sf_ok p (Unary.unarySnowflake_RecordUnsuccessfulPoll sf).
Proof. unfold un_sf_ok. simpl. naive_solver lia. Qed.

Lemma un_sf_extend_ok p sf c :
  un_sf_ok p sf → is_choice c → bin_sf_ok p (Unary.unarySnowflake_Extend sf c).
Proof. unfold un_sf_ok, bin_sf_ok. simpl. naive_solver. Qed.

Lemma bin_sf_poll_ok p sf n c :
  bin_sf_ok p sf → is_choice c → Binary.finalized sf = false →
  let sf' := Binary.binarySnowflake_RecordPoll sf n c in
  bin_sf_ok p sf'
  ∧ (∀ i, bin_sf_conf sf' i
          = if (n <? AlphaPreference p) || (n <? AlphaConfidence p) then 0
            else if i =? c then bin_sf_conf sf c + 1 else 0)
  ∧ Binary.finalized sf' = (Beta p <=? bin_sf_conf sf' c)
  ∧ (Binary.finalized sf' = true → Binary.binarySnowflake_Preference sf' = c).
Proof.
  intros (H1 & H2 & H3 & H4 & H5 & H6 & H7) Hc Hf sf'. subst sf'.
  unfold Binary.binarySnowflake_RecordPoll, bin_sf_ok, bin_sf_conf. rewrite Hf, H1, H2, H3.
  assert ((Beta p <=? 0) = false) as Hb0 by (apply Z.leb_gt; lia).
  destruct (n <? AlphaPreference p); simpl.
  { split_and!; auto; try lia; try congruence; [intros i|]; destruct (_ =? _); congruence. }
  destruct (n <? AlphaConfidence p); simpl.
  { split_and!; auto; try lia; try congruence; [intros i|]; destruct (_ =? _); congruence. }
  change (Binary.binarySnowflake_Preference (Binary.mkSnowflake _ _ _ _ _ _)) with c.
  rewrite !Z.eqb_refl, (Z.eqb_sym c).
  destruct (Z.eqb_spec (Binary.binarySnowflake_Preference sf) c) as [E|E];
    (split_and!; auto; [lia|]); intros; bool_to_prop; lia.
Qed.

Lemma bin_sf_reset_ok p sf :
  bin_sf_ok p sf →
  bin_sf_ok p (Binary.binarySnowflake_RecordUnsuccessfulPoll sf)
  ∧ ∀ i, bin_sf_conf (Binary.binarySnowflake_RecordUnsuccessfulPoll sf) i = 0.
Proof.
  unfold bin_sf_ok, bin_sf_conf. simpl. intros H. split; [naive_solver lia|].
  intros i. by destruct (_ =? _).
Qed.

Lemma bin_sf_conf_bounds p sf i :
  bin_sf_ok p sf →
  0 ≤ bin_sf_conf sf i ∧ (Binary.finalized sf = false → bin_sf_conf sf i < Beta p).
Proof.
  unfold bin_sf_ok, bin_sf_conf. intros (H1 & H2 & H3 & H4 & H5 & H6 & H7).
  destruct (_ =? _); naive_solver lia.
Qed.

Lemma bin_sf_stable sf n c :
  Binary.finalized sf = true → Binary.binarySnowflake_RecordPoll sf n c = sf.
Proof. intros H. unfold Binary.binarySnowflake_RecordPoll. by rewrite H. Qed.

Lemma nn_sf_stable sf n c :
  Nnary.finalized sf = true → Nnary.nnarySnowflake_RecordPoll sf n c = sf.
Proof. intros H. unfold Nnary.nnarySnowflake_RecordPoll. by rewrite H. Qed.

Lemma bin_sb_snowflake sb n c :
  Binary.sb_snowflake (Binary.binarySnowball_RecordPoll sb n c) = Binary.binarySnowflake_RecordPoll (Binary.sb_snowflake sb) n c.
Proof. apply (Refine.bin_sb_event_snowflake sb (Some (n, c))). Qed.

Lemma bin_sb_preference_choice sb n c :
  is_choice (Binary.sb_preference sb) → is_choice c →
  is_choice (Binary.sb_preference (Binary.binarySnowball_RecordPoll sb n c)).
Proof.
  intros Hb Hc. unfold Binary.binarySnowball_RecordPoll. destruct (_ <=? _); simpl; [|done].
  by destruct (_ <? _).
Qed.

Lemma nn_sb_snowflake sb n c :
  Nnary.sb_snowflake (Nnary.nnarySnowball_RecordPoll sb n c) = Nnary.nnarySnowflake_RecordPoll (Nnary.sb_snowflake sb) n c.
Proof. apply (Refine.nn_sb_event_snowflake sb (Some (n, c))). Qed.

(** Replace the methods of an interface by those of the instance. *)
Ltac factory_simpl :=
  cbn [snowballFactory snowflakeFactory NewNnary NewUnary N_Add N_Preference N_RecordPoll
       N_RecordUnsuccessfulPoll N_Finalized B_Preference B_RecordPoll B_RecordUnsuccessfulPoll
       B_Finalized U_RecordPoll U_RecordUnsuccessfulPoll U_Finalized U_Extend U_Clone].

#[export] Instance snowflake_laws : FactoryLaws snowflakeFactory.
Proof.
  unshelve eapply (Build_FactoryLaws snowflakeFactory un_sf_ok bin_sf_ok
    Unary.confidence bin_sf_conf); factory_simpl.
  - intros p Hp. split; [by apply un_sf_new_ok|done].
  - unfold un_sf_ok. naive_solver.
  - intros p u n. apply un_sf_poll_ok.
  - intros p u Hu. split; [by apply un_sf_reset_ok|done].
  - done.
  - intros p u c Hu Hc Hf. by split; [apply un_sf_extend_ok|].
  - intros p b Hb. split; [unfold bin_sf_ok in Hb; naive_solver|].
    intros i. by apply bin_sf_conf_bounds.
  - intros p b n c. apply bin_sf_poll_ok.
  - intros p b n c Hb Hc Hf. by rewrite bin_sf_stable.
  - intros p b Hb. destruct (bin_sf_reset_ok p b Hb). done.
  - intros s n c Hf. by rewrite nn_sf_stable.
  - done.
Defined.

#[export] Instance snowball_laws : FactoryLaws snowballFactory.
Proof.
  unshelve eapply (Build_FactoryLaws snowballFactory
    (λ p u, un_sf_ok p (Unary.sb_snowflake u))
    (λ p b, bin_sf_ok p (Binary.sb_snowflake b) ∧ is_choice (Binary.sb_preference b))
    (λ u, Unary.confidence (Unary.sb_snowflake u))
    (λ b, bin_sf_conf (Binary.sb_snowflake b))); factory_simpl.
  - intros p Hp. split; [by apply un_sf_new_ok|done].
  - unfold un_sf_ok. naive_solver.
  - intros p u n. apply un_sf_poll_ok.
  - intros p u Hu. split; [by apply un_sf_reset_ok|done].
  - done.
  - intros p u c Hu Hc Hf. split; [split; [by apply (un_sf_extend_ok p (Unary.sb_snowflake u))|done]|].
    unfold Binary.binarySnowball_Preference, Binary.binarySnowball_Finalized. simpl.
    unfold Binary.binarySnowflake_Finalized. simpl. rewrite Hf. done.
  - intros p b [Hb Hs]. split.
    + unfold Binary.binarySnowball_Preference. destruct (Binary.binarySnowball_Finalized b); [|done].
      unfold bin_sf_ok in Hb. naive_solver.
    + intros i. by apply bin_sf_conf_bounds.
  - intros p b n c [Hb Hs] Hc Hf. unfold Binary.binarySnowball_Preference, Binary.binarySnowball_Finalized in *.
    rewrite bin_sb_snowflake.
    destruct (bin_sf_poll_ok p (Binary.sb_snowflake b) n c Hb Hc Hf) as (A & B & D & E).
    split; [split; auto using bin_sb_preference_choice|]. split; [exact B|]. split; [exact D|].
    unfold Binary.binarySnowflake_Finalized in *. intros Hf'. rewrite Hf'. by apply E.
  - intros p b n c [Hb Hs] Hc Hf. unfold Binary.binarySnowball_Preference, Binary.binarySnowball_Finalized in *.
    rewrite bin_sb_snowflake, bin_sf_stable by done.
    split_and!; auto using bin_sb_preference_choice. by rewrite Hf.
  - intros p b [Hb Hs]. destruct (bin_sf_reset_ok p (Binary.sb_snowflake b) Hb). done.
  - intros s n c Hf. unfold Nnary.nnarySnowball_Preference, Nnary.nnarySnowball_Finalized in *.
    rewrite nn_sb_snowflake, nn_sf_stable by done. by rewrite Hf.
  - done.
Defined.

(** ** The flat instance *)

Record Flat `{Factory} := mkFlat { flat_nnary : nnary; flat_params : Parameters }.

Definition NewFlat `{Factory} (params : Parameters) (choice : ID) : Flat :=
  mkFlat _ (NewNnary params choice) params.

(** [RecordPoll], with the order in which [votes.Mode()] iterates. *)
Definition Flat_RecordPoll `{Factory} (f : Flat) (order : list (ID * Z)) : Flat * bool :=
  let '(pollMode, numVotes) := Mode_iter order in
  (mkFlat _ (N_RecordPoll (flat_nnary f) numVotes pollMode) (flat_params f),
   AlphaPreference (flat_params f) <=? numVotes).

(** An unsuccessful poll has the same effect whatever the choice. *)
Lemma nn_sb_below_alpha sb n c1 c2 :
  n < Nnary.alphaPreference (Nnary.sb_snowflake sb) →
  Nnary.nnarySnowball_RecordPoll sb n c1 = Nnary.nnarySnowball_RecordPoll sb n c2.
Proof.
  intros Hn. unfold Nnary.nnarySnowball_RecordPoll, Nnary.nnarySnowflake_RecordPoll.
  rewrite (proj2 (Z.leb_gt _ _)) by lia.
  destruct (Nnary.finalized _); [done|]. by rewrite (proj2 (Z.ltb_lt _ _)) by lia.
Qed.

(** ** Properties *)

(** [Verify] accepts the parameters exactly when they meet the conditions that
    its comment lists; the remaining case of the switch is unreachable.  Accepted
    parameters have [K >= 1], and an [AlphaPreference] majority of at most [K]
    votes is an absolute majority. *)
Theorem verify_correct p :
  (Verify p = Ok () ↔ valid_parameters p)
  ∧ Verify p ≠ Err errEasterEgg
  ∧ (Verify p = Ok () → 1 ≤ K p ∧ 0 < AlphaPreference p ∧ K p < 2 * AlphaPreference p).
Proof.
  split_and!; [apply Verify_Ok_iff| |].
  - unfold Verify. split_ifs; try done. lia.
  - intros Hv%Verify_Ok_iff. pose proof (valid_alpha_majority p Hv).
    unfold valid_parameters in Hv. lia.
Qed.

(** C25. Finalization of a snowball instance over any number of choices.  After any
    history of polls, the instance is finalized exactly when at some time the last
    [beta] polls in a row gave one and the same choice at least [alphaP] and
    [alphaC] votes, and a finalized instance prefers such a choice. *)
Theorem nnary_snowball_finalizes alphaP alphaC beta init h :
  1 ≤ beta →
  let sb := Refine.nn_run alphaP alphaC beta init h in
  (Nnary.nnarySnowball_Finalized sb = true ↔ ∃ c, Spec.decided alphaP alphaC beta h c)
  ∧ (Nnary.nnarySnowball_Finalized sb = true → Spec.decided alphaP alphaC beta h (Nnary.nnarySnowball_Preference sb)).
Proof.
  intros Hb sb. destruct (Refine.nn_run_refines alphaP alphaC beta init h) as [Href _].
  destruct (Spec.run_finalized alphaP alphaC beta init h Hb) as [H1 H2].
  rewrite <- Href in H1, H2. split; [exact H1|]. intros Hf.
  unfold Nnary.nnarySnowball_Preference. rewrite Hf. by apply H2.
Qed.

(** The same for the binary snowball instance. *)
Theorem binary_snowball_finalizes alphaP alphaC beta init h :
  1 ≤ beta →
  let sb := Refine.bin_run alphaP alphaC beta init h in
  (Binary.binarySnowball_Finalized sb = true ↔ ∃ c, Spec.decided alphaP alphaC beta h c)
  ∧ (Binary.binarySnowball_Finalized sb = true → Spec.decided alphaP alphaC beta h (Binary.binarySnowball_Preference sb)).
Proof.
  intros Hb sb. destruct (Refine.bin_run_refines alphaP alphaC beta init h) as [Href _].
  destruct (Spec.run_finalized alphaP alphaC beta init h Hb) as [H1 H2].
  rewrite <- Href in H1, H2. split; [exact H1|]. intros Hf.
  unfold Binary.binarySnowball_Preference. rewrite Hf. by apply H2.
Qed.

(** While it is not finalized, a snowball instance prefers a choice with the
    largest number of polls that reached [alphaP] votes, and it stores exactly
    those numbers. *)
Theorem nnary_snowball_prefers_strongest alphaP alphaC beta init h :
  let sb := Refine.nn_run alphaP alphaC beta init h in
  Nnary.nnarySnowball_Finalized sb = false →
  (∀ c, default 0 (Nnary.preferenceStrength sb !! c) = Refine.support alphaP h c)
  ∧ (∀ c, Refine.support alphaP h c ≤ Refine.support alphaP h (Nnary.nnarySnowball_Preference sb)).
Proof.
  intros sb Hf. destruct (Refine.nn_run_strength alphaP alphaC beta init h) as (A & B & D).
  split; [exact A|]. intros c. unfold Nnary.nnarySnowball_Preference. fold sb in A, B, D. rewrite Hf, D. apply B.
Qed.

(** Extending a unary instance that is not finalized gives the binary instance
    that would have recorded the same polls for the original choice. *)
Theorem unary_extend_replays alphaP alphaC beta h c :
  is_choice c → alphaP ≤ alphaC →
  Unary.unarySnowball_Finalized (Refine.un_run alphaP alphaC beta h) = false →
  Unary.unarySnowball_Extend (Refine.un_run alphaP alphaC beta h) c
  = Refine.bin_run alphaP alphaC beta c (map (Refine.with_choice c) h).
Proof. intros. by apply Refine.un_run_extend. Qed.

(** The flat instance does not depend on the order in which Go iterates over
    the votes: with valid parameters and at most [K] votes, recording a poll gives
    the same state and the same answer for every order. *)
Theorem flat_order_irrelevant (sb : Nnary.nnarySnowball) (p : Parameters) (votes : Bag ID) o1 o2 :
  valid_parameters p →
  Nnary.alphaPreference (Nnary.sb_snowflake sb) = AlphaPreference p →
  wf_bag votes → Len votes ≤ K p → iteration votes o1 → iteration votes o2 →
  Flat_RecordPoll (mkFlat snowballFactory sb p) o1 = Flat_RecordPoll (mkFlat snowballFactory sb p) o2.
Proof.
  intros Hp Ha Hwf Hlen H1 H2. unfold Flat_RecordPoll.
  pose proof (Mode_iter_freq votes o1 o2 Hwf H1 H2) as Hfreq.
  destruct (Mode_iter_spec votes o1 Hwf H1) as (_ & _ & Hmax).
  destruct (Mode_iter o1) as [m1 n1] eqn:E1. destruct (Mode_iter o2) as [m2 n2] eqn:E2.
  simpl in *. subst n2. pose proof (valid_alpha_majority p Hp).
  destruct (decide (n1 < AlphaPreference p)) as [Hlt|Hge].
  - by rewrite (nn_sb_below_alpha sb n1 m1 m2) by lia.
  - specialize (Hmax ltac:(lia)).
    rewrite (Mode_iter_majority votes o2 m1) in E2 by (done || lia). by simplify_eq.
Qed.

(** *** Witnesses *)

Definition idA : ID := [1] ++ replicate 31 0.
Definition idB : ID := [2] ++ replicate 31 0.

Lemma nnary_snowball_finalizes_witness :
  Nnary.nnarySnowball_Finalized (Refine.nn_run 3 4 2 idA [Some (5, idB); Some (4, idB); Some (3, idA)]) = true
  ∧ ∃ c, Spec.decided 3 4 2 [Some (5, idB); Some (4, idB); Some (3, idA)] c.
Proof.
  split; [reflexivity|].
  apply (nnary_snowball_finalizes 3 4 2 idA [Some (5, idB); Some (4, idB); Some (3, idA)]);
    [lia|reflexivity].
Defined.

Lemma binary_snowball_finalizes_witness :
  Binary.binarySnowball_Finalized (Refine.bin_run 3 4 2 0 [Some (5, 1); Some (4, 1); None; Some (3, 0)]) = true
  ∧ ∃ c, Spec.decided 3 4 2 [Some (5, 1); Some (4, 1); None; Some (3, 0)] c.
Proof.
  split; [reflexivity|].
  apply (binary_snowball_finalizes 3 4 2 0 [Some (5, 1); Some (4, 1); None; Some (3, 0)]);
    [lia|reflexivity].
Defined.

Lemma nnary_snowball_prefers_strongest_witness :
  Refine.support 3 [Some (5, idB); Some (4, idB); Some (3, idA)] idA
  ≤ Refine.support 3 [Some (5, idB); Some (4, idB); Some (3, idA)]
      (Nnary.nnarySnowball_Preference (Refine.nn_run 3 4 9 idA [Some (5, idB); Some (4, idB); Some (3, idA)])).
Proof.
  apply (nnary_snowball_prefers_strongest 3 4 9 idA [Some (5, idB); Some (4, idB); Some (3, idA)]).
  reflexivity.
Defined.

Lemma unary_extend_replays_witness :
  Unary.unarySnowball_Extend (Refine.un_run 3 4 9 [Some 5; None; Some 3]) 1
  = Refine.bin_run 3 4 9 1 [Some (5, 1); None; Some (3, 1)].
Proof.
  apply (unary_extend_replays 3 4 9 [Some 5; None; Some 3] 1); [by right|lia|reflexivity].
Defined.

Definition flat_votes : Bag ID := AddCount (AddCount empty_bag idA 16) idB 4.

Lemma flat_order_irrelevant_witness :
  Flat_RecordPoll (mkFlat snowballFactory (Nnary.newNnarySnowball 15 15 20 idA) DefaultParameters)
    (map_to_list (counts flat_votes))
  = Flat_RecordPoll (mkFlat snowballFactory (Nnary.newNnarySnowball 15 15 20 idA) DefaultParameters)
    (reverse (map_to_list (counts flat_votes))).
Proof.
  apply (flat_order_irrelevant _ _ flat_votes).
  - apply Verify_Ok_iff. reflexivity.
  - reflexivity.
  - repeat apply wf_AddCount. apply wf_empty_bag.
  - vm_compute. congruence.
  - apply iteration_self.
  - apply reverse_Permutation.
Defined.
