(* ===== verification/SnowTree.v ===== *)
(** * The tree of snowball instances

    Models [snow/consensus/snowball/tree.go]: a modified patricia tree over the
    bits of the choices.  A [unaryNode] votes on a range of bits on which all its
    choices agree, a [binaryNode] on one bit.  The tree and its nodes hold the
    parameters and the factory; here they are arguments.

    A node method that mutates its receiver and returns a node has two results: the
    receiver afterwards and the returned node.  [RecordPoll] uses both: a node that
    did not finalize keeps the (mutated) child it had, and a node that finalized is
    replaced by what its child returned.

    The invariant [wf_node] covers the shape of the tree (ranges of bits, agreement
    of the choices), that the stored preferences are those of the children, and
    that no instance of the tree is more confident than the one above it, where an
    instance that is marked for a reset counts as having no confidence.  The
    theorems show that the tree holds exactly the choices that were added, that a
    child never finalizes before its parent, and that decisions are final. *)

From S2P Require Import Prelude Ids Bag Snowball.

Open Scope Z_scope.

Section tree.
Context {F : Factory}.

(** ** Nodes *)

Inductive node : Type :=
  | unaryNode (preference : ID) (decidedPrefix commonPrefix : Z) (snow : unary)
      (shouldReset : bool) (child : option node)
  | binaryNode (preferences : ID * ID) (bit : Z) (snow : binary)
      (shouldReset : bool * bool) (child0 child1 : option node).

(** The induction principle that sees through the optional children. *)
Fixpoint node_ind' (P : node → Prop)
    (Hleaf : ∀ pref dP cP snow sr, P (unaryNode pref dP cP snow sr None))
    (Hun : ∀ pref dP cP snow sr c, P c → P (unaryNode pref dP cP snow sr (Some c)))
    (Hbin : ∀ prefs bit snow srs c0 c1,
        (∀ c, c0 = Some c → P c) → (∀ c, c1 = Some c → P c) →
        P (binaryNode prefs bit snow srs c0 c1))
    (n : node) {struct n} : P n :=
  match n with
  | unaryNode pref dP cP snow sr None => Hleaf pref dP cP snow sr
  | unaryNode pref dP cP snow sr (Some c) => Hun pref dP cP snow sr c (node_ind' P Hleaf Hun Hbin c)
  | binaryNode prefs bit snow srs c0 c1 =>
      Hbin prefs bit snow srs c0 c1
        (match c0 with
         | Some x => λ c E, match E in _ = o return (match o with Some c => P c | None => True end) with
                            | eq_refl => node_ind' P Hleaf Hun Hbin x end
         | None => λ c E, match E in _ = o return (match o with Some c => P c | None => True end) with
                          | eq_refl => I end
         end)
        (match c1 with
         | Some x => λ c E, match E in _ = o return (match o with Some c => P c | None => True end) with
                            | eq_refl => node_ind' P Hleaf Hun Hbin x end
         | None => λ c E, match E in _ = o return (match o with Some c => P c | None => True end) with
                          | eq_refl => I end
         end)
  end.

Definition node_Preference (n : node) : ID :=
  match n with
  | unaryNode preference _ _ _ _ _ => preference
  | binaryNode preferences _ snow _ _ _ => get2 preferences (B_Preference snow)
  end.

Definition node_DecidedPrefix (n : node) : Z :=
  match n with
  | unaryNode _ decidedPrefix _ _ _ _ => decidedPrefix
  | binaryNode _ bit _ _ _ _ => bit
  end.

Definition node_Finalized (n : node) : bool :=
  match n with
  | unaryNode _ _ _ snow _ _ => U_Finalized snow
  | binaryNode _ _ snow _ _ _ => B_Finalized snow
  end.

(** ** [unaryNode.Add] when the node must be split at bit [index] *)

Definition unary_split (params : Parameters) (preference : ID) (decidedPrefix commonPrefix : Z)
    (snow : unary) (shouldReset : bool) (child : option node) (newChoice : ID) (index : Z) : node :=
  let bit := Bit preference index in
  let b_snow := U_Extend snow bit in
  let b_shouldReset := (shouldReset, shouldReset) in
  let b_preferences := set2 (set2 (go_zero, go_zero) bit preference) (1 - bit) newChoice in
  let newChild := unaryNode newChoice (index + 1) NumBits (NewUnary params) false None in
  let b (children : option node * option node) :=
    binaryNode b_preferences index b_snow b_shouldReset children.1 children.2 in
  let with_child :=
    set2 (set2 (None, None) bit child) (1 - bit)
      (match child with Some _ => Some newChild | None => None end) in
  if decidedPrefix =? commonPrefix - 1 then
    (* this node was only voting over one bit *)
    b with_child
  else if index =? decidedPrefix then
    (* split on the first bit *)
    let u := unaryNode preference (decidedPrefix + 1) commonPrefix snow shouldReset child in
    b (set2 (set2 (None, None) bit (Some u)) (1 - bit) (Some newChild))
  else if index =? commonPrefix - 1 then
    (* split on the last bit *)
    unaryNode preference decidedPrefix (commonPrefix - 1) snow shouldReset (Some (b with_child))
  else
    (* split on an interior bit *)
    let u := unaryNode preference (index + 1) commonPrefix snow shouldReset child in
    unaryNode preference decidedPrefix index (U_Clone snow) false
      (Some (b (set2 (set2 (None, None) bit (Some u)) (1 - bit) (Some newChild)))).

Definition unary_Add (rec : node → ID → node) (params : Parameters) (preference : ID)
    (decidedPrefix commonPrefix : Z) (snow : unary) (shouldReset : bool) (child : option node)
    (newChoice : ID) : node :=
  if U_Finalized snow then unaryNode preference decidedPrefix commonPrefix snow shouldReset child
  else
    match FirstDifferenceSubset decidedPrefix commonPrefix preference newChoice with
    | (_, false) =>
        match child with
        | Some c =>
            unaryNode preference decidedPrefix commonPrefix snow shouldReset (Some (rec c newChoice))
        | None => unaryNode preference decidedPrefix commonPrefix snow shouldReset None
        end
    | (index, true) =>
        unary_split params preference decidedPrefix commonPrefix snow shouldReset child
          newChoice index
    end.

Definition binary_Add (rec : node → ID → node) (preferences : ID * ID) (b_bit : Z) (snow : binary)
    (shouldReset : bool * bool) (child0 child1 : option node) (id : ID) : node :=
  if Bit id b_bit =? 0 then
    match child0 with
    | Some c => binaryNode preferences b_bit snow shouldReset (Some (rec c id)) child1
    | None => binaryNode preferences b_bit snow shouldReset child0 child1
    end
  else
    match child1 with
    | Some c => binaryNode preferences b_bit snow shouldReset child0 (Some (rec c id))
    | None => binaryNode preferences b_bit snow shouldReset child0 child1
    end.

(** [Add] dispatches on the kind of the node; [rec] is [Add] of the child. *)
Fixpoint node_Add (params : Parameters) (n : node) (newChoice : ID) : node :=
  match n with
  | unaryNode preference decidedPrefix commonPrefix snow shouldReset child =>
      unary_Add (node_Add params) params preference decidedPrefix commonPrefix snow shouldReset
        child newChoice
  | binaryNode preferences bit snow shouldReset child0 child1 =>
      binary_Add (node_Add params) preferences bit snow shouldReset child0 child1 newChoice
  end.

(** ** [RecordPoll]

    Returns the receiver afterwards, the returned node and whether the poll was
    successful. *)

Definition unary_RecordPoll (rec : node → Bag ID → bool → node * node * bool)
    (params : Parameters) (preference : ID) (decidedPrefix commonPrefix : Z) (snow : unary)
    (shouldReset : bool) (child : option node) (votes : Bag ID) (reset : bool)
    : node * node * bool :=
  let snow := if reset then U_RecordUnsuccessfulPoll snow else snow in
  let shouldReset := if reset then true else shouldReset in
  let numVotes := Len votes in
  if numVotes <? AlphaPreference params then
    let u := unaryNode preference decidedPrefix commonPrefix
               (U_RecordUnsuccessfulPoll snow) true child in
    (u, u, false)
  else
    let snow := U_RecordPoll snow numVotes in
    match child with
    | Some c =>
        let '(c, newChild, _) := rec c votes shouldReset in
        if U_Finalized snow then
          (unaryNode preference decidedPrefix commonPrefix snow shouldReset (Some c), newChild, true)
        else
          let u := unaryNode (node_Preference c) decidedPrefix commonPrefix snow false (Some c) in
          (u, u, true)
    | None =>
        let u := unaryNode preference decidedPrefix commonPrefix snow false None in
        (u, u, true)
    end.

Definition binary_RecordPoll (rec : node → Bag ID → bool → node * node * bool)
    (params : Parameters) (preferences : ID * ID) (b_bit : Z) (snow : binary)
    (shouldReset : bool * bool) (child0 child1 : option node) (votes : Bag ID) (reset : bool)
    : node * node * bool :=
  let splitVotes := Split votes (λ id, Bit id b_bit =? 1) in
  let bit := if AlphaPreference params <=? Len splitVotes.2 then 1 else 0 in
  let snow := if reset then B_RecordUnsuccessfulPoll snow else snow in
  let shouldReset := if reset then set2 shouldReset bit true else shouldReset in
  let shouldReset := set2 shouldReset (1 - bit) true in
  let prunedVotes := get2 splitVotes bit in
  let numVotes := Len prunedVotes in
  if numVotes <? AlphaPreference params then
    let b := binaryNode preferences b_bit (B_RecordUnsuccessfulPoll snow)
               (set2 shouldReset bit true) child0 child1 in
    (b, b, false)
  else
    let snow := B_RecordPoll snow numVotes bit in
    let polled :=
      if bit =? 0
      then match child0 with Some c => Some (rec c prunedVotes (get2 shouldReset bit)) | None => None end
      else match child1 with Some c => Some (rec c prunedVotes (get2 shouldReset bit)) | None => None end in
    match polled with
    | Some (c, newChild, _) =>
        let children := set2 (child0, child1) bit (Some c) in
        if B_Finalized snow then
          (binaryNode preferences b_bit snow shouldReset children.1 children.2, newChild, true)
        else
          let b := binaryNode (set2 preferences bit (node_Preference newChild)) b_bit snow
                     (set2 shouldReset bit false) children.1 children.2 in
          (b, b, true)
    | None =>
        let b := binaryNode preferences b_bit snow (set2 shouldReset bit false) child0 child1 in
        (b, b, true)
    end.

(** [RecordPoll] dispatches on the kind of the node; [rec] is [RecordPoll] of the
    child. *)
Fixpoint node_RecordPoll (params : Parameters) (n : node) (votes : Bag ID) (reset : bool)
    : node * node * bool :=
  match n with
  | unaryNode preference decidedPrefix commonPrefix snow shouldReset child =>
      unary_RecordPoll (node_RecordPoll params) params preference decidedPrefix commonPrefix snow
        shouldReset child votes reset
  | binaryNode preferences bit snow shouldReset child0 child1 =>
      binary_RecordPoll (node_RecordPoll params) params preferences bit snow shouldReset
        child0 child1 votes reset
  end.

Arguments unary_Add _ _ _ _ _ _ _ _ _ /.
Arguments binary_Add _ _ _ _ _ _ _ _ /.
Arguments unary_RecordPoll _ _ _ _ _ _ _ _ _ _ /.
Arguments binary_RecordPoll _ _ _ _ _ _ _ _ _ _ /.

(** ** The tree *)

Record Tree := mkTree {
  t_node : node;
  t_params : Parameters;
  t_shouldReset : bool;
}.

Definition NewTree (params : Parameters) (choice : ID) : Tree :=
  mkTree (unaryNode choice 0 NumBits (NewUnary params) false None) params false.

Definition Tree_Preference (t : Tree) : ID := node_Preference (t_node t).
Definition Tree_Finalized (t : Tree) : bool := node_Finalized (t_node t).

Definition Tree_Add (t : Tree) (choice : ID) : Tree :=
  let prefix := node_DecidedPrefix (t_node t) in
  if EqualSubset 0 prefix (Tree_Preference t) choice then
    mkTree (node_Add (t_params t) (t_node t) choice) (t_params t) (t_shouldReset t)
  else t.

Definition Tree_RecordPoll (t : Tree) (votes : Bag ID) : Tree * bool :=
  let decidedPrefix := node_DecidedPrefix (t_node t) in
  let preference := Tree_Preference t in
  let filteredVotes := Filter votes (λ id, EqualSubset 0 decidedPrefix preference id) in
  let '(_, n, successful) :=
    node_RecordPoll (t_params t) (t_node t) filteredVotes (t_shouldReset t) in
  (mkTree n (t_params t) false, successful).

Definition Tree_RecordUnsuccessfulPoll (t : Tree) : Tree :=
  mkTree (t_node t) (t_params t) true.

(** ** The choices of a tree *)

Fixpoint leaves (n : node) : list ID :=
  match n with
  | unaryNode preference _ _ _ _ None => [preference]
  | unaryNode _ _ _ _ _ (Some c) => leaves c
  | binaryNode preferences _ _ _ child0 child1 =>
      match child0 with Some c => leaves c | None => [preferences.1] end
      ++ match child1 with Some c => leaves c | None => [preferences.2] end
  end.

(** ** The invariant *)

Context {L : FactoryLaws F}.

(** The confidence of a node, and its confidence when the node above it has marked
    it for a reset. *)
Definition node_conf (n : node) : Z :=
  match n with
  | unaryNode _ _ _ snow _ _ => u_conf snow
  | binaryNode _ _ snow _ _ _ => Z.max (b_conf snow 0) (b_conf snow 1)
  end.

Definition econf (reset : bool) (n : node) : Z := if reset then 0 else node_conf n.

(** The preferences of a binary node agree up to its bit and differ there. *)
Definition wf_prefs (prefs : ID * ID) (bit : Z) : Prop :=
  valid_ID prefs.1 ∧ valid_ID prefs.2 ∧ Bit prefs.1 bit = 0 ∧ Bit prefs.2 bit = 1
  ∧ bits_agree 0 bit prefs.1 prefs.2.

Fixpoint wf_node (p : Parameters) (n : node) : Prop :=
  match n with
  | unaryNode pref dP cP snow sr child =>
      (0 ≤ dP < cP ∧ cP ≤ NumBits) ∧ u_ok p snow ∧ U_Finalized snow = false ∧ valid_ID pref
      ∧ match child with
        | None => cP = NumBits
        | Some c =>
            wf_node p c ∧ node_DecidedPrefix c = cP ∧ node_Preference c = pref
            ∧ econf sr c ≤ u_conf snow
        end
  | binaryNode prefs bit snow srs child0 child1 =>
      0 ≤ bit < NumBits ∧ b_ok p snow ∧ B_Finalized snow = false ∧ wf_prefs prefs bit
      ∧ match child0, child1 with
        | None, None => bit + 1 = NumBits
        | Some c0, Some c1 =>
            (wf_node p c0 ∧ node_DecidedPrefix c0 = bit + 1 ∧ node_Preference c0 = prefs.1
             ∧ econf srs.1 c0 ≤ b_conf snow 0)
            ∧ (wf_node p c1 ∧ node_DecidedPrefix c1 = bit + 1 ∧ node_Preference c1 = prefs.2
               ∧ econf srs.2 c1 ≤ b_conf snow 1)
        | _, _ => False
        end
  end.

(** What a node requires of a child at depth [d] with preference [pref], when the
    node has confidence [M] in it and the reset mark [sr]. *)
Definition wf_child (p : Parameters) (d : Z) (pref : ID) (M : Z) (sr : bool) (c : node) : Prop :=
  wf_node p c ∧ node_DecidedPrefix c = d ∧ node_Preference c = pref ∧ econf sr c ≤ M.

(** A finalized root: a leaf of the tree. *)
Definition final_leaf (p : Parameters) (n : node) : Prop :=
  match n with
  | unaryNode pref dP cP snow sr None =>
      0 ≤ dP < cP ∧ cP = NumBits ∧ u_ok p snow ∧ U_Finalized snow = true ∧ valid_ID pref
  | binaryNode prefs bit snow srs None None =>
      0 ≤ bit ∧ bit + 1 = NumBits ∧ b_ok p snow ∧ B_Finalized snow = true ∧ wf_prefs prefs bit
  | _ => False
  end.

Definition wf_root (p : Parameters) (n : node) : Prop := wf_node p n ∨ final_leaf p n.

Lemma wf_binary_iff p prefs bit snow srs c0 c1 :
  wf_node p (binaryNode prefs bit snow srs c0 c1) ↔
  0 ≤ bit < NumBits ∧ b_ok p snow ∧ B_Finalized snow = false ∧ wf_prefs prefs bit
  ∧ ((c0 = None ∧ c1 = None ∧ bit + 1 = NumBits)
     ∨ ∃ n0 n1, c0 = Some n0 ∧ c1 = Some n1
       ∧ ∀ i, is_choice i →
         wf_child p (bit + 1) (get2 prefs i) (b_conf snow i) (get2 srs i) (get2 (n0, n1) i)).
Proof.
  simpl. split; intros (H1 & H2 & H3 & H4 & H5); split_and!; try done; try apply H1; try apply H4.
  - destruct c0 as [n0|], c1 as [n1|]; try done; [right|left; done].
    exists n0, n1. split_and!; [done..|]. intros i [-> | ->]; simpl; apply H5.
  - destruct H5 as [(-> & -> & H5)|(n0 & n1 & -> & -> & H5)]; [done|].
    split; [apply (H5 0); by left|apply (H5 1); by right].
Qed.

Lemma wf_valid_preference p n : wf_node p n → valid_ID (node_Preference n).
Proof.
  destruct n as [? ? ? ? ? ?|prefs bit snow srs c0 c1]; simpl; intros Hwf; [apply Hwf|].
  destruct Hwf as (_ & _ & _ & (H1 & H2 & _) & _). unfold get2. by destruct (_ =? _).
Qed.

Lemma wf_node_not_final p n : wf_node p n → node_Finalized n = false.
Proof. destruct n; simpl; intros Hwf; apply Hwf. Qed.

Lemma wf_depth p n : wf_node p n → 0 ≤ node_DecidedPrefix n < NumBits.
Proof. destruct n; simpl; intros Hwf; destruct Hwf as (Hd & _); lia. Qed.

Lemma node_conf_bounds p n : wf_node p n → 0 ≤ node_conf n < Beta p.
Proof.
  destruct n as [? ? ? snow ? ?|prefs bit snow srs c0 c1]; simpl.
  - intros (_ & Hok & Hf & _). destruct (law_u_ok _ _ Hok) as (_ & ? & ?). naive_solver.
  - intros (_ & Hok & Hf & _). destruct (law_b_ok _ _ Hok) as (_ & Hc).
    destruct (Hc 0) as [? H0], (Hc 1) as [? H1]. specialize (H0 Hf). specialize (H1 Hf). lia.
Qed.

Lemma bits_agree_sym lo hi x y : bits_agree lo hi x y → bits_agree lo hi y x.
Proof. intros H i Hi. symmetry. by apply H. Qed.

Lemma bits_agree_trans lo hi x y z :
  bits_agree lo hi x y → bits_agree lo hi y z → bits_agree lo hi x z.
Proof. intros H1 H2 i Hi. rewrite H1 by done. by apply H2. Qed.

Lemma bits_agree_weaken lo hi lo' hi' x y :
  lo ≤ lo' → hi' ≤ hi → bits_agree lo hi x y → bits_agree lo' hi' x y.
Proof. intros H1 H2 H i Hi. apply H. lia. Qed.

Lemma wf_prefs_agree prefs bit i j :
  wf_prefs prefs bit → bits_agree 0 bit (get2 prefs i) (get2 prefs j).
Proof.
  intros (_ & _ & _ & _ & H). unfold get2.
  destruct (_ =? _), (_ =? _); (done || by apply bits_agree_sym).
Qed.

Lemma wf_prefs_bit prefs bit i : wf_prefs prefs bit → is_choice i → Bit (get2 prefs i) bit = i.
Proof. intros (_ & _ & H0 & H1 & _) [-> | ->]; done. Qed.

Lemma wf_prefs_valid prefs bit i : wf_prefs prefs bit → valid_ID (get2 prefs i).
Proof. intros (H0 & H1 & _). unfold get2. by destruct (_ =? _). Qed.

Lemma leaves_binary prefs bit snow srs n0 n1 x :
  x ∈ leaves (binaryNode prefs bit snow srs (Some n0) (Some n1)) ↔
  ∃ i, is_choice i ∧ x ∈ leaves (get2 (n0, n1) i).
Proof.
  simpl. rewrite elem_of_app. unfold is_choice. split.
  - intros [H|H]; [exists 0|exists 1]; auto.
  - intros (i & [-> | ->] & H); auto.
Qed.

(** The choices of a subtree are valid, agree with its preference on the decided
    bits, and the preference is one of them. *)
Lemma leaves_spec p n :
  wf_node p n →
  node_Preference n ∈ leaves n
  ∧ ∀ x, x ∈ leaves n → valid_ID x ∧ bits_agree 0 (node_DecidedPrefix n) x (node_Preference n).
Proof.
  induction n as [pref dP cP snow sr|pref dP cP snow sr c IH|prefs bit snow srs c0 c1 IH0 IH1]
    using node_ind'.
  - simpl. intros (Hd & _ & _ & Hv & _). split; [by left|].
    intros x ->%list_elem_of_singleton. done.
  - intros (Hd & _ & _ & Hv & Hc & Hdc & Hp & _). destruct (IH Hc) as [H1 H2].
    rewrite Hp in H1. split; [exact H1|]. intros x Hx. destruct (H2 x Hx) as [? Ha]. split; [done|].
    rewrite Hp, Hdc in Ha. simpl. eapply bits_agree_weaken; [| |exact Ha]; lia.
  - intros Hwf%wf_binary_iff.
    destruct Hwf as (Hd & Hok & Hf & Hp & [(-> & -> & Hb)|(n0 & n1 & -> & -> & Hc)]); simpl.
    + destruct (law_b_ok _ _ Hok) as [Hch _]. split.
      * destruct Hch as [-> | ->]; set_solver.
      * intros x Hx. assert (∃ i, x = get2 prefs i) as [i ->].
        { rewrite !elem_of_cons, elem_of_nil in Hx.
          destruct Hx as [->|[->|[]]]; [by exists 0|by exists 1]. }
        split; [by eapply wf_prefs_valid|by apply wf_prefs_agree].
    + assert (∀ i, is_choice i → node_Preference (get2 (n0, n1) i) ∈ leaves (get2 (n0, n1) i)
                ∧ ∀ x, x ∈ leaves (get2 (n0, n1) i) →
                  valid_ID x ∧ bits_agree 0 (bit + 1) x (get2 prefs i)) as IH.
      { intros i Hi. destruct (Hc i Hi) as (Hwc & <- & <- & _).
        destruct Hi as [-> | ->]; [by apply IH0|by apply IH1]. }
      destruct (law_b_ok _ _ Hok) as [Hch _]. split.
      * apply (leaves_binary prefs bit snow srs). exists (B_Preference snow). split; [done|].
        destruct (Hc _ Hch) as (_ & _ & <- & _). by apply IH.
      * intros x Hx. apply (leaves_binary prefs bit snow srs) in Hx as (i & Hi & Hx).
        destruct (IH i Hi) as [_ H2]. destruct (H2 x Hx) as [Hv Ha]. split; [done|].
        eapply bits_agree_trans; [|by apply (wf_prefs_agree prefs bit i)].
        eapply bits_agree_weaken; [| |exact Ha]; lia.
Qed.

(** ** [Add] keeps the invariant and adds the choice *)

Lemma get2_choose {A} (bit : Z) (z a b : A) i :
  is_choice bit → is_choice i →
  get2 (set2 (set2 (z, z) bit a) (1 - bit) b) i = if i =? bit then a else b.
Proof. intros [-> | ->] [-> | ->]; done. Qed.

Lemma pair_get2 {A} (q : A * A) : q = (get2 q 0, get2 q 1).
Proof. by destruct q. Qed.

(** The new binary node of a split at bit [index]. *)
Section split.
Variables (p : Parameters) (pref x : ID) (index : Z) (snow : unary) (sr : bool).
Hypothesis Hok : u_ok p snow.
Hypothesis Hnf : U_Finalized snow = false.
Hypothesis Hvp : valid_ID pref.
Hypothesis Hvx : valid_ID x.
Hypothesis Hidx : 0 ≤ index < NumBits.
Hypothesis Hag : bits_agree 0 index pref x.
Hypothesis Hdiff : Bit pref index ≠ Bit x index.

Let bit := Bit pref index.
Let prefs : ID * ID := set2 (set2 (go_zero, go_zero) bit pref) (1 - bit) x.
Let newChild := unaryNode x (index + 1) NumBits (NewUnary p) false None.

Definition split_node (children : option node * option node) : node :=
  binaryNode prefs index (U_Extend snow bit) (sr, sr) children.1 children.2.

Lemma split_bit_choice : is_choice bit.
Proof. apply Bit_0_or_1. Qed.

Lemma split_other_bit : Bit x index = 1 - bit.
Proof.
  pose proof (Bit_0_or_1 pref index). pose proof (Bit_0_or_1 x index). unfold bit. lia.
Qed.

Lemma split_prefs i : is_choice i → get2 prefs i = if i =? bit then pref else x.
Proof. intros Hi. apply get2_choose; [apply split_bit_choice|done]. Qed.

Lemma split_wf_prefs : wf_prefs prefs index.
Proof.
  rewrite (pair_get2 prefs), !split_prefs by (unfold is_choice; lia).
  pose proof split_other_bit as Ho. pose proof split_bit_choice as Hb. unfold wf_prefs. simpl.
  destruct Hb as [E|E]; rewrite E in *; simpl; split_and!; auto using bits_agree_sym.
Qed.

Lemma split_conf i :
  is_choice i → b_conf (U_Extend snow bit) i = if i =? bit then u_conf snow else 0.
Proof. intros _. by destruct (law_extend p snow bit Hok split_bit_choice Hnf) as (_ & _ & _ & ->). Qed.

Lemma split_common children :
  node_DecidedPrefix (split_node children) = index
  ∧ node_Preference (split_node children) = pref
  ∧ node_conf (split_node children) = u_conf snow
  ∧ b_ok p (U_Extend snow bit) ∧ B_Finalized (U_Extend snow bit) = false.
Proof.
  pose proof split_bit_choice as Hb.
  destruct (law_extend p snow bit Hok Hb Hnf) as (H1 & H2 & H3 & _).
  destruct (law_u_ok _ _ Hok) as (_ & Hc & _).
  split_and!; [done| | |done|done]; simpl.
  - rewrite H2, split_prefs by done. by rewrite Z.eqb_refl.
  - rewrite !split_conf by (unfold is_choice; lia).
    destruct Hb as [E|E]; rewrite E; simpl; lia.
Qed.

Lemma split_new_child_wf : index + 1 < NumBits → wf_child p (index + 1) x 0 sr newChild.
Proof.
  intros Hlt. destruct (law_u_ok _ _ Hok) as (Hb & _).
  destruct (law_new_unary p Hb) as (H1 & H2 & H3).
  split_and!; [|done|done|unfold econf; simpl; rewrite H2; by destruct sr].
  simpl. split_and!; (done || lia).
Qed.

Lemma split_node_children c :
  wf_child p (index + 1) pref (u_conf snow) sr c →
  let b := split_node (set2 (set2 (None, None) bit (Some c)) (1 - bit) (Some newChild)) in
  wf_node p b ∧ ∀ y, y ∈ leaves b ↔ y = x ∨ y ∈ leaves c.
Proof.
  intros Hc b. pose proof split_bit_choice as Hb.
  destruct (split_common (set2 (set2 (None, None) bit (Some c)) (1 - bit) (Some newChild)))
    as (_ & _ & _ & Hbok & Hbf).
  assert (∃ n0 n1, b = binaryNode prefs index (U_Extend snow bit) (sr, sr) (Some n0) (Some n1)
            ∧ ∀ i, is_choice i → get2 (n0, n1) i = if i =? bit then c else newChild)
    as (n0 & n1 & -> & Hn).
  { unfold b, split_node. destruct Hb as [E|E]; rewrite E; simpl; eexists _, _; (split; [done|]);
      intros i [-> | ->]; done. }
  assert (index + 1 < NumBits) as Hlt.
  { destruct Hc as (Hwc & Hdc & _). pose proof (wf_depth p c Hwc). lia. }
  split.
  - apply wf_binary_iff. split_and!; [lia..|done|done|apply split_wf_prefs|]. right.
    exists n0, n1. split_and!; [done..|]. intros i Hi.
    rewrite Hn, split_prefs, split_conf by done.
    replace (get2 (sr, sr) i) with sr by (unfold get2; by destruct (_ =? _)).
    destruct (i =? bit); [done|by apply split_new_child_wf].
  - intros y. rewrite leaves_binary. split.
    + intros (i & Hi & Hy). rewrite Hn in Hy by done. destruct (i =? bit); [by right|].
      simpl in Hy. apply list_elem_of_singleton in Hy. by left.
    + intros [->|Hy].
      * exists (1 - bit). split; [by apply is_choice_flip|]. rewrite Hn by (by apply is_choice_flip).
        rewrite (proj2 (Z.eqb_neq _ _)) by lia. by left.
      * exists bit. split; [done|]. rewrite Hn by done. by rewrite Z.eqb_refl.
Qed.

Lemma split_node_leaf :
  index + 1 = NumBits →
  let b := split_node (set2 (set2 (None, None) bit None) (1 - bit) None) in
  wf_node p b ∧ ∀ y, y ∈ leaves b ↔ y = x ∨ y = pref.
Proof.
  intros Hlast b. pose proof split_bit_choice as Hb.
  destruct (split_common (set2 (set2 (None, None) bit None) (1 - bit) None))
    as (_ & _ & _ & Hbok & Hbf).
  assert (b = binaryNode prefs index (U_Extend snow bit) (sr, sr) None None) as ->.
  { unfold b, split_node. by destruct Hb as [E|E]; rewrite E. }
  split.
  - apply wf_binary_iff. split_and!; [lia..|done|done|apply split_wf_prefs|]. by left.
  - intros y. simpl. rewrite (pair_get2 prefs), !split_prefs by (unfold is_choice; lia).
    destruct Hb as [E|E]; rewrite E; simpl; set_solver.
Qed.
End split.

(** What adding [x] to [n] achieves. *)
Definition add_post (p : Parameters) (n : node) (x : ID) (n' : node) : Prop :=
  wf_node p n' ∧ node_DecidedPrefix n' = node_DecidedPrefix n
  ∧ node_Preference n' = node_Preference n ∧ node_conf n' = node_conf n
  ∧ ∀ y, y ∈ leaves n' ↔ y = x ∨ y ∈ leaves n.

Lemma econf_le sr n M : 0 ≤ M → node_conf n ≤ M → econf sr n ≤ M.
Proof. unfold econf. destruct sr; lia. Qed.

Lemma unary_split_spec p pref dP cP snow sr child x index :
  let n := unaryNode pref dP cP snow sr child in
  wf_node p n → valid_ID x → dP ≤ index < cP →
  bits_agree 0 index pref x → Bit pref index ≠ Bit x index →
  add_post p n x (unary_split p pref dP cP snow sr child x index).
Proof.
  intros n Hwf Hvx Hidx Hag Hdiff. pose proof Hwf as Hwf'.
  destruct Hwf as ([Hd Hcp] & Hok & Hnf & Hvp & Hchild).
  destruct (law_u_ok _ _ Hok) as (_ & Hconf & _).
  assert (0 ≤ index < NumBits) as Hr by lia.
  pose proof (split_common p pref x index snow sr Hok Hnf) as Hcommon.
  pose proof (split_node_children p pref x index snow sr Hok Hnf Hvp Hvx Hr Hag Hdiff) as Hkids.
  pose proof (split_node_leaf p pref x index snow sr Hok Hnf Hvp Hvx Hr Hag Hdiff) as Hleaf.
  unfold unary_split.
  (* the node that keeps the child, below the split *)
  assert (index + 1 < cP →
          wf_child p (index + 1) pref (u_conf snow) sr (unaryNode pref (index + 1) cP snow sr child)) as Hlow.
  { intros Hlt. split_and!; [|done|done|apply econf_le; simpl; lia].
    simpl. split_and!; try done; lia. }
  (* the split at the last bit keeps the child itself *)
  assert (index + 1 = cP →
    let bit := Bit pref index in
    let kids := set2 (set2 (None, None) bit child) (1 - bit)
      (match child with
       | Some _ => Some (unaryNode x (index + 1) NumBits (NewUnary p) false None)
       | None => None end) in
    wf_node p (split_node pref x index snow sr kids)
    ∧ ∀ y, y ∈ leaves (split_node pref x index snow sr kids) ↔ y = x ∨ y ∈ leaves n) as Hlast.
  { intros Hl. destruct child as [c|]; simpl.
    - destruct (Hkids c) as [H1 H2]; [rewrite Hl; exact Hchild|]. by split.
    - destruct Hleaf as [H1 H2]; [lia|]. split; [exact H1|]. intros y. rewrite H2.
      by rewrite list_elem_of_singleton. }
  destruct (Z.eqb_spec dP (cP - 1)) as [E1|E1];
    [|destruct (Z.eqb_spec index dP) as [E2|E2]; [|destruct (Z.eqb_spec index (cP - 1)) as [E3|E3]]].
  - destruct (Hlast ltac:(lia)) as [H1 H2].
    destruct (Hcommon (set2 (set2 (None, None) (Bit pref index) child) (1 - Bit pref index)
      (match child with
       | Some _ => Some (unaryNode x (index + 1) NumBits (NewUnary p) false None)
       | None => None end))) as (A & B & C & _).
    split_and!; [exact H1| |exact B|exact C|exact H2]. simpl. lia.
  - subst dP. destruct (Hkids _ (Hlow ltac:(lia))) as [H1 H2].
    destruct (Hcommon (set2 (set2 (None, None) (Bit pref index)
      (Some (unaryNode pref (index + 1) cP snow sr child))) (1 - Bit pref index)
      (Some (unaryNode x (index + 1) NumBits (NewUnary p) false None)))) as (A & B & C & _).
    split_and!; [exact H1|done|exact B|exact C|exact H2].
  - destruct (Hlast ltac:(lia)) as [H1 H2].
    destruct (Hcommon (set2 (set2 (None, None) (Bit pref index) child) (1 - Bit pref index)
      (match child with
       | Some _ => Some (unaryNode x (index + 1) NumBits (NewUnary p) false None)
       | None => None end))) as (A & B & C & _).
    split_and!; [|done|done|done|exact H2].
    split_and!; [lia..|done|done|done|exact H1|simpl; lia|exact B|].
    apply econf_le; [lia|]. setoid_rewrite C. lia.
  - destruct (Hkids _ (Hlow ltac:(lia))) as [H1 H2].
    destruct (Hcommon (set2 (set2 (None, None) (Bit pref index)
      (Some (unaryNode pref (index + 1) cP snow sr child))) (1 - Bit pref index)
      (Some (unaryNode x (index + 1) NumBits (NewUnary p) false None)))) as (A & B & C & _).
    rewrite law_U_clone. split_and!; [|done|done|done|exact H2].
    split_and!; [lia..|done|done|done|exact H1|simpl; lia|exact B|].
    apply econf_le; [lia|]. setoid_rewrite C. lia.
Qed.

Lemma node_Add_spec p n x :
  wf_node p n → valid_ID x → bits_agree 0 (node_DecidedPrefix n) x (node_Preference n) →
  add_post p n x (node_Add p n x).
Proof.
  intros Hwf Hvx. revert Hwf.
  induction n as [pref dP cP snow sr|pref dP cP snow sr c IH|prefs bit snow srs c0 c1 IH0 IH1]
    using node_ind'; intros Hwf Hag.
  - pose proof Hwf as ([Hd Hcp] & Hok & Hnf & Hvp & HcP). simpl in Hag |- *. rewrite Hnf.
    pose proof (FirstDifferenceSubset_spec dP cP pref x Hvp Hvx ltac:(lia) Hcp) as Hfd.
    destruct (FirstDifferenceSubset dP cP pref x) as [index [|]].
    + destruct Hfd as (Hi & Hne & Ha). apply unary_split_spec; [done..| |done].
      apply (bits_agree_split _ dP); [lia|]. split; [by apply bits_agree_sym|done].
    + destruct Hfd as [_ Hall]. assert (x = pref) as ->.
      { apply bits_agree_all; [done..|]. apply (bits_agree_split _ dP); [unfold NumBits in *; lia|].
        rewrite HcP in Hall. split; [done|by apply bits_agree_sym]. }
      split_and!; try done. intros y. simpl. rewrite list_elem_of_singleton. naive_solver.
  - pose proof Hwf as ([Hd Hcp] & Hok & Hnf & Hvp & Hwc & Hdc & Hpc & Hec).
    simpl in Hag |- *. rewrite Hnf.
    pose proof (FirstDifferenceSubset_spec dP cP pref x Hvp Hvx ltac:(lia) Hcp) as Hfd.
    destruct (FirstDifferenceSubset dP cP pref x) as [index [|]].
    + destruct Hfd as (Hi & Hne & Ha). apply unary_split_spec; [done..| |done].
      apply (bits_agree_split _ dP); [lia|]. split; [by apply bits_agree_sym|done].
    + destruct Hfd as [_ Hall]. destruct (IH Hwc) as (A & B & C & D & E).
      { rewrite Hdc, Hpc. apply (bits_agree_split _ dP); [lia|].
        split; [done|by apply bits_agree_sym]. }
      split_and!; [|done|done|done|exact E]. simpl.
      split_and!; try done; try congruence; try lia. unfold econf in *. by rewrite D.
  - apply wf_binary_iff in Hwf as Hwf'.
    destruct Hwf' as (Hb & Hok & Hf & Hp & Hkids). simpl in Hag.
    pose proof (Bit_0_or_1 x bit) as Hbx.
    assert (∀ i, i = Bit x bit → bits_agree 0 (bit + 1) x (get2 prefs i)) as Hagi.
    { intros i ->. apply (bits_agree_split _ bit); [lia|]. split.
      - eapply bits_agree_trans; [exact Hag|by apply wf_prefs_agree].
      - intros k Hk. assert (k = bit) as -> by lia. by rewrite (wf_prefs_bit prefs bit). }
    destruct Hkids as [(-> & -> & Hlast)|(n0 & n1 & -> & -> & Hc)].
    + assert (node_Add p (binaryNode prefs bit snow srs None None) x
              = binaryNode prefs bit snow srs None None) as ->
        by (simpl; by destruct (_ =? _)).
      assert (x = get2 prefs (Bit x bit)) as Hx.
      { apply bits_agree_all; [done|by eapply wf_prefs_valid|]. rewrite <- Hlast. by apply Hagi. }
      split_and!; try done. intros y. split; [by right|]. intros [->|]; [|done].
      rewrite Hx. simpl. destruct Hbx as [-> | ->]; set_solver.
    + set (i := Bit x bit) in *.
      assert (add_post p (get2 (n0, n1) i) x (node_Add p (get2 (n0, n1) i) x)) as (A & B & C & D & E).
      { destruct (Hc i Hbx) as (Hwi & Hdi & Hpi & _).
        assert (bits_agree 0 (node_DecidedPrefix (get2 (n0, n1) i)) x (node_Preference (get2 (n0, n1) i)))
          by (rewrite Hdi, Hpi; by apply Hagi).
        destruct Hbx as [Ei|Ei]; rewrite Ei in *; [by apply IH0|by apply IH1]. }
      assert (node_Add p (binaryNode prefs bit snow srs (Some n0) (Some n1)) x
              = let ks := set2 (n0, n1) i (node_Add p (get2 (n0, n1) i) x) in
                binaryNode prefs bit snow srs (Some ks.1) (Some ks.2)) as ->
        by (simpl; fold i; by destruct Hbx as [Ei|Ei]; rewrite Ei).
      set (ks := set2 (n0, n1) i _).
      assert (∀ j, is_choice j →
        get2 (ks.1, ks.2) j = if j =? i then node_Add p (get2 (n0, n1) i) x else get2 (n0, n1) j) as Hks.
      { intros j Hj. unfold ks. by destruct Hbx as [Ei|Ei], Hj as [-> | ->]; rewrite Ei. }
      split_and!; [|done|done|done|].
      * apply wf_binary_iff. split_and!; [lia..|done|done|done|]. right.
        exists ks.1, ks.2. split_and!; [done..|]. intros j Hj. rewrite Hks by done.
        destruct (Z.eqb_spec j i) as [->|Hne]; [|by apply Hc].
        destruct (Hc i Hj) as (_ & Hdi & Hpi & Hei). unfold wf_child, econf in *.
        split_and!; [done|congruence|congruence|by rewrite D].
      * intros y. cbv zeta. rewrite !leaves_binary. split.
        -- intros (j & Hj & Hy). rewrite Hks in Hy by done.
           destruct (Z.eqb_spec j i) as [->|]; [apply E in Hy|]; naive_solver.
        -- intros [->|(j & Hj & Hy)].
           ++ exists i. split; [done|]. rewrite Hks, Z.eqb_refl by done. apply E. by left.
           ++ exists j. split; [done|]. rewrite Hks by done.
              destruct (Z.eqb_spec j i) as [->|]; [apply E; by right|done].
Qed.

(** ** [RecordPoll] keeps the invariant *)

(** The largest confidence a node can have after a poll with [numVotes] votes, if
    it had [conf] before. *)
Definition conf_after (p : Parameters) (numVotes conf : Z) : Z :=
  if (numVotes <? AlphaPreference p) || (numVotes <? AlphaConfidence p) then 0 else conf + 1.

Lemma conf_after_mono p n n' c c' :
  n ≤ n' → c ≤ c' → 0 ≤ c' → conf_after p n c ≤ conf_after p n' c'.
Proof.
  unfold conf_after. intros.
  destruct (Z.ltb_spec n (AlphaPreference p)), (Z.ltb_spec n (AlphaConfidence p)),
    (Z.ltb_spec n' (AlphaPreference p)), (Z.ltb_spec n' (AlphaConfidence p)); simpl; lia.
Qed.

Lemma conf_after_nonneg p n c : 0 ≤ c → 0 ≤ conf_after p n c.
Proof. unfold conf_after. destruct (_ || _); lia. Qed.

(** What recording a poll on [n] achieves: [self] is the node afterwards and [ret]
    the returned node. *)
Definition poll_post (p : Parameters) (n : node) (numVotes : Z) (reset : bool)
    (self ret : node) : Prop :=
  (node_Finalized self = false → ret = self ∧ wf_node p self
     ∧ node_DecidedPrefix self = node_DecidedPrefix n ∧ leaves self = leaves n)
  ∧ (node_Finalized self = true → wf_root p ret ∧ Beta p ≤ node_conf self
     ∧ node_DecidedPrefix n ≤ node_DecidedPrefix ret ∧ (∀ x, x ∈ leaves ret → x ∈ leaves n))
  ∧ node_conf self ≤ conf_after p numVotes (econf reset n).

(** A child that did not finalize, in the place of its old value. *)
Lemma poll_post_child p c numVotes reset self ret M :
  wf_node p c → poll_post p c numVotes reset self ret →
  conf_after p numVotes (econf reset c) ≤ M → M < Beta p →
  ret = self ∧ wf_node p self ∧ node_DecidedPrefix self = node_DecidedPrefix c
  ∧ leaves self = leaves c ∧ econf false self ≤ M.
Proof.
  intros Hc (Hnf & Hf & Hconf) HM Hlt. unfold econf at 1.
  destruct (node_Finalized self); [destruct Hf as (_ & ? & _); [done|lia]|].
  destruct Hnf as (-> & ? & ? & ?); [done|]. split_and!; [done..|lia].
Qed.

(** What a finalized parent returns: the root that its child returned. *)
Lemma poll_post_root p c numVotes reset self ret :
  poll_post p c numVotes reset self ret →
  wf_root p ret ∧ node_DecidedPrefix c ≤ node_DecidedPrefix ret
  ∧ ∀ x, x ∈ leaves ret → x ∈ leaves c.
Proof.
  intros (Hnf & Hf & _). destruct (node_Finalized self).
  - destruct Hf as (? & _ & ? & ?); done.
  - destruct Hnf as (-> & ? & -> & ->); [done|]. split_and!; [by left|lia|done].
Qed.

Lemma unary_reset_ok p snow (reset : bool) :
  u_ok p snow →
  let snow' := if reset then U_RecordUnsuccessfulPoll snow else snow in
  u_ok p snow' ∧ U_Finalized snow' = U_Finalized snow
  ∧ u_conf snow' = if reset then 0 else u_conf snow.
Proof. intros Hok. destruct reset; [|done]. by destruct (law_U_reset _ _ Hok) as (? & ? & ?). Qed.

Lemma RecordPoll_unary_spec p pref dP cP snow sr child votes reset :
  let n := unaryNode pref dP cP snow sr child in
  (∀ c votes' reset', child = Some c → wf_node p c → wf_bag votes' →
     let '(self, ret, _) := node_RecordPoll p c votes' reset' in
     poll_post p c (Len votes') reset' self ret) →
  wf_node p n → wf_bag votes →
  let '(self, ret, _) := node_RecordPoll p n votes reset in
  poll_post p n (Len votes) reset self ret.
Proof.
  intros n IH Hwf Hbag. destruct Hwf as ([Hd Hcp] & Hok & Hnf & Hvp & Hchild).
  simpl. destruct (unary_reset_ok p snow reset Hok) as (Hok1 & Hf1 & Hc1).
  set (snow1 := if reset then U_RecordUnsuccessfulPoll snow else snow) in *.
  set (sr1 := if reset then true else sr).
  destruct (law_u_ok _ _ Hok) as (Hbeta & Hconf & _).
  assert (u_conf snow1 = econf reset n) as Hec by (by rewrite Hc1).
  assert (0 ≤ econf reset n) as Hec0 by (unfold econf; simpl; destruct reset; lia).
  destruct (Z.ltb_spec (Len votes) (AlphaPreference p)) as [Hlt|Hge].
  { destruct (law_U_reset _ _ Hok1) as (Hok2 & Hc2 & Hf2).
    assert (U_Finalized (U_RecordUnsuccessfulPoll snow1) = false) as Hf3 by congruence.
    split_and!; [|simpl; congruence|simpl; rewrite Hc2; by apply conf_after_nonneg].
    intros _. split_and!; try done. simpl. split_and!; try done; try lia.
    destruct child as [c|]; [|done]. destruct Hchild as (? & ? & ? & _). split_and!; try done.
    simpl. lia. }
  destruct (law_U_poll p snow1 (Len votes) Hok1) as (Hok2 & Hc2 & Hf2).
  set (snow2 := U_RecordPoll snow1 (Len votes)) in *.
  rewrite Hf1, Hnf in Hf2. simpl in Hf2.
  assert (u_conf snow2 = conf_after p (Len votes) (econf reset n)) as Hc3.
  { rewrite Hc2, <- Hec. unfold conf_after. by rewrite (proj2 (Z.ltb_ge (Len votes) (AlphaPreference p))) by lia. }
  destruct child as [c|].
  - destruct Hchild as (Hwc & Hdc & Hpc & Hecc). specialize (IH c votes sr1 eq_refl Hwc Hbag).
    destruct (node_RecordPoll p c votes sr1) as [[c' newChild] ok].
    assert (econf sr1 c ≤ econf reset n) as Hle.
    { unfold sr1, econf in *. simpl. destruct reset; [done|]. done. }
    destruct (U_Finalized snow2) eqn:Efin.
    + destruct (poll_post_root _ _ _ _ _ _ IH) as (A & B & C). symmetry in Hf2. bool_to_prop.
      split_and!; [simpl; congruence| |simpl; lia].
      intros _. split_and!; [done|done|simpl in *; lia|done].
    + symmetry in Hf2. bool_to_prop.
      destruct (poll_post_child _ _ _ _ _ _ (u_conf snow2) Hwc IH) as (A & B & C & D & E);
        [rewrite Hc3; by apply conf_after_mono|done|].
      split_and!; [|simpl; congruence|simpl; lia]. intros _. split_and!; try done.
      simpl. split_and!; try done; try lia. by eapply wf_valid_preference.
  - split_and!; simpl.
    + intros Hfin. split_and!; (done || lia).
    + intros Hfin. rewrite Hfin in Hf2. symmetry in Hf2. bool_to_prop.
      split_and!; [right; simpl; split_and!; (done || lia)|done|lia|done].
    + lia.
Qed.

(** The winning bit of a poll on a binary node, and the votes for it. *)
Definition poll_bit (p : Parameters) (index : Z) (votes : Bag ID) : Z :=
  if AlphaPreference p <=? Len (Split votes (λ id, Bit id index =? 1)).2 then 1 else 0.

Definition poll_votes (p : Parameters) (index : Z) (votes : Bag ID) : Bag ID :=
  get2 (Split votes (λ id, Bit id index =? 1)) (poll_bit p index votes).

(** The reset marks after the votes were split. *)
Definition poll_resets (bit : Z) (reset : bool) (srs : bool * bool) : bool * bool :=
  set2 (if reset then set2 srs bit true else srs) (1 - bit) true.

(** [binaryNode.RecordPoll], with the child selected by the winning bit. *)
Lemma node_RecordPoll_binary p prefs index snow srs c0 c1 votes reset :
  node_RecordPoll p (binaryNode prefs index snow srs c0 c1) votes reset =
  let bit := poll_bit p index votes in
  let snow := if reset then B_RecordUnsuccessfulPoll snow else snow in
  let srs := poll_resets bit reset srs in
  let votes := poll_votes p index votes in
  if Len votes <? AlphaPreference p then
    let b := binaryNode prefs index (B_RecordUnsuccessfulPoll snow) (set2 srs bit true) c0 c1 in
    (b, b, false)
  else
    let snow := B_RecordPoll snow (Len votes) bit in
    match get2 (c0, c1) bit with
    | Some c =>
        let '(c, newChild, _) := node_RecordPoll p c votes (get2 srs bit) in
        let kids := set2 (c0, c1) bit (Some c) in
        if B_Finalized snow then (binaryNode prefs index snow srs kids.1 kids.2, newChild, true)
        else
          let b := binaryNode (set2 prefs bit (node_Preference newChild)) index snow
                     (set2 srs bit false) kids.1 kids.2 in
          (b, b, true)
    | None =>
        let b := binaryNode prefs index snow (set2 srs bit false) c0 c1 in
        (b, b, true)
    end.
Proof.
  simpl. unfold poll_votes, poll_resets, poll_bit.
  destruct (AlphaPreference p <=? Len (Split votes (λ id, Bit id index =? 1)).2);
    simpl; (destruct (_ <? _); [done|]); [destruct c1 as [c|]|destruct c0 as [c|]]; try done;
    by destruct (node_RecordPoll _ _ _ _) as [[? ?] ?].
Qed.

Lemma poll_bit_choice p index votes : is_choice (poll_bit p index votes).
Proof. unfold poll_bit, is_choice. destruct (_ <=? _); auto. Qed.

Lemma poll_votes_wf p index votes :
  wf_bag votes → wf_bag (poll_votes p index votes) ∧ Len (poll_votes p index votes) ≤ Len votes.
Proof.
  intros Hb. unfold poll_votes. rewrite Split_Filter. unfold get2. simpl.
  destruct (_ =? _); auto using wf_Filter, Len_Filter_le.
Qed.

Lemma poll_resets_get bit reset srs i :
  is_choice bit → is_choice i →
  get2 (poll_resets bit reset srs) i = if i =? bit then (if reset then true else get2 srs i) else true.
Proof. intros [-> | ->] [-> | ->]; unfold poll_resets; by destruct reset. Qed.

Lemma get2_set2 {A} (q : A * A) i a j :
  is_choice i → is_choice j → get2 (set2 q i a) j = if j =? i then a else get2 q j.
Proof. intros [-> | ->] [-> | ->]; done. Qed.

Lemma binary_reset_ok p snow (reset : bool) :
  b_ok p snow →
  let snow' := if reset then B_RecordUnsuccessfulPoll snow else snow in
  b_ok p snow' ∧ B_Finalized snow' = B_Finalized snow
  ∧ (∀ i, b_conf snow' i = if reset then 0 else b_conf snow i).
Proof. intros Hok. destruct reset; [|done]. by destruct (law_B_reset _ _ Hok) as (? & ? & ? & ?). Qed.

(** Replacing the preference of a branch by another choice of that branch. *)
Lemma wf_prefs_update prefs bit i x :
  is_choice i → valid_ID x → bits_agree 0 (bit + 1) x (get2 prefs i) → 0 ≤ bit →
  wf_prefs prefs bit → wf_prefs (set2 prefs i x) bit.
Proof.
  intros Hi Hv Ha Hb Hp. pose proof (wf_prefs_bit prefs bit i Hp Hi) as Hbit.
  assert (Bit x bit = i) as Hx by (rewrite (Ha bit) by lia; done).
  assert (bits_agree 0 bit x (get2 prefs (1 - i))) as Ha'.
  { eapply bits_agree_trans; [|by apply (wf_prefs_agree prefs bit i)].
    eapply bits_agree_weaken; [| |exact Ha]; lia. }
  destruct Hp as (V0 & V1 & B0 & B1 & Hag). unfold wf_prefs.
  destruct Hi as [-> | ->]; simpl in *; split_and!; auto using bits_agree_sym.
Qed.

(** The children of a binary node after a poll in which branch [bit] won and its
    child became [c']; the other branch is marked for a reset. *)
Lemma binary_children_after p prefs index snow srs n0 n1 bit c' pref' snow' srs' :
  is_choice bit →
  (∀ i, is_choice i →
     wf_child p (index + 1) (get2 prefs i) (b_conf snow i) (get2 srs i) (get2 (n0, n1) i)) →
  wf_child p (index + 1) pref' (b_conf snow' bit) (get2 srs' bit) c' →
  leaves c' = leaves (get2 (n0, n1) bit) →
  (∀ i, is_choice i → i ≠ bit → get2 srs' i = true ∧ 0 ≤ b_conf snow' i) →
  let kids := set2 (Some n0, Some n1) bit (Some c') in
  ∃ k0 k1, kids = (Some k0, Some k1)
    ∧ leaves k0 ++ leaves k1 = leaves n0 ++ leaves n1
    ∧ ∀ i, is_choice i →
      wf_child p (index + 1) (get2 (set2 prefs bit pref') i) (b_conf snow' i) (get2 srs' i)
        (get2 (k0, k1) i).
Proof.
  intros Hbit Hc Hc' Hl Hoth kids.
  assert (kids = (Some (set2 (n0, n1) bit c').1, Some (set2 (n0, n1) bit c').2)) as ->
    by (unfold kids; by destruct Hbit as [-> | ->]).
  eexists _, _. split; [done|]. split; [by destruct Hbit as [-> | ->]; simpl in *; rewrite Hl|].
  intros i Hi. rewrite <- surjective_pairing, !get2_set2 by done.
  destruct (Z.eqb_spec i bit) as [->|Hne]; [done|].
  destruct (Hc i Hi) as (A & B & C & _). destruct (Hoth i Hi Hne) as [D E].
  split_and!; try done. by rewrite D.
Qed.

(** A binary node whose instance was reset and whose branches are both marked. *)
Lemma binary_all_reset p prefs index snow srs c0 c1 snow' srs' :
  wf_node p (binaryNode prefs index snow srs c0 c1) →
  b_ok p snow' → B_Finalized snow' = false → (∀ i, 0 ≤ b_conf snow' i) → srs' = (true, true) →
  wf_node p (binaryNode prefs index snow' srs' c0 c1).
Proof.
  intros (H1 & H2 & H3 & H4 & H5)%wf_binary_iff Hok Hf Hc ->. apply wf_binary_iff.
  split_and!; try done; try lia; try apply H4.
  destruct H5 as [?|(n0 & n1 & -> & -> & Hk)]; [by left|right].
  exists n0, n1. split_and!; [done..|]. intros i Hi. destruct (Hk i Hi) as (A & B & C & _).
  split_and!; try done. unfold get2. destruct (_ =? _); simpl; apply Hc.
Qed.

Lemma RecordPoll_binary_spec p prefs index snow srs c0 c1 votes reset :
  let n := binaryNode prefs index snow srs c0 c1 in
  (∀ i c votes' reset', is_choice i → get2 (c0, c1) i = Some c → wf_node p c → wf_bag votes' →
     let '(self, ret, _) := node_RecordPoll p c votes' reset' in
     poll_post p c (Len votes') reset' self ret) →
  wf_node p n → wf_bag votes →
  let '(self, ret, _) := node_RecordPoll p n votes reset in
  poll_post p n (Len votes) reset self ret.
Proof.
  intros n IH Hwfn Hbag. pose proof Hwfn as (Hidx & Hok & Hnf & Hp & Hkids)%wf_binary_iff.
  unfold n. rewrite node_RecordPoll_binary. cbv zeta.
  pose proof (poll_bit_choice p index votes) as Hbit.
  destruct (poll_votes_wf p index votes Hbag) as [Hbag' Hlen].
  set (bit := poll_bit p index votes) in *. set (v := poll_votes p index votes) in *.
  destruct (binary_reset_ok p snow reset Hok) as (Hok1 & Hf1 & Hc1). rewrite Hnf in Hf1.
  set (snow1 := if reset then B_RecordUnsuccessfulPoll snow else snow) in *.
  set (srs1 := poll_resets bit reset srs).
  assert (∀ i, is_choice i → 0 ≤ b_conf snow1 i ≤ econf reset n) as Hec.
  { intros i Hi. destruct (law_b_ok _ _ Hok) as [_ Hb]. destruct (Hb i).
    rewrite Hc1. unfold econf. simpl. destruct reset; [done|]. destruct Hi as [-> | ->]; lia. }
  assert (0 ≤ econf reset n) as Hec0 by (destruct (Hec bit Hbit); lia).
  destruct (Z.ltb_spec (Len v) (AlphaPreference p)) as [Hlt|Hge].
  { destruct (law_B_reset _ _ Hok1) as (Hok2 & Hc2 & _ & Hf2). rewrite Hf1 in Hf2.
    split_and!; [|simpl; congruence|simpl; rewrite !Hc2; by apply conf_after_nonneg].
    intros _. split_and!; try done. eapply binary_all_reset; [exact Hwfn|done..| |].
    - intros i. rewrite Hc2. done.
    - unfold srs1, poll_resets. by destruct Hbit as [E|E], reset; rewrite E. }
  destruct (law_B_poll p snow1 (Len v) bit Hok1 Hbit Hf1) as (Hok2 & Hc2 & Hf2 & _).
  set (snow2 := B_RecordPoll snow1 (Len v) bit) in *.
  assert (∀ i, b_conf snow2 i = if i =? bit then conf_after p (Len v) (b_conf snow1 bit) else 0) as Hc3.
  { intros i. rewrite Hc2. unfold conf_after. destruct (_ || _); [|done]. by destruct (_ =? _). }
  assert (b_conf snow2 bit = conf_after p (Len v) (b_conf snow1 bit)) as Hcb by (by rewrite Hc3, Z.eqb_refl).
  assert (∀ s k0 k1 q, node_conf (binaryNode q index snow2 s k0 k1)
          = conf_after p (Len v) (b_conf snow1 bit)) as Hnc.
  { intros. pose proof (conf_after_nonneg p (Len v) (b_conf snow1 bit)
      (proj1 (Hec bit Hbit))) as Hnn. simpl. rewrite !Hc3. destruct Hbit as [E|E]; rewrite E in *; simpl; lia. }
  assert (conf_after p (Len v) (b_conf snow1 bit) ≤ conf_after p (Len votes) (econf reset n)) as Hle.
  { apply conf_after_mono; [done|apply Hec, Hbit|done]. }
  destruct Hkids as [(-> & -> & Hlast)|(n0 & n1 & -> & -> & Hk)].
  { replace (get2 (None, None) bit) with (@None node) by (unfold get2; by destruct (_ =? _)).
    split_and!; [| |by rewrite Hnc].
    - simpl. intros Hfin. split; [done|]. split; [|done].
      split; [lia|]. split; [done|]. split; [done|]. by split.
    - simpl. intros Hfin. rewrite Hfin in Hf2. symmetry in Hf2. apply Z.leb_le in Hf2.
      split; [right; simpl; split; [lia|by split_and!]|]. split; [|split; [lia|done]].
      change (Z.max _ _) with (node_conf (binaryNode prefs index snow2 srs None None)).
      by rewrite Hnc, <- Hcb. }
  replace (get2 (Some n0, Some n1) bit) with (Some (get2 (n0, n1) bit))
    by (unfold get2; by destruct (_ =? _)).
  destruct (Hk bit Hbit) as (Hwc & Hdc & Hpc & Hecc).
  specialize (IH bit (get2 (n0, n1) bit) v (get2 srs1 bit) Hbit).
  replace (get2 (Some n0, Some n1) bit) with (Some (get2 (n0, n1) bit)) in IH
    by (unfold get2; by destruct (_ =? _)).
  specialize (IH eq_refl Hwc Hbag').
  destruct (node_RecordPoll p (get2 (n0, n1) bit) v (get2 srs1 bit)) as [[c' newChild] ok].
  assert (econf (get2 srs1 bit) (get2 (n0, n1) bit) ≤ b_conf snow1 bit) as Hle1.
  { unfold srs1. rewrite poll_resets_get, Z.eqb_refl, Hc1 by done. by destruct reset. }
  destruct (B_Finalized snow2) eqn:Efin; symmetry in Hf2.
  - apply Z.leb_le in Hf2. destruct (poll_post_root _ _ _ _ _ _ IH) as (A & B & C).
    split_and!; [simpl; congruence| |by rewrite Hnc].
    intros _. split_and!; [done|by rewrite Hnc, <- Hcb|simpl; lia|].
    intros x Hx%C. apply (leaves_binary prefs index snow srs). by exists bit.
  - apply Z.leb_gt in Hf2.
    destruct (poll_post_child _ _ _ _ _ _ (b_conf snow2 bit) Hwc IH) as (-> & B & C & D & E);
      [rewrite Hcb; apply conf_after_mono; [lia|done|apply Hec, Hbit]|done|].
    destruct (leaves_spec p _ Hwc) as [_ Hlv]. destruct (leaves_spec p _ B) as [Hin _].
    rewrite D in Hin. destruct (Hlv _ Hin) as [Hv Hag]. rewrite Hdc, Hpc in Hag.
    destruct (binary_children_after p prefs index snow srs n0 n1 bit c' (node_Preference c')
      snow2 (set2 srs1 bit false)) as (k0 & k1 & Ek & El & Hw); [done..| |done| |].
    { split_and!; [done|congruence|done|]. by rewrite get2_set2, Z.eqb_refl by done. }
    { intros i Hi Hne. rewrite get2_set2, Hc3, (proj2 (Z.eqb_neq i bit)) by done. split; [|done].
      unfold srs1. by rewrite poll_resets_get, (proj2 (Z.eqb_neq i bit)) by done. }
    rewrite Ek. split_and!; [|simpl; congruence|by rewrite Hnc]. intros _.
    split_and!; [done| |done|exact El]. apply wf_binary_iff.
    split; [lia|]. split; [done|]. split; [done|]. split.
    + apply wf_prefs_update; (done || lia).
    + right. exists k0, k1. done.
Qed.

Lemma node_RecordPoll_spec p n votes reset :
  wf_node p n → wf_bag votes →
  let '(self, ret, _) := node_RecordPoll p n votes reset in
  poll_post p n (Len votes) reset self ret.
Proof.
  revert votes reset.
  induction n as [pref dP cP snow sr|pref dP cP snow sr c IH|prefs bit snow srs c0 c1 IH0 IH1]
    using node_ind'; intros votes reset Hwf Hbag.
  - by apply RecordPoll_unary_spec.
  - apply RecordPoll_unary_spec; [|done..]. intros c' votes' reset' [= <-]. apply IH.
  - apply RecordPoll_binary_spec; [|done..]. intros i c' votes' reset' [-> | ->] E; simpl in E.
    + by apply IH0.
    + by apply IH1.
Qed.

(** ** A finalized root keeps its decision *)

Lemma final_leaf_valid p n :
  final_leaf p n →
  node_Finalized n = true ∧ valid_ID (node_Preference n) ∧ node_Preference n ∈ leaves n
  ∧ 0 ≤ node_DecidedPrefix n < NumBits.
Proof.
  destruct n as [pref dP cP snow sr [c|]|prefs bit snow srs [c0|] [c1|]]; simpl; try done.
  - intros (? & -> & _ & ? & ?). split_and!; try done; [by left|lia..].
  - intros (? & ? & Hok & ? & Hp). split_and!; try done; [by eapply wf_prefs_valid| |lia..].
    destruct (law_b_ok _ _ Hok) as [[-> | ->] _]; set_solver.
Qed.

Lemma node_Add_final p n x : final_leaf p n → node_Add p n x = n.
Proof.
  destruct n as [pref dP cP snow sr [c|]|prefs bit snow srs [c0|] [c1|]]; simpl; try done.
  - intros (_ & _ & _ & -> & _). done.
  - intros _. by destruct (_ =? _).
Qed.

Lemma node_RecordPoll_final p n votes reset :
  final_leaf p n →
  let '(self, ret, _) := node_RecordPoll p n votes reset in
  ret = self ∧ final_leaf p ret ∧ node_Preference ret = node_Preference n
  ∧ node_DecidedPrefix ret = node_DecidedPrefix n ∧ leaves ret = leaves n.
Proof.
  destruct n as [pref dP cP snow sr [c|]|prefs bit snow srs [c0|] [c1|]]; try done.
  - intros (Hd & Hcp & Hok & Hf & Hv). simpl.
    destruct (unary_reset_ok p snow reset Hok) as (Hok1 & Hf1 & _). rewrite Hf in Hf1.
    destruct (_ <? _); simpl.
    + destruct (law_U_reset _ _ Hok1) as (? & _ & ->). split_and!; (done || lia).
    + destruct (law_U_poll _ _ (Len votes) Hok1) as (? & _ & ->). rewrite Hf1. simpl.
      split_and!; (done || lia).
  - intros (Hd & Hl & Hok & Hf & Hp). rewrite node_RecordPoll_binary. cbv zeta.
    destruct (binary_reset_ok p snow reset Hok) as (Hok1 & Hf1 & _). rewrite Hf in Hf1.
    pose proof (poll_bit_choice p bit votes) as Hb.
    assert (B_Preference (if reset then B_RecordUnsuccessfulPoll snow else snow)
            = B_Preference snow) as Hpr.
    { destruct reset; [|done]. by destruct (law_B_reset _ _ Hok) as (_ & _ & ? & _). }
    set (snow1 := if reset then B_RecordUnsuccessfulPoll snow else snow) in *.
    replace (get2 (None, None) (poll_bit p bit votes)) with (@None node)
      by (unfold get2; by destruct (_ =? _)).
    destruct (_ <? _); simpl.
    + destruct (law_B_reset _ _ Hok1) as (? & _ & -> & ->). by rewrite Hpr.
    + destruct (law_B_stable p snow1 (Len (poll_votes p bit votes)) _ Hok1 Hb Hf1) as (? & -> & ->).
      by rewrite Hpr.
Qed.

(** ** The tree as a state machine *)

Inductive tree_op :=
  | OpAdd (choice : ID)
  | OpPoll (votes : Bag ID)
  | OpUnsuccessful.

Definition valid_op (o : tree_op) : Prop :=
  match o with
  | OpAdd choice => valid_ID choice
  | OpPoll votes => wf_bag votes
  | OpUnsuccessful => True
  end.

Definition tree_step (t : Tree) (o : tree_op) : Tree :=
  match o with
  | OpAdd choice => Tree_Add t choice
  | OpPoll votes => (Tree_RecordPoll t votes).1
  | OpUnsuccessful => Tree_RecordUnsuccessfulPoll t
  end.

Definition wf_tree (t : Tree) : Prop := wf_root (t_params t) (t_node t).

(** The relation between the states before and after an operation: decided bits
    stay decided, and so does the whole choice once the tree is finalized. *)
Definition decisions_kept (t t' : Tree) : Prop :=
  t_params t' = t_params t
  ∧ node_DecidedPrefix (t_node t) ≤ node_DecidedPrefix (t_node t')
  ∧ bits_agree 0 (node_DecidedPrefix (t_node t)) (Tree_Preference t') (Tree_Preference t)
  ∧ (Tree_Finalized t = true → Tree_Finalized t' = true ∧ Tree_Preference t' = Tree_Preference t).

Lemma decisions_kept_refl t : decisions_kept t t.
Proof. split_and!; (done || lia). Qed.

Lemma decisions_kept_trans t1 t2 t3 :
  decisions_kept t1 t2 → decisions_kept t2 t3 → decisions_kept t1 t3.
Proof.
  intros (P1 & D1 & A1 & F1) (P2 & D2 & A2 & F2). split_and!; [congruence|lia| |].
  - eapply bits_agree_trans; [|exact A1]. eapply bits_agree_weaken; [| |exact A2]; lia.
  - intros Hf. destruct (F1 Hf) as [Hf' <-]. by apply F2.
Qed.

Lemma wf_root_depth p n : wf_root p n → 0 ≤ node_DecidedPrefix n < NumBits.
Proof. intros [H|H]; [by eapply wf_depth|]. by destruct (final_leaf_valid p n H) as (_ & _ & _ & ?). Qed.

Lemma wf_root_leaves p n :
  wf_root p n → node_Preference n ∈ leaves n ∧ valid_ID (node_Preference n).
Proof.
  intros [H|H].
  - split; [by eapply leaves_spec|by eapply wf_valid_preference].
  - by destruct (final_leaf_valid p n H) as (_ & ? & ? & _).
Qed.

(** The choices after an operation. *)
Definition choices_after (t : Tree) (o : tree_op) (t' : Tree) : Prop :=
  match o with
  | OpAdd x =>
      if Tree_Finalized t then t' = t
      else if EqualSubset 0 (node_DecidedPrefix (t_node t)) (Tree_Preference t) x
      then ∀ y, y ∈ leaves (t_node t') ↔ y = x ∨ y ∈ leaves (t_node t)
      else t' = t
  | _ => ∀ y, y ∈ leaves (t_node t') → y ∈ leaves (t_node t)
  end.

Lemma Tree_Add_spec t x :
  wf_tree t → valid_ID x →
  wf_tree (Tree_Add t x) ∧ decisions_kept t (Tree_Add t x) ∧ choices_after t (OpAdd x) (Tree_Add t x).
Proof.
  intros Hwf Hv. destruct t as [n p sr]. unfold Tree_Add, wf_tree, choices_after, decisions_kept,
    Tree_Finalized, Tree_Preference in *; simpl in *.
  pose proof (wf_root_depth p n Hwf) as Hd. destruct (wf_root_leaves p n Hwf) as [_ Hvp].
  destruct (EqualSubset 0 (node_DecidedPrefix n) (node_Preference n) x) eqn:E; simpl;
    [|split_and!; (done || lia || by destruct (node_Finalized n))].
  apply EqualSubset_iff in E; [|done..|lia].
  destruct Hwf as [Hwf|Hfin].
  - destruct (node_Add_spec p n x Hwf Hv (bits_agree_sym _ _ _ _ E)) as (A & B & C & D & Hl).
    rewrite (wf_node_not_final p n Hwf). split_and!; [by left|done|lia|by rewrite C|done|exact Hl].
  - rewrite node_Add_final by done. destruct (final_leaf_valid p n Hfin) as (-> & _).
    split_and!; (by right || done || lia).
Qed.

(** Adding a choice does not change the preference. *)
Lemma Tree_Add_preference t x :
  wf_tree t → valid_ID x → Tree_Preference (Tree_Add t x) = Tree_Preference t.
Proof.
  intros Hwf Hv. destruct t as [n p sr]. unfold Tree_Add, wf_tree, Tree_Preference in *; simpl in *.
  pose proof (wf_root_depth p n Hwf) as Hd. destruct (wf_root_leaves p n Hwf) as [_ Hvp].
  destruct (EqualSubset 0 (node_DecidedPrefix n) (node_Preference n) x) eqn:E; simpl; [|done].
  apply EqualSubset_iff in E; [|done..|lia]. destruct Hwf as [Hwf|Hfin]; [|by rewrite node_Add_final].
  by destruct (node_Add_spec p n x Hwf Hv (bits_agree_sym _ _ _ _ E)) as (_ & _ & C & _).
Qed.

Lemma Tree_RecordPoll_spec t votes :
  wf_tree t →
  let t' := (Tree_RecordPoll t votes).1 in
  wf_tree t' ∧ decisions_kept t t' ∧ ∀ y, y ∈ leaves (t_node t') → y ∈ leaves (t_node t).
Proof.
  intros Hwf. destruct t as [n p sr]. unfold Tree_RecordPoll, wf_tree, Tree_Finalized,
    decisions_kept, Tree_Finalized, Tree_Preference in *; simpl in *.
  set (v := Filter votes _). assert (wf_bag v) as Hv by apply wf_Filter.
  destruct Hwf as [Hwf|Hfin].
  - pose proof (node_RecordPoll_spec p n v sr Hwf Hv) as Hpost.
    destruct (node_RecordPoll p n v sr) as [[self ret] ok]. simpl.
    destruct (poll_post_root _ _ _ _ _ _ Hpost) as (A & B & C).
    destruct (wf_root_leaves p ret A) as [Hin _].
    split_and!; [done|done|done| |by rewrite (wf_node_not_final p n Hwf)|done].
    destruct (leaves_spec p n Hwf) as [_ Hl]. by apply Hl, C.
  - pose proof (node_RecordPoll_final p n v sr Hfin) as Hpost.
    destruct (node_RecordPoll p n v sr) as [[self ret] ok]. simpl.
    destruct Hpost as (-> & Hf & Hp & Hd & Hl). rewrite Hp, Hd, Hl.
    split_and!; [by right|done|lia|done| |done].
    intros _. by destruct (final_leaf_valid p self Hf).
Qed.

Lemma tree_step_spec t o :
  wf_tree t → valid_op o →
  wf_tree (tree_step t o) ∧ decisions_kept t (tree_step t o) ∧ choices_after t o (tree_step t o).
Proof.
  intros Hwf Ho. destruct o as [x|votes|]; simpl.
  - by apply Tree_Add_spec.
  - by apply Tree_RecordPoll_spec.
  - split_and!; try done; try lia.
Qed.

Lemma NewTree_wf params choice :
  1 ≤ Beta params → valid_ID choice →
  wf_tree (NewTree params choice) ∧ leaves (t_node (NewTree params choice)) = [choice].
Proof.
  intros Hb Hv. split; [|done]. left. destruct (law_new_unary params Hb) as (H1 & _ & H3).
  simpl. split_and!; (done || lia).
Qed.

(** The states that a tree goes through. *)
Inductive tree_steps : Tree → list tree_op → Tree → Prop :=
  | steps_nil t : tree_steps t [] t
  | steps_cons t o ops t' :
      valid_op o → tree_steps (tree_step t o) ops t' → tree_steps t (o :: ops) t'.

(** The choices that a list of operations adds. *)
Definition added (ops : list tree_op) : list ID :=
  omap (λ o, match o with OpAdd x => Some x | _ => None end) ops.

Lemma choices_after_added t o t' y :
  choices_after t o t' → y ∈ leaves (t_node t') → y ∈ leaves (t_node t) ∨ y ∈ added [o].
Proof.
  destruct o as [x|votes|]; simpl; [|auto..].
  destruct (Tree_Finalized t); [intros ->; auto|]. destruct (EqualSubset _ _ _ _); [|intros ->; auto].
  intros H Hy. apply H in Hy as [->|]; [right; left|left]; done.
Qed.

Lemma tree_steps_spec t ops t' :
  tree_steps t ops t' → wf_tree t →
  wf_tree t' ∧ decisions_kept t t'
  ∧ ∀ y, y ∈ leaves (t_node t') → y ∈ leaves (t_node t) ∨ y ∈ added ops.
Proof.
  induction 1 as [t|t o ops t' Ho Hs IH]; intros Hwf.
  { split_and!; [done|apply decisions_kept_refl|auto]. }
  destruct (tree_step_spec t o Hwf Ho) as (A & B & C). destruct (IH A) as (D & E & G).
  split_and!; [done|by eapply decisions_kept_trans|]. intros y Hy.
  apply G in Hy as [Hy|Hy].
  - apply (choices_after_added _ _ _ _ C) in Hy as [Hy|Hy]; [by left|right].
    change (o :: ops) with ([o] ++ ops). unfold added. rewrite omap_app, elem_of_app. by left.
  - right. change (o :: ops) with ([o] ++ ops). unfold added. rewrite omap_app, elem_of_app. by right.
Qed.

(** ** Unanimous polls finalize the tree *)

(** Every instance on the path to the choice [c] has confidence at least [k] in it
    and no pending reset. *)
Fixpoint strong (k : Z) (c : ID) (n : node) : Prop :=
  match n with
  | unaryNode _ _ _ snow sr child =>
      k ≤ u_conf snow
      ∧ match child with Some ch => sr = false ∧ strong k c ch | None => True end
  | binaryNode _ bit snow srs child0 child1 =>
      k ≤ b_conf snow (Bit c bit)
      ∧ if Bit c bit =? 0
        then match child0 with Some ch => srs.1 = false ∧ strong k c ch | None => True end
        else match child1 with Some ch => srs.2 = false ∧ strong k c ch | None => True end
  end.

Lemma strong_binary k c prefs bit snow srs c0 c1 :
  strong k c (binaryNode prefs bit snow srs c0 c1) ↔
  k ≤ b_conf snow (Bit c bit)
  ∧ match get2 (c0, c1) (Bit c bit) with
    | Some ch => get2 srs (Bit c bit) = false ∧ strong k c ch
    | None => True
    end.
Proof. simpl. unfold get2. simpl. by destruct (_ =? _). Qed.

(** All the votes are for [c] and they reach both thresholds. *)
Definition unanimous (p : Parameters) (c : ID) (votes : Bag ID) : Prop :=
  wf_bag votes ∧ Count votes c = Len votes
  ∧ AlphaPreference p ≤ Len votes ∧ AlphaConfidence p ≤ Len votes ∧ 0 < AlphaPreference p.

Lemma unanimous_filter p c votes f :
  unanimous p c votes → f c = true →
  unanimous p c (Filter votes f) ∧ Len (Filter votes f) = Len votes.
Proof.
  intros (Hwf & Hc & H1 & H2 & H3) Hf.
  pose proof (Count_Filter votes f c Hwf) as E. rewrite Hf in E.
  pose proof (Count_le_Len _ c (wf_Filter votes f)). pose proof (Len_Filter_le votes f Hwf).
  assert (Len (Filter votes f) = Len votes) as El by lia.
  split; [|done]. split_and!; [apply wf_Filter|lia..].
Qed.

(** On a unanimous poll the branch of [c] wins and gets all the votes. *)
Lemma unanimous_poll p c index votes :
  unanimous p c votes →
  poll_bit p index votes = Bit c index ∧ unanimous p c (poll_votes p index votes)
  ∧ Len (poll_votes p index votes) = Len votes.
Proof.
  intros Hu. pose proof Hu as (Hwf & Hc & H1 & H2 & H3).
  assert (poll_bit p index votes = Bit c index) as Hbit.
  { unfold poll_bit. rewrite Split_Filter. simpl. destruct (Bit_0_or_1 c index) as [E|E]; rewrite E.
    - pose proof (Len_Split votes (λ id, Bit id index =? 1) Hwf) as Hs.
      rewrite Split_Filter in Hs. simpl in Hs.
      destruct (unanimous_filter p c votes (λ id, negb (Bit id index =? 1)) Hu) as [_ El];
        [by rewrite E|]. by rewrite (proj2 (Z.leb_gt _ _)) by lia.
    - destruct (unanimous_filter p c votes (λ id, Bit id index =? 1) Hu) as [_ El];
        [by rewrite E|]. by rewrite (proj2 (Z.leb_le _ _)) by lia. }
  split; [done|]. unfold poll_votes. rewrite Hbit, Split_Filter. unfold get2. simpl.
  destruct (Bit_0_or_1 c index) as [E|E]; rewrite E; simpl; apply unanimous_filter;
    by rewrite ?E.
Qed.

(** The state of the path before a poll: marked for a reset, or strong. *)
Definition ready (k : Z) (c : ID) (reset : bool) (n : node) : Prop :=
  if reset then k = 0 else k = 0 ∨ strong k c n.

(** After a unanimous poll the path is finalized in [c] or stronger. *)
Definition path_after (k : Z) (c : ID) (ret : node) : Prop :=
  c ∈ leaves ret
  ∧ ((node_Finalized ret = true ∧ node_Preference ret = c)
     ∨ (node_Finalized ret = false ∧ strong (k + 1) c ret)).

Lemma progress_unary p pref dP cP snow sr child votes reset c k :
  let n := unaryNode pref dP cP snow sr child in
  (∀ ch votes' reset', child = Some ch → wf_node p ch → c ∈ leaves ch →
     unanimous p c votes' → ready k c reset' ch →
     let '(_, ret, _) := node_RecordPoll p ch votes' reset' in path_after k c ret) →
  wf_node p n → c ∈ leaves n → unanimous p c votes → 0 ≤ k → ready k c reset n →
  let '(_, ret, _) := node_RecordPoll p n votes reset in path_after k c ret.
Proof.
  intros n IH Hwf Hin Hu Hk Hr. pose proof Hwf as (_ & Hok & Hnf & _ & Hchild).
  pose proof Hu as (Hb & _ & H1 & H2 & _). simpl.
  destruct (unary_reset_ok p snow reset Hok) as (Hok1 & Hf1 & Hc1).
  set (snow1 := if reset then U_RecordUnsuccessfulPoll snow else snow) in *.
  rewrite (proj2 (Z.ltb_ge _ _)) by lia.
  destruct (law_U_poll p snow1 (Len votes) Hok1) as (Hok2 & Hc2 & Hf2).
  rewrite (proj2 (Z.ltb_ge (Len votes) _)) in Hc2 by lia.
  destruct (law_u_ok _ _ Hok) as (_ & Hn & _).
  assert (k + 1 ≤ u_conf (U_RecordPoll snow1 (Len votes))) as Hk1.
  { rewrite Hc2, Hc1. unfold ready in Hr. simpl in Hr. destruct reset; [lia|].
    destruct Hr as [->|[? _]]; lia. }
  set (snow2 := U_RecordPoll snow1 (Len votes)) in *.
  destruct child as [ch|].
  - destruct Hchild as (Hwc & Hdc & Hpc & Hecc). set (sr1 := if reset then true else sr).
    assert (ready k c sr1 ch) as Hrc.
    { unfold sr1, ready in *. destruct reset; [done|]. simpl in Hr.
      destruct Hr as [->|(_ & -> & ?)]; [destruct sr; auto|by right]. }
    specialize (IH ch votes sr1 eq_refl Hwc Hin Hu Hrc).
    pose proof (node_RecordPoll_spec p ch votes sr1 Hwc Hb) as Hpost.
    pose proof (node_RecordPoll_spec p n votes reset Hwf Hb) as Hpost'. simpl in Hpost'.
    fold snow1 sr1 in Hpost'. rewrite (proj2 (Z.ltb_ge _ _)) in Hpost' by lia. fold snow2 in Hpost'.
    destruct (node_RecordPoll p ch votes sr1) as [[c' newChild] ok].
    destruct (U_Finalized snow2) eqn:Efin; [done|].
    destruct Hpost' as (Hnf' & _). destruct Hnf' as (_ & Hwf' & _); [exact Efin|].
    destruct Hwf' as (_ & _ & _ & _ & Hwc' & _).
    destruct Hpost as (Hn1 & _). destruct (Hn1 (wf_node_not_final _ _ Hwc')) as (-> & _).
    destruct IH as [Hin' [[Hff _]|[_ Hs]]]; [by rewrite (wf_node_not_final _ _ Hwc') in Hff|].
    split; [done|]. right. split; [done|]. simpl. done.
  - split; [done|]. simpl. destruct (U_Finalized snow2); [left|right; by split].
    split; [done|]. simpl in Hin. by apply list_elem_of_singleton in Hin.
Qed.

Lemma strong_conf k c n : strong k c n → k ≤ node_conf n.
Proof.
  destruct n as [pref dP cP snow sr child|prefs bit snow srs c0 c1]; [by intros [? _]|].
  intros [H _]%strong_binary. simpl. destruct (Bit_0_or_1 c bit) as [E|E]; rewrite E in H; lia.
Qed.

Lemma leaf_branch p prefs index snow srs c :
  wf_node p (binaryNode prefs index snow srs None None) →
  c ∈ leaves (binaryNode prefs index snow srs None None) → c = get2 prefs (Bit c index).
Proof.
  intros (_ & _ & _ & Hp & _)%wf_binary_iff Hin. simpl in Hin.
  destruct Hp as (_ & _ & B0 & B1 & _). rewrite !elem_of_cons, elem_of_nil in Hin.
  destruct Hin as [->|[->|[]]]; [by rewrite B0|by rewrite B1].
Qed.

Lemma child_branch p prefs index snow srs n0 n1 c :
  wf_node p (binaryNode prefs index snow srs (Some n0) (Some n1)) →
  c ∈ leaves (binaryNode prefs index snow srs (Some n0) (Some n1)) →
  wf_node p (get2 (n0, n1) (Bit c index)) ∧ c ∈ leaves (get2 (n0, n1) (Bit c index)).
Proof.
  intros (Hd & _ & _ & Hp & Hk)%wf_binary_iff Hin.
  destruct Hk as [(? & _)|(? & ? & [= <-] & [= <-] & Hk)]; [done|].
  apply leaves_binary in Hin as (i & Hi & Hin). destruct (Hk i Hi) as (Hw & Hdp & Hpr & _).
  destruct (leaves_spec p _ Hw) as [_ Hl]. destruct (Hl c Hin) as [_ Ha]. rewrite Hdp, Hpr in Ha.
  assert (Bit c index = i) as -> by (rewrite (Ha index) by lia; by apply wf_prefs_bit). done.
Qed.

Lemma binary_kid_wf p prefs index snow srs n0 n1 i c :
  is_choice i →
  let kids := set2 (Some n0, Some n1) i (Some c) in
  wf_node p (binaryNode prefs index snow srs kids.1 kids.2) → wf_node p c.
Proof.
  intros [-> | ->]; simpl; intros (_ & _ & _ & _ & H0 & H1); [apply H0|apply H1].
Qed.

Lemma progress_binary p prefs index snow srs c0 c1 votes reset c k :
  let n := binaryNode prefs index snow srs c0 c1 in
  (∀ ch votes' reset', get2 (c0, c1) (Bit c index) = Some ch → wf_node p ch → c ∈ leaves ch →
     unanimous p c votes' → ready k c reset' ch →
     let '(_, ret, _) := node_RecordPoll p ch votes' reset' in path_after k c ret) →
  wf_node p n → c ∈ leaves n → unanimous p c votes → 0 ≤ k → ready k c reset n →
  let '(_, ret, _) := node_RecordPoll p n votes reset in path_after k c ret.
Proof.
  intros n IH Hwf Hin Hu Hk Hr. pose proof Hwf as (_ & Hok & Hnf & Hp & Hkids)%wf_binary_iff.
  destruct (unanimous_poll p c index votes Hu) as (Hbit & Hu' & _).
  pose proof Hu as (Hb & _). pose proof Hu' as (Hb' & _ & H1 & H2 & _).
  pose proof (node_RecordPoll_spec p n votes reset Hwf Hb) as Hpost.
  unfold n in Hpost |- *. rewrite node_RecordPoll_binary in Hpost |- *. cbv zeta in Hpost |- *.
  rewrite Hbit in *. pose proof (Bit_0_or_1 c index) as Hi. set (i := Bit c index) in *.
  set (v := poll_votes p index votes) in *.
  destruct (binary_reset_ok p snow reset Hok) as (Hok1 & Hf1 & Hc1). rewrite Hnf in Hf1.
  set (snow1 := if reset then B_RecordUnsuccessfulPoll snow else snow) in *.
  set (srs1 := poll_resets i reset srs) in *.
  rewrite (proj2 (Z.ltb_ge _ _)) in Hpost |- * by lia.
  destruct (law_B_poll p snow1 (Len v) i Hok1 Hi Hf1) as (Hok2 & Hc2 & _ & Hdec).
  set (snow2 := B_RecordPoll snow1 (Len v) i) in *.
  assert (k + 1 ≤ b_conf snow2 i) as Hk1.
  { rewrite Hc2, Z.eqb_refl, !(proj2 (Z.ltb_ge (Len v) _)), Hc1 by lia. simpl.
    destruct (law_b_ok _ _ Hok) as [_ Hn]. destruct (Hn i) as [Hni _]. unfold ready in Hr.
    destruct reset; [lia|]. destruct Hr as [->|[? _]%strong_binary]; [lia|]. fold i in H. lia. }
  destruct Hkids as [(-> & -> & Hlast)|(n0 & n1 & -> & -> & Hkk)].
  - replace (get2 (None, None) i) with (@None node) in Hpost |- * by (unfold get2; by destruct (_ =? _)).
    split; [done|]. cbn [node_Finalized node_Preference].
    destruct (B_Finalized snow2) eqn:Efin; [left|right].
    + split; [done|]. rewrite Hdec by done. symmetry. by eapply leaf_branch.
    + split; [done|]. apply strong_binary. fold i. split; [done|].
      by replace (get2 (None, None) i) with (@None node) by (unfold get2; by destruct (_ =? _)).
  - assert (get2 (Some n0, Some n1) i = Some (get2 (n0, n1) i)) as Eg
      by (unfold get2; by destruct (_ =? _)).
    rewrite Eg in IH, Hpost |- *.
    destruct (child_branch p prefs index snow srs n0 n1 c Hwf Hin) as [Hwc Hinc]. fold i in Hwc, Hinc.
    assert (get2 srs1 i = if reset then true else get2 srs i) as Hsr
      by (unfold srs1; by rewrite poll_resets_get, Z.eqb_refl).
    assert (ready k c (get2 srs1 i) (get2 (n0, n1) i)) as Hrc.
    { rewrite Hsr. unfold ready in *. destruct reset; [done|].
      destruct Hr as [->|[_ Hs]%strong_binary]; [destruct (get2 srs i); auto|].
      fold i in Hs. rewrite Eg in Hs. destruct Hs as [-> Hs]. by right. }
    specialize (IH _ v (get2 srs1 i) eq_refl Hwc Hinc Hu' Hrc).
    pose proof (node_RecordPoll_spec p _ v (get2 srs1 i) Hwc Hb') as Hpc.
    destruct (node_RecordPoll p (get2 (n0, n1) i) v (get2 srs1 i)) as [[c' newChild] ok].
    destruct (B_Finalized snow2) eqn:Efin; [apply IH|].
    destruct Hpost as (Hself & _). destruct Hself as (_ & Hwb & _ & Hleaves); [exact Efin|].
    pose proof (binary_kid_wf p _ _ _ _ n0 n1 i c' Hi Hwb) as Hwc'.
    destruct Hpc as (Hn1 & _). destruct (Hn1 (wf_node_not_final _ _ Hwc')) as (-> & _).
    destruct IH as [_ [[Hff _]|[_ Hs]]]; [by rewrite (wf_node_not_final _ _ Hwc') in Hff|].
    split; [by rewrite Hleaves|]. right. split; [exact Efin|]. apply strong_binary. fold i.
    rewrite <- surjective_pairing, !get2_set2_eq. done.
Qed.

Lemma node_RecordPoll_progress p n votes reset c k :
  wf_node p n → c ∈ leaves n → unanimous p c votes → 0 ≤ k → ready k c reset n →
  let '(_, ret, _) := node_RecordPoll p n votes reset in path_after k c ret.
Proof.
  intros Hwf Hin Hu Hk. revert votes reset Hwf Hin Hu.
  induction n as [pref dP cP snow sr|pref dP cP snow sr ch IH|prefs bit snow srs c0 c1 IH0 IH1]
    using node_ind'; intros votes reset Hwf Hin Hu Hr.
  - by apply progress_unary.
  - apply progress_unary; [|done..]. intros ch' votes' reset' [= <-] ? ? ?. by apply IH.
  - apply progress_binary; [|done..]. intros ch' votes' reset' E ? ? ?.
    destruct (Bit_0_or_1 c bit) as [Eb|Eb]; rewrite Eb in E; simpl in E; [by apply IH0|by apply IH1].
Qed.

(** A state of the tree on its way to finalizing [c] after [k] unanimous polls. *)
Definition converging (k : Z) (c : ID) (t : Tree) : Prop :=
  wf_tree t ∧ c ∈ leaves (t_node t)
  ∧ ((Tree_Finalized t = true ∧ Tree_Preference t = c)
     ∨ (Tree_Finalized t = false ∧ ready k c (t_shouldReset t) (t_node t))).

Lemma converging_step k c t votes :
  0 ≤ k → converging k c t → unanimous (t_params t) c votes →
  converging (k + 1) c (Tree_RecordPoll t votes).1.
Proof.
  intros Hk (Hwf & Hin & Hcase) Hu.
  destruct (Tree_RecordPoll_spec t votes Hwf) as (Hwf' & Hkept & _).
  split; [done|]. destruct Hcase as [[Hf Hp]|[Hf Hr]].
  - destruct Hkept as (_ & _ & _ & Hfin). destruct (Hfin Hf) as [Hf' Hp']. rewrite Hp in Hp'.
    split; [|by left]. rewrite <- Hp'. by eapply wf_root_leaves.
  - destruct Hwf as [Hwn|Hfl]; [|destruct (final_leaf_valid _ _ Hfl) as [Hff _];
      unfold Tree_Finalized in Hf; congruence].
    destruct t as [n p sr]. unfold Tree_RecordPoll, Tree_Finalized, Tree_Preference in *. simpl in *.
    set (v := Filter votes _). assert (unanimous p c v) as Hu'.
    { apply unanimous_filter; [done|]. destruct (leaves_spec p n Hwn) as [_ Hl].
      destruct (Hl c Hin) as [Hv Ha]. pose proof (wf_depth p n Hwn).
      apply EqualSubset_iff; [by eapply wf_valid_preference|done|lia|lia|by apply bits_agree_sym]. }
    pose proof (node_RecordPoll_progress p n v sr c k Hwn Hin Hu' Hk Hr) as Hpa.
    destruct (node_RecordPoll p n v sr) as [[self ret] ok]. simpl.
    destruct Hpa as [Hin' [?|[? ?]]]; (split; [done|]); [by left|right; split; [done|by right]].
Qed.

Lemma converging_done k c t :
  converging k c t → 0 < k → Beta (t_params t) ≤ k → Tree_Finalized t = true ∧ Tree_Preference t = c.
Proof.
  intros (Hwf & _ & [?|[Hf Hr]]) Hk Hb; [done|]. exfalso.
  destruct Hwf as [Hwn|Hfl].
  - unfold ready in Hr. destruct (t_shouldReset t); [lia|]. destruct Hr as [|Hs]; [lia|].
    apply strong_conf in Hs. pose proof (node_conf_bounds _ _ Hwn). lia.
  - destruct (final_leaf_valid _ _ Hfl) as [Hff _]. unfold Tree_Finalized in Hf. congruence.
Qed.

(** Record a list of polls. *)
Definition Tree_polls (t : Tree) (polls : list (Bag ID)) : Tree :=
  foldl (λ t votes, (Tree_RecordPoll t votes).1) t polls.

Lemma converging_polls c polls k t :
  0 ≤ k → converging k c t → Forall (unanimous (t_params t) c) polls →
  converging (k + Z.of_nat (length polls)) c (Tree_polls t polls)
  ∧ t_params (Tree_polls t polls) = t_params t.
Proof.
  revert k t. induction polls as [|v polls IH]; intros k t Hk Hc Hall; simpl.
  { by rewrite Z.add_0_r. }
  inversion_clear Hall as [|? ? Hv Hall'].
  assert (t_params (Tree_RecordPoll t v).1 = t_params t) as Ep.
  { unfold Tree_RecordPoll. by destruct (node_RecordPoll _ _ _ _) as [[? ?] ?]. }
  destruct (IH (k + 1) (Tree_RecordPoll t v).1) as [A B].
  - lia.
  - by apply converging_step.
  - by rewrite Ep.
  - split; [|by rewrite B, Ep]. by replace (k + Z.of_nat (S (length polls)))
      with (k + 1 + Z.of_nat (length polls)) by lia.
Qed.

Lemma converging_start c t :
  wf_tree t → Tree_Finalized t = false → c ∈ leaves (t_node t) → converging 0 c t.
Proof.
  intros Hwf Hf Hin. split_and!; [done..|]. right. split; [done|]. unfold ready.
  destruct (t_shouldReset t); auto.
Qed.
End tree.

(** ** Properties *)

Section properties.
Context {F : Factory} {L : FactoryLaws F}.

(** The node [m] is strictly below the node [n]. *)
Inductive below (m : node) : node → Prop :=
  | below_unary pref dP cP snow sr c :
      m = c ∨ below m c → below m (unaryNode pref dP cP snow sr (Some c))
  | below_zero prefs bit snow srs c c1 :
      m = c ∨ below m c → below m (binaryNode prefs bit snow srs (Some c) c1)
  | below_one prefs bit snow srs c0 c :
      m = c ∨ below m c → below m (binaryNode prefs bit snow srs c0 (Some c)).

Lemma wf_below p m n : wf_node p n → below m n → wf_node p m.
Proof.
  induction n as [pref dP cP snow sr|pref dP cP snow sr c IH|prefs bit snow srs c0 c1 IH0 IH1]
    using node_ind'; intros Hwf Hb; [by inversion Hb|..].
  - destruct Hwf as (_ & _ & _ & _ & Hc & _). inversion Hb; subst. naive_solver.
  - apply wf_binary_iff in Hwf as (_ & _ & _ & _ & [(-> & -> & _)|(n0 & n1 & -> & -> & Hk)]);
      [by inversion Hb|].
    destruct (Hk 0 ltac:(by left)) as [H0 _]. destruct (Hk 1 ltac:(by right)) as [H1 _]. simpl in *.
    inversion Hb; subst; naive_solver.
Qed.

(** C6. The tree holds exactly the choices that were added and not decided
    against.  Adding a choice to a tree that is not finalized and whose decided
    bits agree with it adds exactly that choice to the leaves; otherwise the tree
    does not change.  The preference stays the same and the invariant is kept. *)
Theorem tree_add_exact t x :
  wf_tree t → valid_ID x →
  wf_tree (Tree_Add t x) ∧ Tree_Preference (Tree_Add t x) = Tree_Preference t
  ∧ if Tree_Finalized t || negb (EqualSubset 0 (node_DecidedPrefix (t_node t)) (Tree_Preference t) x)
    then Tree_Add t x = t
    else ∀ y, y ∈ leaves (t_node (Tree_Add t x)) ↔ y = x ∨ y ∈ leaves (t_node t).
Proof.
  intros Hwf Hv. destruct (Tree_Add_spec t x Hwf Hv) as (A & B & C). split; [done|].
  unfold choices_after in C.
  assert (Tree_Preference (Tree_Add t x) = Tree_Preference t) as Hp.
  { unfold Tree_Add in *. destruct (EqualSubset _ _ _ _) eqn:E; [|done].
    destruct t as [n p sr]. unfold Tree_Preference in *. simpl in *.
    destruct Hwf as [Hwf|Hfl]; [|by rewrite node_Add_final].
    destruct (wf_root_depth p n (or_introl Hwf)).
    apply EqualSubset_iff in E; [|by eapply wf_valid_preference|done|lia|lia].
    by destruct (node_Add_spec p n x Hwf Hv (bits_agree_sym _ _ _ _ E)) as (_ & _ & ? & _). }
  split; [done|]. destruct (Tree_Finalized t); simpl in *; [done|].
  by destruct (EqualSubset _ _ _ _).
Qed.

(** C4. Decisions are final.  In every run of a tree from its creation, decided
    bits are never undone by later operations, a finalized tree keeps its
    preference forever, and the preference is always one of the added choices. *)
Theorem tree_decisions_final params choice ops t ops' t' :
  1 ≤ Beta params → valid_ID choice →
  tree_steps (NewTree params choice) ops t → tree_steps t ops' t' →
  node_DecidedPrefix (t_node t) ≤ node_DecidedPrefix (t_node t')
  ∧ (∀ i, 0 ≤ i < node_DecidedPrefix (t_node t) →
       Bit (Tree_Preference t') i = Bit (Tree_Preference t) i)
  ∧ (Tree_Finalized t = true →
       Tree_Finalized t' = true ∧ Tree_Preference t' = Tree_Preference t)
  ∧ Tree_Preference t' ∈ choice :: added ops ++ added ops'.
Proof.
  intros Hb Hv H1 H2. destruct (NewTree_wf params choice Hb Hv) as [W0 L0].
  destruct (tree_steps_spec _ _ _ H1 W0) as (W1 & _ & C1).
  destruct (tree_steps_spec _ _ _ H2 W1) as (W2 & (_ & D & A & Fin) & C2).
  split_and!; [done|exact A|done|].
  destruct (wf_root_leaves _ _ W2) as [Hin _]. rewrite elem_of_cons, elem_of_app.
  apply C2 in Hin as [Hin|Hin]; [|by right; right].
  apply C1 in Hin as [Hin|Hin]; [left|by right; left].
  rewrite L0 in Hin. by apply list_elem_of_singleton in Hin.
Qed.

(** A child never finalizes before its parent: in every state of a run no
    node below the root is finalized, and a root with children is not finalized.
    This is what lets [RecordPoll] of a unary node ignore a replaced child. *)
Theorem child_never_finalizes_first params choice ops t m :
  1 ≤ Beta params → valid_ID choice →
  tree_steps (NewTree params choice) ops t → below m (t_node t) →
  node_Finalized m = false ∧ Tree_Finalized t = false.
Proof.
  intros Hb Hv H1 Hm. destruct (NewTree_wf params choice Hb Hv) as [W0 _].
  destruct (tree_steps_spec _ _ _ H1 W0) as ([Hwf|Hfl] & _ & _).
  - split; [|by eapply wf_node_not_final]. eapply wf_node_not_final. by eapply wf_below.
  - exfalso. revert Hfl.
    by destruct Hm as [? ? ? ? ? ? _|? ? ? ? ? [?|] _|? ? ? ? [?|] ? _].
Qed.

(** C5. Unanimous polls finalize the tree.  From every state of a run that is not
    finalized, [beta] polls in a row in which all the votes are for one and the
    same choice of the tree, and reach both thresholds, finalize the tree with that
    choice as its preference. *)
Theorem unanimous_polls_finalize params choice ops t c polls :
  1 ≤ Beta params → valid_ID choice →
  tree_steps (NewTree params choice) ops t → Tree_Finalized t = false → c ∈ leaves (t_node t) →
  Forall (unanimous params c) polls → Beta params ≤ Z.of_nat (length polls) →
  Tree_Finalized (Tree_polls t polls) = true ∧ Tree_Preference (Tree_polls t polls) = c.
Proof.
  intros Hb Hv H1 Hf Hin Hall Hlen. destruct (NewTree_wf params choice Hb Hv) as [W0 _].
  destruct (tree_steps_spec _ _ _ H1 W0) as (W1 & (Ep & _) & _). simpl in Ep.
  destruct (converging_polls c polls 0 t) as [Hc Ep'];
    [lia|by apply converging_start|by rewrite Ep|].
  eapply converging_done; [exact Hc|lia|]. rewrite Ep', Ep. lia.
Qed.
End properties.

(** *** Witnesses *)

Definition small_params : Parameters :=
  {| K := 3; AlphaPreference := 2; AlphaConfidence := 3; Beta := 2; ConcurrentRepolls := 1;
     OptimalProcessing := 1; MaxOutstandingItems := 1; MaxItemProcessingTime := 1 |}.

Definition vote_for (c : ID) : Bag ID := AddCount empty_bag c 3.

Lemma vote_for_unanimous c : unanimous small_params c (vote_for c).
Proof.
  split_and!; try done; [apply wf_AddCount, wf_empty_bag|].
  unfold vote_for, Count, Len, AddCount. simpl. by rewrite lookup_insert_eq.
Qed.

Definition sample_tree : Tree (F := snowballFactory) :=
  Tree_Add (NewTree small_params idA) idB.

Lemma sample_ids_valid : valid_ID idA ∧ valid_ID idB.
Proof. split; apply (bool_decide_unpack _); vm_compute; exact I. Qed.

Lemma sample_tree_steps :
  tree_steps (F := snowballFactory) (NewTree small_params idA) [OpAdd idB] sample_tree.
Proof. apply steps_cons; [apply sample_ids_valid|apply steps_nil]. Qed.

Lemma tree_add_exact_witness :
  idA ∈ leaves (t_node sample_tree) ∧ idB ∈ leaves (t_node sample_tree).
Proof.
  destruct sample_ids_valid as [VA VB].
  destruct (NewTree_wf (F := snowballFactory) small_params idA) as [W _]; [done..|].
  pose proof (tree_add_exact (F := snowballFactory) (NewTree small_params idA) idB W VB) as (_ & _ & H).
  split; apply H; [right; by left|by left].
Defined.

Lemma tree_decisions_final_witness :
  Tree_Preference (F := snowballFactory) (Tree_polls sample_tree [vote_for idB; vote_for idB]) = idB
  ∧ idB ∈ idA :: [idB] ++ [].
Proof.
  destruct sample_ids_valid as [VA VB]. split; [vm_compute; reflexivity|].
  pose proof (tree_decisions_final (F := snowballFactory) small_params idA [OpAdd idB] sample_tree
    [OpPoll (vote_for idB); OpPoll (vote_for idB)]
    (Tree_polls sample_tree [vote_for idB; vote_for idB])) as H.
  destruct H as (_ & _ & _ & H).
  - done.
  - done.
  - apply sample_tree_steps.
  - apply steps_cons; [apply vote_for_unanimous|]. apply steps_cons; [apply vote_for_unanimous|].
    apply steps_nil.
  - replace (Tree_Preference _) with idB in H by (vm_compute; reflexivity). exact H.
Defined.

Lemma child_never_finalizes_first_witness :
  Tree_Finalized sample_tree = false.
Proof.
  destruct sample_ids_valid as [VA VB].
  destruct (t_node sample_tree) as [? ? ? ? ? [m|]|? ? ? ? [m|] ?] eqn:E; try discriminate E.
  eapply (child_never_finalizes_first (F := snowballFactory) small_params idA [OpAdd idB] sample_tree);
    [done|done|apply sample_tree_steps|].
  rewrite E. apply below_zero. left. reflexivity.
Defined.

Lemma unanimous_polls_finalize_witness :
  Tree_Finalized (Tree_polls sample_tree [vote_for idB; vote_for idB]) = true
  ∧ Tree_Preference (Tree_polls sample_tree [vote_for idB; vote_for idB]) = idB.
Proof.
  destruct sample_ids_valid as [VA VB].
  apply (unanimous_polls_finalize (F := snowballFactory) small_params idA [OpAdd idB] sample_tree).
  - done.
  - done.
  - apply sample_tree_steps.
  - vm_compute. reflexivity.
  - apply (bool_decide_unpack _). vm_compute. exact I.
  - repeat constructor; apply vote_for_unanimous.
  - done.
Defined.
