(* ===== verification/Linked.v ===== *)
(** * The intrusive doubly linked list

    Models [utils/linked/list.go] at the level of pointers.  A pointer is an optional
    address; the heap maps addresses to the list elements.  A [List] object embeds
    its sentinel as its first field, so the address of the sentinel stands for both,
    and the heap keeps the [length] field of each list by that address.  A function
    returns [None] when it dereferences [nil].

    [heap_rep h Γ] says that the lists allocated in [h] are, element by element, the
    sequences of addresses [Γ].  The theorems show that the operations never
    dereference [nil] and act on [Γ] as insertion and removal in a sequence,
    for every list of the heap at once. *)

From S2P Require Import Prelude.

Notation loc := positive (only parsing).
Notation ptr := (option positive).

Record ListElement (T : Type) := mkElement {
  next : ptr;
  prev : ptr;
  list_of : ptr;
  Value : T;
}.
Arguments mkElement {T}.
Arguments next {T}.
Arguments prev {T}.
Arguments list_of {T}.
Arguments Value {T}.

Record heap (T : Type) := mkHeap {
  elems : gmap loc (ListElement T);
  lens : gmap loc Z;
}.
Arguments mkHeap {T}.
Arguments elems {T}.
Arguments lens {T}.

Section list.
Context {T : Type}.
Implicit Types (h : heap T) (e l : ptr).

(** ** Loads and stores *)

Definition deref h (p : ptr) : option (ListElement T) := a ← p; elems h !! a.

Definition store h (p : ptr) (f : ListElement T → ListElement T) : option (heap T) :=
  a ← p; el ← elems h !! a; Some (mkHeap (<[a := f el]> (elems h)) (lens h)).

Definition set_next h p q :=
  store h p (λ el, mkElement q (prev el) (list_of el) (Value el)).
Definition set_prev h p q :=
  store h p (λ el, mkElement (next el) q (list_of el) (Value el)).
Definition set_list h p q :=
  store h p (λ el, mkElement (next el) (prev el) q (Value el)).
Definition set_Value h p v :=
  store h p (λ el, mkElement (next el) (prev el) (list_of el) v).

Definition add_length h (l : ptr) (d : Z) : option (heap T) :=
  a ← l; n ← lens h !! a; Some (mkHeap (elems h) (<[a := (n + d)%Z]> (lens h))).

(** [&ListElement[T]{Value: v}] *)
Definition new_element h (v : T) : ptr * heap T :=
  let a := fresh (dom (elems h)) in
  (Some a, mkHeap (<[a := mkElement None None None v]> (elems h)) (lens h)).

(** ** The operations *)

Definition Next h e : option ptr :=
  el ← deref h e;
  let p := next el in
  if bool_decide (list_of el ≠ None) && bool_decide (p ≠ list_of el) then Some p else Some None.

Definition Prev h e : option ptr :=
  el ← deref h e;
  let p := prev el in
  if bool_decide (list_of el ≠ None) && bool_decide (p ≠ list_of el) then Some p else Some None.

(** [zero] is the zero value of the element type, the value of the sentinel. *)
Definition NewList (zero : T) h : ptr * heap T :=
  let a := fresh (dom (elems h)) in
  (Some a, mkHeap (<[a := mkElement (Some a) (Some a) (Some a) zero]> (elems h))
                  (<[a := 0%Z]> (lens h))).

Definition List_Len h l : option Z := a ← l; lens h !! a.

Definition Front h l : option ptr :=
  n ← List_Len h l;
  if (n =? 0)%Z then Some None else s ← deref h l; Some (next s).

Definition Back h l : option ptr :=
  n ← List_Len h l;
  if (n =? 0)%Z then Some None else s ← deref h l; Some (prev s).

Definition List_Remove h l e : option (heap T) :=
  el ← deref h e;
  if bool_decide (list_of el ≠ l) then Some h
  else
    h ← set_next h (prev el) (next el);
    el ← deref h e;
    h ← set_prev h (next el) (prev el);
    h ← set_next h e None;
    h ← set_prev h e None;
    h ← set_list h e None;
    add_length h l (-1).

Definition insertAfter h l e (location : ptr) : option (heap T) :=
  el ← deref h e;
  if bool_decide (list_of el ≠ None) then Some h
  else
    h ← set_prev h e location;
    lo ← deref h location;
    h ← set_next h e (next lo);
    el ← deref h e;
    h ← set_next h (prev el) e;
    el ← deref h e;
    h ← set_prev h (next el) e;
    h ← set_list h e l;
    add_length h l 1.

Definition moveAfter h l e (location : ptr) : option (heap T) :=
  el ← deref h e;
  if bool_decide (list_of el ≠ l) then Some h
  else
    lo ← deref h location;
    if bool_decide (list_of lo ≠ l) || bool_decide (e = location) then Some h
    else
      h ← set_next h (prev el) (next el);
      el ← deref h e;
      h ← set_prev h (next el) (prev el);
      h ← set_prev h e location;
      lo ← deref h location;
      h ← set_next h e (next lo);
      el ← deref h e;
      h ← set_next h (prev el) e;
      el ← deref h e;
      set_prev h (next el) e.

Definition PushFront h l e : option (heap T) := insertAfter h l e l.

Definition PushBack h l e : option (heap T) :=
  s ← deref h l; insertAfter h l e (prev s).

Definition InsertBefore h l e (location : ptr) : option (heap T) :=
  lo ← deref h location;
  if bool_decide (list_of lo = l) then insertAfter h l e (prev lo) else Some h.

Definition InsertAfter h l e (location : ptr) : option (heap T) :=
  lo ← deref h location;
  if bool_decide (list_of lo = l) then insertAfter h l e location else Some h.

Definition MoveToFront h l e : option (heap T) :=
  s ← deref h l;
  if bool_decide (e ≠ next s) then moveAfter h l e l else Some h.

Definition MoveToBack h l e : option (heap T) :=
  s ← deref h l; moveAfter h l e (prev s).

Definition MoveBefore h l e (location : ptr) : option (heap T) :=
  if bool_decide (e ≠ location) then lo ← deref h location; moveAfter h l e (prev lo)
  else Some h.

Definition MoveAfter h l e (location : ptr) : option (heap T) := moveAfter h l e location.

(** The package functions allocate the element. *)
Definition PushFront_value h l v : option (heap T) := let '(e, h) := new_element h v in PushFront h l e.
Definition PushBack_value h l v : option (heap T) := let '(e, h) := new_element h v in PushBack h l e.
Definition InsertBefore_value h l v location : option (heap T) :=
  let '(e, h) := new_element h v in InsertBefore h l e location.
Definition InsertAfter_value h l v location : option (heap T) :=
  let '(e, h) := new_element h v in InsertAfter h l e location.

End list.

#[global] Arguments deref : simpl never.
#[global] Arguments set_next : simpl never.
#[global] Arguments set_prev : simpl never.
#[global] Arguments set_list : simpl never.
#[global] Arguments set_Value : simpl never.
#[global] Arguments add_length : simpl never.

Section views.
Context {T : Type}.
Implicit Types h : heap T.

(** ** Views of a heap *)

Definition nxt h (a : loc) : ptr := el ← elems h !! a; next el.
Definition prv h (a : loc) : ptr := el ← elems h !! a; prev el.
Definition lst h (a : loc) : ptr := el ← elems h !! a; list_of el.
Definition val h (a : loc) : option T := Value <$> elems h !! a.

Definition upd {A} (f : loc → A) (a : loc) (x : A) (b : loc) : A := if decide (b = a) then x else f b.

(** [h] has the addresses [d] and the given fields. *)
Record views h (d : gset loc) (n p l : loc → ptr) (v : loc → option T) (len : gmap loc Z) : Prop := {
  views_dom : dom (elems h) = d;
  views_nxt : ∀ b, nxt h b = n b;
  views_prv : ∀ b, prv h b = p b;
  views_lst : ∀ b, lst h b = l b;
  views_val : ∀ b, val h b = v b;
  views_len : lens h = len;
}.

Lemma views_refl h : views h (dom (elems h)) (nxt h) (prv h) (lst h) (val h) (lens h).
Proof. by constructor. Qed.

Lemma upd_eq {A} (f : loc → A) a x : upd f a x a = x.
Proof. unfold upd. by rewrite decide_True. Qed.
Lemma upd_ne {A} (f : loc → A) a x b : b ≠ a → upd f a x b = f b.
Proof. intros. unfold upd. by rewrite decide_False. Qed.

Lemma deref_views h d n p s v len a :
  views h d n p s v len → a ∈ d →
  ∃ el, deref h (Some a) = Some el ∧ next el = n a ∧ prev el = p a ∧ list_of el = s a
    ∧ v a = Some (Value el).
Proof.
  intros [Hd Hn Hp Hl Hv _] Ha. rewrite <- Hd in Ha. apply elem_of_dom in Ha as [el Hel].
  specialize (Hn a). specialize (Hp a). specialize (Hl a). specialize (Hv a).
  unfold nxt, prv, lst, val in *. rewrite Hel in *. simpl in *.
  exists el. unfold deref. simpl. naive_solver.
Qed.

(** A store changes one field of one element. *)
Ltac store_tac :=
  intros [Hd Hn Hp Hl Hv Hlen] Ha; rewrite <- Hd in Ha; apply elem_of_dom in Ha as [el Hel];
  unfold set_next, set_prev, set_list, set_Value, store; simpl; rewrite Hel; simpl;
  eexists; split; [reflexivity|];
  constructor; simpl; [rewrite dom_insert_L; apply elem_of_dom_2 in Hel; set_solver|..|done];
  intros b; try (rewrite <- Hn); try (rewrite <- Hp); try (rewrite <- Hl); try (rewrite <- Hv);
  unfold nxt, prv, lst, val, upd; simpl; rewrite lookup_insert;
  repeat (case_decide; subst); simpl; rewrite ?Hel; try done.

Lemma set_next_views h d n p s v len a q :
  views h d n p s v len → a ∈ d →
  ∃ h', set_next h (Some a) q = Some h' ∧ views h' d (upd n a q) p s v len.
Proof. store_tac; by rewrite <- Hn. Qed.

Lemma set_prev_views h d n p s v len a q :
  views h d n p s v len → a ∈ d →
  ∃ h', set_prev h (Some a) q = Some h' ∧ views h' d n (upd p a q) s v len.
Proof. store_tac; by rewrite <- Hp. Qed.

Lemma set_list_views h d n p s v len a q :
  views h d n p s v len → a ∈ d →
  ∃ h', set_list h (Some a) q = Some h' ∧ views h' d n p (upd s a q) v len.
Proof. store_tac; by rewrite <- Hl. Qed.

Lemma set_Value_views h d n p s v len a x :
  views h d n p s v len → a ∈ d →
  ∃ h', set_Value h (Some a) x = Some h' ∧ views h' d n p s (upd v a (Some x)) len.
Proof. store_tac; by rewrite <- Hv. Qed.

Lemma add_length_views h d n p s v len a k c :
  views h d n p s v len → len !! a = Some k →
  ∃ h', add_length h (Some a) c = Some h' ∧ views h' d n p s v (<[a := (k + c)%Z]> len).
Proof.
  intros [Hd Hn Hp Hl Hv Hlen] Ha. unfold add_length. simpl. rewrite Hlen, Ha. simpl.
  eexists. split; [done|]. by constructor.
Qed.

(** ** Chains of addresses *)

(** Consecutive addresses of [w] point to each other. *)
Fixpoint linked (n p : loc → ptr) (w : list loc) : Prop :=
  match w with
  | a :: (b :: _) as w' => n a = Some b ∧ p b = Some a ∧ linked n p w'
  | _ => True
  end.

Lemma linked_app n p w1 x w2 :
  linked n p (w1 ++ x :: w2) ↔ linked n p (w1 ++ [x]) ∧ linked n p (x :: w2).
Proof.
  induction w1 as [|a w1 IH]; [simpl; tauto|].
  destruct w1 as [|b w1]; simpl; [tauto|]. simpl in IH. rewrite IH. tauto.
Qed.

(** The last element has no successor in the chain, the first no predecessor. *)
Lemma linked_upd_next n p w z a q : a ∉ w → linked n p (w ++ [z]) → linked (upd n a q) p (w ++ [z]).
Proof.
  induction w as [|b w IH]; [done|]. intros Ha. apply not_elem_of_cons in Ha as [Hab Ha].
  specialize (IH Ha). destruct w as [|c w]; simpl in *; rewrite upd_ne by done.
  - done.
  - intros (? & ? & ?). split_and!; [done..|by apply IH].
Qed.

Lemma linked_upd_prev n p z w a q : a ∉ w → linked n p (z :: w) → linked n (upd p a q) (z :: w).
Proof.
  revert z. induction w as [|b w IH]; [done|]. intros z Ha.
  apply not_elem_of_cons in Ha as [Hab Ha]. intros (? & ? & ?).
  simpl. rewrite upd_ne by done. split_and!; [done..|]. by apply IH.
Qed.

Lemma linked_ext n p n' p' w :
  (∀ a, a ∈ w → n' a = n a ∧ p' a = p a) → linked n p w → linked n' p' w.
Proof.
  induction w as [|a w IH]; [done|]. destruct w as [|b w]; [done|].
  intros Heq (H1 & H2 & H3). simpl.
  destruct (Heq a) as [-> _]; [by left|]. destruct (Heq b) as [_ ->]; [by right; left|].
  split_and!; [done..|]. apply IH; [|done]. intros c Hc. apply Heq. by right.
Qed.

(** ** The lists of a heap *)

(** The ring of a list: from the sentinel through the elements and back. *)
Definition ring (l : loc) (xs : list loc) : list loc := l :: xs ++ [l].

Record heap_rep h (Γ : gmap loc (list loc)) : Prop := {
  rep_ring : ∀ l xs, Γ !! l = Some xs →
    NoDup (l :: xs) ∧ linked (nxt h) (prv h) (ring l xs) ∧ (∀ a, a ∈ l :: xs → lst h a = Some l)
    ∧ lens h !! l = Some (Z.of_nat (length xs));
  rep_member : ∀ a l, lst h a = Some l → ∃ xs, Γ !! l = Some xs ∧ a ∈ l :: xs;
  rep_free : ∀ a, lst h a = None → nxt h a = None ∧ prv h a = None;
}.

Lemma lst_dom h a l : lst h a = Some l → a ∈ dom (elems h).
Proof.
  unfold lst. intros H. apply elem_of_dom. destruct (elems h !! a); [by eexists|done].
Qed.

Lemma rep_dom h Γ l xs a : heap_rep h Γ → Γ !! l = Some xs → a ∈ l :: xs → a ∈ dom (elems h).
Proof. intros Hr Hl Ha. eapply lst_dom. by apply (rep_ring _ _ Hr l xs Hl). Qed.

(** The end points of the gap after the prefix [xs1] of a list. *)
Definition before_gap (l : loc) (xs1 : list loc) : loc := List.last xs1 l.
Definition after_gap (l : loc) (xs2 : list loc) : loc := List.hd l xs2.

Lemma before_gap_snoc l xs1 : ∃ us, l :: xs1 = us ++ [before_gap l xs1].
Proof.
  unfold before_gap. destruct xs1 as [|x xs1] using rev_ind; [by exists []|].
  exists (l :: xs1). by rewrite last_last.
Qed.

Lemma after_gap_cons l xs2 : ∃ vs, xs2 ++ [l] = after_gap l xs2 :: vs.
Proof. destruct xs2 as [|x xs2]; simpl; eauto. Qed.

Lemma before_gap_elem l xs1 : before_gap l xs1 ∈ l :: xs1.
Proof. destruct (before_gap_snoc l xs1) as [us ->]. set_solver. Qed.

Lemma after_gap_elem l xs2 : after_gap l xs2 ∈ l :: xs2.
Proof. destruct xs2; simpl; set_solver. Qed.

Lemma ring_gap l xs1 xs2 :
  ∃ us vs, ring l (xs1 ++ xs2) = us ++ before_gap l xs1 :: after_gap l xs2 :: vs
    ∧ l :: xs1 = us ++ [before_gap l xs1] ∧ xs2 ++ [l] = after_gap l xs2 :: vs.
Proof.
  destruct (before_gap_snoc l xs1) as [us Hu], (after_gap_cons l xs2) as [vs Hv].
  exists us, vs. split_and!; [|done..]. unfold ring.
  rewrite <- app_assoc, Hv, app_comm_cons, Hu, <- app_assoc. done.
Qed.

(** What is left of a ring when the gap is cut. *)
Lemma linked_halves n p l xs1 xs2 q1 q2 :
  NoDup (l :: xs1 ++ xs2) →
  linked n p (l :: xs1) → linked n p (xs2 ++ [l]) →
  let n' := upd n (before_gap l xs1) q1 in
  let p' := upd p (after_gap l xs2) q2 in
  linked n' p' (l :: xs1) ∧ linked n' p' (xs2 ++ [l]).
Proof.
  intros Hnd H1 H2 n' p'.
  destruct (before_gap_snoc l xs1) as [us Hu], (after_gap_cons l xs2) as [vs Hv].
  apply NoDup_cons in Hnd as [Hl Hnd]. apply NoDup_app in Hnd as (Hnd1 & Hdis & Hnd2).
  apply not_elem_of_app in Hl as [Hl1 Hl2].
  assert (NoDup (l :: xs1)) as Hn1 by by apply NoDup_cons.
  assert (NoDup (xs2 ++ [l])) as Hn2.
  { apply NoDup_app. split_and!; [done| |apply NoDup_singleton]. set_solver. }
  split.
  - apply linked_upd_prev.
    + pose proof (after_gap_elem l xs2) as [->|?]%elem_of_cons; [done|]. intros ?. by eapply Hdis.
    + rewrite Hu in *. apply linked_upd_next; [|done].
      apply NoDup_app in Hn1 as (_ & Hn1 & _). intros Hx. apply (Hn1 _ Hx). by left.
  - rewrite Hv in *. apply linked_upd_prev.
    + by apply NoDup_cons in Hn2 as [? _].
    + rewrite <- Hv in *. apply linked_upd_next; [|done].
      pose proof (before_gap_elem l xs1) as [->|?]%elem_of_cons; [done|by apply Hdis].
Qed.

(** ** The effect of the pointer assignments *)


(** One load or store: use the view of the current heap. *)
Ltac view_step :=
  match goal with
  | V : views ?h _ _ _ _ _ _ |- context [deref ?h (Some ?a)] =>
      let el := fresh "el" in
      let En := fresh "En" in let Ep := fresh "Ep" in let El := fresh "El" in
      destruct (deref_views _ _ _ _ _ _ _ a V ltac:(assumption)) as (el & -> & En & Ep & El & _);
      simpl; rewrite ?En, ?Ep, ?El
  | V : views ?h _ _ _ _ _ _ |- context [set_next ?h (Some ?a) ?q] =>
      let V' := fresh "V" in
      destruct (set_next_views _ _ _ _ _ _ _ a q V ltac:(assumption)) as (? & -> & V'); clear V; simpl
  | V : views ?h _ _ _ _ _ _ |- context [set_prev ?h (Some ?a) ?q] =>
      let V' := fresh "V" in
      destruct (set_prev_views _ _ _ _ _ _ _ a q V ltac:(assumption)) as (? & -> & V'); clear V; simpl
  | V : views ?h _ _ _ _ _ _ |- context [set_list ?h (Some ?a) ?q] =>
      let V' := fresh "V" in
      destruct (set_list_views _ _ _ _ _ _ _ a q V ltac:(assumption)) as (? & -> & V'); clear V; simpl
  end; repeat first [rewrite upd_eq | rewrite upd_ne by congruence].

Lemma insertAfter_views h d n p s v len l e u w k :
  views h d n p s v len → e ∈ d → u ∈ d → w ∈ d → e ≠ u →
  s e = None → n u = Some w → len !! l = Some k →
  ∃ h', insertAfter h (Some l) (Some e) (Some u) = Some h'
    ∧ views h' d (upd (upd n e (Some w)) u (Some e)) (upd (upd p e (Some u)) w (Some e))
        (upd s e (Some l)) v (<[l := (k + 1)%Z]> len).
Proof.
  intros V He Hu Hw Hne Hs Hn Hl. unfold insertAfter.
  view_step. rewrite Hs, bool_decide_eq_false_2 by tauto.
  do 2 view_step. rewrite Hn. repeat view_step.
  eapply add_length_views; eassumption.
Qed.

Lemma Remove_views h d n p s v len l e u w k :
  views h d n p s v len → e ∈ d → u ∈ d → w ∈ d → e ≠ u → e ≠ w →
  s e = Some l → n e = Some w → p e = Some u → len !! l = Some k →
  ∃ h', List_Remove h (Some l) (Some e) = Some h'
    ∧ views h' d (upd (upd n u (Some w)) e None) (upd (upd p w (Some u)) e None)
        (upd s e None) v (<[l := (k + -1)%Z]> len).
Proof.
  intros V He Hu Hw Hne1 Hne2 Hs Hn Hp Hl. unfold List_Remove.
  view_step. rewrite Hs, Hn, Hp, bool_decide_eq_false_2 by tauto.
  do 2 view_step. rewrite Hn, Hp. repeat view_step.
  eapply add_length_views; eassumption.
Qed.

(** ** Insertion and removal in the sequences *)

Lemma ring_split n p l xs1 xs2 :
  linked n p (ring l (xs1 ++ xs2)) ↔
  linked n p (l :: xs1) ∧ linked n p (xs2 ++ [l])
  ∧ n (before_gap l xs1) = Some (after_gap l xs2) ∧ p (after_gap l xs2) = Some (before_gap l xs1).
Proof.
  destruct (ring_gap l xs1 xs2) as (us & vs & -> & Hu & Hv).
  rewrite Hu, Hv, linked_app. simpl. tauto.
Qed.

Lemma linked_cons_gap n p e l xs2 :
  linked n p (e :: xs2 ++ [l]) ↔
  n e = Some (after_gap l xs2) ∧ p (after_gap l xs2) = Some e ∧ linked n p (xs2 ++ [l]).
Proof. destruct (after_gap_cons l xs2) as [vs ->]. done. Qed.

Lemma NoDup_insert (l e : loc) xs1 xs2 :
  NoDup (l :: xs1 ++ e :: xs2) ↔ NoDup (l :: xs1 ++ xs2) ∧ e ∉ l :: xs1 ++ xs2.
Proof.
  rewrite <- Permutation_middle, (Permutation_swap e l), NoDup_cons. tauto.
Qed.

(** When the list [l] changes from [xs] to [xs'], it is enough to look at its own
    ring and at the elements that are in no list before or after. *)
Lemma heap_rep_change h Γ h' l xs xs' :
  heap_rep h Γ → Γ !! l = Some xs →
  (∀ a, lst h a ≠ Some l → lst h a ≠ None →
        nxt h' a = nxt h a ∧ prv h' a = prv h a ∧ lst h' a = lst h a) →
  (∀ l', l' ≠ l → lens h' !! l' = lens h !! l') →
  (NoDup (l :: xs') ∧ linked (nxt h') (prv h') (ring l xs') ∧ (∀ a, a ∈ l :: xs' → lst h' a = Some l)
   ∧ lens h' !! l = Some (Z.of_nat (length xs'))) →
  (∀ a, a ∉ l :: xs' → a ∈ l :: xs ∨ lst h a = None →
        lst h' a = None ∧ nxt h' a = None ∧ prv h' a = None) →
  heap_rep h' (<[l := xs']> Γ).
Proof.
  intros Hr Hl Hsame Hlens Hown Hfree. constructor.
  - intros l' ys Hl'. destruct (decide (l' = l)) as [->|Hne].
    { rewrite lookup_insert_eq in Hl'. by simplify_eq. }
    rewrite lookup_insert_ne in Hl' by done.
    destruct (rep_ring _ _ Hr l' ys Hl') as (Hnd & Hring & Hlst & Hn).
    assert (∀ a, a ∈ l' :: ys → nxt h' a = nxt h a ∧ prv h' a = prv h a ∧ lst h' a = lst h a) as Hs.
    { intros a Ha. specialize (Hlst a Ha). apply Hsame; rewrite Hlst; congruence. }
    split_and!; [done| | |by rewrite Hlens].
    + eapply linked_ext; [|exact Hring]. intros a Ha. destruct (Hs a) as (? & ? & ?); [|done].
      unfold ring in Ha. set_solver.
    + intros a Ha. destruct (Hs a Ha) as (_ & _ & ->). auto.
  - intros a l' Ha. destruct (decide (a ∈ l :: xs')) as [Hin|Hnin].
    { assert (l' = l) as -> by (rewrite (proj1 (proj2 (proj2 Hown)) a Hin) in Ha; congruence).
      rewrite lookup_insert_eq. eauto. }
    destruct (lst h a) as [l0|] eqn:E; [|destruct (Hfree a); [done|by right|congruence]].
    destruct (rep_member _ _ Hr a l0 E) as (ys & Hys & Hin).
    destruct (decide (l0 = l)) as [->|Hne].
    { destruct (Hfree a); [done|left; congruence|congruence]. }
    destruct (Hsame a) as (_ & _ & Hs); [congruence..|]. rewrite Hs, E in Ha. simplify_eq.
    rewrite lookup_insert_ne by done. eauto.
  - intros a Ha. destruct (decide (a ∈ l :: xs')) as [Hin|Hnin].
    { rewrite (proj1 (proj2 (proj2 Hown)) a Hin) in Ha. done. }
    destruct (lst h a) as [l0|] eqn:E; [|by apply Hfree; [|right]].
    destruct (decide (l0 = l)) as [->|Hne].
    { destruct (rep_member _ _ Hr a l E) as (ys & ? & ?). simplify_eq. by apply Hfree; [|left]. }
    destruct (Hsame a) as (_ & _ & Hs); [congruence..|]. congruence.
Qed.

Lemma insertAfter_rep h Γ l xs1 xs2 e :
  heap_rep h Γ → Γ !! l = Some (xs1 ++ xs2) → e ∈ dom (elems h) → lst h e = None →
  ∃ h', insertAfter h (Some l) (Some e) (Some (before_gap l xs1)) = Some h'
    ∧ heap_rep h' (<[l := xs1 ++ e :: xs2]> Γ)
    ∧ dom (elems h') = dom (elems h) ∧ (∀ b, val h' b = val h b)
    ∧ (∀ b, lst h' b = upd (lst h) e (Some l) b).
Proof.
  intros Hr Hl He Hfree. destruct (rep_ring _ _ Hr l _ Hl) as (Hnd & Hring & Hlst & Hlen).
  apply ring_split in Hring as (H1 & H2 & Hn & Hp).
  pose proof (before_gap_elem l xs1) as Hu. pose proof (after_gap_elem l xs2) as Hw.
  set (u := before_gap l xs1) in *. set (w := after_gap l xs2) in *.
  assert (u ∈ l :: xs1 ++ xs2 ∧ w ∈ l :: xs1 ++ xs2) as [Hu' Hw'] by set_solver.
  assert (e ∉ l :: xs1 ++ xs2) as Hnew by (intros Hin; rewrite (Hlst e Hin) in Hfree; done).
  assert (e ≠ u ∧ e ≠ w) as [Heu Hew] by (split; intros ->; contradiction).
  destruct (insertAfter_views h _ _ _ _ _ _ l e u w _ (views_refl h) He
    (rep_dom _ _ _ _ _ Hr Hl Hu') (rep_dom _ _ _ _ _ Hr Hl Hw') Heu Hfree Hn Hlen) as (h' & Hop & V).
  exists h'. split; [exact Hop|]. destruct V as [Vd Vn Vp Vl Vv Vlen].
  split_and!; [|done..]. apply (heap_rep_change h Γ h' l (xs1 ++ xs2)); [done..| | |split_and!|].
  - intros a Ha Ha'. rewrite Vn, Vp, Vl.
    assert (a ≠ u ∧ a ≠ w ∧ a ≠ e) as (? & ? & ?).
    { split_and!; intros ->; try congruence; apply Ha, Hlst; done. }
    by rewrite !upd_ne.
  - intros l' Hne. by rewrite Vlen, lookup_insert_ne.
  - by apply NoDup_insert.
  - apply (linked_ext (upd (upd (nxt h) e (Some w)) u (Some e))
                      (upd (upd (prv h) e (Some u)) w (Some e))); [auto|].
    apply ring_split. cbn [app after_gap List.hd]. fold u.
    rewrite upd_eq, linked_cons_gap. fold w.
    rewrite !upd_eq, (upd_ne _ u), (upd_ne _ w), !upd_eq by done.
    destruct (linked_halves (upd (nxt h) e (Some w)) (upd (prv h) e (Some u)) l xs1 xs2
      (Some e) (Some e)) as [? ?]; [done|..|by split_and!].
    + eapply linked_ext; [|exact H1]. intros a Ha. rewrite !upd_ne; [done|set_solver..].
    + eapply linked_ext; [|exact H2]. intros a Ha. rewrite !upd_ne; [done|set_solver..].
  - intros a Ha. rewrite Vl. unfold upd. case_decide; [done|]. apply Hlst. set_solver.
  - rewrite Vlen, lookup_insert_eq, !length_app. simpl. f_equal. lia.
  - intros a Ha Ha'. assert (a ∉ l :: xs1 ++ xs2 ∧ a ≠ e) as [? ?] by set_solver.
    destruct Ha' as [?|Ha']; [done|]. rewrite Vl, Vn, Vp, !upd_ne by (done || (intros ->; done)).
    split; [done|]. by apply (rep_free _ _ Hr).
Qed.

Lemma Remove_rep h Γ l xs1 xs2 e :
  heap_rep h Γ → Γ !! l = Some (xs1 ++ e :: xs2) →
  ∃ h', List_Remove h (Some l) (Some e) = Some h'
    ∧ heap_rep h' (<[l := xs1 ++ xs2]> Γ)
    ∧ dom (elems h') = dom (elems h) ∧ (∀ b, val h' b = val h b)
    ∧ (∀ b, lst h' b = upd (lst h) e None b).
Proof.
  intros Hr Hl. destruct (rep_ring _ _ Hr l _ Hl) as (Hnd & Hring & Hlst & Hlen).
  apply NoDup_insert in Hnd as [Hnd Hnew].
  apply ring_split in Hring as (H1 & H2 & Hn & Hp). cbn [after_gap List.hd app] in Hn, Hp, H2.
  apply linked_cons_gap in H2 as (Hn' & Hp' & H2).
  pose proof (before_gap_elem l xs1) as Hu. pose proof (after_gap_elem l xs2) as Hw.
  set (u := before_gap l xs1) in *. set (w := after_gap l xs2) in *.
  assert (u ∈ l :: xs1 ++ e :: xs2 ∧ w ∈ l :: xs1 ++ e :: xs2 ∧ e ∈ l :: xs1 ++ e :: xs2)
    as (Hu' & Hw' & He') by set_solver.
  assert (e ≠ u ∧ e ≠ w) as [Heu Hew] by set_solver.
  destruct (Remove_views h _ _ _ _ _ _ l e u w _ (views_refl h) (rep_dom _ _ _ _ _ Hr Hl He')
    (rep_dom _ _ _ _ _ Hr Hl Hu') (rep_dom _ _ _ _ _ Hr Hl Hw') Heu Hew (Hlst e He') Hn' Hp Hlen)
    as (h' & Hop & V).
  exists h'. split; [exact Hop|]. destruct V as [Vd Vn Vp Vl Vv Vlen].
  split_and!; [|done..]. apply (heap_rep_change h Γ h' l (xs1 ++ e :: xs2)); [done..| | |split_and!|].
  - intros a Ha Ha'. rewrite Vn, Vp, Vl.
    assert (a ≠ u ∧ a ≠ w ∧ a ≠ e) as (? & ? & ?) by (split_and!; intros ->; by apply Ha, Hlst).
    by rewrite !upd_ne.
  - intros l' Hne. by rewrite Vlen, lookup_insert_ne.
  - done.
  - apply (linked_ext (upd (upd (nxt h) u (Some w)) e None)
                      (upd (upd (prv h) w (Some u)) e None)); [auto|].
    apply (linked_ext (upd (nxt h) u (Some w)) (upd (prv h) w (Some u))).
    { intros a Ha. assert (a ≠ e) by (unfold ring in Ha; set_solver). by rewrite !(upd_ne _ e). }
    apply ring_split. fold u w. rewrite !upd_eq.
    destruct (linked_halves (nxt h) (prv h) l xs1 xs2 (Some w) (Some u)) as [? ?]; done.
  - intros a Ha. rewrite Vl, upd_ne by set_solver. apply Hlst. set_solver.
  - rewrite Vlen, lookup_insert_eq, !length_app. simpl. f_equal. lia.
  - intros a Ha Ha'. rewrite Vl, Vn, Vp. destruct (decide (a = e)) as [->|Hne]; [by rewrite !upd_eq|].
    assert (lst h a = None) as Hfree by set_solver.
    rewrite !upd_ne by (done || (intros ->; set_solver)).
    split; [done|]. by apply (rep_free _ _ Hr).
Qed.

(** ** Moves *)

Lemma views_ext h h' d n p s v len n' p' s' v' len' :
  views h d n p s v len → views h' d n' p' s' v' len' →
  (∀ a, n a = n' a) → (∀ a, p a = p' a) → (∀ a, s a = s' a) → (∀ a, v a = v' a) → len = len' →
  h = h'.
Proof.
  intros [Vd Vn Vp Vs Vv Vl] [Vd' Vn' Vp' Vs' Vv' Vl'] En Ep Es Ev ->.
  destruct h as [m k], h' as [m' k']; simpl in *. subst. f_equal. apply map_eq. intros a.
  specialize (Vn a). specialize (Vp a). specialize (Vs a). specialize (Vv a).
  rewrite En, <- Vn' in Vn. rewrite Ep, <- Vp' in Vp. rewrite Es, <- Vs' in Vs.
  rewrite Ev, <- Vv' in Vv. unfold nxt, prv, lst, val in *. simpl in *.
  assert (a ∈ dom m ↔ a ∈ dom m') as Hd by by rewrite Vd'.
  rewrite !elem_of_dom in Hd. destruct (m !! a) as [[]|], (m' !! a) as [[]|]; simpl in *.
  - congruence.
  - destruct Hd as [[? ?] _]; done.
  - destruct Hd as [_ [? ?]]; done.
  - done.
Qed.

(** Every element of a ring is the start of a gap. *)
Lemma gap_of (l u : loc) xs : u ∈ l :: xs → ∃ xs1 xs2, xs = xs1 ++ xs2 ∧ before_gap l xs1 = u.
Proof.
  intros [->|Hu]%elem_of_cons; [by exists [], xs|].
  apply list_elem_of_split in Hu as (a & b & ->). exists (a ++ [u]), b.
  unfold before_gap. by rewrite last_last, <- app_assoc.
Qed.

Lemma rep_succ h Γ l xs u :
  heap_rep h Γ → Γ !! l = Some xs → u ∈ l :: xs → ∃ w, nxt h u = Some w ∧ w ∈ l :: xs.
Proof.
  intros Hr Hl Hu. destruct (rep_ring _ _ Hr l _ Hl) as (_ & Hring & _).
  destruct (gap_of _ _ _ Hu) as (xs1 & xs2 & -> & <-).
  apply ring_split in Hring as (_ & _ & Hn & _). eexists. split; [exact Hn|].
  pose proof (after_gap_elem l xs2). set_solver.
Qed.

Lemma rep_pred h Γ l xs1 loc xs2 :
  heap_rep h Γ → Γ !! l = Some (xs1 ++ loc :: xs2) →
  prv h loc = Some (before_gap l xs1) ∧ lst h (before_gap l xs1) = Some l.
Proof.
  intros Hr Hl. destruct (rep_ring _ _ Hr l _ Hl) as (_ & Hring & Hlst & _).
  apply ring_split in Hring as (_ & _ & _ & Hp). split; [done|]. apply Hlst.
  pose proof (before_gap_elem l xs1). set_solver.
Qed.

(** Moving an element is removing it and inserting it again. *)
Lemma moveAfter_remove_insert h Γ l xs1 xs2 e u :
  heap_rep h Γ → Γ !! l = Some (xs1 ++ e :: xs2) → u ∈ l :: xs1 ++ xs2 →
  moveAfter h (Some l) (Some e) (Some u)
  = (h1 ← List_Remove h (Some l) (Some e); insertAfter h1 (Some l) (Some e) (Some u)).
Proof.
  intros Hr Hl Hu. destruct (rep_ring _ _ Hr l _ Hl) as (Hnd & Hring & Hlst & Hlen).
  apply NoDup_insert in Hnd as [Hnd Hnew].
  apply ring_split in Hring as (_ & H2 & _ & Hp). cbn [after_gap List.hd app] in Hp, H2.
  apply linked_cons_gap in H2 as (Hn & _ & _).
  pose proof (before_gap_elem l xs1) as Hu0. pose proof (after_gap_elem l xs2) as Hw0.
  set (u0 := before_gap l xs1) in *. set (w0 := after_gap l xs2) in *.
  assert (e ≠ u ∧ e ≠ u0 ∧ e ≠ w0) as (Heu & Heu0 & Hew0) by set_solver.
  assert (∀ a, a ∈ l :: xs1 ++ e :: xs2 → a ∈ dom (elems h)) as Hdom
    by (intros a; apply (rep_dom _ _ _ _ _ Hr Hl)).
  assert (e ∈ dom (elems h) ∧ u ∈ dom (elems h) ∧ u0 ∈ dom (elems h) ∧ w0 ∈ dom (elems h))
    as (He & Hu' & Hu0' & Hw0') by (split_and!; apply Hdom; set_solver).
  assert (lst h e = Some l ∧ lst h u = Some l) as [Hse Hsu] by (split; apply Hlst; set_solver).
  destruct (Remove_rep h Γ l xs1 xs2 e Hr Hl) as (h1 & Hop & Hr1 & _).
  destruct (rep_succ h1 _ l _ u Hr1 (lookup_insert_eq _ _ _) Hu) as (w & Hw & Hwin).
  assert (w ∈ dom (elems h)) as Hw' by (apply Hdom; set_solver).
  destruct (Remove_views h _ _ _ _ _ _ l e u0 w0 _ (views_refl h) He Hu0' Hw0' Heu0 Hew0
    Hse Hn Hp Hlen) as (h1' & Hop' & V1).
  rewrite Hop in Hop' |- *. injection Hop' as <-. simpl.
  rewrite (views_nxt _ _ _ _ _ _ _ V1), upd_ne in Hw by done.
  destruct (insertAfter_views h1 _ _ _ _ _ _ l e u w (Z.of_nat (length (xs1 ++ e :: xs2)) + -1) V1
    He Hu' Hw' Heu) as (h2 & -> & V2);
    [apply upd_eq|by rewrite upd_ne|apply lookup_insert_eq|].
  pose proof (views_refl h) as V. unfold moveAfter.
  do 2 view_step. rewrite Hse, Hsu. rewrite !bool_decide_eq_false_2 by (congruence || tauto).
  simpl. rewrite Hn, Hp. do 2 view_step. rewrite Hn, Hp. do 3 view_step. rewrite Hw.
  repeat view_step.
  f_equal. eapply views_ext; [exact V|exact V2|..].
  all: try (intros a; unfold upd; repeat case_decide; congruence).
  rewrite insert_insert_eq. symmetry. apply insert_id. rewrite Hlen. f_equal. lia.
Qed.

(** Moving [e] into the gap after [ys1] of the list without [e]. *)
Lemma moveAfter_rep h Γ l xs1 xs2 e ys1 ys2 :
  heap_rep h Γ → Γ !! l = Some (xs1 ++ e :: xs2) → xs1 ++ xs2 = ys1 ++ ys2 →
  ∃ h', moveAfter h (Some l) (Some e) (Some (before_gap l ys1)) = Some h'
    ∧ heap_rep h' (<[l := ys1 ++ e :: ys2]> Γ)
    ∧ dom (elems h') = dom (elems h) ∧ (∀ b, val h' b = val h b)
    ∧ (∀ b, lst h' b = lst h b).
Proof.
  intros Hr Hl Heq. destruct (rep_ring _ _ Hr l _ Hl) as (Hnd & _ & Hlst & _).
  assert (before_gap l ys1 ∈ l :: xs1 ++ xs2) as Hu.
  { rewrite Heq. pose proof (before_gap_elem l ys1). set_solver. }
  rewrite (moveAfter_remove_insert h Γ l xs1 xs2) by done.
  destruct (Remove_rep h Γ l xs1 xs2 e Hr Hl) as (h1 & -> & Hr1 & Hd1 & Hv1 & Hl1). simpl.
  rewrite Heq in Hr1.
  destruct (insertAfter_rep h1 _ l ys1 ys2 e Hr1) as (h2 & -> & Hr2 & Hd2 & Hv2 & Hl2).
  - apply lookup_insert_eq.
  - rewrite Hd1. apply (rep_dom _ _ _ _ _ Hr Hl). set_solver.
  - rewrite Hl1. apply upd_eq.
  - rewrite insert_insert_eq in Hr2. exists h2. split_and!; [done|done|congruence|congruence|].
    intros b. rewrite Hl2. unfold upd. case_decide as E; [|by rewrite Hl1, upd_ne].
    subst. symmetry. apply Hlst. set_solver.
Qed.

(** A move of an element of another list, or to a place in another list, does
    nothing. *)
Lemma moveAfter_noop h l e u :
  e ∈ dom (elems h) → u ∈ dom (elems h) → lst h e ≠ Some l ∨ lst h u ≠ Some l ∨ e = u →
  moveAfter h (Some l) (Some e) (Some u) = Some h.
Proof.
  intros He Hu Hcond. pose proof (views_refl h) as V. unfold moveAfter. do 2 view_step.
  case_bool_decide as H1; [done|]. case_bool_decide as H2; [done|].
  case_bool_decide as H3; [done|]. simpl. exfalso. destruct Hcond as [?|[?| ->]]; tauto.
Qed.

(** The ends of the list. *)
Lemma rep_ends h Γ l xs :
  heap_rep h Γ → Γ !! l = Some xs →
  ∃ s, deref h (Some l) = Some s ∧ next s = Some (after_gap l xs) ∧ prev s = Some (before_gap l xs).
Proof.
  intros Hr Hl. destruct (rep_ring _ _ Hr l _ Hl) as (_ & Hring & _).
  assert (l ∈ dom (elems h)) as Hd by (apply (rep_dom _ _ _ _ _ Hr Hl); by left).
  destruct (deref_views _ _ _ _ _ _ _ l (views_refl h) Hd) as (s & Hs & Hn & Hp & _).
  exists s. rewrite Hn, Hp. split_and!; [done|..].
  - apply (ring_split _ _ l [] xs) in Hring as (_ & _ & H & _). exact H.
  - rewrite <- (app_nil_r xs) in Hring. apply ring_split in Hring as (_ & _ & _ & H). exact H.
Qed.

End views.

(** ** Specification: the operations on sequences *)

Section spec.
Context {T : Type}.
Implicit Types h : heap T.

Inductive list_op : Type :=
  | OpRemove (e : loc)
  | OpPushFront (e : loc)
  | OpPushBack (e : loc)
  | OpInsertBefore (e location : loc)
  | OpInsertAfter (e location : loc)
  | OpMoveToFront (e : loc)
  | OpMoveToBack (e : loc)
  | OpMoveBefore (e location : loc)
  | OpMoveAfter (e location : loc).

Definition run_op h (l : loc) (o : list_op) : option (heap T) :=
  match o with
  | OpRemove e => List_Remove h (Some l) (Some e)
  | OpPushFront e => PushFront h (Some l) (Some e)
  | OpPushBack e => PushBack h (Some l) (Some e)
  | OpInsertBefore e loc => InsertBefore h (Some l) (Some e) (Some loc)
  | OpInsertAfter e loc => InsertAfter h (Some l) (Some e) (Some loc)
  | OpMoveToFront e => MoveToFront h (Some l) (Some e)
  | OpMoveToBack e => MoveToBack h (Some l) (Some e)
  | OpMoveBefore e loc => MoveBefore h (Some l) (Some e) (Some loc)
  | OpMoveAfter e loc => MoveAfter h (Some l) (Some e) (Some loc)
  end.

Definition seq_remove (e : loc) (xs : list loc) : list loc := filter (λ x, x ≠ e) xs.

Fixpoint seq_insert_before (e location : loc) (xs : list loc) : list loc :=
  match xs with
  | [] => []
  | x :: xs => if decide (x = location) then e :: x :: xs else x :: seq_insert_before e location xs
  end.

Fixpoint seq_insert_after (e location : loc) (xs : list loc) : list loc :=
  match xs with
  | [] => []
  | x :: xs => if decide (x = location) then x :: e :: xs else x :: seq_insert_after e location xs
  end.

(** [free] tells whether the element is in no list. *)
Definition spec_op (free : loc → bool) (xs : list loc) (o : list_op) : list loc :=
  match o with
  | OpRemove e => seq_remove e xs
  | OpPushFront e => if free e then e :: xs else xs
  | OpPushBack e => if free e then xs ++ [e] else xs
  | OpInsertBefore e loc => if free e then seq_insert_before e loc xs else xs
  | OpInsertAfter e loc => if free e then seq_insert_after e loc xs else xs
  | OpMoveToFront e => if decide (e ∈ xs) then e :: seq_remove e xs else xs
  | OpMoveToBack e => if decide (e ∈ xs) then seq_remove e xs ++ [e] else xs
  | OpMoveBefore e loc =>
      if decide (e ∈ xs ∧ loc ∈ xs ∧ e ≠ loc) then seq_insert_before e loc (seq_remove e xs) else xs
  | OpMoveAfter e loc =>
      if decide (e ∈ xs ∧ loc ∈ xs ∧ e ≠ loc) then seq_insert_after e loc (seq_remove e xs) else xs
  end.

(** A client has pointers to elements, never to the sentinel of a list; [MoveBefore]
    needs a location that is in some list. *)
Definition client_ptr h (Γ : gmap loc (list loc)) (e : loc) : Prop :=
  e ∈ dom (elems h) ∧ e ∉ dom Γ.

Definition op_valid h (Γ : gmap loc (list loc)) (o : list_op) : Prop :=
  match o with
  | OpRemove e | OpPushFront e | OpPushBack e | OpMoveToFront e | OpMoveToBack e => client_ptr h Γ e
  | OpInsertBefore e loc | OpInsertAfter e loc | OpMoveAfter e loc =>
      client_ptr h Γ e ∧ client_ptr h Γ loc
  | OpMoveBefore e loc => client_ptr h Γ e ∧ client_ptr h Γ loc ∧ lst h loc ≠ None
  end.

Lemma seq_remove_split e xs1 xs2 :
  e ∉ xs1 → e ∉ xs2 → seq_remove e (xs1 ++ e :: xs2) = xs1 ++ xs2.
Proof.
  intros H1 H2. unfold seq_remove. rewrite filter_app, filter_cons_False by tauto.
  rewrite !list_filter_all; [done|..]; apply Forall_forall; intros x Hx ->; done.
Qed.

Lemma seq_remove_absent e xs : e ∉ xs → seq_remove e xs = xs.
Proof. intros H. apply list_filter_all, Forall_forall. intros x Hx ->. done. Qed.

Lemma seq_insert_before_split e loc xs1 xs2 :
  loc ∉ xs1 → seq_insert_before e loc (xs1 ++ loc :: xs2) = xs1 ++ e :: loc :: xs2.
Proof.
  induction xs1 as [|x xs1 IH]; simpl; intros Hn.
  - by rewrite decide_True.
  - apply not_elem_of_cons in Hn as [? Hn]. by rewrite decide_False, IH.
Qed.

Lemma seq_insert_after_split e loc xs1 xs2 :
  loc ∉ xs1 → seq_insert_after e loc (xs1 ++ loc :: xs2) = xs1 ++ loc :: e :: xs2.
Proof.
  induction xs1 as [|x xs1 IH]; simpl; intros Hn.
  - by rewrite decide_True.
  - apply not_elem_of_cons in Hn as [? Hn]. by rewrite decide_False, IH.
Qed.

Lemma seq_insert_absent e loc xs :
  loc ∉ xs → seq_insert_before e loc xs = xs ∧ seq_insert_after e loc xs = xs.
Proof.
  induction xs as [|x xs IH]; simpl; intros Hn; [done|].
  apply not_elem_of_cons in Hn as [? Hn]. rewrite !decide_False by done.
  destruct (IH Hn) as [-> ->]. done.
Qed.

(** The last element that is kept is the last element when that is kept. *)
Lemma before_gap_remove l e xs :
  before_gap l xs ≠ e → before_gap l (seq_remove e xs) = before_gap l xs.
Proof.
  unfold before_gap, seq_remove. destruct xs as [|x xs _] using rev_ind; [done|].
  rewrite last_last. intros Hne. by rewrite filter_app, filter_cons_True, last_last.
Qed.

Section ops.
Context (h : heap T) (Γ : gmap loc (list loc)) (l : loc) (xs : list loc).
Context (Hr : heap_rep h Γ) (Hl : Γ !! l = Some xs).

Definition becomes (r : option (heap T)) (ys : list loc) : Prop :=
  ∃ h', r = Some h' ∧ heap_rep h' (<[l := ys]> Γ)
    ∧ dom (elems h') = dom (elems h) ∧ (∀ b, val h' b = val h b).

Lemma becomes_same : becomes (Some h) xs.
Proof. exists h. rewrite insert_id by done. auto. Qed.

Lemma ops_NoDup : l ∉ xs ∧ NoDup xs.
Proof. destruct (rep_ring _ _ Hr l _ Hl) as (Hnd & _). by apply NoDup_cons. Qed.

Lemma member_iff e : client_ptr h Γ e → lst h e = Some l ↔ e ∈ xs.
Proof.
  intros [_ Hs]. split.
  - intros H. destruct (rep_member _ _ Hr e l H) as (ys & Hys & Hin). simplify_eq.
    apply elem_of_cons in Hin as [->|?]; [|done]. destruct Hs. by apply elem_of_dom_2 in Hl.
  - intros H. apply (rep_ring _ _ Hr l _ Hl). by right.
Qed.

Lemma Remove_becomes e : client_ptr h Γ e → becomes (List_Remove h (Some l) (Some e)) (seq_remove e xs).
Proof.
  intros He. destruct (decide (e ∈ xs)) as [Hin|Hin].
  - apply list_elem_of_split in Hin as (xs1 & xs2 & E).
    destruct ops_NoDup as [_ Hnd]. rewrite E in *.
    apply NoDup_app in Hnd as (_ & Hd & Hnd). apply NoDup_cons in Hnd as [Hn _].
    rewrite seq_remove_split by set_solver.
    destruct (Remove_rep h Γ l xs1 xs2 e Hr Hl) as (h' & ? & ? & ? & ? & ?). by exists h'.
  - rewrite seq_remove_absent by done. unfold List_Remove.
    destruct (deref_views _ _ _ _ _ _ _ e (views_refl h) (proj1 He)) as (el & -> & _ & _ & El & _).
    simpl. rewrite El, bool_decide_eq_true_2; [apply becomes_same|]. by rewrite member_iff.
Qed.

(** Insertion into the gap after [xs1]. *)
Lemma insertAfter_becomes e xs1 xs2 :
  client_ptr h Γ e → xs = xs1 ++ xs2 →
  becomes (insertAfter h (Some l) (Some e) (Some (before_gap l xs1)))
    (if bool_decide (lst h e = None) then xs1 ++ e :: xs2 else xs).
Proof.
  intros [He _] E. pose proof Hl as Hl'. rewrite E in Hl'. case_bool_decide as Hf.
  - destruct (insertAfter_rep h Γ l xs1 xs2 e Hr Hl' He Hf) as (h' & ? & ? & ? & ? & ?). by exists h'.
  - unfold insertAfter.
    destruct (deref_views _ _ _ _ _ _ _ e (views_refl h) He) as (el & -> & _ & _ & El & _).
    simpl. rewrite El, bool_decide_eq_true_2 by done. apply becomes_same.
Qed.

(** A move into the gap after [ys1] of the other elements. *)
Lemma moveAfter_becomes e ys1 ys2 :
  e ∈ xs → seq_remove e xs = ys1 ++ ys2 →
  becomes (moveAfter h (Some l) (Some e) (Some (before_gap l ys1))) (ys1 ++ e :: ys2).
Proof.
  intros Hin Heq. apply list_elem_of_split in Hin as (xs1 & xs2 & E).
  destruct ops_NoDup as [_ Hnd]. rewrite E in *.
  apply NoDup_app in Hnd as (_ & Hd & Hnd). apply NoDup_cons in Hnd as [Hn _].
  rewrite seq_remove_split in Heq by set_solver.
  destruct (moveAfter_rep h Γ l xs1 xs2 e ys1 ys2 Hr Hl Heq) as (h' & ? & ? & ? & ? & ?). by exists h'.
Qed.

Lemma moveAfter_same e u :
  client_ptr h Γ e → u ∈ dom (elems h) → e ∉ xs ∨ lst h u ≠ Some l ∨ e = u →
  becomes (moveAfter h (Some l) (Some e) (Some u)) xs.
Proof.
  intros He Hu Hc. rewrite moveAfter_noop; [apply becomes_same|apply He|done|].
  rewrite member_iff by done. done.
Qed.

Lemma before_gap_dom : before_gap l xs ∈ dom (elems h).
Proof. apply (rep_dom _ _ _ _ _ Hr Hl), before_gap_elem. Qed.

Lemma MoveToBack_becomes e :
  client_ptr h Γ e →
  becomes (MoveToBack h (Some l) (Some e)) (if decide (e ∈ xs) then seq_remove e xs ++ [e] else xs).
Proof.
  intros He. unfold MoveToBack.
  destruct (rep_ends _ _ _ _ Hr Hl) as (s & -> & _ & Hp). simpl. rewrite Hp.
  case_decide as Hin; [|apply moveAfter_same; [done|apply before_gap_dom|by left]].
  destruct (decide (before_gap l xs = e)) as [E|E].
  - replace (seq_remove e xs ++ [e]) with xs; [apply moveAfter_same; [done|apply before_gap_dom|auto]|].
    destruct ops_NoDup as [Hl' Hnd]. clear -E Hin Hl' Hnd. destruct xs as [|x ys _] using rev_ind; [set_solver|].
    unfold before_gap in E. rewrite last_last in E. subst.
    apply NoDup_app in Hnd as (_ & Hd & _). rewrite seq_remove_split by set_solver.
    by rewrite app_nil_r.
  - rewrite <- (before_gap_remove l e xs E).
    apply (moveAfter_becomes e (seq_remove e xs) []); [done|by rewrite app_nil_r].
Qed.

Lemma MoveToFront_becomes e :
  client_ptr h Γ e →
  becomes (MoveToFront h (Some l) (Some e)) (if decide (e ∈ xs) then e :: seq_remove e xs else xs).
Proof.
  intros He. unfold MoveToFront.
  destruct (rep_ends _ _ _ _ Hr Hl) as (s & -> & Hn & _). simpl. rewrite Hn.
  case_bool_decide as Hne.
  - case_decide as Hin.
    + by apply (moveAfter_becomes e [] (seq_remove e xs)).
    + apply moveAfter_same; [done| |by left]. apply (rep_dom _ _ _ _ _ Hr Hl). by left.
  - assert (e = after_gap l xs) as E by (destruct (decide (e = after_gap l xs)); congruence).
    case_decide as Hin; [|apply becomes_same].
    replace (e :: seq_remove e xs) with xs; [apply becomes_same|].
    destruct ops_NoDup as [_ Hnd]. clear -E Hin Hnd. destruct xs as [|x ys]; [set_solver|].
    simpl in E. subst. apply NoDup_cons in Hnd as [Hn _].
    pose proof (seq_remove_split x [] ys ltac:(set_solver) Hn) as E. simpl in E. by rewrite E.
Qed.

(** An element of the list, as a location. *)
Lemma location_in loc :
  loc ∈ xs → ∃ lo xs1 xs2, deref h (Some loc) = Some lo ∧ list_of lo = Some l
    ∧ xs = xs1 ++ loc :: xs2 ∧ loc ∉ xs1 ∧ loc ∉ xs2 ∧ prev lo = Some (before_gap l xs1).
Proof.
  intros Hin. assert (loc ∈ l :: xs) as Hin' by by right.
  destruct (deref_views _ _ _ _ _ _ _ loc (views_refl h) (rep_dom _ _ _ _ _ Hr Hl Hin'))
    as (lo & Hlo & _ & Hp & Hls & _).
  destruct (rep_ring _ _ Hr l _ Hl) as (_ & _ & Hlst & _).
  apply list_elem_of_split in Hin as (xs1 & xs2 & E). exists lo, xs1, xs2.
  destruct ops_NoDup as [_ Hnd]. pose proof Hl as Hl'. rewrite E in Hnd, Hl'.
  apply NoDup_app in Hnd as (_ & Hd & Hnd). apply NoDup_cons in Hnd as [Hn _].
  destruct (rep_pred h Γ l xs1 loc xs2 Hr Hl') as [Hp' _].
  split_and!; [done|rewrite Hls; by apply Hlst|done|set_solver|done|by rewrite Hp].
Qed.

Lemma location_out loc :
  client_ptr h Γ loc → loc ∉ xs → ∃ lo, deref h (Some loc) = Some lo ∧ list_of lo ≠ Some l.
Proof.
  intros Hc Hn. destruct (deref_views _ _ _ _ _ _ _ loc (views_refl h) (proj1 Hc))
    as (lo & Hlo & _ & _ & Hls & _).
  exists lo. split; [done|]. rewrite Hls. by rewrite member_iff.
Qed.

Lemma InsertBefore_becomes e loc :
  client_ptr h Γ e → client_ptr h Γ loc →
  becomes (InsertBefore h (Some l) (Some e) (Some loc))
    (if bool_decide (lst h e = None) then seq_insert_before e loc xs else xs).
Proof.
  intros He Hloc. unfold InsertBefore. destruct (decide (loc ∈ xs)) as [Hin|Hin].
  - destruct (location_in loc Hin) as (lo & xs1 & xs2 & -> & Hls & E & Hn & _ & Hp). simpl.
    rewrite Hls, bool_decide_eq_true_2, Hp by done.
    replace (seq_insert_before e loc xs) with (xs1 ++ e :: loc :: xs2)
      by (rewrite E; by rewrite seq_insert_before_split).
    by apply insertAfter_becomes.
  - destruct (location_out loc Hloc Hin) as (lo & -> & Hls). simpl.
    rewrite (bool_decide_eq_false_2 (_ = Some l)) by done.
    rewrite (proj1 (seq_insert_absent e loc xs Hin)). case_bool_decide; apply becomes_same.
Qed.

Lemma InsertAfter_becomes e loc :
  client_ptr h Γ e → client_ptr h Γ loc →
  becomes (InsertAfter h (Some l) (Some e) (Some loc))
    (if bool_decide (lst h e = None) then seq_insert_after e loc xs else xs).
Proof.
  intros He Hloc. unfold InsertAfter. destruct (decide (loc ∈ xs)) as [Hin|Hin].
  - destruct (location_in loc Hin) as (lo & xs1 & xs2 & -> & Hls & E & Hn & _ & Hp). simpl.
    rewrite Hls, bool_decide_eq_true_2 by done.
    replace (seq_insert_after e loc xs) with (xs1 ++ loc :: e :: xs2)
      by (rewrite E; by rewrite seq_insert_after_split).
    replace loc with (before_gap l (xs1 ++ [loc])) at 1 by apply last_last.
    change (xs1 ++ loc :: e :: xs2) with (xs1 ++ [loc] ++ e :: xs2). rewrite app_assoc.
    apply insertAfter_becomes; [done|]. by rewrite <- app_assoc.
  - destruct (location_out loc Hloc Hin) as (lo & -> & Hls). simpl.
    rewrite (bool_decide_eq_false_2 (_ = Some l)) by done.
    rewrite (proj2 (seq_insert_absent e loc xs Hin)). case_bool_decide; apply becomes_same.
Qed.

(** Where a location is after another element was removed. *)
Lemma seq_remove_location e loc xs1 xs2 :
  xs = xs1 ++ loc :: xs2 → e ≠ loc → seq_remove e xs = seq_remove e xs1 ++ loc :: seq_remove e xs2.
Proof. intros -> Hne. unfold seq_remove. by rewrite filter_app, filter_cons_True. Qed.

Lemma not_in_seq_remove e loc ys : loc ∉ ys → loc ∉ seq_remove e ys.
Proof. unfold seq_remove. rewrite list_elem_of_filter. tauto. Qed.

Lemma MoveAfter_becomes e loc :
  client_ptr h Γ e → client_ptr h Γ loc →
  becomes (MoveAfter h (Some l) (Some e) (Some loc))
    (if decide (e ∈ xs ∧ loc ∈ xs ∧ e ≠ loc) then seq_insert_after e loc (seq_remove e xs) else xs).
Proof.
  intros He Hloc. unfold MoveAfter. case_decide as Hc.
  - destruct Hc as (Hin & Hin' & Hne).
    destruct (location_in loc Hin') as (lo & xs1 & xs2 & _ & _ & E & Hn & _ & _).
    pose proof (seq_remove_location e loc xs1 xs2 E Hne) as Hrem.
    rewrite Hrem, seq_insert_after_split by by apply not_in_seq_remove.
    replace loc with (before_gap l (seq_remove e xs1 ++ [loc])) at 1 by apply last_last.
    change (seq_remove e xs1 ++ loc :: e :: seq_remove e xs2)
      with (seq_remove e xs1 ++ [loc] ++ e :: seq_remove e xs2). rewrite app_assoc.
    apply moveAfter_becomes; [done|]. by rewrite <- app_assoc.
  - apply moveAfter_same; [done|apply Hloc|]. rewrite member_iff by done.
    destruct (decide (e ∈ xs)), (decide (loc ∈ xs)), (decide (e = loc)); tauto.
Qed.

Lemma MoveBefore_becomes e loc :
  client_ptr h Γ e → client_ptr h Γ loc → lst h loc ≠ None →
  becomes (MoveBefore h (Some l) (Some e) (Some loc))
    (if decide (e ∈ xs ∧ loc ∈ xs ∧ e ≠ loc) then seq_insert_before e loc (seq_remove e xs) else xs).
Proof.
  intros He Hloc Hlinked. unfold MoveBefore. case_bool_decide as Hne.
  2:{ rewrite decide_False; [apply becomes_same|]. intros (_ & _ & H). congruence. }
  assert (e ≠ loc) as Hne' by congruence. destruct (decide (loc ∈ xs)) as [Hin'|Hin'].
  - destruct (location_in loc Hin') as (lo & xs1 & xs2 & -> & _ & E & Hn1 & Hn2 & Hp). simpl. rewrite Hp.
    assert (before_gap l xs1 ∈ dom (elems h)) as Hgd.
    { apply (rep_dom _ _ _ _ _ Hr Hl). pose proof (before_gap_elem l xs1). rewrite E. set_solver. }
    case_decide as Hc; [|apply moveAfter_same; [done..|left; tauto]]. destruct Hc as (Hin & _ & _).
    pose proof (seq_remove_location e loc xs1 xs2 E Hne') as Hrem.
    rewrite Hrem, seq_insert_before_split by by apply not_in_seq_remove.
    destruct (decide (before_gap l xs1 = e)) as [Eg|Eg].
    + replace (seq_remove e xs1 ++ e :: loc :: seq_remove e xs2) with xs; [apply moveAfter_same; auto|].
      destruct ops_NoDup as [Hl' Hnd]. rewrite E in Hnd, Hl', Hin |- *. clear -Eg Hin Hnd Hl'.
      assert (e ≠ l) as Hel by (intros ->; done).
      destruct xs1 as [|x ys _] using rev_ind; [done|]. unfold before_gap in Eg.
      rewrite last_last in Eg. subst. rewrite <- app_assoc in Hnd. simpl in Hnd.
      apply NoDup_app in Hnd as (_ & Hd & Hnd). apply NoDup_cons in Hnd as [Hd' _].
      rewrite seq_remove_split, (seq_remove_absent e xs2) by set_solver.
      by rewrite app_nil_r, <- app_assoc.
    + rewrite <- (before_gap_remove l e xs1 Eg). by apply moveAfter_becomes.
  - rewrite decide_False by tauto. destruct (lst h loc) as [l'|] eqn:El; [|done].
    destruct (deref_views _ _ _ _ _ _ _ loc (views_refl h) (proj1 Hloc)) as (lo & -> & _ & Hp & _).
    simpl. destruct (rep_member _ _ Hr loc l' El) as (ys & Hys & Hin).
    assert (loc ∈ ys) as Hin2.
    { apply elem_of_cons in Hin as [->|?]; [|done]. destruct Hloc as [_ []]. by apply elem_of_dom_2 in Hys. }
    apply list_elem_of_split in Hin2 as (xs1 & xs2 & ->).
    destruct (rep_pred h Γ l' xs1 loc xs2 Hr Hys) as [Hpl Hls]. rewrite Hp, Hpl.
    apply moveAfter_same; [done|by eapply lst_dom|]. right; left. rewrite Hls. intros [= ->].
    simplify_eq. apply Hin'. set_solver.
Qed.
End ops.

(** The sequence of a list, as the reading operations see it. *)
Lemma Next_rep h Γ l xs1 e xs2 :
  heap_rep h Γ → Γ !! l = Some (xs1 ++ e :: xs2) → Next h (Some e) = Some (head xs2).
Proof.
  intros Hr Hl. destruct (rep_ring _ _ Hr l _ Hl) as (Hnd & Hring & Hlst & _).
  assert (e ∈ l :: xs1 ++ e :: xs2) as Hin by set_solver.
  destruct (deref_views _ _ _ _ _ _ _ e (views_refl h) (rep_dom _ _ _ _ _ Hr Hl Hin))
    as (el & Hel & Hn & _ & Hls & _).
  rewrite (Hlst e Hin) in Hls. apply ring_split in Hring as (_ & H2 & _ & _).
  apply linked_cons_gap in H2 as (Hn' & _ & _).
  unfold Next. rewrite Hel. simpl. rewrite Hls, Hn, Hn'.
  rewrite bool_decide_eq_true_2 by done. destruct xs2 as [|x xs2]; simpl.
  - by rewrite bool_decide_eq_false_2 by tauto.
  - rewrite bool_decide_eq_true_2; [done|]. intros [= ->].
    apply NoDup_cons in Hnd as [Hnd _]. set_solver.
Qed.

Lemma Prev_rep h Γ l xs1 e xs2 :
  heap_rep h Γ → Γ !! l = Some (xs1 ++ e :: xs2) → Prev h (Some e) = Some (last xs1).
Proof.
  intros Hr Hl. destruct (rep_ring _ _ Hr l _ Hl) as (Hnd & _ & Hlst & _).
  assert (e ∈ l :: xs1 ++ e :: xs2) as Hin by set_solver.
  destruct (deref_views _ _ _ _ _ _ _ e (views_refl h) (rep_dom _ _ _ _ _ Hr Hl Hin))
    as (el & Hel & _ & Hp & Hls & _).
  rewrite (Hlst e Hin) in Hls. destruct (rep_pred _ _ _ _ _ _ Hr Hl) as [Hp' _].
  unfold Prev. rewrite Hel. simpl. rewrite Hls, Hp, Hp'.
  rewrite bool_decide_eq_true_2 by done. unfold before_gap.
  destruct xs1 as [|x xs1 _] using rev_ind; simpl.
  - by rewrite bool_decide_eq_false_2 by tauto.
  - rewrite last_last, last_snoc, bool_decide_eq_true_2; [done|]. intros [= ->].
    apply NoDup_cons in Hnd as [Hnd _]. set_solver.
Qed.

Lemma ends_rep h Γ l xs :
  heap_rep h Γ → Γ !! l = Some xs →
  List_Len h (Some l) = Some (Z.of_nat (length xs))
  ∧ Front h (Some l) = Some (head xs) ∧ Back h (Some l) = Some (last xs).
Proof.
  intros Hr Hl. destruct (rep_ring _ _ Hr l _ Hl) as (_ & _ & _ & Hlen).
  destruct (rep_ends _ _ _ _ Hr Hl) as (s & Hs & Hn & Hp).
  unfold Front, Back, List_Len. simpl. rewrite Hlen. simpl. split; [done|].
  destruct (Z.eqb_spec (Z.of_nat (length xs)) 0) as [E|E].
  - destruct xs; [done|simpl in E; lia].
  - rewrite Hs. simpl. rewrite Hn, Hp. unfold before_gap, after_gap.
    destruct xs as [|x xs _] using rev_ind; [done|]. rewrite last_last, last_snoc.
    by destruct xs.
Qed.

(** Allocation does not disturb the lists that exist. *)
Lemma rep_ring_alloc h h' Γ a l xs :
  heap_rep h Γ → a ∉ dom (elems h) → (∀ b, b ≠ a → elems h' !! b = elems h !! b) →
  Γ !! l = Some xs → lens h' !! l = lens h !! l →
  NoDup (l :: xs) ∧ linked (nxt h') (prv h') (ring l xs) ∧ (∀ b, b ∈ l :: xs → lst h' b = Some l)
  ∧ lens h' !! l = Some (Z.of_nat (length xs)).
Proof.
  intros Hr Hfresh Hother Hl Hlens. destruct (rep_ring _ _ Hr l _ Hl) as (Hnd & Hring & Hlst & Hlen).
  assert (∀ b, b ∈ l :: xs → b ≠ a) as Hne.
  { intros b Hb ->. apply Hfresh. by apply (rep_dom _ _ _ _ _ Hr Hl). }
  split_and!; [done| | |congruence].
  - eapply linked_ext; [|exact Hring]. intros b Hb. unfold nxt, prv.
    rewrite Hother; [done|]. apply Hne. unfold ring in Hb. set_solver.
  - intros b Hb. unfold lst. rewrite Hother by auto. by apply Hlst.
Qed.

Lemma new_element_rep h Γ v :
  heap_rep h Γ →
  ∃ e h', new_element h v = (Some e, h') ∧ e ∉ dom (elems h) ∧ heap_rep h' Γ
    ∧ dom (elems h') = {[e]} ∪ dom (elems h) ∧ lst h' e = None ∧ val h' e = Some v
    ∧ (∀ b, b ≠ e → val h' b = val h b ∧ lst h' b = lst h b).
Proof.
  intros Hr. unfold new_element. set (e := fresh (dom (elems h))).
  assert (e ∉ dom (elems h)) as Hfresh by apply is_fresh.
  eexists e, _. split; [done|]. set (h' := mkHeap _ _).
  assert (elems h' !! e = Some (mkElement None None None v)) as He by apply lookup_insert_eq.
  assert (∀ b, b ≠ e → elems h' !! b = elems h !! b) as Hother by (intros b Hb; by apply lookup_insert_ne).
  split; [done|]. split_and!.
  - constructor.
    + intros l xs Hl. by eapply rep_ring_alloc.
    + intros a l. unfold lst. destruct (decide (a = e)) as [->|Hne]; [by rewrite He|].
      rewrite Hother by done. by apply (rep_member _ _ Hr).
    + intros a. unfold lst, nxt, prv. destruct (decide (a = e)) as [->|Hne]; [by rewrite He|].
      rewrite Hother by done. by apply (rep_free _ _ Hr).
  - simpl. by rewrite dom_insert_L.
  - unfold lst. by rewrite He.
  - unfold val. by rewrite He.
  - intros b Hb. unfold val, lst. by rewrite Hother.
Qed.

Lemma NewList_rep h Γ zero :
  heap_rep h Γ →
  ∃ l h', NewList zero h = (Some l, h') ∧ l ∉ dom (elems h) ∧ heap_rep h' (<[l := []]> Γ)
    ∧ dom (elems h') = {[l]} ∪ dom (elems h)
    ∧ (∀ b, b ≠ l → val h' b = val h b ∧ lst h' b = lst h b).
Proof.
  intros Hr. unfold NewList. set (l := fresh (dom (elems h))).
  assert (l ∉ dom (elems h)) as Hfresh by apply is_fresh.
  eexists l, _. split; [done|]. split; [done|]. set (h' := mkHeap _ _).
  assert (elems h' !! l = Some (mkElement (Some l) (Some l) (Some l) zero)) as Hl by apply lookup_insert_eq.
  assert (∀ b, b ≠ l → elems h' !! b = elems h !! b) as Hother by (intros b Hb; by apply lookup_insert_ne).
  split_and!; [|simpl; by rewrite dom_insert_L|intros b Hb; unfold val, lst; by rewrite Hother].
  constructor.
  - intros l' xs. destruct (decide (l' = l)) as [->|Hnl].
    + rewrite lookup_insert_eq. intros [= <-]. unfold ring, nxt, prv, lst.
      split_and!; [apply NoDup_singleton|cbn [app linked]; by rewrite Hl| |apply lookup_insert_eq].
      intros a ->%list_elem_of_singleton. by rewrite Hl.
    + rewrite lookup_insert_ne by done. intros Hl'. eapply rep_ring_alloc; try done.
      by apply lookup_insert_ne.
  - intros a l'. unfold lst. destruct (decide (a = l)) as [->|Hna].
    + rewrite Hl. intros [= <-]. rewrite lookup_insert_eq. exists []. split; [done|by left].
    + rewrite Hother by done. intros Ha. destruct (rep_member _ _ Hr a l' Ha) as (xs & Hxs & Hin).
      exists xs. rewrite lookup_insert_ne; [done|]. intros <-. apply Hfresh.
      apply (rep_dom _ _ _ _ _ Hr Hxs). by left.
  - intros a. unfold lst, nxt, prv. destruct (decide (a = l)) as [->|Hna]; [by rewrite Hl|].
    rewrite Hother by done. apply (rep_free _ _ Hr).
Qed.

(** Refinement of the linked list.  On a heap whose lists are the sequences [Γ],
    every operation of the list [l] succeeds without dereferencing [nil], replaces the
    sequence of [l] by what the operation does to it as a sequence, and leaves all
    other lists and all values as they are.  Inserting an element that is in a list, or
    moving one that is not in [l], does nothing. *)
Theorem list_ops_refine h Γ l xs o :
  heap_rep h Γ → Γ !! l = Some xs → op_valid h Γ o →
  ∃ h', run_op h l o = Some h'
    ∧ heap_rep h' (<[l := spec_op (λ e, bool_decide (lst h e = None)) xs o]> Γ)
    ∧ dom (elems h') = dom (elems h) ∧ (∀ b, val h' b = val h b).
Proof.
  intros Hr Hl Hv. change (becomes h Γ l (run_op h l o) (spec_op (λ e, bool_decide (lst h e = None)) xs o)).
  destruct o; cbn [run_op spec_op op_valid] in *.
  - by apply Remove_becomes.
  - by apply (insertAfter_becomes h Γ l xs Hr Hl e [] xs).
  - destruct (rep_ends _ _ _ _ Hr Hl) as (s & Hs & _ & Hp). unfold PushBack. rewrite Hs. simpl. rewrite Hp.
    apply (insertAfter_becomes h Γ l xs Hr Hl e xs []); [done|by rewrite app_nil_r].
  - destruct_and!. by apply InsertBefore_becomes.
  - destruct_and!. by apply InsertAfter_becomes.
  - by apply MoveToFront_becomes.
  - by apply MoveToBack_becomes.
  - destruct_and!. by apply MoveBefore_becomes.
  - destruct_and!. by apply MoveAfter_becomes.
Qed.

(** The reading operations of the list agree with the sequence: its length, its
    first and last element, and the successor and the predecessor of each element,
    which is [nil] at the ends. *)
Theorem list_reads_refine h Γ l xs :
  heap_rep h Γ → Γ !! l = Some xs →
  List_Len h (Some l) = Some (Z.of_nat (length xs))
  ∧ Front h (Some l) = Some (head xs) ∧ Back h (Some l) = Some (last xs)
  ∧ ∀ xs1 e xs2, xs = xs1 ++ e :: xs2 →
      Next h (Some e) = Some (head xs2) ∧ Prev h (Some e) = Some (last xs1).
Proof.
  intros Hr Hl. destruct (ends_rep _ _ _ _ Hr Hl) as (H1 & H2 & H3). split_and!; [done..|].
  intros xs1 e xs2 ->. split; [by eapply Next_rep|by eapply Prev_rep].
Qed.

(** C27. [MoveBefore] with an element of the list and a location that is in no list
    dereferences [nil]: it reads the list of [location.prev]. *)
Theorem MoveBefore_unlinked_location_panics h Γ l xs e location :
  heap_rep h Γ → Γ !! l = Some xs → e ∈ xs → location ∈ dom (elems h) → lst h location = None →
  MoveBefore h (Some l) (Some e) (Some location) = None.
Proof.
  intros Hr Hl He Hloc Hfree. destruct (rep_ring _ _ Hr l _ Hl) as (_ & _ & Hlst & _).
  assert (lst h e = Some l) as Hle by (apply Hlst; by right).
  assert (e ≠ location) as Hne by congruence.
  assert (e ∈ dom (elems h)) as Hed by by eapply lst_dom.
  destruct (deref_views _ _ _ _ _ _ _ location (views_refl h) Hloc) as (lo & Hlo & _ & Hp & _).
  destruct (deref_views _ _ _ _ _ _ _ e (views_refl h) Hed) as (el & Hel & _ & _ & Hls & _).
  unfold MoveBefore. rewrite bool_decide_eq_true_2 by congruence. rewrite Hlo. cbn [mbind option_bind].
  rewrite Hp. destruct (rep_free _ _ Hr location Hfree) as [_ ->].
  unfold moveAfter. rewrite Hel. cbn [mbind option_bind]. rewrite Hls, Hle.
  by rewrite bool_decide_eq_false_2 by tauto.
Qed.

End spec.

(** ** A sample heap: the list [1] with the elements [2; 3], and the free element [4] *)

Definition sample_heap : heap Z :=
  mkHeap (<[1%positive := mkElement (Some 2%positive) (Some 3%positive) (Some 1%positive) 0%Z]>
          (<[2%positive := mkElement (Some 3%positive) (Some 1%positive) (Some 1%positive) 20%Z]>
          (<[3%positive := mkElement (Some 1%positive) (Some 2%positive) (Some 1%positive) 30%Z]>
          (<[4%positive := mkElement None None None 40%Z]> ∅))))
    {[1%positive := 2%Z]}.
Definition sample_lists : gmap positive (list positive) := {[1%positive := [2; 3]%positive]}.

Lemma sample_rep : heap_rep sample_heap sample_lists.
Proof.
  constructor.
  - intros l xs. unfold sample_lists. rewrite lookup_singleton_Some. intros [<- <-].
    split_and!; [|by vm_compute| |done].
    + apply (bool_decide_unpack _). by vm_compute.
    + intros a Ha. repeat (apply elem_of_cons in Ha as [->|Ha]; [done|]). by apply elem_of_nil in Ha.
  - intros a l. unfold lst, sample_heap. simpl. rewrite !lookup_insert, lookup_empty.
    repeat case_decide; subst; simpl; intros [=]; subst; exists [2; 3]%positive;
      (split; [done|]); apply (bool_decide_unpack _); by vm_compute.
  - intros a. unfold lst, nxt, prv, sample_heap. simpl. rewrite !lookup_insert, lookup_empty.
    repeat case_decide; subst; done.
Qed.

Lemma sample_client e :
  e ∈ [2; 3; 4]%positive → client_ptr sample_heap sample_lists e.
Proof.
  intros He. split.
  - repeat (apply elem_of_cons in He as [->|He]; [apply (bool_decide_unpack _); by vm_compute|]).
    by apply elem_of_nil in He.
  - unfold sample_lists. rewrite dom_singleton_L. intros ->%elem_of_singleton. set_solver.
Qed.

Lemma list_ops_refine_witness :
  ∃ h', MoveToBack sample_heap (Some 1%positive) (Some 2%positive) = Some h'
    ∧ heap_rep h' {[1%positive := [3; 2]%positive]}.
Proof.
  destruct (list_ops_refine sample_heap sample_lists 1 [2; 3]%positive (OpMoveToBack 2)
    sample_rep eq_refl (sample_client 2 ltac:(set_solver))) as (h' & H1 & H2 & _).
  exists h'. split; [exact H1|]. exact H2.
Defined.

Lemma list_reads_refine_witness :
  Next sample_heap (Some 2%positive) = Some (Some 3%positive)
  ∧ Prev sample_heap (Some 2%positive) = Some None.
Proof.
  destruct (list_reads_refine sample_heap sample_lists 1 [2; 3]%positive sample_rep eq_refl)
    as (_ & _ & _ & H).
  exact (H [] 2%positive [3%positive] eq_refl).
Defined.

Lemma MoveBefore_unlinked_location_panics_witness :
  MoveBefore sample_heap (Some 1%positive) (Some 2%positive) (Some 4%positive) = None.
Proof.
  apply (MoveBefore_unlinked_location_panics sample_heap sample_lists 1 [2; 3]%positive).
  - exact sample_rep.
  - reflexivity.
  - by left.
  - apply (sample_client 4). set_solver.
  - reflexivity.
Defined.
