(* ===== verification/Hashmap.v ===== *)
(** * The insertion-ordered hash map

    Models [utils/linked/hashmap.go]: a map from keys to elements of a linked list,
    the list, and a stack of elements that were freed and are used again.  It runs on
    the heap of [Linked]; [keyValue{}] is the pair of zero values.

    The specification is [ordmap]: the list of the key-value pairs from the oldest to the
    newest, with distinct keys.  [hm_rep] relates the two; the theorems show that every
    operation implements the one on [ordmap], that [Clear] does so in any order of
    iteration over the Go map, and that an iteration that deletes what it has seen
    visits every pair once, in order.  The components that hold a hash map (the polls,
    the caches, the metrics) use the operations of [ordmap]. *)

From S2P Require Import Prelude Linked.

(** ** Specification: ordered maps *)

Section ordmap.
Context {K V : Type} `{EqDecision K}.

Notation ordmap := (list (K * V)).
Implicit Types m : ordmap.

Definition om_get m (k : K) : option V :=
  snd <$> List.find (λ kv, bool_decide (kv.1 = k)) m.

Definition om_delete m (k : K) : ordmap := filter (λ kv, kv.1 ≠ k) m.

Definition om_put m (k : K) (v : V) : ordmap := om_delete m k ++ [(k, v)].

Definition om_oldest m : option (K * V) := head m.
Definition om_newest m : option (K * V) := last m.
Definition om_len m : Z := Z.of_nat (length m).

Definition om_wf m : Prop := NoDup m.*1.

Lemma om_get_Some m k v : om_wf m → om_get m k = Some v ↔ (k, v) ∈ m.
Proof.
  unfold om_wf, om_get. induction m as [|[k' v'] m IH]; simpl.
  - intros _. split; [done|]. intros []%elem_of_nil.
  - rewrite NoDup_cons. intros [Hn Hnd]. specialize (IH Hnd). case_bool_decide as E; simpl in *.
    + subst. rewrite elem_of_cons. split; [intros [= ->]; by left|].
      intros [[= ->]|Hin]; [done|]. destruct Hn. apply list_elem_of_fmap. by exists (k, v).
    + rewrite IH, elem_of_cons. split; [by right|]. intros [[= -> ->]|?]; done.
Qed.

Lemma om_get_None m k : om_get m k = None ↔ k ∉ m.*1.
Proof.
  unfold om_get. induction m as [|[k' v'] m IH]; simpl.
  - split; [intros _; apply not_elem_of_nil|done].
  - rewrite not_elem_of_cons. case_bool_decide as E; simpl in *; [naive_solver|]. rewrite IH. naive_solver.
Qed.

Lemma om_delete_elem m k kv : kv ∈ om_delete m k ↔ kv ∈ m ∧ kv.1 ≠ k.
Proof. unfold om_delete. rewrite list_elem_of_filter. tauto. Qed.

Lemma om_delete_wf m k : om_wf m → om_wf (om_delete m k).
Proof.
  unfold om_wf, om_delete. intros H. eapply sublist_NoDup; [exact H|]. apply fmap_sublist, sublist_filter.
Qed.

Lemma om_delete_absent m k : k ∉ m.*1 → om_delete m k = m.
Proof.
  intros Hn. apply list_filter_all, Forall_forall. intros kv Hin <-. apply Hn.
  apply list_elem_of_fmap. by exists kv.
Qed.

Lemma om_delete_split m1 k v m2 :
  om_wf (m1 ++ (k, v) :: m2) → om_delete (m1 ++ (k, v) :: m2) k = m1 ++ m2.
Proof.
  unfold om_wf. rewrite fmap_app, fmap_cons, NoDup_app, NoDup_cons. simpl. intros (_ & Hd & Hn & _).
  unfold om_delete. rewrite filter_app, filter_cons_False by (simpl; tauto).
  fold (om_delete m1 k). fold (om_delete m2 k).
  rewrite !om_delete_absent; [done|done|]. intros Hin. apply (Hd k Hin). by left.
Qed.

Lemma om_delete_not_in m k : k ∉ (om_delete m k).*1.
Proof. intros ([k' v] & -> & H)%list_elem_of_fmap. apply om_delete_elem in H as [_ H]. done. Qed.

Lemma om_put_wf m k v : om_wf m → om_wf (om_put m k v).
Proof.
  intros H. unfold om_wf, om_put. rewrite fmap_app, NoDup_app. split_and!.
  - by apply om_delete_wf.
  - intros k' Hin ->%list_elem_of_singleton. by apply om_delete_not_in in Hin.
  - apply NoDup_singleton.
Qed.

Lemma om_get_put m k v k' : om_wf m → om_get (om_put m k v) k' = if decide (k' = k) then Some v else om_get m k'.
Proof.
  intros H. pose proof (om_put_wf m k v H) as H'. case_decide as E.
  - subst. apply om_get_Some; [done|]. unfold om_put. set_solver.
  - destruct (om_get m k') as [v'|] eqn:G.
    + apply om_get_Some in G; [|done]. apply om_get_Some; [done|]. unfold om_put.
      apply elem_of_app. left. by apply om_delete_elem.
    + apply om_get_None in G. apply om_get_None. intros ([k2 v2] & -> & Hin)%list_elem_of_fmap.
      unfold om_put in Hin. apply elem_of_app in Hin as [Hin|Hin].
      * apply om_delete_elem in Hin as [Hin _]. apply G. apply list_elem_of_fmap. by exists (k2, v2).
      * apply list_elem_of_singleton in Hin. by simplify_eq.
Qed.

Lemma om_get_delete m k k' : om_wf m → om_get (om_delete m k) k' = if decide (k' = k) then None else om_get m k'.
Proof.
  intros H. pose proof (om_delete_wf m k H) as H'. case_decide as E.
  - subst. apply om_get_None, om_delete_not_in.
  - destruct (om_get m k') as [v'|] eqn:G.
    + apply om_get_Some in G; [|done]. apply om_get_Some; [done|]. by apply om_delete_elem.
    + apply om_get_None in G. apply om_get_None. intros ([k2 v2] & -> & Hin)%list_elem_of_fmap.
      apply om_delete_elem in Hin as [Hin _]. apply G. apply list_elem_of_fmap. by exists (k2, v2).
Qed.

Lemma om_len_nonneg m : (0 ≤ om_len m)%Z.
Proof. unfold om_len. lia. Qed.

Lemma om_len_delete m k v :
  om_wf m → om_get m k = Some v → om_len (om_delete m k) = (om_len m - 1)%Z.
Proof.
  intros Hwf Hg. apply om_get_Some in Hg as Hin; [|done].
  apply list_elem_of_split in Hin as (m1 & m2 & ->). rewrite om_delete_split by done.
  unfold om_len. rewrite !length_app. simpl. lia.
Qed.
End ordmap.

#[export] Hint Resolve om_delete_wf om_put_wf : ava.
Notation ordmap K V := (list (K * V)).

(** ** The implementation *)

Section hashmap.
Context {K V : Type} `{Countable K} `{GoZero K} `{GoZero V}.

Notation keyValue := (K * V)%type.
Definition zero_keyValue : keyValue := (go_zero, go_zero).

Record Hashmap := mkHashmap {
  entryMap : gmap K loc;
  entryList : ptr;
  freeList : list loc;
}.
Implicit Types (h : heap keyValue) (lh : Hashmap).

(** [n] elements on the free list. *)
Fixpoint new_elements h (n : nat) : list loc * heap keyValue :=
  match n with
  | O => ([], h)
  | S n =>
      match new_element h zero_keyValue with
      | (Some a, h) => let '(l, h) := new_elements h n in (a :: l, h)
      | (None, h) => ([], h)
      end
  end.

Definition NewHashmapWithSize h (initialSize : nat) : Hashmap * heap keyValue :=
  let '(l, h) := NewList zero_keyValue h in
  let '(free, h) := new_elements h initialSize in
  (mkHashmap ∅ l free, h).

Definition NewHashmap h : Hashmap * heap keyValue := NewHashmapWithSize h 0.

Definition Hashmap_Put h lh (key : K) (value : V) : option (Hashmap * heap keyValue) :=
  match entryMap lh !! key with
  | Some e =>
      h ← MoveToBack h (entryList lh) (Some e);
      h ← set_Value h (Some e) (key, value);
      Some (lh, h)
  | None =>
      let '(e, free, h) :=
        match last (freeList lh) with
        | Some e => (Some e, removelast (freeList lh), h)
        | None => let '(e, h) := new_element h zero_keyValue in (e, freeList lh, h)
        end in
      h ← set_Value h e (key, value);
      a ← e;
      h ← PushBack h (entryList lh) e;
      Some (mkHashmap (<[key := a]> (entryMap lh)) (entryList lh) free, h)
  end.

Definition Hashmap_Get h lh (key : K) : option (V * bool) :=
  match entryMap lh !! key with
  | Some e => el ← deref h (Some e); Some ((Value el).2, true)
  | None => Some (go_zero, false)
  end.

Definition Hashmap_remove h lh (e : loc) : option (Hashmap * heap keyValue) :=
  el ← deref h (Some e);
  let entries := delete (Value el).1 (entryMap lh) in
  h ← List_Remove h (entryList lh) (Some e);
  h ← set_Value h (Some e) zero_keyValue;
  Some (mkHashmap entries (entryList lh) (freeList lh ++ [e]), h).

Definition Hashmap_Delete h lh (key : K) : option (bool * Hashmap * heap keyValue) :=
  match entryMap lh !! key with
  | Some e => '(lh, h) ← Hashmap_remove h lh e; Some (true, lh, h)
  | None => Some (false, lh, h)
  end.

(** [order] is the order in which the Go map is iterated. *)
Fixpoint Hashmap_Clear h lh (order : list loc) : option (Hashmap * heap keyValue) :=
  match order with
  | [] => Some (lh, h)
  | e :: order => '(lh, h) ← Hashmap_remove h lh e; Hashmap_Clear h lh order
  end.

Definition Hashmap_Len lh : Z := Z.of_nat (size (entryMap lh)).

Definition Oldest h lh : option (keyValue * bool) :=
  p ← Front h (entryList lh);
  match p with
  | Some _ => el ← deref h p; Some (Value el, true)
  | None => Some (zero_keyValue, false)
  end.

Definition Newest h lh : option (keyValue * bool) :=
  p ← Back h (entryList lh);
  match p with
  | Some _ => el ← deref h p; Some (Value el, true)
  | None => Some (zero_keyValue, false)
  end.

(** ** Iterators *)

Record Iterator := mkIterator {
  it_kv : keyValue;
  it_next : ptr;
  it_initialized : bool;
  it_exhausted : bool;
}.

Definition NewIterator : Iterator := mkIterator zero_keyValue None false false.

Definition Iterator_Next h lh (it : Iterator) : option (bool * Iterator) :=
  if it_exhausted it then Some (false, mkIterator zero_keyValue None (it_initialized it) true)
  else
    next ← (if it_initialized it then Some (it_next it) else Front h (entryList lh));
    if negb (it_initialized it) && bool_decide (next = None)
    then Some (false, mkIterator zero_keyValue None true true)
    else
      el ← deref h next;
      next' ← Next h next;
      Some (true, mkIterator (Value el) next' true (bool_decide (next' = None))).

(** ** The representation *)

(** [ts] are the entries: the element and its pair. *)
Record hm_entries h lh (Γ : gmap loc (list loc)) (l : loc) (ts : list (loc * keyValue)) : Prop := {
  hm_heap : heap_rep h Γ;
  hm_l : entryList lh = Some l;
  hm_list : Γ !! l = Some ts.*1;
  hm_vals : ∀ a kv, (a, kv) ∈ ts → val h a = Some kv;
  hm_keys : om_wf ts.*2;
  hm_map : ∀ k a, entryMap lh !! k = Some a ↔ ∃ v, (a, (k, v)) ∈ ts;
  hm_free : ∀ a, a ∈ freeList lh → client_ptr h Γ a ∧ lst h a = None;
  hm_free_nodup : NoDup (freeList lh);
}.

Definition hm_rep h lh (m : ordmap K V) : Prop :=
  ∃ Γ l ts, hm_entries h lh Γ l ts ∧ m = ts.*2.

Lemma heap_rep_same h h' Γ :
  (∀ b, nxt h' b = nxt h b) → (∀ b, prv h' b = prv h b) → (∀ b, lst h' b = lst h b) → lens h' = lens h →
  heap_rep h Γ → heap_rep h' Γ.
Proof.
  intros Hn Hp Hs Hlen [H1' H2' H3']. constructor.
  - intros l xs Hl. destruct (H1' l xs Hl) as (? & ? & ? & ?). split_and!; [done| | |congruence].
    + eapply linked_ext; [|done]. auto.
    + intros a Ha. rewrite Hs. auto.
  - intros a l. rewrite Hs. apply H2'.
  - intros a. rewrite Hs, Hn, Hp. apply H3'.
Qed.

Lemma set_Value_rep h Γ e kv :
  heap_rep h Γ → e ∈ dom (elems h) →
  ∃ h', set_Value h (Some e) kv = Some h' ∧ heap_rep h' Γ ∧ dom (elems h') = dom (elems h)
    ∧ (∀ b, lst h' b = lst h b) ∧ (∀ b, val h' b = upd (val h) e (Some kv) b).
Proof.
  intros Hr He. destruct (set_Value_views h _ _ _ _ _ _ e kv (views_refl h) He) as (h' & Hop & W).
  exists h'. destruct W. split_and!; try done. by eapply heap_rep_same.
Qed.

Section entries.
Context (h : heap keyValue) (lh : Hashmap) (Γ : gmap loc (list loc)) (l : loc).
Context (ts : list (loc * keyValue)) (HM : hm_entries h lh Γ l ts).

Lemma entries_nodup : l ∉ ts.*1 ∧ NoDup ts.*1.
Proof. destruct (rep_ring _ _ (hm_heap _ _ _ _ _ HM) l _ (hm_list _ _ _ _ _ HM)) as (H' & _). by apply NoDup_cons. Qed.

Lemma entries_lst a : a ∈ ts.*1 → lst h a = Some l.
Proof.
  intros Ha. apply (rep_ring _ _ (hm_heap _ _ _ _ _ HM) l _ (hm_list _ _ _ _ _ HM)). by right.
Qed.

Lemma entries_client a : a ∈ ts.*1 → client_ptr h Γ a.
Proof.
  intros Ha. pose proof (entries_lst a Ha) as Hl. split; [by eapply lst_dom|].
  intros [xs Hxs]%elem_of_dom.
  destruct (rep_ring _ _ (hm_heap _ _ _ _ _ HM) a _ Hxs) as (_ & _ & Hlst & _).
  rewrite Hlst in Hl by by left. injection Hl as ->. by apply entries_nodup.
Qed.

(** The entry that the map gives for a key. *)
Lemma entries_lookup k a :
  entryMap lh !! k = Some a →
  ∃ v ts1 ts2, ts = ts1 ++ (a, (k, v)) :: ts2 ∧ a ∉ ts1.*1 ∧ a ∉ ts2.*1 ∧ om_get ts.*2 k = Some v.
Proof.
  intros [v Hin]%(hm_map _ _ _ _ _ HM). exists v.
  assert ((k, v) ∈ ts.*2) as Hkv by (apply list_elem_of_fmap; by exists (a, (k, v))).
  apply list_elem_of_split in Hin as (ts1 & ts2 & E). exists ts1, ts2.
  destruct entries_nodup as [_ Hnd]. rewrite E, fmap_app, fmap_cons in Hnd. simpl in Hnd.
  apply NoDup_app in Hnd as (_ & Hd & Hnd). apply NoDup_cons in Hnd as [Hn _].
  split_and!; [done|set_solver|done|]. apply om_get_Some; [apply HM|done].
Qed.

Lemma entries_lookup_None k : entryMap lh !! k = None → k ∉ ts.*2.*1.
Proof.
  intros Hk ([k' v] & -> & Hin)%list_elem_of_fmap. apply list_elem_of_fmap in Hin as ([a kv] & E & Hin).
  simpl in *. subst kv.
  assert (entryMap lh !! k' = Some a) by (apply (hm_map _ _ _ _ _ HM); eauto). congruence.
Qed.

Lemma entries_map :
  let kvs := (λ t : loc * keyValue, (t.2.1, t.1)) <$> ts in
  NoDup kvs.*1 ∧ entryMap lh = list_to_map kvs.
Proof.
  intros kvs. assert (kvs.*1 = ts.*2.*1) as Hkeys.
  { unfold kvs. clear HM. induction ts as [|[a [k v]] ts' IH]; [done|]. rewrite !fmap_cons, IH. done. }
  pose proof (hm_keys _ _ _ _ _ HM) as Hnd. unfold om_wf in Hnd. rewrite <- Hkeys in Hnd.
  split; [done|]. apply map_eq. intros k. apply option_eq. intros a. rewrite (hm_map _ _ _ _ _ HM).
  rewrite <- elem_of_list_to_map by done. unfold kvs. rewrite list_elem_of_fmap. split.
  - intros [v Hin]. by exists (a, (k, v)).
  - intros ([a' [k' v']] & [= -> ->] & Hin). eauto.
Qed.

Lemma entries_size : size (entryMap lh) = length ts.
Proof.
  destruct entries_map as [Hnd ->].
  rewrite <- size_dom, dom_list_to_map_L, size_list_to_set by done. by rewrite !length_fmap.
Qed.

Lemma entries_iteration : (map_to_list (entryMap lh)).*2 ≡ₚ ts.*1.
Proof.
  destruct entries_map as [Hnd ->]. rewrite map_to_list_to_map by done.
  rewrite <- list_fmap_compose. done.
Qed.
End entries.

(** ** The list operations that the hash map uses *)

Lemma MoveToBack_rep h Γ l xs1 xs2 e :
  heap_rep h Γ → Γ !! l = Some (xs1 ++ e :: xs2) →
  ∃ h', MoveToBack h (Some l) (Some e) = Some h' ∧ heap_rep h' (<[l := xs1 ++ xs2 ++ [e]]> Γ)
    ∧ dom (elems h') = dom (elems h) ∧ (∀ b, val h' b = val h b) ∧ (∀ b, lst h' b = lst h b).
Proof.
  intros Hr Hl. unfold MoveToBack. destruct (rep_ends _ _ _ _ Hr Hl) as (s & -> & _ & Hp).
  simpl. rewrite Hp. destruct xs2 as [|x xs2 _] using rev_ind.
  - assert (before_gap l (xs1 ++ [e]) = e) as -> by apply last_last.
    assert (e ∈ dom (elems h)) by (apply (rep_dom _ _ _ _ _ Hr Hl); set_solver).
    exists h. rewrite moveAfter_noop by auto. split_and!; [done| |done..].
    by rewrite insert_id.
  - assert (before_gap l (xs1 ++ e :: xs2 ++ [x]) = before_gap l (xs1 ++ xs2 ++ [x])) as ->.
    { unfold before_gap. rewrite app_comm_cons, !app_assoc, !last_last. done. }
    rewrite (app_assoc xs1 (xs2 ++ [x]) [e]).
    apply (moveAfter_rep h Γ l xs1 (xs2 ++ [x]) e (xs1 ++ xs2 ++ [x]) []); [done..|].
    by rewrite app_nil_r.
Qed.

Lemma PushBack_rep h Γ l xs e :
  heap_rep h Γ → Γ !! l = Some xs → e ∈ dom (elems h) → lst h e = None →
  ∃ h', PushBack h (Some l) (Some e) = Some h' ∧ heap_rep h' (<[l := xs ++ [e]]> Γ)
    ∧ dom (elems h') = dom (elems h) ∧ (∀ b, val h' b = val h b)
    ∧ (∀ b, lst h' b = upd (lst h) e (Some l) b).
Proof.
  intros Hr Hl He Hf. unfold PushBack. destruct (rep_ends _ _ _ _ Hr Hl) as (s & -> & _ & Hp).
  simpl. rewrite Hp. apply insertAfter_rep; [done| |done..]. by rewrite app_nil_r.
Qed.

(** ** Each operation on the entries *)

Lemma elem_of_middle {A} (x y : A) l1 l2 : x ∈ l1 ++ y :: l2 ↔ x = y ∨ x ∈ l1 ++ l2.
Proof. rewrite !elem_of_app, elem_of_cons. tauto. Qed.

(** A pair of the other entries has another key and another element. *)
Lemma entries_others h lh Γ l ts1 e k v ts2 a k' v' :
  hm_entries h lh Γ l (ts1 ++ (e, (k, v)) :: ts2) → (a, (k', v')) ∈ ts1 ++ ts2 → a ≠ e ∧ k' ≠ k.
Proof.
  intros HM Hin. split; intros ->.
  - destruct (entries_nodup _ _ _ _ _ HM) as [_ Hnd]. rewrite fmap_app, fmap_cons, <- Permutation_middle in Hnd.
    apply NoDup_cons in Hnd as [Hn _]. apply Hn. rewrite <- fmap_app. apply list_elem_of_fmap.
    by exists (e, (k', v')).
  - pose proof (hm_keys _ _ _ _ _ HM) as Hnd. unfold om_wf in Hnd.
    rewrite !fmap_app, !fmap_cons, <- Permutation_middle in Hnd.
    apply NoDup_cons in Hnd as [Hn _]. apply Hn. rewrite <- !fmap_app, <- list_fmap_compose.
    apply list_elem_of_fmap. by exists (a, (k, v')).
Qed.

Lemma remove_entries h lh Γ l ts1 e k v ts2 :
  hm_entries h lh Γ l (ts1 ++ (e, (k, v)) :: ts2) →
  ∃ lh' h', Hashmap_remove h lh e = Some (lh', h')
    ∧ hm_entries h' lh' (<[l := (ts1 ++ ts2).*1]> Γ) l (ts1 ++ ts2).
Proof.
  intros HM. pose proof HM as [Hr Hl Hlist Hvals Hkeys Hmap Hfree Hnd].
  assert (val h e = Some (k, v)) as Hve by (apply Hvals, elem_of_middle; by left).
  assert (e ∈ (ts1 ++ (e, (k, v)) :: ts2).*1) as Hin
    by (apply list_elem_of_fmap; exists (e, (k, v)); split; [done|apply elem_of_middle; by left]).
  destruct (entries_client _ _ _ _ _ HM e Hin) as [He Hs].
  destruct (deref_views _ _ _ _ _ _ _ e (views_refl h) He) as (el & Hel & _ & _ & _ & Hv).
  rewrite Hve in Hv. injection Hv as Hv.
  rewrite fmap_app, fmap_cons in Hlist. simpl in Hlist.
  destruct (Remove_rep h Γ l ts1.*1 ts2.*1 e Hr Hlist) as (h1 & Hop1 & Hr1 & Hd1 & Hv1 & Hl1).
  destruct (set_Value_rep h1 _ e zero_keyValue Hr1) as (h2 & Hop2 & Hr2 & Hd2 & Hl2 & Hv2);
    [by rewrite Hd1|].
  unfold Hashmap_remove. rewrite Hel. simpl. rewrite Hl, Hop1. simpl. rewrite Hop2. simpl.
  eexists _, _. split; [done|]. rewrite <- Hv. rewrite fmap_app.
  constructor; simpl.
  - done.
  - done.
  - rewrite lookup_insert_eq. by rewrite fmap_app.
  - intros a [k' v'] Ha. destruct (entries_others _ _ _ _ _ _ _ _ _ _ _ _ HM Ha) as [Hne _].
    rewrite Hv2, upd_ne, Hv1 by done. apply Hvals, elem_of_middle. by right.
  - unfold om_wf in *. rewrite !fmap_app, !fmap_cons, <- Permutation_middle in Hkeys.
    apply NoDup_cons in Hkeys as [_ ?]. by rewrite !fmap_app.
  - intros k' a. rewrite lookup_delete. case_decide as E.
    + subst. split; [done|]. intros (v' & Ha).
      destruct (entries_others _ _ _ _ _ _ _ _ _ _ _ _ HM Ha) as [_ ?]. done.
    + rewrite Hmap. split; intros (v' & Ha); exists v'.
      * apply elem_of_middle in Ha as [[= -> <- ->]|?]; done.
      * apply elem_of_middle. by right.
  - intros a [Ha|Ha]%elem_of_app.
    + destruct (Hfree a Ha) as [[Hc1 Hc2] Hlst]. rewrite Hl2, Hl1. unfold client_ptr.
      rewrite Hd2, Hd1, dom_insert_lookup_L by done. unfold upd. by case_decide.
    + apply list_elem_of_singleton in Ha as ->. rewrite Hl2, Hl1, upd_eq. unfold client_ptr.
      by rewrite Hd2, Hd1, dom_insert_lookup_L.
  - apply NoDup_app. split_and!; [done| |apply NoDup_singleton].
    intros a Ha ->%list_elem_of_singleton. destruct (Hfree e Ha) as [_ Hn].
    rewrite (entries_lst _ _ _ _ _ HM e Hin) in Hn. done.
Qed.

Lemma put_existing_entries h lh Γ l ts1 e k v0 ts2 v :
  hm_entries h lh Γ l (ts1 ++ (e, (k, v0)) :: ts2) →
  ∃ h', Hashmap_Put h lh k v = Some (lh, h')
    ∧ hm_entries h' lh (<[l := (ts1 ++ ts2 ++ [(e, (k, v))]).*1]> Γ) l (ts1 ++ ts2 ++ [(e, (k, v))]).
Proof.
  intros HM. pose proof HM as [Hr Hl Hlist Hvals Hkeys Hmap Hfree Hnd].
  assert (entryMap lh !! k = Some e) as Hk by (apply Hmap; exists v0; apply elem_of_middle; by left).
  rewrite fmap_app, fmap_cons in Hlist. simpl in Hlist.
  destruct (MoveToBack_rep h Γ l ts1.*1 ts2.*1 e Hr Hlist) as (h1 & Hop1 & Hr1 & Hd1 & Hv1 & Hl1).
  assert (e ∈ dom (elems h)) as He by (apply (rep_dom _ _ _ _ _ Hr Hlist); set_solver).
  destruct (set_Value_rep h1 _ e (k, v) Hr1) as (h2 & Hop2 & Hr2 & Hd2 & Hl2 & Hv2);
    [by rewrite Hd1|].
  unfold Hashmap_Put. rewrite Hk, Hl, Hop1. simpl. rewrite Hop2. simpl.
  eexists. split; [done|].
  assert ((ts1 ++ ts2 ++ [(e, (k, v))]).*1 = ts1.*1 ++ ts2.*1 ++ [e]) as E by by rewrite !fmap_app.
  rewrite E. rewrite (app_assoc ts1 ts2 [(e, (k, v))]) in E |- *. constructor.
  - done.
  - done.
  - rewrite lookup_insert_eq. by rewrite E.
  - intros a [k' v'] [Ha|Ha]%elem_of_app.
    + destruct (entries_others _ _ _ _ _ _ _ _ _ _ _ _ HM Ha) as [Hne _].
      rewrite Hv2, upd_ne, Hv1 by done. apply Hvals, elem_of_middle. by right.
    + apply list_elem_of_singleton in Ha as [= -> -> ->]. by rewrite Hv2, upd_eq.
  - unfold om_wf in *. rewrite !fmap_app, !fmap_cons, <- Permutation_middle in Hkeys.
    rewrite !fmap_app. cbn [fmap list_fmap fst snd]. rewrite <- Permutation_cons_append. exact Hkeys.
  - intros k' a. rewrite Hmap. split; intros (v' & Ha).
    + apply elem_of_middle in Ha as [[= -> -> ->]|Ha]; [exists v|exists v']; apply elem_of_app.
      * right. by left.
      * by left.
    + apply elem_of_app in Ha as [Ha|Ha]; [exists v'; apply elem_of_middle; by right|].
      apply list_elem_of_singleton in Ha as [= -> -> ->]. exists v0. apply elem_of_middle. by left.
  - intros a Ha. destruct (Hfree a Ha) as [[Hc1 Hc2] Hlst]. rewrite Hl2, Hl1. unfold client_ptr.
    by rewrite Hd2, Hd1, dom_insert_lookup_L.
  - done.
Qed.

(** The element that [Put] takes for a new key, from the free list or allocated. *)
Lemma take_element h lh Γ l ts :
  hm_entries h lh Γ l ts →
  ∃ a free h1,
    match last (freeList lh) with
    | Some e => (Some e, removelast (freeList lh), h)
    | None => let '(e, h) := new_element h zero_keyValue in (e, freeList lh, h)
    end = (Some a, free, h1)
    ∧ hm_entries h1 (mkHashmap (entryMap lh) (entryList lh) free) Γ l ts
    ∧ client_ptr h1 Γ a ∧ lst h1 a = None ∧ a ∉ free.
Proof.
  intros HM. pose proof HM as [Hr Hl Hlist Hvals Hkeys Hmap Hfree Hnd].
  destruct (freeList lh) as [|a free _] eqn:E using rev_ind.
  - destruct (new_element_rep h Γ zero_keyValue Hr) as (a & h1 & Hop & Hn & Hr1 & Hd1 & Hl1 & _ & Hother).
    cbn [last]. rewrite Hop. exists a, [], h1. split; [done|].
    split; [|split; [|split; [done|apply not_elem_of_nil]]].
    + constructor; simpl; try done; [|intros b []%elem_of_nil].
      intros b kv Hb. assert (val h b = Some kv) as Hvb by auto.
      assert (b ≠ a) as Hba.
      { intros ->. apply Hn. unfold val in Hvb. apply elem_of_dom. destruct (elems h !! a); by eauto. }
      by rewrite (proj1 (Hother b Hba)).
    + split; [rewrite Hd1; set_solver|]. intros [xs Hxs]%elem_of_dom. apply Hn.
      apply (rep_dom _ _ _ _ _ Hr Hxs). by left.
  - rewrite last_snoc, removelast_last. exists a, free, h. split; [done|].
    destruct (Hfree a) as [Hc Hlst]; [set_solver|]. apply NoDup_app in Hnd as (Hnd & Hd & _).
    split; [|split; [done|split; [done|set_solver]]].
    constructor; simpl; try done. intros b Hb. apply Hfree. set_solver.
Qed.

Lemma put_new_entries h lh Γ l ts k v :
  hm_entries h lh Γ l ts → entryMap lh !! k = None →
  ∃ a lh' h', Hashmap_Put h lh k v = Some (lh', h')
    ∧ hm_entries h' lh' (<[l := (ts ++ [(a, (k, v))]).*1]> Γ) l (ts ++ [(a, (k, v))]).
Proof.
  intros HM0 Hk. pose proof (entries_lookup_None _ _ _ _ _ HM0 k Hk) as Hnew.
  destruct (take_element _ _ _ _ _ HM0) as (a & free & h1 & Htake & HM & Hc & Hlsta & Hnf).
  unfold Hashmap_Put. rewrite Hk, Htake.
  pose proof HM as [Hr Hl Hlist Hvals Hkeys Hmap Hfree Hnd]. simpl in *.
  destruct (set_Value_rep h1 Γ a (k, v) Hr (proj1 Hc)) as (h2 & Hop2 & Hr2 & Hd2 & Hl2 & Hv2).
  destruct (PushBack_rep h2 Γ l ts.*1 a Hr2 Hlist) as (h3 & Hop3 & Hr3 & Hd3 & Hv3 & Hl3);
    [rewrite Hd2; apply Hc|by rewrite Hl2|].
  assert (a ∉ ts.*1) as Hna by (intros Hin; rewrite (entries_lst _ _ _ _ _ HM a Hin) in Hlsta; done).
  simpl. rewrite Hop2. simpl. rewrite Hl, Hop3. simpl. eexists a, _, _. split; [done|].
  rewrite fmap_app. constructor; simpl.
  - done.
  - done.
  - rewrite lookup_insert_eq. by rewrite fmap_app.
  - intros b kv [Hb|Hb]%elem_of_app.
    + rewrite Hv3, Hv2, upd_ne; [by apply Hvals|]. intros ->. apply Hna. apply list_elem_of_fmap. by exists (a, kv).
    + apply list_elem_of_singleton in Hb as [= -> ->]. by rewrite Hv3, Hv2, upd_eq.
  - unfold om_wf in *. rewrite !fmap_app. cbn [fmap list_fmap fst snd].
    rewrite <- Permutation_cons_append. by apply NoDup_cons.
  - intros k' b. rewrite lookup_insert. setoid_rewrite elem_of_app. setoid_rewrite list_elem_of_singleton.
    case_decide as E.
    + subst. split; [intros [= ->]; eauto|]. intros (v' & [Hin|[= -> ->]]); [|done].
      destruct Hnew. apply list_elem_of_fmap. exists (k', v'). split; [done|].
      apply list_elem_of_fmap. by exists (b, (k', v')).
    + rewrite Hmap. split; intros (v' & Hin); exists v'; [by left|]. destruct Hin as [?|[= -> -> ->]]; done.
  - intros b Hb. destruct (Hfree b Hb) as [[Hc1 Hc2] Hlst]. unfold client_ptr.
    rewrite Hd3, Hd2, dom_insert_lookup_L by done.
    rewrite Hl3, upd_ne, Hl2 by (intros ->; done). done.
  - done.
Qed.

Lemma clear_entries h lh Γ l ts order :
  hm_entries h lh Γ l ts → order ≡ₚ ts.*1 →
  ∃ lh' h' Γ', Hashmap_Clear h lh order = Some (lh', h') ∧ hm_entries h' lh' Γ' l [].
Proof.
  revert h lh Γ ts. induction order as [|e order IH]; intros h lh Γ ts HM Hp; simpl.
  - apply Permutation_nil in Hp. destruct ts; [|done]. by exists lh, h, Γ.
  - assert (e ∈ ts.*1) as Hin by (rewrite <- Hp; by left).
    apply list_elem_of_fmap in Hin as ([a [k v]] & -> & Hin). simpl in *.
    apply list_elem_of_split in Hin as (ts1 & ts2 & ->).
    destruct (remove_entries _ _ _ _ _ _ _ _ _ HM) as (lh1 & h1 & -> & HM1). simpl.
    eapply IH; [exact HM1|]. rewrite fmap_app, fmap_cons, <- Permutation_middle in Hp. simpl in Hp.
    apply Permutation_cons_inv in Hp. by rewrite fmap_app.
Qed.

Lemma entries_Value h lh Γ l ts1 t ts2 :
  hm_entries h lh Γ l (ts1 ++ t :: ts2) → ∃ el, deref h (Some t.1) = Some el ∧ Value el = t.2.
Proof.
  intros HM. destruct t as [a kv]. simpl.
  assert (val h a = Some kv) as Hv by (apply (hm_vals _ _ _ _ _ HM), elem_of_middle; by left).
  assert (a ∈ dom (elems h)) as Ha.
  { unfold val in Hv. apply elem_of_dom. destruct (elems h !! a); by eauto. }
  destruct (deref_views _ _ _ _ _ _ _ a (views_refl h) Ha) as (el & Hel & _ & _ & _ & Hv').
  exists el. split; [done|]. congruence.
Qed.

Lemma ends_entries h lh Γ l ts :
  hm_entries h lh Γ l ts →
  Oldest h lh = Some (match om_oldest ts.*2 with Some kv => (kv, true) | None => (zero_keyValue, false) end)
  ∧ Newest h lh = Some (match om_newest ts.*2 with Some kv => (kv, true) | None => (zero_keyValue, false) end).
Proof.
  intros HM. destruct (ends_rep _ _ _ _ (hm_heap _ _ _ _ _ HM) (hm_list _ _ _ _ _ HM)) as (_ & Hf & Hb).
  unfold Oldest, Newest. rewrite (hm_l _ _ _ _ _ HM), Hf, Hb. simpl. split.
  - destruct ts as [|t ts]; [done|]. simpl.
    destruct (entries_Value _ _ _ _ [] t ts HM) as (el & -> & <-). done.
  - destruct ts as [|t ts _] using rev_ind; [done|]. unfold om_newest. rewrite !fmap_app. simpl.
    rewrite !last_snoc. destruct (entries_Value _ _ _ _ ts t [] HM) as (el & -> & <-). done.
Qed.

Lemma Put_rep h lh m k v :
  hm_rep h lh m → ∃ lh' h', Hashmap_Put h lh k v = Some (lh', h') ∧ hm_rep h' lh' (om_put m k v).
Proof.
  intros (Γ & l & ts & HM & ->). destruct (entryMap lh !! k) as [a|] eqn:Hk.
  - destruct (entries_lookup _ _ _ _ _ HM k a Hk) as (v0 & ts1 & ts2 & E & _ & _ & _). subst ts.
    destruct (put_existing_entries _ _ _ _ _ _ _ _ _ v HM) as (h' & Hop & HM').
    exists lh, h'. split; [done|]. eexists _, _, _. split; [exact HM'|].
    pose proof (hm_keys _ _ _ _ _ HM) as Hw. rewrite fmap_app, fmap_cons in Hw |- *. simpl in *.
    unfold om_put. by rewrite om_delete_split, !fmap_app, app_assoc.
  - destruct (put_new_entries _ _ _ _ _ k v HM Hk) as (a & lh' & h' & Hop & HM').
    exists lh', h'. split; [done|]. eexists _, _, _. split; [exact HM'|].
    unfold om_put. rewrite om_delete_absent by by eapply entries_lookup_None. by rewrite fmap_app.
Qed.

Lemma Get_rep h lh m k :
  hm_rep h lh m →
  Hashmap_Get h lh k = Some (match om_get m k with Some v => (v, true) | None => (go_zero, false) end).
Proof.
  intros (Γ & l & ts & HM & ->). unfold Hashmap_Get. destruct (entryMap lh !! k) as [a|] eqn:Hk.
  - destruct (entries_lookup _ _ _ _ _ HM k a Hk) as (v0 & ts1 & ts2 & E & _ & _ & ->). subst ts.
    destruct (entries_Value _ _ _ _ _ _ _ HM) as (el & Hel & Hv). simpl in Hel. rewrite Hel. simpl.
    by rewrite Hv.
  - apply (entries_lookup_None _ _ _ _ _ HM), om_get_None in Hk. by rewrite Hk.
Qed.

Lemma Delete_rep h lh m k :
  hm_rep h lh m →
  ∃ lh' h', Hashmap_Delete h lh k = Some (bool_decide (k ∈ m.*1), lh', h')
    ∧ hm_rep h' lh' (om_delete m k).
Proof.
  intros (Γ & l & ts & HM & ->). unfold Hashmap_Delete. destruct (entryMap lh !! k) as [a|] eqn:Hk.
  - destruct (entries_lookup _ _ _ _ _ HM k a Hk) as (v0 & ts1 & ts2 & E & _ & _ & Hg). subst ts.
    destruct (remove_entries _ _ _ _ _ _ _ _ _ HM) as (lh' & h' & -> & HM'). simpl.
    apply om_get_Some in Hg; [|apply HM]. rewrite bool_decide_eq_true_2.
    2:{ apply list_elem_of_fmap. by exists (k, v0). }
    exists lh', h'. split; [done|]. eexists _, _, _. split; [exact HM'|].
    pose proof (hm_keys _ _ _ _ _ HM) as Hw. rewrite fmap_app, fmap_cons in Hw |- *. simpl in *.
    by rewrite om_delete_split, fmap_app.
  - apply (entries_lookup_None _ _ _ _ _ HM) in Hk. rewrite bool_decide_eq_false_2 by done.
    exists lh, h. split; [done|]. rewrite om_delete_absent by done. by exists Γ, l, ts.
Qed.

(** C28. Refinement of the hash map.  A hash map that represents the ordered map [m]
    never dereferences [nil]; [Put] moves the key to the newest place or adds it there,
    [Get] looks it up, [Delete] removes it and tells whether it was there, [Clear]
    empties the map in whatever order the Go map is iterated, and [Len], [Oldest] and
    [Newest] return the length and the ends of [m]. *)
Theorem hashmap_ops_refine h lh m :
  hm_rep h lh m →
  (∀ k v, ∃ lh' h', Hashmap_Put h lh k v = Some (lh', h') ∧ hm_rep h' lh' (om_put m k v))
  ∧ (∀ k, Hashmap_Get h lh k
          = Some (match om_get m k with Some v => (v, true) | None => (go_zero, false) end))
  ∧ (∀ k, ∃ lh' h', Hashmap_Delete h lh k = Some (bool_decide (k ∈ m.*1), lh', h')
                    ∧ hm_rep h' lh' (om_delete m k))
  ∧ (∀ order, order ≡ₚ (map_to_list (entryMap lh)).*2 →
       ∃ lh' h', Hashmap_Clear h lh order = Some (lh', h') ∧ hm_rep h' lh' [])
  ∧ Hashmap_Len lh = om_len m
  ∧ Oldest h lh = Some (match om_oldest m with Some kv => (kv, true) | None => (zero_keyValue, false) end)
  ∧ Newest h lh = Some (match om_newest m with Some kv => (kv, true) | None => (zero_keyValue, false) end).
Proof.
  intros Hrep. split_and!; [intros; by apply Put_rep|intros; by apply Get_rep|intros; by apply Delete_rep|..];
    destruct Hrep as (Γ & l & ts & HM & ->).
  - intros order Hp. rewrite (entries_iteration _ _ _ _ _ HM) in Hp.
    destruct (clear_entries _ _ _ _ _ _ HM Hp) as (lh' & h' & Γ' & -> & HM').
    exists lh', h'. split; [done|]. by exists Γ', l, [].
  - unfold Hashmap_Len, om_len. rewrite (entries_size _ _ _ _ _ HM). by rewrite length_fmap.
  - by apply (ends_entries _ _ _ _ _ HM).
  - by apply (ends_entries _ _ _ _ _ HM).
Qed.

(** ** Iteration *)

(** A loop over an iterator that leaves at the first pair that satisfies [stop], and
    that deletes the pairs it has seen when [del] is set.  It returns those pairs. *)
Fixpoint iterate (del : bool) (stop : keyValue → bool) (fuel : nat) h lh (it : Iterator)
    : option (list keyValue * Hashmap * heap keyValue) :=
  match fuel with
  | O => None
  | S fuel =>
      '(more, it) ← Iterator_Next h lh it;
      if (more : bool) then
        if stop (it_kv it) then Some ([], lh, h)
        else
          '(lh, h) ← (if del then '(_, lh, h) ← Hashmap_Delete h lh (it_kv it).1; Some (lh, h)
                      else Some (lh, h));
          '(seen, lh, h) ← iterate del stop fuel h lh it;
          Some (it_kv it :: seen, lh, h)
      else Some ([], lh, h)
  end.

Fixpoint take_until {A} (stop : A → bool) (l : list A) : list A :=
  match l with [] => [] | x :: l => if stop x then [] else x :: take_until stop l end.
Fixpoint drop_until {A} (stop : A → bool) (l : list A) : list A :=
  match l with [] => [] | x :: l => if stop x then x :: l else drop_until stop l end.

(** The next entry, for an iterator that is at the entries [ts2]. *)
Lemma Iterator_Next_entries h lh Γ l ts1 t ts2 it :
  hm_entries h lh Γ l (ts1 ++ t :: ts2) → it_exhausted it = false →
  (if it_initialized it then it_next it = Some t.1 else ts1 = []) →
  Iterator_Next h lh it
  = Some (true, mkIterator t.2 (head ts2.*1) true (bool_decide (head ts2.*1 = None))).
Proof.
  intros HM Hex Hst. unfold Iterator_Next. rewrite Hex.
  assert ((if it_initialized it then Some (it_next it) else Front h (entryList lh)) = Some (Some t.1)) as ->.
  { destruct (it_initialized it); [by rewrite Hst|]. subst ts1. rewrite (hm_l _ _ _ _ _ HM).
    by apply (ends_rep _ _ _ _ (hm_heap _ _ _ _ _ HM) (hm_list _ _ _ _ _ HM)). }
  simpl. rewrite andb_false_r. destruct (entries_Value _ _ _ _ _ _ _ HM) as (el & -> & Hv). simpl.
  pose proof (hm_list _ _ _ _ _ HM) as Hlist. rewrite fmap_app, fmap_cons in Hlist.
  rewrite (Next_rep h Γ l ts1.*1 t.1 ts2.*1 (hm_heap _ _ _ _ _ HM) Hlist). simpl. by rewrite Hv.
Qed.

Lemma delete_entries h lh Γ l ts1 t ts2 :
  hm_entries h lh Γ l (ts1 ++ t :: ts2) →
  ∃ lh' h' Γ', Hashmap_Delete h lh t.2.1 = Some (true, lh', h') ∧ hm_entries h' lh' Γ' l (ts1 ++ ts2).
Proof.
  intros HM. destruct t as [a [k v]]. simpl.
  assert (entryMap lh !! k = Some a) as Hk.
  { apply (hm_map _ _ _ _ _ HM). exists v. apply elem_of_middle. by left. }
  unfold Hashmap_Delete. rewrite Hk.
  destruct (remove_entries _ _ _ _ _ _ _ _ _ HM) as (lh' & h' & -> & HM'). by eexists _, _, _.
Qed.

Lemma iterate_entries del stop fuel h lh Γ l ts1 ts2 it :
  hm_entries h lh Γ l (ts1 ++ ts2) → (length ts2 < fuel)%nat →
  it_exhausted it = bool_decide (it_initialized it = true ∧ ts2 = []) →
  (if it_initialized it then it_next it = head ts2.*1 else ts1 = []) →
  ∃ lh' h' Γ' ts', iterate del stop fuel h lh it = Some (take_until stop ts2.*2, lh', h')
    ∧ hm_entries h' lh' Γ' l (ts1 ++ ts')
    ∧ ts'.*2 = if del then drop_until stop ts2.*2 else ts2.*2.
Proof.
  revert fuel h lh Γ ts1 it. induction ts2 as [|t ts2 IH]; intros fuel h lh Γ ts1 it HM Hf Hex Hst.
  - destruct fuel as [|fuel]; [lia|]. simpl.
    assert (∃ it', Iterator_Next h lh it = Some (false, it')) as [it' ->].
    { unfold Iterator_Next. rewrite Hex. destruct (it_initialized it) eqn:E.
      - rewrite bool_decide_eq_true_2 by done. eauto.
      - rewrite bool_decide_eq_false_2 by (intros [? _]; done). subst ts1.
        rewrite (hm_l _ _ _ _ _ HM).
        destruct (ends_rep _ _ _ _ (hm_heap _ _ _ _ _ HM) (hm_list _ _ _ _ _ HM)) as (_ & -> & _).
        simpl. eauto. }
    simpl. exists lh, h, Γ, []. split; [done|]. split; [done|]. by destruct del.
  - destruct fuel as [|fuel]; [simpl in Hf; lia|]. simpl in Hf |- *.
    rewrite (Iterator_Next_entries _ _ _ _ _ _ _ _ HM); [|by rewrite Hex; apply bool_decide_eq_false_2; intros []|done].
    simpl. destruct (stop t.2) eqn:Hs; [exists lh, h, Γ, (t :: ts2); by destruct del|].
    assert (bool_decide (head ts2.*1 = None) = bool_decide (true = true ∧ ts2 = [])) as Hit.
    { apply bool_decide_ext. destruct ts2; naive_solver. }
    destruct del.
    + destruct (delete_entries _ _ _ _ _ _ _ HM) as (lh1 & h1 & Γ1 & -> & HM1). simpl.
      destruct (IH fuel h1 lh1 Γ1 ts1
        (mkIterator t.2 (head ts2.*1) true (bool_decide (head ts2.*1 = None))) HM1)
        as (lh' & h' & Γ' & ts' & -> & HM' & Hts); [lia|done..|]. simpl.
      by exists lh', h', Γ', ts'.
    + simpl. destruct (IH fuel h lh Γ (ts1 ++ [t])
        (mkIterator t.2 (head ts2.*1) true (bool_decide (head ts2.*1 = None))))
        as (lh' & h' & Γ' & ts' & -> & HM' & Hts); [by rewrite <- app_assoc|lia|done..|]. simpl.
      exists lh', h', Γ', (t :: ts'). rewrite <- app_assoc in HM'. split; [done|]. split; [done|].
      by rewrite !fmap_cons, Hts.
Qed.

(** Iteration.  A loop over a new iterator of a hash map that represents [m] ends,
    sees the pairs of [m] from the oldest to the newest up to the first that stops the
    loop, and when the loop deletes each pair it has seen, the map then holds exactly
    the remaining ones.  So deleting visited entries does not disturb the iterator. *)
Theorem iteration_correct del stop fuel h lh m :
  hm_rep h lh m → (length m < fuel)%nat →
  ∃ lh' h', iterate del stop fuel h lh NewIterator = Some (take_until stop m, lh', h')
    ∧ hm_rep h' lh' (if (del : bool) then drop_until stop m else m).
Proof.
  intros (Γ & l & ts & HM & ->) Hf. rewrite length_fmap in Hf.
  destruct (iterate_entries del stop fuel h lh Γ l [] ts NewIterator HM Hf)
    as (lh' & h' & Γ' & ts' & -> & HM' & Hts).
  - symmetry. apply bool_decide_eq_false_2. intros []. done.
  - done.
  - exists lh', h'. split; [done|]. by exists Γ', l, ts'.
Qed.

(** ** New hash maps *)

Lemma new_elements_rep h Γ n :
  heap_rep h Γ →
  ∃ free h', new_elements h n = (free, h') ∧ heap_rep h' Γ ∧ length free = n ∧ NoDup free
    ∧ dom (elems h) ⊆ dom (elems h') ∧ (∀ b, b ∈ dom (elems h) → lst h' b = lst h b)
    ∧ (∀ a, a ∈ free → a ∉ dom (elems h) ∧ client_ptr h' Γ a ∧ lst h' a = None).
Proof.
  revert h. induction n as [|n IH]; intros h Hr; cbn [new_elements].
  - exists [], h. split_and!; try done; [constructor|]. intros a []%elem_of_nil.
  - destruct (new_element_rep h Γ zero_keyValue Hr) as (a & h1 & Hop & Hn & Hr1 & Hd1 & Hl1 & _ & Hother).
    rewrite Hop.
    destruct (IH h1 Hr1) as (free & h2 & Hop2 & Hr2 & Hlen & Hnd & Hd2 & Hl2 & Hfree). rewrite Hop2.
    exists (a :: free), h2. rewrite Hd1 in *.
    assert (a ∉ free) as Hnf by (intros Hin; destruct (Hfree a Hin) as [[] _]; set_solver).
    split; [done|]. split; [done|]. split; [simpl; lia|]. split; [by constructor|].
    split; [set_solver|]. split.
    + intros b Hb. rewrite Hl2 by set_solver. apply Hother. intros ->. done.
    + intros b [->|Hb]%elem_of_cons.
      * split; [done|]. rewrite Hl2 by set_solver. split; [|done].
        split; [set_solver|]. intros [xs Hxs]%elem_of_dom. apply Hn. apply (rep_dom _ _ _ _ _ Hr Hxs). by left.
      * destruct (Hfree b Hb) as (Hb1 & Hb2 & Hb3). split; [set_solver|]. done.
Qed.

(** A new hash map represents the empty map, whatever its initial size. *)
Lemma NewHashmapWithSize_rep h Γ n :
  heap_rep h Γ → ∃ lh h', NewHashmapWithSize h n = (lh, h') ∧ hm_rep h' lh [].
Proof.
  intros Hr. unfold NewHashmapWithSize.
  destruct (NewList_rep h Γ zero_keyValue Hr) as (l & h1 & -> & _ & Hr1 & _).
  destruct (new_elements_rep h1 _ n Hr1) as (free & h2 & -> & Hr2 & _ & Hnd & _ & _ & Hfree).
  eexists _, _. split; [done|]. exists (<[l := []]> Γ), l, []. split; [|done]. constructor; simpl; try done.
  - apply lookup_insert_eq.
  - intros a kv []%elem_of_nil.
  - constructor.
  - intros k a. rewrite lookup_empty. split; [done|]. intros (v & []%elem_of_nil).
  - intros a Ha. by apply Hfree.
Qed.

End hashmap.

(** ** A sample hash map *)

#[local] Instance sample_zero : GoZero Z := 0%Z.

Lemma empty_heap_rep {T} : heap_rep (T := T) (mkHeap ∅ ∅) ∅.
Proof. constructor; [intros l xs|intros a l|intros a]; done. Qed.

Definition sample_map : option (Hashmap (K := Z) * heap (Z * Z)) :=
  let '(lh, h) := NewHashmapWithSize (mkHeap ∅ ∅) 1 in
  '(lh, h) ← Hashmap_Put h lh 1%Z 10%Z;
  Hashmap_Put h lh 2%Z 20%Z.

Lemma sample_map_rep lh h : sample_map = Some (lh, h) → hm_rep h lh [(1, 10); (2, 20)]%Z.
Proof.
  unfold sample_map. intros E.
  destruct (NewHashmapWithSize_rep (K := Z) (V := Z) (mkHeap ∅ ∅) ∅ 1 empty_heap_rep) as (lh0 & h0 & E0 & R0).
  rewrite E0 in E. destruct (Put_rep h0 lh0 [] 1%Z 10%Z R0) as (lh1 & h1 & E1 & R1).
  rewrite E1 in E. simpl in E. destruct (Put_rep h1 lh1 _ 2%Z 20%Z R1) as (lh2 & h2 & E2 & R2).
  rewrite E2 in E. injection E as <- <-. exact R2.
Qed.

Lemma hashmap_ops_refine_witness :
  match sample_map with
  | Some (lh, h) => Oldest h lh = Some ((1, 10)%Z, true) ∧ Hashmap_Get h lh 2%Z = Some (20%Z, true)
  | None => False
  end.
Proof.
  destruct sample_map as [[lh h]|] eqn:E; [|discriminate E].
  destruct (hashmap_ops_refine h lh _ (sample_map_rep lh h E)) as (_ & Hget & _ & _ & _ & Hold & _).
  split; [exact Hold|exact (Hget 2%Z)].
Defined.

Lemma iteration_correct_witness :
  match sample_map with
  | Some (lh, h) =>
      ∃ lh' h', iterate true (λ kv, (kv.1 =? 2)%Z) 3 h lh NewIterator = Some ([(1, 10)%Z], lh', h')
        ∧ hm_rep h' lh' [(2, 20)%Z]
  | None => False
  end.
Proof.
  destruct sample_map as [[lh h]|] eqn:E; [|discriminate E].
  apply (iteration_correct true (λ kv, (kv.1 =? 2)%Z) 3 h lh [(1, 10); (2, 20)]%Z).
  - exact (sample_map_rep lh h E).
  - simpl. lia.
Defined.
