(* ===== verification/Cache.v ===== *)
(** * Caches that evict the least recently used entry

    Models [cache/lru_cache.go] and [cache/lru_sized_cache.go] on the ordered maps of
    [Hashmap].  [LRU] bounds the number of entries, [sizedLRU] the sum of their sizes.
    The mutex that every public method takes makes each method one step; the exported
    methods are the unexported ones modelled here.  [portionFilled] (floating point) is
    not modelled. *)

From S2P Require Import Prelude Hashmap.

Open Scope Z_scope.

(** ** The cache bounded by the number of entries *)

Module LRU.
Section lru.
Context {K V : Type} `{EqDecision K} `{GoZero K} `{GoZero V}.

(** [elements] is [nil] until the first use. *)
Record LRU := mkLRU { elements : option (ordmap K V); Size : Z }.

Implicit Types (c : LRU) (m : ordmap K V).

Definition oldestKey m : K := match om_oldest m with Some kv => kv.1 | None => go_zero end.

(** The loop of [resize]; it runs at most once per entry. *)
Fixpoint resize_loop (fuel : nat) m (size : Z) : ordmap K V :=
  match fuel with
  | O => m
  | S fuel => if size <? om_len m then resize_loop fuel (om_delete m (oldestKey m)) size else m
  end.

(** [resize], as the elements and the size it leaves. *)
Definition resize c : ordmap K V * Z :=
  let m := default [] (elements c) in
  let size := if Size c <=? 0 then 1 else Size c in
  (resize_loop (length m) m size, size).

Definition put c (key : K) (value : V) : LRU :=
  let '(m, size) := resize c in
  let m := if om_len m =? size then om_delete m (oldestKey m) else m in
  mkLRU (Some (om_put m key value)) size.

Definition get c (key : K) : V * bool * LRU :=
  let '(m, size) := resize c in
  match om_get m key with
  | Some val => (val, true, mkLRU (Some (om_put m key val)) size)
  | None => (go_zero, false, mkLRU (Some m) size)
  end.

Definition evict c (key : K) : LRU :=
  let '(m, size) := resize c in mkLRU (Some (om_delete m key)) size.

Definition flush c : LRU :=
  match elements c with
  | Some _ => mkLRU (Some []) (Size c)
  | None => c
  end.

Definition len c : Z := match elements c with Some m => om_len m | None => 0 end.

(** ** Its invariant *)

(** Keys are distinct and, once the cache was used, the bound holds. *)
Definition lru_wf c : Prop := om_wf (default [] (elements c)).
Definition lru_inv c : Prop := lru_wf c ∧ 1 ≤ Size c ∧ len c ≤ Size c.

Lemma om_delete_oldest m : om_wf m → om_delete m (oldestKey m) = tail m.
Proof.
  destruct m as [|[k v] m]; [done|]. intros Hwf. apply (om_delete_split [] k v m Hwf).
Qed.

Lemma tail_wf m : om_wf m → om_wf (tail m).
Proof. destruct m; [done|]. unfold om_wf. simpl. by intros [_ ?]%NoDup_cons. Qed.

(** [resize] keeps the newest [size] entries. *)
Lemma resize_loop_spec fuel m size :
  om_wf m → 0 ≤ size → (length m ≤ fuel)%nat →
  resize_loop fuel m size = drop (length m - Z.to_nat size) m.
Proof.
  intros Hwf Hs. revert m Hwf. induction fuel as [|fuel IH]; intros m Hwf Hf; simpl.
  - destruct m; [done|simpl in Hf; lia].
  - unfold om_len. destruct (Z.ltb_spec size (Z.of_nat (length m))) as [Hlt|Hge].
    + rewrite om_delete_oldest by done. destruct m as [|kv m]; [simpl in Hlt; lia|].
      rewrite IH; [|by apply tail_wf|simpl in *; lia]. simpl tail.
      replace (length (kv :: m) - Z.to_nat size)%nat with (S (length m - Z.to_nat size)) by (simpl in *; lia).
      done.
    + replace (length m - Z.to_nat size)%nat with 0%nat by lia. done.
Qed.

Lemma resize_spec c :
  lru_wf c →
  let m := default [] (elements c) in
  let size := if Size c <=? 0 then 1 else Size c in
  resize c = (drop (length m - Z.to_nat size) m, size) ∧ 1 ≤ size.
Proof.
  intros Hwf m size. unfold resize. fold m size.
  assert (1 ≤ size) by (subst size; destruct (Z.leb_spec (Size c) 0); lia).
  rewrite resize_loop_spec by (done || lia). done.
Qed.

Lemma drop_wf n m : om_wf m → om_wf (drop n m).
Proof.
  unfold om_wf. intros Hm. rewrite fmap_drop. eapply sublist_NoDup; [exact Hm|apply sublist_drop].
Qed.

(** A cache that satisfies its invariant is not changed by [resize]. *)
Lemma resize_inv c : lru_inv c → resize c = (default [] (elements c), Size c).
Proof.
  intros (Hwf & Hs & Hlen). destruct (resize_spec c Hwf) as [-> _].
  destruct (Z.leb_spec (Size c) 0); [lia|].
  replace (_ - _)%nat with 0%nat; [done|]. unfold len, om_len in Hlen.
  destruct (elements c); simpl in *; lia.
Qed.

Lemma om_put_len m k v : om_wf m → om_len m ≤ om_len (om_put m k v) ≤ om_len m + 1.
Proof.
  intros Hwf. unfold om_put, om_len. rewrite length_app. simpl.
  destruct (om_get m k) as [v'|] eqn:E.
  - pose proof (om_len_delete m k v' Hwf E) as Hd. unfold om_len in Hd. lia.
  - apply om_get_None in E. rewrite om_delete_absent by done. lia.
Qed.

Lemma om_delete_len m k : om_len (om_delete m k) ≤ om_len m.
Proof. unfold om_len, om_delete. pose proof (length_filter (λ kv : K * V, kv.1 ≠ k) m). lia. Qed.

(** The effect of [put] on a cache in use. *)
Lemma put_inv_spec c k v :
  lru_inv c →
  let m := default [] (elements c) in
  put c k v = mkLRU (Some (om_put (if om_len m =? Size c then tail m else m) k v)) (Size c).
Proof.
  intros Hinv m. unfold put. rewrite (resize_inv c Hinv). fold m.
  by rewrite om_delete_oldest by apply Hinv.
Qed.

Lemma resize_establishes c m size :
  lru_wf c → resize c = (m, size) → om_wf m ∧ 1 ≤ size ∧ om_len m ≤ size.
Proof.
  intros Hwf Hr. destruct (resize_spec c Hwf) as [Hr' Hs]. rewrite Hr in Hr'. injection Hr' as -> ->.
  split; [by apply drop_wf|]. split; [done|]. unfold om_len. rewrite length_drop. lia.
Qed.

Lemma put_establishes c k v : lru_wf c → lru_inv (put c k v).
Proof.
  intros Hwf. unfold put. destruct (resize c) as [m size] eqn:E.
  destruct (resize_establishes c m size Hwf E) as (Hm & Hs & Hlen).
  rewrite om_delete_oldest by done. unfold lru_inv, lru_wf, len. simpl.
  destruct (Z.eqb_spec (om_len m) size) as [Hf|Hf].
  - pose proof (om_put_len (tail m) k v (tail_wf m Hm)).
    assert (om_len (tail m) = om_len m - 1) by (unfold om_len in *; destruct m; simpl in *; lia).
    split; [by apply om_put_wf, tail_wf|]. lia.
  - pose proof (om_put_len m k v Hm). split; [by apply om_put_wf|]. lia.
Qed.

Lemma get_establishes c k : lru_wf c → lru_inv (get c k).2.
Proof.
  intros Hwf. unfold get. destruct (resize c) as [m size] eqn:E.
  destruct (resize_establishes c m size Hwf E) as (Hm & Hs & Hlen).
  destruct (om_get m k) as [v|] eqn:G; unfold lru_inv, lru_wf, len; simpl; [|done].
  split; [by apply om_put_wf|]. split; [done|]. unfold om_put, om_len. rewrite length_app. simpl.
  pose proof (om_len_delete m k v Hm G) as Hd. unfold om_len in *. lia.
Qed.

Lemma evict_establishes c k : lru_wf c → lru_inv (evict c k).
Proof.
  intros Hwf. unfold evict. destruct (resize c) as [m size] eqn:E.
  destruct (resize_establishes c m size Hwf E) as (Hm & Hs & Hlen).
  unfold lru_inv, lru_wf, len. simpl. pose proof (om_delete_len m k).
  split; [by apply om_delete_wf|]. lia.
Qed.

(** ** Runs *)

Inductive op := OpPut (k : K) (v : V) | OpGet (k : K) | OpEvict (k : K) | OpFlush.

Definition run c (o : op) : LRU :=
  match o with
  | OpPut k v => put c k v
  | OpGet k => (get c k).2
  | OpEvict k => evict c k
  | OpFlush => flush c
  end.

Definition op_on (S : list K) (o : op) : Prop :=
  match o with
  | OpPut j _ | OpGet j | OpEvict j => j ∈ S
  | OpFlush => False
  end.

(** [k] is in the cache, and what was used after it has its keys in [S]. *)
Definition recent c (S : list K) (k : K) (v : V) : Prop :=
  lru_inv c ∧ ∃ m1 m2, elements c = Some (m1 ++ (k, v) :: m2) ∧ m2.*1 ⊆ S.

Lemma om_delete_around m1 k v m2 j :
  j ≠ k → om_delete (m1 ++ (k, v) :: m2) j = om_delete m1 j ++ (k, v) :: om_delete m2 j.
Proof. intros Hne. unfold om_delete. by rewrite filter_app, filter_cons_True. Qed.

Lemma om_delete_keys m j S : m.*1 ⊆ S → (om_delete m j).*1 ⊆ S.
Proof.
  intros Hm x (kv & -> & Hin)%list_elem_of_fmap. apply om_delete_elem in Hin as [Hin _].
  apply Hm. apply list_elem_of_fmap. by exists kv.
Qed.

Lemma om_put_keys m j w S : m.*1 ⊆ S → j ∈ S → (om_delete m j ++ [(j, w)]).*1 ⊆ S.
Proof.
  intros Hm Hj x. rewrite fmap_app, elem_of_app. intros [Hx|Hx].
  - by apply (om_delete_keys m j S Hm).
  - apply list_elem_of_singleton in Hx as ->. done.
Qed.

Lemma recent_put c S k v j w :
  k ∉ S → Z.of_nat (length S) ≤ Size c - 2 → j ∈ S → recent c S k v → recent (put c j w) S k v.
Proof.
  intros Hk HS Hj (Hinv & m1 & m2 & Hm & Hkeys). split; [apply put_establishes, Hinv|].
  rewrite put_inv_spec by done. rewrite Hm. simpl.
  assert (length m2 ≤ length S)%nat as Hm2.
  { rewrite <- (length_fmap fst). apply submseteq_length, NoDup_submseteq; [|done].
    destruct Hinv as [Hwf _]. unfold lru_wf, om_wf in Hwf. rewrite Hm in Hwf. simpl in Hwf.
    rewrite fmap_app, fmap_cons in Hwf. apply NoDup_app in Hwf as (_ & _ & Hwf).
    by apply NoDup_cons in Hwf as [_ ?]. }
  assert (j ≠ k) as Hne by (intros ->; done).
  destruct (Z.eqb_spec (om_len (m1 ++ (k, v) :: m2)) (Size c)) as [Hf|Hf].
  - unfold om_len in Hf. rewrite length_app in Hf. simpl in Hf.
    destruct m1 as [|kv m1]; [simpl in *; lia|].
    exists (om_delete m1 j), (om_delete m2 j ++ [(j, w)]). simpl.
    unfold om_put. rewrite om_delete_around by done. rewrite <- app_assoc. split; [done|].
    by apply om_put_keys.
  - exists (om_delete m1 j), (om_delete m2 j ++ [(j, w)]).
    unfold om_put. rewrite om_delete_around by done. rewrite <- app_assoc. split; [done|].
    by apply om_put_keys.
Qed.

Lemma recent_run c S k v o :
  k ∉ S → Z.of_nat (length S) ≤ Size c - 2 → op_on S o → recent c S k v →
  recent (run c o) S k v ∧ Size (run c o) = Size c.
Proof.
  intros Hk HS Ho Hrec. pose proof Hrec as (Hinv & m1 & m2 & Hm & Hkeys).
  destruct o as [j w|j|j|]; simpl in Ho; [| | |done]; cbn [run];
    (assert (j ≠ k) as Hne by (intros ->; done)).
  - split; [by apply recent_put|]. by rewrite put_inv_spec.
  - assert (lru_inv (get c j).2) as Hinv' by apply get_establishes, Hinv.
    revert Hinv'. unfold get. rewrite (resize_inv c Hinv). rewrite Hm. simpl.
    destruct (om_get _ j) as [w|]; simpl; intros Hinv'; (split; [|done]); (split; [done|]).
    + exists (om_delete m1 j), (om_delete m2 j ++ [(j, w)]).
      unfold om_put. simpl. rewrite om_delete_around by done. rewrite <- app_assoc. split; [done|].
      by apply om_put_keys.
    + eauto.
  - assert (lru_inv (evict c j)) as Hinv' by apply evict_establishes, Hinv.
    revert Hinv'. unfold evict. rewrite (resize_inv c Hinv). rewrite Hm. simpl.
    intros Hinv'; (split; [|done]); (split; [done|]). exists (om_delete m1 j), (om_delete m2 j).
    simpl. rewrite om_delete_around by done. split; [done|]. by apply om_delete_keys.
Qed.

Lemma recent_get c S k v : recent c S k v → (get c k).1 = (v, true).
Proof.
  intros (Hinv & m1 & m2 & Hm & _). unfold get. rewrite (resize_inv c Hinv), Hm. simpl.
  assert (om_get (m1 ++ (k, v) :: m2) k = Some v) as ->; [|done].
  destruct Hinv as [Hwf _]. unfold lru_wf in Hwf. rewrite Hm in Hwf. simpl in Hwf.
  apply om_get_Some; [done|]. apply elem_of_app. right. by left.
Qed.

(** The bound of the cache.  Whatever the configured size and the state before,
    after [put], [get] or [evict] the size is at least one, keys are distinct and the
    cache holds at most [Size] entries; [flush] keeps that; and what was put is what
    [get] then returns. *)
Theorem lru_bounded c k v :
  lru_wf c →
  lru_inv (put c k v) ∧ lru_inv (get c k).2 ∧ lru_inv (evict c k) ∧ (lru_inv c → lru_inv (flush c))
  ∧ (get (put c k v) k).1 = (v, true)
  ∧ (get (evict c k) k).1 = (go_zero, false) ∧ len (flush c) = 0.
Proof.
  intros Hwf. split_and!.
  - by apply put_establishes.
  - by apply get_establishes.
  - by apply evict_establishes.
  - intros (H1 & H2 & H3). unfold flush. destruct (elements c) eqn:E; [|done].
    split; [constructor|]. unfold len. simpl. unfold om_len. simpl. lia.
  - apply (recent_get _ []). split; [by apply put_establishes|]. unfold put. destruct (resize c) as [m size].
    eexists _, []. split; [done|]. simpl. intros x []%elem_of_nil.
  - unfold get. rewrite resize_inv by by apply evict_establishes. unfold evict.
    destruct (resize c) as [m size] eqn:E. simpl.
    rewrite om_get_delete by by apply (resize_establishes c m size Hwf E).
    by rewrite decide_True.
  - unfold flush. destruct (elements c) eqn:E; unfold len; simpl; [done|by rewrite E].
Qed.

(** Recency.  An entry that was just put survives every sequence of operations on
    other keys, as long as these use at most [Size - 2] different keys: [get] then still
    returns its value. *)
Theorem lru_keeps_recent c k v S os :
  lru_wf c → k ∉ S → Z.of_nat (length S) ≤ Size (put c k v) - 2 → Forall (op_on S) os →
  (get (foldl run (put c k v) os) k).1 = (v, true).
Proof.
  intros Hwf Hk HS Hos. apply (recent_get _ S).
  assert (recent (put c k v) S k v) as Hrec.
  { split; [by apply put_establishes|]. unfold put. destruct (resize c) as [m size].
    eexists _, []. split; [done|]. simpl. intros x []%elem_of_nil. }
  revert HS Hrec. generalize (put c k v). clear c Hwf.
  induction Hos as [|o os Ho Hos IH]; intros c HS Hrec; simpl; [done|].
  destruct (recent_run c S k v o Hk HS Ho Hrec) as [Hrec' Hsize].
  apply IH; [by rewrite Hsize|done].
Qed.

(** Putting a key that is already in a full cache evicts the oldest entry, although
    the number of entries would not grow: the cache then holds one entry less than its
    size. *)
Theorem lru_put_existing_evicts c k v w kv m :
  lru_inv c → elements c = Some (kv :: m) → om_len (kv :: m) = Size c → om_get m k = Some w →
  elements (put c k v) = Some (om_put m k v) ∧ len (put c k v) = Size c - 1
  ∧ (get (put c k v) kv.1).1 = (go_zero, false).
Proof.
  intros Hinv Hm Hfull Hk. assert (om_wf (kv :: m)) as Hwf.
  { destruct Hinv as [Hwf _]. unfold lru_wf in Hwf. by rewrite Hm in Hwf. }
  assert (lru_inv (put c k v)) as Hinv' by apply put_establishes, Hinv.
  unfold get. rewrite (resize_inv _ Hinv').
  rewrite put_inv_spec by done. rewrite Hm. change (default [] (Some (kv :: m))) with (kv :: m). rewrite Hfull, Z.eqb_refl. simpl.
  pose proof (tail_wf _ Hwf) as Hwf'. simpl in Hwf'.
  split_and!; [done|..].
  - unfold len. simpl. unfold om_put, om_len in *. rewrite length_app. simpl in *.
    pose proof (om_len_delete m k w Hwf' Hk) as Hd. unfold om_len in Hd. lia.
  - assert (kv.1 ∉ m.*1) as Hn by (unfold om_wf in Hwf; rewrite fmap_cons in Hwf; by apply NoDup_cons in Hwf as [? _]).
    rewrite om_get_put by done. rewrite decide_False.
    + apply om_get_None in Hn. by rewrite Hn.
    + intros E. rewrite <- E in Hk. apply om_get_None in Hn. congruence.
Qed.

End lru.
End LRU.

(** ** The cache bounded by the sum of the sizes *)

Module SizedLRU.
Section sized.
Context {K V : Type} `{EqDecision K} `{GoZero K} `{GoZero V}.
(** The size function of the cache. *)
Context (size : K → V → Z).

Record sizedLRU := mkSized { s_elements : ordmap K V; maxSize : Z; currentSize : Z }.

Implicit Types (c : sizedLRU) (m : ordmap K V).

Definition NewSizedLRU (max : Z) : sizedLRU := mkSized [] max 0.

Definition s_flush c : sizedLRU := mkSized [] (maxSize c) 0.

(** [for c.currentSize > bound] of [put]; [None] when the fuel does not suffice. *)
Fixpoint evict_loop (fuel : nat) m (current bound : Z) : option (ordmap K V * Z) :=
  if bound <? current then
    match fuel with
    | O => None
    | S fuel =>
        let '(oldestKey, oldestValue) :=
          match om_oldest m with Some kv => kv | None => (go_zero, go_zero) end in
        evict_loop fuel (om_delete m oldestKey) (current - size oldestKey oldestValue) bound
    end
  else Some (m, current).

Definition s_put c (key : K) (value : V) : option sizedLRU :=
  let newEntrySize := size key value in
  if maxSize c <? newEntrySize then Some (s_flush c)
  else
    let current :=
      match om_get (s_elements c) key with
      | Some oldValue => currentSize c - size key oldValue
      | None => currentSize c
      end in
    '(m, current) ← evict_loop (length (s_elements c)) (s_elements c) current (maxSize c - newEntrySize);
    Some (mkSized (om_put m key value) (maxSize c) (current + newEntrySize)).

Definition s_get c (key : K) : V * bool * sizedLRU :=
  match om_get (s_elements c) key with
  | Some value => (value, true, mkSized (om_put (s_elements c) key value) (maxSize c) (currentSize c))
  | None => (go_zero, false, c)
  end.

Definition s_evict c (key : K) : sizedLRU :=
  match om_get (s_elements c) key with
  | Some value => mkSized (om_delete (s_elements c) key) (maxSize c) (currentSize c - size key value)
  | None => c
  end.

Definition s_len c : Z := om_len (s_elements c).

(** ** Its invariant *)

Definition total m : Z := foldr (λ kv acc, size kv.1 kv.2 + acc) 0 m.

Definition sized_inv c : Prop :=
  om_wf (s_elements c) ∧ currentSize c = total (s_elements c) ∧ currentSize c ≤ maxSize c ∧ 0 ≤ maxSize c.

(** Sizes are not negative. *)
Context (size_nonneg : ∀ k v, 0 ≤ size k v).

Lemma total_app m1 m2 : total (m1 ++ m2) = total m1 + total m2.
Proof. induction m1 as [|kv m1 IH]; simpl; [done|]. rewrite IH. lia. Qed.

Lemma total_nonneg m : 0 ≤ total m.
Proof. induction m as [|kv m IH]; simpl; [lia|]. pose proof (size_nonneg kv.1 kv.2). lia. Qed.

Lemma total_delete m k v : om_wf m → om_get m k = Some v → total (om_delete m k) = total m - size k v.
Proof.
  intros Hwf Hg. apply om_get_Some in Hg as Hin; [|done].
  apply list_elem_of_split in Hin as (m1 & m2 & ->). rewrite om_delete_split by done.
  rewrite !total_app. simpl. lia.
Qed.

(** The loop removes a prefix: as many of the oldest entries as are needed.  [d] is what
    the accounted size is below the total. *)
Lemma evict_loop_spec fuel m current bound d :
  om_wf m → current = total m - d → 0 ≤ d → 0 ≤ bound → (length m ≤ fuel)%nat →
  ∃ n, evict_loop fuel m current bound = Some (drop n m, total (drop n m) - d)
    ∧ total (drop n m) - d ≤ bound
    ∧ (∀ n', (n' < n)%nat → bound < total (drop n' m) - d).
Proof.
  revert m current. induction fuel as [|fuel IH]; intros m current Hwf Hc Hd Hb Hf.
  - destruct m; [|simpl in Hf; lia]. exists 0%nat. simpl in *. subst.
    destruct (Z.ltb_spec bound (0 - d)); [lia|]. split_and!; [done|lia|lia].
  - cbn [evict_loop]. destruct (Z.ltb_spec bound current) as [Hlt|Hge].
    + destruct m as [|[k v] m]; [simpl in Hc; lia|].
      change (om_oldest ((k, v) :: m)) with (Some (k, v)). cbv beta iota.
      replace (om_delete ((k, v) :: m) k) with m by (symmetry; by apply (om_delete_split [] k v m)).
      destruct (IH m (current - size k v)) as (n & -> & Hn & Hmin); [..|lia|lia|simpl in Hf; lia|].
      { unfold om_wf in *. rewrite fmap_cons in Hwf. by apply NoDup_cons in Hwf as [_ ?]. }
      { simpl in Hc. lia. }
      exists (S n). split; [done|]. split; [done|]. intros [|n'] Hn'; simpl; [simpl in Hc; lia|].
      apply Hmin. lia.
    + exists 0%nat. rewrite drop_0. split_and!; [by rewrite Hc|lia|lia].
Qed.

Lemma s_drop_wf n m : om_wf m → om_wf (drop n m).
Proof.
  unfold om_wf. intros Hm. rewrite fmap_drop. eapply sublist_NoDup; [exact Hm|apply sublist_drop].
Qed.

Lemma drop_keys n m k : k ∉ m.*1 → k ∉ (drop n m).*1.
Proof.
  rewrite fmap_drop. intros Hk Hin. apply Hk. rewrite <- (take_drop n m.*1). apply elem_of_app. by right.
Qed.

Lemma s_get_put m k v max cur : om_wf m → (s_get (mkSized (om_put m k v) max cur) k).1 = (v, true).
Proof. intros Hwf. unfold s_get. simpl. by rewrite om_get_put, decide_True. Qed.

(** Accounting of the sized cache.  Putting a key that is not in the cache, or
    replacing a value by one that is not larger, terminates and keeps the invariant: the
    accounted size is the sum of the sizes and is within the bound.  The entries that are
    evicted are the oldest ones, no more than needed, the new entry is found, and an entry
    larger than the cache empties it. *)
Theorem sized_put_correct c k v :
  sized_inv c →
  (∀ old, om_get (s_elements c) k = Some old → size k v ≤ size k old) →
  ∃ c', s_put c k v = Some c' ∧ sized_inv c' ∧ maxSize c' = maxSize c
    ∧ (maxSize c < size k v → s_elements c' = [])
    ∧ (size k v ≤ maxSize c → (s_get c' k).1 = (v, true)
       ∧ ∃ n, s_elements c' = om_put (drop n (s_elements c)) k v
         ∧ ∀ n', (n' < n)%nat → maxSize c < total (drop n' (s_elements c)) + size k v).
Proof.
  intros (Hwf & Hcur & Hle & Hmax) Hold. unfold s_put.
  destruct (Z.ltb_spec (maxSize c) (size k v)) as [Hbig|Hfit].
  { exists (s_flush c). split; [done|]. split; [|split; [done|split; [done|lia]]].
    split_and!; [constructor|done|simpl; lia|done]. }
  pose proof (size_nonneg k v) as Hv. destruct (om_get (s_elements c) k) as [old|] eqn:G.
  - (* nothing has to be evicted *)
    specialize (Hold old eq_refl). destruct (s_elements c) as [|kv m0] eqn:E; [done|]. rewrite <- E in *.
    assert (evict_loop (length (s_elements c)) (s_elements c) (currentSize c - size k old)
              (maxSize c - size k v) = Some (s_elements c, currentSize c - size k old)) as ->.
    { rewrite E at 1. cbn [length evict_loop].
      destruct (Z.ltb_spec (maxSize c - size k v) (currentSize c - size k old)); [lia|done]. }
    simpl. eexists. split; [done|]. split; [|split; [done|split; [lia|]]].
    + split_and!; simpl; [by apply om_put_wf| |lia|done].
      unfold om_put. rewrite total_app, (total_delete _ _ old) by done. simpl. lia.
    + intros _. split; [by apply s_get_put|]. exists 0%nat. rewrite drop_0. split; [done|lia].
  - destruct (evict_loop_spec (length (s_elements c)) (s_elements c) (currentSize c)
      (maxSize c - size k v) 0) as (n & -> & Hn & Hmin); [done|lia|lia|lia|lia|].
    apply om_get_None in G. simpl. eexists. split; [done|]. split; [|split; [done|split; [lia|]]].
    + split_and!; simpl; [by apply om_put_wf, s_drop_wf| |lia|done].
      unfold om_put. rewrite om_delete_absent by by apply drop_keys. rewrite total_app. simpl. lia.
    + intros _. split; [by apply s_get_put, s_drop_wf|]. exists n. split; [done|].
      intros n' Hn'. specialize (Hmin n' Hn'). lia.
Qed.

(** [get] and [evict] of the sized cache keep the invariant; [get] returns the stored
    value and only refreshes it, and an evicted key is gone. *)
Theorem sized_get_evict_correct c k :
  sized_inv c →
  sized_inv (s_get c k).2 ∧ sized_inv (s_evict c k) ∧ sized_inv (s_flush c)
  ∧ (s_get c k).1 = match om_get (s_elements c) k with Some v => (v, true) | None => (go_zero, false) end
  ∧ (∀ k', om_get (s_elements (s_get c k).2) k' = om_get (s_elements c) k')
  ∧ (∀ k', om_get (s_elements (s_evict c k)) k'
           = if decide (k' = k) then None else om_get (s_elements c) k').
Proof.
  intros (Hwf & Hcur & Hle & Hmax). unfold s_get, s_evict.
  assert (sized_inv (s_flush c)) as Hfl by (split_and!; [constructor|done..]).
  destruct (om_get (s_elements c) k) as [v|] eqn:G; simpl.
  - pose proof (size_nonneg k v). split; [|split; [|split; [done|split; [done|split]]]].
    + split_and!; simpl; [by apply om_put_wf| |done..].
      unfold om_put. rewrite total_app, (total_delete _ _ v) by done. simpl. lia.
    + split_and!; simpl; [by apply om_delete_wf| |lia|done]. rewrite (total_delete _ _ v) by done. lia.
    + intros k'. rewrite om_get_put by done. case_decide; congruence.
    + intros k'. by rewrite om_get_delete.
  - split; [done|]. split; [done|]. split; [done|]. split; [done|]. split; [done|].
    intros k'. case_decide; congruence.
Qed.

(** C29. Replacing the value of the oldest key of a full cache by a larger one breaks the
    bound: [put] subtracts the old size, evicts the old entry of the same key to make
    room, subtracts its size a second time, and then accounts less than what the cache
    holds, which is more than [maxSize]. *)
Theorem sized_put_double_count c k old v m :
  sized_inv c → s_elements c = (k, old) :: m → currentSize c = maxSize c →
  size k old < size k v → size k v ≤ maxSize c → size k v ≤ 2 * size k old →
  ∃ c', s_put c k v = Some c'
    ∧ total (s_elements c') = maxSize c + (size k v - size k old)
    ∧ currentSize c' = total (s_elements c') - size k old.
Proof.
  intros (Hwf & Hcur & _ & _) E Hfull Hgrow Hfit H2. unfold s_put.
  destruct (Z.ltb_spec (maxSize c) (size k v)) as [?|_]; [lia|].
  rewrite E in *. assert (om_get ((k, old) :: m) k = Some old) as ->
    by (apply om_get_Some; [done|by left]).
  simpl in Hcur. pose proof (total_nonneg m) as Hm.
  assert (k ∉ m.*1) as Hk by (unfold om_wf in Hwf; rewrite fmap_cons in Hwf; by apply NoDup_cons in Hwf as [? _]).
  cbn [length evict_loop]. destruct (Z.ltb_spec (maxSize c - size k v) (currentSize c - size k old)); [|lia].
  change (om_oldest ((k, old) :: m)) with (Some (k, old)). cbv beta iota.
  replace (om_delete ((k, old) :: m) k) with m by (symmetry; by apply (om_delete_split [] k old m)).
  assert (evict_loop (length m) m (currentSize c - size k old - size k old) (maxSize c - size k v)
          = Some (m, currentSize c - size k old - size k old)) as ->.
  { destruct m as [|kv m']; cbn [length evict_loop];
      destruct (Z.ltb_spec (maxSize c - size k v) (currentSize c - size k old - size k old)); (done || lia). }
  simpl. eexists. split; [done|]. simpl. unfold om_put. rewrite om_delete_absent by done.
  rewrite total_app. simpl. lia.
Qed.

End sized.
End SizedLRU.

(** ** Sample caches *)

#[local] Instance sample_zero : GoZero Z := 0.

Definition sample_lru : LRU.LRU (K := Z) (V := Z) := LRU.mkLRU (Some [(1, 10); (2, 20)]) 2.

Lemma sample_lru_inv : LRU.lru_inv sample_lru.
Proof.
  split; [apply (bool_decide_unpack _); vm_compute; exact I|]. unfold LRU.len, om_len. simpl. lia.
Qed.

Lemma lru_bounded_witness : (LRU.get (LRU.put sample_lru 3 30) 3).1 = (30, true).
Proof. apply (LRU.lru_bounded sample_lru 3 30). apply sample_lru_inv. Defined.

Lemma lru_keeps_recent_witness :
  (LRU.get (foldl LRU.run (LRU.put (LRU.mkLRU None 3) 1 10)
              [LRU.OpPut 2 20; LRU.OpPut 2 21; LRU.OpGet 2; LRU.OpEvict 2; LRU.OpPut 2 22]) 1).1 = (10, true).
Proof.
  apply (LRU.lru_keeps_recent (LRU.mkLRU None 3) 1 10 [2]).
  - constructor.
  - apply (bool_decide_unpack _). vm_compute. exact I.
  - vm_compute. discriminate.
  - repeat constructor.
Defined.

Lemma lru_put_existing_evicts_witness :
  LRU.elements (LRU.put sample_lru 2 21) = Some [(2, 21)].
Proof.
  destruct (LRU.lru_put_existing_evicts sample_lru 2 21 20 (1, 10) [(2, 20)] sample_lru_inv) as [H _].
  - reflexivity.
  - reflexivity.
  - vm_compute. reflexivity.
  - rewrite H. vm_compute. reflexivity.
Defined.

(** Values are their own sizes. *)
Definition sample_size (_ v : Z) : Z := Z.abs v.
Definition sample_sized : SizedLRU.sizedLRU (K := Z) (V := Z) := SizedLRU.mkSized [(1, 5); (2, 5)] 10 10.

Lemma sample_size_nonneg k v : 0 ≤ sample_size k v.
Proof. apply Z.abs_nonneg. Qed.

Lemma sample_sized_inv : SizedLRU.sized_inv sample_size sample_sized.
Proof.
  split_and!; [apply (bool_decide_unpack _); vm_compute; exact I|reflexivity|simpl; lia|simpl; lia].
Qed.

Lemma sized_put_correct_witness :
  ∃ c', SizedLRU.s_put sample_size sample_sized 3 6 = Some c' ∧ SizedLRU.sized_inv sample_size c'.
Proof.
  destruct (SizedLRU.sized_put_correct sample_size sample_size_nonneg sample_sized 3 6 sample_sized_inv)
    as (c' & H1 & H2 & _); [discriminate|]. exists c'. split; [exact H1|exact H2].
Defined.

Lemma sized_get_evict_correct_witness :
  SizedLRU.sized_inv sample_size (SizedLRU.s_evict sample_size sample_sized 1).
Proof.
  apply (SizedLRU.sized_get_evict_correct sample_size sample_size_nonneg sample_sized 1 sample_sized_inv).
Defined.

Lemma sized_put_double_count_witness :
  ∃ c', SizedLRU.s_put sample_size sample_sized 1 6 = Some c'
    ∧ SizedLRU.total sample_size (SizedLRU.s_elements c') = 11.
Proof.
  destruct (SizedLRU.sized_put_double_count sample_size sample_size_nonneg sample_sized 1 5 6 [(2, 5)]
    sample_sized_inv) as (c' & H1 & H2 & _).
  - reflexivity.
  - reflexivity.
  - vm_compute. reflexivity.
  - vm_compute. discriminate.
  - vm_compute. discriminate.
  - exists c'. split; [exact H1|exact H2].
Defined.
