(* ===== verification/Poll.v ===== *)
(** * Network polls

    Models [snow/consensus/snowman/poll]: a poll that terminates early
    ([early_term_no_traversal.go]) and the set of outstanding polls ([set.go]), which
    hands out finished polls in the order in which they were started.

    The set keeps its polls in the ordered map of [Hashmap]; a vote mutates a poll in
    place, which does not change its position.  Logging and the duration metric are not
    modelled; the gauge [numPolls] is. *)

From S2P Require Import Prelude Ids Bag Hashmap.

Open Scope Z_scope.

(** [type NodeID [20]byte] *)
Notation NodeID := (list Z).

(** ** One poll *)

Record poll := mkPoll {
  votes : Bag ID;
  polled : Bag NodeID;
  alphaPreference : Z;
  alphaConfidence : Z;
}.

(** The factory holds the two thresholds. *)
Record factory := mkFactory { f_alphaPreference : Z; f_alphaConfidence : Z }.

Definition NewEarlyTermNoTraversalFactory (aP aC : Z) : factory := mkFactory aP aC.

Definition factory_New (f : factory) (vdrs : Bag NodeID) : poll :=
  mkPoll empty_bag vdrs (f_alphaPreference f) (f_alphaConfidence f).

Definition poll_Vote (p : poll) (vdr : NodeID) (vote : ID) : poll :=
  let count := Count (polled p) vdr in
  mkPoll (AddCount (votes p) vote count) (Remove (polled p) vdr) (alphaPreference p) (alphaConfidence p).

Definition poll_Drop (p : poll) (vdr : NodeID) : poll :=
  mkPoll (votes p) (Remove (polled p) vdr) (alphaPreference p) (alphaConfidence p).

(** The frequency of the mode does not depend on the iteration order
    ([Bag.Mode_iter_freq]). *)
Definition Finished (p : poll) : bool :=
  let remaining := Len (polled p) in
  if remaining =? 0 then true
  else
    let received := Len (votes p) in
    let maxPossibleVotes := received + remaining in
    if maxPossibleVotes <? alphaPreference p then true
    else
      let freq := (Mode (votes p)).2 in
      ((alphaPreference p <=? freq) && (maxPossibleVotes <? alphaConfidence p))
      || (alphaConfidence p <=? freq).

Definition Result (p : poll) : Bag ID := votes p.

(** ** The set of polls *)

Record set := mkSet {
  s_factory : factory;
  polls : ordmap Z poll;
  numPolls : Z;
}.

Definition NewSet (f : factory) : set := mkSet f [] 0.

(** The poll of a request is mutated through its pointer. *)
Definition update_poll (m : ordmap Z poll) (requestID : Z) (p : poll) : ordmap Z poll :=
  (λ kv, if bool_decide (kv.1 = requestID) then (requestID, p) else kv) <$> m.

Definition set_Add (s : set) (requestID : Z) (vdrs : Bag NodeID) : bool * set :=
  match om_get (polls s) requestID with
  | Some _ => (false, s)
  | None =>
      (true, mkSet (s_factory s) (om_put (polls s) requestID (factory_New (s_factory s) vdrs))
               (numPolls s + 1))
  end.

(** The loop of [processFinishedPolls], over the polls from the oldest to the newest. *)
Fixpoint process_loop (pending m : ordmap Z poll) (gauge : Z) : list (Bag ID) * ordmap Z poll * Z :=
  match pending with
  | [] => ([], m, gauge)
  | (requestID, p) :: pending =>
      if negb (Finished p) then ([], m, gauge)
      else
        let '(results, m, gauge) := process_loop pending (om_delete m requestID) (gauge - 1) in
        (Result p :: results, m, gauge)
  end.

Definition processFinishedPolls (s : set) : list (Bag ID) * set :=
  let '(results, m, gauge) := process_loop (polls s) (polls s) (numPolls s) in
  (results, mkSet (s_factory s) m gauge).

Definition set_Vote (s : set) (requestID : Z) (vdr : NodeID) (vote : ID) : list (Bag ID) * set :=
  match om_get (polls s) requestID with
  | None => ([], s)
  | Some p =>
      let p := poll_Vote p vdr vote in
      let s := mkSet (s_factory s) (update_poll (polls s) requestID p) (numPolls s) in
      if negb (Finished p) then ([], s) else processFinishedPolls s
  end.

Definition set_Drop (s : set) (requestID : Z) (vdr : NodeID) : list (Bag ID) * set :=
  match om_get (polls s) requestID with
  | None => ([], s)
  | Some p =>
      let p := poll_Drop p vdr in
      let s := mkSet (s_factory s) (update_poll (polls s) requestID p) (numPolls s) in
      if negb (Finished p) then ([], s) else processFinishedPolls s
  end.

Definition set_Len (s : set) : Z := om_len (polls s).

(** ** Properties of one poll *)

Definition poll_wf (p : poll) : Prop := wf_bag (votes p) ∧ wf_bag (polled p).

Inductive response := RVote (vdr : NodeID) (vote : ID) | RDrop (vdr : NodeID).

Definition respond (p : poll) (r : response) : poll :=
  match r with RVote v x => poll_Vote p v x | RDrop v => poll_Drop p v end.

Definition responds (p : poll) (rs : list response) : poll := foldl respond p rs.

Lemma Len_Remove `{Countable T} (b : Bag T) elt : Len (Remove b elt) = Len b - Count b elt.
Proof. done. Qed.

Lemma respond_wf p r : poll_wf p → poll_wf (respond p r).
Proof. intros [Hv Hp]. destruct r; split; simpl; auto with ava. Qed.

(** One response: votes grow, the votes that are still possible do not. *)
Lemma respond_monotone p r :
  poll_wf p →
  let p' := respond p r in
  alphaPreference p' = alphaPreference p ∧ alphaConfidence p' = alphaConfidence p
  ∧ (∀ x, Count (votes p) x ≤ Count (votes p') x)
  ∧ Len (votes p) ≤ Len (votes p') ∧ Len (polled p') ≤ Len (polled p)
  ∧ Len (votes p') + Len (polled p') ≤ Len (votes p) + Len (polled p).
Proof.
  intros [Hv Hp]. destruct r as [v x|v]; unfold respond, poll_Vote, poll_Drop;
    cbn [votes polled alphaPreference alphaConfidence].
  - pose proof (Count_nonneg (polled p) v Hp) as Hc.
    rewrite Len_Remove, Len_AddCount by done. split_and!; try done; try lia.
    intros y. rewrite Count_AddCount by done. case_decide; lia.
  - pose proof (Count_nonneg (polled p) v Hp) as Hc. rewrite Len_Remove. split_and!; try done; lia.
Qed.

Lemma responds_monotone p rs :
  poll_wf p →
  let p' := responds p rs in
  poll_wf p' ∧ alphaPreference p' = alphaPreference p ∧ alphaConfidence p' = alphaConfidence p
  ∧ (∀ x, Count (votes p) x ≤ Count (votes p') x)
  ∧ Len (votes p) ≤ Len (votes p') ∧ Len (polled p') ≤ Len (polled p)
  ∧ Len (votes p') + Len (polled p') ≤ Len (votes p) + Len (polled p).
Proof.
  revert p. induction rs as [|r rs IH]; intros p Hwf; simpl.
  - split_and!; try done; lia.
  - destruct (respond_monotone p r Hwf) as (A1 & A2 & A3 & A4 & A5 & A6).
    destruct (IH (respond p r) (respond_wf p r Hwf)) as (B0 & B1 & B2 & B3 & B4 & B5 & B6).
    unfold responds in *. simpl. split_and!; try done; try congruence; try lia.
    intros x. specialize (A3 x). specialize (B3 x). lia.
Qed.

(** The votes for a set of blocks, as transitive voting counts them. *)
Definition votes_for (p : poll) (f : ID → bool) : Z := Len (Filter (votes p) f).

Lemma Len_Filter_Count (b : Bag ID) f x : wf_bag b → f x = true → Count b x ≤ Len (Filter b f).
Proof.
  intros Hwf Hf. pose proof (Count_le_Len (Filter b f) x (wf_Filter b f)) as H.
  by rewrite Count_Filter, Hf in H.
Qed.

Lemma Len_Filter_avoid (b : Bag ID) f x : wf_bag b → f x = false → Len (Filter b f) + Count b x ≤ Len b.
Proof.
  intros Hwf Hf. pose proof (Len_Split b f Hwf) as Hs. rewrite Split_Filter in Hs. simpl in Hs.
  pose proof (Len_Filter_Count b (λ y, negb (f y)) x Hwf) as Hc. simpl in Hc. rewrite Hf in Hc.
  specialize (Hc eq_refl). lia.
Qed.


Lemma Len_mono (b b' : Bag ID) :
  wf_bag b → wf_bag b' → (∀ x, Count b x ≤ Count b' x) → Len b ≤ Len b'.
Proof.
  intros Hb Hb' Hle. unfold Len. rewrite (proj2 Hb), (proj2 Hb').
  apply map_sum_mono; [by apply wf_counts_nonneg..|exact Hle].
Qed.

Lemma votes_for_mono p p' f :
  poll_wf p → poll_wf p' → (∀ x, Count (votes p) x ≤ Count (votes p') x) → votes_for p f ≤ votes_for p' f.
Proof.
  intros [Hv _] [Hv' _] Hle. apply Len_mono; [apply wf_Filter..|]. intros x.
  rewrite !Count_Filter by done. destruct (f x); [done|lia].
Qed.

Lemma votes_for_split p f : wf_bag (votes p) → votes_for p (λ x, negb (f x)) + votes_for p f = Len (votes p).
Proof. intros Hwf. pose proof (Len_Split (votes p) f Hwf) as Hs. by rewrite Split_Filter in Hs. Qed.

(** Why a poll is finished. *)
Lemma Finished_cases p :
  poll_wf p → Finished p = true →
  Len (polled p) = 0
  ∨ Len (votes p) + Len (polled p) < alphaPreference p
  ∨ (∃ x, alphaPreference p ≤ Count (votes p) x ∧ 0 < Count (votes p) x
          ∧ Len (votes p) + Len (polled p) < alphaConfidence p)
  ∨ (∃ x, alphaConfidence p ≤ Count (votes p) x ∧ 0 < Count (votes p) x)
  ∨ alphaPreference p ≤ 0 ∨ alphaConfidence p ≤ 0.
Proof.
  intros [Hv _]. unfold Finished.
  destruct (Mode_iter_spec (votes p) (map_to_list (counts (votes p))) Hv (iteration_self _)) as (_ & H0 & Hx).
  fold (Mode (votes p)) in *. destruct (Mode (votes p)) as [x freq]. simpl in *.
  destruct (Z.eqb_spec (Len (polled p)) 0); [tauto|].
  destruct (Z.ltb_spec (Len (votes p) + Len (polled p)) (alphaPreference p)); [tauto|].
  intros Hor. destruct (decide (0 < freq)) as [Hpos|Hz].
  - specialize (Hx Hpos). apply orb_true_iff in Hor as [Hor|Hor]; bool_to_prop.
    + right; right; left. exists x. lia.
    + right; right; right; left. exists x. lia.
  - apply orb_true_iff in Hor as [Hor|Hor]; bool_to_prop; lia.
Qed.

(** C26. Early termination is sound.  When the thresholds are an absolute majority of the
    at most [K] votes of the poll, a finished poll has its result: whatever the validators
    that did not answer yet would say, for every set of blocks (such as the descendants of
    a block, whose votes count for it) the two thresholds are reached by the present votes
    exactly when they are reached by the final ones. *)
Theorem early_termination_sound p K rs f :
  poll_wf p → Len (votes p) + Len (polled p) ≤ K →
  K < 2 * alphaPreference p → alphaPreference p ≤ alphaConfidence p → 0 < alphaPreference p →
  Finished p = true →
  let p' := responds p rs in
  (alphaPreference p ≤ votes_for p f ↔ alphaPreference p ≤ votes_for p' f)
  ∧ (alphaConfidence p ≤ votes_for p f ↔ alphaConfidence p ≤ votes_for p' f).
Proof.
  intros Hwf HK Hmaj Hle Hpos Hfin p'.
  destruct (responds_monotone p rs Hwf) as (Hwf' & _ & _ & Hcount & HlenV & HlenP & Hmax).
  fold p' in Hwf', Hcount, HlenV, HlenP, Hmax.
  pose proof (votes_for_mono p p' f Hwf Hwf' Hcount) as Hmono.
  pose proof (Len_Filter_le (votes p') f (proj1 Hwf')) as Hf'. fold (votes_for p' f) in Hf'.
  pose proof (Len_nonneg (polled p') (proj2 Hwf')) as Hp'.
  assert (∀ x t, t ≤ Count (votes p) x → f x = true → t ≤ votes_for p f) as Hin.
  { intros x t Ht Hx. pose proof (Len_Filter_Count (votes p) f x (proj1 Hwf) Hx).
    unfold votes_for. lia. }
  assert (∀ x t, t ≤ Count (votes p) x → f x = false → votes_for p' f + t ≤ K) as Hout.
  { intros x t Ht Hx. pose proof (Len_Filter_avoid (votes p') f x (proj1 Hwf') Hx).
    specialize (Hcount x). unfold votes_for. lia. }
  destruct (Finished_cases p Hwf Hfin) as [Hno|[Hlow|[(x & Hx & _ & Hc)|[(x & Hx & _)|Hz]]]]; [..|lia].
  - pose proof (votes_for_mono p p' (λ x, negb (f x)) Hwf Hwf' Hcount) as Hmono'.
    pose proof (votes_for_split p f (proj1 Hwf)). pose proof (votes_for_split p' f (proj1 Hwf')). lia.
  - lia.
  - destruct (f x) eqn:Hfx; [specialize (Hin x _ Hx Hfx)|specialize (Hout x _ Hx Hfx)]; lia.
  - destruct (f x) eqn:Hfx; [specialize (Hin x _ Hx Hfx)|specialize (Hout x _ Hx Hfx)]; lia.
Qed.

(** A validator is counted once, with the number of times it was sampled: its first
    response moves all its outstanding votes to its choice, and any later vote or drop of
    the same validator changes nothing.  Dropped votes are never counted. *)
Theorem validator_counted_once p vdr x r :
  poll_wf p → r = RDrop vdr ∨ (∃ y, r = RVote vdr y) →
  let p' := poll_Vote p vdr x in
  Len (votes p') = Len (votes p) + Count (polled p) vdr
  ∧ Len (polled p') = Len (polled p) - Count (polled p) vdr
  ∧ Count (polled p') vdr = 0
  ∧ votes (respond p' r) = votes p' ∧ Len (polled (respond p' r)) = Len (polled p')
  ∧ (∀ y, votes (poll_Vote (poll_Drop p vdr) vdr y) = votes p).
Proof.
  intros [Hv Hp] Hr p'. pose proof (Count_nonneg (polled p) vdr Hp) as Hc.
  assert (∀ b : Bag NodeID, Count (Remove b vdr) vdr = 0) as Hgone.
  { intros b. unfold Count. simpl. by rewrite lookup_delete_eq. }
  assert (∀ (b : Bag ID) y, AddCount b y 0 = b) as Hadd0 by done.
  unfold p', poll_Vote, poll_Drop. cbn [votes polled]. rewrite Len_AddCount, Len_Remove, !Hgone by done.
  split_and!; [done..| | |].
  - destruct Hr as [-> | [y ->]]; simpl; [done|]. rewrite !Hgone. apply Hadd0.
  - destruct Hr as [-> | [y ->]]; unfold respond, poll_Vote, poll_Drop; cbn [votes polled];
      rewrite !Len_Remove, Hgone; lia.
  - intros y. apply Hadd0.
Qed.

Lemma respond_lookup p r v :
  counts (polled p) !! v = None → counts (polled (respond p r)) !! v = None.
Proof. intros Hn. destruct r; simpl; rewrite lookup_delete; by case_decide. Qed.

Lemma responds_lookup p rs v :
  counts (polled p) !! v = None ∨ RDrop v ∈ rs ∨ (∃ x, RVote v x ∈ rs) →
  counts (polled (responds p rs)) !! v = None.
Proof.
  revert p. induction rs as [|r rs IH]; intros p Hc; unfold responds; simpl.
  - destruct Hc as [?|[[]%elem_of_nil|[? []%elem_of_nil]]]; done.
  - apply IH. destruct Hc as [Hn|[Hd|[x Hx]]].
    + left. by apply respond_lookup.
    + apply elem_of_cons in Hd as [<-|?]; [left; apply lookup_delete_eq|tauto].
    + apply elem_of_cons in Hx as [<-|?]; [left; apply lookup_delete_eq|eauto].
Qed.

(** Every poll terminates: once each polled validator has voted or was dropped, the
    poll is finished. *)
Theorem all_responses_finish p rs :
  poll_wf p →
  (∀ vdr, 0 < Count (polled p) vdr → RDrop vdr ∈ rs ∨ ∃ x, RVote vdr x ∈ rs) →
  Finished (responds p rs) = true.
Proof.
  intros Hwf Hall. unfold Finished.
  assert (counts (polled (responds p rs)) = ∅) as He.
  { apply map_empty. intros v. apply responds_lookup.
    destruct (counts (polled p) !! v) as [c|] eqn:E; [right|by left]. apply Hall.
    destruct Hwf as [_ [Hp _]]. specialize (Hp _ _ E). unfold Count. rewrite E. done. }
  destruct (responds_monotone p rs Hwf) as [[_ [_ Hs]] _].
  assert (Len (polled (responds p rs)) = 0) as ->; [|done].
  unfold Len. rewrite Hs, He. apply map_sum_empty.
Qed.

(** ** Properties of the set *)

Definition unfinished (kp : Z * poll) : bool := negb (Finished kp.2).

(** The loop takes the finished polls at the front. *)
Lemma process_loop_spec m gauge :
  om_wf m →
  process_loop m m gauge
  = (Result <$> (take_until unfinished m).*2, drop_until unfinished m,
     gauge - om_len m + om_len (drop_until unfinished m)).
Proof.
  revert gauge. induction m as [|[k p] m IH]; intros gauge Hwf; simpl.
  - f_equal. unfold om_len. simpl. lia.
  - unfold unfinished at 1 3 5. simpl. destruct (Finished p); simpl; [|do 2 f_equal; lia].
    rewrite (om_delete_split [] k p m Hwf : om_delete ((k, p) :: m) k = m).
    unfold om_wf in Hwf. rewrite fmap_cons in Hwf. apply NoDup_cons in Hwf as [_ Hwf].
    rewrite IH by done. do 2 f_equal. unfold om_len. simpl. lia.
Qed.

Lemma take_drop_until {A} (stop : A → bool) (l : list A) :
  l = take_until stop l ++ drop_until stop l ∧ Forall (λ x, stop x = false) (take_until stop l).
Proof.
  induction l as [|x l [IH1 IH2]]; simpl; [done|]. destruct (stop x) eqn:E; simpl; [done|].
  split; [congruence|by constructor].
Qed.

Lemma update_poll_keys m k p : (update_poll m k p).*1 = m.*1.
Proof.
  unfold update_poll. rewrite <- list_fmap_compose. apply list_fmap_ext. intros i [k' p'] _. simpl.
  by case_bool_decide.
Qed.

(** Operations of the set and what they return. *)
Inductive set_op :=
  | OAdd (requestID : Z) (vdrs : Bag NodeID)
  | OVote (requestID : Z) (vdr : NodeID) (vote : ID)
  | ODrop (requestID : Z) (vdr : NodeID).

Definition set_step (s : set) (o : set_op) : list (Bag ID) * set :=
  match o with
  | OAdd r vdrs => ([], (set_Add s r vdrs).2)
  | OVote r v x => set_Vote s r v x
  | ODrop r v => set_Drop s r v
  end.

Fixpoint set_run (s : set) (os : list set_op) : list (Bag ID) * set :=
  match os with
  | [] => ([], s)
  | o :: os =>
      let '(r1, s) := set_step s o in
      let '(r2, s) := set_run s os in
      (r1 ++ r2, s)
  end.

(** The requests that [Add] accepted, in order. *)
Fixpoint accepted (s : set) (os : list set_op) : list (Z * Bag NodeID) :=
  match os with
  | [] => []
  | o :: os =>
      match o with
      | OAdd r vdrs => if (set_Add s r vdrs).1 then [(r, vdrs)] else []
      | _ => []
      end ++ accepted (set_step s o).2 os
  end.

(** The poll of an accepted request: what the factory made, after some responses. *)
Definition poll_of (f : factory) (a : Z * Bag NodeID) (kp : Z * poll) : Prop :=
  kp.1 = a.1 ∧ ∃ rs, kp.2 = responds (factory_New f a.2) rs.

Definition set_ok (f : factory) (s : set) (pending : list (Z * Bag NodeID)) : Prop :=
  s_factory s = f ∧ om_wf (polls s) ∧ numPolls s = om_len (polls s)
  ∧ Forall2 (poll_of f) pending (polls s).

(** One response to the poll [requestID]. *)
Lemma update_poll_of f pending m k p r :
  om_wf m → om_get m k = Some p → Forall2 (poll_of f) pending m →
  Forall2 (poll_of f) pending (update_poll m k (respond p r)).
Proof.
  intros Hwf Hg Hall.
  assert (∀ kp, kp ∈ m → kp.1 = k → kp.2 = p) as Huniq.
  { intros [k' p'] Hin <-. simpl. apply om_get_Some in Hin; [|done]. simpl in Hg. congruence. }
  clear Hg Hwf. induction Hall as [|a [k' p'] pending m [Ha (rs & Hrs)] Hall IH]; simpl; constructor.
  - simpl in *. case_bool_decide as E; [|by split; eauto]. split; [simpl; congruence|].
    exists (rs ++ [r]). unfold responds. rewrite foldl_app. simpl.
    rewrite <- (Huniq (k', p')) by (done || by left). simpl. by rewrite Hrs.
  - apply IH. intros kp Hin. apply Huniq. by right.
Qed.

Lemma process_ok f s pending :
  set_ok f s pending →
  let '(results, s') := processFinishedPolls s in
  ∃ p1 p2 log, pending = p1 ++ p2 ∧ results = Result <$> log.*2 ∧ Forall2 (poll_of f) p1 log
    ∧ Forall (λ kp, Finished kp.2 = true) log ∧ set_ok f s' p2.
Proof.
  intros (Hf & Hwf & Hn & Hall). unfold processFinishedPolls. rewrite process_loop_spec by done.
  destruct (take_drop_until unfinished (polls s)) as [E Hfin].
  rewrite E in Hall. apply Forall2_app_inv_r in Hall as (p1 & p2 & H1 & H2 & ->).
  exists p1, p2, (take_until unfinished (polls s)). split_and!; try done.
  - eapply Forall_impl; [exact Hfin|]. intros kp Hk. unfold unfinished in Hk. by apply negb_false_iff.
  - split_and!; simpl; [done| |lia|done]. unfold om_wf in *. rewrite E, fmap_app in Hwf.
    by apply NoDup_app in Hwf as (_ & _ & ?).
Qed.

Lemma respond_ok f s pending k p r :
  set_ok f s pending → om_get (polls s) k = Some p →
  set_ok f (mkSet (s_factory s) (update_poll (polls s) k (respond p r)) (numPolls s)) pending.
Proof.
  intros (Hf & Hwf & Hn & Hall) Hg. split_and!; simpl; [done|..].
  - unfold om_wf. by rewrite update_poll_keys.
  - rewrite Hn. unfold om_len, update_poll. by rewrite length_fmap.
  - by apply update_poll_of.
Qed.

(** One operation: the polls it reports are the first pending ones. *)
Lemma set_step_ok f s pending o :
  set_ok f s pending →
  let new := match o with OAdd r vdrs => if (set_Add s r vdrs).1 then [(r, vdrs)] else [] | _ => [] end in
  let '(results, s') := set_step s o in
  ∃ p1 p2 log, pending ++ new = p1 ++ p2 ∧ results = Result <$> log.*2 ∧ Forall2 (poll_of f) p1 log
    ∧ Forall (λ kp, Finished kp.2 = true) log ∧ set_ok f s' p2.
Proof.
  intros Hok. assert (∀ s' p2, set_ok f s' p2 →
    ∃ p1' p2' log, p2 = p1' ++ p2' ∧ [] = Result <$> log.*2 ∧ Forall2 (poll_of f) p1' log
    ∧ Forall (λ kp : Z * poll, Finished kp.2 = true) log ∧ set_ok f s' p2') as Hnone.
  { intros s' p2 Hok'. exists [], p2, []. split_and!; try done; constructor. }
  destruct o as [r vdrs|r v x|r v]; simpl; rewrite ?app_nil_r.
  - unfold set_Add. destruct (om_get (polls s) r) as [p|] eqn:G; simpl; [rewrite app_nil_r; auto|].
    apply Hnone. destruct Hok as (Hf & Hwf & Hn & Hall). split_and!; simpl; [done|by apply om_put_wf|..].
    + unfold om_put, om_len in *. apply om_get_None in G. rewrite om_delete_absent by done.
      rewrite length_app. simpl. lia.
    + unfold om_put. apply om_get_None in G. rewrite om_delete_absent by done.
      apply Forall2_app; [done|]. constructor; [|constructor]. split; [done|]. exists []. by rewrite Hf.
  - unfold set_Vote. destruct (om_get (polls s) r) as [p|] eqn:G; [|auto].
    pose proof (respond_ok f s pending r p (RVote v x) Hok G) as Hok'. simpl in Hok'.
    destruct (Finished (poll_Vote p v x)); simpl; [by apply process_ok|auto].
  - unfold set_Drop. destruct (om_get (polls s) r) as [p|] eqn:G; [|auto].
    pose proof (respond_ok f s pending r p (RDrop v) Hok G) as Hok'. simpl in Hok'.
    destruct (Finished (poll_Drop p v)); simpl; [by apply process_ok|auto].
Qed.

Lemma set_run_ok f s pending os results s' :
  set_ok f s pending → set_run s os = (results, s') →
  ∃ p1 p2 log, pending ++ accepted s os = p1 ++ p2 ∧ results = Result <$> log.*2
    ∧ Forall2 (poll_of f) p1 log ∧ Forall (λ kp, Finished kp.2 = true) log ∧ set_ok f s' p2.
Proof.
  revert s pending results. induction os as [|o os IH]; intros s pending results Hok Hrun; simpl in *.
  - simplify_eq. rewrite app_nil_r. exists [], pending, []. split_and!; try done; constructor.
  - pose proof (set_step_ok f s pending o Hok) as Hstep. simpl in Hstep.
    destruct (set_step s o) as [r1 s1] eqn:E. destruct (set_run s1 os) as [r2 s2] eqn:E2. simplify_eq.
    destruct Hstep as (p1 & p2 & log & Hp & -> & Hl & Hf & Hok1).
    destruct (IH s1 p2 r2 Hok1 E2) as (q1 & q2 & log2 & Hq & -> & Hl2 & Hf2 & Hok2).
    exists (p1 ++ q1), q2, (log ++ log2). simpl. rewrite app_assoc, Hp, <- !app_assoc, Hq.
    split_and!; [done|by rewrite !fmap_app|by apply Forall2_app|by apply Forall_app|done].
Qed.

(** The set of polls reports in order.  Along every run the accepted requests are,
    in the order in which they were added, first the reported ones and then the pending
    ones: each request is reported at most once, a poll is never reported before an
    older one, every reported poll is finished, its result consists of the responses to a
    poll that the factory made for that request, and the gauge counts the pending
    polls. *)
Theorem polls_reported_in_order f os results s :
  set_run (NewSet f) os = (results, s) →
  ∃ reported pending log,
    accepted (NewSet f) os = reported ++ pending
    ∧ results = Result <$> log.*2 ∧ Forall2 (poll_of f) reported log
    ∧ Forall (λ kp, Finished kp.2 = true) log
    ∧ Forall2 (poll_of f) pending (polls s)
    ∧ NoDup (polls s).*1 ∧ numPolls s = set_Len s ∧ set_Len s = Z.of_nat (length pending).
Proof.
  intros Hrun. assert (set_ok f (NewSet f) []) as Hok by (split_and!; try done; constructor).
  destruct (set_run_ok f (NewSet f) [] os results s Hok Hrun) as (p1 & p2 & log & Hp & Hr & Hl & Hfin & Hok').
  destruct Hok' as (_ & Hwf & Hn & Hall). exists p1, p2, log. split_and!; try done.
  unfold set_Len, om_len. by rewrite (Forall2_length _ _ _ Hall).
Qed.

(** ** A sample run *)

Definition sample_node (n : Z) : NodeID := [n].
Definition sample_vdrs : Bag NodeID := Of [sample_node 1; sample_node 2; sample_node 3].
Definition sample_factory : factory := NewEarlyTermNoTraversalFactory 2 2.
Definition sample_poll : poll :=
  responds (factory_New sample_factory sample_vdrs)
    [RVote (sample_node 1) [7]; RVote (sample_node 2) [7]].
Definition sample_ops : list set_op :=
  [OAdd 1 sample_vdrs; OAdd 2 sample_vdrs;
   OVote 2 (sample_node 1) [7]; OVote 2 (sample_node 2) [7];
   OVote 1 (sample_node 1) [8]; OVote 1 (sample_node 2) [8]].

Lemma sample_poll_wf : poll_wf sample_poll.
Proof.
  apply responds_monotone. split; simpl; [apply wf_empty_bag|]. unfold sample_vdrs, Of, Add. simpl.
  auto with ava.
Qed.

Lemma early_termination_sound_witness :
  2 ≤ votes_for sample_poll (λ x, bool_decide (x = [7]))
  ↔ 2 ≤ votes_for (responds sample_poll [RVote (sample_node 3) [9]]) (λ x, bool_decide (x = [7])).
Proof.
  apply (early_termination_sound sample_poll 3 [RVote (sample_node 3) [9]]).
  - exact sample_poll_wf.
  - vm_compute. discriminate.
  - vm_compute. reflexivity.
  - vm_compute. discriminate.
  - vm_compute. reflexivity.
  - vm_compute. reflexivity.
Defined.

Lemma validator_counted_once_witness :
  votes (poll_Vote (poll_Vote sample_poll (sample_node 3) [7]) (sample_node 3) [9])
  = votes (poll_Vote sample_poll (sample_node 3) [7]).
Proof.
  apply (validator_counted_once sample_poll (sample_node 3) [7] (RVote (sample_node 3) [9])).
  - exact sample_poll_wf.
  - right. by exists [9].
Defined.

Lemma sample_vdrs_members v :
  0 < Count sample_vdrs v → v ∈ [sample_node 1; sample_node 2; sample_node 3].
Proof.
  unfold sample_vdrs, Of, Add. cbn [foldl]. rewrite !Count_AddCount by lia.
  unfold Count, empty_bag. cbn [counts]. rewrite lookup_empty. simpl.
  repeat case_decide; subst; (set_solver || lia).
Qed.

Lemma all_responses_finish_witness :
  Finished (responds (factory_New sample_factory sample_vdrs)
              [RDrop (sample_node 3); RVote (sample_node 1) [7]; RVote (sample_node 2) [8]]) = true.
Proof.
  apply all_responses_finish.
  - split; simpl; [apply wf_empty_bag|]. unfold sample_vdrs, Of, Add. simpl. auto with ava.
  - intros v Hv%sample_vdrs_members.
    repeat (apply elem_of_cons in Hv as [->|Hv]; [set_solver|]). by apply elem_of_nil in Hv.
Defined.

Lemma polls_reported_in_order_witness :
  ∃ log, (set_run (NewSet sample_factory) sample_ops).1 = Result <$> log
    ∧ length log = 2%nat ∧ numPolls (set_run (NewSet sample_factory) sample_ops).2 = 0.
Proof.
  destruct (set_run (NewSet sample_factory) sample_ops) as [results s] eqn:E.
  destruct (polls_reported_in_order sample_factory sample_ops results s E)
    as (rep & pend & log & _ & Hr & _).
  exists log.*2. split; [exact Hr|]. vm_compute in E. injection E as <- <-.
  split; [|reflexivity]. apply (f_equal length) in Hr. rewrite length_fmap in Hr. simpl in Hr. congruence.
Defined.
