(* ===== verification/Topological.v ===== *)
(** * The Snowman consensus engine

    Models [snow/consensus/snowman]: [topological.go], [snowman_block.go], the
    bookkeeping part of [metrics.go], and [snow/choices/status.go].  The engine keeps a
    tree of processing blocks under the last accepted block; every block with children
    has a snowball instance that decides among them.

    The state is explicit.  The VM is outside: a block is its identifier, parent and
    height; its status lives in the state, is set by [Accept] and [Reject] as their
    interface documents, and these calls (and the one to the block acceptor) fail as the
    parameters say.  [events] logs the calls that succeeded.  A Go map or set is iterated
    in an order that the oracles [iter_map] and [iter_set] choose, from a seed that is
    new for every iteration.  An operation is a function from the state to a result and
    the state it leaves, also when it fails; a [nil] dereference is the error [Panic],
    and a loop that needs more steps than its fuel is the error [OutOfFuel]. *)

From S2P Require Import Prelude Ids Bag Snowball SnowTree Hashmap.

Open Scope Z_scope.

(** ** [snow/choices/status.go] *)

Inductive Status := Unknown | Processing | Rejected | Accepted.

#[export] Instance Status_eq_dec : EqDecision Status.
Proof. solve_decision. Defined.

Definition Status_Decided (s : Status) : bool :=
  match s with
  | Rejected | Accepted => true
  | _ => false
  end.

Definition Status_Fetched (s : Status) : bool :=
  match s with
  | Processing => true
  | _ => Status_Decided s
  end.

(** ** The interface of a snowball instance, [snowball/consensus.go] *)

Class Consensus := {
  sbT : Type;
  sb_New : Parameters → ID → sbT;
  sb_Add : sbT → ID → sbT;
  sb_Preference : sbT → ID;
  sb_RecordPoll : sbT → Bag ID → sbT * bool;
  sb_RecordUnsuccessfulPoll : sbT → sbT;
  sb_Finalized : sbT → bool;
}.

(** What the engine relies on: the preference is one of the choices, only a poll changes
    it, and the choices of an instance are among those that were added to it. *)
Class ConsensusLaws (C : Consensus) := {
  sb_ok : sbT → Prop;
  sb_choices : sbT → list ID;
  sb_New_law params x : 1 ≤ Beta params → valid_ID x →
    sb_ok (sb_New params x) ∧ sb_choices (sb_New params x) = [x];
  sb_Add_law t x : sb_ok t → valid_ID x →
    sb_ok (sb_Add t x) ∧ sb_Preference (sb_Add t x) = sb_Preference t
    ∧ (∀ y, y ∈ sb_choices (sb_Add t x) → y = x ∨ y ∈ sb_choices t);
  sb_RecordPoll_law t votes : sb_ok t →
    sb_ok (sb_RecordPoll t votes).1
    ∧ (∀ y, y ∈ sb_choices (sb_RecordPoll t votes).1 → y ∈ sb_choices t);
  sb_RecordUnsuccessfulPoll_law t : sb_ok t →
    sb_ok (sb_RecordUnsuccessfulPoll t)
    ∧ sb_choices (sb_RecordUnsuccessfulPoll t) = sb_choices t;
  sb_Preference_law t : sb_ok t → sb_Preference t ∈ sb_choices t;
}.

(** The tree of snowball instances provides it. *)
#[export] Instance tree_consensus : Consensus := {
  sbT := Tree (F := snowballFactory);
  sb_New := NewTree;
  sb_Add := Tree_Add;
  sb_Preference := Tree_Preference;
  sb_RecordPoll := Tree_RecordPoll;
  sb_RecordUnsuccessfulPoll := Tree_RecordUnsuccessfulPoll;
  sb_Finalized := Tree_Finalized;
}.

#[export] Instance tree_consensus_laws : ConsensusLaws tree_consensus.
Proof.
  refine {| sb_ok := (wf_tree : @sbT tree_consensus → Prop);
            sb_choices := (λ t, SnowTree.leaves (SnowTree.t_node t)) : @sbT tree_consensus → list ID |}.
  - apply NewTree_wf.
  - intros t x Ht Hx. destruct (Tree_Add_spec t x Ht Hx) as (H1 & _ & H3). split_and!; [done| |].
    + by apply Tree_Add_preference.
    + intros y Hy. destruct (choices_after_added t (OpAdd x) _ y H3 Hy) as [?|Hin]; [by right|left].
      by apply list_elem_of_singleton in Hin.
  - intros t votes Ht. destruct (Tree_RecordPoll_spec t votes Ht) as (H1 & _ & H3). done.
  - intros t Ht. done.
  - intros t Ht. by apply (wf_root_leaves (t_params t)).
Defined.

Section consensus.
Context {C : Consensus}.

(** ** Data *)

Record Block := mkBlock { blk_ID : ID; blk_Parent : ID; blk_Height : Z }.

Record snowmanBlock := mkNode {
  blk : option Block;
  shouldFalter : bool;
  sb : option sbT;
  children : gmap ID Block;
}.

Record kahnNode := mkKahn { inDegree : Z; k_votes : Bag ID }.
Definition zero_kahn : kahnNode := mkKahn 0 empty_bag.

(** [metrics.go], without the times and the exported gauges that only copy a value. *)
Record metrics := mkMetrics {
  currentMaxVerifiedHeight : Z;
  processingBlocks : ordmap ID Z;
  numProcessing : Z;
  numFailedPolls : Z;
  numSuccessfulPolls : Z;
}.

Record Topological := mkTopological {
  ts_metrics : metrics;
  pollNumber : Z;
  params : Parameters;
  lastAcceptedID : ID;
  lastAcceptedHeight : Z;
  blocks : gmap ID snowmanBlock;
  preferredIDs : gset ID;
  preferredHeights : gmap Z ID;
  preference : ID;
  leaves : gset ID;
  kahnNodes : gmap ID kahnNode;
}.

Inductive event := EvAccept (b : Block) | EvReject (b : Block).

Inductive error :=
  | ErrParameters
  | ErrDuplicateAdd
  | ErrBlockAcceptor
  | ErrAccept
  | ErrReject
  | Panic
  | OutOfFuel.

(** The engine and its environment. *)
Record State := mkState {
  ts : Topological;
  statuses : gmap ID Status;
  events : list event;
  seed : nat;
}.

(** ** A state and error monad *)

Definition M (A : Type) : Type := State → result error A * State.

Definition ret {A} (a : A) : M A := λ st, (Ok a, st).
Definition fail {A} (e : error) : M A := λ st, (Err e, st).
Definition bind {A B} (m : M A) (k : A → M B) : M B := λ st,
  match m st with
  | (Ok a, st) => k a st
  | (Err e, st) => (Err e, st)
  end.
Definition get : M Topological := λ st, (Ok (ts st), st).
Definition modify (f : Topological → Topological) : M unit := λ st,
  (Ok tt, mkState (f (ts st)) (statuses st) (events st) (seed st)).
Definition some {A} (o : option A) : M A :=
  match o with Some a => ret a | None => fail Panic end.
End consensus.

(** [type votes]: the parent and the votes for its children. *)
Notation vote_entry := (ID * Bag ID)%type.

Declare Scope engine_scope.
Delimit Scope engine_scope with engine.
Notation "'let!' x ':=' m 'in' k" := (bind m (fun x => k))
  (at level 10, x name, m at level 100, k at level 200) : engine_scope.
Notation "'let!' ' p ':=' m 'in' k" := (bind m (fun x => match x with p => k end))
  (at level 10, p pattern, m at level 100, k at level 200) : engine_scope.
Notation "m ;; k" := (bind m (fun _ => k)) (at level 100, right associativity) : engine_scope.
Open Scope engine_scope.

Section engine.
Context {C : Consensus}.
(** Iteration orders of Go maps and sets. *)
Context (iter_map : ∀ A, nat → gmap ID A → list (ID * A)) (iter_set : nat → gset ID → list ID).
(** Which calls into the VM and to the block acceptor fail. *)
Context (acceptor_fails accept_fails reject_fails : ID → bool).

Arguments iter_map {A}.

(** ** Field updates *)

Definition set_metrics (f : metrics → metrics) (t : Topological) : Topological :=
  mkTopological (f (ts_metrics t)) (pollNumber t) (params t) (lastAcceptedID t) (lastAcceptedHeight t)
    (blocks t) (preferredIDs t) (preferredHeights t) (preference t) (leaves t) (kahnNodes t).
Definition set_pollNumber (f : Z → Z) (t : Topological) : Topological :=
  mkTopological (ts_metrics t) (f (pollNumber t)) (params t) (lastAcceptedID t) (lastAcceptedHeight t)
    (blocks t) (preferredIDs t) (preferredHeights t) (preference t) (leaves t) (kahnNodes t).
Definition set_lastAccepted (id : ID) (height : Z) (t : Topological) : Topological :=
  mkTopological (ts_metrics t) (pollNumber t) (params t) id height
    (blocks t) (preferredIDs t) (preferredHeights t) (preference t) (leaves t) (kahnNodes t).
Definition set_blocks (f : gmap ID snowmanBlock → gmap ID snowmanBlock) (t : Topological) : Topological :=
  mkTopological (ts_metrics t) (pollNumber t) (params t) (lastAcceptedID t) (lastAcceptedHeight t)
    (f (blocks t)) (preferredIDs t) (preferredHeights t) (preference t) (leaves t) (kahnNodes t).
Definition set_preferred (f : gset ID → gset ID) (g : gmap Z ID → gmap Z ID) (t : Topological) : Topological :=
  mkTopological (ts_metrics t) (pollNumber t) (params t) (lastAcceptedID t) (lastAcceptedHeight t)
    (blocks t) (f (preferredIDs t)) (g (preferredHeights t)) (preference t) (leaves t) (kahnNodes t).
Definition set_preference (p : ID) (t : Topological) : Topological :=
  mkTopological (ts_metrics t) (pollNumber t) (params t) (lastAcceptedID t) (lastAcceptedHeight t)
    (blocks t) (preferredIDs t) (preferredHeights t) p (leaves t) (kahnNodes t).
Definition set_leaves (f : gset ID → gset ID) (t : Topological) : Topological :=
  mkTopological (ts_metrics t) (pollNumber t) (params t) (lastAcceptedID t) (lastAcceptedHeight t)
    (blocks t) (preferredIDs t) (preferredHeights t) (preference t) (f (leaves t)) (kahnNodes t).
Definition set_kahnNodes (f : gmap ID kahnNode → gmap ID kahnNode) (t : Topological) : Topological :=
  mkTopological (ts_metrics t) (pollNumber t) (params t) (lastAcceptedID t) (lastAcceptedHeight t)
    (blocks t) (preferredIDs t) (preferredHeights t) (preference t) (leaves t) (f (kahnNodes t)).

(** ** The environment *)

(** A block that is handed to the engine was fetched: without a decision its status is
    [Processing]. *)
Definition status_of (st : State) (id : ID) : Status := default Processing (statuses st !! id).

Definition Status_ (id : ID) : M Status := λ st, (Ok (status_of st id), st).

(** [child.Accept(ctx)], [child.Reject(ctx)] *)
Definition vm_Accept (b : Block) : M unit := λ st,
  if accept_fails (blk_ID b) then (Err ErrAccept, st)
  else (Ok tt, mkState (ts st) (<[blk_ID b := Accepted]> (statuses st)) (events st ++ [EvAccept b]) (seed st)).

Definition vm_Reject (b : Block) : M unit := λ st,
  if reject_fails (blk_ID b) then (Err ErrReject, st)
  else (Ok tt, mkState (ts st) (<[blk_ID b := Rejected]> (statuses st)) (events st ++ [EvReject b]) (seed st)).

Definition BlockAcceptor_Accept (id : ID) : M unit := λ st,
  if acceptor_fails id then (Err ErrBlockAcceptor, st) else (Ok tt, st).

(** [range m] *)
Definition range {A} (m : gmap ID A) : M (list (ID * A)) := λ st,
  (Ok (iter_map (seed st) m), mkState (ts st) (statuses st) (events st) (S (seed st))).

(** The first element of an iteration over the set, if there is one. *)
Definition range_first (s : gset ID) : M (option ID) := λ st,
  (Ok (head (iter_set (seed st) s)), mkState (ts st) (statuses st) (events st) (S (seed st))).

Fixpoint for_each {A} (l : list A) (body : A → M unit) : M unit :=
  match l with
  | [] => ret tt
  | a :: l => body a ;; for_each l body
  end.

(** ** [metrics.go] *)

Definition metrics_Issued (id : ID) (poll : Z) (m : metrics) : metrics :=
  mkMetrics (currentMaxVerifiedHeight m) (om_put (processingBlocks m) id poll) (numProcessing m + 1)
    (numFailedPolls m) (numSuccessfulPolls m).

Definition metrics_Verified (height : Z) (m : metrics) : metrics :=
  mkMetrics (Z.max (currentMaxVerifiedHeight m) height) (processingBlocks m) (numProcessing m)
    (numFailedPolls m) (numSuccessfulPolls m).

Definition metrics_Accepted (id : ID) (m : metrics) : metrics :=
  match om_get (processingBlocks m) id with
  | None => m
  | Some _ =>
      mkMetrics (currentMaxVerifiedHeight m) (om_delete (processingBlocks m) id) (numProcessing m - 1)
        (numFailedPolls m) (numSuccessfulPolls m)
  end.

Definition metrics_Rejected (id : ID) (m : metrics) : metrics :=
  match om_get (processingBlocks m) id with
  | None => m
  | Some _ =>
      mkMetrics (currentMaxVerifiedHeight m) (om_delete (processingBlocks m) id) (numProcessing m - 1)
        (numFailedPolls m) (numSuccessfulPolls m)
  end.

Definition metrics_SuccessfulPoll (m : metrics) : metrics :=
  mkMetrics (currentMaxVerifiedHeight m) (processingBlocks m) (numProcessing m)
    (numFailedPolls m) (numSuccessfulPolls m + 1).

Definition metrics_FailedPoll (m : metrics) : metrics :=
  mkMetrics (currentMaxVerifiedHeight m) (processingBlocks m) (numProcessing m)
    (numFailedPolls m + 1) (numSuccessfulPolls m).

(** ** [snowman_block.go] *)

Definition AddChild (p : Parameters) (n : snowmanBlock) (child : Block) : snowmanBlock :=
  let childID := blk_ID child in
  match sb n with
  | None => mkNode (blk n) (shouldFalter n) (Some (sb_New p childID)) {[childID := child]}
  | Some t => mkNode (blk n) (shouldFalter n) (Some (sb_Add t childID)) (<[childID := child]> (children n))
  end.

Definition node_Accepted (n : snowmanBlock) : M bool :=
  match blk n with
  | None => ret true
  | Some b => let! s := Status_ (blk_ID b) in ret (bool_decide (s = Accepted))
  end.

Definition set_sb (t : sbT) (n : snowmanBlock) : snowmanBlock :=
  mkNode (blk n) (shouldFalter n) (Some t) (children n).
Definition set_shouldFalter (f : bool) (n : snowmanBlock) : snowmanBlock :=
  mkNode (blk n) f (sb n) (children n).

(** ** [topological.go] *)

Definition Initialize (p : Parameters) (id : ID) (height : Z) : result error Topological :=
  match Verify p with
  | Err _ => Err ErrParameters
  | Ok _ =>
      Ok (mkTopological (mkMetrics height [] 0 0 0) 0 p id height
            {[id := mkNode None false None ∅]} ∅ ∅ id ∅ ∅)
  end.

Definition NumProcessing (t : Topological) : Z := Z.of_nat (base.size (blocks t)) - 1.

Definition Decided (b : Block) : M bool :=
  let! s := Status_ (blk_ID b) in
  if Status_Decided s then ret true
  else
    let! t := get in
    ret (bool_decide (s = Processing) && (blk_Height b <=? lastAcceptedHeight t)).

Definition is_Processing (t : Topological) (id : ID) : bool :=
  if bool_decide (id = lastAcceptedID t) then false else bool_decide (is_Some (blocks t !! id)).

Definition IsPreferred (b : Block) : M bool :=
  let! s := Status_ (blk_ID b) in
  if bool_decide (s = Accepted) then ret true
  else let! t := get in ret (bool_decide (blk_ID b ∈ preferredIDs t)).

Definition PreferenceAtHeight (t : Topological) (height : Z) : option ID :=
  if height =? lastAcceptedHeight t then Some (lastAcceptedID t) else preferredHeights t !! height.

Definition Add (b : Block) : M unit :=
  let blkID := blk_ID b in
  let height := blk_Height b in
  let! decided := Decided b in
  let! t := get in
  if decided || is_Processing t blkID then fail ErrDuplicateAdd
  else
    modify (set_metrics (metrics_Verified height)) ;;
    modify (set_metrics (metrics_Issued blkID (pollNumber t))) ;;
    let parentID := blk_Parent b in
    match blocks t !! parentID with
    | None =>
        vm_Reject b ;;
        modify (set_metrics (metrics_Rejected blkID))
    | Some parentNode =>
        modify (set_blocks (insert parentID (AddChild (params t) parentNode b))) ;;
        modify (set_blocks (insert blkID (mkNode (Some b) false None ∅))) ;;
        if bool_decide (preference t = parentID) then
          modify (set_preference blkID) ;;
          modify (set_preferred (union {[blkID]}) (insert height blkID))
        else ret tt
    end.

(** The walk to the ancestors in [calculateInDegree], from the block [parentID]. *)
Fixpoint mark_ancestors (fuel : nat) (parentID : ID) : M unit :=
  match fuel with
  | O => fail OutOfFuel
  | S fuel =>
      let! t := get in
      let! n := some (blocks t !! parentID) in
      let! accepted := node_Accepted n in
      if accepted then ret tt
      else
        let! b := some (blk n) in
        let parentID := blk_Parent b in
        let previouslySeen := bool_decide (is_Some (kahnNodes t !! parentID)) in
        let kahn := default zero_kahn (kahnNodes t !! parentID) in
        let kahn := mkKahn (inDegree kahn + 1) (k_votes kahn) in
        modify (set_kahnNodes (insert parentID kahn)) ;;
        if previouslySeen then modify (set_leaves (λ l, l ∖ {[parentID]}))
        else mark_ancestors fuel parentID
  end.

(** One vote in [calculateInDegree]. *)
Definition register_vote (voteBag : Bag ID) (vote : ID) : M unit :=
  let! t := get in
  match blocks t !! vote with
  | None => ret tt
  | Some votedBlock =>
      let! accepted := node_Accepted votedBlock in
      if accepted then ret tt
      else
        let! b := some (blk votedBlock) in
        let parentID := blk_Parent b in
        let numVotes := Count voteBag vote in
        let previouslySeen := bool_decide (is_Some (kahnNodes t !! parentID)) in
        let kahn := default zero_kahn (kahnNodes t !! parentID) in
        let kahn := mkKahn (inDegree kahn) (AddCount (k_votes kahn) vote numVotes) in
        modify (set_kahnNodes (insert parentID kahn)) ;;
        if previouslySeen then ret tt
        else
          modify (set_leaves (union {[parentID]})) ;;
          mark_ancestors (S (base.size (blocks t))) parentID
  end.

Definition calculateInDegree (voteBag : Bag ID) : M unit :=
  modify (set_kahnNodes (λ _, ∅)) ;;
  modify (set_leaves (λ _, ∅)) ;;
  let! order := range (counts voteBag) in
  for_each order.*1 (register_vote voteBag).

(** The loop of [pushVotes]. *)
Fixpoint push_loop (fuel : nat) (voteStack : list vote_entry) : M (list vote_entry) :=
  let! t := get in
  let! first := range_first (leaves t) in
  match first with
  | None => ret voteStack
  | Some leafID =>
      match fuel with
      | O => fail OutOfFuel
      | S fuel =>
          modify (set_leaves (λ l, l ∖ {[leafID]})) ;;
          let kahn := default zero_kahn (kahnNodes t !! leafID) in
          let! block := some (blocks t !! leafID) in
          let voteStack :=
            if AlphaPreference (params t) <=? Len (k_votes kahn)
            then voteStack ++ [(leafID, k_votes kahn)] else voteStack in
          let! accepted := node_Accepted block in
          if accepted then push_loop fuel voteStack
          else
            let! b := some (blk block) in
            let parentID := blk_Parent b in
            let parentKahn := default zero_kahn (kahnNodes t !! parentID) in
            let parentKahn := mkKahn (inDegree parentKahn - 1)
                                (AddCount (k_votes parentKahn) leafID (Len (k_votes kahn))) in
            modify (set_kahnNodes (insert parentID parentKahn)) ;;
            (if inDegree parentKahn =? 0 then modify (set_leaves (union {[parentID]})) else ret tt) ;;
            push_loop fuel voteStack
      end
  end.

Definition pushVotes : M (list vote_entry) :=
  let! t := get in
  push_loop (base.size (kahnNodes t)) [].

(** The loop of [rejectTransitively]; the end of the Go slice is the head of the list. *)
Fixpoint reject_loop (fuel : nat) (rejected : list ID) : M unit :=
  match rejected with
  | [] => ret tt
  | rejectedID :: rejected =>
      match fuel with
      | O => fail OutOfFuel
      | S fuel =>
          let! t := get in
          modify (set_blocks (delete rejectedID)) ;;
          let! rejectedNode := some (blocks t !! rejectedID) in
          let! kids := range (children rejectedNode) in
          for_each kids (λ '(childID, child),
            vm_Reject child ;;
            modify (set_metrics (metrics_Rejected childID))) ;;
          reject_loop fuel (reverse kids.*1 ++ rejected)
      end
  end.

Definition rejectTransitively (rejected : list ID) : M unit :=
  let! t := get in
  reject_loop (base.size (blocks t)) (reverse rejected).

Definition acceptPreferredChild (n : snowmanBlock) : M unit :=
  let! t := some (sb n) in
  let pref := sb_Preference t in
  let! child := some (children n !! pref) in
  BlockAcceptor_Accept pref ;;
  let height := blk_Height child in
  vm_Accept child ;;
  modify (set_lastAccepted pref height) ;;
  modify (set_preferred (λ s, s ∖ {[pref]}) (delete height)) ;;
  modify (set_metrics (metrics_Accepted pref)) ;;
  let! kids := range (children n) in
  let rejects := filter (λ kv : ID * Block, kv.1 ≠ pref) kids in
  for_each rejects (λ '(childID, child),
    vm_Reject child ;;
    modify (set_metrics (metrics_Rejected childID))) ;;
  rejectTransitively rejects.*1.

(** The children that are marked for a reset after a vote on their parent. *)
Definition falter_child (transitively : bool) (nextID : ID) (childID : ID) : M unit :=
  if negb transitively && bool_decide (childID = nextID) then ret tt
  else
    let! t := get in
    match blocks t !! childID with
    | None => ret tt
    | Some childBlock => modify (set_blocks (insert childID (set_shouldFalter true childBlock)))
    end.

(** The loop of [vote]; the end of the Go slice is the head of the list.  It returns the
    new preferred block and whether a poll was successful. *)
Fixpoint vote_loop (voteStack : list vote_entry) (newPreferred : ID) (onPreferredBranch pollSuccessful : bool)
    : M (ID * bool) :=
  match voteStack with
  | [] => ret (newPreferred, pollSuccessful)
  | (parentID, voteBag) :: voteStack =>
      let! t := get in
      match blocks t !! parentID with
      | None => ret (newPreferred, pollSuccessful)
      | Some parentBlock =>
          let transitively := shouldFalter parentBlock in
          let! inst := some (sb parentBlock) in
          let inst := if transitively then sb_RecordUnsuccessfulPoll inst else inst in
          let '(inst, successful) := sb_RecordPoll inst voteBag in
          let parentBlock :=
            set_sb inst (if transitively then set_shouldFalter false parentBlock else parentBlock) in
          modify (set_blocks (insert parentID parentBlock)) ;;
          (if sb_Finalized inst && bool_decide (lastAcceptedID t = parentID) then
             acceptPreferredChild parentBlock ;;
             modify (set_blocks (delete parentID))
           else ret tt) ;;
          let parentPreference := sb_Preference inst in
          let newPreferred := if onPreferredBranch then parentPreference else newPreferred in
          let nextID := match voteStack with [] => go_zero | (next, _) :: _ => next end in
          let onPreferredBranch := onPreferredBranch && bool_decide (nextID = parentPreference) in
          let! kids := range (children parentBlock) in
          for_each kids.*1 (falter_child transitively nextID) ;;
          vote_loop voteStack newPreferred onPreferredBranch (successful || pollSuccessful)
      end
  end.

Definition vote (voteStack : list vote_entry) : M ID :=
  let! t := get in
  match voteStack with
  | [] =>
      let! lastAcceptedBlock := some (blocks t !! lastAcceptedID t) in
      modify (set_blocks (insert (lastAcceptedID t) (set_shouldFalter true lastAcceptedBlock))) ;;
      (if 0 <? NumProcessing t then modify (set_metrics metrics_FailedPoll) else ret tt) ;;
      ret (preference t)
  | _ =>
      let! '(newPreferred, pollSuccessful) :=
        vote_loop (reverse voteStack) (lastAcceptedID t) true false in
      modify (set_metrics (if pollSuccessful then metrics_SuccessfulPoll else metrics_FailedPoll)) ;;
      ret newPreferred
  end.

(** From a block up to the last accepted ancestor. *)
Fixpoint prefer_ancestors (fuel : nat) (block : snowmanBlock) : M unit :=
  match fuel with
  | O => fail OutOfFuel
  | S fuel =>
      let! accepted := node_Accepted block in
      if accepted then ret tt
      else
        let! b := some (blk block) in
        modify (set_preferred (union {[blk_ID b]}) (insert (blk_Height b) (blk_ID b))) ;;
        let! t := get in
        let! block := some (blocks t !! blk_Parent b) in
        prefer_ancestors fuel block
  end.

(** From a block down to the preferred leaf. *)
Fixpoint prefer_descendants (fuel : nat) (block : snowmanBlock) : M unit :=
  match sb block with
  | None => ret tt
  | Some inst =>
      match fuel with
      | O => fail OutOfFuel
      | S fuel =>
          let pref := sb_Preference inst in
          modify (set_preference pref) ;;
          modify (set_preferred (union {[pref]}) id) ;;
          let! t := get in
          let! block := some (blocks t !! pref) in
          let! b := some (blk block) in
          modify (set_preferred id (insert (blk_Height b) pref)) ;;
          prefer_descendants fuel block
      end
  end.

Definition RecordPoll (voteBag : Bag ID) : M unit :=
  modify (set_pollNumber (λ n, u64 (n + 1))) ;;
  let! t := get in
  let! voteStack :=
    (if AlphaPreference (params t) <=? Len voteBag
     then calculateInDegree voteBag ;; pushVotes
     else ret []) in
  let! preferred := vote voteStack in
  let! t := get in
  if bool_decide (preferred ∈ preferredIDs t) then ret tt
  else
    modify (set_preferred (λ _, ∅) (λ _, ∅)) ;;
    modify (set_preference preferred) ;;
    let! startBlock := some (blocks t !! preferred) in
    prefer_ancestors (S (base.size (blocks t))) startBlock ;;
    prefer_descendants (base.size (blocks t)) startBlock.

(** The part of [HealthCheck] that does not depend on the clock. *)
Definition HealthCheck_processing (t : Topological) : bool :=
  NumProcessing t <=? MaxOutstandingItems (params t).

End engine.
