(* ===== verification/EngineTree.v ===== *)
(** * The block tree of the Snowman engine

    The invariant of the tree of [Topological] and the log of decisions, and the proof
    that accepting a block and rejecting its conflicts transitively keep them:
    [rejectTransitively] terminates, rejects exactly what is below the rejected blocks,
    each once, and leaves a tree under the accepted block. *)

From S2P Require Import Prelude Ids Bag Snowball SnowTree Hashmap Topological.

Open Scope Z_scope.

(** ** Weakest preconditions *)

Section wp.
Context {C : Consensus}.

(** [m] from [st] either returns with [Q] or fails with [E]. *)
Definition wp {A} (m : M A) (Q : A → State → Prop) (E : error → State → Prop) (st : State) : Prop :=
  match m st with
  | (Ok a, st') => Q a st'
  | (Err e, st') => E e st'
  end.

Lemma wp_bind {A B} (m : M A) (k : A → M B) Q E st :
  wp m (λ a st', wp (k a) Q E st') E st → wp (bind m k) Q E st.
Proof. unfold wp, bind. by destruct (m st) as [[a|e] st']. Qed.

Lemma wp_mono {A} (m : M A) (Q Q' : A → State → Prop) (E E' : error → State → Prop) st :
  wp m Q E st → (∀ a st', Q a st' → Q' a st') → (∀ e st', E e st' → E' e st') → wp m Q' E' st.
Proof. unfold wp. intros H HQ HE. destruct (m st) as [[a|e] st']; auto. Qed.

Lemma wp_ret {A} (a : A) (Q : A → State → Prop) E st : Q a st → wp (ret a) Q E st.
Proof. done. Qed.

Lemma wp_get (Q : Topological → State → Prop) E st : Q (ts st) st → wp get Q E st.
Proof. done. Qed.

Lemma wp_modify f (Q : unit → State → Prop) E st :
  Q tt (mkState (f (ts st)) (statuses st) (events st) (seed st)) → wp (modify f) Q E st.
Proof. done. Qed.

Lemma wp_some {A} (o : option A) (Q : A → State → Prop) E st a :
  o = Some a → Q a st → wp (some o) Q E st.
Proof. by intros ->. Qed.

(** A loop over a list, with an invariant of the elements that were visited. *)
Lemma wp_for_each {A} (body : A → M unit) (I : list A → State → Prop) E (l seen : list A) st :
  I seen st →
  (∀ seen' a todo st, seen' ++ a :: todo = seen ++ l → I seen' st →
     wp (body a) (λ _ st', I (seen' ++ [a]) st') E st) →
  wp (for_each l body) (λ _ st', I (seen ++ l) st') E st.
Proof.
  revert seen st. induction l as [|a l IH]; intros seen st HI Hbody; simpl.
  - rewrite app_nil_r. done.
  - apply wp_bind. eapply wp_mono; [apply (Hbody seen a l st eq_refl HI)| |done].
    intros [] st' HI'. replace (seen ++ a :: l) with ((seen ++ [a]) ++ l) by by rewrite <- app_assoc.
    apply IH; [done|]. intros seen' a' todo st'' Heq. apply (Hbody seen' a' todo).
    by rewrite Heq, <- app_assoc.
Qed.
End wp.

(** ** The invariant *)

Section invariant.
Context {C : Consensus} {L : ConsensusLaws C}.

Definition decided (ss : gmap ID Status) (id : ID) : bool := Status_Decided (default Processing (ss !! id)).

(** The height of a block of the tree; the first last accepted block has no block object. *)
Definition hgt (rh : Z) (n : snowmanBlock) : Z :=
  match blk n with Some b => blk_Height b | None => rh end.

(** The processing blocks [bs] under the last accepted block [root] of height [rh].  [rej]
    are blocks that were rejected, whose parents are gone, and that are about to be
    removed. *)
Record tree_inv (root : ID) (rh : Z) (bs : gmap ID snowmanBlock) (ss : gmap ID Status) (rej : list ID)
    : Prop := {
  t_root : ∃ n, bs !! root = Some n
    ∧ match blk n with
      | None => True
      | Some b => blk_ID b = root ∧ blk_Height b = rh ∧ ss !! root = Some Accepted
      end;
  t_root_decided : decided ss root = true;
  t_node : ∀ id n, bs !! id = Some n → id ≠ root → id ∉ rej →
    ∃ b p, blk n = Some b ∧ blk_ID b = id ∧ decided ss id = false
      ∧ bs !! blk_Parent b = Some p ∧ children p !! id = Some b ∧ blk_Height b = hgt rh p + 1;
  t_children : ∀ id n c b, bs !! id = Some n → children n !! c = Some b →
    c ≠ root ∧ blk_ID b = c ∧ blk_Parent b = id ∧ ∃ m, bs !! c = Some m ∧ blk m = Some b;
  t_sb : ∀ id n, bs !! id = Some n →
    match sb n with
    | None => children n = ∅
    | Some t => sb_ok t ∧ ∀ x, x ∈ sb_choices t → is_Some (children n !! x)
    end;
  t_rej : ∀ id, id ∈ rej →
    id ≠ root ∧ ∃ n b, bs !! id = Some n ∧ blk n = Some b ∧ blk_ID b = id ∧ bs !! blk_Parent b = None;
  t_rej_nodup : NoDup rej;
}.

(** The log of decisions. *)
Definition ev_block (e : event) : Block := match e with EvAccept b | EvReject b => b end.
Definition ev_status (e : event) : Status := match e with EvAccept _ => Accepted | EvReject _ => Rejected end.
Definition accepted_blocks (evs : list event) : list Block :=
  omap (λ e, match e with EvAccept b => Some b | EvReject _ => None end) evs.

(** Each block is the child of the one before, at the next height. *)
Fixpoint accepted_chain (last : ID) (height : Z) (bs : list Block) : Prop :=
  match bs with
  | [] => True
  | b :: bs => blk_Parent b = last ∧ blk_Height b = height + 1 ∧ accepted_chain (blk_ID b) (blk_Height b) bs
  end.

(** Every decision was made once, the statuses are those of the decisions and of the
    block [g], which was accepted before, and the accepted blocks are a chain that starts
    at [g]. *)
Record log_inv (g : ID) (gh : Z) (ss : gmap ID Status) (evs : list event) : Prop := {
  l_once : NoDup (blk_ID ∘ ev_block <$> evs);
  l_status : ∀ e, e ∈ evs → ss !! blk_ID (ev_block e) = Some (ev_status e);
  l_chain : accepted_chain g gh (accepted_blocks evs);
  l_first : ss !! g = Some Accepted;
  l_only : ∀ x s, ss !! x = Some s → Status_Decided s = true ∧ (x = g ∨ x ∈ blk_ID ∘ ev_block <$> evs);
}.

(** The last accepted block according to the log. *)
Definition log_last (g : ID) (evs : list event) : ID :=
  default g (blk_ID <$> last (accepted_blocks evs)).
Definition log_height (gh : Z) (evs : list event) : Z :=
  default gh (blk_Height <$> last (accepted_blocks evs)).

(** The metrics know exactly the processing blocks. *)
Record metrics_inv (m : metrics) (root : ID) (bs : gmap ID snowmanBlock) (rej : list ID) : Prop := {
  m_wf : om_wf (processingBlocks m);
  m_keys : ∀ id, id ∈ (processingBlocks m).*1 ↔ is_Some (bs !! id) ∧ id ≠ root ∧ id ∉ rej;
  m_num : numProcessing m = om_len (processingBlocks m);
}.

(** The blocks that are processing according to the metrics, or were decided. *)
Definition acct (st : State) (x : ID) : Prop :=
  x ∈ (processingBlocks (ts_metrics (ts st))).*1 ∨ x ∈ blk_ID ∘ ev_block <$> events st.

(** ** Decisions *)

Lemma accepted_chain_app last height bs1 bs2 :
  accepted_chain last height (bs1 ++ bs2) ↔
  accepted_chain last height bs1
  ∧ accepted_chain (default last (blk_ID <$> list.last bs1)) (default height (blk_Height <$> list.last bs1)) bs2.
Proof.
  revert last height. induction bs1 as [|b bs1 IH]; intros last height; simpl; [tauto|].
  rewrite IH. destruct bs1 as [|b' bs1]; simpl; [tauto|].
  destruct (list.last (b' :: bs1)) eqn:E; [simpl; tauto|]. by apply last_None in E.
Qed.

Lemma log_undecided g gh ss evs e id :
  log_inv g gh ss evs → decided ss id = false → e ∈ evs → blk_ID (ev_block e) ≠ id.
Proof.
  intros Hl Hd He <-. unfold decided in Hd. rewrite (l_status _ _ _ _ Hl e He) in Hd.
  by destruct e.
Qed.

(** Logging one more decision of an undecided block. *)
Lemma log_extend g gh ss evs e :
  log_inv g gh ss evs → decided ss (blk_ID (ev_block e)) = false →
  (∀ b, e = EvAccept b → blk_Parent b = log_last g evs ∧ blk_Height b = log_height gh evs + 1) →
  log_inv g gh (<[blk_ID (ev_block e) := ev_status e]> ss) (evs ++ [e]).
Proof.
  intros Hl Hd Hacc. constructor.
  - rewrite fmap_app. apply NoDup_app. split_and!; [apply Hl| |apply NoDup_singleton].

    intros x Hx Hx'. apply list_elem_of_fmap in Hx as (e' & -> & He').
    apply list_elem_of_singleton in Hx'. by apply (log_undecided g gh ss evs e' _ Hl Hd He').
  - intros e' [He'|He']%elem_of_app.
    + rewrite lookup_insert_ne; [by apply Hl|]. intros E. by apply (log_undecided g gh ss evs e' _ Hl Hd He').
    + apply list_elem_of_singleton in He' as ->. apply lookup_insert_eq.
  - unfold accepted_blocks. rewrite omap_app. apply accepted_chain_app. split; [apply Hl|].
    destruct e as [b|b]; simpl; [|done]. destruct (Hacc b eq_refl) as [H1 H2]. done.
  - rewrite lookup_insert_ne; [apply Hl|]. intros E. unfold decided in Hd. rewrite E, (l_first _ _ _ _ Hl) in Hd. done.
  - intros x s. rewrite fmap_app, elem_of_app, lookup_insert. case_decide as E.
    + intros [= <-]. split; [by destruct e|]. do 2 right. apply list_elem_of_singleton. by symmetry.
    + intros Hs. destruct (l_only _ _ _ _ Hl x s Hs) as [? [?|?]]; tauto.
Qed.

(** The decided blocks are [g] and those of the log. *)
Lemma log_decided g gh ss evs x :
  log_inv g gh ss evs → decided ss x = true ↔ x = g ∨ x ∈ blk_ID ∘ ev_block <$> evs.
Proof.
  intros Hl. unfold decided. split.
  - destruct (ss !! x) as [s|] eqn:E; [|done]. by destruct (l_only _ _ _ _ Hl x s E).
  - intros [->|Hx]; [by rewrite (l_first _ _ _ _ Hl)|]. apply list_elem_of_fmap in Hx as (e & -> & He).
    cbn [compose]. rewrite (l_status _ _ _ _ Hl e He). by destruct e.
Qed.

Lemma log_undecided_status g gh ss evs x :
  log_inv g gh ss evs → decided ss x = false → ss !! x = None.
Proof.
  intros Hl Hd. destruct (ss !! x) as [s|] eqn:E; [|done]. destruct (l_only _ _ _ _ Hl x s E) as [Hs _].
  unfold decided in Hd. rewrite E in Hd. simpl in Hd. congruence.
Qed.
End invariant.

(** ** Rejecting transitively *)

Section reject.
Context {C : Consensus} {L : ConsensusLaws C}.
Context (iter_map : ∀ A, nat → gmap ID A → list (ID * A)).
Context (iter_map_perm : ∀ A seed (m : gmap ID A), iter_map A seed m ≡ₚ map_to_list m).
Context (acceptor_fails accept_fails reject_fails : ID → bool).
Context (g : ID) (gh : Z).

(** A failed operation: a call to the outside failed, and the log is still consistent. *)
Definition failed (e : error) (st : State) : Prop :=
  ((e = ErrBlockAcceptor ∧ ∃ x, acceptor_fails x = true) ∨ (e = ErrAccept ∧ ∃ x, accept_fails x = true)
   ∨ (e = ErrReject ∧ ∃ x, reject_fails x = true))
  ∧ log_inv g gh (statuses st) (events st).

Lemma decided_insert_ne ss i s j : i ≠ j → decided (<[i := s]> ss) j = decided ss j.
Proof. intros Hne. unfold decided. by rewrite lookup_insert_ne. Qed.

Lemma metrics_Rejected_spec id m :
  om_wf (processingBlocks m) → numProcessing m = om_len (processingBlocks m) →
  let m' := metrics_Rejected id m in
  om_wf (processingBlocks m') ∧ numProcessing m' = om_len (processingBlocks m')
  ∧ ∀ k, k ∈ (processingBlocks m').*1 ↔ k ∈ (processingBlocks m).*1 ∧ k ≠ id.
Proof using.
  intros Hwf Hn. unfold metrics_Rejected. destruct (om_get (processingBlocks m) id) as [v|] eqn:E; simpl.
  - split_and!; [by apply om_delete_wf|rewrite (om_len_delete _ _ v) by done; lia|].
    intros k. rewrite !list_elem_of_fmap. split.
    + intros (kv & -> & [Hin Hne]%om_delete_elem). eauto.
    + intros [(kv & -> & Hin) Hne]. exists kv. split; [done|]. by apply om_delete_elem.
  - apply om_get_None in E. split_and!; [done..|]. intros k. split; [|by intros [? _]].
    intros Hk. split; [done|]. intros ->. done.
Qed.

(** The state after the blocks [ids] were rejected. *)
Record rejected_all (st st' : State) (ids : list ID) : Prop := {
  ra_ts : ts st' = set_metrics (λ _, ts_metrics (ts st')) (ts st);
  ra_statuses : ∀ i, statuses st' !! i = if decide (i ∈ ids) then Some Rejected else statuses st !! i;
  ra_log : log_inv g gh (statuses st') (events st');
  ra_accepted : accepted_blocks (events st') = accepted_blocks (events st);
  ra_events : ∃ bs, events st' = events st ++ (EvReject <$> bs) ∧ blk_ID <$> bs = ids;
  ra_acct : ∀ k, acct st' k ↔ acct st k ∨ k ∈ ids;
  ra_metrics_wf : om_wf (processingBlocks (ts_metrics (ts st')));
  ra_metrics_num : numProcessing (ts_metrics (ts st')) = om_len (processingBlocks (ts_metrics (ts st')));
  ra_metrics_keys : ∀ k, k ∈ (processingBlocks (ts_metrics (ts st'))).*1
                         ↔ k ∈ (processingBlocks (ts_metrics (ts st))).*1 ∧ k ∉ ids;
}.

Definition reject_kid : ID * Block → M unit := λ '(childID, child),
  vm_Reject reject_fails child ;; modify (set_metrics (metrics_Rejected childID)).

Lemma reject_one (st : State) seen kid :
  kid.1 = blk_ID kid.2 → decided (statuses st) kid.1 = false → kid.1 ∉ seen →
  ∀ st', rejected_all st st' seen →
  wp (reject_kid kid) (λ _ st'', rejected_all st st'' (seen ++ [kid.1])) failed st'.
Proof.
  destruct kid as [c b]. simpl. intros -> Hd Hn st' [Ht Hs Hlog Hacc (bs & Hev & Hids) Hat Hmw Hmn Hmk].
  assert (decided (statuses st') (blk_ID b) = false) as Hd'.
  { unfold decided in *. by rewrite Hs, decide_False. }
  apply wp_bind. unfold wp at 1, vm_Reject. destruct (reject_fails (blk_ID b)) eqn:Hfail.
  { split; [right; right; eauto|done]. }
  apply wp_modify. destruct (metrics_Rejected_spec (blk_ID b) (ts_metrics (ts st')) Hmw Hmn) as (M1 & M2 & M3).
  constructor; simpl; try done.
  - rewrite Ht. done.
  - intros i. rewrite lookup_insert. case_decide as E; [subst; by rewrite decide_True by set_solver|].
    rewrite Hs. destruct (decide (i ∈ seen)); [by rewrite decide_True by set_solver|].
    rewrite decide_False; [done|]. set_solver.
  - by apply (log_extend g gh _ _ (EvReject b)).
  - unfold accepted_blocks. rewrite omap_app. simpl. by rewrite app_nil_r.
  - exists (bs ++ [b]). rewrite Hev, !fmap_app, app_assoc, Hids. done.
  - intros k. specialize (Hat k). unfold acct in Hat |- *. simpl. rewrite M3, fmap_app, !elem_of_app. simpl.
    rewrite !list_elem_of_singleton. destruct (decide (k = blk_ID b)); naive_solver.
  - intros k. rewrite M3, Hmk. set_solver.
Qed.

Lemma reject_all kids st :
  NoDup kids.*1 → (∀ kid, kid ∈ kids → kid.1 = blk_ID kid.2 ∧ decided (statuses st) kid.1 = false) →
  log_inv g gh (statuses st) (events st) →
  om_wf (processingBlocks (ts_metrics (ts st))) →
  numProcessing (ts_metrics (ts st)) = om_len (processingBlocks (ts_metrics (ts st))) →
  wp (for_each kids reject_kid) (λ _ st', rejected_all st st' kids.*1) failed st.
Proof.
  intros Hnd Hkids Hlog Hmw Hmn.
  apply (wp_for_each reject_kid (λ seen st', rejected_all st st' seen.*1) failed kids [] st).
  - constructor; simpl; try done.
    + by destruct (ts st).
    + exists []. by rewrite app_nil_r.
    + intros k. rewrite elem_of_nil. tauto.
    + intros k. set_solver.
  - intros seen kid todo st' Heq Hra. simpl in Heq. rewrite fmap_app. simpl.
    destruct (Hkids kid) as [H1 H2]; [rewrite <- Heq; set_solver|].
    apply reject_one; try done. rewrite <- Heq, fmap_app, fmap_cons in Hnd.
    apply NoDup_app in Hnd as (_ & Hd & _). intros Hin. apply (Hd _ Hin). by left.
Qed.

(** The children of a block that is about to be removed are still undecided. *)
Lemma tree_inv_new_kids root rh bs ss x rej n c b :
  tree_inv root rh bs ss (x :: rej) → bs !! x = Some n → children n !! c = Some b →
  c ≠ root ∧ c ≠ x ∧ c ∉ rej ∧ blk_ID b = c ∧ blk_Parent b = x ∧ decided ss c = false
  ∧ ∃ m, bs !! c = Some m ∧ blk m = Some b.
Proof.
  intros HT Hx Hc.
  destruct (t_children _ _ _ _ _ HT x n c b Hx Hc) as (Hcr & Hid & Hpar & m & Hm & Hbm).
  assert (c ∉ x :: rej) as Hnew.
  { intros Hin. destruct (t_rej _ _ _ _ _ HT c Hin) as (_ & m' & b' & Hm' & Hb' & _ & Hp').
    rewrite Hm in Hm'. injection Hm' as <-. rewrite Hbm in Hb'. injection Hb' as <-. congruence. }
  destruct (t_node _ _ _ _ _ HT c m Hm Hcr Hnew) as (? & ? & _ & _ & Hd & _).
  apply not_elem_of_cons in Hnew as [? ?]. split_and!; try done. eauto.
Qed.

(** One block is removed and its children become the next ones to remove. *)
Lemma tree_inv_reject root rh bs ss ss' x rej n kids :
  tree_inv root rh bs ss (x :: rej) → bs !! x = Some n → kids ≡ₚ map_to_list (children n) →
  (∀ i, ss' !! i = if decide (i ∈ kids.*1) then Some Rejected else ss !! i) →
  tree_inv root rh (delete x bs) ss' (reverse kids.*1 ++ rej).
Proof.
  intros HT Hx Hk Hss.
  assert (∀ c b, children n !! c = Some b ↔ (c, b) ∈ kids) as Hkids.
  { intros c b. by rewrite Hk, elem_of_map_to_list. }
  assert (∀ c, c ∈ kids.*1 ↔ ∃ b, children n !! c = Some b) as Hkeys.
  { intros c. rewrite list_elem_of_fmap. split.
    - intros ([c' b] & -> & Hin). exists b. by apply Hkids.
    - intros [b Hb]. exists (c, b). split; [done|by apply Hkids]. }
  destruct (t_rej _ _ _ _ _ HT x) as (Hxr & n' & bx & Hx' & Hbx & Hidx & Hpx); [by left|].
  rewrite Hx in Hx'. injection Hx' as <-.
  assert (∀ id, id ∉ kids.*1 → decided ss' id = decided ss id) as Hdec.
  { intros id Hid. unfold decided. by rewrite Hss, decide_False. }
  assert (root ∉ kids.*1) as Hroot.
  { intros [b Hb]%Hkeys. by destruct (tree_inv_new_kids _ _ _ _ _ _ _ _ _ HT Hx Hb). }
  pose proof (t_rej_nodup _ _ _ _ _ HT) as [Hxn Hnd]%NoDup_cons.
  constructor.
  - destruct (t_root _ _ _ _ _ HT) as (r & Hr & Hb). exists r. rewrite lookup_delete_ne by done.
    split; [done|]. destruct (blk r); [|done]. by rewrite Hss, decide_False.
  - rewrite Hdec by done. apply HT.
  - intros id m Hm Hne Hnr. apply lookup_delete_Some in Hm as [Hnx Hm].
    assert (id ∉ kids.*1) as Hnk by (intros H; apply Hnr, elem_of_app; left; by rewrite elem_of_reverse).
    destruct (t_node _ _ _ _ _ HT id m Hm Hne) as (b & p & Hb & Hid & Hd & Hp & Hc & Hh).
    { intros [->|Hin]%elem_of_cons; [done|]. apply Hnr, elem_of_app. by right. }
    exists b, p. rewrite Hdec, lookup_delete_ne; [done| |done].
    intros Ex. rewrite <- Ex, Hx in Hp. injection Hp as <-. apply Hnk, Hkeys. eauto.
  - intros id m c b Hm Hc. apply lookup_delete_Some in Hm as [Hnx Hm].
    destruct (t_children _ _ _ _ _ HT id m c b Hm Hc) as (Hcr & Hid & Hpar & mc & Hmc & Hbc).
    split_and!; [done..|]. exists mc. rewrite lookup_delete_ne; [done|]. intros <-.
    rewrite Hx in Hmc. injection Hmc as <-. rewrite Hbx in Hbc. injection Hbc as ->. congruence.
  - intros id m Hm. apply lookup_delete_Some in Hm as [_ Hm]. by apply (t_sb _ _ _ _ _ HT id).
  - intros id [Hin|Hin]%elem_of_app.
    + apply elem_of_reverse, Hkeys in Hin as [b Hb].
      destruct (tree_inv_new_kids _ _ _ _ _ _ _ _ _ HT Hx Hb) as (Hcr & Hnx & _ & Hid & Hpar & _ & m & Hm & Hbm).
      split; [done|]. exists m, b.
      rewrite lookup_delete_ne, Hpar by done. split_and!; try done. apply lookup_delete_eq.
    + destruct (t_rej _ _ _ _ _ HT id) as (Hr & m & b & Hm & Hb & Hid & Hp); [by right|].
      split; [done|]. exists m, b. rewrite lookup_delete_ne by (intros ->; done).
      split_and!; try done. by apply lookup_delete_None; right.
  - apply NoDup_app. split_and!; [|intros c Hc Hc'|done].
    + rewrite reverse_Permutation, Hk. apply NoDup_fst_map_to_list.
    + apply elem_of_reverse, Hkeys in Hc as [b Hb].
      by destruct (tree_inv_new_kids _ _ _ _ _ _ _ _ _ HT Hx Hb) as (_ & _ & ? & _).
Qed.

(** What the loop does not change. *)
Record reject_frame (P : ID) (st st' : State) : Prop := {
  rf_ts : ts st' = set_blocks (λ _, blocks (ts st')) (set_metrics (λ _, ts_metrics (ts st')) (ts st));
  rf_blocks : blocks (ts st') ⊆ blocks (ts st);
  rf_P : blocks (ts st') !! P = blocks (ts st) !! P;
  rf_accepted : accepted_blocks (events st') = accepted_blocks (events st);
  rf_acct : ∀ x, acct st' x ↔ acct st x;
}.

Lemma reject_frame_refl P st : reject_frame P st st.
Proof. constructor; try done. by destruct (ts st) as [? ? ? ? ? ? ? ? ? ? ?]. Qed.

Lemma reject_frame_trans P st1 st2 st3 : reject_frame P st1 st2 → reject_frame P st2 st3 → reject_frame P st1 st3.
Proof.
  intros [T1 B1 P1 A1 K1] [T2 B2 P2 A2 K2]. constructor; [|by etrans|congruence|congruence|].
  - rewrite T2, T1. done.
  - intros x. by rewrite K2, K1.
Qed.

(** The state in which the engine removes the blocks [stack] and what is below them,
    while the block [P] is no longer counted as part of the tree. *)
Definition rejecting (P root : ID) (rh : Z) (stack : list ID) (st : State) : Prop :=
  tree_inv root rh (delete P (blocks (ts st))) (statuses st) stack
  ∧ metrics_inv (ts_metrics (ts st)) root (delete P (blocks (ts st))) stack
  ∧ log_inv g gh (statuses st) (events st).

(** One round of the loop. *)
Lemma reject_round P root rh x stack st n kids st1 :
  rejecting P root rh (x :: stack) st → delete P (blocks (ts st)) !! x = Some n →
  kids ≡ₚ map_to_list (children n) →
  st1 = mkState (set_blocks (delete x) (ts st)) (statuses st) (events st) (S (seed st)) →
  wp (for_each kids reject_kid)
     (λ _ st', rejecting P root rh (reverse kids.*1 ++ stack) st' ∧ reject_frame P st st'
               ∧ delete P (blocks (ts st')) = delete x (delete P (blocks (ts st))))
     failed st1.
Proof.
  intros (HT & HM & Hlog) Hx Hk ->.
  assert (∀ c b, (c, b) ∈ kids → children n !! c = Some b) as Hkids.
  { intros c b. by rewrite Hk, elem_of_map_to_list. }
  assert (x ≠ P) as HxP by (intros ->; by rewrite lookup_delete_eq in Hx).
  eapply wp_mono; [apply (reject_all kids)| |done].
  - rewrite Hk. apply NoDup_fst_map_to_list.
  - intros [c b] Hin. simpl.
    by destruct (tree_inv_new_kids _ _ _ _ _ _ _ _ _ HT Hx (Hkids c b Hin)) as (_ & _ & _ & ? & _ & ? & _).
  - done.
  - apply HM.
  - apply HM.
  - simpl. intros [] st' [Ht Hs Hlog' Hacc _ Hat Hmw Hmn Hmk]. simpl in *.
    assert (blocks (ts st') = delete x (blocks (ts st))) as Hb by by rewrite Ht.
    assert (delete P (blocks (ts st')) = delete x (delete P (blocks (ts st)))) as HPb
      by (rewrite Hb; apply delete_delete).
    split_and!; [|constructor|done]; simpl.
    + split_and!; [|constructor|done].
      * rewrite HPb. by eapply tree_inv_reject.
      * done.
      * intros id. rewrite Hmk, (m_keys _ _ _ _ HM id), HPb, elem_of_app, elem_of_reverse, not_elem_of_cons.
        rewrite (lookup_delete_is_Some (delete P (blocks (ts st)))).
        split; [intros ((H1 & H2 & H3 & H4) & H5)|intros ((H1 & H2) & H3 & H4)]; split_and!; try done; tauto.
      * done.
    + rewrite Ht. done.
    + rewrite Hb. apply delete_subseteq.
    + rewrite Hb, lookup_delete_ne; done.
    + done.
    + intros c. rewrite Hat. change (acct (mkState _ _ _ _) c) with (acct st c).
      split; [|by left]. intros [?|Hc]; [done|]. left. apply (m_keys _ _ _ _ HM).
      apply list_elem_of_fmap in Hc as ([c' b] & -> & Hin). simpl.
      destruct (tree_inv_new_kids _ _ _ _ _ _ _ _ _ HT Hx (Hkids c' b Hin)) as (? & ? & ? & _ & _ & _ & m & Hm & _).
      split_and!; [by eexists|done|by apply not_elem_of_cons].
Qed.

(** The loop removes everything that is below the stack, within its fuel. *)
Lemma reject_loop_spec P root rh fuel stack st :
  rejecting P root rh stack st → (base.size (delete P (blocks (ts st))) ≤ fuel)%nat →
  wp (reject_loop iter_map reject_fails fuel stack)
     (λ _ st', rejecting P root rh [] st' ∧ reject_frame P st st') failed st.
Proof.
  revert stack st. induction fuel as [|fuel IH]; intros [|x stack] st Hrej Hf; cbn [reject_loop].
  - apply wp_ret. split; [done|apply reject_frame_refl].
  - exfalso. destruct Hrej as [HT _]. destruct (t_rej _ _ _ _ _ HT x) as (_ & n & _ & Hn & _); [by left|].
    assert (base.size (delete P (blocks (ts st))) = 0%nat) as Hz by lia.
    apply map_size_empty_inv in Hz. by rewrite Hz in Hn.
  - apply wp_ret. split; [done|apply reject_frame_refl].
  - destruct (t_rej _ _ _ _ _ (proj1 Hrej) x) as (_ & n & _ & Hn & _); [by left|].
    apply lookup_delete_Some in Hn as Hn'. destruct Hn' as [HxP Hn'].
    apply wp_bind, wp_get, wp_bind, wp_modify, wp_bind. eapply wp_some; [exact Hn'|].
    apply wp_bind. unfold wp at 1, range. apply wp_bind. simpl.
    eapply wp_mono; [eapply (reject_round P root rh x stack st n)| |done]; try done.
    intros [] st' (Hrej' & Hframe & HPb).
    eapply wp_mono; [apply IH; [exact Hrej'|]| |done].
    + rewrite HPb, map_size_delete_Some by by eexists. lia.
    + intros [] st'' [H1 H2]. split; [done|]. by eapply reject_frame_trans.
Qed.

(** ** Accepting a child of the last accepted block *)

Lemma tree_inv_root_child root rh bs ss n X b :
  tree_inv root rh bs ss [] → bs !! root = Some n → children n !! X = Some b →
  X ≠ root ∧ blk_ID b = X ∧ blk_Parent b = root ∧ blk_Height b = rh + 1 ∧ decided ss X = false
  ∧ ∃ m, bs !! X = Some m ∧ blk m = Some b.
Proof.
  intros HT Hn Hc. destruct (t_children _ _ _ _ _ HT root n X b Hn Hc) as (HX & Hid & Hpar & m & Hm & Hb).
  destruct (t_node _ _ _ _ _ HT X m Hm HX) as (b' & p & Hb' & _ & Hd & Hp & _ & Hh); [apply not_elem_of_nil|].
  rewrite Hb in Hb'. injection Hb' as <-. rewrite Hpar, Hn in Hp. injection Hp as <-.
  split_and!; try done; [|eauto]. rewrite Hh. f_equal.
  destruct (t_root _ _ _ _ _ HT) as (r & Hr & Hbr). rewrite Hn in Hr. injection Hr as <-.
  unfold hgt. destruct (blk n) as [br|]; [|done]. apply Hbr.
Qed.

Lemma tree_inv_accept root rh bs ss ss' n X b ids :
  tree_inv root rh bs ss [] → bs !! root = Some n → children n !! X = Some b →
  NoDup ids → (∀ c, c ∈ ids ↔ is_Some (children n !! c) ∧ c ≠ X) →
  (∀ i, ss' !! i = if decide (i ∈ ids) then Some Rejected else if decide (i = X) then Some Accepted else ss !! i) →
  tree_inv X (blk_Height b) (delete root bs) ss' (reverse ids).
Proof.
  intros HT Hn HX Hnd Hids Hss.
  destruct (tree_inv_root_child _ _ _ _ _ _ _ HT Hn HX) as (HXr & HXid & HXp & HXh & HXd & mX & HmX & HbX).
  assert (X ∉ ids) as HXi by (intros H; by apply Hids in H as [_ []]).
  assert (∀ id, id ∉ ids → id ≠ X → decided ss' id = decided ss id) as Hdec.
  { intros id H1 H2. unfold decided. by rewrite Hss, !decide_False. }
  constructor.
  - exists mX. rewrite lookup_delete_ne by done. split; [done|]. rewrite HbX.
    split_and!; [done..|]. by rewrite Hss, decide_False, decide_True.
  - unfold decided. by rewrite Hss, decide_False, decide_True.
  - intros id m Hm Hne Hnr. apply lookup_delete_Some in Hm as [Hnx Hm]. rewrite elem_of_reverse in Hnr.
    destruct (t_node _ _ _ _ _ HT id m Hm) as (b' & p & Hb & Hid & Hd & Hp & Hc & Hh); [done|apply not_elem_of_nil|].
    assert (blk_Parent b' ≠ root) as Hpr.
    { intros E. rewrite E, Hn in Hp. injection Hp as <-. apply Hnr, Hids. split; [by eexists|done]. }
    exists b', p. rewrite Hdec, lookup_delete_ne by done. split_and!; try done. rewrite Hh. f_equal.
    destruct (t_node _ _ _ _ _ HT (blk_Parent b') p Hp Hpr) as (bp & _ & Hbp & _); [apply not_elem_of_nil|].
    unfold hgt. by rewrite Hbp.
  - intros id m c b' Hm Hc. apply lookup_delete_Some in Hm as [Hnx Hm].
    destruct (t_children _ _ _ _ _ HT id m c b' Hm Hc) as (Hcr & Hid & Hpar & mc & Hmc & Hbc).
    split_and!; [|done..|].
    + intros ->. rewrite HmX in Hmc. injection Hmc as <-. rewrite HbX in Hbc. injection Hbc as <-. congruence.
    + exists mc. by rewrite lookup_delete_ne.
  - intros id m Hm. apply lookup_delete_Some in Hm as [_ Hm]. by apply (t_sb _ _ _ _ _ HT id).
  - intros id Hin. rewrite elem_of_reverse in Hin. apply Hids in Hin as [[b' Hb'] Hne].
    destruct (tree_inv_root_child _ _ _ _ _ _ _ HT Hn Hb') as (Hr & Hid & Hpar & _ & _ & m & Hm & Hb).
    split; [done|]. exists m, b'. rewrite lookup_delete_ne, Hpar by done. split_and!; try done. apply lookup_delete_eq.
  - by rewrite reverse_Permutation.
Qed.

(** The state of the engine between two steps; [Iss] are the blocks that were issued. *)
Record engine_inv (Iss : ID → Prop) (st : State) : Prop := {
  e_tree : tree_inv (lastAcceptedID (ts st)) (lastAcceptedHeight (ts st)) (blocks (ts st)) (statuses st) [];
  e_metrics : metrics_inv (ts_metrics (ts st)) (lastAcceptedID (ts st)) (blocks (ts st)) [];
  e_log : log_inv g gh (statuses st) (events st);
  e_last : lastAcceptedID (ts st) = log_last g (events st);
  e_height : lastAcceptedHeight (ts st) = log_height gh (events st);
  e_issued : ∀ x, Iss x ↔ acct st x;
  e_params : Verify (params (ts st)) = Ok tt;
}.

(** The state after a child [X] of the old root [P] was accepted; [P] is still stored. *)
Record accepted_child (P X : ID) (h : Z) (st st' : State) : Prop := {
  ac_rejecting : rejecting P X h [] st';
  ac_last : log_last g (events st') = X;
  ac_height : log_height gh (events st') = h;
  ac_blocks : blocks (ts st') ⊆ blocks (ts st);
  ac_ts : ts st' = set_blocks (λ _, blocks (ts st')) (set_metrics (λ _, ts_metrics (ts st'))
            (set_preferred (λ s, s ∖ {[X]}) (delete h) (set_lastAccepted X h (ts st))));
  ac_acct : ∀ x, acct st' x ↔ acct st x;
}.

Lemma filter_kids (kids : list (ID * Block)) (m : gmap ID Block) X :
  kids ≡ₚ map_to_list m →
  let ids := (filter (λ kv : ID * Block, kv.1 ≠ X) kids).*1 in
  NoDup ids ∧ ∀ c, c ∈ ids ↔ is_Some (m !! c) ∧ c ≠ X.
Proof.
  intros Hk ids. split.
  - eapply sublist_NoDup; [|apply fmap_sublist, sublist_filter]. rewrite Hk. apply NoDup_fst_map_to_list.
  - intros c. unfold ids. rewrite list_elem_of_fmap. split.
    + intros ([c' b] & -> & [Hne Hin]%list_elem_of_filter). rewrite Hk, elem_of_map_to_list in Hin. by split; [eexists|].
    + intros [[b Hb] Hne]. exists (c, b). split; [done|]. apply list_elem_of_filter. split; [done|].
      by rewrite Hk, elem_of_map_to_list.
Qed.

Lemma acceptPreferredChild_spec Iss st P n t :
  engine_inv Iss st → P = lastAcceptedID (ts st) → blocks (ts st) !! P = Some n → sb n = Some t →
  wp (acceptPreferredChild iter_map acceptor_fails accept_fails reject_fails n)
     (λ _ st', ∃ b, children n !! sb_Preference t = Some b
        ∧ accepted_child P (sb_Preference t) (blk_Height b) st st') failed st.
Proof.
  intros [HT HM Hlog Hlast Hheight _ _] -> Hn Ht.
  set (P := lastAcceptedID (ts st)) in *. set (rh := lastAcceptedHeight (ts st)) in *.
  pose proof (t_sb _ _ _ _ _ HT P n Hn) as Hsb. rewrite Ht in Hsb. destruct Hsb as [Hok Hch].
  destruct (Hch (sb_Preference t) (sb_Preference_law t Hok)) as [b HX]. set (X := sb_Preference t) in *.
  destruct (tree_inv_root_child _ _ _ _ _ _ _ HT Hn HX) as (HXr & HXid & HXp & HXh & HXd & _).
  unfold acceptPreferredChild. apply wp_bind. eapply wp_some; [exact Ht|]. fold X.
  apply wp_bind. eapply wp_some; [exact HX|].
  apply wp_bind. unfold wp at 1, BlockAcceptor_Accept.
  destruct (acceptor_fails X) eqn:Hf1; [split; [left; eauto|done]|].
  apply wp_bind. unfold wp at 1, vm_Accept.
  destruct (accept_fails (blk_ID b)) eqn:Hf2; [split; [right; left; eauto|done]|].
  do 3 (apply wp_bind, wp_modify). apply wp_bind. unfold wp at 1, range. cbn [ts statuses events seed].
  set (kids := iter_map Block (seed st) (children n)).
  assert (kids ≡ₚ map_to_list (children n)) as Hkids by apply iter_map_perm.
  destruct (filter_kids kids (children n) X Hkids) as [Hnd Hids].
  set (rejects := filter (λ kv : ID * Block, kv.1 ≠ X) kids) in *.
  set (st1 := mkState _ _ _ _).
  assert (log_inv g gh (statuses st1) (events st1)) as Hlog1.
  { apply (log_extend g gh (statuses st) (events st) (EvAccept b)); [done|simpl; congruence|].
    intros b' [= <-]. rewrite <- Hlast, <- Hheight. done. }
  destruct (metrics_Rejected_spec X (ts_metrics (ts st)) (m_wf _ _ _ _ HM) (m_num _ _ _ _ HM)) as (M1 & M2 & M3).
  apply wp_bind. eapply wp_mono; [apply (reject_all rejects st1)| |done]; try done.
  { intros [c bc] [Hne Hin]%list_elem_of_filter. simpl. rewrite Hkids, elem_of_map_to_list in Hin.
    destruct (tree_inv_root_child _ _ _ _ _ _ _ HT Hn Hin) as (_ & Hcid & _ & _ & Hd & _).
    split; [done|]. rewrite HXid. simpl in Hne. by rewrite decided_insert_ne. }
  intros [] st2 [Ht2 Hs2 Hlog2 Hacc2 _ Hat2 Hmw Hmn Hmk].
  assert (blocks (ts st2) = blocks (ts st)) as Hb2 by by rewrite Ht2.
  assert (rejecting P X (blk_Height b) (reverse rejects.*1) st2) as Hrej.
  { split_and!; [|constructor|done].
    - rewrite Hb2. eapply (tree_inv_accept P rh); try done. intros i. rewrite Hs2.
      destruct (decide (i ∈ rejects.*1)); [done|]. simpl. rewrite HXid, lookup_insert.
      destruct (decide (X = i)) as [->|?]; [by rewrite decide_True|by rewrite decide_False].
    - done.
    - intros id. rewrite Hmk. change (id ∈ _) with (id ∈ (processingBlocks (metrics_Rejected X (ts_metrics (ts st)))).*1) at 1.
      rewrite M3, (m_keys _ _ _ _ HM id), Hb2, elem_of_reverse, lookup_delete_is_Some. fold P.
      split; [intros (((H1 & H2 & _) & H3) & H4)|intros ((H1 & H2) & H3 & H4)];
        split_and!; try done; apply not_elem_of_nil.
    - done. }
  unfold rejectTransitively. apply wp_bind, wp_get.
  eapply wp_mono; [eapply (reject_loop_spec P X (blk_Height b)); [exact Hrej|]| |done].
  { apply map_subseteq_size, delete_subseteq. }
  intros [] st3 [Hrej3 [Hr1 Hr2 Hr3 Hr4 Hr5]]. exists b. split; [done|].
  assert (accepted_blocks (events st3) = accepted_blocks (events st) ++ [b]) as Hacc.
  { rewrite Hr4, Hacc2. unfold accepted_blocks. simpl. by rewrite omap_app. }
  constructor; [done|..].
  - unfold log_last. by rewrite Hacc, last_snoc.
  - unfold log_height. by rewrite Hacc, last_snoc.
  - by rewrite <- Hb2.
  - rewrite Hr1, Ht2. done.
  - intros x. rewrite Hr5, Hat2.
    assert (∀ c, is_Some (children n !! c) → c ∈ (processingBlocks (ts_metrics (ts st))).*1) as Hkey.
    { intros c [bc Hc]. destruct (tree_inv_root_child _ _ _ _ _ _ _ HT Hn Hc) as (Hcr & _ & _ & _ & _ & m & Hm & _).
      apply (m_keys _ _ _ _ HM). split_and!; [by eexists|done|apply not_elem_of_nil]. }
    assert (acct st1 x ↔ acct st x) as ->.
    { unfold acct, st1. simpl. change (metrics_Accepted X (ts_metrics (ts st))) with (metrics_Rejected X (ts_metrics (ts st))).
      rewrite M3, fmap_app, elem_of_app. simpl. rewrite list_elem_of_singleton, HXid.
      assert (X ∈ (processingBlocks (ts_metrics (ts st))).*1) by (apply Hkey; by eexists).
      destruct (decide (x = X)); naive_solver. }
    split; [|by left]. intros [?|Hx]; [done|]. left. apply Hids in Hx as [Hx _]. by apply Hkey.
Qed.
End reject.
