(* ===== verification/EngineVotes.v ===== *)
(** * Transitive votes of the Snowman engine

    The topological sort of [calculateInDegree] and [pushVotes].  The first builds the part
    of the block tree that is above the votes, with the number of unprocessed children of
    every block; the second processes each block once, after its children, and hands its
    votes to its parent.  Votes are conserved, so at most one branch can reach an absolute
    majority: the vote stack is a path that ends at the last accepted block. *)

From S2P Require Import Prelude Ids Bag Snowball SnowTree Hashmap Topological EngineTree.

Open Scope Z_scope.

(** ** The graph of the sort *)

Section kahn.
Context {C : Consensus}.
Context (bs : gmap ID snowmanBlock) (root : ID).

Definition parent_of (id : ID) : option ID := n ← bs !! id; b ← blk n; Some (blk_Parent b).

(** The children of [p] in the sort, without the one that is not linked yet. *)
Definition kids_of (nodes : gset ID) (pending : option ID) (p : ID) : gset ID :=
  filter (λ c, c ≠ root ∧ parent_of c = Some p ∧ Some c ≠ pending) nodes.

Definition kahn_total (kn : gmap ID kahnNode) : Z := map_sum ((λ k, Len (k_votes k)) <$> kn).

Definition has_children (p : ID) : Prop := ∃ n, bs !! p = Some n ∧ children n ≠ ∅.

(** The state of [calculateInDegree]: [pending] is a block that is in the graph but not
    yet counted at its parent; [T] is the number of votes so far. *)
Record reg_inv (pending : option ID) (kn : gmap ID kahnNode) (lv : gset ID) (T : Z) : Prop := {
  rg_blocks : ∀ p, p ∈ dom kn → has_children p;
  rg_closed : ∀ c, c ∈ dom kn → c ≠ root → Some c ≠ pending →
    ∃ p, parent_of c = Some p ∧ p ∈ dom kn;
  rg_degree : ∀ p k, kn !! p = Some k →
    inDegree k = Z.of_nat (base.size (kids_of (dom kn) pending p)) ∧ wf_bag (k_votes k);
  rg_leaves : ∀ p, p ∈ lv ↔ p ∈ dom kn ∧ kids_of (dom kn) pending p = ∅;
  rg_total : kahn_total kn = T;
}.

Lemma elem_of_kids nodes pending p c :
  c ∈ kids_of nodes pending p ↔ c ∈ nodes ∧ c ≠ root ∧ parent_of c = Some p ∧ Some c ≠ pending.
Proof. unfold kids_of. rewrite elem_of_filter. tauto. Qed.

Lemma reg_inv_empty : reg_inv None ∅ ∅ 0.
Proof.
  constructor.
  - intros p. rewrite dom_empty_L. set_solver.
  - intros c. rewrite dom_empty_L. set_solver.
  - done.
  - intros p. rewrite dom_empty_L. set_solver.
  - unfold kahn_total. rewrite fmap_empty. apply map_sum_empty.
Qed.

(** A pending root is not pending: it has no parent. *)
Lemma reg_inv_root kn lv T : reg_inv (Some root) kn lv T → reg_inv None kn lv T.
Proof.
  intros [Hb Hc Hd Hl Ht].
  assert (∀ p, kids_of (dom kn) None p = kids_of (dom kn) (Some root) p) as Hk.
  { intros p. apply set_eq. intros c. rewrite !elem_of_kids. naive_solver. }
  constructor; [done| | | |done].
  - intros c Hin Hne _. apply Hc; [done..|]. congruence.
  - intros p k Hp. rewrite Hk. auto.
  - intros p. rewrite Hk. auto.
Qed.

Lemma kahn_total_insert kn p k :
  kahn_total (<[p := k]> kn)
  = Len (k_votes k) + kahn_total kn - default 0 ((λ k, Len (k_votes k)) <$> kn !! p).
Proof. unfold kahn_total. by rewrite fmap_insert, map_sum_insert, lookup_fmap. Qed.

(** By closure a block outside the graph has no children in it. *)
Lemma reg_no_kids pending kn lv T p :
  reg_inv pending kn lv T → p ∉ dom kn → kids_of (dom kn) pending p = ∅.
Proof.
  intros HR Hp. apply set_eq. intros c. rewrite elem_of_kids. split; [|set_solver].
  intros (Hc & Hr & Hpar & Hpend). destruct (rg_closed _ _ _ _ HR c Hc Hr Hpend) as (p' & Hp' & Hin).
  congruence.
Qed.

(** A vote for a child of a block that is in the graph. *)
Lemma reg_inv_seen kn lv T p k votes' :
  reg_inv None kn lv T → kn !! p = Some k → wf_bag votes' →
  reg_inv None (<[p := mkKahn (inDegree k) votes']> kn) lv (T + (Len votes' - Len (k_votes k))).
Proof.
  intros [Hb Hc Hd Hl Ht] Hp Hv.
  assert (dom (<[p := mkKahn (inDegree k) votes']> kn) = dom kn) as Hdom.
  { apply dom_insert_lookup_L. by eexists. }
  constructor; rewrite ?Hdom; [done|done| |done|].
  - intros q k' Hq. rewrite lookup_insert in Hq. case_decide; [|by apply Hd].
    simplify_eq/=. split; [|done]. by apply Hd.
  - rewrite kahn_total_insert, Hp. simpl. lia.
Qed.

(** A vote for a child of a block that is not in the graph: it becomes a leaf. *)
Lemma reg_inv_new kn lv T p votes' :
  reg_inv None kn lv T → p ∉ dom kn → has_children p → wf_bag votes' →
  reg_inv (Some p) (<[p := mkKahn 0 votes']> kn) ({[p]} ∪ lv) (T + Len votes').
Proof.
  intros HR Hp Hch Hv. pose proof HR as [Hb Hc Hd Hl Ht].
  assert (∀ q, kids_of (dom (<[p := mkKahn 0 votes']> kn)) (Some p) q = kids_of (dom kn) None q) as Hk.
  { intros q. apply set_eq. intros c. rewrite !elem_of_kids, dom_insert_L, elem_of_union, elem_of_singleton.
    split; [intros ([->|?] & ? & ? & ?); naive_solver|intros (? & ? & ? & _)].
    split_and!; [by right|done..|]. intros [= ->]. done. }
  pose proof (reg_no_kids _ _ _ _ p HR Hp) as Hnk.
  constructor.
  - intros q. rewrite dom_insert_L, elem_of_union, elem_of_singleton. intros [->|?]; auto.
  - intros c Hin Hr Hpend. rewrite dom_insert_L, elem_of_union, elem_of_singleton in Hin.
    destruct Hin as [->|Hin]; [done|]. destruct (Hc c Hin Hr) as (q & Hq & Hqd); [done|].
    exists q. rewrite dom_insert_L. set_solver.
  - intros q k' Hq. rewrite Hk. rewrite lookup_insert in Hq. case_decide as E; [|by apply Hd].
    subst q. injection Hq as <-. rewrite Hnk, size_empty. done.
  - intros q. rewrite Hk, dom_insert_L, !elem_of_union, elem_of_singleton, Hl. naive_solver.
  - rewrite kahn_total_insert. apply not_elem_of_dom in Hp. rewrite Hp. simpl. lia.
Qed.

(** Linking the pending block [x] to its parent [q]. *)
Lemma kids_link (kn : gmap ID kahnNode) x q p :
  x ∈ dom kn → x ≠ root → parent_of x = Some q →
  kids_of (dom kn) None p
  = if decide (p = q) then {[x]} ∪ kids_of (dom kn) (Some x) p else kids_of (dom kn) (Some x) p.
Proof.
  intros Hx Hr Hq. apply set_eq. intros c.
  case_decide as E; rewrite ?elem_of_union, ?elem_of_singleton, !elem_of_kids.
  - subst. split; [|naive_solver]. intros (? & ? & ? & _). destruct (decide (c = x)); [by left|right].
    split_and!; try done. congruence.
  - split; [|naive_solver]. intros (? & ? & ? & _). split_and!; try done. intros [= ->]. congruence.
Qed.

Lemma reg_inv_link_seen kn lv T x q k :
  reg_inv (Some x) kn lv T → x ∈ dom kn → x ≠ root → parent_of x = Some q → kn !! q = Some k →
  reg_inv None (<[q := mkKahn (inDegree k + 1) (k_votes k)]> kn) (lv ∖ {[q]}) T.
Proof.
  intros [Hb Hc Hd Hl Ht] Hx Hr Hq Hk.
  assert (dom (<[q := mkKahn (inDegree k + 1) (k_votes k)]> kn) = dom kn) as Hdom.
  { apply dom_insert_lookup_L. by eexists. }
  assert (x ∉ kids_of (dom kn) (Some x) q) as Hnx by (rewrite elem_of_kids; tauto).
  constructor; rewrite ?Hdom; [done|..].
  - intros c Hin Hne _. destruct (decide (c = x)) as [->|?]; [|apply Hc; congruence].
    exists q. split; [done|]. apply elem_of_dom. by eexists.
  - intros p k' Hp. rewrite (kids_link kn x q p) by done. rewrite lookup_insert in Hp.
    case_decide as E; [subst q|rewrite decide_False by congruence; by apply Hd].
    injection Hp as <-. simpl. rewrite decide_True by done.
    destruct (Hd p k Hk) as [-> Hw]. split; [|done].
    rewrite size_union by set_solver. rewrite size_singleton. lia.
  - intros p. rewrite (kids_link kn x q p), elem_of_difference, Hl, elem_of_singleton by done.
    case_decide as E; [|tauto]. subst. split; [tauto|]. intros [_ Hnone]. set_solver.
  - rewrite kahn_total_insert, Hk. simpl. lia.
Qed.

Lemma reg_inv_link_new kn lv T x q :
  reg_inv (Some x) kn lv T → x ∈ dom kn → x ≠ root → parent_of x = Some q → q ∉ dom kn → has_children q →
  reg_inv (Some q) (<[q := mkKahn 1 empty_bag]> kn) lv T.
Proof.
  intros HR Hx Hr Hq Hqn Hch. pose proof HR as [Hb Hc Hd Hl Ht].
  set (kn' := <[q := mkKahn 1 empty_bag]> kn).
  assert (dom kn' = {[q]} ∪ dom kn) as Hdom by apply dom_insert_L.
  assert (∀ p, kids_of (dom kn') (Some q) p
               = if decide (p = q) then {[x]} else kids_of (dom kn) (Some x) p) as Hk.
  { intros p. assert (kids_of (dom kn') (Some q) p = kids_of (dom kn) None p) as ->.
    { apply set_eq. intros c. rewrite !elem_of_kids, Hdom, elem_of_union, elem_of_singleton.
      split; [intros ([->|?] & ? & ? & ?); naive_solver|intros (? & ? & ? & _)].
      split_and!; [by right|done..|]. intros [= ->]. done. }
    rewrite (kids_link kn x q p) by done. case_decide as E; [|done]. subst.
    rewrite (reg_no_kids _ _ _ _ q HR Hqn). set_solver. }
  constructor.
  - intros p. rewrite Hdom, elem_of_union, elem_of_singleton. intros [->|?]; auto.
  - intros c Hin Hne Hpend. rewrite Hdom in Hin |- *. destruct (decide (c = x)) as [->|?].
    + exists q. set_solver.
    + assert (c ∈ dom kn) as Hin' by set_solver. destruct (Hc c Hin' Hne) as (p & ? & ?); [congruence|].
      exists p. set_solver.
  - intros p k' Hp. rewrite Hk. unfold kn' in Hp. rewrite lookup_insert in Hp.
    case_decide as E; [subst q|rewrite decide_False by congruence; by apply Hd].
    injection Hp as <-. simpl. rewrite decide_True by done. rewrite size_singleton. split; [done|apply wf_empty_bag].
  - intros p. rewrite Hk, Hdom, Hl, elem_of_union, elem_of_singleton.
    case_decide as E; [subst; split; [intros [? _]; done|intros [_ ?]; set_solver]|]. naive_solver.
  - unfold kn'. rewrite kahn_total_insert. apply not_elem_of_dom in Hqn. rewrite Hqn. simpl. unfold Len. simpl. lia.
Qed.
(** A kahn graph is processed from its leaves: [Pr] are the processed blocks.  The votes
    of a block that is not processed, and those of the root, are still to be used: they
    are the nodes of [live], and their number does not change. *)
Record push_inv (D : gset ID) (kn : gmap ID kahnNode) (lv Pr : gset ID) (live : gmap ID kahnNode) (T : Z)
    : Prop := {
  pv_dom : dom kn = D;
  pv_sub : Pr ⊆ D;
  pv_closed : ∀ p, p ∈ Pr → kids_of D None p ⊆ Pr;
  pv_degree : ∀ p k, kn !! p = Some k →
    wf_bag (k_votes k) ∧ (p ∉ Pr → inDegree k = Z.of_nat (base.size (kids_of D None p ∖ Pr)));
  pv_leaves : ∀ p, p ∈ lv ↔ p ∈ D ∧ p ∉ Pr ∧ kids_of D None p ⊆ Pr;
  pv_live : ∀ p, live !! p = if decide (p ∈ Pr ∧ p ≠ root) then None else kn !! p;
  pv_total : kahn_total live = T;
}.

Lemma push_inv_start kn lv T : reg_inv None kn lv T → push_inv (dom kn) kn lv ∅ kn T.
Proof.
  intros [Hb Hc Hd Hl Ht]. constructor; try done.
  - intros p k Hp. destruct (Hd p k Hp) as [Hdeg Hw]. split; [done|]. intros _.
    by rewrite difference_empty_L.
  - intros p. rewrite Hl. set_solver.
Qed.

(** Two blocks cannot both hold a majority of the votes. *)
Lemma push_inv_majority D kn lv Pr live T alpha p q kp kq :
  push_inv D kn lv Pr live T → T < 2 * alpha → live !! p = Some kp → live !! q = Some kq →
  alpha ≤ Len (k_votes kp) → alpha ≤ Len (k_votes kq) → p = q.
Proof.
  intros [Hdom _ _ Hdeg _ Hlive Htot] HT Hp Hq Hap Haq. destruct (decide (p = q)) as [|Hne]; [done|].
  exfalso. unfold kahn_total in Htot.
  assert (∀ i z, ((λ k, Len (k_votes k)) <$> live) !! i = Some z → 0 ≤ z) as Hnn.
  { intros i z. rewrite lookup_fmap, fmap_Some. intros (k & Hk & ->).
    rewrite Hlive in Hk. case_decide; [done|]. apply Len_nonneg. by apply (Hdeg i). }
  pose proof (map_sum_two_le ((λ k, Len (k_votes k)) <$> live) p q (Len (k_votes kp)) (Len (k_votes kq))) as H.
  rewrite !lookup_fmap, Hp, Hq in H. specialize (H Hnn Hne eq_refl eq_refl). lia.
Qed.

(** The root is processed. *)
Lemma push_inv_root D kn lv Pr live T :
  push_inv D kn lv Pr live T → root ∈ lv → push_inv D kn (lv ∖ {[root]}) ({[root]} ∪ Pr) live T.
Proof.
  intros [Hdom Hsub Hcl Hdeg Hlv Hlive Htot] Hroot. apply Hlv in Hroot as (HrD & HrP & Hkids).
  assert (∀ p, root ∉ kids_of D None p) as Hnk by (intros p; rewrite elem_of_kids; naive_solver).
  constructor; try done.
  - set_solver.
  - intros p [->%elem_of_singleton|Hp]%elem_of_union; [set_solver|]. specialize (Hcl p Hp). set_solver.
  - intros p k Hk. destruct (Hdeg p k Hk) as [Hw Hd]. split; [done|]. intros Hp. rewrite Hd by set_solver.
    do 2 f_equal. specialize (Hnk p). set_solver.
  - intros p. rewrite elem_of_difference, Hlv. specialize (Hnk p). set_solver.
  - intros p. rewrite Hlive. destruct (decide (p ∈ Pr ∧ p ≠ root)) as [[? ?]|Hn].
    + rewrite decide_True; [done|]. set_solver.
    + rewrite decide_False; [done|]. set_solver.
Qed.

(** Another block [x] is processed: its parent [q] receives its votes. *)
Definition receive (k : kahnNode) (x : ID) (votes : Z) : kahnNode :=
  mkKahn (inDegree k - 1) (AddCount (k_votes k) x votes).

Lemma push_inv_node D kn lv Pr live T x q kx kq :
  push_inv D kn lv Pr live T → x ∈ lv → x ≠ root → parent_of x = Some q → q ≠ x →
  kn !! x = Some kx → kn !! q = Some kq →
  let kq' := receive kq x (Len (k_votes kx)) in
  push_inv D (<[q := kq']> kn)
    (if inDegree kq' =? 0 then {[q]} ∪ lv ∖ {[x]} else lv ∖ {[x]}) ({[x]} ∪ Pr)
    (delete x (<[q := kq']> live)) T
  ∧ q ∉ Pr ∧ q ∈ D.
Proof.
  intros [Hdom Hsub Hcl Hdeg Hlv Hlive Htot] Hx Hxr Hpar Hqx Hkx Hkq kq'.
  apply Hlv in Hx as (HxD & HxP & Hkids).
  assert (q ∈ D) as HqD by (rewrite <- Hdom; apply elem_of_dom; by eexists).
  assert (x ∈ kids_of D None q) as Hxk by (rewrite elem_of_kids; done).
  assert (q ∉ Pr) as HqP by (intros H; apply HxP; by apply (Hcl q)).
  assert (∀ p, p ≠ q → x ∉ kids_of D None p) as Hxo by (intros p Hp; rewrite elem_of_kids; naive_solver).
  destruct (Hdeg q kq Hkq) as [Hwq Hdq]. specialize (Hdq HqP).
  destruct (Hdeg x kx Hkx) as [Hwx _]. pose proof (Len_nonneg _ Hwx) as Hlx.
  assert (inDegree kq' = Z.of_nat (base.size (kids_of D None q ∖ ({[x]} ∪ Pr)))) as Hdq'.
  { unfold kq', receive. simpl. rewrite Hdq.
    assert (kids_of D None q ∖ Pr = {[x]} ∪ kids_of D None q ∖ ({[x]} ∪ Pr)) as ->.
    { apply set_eq. intros c. rewrite elem_of_union, !elem_of_difference, elem_of_union, elem_of_singleton.
      destruct (decide (c = x)); naive_solver. }
    rewrite size_union, size_singleton; [lia|]. intros c. rewrite elem_of_difference, elem_of_union. tauto. }
  split; [|done]. constructor.
  - rewrite dom_insert_lookup_L by by eexists. done.
  - apply union_subseteq. split; [by apply singleton_subseteq_l|done].
  - intros p [->%elem_of_singleton|Hp]%elem_of_union; (etrans; [|apply union_subseteq_r]); auto.
  - intros p k Hk. rewrite lookup_insert in Hk. case_decide as E.
    + subst p. injection Hk as <-. split; [apply wf_AddCount; done|]. done.
    + destruct (Hdeg p k Hk) as [Hw Hd]. split; [done|]. intros Hp%not_elem_of_union. rewrite Hd by tauto.
      do 2 f_equal. apply set_eq. intros c. rewrite !elem_of_difference, elem_of_union, elem_of_singleton.
      specialize (Hxo p). naive_solver.
  - intros p. assert (inDegree kq' = 0 ↔ kids_of D None q ⊆ {[x]} ∪ Pr) as Hz.
    { rewrite Hdq'. split; [|intros H].
      - intros H. assert (base.size (kids_of D None q ∖ ({[x]} ∪ Pr)) = 0%nat) as Hz by lia.
        apply size_empty_inv in Hz. intros c Hc. destruct (decide (c ∈ {[x]} ∪ Pr)); [done|].
        exfalso. apply (not_elem_of_empty (C := gset ID) c), Hz. by apply elem_of_difference.
      - rewrite subseteq_empty_difference_L by done. by rewrite size_empty. }
    destruct (decide (p = q)) as [->|Hne].
    + destruct (inDegree kq' =? 0) eqn:E; [|].
      * apply Z.eqb_eq, Hz in E. rewrite elem_of_union, elem_of_singleton, not_elem_of_union, elem_of_difference,
          elem_of_singleton. tauto.
      * apply Z.eqb_neq in E. rewrite elem_of_difference, Hlv, elem_of_singleton.
        split; [intros ((_ & _ & H) & _)|intros (_ & _ & H); tauto]. exfalso. by apply HxP, H.
    + assert (p ∈ (if inDegree kq' =? 0 then {[q]} ∪ lv ∖ {[x]} else lv ∖ {[x]}) ↔ p ∈ lv ∧ p ≠ x) as ->.
      { destruct (inDegree kq' =? 0); rewrite ?elem_of_union, elem_of_difference, ?elem_of_singleton; tauto. }
      rewrite Hlv, not_elem_of_union, elem_of_singleton. specialize (Hxo p Hne).
      assert (kids_of D None p ⊆ {[x]} ∪ Pr ↔ kids_of D None p ⊆ Pr) as ->; [|tauto].
      split; [|intros H; etrans; [exact H|apply union_subseteq_r]].
      intros H c Hc. apply H in Hc as Hc'. rewrite elem_of_union, elem_of_singleton in Hc'.
      destruct Hc' as [->|?]; done.
  - intros p. rewrite lookup_delete, !lookup_insert, Hlive.
    destruct (decide (x = p)) as [<-|Hxp]; [by rewrite decide_True by (rewrite elem_of_union, elem_of_singleton; tauto)|].
    assert (p ∈ {[x]} ∪ Pr ↔ p ∈ Pr) as Hp by (rewrite elem_of_union, elem_of_singleton; naive_solver).
    destruct (decide (q = p)) as [<-|Hqp]; [by rewrite decide_False by tauto|].
    destruct (decide (p ∈ Pr ∧ p ≠ root)); [rewrite decide_True|rewrite decide_False]; tauto.
  - assert (live !! q = Some kq) as Hlq by (by rewrite Hlive, decide_False by tauto).
    assert (live !! x = Some kx) as Hlx' by (by rewrite Hlive, decide_False by tauto).
    assert (<[q := kq']> live !! x = Some kx) as Hix by (by rewrite lookup_insert_ne).
    pose proof (kahn_total_insert live q kq') as Hi. rewrite Hlq in Hi. simpl in Hi.
    rewrite Len_AddCount in Hi by done. unfold kahn_total in Hi, Htot |- *.
    rewrite (map_sum_delete _ x (Len (k_votes kx))) in Hi by (by rewrite lookup_fmap, Hix).
    rewrite fmap_delete. lia.
Qed.
End kahn.

(** ** [calculateInDegree] *)

Section engine.
Context {C : Consensus} {L : ConsensusLaws C}.
Context (iter_map : ∀ A, nat → gmap ID A → list (ID * A)) (iter_set : nat → gset ID → list ID).
Context (iter_map_perm : ∀ A seed (m : gmap ID A), iter_map A seed m ≡ₚ map_to_list m).
Context (iter_set_perm : ∀ seed X, iter_set seed X ≡ₚ elements X).

Section tree.
Context (root : ID) (rh : Z) (bs : gmap ID snowmanBlock) (ss : gmap ID Status).
Context (HT : tree_inv root rh bs ss []).

Lemma tree_node id n :
  bs !! id = Some n → id ≠ root →
  ∃ b p, blk n = Some b ∧ blk_ID b = id ∧ decided ss id = false ∧ bs !! blk_Parent b = Some p
    ∧ children p !! id = Some b ∧ blk_Height b = hgt rh p + 1
    ∧ parent_of bs id = Some (blk_Parent b) ∧ has_children bs (blk_Parent b).
Proof.
  intros Hn Hne. destruct (t_node _ _ _ _ _ HT id n Hn Hne) as (b & p & Hb & Hid & Hd & Hp & Hc & Hh);
    [apply not_elem_of_nil|].
  exists b, p. split_and!; try done.
  - unfold parent_of. rewrite Hn. simpl. rewrite Hb. done.
  - exists p. split; [done|]. intros E. rewrite E in Hc. by rewrite lookup_empty in Hc.
Qed.

(** Only the last accepted block of the tree is accepted. *)
Lemma node_Accepted_tree st id n (Q : bool → State → Prop) E :
  statuses st = ss → bs !! id = Some n → Q (bool_decide (id = root)) st → wp (node_Accepted n) Q E st.
Proof.
  intros Hs Hn HQ. unfold node_Accepted. destruct (decide (id = root)) as [->|Hne].
  - destruct (t_root _ _ _ _ _ HT) as (r & Hr & Hb). rewrite Hn in Hr. injection Hr as <-.
    rewrite bool_decide_eq_true_2 in HQ by done. destruct (blk n) as [b|]; [|done].
    destruct Hb as (Hid & _ & Hst). change (Q (bool_decide (status_of st (blk_ID b) = Accepted)) st).
    unfold status_of. by rewrite Hs, Hid, Hst, bool_decide_eq_true_2.
  - destruct (tree_node id n Hn Hne) as (b & p & Hb & Hid & Hd & _). rewrite Hb, <- Hid in *.
    rewrite bool_decide_eq_false_2 in HQ by done.
    change (Q (bool_decide (status_of st (blk_ID b) = Accepted)) st).
    rewrite bool_decide_eq_false_2; [done|]. unfold status_of. rewrite Hs. intros Ha.
    unfold decided in Hd. by rewrite Ha in Hd.
Qed.

(** The number of lower blocks decreases towards the root. *)
Definition rank (n : snowmanBlock) : nat := base.size (filter (λ kv : ID * snowmanBlock, hgt rh kv.2 < hgt rh n) bs).

Lemma rank_lt_size id n : bs !! id = Some n → (rank n < base.size bs)%nat.
Proof.
  intros Hn. unfold rank.
  assert (filter (λ kv : ID * snowmanBlock, hgt rh kv.2 < hgt rh n) bs ⊆ delete id bs) as Hsub.
  { apply map_subseteq_spec. intros i m. rewrite map_lookup_filter_Some. simpl. intros [Hi Hlt].
    apply lookup_delete_Some. split; [|done]. intros <-. rewrite Hn in Hi. injection Hi as <-. lia. }
  apply map_subseteq_size in Hsub. rewrite map_size_delete_Some in Hsub by by eexists.
  assert (base.size bs ≠ 0%nat); [|lia]. intros Hz. apply map_size_empty_inv in Hz. by rewrite Hz in Hn.
Qed.

Lemma rank_parent n q p : bs !! q = Some p → hgt rh p < hgt rh n → (rank p < rank n)%nat.
Proof.
  intros Hq Hlt. unfold rank.
  assert (filter (λ kv : ID * snowmanBlock, hgt rh kv.2 < hgt rh p) bs
          ⊆ delete q (filter (λ kv : ID * snowmanBlock, hgt rh kv.2 < hgt rh n) bs)) as Hsub.
  { apply map_subseteq_spec. intros i m. rewrite map_lookup_filter_Some. simpl. intros [Hi Hl].
    apply lookup_delete_Some. split; [intros <-; rewrite Hq in Hi; injection Hi as <-; lia|].
    apply map_lookup_filter_Some. simpl. split; [done|lia]. }
  apply map_subseteq_size in Hsub.
  assert (filter (λ kv : ID * snowmanBlock, hgt rh kv.2 < hgt rh n) bs !! q = Some p) as Hqf
    by (by apply map_lookup_filter_Some).
  rewrite map_size_delete_Some in Hsub by by eexists.
  assert (base.size (filter (λ kv : ID * snowmanBlock, hgt rh kv.2 < hgt rh n) bs) ≠ 0%nat); [|lia].
  intros Hz. apply map_size_empty_inv in Hz. by rewrite Hz in Hqf.
Qed.
End tree.

(** The sort only changes its own fields. *)
Record kahn_frame (st st' : State) : Prop := {
  kf_ts : ts st' = set_leaves (λ _, leaves (ts st')) (set_kahnNodes (λ _, kahnNodes (ts st')) (ts st));
  kf_statuses : statuses st' = statuses st;
  kf_events : events st' = events st;
}.

Lemma kahn_frame_refl st : kahn_frame st st.
Proof. constructor; try done. by destruct (ts st). Qed.

Lemma kahn_frame_trans st1 st2 st3 : kahn_frame st1 st2 → kahn_frame st2 st3 → kahn_frame st1 st3.
Proof. intros [T1 S1 E1] [T2 S2 E2]. constructor; [rewrite T2, T1; done|congruence..]. Qed.

Lemma kahn_frame_blocks st st' : kahn_frame st st' → blocks (ts st') = blocks (ts st).
Proof. intros [T _ _]. by rewrite T. Qed.

(** The tree of the state [st]. *)
Definition state_tree (st : State) : Prop :=
  tree_inv (lastAcceptedID (ts st)) (lastAcceptedHeight (ts st)) (blocks (ts st)) (statuses st) [].

Lemma kahn_frame_tree st st' : kahn_frame st st' → state_tree st → state_tree st'.
Proof. intros [T S _] H. unfold state_tree. rewrite T, S. exact H. Qed.

Definition registering (pending : option ID) (T : Z) (st : State) : Prop :=
  reg_inv (blocks (ts st)) (lastAcceptedID (ts st)) pending (kahnNodes (ts st)) (leaves (ts st)) T.

Lemma mark_ancestors_spec E fuel x n T st :
  state_tree st → blocks (ts st) !! x = Some n → x ∈ dom (kahnNodes (ts st)) →
  registering (Some x) T st → (rank (lastAcceptedHeight (ts st)) (blocks (ts st)) n < fuel)%nat →
  wp (mark_ancestors fuel x) (λ _ st', kahn_frame st st' ∧ registering None T st') E st.
Proof.
  revert x n st. induction fuel as [|fuel IH]; intros x n st HT Hx Hin Hreg Hf; [lia|].
  cbn [mark_ancestors]. apply wp_bind, wp_get, wp_bind. eapply wp_some; [exact Hx|].
  apply wp_bind. eapply node_Accepted_tree; [exact HT|done|exact Hx|].
  case_bool_decide as Hr.
  { subst x. apply wp_ret. split; [apply kahn_frame_refl|]. by apply reg_inv_root. }
  destruct (tree_node _ _ _ _ HT x n Hx Hr) as (b & p & Hb & Hid & Hd & Hp & Hc & Hh & Hpar & Hch).
  apply wp_bind. eapply wp_some; [exact Hb|].
  assert (hgt (lastAcceptedHeight (ts st)) n = blk_Height b) as Hhn by (unfold hgt; by rewrite Hb).
  destruct (kahnNodes (ts st) !! blk_Parent b) as [k|] eqn:Hk; cbn [default from_option].
  - rewrite bool_decide_eq_true_2 by by eexists. do 1 (apply wp_bind, wp_modify). apply wp_modify.
    split; [constructor; done|]. by eapply reg_inv_link_seen.
  - rewrite bool_decide_eq_false_2 by (intros [? ?]; done).
    apply wp_bind, wp_modify. set (st1 := mkState _ _ _ _).
    assert (kahn_frame st st1) as Hfr by (constructor; [by destruct (ts st)|done..]).
    eapply wp_mono; [apply (IH (blk_Parent b) p st1)| |done].
    + by eapply kahn_frame_tree.
    + done.
    + simpl. rewrite dom_insert_L. set_solver.
    + apply (reg_inv_link_new (blocks (ts st)) (lastAcceptedID (ts st)) _ _ _ x); try done.
      by apply not_elem_of_dom.
    + simpl. pose proof (rank_parent (lastAcceptedHeight (ts st)) (blocks (ts st)) n _ p Hp). lia.
    + intros [] st' [Hf' Hr']. split; [by eapply kahn_frame_trans|done].
Qed.

Lemma register_vote_spec E voteBag v T st :
  state_tree st → wf_bag voteBag → registering None T st →
  wp (register_vote voteBag v)
     (λ _ st', kahn_frame st st' ∧ ∃ T', registering None T' st' ∧ T ≤ T' ≤ T + Count voteBag v) E st.
Proof.
  intros HT Hbag Hreg. pose proof (Count_nonneg voteBag v Hbag) as Hcount.
  unfold register_vote. apply wp_bind, wp_get.
  destruct (blocks (ts st) !! v) as [n|] eqn:Hv; [|split; [apply kahn_frame_refl|exists T; split; [done|lia]]].
  apply wp_bind. eapply node_Accepted_tree; [exact HT|done|exact Hv|].
  case_bool_decide as Hr; [split; [apply kahn_frame_refl|exists T; split; [done|lia]]|].
  destruct (tree_node _ _ _ _ HT v n Hv Hr) as (b & p & Hb & Hid & Hd & Hp & Hc & Hh & Hpar & Hch).
  apply wp_bind. eapply wp_some; [exact Hb|].
  destruct (kahnNodes (ts st) !! blk_Parent b) as [k|] eqn:Hk; cbn [default from_option].
  - rewrite bool_decide_eq_true_2 by by eexists. apply wp_bind, wp_modify, wp_ret.
    split; [constructor; [by destruct (ts st)|done..]|]. exists (T + Count voteBag v). split; [|lia].
    destruct (rg_degree _ _ _ _ _ _ Hreg _ k Hk) as [_ Hwf].
    pose proof (reg_inv_seen (blocks (ts st)) (lastAcceptedID (ts st)) _ _ T _ k
      (AddCount (k_votes k) v (Count voteBag v)) Hreg Hk (wf_AddCount _ _ _ Hwf)) as H.
    rewrite Len_AddCount in H by done.
    replace (T + (Len (k_votes k) + Count voteBag v - Len (k_votes k))) with (T + Count voteBag v) in H by lia.
    exact H.
  - rewrite bool_decide_eq_false_2 by (intros [? ?]; done).
    do 2 (apply wp_bind, wp_modify). set (st1 := mkState _ _ _ _).
    assert (kahn_frame st st1) as Hfr by (constructor; done).
    eapply wp_mono; [apply (mark_ancestors_spec E _ (blk_Parent b) p (T + Count voteBag v) st1)| |done].
    + by eapply kahn_frame_tree.
    + done.
    + simpl. rewrite dom_insert_L. set_solver.
    + assert (Len (AddCount (k_votes zero_kahn) v (Count voteBag v)) = Count voteBag v) as Hlen
        by (rewrite Len_AddCount by done; unfold Len; simpl; lia).
      rewrite <- Hlen at 1. apply reg_inv_new; try done; [by apply not_elem_of_dom|].
      apply wf_AddCount, wf_empty_bag.
    + simpl. pose proof (rank_lt_size (lastAcceptedHeight (ts st)) (blocks (ts st)) _ p Hp). lia.
    + intros [] st' [Hf' Hr']. split; [by eapply kahn_frame_trans|]. exists (T + Count voteBag v). split; [done|lia].
Qed.

(** The votes of a bag, counted in any order. *)
Lemma Count_sum (b : Bag ID) order :
  wf_bag b → order ≡ₚ map_to_list (counts b) →
  foldr (λ v acc, Count b v + acc) 0 order.*1 = Len b.
Proof.
  intros [_ Hs] Hord. unfold Len. rewrite Hs. unfold map_sum. rewrite map_fold_foldr.
  assert (∀ p, p ∈ order → Count b p.1 = p.2) as Hc.
  { intros [v c] Hin. rewrite Hord, elem_of_map_to_list in Hin. unfold Count. simpl. by rewrite Hin. }
  transitivity (foldr (λ p acc, p.2 + acc) 0 order).
  - clear Hord. induction order as [|p order IH]; [done|]. rewrite fmap_cons. cbn [foldr].
    rewrite IH by (intros q Hq; apply Hc; by right). by rewrite Hc by by left.
  - transitivity (foldr (λ p acc, p.2 + acc) 0 (map_to_list (counts b))).
    + clear Hc. induction Hord; simpl in *; lia.
    + clear Hord. induction (map_to_list (counts b)) as [|[v c] l IH]; simpl; [done|]. by rewrite IH.
Qed.

(** After the votes were registered the graph holds at most as many votes as the bag. *)
Lemma calculateInDegree_spec E voteBag st :
  state_tree st → wf_bag voteBag →
  wp (calculateInDegree iter_map voteBag)
     (λ _ st', kahn_frame st st' ∧ ∃ T, registering None T st' ∧ T ≤ Len voteBag) E st.
Proof.
  intros HT Hbag. unfold calculateInDegree. do 2 (apply wp_bind, wp_modify).
  apply wp_bind. unfold wp at 1, range. cbn [ts statuses events seed].
  set (order := iter_map Z (seed st) (counts voteBag)). set (st1 := mkState _ _ _ _).
  assert (order ≡ₚ map_to_list (counts voteBag)) as Hord by apply iter_map_perm.
  assert (kahn_frame st st1) as Hfr by (constructor; done).
  eapply wp_mono; [apply (wp_for_each (register_vote voteBag)
    (λ seen st', kahn_frame st st' ∧ ∃ T, registering None T st'
                 ∧ T ≤ foldr (λ v acc, Count voteBag v + acc) 0 seen) E order.*1 [] st1)| |done].
  - split; [done|]. exists 0. split; [|simpl; lia]. apply reg_inv_empty.
  - intros seen v todo st' _ (Hf' & T & Hreg & HTle).
    eapply wp_mono; [apply (register_vote_spec E voteBag v T st')| |done]; [by eapply kahn_frame_tree|done..|].
    intros [] st'' (Hf'' & T' & Hreg' & HT'). split; [by eapply kahn_frame_trans|].
    exists T'. split; [done|]. rewrite foldr_app. simpl.
    assert (∀ l z, foldr (λ v acc, Count voteBag v + acc) z l = foldr (λ v acc, Count voteBag v + acc) 0 l + z) as Hz.
    { induction l as [|a l IH]; intros z; simpl; [lia|]. rewrite IH. lia. }
    rewrite Hz. lia.
  - intros [] st' (Hf' & T & Hreg & HTle). split; [done|]. exists T. split; [done|]. simpl in HTle.
    rewrite (Count_sum voteBag order Hbag Hord) in HTle. done.
Qed.
(** ** [pushVotes] *)

(** A branch of the tree, from the top: each block is the parent of the next one, and all
    have children to vote on. *)
Fixpoint vote_path (bs : gmap ID snowmanBlock) (root : ID) (l : list vote_entry) : Prop :=
  match l with
  | [] => True
  | (p, _) :: l =>
      has_children bs p
      ∧ match l with [] => True | (c, _) :: _ => c ≠ root ∧ parent_of bs c = Some p end
      ∧ vote_path bs root l
  end.

Definition graph_ok (bs : gmap ID snowmanBlock) (root : ID) (D : gset ID) : Prop :=
  (∀ p, p ∈ D → has_children bs p)
  ∧ (∀ c, c ∈ D → c ≠ root → ∃ p, parent_of bs c = Some p ∧ p ∈ D).

(** The last block that was pushed gave its majority to its parent, which is not yet
    processed, or it is the root. *)
Definition stack_top (bs : gmap ID snowmanBlock) (root : ID) (alpha : Z) (Pr : gset ID)
    (live : gmap ID kahnNode) (l : list vote_entry) : Prop :=
  match l with
  | [] => True
  | (x, _) :: _ => ∃ q k, live !! q = Some k ∧ alpha ≤ Len (k_votes k)
      ∧ if decide (x = root) then q = root ∧ root ∈ Pr else parent_of bs x = Some q ∧ q ∉ Pr
  end.

Definition pushing (D Pr : gset ID) (voteStack : list vote_entry) (st : State) : Prop :=
  let bs := blocks (ts st) in
  let root := lastAcceptedID (ts st) in
  let alpha := AlphaPreference (params (ts st)) in
  ∃ live T, push_inv bs root D (kahnNodes (ts st)) (leaves (ts st)) Pr live T
    ∧ T < 2 * alpha ∧ vote_path bs root (reverse voteStack)
    ∧ stack_top bs root alpha Pr live (reverse voteStack).

(** When no leaf is left every block was processed. *)
Lemma push_done root rh bs ss D kn Pr live T :
  tree_inv root rh bs ss [] → graph_ok bs root D → push_inv bs root D kn ∅ Pr live T → Pr = D.
Proof.
  intros HT [Hch Hcl] [Hdom Hsub _ _ Hlv _ _].
  assert (∀ m p n, bs !! p = Some n → p ∈ D → (base.size bs - rank rh bs n < m)%nat → p ∈ Pr) as Hall.
  { induction m as [|m IH]; intros p n Hn Hp Hm; [lia|].
    destruct (decide (p ∈ Pr)) as [|Hnp]; [done|]. exfalso. apply (not_elem_of_empty (C := gset ID) p), Hlv.
    split_and!; [done..|]. intros c (HcD & Hcr & Hpar & _)%elem_of_kids.
    destruct (Hch c HcD) as (nc & Hnc & _).
    destruct (tree_node _ _ _ _ HT c nc Hnc Hcr) as (b & p' & Hb & _ & _ & Hp' & _ & Hh & Hpar' & _).
    rewrite Hpar in Hpar'. injection Hpar' as ->. rewrite Hn in Hp'. injection Hp' as <-.
    assert (hgt rh nc = blk_Height b) as Hhc by (unfold hgt; by rewrite Hb).
    pose proof (rank_parent rh bs nc (blk_Parent b) n Hn ltac:(lia)).
    pose proof (rank_lt_size rh bs c nc Hnc). apply (IH c nc); [done..|lia]. }
  apply set_eq. intros p. split; [by apply Hsub|]. intros Hp. destruct (Hch p Hp) as (n & Hn & _).
  by apply (Hall (S (base.size bs - rank rh bs n)) p n Hn Hp); lia.
Qed.

Lemma push_size (D Pr : gset ID) x : Pr ⊆ D → x ∈ D → x ∉ Pr →
  base.size (D ∖ Pr) = S (base.size (D ∖ ({[x]} ∪ Pr))).
Proof.
  intros Hs Hx Hn. assert (D ∖ Pr = {[x]} ∪ D ∖ ({[x]} ∪ Pr)) as ->.
  { apply set_eq. intros c. rewrite elem_of_union, !elem_of_difference, elem_of_union, elem_of_singleton.
    destruct (decide (c = x)); naive_solver. }
  rewrite size_union, size_singleton; [done|]. intros c. rewrite elem_of_difference, elem_of_union. tauto.
Qed.

(** The next entry of the stack is above the last one. *)
Lemma stack_push bs root alpha D kn lv Pr live T x k stack :
  push_inv bs root D kn lv Pr live T → T < 2 * alpha → x ∈ lv → kn !! x = Some k →
  alpha ≤ Len (k_votes k) → has_children bs x →
  vote_path bs root stack → stack_top bs root alpha Pr live stack →
  vote_path bs root ((x, k_votes k) :: stack).
Proof.
  intros HP HT Hx Hk Ha Hch Hpath Htop. split_and!; [done| |done].
  destruct stack as [|[A v] stack]; [done|]. destruct Htop as (q & kq & Hq & Haq & HA).
  pose proof (proj1 (pv_leaves _ _ _ _ _ _ _ _ HP x) Hx) as (_ & HxP & _).
  assert (live !! x = Some k) as Hlx by (rewrite (pv_live _ _ _ _ _ _ _ _ HP), decide_False by tauto; done).
  pose proof (push_inv_majority bs root D kn lv Pr live T alpha x q k kq HP HT Hlx Hq Ha Haq) as <-.
  case_decide as E; naive_solver.
Qed.

Definition pushed (alpha : Z) (x : ID) (k : kahnNode) (stack : list vote_entry) : list vote_entry :=
  if alpha <=? Len (k_votes k) then (x, k_votes k) :: stack else stack.

Lemma stack_pushed bs root alpha D kn lv Pr live T x k stack :
  push_inv bs root D kn lv Pr live T → T < 2 * alpha → x ∈ lv → kn !! x = Some k → has_children bs x →
  vote_path bs root stack → stack_top bs root alpha Pr live stack →
  vote_path bs root (pushed alpha x k stack).
Proof.
  intros. unfold pushed. destruct (Z.leb_spec alpha (Len (k_votes k))); [|done]. by eapply stack_push.
Qed.

Lemma stack_top_root bs root alpha D kn lv Pr live T k stack :
  push_inv bs root D kn lv Pr live T → root ∈ lv → kn !! root = Some k →
  stack_top bs root alpha Pr live stack → stack_top bs root alpha ({[root]} ∪ Pr) live (pushed alpha root k stack).
Proof.
  intros HP Hx Hk Htop. pose proof (proj1 (pv_leaves _ _ _ _ _ _ _ _ HP root) Hx) as (_ & HrP & _).
  assert (live !! root = Some k) as Hl by (rewrite (pv_live _ _ _ _ _ _ _ _ HP), decide_False by tauto; done).
  unfold pushed. destruct (Z.leb_spec alpha (Len (k_votes k))) as [Ha|Ha].
  - exists root, k. rewrite decide_True by done. split_and!; try done. apply elem_of_union. left.
    by apply elem_of_singleton.
  - destruct stack as [|[A v] stack]; [done|]. destruct Htop as (q & kq & Hq & Haq & HA).
    exists q, kq. split_and!; [done..|]. case_decide as E; [naive_solver|]. split; [tauto|].
    intros [->%elem_of_singleton|?]%elem_of_union; [|tauto]. rewrite Hl in Hq. injection Hq as ->. lia.
Qed.

Lemma stack_top_node bs root alpha D kn lv Pr live T x q kx kq stack :
  push_inv bs root D kn lv Pr live T → x ∈ lv → x ≠ root → parent_of bs x = Some q → q ≠ x → q ∉ Pr →
  kn !! x = Some kx → kn !! q = Some kq → stack_top bs root alpha Pr live stack →
  stack_top bs root alpha ({[x]} ∪ Pr) (delete x (<[q := receive kq x (Len (k_votes kx))]> live))
    (pushed alpha x kx stack).
Proof.
  intros HP Hx Hxr Hpar Hqx HqP Hkx Hkq Htop.
  pose proof (proj1 (pv_leaves _ _ _ _ _ _ _ _ HP x) Hx) as (_ & HxP & _).
  assert (live !! x = Some kx) as Hlx by (rewrite (pv_live _ _ _ _ _ _ _ _ HP), decide_False by tauto; done).
  assert (live !! q = Some kq) as Hlq by (rewrite (pv_live _ _ _ _ _ _ _ _ HP), decide_False by tauto; done).
  pose proof (Len_nonneg _ (proj1 (pv_degree _ _ _ _ _ _ _ _ HP x kx Hkx))) as Hnx.
  pose proof (Len_nonneg _ (proj1 (pv_degree _ _ _ _ _ _ _ _ HP q kq Hkq))) as Hnq.
  assert (Len (k_votes (receive kq x (Len (k_votes kx)))) = Len (k_votes kq) + Len (k_votes kx)) as Hlen
    by (apply Len_AddCount; done).
  unfold pushed. destruct (Z.leb_spec alpha (Len (k_votes kx))) as [Ha|Ha].
  - exists q, (receive kq x (Len (k_votes kx))).
    rewrite decide_False, lookup_delete_ne, lookup_insert_eq by done. split_and!; [done|lia|done|].
    rewrite elem_of_union, elem_of_singleton. tauto.
  - destruct stack as [|[A v] stack]; [done|]. destruct Htop as (p & kp & Hp & Hap & HA).
    assert (p ≠ x) as Hpx by (intros ->; rewrite Hlx in Hp; injection Hp as <-; lia).
    destruct (decide (p = q)) as [->|Hpq].
    + exists q, (receive kq x (Len (k_votes kx))). rewrite lookup_delete_ne, lookup_insert_eq by done.
      rewrite Hlq in Hp. injection Hp as <-. split_and!; [done|lia|]. case_decide; [naive_solver|].
      split; [tauto|]. rewrite elem_of_union, elem_of_singleton. tauto.
    + exists p, kp. rewrite lookup_delete_ne, lookup_insert_ne by done. split_and!; [done..|].
      case_decide; rewrite elem_of_union, elem_of_singleton; tauto.
Qed.

Lemma iter_set_head seed X :
  match head (iter_set seed X) with Some x => x ∈ X | None => X = ∅ end.
Proof.
  pose proof (iter_set_perm seed X) as Hp. destruct (iter_set seed X) as [|x l] eqn:E; simpl.
  - symmetry in Hp. apply Permutation_nil_r in Hp. by apply leibniz_equiv, elements_empty_iff.
  - apply elem_of_elements. rewrite <- Hp. by left.
Qed.

(** One step of the loop. *)
Lemma push_step_root D Pr voteStack st st' k :
  pushing D Pr voteStack st → graph_ok (blocks (ts st)) (lastAcceptedID (ts st)) D →
  lastAcceptedID (ts st) ∈ leaves (ts st) → kahnNodes (ts st) !! lastAcceptedID (ts st) = Some k →
  ts st' = set_leaves (λ l, l ∖ {[lastAcceptedID (ts st)]}) (ts st) →
  pushing D ({[lastAcceptedID (ts st)]} ∪ Pr)
    (reverse (pushed (AlphaPreference (params (ts st))) (lastAcceptedID (ts st)) k (reverse voteStack))) st'.
Proof.
  intros (live & T & HI & HT2 & Hpath & Htop) [Hch _] Hx Hk Ht. unfold pushing. rewrite Ht, reverse_involutive. simpl.
  pose proof (proj1 (pv_leaves _ _ _ _ _ _ _ _ HI _) Hx) as (HxD & _ & _).
  exists live, T. split_and!; [by apply push_inv_root|done|eapply stack_pushed; [exact HI|done|exact Hx|exact Hk|by apply Hch|done|done]|by eapply stack_top_root].
Qed.

Lemma push_step_node D Pr voteStack st st' x q kx kq :
  pushing D Pr voteStack st → graph_ok (blocks (ts st)) (lastAcceptedID (ts st)) D →
  x ∈ leaves (ts st) → x ≠ lastAcceptedID (ts st) → parent_of (blocks (ts st)) x = Some q → q ≠ x →
  kahnNodes (ts st) !! x = Some kx → kahnNodes (ts st) !! q = Some kq →
  let kq' := receive kq x (Len (k_votes kx)) in
  ts st' = set_leaves (λ l, if inDegree kq' =? 0 then {[q]} ∪ l ∖ {[x]} else l ∖ {[x]})
             (set_kahnNodes (insert q kq') (ts st)) →
  pushing D ({[x]} ∪ Pr)
    (reverse (pushed (AlphaPreference (params (ts st))) x kx (reverse voteStack))) st'.
Proof.
  intros (live & T & HI & HT2 & Hpath & Htop) [Hch _] Hx Hxr Hpar Hqx Hkx Hkq kq' Ht.
  unfold pushing. rewrite Ht, reverse_involutive. simpl.
  pose proof (proj1 (pv_leaves _ _ _ _ _ _ _ _ HI _) Hx) as (HxD & _ & _).
  destruct (push_inv_node _ _ _ _ _ _ _ _ x q kx kq HI Hx Hxr Hpar Hqx Hkx Hkq) as (HI' & HqP & _).
  eexists _, T. split_and!; [exact HI'|done|eapply stack_pushed; [exact HI|done|exact Hx|exact Hkx|by apply Hch|done|done]|by eapply stack_top_node].
Qed.

Lemma push_loop_spec E fuel voteStack D Pr st :
  state_tree st → graph_ok (blocks (ts st)) (lastAcceptedID (ts st)) D → pushing D Pr voteStack st →
  (base.size (D ∖ Pr) ≤ fuel)%nat →
  wp (push_loop iter_set fuel voteStack)
     (λ voteStack' st', kahn_frame st st' ∧ pushing D D voteStack' st') E st.
Proof.
  revert voteStack Pr st. induction fuel as [|fuel IH]; intros voteStack Pr st HT HG HP Hf;
    pose proof HP as (live & T & HI & _);
    pose proof (iter_set_head (seed st) (leaves (ts st))) as Hhd;
    cbn [push_loop]; apply wp_bind, wp_get, wp_bind; unfold wp at 1, range_first;
    set (st1 := mkState _ _ _ _); (assert (kahn_frame st st1) as Hfr by (constructor; by destruct (ts st)));
    destruct (head (iter_set (seed st) (leaves (ts st)))) as [x|].
  - exfalso. destruct (proj1 (pv_leaves _ _ _ _ _ _ _ _ HI x) Hhd) as (HxD & HxP & _).
    rewrite (push_size D Pr x (pv_sub _ _ _ _ _ _ _ _ HI) HxD HxP) in Hf. lia.
  - apply wp_ret. split; [done|]. rewrite Hhd in HI. rewrite (push_done _ _ _ _ _ _ _ _ _ HT HG HI) in HP. exact HP.
  - destruct (proj1 (pv_leaves _ _ _ _ _ _ _ _ HI x) Hhd) as (HxD & HxP & _).
    rewrite (push_size D Pr x (pv_sub _ _ _ _ _ _ _ _ HI) HxD HxP) in Hf.
    assert (is_Some (kahnNodes (ts st) !! x)) as [kx Hkx].
    { apply elem_of_dom. by rewrite (pv_dom _ _ _ _ _ _ _ _ HI). }
    destruct (proj1 HG x HxD) as (n & Hn & _).
    apply wp_bind, wp_modify, wp_bind. eapply wp_some; [exact Hn|]. rewrite Hkx. cbn [default from_option id].
    replace (if AlphaPreference (params (ts st)) <=? Len (k_votes kx) then voteStack ++ [(x, k_votes kx)] else voteStack)
      with (reverse (pushed (AlphaPreference (params (ts st))) x kx (reverse voteStack)))
      by (unfold pushed; destruct (_ <=? _); rewrite ?reverse_cons, reverse_involutive; done).
    apply wp_bind. eapply node_Accepted_tree; [exact HT|done|exact Hn|]. case_bool_decide as Hr.
    + subst x. set (st2 := mkState _ _ _ _).
      assert (kahn_frame st st2) as Hfr2 by (constructor; by destruct (ts st)).
      eapply wp_mono; [eapply (IH _ _ st2); [by eapply kahn_frame_tree|exact HG|by eapply push_step_root|lia]| |done].
      intros vs st' [Hf' HP']. split; [by eapply kahn_frame_trans|done].
    + destruct (tree_node _ _ _ _ HT x n Hn Hr) as (b & p & Hb & Hid & Hd & Hp & Hc & Hh & Hpar & Hch).
      apply wp_bind. eapply wp_some; [exact Hb|].
      assert (blk_Parent b ≠ x) as Hqx.
      { intros Eq. rewrite Eq, Hn in Hp. injection Hp as <-. unfold hgt in Hh. rewrite Hb in Hh. lia. }
      destruct (proj2 HG x HxD Hr) as (q & Hq & HqD). rewrite Hpar in Hq. injection Hq as <-.
      assert (is_Some (kahnNodes (ts st) !! blk_Parent b)) as [kq Hkq].
      { apply elem_of_dom. by rewrite (pv_dom _ _ _ _ _ _ _ _ HI). }
      rewrite Hkq. cbn [default from_option id]. fold (receive kq x (Len (k_votes kx))).
      set (kq' := receive kq x (Len (k_votes kx))).
      apply wp_bind, wp_modify, wp_bind.
      assert (∀ st2, ts st2 = set_leaves (λ l, if inDegree kq' =? 0 then {[blk_Parent b]} ∪ l ∖ {[x]} else l ∖ {[x]})
             (set_kahnNodes (insert (blk_Parent b) kq') (ts st)) → statuses st2 = statuses st → events st2 = events st →
        wp (push_loop iter_set fuel (reverse (pushed (AlphaPreference (params (ts st))) x kx (reverse voteStack))))
           (λ voteStack' st', kahn_frame st st' ∧ pushing D D voteStack' st') E st2) as Hnext.
      { intros st2 Ht2 Hs2 He2. assert (kahn_frame st st2) as Hfr2 by (constructor; rewrite ?Ht2; by destruct (ts st)).
        eapply wp_mono; [eapply (IH _ ({[x]} ∪ Pr) st2)| |done].
        - by eapply kahn_frame_tree.
        - rewrite Ht2. exact HG.
        - eapply push_step_node; try done.
        - lia.
        - intros vs st' [Hf' HP']. split; [by eapply kahn_frame_trans|done]. }
      destruct (inDegree kq' =? 0); apply Hnext; done.
  - apply wp_ret. split; [done|]. rewrite Hhd in HI. rewrite (push_done _ _ _ _ _ _ _ _ _ HT HG HI) in HP. exact HP.
Qed.

Definition valid_votes (st : State) (votes : Bag ID) : Prop :=
  wf_bag votes ∧ Len votes < 2 * AlphaPreference (params (ts st)).

(** The vote stack is a branch that starts at the last accepted block. *)
Lemma pushVotes_spec E T st :
  state_tree st → registering None T st → T < 2 * AlphaPreference (params (ts st)) →
  wp (pushVotes iter_set)
     (λ voteStack st', kahn_frame st st'
        ∧ vote_path (blocks (ts st)) (lastAcceptedID (ts st)) (reverse voteStack)
        ∧ match reverse voteStack with [] => True | (p, _) :: _ => p = lastAcceptedID (ts st) end) E st.
Proof.
  intros HT HR Ha. unfold pushVotes. apply wp_bind, wp_get.
  set (D := dom (kahnNodes (ts st))).
  eapply wp_mono; [apply (push_loop_spec E _ [] D ∅ st HT)| |done].
  - split; [apply HR|]. intros c Hc Hne. by apply (rg_closed _ _ _ _ _ _ HR c Hc Hne).
  - exists (kahnNodes (ts st)), T. split_and!; [by apply push_inv_start|done..].
  - rewrite difference_empty_L. unfold D. by rewrite size_dom.
  - intros vs st' [Hfr (live & T' & HI & _ & Hpath & Htop)].
    assert (blocks (ts st') = blocks (ts st) ∧ lastAcceptedID (ts st') = lastAcceptedID (ts st)) as [Eb El]
      by (destruct Hfr as [-> _ _]; done).
    rewrite Eb, El in *. split_and!; [done..|]. destruct (reverse vs) as [|[p v] l]; [done|].
    destruct Htop as (q & k & Hq & _ & Htop). case_decide as Er; [done|]. exfalso.
    rewrite (pv_live _ _ _ _ _ _ _ _ HI) in Hq. case_decide; [done|]. destruct Htop as [_ Hnq]. apply Hnq.
    rewrite <- (pv_dom _ _ _ _ _ _ _ _ HI). apply elem_of_dom. by eexists.
Qed.
End engine.
