(* ===== verification/EnginePoll.v ===== *)
(** * Polls of the Snowman engine

    What a poll does to the tree, to the decisions and to the preferred branch: [vote]
    walks down the branch that received a majority, records the votes with the snowball
    instances, accepts what is finalized directly above the last accepted block, and
    returns the block from which the preferred branch continues.  After every operation
    the preferred branch is the one that the snowball preferences select. *)

From S2P Require Import Prelude Ids Bag Snowball SnowTree Hashmap Topological EngineTree EngineVotes.

Open Scope Z_scope.

(** ** The preferred branch *)

Section branch.
Context {C : Consensus} {L : ConsensusLaws C}.

(** The blocks that are reached from [root] by the preferences of the instances. *)
Inductive on_pref (bs : gmap ID snowmanBlock) (root : ID) : ID → Prop :=
  | on_pref_root : on_pref bs root root
  | on_pref_child q n t :
      on_pref bs root q → bs !! q = Some n → sb n = Some t → on_pref bs root (sb_Preference t).

(** The preferred blocks are this branch, indexed by height, and the preference is its
    end. *)
Record pref_inv (t : Topological) : Prop := {
  pi_ids : ∀ x, x ∈ preferredIDs t ↔ on_pref (blocks t) (lastAcceptedID t) x ∧ x ≠ lastAcceptedID t;
  pi_end : on_pref (blocks t) (lastAcceptedID t) (preference t)
    ∧ ∃ n, blocks t !! preference t = Some n ∧ sb n = None;
  pi_heights : ∀ h x, preferredHeights t !! h = Some x ↔
    on_pref (blocks t) (lastAcceptedID t) x ∧ x ≠ lastAcceptedID t
    ∧ ∃ n, blocks t !! x = Some n ∧ hgt (lastAcceptedHeight t) n = h;
}.

Section tree.
Context (root : ID) (rh : Z) (bs : gmap ID snowmanBlock) (ss : gmap ID Status).
Context (HT : tree_inv root rh bs ss []).

(** The preference of an instance is a child of its block. *)
Lemma pref_child q n t :
  bs !! q = Some n → sb n = Some t →
  ∃ m b, bs !! sb_Preference t = Some m ∧ blk m = Some b ∧ sb_Preference t ≠ root
    ∧ children n !! sb_Preference t = Some b
    ∧ parent_of bs (sb_Preference t) = Some q ∧ hgt rh m = hgt rh n + 1.
Proof.
  intros Hq Ht. pose proof (t_sb _ _ _ _ _ HT q n Hq) as Hsb. rewrite Ht in Hsb. destruct Hsb as [Hok Hch].
  destruct (Hch _ (sb_Preference_law t Hok)) as [b Hb].
  destruct (t_children _ _ _ _ _ HT q n _ b Hq Hb) as (Hr & Hid & Hp & m & Hm & Hbm).
  destruct (tree_node _ _ _ _ HT _ m Hm Hr) as (b' & p & Hb' & _ & _ & Hp' & _ & Hh & Hpar & _).
  rewrite Hbm in Hb'. injection Hb' as <-. rewrite Hp, Hq in Hp'. injection Hp' as <-.
  exists m, b. unfold hgt at 1. rewrite Hbm. split_and!; try done. by rewrite Hpar, Hp.
Qed.

Lemma on_pref_node x : on_pref bs root x → ∃ n, bs !! x = Some n.
Proof.
  destruct 1 as [|q n t _ Hq Ht].
  - destruct (t_root _ _ _ _ _ HT) as (n & Hn & _). eauto.
  - destruct (pref_child q n t Hq Ht) as (m & b & Hm & _). eauto.
Qed.

(** Above a block of the branch is its parent. *)
Lemma on_pref_parent x q :
  on_pref bs root x → x ≠ root → parent_of bs x = Some q →
  on_pref bs root q ∧ ∃ n t, bs !! q = Some n ∧ sb n = Some t ∧ sb_Preference t = x.
Proof.
  destruct 1 as [|q' n t Hon Hq Ht]; [done|]. intros _ Hpar.
  destruct (pref_child q' n t Hq Ht) as (m & b & _ & _ & _ & _ & Hpar' & _).
  rewrite Hpar in Hpar'. injection Hpar' as ->. eauto 10.
Qed.

Lemma on_pref_has_parent x : on_pref bs root x → x ≠ root → ∃ q, parent_of bs x = Some q.
Proof.
  destruct 1 as [|q n t Hon Hq Ht]; [done|]. intros _.
  destruct (pref_child q n t Hq Ht) as (m & b & _ & _ & _ & _ & Hpar' & _). eauto.
Qed.

Lemma not_own_parent x : x ≠ root → parent_of bs x ≠ Some x.
Proof.
  intros Hr Hpar. unfold parent_of in Hpar. destruct (bs !! x) as [n|] eqn:Hn; [|done].
  destruct (tree_node _ _ _ _ HT x n Hn Hr) as (b & p & Hb & _ & _ & Hp & _ & Hh & _).
  simpl in Hpar. rewrite Hb in Hpar. injection Hpar as E. rewrite E, Hn in Hp. injection Hp as <-.
  unfold hgt in Hh. rewrite Hb in Hh. lia.
Qed.

(** ** Updates of one block *)

Context (p : ID) (n n' : snowmanBlock) (Hp : bs !! p = Some n).
Context (Hblk : blk n' = blk n) (Hch : children n' = children n).

Lemma parent_of_update x : parent_of (<[p := n']> bs) x = parent_of bs x.
Proof.
  unfold parent_of. rewrite lookup_insert. case_decide as E; [|done]. subst. rewrite Hp. simpl. by rewrite Hblk.
Qed.

Lemma update_same_hgt x m' :
  <[p := n']> bs !! x = Some m' →
  ∃ m, bs !! x = Some m ∧ blk m' = blk m ∧ children m' = children m ∧ (x ≠ p → m' = m).
Proof.
  rewrite lookup_insert. case_decide as E; [subst; intros [= <-]; exists n; naive_solver|eauto 10].
Qed.

Lemma tree_inv_update :
  match sb n' with
  | None => children n' = ∅
  | Some t => sb_ok t ∧ ∀ x, x ∈ sb_choices t → is_Some (children n' !! x)
  end → tree_inv root rh (<[p := n']> bs) ss [].
Proof.
  intros Hsb.
  assert (∀ x m, bs !! x = Some m → ∃ m', <[p := n']> bs !! x = Some m' ∧ blk m' = blk m ∧ children m' = children m)
    as Hfwd.
  { intros x m Hm. rewrite lookup_insert. case_decide as E; [subst; exists n'; split_and!; congruence|eauto]. }
  constructor; try apply HT.
  - destruct (t_root _ _ _ _ _ HT) as (r & Hr & Hb). destruct (Hfwd _ _ Hr) as (r' & Hr' & Hb' & _).
    exists r'. split; [done|]. by rewrite Hb'.
  - intros x m' Hm' Hx _. destruct (update_same_hgt x m' Hm') as (m & Hm & Hbm & _ & _).
    destruct (t_node _ _ _ _ _ HT x m Hm Hx) as (b & q & Hb & Hid & Hd & Hq & Hcq & Hh); [apply not_elem_of_nil|].
    destruct (Hfwd _ _ Hq) as (q' & Hq' & Hbq & Hcq'). exists b, q'. rewrite Hcq'.
    split_and!; try done; [congruence|]. unfold hgt. by rewrite Hbq.
  - intros x m' c b Hm' Hc. destruct (update_same_hgt x m' Hm') as (m & Hm & _ & Hcm & _). rewrite Hcm in Hc.
    destruct (t_children _ _ _ _ _ HT x m c b Hm Hc) as (Hcr & Hid & Hpar & mc & Hmc & Hbc).
    split_and!; [done..|]. destruct (Hfwd _ _ Hmc) as (mc' & Hmc' & Hb' & _). exists mc'. split; [done|congruence].
  - intros x m' Hm'. rewrite lookup_insert in Hm'. case_decide; [by injection Hm' as <-|].
    by apply (t_sb _ _ _ _ _ HT x).
  - intros x Hx. by apply not_elem_of_nil in Hx.
Qed.

(** A block that is not on the branch does not matter for it. *)
Lemma on_pref_update_off x : ¬ on_pref bs root p → on_pref (<[p := n']> bs) root x ↔ on_pref bs root x.
Proof using Hp.
  intros Hoff. split.
  - induction 1 as [|q m t _ IH Hm Ht]; [constructor|]. rewrite lookup_insert_ne in Hm by (by intros ->).
    by econstructor.
  - induction 1 as [|q m t Hon IH Hm Ht]; [constructor|]. econstructor; [exact IH| |exact Ht].
    rewrite lookup_insert_ne; [done|]. by intros ->.
Qed.

(** Nor does an update that keeps the preference. *)
Lemma on_pref_update_same x :
  sb_Preference <$> sb n' = sb_Preference <$> sb n → on_pref (<[p := n']> bs) root x ↔ on_pref bs root x.
Proof using Hp.
  clear Hblk Hch. intros Hpref. split.
  - induction 1 as [|q m t _ IH Hm Ht]; [constructor|]. rewrite lookup_insert in Hm.
    case_decide as E; [subst; injection Hm as <-|by econstructor]. rewrite Ht in Hpref.
    destruct (sb n) as [t0|] eqn:Hn; simpl in Hpref; [|done]. injection Hpref as ->. by econstructor.
  - induction 1 as [|q m t Hon IH Hm Ht]; [constructor|]. destruct (decide (q = p)) as [->|Hne].
    + rewrite Hp in Hm. injection Hm as ->. rewrite Ht in Hpref.
      destruct (sb n') as [t0|] eqn:Hn; simpl in Hpref; [|done]. injection Hpref as <-.
      econstructor; [exact IH|apply lookup_insert_eq|done].
    + econstructor; [exact IH| |exact Ht]. by rewrite lookup_insert_ne.
Qed.

(** The branch down to the block itself is never affected. *)
Lemma on_pref_update_self : on_pref bs root p → on_pref (<[p := n']> bs) root p.
Proof.
  assert (∀ x, on_pref bs root x → ∀ m, bs !! x = Some m → hgt rh m ≤ hgt rh n → on_pref (<[p := n']> bs) root x)
    as H.
  { induction 1 as [|q mq t Hon IH Hm Ht]; intros m Hm' Hh; [constructor|].
    destruct (pref_child q mq t Hm Ht) as (m'' & b & H1 & _ & _ & _ & _ & H2). rewrite Hm' in H1. injection H1 as <-.
    econstructor; [apply (IH mq Hm); lia| |exact Ht]. rewrite lookup_insert_ne; [done|].
    intros <-. rewrite Hp in Hm. injection Hm as <-. lia. }
  intros Hon. by apply (H p Hon n Hp).
Qed.
End tree.
End branch.

(** ** [vote] *)

Section poll.
Context {C : Consensus} {L : ConsensusLaws C}.
Context (iter_map : ∀ A, nat → gmap ID A → list (ID * A)).
Context (iter_map_perm : ∀ A seed (m : gmap ID A), iter_map A seed m ≡ₚ map_to_list m).
Context (acceptor_fails accept_fails reject_fails : ID → bool).
Context (g : ID) (gh : Z) (Iss : ID → Prop).
Notation fails := (failed acceptor_fails accept_fails reject_fails g gh).

(** The part of the vote stack that is still to be used, in a tree from which some of its
    blocks may have been removed. *)
Fixpoint live_path (bs : gmap ID snowmanBlock) (l : list vote_entry) : Prop :=
  match l with
  | [] => True
  | (p, _) :: l =>
      (∀ n, bs !! p = Some n → children n ≠ ∅)
      ∧ match l with [] => True | (c, _) :: _ => ∀ q, parent_of bs c = Some q → q = p end
      ∧ live_path bs l
  end.

(** The invariant of the loop.  [np] is the new preferred block so far; while [on] is set
    it is the next block of the stack, and afterwards the stack is not on the preferred
    branch.  If [np] is still one of the preferred blocks then these are still right. *)
Record voting (np : ID) (on : bool) (stack : list vote_entry) (st : State) : Prop := {
  vg_engine : engine_inv g gh Iss st;
  vg_path : live_path (blocks (ts st)) stack;
  vg_nodup : NoDup stack.*1;
  vg_last : lastAcceptedID (ts st) ∈ stack.*1 → on = true ∧ head stack.*1 = Some (lastAcceptedID (ts st));
  vg_head : on = true → ∀ p, head stack.*1 = Some p → p = np;
  vg_np : on_pref (blocks (ts st)) (lastAcceptedID (ts st)) np;
  vg_off : on = false → ∀ p, head stack.*1 = Some p → ¬ on_pref (blocks (ts st)) (lastAcceptedID (ts st)) p;
  vg_closed : ∀ x q, x ∈ preferredIDs (ts st) → x ≠ lastAcceptedID (ts st) → parent_of (blocks (ts st)) x = Some q →
    q = lastAcceptedID (ts st) ∨ q ∈ preferredIDs (ts st);
  vg_pref : np ∈ preferredIDs (ts st)
      ∨ (np = lastAcceptedID (ts st)
         ∧ ∃ x, x ∈ preferredIDs (ts st) ∧ parent_of (blocks (ts st)) x = Some np) →
    pref_inv (ts st);
}.

(** One block is replaced by one with the same block object and the same children. *)
Record updated (p : ID) (n n' : snowmanBlock) (st st' : State) : Prop := {
  up_ts : ts st' = set_blocks (insert p n') (ts st);
  up_statuses : statuses st' = statuses st;
  up_events : events st' = events st;
  up_old : blocks (ts st) !! p = Some n;
  up_blk : blk n' = blk n;
  up_children : children n' = children n;
  up_sb : match sb n' with
          | None => children n' = ∅
          | Some t => sb_ok t ∧ ∀ x, x ∈ sb_choices t → is_Some (children n' !! x)
          end;
}.

Lemma engine_inv_updated p n n' st st' : updated p n n' st st' → engine_inv g gh Iss st → engine_inv g gh Iss st'.
Proof.
  intros [Ht Hs He Hp Hb Hc Hsb] [HT [Mw Mk Mn] Hl H1 H2 H3 H4].
  constructor; rewrite ?Ht, ?Hs, ?He; simpl; try done.
  - by eapply tree_inv_update.
  - constructor; try done. intros id. rewrite Mk, lookup_insert.
    case_decide as E; [subst; rewrite Hp|done]. split; intros (_ & ? & ?); split_and!; done.
  - intros x. rewrite H3. unfold acct. by rewrite Ht, He.
Qed.

Lemma pref_inv_updated p n n' st st' :
  updated p n n' st st' →
  (∀ x, on_pref (<[p := n']> (blocks (ts st))) (lastAcceptedID (ts st)) x
        ↔ on_pref (blocks (ts st)) (lastAcceptedID (ts st)) x) →
  (on_pref (blocks (ts st)) (lastAcceptedID (ts st)) p → sb n = None → sb n' = None) →
  pref_inv (ts st) → pref_inv (ts st').
Proof.
  intros [Ht Hs He Hp Hb Hc _] Hon Hsb [P1 [P2 (m & Hm & Hsm)] P3].
  constructor; rewrite Ht; simpl.
  - intros x. by rewrite Hon.
  - split; [by apply Hon|]. rewrite lookup_insert. case_decide as E; [|eauto].
    exists n'. split; [done|]. subst. rewrite Hp in Hm. injection Hm as <-. by apply Hsb.
  - intros h x. rewrite P3, Hon, lookup_insert. case_decide as E; [subst|done].
    rewrite Hp. split; intros (? & ? & ? & [= <-] & ?); split_and!; try done; eexists; (split; [done|]);
      unfold hgt in *; rewrite Hb in *; done.
Qed.

Lemma live_path_sub bs bs' l :
  (∀ x m', bs' !! x = Some m' → ∃ m, bs !! x = Some m ∧ blk m' = blk m ∧ children m' = children m) →
  live_path bs l → live_path bs' l.
Proof.
  intros Hsub. induction l as [|[p v] l IH]; [done|]. intros (H1 & H2 & H3). split_and!; [..|by apply IH].
  - intros n' Hn'. destruct (Hsub p n' Hn') as (n & Hn & _ & ->). eauto.
  - destruct l as [|[c w] l]; [done|]. intros q Hq. apply H2. unfold parent_of in *.
    destruct (bs' !! c) as [m'|] eqn:Hm'; [|done]. destruct (Hsub c m' Hm') as (m & Hm & Hb & _).
    rewrite Hm. simpl in *. by rewrite <- Hb.
Qed.

Lemma live_path_updated p n n' st st' l :
  updated p n n' st st' → live_path (blocks (ts st)) l → live_path (blocks (ts st')) l.
Proof.
  intros [Ht _ _ Hp Hb Hc _]. rewrite Ht. simpl. apply live_path_sub. intros x m'. rewrite lookup_insert.
  case_decide as E; [subst; intros [= <-]; eauto|eauto 10].
Qed.

(** Marking a block for a reset is such an update. *)
Lemma voting_updated_same p n n' np on stack st st' :
  updated p n n' st st' → sb n' = sb n → voting np on stack st → voting np on stack st'.
Proof.
  intros Hu Hsb [V1 V2 V3 V4 V5 V6 V7 V8 V9]. pose proof Hu as [Ht Hs He Hp Hb Hc _].
  assert (∀ x, on_pref (<[p := n']> (blocks (ts st))) (lastAcceptedID (ts st)) x
               ↔ on_pref (blocks (ts st)) (lastAcceptedID (ts st)) x) as Hon.
  { intros x. apply (on_pref_update_same _ _ _ n n'); [done|by rewrite Hsb]. }
  constructor; try done.
  - by eapply engine_inv_updated.
  - by eapply live_path_updated.
  - by rewrite Ht.
  - rewrite Ht. by apply Hon.
  - rewrite Ht. intros Hf q Hq. simpl. rewrite Hon. by apply V7.
  - rewrite Ht. simpl. intros x q. rewrite (parent_of_update _ p n n') by done. apply V8.
  - rewrite Ht. simpl. setoid_rewrite (parent_of_update (blocks (ts st)) p n n' Hp Hb). intros H.
    rewrite <- Ht. eapply pref_inv_updated; [done|done|by intros _ <-|by apply V9].
Qed.

(** The stack without its first entry. *)
Lemma live_path_next bs p v l c : live_path bs ((p, v) :: l) → head l.*1 = Some c →
  ∀ q, parent_of bs c = Some q → q = p.
Proof. destruct l as [|[c' w] l]; [done|]. intros (_ & H & _) [= ->]. exact H. Qed.

Lemma voting_last_next p v l np on st :
  voting np on ((p, v) :: l) st → lastAcceptedID (ts st) ∉ l.*1.
Proof.
  intros [_ _ Hnd Hlast _ _ _ _ _] Hin. destruct Hlast as [_ Hh]; [simpl; by right|].
  simpl in Hh. injection Hh as ->. by apply NoDup_cons in Hnd as [? _].
Qed.

(** The next entry is not on the branch when the preference of [p] is another block. *)
Lemma next_off root rh bs ss p l v n t c :
  tree_inv root rh bs ss [] → live_path bs ((p, v) :: l) → bs !! p = Some n → sb n = Some t →
  head l.*1 = Some c → c ≠ root → c ≠ sb_Preference t → ¬ on_pref bs root c.
Proof.
  intros HT Hlp Hp Ht Hc Hr Hne Hon. destruct (on_pref_has_parent _ _ _ _ HT c Hon Hr) as [q Hq].
  destruct (on_pref_parent _ _ _ _ HT c q Hon Hr Hq) as (_ & n' & t' & Hn' & Ht' & Hpr).
  pose proof (live_path_next _ _ _ _ _ Hlp Hc q Hq) as ->. congruence.
Qed.

(** If a child of [np] is preferred then the preferred blocks are still right. *)
Lemma voting_child_preferred np on stack st c :
  voting np on stack st → c ∈ preferredIDs (ts st) → c ≠ lastAcceptedID (ts st) →
  parent_of (blocks (ts st)) c = Some np → pref_inv (ts st).
Proof.
  intros V Hc Hr Hpar. apply (vg_pref _ _ _ _ V).
  destruct (vg_closed _ _ _ _ V c np Hc Hr Hpar) as [->|?]; [right|by left]. eauto.
Qed.

(** The poll of [p] changes its preference to that of [t'], and nothing is accepted. *)
Lemma voting_step p v stack n n' t t' np on st st' :
  voting np on ((p, v) :: stack) st → updated p n n' st st' → sb n = Some t → sb n' = Some t' →
  let np' := if on then sb_Preference t' else np in
  let on' := on && bool_decide (match stack with [] => go_zero | (next, _) :: _ => next end = sb_Preference t') in
  voting np' on' stack st'.
Proof.
  intros V Hu Hsb Hsb' np' on'. pose proof Hu as [Ht Hs He Hp Hb Hc _].
  pose proof (voting_last_next _ _ _ _ _ _ V) as Hlast. pose proof V as [V1 V2 V3 V4 V5 V6 V7 V8 V9].
  set (bs := blocks (ts st)) in *. set (root := lastAcceptedID (ts st)) in *.
  pose proof (engine_inv_updated p n n' st st' Hu V1) as V1'.
  pose proof (live_path_updated p n n' st st' _ Hu V2) as V2'.
  pose proof (e_tree _ _ _ _ V1) as HT. pose proof (e_tree _ _ _ _ V1') as HT'.
  rewrite Ht in HT', V2'. simpl in HT', V2'. fold bs root in HT', V2'. fold bs root in HT.
  assert (<[p := n']> bs !! p = Some n') as Hp' by apply lookup_insert_eq.
  destruct (pref_child _ _ _ _ HT' p n' t' Hp' Hsb') as (m & b & Hm & _ & Hnr & _ & Hpar & _).
  assert (∀ c, head stack.*1 = Some c → c ≠ root) as Hcr.
  { intros c Hc' ->. apply Hlast. destruct stack as [|[? ?] ?]; [done|]. injection Hc' as ->. by left. }
  assert (∀ x, parent_of (<[p := n']> bs) x = parent_of bs x) as Hpu.
  { intros x. by apply (parent_of_update bs p n n'). }
  assert (∀ x q, x ∈ preferredIDs (ts st) → x ≠ root → parent_of bs x = Some q →
            q = root ∨ q ∈ preferredIDs (ts st)) as V8' by exact V8.
  destruct on; simpl in np', on'.
  - (* on the preferred branch: [p] is [np] *)
    assert (p = np) as -> by (by apply V5).
    constructor; rewrite ?Ht; simpl; fold bs root; try done.
    + apply V2'.
    + by apply NoDup_cons in V3 as [_ ?].
    + unfold on'. intros Hon c Hc'. apply bool_decide_eq_true in Hon.
      destruct stack as [|[c' ?] ?]; [done|]. injection Hc' as ->. done.
    + econstructor; [|exact Hp'|exact Hsb']. by eapply on_pref_update_self.
    + unfold on'. intros Hoff c Hc'. apply bool_decide_eq_false in Hoff.
      eapply (next_off _ _ _ _ _ _ v); [done|exact V2'|exact Hp'|exact Hsb'|exact Hc'|by apply Hcr|].
      destruct stack as [|[c' ?] ?]; [done|]. injection Hc' as ->. done.
    + intros x q. rewrite Hpu. apply V8'.
    + unfold np'. intros [Hin|[? _]]; [|done]. rewrite Hpu in Hpar.
      pose proof (voting_child_preferred _ _ _ _ _ V Hin Hnr Hpar) as Hpi.
      destruct (on_pref_parent _ _ _ _ HT _ np (proj1 (proj1 (pi_ids _ Hpi _) Hin)) Hnr Hpar)
        as (_ & n0 & t0 & Hn0 & Ht0 & Hpr).
      fold bs in Hp. rewrite Hp in Hn0. injection Hn0 as <-. rewrite Hsb in Ht0. injection Ht0 as <-.
      rewrite <- Ht. eapply pref_inv_updated; [exact Hu| |congruence|done].
      intros x. apply (on_pref_update_same _ _ _ n n'); [done|]. rewrite Hsb, Hsb'. simpl. congruence.
  - (* off the preferred branch *)
    assert (¬ on_pref bs root p) as Hoff by (by apply V7).
    assert (∀ x, on_pref (<[p := n']> bs) root x ↔ on_pref bs root x) as Hon.
    { intros x. by apply (on_pref_update_off _ _ _ n n'). }
    constructor; rewrite ?Ht; simpl; fold bs root; try done.
    + apply V2'.
    + by apply NoDup_cons in V3 as [_ ?].
    + by apply Hon.
    + intros _ c Hc'. rewrite Hon. intros Honc.
      destruct (on_pref_has_parent _ _ _ _ HT c Honc (Hcr c Hc')) as [q Hq].
      destruct (on_pref_parent _ _ _ _ HT c q Honc (Hcr c Hc') Hq) as (Honq & _).
      pose proof (live_path_next _ _ _ _ _ V2 Hc' q Hq) as ->. done.
    + intros x q. rewrite Hpu. apply V8'.
    + setoid_rewrite Hpu. intros H. rewrite <- Ht. eapply pref_inv_updated; [exact Hu|exact Hon|done|].
      by apply V9.
Qed.

(** The state after the last accepted block [p] was replaced by its child [X]. *)
Record moved (p X : ID) (h : Z) (st st' : State) : Prop := {
  mv_engine : engine_inv g gh Iss st';
  mv_blocks : ∀ x m, blocks (ts st') !! x = Some m → x ≠ p ∧ blocks (ts st) !! x = Some m;
  mv_last : lastAcceptedID (ts st') = X;
  mv_height : lastAcceptedHeight (ts st') = h;
  mv_ids : preferredIDs (ts st') = preferredIDs (ts st) ∖ {[X]};
  mv_heights : preferredHeights (ts st') = delete h (preferredHeights (ts st));
  mv_preference : preference (ts st') = preference (ts st);
}.

Lemma accepted_child_moved p n n' X h st st1 st2 st3 :
  updated p n n' st st1 → engine_inv g gh Iss st1 → accepted_child g gh p X h st1 st2 →
  ts st3 = set_blocks (delete p) (ts st2) → statuses st3 = statuses st2 → events st3 = events st2 →
  moved p X h st st3.
Proof.
  intros [Ht _ _ Hp Hb Hc _] HE [(HT & HM & HL) Hlast Hheight Hsub Hts Hat] Ht3 Hs3 He3.
  assert (lastAcceptedID (ts st2) = X ∧ lastAcceptedHeight (ts st2) = h ∧ params (ts st2) = params (ts st1)
          ∧ preferredIDs (ts st2) = preferredIDs (ts st) ∖ {[X]}
          ∧ preferredHeights (ts st2) = delete h (preferredHeights (ts st))
          ∧ preference (ts st2) = preference (ts st)) as (E1 & E2 & E3 & E4 & E5 & E6).
  { rewrite Hts. simpl. rewrite Ht. done. }
  constructor; rewrite ?Ht3; simpl; try done.
  - constructor; rewrite ?Ht3, ?Hs3, ?He3; simpl; rewrite ?E1, ?E2, ?E3; try done; [|apply HE].
    intros x. rewrite (e_issued _ _ _ _ HE x), <- (Hat x). unfold acct. by rewrite Ht3, He3.
  - intros x m [Hx Hm]%lookup_delete_Some. split; [done|].
    eapply lookup_weaken in Hm; [|exact Hsub]. rewrite Ht in Hm. simpl in Hm. by rewrite lookup_insert_ne in Hm.
Qed.

Lemma moved_parent_of p X h st st' x q :
  moved p X h st st' → parent_of (blocks (ts st')) x = Some q → parent_of (blocks (ts st)) x = Some q.
Proof.
  intros HM. unfold parent_of. destruct (blocks (ts st') !! x) as [m|] eqn:Hm; [|done].
  by destruct (mv_blocks _ _ _ _ _ HM x m Hm) as [_ ->].
Qed.

(** The branch below the accepted block stays. *)
Lemma moved_on_pref p X h n t st st' :
  moved p X h st st' → engine_inv g gh Iss st → lastAcceptedID (ts st) = p →
  blocks (ts st) !! p = Some n → sb n = Some t → sb_Preference t = X →
  ∀ x, on_pref (blocks (ts st')) X x ↔ on_pref (blocks (ts st)) p x ∧ x ≠ p.
Proof.
  intros HM HE Hlast Hp Ht HX x. pose proof (e_tree _ _ _ _ HE) as HT. rewrite Hlast in HT.
  pose proof (e_tree _ _ _ _ (mv_engine _ _ _ _ _ HM)) as HT'. rewrite (mv_last _ _ _ _ _ HM) in HT'.
  split.
  - induction 1 as [|q m t' _ [IH _] Hm Ht'].
    + split; [|by destruct (pref_child _ _ _ _ HT p n t Hp Ht) as (_ & _ & _ & _ & Hr & _); subst].
      rewrite <- HX. econstructor; [constructor|done..].
    + destruct (mv_blocks _ _ _ _ _ HM q m Hm) as [_ Hm'].
      destruct (pref_child _ _ _ _ HT q m t' Hm' Ht') as (_ & _ & _ & _ & Hr & _).
      split; [by econstructor|done].
  - intros [Hon Hne]. revert Hne. induction Hon as [|q m t' Hon IH Hm Ht']; intros Hne; [done|].
    destruct (decide (q = p)) as [->|Hqp].
    + rewrite Hp in Hm. injection Hm as <-. rewrite Ht in Ht'. injection Ht' as <-. rewrite HX. constructor.
    + specialize (IH Hqp). destruct (on_pref_node _ _ _ _ HT' q IH) as [m' Hm'].
      destruct (mv_blocks _ _ _ _ _ HM q m' Hm') as [_ Hm'']. rewrite Hm in Hm''. injection Hm'' as <-.
      by econstructor.
Qed.

Lemma moved_pref_inv p X h n t m st st' :
  moved p X h st st' → engine_inv g gh Iss st → lastAcceptedID (ts st) = p →
  blocks (ts st) !! p = Some n → sb n = Some t → sb_Preference t = X →
  blocks (ts st) !! X = Some m → hgt (lastAcceptedHeight (ts st)) m = h →
  pref_inv (ts st) → pref_inv (ts st').
Proof.
  intros HM HE Hlast Hp Ht HX Hm Hh [P1 [P2 (l & Hl & Hsl)] P3].
  pose proof (moved_on_pref p X h n t st st' HM HE Hlast Hp Ht HX) as Hon.
  pose proof HM as [HE' Hsub EL EH EI EHs EP]. rewrite Hlast in *.
  pose proof (e_tree _ _ _ _ HE') as HT'. rewrite EL in HT'.
  pose proof (e_tree _ _ _ _ HE) as HT. rewrite Hlast in HT.
  destruct (pref_child _ _ _ _ HT p n t Hp Ht) as (mX & bX & HmX & _ & HXp & _). rewrite HX in *.
  assert (preferredHeights (ts st) !! h = Some X) as HXh.
  { apply P3. split_and!; [|done|eauto]. rewrite <- HX. econstructor; [constructor|done..]. }
  assert (∀ x k, on_pref (blocks (ts st)) p x → x ≠ p → blocks (ts st) !! x = Some k →
            blocks (ts st') !! x = Some k) as Hkeep.
  { intros x k Hx Hne Hk. destruct (on_pref_node _ _ _ _ HT' x) as [k' Hk']; [by apply Hon|].
    destruct (Hsub x k' Hk') as [_ Hk'']. congruence. }
  assert (∀ x k, x ≠ p → blocks (ts st) !! x = Some k →
            hgt (lastAcceptedHeight (ts st')) k = hgt (lastAcceptedHeight (ts st)) k) as Hhgt.
  { intros x k Hne Hk. destruct (tree_node _ _ _ _ HT x k Hk Hne) as (b & _ & Hb & _). unfold hgt. by rewrite Hb. }
  assert (preference (ts st) ≠ p) as Hpp by (intros E; rewrite E, Hp in Hl; congruence).
  constructor; rewrite ?EL, ?EI, ?EP.
  - intros x. rewrite elem_of_difference, elem_of_singleton, P1, Hon. naive_solver.
  - split; [by apply Hon|]. eauto.
  - intros h' x. rewrite EHs, lookup_delete_Some, P3, Hon. split.
    + intros (Hne & Hx & Hxp & k & Hk & Hkh). split_and!; [done..| |].
      * intros ->. rewrite Hm in Hk. injection Hk as <-. congruence.
      * exists k. split; [by apply Hkeep|]. rewrite (Hhgt x k) by done. done.
    + intros ([Hx Hxp] & HxX & k & Hk & Hkh). destruct (Hsub x k Hk) as [_ Hk'].
      rewrite (Hhgt x k) in Hkh by done. split_and!; [|done..|eauto].
      intros ->. assert (preferredHeights (ts st) !! h' = Some x) as Hx' by (apply P3; eauto). congruence.
Qed.

(** The poll of the last accepted block [p] is finalized, with the preference [X]. *)
Lemma voting_accept p v stack n t X h m np on st st' :
  voting np on ((p, v) :: stack) st → lastAcceptedID (ts st) = p →
  blocks (ts st) !! p = Some n → sb n = Some t → is_Some (children n !! X) →
  blocks (ts st) !! X = Some m → hgt (lastAcceptedHeight (ts st)) m = h →
  moved p X h st st' →
  on = true
  ∧ voting X (bool_decide (match stack with [] => go_zero | (next, _) :: _ => next end = X)) stack st'.
Proof.
  intros V Hlast Hp Ht [bX HX] Hm Hh HM.
  destruct (vg_last _ _ _ _ V) as [-> _]; [rewrite Hlast; by left|]. split; [done|].
  pose proof (voting_last_next _ _ _ _ _ _ V) as Hnext. rewrite Hlast in Hnext.
  pose proof V as [V1 V2 V3 _ V5 _ _ V8 _]. pose proof HM as [HE' Hsub EL EH EI _ _].
  assert (np = p) as -> by (symmetry; by apply V5).
  pose proof (e_tree _ _ _ _ V1) as HT. pose proof (e_tree _ _ _ _ HE') as HT'. rewrite Hlast in *. rewrite EL in HT'.
  destruct (tree_inv_root_child _ _ _ _ _ _ _ HT Hp HX) as (HXr & HXid & HXp & _ & _ & mX & HmX & HbX).
  assert (parent_of (blocks (ts st)) X = Some p) as HXpar.
  { unfold parent_of. rewrite HmX. simpl. rewrite HbX. simpl. congruence. }
  assert (∀ x q, x ≠ X → parent_of (blocks (ts st')) x = Some q → q ≠ p) as Hgone.
  { intros x q Hx Hpar ->. unfold parent_of in Hpar. destruct (blocks (ts st') !! x) as [k|] eqn:Hk; [|done].
    destruct (tree_node _ _ _ _ HT' x k Hk Hx) as (b & pn & Hb & _ & _ & Hpn & _).
    simpl in Hpar. rewrite Hb in Hpar. injection Hpar as E. rewrite E in Hpn.
    by destruct (Hsub p pn Hpn) as [? _]. }
  constructor; rewrite ?EL; try done.
  - eapply live_path_sub; [|apply V2]. intros x k Hk. destruct (Hsub x k Hk) as [_ Hk']. eauto.
  - by apply NoDup_cons in V3 as [_ ?].
  - intros HXin. assert (head stack.*1 = Some X) as Hhead.
    { destruct stack as [|[c w] stack]; [by apply not_elem_of_nil in HXin|]. destruct (decide (c = X)) as [->|Hne]; [done|].
      exfalso. apply elem_of_cons in HXin as [?|HXin]; [done|]. destruct V2 as (_ & _ & V2).
      clear -V2 HXin HXpar Hnext. revert c w V2 Hnext. induction stack as [|[d u] stack IH]; intros c w V2 Hnext.
      - by apply not_elem_of_nil in HXin.
      - destruct V2 as (_ & Hd & V2). rewrite fmap_cons in Hnext. apply not_elem_of_cons in Hnext as [Hpc Hnext].
        apply elem_of_cons in HXin as [->|HXin]; [by apply Hpc, Hd|]. by apply (IH HXin d u). }
    split; [|done]. destruct stack as [|[c w] stack]; [done|]. injection Hhead as ->. by apply bool_decide_eq_true.
  - intros Hb c Hc. apply bool_decide_eq_true in Hb. destruct stack as [|[c' w] stack]; [done|].
    injection Hc as ->. done.
  - constructor.
  - intros Hb c Hc Hon. apply bool_decide_eq_false in Hb.
    assert (c ≠ X) as HcX by (destruct stack as [|[c' w] stack]; [done|]; injection Hc as ->; done).
    destruct (on_pref_has_parent _ _ _ _ HT' c Hon HcX) as [q Hq]. apply (Hgone c q HcX Hq).
    eapply live_path_next; [exact V2|exact Hc|]. by eapply moved_parent_of.
  - intros x q. rewrite EI, !elem_of_difference, !elem_of_singleton. intros [Hx HxX] _ Hpar.
    assert (x ≠ p) as Hxp.
    { intros ->. unfold parent_of in Hpar. destruct (blocks (ts st') !! p) as [k|] eqn:Hk; [|done].
      by destruct (Hsub p k Hk) as [? _]. }
    destruct (V8 x q Hx Hxp (moved_parent_of _ _ _ _ _ _ _ HM Hpar)) as [->|Hq].
    + by destruct (Hgone x p HxX Hpar).
    + destruct (decide (q = X)); [by left|by right].
  - rewrite EI. setoid_rewrite elem_of_difference. setoid_rewrite elem_of_singleton.
    intros [[_ ?]|[_ (x & [Hx HxX] & Hpar)]]; [done|].
    pose proof (moved_parent_of _ _ _ _ _ _ _ HM Hpar) as Hpar'.
    assert (x ≠ p) as Hxp.
    { intros ->. unfold parent_of in Hpar. destruct (blocks (ts st') !! p) as [k|] eqn:Hk; [|done].
      by destruct (Hsub p k Hk) as [? _]. }
    destruct (V8 x X Hx Hxp Hpar') as [?|HXin]; [done|].
    assert (pref_inv (ts st)) as Hpi.
    { apply (voting_child_preferred _ _ _ _ X V HXin); [by rewrite Hlast|done]. }
    destruct (proj1 (pi_ids _ Hpi X) HXin) as [Hon _]. rewrite Hlast in Hon.
    destruct (on_pref_parent _ _ _ _ HT X p Hon HXr HXpar) as (_ & n0 & t0 & Hn0 & Ht0 & Hpr).
    rewrite Hp in Hn0. injection Hn0 as <-.
    by apply (moved_pref_inv p X h n t0 m st st').
Qed.

(** Marking the children for a reset. *)
Lemma falter_child_spec np on stack tr nextID c st :
  voting np on stack st →
  wp (falter_child tr nextID c) (λ _ st', voting np on stack st') fails st.
Proof.
  intros V. unfold falter_child. destruct (negb tr && bool_decide (c = nextID)); [by apply wp_ret|].
  apply wp_bind, wp_get. destruct (blocks (ts st) !! c) as [n|] eqn:Hc; [|by apply wp_ret].
  apply wp_modify. set (st' := mkState _ _ _ _).
  apply (voting_updated_same c n (set_shouldFalter true n) np on stack st st'); [|done..].
  constructor; try done. simpl. apply (t_sb _ _ _ _ _ (e_tree _ _ _ _ (vg_engine _ _ _ _ V)) c n Hc).
Qed.

(** The instance after a poll still has children of its block as choices. *)
Lemma polled_choices root rh bs ss p n t tr votes :
  tree_inv root rh bs ss [] → bs !! p = Some n → sb n = Some t →
  let t1 := if tr : bool then sb_RecordUnsuccessfulPoll t else t in
  sb_ok (sb_RecordPoll t1 votes).1
  ∧ ∀ x, x ∈ sb_choices (sb_RecordPoll t1 votes).1 → is_Some (children n !! x).
Proof.
  intros HT Hp Ht t1. pose proof (t_sb _ _ _ _ _ HT p n Hp) as Hsb. rewrite Ht in Hsb. destruct Hsb as [Hok Hch].
  assert (sb_ok t1 ∧ ∀ x, x ∈ sb_choices t1 → x ∈ sb_choices t) as [Hok1 Hch1].
  { unfold t1. destruct tr; [|done]. destruct (sb_RecordUnsuccessfulPoll_law t Hok) as [? ->]. done. }
  destruct (sb_RecordPoll_law t1 votes Hok1) as [H1 H2]. split; [done|]. intros x Hx. by apply Hch, Hch1, H2.
Qed.

Lemma vote_loop_spec stack np on ok st :
  voting np on stack st →
  wp (vote_loop iter_map acceptor_fails accept_fails reject_fails stack np on ok)
     (λ r st', engine_inv g gh Iss st' ∧ on_pref (blocks (ts st')) (lastAcceptedID (ts st')) r.1
               ∧ (r.1 ∈ preferredIDs (ts st') → pref_inv (ts st'))) fails st.
Proof.
  revert np on ok st. induction stack as [|[p v] stack IH]; intros np on ok st V; cbn [vote_loop].
  { apply wp_ret. destruct V. split_and!; auto. }
  apply wp_bind, wp_get. destruct (blocks (ts st) !! p) as [n|] eqn:Hp.
  2: { apply wp_ret. destruct V. split_and!; auto. }
  pose proof (e_tree _ _ _ _ (vg_engine _ _ _ _ V)) as HT.
  assert (∃ t, sb n = Some t) as [t Ht].
  { pose proof (t_sb _ _ _ _ _ HT p n Hp) as Hsb. destruct (sb n) as [t|]; [eauto|].
    by destruct (proj1 (vg_path _ _ _ _ V) n Hp). }
  apply wp_bind. eapply wp_some; [exact Ht|].
  pose proof (polled_choices _ _ _ _ p n t (shouldFalter n) v HT Hp Ht) as [Hok Hch].
  destruct (sb_RecordPoll (if shouldFalter n then sb_RecordUnsuccessfulPoll t else t) v) as [t' successful].
  simpl in Hok, Hch.
  set (n' := set_sb t' (if shouldFalter n then set_shouldFalter false n else n)).
  assert (blk n' = blk n ∧ children n' = children n) as [Hb Hc].
  { unfold n'. by destruct (shouldFalter n). }
  apply wp_bind, wp_modify. set (st1 := mkState _ _ _ _).
  assert (updated p n n' st st1) as Hu by (constructor; try done; rewrite Hc; done).
  pose proof (engine_inv_updated p n n' st st1 Hu (vg_engine _ _ _ _ V)) as HE1.
  set (np' := if on then sb_Preference t' else np).
  set (nextID := match stack with [] => go_zero | (next, _) :: _ => next end).
  set (on' := on && bool_decide (nextID = sb_Preference t')).
  apply wp_bind.
  assert (∀ st2, voting np' on' stack st2 →
    wp (let! kids := range iter_map (children n') in
        for_each kids.*1 (falter_child (shouldFalter n) nextID) ;;
        vote_loop iter_map acceptor_fails accept_fails reject_fails stack np' on' (successful || ok))
       (λ r st', engine_inv g gh Iss st' ∧ on_pref (blocks (ts st')) (lastAcceptedID (ts st')) r.1
                 ∧ (r.1 ∈ preferredIDs (ts st') → pref_inv (ts st'))) fails st2) as Hrest.
  { intros st2 V2. apply wp_bind. unfold wp at 1, range. apply wp_bind. set (st3 := mkState _ _ _ _).
    eapply wp_mono; [apply (wp_for_each (falter_child (shouldFalter n) nextID) (λ _ st', voting np' on' stack st')
      fails _ [] st3)| |done].
    - destruct V2 as [[] ? ? ? ? ? ? ? ?]. constructor; [constructor|..]; done.
    - intros ? c ? st' _ V3. by apply falter_child_spec.
    - intros [] st' V3. by apply IH. }
  destruct (sb_Finalized t' && bool_decide (lastAcceptedID (ts st) = p)) eqn:Hfin.
  - apply andb_prop in Hfin as [_ Hlast%bool_decide_eq_true].
    assert (blocks (ts st1) !! p = Some n') as Hp1 by apply lookup_insert_eq.
    destruct (pref_child _ _ _ _ (e_tree _ _ _ _ HE1) p n' t' Hp1 eq_refl) as (m & b & Hm & Hbm & Hr & Hcb & _).
    change (lastAcceptedID (ts st1)) with (lastAcceptedID (ts st)) in Hr. rewrite Hlast in Hr.
    apply wp_bind. eapply wp_mono; [eapply (acceptPreferredChild_spec iter_map iter_map_perm _ _ _ g gh Iss st1 p n' t')| |done];
      [done|by rewrite <- Hlast|done|done|].
    intros [] st2 (b' & Hb' & Hacc). rewrite Hcb in Hb'. injection Hb' as <-. apply wp_modify. set (st3 := mkState _ _ _ _).
    assert (moved p (sb_Preference t') (blk_Height b) st st3) as HM by (by eapply accepted_child_moved).
    assert (blocks (ts st) !! sb_Preference t' = Some m) as Hm0.
    { simpl in Hm. by rewrite lookup_insert_ne in Hm. }
    destruct (voting_accept p v stack n t (sb_Preference t') (blk_Height b) m np on st st3) as [-> V3];
      try done; [rewrite <- Hc; by eexists|unfold hgt; by rewrite Hbm|].
    by apply Hrest.
  - apply Hrest. by apply (voting_step p v stack n n' t t' np on st st1).
Qed.

(** *** The start of the loop *)

Lemma vote_path_heights root rh bs ss p v l n x :
  tree_inv root rh bs ss [] → vote_path bs root ((p, v) :: l) → bs !! p = Some n → x ∈ l.*1 →
  ∃ m, bs !! x = Some m ∧ hgt rh n < hgt rh m.
Proof.
  intros HT. revert p v n. induction l as [|[c w] l IH]; intros p v n (_ & Hc & Hl) Hn Hx; [by apply not_elem_of_nil in Hx|].
  destruct Hc as [Hcr Hpar]. pose proof Hl as ((m & Hm & _) & _).
  destruct (tree_node _ _ _ _ HT c m Hm Hcr) as (b & pn & Hb & _ & _ & Hp & _ & Hh & Hpar' & _).
  rewrite Hpar in Hpar'. injection Hpar' as E. rewrite <- E, Hn in Hp. injection Hp as <-.
  assert (hgt rh m = hgt rh n + 1) as Hm' by (unfold hgt at 1; by rewrite Hb).
  apply elem_of_cons in Hx as [->|Hx]; [exists m; split; [done|simpl; lia]|].
  destruct (IH c w m Hl Hm Hx) as (k & Hk & Hlt). exists k. split; [done|lia].
Qed.

Lemma vote_path_live root rh bs ss l :
  tree_inv root rh bs ss [] → vote_path bs root l → live_path bs l ∧ NoDup l.*1.
Proof.
  intros HT. induction l as [|[p v] l IH]; [split; [done|constructor]|]. intros Hpath.
  pose proof Hpath as ((n & Hn & Hch) & Hc & Hl). destruct (IH Hl) as [Hlive Hnd]. split.
  - split_and!; [intros n' Hn'; congruence| |done]. destruct l as [|[c w] l]; [done|].
    destruct Hc as [_ Hpar]. intros q Hq. congruence.
  - apply NoDup_cons. split; [|done]. intros Hin.
    destruct (vote_path_heights _ _ _ _ p v l n p HT Hpath Hn Hin) as (m & Hm & Hlt).
    rewrite Hn in Hm. injection Hm as <-. lia.
Qed.

Lemma engine_inv_metrics f st st' :
  (∀ m, processingBlocks (f m) = processingBlocks m ∧ numProcessing (f m) = numProcessing m) →
  ts st' = set_metrics f (ts st) → statuses st' = statuses st → events st' = events st →
  engine_inv g gh Iss st → engine_inv g gh Iss st'.
Proof.
  intros Hf Ht Hs He [HT [M1 M2 M3] H1 H2 H3 H4 H5]. destruct (Hf (ts_metrics (ts st))) as [F1 F2].
  constructor; rewrite ?Ht, ?Hs, ?He; simpl; try done; [constructor; rewrite ?F1, ?F2; done|].
  intros x. rewrite H4. unfold acct. rewrite Ht, He. simpl. by rewrite F1.
Qed.

Definition full_inv (st : State) : Prop := engine_inv g gh Iss st ∧ pref_inv (ts st).

(** The preferred blocks only depend on the tree. *)
Lemma pref_inv_metrics f t : pref_inv t → pref_inv (set_metrics f t).
Proof. intros []. by constructor. Qed.

Definition voted (preferred : ID) (st : State) : Prop :=
  engine_inv g gh Iss st ∧ on_pref (blocks (ts st)) (lastAcceptedID (ts st)) preferred
  ∧ (preferred ∈ preferredIDs (ts st) → pref_inv (ts st)).

Lemma voting_start v l st :
  full_inv st → vote_path (blocks (ts st)) (lastAcceptedID (ts st)) ((lastAcceptedID (ts st), v) :: l) →
  voting (lastAcceptedID (ts st)) true ((lastAcceptedID (ts st), v) :: l) st.
Proof.
  intros [HE HP] Hpath. pose proof (e_tree _ _ _ _ HE) as HT.
  destruct (vote_path_live _ _ _ _ _ HT Hpath) as [Hlive Hnd].
  constructor; try done.
  - by intros _ p [= <-].
  - constructor.
  - intros x q Hx Hr Hpar. apply (pi_ids _ HP) in Hx as [Hon _].
    destruct (on_pref_parent _ _ _ _ HT x q Hon Hr Hpar) as [Hq _].
    destruct (decide (q = lastAcceptedID (ts st))); [by left|right]. by apply (pi_ids _ HP).
Qed.

Lemma vote_spec voteStack st :
  full_inv st → vote_path (blocks (ts st)) (lastAcceptedID (ts st)) (reverse voteStack) →
  match reverse voteStack with [] => True | (p, _) :: _ => p = lastAcceptedID (ts st) end →
  wp (vote iter_map acceptor_fails accept_fails reject_fails voteStack) voted fails st.
Proof.
  intros [HE HP] Hpath Htop. unfold vote. apply wp_bind, wp_get. destruct voteStack as [|e voteStack].
  - destruct (t_root _ _ _ _ _ (e_tree _ _ _ _ HE)) as (n & Hn & _).
    apply wp_bind. eapply wp_some; [exact Hn|]. apply wp_bind, wp_modify. set (st1 := mkState _ _ _ _).
    assert (updated (lastAcceptedID (ts st)) n (set_shouldFalter true n) st st1) as Hu.
    { constructor; try done. apply (t_sb _ _ _ _ _ (e_tree _ _ _ _ HE) _ n Hn). }
    assert (full_inv st1) as [HE1 HP1].
    { split; [by eapply engine_inv_updated|]. eapply pref_inv_updated; [exact Hu| |done|done].
      intros x. by apply (on_pref_update_same _ _ _ n). }
    assert (∀ st2, engine_inv g gh Iss st2 → pref_inv (ts st2) → preference (ts st2) = preference (ts st) →
              voted (preference (ts st)) st2) as Hend.
    { intros st2 HE2 HP2 Ep. split_and!; [done| |done]. rewrite <- Ep. apply (pi_end _ HP2). }
    apply wp_bind. destruct (0 <? NumProcessing (ts st)).
    + apply wp_modify, wp_ret. apply Hend; [|by apply pref_inv_metrics|done].
      eapply (engine_inv_metrics metrics_FailedPoll st1); done.
    + by apply wp_ret, wp_ret, Hend.
  - apply wp_bind. destruct (reverse (e :: voteStack)) as [|[p v] l] eqn:Er.
    { apply (f_equal length) in Er. by rewrite length_reverse in Er. }
    subst p. eapply wp_mono; [apply vote_loop_spec, voting_start; done| |done].
    intros [np ok] st1 (HE1 & Hon & HP1). simpl in *. apply wp_bind, wp_modify, wp_ret.
    split_and!; [|done|intros H; by apply pref_inv_metrics, HP1].
    eapply (engine_inv_metrics (if ok then metrics_SuccessfulPoll else metrics_FailedPoll) st1); try done.
    by destruct ok.
Qed.

(** ** The preferred branch is rebuilt *)

Section rebuild.
Context (root : ID) (rh : Z) (bs : gmap ID snowmanBlock) (ss : gmap ID Status).
Context (HT : tree_inv root rh bs ss []).

Lemma on_pref_height x n : on_pref bs root x → bs !! x = Some n → rh ≤ hgt rh n ∧ (x ≠ root → rh < hgt rh n).
Proof.
  intros Hon. revert n. induction Hon as [|q m t Hon IH Hm Ht]; intros n Hn.
  - split; [|done]. destruct (t_root _ _ _ _ _ HT) as (r & Hr & Hb). rewrite Hn in Hr. injection Hr as <-.
    unfold hgt. destruct (blk n); [|lia]. destruct Hb as (_ & ? & _). lia.
  - destruct (pref_child _ _ _ _ HT q m t Hm Ht) as (n' & b & Hn' & _ & _ & _ & _ & Hh).
    rewrite Hn in Hn'. injection Hn' as <-. destruct (IH m Hm) as [? _]. lia.
Qed.

(** There is one block of the branch at each height. *)
Lemma on_pref_unique x y n m :
  on_pref bs root x → on_pref bs root y → bs !! x = Some n → bs !! y = Some m → hgt rh n = hgt rh m → x = y.
Proof.
  intros Hx. revert y n m. induction Hx as [|q k t Hon IH Hk Ht]; intros y n m Hy Hn Hm Hh.
  - destruct (decide (y = root)) as [|Hne]; [done|]. destruct (on_pref_height y m Hy Hm) as [_ H]. specialize (H Hne).
    destruct (t_root _ _ _ _ _ HT) as (r & Hr & Hb). rewrite Hn in Hr. injection Hr as <-.
    unfold hgt in Hh at 1. destruct (blk n); [destruct Hb as (_ & ? & _)|]; lia.
  - destruct (pref_child _ _ _ _ HT q k t Hk Ht) as (n' & b & Hn' & _ & Hr & _ & _ & Hhn).
    rewrite Hn in Hn'. injection Hn' as <-. destruct Hy as [|q' k' t' Hon' Hk' Ht'].
    + exfalso. destruct (on_pref_height q k Hon Hk) as [? _].
      destruct (t_root _ _ _ _ _ HT) as (r & Hr' & Hb). rewrite Hm in Hr'. injection Hr' as <-.
      unfold hgt in Hh at 2. destruct (blk m); [destruct Hb as (_ & ? & _)|]; lia.
    + destruct (pref_child _ _ _ _ HT q' k' t' Hk' Ht') as (m' & b' & Hm' & _ & _ & _ & _ & Hhm).
      rewrite Hm in Hm'. injection Hm' as <-.
      pose proof (IH q' k k' Hon' Hk Hk' ltac:(lia)) as <-. congruence.
Qed.

(** The part of the branch between two heights. *)
Definition between (lo hi : Z) (x : ID) : Prop :=
  on_pref bs root x ∧ x ≠ root ∧ ∃ n, bs !! x = Some n ∧ lo < hgt rh n ≤ hi.

Record part (lo hi : Z) (ids : gset ID) (hts : gmap Z ID) : Prop := {
  pt_ids : ∀ x, x ∈ ids ↔ between lo hi x;
  pt_heights : ∀ h x, hts !! h = Some x ↔ between lo hi x ∧ ∃ n, bs !! x = Some n ∧ hgt rh n = h;
}.

(** A block is added at one of the ends. *)
Lemma part_add lo hi lo' hi' ids hts x n :
  part lo hi ids hts → on_pref bs root x → x ≠ root → bs !! x = Some n → lo ≤ hi →
  (lo' = lo - 1 ∧ hi' = hi ∧ hgt rh n = lo) ∨ (lo' = lo ∧ hi' = hi + 1 ∧ hgt rh n = hi + 1) →
  part lo' hi' ({[x]} ∪ ids) (<[hgt rh n := x]> hts).
Proof.
  intros [P1 P2] Hon Hne Hn Hle Hends.
  assert (∀ y, between lo' hi' y ↔ y = x ∨ between lo hi y) as Hb.
  { intros y. unfold between. split.
    - intros (Hy & Hyr & m & Hm & Hh). destruct (decide (hgt rh m = hgt rh n)) as [E|E].
      + left. by apply (on_pref_unique y x m n).
      + right. split_and!; try done. exists m. split; [done|lia].
    - intros [->|(Hy & Hyr & m & Hm & Hh)]; split_and!; try done; eexists; (split; [done|lia]). }
  constructor.
  - intros y. by rewrite elem_of_union, elem_of_singleton, P1, Hb.
  - intros h y. rewrite lookup_insert, Hb. case_decide as E.
    + subst h. split.
      * intros [= <-]. split; [by left|eauto].
      * intros [[->|(Hy & _ & _)] (m & Hm & Hh)]; [done|]. f_equal. symmetry. by apply (on_pref_unique y x m n).
    + rewrite P2. split; [intros [? ?]; split; [by right|done]|].
      intros [[->|?] (m & Hm & Hh)]; [|eauto]. rewrite Hn in Hm. injection Hm as <-. done.
Qed.

(** A leaf is the highest block of the branch. *)
Lemma on_pref_leaf_max x n :
  on_pref bs root x → bs !! x = Some n → sb n = None →
  ∀ y m, on_pref bs root y → bs !! y = Some m → hgt rh m ≤ hgt rh n.
Proof.
  intros Hon Hn Hsb y m Hy. revert m. induction Hy as [|q k t Hq IH Hk Ht]; intros m Hm.
  - destruct (on_pref_height x n Hon Hn) as [? _].
    destruct (t_root _ _ _ _ _ HT) as (r & Hr & Hb). rewrite Hm in Hr. injection Hr as <-.
    unfold hgt at 1. destruct (blk m); [destruct Hb as (_ & ? & _)|]; lia.
  - destruct (pref_child _ _ _ _ HT q k t Hk Ht) as (m' & b & Hm' & _ & _ & _ & _ & Hh).
    rewrite Hm in Hm'. injection Hm' as <-. specialize (IH k Hk).
    assert (hgt rh k ≠ hgt rh n); [|lia]. intros E.
    pose proof (on_pref_unique q x k n Hq Hon Hk Hn E) as ->. rewrite Hn in Hk. injection Hk as <-. congruence.
Qed.

(** The whole branch, when its end is a leaf. *)
Lemma part_whole x n ids hts :
  part rh (hgt rh n) ids hts → on_pref bs root x → bs !! x = Some n → sb n = None →
  (∀ y, y ∈ ids ↔ on_pref bs root y ∧ y ≠ root)
  ∧ ∀ h y, hts !! h = Some y ↔ on_pref bs root y ∧ y ≠ root ∧ ∃ m, bs !! y = Some m ∧ hgt rh m = h.
Proof.
  intros [P1 P2] Hon Hn Hsb. pose proof (on_pref_leaf_max x n Hon Hn Hsb) as Hle.
  assert (∀ y, between rh (hgt rh n) y ↔ on_pref bs root y ∧ y ≠ root) as Hb.
  { intros y. split; [intros (? & ? & _); done|]. intros [Hy Hr]. destruct (on_pref_node _ _ _ _ HT y Hy) as [m Hm].
    split_and!; [done..|]. exists m. split; [done|]. split; [by apply (on_pref_height y m)|by eapply Hle]. }
  split; [intros y; by rewrite P1, Hb|]. intros h y. rewrite P2, Hb. tauto.
Qed.
End rebuild.

(** The rebuilding only changes the preferred blocks. *)
Record pref_frame (st st' : State) : Prop := {
  pf_ts : ts st' = set_preferred (λ _, preferredIDs (ts st')) (λ _, preferredHeights (ts st'))
                     (set_preference (preference (ts st')) (ts st));
  pf_statuses : statuses st' = statuses st;
  pf_events : events st' = events st;
}.

Lemma pref_frame_trans st1 st2 st3 : pref_frame st1 st2 → pref_frame st2 st3 → pref_frame st1 st3.
Proof. intros [T1 S1 E1] [T2 S2 E2]. constructor; [rewrite T2, T1; done|congruence..]. Qed.

Lemma pref_frame_blocks st st' : pref_frame st st' →
  blocks (ts st') = blocks (ts st) ∧ lastAcceptedID (ts st') = lastAcceptedID (ts st)
  ∧ lastAcceptedHeight (ts st') = lastAcceptedHeight (ts st).
Proof. intros [T _ _]. by rewrite T. Qed.

Lemma pref_frame_engine st st' : pref_frame st st' → engine_inv g gh Iss st → engine_inv g gh Iss st'.
Proof.
  intros [T S E] [H1 H2 H3 H4 H5 H6 H7]. constructor; unfold acct in *; rewrite ?S, ?E; rewrite T || idtac; done.
Qed.

Definition branch_part (lo hi : Z) (st : State) : Prop :=
  part (lastAcceptedID (ts st)) (lastAcceptedHeight (ts st)) (blocks (ts st)) lo hi
    (preferredIDs (ts st)) (preferredHeights (ts st)).

Lemma prefer_ancestors_spec E fuel x n hi st :
  state_tree st → on_pref (blocks (ts st)) (lastAcceptedID (ts st)) x → blocks (ts st) !! x = Some n →
  hgt (lastAcceptedHeight (ts st)) n ≤ hi → branch_part (hgt (lastAcceptedHeight (ts st)) n) hi st →
  (rank (lastAcceptedHeight (ts st)) (blocks (ts st)) n < fuel)%nat →
  wp (prefer_ancestors fuel n)
     (λ _ st', pref_frame st st' ∧ preference (ts st') = preference (ts st)
               ∧ branch_part (lastAcceptedHeight (ts st)) hi st') E st.
Proof.
  revert x n st. induction fuel as [|fuel IH]; intros x n st HT Hon Hx Hhi HP Hf; [lia|].
  cbn [prefer_ancestors]. apply wp_bind. eapply node_Accepted_tree; [exact HT|done|exact Hx|].
  case_bool_decide as Hr.
  { subst x. apply wp_ret. split_and!; [constructor; by destruct (ts st)|done|].
    destruct (t_root _ _ _ _ _ HT) as (r & Hr & Hb). rewrite Hx in Hr. injection Hr as <-.
    unfold hgt in HP. destruct (blk n); [|done]. by destruct Hb as (_ & <- & _). }
  destruct (tree_node _ _ _ _ HT x n Hx Hr) as (b & p & Hb & Hid & Hd & Hp & Hc & Hh & Hpar & Hch).
  apply wp_bind. eapply wp_some; [exact Hb|]. apply wp_bind, wp_modify. set (st1 := mkState _ _ _ _).
  apply wp_bind, wp_get, wp_bind. eapply wp_some; [exact Hp|].
  assert (pref_frame st st1) as Hfr by (constructor; by destruct (ts st)).
  assert (hgt (lastAcceptedHeight (ts st)) n = blk_Height b) as Hn by (unfold hgt; by rewrite Hb).
  destruct (on_pref_parent _ _ _ _ HT x _ Hon Hr Hpar) as [Honp _].
  eapply wp_mono; [apply (IH (blk_Parent b) p st1)| |done]; try done.
  - simpl. lia.
  - unfold branch_part. simpl. rewrite Hid, <- Hn. eapply part_add; try done. left. split_and!; [lia|done|done].
  - simpl. pose proof (rank_parent (lastAcceptedHeight (ts st)) (blocks (ts st)) n _ p Hp). lia.
  - intros [] st' (Hf' & Hpr & HP'). split_and!; [by eapply pref_frame_trans|done|done].
Qed.

Lemma prefer_descendants_spec E fuel x n st :
  state_tree st → on_pref (blocks (ts st)) (lastAcceptedID (ts st)) x → blocks (ts st) !! x = Some n →
  preference (ts st) = x →
  branch_part (lastAcceptedHeight (ts st)) (hgt (lastAcceptedHeight (ts st)) n) st →
  (base.size (blocks (ts st)) ≤ fuel + rank (lastAcceptedHeight (ts st)) (blocks (ts st)) n)%nat →
  wp (prefer_descendants fuel n) (λ _ st', pref_frame st st' ∧ pref_inv (ts st')) E st.
Proof.
  revert x n st. induction fuel as [|fuel IH]; intros x n st HT Hon Hx Hpr HP Hf;
    cbn [prefer_descendants]; destruct (sb n) as [t|] eqn:Ht.
  2, 4: apply wp_ret; split; [constructor; by destruct (ts st)|];
        destruct (part_whole _ _ _ _ HT x n _ _ HP Hon Hx Ht) as [H1 H2];
        constructor; [done|rewrite Hpr; eauto|done].
  - exfalso. pose proof (rank_lt_size (lastAcceptedHeight (ts st)) (blocks (ts st)) x n Hx). lia.
  - destruct (pref_child _ _ _ _ HT x n t Hx Ht) as (m & b & Hm & Hb & Hr & _ & _ & Hh).
    do 2 (apply wp_bind, wp_modify). apply wp_bind, wp_get, wp_bind. eapply wp_some; [exact Hm|].
    apply wp_bind. eapply wp_some; [exact Hb|]. apply wp_bind, wp_modify. set (st1 := mkState _ _ _ _).
    assert (pref_frame st st1) as Hfr by (constructor; by destruct (ts st)).
    assert (on_pref (blocks (ts st)) (lastAcceptedID (ts st)) (sb_Preference t)) as Hon' by (by econstructor).
    assert (hgt (lastAcceptedHeight (ts st)) m = blk_Height b) as Hmb by (unfold hgt; by rewrite Hb).
    eapply wp_mono; [apply (IH (sb_Preference t) m st1)| |done]; try done.
    + unfold branch_part. simpl. rewrite <- Hmb. destruct (on_pref_height _ _ _ _ HT x n Hon Hx) as [Hle _].
      eapply part_add; [done|exact HP|done..|]. right. split_and!; [done|lia|lia].
    + simpl. pose proof (rank_parent (lastAcceptedHeight (ts st)) (blocks (ts st)) m _ n Hx ltac:(lia)). lia.
    + intros [] st' [Hf' HP']. split; [by eapply pref_frame_trans|done].
Qed.

(** ** [RecordPoll] *)

Context (iter_set : nat → gset ID → list ID).
Context (iter_set_perm : ∀ seed X, iter_set seed X ≡ₚ elements X).

(** A poll of at most [K] validators. *)
Definition valid_poll (st : State) (votes : Bag ID) : Prop :=
  wf_bag votes ∧ Len votes ≤ K (params (ts st)).

Lemma kahn_frame_full st st' : kahn_frame st st' → full_inv st → full_inv st'.
Proof.
  intros [T S E] [[H1 H2 H3 H4 H5 H6 H7] [P1 P2 P3]].
  split; constructor; unfold acct in *; rewrite ?S, ?E; rewrite T || idtac; done.
Qed.

(** The votes select a branch that starts at the last accepted block. *)
Lemma tally_spec E votes st :
  full_inv st → valid_poll st votes →
  wp (if AlphaPreference (params (ts st)) <=? Len votes
      then calculateInDegree iter_map votes ;; pushVotes iter_set else ret [])
     (λ voteStack st', full_inv st'
        ∧ vote_path (blocks (ts st')) (lastAcceptedID (ts st')) (reverse voteStack)
        ∧ match reverse voteStack with [] => True | (p, _) :: _ => p = lastAcceptedID (ts st') end) E st.
Proof.
  intros HF [Hwf HK]. destruct (_ <=? _); [|by apply wp_ret].
  pose proof (e_tree _ _ _ _ (proj1 HF)) as HT.
  destruct (valid_alpha_majority (params (ts st))) as [_ Hmaj]; [by apply Verify_Ok_iff, (e_params _ _ _ _ (proj1 HF))|].
  apply wp_bind. eapply wp_mono; [by eapply calculateInDegree_spec| |done].
  intros [] st1 (Hfr & T & HR & HTle).
  assert (params (ts st1) = params (ts st)) as Ep by (destruct Hfr as [-> _ _]; done).
  eapply wp_mono; [eapply (pushVotes_spec iter_set iter_set_perm)| |done].
  - by eapply kahn_frame_tree.
  - done.
  - rewrite Ep. lia.
  - intros vs st2 (Hfr2 & Hpath & Htop). split; [by eapply kahn_frame_full, kahn_frame_full|].
    assert (blocks (ts st2) = blocks (ts st1) ∧ lastAcceptedID (ts st2) = lastAcceptedID (ts st1)) as [-> ->]
      by (destruct Hfr2 as [-> _ _]; done).
    done.
Qed.

Lemma RecordPoll_spec votes st :
  full_inv st → valid_poll st votes →
  wp (RecordPoll iter_map iter_set acceptor_fails accept_fails reject_fails votes)
     (λ _ st', full_inv st') fails st.
Proof.
  intros HF Hv. unfold RecordPoll. apply wp_bind, wp_modify. set (st0 := mkState _ _ _ _).
  assert (full_inv st0) as HF0.
  { destruct HF as [[H1 H2 H3 H4 H5 H6 H7] [P1 P2 P3]]. split; constructor; done. }
  apply wp_bind, wp_get, wp_bind. eapply wp_mono; [apply (tally_spec _ votes st0 HF0 Hv)| |done].
  intros voteStack st1 (HF1 & Hpath & Htop).
  apply wp_bind. eapply wp_mono; [by apply vote_spec| |done].
  intros preferred st2 (HE & Hon & HP). apply wp_bind, wp_get. case_bool_decide as Hin.
  { apply wp_ret. split; auto. }
  pose proof (e_tree _ _ _ _ HE) as HT. destruct (on_pref_node _ _ _ _ HT preferred Hon) as [n Hn].
  do 2 (apply wp_bind, wp_modify). set (st3 := mkState _ _ _ _).
  assert (pref_frame st2 st3) as Hfr by (constructor; by destruct (ts st2)).
  apply wp_bind. eapply wp_some; [exact Hn|]. apply wp_bind.
  eapply wp_mono; [apply (prefer_ancestors_spec _ _ preferred n (hgt (lastAcceptedHeight (ts st2)) n) st3)| |]; try done.
  - constructor; simpl.
    + intros x. split; [set_solver|]. intros (_ & _ & m & _ & ?). lia.
    + intros h x. rewrite lookup_empty. split; [done|]. intros [(_ & _ & m & _ & ?) _]. lia.
  - simpl. pose proof (rank_lt_size (lastAcceptedHeight (ts st2)) (blocks (ts st2)) preferred n Hn). lia.
  - intros [] st4 (Hfr4 & Hpr & Hpart). pose proof (pref_frame_trans _ _ _ Hfr Hfr4) as Hfr24.
    destruct (pref_frame_blocks _ _ Hfr24) as (Eb & El & Eh). pose proof (pref_frame_engine _ _ Hfr24 HE) as HE4.
    eapply wp_mono; [apply (prefer_descendants_spec _ _ preferred n st4)| |]; rewrite ?Eb, ?El, ?Eh; try done.
    + apply HE4.
    + simpl. lia.
    + intros [] st5 [Hfr5 HP5]. split; [by eapply pref_frame_engine|done].
Qed.
End poll.
