(* ===== verification/Engine.v ===== *)
(** * Correctness of the Snowman engine

    [Add] keeps the invariant of the engine, and with it every sequence of calls of [Add]
    and [RecordPoll] does: the accepted blocks are a chain, no block is decided twice, the
    preferred branch follows the snowball instances, no call panics, and every loop ends
    within its fuel. *)

From S2P Require Import Prelude Ids Bag Snowball SnowTree Hashmap Topological EngineTree EngineVotes EnginePoll.

Open Scope Z_scope.

Section add.
Context {C : Consensus} {L : ConsensusLaws C}.
(** ** A new block in the tree *)

Section tree.
Context (root : ID) (rh : Z) (bs : gmap ID snowmanBlock) (ss : gmap ID Status).
Context (HT : tree_inv root rh bs ss []).
Context (prm : Parameters) (Hbeta : 1 ≤ Beta prm).
Context (b : Block) (pn : snowmanBlock).
Context (Hnew : bs !! blk_ID b = None) (Hpn : bs !! blk_Parent b = Some pn).
Context (Hid : valid_ID (blk_ID b)) (Hh : blk_Height b = hgt rh pn + 1).

Definition new_blocks : gmap ID snowmanBlock :=
  <[blk_ID b := mkNode (Some b) false None ∅]> (<[blk_Parent b := AddChild prm pn b]> bs).

Lemma AddChild_blk : blk (AddChild prm pn b) = blk pn.
Proof. unfold AddChild. by destruct (sb pn). Qed.

Lemma AddChild_children : children (AddChild prm pn b) = <[blk_ID b := b]> (children pn).
Proof using HT Hpn.
  pose proof (t_sb _ _ _ _ _ HT _ pn Hpn) as Hsb. unfold AddChild. destruct (sb pn); [done|]. by rewrite Hsb.
Qed.

Lemma new_parent_ne : blk_Parent b ≠ blk_ID b.
Proof using Hnew Hpn. intros E. congruence. Qed.

Lemma new_lookup x :
  new_blocks !! x = if decide (x = blk_ID b) then Some (mkNode (Some b) false None ∅)
                    else if decide (x = blk_Parent b) then Some (AddChild prm pn b) else bs !! x.
Proof using.
  clear Hnew Hpn HT Hbeta Hid Hh. unfold new_blocks. rewrite !lookup_insert. repeat case_decide; congruence.
Qed.

Lemma new_lookup_old x m :
  bs !! x = Some m → ∃ m', new_blocks !! x = Some m' ∧ blk m' = blk m
    ∧ children m' = (if decide (x = blk_Parent b) then <[blk_ID b := b]> (children m) else children m)
    ∧ (x ≠ blk_Parent b → m' = m).
Proof using HT Hnew Hpn.
  intros Hm. rewrite new_lookup, decide_False by congruence. case_decide as E; [|eauto].
  rewrite E, Hpn in Hm. injection Hm as <-. eexists. split_and!; [done|apply AddChild_blk|apply AddChild_children|done].
Qed.

Lemma new_lookup_inv x m' :
  new_blocks !! x = Some m' →
  (x = blk_ID b ∧ m' = mkNode (Some b) false None ∅) ∨ ∃ m, bs !! x = Some m.
Proof using Hnew Hpn.
  rewrite new_lookup. case_decide as E1; [intros [= <-]; by left|]. case_decide as E2; [subst; eauto|eauto].
Qed.

Lemma new_is_Some x : is_Some (new_blocks !! x) ↔ x = blk_ID b ∨ is_Some (bs !! x).
Proof using Hpn.
  rewrite new_lookup. case_decide as E1; [split; [by left|by eexists]|].
  case_decide as E2; [subst; rewrite Hpn; split; [right|]; by eexists|]. tauto.
Qed.

Lemma new_parent_of x :
  parent_of new_blocks x = if decide (x = blk_ID b) then Some (blk_Parent b) else parent_of bs x.
Proof using Hnew Hpn.
  unfold parent_of. rewrite new_lookup. case_decide; [done|]. case_decide as E; [|done]. subst. rewrite Hpn.
  simpl. by rewrite AddChild_blk.
Qed.

Lemma tree_inv_add : decided ss (blk_ID b) = false → tree_inv root rh new_blocks ss [].
Proof using HT Hbeta Hnew Hpn Hid Hh.
  intros Hd. pose proof new_parent_ne as Hpne.
  constructor; try apply HT.
  - destruct (t_root _ _ _ _ _ HT) as (r & Hr & Hb). destruct (new_lookup_old _ _ Hr) as (r' & Hr' & Hb' & _).
    exists r'. by rewrite Hb'.
  - intros x m' Hm' Hx _. destruct (new_lookup_inv x m' Hm') as [[-> ->]|[m Hm]].
    + destruct (new_lookup_old _ _ Hpn) as (p' & Hp' & Hb' & Hc' & _).
      exists b, p'. rewrite Hc', decide_True by done. split_and!; try done; [apply lookup_insert_eq|].
      unfold hgt in Hh |- *. by rewrite Hb'.
    + destruct (new_lookup_old x m Hm) as (m'' & Hm'' & Hb'' & _). rewrite Hm' in Hm''. injection Hm'' as <-.
      destruct (t_node _ _ _ _ _ HT x m Hm Hx) as (b' & q & Hb' & Hid' & Hd' & Hq & Hcq & Hh'); [apply not_elem_of_nil|].
      destruct (new_lookup_old _ _ Hq) as (q' & Hq' & Hbq & Hcq' & _). exists b', q'.
      split_and!; try done; [congruence| |unfold hgt; by rewrite Hbq].
      rewrite Hcq'. case_decide; [|done]. rewrite lookup_insert_ne; [done|]. congruence.
  - intros x m' c b' Hm' Hc. destruct (new_lookup_inv x m' Hm') as [[-> ->]|[m Hm]]; [done|].
    destruct (new_lookup_old x m Hm) as (m'' & Hm'' & _ & Hc'' & _). rewrite Hm' in Hm''. injection Hm'' as <-.
    destruct (decide (c = blk_ID b)) as [->|Hne].
    + case_decide as E; rewrite Hc'' in Hc.
      * rewrite lookup_insert_eq in Hc. injection Hc as <-. split_and!; [|done|done|].
        -- intros Er. destruct (t_root _ _ _ _ _ HT) as (r & Hr & _). congruence.
        -- eexists. rewrite new_lookup, decide_True by done. done.
      * destruct (t_children _ _ _ _ _ HT x m _ b' Hm Hc) as (_ & _ & _ & k & Hk & _). congruence.
    + assert (children m !! c = Some b') as Hc0.
      { rewrite Hc'' in Hc. case_decide; [|done]. by rewrite lookup_insert_ne in Hc. }
      destruct (t_children _ _ _ _ _ HT x m c b' Hm Hc0) as (Hcr & Hid' & Hpar & mc & Hmc & Hbc).
      split_and!; [done..|]. destruct (new_lookup_old _ _ Hmc) as (mc' & Hmc' & Hb' & _). exists mc'. split; [done|congruence].
  - intros x m' Hm'. destruct (new_lookup_inv x m' Hm') as [[-> ->]|[m Hm]]; [done|].
    destruct (decide (x = blk_Parent b)) as [->|Hne].
    + rewrite new_lookup, decide_False, decide_True in Hm' by done. injection Hm' as <-. rewrite AddChild_children.
      pose proof (t_sb _ _ _ _ _ HT _ pn Hpn) as Hsb. unfold AddChild. destruct (sb pn) as [t|]; simpl.
      * destruct Hsb as [Hok Hch]. destruct (sb_Add_law t (blk_ID b) Hok Hid) as (H1 & _ & H2). split; [done|].
        intros x [->|Hx]%H2; [rewrite lookup_insert_eq; by eexists|]. rewrite lookup_insert.
        case_decide; [by eexists|by apply Hch].
      * destruct (sb_New_law prm (blk_ID b) Hbeta Hid) as [H1 H2]. split; [done|]. rewrite H2.
        intros x ->%list_elem_of_singleton. rewrite lookup_insert_eq. by eexists.
    + destruct (new_lookup_old x m Hm) as (m'' & Hm'' & _ & _ & Hs). rewrite Hm' in Hm''. injection Hm'' as <-.
      rewrite (Hs Hne). by apply (t_sb _ _ _ _ _ HT x).
  - intros x Hx. by apply not_elem_of_nil in Hx.
Qed.

(** The preferred branch gets longer when the block is added at its end. *)
Lemma on_pref_add_other x :
  (on_pref bs root (blk_Parent b) → sb pn ≠ None) → on_pref new_blocks root x ↔ on_pref bs root x.
Proof using HT Hnew Hpn Hid.
  intros Hend.
  assert (∀ q m t, on_pref bs root q → bs !! q = Some m → sb m = Some t →
            ∃ m' t', new_blocks !! q = Some m' ∧ sb m' = Some t' ∧ sb_Preference t' = sb_Preference t) as Hfwd.
  { intros q m t Hon Hm Ht. rewrite new_lookup, decide_False by congruence. case_decide as E; [|eauto].
    subst q. rewrite Hpn in Hm. injection Hm as <-. unfold AddChild. rewrite Ht. eexists _, _.
    split_and!; [done|done|]. pose proof (t_sb _ _ _ _ _ HT _ pn Hpn) as Hsb. rewrite Ht in Hsb.
    destruct Hsb as [Hok _]. by destruct (sb_Add_law t (blk_ID b) Hok Hid) as (_ & ? & _). }
  split.
  - induction 1 as [|q m' t' _ IH Hm' Ht']; [constructor|]. destruct (on_pref_node _ _ _ _ HT q IH) as [m Hm].
    assert (∃ t, sb m = Some t) as [t Ht].
    { destruct (sb m) as [t|] eqn:Ht; [eauto|]. exfalso. destruct (decide (q = blk_Parent b)) as [->|Hne].
      - rewrite Hpn in Hm. injection Hm as <-. by apply Hend.
      - destruct (new_lookup_old q m Hm) as (m'' & Hm'' & _ & _ & Hs). rewrite (Hs Hne), Hm' in Hm''.
        injection Hm'' as ->. congruence. }
    destruct (Hfwd q m t IH Hm Ht) as (m1 & t1 & H1 & H2 & H3). rewrite Hm' in H1. injection H1 as <-.
    rewrite Ht' in H2. injection H2 as <-. rewrite H3. by econstructor.
  - induction 1 as [|q m t Hon IH Hm Ht]; [constructor|].
    destruct (Hfwd q m t Hon Hm Ht) as (m1 & t1 & H1 & H2 & <-). by econstructor.
Qed.

Lemma on_pref_add_end x :
  on_pref bs root (blk_Parent b) → sb pn = None →
  on_pref new_blocks root x ↔ on_pref bs root x ∨ x = blk_ID b.
Proof using HT Hbeta Hnew Hpn Hid.
  intros Honp Hend. destruct (sb_New_law prm (blk_ID b) Hbeta Hid) as [Hok Hch].
  pose proof (sb_Preference_law _ Hok) as Hpr. rewrite Hch in Hpr. apply list_elem_of_singleton in Hpr.
  assert (∀ q, on_pref bs root q → on_pref new_blocks root q) as Hfwd.
  { induction 1 as [|q m t Hon IH Hm Ht]; [constructor|]. econstructor; [exact IH| |exact Ht].
    assert (q ≠ blk_Parent b) as Hne by congruence.
    destruct (new_lookup_old q m Hm) as (m' & Hm' & _ & _ & Hs). by rewrite <- (Hs Hne). }
  split.
  - induction 1 as [|q m' t' _ IH Hm' Ht']; [left; constructor|].
    assert (q ≠ blk_ID b) as Hqn by (intros ->; rewrite new_lookup, decide_True in Hm' by done; by injection Hm' as <-).
    destruct IH as [IH|?]; [|done]. destruct (decide (q = blk_Parent b)) as [->|Hne].
    + right. rewrite new_lookup, decide_False, decide_True in Hm' by done. injection Hm' as <-.
      unfold AddChild in Ht'. rewrite Hend in Ht'. simpl in Ht'. injection Ht' as <-. done.
    + left. rewrite new_lookup, !decide_False in Hm' by done. by econstructor.
  - intros [Hx| ->]; [by apply Hfwd|]. rewrite <- Hpr. econstructor; [by apply Hfwd| |].
    + rewrite new_lookup, decide_False, decide_True by (done || apply new_parent_ne). done.
    + unfold AddChild. by rewrite Hend.
Qed.
End tree.

Context (g : ID) (gh : Z) (Iss : ID → Prop).

(** The end of the preferred branch is its only leaf. *)
Lemma pref_end_unique st x n :
  engine_inv g gh Iss st → pref_inv (ts st) → on_pref (blocks (ts st)) (lastAcceptedID (ts st)) x →
  blocks (ts st) !! x = Some n → sb n = None → x = preference (ts st).
Proof.
  intros HE [_ [Hon (m & Hm & Hsm)] _] Hx Hn Hs. pose proof (e_tree _ _ _ _ HE) as HT.
  pose proof (on_pref_leaf_max _ _ _ _ HT x n Hx Hn Hs _ m Hon Hm).
  pose proof (on_pref_leaf_max _ _ _ _ HT _ m Hon Hm Hsm x n Hx Hn).
  eapply (on_pref_unique _ _ _ _ HT x); try done. lia.
Qed.

(** ** The bookkeeping of [Add] *)

Lemma metrics_Issued_spec id poll m :
  om_wf (processingBlocks m) → numProcessing m = om_len (processingBlocks m) → id ∉ (processingBlocks m).*1 →
  let m' := metrics_Issued id poll m in
  om_wf (processingBlocks m') ∧ numProcessing m' = om_len (processingBlocks m')
  ∧ ∀ k, k ∈ (processingBlocks m').*1 ↔ k ∈ (processingBlocks m).*1 ∨ k = id.
Proof.
  intros Hwf Hn Hid m'. split_and!; simpl; [by apply om_put_wf| |].
  - unfold om_put, om_len in *. rewrite om_delete_absent, length_app by done. simpl. lia.
  - intros k. unfold om_put. rewrite om_delete_absent by done. rewrite fmap_app, elem_of_app. cbn. by rewrite list_elem_of_singleton.
Qed.

(** The log after a block without a parent was rejected. *)
Lemma tree_inv_statuses root rh bs ss ss' :
  (∀ id, is_Some (bs !! id) → ss' !! id = ss !! id) → tree_inv root rh bs ss [] → tree_inv root rh bs ss' [].
Proof.
  intros Hss HT. destruct (t_root _ _ _ _ _ HT) as (r & Hr & Hb).
  constructor; try apply HT.
  - exists r. rewrite (Hss root) by by eexists. done.
  - unfold decided. rewrite (Hss root) by by eexists. apply HT.
  - intros id n Hn Hne _. destruct (t_node _ _ _ _ _ HT id n Hn Hne) as (b' & p & H1 & H2 & H3 & H4); [apply not_elem_of_nil|].
    exists b', p. unfold decided in *. rewrite (Hss id) by by eexists. done.
Qed.

(** ** [Add] *)

(** What the VM guarantees of a block it hands to the engine. *)
Definition valid_block (st : State) (b : Block) : Prop :=
  valid_ID (blk_ID b)
  ∧ ∀ n, blocks (ts st) !! blk_Parent b = Some n → blk_Height b = hgt (lastAcceptedHeight (ts st)) n + 1.

(** The block was added before, or is decided, or is below the last accepted block. *)
Definition duplicate (st : State) (b : Block) : bool :=
  decided (statuses st) (blk_ID b)
  || (bool_decide (status_of st (blk_ID b) = Processing) && (blk_Height b <=? lastAcceptedHeight (ts st)))
  || is_Processing (ts st) (blk_ID b).

(** The effect on the tree, on the log and on the preference. *)
Definition added_block (reject_fails : ID → bool) (st : State) (b : Block) (st' : State) : Prop :=
  match blocks (ts st) !! blk_Parent b with
  | None =>
      reject_fails (blk_ID b) = false ∧ blocks (ts st') = blocks (ts st)
      ∧ events st' = events st ++ [EvReject b] ∧ preference (ts st') = preference (ts st)
  | Some pn =>
      blocks (ts st') = new_blocks (blocks (ts st)) (params (ts st)) b pn ∧ events st' = events st
      ∧ preference (ts st')
        = if bool_decide (preference (ts st) = blk_Parent b) then blk_ID b else preference (ts st)
  end.

(** A block without a parent in the tree that the VM fails to reject. *)
Definition unrejected_block (reject_fails : ID → bool) (st : State) (b : Block) (e : error) (st' : State) : Prop :=
  e = ErrReject ∧ reject_fails (blk_ID b) = true ∧ blocks (ts st) !! blk_Parent b = None
  ∧ blocks (ts st') = blocks (ts st) ∧ events st' = events st ∧ preference (ts st') = preference (ts st).
End add.

Section add_spec.
Context {C : Consensus} {L : ConsensusLaws C}.
Context (g : ID) (gh : Z) (Iss : ID → Prop).

Lemma Decided_spec b (Q : bool → State → Prop) E st :
  Q (decided (statuses st) (blk_ID b)
     || (bool_decide (status_of st (blk_ID b) = Processing) && (blk_Height b <=? lastAcceptedHeight (ts st)))) st →
  wp (Topological.Decided b) Q E st.
Proof.
  intros H. unfold Topological.Decided. apply wp_bind. unfold wp at 1, Status_.
  unfold decided in H. change (default Processing (statuses st !! blk_ID b)) with (status_of st (blk_ID b)) in H.
  destruct (Status_Decided (status_of st (blk_ID b))) eqn:E1; [by apply wp_ret|].
  by apply wp_bind, wp_get, wp_ret.
Qed.

(** A block whose parent is in the tree. *)
Section known.
Context (st st' : State) (b : Block) (pn : snowmanBlock).
Context (HF : full_inv g gh Iss st) (Hd : decided (statuses st) (blk_ID b) = false).
Context (Hnew : blocks (ts st) !! blk_ID b = None) (Hpn : blocks (ts st) !! blk_Parent b = Some pn).
Context (Hvalid : valid_block st b).

Notation bs := (blocks (ts st)).
Notation root := (lastAcceptedID (ts st)).
Notation rh := (lastAcceptedHeight (ts st)).
Notation bs' := (new_blocks (blocks (ts st)) (params (ts st)) b pn).

Definition issued : Topological :=
  set_blocks (λ bs, new_blocks bs (params (ts st)) b pn)
    (set_metrics (metrics_Issued (blk_ID b) (pollNumber (ts st)) ∘ metrics_Verified (blk_Height b)) (ts st)).

Lemma known_beta : 1 ≤ Beta (params (ts st)).
Proof using HF.
  pose proof (e_params _ _ _ _ (proj1 HF)) as E. apply Verify_Ok_iff in E. unfold valid_parameters in E. lia.
Qed.

Lemma known_tree : tree_inv root rh bs' (statuses st) [].
Proof using HF Hd Hnew Hpn Hvalid.
  destruct Hvalid as [Hid Hh]. apply tree_inv_add; auto; [apply HF|apply known_beta].
Qed.

Lemma known_metrics :
  metrics_inv (ts_metrics issued) root bs' []
  ∧ ∀ x, x ∈ (processingBlocks (ts_metrics issued)).*1
         ↔ x ∈ (processingBlocks (ts_metrics (ts st))).*1 ∨ x = blk_ID b.
Proof using HF Hnew Hpn.
  destruct HF as [[HT [M1 M2 M3] _ _ _ _ _] _].
  assert (blk_ID b ∉ (processingBlocks (ts_metrics (ts st))).*1) as Hni.
  { rewrite M2, Hnew. by intros [[? ?] _]. }
  destruct (metrics_Issued_spec (blk_ID b) (pollNumber (ts st)) (metrics_Verified (blk_Height b) (ts_metrics (ts st))) M1 M3 Hni)
    as (I1 & I2 & I3).
  assert (blk_ID b ≠ root) as Hbr by (intros E; destruct (t_root _ _ _ _ _ HT) as (r & Hr & _); congruence).
  split; [|exact I3]. constructor; [done| |done]. intros id. rewrite (new_is_Some bs (params (ts st)) b pn Hpn).
  change (processingBlocks (ts_metrics issued)) with
    (processingBlocks (metrics_Issued (blk_ID b) (pollNumber (ts st)) (metrics_Verified (blk_Height b) (ts_metrics (ts st))))).
  rewrite I3. change (processingBlocks (metrics_Verified _ _)) with (processingBlocks (ts_metrics (ts st))).
  rewrite M2. pose proof (not_elem_of_nil (A := ID) id).
  destruct (decide (id = blk_ID b)) as [->|]; tauto.
Qed.

Lemma known_engine :
  blocks (ts st') = bs' → lastAcceptedID (ts st') = root → lastAcceptedHeight (ts st') = rh →
  params (ts st') = params (ts st) → ts_metrics (ts st') = ts_metrics issued → statuses st' = statuses st → events st' = events st →
  engine_inv g gh (λ x, Iss x ∨ x = blk_ID b) st'.
Proof using HF Hd Hnew Hpn Hvalid.
  intros F1 F2 F3 F4 F5 Hs He. destruct HF as [[_ _ HL E1 E2 HI E3] _].
  constructor; rewrite ?F1, ?F2, ?F3, ?F4, ?F5, ?Hs, ?He; try done; [apply known_tree|apply known_metrics|].
  intros x. rewrite HI. unfold acct. rewrite F5, He, (proj2 known_metrics x). tauto.
Qed.

(** The nodes of the old tree keep their heights. *)
Lemma known_heights x h :
  is_Some (bs !! x) →
  (∃ n, bs' !! x = Some n ∧ hgt rh n = h) ↔ ∃ n, bs !! x = Some n ∧ hgt rh n = h.
Proof using HF Hnew Hpn.
  intros [m Hm]. destruct (new_lookup_old root rh bs _ (e_tree _ _ _ _ (proj1 HF)) (params (ts st)) b pn Hnew Hpn x m Hm)
    as (m' & Hm' & Hb' & _).
  assert (hgt rh m' = hgt rh m) as Hh by (unfold hgt; by rewrite Hb').
  rewrite Hm, Hm'. split; intros (? & [= <-] & ?); eexists; (split; [done|congruence]).
Qed.

Lemma known_pref_end :
  preference (ts st) = blk_Parent b →
  pref_inv (set_preferred (union {[blk_ID b]}) (insert (blk_Height b) (blk_ID b)) (set_preference (blk_ID b) issued)).
Proof using HF Hd Hnew Hpn Hvalid.
  intros Hpref. destruct HF as [HE HP]. pose proof (e_tree _ _ _ _ HE) as HT. destruct Hvalid as [Hid Hh]. specialize (Hh pn Hpn).
  destruct HP as [P1 [P2 (m & Hm & Hsm)] P3]. rewrite Hpref in P2, Hm. rewrite Hpn in Hm. injection Hm as <-.
  assert (∀ x, on_pref bs' root x ↔ on_pref bs root x ∨ x = blk_ID b) as Hon.
  { intros x. apply (on_pref_add_end root rh bs (statuses st) HT); try done. apply known_beta. }
  assert (∀ x, on_pref bs root x → is_Some (bs !! x)) as Hin.
  { intros x Hx. destruct (on_pref_node _ _ _ _ HT x Hx) as [k Hk]. by eexists. }
  assert (blk_ID b ≠ root) as Hbr by (intros E; destruct (t_root _ _ _ _ _ HT) as (r & Hr & _); congruence).
  assert (∀ x, on_pref bs root x → x ≠ blk_ID b) as Hne by (intros x Hx ->; destruct (Hin _ Hx); congruence).
  assert (bs' !! blk_ID b = Some (mkNode (Some b) false None ∅)) as Hb by (by rewrite new_lookup, decide_True).
  assert (∀ x, ¬ (on_pref bs root x ∧ x ≠ root ∧ ∃ n, bs !! x = Some n ∧ hgt rh n = blk_Height b)) as Hfree.
  { intros x (Hx & _ & k & Hk & E). pose proof (on_pref_leaf_max _ _ _ _ HT _ pn P2 Hpn Hsm x k Hx Hk). lia. }
  constructor; simpl.
  - intros x. rewrite elem_of_union, elem_of_singleton, P1, Hon. naive_solver.
  - split; [apply Hon; by right|eauto].
  - intros h x. rewrite lookup_insert, Hon. case_decide as Eh; [subst h; split|].
    + intros [= <-]. split_and!; [by right|done|]. eauto.
    + intros ([Hx| ->] & Hxr & Hn); [|done]. exfalso. apply (Hfree x). split_and!; [done..|].
      apply known_heights; auto.
    + rewrite P3. split.
      * intros (Hx & Hxr & Hn). split_and!; [by left|done|]. apply known_heights; auto.
      * intros ([Hx| ->] & Hxr & Hn); [split_and!; [done..|]; apply known_heights in Hn; auto|].
        destruct Hn as (n & Hn & Hhn). rewrite Hb in Hn. injection Hn as <-. done.
Qed.

Lemma known_pref_other : preference (ts st) ≠ blk_Parent b → pref_inv issued.
Proof using HF Hd Hnew Hpn Hvalid.
  intros Hpref. destruct HF as [HE HP]. pose proof (e_tree _ _ _ _ HE) as HT. destruct Hvalid as [Hid Hh].
  assert (∀ x, on_pref bs' root x ↔ on_pref bs root x) as Hon.
  { intros x. apply (on_pref_add_other root rh bs (statuses st) HT); try done. intros Honp Hend.
    by apply Hpref; symmetry; apply (pref_end_unique g gh Iss st _ pn). }
  destruct HP as [P1 [P2 (m & Hm & Hsm)] P3]. constructor; simpl.
  - intros x. rewrite P1, Hon. done.
  - split; [by apply Hon|].
    destruct (new_lookup_old root rh bs _ HT (params (ts st)) b pn Hnew Hpn _ m Hm) as (m' & Hm' & _ & _ & Hs').
    exists m'. split; [done|]. by rewrite Hs' by done.
  - intros h x. rewrite P3, Hon. split; intros (Hx & Hxr & Hn); (split_and!; [done..|]); apply known_heights; try done.
    all: destruct (on_pref_node _ _ _ _ HT x Hx) as [k Hk]; by eexists.
Qed.
End known.

(** A block whose parent is not in the tree: it is rejected. *)
Lemma add_orphan st st' b :
  full_inv g gh Iss st → decided (statuses st) (blk_ID b) = false → blocks (ts st) !! blk_ID b = None →
  ts st' = set_metrics (metrics_Rejected (blk_ID b) ∘ metrics_Issued (blk_ID b) (pollNumber (ts st))
                        ∘ metrics_Verified (blk_Height b)) (ts st) →
  statuses st' = <[blk_ID b := Rejected]> (statuses st) → events st' = events st ++ [EvReject b] →
  full_inv g gh (λ x, Iss x ∨ x = blk_ID b) st'.
Proof.
  intros [[HT [M1 M2 M3] HL E1 E2 HI E3] [P1 P2 P3]] Hd Hnew Ht Hs He.
  assert (blk_ID b ∉ (processingBlocks (ts_metrics (ts st))).*1) as Hni.
  { rewrite M2, Hnew. by intros [[? ?] _]. }
  destruct (metrics_Issued_spec (blk_ID b) (pollNumber (ts st)) (metrics_Verified (blk_Height b) (ts_metrics (ts st))) M1 M3 Hni)
    as (I1 & I2 & I3).
  destruct (metrics_Rejected_spec (blk_ID b) _ I1 I2) as (R1 & R2 & R3).
  assert (∀ x, x ∈ (processingBlocks (ts_metrics (ts st'))).*1 ↔ x ∈ (processingBlocks (ts_metrics (ts st))).*1) as Hkeys.
  { intros x. rewrite Ht. cbn [set_metrics ts_metrics compose]. rewrite R3, I3.
    change (processingBlocks (metrics_Verified _ _)) with (processingBlocks (ts_metrics (ts st))).
    destruct (decide (x = blk_ID b)); naive_solver. }
  assert (accepted_blocks (events st') = accepted_blocks (events st)) as Ha.
  { rewrite He. unfold accepted_blocks. rewrite omap_app. simpl. by rewrite app_nil_r. }
  split; [|constructor; rewrite Ht; done].
  assert (blocks (ts st') = blocks (ts st) ∧ lastAcceptedID (ts st') = lastAcceptedID (ts st)
          ∧ lastAcceptedHeight (ts st') = lastAcceptedHeight (ts st) ∧ params (ts st') = params (ts st))
    as (F1 & F2 & F3 & F4) by (rewrite Ht; done).
  constructor; rewrite ?F1, ?F2, ?F3, ?F4, ?Hs; try done.
  - apply (tree_inv_statuses _ _ _ (statuses st)); [|done]. intros id [m Hm]. rewrite lookup_insert_ne by congruence. done.
  - constructor; [rewrite Ht; exact R1| |rewrite Ht; exact R2]. intros id. by rewrite Hkeys, M2.
  - rewrite He. by apply (log_extend g gh _ _ (EvReject b)).
  - rewrite E1. unfold log_last. by rewrite Ha.
  - rewrite E2. unfold log_height. by rewrite Ha.
  - intros x. rewrite HI. unfold acct. rewrite Hkeys, He, fmap_app, elem_of_app. cbn.
    rewrite list_elem_of_singleton. tauto.
Qed.

Context (acceptor_fails accept_fails reject_fails : ID → bool).
Notation fails := (failed acceptor_fails accept_fails reject_fails g gh).

Lemma duplicate_new b st :
  full_inv g gh Iss st → duplicate st b = false →
  decided (statuses st) (blk_ID b) = false ∧ blocks (ts st) !! blk_ID b = None.
Proof using.
  intros HF [[Hd _]%orb_false_iff Hproc]%orb_false_iff. split; [done|].
  unfold is_Processing in Hproc. case_bool_decide as Hl.
  - rewrite Hl in Hd. by rewrite (t_root_decided _ _ _ _ _ (e_tree _ _ _ _ (proj1 HF))) in Hd.
  - apply bool_decide_eq_false in Hproc. by apply eq_None_not_Some.
Qed.

Lemma Add_spec b st :
  full_inv g gh Iss st → valid_block st b →
  wp (Topological.Add reject_fails b)
     (λ _ st', duplicate st b = false ∧ added_block reject_fails st b st'
               ∧ full_inv g gh (λ x, Iss x ∨ x = blk_ID b) st')
     (λ e st', if duplicate st b then e = ErrDuplicateAdd ∧ st' = st
               else fails e st' ∧ unrejected_block reject_fails st b e st') st.
Proof.
  intros HF Hv. unfold Topological.Add. apply wp_bind, Decided_spec, wp_bind, wp_get.
  fold (duplicate st b). destruct (duplicate st b) eqn:Hdup; [done|].
  destruct (duplicate_new b st HF Hdup) as [Hd Hnew].
  do 2 (apply wp_bind, wp_modify). unfold added_block. destruct (blocks (ts st) !! blk_Parent b) as [pn|] eqn:Hpn.
  - do 2 (apply wp_bind, wp_modify). set (st1 := mkState _ _ _ _). case_bool_decide as Hpref.
    + apply wp_bind, wp_modify, wp_modify. split_and!; [done..|]. split.
      * by apply (known_engine st _ b pn HF Hd Hnew Hpn Hv).
      * by apply (known_pref_end st b pn HF Hd Hnew Hpn Hv).
    + apply wp_ret. split_and!; [done..|]. split.
      * by apply (known_engine st st1 b pn HF Hd Hnew Hpn Hv).
      * by apply (known_pref_other st b pn HF Hd Hnew Hpn Hv).
  - apply wp_bind. unfold wp at 1, vm_Reject. destruct (reject_fails (blk_ID b)) eqn:Hfail.
    { split; [split; [right; right; eauto|apply HF]|done]. }
    apply wp_modify. split_and!; [done..|]. by eapply add_orphan.
Qed.
End add_spec.

(** ** Runs of the engine *)

Section run.
Context {C : Consensus} {L : ConsensusLaws C}.
Context (iter_map : ∀ A, nat → gmap ID A → list (ID * A)) (iter_set : nat → gset ID → list ID).
Context (acceptor_fails accept_fails reject_fails : ID → bool).
Context (prm : Parameters) (g : ID) (gh : Z).

Inductive engine_op := CallAdd (b : Block) | CallRecordPoll (votes : Bag ID).

Definition engine_step (o : engine_op) : M unit :=
  match o with
  | CallAdd b => Topological.Add reject_fails b
  | CallRecordPoll votes => RecordPoll iter_map iter_set acceptor_fails accept_fails reject_fails votes
  end.

Definition valid_call (st : State) (o : engine_op) : Prop :=
  match o with
  | CallAdd b => valid_block st b
  | CallRecordPoll votes => valid_poll st votes
  end.

(** The states after calls that did not fail, from a last accepted block [g] of height
    [gh], with the blocks that were issued.  A duplicate [Add] has no effect. *)
Inductive reachable : list Block → State → Prop :=
  | reach_init t s :
      Initialize prm g gh = Ok t → reachable [] (mkState t {[g := Accepted]} [] s)
  | reach_add issued st b st' :
      reachable issued st → valid_block st b → engine_step (CallAdd b) st = (Ok tt, st') →
      reachable (issued ++ [b]) st'
  | reach_duplicate issued st b st' :
      reachable issued st → valid_block st b → engine_step (CallAdd b) st = (Err ErrDuplicateAdd, st') →
      reachable issued st'
  | reach_poll issued st votes st' :
      reachable issued st → valid_poll st votes → engine_step (CallRecordPoll votes) st = (Ok tt, st') →
      reachable issued st'.

Definition issued_ids (issued : list Block) (x : ID) : Prop := x ∈ blk_ID <$> issued.

Lemma full_inv_ext (I1 I2 : ID → Prop) st : (∀ x, I1 x ↔ I2 x) → full_inv g gh I1 st → full_inv g gh I2 st.
Proof.
  intros Hi [[H1 H2 H3 H4 H5 H6 H7] HP]. split; [|done]. constructor; try done. intros x. by rewrite <- Hi.
Qed.

Lemma init_inv t s :
  Initialize prm g gh = Ok t → full_inv g gh (issued_ids []) (mkState t {[g := Accepted]} [] s).
Proof.
  unfold Initialize. destruct (Verify prm) as [[]|] eqn:Hv; [|done]. intros [= <-].
  assert (∀ x n, ({[g := mkNode None false None ∅]} : gmap ID snowmanBlock) !! x = Some n →
            x = g ∧ n = mkNode None false None ∅) as Hl.
  { intros x n Hx. apply lookup_singleton_Some in Hx. naive_solver. }
  split; constructor; simpl; try done.
  - constructor.
    + eexists. rewrite lookup_singleton_eq. done.
    + unfold decided. by rewrite lookup_singleton_eq.
    + intros x n Hx Hne _. by destruct (Hl x n Hx).
    + intros x n c b Hx Hc. destruct (Hl x n Hx) as [_ ->]. simpl in Hc. by rewrite lookup_empty in Hc.
    + intros x n Hx. by destruct (Hl x n Hx) as [_ ->].
    + intros x Hx. by apply not_elem_of_nil in Hx.
    + constructor.
  - constructor; simpl; [constructor| |done]. intros x. split; [intros H; by apply not_elem_of_nil in H|].
    intros ([n Hx] & Hne & _). by destruct (Hl x n Hx).
  - constructor; simpl; [constructor| |done|apply lookup_singleton_eq|].
    + intros e He. by apply not_elem_of_nil in He.
    + intros x st' [<- <-]%lookup_singleton_Some. split; [done|by left].
  - intros x. unfold acct, issued_ids. simpl. rewrite !elem_of_nil. tauto.
  - intros x. split; [set_solver|]. intros [Hon Hne]. destruct Hon as [|q n t' _ Hq Ht]; [done|].
    destruct (Hl q n Hq) as [_ ->]. done.
  - split; [constructor|]. eexists. rewrite lookup_singleton_eq. done.
  - intros h x. rewrite lookup_empty. split; [done|]. intros (Hon & Hne & _).
    destruct Hon as [|q n t' _ Hq Ht]; [done|]. destruct (Hl q n Hq) as [_ ->]. done.
Qed.

Context (iter_map_perm : ∀ A seed (m : gmap ID A), iter_map A seed m ≡ₚ map_to_list m).
Context (iter_set_perm : ∀ seed X, iter_set seed X ≡ₚ elements X).

Lemma reachable_inv issued st : reachable issued st → full_inv g gh (issued_ids issued) st.
Proof.
  induction 1 as [t s Hi|issued st b st' _ IH Hv Hs|issued st b st' _ IH Hv Hs|issued st votes st' _ IH Hv Hs].
  - by apply init_inv.
  - pose proof (Add_spec g gh _ acceptor_fails accept_fails reject_fails b st IH Hv) as H.
    unfold wp in H. simpl in Hs. rewrite Hs in H. destruct H as (_ & _ & H).
    eapply full_inv_ext; [|exact H]. intros x. unfold issued_ids. rewrite fmap_app, elem_of_app. cbn.
    rewrite list_elem_of_singleton. done.
  - pose proof (Add_spec g gh _ acceptor_fails accept_fails reject_fails b st IH Hv) as H.
    unfold wp in H. simpl in Hs. rewrite Hs in H. destruct (duplicate st b); [by destruct H as [_ ->]|].
    by destruct H as [[[[? _]|[[? _]|[? _]]] _] _].
  - pose proof (RecordPoll_spec iter_map iter_map_perm acceptor_fails accept_fails reject_fails g gh _
                  iter_set iter_set_perm votes st IH Hv) as H.
    unfold wp in H. simpl in Hs. by rewrite Hs in H.
Qed.

(** The gauge of the metrics counts the blocks of the tree. *)
Lemma metrics_count m root bs :
  metrics_inv m root bs [] → is_Some (bs !! root) → numProcessing m = Z.of_nat (base.size bs) - 1.
Proof.
  intros [M1 M2 M3] Hr. rewrite M3. unfold om_len.
  assert ((processingBlocks m).*1 ≡ₚ elements (dom (delete root bs))) as Hp.
  { apply NoDup_Permutation; [done|apply NoDup_elements|]. intros x. rewrite M2, elem_of_elements, elem_of_dom.
    rewrite lookup_delete_is_Some. pose proof (not_elem_of_nil (A := ID) x). naive_solver. }
  apply Permutation_length in Hp. rewrite length_fmap in Hp. rewrite Hp.
  change (length (elements (dom (delete root bs)))) with (base.size (dom (delete root bs))).
  rewrite size_dom, map_size_delete_Some by done.
  assert (base.size bs ≠ 0%nat); [|lia]. intros Hz. apply map_size_empty_inv in Hz. subst bs. by destruct Hr.
Qed.

(** C1. Safety of the engine.  Along every run the accepted blocks are a chain from the
    initial last accepted block, each at the next height; the last accepted block is the
    end of this chain; no block is decided twice; every issued block is either processing
    or was decided, and never both; and the number of processing blocks is the one that
    the metrics report. *)
Theorem engine_safety issued st :
  reachable issued st →
  accepted_chain g gh (accepted_blocks (events st))
  ∧ lastAcceptedID (ts st) = log_last g (events st) ∧ lastAcceptedHeight (ts st) = log_height gh (events st)
  ∧ NoDup (blk_ID ∘ ev_block <$> events st)
  ∧ (∀ x, x ∈ blk_ID <$> issued ↔ is_Processing (ts st) x = true ∨ x ∈ blk_ID ∘ ev_block <$> events st)
  ∧ (∀ x, is_Processing (ts st) x = true → x ∉ blk_ID ∘ ev_block <$> events st)
  ∧ numProcessing (ts_metrics (ts st)) = NumProcessing (ts st).
Proof.
  intros Hr. destruct (reachable_inv issued st Hr) as [[HT HM HL H1 H2 HI _] _].
  assert (∀ x, is_Processing (ts st) x = true ↔ x ∈ (processingBlocks (ts_metrics (ts st))).*1) as Hp.
  { intros x. unfold is_Processing. rewrite (m_keys _ _ _ _ HM). pose proof (not_elem_of_nil (A := ID) x).
    case_bool_decide as E; [naive_solver|]. rewrite bool_decide_eq_true. tauto. }
  split_and!; try done; try apply HL.
  - intros x. rewrite Hp. apply HI.
  - intros x Hx Hin. apply Hp, (m_keys _ _ _ _ HM) in Hx as ([n Hn] & Hne & _).
    destruct (tree_node _ _ _ _ HT x n Hn Hne) as (b & _ & _ & _ & Hd & _).
    apply list_elem_of_fmap in Hin as (e & -> & He).
    by apply (log_undecided g gh _ _ e _ HL Hd He).
  - apply (metrics_count _ (lastAcceptedID (ts st))); [done|].
    destruct (t_root _ _ _ _ _ HT) as (n & Hn & _). by eexists.
Qed.

(** C2. The preferred branch.  After every run the preferred blocks are exactly those that
    the snowball preferences select, starting at the last accepted block: one of each
    height, returned by [PreferenceAtHeight], up to a block without children, which is the
    preference. *)
Theorem preference_follows_snowball issued st :
  reachable issued st →
  (∀ x, x ∈ preferredIDs (ts st)
        ↔ on_pref (blocks (ts st)) (lastAcceptedID (ts st)) x ∧ x ≠ lastAcceptedID (ts st))
  ∧ on_pref (blocks (ts st)) (lastAcceptedID (ts st)) (preference (ts st))
  ∧ (∃ n, blocks (ts st) !! preference (ts st) = Some n ∧ sb n = None)
  ∧ ∀ h x, PreferenceAtHeight (ts st) h = Some x ↔
      on_pref (blocks (ts st)) (lastAcceptedID (ts st)) x
      ∧ ∃ n, blocks (ts st) !! x = Some n ∧ hgt (lastAcceptedHeight (ts st)) n = h.
Proof.
  intros Hr. destruct (reachable_inv issued st Hr) as [HE [P1 [P2 P2'] P3]]. pose proof (e_tree _ _ _ _ HE) as HT.
  destruct (t_root _ _ _ _ _ HT) as (r & Hroot & Hb).
  assert (hgt (lastAcceptedHeight (ts st)) r = lastAcceptedHeight (ts st)) as Hh.
  { unfold hgt. destruct (blk r); [|done]. by destruct Hb as (_ & ? & _). }
  split_and!; try done. intros h x. unfold PreferenceAtHeight. destruct (Z.eqb_spec h (lastAcceptedHeight (ts st))) as [->|Hne].
  - split; [intros [= <-]; split; [constructor|eauto]|]. intros (Hon & n & Hn & Hhn). f_equal.
    eapply (on_pref_unique _ _ _ _ HT); [constructor|exact Hon|exact Hroot|exact Hn|congruence].
  - rewrite P3. split; [intros (? & _ & ?); done|]. intros (Hon & n & Hn & Hhn). split_and!; [done| |eauto].
    intros ->. congruence.
Qed.

(** C3. A call never panics and never runs out of fuel: it returns, or reports a duplicate
    block without changing the state, or reports that a call to the VM or to the block
    acceptor failed. *)
Theorem engine_calls_return issued st o :
  reachable issued st → valid_call st o →
  match engine_step o st with
  | (Ok _, _) => True
  | (Err ErrDuplicateAdd, st') => (∃ b, o = CallAdd b ∧ duplicate st b = true) ∧ st' = st
  | (Err ErrBlockAcceptor, _) => ∃ x, acceptor_fails x = true
  | (Err ErrAccept, _) => ∃ x, accept_fails x = true
  | (Err ErrReject, _) => ∃ x, reject_fails x = true
  | (Err _, _) => False
  end.
Proof.
  intros Hr Hv. pose proof (reachable_inv issued st Hr) as HF.
  assert (∀ e st', failed acceptor_fails accept_fails reject_fails g gh e st' →
    match e with
    | ErrBlockAcceptor => ∃ x, acceptor_fails x = true
    | ErrAccept => ∃ x, accept_fails x = true
    | ErrReject => ∃ x, reject_fails x = true
    | _ => False
    end) as Hfail by (intros e st' [[[-> ?]|[[-> ?]|[-> ?]]] _]; done).
  destruct o as [b|votes]; simpl in Hv |- *.
  - pose proof (Add_spec g gh _ acceptor_fails accept_fails reject_fails b st HF Hv) as H. unfold wp in H.
    destruct (Topological.Add reject_fails b st) as [[[]|e] st']; [done|].
    destruct (duplicate st b) eqn:Hd; [destruct H as [-> ->]; eauto|]. destruct H as [H _]. apply Hfail in H. by destruct e.
  - pose proof (RecordPoll_spec iter_map iter_map_perm acceptor_fails accept_fails reject_fails g gh _
                  iter_set iter_set_perm votes st HF Hv) as H. unfold wp in H.
    destruct (RecordPoll _ _ _ _ _ votes st) as [[[]|e] st']; [done|]. apply Hfail in H. by destruct e.
Qed.

(** A block that [Add] must refuse: the first accepted block, an issued block, and one that
    is not above the last accepted block. *)
Definition known (issued : list Block) (st : State) (b : Block) : Prop :=
  blk_ID b = g ∨ blk_ID b ∈ blk_ID <$> issued ∨ blk_Height b ≤ lastAcceptedHeight (ts st).

Lemma duplicate_known issued st b : reachable issued st → duplicate st b = true ↔ known issued st b.
Proof.
  intros Hr. destruct (reachable_inv issued st Hr) as [[HT HM HL _ _ HI _] _]. unfold known, duplicate.
  rewrite !orb_true_iff, andb_true_iff, Z.leb_le, bool_decide_eq_true, (log_decided g gh _ _ _ HL).
  change (blk_ID b ∈ blk_ID <$> issued) with (issued_ids issued (blk_ID b)). rewrite HI. unfold acct.
  rewrite (m_keys _ _ _ _ HM). unfold is_Processing. pose proof (not_elem_of_nil (A := ID) (blk_ID b)) as Hnil.
  destruct (decided (statuses st) (blk_ID b)) eqn:Hd.
  - apply (log_decided g gh _ _ _ HL) in Hd. case_bool_decide; rewrite ?bool_decide_eq_true; tauto.
  - assert (status_of st (blk_ID b) = Processing) as Hs.
    { unfold status_of. by rewrite (log_undecided_status g gh _ _ _ HL Hd). }
    assert (blk_ID b ≠ lastAcceptedID (ts st)) as Hne.
    { intros E. rewrite E, (t_root_decided _ _ _ _ _ HT) in Hd. done. }
    rewrite bool_decide_eq_false_2 by done. rewrite bool_decide_eq_true. tauto.
Qed.
End run.

(** ** What [Add] does to the tree of blocks *)

Section add_correct.
Context (iter_map : ∀ A, nat → gmap ID A → list (ID * A)) (iter_set : nat → gset ID → list ID).
Context (acceptor_fails accept_fails reject_fails : ID → bool).
Context (prm : Parameters) (g : ID) (gh : Z).
Context (iter_map_perm : ∀ A seed (m : gmap ID A), iter_map A seed m ≡ₚ map_to_list m).
Context (iter_set_perm : ∀ seed X, iter_set seed X ≡ₚ elements X).

(** The snowball instance of a node after the choice [x] was added: a new instance has this
    choice alone and prefers it; an instance that is still open for [x] has it besides the
    choices that it had, and one that is finalized, or decided on other bits than those of
    [x], stays as it is.  The preference of an instance does not change. *)
Definition choice_added (old : option (Tree (F := snowballFactory))) (x : ID) (new : option (Tree (F := snowballFactory))) : Prop :=
  match old, new with
  | None, Some t' =>
      SnowTree.leaves (SnowTree.t_node t') = [x] ∧ Tree_Preference t' = x ∧ Tree_Finalized t' = false
  | Some t, Some t' =>
      Tree_Preference t' = Tree_Preference t
      ∧ if Tree_Finalized t
           || negb (EqualSubset 0 (node_DecidedPrefix (SnowTree.t_node t)) (Tree_Preference t) x)
        then t' = t
        else ∀ y, y ∈ SnowTree.leaves (SnowTree.t_node t') ↔ y = x ∨ y ∈ SnowTree.leaves (SnowTree.t_node t)
  | _, None => False
  end.

Lemma AddChild_choice p pn b :
  1 ≤ Beta p → valid_ID (blk_ID b) → match sb pn with Some t => wf_tree (F := snowballFactory) t | None => True end →
  choice_added (sb pn) (blk_ID b) (sb (AddChild p pn b)).
Proof using.
  intros Hb Hv Hwf. unfold AddChild. destruct (sb pn) as [t|]; simpl.
  - destruct (Tree_Add_spec t (blk_ID b) Hwf Hv) as (_ & _ & H). split; [by apply Tree_Add_preference|].
    unfold choices_after in H. destruct (Tree_Finalized t); [done|]. by destruct (EqualSubset _ _ _ _).
  - done.
Qed.

(** C7. What [Add] does to a reachable engine.  It refuses, without any change, exactly the
    blocks that were issued before, the first accepted block and blocks that are not above
    the last accepted one.  Any other block whose parent is in the tree becomes a new node
    without children and without a snowball instance; its parent gets it as a child, keeps
    its other children, and has the block among the choices of its snowball instance; no
    other node changes, nothing is decided, and the block becomes the preference exactly if
    its parent was.  A block whose parent is not in the tree is rejected, with no change of
    the tree; the call fails only if the VM fails to reject it. *)
Theorem add_correct issued st b :
  reachable iter_map iter_set acceptor_fails accept_fails reject_fails prm g gh issued st → valid_block st b →
  match engine_step iter_map iter_set acceptor_fails accept_fails reject_fails (CallAdd b) st with
  | (Err ErrDuplicateAdd, st') => known g issued st b ∧ st' = st
  | (Err e, st') =>
      ¬ known g issued st b ∧ e = ErrReject ∧ reject_fails (blk_ID b) = true
      ∧ blocks (ts st) !! blk_Parent b = None
      ∧ blocks (ts st') = blocks (ts st) ∧ events st' = events st ∧ preference (ts st') = preference (ts st)
  | (Ok _, st') =>
      ¬ known g issued st b
      ∧ match blocks (ts st) !! blk_Parent b with
        | Some pn =>
            events st' = events st
            ∧ blocks (ts st') !! blk_ID b = Some (mkNode (Some b) false None ∅)
            ∧ (∃ pn', blocks (ts st') !! blk_Parent b = Some pn'
                 ∧ blk pn' = blk pn ∧ shouldFalter pn' = shouldFalter pn
                 ∧ children pn' = <[blk_ID b := b]> (children pn)
                 ∧ choice_added (sb pn) (blk_ID b) (sb pn'))
            ∧ (∀ x, x ≠ blk_ID b → x ≠ blk_Parent b → blocks (ts st') !! x = blocks (ts st) !! x)
            ∧ preference (ts st')
              = if bool_decide (preference (ts st) = blk_Parent b) then blk_ID b else preference (ts st)
        | None =>
            reject_fails (blk_ID b) = false ∧ events st' = events st ++ [EvReject b]
            ∧ blocks (ts st') = blocks (ts st) ∧ preference (ts st') = preference (ts st)
        end
  end.
Proof using iter_map_perm iter_set_perm.
  intros Hr Hv. pose proof (reachable_inv _ _ _ _ _ _ _ _ iter_map_perm iter_set_perm issued st Hr) as HF.
  pose proof (duplicate_known _ _ _ _ _ _ _ _ iter_map_perm iter_set_perm issued st b Hr) as Hk.
  pose proof (Add_spec g gh _ acceptor_fails accept_fails reject_fails b st HF Hv) as H. unfold wp in H. simpl.
  destruct (Topological.Add reject_fails b st) as [[[]|e] st'].
  - destruct H as (Hd & Ha & _). rewrite <- Hk, Hd. split; [done|]. unfold added_block in Ha.
    destruct (blocks (ts st) !! blk_Parent b) as [pn|] eqn:Hpn; [|tauto].
    destruct Ha as (Hb & He & Hp). destruct (duplicate_new g gh _ b st HF Hd) as [_ Hnew].
    pose proof (e_tree _ _ _ _ (proj1 HF)) as HT. rewrite Hb, !new_lookup.
    split_and!; [done|by rewrite decide_True| | |done].
    + exists (AddChild (params (ts st)) pn b). rewrite decide_False, decide_True by congruence.
      split_and!; [done|apply AddChild_blk| |by eapply AddChild_children|].
      * unfold AddChild. by destruct (sb pn).
      * apply AddChild_choice; [by eapply known_beta|apply Hv|]. pose proof (t_sb _ _ _ _ _ HT _ pn Hpn) as Hsb.
        destruct (sb pn); [apply Hsb|done].
    + intros x H1 H2. by rewrite new_lookup, !decide_False by done.
  - destruct (duplicate st b) eqn:Hd; [destruct H as [-> ->]; split; [by apply Hk|done]|].
    destruct H as [_ (-> & H)]. rewrite <- Hk. split; [done|]. tauto.
Qed.
End add_correct.

(** ** An example run *)

(** Two conflicting children of the initial block, a grandchild, and two polls for it. *)
Definition sample_id (n : Z) : ID := n :: replicate 31 0.
Definition sample_block (n parent height : Z) : Block := mkBlock (sample_id n) (sample_id parent) height.
Definition sample_order (A : Type) (_ : nat) (m : gmap ID A) : list (ID * A) := map_to_list m.
Definition sample_set_order (_ : nat) (X : gset ID) : list ID := elements X.
Definition never (_ : ID) : bool := false.
Definition sample_votes (n : Z) : Bag ID := AddCount empty_bag (sample_id n) 3.

Notation sample_step := (engine_step sample_order sample_set_order never never never).

Definition sample_init : State :=
  mkState (mkTopological (mkMetrics 0 [] 0 0 0) 0 small_params (sample_id 0) 0
             {[sample_id 0 := mkNode None false None ∅]} ∅ ∅ (sample_id 0) ∅ ∅)
    {[sample_id 0 := Accepted]} [] 0.
Definition sample_st1 : State := (sample_step (CallAdd (sample_block 1 0 1)) sample_init).2.
Definition sample_st2 : State := (sample_step (CallAdd (sample_block 2 0 1)) sample_st1).2.
Definition sample_st3 : State := (sample_step (CallAdd (sample_block 3 1 2)) sample_st2).2.
Definition sample_st4 : State := (sample_step (CallRecordPoll (sample_votes 3)) sample_st3).2.
Definition sample_st5 : State := (sample_step (CallRecordPoll (sample_votes 3)) sample_st4).2.
Definition sample_issued : list Block := [sample_block 1 0 1; sample_block 2 0 1; sample_block 3 1 2].

Lemma sample_ok o st : (sample_step o st).1 = Ok tt → sample_step o st = (Ok tt, (sample_step o st).2).
Proof. intros H. rewrite (surjective_pairing (sample_step o st)) at 1. by rewrite H. Qed.

Lemma sample_valid b st :
  bool_decide (valid_ID (blk_ID b)) = true →
  match blocks (ts st) !! blk_Parent b with
  | Some n => blk_Height b =? hgt (lastAcceptedHeight (ts st)) n + 1
  | None => true
  end = true → valid_block st b.
Proof.
  intros Hid Hh. split; [by apply bool_decide_eq_true in Hid|]. intros n Hn. rewrite Hn in Hh. by apply Z.eqb_eq.
Qed.

Lemma sample_poll n st : K (params (ts st)) = 3 → valid_poll st (sample_votes n).
Proof. intros HK. split; [apply wf_AddCount, wf_empty_bag|]. rewrite HK. done. Qed.

Lemma sample_initialize : Initialize small_params (sample_id 0) 0 = Ok (ts sample_init).
Proof.
  unfold Initialize. assert (Verify small_params = Ok tt) as -> by (vm_compute; reflexivity). reflexivity.
Qed.

Lemma sample_reachable :
  reachable sample_order sample_set_order never never never small_params (sample_id 0) 0 sample_issued sample_st5.
Proof.
  assert (reachable sample_order sample_set_order never never never small_params (sample_id 0) 0 [] sample_init) as H0
    by (exact (reach_init _ _ _ _ _ _ _ _ _ 0 sample_initialize)).
  assert (valid_block sample_init (sample_block 1 0 1)) as V1 by (apply sample_valid; vm_compute; reflexivity).
  assert (valid_block sample_st1 (sample_block 2 0 1)) as V2 by (apply sample_valid; vm_compute; reflexivity).
  assert (valid_block sample_st2 (sample_block 3 1 2)) as V3 by (apply sample_valid; vm_compute; reflexivity).
  pose proof (reach_add _ _ _ _ _ _ _ _ [] _ _ sample_st1 H0 V1 ltac:(apply sample_ok; vm_compute; reflexivity)) as H1.
  pose proof (reach_add _ _ _ _ _ _ _ _ _ _ _ sample_st2 H1 V2 ltac:(apply sample_ok; vm_compute; reflexivity)) as H2.
  pose proof (reach_add _ _ _ _ _ _ _ _ _ _ _ sample_st3 H2 V3 ltac:(apply sample_ok; vm_compute; reflexivity)) as H3.
  assert (valid_poll sample_st3 (sample_votes 3)) as V4 by (apply sample_poll; vm_compute; reflexivity).
  assert (valid_poll sample_st4 (sample_votes 3)) as V5 by (apply sample_poll; vm_compute; reflexivity).
  pose proof (reach_poll _ _ _ _ _ _ _ _ _ _ _ sample_st4 H3 V4 ltac:(apply sample_ok; vm_compute; reflexivity)) as H4.
  exact (reach_poll _ _ _ _ _ _ _ _ _ _ _ sample_st5 H4 V5 ltac:(apply sample_ok; vm_compute; reflexivity)).
Qed.

(** The first child is accepted, its sibling is rejected, and the grandchild, which also
    got enough votes, is accepted in the same poll. *)
Lemma engine_safety_witness :
  blk_ID <$> accepted_blocks (events sample_st5) = [sample_id 1; sample_id 3]
  ∧ blk_ID ∘ ev_block <$> events sample_st5 = [sample_id 1; sample_id 2; sample_id 3]
  ∧ accepted_chain (sample_id 0) 0 (accepted_blocks (events sample_st5)).
Proof.
  split; [vm_compute; reflexivity|]. split; [vm_compute; reflexivity|].
  destruct (engine_safety sample_order sample_set_order never never never small_params (sample_id 0) 0
              (λ _ _ _, reflexivity _) (λ _ _, reflexivity _) sample_issued sample_st5 sample_reachable) as [H _].
  exact H.
Defined.

Lemma preference_follows_snowball_witness :
  preference (ts sample_st3) = sample_id 3 ∧ PreferenceAtHeight (ts sample_st3) 1 = Some (sample_id 1)
  ∧ on_pref (blocks (ts sample_st5)) (lastAcceptedID (ts sample_st5)) (preference (ts sample_st5)).
Proof.
  split; [vm_compute; reflexivity|]. split; [vm_compute; reflexivity|].
  destruct (preference_follows_snowball sample_order sample_set_order never never never small_params (sample_id 0) 0
              (λ _ _ _, reflexivity _) (λ _ _, reflexivity _) sample_issued sample_st5 sample_reachable) as (_ & H & _).
  exact H.
Defined.

Lemma engine_calls_return_witness :
  (sample_step (CallAdd (sample_block 2 0 1)) sample_st5).1 = Err ErrDuplicateAdd
  ∧ match sample_step (CallAdd (sample_block 2 0 1)) sample_st5 with
    | (Err ErrDuplicateAdd, st') => st' = sample_st5
    | _ => True
    end.
Proof.
  split; [vm_compute; reflexivity|].
  assert (valid_call sample_st5 (CallAdd (sample_block 2 0 1))) as V by (apply sample_valid; vm_compute; reflexivity).
  pose proof (engine_calls_return sample_order sample_set_order never never never small_params (sample_id 0) 0
              (λ _ _ _, reflexivity _) (λ _ _, reflexivity _) sample_issued sample_st5 _ sample_reachable V) as H.
  destruct (sample_step (CallAdd (sample_block 2 0 1)) sample_st5) as [[[]|[]] st']; try done. apply H.
Defined.

(** Block 5 becomes the only child of the last accepted block 3 and the preference; block 7,
    of an unknown parent, is rejected; block 2, already rejected, is refused. *)
Lemma add_correct_witness :
  let add := λ b, sample_step (CallAdd b) sample_st5 in
  let st' := (add (sample_block 5 3 3)).2 in
  (add (sample_block 5 3 3)).1 = Ok tt
  ∧ blocks (ts st') !! sample_id 5 = Some (mkNode (Some (sample_block 5 3 3)) false None ∅)
  ∧ (∃ pn', blocks (ts st') !! sample_id 3 = Some pn' ∧ is_Some (children pn' !! sample_id 5)
       ∧ choice_added None (sample_id 5) (sb pn'))
  ∧ preference (ts st') = sample_id 5
  ∧ events (add (sample_block 7 4 3)).2 = events sample_st5 ++ [EvReject (sample_block 7 4 3)]
  ∧ add (sample_block 2 0 1) = (Err ErrDuplicateAdd, sample_st5).
Proof.
  pose proof (λ b, add_correct sample_order sample_set_order never never never small_params (sample_id 0) 0
                (λ _ _ _, reflexivity _) (λ _ _, reflexivity _) sample_issued sample_st5 b sample_reachable) as Hadd.
  assert (valid_block sample_st5 (sample_block 5 3 3)) as V1 by (apply sample_valid; vm_compute; reflexivity).
  assert (valid_block sample_st5 (sample_block 7 4 3)) as V2 by (apply sample_valid; vm_compute; reflexivity).
  assert (valid_block sample_st5 (sample_block 2 0 1)) as V3 by (apply sample_valid; vm_compute; reflexivity).
  intros add st'.
  assert ((add (sample_block 5 3 3)).1 = Ok tt) as R1 by (vm_compute; reflexivity).
  assert ((add (sample_block 7 4 3)).1 = Ok tt) as R2 by (vm_compute; reflexivity).
  assert ((add (sample_block 2 0 1)).1 = Err ErrDuplicateAdd) as R3 by (vm_compute; reflexivity).
  assert (match blocks (ts sample_st5) !! sample_id 3 with
          | Some pn => match sb pn with None => true | Some _ => false end
          | None => false
          end = true) as Hp by (vm_compute; reflexivity).
  assert (match blocks (ts sample_st5) !! sample_id 4 with None => true | Some _ => false end = true) as Hq
    by (vm_compute; reflexivity).
  assert (bool_decide (preference (ts sample_st5) = sample_id 3) = true) as Hr by (vm_compute; reflexivity).
  specialize (Hadd (sample_block 5 3 3) V1) as H1. specialize (Hadd (sample_block 7 4 3) V2) as H2.
  specialize (Hadd (sample_block 2 0 1) V3) as H3. unfold st'. fold (add (sample_block 5 3 3)) in H1.
  fold (add (sample_block 7 4 3)) in H2. fold (add (sample_block 2 0 1)) in H3.
  destruct (add (sample_block 5 3 3)) as [r1 s1]. destruct (add (sample_block 7 4 3)) as [r2 s2].
  destruct (add (sample_block 2 0 1)) as [r3 s3]. cbn [fst snd] in *. subst r1 r2 r3.
  cbn [sample_block blk_Parent blk_ID] in H1, H2. rewrite Hr in H1. destruct H1 as [_ H1], H2 as [_ H2], H3 as [_ ->].
  clear Hadd V1 V2 V3 Hr add st'. revert Hp Hq H1 H2. generalize sample_st5 as st. intros st Hp Hq H1 H2.
  destruct (blocks (ts st) !! sample_id 4); [discriminate Hq|].
  destruct (blocks (ts st) !! sample_id 3) as [pn|]; [|discriminate Hp]. destruct (sb pn); [discriminate Hp|].
  destruct H1 as (_ & H1 & (pn' & P1 & _ & _ & P2 & P3) & _ & H1'), H2 as (_ & H2 & _).
  split_and!; [reflexivity|exact H1| |exact H1'|exact H2|reflexivity].
  exists pn'. split_and!; [exact P1| |exact P3]. rewrite P2, lookup_insert_eq. by eexists.
Defined.
