(* ===== verification/Database.v ===== *)
(** * Key-value databases

    The interfaces of [database/database.go], [batch.go] and [iterator.go], the queued
    operations of a batch, and the order of keys.  A database is a state with operations
    ([Database]); its contract ([DatabaseLaws]) says that it behaves like a finite map with
    a closed state, that a batch is applied in order, and that an iterator returns the
    entries of the map it was created on in increasing key order.  The implementations and
    the databases that wrap other databases are proved against this contract. *)

From stdpp Require Export sorting.
From S2P Require Import Prelude.

Open Scope Z_scope.

Notation bytes := (list Z).

Inductive db_error := ErrClosed | ErrNotFound.

#[export] Instance db_error_eq_dec : EqDecision db_error.
Proof. solve_decision. Defined.

(** ** The order of Go strings *)

Fixpoint bytes_lt (a b : bytes) : bool :=
  match a, b with
  | _, [] => false
  | [], _ :: _ => true
  | x :: a, y :: b => (x <? y) || ((x =? y) && bytes_lt a b)
  end.

(** [strings.HasPrefix(key, prefix)] *)
Fixpoint HasPrefix (key prefix : bytes) : bool :=
  match prefix, key with
  | [], _ => true
  | x :: prefix, y :: key => (x =? y) && HasPrefix key prefix
  | _ :: _, [] => false
  end.

Lemma bytes_lt_irrefl a : bytes_lt a a = false.
Proof. induction a as [|x a IH]; [done|]. simpl. rewrite Z.ltb_irrefl, Z.eqb_refl. done. Qed.

Lemma bytes_lt_trans a b c : bytes_lt a b = true → bytes_lt b c = true → bytes_lt a c = true.
Proof.
  revert b c. induction a as [|x a IH]; intros [|y b] [|z c]; simpl; try done.
  rewrite !orb_true_iff, !andb_true_iff, !Z.ltb_lt, !Z.eqb_eq. intros [?|[-> ?]] [?|[-> ?]]; eauto with lia.
Qed.

Lemma bytes_lt_total a b : bytes_lt a b = true ∨ a = b ∨ bytes_lt b a = true.
Proof.
  revert b. induction a as [|x a IH]; intros [|y b]; simpl; auto.
  rewrite !orb_true_iff, !andb_true_iff, !Z.ltb_lt, !Z.eqb_eq.
  destruct (Z.lt_trichotomy x y) as [?|[->|?]]; [by auto|..|by auto]. destruct (IH b) as [?|[->|?]]; auto.
Qed.

Lemma bytes_lt_asym a b : bytes_lt a b = true → bytes_lt b a = false.
Proof.
  intros H. destruct (bytes_lt b a) eqn:E; [|done].
  pose proof (bytes_lt_trans _ _ _ H E) as Hc. by rewrite bytes_lt_irrefl in Hc.
Qed.

Lemma bytes_lt_app p a b : bytes_lt (p ++ a) (p ++ b) = bytes_lt a b.
Proof. induction p as [|x p IH]; [done|]. simpl. by rewrite Z.ltb_irrefl, Z.eqb_refl. Qed.

Lemma HasPrefix_app key p : HasPrefix key p = true ↔ ∃ k, key = p ++ k.
Proof.
  revert key. induction p as [|x p IH]; intros key; simpl; [destruct key; split; eauto|].
  destruct key as [|y key]; simpl; [split; [done|by intros [? ?]]|].
  rewrite andb_true_iff, Z.eqb_eq, IH. split.
  - intros (-> & k & ->). by exists k.
  - intros (k & [= -> ->]). eauto.
Qed.

Lemma HasPrefix_app_same p key prefix : HasPrefix (p ++ key) (p ++ prefix) = HasPrefix key prefix.
Proof. induction p as [|x p IH]; [done|]. simpl. by rewrite Z.eqb_refl. Qed.

(** ** The entries of a map in key order *)

Notation entry := (bytes * bytes)%type.

Definition key_lt (a b : bytes) : Prop := bytes_lt a b = true.
Definition key_le (a b : bytes) : Prop := bytes_lt b a = false.

#[export] Instance key_le_dec a b : Decision (key_le a b).
Proof. unfold key_le. apply _. Defined.
#[export] Instance key_le_total : Total key_le.
Proof.
  intros a b. unfold key_le. destruct (bytes_lt_total a b) as [?|[->|?]];
    [left|left|right]; (apply bytes_lt_irrefl || by apply bytes_lt_asym).
Qed.
#[export] Instance key_le_trans : Transitive key_le.
Proof.
  intros a b c. unfold key_le. intros H1 H2.
  destruct (bytes_lt c a) eqn:E; [|done]. exfalso. destruct (bytes_lt_total a b) as [Hab|[<-|?]]; [|congruence..].
  pose proof (bytes_lt_trans _ _ _ E Hab). congruence.
Qed.

(** [slices.Sort] of distinct keys *)
Definition sort_keys (keys : list bytes) : list bytes := merge_sort key_le keys.

Lemma sort_keys_perm keys : sort_keys keys ≡ₚ keys.
Proof. apply merge_sort_Permutation. Qed.

Lemma sort_keys_sorted keys : NoDup keys → StronglySorted key_lt (sort_keys keys).
Proof.
  intros Hnd. pose proof (StronglySorted_merge_sort key_le keys) as Hs. fold (sort_keys keys) in Hs.
  rewrite <- (sort_keys_perm keys) in Hnd. induction Hs as [|a l Hs IH Ha]; constructor.
  - apply IH. by apply NoDup_cons in Hnd as [_ ?].
  - apply NoDup_cons in Hnd as [Hn _]. rewrite Forall_forall in Ha |- *. intros b Hb. specialize (Ha b Hb).
    unfold key_le, key_lt in *. destruct (bytes_lt_total a b) as [?|[->|?]]; [done|done|congruence].
Qed.

Definition entry_lt (a b : entry) : Prop := key_lt a.1 b.1.

(** The entries of [m] from [start] on whose keys have the prefix, in key order. *)
Record is_listing (m : gmap bytes bytes) (start prefix : bytes) (l : list entry) : Prop := {
  ls_sorted : StronglySorted entry_lt l;
  ls_elem : ∀ k v, (k, v) ∈ l ↔ m !! k = Some v ∧ HasPrefix k prefix = true ∧ bytes_lt k start = false;
}.

(** There is only one such list. *)
Lemma sorted_entries_unique l1 l2 :
  StronglySorted entry_lt l1 → StronglySorted entry_lt l2 → (∀ e, e ∈ l1 ↔ e ∈ l2) → l1 = l2.
Proof.
  intros H1. revert l2. induction H1 as [|a l1 H1 IH Ha]; intros l2 H2 He.
  - destruct l2 as [|b l2]; [done|]. exfalso. apply (not_elem_of_nil b), He. by left.
  - destruct H2 as [|b l2 H2 Hb]; [exfalso; apply (not_elem_of_nil a), He; by left|].
    rewrite Forall_forall in Ha, Hb.
    assert (a = b) as ->.
    { assert (a ∈ b :: l2) as [->|Ha2]%elem_of_cons by (apply He; by left); [done|].
      assert (b ∈ a :: l1) as [->|Hb1]%elem_of_cons by (apply He; by left); [done|].
      specialize (Ha b Hb1). specialize (Hb a Ha2). unfold entry_lt, key_lt in *.
      apply bytes_lt_asym in Ha. congruence. }
    f_equal. apply IH; [done|]. intros e. split; intros Hin.
    + assert (e ∈ b :: l2) as [->|?]%elem_of_cons by (apply He; by right); [|done].
      specialize (Ha b Hin). unfold entry_lt, key_lt in Ha. by rewrite bytes_lt_irrefl in Ha.
    + assert (e ∈ b :: l1) as [->|?]%elem_of_cons by (apply He; by right); [|done].
      specialize (Hb b Hin). unfold entry_lt, key_lt in Hb. by rewrite bytes_lt_irrefl in Hb.
Qed.

Lemma is_listing_unique m start prefix l1 l2 :
  is_listing m start prefix l1 → is_listing m start prefix l2 → l1 = l2.
Proof. intros [S1 E1] [S2 E2]. apply sorted_entries_unique; [done..|]. intros [k v]. by rewrite E1, E2. Qed.

(** ** [batch.go] *)

Record BatchOp := mkOp { op_Key : bytes; op_Value : bytes; op_Delete : bool }.
Record BatchOps := mkOps { Ops : list BatchOp; ops_size : Z }.

Definition BatchOps_Put (b : BatchOps) (key value : bytes) : BatchOps :=
  mkOps (Ops b ++ [mkOp key value false]) (ops_size b + (Z.of_nat (length key) + Z.of_nat (length value))).

Definition BatchOps_Delete (b : BatchOps) (key : bytes) : BatchOps :=
  mkOps (Ops b ++ [mkOp key [] true]) (ops_size b + Z.of_nat (length key)).

Definition BatchOps_Size (b : BatchOps) : Z := ops_size b.

Definition BatchOps_Reset (b : BatchOps) : BatchOps := mkOps [] 0.

(** Replay against a writer with the operations [put] and [del]. *)
Fixpoint replay_ops {W} (put : W → bytes → bytes → result db_error W) (del : W → bytes → result db_error W)
    (w : W) (ops : list BatchOp) : result db_error W :=
  match ops with
  | [] => Ok w
  | op :: ops =>
      let? w := (if op_Delete op then del w (op_Key op) else put w (op_Key op) (op_Value op)) in
      replay_ops put del w ops
  end.

Definition BatchOps_Replay {W} (put : W → bytes → bytes → result db_error W) (del : W → bytes → result db_error W)
    (b : BatchOps) (w : W) : result db_error W := replay_ops put del w (Ops b).

(** The effect of queued operations on a map. *)
Definition apply_op (m : gmap bytes bytes) (o : BatchOp) : gmap bytes bytes :=
  if op_Delete o then delete (op_Key o) m else <[op_Key o := op_Value o]> m.
Definition apply_ops (m : gmap bytes bytes) (ops : list BatchOp) : gmap bytes bytes := foldl apply_op m ops.

(** ** The interface *)

(** [Database], [Batch] and [Iterator] of one implementation.  An operation that fails
    leaves the database as it is. *)
Class Database := {
  db_t : Type;
  db_Has : db_t → bytes → result db_error bool;
  db_Get : db_t → bytes → result db_error bytes;
  db_Put : db_t → bytes → bytes → result db_error db_t;
  db_Delete : db_t → bytes → result db_error db_t;
  db_Close : db_t → result db_error db_t;
  batch_t : Type;
  db_NewBatch : db_t → batch_t;
  batch_Put : batch_t → bytes → bytes → batch_t;
  batch_Delete : batch_t → bytes → batch_t;
  batch_Size : batch_t → Z;
  batch_Reset : batch_t → batch_t;
  batch_Write : db_t → batch_t → result db_error db_t;
  iter_t : Type;
  db_NewIterator : db_t → bytes → bytes → iter_t;
  iter_Next : db_t → iter_t → bool * iter_t;
  iter_Key : iter_t → bytes;
  iter_Value : iter_t → bytes;
  iter_Error : iter_t → option db_error;
}.

(** The states in which the contract holds, the contents of an open database, the queue of
    a batch, the entries that an iterator still has to return, and what ties a batch to
    its database. *)
Class DatabaseLaws (D : Database) := {
  db_ok : db_t → Prop;
  contents : db_t → option (gmap bytes bytes);
  ident : Type;
  db_ident : db_t → ident;
  batch_ident : batch_t → ident;
  batch_ok : batch_t → Prop;
  batch_ops : batch_t → list BatchOp;
  iter_ok : iter_t → Prop;
  iter_pending : iter_t → list entry;
  law_Has d k : db_ok d → db_Has d k = match contents d with
    | None => Err ErrClosed
    | Some m => Ok (bool_decide (is_Some (m !! k)))
    end;
  law_Get d k : db_ok d → db_Get d k = match contents d with
    | None => Err ErrClosed
    | Some m => match m !! k with Some v => Ok v | None => Err ErrNotFound end
    end;
  law_Put d k v : db_ok d → match contents d with
    | None => db_Put d k v = Err ErrClosed
    | Some m => ∃ d', db_Put d k v = Ok d' ∧ db_ok d' ∧ db_ident d' = db_ident d ∧ contents d' = Some (<[k := v]> m)
    end;
  law_Delete d k : db_ok d → match contents d with
    | None => db_Delete d k = Err ErrClosed
    | Some m => ∃ d', db_Delete d k = Ok d' ∧ db_ok d' ∧ db_ident d' = db_ident d ∧ contents d' = Some (delete k m)
    end;
  law_Close d : db_ok d → match contents d with
    | None => db_Close d = Err ErrClosed
    | Some _ => ∃ d', db_Close d = Ok d' ∧ db_ok d' ∧ db_ident d' = db_ident d ∧ contents d' = None
    end;
  law_NewBatch d : db_ok d →
    batch_ok (db_NewBatch d) ∧ batch_ident (db_NewBatch d) = db_ident d ∧ batch_ops (db_NewBatch d) = [];
  law_batch_Put b k v : batch_ok b →
    batch_ok (batch_Put b k v) ∧ batch_ident (batch_Put b k v) = batch_ident b
    ∧ batch_ops (batch_Put b k v) = batch_ops b ++ [mkOp k v false];
  law_batch_Delete b k : batch_ok b →
    batch_ok (batch_Delete b k) ∧ batch_ident (batch_Delete b k) = batch_ident b
    ∧ batch_ops (batch_Delete b k) = batch_ops b ++ [mkOp k [] true];
  law_batch_Reset b : batch_ok b →
    batch_ok (batch_Reset b) ∧ batch_ident (batch_Reset b) = batch_ident b ∧ batch_ops (batch_Reset b) = [];
  law_Write d b : db_ok d → batch_ok b → batch_ident b = db_ident d → match contents d with
    | None => batch_Write d b = Err ErrClosed
    | Some m => ∃ d', batch_Write d b = Ok d' ∧ db_ok d' ∧ db_ident d' = db_ident d ∧ contents d' = Some (apply_ops m (batch_ops b))
    end;
  law_NewIterator d m start prefix : db_ok d → contents d = Some m →
    iter_ok (db_NewIterator d start prefix)
    ∧ is_listing m start prefix (iter_pending (db_NewIterator d start prefix))
    ∧ iter_Error (db_NewIterator d start prefix) = None;
  law_Next d m it : db_ok d → contents d = Some m → iter_ok it →
    iter_ok (iter_Next d it).2
    ∧ match iter_pending it with
    | [] => (iter_Next d it).1 = false ∧ iter_pending (iter_Next d it).2 = []
    | (k, v) :: rest =>
        (iter_Next d it).1 = true ∧ iter_Key (iter_Next d it).2 = k ∧ iter_Value (iter_Next d it).2 = v
        ∧ iter_pending (iter_Next d it).2 = rest
    end ∧ iter_Error (iter_Next d it).2 = iter_Error it;
  law_Next_closed d it : db_ok d → contents d = None → iter_ok it →
    (iter_Next d it).1 = false ∧ iter_Error (iter_Next d it).2 = Some ErrClosed;
}.

(** What a client that iterates to the end sees. *)
Fixpoint iterate_all `{D : Database} (fuel : nat) (d : db_t) (it : iter_t) : option (list entry) :=
  match fuel with
  | O => None
  | S fuel =>
      let '(ok, it) := iter_Next d it in
      if ok then (λ l, (iter_Key it, iter_Value it) :: l) <$> iterate_all fuel d it else Some []
  end.

Lemma iterate_all_spec `{D : Database, !DatabaseLaws D} d m it fuel :
  db_ok d → contents d = Some m → iter_ok it → (length (iter_pending it) < fuel)%nat →
  iterate_all fuel d it = Some (iter_pending it).
Proof.
  intros Hd Hm. revert it. induction fuel as [|fuel IH]; intros it Hok Hf; [lia|]. simpl.
  destruct (law_Next d m it Hd Hm Hok) as (Hok' & Hn & _). destruct (iter_Next d it) as [ok it'] eqn:E. simpl in Hn.
  destruct (iter_pending it) as [|[k v] rest] eqn:Ep.
  - destruct Hn as [-> _]. done.
  - destruct Hn as (-> & <- & <- & <-). rewrite IH; [done|done|]. simpl in Hf. lia.
Qed.

(** Operations on distinct keys can be applied in any order. *)
Lemma apply_ops_app m o1 o2 : apply_ops m (o1 ++ o2) = apply_ops (apply_ops m o1) o2.
Proof. apply foldl_app. Qed.

Lemma apply_ops_lookup_ne m ops k : k ∉ op_Key <$> ops → apply_ops m ops !! k = m !! k.
Proof.
  revert m. induction ops as [|o ops IH]; intros m Hk; [done|]. rewrite fmap_cons in Hk.
  apply not_elem_of_cons in Hk as [Hne Hk]. simpl. fold (apply_ops (apply_op m o) ops). rewrite IH by done.
  unfold apply_op. destruct (op_Delete o); [by rewrite lookup_delete_ne|by rewrite lookup_insert_ne].
Qed.

Lemma apply_ops_lookup m ops o :
  NoDup (op_Key <$> ops) → o ∈ ops →
  apply_ops m ops !! op_Key o = if op_Delete o then None else Some (op_Value o).
Proof.
  intros Hnd Hin. apply list_elem_of_split in Hin as (l1 & l2 & ->).
  rewrite fmap_app, fmap_cons in Hnd. apply NoDup_app in Hnd as (_ & _ & [Hn _]%NoDup_cons).
  rewrite apply_ops_app. cbn [apply_ops foldl]. fold (apply_ops (apply_op (apply_ops m l1) o) l2).
  rewrite apply_ops_lookup_ne by done. unfold apply_op.
  destruct (op_Delete o); [apply lookup_delete_eq|apply lookup_insert_eq].
Qed.
