(* ===== verification/Memdb.v ===== *)
(** * The in-memory database

    Models [database/memdb/db.go]: a Go map from keys to values that is [nil] when the
    database is closed, a batch that queues operations, and an iterator over a sorted
    snapshot of the keys.  Locks are not modelled: every operation holds the lock for its
    whole duration.  [range_keys] is the order in which Go iterates over the map. *)

From S2P Require Import Prelude Database.

Open Scope Z_scope.

Section memdb.
Context (range_keys : ∀ V : Type, gmap bytes V → list bytes).
Context (range_keys_perm : ∀ V (m : gmap bytes V), range_keys V m ≡ₚ (map_to_list m).*1).
Arguments range_keys {V}.

Record memdb := mkMemdb { mem_db : option (gmap bytes bytes) }.

Definition mem_New : memdb := mkMemdb (Some ∅).

Definition mem_Close (d : memdb) : result db_error memdb :=
  match mem_db d with
  | None => Err ErrClosed
  | Some _ => Ok (mkMemdb None)
  end.

Definition mem_isClosed (d : memdb) : bool := match mem_db d with None => true | Some _ => false end.

Definition mem_Has (d : memdb) (key : bytes) : result db_error bool :=
  match mem_db d with
  | None => Err ErrClosed
  | Some m => Ok (match m !! key with Some _ => true | None => false end)
  end.

Definition mem_Get (d : memdb) (key : bytes) : result db_error bytes :=
  match mem_db d with
  | None => Err ErrClosed
  | Some m => match m !! key with Some entry => Ok entry | None => Err ErrNotFound end
  end.

Definition mem_Put (d : memdb) (key value : bytes) : result db_error memdb :=
  match mem_db d with
  | None => Err ErrClosed
  | Some m => Ok (mkMemdb (Some (<[key := value]> m)))
  end.

Definition mem_Delete (d : memdb) (key : bytes) : result db_error memdb :=
  match mem_db d with
  | None => Err ErrClosed
  | Some m => Ok (mkMemdb (Some (delete key m)))
  end.

Definition mem_NewBatch (d : memdb) : BatchOps := mkOps [] 0.

(** The loop of [batch.Write]. *)
Fixpoint mem_write_loop (m : gmap bytes bytes) (ops : list BatchOp) : gmap bytes bytes :=
  match ops with
  | [] => m
  | op :: ops =>
      mem_write_loop (if op_Delete op then delete (op_Key op) m else <[op_Key op := op_Value op]> m) ops
  end.

Definition mem_batch_Write (d : memdb) (b : BatchOps) : result db_error memdb :=
  match mem_db d with
  | None => Err ErrClosed
  | Some m => Ok (mkMemdb (Some (mem_write_loop m (Ops b))))
  end.

(** *** Iterators *)

(** The iterator of a closed database is [IteratorError]. *)
Inductive mem_iterator :=
  | MemIterator (initialized : bool) (keys values : list bytes) (err : option db_error)
  | IteratorError (err : db_error).

(** [db.db[key]], the zero value when the key is absent *)
Definition map_index (m : gmap bytes bytes) (key : bytes) : bytes := default [] (m !! key).

Definition mem_NewIteratorWithStartAndPrefix (d : memdb) (start prefix : bytes) : mem_iterator :=
  match mem_db d with
  | None => IteratorError ErrClosed
  | Some m =>
      let keys := filter (λ key, HasPrefix key prefix && negb (bytes_lt key start)) (range_keys m) in
      let keys := sort_keys keys in
      MemIterator false keys (map_index m <$> keys) None
  end.

Definition mem_Next (d : memdb) (it : mem_iterator) : bool * mem_iterator :=
  match it with
  | IteratorError err => (false, it)
  | MemIterator initialized keys values err =>
      if mem_isClosed d then (false, MemIterator initialized [] [] (Some ErrClosed))
      else if negb initialized then
        ((0 <? length keys)%nat, MemIterator true keys values err)
      else
        let '(keys, values) :=
          if (0 <? length keys)%nat then (drop 1 keys, drop 1 values) else (keys, values) in
        ((0 <? length keys)%nat, MemIterator initialized keys values err)
  end.

Definition mem_iter_Key (it : mem_iterator) : bytes :=
  match it with MemIterator _ (key :: _) _ _ => key | _ => [] end.

Definition mem_iter_Value (it : mem_iterator) : bytes :=
  match it with MemIterator _ _ (value :: _) _ => value | _ => [] end.

Definition mem_iter_Error (it : mem_iterator) : option db_error :=
  match it with MemIterator _ _ _ err => err | IteratorError err => Some err end.

Definition mem_iter_Release (it : mem_iterator) : mem_iterator :=
  match it with
  | MemIterator initialized _ _ err => MemIterator initialized [] [] err
  | IteratorError _ => it
  end.

Definition memdb_database : Database := {|
  db_t := memdb;
  db_Has := mem_Has;
  db_Get := mem_Get;
  db_Put := mem_Put;
  db_Delete := mem_Delete;
  db_Close := mem_Close;
  batch_t := BatchOps;
  db_NewBatch := mem_NewBatch;
  batch_Put := BatchOps_Put;
  batch_Delete := BatchOps_Delete;
  batch_Size := BatchOps_Size;
  batch_Reset := BatchOps_Reset;
  batch_Write := mem_batch_Write;
  iter_t := mem_iterator;
  db_NewIterator := mem_NewIteratorWithStartAndPrefix;
  iter_Next := mem_Next;
  iter_Key := mem_iter_Key;
  iter_Value := mem_iter_Value;
  iter_Error := mem_iter_Error;
|}.

(** ** The contract *)

Lemma mem_write_loop_apply m ops : mem_write_loop m ops = apply_ops m ops.
Proof. revert m. induction ops as [|o ops IH]; intros m; [done|]. apply IH. Qed.

Definition mem_pending (it : mem_iterator) : list entry :=
  match it with
  | MemIterator initialized keys values _ => drop (if initialized then 1 else 0) (zip keys values)
  | IteratorError _ => []
  end.

Definition mem_iter_ok (it : mem_iterator) : Prop :=
  match it with
  | MemIterator _ keys values _ => length keys = length values
  | IteratorError err => err = ErrClosed
  end.

Lemma zip_map_index m keys :
  zip keys (map_index m <$> keys) = (λ k, (k, map_index m k)) <$> keys.
Proof. induction keys as [|k keys IH]; [done|]. simpl. by f_equal. Qed.

Lemma range_keys_spec V (m : gmap bytes V) : NoDup (range_keys m) ∧ ∀ k, k ∈ range_keys m ↔ is_Some (m !! k).
Proof using range_keys_perm.
  split; [rewrite range_keys_perm; apply NoDup_fst_map_to_list|]. intros k. rewrite range_keys_perm, list_elem_of_fmap.
  split; [intros ([k' v] & -> & Hin); apply elem_of_map_to_list in Hin; by eexists|].
  intros [v Hv]. exists (k, v). split; [done|]. by apply elem_of_map_to_list.
Qed.

(** The snapshot is the sorted list of the selected entries. *)
Lemma mem_snapshot m start prefix :
  let keys := sort_keys (filter (λ key, HasPrefix key prefix && negb (bytes_lt key start)) (range_keys m)) in
  is_listing m start prefix (zip keys (map_index m <$> keys)).
Proof using range_keys_perm.
  intros keys. destruct (range_keys_spec _ m) as [Hnd Hin]. rewrite zip_map_index. constructor.
  - apply (StronglySorted_fmap _ key_lt); [done|]. apply sort_keys_sorted. by apply NoDup_filter.
  - intros k v. rewrite list_elem_of_fmap. unfold keys.
    assert (∀ k, k ∈ keys ↔ is_Some (m !! k) ∧ HasPrefix k prefix = true ∧ bytes_lt k start = false) as Hkeys.
    { intros k'. unfold keys. rewrite sort_keys_perm, list_elem_of_filter, Hin, Is_true_true, andb_true_iff, negb_true_iff. tauto. }
    split.
    + intros (k' & [= <- ->] & Hk). apply Hkeys in Hk as ([w Hw] & H1 & H2). unfold map_index. by rewrite Hw.
    + intros (Hv & H1 & H2). exists k. unfold map_index. rewrite Hv. split; [done|]. apply Hkeys.
      split_and!; [by eexists|done|done].
Qed.

Definition memdb_laws : DatabaseLaws memdb_database.
Proof using range_keys_perm.
  refine {| db_ok := (λ _, True) : @db_t memdb_database → Prop;
            contents := mem_db : @db_t memdb_database → option (gmap bytes bytes);
            ident := unit; db_ident := (λ _, tt) : @db_t memdb_database → unit;
            batch_ident := (λ _, tt) : @batch_t memdb_database → unit;
            batch_ok := (λ _, True) : @batch_t memdb_database → Prop;
            batch_ops := Ops : @batch_t memdb_database → list BatchOp;
            iter_ok := mem_iter_ok : @iter_t memdb_database → Prop;
            iter_pending := mem_pending : @iter_t memdb_database → list entry |}.
  - intros [[m|]] k _; [|done]. cbn. unfold mem_Has. simpl. by destruct (m !! k).
  - by intros [[m|]] k _.
  - intros [[m|]] k v _; [|done]. by eexists.
  - intros [[m|]] k _; [|done]. by eexists.
  - intros [[m|]] _; [|done]. by eexists.
  - done.
  - done.
  - done.
  - done.
  - intros [[m|]] b _ _ _; [|done]. cbn. eexists. split_and!; [done..|]. simpl. by rewrite mem_write_loop_apply.
  - intros [[m|]] m' start prefix _; [|done]. intros [= <-]. split_and!; [|apply mem_snapshot|done].
    simpl. by rewrite length_fmap.
  - intros [[m|]] m' it _; [|done]. intros [= <-] Hok. destruct it as [initialized keys values err|err]; [|done].
    simpl in Hok. destruct initialized, keys as [|k keys], values as [|v values]; try done; cbn.
    all: repeat rewrite drop_0; injection Hok as Hok; try done.
    destruct keys as [|k' keys], values as [|v' values]; try done; cbn; repeat rewrite drop_0; split_and!; by auto.
  - intros [[m|]] it _; [done|]. intros _ Hok. destruct it as [initialized keys values err|err]; [done|].
    simpl in Hok. by subst.
Defined.
End memdb.
