(* ===== verification/Versiondb.v ===== *)
(** * The versioned database

    Models [database/versiondb/db.go]: changes are kept in memory, on top of another
    database, until [Commit] writes them as one batch or [Abort] drops them.  The
    underlying database is any implementation of the interface, and the versioned database
    is one itself.  [Close] sets the three fields to [nil] at once: a closed database is
    [VClosed].  An iterator walks over the sorted pending changes and over an iterator of
    the underlying database at the same time. *)

From S2P Require Import Prelude Database Memdb.

Open Scope Z_scope.

Record valueDelete := mkVD { vd_value : bytes; vd_delete : bool }.

Section versiondb.
Context {D : Database}.
Context (range_keys : ∀ V : Type, gmap bytes V → list bytes).
Arguments range_keys {V}.

Inductive versiondb :=
  | VClosed
  | VOpen (mem : gmap bytes valueDelete) (db : db_t) (batch : batch_t).

Definition v_New (db : db_t) : versiondb := VOpen ∅ db (db_NewBatch db).

Definition v_Has (d : versiondb) (key : bytes) : result db_error bool :=
  match d with
  | VClosed => Err ErrClosed
  | VOpen mem db _ =>
      match mem !! key with
      | Some val => Ok (negb (vd_delete val))
      | None => db_Has db key
      end
  end.

Definition v_Get (d : versiondb) (key : bytes) : result db_error bytes :=
  match d with
  | VClosed => Err ErrClosed
  | VOpen mem db _ =>
      match mem !! key with
      | Some val => if vd_delete val then Err ErrNotFound else Ok (vd_value val)
      | None => db_Get db key
      end
  end.

Definition v_Put (d : versiondb) (key value : bytes) : result db_error versiondb :=
  match d with
  | VClosed => Err ErrClosed
  | VOpen mem db batch => Ok (VOpen (<[key := mkVD value false]> mem) db batch)
  end.

Definition v_Delete (d : versiondb) (key : bytes) : result db_error versiondb :=
  match d with
  | VClosed => Err ErrClosed
  | VOpen mem db batch => Ok (VOpen (<[key := mkVD [] true]> mem) db batch)
  end.

Definition v_NewBatch (d : versiondb) : BatchOps := mkOps [] 0.

(** [SetDatabase], [GetDatabase] *)
Definition v_SetDatabase (d : versiondb) (newDB : db_t) : result db_error versiondb :=
  match d with
  | VClosed => Err ErrClosed
  | VOpen mem _ _ => Ok (VOpen mem newDB (db_NewBatch newDB))
  end.

Definition v_GetDatabase (d : versiondb) : option db_t :=
  match d with VClosed => None | VOpen _ db _ => Some db end.

(** [abort] *)
Definition v_Abort (d : versiondb) : versiondb :=
  match d with VClosed => VClosed | VOpen _ db batch => VOpen ∅ db batch end.

(** The loop of [commitBatch]. *)
Fixpoint commit_loop (mem : gmap bytes valueDelete) (keys : list bytes) (batch : batch_t) : batch_t :=
  match keys with
  | [] => batch
  | key :: keys =>
      match mem !! key with
      | None => commit_loop mem keys batch
      | Some value =>
          commit_loop mem keys
            (if vd_delete value then batch_Delete batch key else batch_Put batch key (vd_value value))
      end
  end.

Definition commitBatch (d : versiondb) : result db_error batch_t * versiondb :=
  match d with
  | VClosed => (Err ErrClosed, VClosed)
  | VOpen mem db batch =>
      let batch := commit_loop mem (range_keys mem) (batch_Reset batch) in
      (Ok batch, VOpen mem db batch)
  end.

(** Only the error is returned, with the database it leaves. *)
Definition v_Commit (d : versiondb) : option db_error * versiondb :=
  let '(r, d) := commitBatch d in
  match r, d with
  | Ok batch, VOpen mem db _ =>
      match batch_Write db batch with
      | Err e => (Some e, d)
      | Ok db => (None, v_Abort (VOpen mem db (batch_Reset batch)))
      end
  | Ok _, VClosed => (None, d)
  | Err e, _ => (Some e, d)
  end.

Definition v_Close (d : versiondb) : result db_error versiondb :=
  match d with
  | VClosed => Err ErrClosed
  | VOpen _ _ _ => Ok VClosed
  end.

Definition v_isClosed (d : versiondb) : bool := match d with VClosed => true | VOpen _ _ _ => false end.

(** The loop of [batch.Write]. *)
Fixpoint v_write_loop (mem : gmap bytes valueDelete) (ops : list BatchOp) : gmap bytes valueDelete :=
  match ops with
  | [] => mem
  | op :: ops => v_write_loop (<[op_Key op := mkVD (op_Value op) (op_Delete op)]> mem) ops
  end.

Definition v_batch_Write (d : versiondb) (b : BatchOps) : result db_error versiondb :=
  match d with
  | VClosed => Err ErrClosed
  | VOpen mem db batch => Ok (VOpen (v_write_loop mem (Ops b)) db batch)
  end.

(** ** Iterators *)

Record v_state := mkVS {
  vi_inner : iter_t;
  vi_key : bytes;
  vi_value : bytes;
  vi_err : option db_error;
  vi_keys : list bytes;
  vi_values : list valueDelete;
  vi_initialized : bool;
  vi_exhausted : bool;
}.

Inductive v_iterator :=
  | VIterator (s : v_state)
  | VIteratorError (err : db_error).

(** [db.mem[key]] *)
Definition mem_index (mem : gmap bytes valueDelete) (key : bytes) : valueDelete := default (mkVD [] false) (mem !! key).

Definition v_NewIteratorWithStartAndPrefix (d : versiondb) (start prefix : bytes) : v_iterator :=
  match d with
  | VClosed => VIteratorError ErrClosed
  | VOpen mem db _ =>
      let keys := filter (λ key, HasPrefix key prefix && negb (bytes_lt key start)) (range_keys mem) in
      let keys := sort_keys keys in
      VIterator (mkVS (db_NewIterator db start prefix) [] [] None keys (mem_index mem <$> keys) false false)
  end.

(** The loop of [Next]; every round that does not return removes a key of the changes. *)
Fixpoint v_next_loop (db : db_t) (keys : list bytes) (values : list valueDelete) (s : v_state) : bool * v_state :=
  match keys, values with
  | [], _ =>
      if vi_exhausted s then
        (false, mkVS (vi_inner s) [] [] (vi_err s) keys values (vi_initialized s) (vi_exhausted s))
      else
        let key := iter_Key (vi_inner s) in
        let value := iter_Value (vi_inner s) in
        let '(more, inner) := iter_Next db (vi_inner s) in
        (true, mkVS inner key value (vi_err s) keys values (vi_initialized s) (negb more))
  | memKey :: keys', memValue :: values' =>
      let emit inner exhausted :=
        if vd_delete memValue then
          v_next_loop db keys' values'
            (mkVS inner (vi_key s) (vi_value s) (vi_err s) keys' values' (vi_initialized s) exhausted)
        else (true, mkVS inner memKey (vd_value memValue) (vi_err s) keys' values' (vi_initialized s) exhausted) in
      if vi_exhausted s then emit (vi_inner s) true
      else
        let dbKey := iter_Key (vi_inner s) in
        if bytes_lt memKey dbKey then emit (vi_inner s) false
        else if bytes_lt dbKey memKey then
          let value := iter_Value (vi_inner s) in
          let '(more, inner) := iter_Next db (vi_inner s) in
          (true, mkVS inner dbKey value (vi_err s) keys values (vi_initialized s) (negb more))
        else
          let '(more, inner) := iter_Next db (vi_inner s) in
          emit inner (negb more)
  | _ :: _, [] => (false, s)
  end.

Definition v_Next (d : versiondb) (it : v_iterator) : bool * v_iterator :=
  match it with
  | VIteratorError _ => (false, it)
  | VIterator s =>
      match d with
      | VClosed =>
          (false, VIterator (mkVS (vi_inner s) [] [] (Some ErrClosed) (vi_keys s) (vi_values s)
                               (vi_initialized s) (vi_exhausted s)))
      | VOpen _ db _ =>
          let s :=
            if vi_initialized s then s
            else
              let '(more, inner) := iter_Next db (vi_inner s) in
              mkVS inner (vi_key s) (vi_value s) (vi_err s) (vi_keys s) (vi_values s) true (negb more) in
          let '(ok, s) := v_next_loop db (vi_keys s) (vi_values s) s in
          (ok, VIterator s)
      end
  end.

Definition v_iter_Key (it : v_iterator) : bytes := match it with VIterator s => vi_key s | VIteratorError _ => [] end.
Definition v_iter_Value (it : v_iterator) : bytes := match it with VIterator s => vi_value s | VIteratorError _ => [] end.

Definition v_iter_Error (it : v_iterator) : option db_error :=
  match it with
  | VIterator s => match vi_err s with Some e => Some e | None => iter_Error (vi_inner s) end
  | VIteratorError err => Some err
  end.

Definition versiondb_database : Database := {|
  db_t := versiondb;
  db_Has := v_Has;
  db_Get := v_Get;
  db_Put := v_Put;
  db_Delete := v_Delete;
  db_Close := v_Close;
  batch_t := BatchOps;
  db_NewBatch := v_NewBatch;
  batch_Put := BatchOps_Put;
  batch_Delete := BatchOps_Delete;
  batch_Size := BatchOps_Size;
  batch_Reset := BatchOps_Reset;
  batch_Write := v_batch_Write;
  iter_t := v_iterator;
  db_NewIterator := v_NewIteratorWithStartAndPrefix;
  iter_Next := v_Next;
  iter_Key := v_iter_Key;
  iter_Value := v_iter_Value;
  iter_Error := v_iter_Error;
|}.

(** ** The contract *)

Context {L : DatabaseLaws D}.
Context (range_keys_perm : ∀ V (m : gmap bytes V), range_keys m ≡ₚ (map_to_list m).*1).

(** The changes [mem] on top of [m]. *)
Definition over (o : option valueDelete) (w : option bytes) : option bytes :=
  match o with
  | Some vd => if vd_delete vd then None else Some (vd_value vd)
  | None => w
  end.
Definition overlay (mem : gmap bytes valueDelete) (m : gmap bytes bytes) : gmap bytes bytes := merge over mem m.

Lemma overlay_lookup mem m k : overlay mem m !! k = over (mem !! k) (m !! k).
Proof. unfold overlay. rewrite lookup_merge. by destruct (mem !! k), (m !! k). Qed.

Lemma overlay_empty m : overlay ∅ m = m.
Proof. apply map_eq. intros k. by rewrite overlay_lookup, lookup_empty. Qed.

Lemma overlay_change mem m k vd :
  overlay (<[k := vd]> mem) m = apply_op (overlay mem m) (mkOp k (vd_value vd) (vd_delete vd)).
Proof.
  apply map_eq. intros k'. rewrite overlay_lookup, lookup_insert. unfold apply_op. simpl.
  destruct vd as [v [|]]; simpl; [rewrite lookup_delete|rewrite lookup_insert]; case_decide; try done;
    by rewrite overlay_lookup.
Qed.

Lemma v_write_loop_overlay mem m ops : overlay (v_write_loop mem ops) m = apply_ops (overlay mem m) ops.
Proof.
  revert mem. induction ops as [|[k v d] ops IH]; intros mem; [done|]. simpl. rewrite IH, overlay_change. done.
Qed.

(** *** The walk over two sorted lists *)

Definition emit (k : bytes) (vd : valueDelete) (rest : list entry) : list entry :=
  if vd_delete vd then rest else (k, vd_value vd) :: rest.

Fixpoint merged (ms : list (bytes * valueDelete)) : list entry → list entry :=
  fix go (l : list entry) : list entry :=
    match ms, l with
    | [], _ => l
    | (k, vd) :: ms', [] => emit k vd (merged ms' [])
    | (k, vd) :: ms', (k', v') :: l' =>
        if bytes_lt k k' then emit k vd (merged ms' l)
        else if bytes_lt k' k then (k', v') :: go l'
        else emit k vd (merged ms' l')
    end.

Lemma merged_nil l : merged [] l = l.
Proof. by destruct l. Qed.

Definition mem_lt (a b : bytes * valueDelete) : Prop := key_lt a.1 b.1.

(** What the changes [ms] contribute. *)
Definition put_in (ms : list (bytes * valueDelete)) (k v : bytes) : Prop :=
  ∃ vd, (k, vd) ∈ ms ∧ vd_delete vd = false ∧ vd_value vd = v.

Lemma emit_elem km vd ms k v (rest : list entry) (P : Prop) :
  ((k, v) ∈ rest ↔ put_in ms k v ∨ (P ∧ k ≠ km)) →
  (k, v) ∈ emit km vd rest ↔ put_in ((km, vd) :: ms) k v ∨ (P ∧ k ≠ km).
Proof.
  intros Hrest. unfold emit, put_in in *. setoid_rewrite elem_of_cons. destruct (vd_delete vd) eqn:Hd.
  - rewrite Hrest. split; [intros [(vd' & ? & ? & ?)|?]; [left; eauto|by right]|].
    intros [(vd' & [[= -> ->]|?] & H1 & H2)|?]; [congruence|left; eauto|by right].
  - rewrite elem_of_cons, Hrest. split.
    + intros [[= -> ->]|[(vd' & ? & ? & ?)|?]]; [left; eauto|left; eauto|by right].
    + intros [(vd' & [[= -> ->]|?] & H1 & H2)|?]; [left; congruence|right; left; eauto|right; by right].
Qed.

Lemma sorted_above (l : list entry) k0 v0 k v :
  StronglySorted entry_lt ((k0, v0) :: l) → (k, v) ∈ (k0, v0) :: l → (k, v) = (k0, v0) ∨ bytes_lt k0 k = true.
Proof.
  intros [_ Hall]%StronglySorted_inv [?|Hin]%elem_of_cons; [by left|right].
  rewrite Forall_forall in Hall. by apply (Hall (k, v)).
Qed.

Lemma merged_elem ms l k v :
  StronglySorted mem_lt ms → StronglySorted entry_lt l →
  (k, v) ∈ merged ms l ↔ put_in ms k v ∨ ((k, v) ∈ l ∧ k ∉ ms.*1).
Proof.
  intros Hms. revert l. induction Hms as [|[km vd] ms Hms IH Hlt]; intros l Hl.
  { rewrite merged_nil. split; [intros H; right; split; [done|apply not_elem_of_nil]|].
    intros [(? & Hin & _)|[? _]]; [by apply not_elem_of_nil in Hin|done]. }
  assert ((k, v) ∈ merged ((km, vd) :: ms) l ↔ put_in ((km, vd) :: ms) k v ∨ (((k, v) ∈ l ∧ k ∉ ms.*1) ∧ k ≠ km)) as ->.
  2: { rewrite fmap_cons, not_elem_of_cons. tauto. }
  induction Hl as [|[kl vl] l Hl IHl Hll]; simpl.
  - apply emit_elem. rewrite IH by constructor. rewrite elem_of_nil. tauto.
  - assert (StronglySorted entry_lt ((kl, vl) :: l)) as Hs by (by constructor).
    destruct (bytes_lt km kl) eqn:E1.
    + apply emit_elem. rewrite IH by done. split; [|tauto]. intros [?|[Hin Hn]]; [by left|right]. split; [done|].
      intros ->. destruct (sorted_above _ _ _ _ _ Hs Hin) as [[= -> _]|Hlt'].
      * by rewrite bytes_lt_irrefl in E1.
      * apply bytes_lt_asym in Hlt'. congruence.
    + destruct (bytes_lt kl km) eqn:E2.
      * fold merged. rewrite elem_of_cons. rewrite IHl, elem_of_cons. split; [|tauto].
        intros [[= -> ->]|?]; [|tauto]. right. split; [split; [by left|]|].
        -- intros ([k' vd'] & -> & Hin)%list_elem_of_fmap. rewrite Forall_forall in Hlt. specialize (Hlt _ Hin).
           unfold mem_lt, key_lt in Hlt. simpl in *. apply bytes_lt_asym in E2. congruence.
        -- intros ->. by rewrite bytes_lt_irrefl in E2.
      * assert (km = kl) as <- by (destruct (bytes_lt_total km kl) as [?|[?|?]]; congruence).
        apply emit_elem. rewrite IH by done. split.
        -- intros [?|[Hin Hn]]; [by left|right]. rewrite Forall_forall in Hll. specialize (Hll _ Hin).
           split; [split; [by right|done]|]. intros ->. unfold entry_lt, key_lt in Hll. simpl in Hll.
           by rewrite bytes_lt_irrefl in Hll.
        -- intros [?|[[[[= -> ->]|Hin]%elem_of_cons Hn] Hne]]; [by left|done|by right].
Qed.

Lemma merged_above ms l k0 :
  StronglySorted mem_lt ms → StronglySorted entry_lt l →
  (∀ e, e ∈ ms → key_lt k0 e.1) → (∀ e, e ∈ l → key_lt k0 e.1) →
  ∀ e, e ∈ merged ms l → key_lt k0 e.1.
Proof.
  intros Hms Hl H1 H2 [k v] Hin. rewrite merged_elem in Hin by done. destruct Hin as [(vd & Hin & _)|[Hin _]].
  - apply (H1 (k, vd) Hin).
  - apply (H2 _ Hin).
Qed.

Lemma emit_sorted km vd rest :
  StronglySorted entry_lt rest → (∀ e, e ∈ rest → key_lt km e.1) → StronglySorted entry_lt (emit km vd rest).
Proof.
  intros Hs Hr. unfold emit. destruct (vd_delete vd); [done|]. constructor; [done|]. apply Forall_forall. apply Hr.
Qed.

Lemma merged_sorted ms l :
  StronglySorted mem_lt ms → StronglySorted entry_lt l → StronglySorted entry_lt (merged ms l).
Proof.
  intros Hms. revert l. induction Hms as [|[km vd] ms Hms IH Hlt]; intros l Hl; [by rewrite merged_nil|].
  rewrite Forall_forall in Hlt. induction Hl as [|[kl vl] l Hl IHl Hll]; simpl.
  - apply emit_sorted; [apply IH; constructor|]. apply merged_above; [done|constructor|done|].
    intros e He. by apply not_elem_of_nil in He.
  - assert (StronglySorted entry_lt ((kl, vl) :: l)) as Hs by (by constructor). rewrite Forall_forall in Hll.
    destruct (bytes_lt km kl) eqn:E1.
    + apply emit_sorted; [by apply IH|]. apply merged_above; [done..|].
      intros e [->|He]%elem_of_cons; [done|]. eapply bytes_lt_trans; [exact E1|]. by apply (Hll e).
    + destruct (bytes_lt kl km) eqn:E2.
      * constructor; [exact IHl|]. apply Forall_forall. intros e He.
        apply (merged_above ((km, vd) :: ms) l kl); [constructor; [done|by apply Forall_forall]|done| |done|exact He].
        intros e' [->|He']%elem_of_cons; [done|]. eapply bytes_lt_trans; [exact E2|]. by apply (Hlt e').
      * assert (km = kl) as <- by (destruct (bytes_lt_total km kl) as [?|[?|?]]; congruence).
        apply emit_sorted; [by apply IH|]. by apply merged_above.
Qed.

(** The walk returns the entries of the changed map. *)
Lemma merged_listing mem m start prefix keys l :
  keys = sort_keys (filter (λ key, HasPrefix key prefix && negb (bytes_lt key start)) (range_keys mem)) →
  is_listing m start prefix l →
  is_listing (overlay mem m) start prefix (merged (zip keys (mem_index mem <$> keys)) l).
Proof using range_keys_perm.
  intros Ek [Hs He].
  assert (NoDup (range_keys mem)) as Hnd by (rewrite range_keys_perm; apply NoDup_fst_map_to_list).
  assert (∀ k, k ∈ keys ↔ is_Some (mem !! k) ∧ HasPrefix k prefix = true ∧ bytes_lt k start = false) as Hkeys.
  { intros k. rewrite Ek, sort_keys_perm, list_elem_of_filter, range_keys_perm, Is_true_true, andb_true_iff, negb_true_iff.
    assert (k ∈ (map_to_list mem).*1 ↔ is_Some (mem !! k)) as ->; [|tauto].
    rewrite list_elem_of_fmap. split.
    - intros ([k' v] & -> & Hin). apply elem_of_map_to_list in Hin. by eexists.
    - intros [v Hv]. exists (k, v). split; [done|]. by apply elem_of_map_to_list. }
  set (ms := zip keys (mem_index mem <$> keys)).
  assert (ms = (λ k, (k, mem_index mem k)) <$> keys) as Ems.
  { unfold ms. clear. induction keys as [|k keys IH]; [done|]. simpl. by f_equal. }
  assert (StronglySorted mem_lt ms) as Hms.
  { rewrite Ems. apply (StronglySorted_fmap _ key_lt); [done|]. rewrite Ek. apply sort_keys_sorted. by apply NoDup_filter. }
  assert (∀ k vd, (k, vd) ∈ ms ↔ mem !! k = Some vd ∧ HasPrefix k prefix = true ∧ bytes_lt k start = false) as Hin.
  { intros k vd. rewrite Ems, list_elem_of_fmap. unfold mem_index. split.
    - intros (k' & [= <- ->] & Hk). apply Hkeys in Hk as ([w Hw] & ?). by rewrite Hw.
    - intros (Hv & Hp). exists k. rewrite Hv. split; [done|]. apply Hkeys. split; [by eexists|done]. }
  constructor; [by apply merged_sorted|]. intros k v. rewrite merged_elem, He by done. rewrite overlay_lookup.
  assert (k ∈ ms.*1 ↔ is_Some (mem !! k) ∧ HasPrefix k prefix = true ∧ bytes_lt k start = false) as Hk.
  { rewrite Ems, <- list_fmap_compose. simpl. by rewrite list_fmap_id. }
  rewrite Hk. unfold put_in. setoid_rewrite Hin. unfold over.
  destruct (mem !! k) as [[w del]|] eqn:Hm; simpl.
  - assert (is_Some (Some (mkVD w del))) as Hsome by by eexists.
    destruct del; split.
    + intros [(vd & ([= <-] & _) & ? & _)|?]; [done|tauto].
    + intros [? _]. done.
    + intros [(vd & ([= <-] & ?) & _ & <-)|?]; [done|tauto].
    + intros ([= ->] & ?). left. eexists. split_and!; try done; tauto.
  - split; [intros [(vd & (? & _) & _)|[? _]]; done|]. intros ?. right. split; [done|]. by intros [[? ?] _].
Qed.

(** *** The iterator *)

(** The entries of the underlying iterator that are still to be used: after its first
    [Next] it is one entry ahead. *)
Definition ahead (exhausted : bool) (inner : iter_t) : list entry :=
  if exhausted then [] else (iter_Key inner, iter_Value inner) :: iter_pending inner.

Lemma inner_Next db m inner :
  db_ok db → contents db = Some m → iter_ok inner →
  ahead (negb (iter_Next db inner).1) (iter_Next db inner).2 = iter_pending inner
  ∧ iter_ok (iter_Next db inner).2 ∧ iter_Error (iter_Next db inner).2 = iter_Error inner.
Proof.
  intros Hd Hm Hok. destruct (law_Next db m inner Hd Hm Hok) as (Hok' & Hn & He). split_and!; [|done..].
  unfold ahead. destruct (iter_pending inner) as [|[k v] rest]; [by destruct Hn as [-> _]|].
  by destruct Hn as (-> & -> & -> & ->).
Qed.

Definition v_pending (it : v_iterator) : list entry :=
  match it with
  | VIterator s =>
      merged (zip (vi_keys s) (vi_values s))
        (if vi_initialized s then ahead (vi_exhausted s) (vi_inner s) else iter_pending (vi_inner s))
  | VIteratorError _ => []
  end.

Definition v_iter_ok (it : v_iterator) : Prop :=
  match it with
  | VIterator s => iter_ok (vi_inner s) ∧ length (vi_keys s) = length (vi_values s)
  | VIteratorError err => err = ErrClosed
  end.

(** What a call of [Next] has to do. *)
Definition next_post (pending : list entry) (err : option db_error) (r : bool * v_iterator) : Prop :=
  v_iter_ok r.2
  ∧ match pending with
    | [] => r.1 = false ∧ v_pending r.2 = []
    | (k, v) :: rest => r.1 = true ∧ v_iter_Key r.2 = k ∧ v_iter_Value r.2 = v ∧ v_pending r.2 = rest
    end
  ∧ v_iter_Error r.2 = err.

Lemma v_next_loop_spec db m keys values s :
  db_ok db → contents db = Some m → vi_keys s = keys → vi_values s = values → vi_initialized s = true →
  v_iter_ok (VIterator s) →
  next_post (v_pending (VIterator s)) (v_iter_Error (VIterator s))
    (let '(ok, s) := v_next_loop db keys values s in (ok, VIterator s)).
Proof.
  intros Hd Hm. revert values s. induction keys as [|k keys IH]; intros values s Ek Ev Hi [Hok Hlen];
    destruct s as [inner key value err keys' values' initialized exhausted]; simpl in *; subst.
  - destruct values as [|v values]; [|done]. simpl. destruct exhausted; simpl; [done|].
    destruct (inner_Next db m inner Hd Hm Hok) as (H1 & H2 & H3).
    destruct (iter_Next db inner) as [more inner']. simpl in *.
    unfold next_post. simpl. rewrite merged_nil, H1, H3. done.
  - destruct values as [|v values]; [done|]. simpl. injection Hlen as Hlen.
    assert (∀ inner' exhausted', iter_ok inner' → iter_Error inner' = iter_Error inner →
      next_post (emit k v (merged (zip keys values) (ahead exhausted' inner')))
        match err with Some e => Some e | None => iter_Error inner end
        (let '(ok, s) := if vd_delete v then v_next_loop db keys values (mkVS inner' key value err keys values true exhausted')
                         else (true, mkVS inner' k (vd_value v) err keys values true exhausted') in (ok, VIterator s))) as Hemit.
    { intros inner' exhausted' Hok' He'. unfold emit. rewrite <- He'. destruct (vd_delete v).
      - apply (IH values (mkVS inner' key value err keys values true exhausted')); done.
      - done. }
    destruct exhausted; simpl; [by apply (Hemit inner true)|].
    destruct (bytes_lt k (iter_Key inner)) eqn:E1; [by apply (Hemit inner false)|].
    destruct (inner_Next db m inner Hd Hm Hok) as (H1 & H2 & H3).
    destruct (iter_Next db inner) as [more inner']. simpl in H1, H2, H3.
    destruct (bytes_lt (iter_Key inner) k) eqn:E2.
    + unfold next_post. simpl. rewrite H1, H3. split_and!; simpl; try done; congruence.
    + rewrite <- H1. by apply (Hemit inner' (negb more)).
Qed.

Lemma v_Next_spec mem db batch m it :
  db_ok db → contents db = Some m → v_iter_ok it →
  next_post (v_pending it) (v_iter_Error it) (v_Next (VOpen mem db batch) it).
Proof.
  intros Hd Hm Hok. destruct it as [s|err]; [|done]. simpl. destruct (vi_initialized s) eqn:Hi.
  - pose proof (v_next_loop_spec db m (vi_keys s) (vi_values s) s Hd Hm eq_refl eq_refl Hi Hok) as H.
    simpl in H. rewrite Hi in H. exact H.
  - destruct Hok as [Hok Hlen]. destruct (inner_Next db m (vi_inner s) Hd Hm Hok) as (H1 & H2 & H3).
    destruct (iter_Next db (vi_inner s)) as [more inner']. simpl in *.
    set (s' := mkVS inner' _ _ _ _ _ _ _).
    pose proof (v_next_loop_spec db m (vi_keys s) (vi_values s) s' Hd Hm eq_refl eq_refl eq_refl (conj H2 Hlen)) as H.
    simpl in H. rewrite H1, H3 in H. exact H.
Qed.

(** *** [Commit] *)

Definition commit_op (key : bytes) (vd : valueDelete) : BatchOp :=
  if vd_delete vd then mkOp key [] true else mkOp key (vd_value vd) false.

Definition commit_ops (mem : gmap bytes valueDelete) (keys : list bytes) : list BatchOp :=
  omap (λ k, commit_op k <$> mem !! k) keys.

Lemma commit_loop_ops mem keys batch :
  batch_ok batch →
  batch_ok (commit_loop mem keys batch) ∧ batch_ident (commit_loop mem keys batch) = batch_ident batch
  ∧ batch_ops (commit_loop mem keys batch) = batch_ops batch ++ commit_ops mem keys.
Proof.
  revert batch. induction keys as [|k keys IH]; intros batch Hok; [by rewrite app_nil_r|]. unfold commit_ops in *. simpl.
  destruct (mem !! k) as [vd|]; simpl; [|by apply IH]. unfold commit_op.
  destruct (vd_delete vd).
  - destruct (law_batch_Delete batch k Hok) as (H1 & H2 & H3). destruct (IH _ H1) as (H4 & H5 & H6).
    split_and!; [done|congruence|]. by rewrite H6, H3, <- app_assoc.
  - destruct (law_batch_Put batch k (vd_value vd) Hok) as (H1 & H2 & H3). destruct (IH _ H1) as (H4 & H5 & H6).
    split_and!; [done|congruence|]. by rewrite H6, H3, <- app_assoc.
Qed.

(** In any iteration order the batch is the change from the underlying contents. *)
Lemma commit_ops_overlay mem m :
  apply_ops m (commit_ops mem (range_keys mem)) = overlay mem m.
Proof using range_keys_perm.
  assert (NoDup (range_keys mem)) as Hnd by (rewrite range_keys_perm; apply NoDup_fst_map_to_list).
  assert (∀ k, k ∈ range_keys mem ↔ is_Some (mem !! k)) as Hin.
  { intros k. rewrite range_keys_perm, list_elem_of_fmap. split.
    - intros ([k' v] & -> & Hin). apply elem_of_map_to_list in Hin. by eexists.
    - intros [v Hv]. exists (k, v). split; [done|]. by apply elem_of_map_to_list. }
  set (ops := commit_ops mem (range_keys mem)).
  assert (∀ l, (∀ k, k ∈ l → is_Some (mem !! k)) → op_Key <$> commit_ops mem l = l) as Hkeys.
  { clear. induction l as [|k l IH]; intros Hl; [done|]. destruct (Hl k) as [vd Hvd]; [by left|].
    assert (commit_ops mem (k :: l) = commit_op k vd :: commit_ops mem l) as -> by (unfold commit_ops; simpl; by rewrite Hvd).
    rewrite fmap_cons, IH by (intros k' ?; apply Hl; by right). f_equal. unfold commit_op. by destruct (vd_delete vd). }
  assert (op_Key <$> ops = range_keys mem) as Hops by (apply Hkeys; intros k; apply Hin).
  apply map_eq. intros k. rewrite overlay_lookup. destruct (mem !! k) as [vd|] eqn:Hk.
  - assert (commit_op k vd ∈ ops) as Hop.
    { apply list_elem_of_omap. exists k. rewrite Hk. split; [apply Hin; by eexists|done]. }
    pose proof (apply_ops_lookup m ops _ ltac:(by rewrite Hops) Hop) as H. unfold commit_op, over in *.
    destruct (vd_delete vd); exact H.
  - simpl. apply apply_ops_lookup_ne. rewrite Hops, Hin, Hk. by intros [? ?].
Qed.

Definition v_ok (d : versiondb) : Prop :=
  match d with
  | VClosed => True
  | VOpen _ db batch =>
      db_ok db ∧ is_Some (contents db) ∧ batch_ok batch ∧ batch_ident batch = db_ident db
  end.

Definition v_contents (d : versiondb) : option (gmap bytes bytes) :=
  match d with VClosed => None | VOpen mem db _ => overlay mem <$> contents db end.

(** The versioned database satisfies the contract of its interface. *)
Definition versiondb_laws : DatabaseLaws versiondb_database.
Proof using L range_keys_perm.
  refine {| db_ok := v_ok : @db_t versiondb_database → Prop;
            contents := v_contents : @db_t versiondb_database → option (gmap bytes bytes);
            ident := unit; db_ident := (λ _, tt) : @db_t versiondb_database → unit;
            batch_ident := (λ _, tt) : @batch_t versiondb_database → unit;
            batch_ok := (λ _, True) : @batch_t versiondb_database → Prop;
            batch_ops := Ops : @batch_t versiondb_database → list BatchOp;
            iter_ok := v_iter_ok : @iter_t versiondb_database → Prop;
            iter_pending := v_pending : @iter_t versiondb_database → list entry |}.
  - intros [|mem db batch] k; [done|]. intros (Hd & [m Hm] & Hbt). simpl. rewrite (law_Has db k Hd), Hm. simpl.
    rewrite overlay_lookup. by destruct (mem !! k) as [[v []]|].
  - intros [|mem db batch] k; [done|]. intros (Hd & [m Hm] & Hbt). simpl. rewrite (law_Get db k Hd), Hm. simpl.
    rewrite overlay_lookup. by destruct (mem !! k) as [[v []]|].
  - intros [|mem db batch] k v; [done|]. intros (Hd & [m Hm] & Hbt). simpl. rewrite Hm. simpl. eexists.
    split_and!; [done|split_and!; [done|by eexists|apply Hbt..]|done|]. simpl. by rewrite Hm; simpl; rewrite (overlay_change mem m k (mkVD v false)).
  - intros [|mem db batch] k; [done|]. intros (Hd & [m Hm] & Hbt). simpl. rewrite Hm. simpl. eexists.
    split_and!; [done|split_and!; [done|by eexists|apply Hbt..]|done|]. simpl. by rewrite Hm; simpl; rewrite (overlay_change mem m k (mkVD [] true)).
  - intros [|mem db batch]; [done|]. intros (Hd & [m Hm] & Hbt). simpl. rewrite Hm. simpl. by eexists.
  - done.
  - done.
  - done.
  - done.
  - intros [|mem db batch] b; [done|]. intros (Hd & [m Hm] & Hbt) _ _. simpl. rewrite Hm. simpl. eexists.
    split_and!; [done|split_and!; [done|by eexists|apply Hbt..]|done|]. simpl. by rewrite Hm; simpl; rewrite v_write_loop_overlay.
  - intros [|mem db batch] m' start prefix; [done|]. intros (Hd & [m Hm] & Hbt). simpl. rewrite Hm. intros [= <-].
    destruct (law_NewIterator db m start prefix Hd Hm) as (H1 & H2 & H3).
    split_and!; [done|simpl; by rewrite length_fmap|by apply merged_listing|done].
  - intros [|mem db batch] m' it; [done|]. intros (Hd & [m Hm] & Hbt) _ Hok. exact (v_Next_spec mem db batch m it Hd Hm Hok).
  - intros [|mem db batch] it Hok; [|destruct Hok as (_ & [m Hm] & _); simpl; by rewrite Hm].
    intros _ Hit. destruct it as [s|err]; [done|]. simpl in Hit. by subst.
Defined.

(** Changes through the database and through its batches. *)
Inductive change := ChPut (key value : bytes) | ChDelete (key : bytes) | ChWrite (b : BatchOps).

Definition run_change (d : versiondb) (c : change) : result db_error versiondb :=
  match c with
  | ChPut key value => v_Put d key value
  | ChDelete key => v_Delete d key
  | ChWrite b => v_batch_Write d b
  end.

Fixpoint run_changes (d : versiondb) (cs : list change) : result db_error versiondb :=
  match cs with
  | [] => Ok d
  | c :: cs => let? d := run_change d c in run_changes d cs
  end.

Definition change_ops (c : change) : list BatchOp :=
  match c with
  | ChPut key value => [mkOp key value false]
  | ChDelete key => [mkOp key [] true]
  | ChWrite b => Ops b
  end.

Lemma run_changes_spec cs mem db batch m :
  ∃ mem', run_changes (VOpen mem db batch) cs = Ok (VOpen mem' db batch)
    ∧ overlay mem' m = apply_ops (overlay mem m) (cs ≫= change_ops).
Proof using.
  revert mem. induction cs as [|c cs IH]; intros mem; [by eexists|].
  assert (∃ mem1, run_change (VOpen mem db batch) c = Ok (VOpen mem1 db batch)
            ∧ overlay mem1 m = apply_ops (overlay mem m) (change_ops c)) as (mem1 & H1 & H2).
  { destruct c as [key value|key|b]; simpl; eexists; (split; [done|]).
    - apply (overlay_change mem m key (mkVD value false)).
    - apply (overlay_change mem m key (mkVD [] true)).
    - apply v_write_loop_overlay. }
  destruct (IH mem1) as (mem' & H3 & H4). exists mem'. cbn [run_changes]. rewrite H1. simpl. split; [done|].
  rewrite H4, H2. symmetry. apply apply_ops_app.
Qed.

Lemma Commit_spec mem db batch m :
  v_ok (VOpen mem db batch) → contents db = Some m →
  ∃ db' batch', v_Commit (VOpen mem db batch) = (None, VOpen ∅ db' batch')
    ∧ v_ok (VOpen ∅ db' batch') ∧ contents db' = Some (overlay mem m).
Proof using L range_keys_perm.
  intros (Hd & _ & Hok & Hid) Hm. unfold v_Commit. simpl.
  destruct (law_batch_Reset batch Hok) as (R1 & R2 & R3).
  destruct (commit_loop_ops mem (range_keys mem) (batch_Reset batch) R1) as (C1 & C2 & C3).
  set (b := commit_loop mem (range_keys mem) (batch_Reset batch)) in *.
  pose proof (law_Write db b Hd C1 ltac:(congruence)) as H. rewrite Hm in H.
  destruct H as (db' & -> & Hd' & Hi & Hc). destruct (law_batch_Reset b C1) as (R4 & R5 & _).
  rewrite C3, R3 in Hc. simpl in Hc. rewrite commit_ops_overlay in Hc.
  eexists _, _. split; [done|]. split; [|done]. split_and!; [done|by eexists|done|congruence].
Qed.

(** C40. Transactions.  Changes to a versioned database never fail and do not touch the
    underlying database; reads see them; [Commit] makes the contents of the underlying
    database exactly what was read, in any order in which the changes are written, and
    leaves no changes; [Abort] brings back the underlying contents. *)
Theorem versiondb_transaction db m cs :
  db_ok db → contents db = Some m →
  let m' := apply_ops m (cs ≫= change_ops) in
  ∃ d, run_changes (v_New db) cs = Ok d
    ∧ v_GetDatabase d = Some db
    ∧ (∀ k, v_Get d k = match m' !! k with Some v => Ok v | None => Err ErrNotFound end)
    ∧ (∀ k, v_Has d k = Ok (bool_decide (is_Some (m' !! k))))
    ∧ (∀ k, v_Get (v_Abort d) k = db_Get db k)
    ∧ ∃ db' d', v_Commit d = (None, d') ∧ v_GetDatabase d' = Some db' ∧ contents db' = Some m'
        ∧ ∀ k, v_Get d' k = v_Get d k.
Proof using L range_keys_perm.
  intros Hd Hm m'. destruct (run_changes_spec cs ∅ db (db_NewBatch db) m) as (mem & Hr & Ho).
  rewrite overlay_empty in Ho. fold m' in Ho.
  exists (VOpen mem db (db_NewBatch db)).
  assert (∀ k, v_Get (VOpen mem db (db_NewBatch db)) k
               = match m' !! k with Some v => Ok v | None => Err ErrNotFound end) as Hget.
  { intros k. simpl. rewrite (law_Get db k Hd), Hm, <- Ho, overlay_lookup. by destruct (mem !! k) as [[v []]|]. }
  split_and!; [done|done|exact Hget| | |].
  - intros k. simpl. rewrite (law_Has db k Hd), Hm, <- Ho, overlay_lookup. by destruct (mem !! k) as [[v []]|].
  - intros k. simpl. by rewrite lookup_empty.
  - destruct (law_NewBatch db Hd) as (N1 & N2 & _).
    destruct (Commit_spec mem db (db_NewBatch db) m) as (db' & batch' & Hc & (Hd' & _) & Hm');
      [split_and!; [done|by eexists|done..]|done|].
    exists db', (VOpen ∅ db' batch'). rewrite Ho in Hm'. split_and!; [done|done|done|].
    intros k. rewrite Hget. simpl. by rewrite lookup_empty, (law_Get db' k Hd'), Hm'.
Qed.

(** Iteration.  An iterator of a versioned database returns exactly the entries of the
    changed contents from [start] on with the prefix, in increasing key order, although it
    walks over the changes and over the underlying database separately; it stops within
    one step more than their number. *)
Theorem versiondb_iterates mem db batch m start prefix :
  v_ok (VOpen mem db batch) → contents db = Some m →
  let d : @db_t versiondb_database := VOpen mem db batch in
  ∃ l, is_listing (overlay mem m) start prefix l
    ∧ iterate_all (D := versiondb_database) (S (length l)) d (db_NewIterator d start prefix) = Some l.
Proof using L range_keys_perm.
  intros Hok Hm d.
  assert (v_contents d = Some (overlay mem m)) as Hc by (simpl; by rewrite Hm).
  destruct (@law_NewIterator _ versiondb_laws d (overlay mem m) start prefix Hok Hc) as (H1 & H2 & _).
  eexists. split; [exact H2|]. apply (iterate_all_spec (DatabaseLaws0 := versiondb_laws) d (overlay mem m)); [done..|].
  apply Nat.lt_succ_diag_r.
Qed.
End versiondb.

(** *** Witnesses: a versioned database over the in-memory one *)

Definition sample_range (V : Type) (m : gmap bytes V) : list bytes := (map_to_list m).*1.
Definition sample_memdb : memdb := mkMemdb (Some {[ [1] := [10]; [2] := [20] ]}).
Definition sample_changes : list change :=
  [ChPut [1] [11]; ChDelete [2]; ChWrite (BatchOps_Put (mkOps [] 0) [3] [30])].

Lemma versiondb_transaction_witness :
  ∃ d, run_changes (D := memdb_database sample_range) (v_New (D := memdb_database sample_range) sample_memdb) sample_changes
       = Ok d
    ∧ v_Get d [1] = Ok [11] ∧ v_Get d [2] = Err ErrNotFound ∧ v_Get d [3] = Ok [30].
Proof.
  destruct (versiondb_transaction (D := memdb_database sample_range) sample_range
              (L := memdb_laws sample_range (λ _ _, reflexivity _)) (λ _ _, reflexivity _)
              sample_memdb {[ [1] := [10]; [2] := [20] ]} sample_changes I eq_refl) as (d & H1 & _ & H2 & _).
  exists d. split; [exact H1|]. rewrite !H2. vm_compute. auto.
Defined.

Lemma versiondb_iterates_witness :
  ∃ l, is_listing {[ [1] := [11]; [3] := [30] ]} [] [] l
    ∧ iterate_all (D := versiondb_database (D := memdb_database sample_range) sample_range) (S (length l))
        (VOpen (D := memdb_database sample_range)
           {[ [1] := mkVD [11] false; [2] := mkVD [] true; [3] := mkVD [30] false ]} sample_memdb (mkOps [] 0))
        (v_NewIteratorWithStartAndPrefix (D := memdb_database sample_range) sample_range
           (VOpen (D := memdb_database sample_range)
              {[ [1] := mkVD [11] false; [2] := mkVD [] true; [3] := mkVD [30] false ]} sample_memdb (mkOps [] 0)) [] [])
      = Some l.
Proof.
  destruct (versiondb_iterates (D := memdb_database sample_range) sample_range
              (L := memdb_laws sample_range (λ _ _, reflexivity _)) (λ _ _, reflexivity _)
              {[ [1] := mkVD [11] false; [2] := mkVD [] true; [3] := mkVD [30] false ]}
              sample_memdb (mkOps [] 0) {[ [1] := [10]; [2] := [20] ]} [] []
              (conj I (conj (ex_intro _ _ eq_refl) (conj I eq_refl))) eq_refl) as (l & H1 & H2).
  exists l. split; [|exact H2].
  assert (overlay {[ [1] := mkVD [11] false; [2] := mkVD [] true; [3] := mkVD [30] false ]} {[ [1] := [10]; [2] := [20] ]}
          = {[ [1] := [11]; [3] := [30] ]}) as E by (vm_compute; reflexivity).
  rewrite <- E. exact H1.
Defined.
