(* ===== verification/Prefixdb.v ===== *)
(** * Databases within a database

    Models [database/prefixdb/db.go]: a database whose keys are stored in another database
    behind a prefix, the hash of the name of the database.  The hash function is a
    parameter.  Buffers are taken from a pool and returned when the call that uses them
    ends; the model passes the keys as values.  [Compact] only gives the other database a
    hint, and is not modelled; the limit of the key range that it uses is. *)

From S2P Require Import Prelude Database Memdb Versiondb.

Open Scope Z_scope.

(** [incrementByteSlice], from the last byte on *)
Fixpoint increment_rev (buf : bytes) : bytes :=
  match buf with
  | [] => []
  | b :: buf =>
      let b := (b + 1) mod 256 in
      if negb (b =? 0) then b :: buf else b :: increment_rev buf
  end.
Definition incrementByteSlice (orig : bytes) : bytes := reverse (increment_rev (reverse orig)).

Section prefixdb.
Context {D : Database}.
Context (ComputeHash256 : bytes → bytes).

Record prefixdb := mkPrefixdb {
  dbPrefix : bytes;
  dbLimit : bytes;
  p_db : db_t;
  p_closed : bool;
}.

Definition newDB (prefix : bytes) (db : db_t) : prefixdb := mkPrefixdb prefix (incrementByteSlice prefix) db false.

Definition MakePrefix (prefix : bytes) : bytes := ComputeHash256 prefix.

Definition JoinPrefixes (firstPrefix secondPrefix : bytes) : bytes := MakePrefix (firstPrefix ++ secondPrefix).

Definition PrefixKey (prefix key : bytes) : bytes := prefix ++ key.

(** [New] on another prefix database, and on any other database *)
Definition New_on_prefixdb (prefix : bytes) (db : prefixdb) : prefixdb :=
  newDB (JoinPrefixes (dbPrefix db) prefix) (p_db db).
Definition NewNested (prefix : bytes) (db : db_t) : prefixdb := newDB (MakePrefix prefix) db.

(** [db.prefix(key)] *)
Definition with_prefix (d : prefixdb) (key : bytes) : bytes := dbPrefix d ++ key.

Definition set_inner (d : prefixdb) (db : db_t) : prefixdb := mkPrefixdb (dbPrefix d) (dbLimit d) db (p_closed d).

Definition p_Has (d : prefixdb) (key : bytes) : result db_error bool :=
  if p_closed d then Err ErrClosed else db_Has (p_db d) (with_prefix d key).

Definition p_Get (d : prefixdb) (key : bytes) : result db_error bytes :=
  if p_closed d then Err ErrClosed else db_Get (p_db d) (with_prefix d key).

Definition p_Put (d : prefixdb) (key value : bytes) : result db_error prefixdb :=
  if p_closed d then Err ErrClosed
  else let? db := db_Put (p_db d) (with_prefix d key) value in Ok (set_inner d db).

Definition p_Delete (d : prefixdb) (key : bytes) : result db_error prefixdb :=
  if p_closed d then Err ErrClosed
  else let? db := db_Delete (p_db d) (with_prefix d key) in Ok (set_inner d db).

Definition p_Close (d : prefixdb) : result db_error prefixdb :=
  if p_closed d then Err ErrClosed else Ok (mkPrefixdb (dbPrefix d) (dbLimit d) (p_db d) true).

(** A batch has the prefix of its database. *)
Record p_batch := mkPBatch { pb_inner : batch_t; pb_prefix : bytes; pb_ops : list BatchOp }.

Definition p_NewBatch (d : prefixdb) : p_batch := mkPBatch (db_NewBatch (p_db d)) (dbPrefix d) [].

Definition p_batch_Put (b : p_batch) (key value : bytes) : p_batch :=
  let prefixedKey := pb_prefix b ++ key in
  mkPBatch (batch_Put (pb_inner b) prefixedKey value) (pb_prefix b) (pb_ops b ++ [mkOp prefixedKey value false]).

Definition p_batch_Delete (b : p_batch) (key : bytes) : p_batch :=
  let prefixedKey := pb_prefix b ++ key in
  mkPBatch (batch_Delete (pb_inner b) prefixedKey) (pb_prefix b) (pb_ops b ++ [mkOp prefixedKey [] true]).

Definition p_batch_Write (d : prefixdb) (b : p_batch) : result db_error prefixdb :=
  if p_closed d then Err ErrClosed
  else let? db := batch_Write (p_db d) (pb_inner b) in Ok (set_inner d db).

Definition p_batch_Reset (b : p_batch) : p_batch := mkPBatch (batch_Reset (pb_inner b)) (pb_prefix b) [].

(** [Replay] on a writer with the operations [put] and [del] *)
Definition strip_op (prefix : bytes) (op : BatchOp) : BatchOp :=
  mkOp (drop (length prefix) (op_Key op)) (op_Value op) (op_Delete op).
Definition p_batch_Replay {W} (put : W → bytes → bytes → result db_error W) (del : W → bytes → result db_error W)
    (b : p_batch) (w : W) : result db_error W :=
  replay_ops put del w (strip_op (pb_prefix b) <$> pb_ops b).

Inductive p_iterator :=
  | PIterator (inner : iter_t) (prefix : bytes) (key val : bytes) (err : option db_error)
  | PIteratorError (err : db_error).

Definition p_NewIteratorWithStartAndPrefix (d : prefixdb) (start prefix : bytes) : p_iterator :=
  if p_closed d then PIteratorError ErrClosed
  else PIterator (db_NewIterator (p_db d) (with_prefix d start) (with_prefix d prefix)) (dbPrefix d) [] [] None.

Definition strip_key (prefix key : bytes) : bytes :=
  if (length prefix <=? length key)%nat then drop (length prefix) key else key.

Definition p_Next (d : prefixdb) (it : p_iterator) : bool * p_iterator :=
  match it with
  | PIteratorError _ => (false, it)
  | PIterator inner prefix _ _ err =>
      if p_closed d then (false, PIterator inner prefix [] [] (Some ErrClosed))
      else
        let '(hasNext, inner) := iter_Next (p_db d) inner in
        if hasNext then (true, PIterator inner prefix (strip_key prefix (iter_Key inner)) (iter_Value inner) err)
        else (false, PIterator inner prefix [] [] err)
  end.

Definition p_iter_Key (it : p_iterator) : bytes := match it with PIterator _ _ key _ _ => key | _ => [] end.
Definition p_iter_Value (it : p_iterator) : bytes := match it with PIterator _ _ _ val _ => val | _ => [] end.
Definition p_iter_Error (it : p_iterator) : option db_error :=
  match it with
  | PIterator inner _ _ _ err => match err with Some e => Some e | None => iter_Error inner end
  | PIteratorError err => Some err
  end.

Definition prefixdb_database : Database := {|
  db_t := prefixdb;
  db_Has := p_Has;
  db_Get := p_Get;
  db_Put := p_Put;
  db_Delete := p_Delete;
  db_Close := p_Close;
  batch_t := p_batch;
  db_NewBatch := p_NewBatch;
  batch_Put := p_batch_Put;
  batch_Delete := p_batch_Delete;
  batch_Size := λ b, batch_Size (pb_inner b);
  batch_Reset := p_batch_Reset;
  batch_Write := p_batch_Write;
  iter_t := p_iterator;
  db_NewIterator := p_NewIteratorWithStartAndPrefix;
  iter_Next := p_Next;
  iter_Key := p_iter_Key;
  iter_Value := p_iter_Value;
  iter_Error := p_iter_Error;
|}.

(** ** The contract *)

Context {L : DatabaseLaws D}.

(** The part of a map behind a prefix. *)
Definition strip_entry (prefix : bytes) (e : entry) : entry := (strip_key prefix e.1, e.2).
Definition strip (prefix : bytes) (m : gmap bytes bytes) : gmap bytes bytes :=
  list_to_map (strip_entry prefix <$> filter (λ e : entry, HasPrefix e.1 prefix) (map_to_list m)).

Lemma strip_key_app prefix key : strip_key prefix (prefix ++ key) = key.
Proof. unfold strip_key. rewrite length_app, drop_app_length. destruct (Nat.leb_spec (length prefix) (length prefix + length key)); [done|lia]. Qed.

Lemma strip_lookup prefix m k : strip prefix m !! k = m !! (prefix ++ k).
Proof.
  assert (∀ e, e ∈ filter (λ e : entry, HasPrefix e.1 prefix) (map_to_list m) ↔
            ∃ k, e.1 = prefix ++ k ∧ m !! (prefix ++ k) = Some e.2) as Hf.
  { intros [ek ev]. rewrite list_elem_of_filter, Is_true_true, elem_of_map_to_list, HasPrefix_app. simpl.
    split; [intros [[k' ->] ?]; eauto|]. intros (k' & -> & ?). eauto. }
  assert (∀ k v, (k, v) ∈ strip_entry prefix <$> filter (λ e : entry, HasPrefix e.1 prefix) (map_to_list m)
            ↔ m !! (prefix ++ k) = Some v) as He.
  { intros k' v. rewrite list_elem_of_fmap. split.
    - intros ([ek ev] & [= -> ->] & Hin). apply Hf in Hin as (k'' & Hk & Hm). simpl in *. subst.
      by rewrite strip_key_app.
    - intros Hm. exists (prefix ++ k', v). unfold strip_entry. simpl. rewrite strip_key_app. split; [done|].
      apply Hf. eauto. }
  apply option_eq. intros v. unfold strip. rewrite <- He. symmetry. apply elem_of_list_to_map.
  rewrite <- list_fmap_compose. apply NoDup_fmap_2_strong.
  - intros [k1 v1] [k2 v2] (k1' & E1 & M1)%Hf (k2' & E2 & M2)%Hf. simpl in *. subst.
    rewrite !strip_key_app. intros ->. congruence.
  - apply NoDup_filter, NoDup_map_to_list.
Qed.

Lemma strip_insert prefix m k v : strip prefix (<[prefix ++ k := v]> m) = <[k := v]> (strip prefix m).
Proof.
  apply map_eq. intros k'. rewrite strip_lookup, !lookup_insert, strip_lookup.
  destruct (decide (k = k')) as [->|Hne]; [by rewrite decide_True|]. rewrite decide_False; [done|].
  intros E. by apply app_inv_head in E.
Qed.

Lemma strip_delete prefix m k : strip prefix (delete (prefix ++ k) m) = delete k (strip prefix m).
Proof.
  apply map_eq. intros k'. rewrite strip_lookup, !lookup_delete, strip_lookup.
  destruct (decide (k = k')) as [->|Hne]; [by rewrite decide_True|]. rewrite decide_False; [done|].
  intros E. by apply app_inv_head in E.
Qed.

Definition has_prefix (prefix : bytes) (op : BatchOp) : Prop := ∃ k, op_Key op = prefix ++ k.

Lemma strip_apply_ops prefix m ops :
  Forall (has_prefix prefix) ops →
  strip prefix (apply_ops m ops) = apply_ops (strip prefix m) (strip_op prefix <$> ops).
Proof.
  intros Hops. revert m. induction Hops as [|[ok ov od] ops [k Hk] _ IH]; intros m; [done|]. simpl in Hk. subst ok.
  simpl. fold (apply_ops (apply_op m (mkOp (prefix ++ k) ov od)) ops). rewrite IH. f_equal.
  unfold apply_op, strip_op. simpl. rewrite drop_app_length. destruct od; [apply strip_delete|apply strip_insert].
Qed.

(** Keys behind another prefix of the same length are not affected. *)
Lemma strip_other_ops p q m ops :
  Forall (has_prefix p) ops → p ≠ q → length p = length q → strip q (apply_ops m ops) = strip q m.
Proof.
  intros Hops Hne Hlen. apply map_eq. intros k. rewrite !strip_lookup. apply apply_ops_lookup_ne.
  intros (op & Hk & Hin)%list_elem_of_fmap. rewrite Forall_forall in Hops. destruct (Hops op Hin) as [k' Hk'].
  rewrite Hk' in Hk. apply app_inj_1 in Hk as [? _]; [congruence|done].
Qed.

Lemma strip_listing prefix m start pre l :
  is_listing m (prefix ++ start) (prefix ++ pre) l →
  is_listing (strip prefix m) start pre (strip_entry prefix <$> l).
Proof.
  intros [Hs He].
  assert (∀ e, e ∈ l → ∃ k, e.1 = prefix ++ k) as Hpre.
  { intros [k v] (_ & [k' ->]%HasPrefix_app & _)%He. simpl. rewrite <- app_assoc. eauto. }
  constructor.
  - clear He. induction Hs as [|a l Hs IH Ha]; [constructor|]. rewrite fmap_cons. constructor.
    + apply IH. intros e He. apply Hpre. by right.
    + rewrite Forall_forall in Ha |- *. intros e (e' & -> & Hin)%list_elem_of_fmap. specialize (Ha e' Hin).
      destruct (Hpre a) as [ka Hka]; [by left|]. destruct (Hpre e') as [ke Hke]; [by right|].
      unfold entry_lt, key_lt, strip_entry in *. simpl. rewrite Hka, Hke in *. by rewrite !strip_key_app, bytes_lt_app in *.
  - intros k v. rewrite strip_lookup. rewrite <- (HasPrefix_app_same prefix k pre), <- (bytes_lt_app prefix k start), <- He.
    rewrite list_elem_of_fmap. split.
    + intros (e & [= -> ->] & Hin). destruct (Hpre e Hin) as [k' Hk']. rewrite Hk', strip_key_app.
      destruct e as [ek ev]. simpl in *. by rewrite <- Hk'.
    + intros Hin. exists (prefix ++ k, v). unfold strip_entry. simpl. by rewrite strip_key_app.
Qed.

Definition p_ok (d : prefixdb) : Prop := db_ok (p_db d) ∧ (p_closed d = false → is_Some (contents (p_db d))).
Definition p_contents (d : prefixdb) : option (gmap bytes bytes) :=
  if p_closed d then None else strip (dbPrefix d) <$> contents (p_db d).

Definition p_batch_ok (b : p_batch) : Prop :=
  batch_ok (pb_inner b) ∧ batch_ops (pb_inner b) = pb_ops b ∧ Forall (has_prefix (pb_prefix b)) (pb_ops b).
Definition p_batch_ops (b : p_batch) : list BatchOp := strip_op (pb_prefix b) <$> pb_ops b.

Definition p_pending (it : p_iterator) : list entry :=
  match it with
  | PIterator inner prefix _ _ _ => strip_entry prefix <$> iter_pending inner
  | PIteratorError _ => []
  end.
Definition p_iter_ok (it : p_iterator) : Prop :=
  match it with
  | PIterator inner _ _ _ _ => iter_ok inner
  | PIteratorError err => err = ErrClosed
  end.

(** A queued operation with a prefixed key. *)
Lemma p_batch_add b op k inner :
  p_batch_ok b → op_Key op = pb_prefix b ++ k → batch_ok inner → batch_ops inner = batch_ops (pb_inner b) ++ [op] →
  let b' := mkPBatch inner (pb_prefix b) (pb_ops b ++ [op]) in
  p_batch_ok b' ∧ p_batch_ops b' = p_batch_ops b ++ [mkOp k (op_Value op) (op_Delete op)].
Proof.
  intros (H1 & H2 & H3) Hk Hi Ho b'. unfold p_batch_ok, p_batch_ops. simpl. split_and!; [done|congruence| |].
  - apply Forall_app. split; [done|]. apply Forall_singleton. by eexists.
  - rewrite fmap_app. simpl. unfold strip_op at 2. by rewrite Hk, drop_app_length.
Qed.

(** A write to the underlying database with prefixed keys. *)
Lemma p_write_inner d m ops db :
  p_ok d → p_closed d = false → contents (p_db d) = Some m → Forall (has_prefix (dbPrefix d)) ops →
  db_ok db → db_ident db = db_ident (p_db d) → contents db = Some (apply_ops m ops) →
  p_ok (set_inner d db) ∧ (dbPrefix (set_inner d db), db_ident (p_db (set_inner d db))) = (dbPrefix d, db_ident (p_db d))
  ∧ p_contents (set_inner d db) = Some (apply_ops (strip (dbPrefix d) m) (strip_op (dbPrefix d) <$> ops)).
Proof.
  intros Hok Hcl Hm Hops Hdb Hid Hc. unfold p_ok, p_contents. simpl. rewrite Hcl, Hc, Hid. simpl. rewrite strip_apply_ops by done.
  split_and!; [done|by eexists|done|done].
Qed.

(** A prefix database satisfies the contract of its interface. *)
Definition prefixdb_laws : DatabaseLaws prefixdb_database.
Proof using L.
  refine {| db_ok := p_ok : @db_t prefixdb_database → Prop;
            contents := p_contents : @db_t prefixdb_database → option (gmap bytes bytes);
            ident := bytes * ident;
            db_ident := (λ d, (dbPrefix d, db_ident (p_db d))) : @db_t prefixdb_database → bytes * ident;
            batch_ident := (λ b, (pb_prefix b, batch_ident (pb_inner b))) : @batch_t prefixdb_database → bytes * ident;
            batch_ok := p_batch_ok : @batch_t prefixdb_database → Prop;
            batch_ops := p_batch_ops : @batch_t prefixdb_database → list BatchOp;
            iter_ok := p_iter_ok : @iter_t prefixdb_database → Prop;
            iter_pending := p_pending : @iter_t prefixdb_database → list entry |}.
  - intros d k [Hd Ho]. simpl. unfold p_Has, p_contents. destruct (p_closed d); [done|]. destruct Ho as [m Hm]; [done|].
    rewrite (law_Has _ _ Hd), Hm. simpl. by rewrite strip_lookup.
  - intros d k [Hd Ho]. simpl. unfold p_Get, p_contents. destruct (p_closed d); [done|]. destruct Ho as [m Hm]; [done|].
    rewrite (law_Get _ _ Hd), Hm. simpl. by rewrite strip_lookup.
  - intros d k v Hok. simpl. unfold p_Put, p_contents at 1. destruct (p_closed d) eqn:Hcl; [done|].
    pose proof Hok as [Hd Ho]. destruct (Ho Hcl) as [m Hm].
    pose proof (law_Put _ (with_prefix d k) v Hd) as H. rewrite Hm in H |- *. destruct H as (db & -> & Hdb & Hid & Hc). simpl.
    destruct (p_write_inner d m [mkOp (dbPrefix d ++ k) v false] db) as (H1 & H2 & H3); try done.
    { apply Forall_singleton. by eexists. }
    eexists. split_and!; [done|exact H1|exact H2|]. rewrite H3. simpl. unfold apply_op, strip_op. simpl.
    by rewrite drop_app_length.
  - intros d k Hok. simpl. unfold p_Delete, p_contents at 1. destruct (p_closed d) eqn:Hcl; [done|].
    pose proof Hok as [Hd Ho]. destruct (Ho Hcl) as [m Hm].
    pose proof (law_Delete _ (with_prefix d k) Hd) as H. rewrite Hm in H |- *. destruct H as (db & -> & Hdb & Hid & Hc). simpl.
    destruct (p_write_inner d m [mkOp (dbPrefix d ++ k) [] true] db) as (H1 & H2 & H3); try done.
    { apply Forall_singleton. by eexists. }
    eexists. split_and!; [done|exact H1|exact H2|]. rewrite H3. simpl. unfold apply_op, strip_op. simpl.
    by rewrite drop_app_length.
  - intros d [Hd Ho]. simpl. unfold p_Close, p_contents at 1. destruct (p_closed d) eqn:Hcl; [done|].
    destruct (Ho eq_refl) as [m Hm]. rewrite Hm. simpl. eexists. split_and!; done.
  - intros d [Hd _]. destruct (law_NewBatch (p_db d) Hd) as (H1 & H2 & H3). simpl.
    split; [split_and!; simpl; [done|done|constructor]|]. split; [simpl; by rewrite H2|done].
  - intros b k v Hb. simpl. destruct (law_batch_Put (pb_inner b) (pb_prefix b ++ k) v (proj1 Hb)) as (H1 & H2 & H3).
    destruct (p_batch_add b (mkOp (pb_prefix b ++ k) v false) k _ Hb eq_refl H1 H3) as [H4 H5]. split; [exact H4|]. split; [simpl; by rewrite H2|exact H5].
  - intros b k Hb. simpl. destruct (law_batch_Delete (pb_inner b) (pb_prefix b ++ k) (proj1 Hb)) as (H1 & H2 & H3).
    destruct (p_batch_add b (mkOp (pb_prefix b ++ k) [] true) k _ Hb eq_refl H1 H3) as [H4 H5]. split; [exact H4|]. split; [simpl; by rewrite H2|exact H5].
  - intros b Hb. simpl. destruct (law_batch_Reset (pb_inner b) (proj1 Hb)) as (H1 & H2 & H3).
    split; [split_and!; simpl; [done|done|constructor]|]. split; [simpl; by rewrite H2|done].
  - intros d b Hok (Hb & Hops & Hpre) Hid. simpl. unfold p_batch_Write, p_contents at 1. simpl in Hid.
    injection Hid as Hp Hi. destruct (p_closed d) eqn:Hcl; [done|]. pose proof Hok as [Hd Ho]. destruct (Ho Hcl) as [m Hm].
    pose proof (law_Write _ _ Hd Hb Hi) as H. rewrite Hm in H |- *. destruct H as (db & -> & Hdb & Hid' & Hc). simpl.
    rewrite Hops in Hc. rewrite Hp in Hpre.
    destruct (p_write_inner d m (pb_ops b) db) as (H1 & H2 & H3); try done.
    eexists. split_and!; [done|exact H1|exact H2|]. rewrite H3. unfold p_batch_ops. by rewrite Hp.
  - intros d m' start pre [Hd Ho]. simpl. unfold p_contents, p_NewIteratorWithStartAndPrefix.
    destruct (p_closed d) eqn:Hcl; [done|]. destruct (Ho eq_refl) as [m Hm]. rewrite Hm. intros [= <-].
    destruct (law_NewIterator _ m (with_prefix d start) (with_prefix d pre) Hd Hm) as (H1 & H2 & H3).
    split_and!; [done|by apply strip_listing|done].
  - intros d m' it [Hd Ho]. simpl. unfold p_contents. destruct (p_closed d) eqn:Hcl; [done|].
    destruct (Ho eq_refl) as [m Hm]. rewrite Hm. intros [= <-] Hit.
    destruct it as [inner prefix key val err|err]; [|done]. simpl in *. rewrite Hcl.
    destruct (law_Next _ m inner Hd Hm Hit) as (H1 & H2 & H3).
    destruct (iter_Next (p_db d) inner) as [hasNext inner']. simpl in *.
    destruct (iter_pending inner) as [|[k v] rest]; simpl.
    + destruct H2 as [-> H2]. simpl. rewrite H2, H3. done.
    + destruct H2 as (-> & <- & <- & <-). simpl. by rewrite H3.
  - intros d it [Hd Ho]. simpl. unfold p_contents. destruct (p_closed d) eqn:Hcl.
    + intros _ Hit. destruct it as [inner prefix key val err|err]; simpl; [by rewrite Hcl|]. simpl in Hit. by subst.
    + destruct (Ho eq_refl) as [m ->]. done.
Defined.

(** Isolation.  What is written through a prefix database changes its own contents like a
    map, and does not change what another prefix database over the same database contains,
    when their prefixes are different and of the same length, as hashes are. *)
Theorem prefixdb_isolation d1 d2 m b :
  p_ok d1 → p_closed d1 = false → p_db d2 = p_db d1 → p_closed d2 = false → contents (p_db d1) = Some m →
  dbPrefix d1 ≠ dbPrefix d2 → length (dbPrefix d1) = length (dbPrefix d2) →
  p_batch_ok b → pb_prefix b = dbPrefix d1 → batch_ident (pb_inner b) = db_ident (p_db d1) →
  ∃ d1', p_batch_Write d1 b = Ok d1'
    ∧ (∀ k, p_Get d1' k = match apply_ops (strip (dbPrefix d1) m) (p_batch_ops b) !! k with
                          | Some v => Ok v | None => Err ErrNotFound end)
    ∧ ∀ k, p_Get (set_inner d2 (p_db d1')) k = p_Get d2 k.
Proof using L.
  intros Hok Hcl Edb Hcl2 Hm Hne Hlen (Hb & Hops & Hpre) Hp Hi. unfold p_batch_Write. rewrite Hcl.
  pose proof (law_Write _ _ (proj1 Hok) Hb Hi) as H. rewrite Hm in H. destruct H as (db & Hw & Hdb & Hid & Hc).
  rewrite Hw. simpl. rewrite Hops in Hc. rewrite Hp in Hpre. eexists. split_and!; [done| |].
  - intros k. unfold p_Get. simpl. rewrite Hcl, (law_Get _ _ Hdb), Hc. unfold with_prefix. simpl.
    by rewrite <- strip_lookup, strip_apply_ops, <- Hp.
  - intros k. unfold p_Get. simpl. rewrite Hcl2, (law_Get _ _ Hdb), Hc, Edb, (law_Get _ _ (proj1 Hok)), Hm.
    unfold with_prefix. simpl. rewrite <- !strip_lookup. by rewrite (strip_other_ops (dbPrefix d1)).
Qed.
End prefixdb.

(** ** The limit of the key range *)

Definition is_byte (b : Z) : Prop := 0 ≤ b < 256.

Lemma first_below_255 (l : bytes) :
  Exists (λ b, b ≠ 255) l → ∃ n b r, l = replicate n 255 ++ b :: r ∧ b ≠ 255.
Proof.
  induction 1 as [b l Hb|b l _ (n & b' & r & -> & Hb')]; [by exists 0%nat, b, l|].
  destruct (decide (b = 255)) as [->|Hb]; [by exists (S n), b', r|].
  by exists 0%nat, b, (replicate n 255 ++ b' :: r).
Qed.

Lemma increment_rev_carry n b r :
  is_byte b → b ≠ 255 → increment_rev (replicate n 255 ++ b :: r) = replicate n 0 ++ (b + 1) :: r.
Proof.
  intros Hb Hne. induction n as [|n IH]; simpl.
  - rewrite Z.mod_small by (unfold is_byte in Hb; lia).
    destruct (Z.eqb_spec (b + 1) 0); [unfold is_byte in Hb; lia|done].
  - by rewrite IH.
Qed.

(** The limit that is computed for a prefix is above every key with the prefix, and the
    prefix itself is not, unless all bytes of the prefix are 255. *)
Theorem prefix_limit_bounds prefix key :
  Forall is_byte prefix → Exists (λ b, b ≠ 255) prefix → HasPrefix key prefix = true →
  bytes_lt key prefix = false ∧ bytes_lt key (incrementByteSlice prefix) = true
  ∧ length (incrementByteSlice prefix) = length prefix.
Proof.
  intros Hbytes Hex [k ->]%HasPrefix_app.
  destruct (first_below_255 (reverse prefix)) as (n & b & r & Hrev & Hb).
  { apply Exists_exists in Hex as (b & Hin & Hb). apply Exists_exists. exists b. by rewrite elem_of_reverse. }
  assert (is_byte b) as Hbyte.
  { rewrite Forall_forall in Hbytes. apply Hbytes. rewrite <- elem_of_reverse, Hrev. apply elem_of_app. right. by left. }
  assert (prefix = reverse r ++ b :: replicate n 255) as Hp.
  { rewrite <- (reverse_involutive prefix), Hrev, reverse_app, reverse_cons, reverse_replicate, <- app_assoc. done. }
  assert (incrementByteSlice prefix = reverse r ++ (b + 1) :: replicate n 0) as Hi.
  { unfold incrementByteSlice. rewrite Hrev, increment_rev_carry by done.
    rewrite reverse_app, reverse_cons, reverse_replicate, <- app_assoc. done. }
  split_and!.
  - rewrite <- (app_nil_r prefix) at 2. rewrite bytes_lt_app. by destruct k.
  - rewrite Hi, Hp, <- app_assoc, bytes_lt_app. simpl. apply orb_true_iff. left. apply Z.ltb_lt. lia.
  - rewrite Hi, Hp, !length_app. simpl. by rewrite !length_replicate.
Qed.

Lemma prefix_limit_bounds_witness :
  incrementByteSlice [1; 255] = [2; 0] ∧ bytes_lt [1; 255; 7] (incrementByteSlice [1; 255]) = true.
Proof.
  split; [reflexivity|]. apply (prefix_limit_bounds [1; 255] [1; 255; 7]).
  - repeat constructor; unfold is_byte; lia.
  - constructor. lia.
  - reflexivity.
Defined.

(** Two prefix databases over one in-memory database. *)
Definition sample_pdb (p : Z) : prefixdb (D := memdb_database sample_range) :=
  newDB (D := memdb_database sample_range) [p] sample_memdb.

Lemma prefixdb_isolation_witness :
  ∃ d, p_batch_Write (sample_pdb 7) (p_batch_Put (p_NewBatch (sample_pdb 7)) [1] [70]) = Ok d
    ∧ p_Get d [1] = Ok [70]
    ∧ ∀ k, p_Get (set_inner (sample_pdb 1) (p_db d)) k = p_Get (sample_pdb 1) k.
Proof.
  destruct (prefixdb_isolation (D := memdb_database sample_range) (L := memdb_laws sample_range (λ _ _, reflexivity _))
              (sample_pdb 7) (sample_pdb 1) {[ [1] := [10]; [2] := [20] ]}
              (p_batch_Put (p_NewBatch (sample_pdb 7)) [1] [70])) as (d & H1 & H2 & H3); try done.
  - split_and!; [done|done|]. apply Forall_singleton. by exists [1].
  - exists d. split; [exact H1|]. split; [|exact H3]. rewrite H2. vm_compute. reflexivity.
Defined.
