(* ===== verification/Packer.v ===== *)
(** * Checked arithmetic and the byte packer

    Models [utils/math/safe_math.go], [utils/wrappers/errors.go] and
    [utils/wrappers/packing.go]: the encoding that network messages, blocks and transactions
    are built from.  A Go slice is its backing array, whose length is the capacity, and its
    length; [extra_cap] is the capacity that [append] adds beyond what is needed.  An index
    or slice expression out of range panics: the operation returns [None]. *)

From S2P Require Import Prelude.

Open Scope Z_scope.

(** ** [safe_math.go] *)

Inductive math_error := ErrOverflow | ErrUnderflow.

Definition Add64 (a b : Z) : result math_error Z :=
  if a >? MaxUint64 - b then Err ErrOverflow else Ok (u64 (a + b)).

Definition Sub (a b : Z) : result math_error Z :=
  if a <? b then Err ErrUnderflow else Ok (u64 (a - b)).

Definition Mul64 (a b : Z) : result math_error Z :=
  if negb (b =? 0) && (a >? MaxUint64 / b) then Err ErrOverflow else Ok (u64 (a * b)).

Definition AbsDiff (a b : Z) : Z := u64 (Z.max a b - Z.min a b).

(** The checked operations return the exact result, and fail exactly when it does not fit. *)
Lemma Add64_exact a b :
  is_u64 a → is_u64 b → Add64 a b = if a + b <=? MaxUint64 then Ok (a + b) else Err ErrOverflow.
Proof.
  unfold is_u64, Add64. intros Ha Hb. rewrite Z.gtb_ltb.
  destruct (Z.ltb_spec (MaxUint64 - b) a), (Z.leb_spec (a + b) MaxUint64); try lia; [done|].
  rewrite u64_id; [done|]. unfold is_u64. lia.
Qed.

Lemma Sub_exact a b :
  is_u64 a → is_u64 b → Sub a b = if b <=? a then Ok (a - b) else Err ErrUnderflow.
Proof.
  unfold is_u64, Sub. intros Ha Hb.
  destruct (Z.ltb_spec a b), (Z.leb_spec b a); try lia; [done|]. rewrite u64_id; [done|]. unfold is_u64. lia.
Qed.

Lemma Mul64_exact a b :
  is_u64 a → is_u64 b → Mul64 a b = if a * b <=? MaxUint64 then Ok (a * b) else Err ErrOverflow.
Proof.
  unfold is_u64, Mul64. intros Ha Hb. rewrite Z.gtb_ltb. destruct (Z.eqb_spec b 0) as [->|Hb0]; simpl.
  { rewrite Z.mul_0_r. done. }
  assert (MaxUint64 / b < a ↔ MaxUint64 < a * b) as Hd.
  { pose proof (Z.div_mod MaxUint64 b Hb0) as E. pose proof (Z.mod_pos_bound MaxUint64 b ltac:(lia)).
    split; intros; nia. }
  destruct (Z.ltb_spec (MaxUint64 / b) a), (Z.leb_spec (a * b) MaxUint64); try lia; [done|].
  rewrite u64_id; [done|]. unfold is_u64. nia.
Qed.

Lemma AbsDiff_exact a b : is_u64 a → is_u64 b → AbsDiff a b = Z.abs (a - b).
Proof. unfold is_u64, AbsDiff. intros Ha Hb. rewrite u64_id; [lia|]. unfold is_u64. lia. Qed.

(** ** [binary.BigEndian] *)

(** The [n] low bytes of a value, the most significant first. *)
Fixpoint be_bytes (n : nat) (v : Z) : list Z :=
  match n with
  | O => []
  | S n => be_bytes n (v / 256) ++ [v mod 256]
  end.

Definition be_value (bs : list Z) : Z := foldl (λ acc b, acc * 256 + b) 0 bs.

Lemma length_be_bytes n v : length (be_bytes n v) = n.
Proof. revert v. induction n as [|n IH]; intros v; [done|]. simpl. rewrite length_app, IH. simpl. lia. Qed.

Lemma be_value_bytes n v : 0 ≤ v < 256 ^ Z.of_nat n → be_value (be_bytes n v) = v.
Proof.
  revert v. induction n as [|n IH]; intros v Hv; [unfold be_value; simpl in *; lia|].
  rewrite Nat2Z.inj_succ, Z.pow_succ_r in Hv by lia. unfold be_value in *. simpl. rewrite foldl_app, IH; simpl.
  - pose proof (Z.div_mod v 256 ltac:(lia)). lia.
  - split; [apply Z.div_pos; lia|apply Z.div_lt_upper_bound; lia].
Qed.

Definition bytes_ok (bs : list Z) : Prop := Forall (λ b, 0 ≤ b < 256) bs.

Lemma be_bytes_ok n v : bytes_ok (be_bytes n v).
Proof.
  revert v. induction n as [|n IH]; intros v; simpl; [constructor|]. apply Forall_app. split; [apply IH|].
  repeat constructor; apply Z.mod_pos_bound; lia.
Qed.

Lemma be_value_app bs b : be_value (bs ++ [b]) = be_value bs * 256 + b.
Proof. unfold be_value. rewrite foldl_app. done. Qed.

Lemma be_value_bound bs : bytes_ok bs → 0 ≤ be_value bs < 256 ^ Z.of_nat (length bs).
Proof.
  induction bs as [|b bs IH] using rev_ind; intros H; [done|].
  apply Forall_app in H as [H Hb]. rewrite Forall_singleton in Hb. rewrite be_value_app, length_app.
  rewrite Nat2Z.inj_add, Z.pow_add_r by lia. change (256 ^ Z.of_nat (length [b])) with 256.
  specialize (IH H). lia.
Qed.

Lemma be_bytes_value bs : bytes_ok bs → be_bytes (length bs) (be_value bs) = bs.
Proof.
  induction bs as [|b bs IH] using rev_ind; intros H; [done|].
  apply Forall_app in H as [H Hb]. rewrite Forall_singleton in Hb.
  rewrite be_value_app, length_app, Nat.add_comm. simpl.
  rewrite Z.div_add_l, Z.div_small, Z.add_0_r, IH, Z.add_comm, Z.mod_add, Z.mod_small by (done || lia). done.
Qed.

(** ** [errors.go] *)

Inductive pack_error :=
  | ErrInsufficientLength
  | ErrNegativeOffset
  | ErrInvalidInput
  | ErrBadBool
  | ErrOversized.

Section packer.
Context (extra_cap : Z → Z → nat).

Record Packer := mkPacker {
  Err_ : option pack_error;
  MaxSize : Z;
  array : list Z;
  len : Z;
  Offset : Z;
}.

Definition Errored (p : Packer) : bool := match Err_ p with Some _ => true | None => false end.

(** [Errs.Add] *)
Definition add_error (p : Packer) (e : pack_error) : Packer :=
  match Err_ p with
  | None => mkPacker (Some e) (MaxSize p) (array p) (len p) (Offset p)
  | Some _ => p
  end.

Definition cap (p : Packer) : Z := Z.of_nat (length (array p)).

(** ** [packing.go] *)

Definition checkSpace (p : Packer) (bytes : Z) : Packer :=
  if Offset p <? 0 then add_error p ErrNegativeOffset
  else if bytes <? 0 then add_error p ErrInvalidInput
  else if len p - Offset p <? bytes then add_error p ErrInsufficientLength
  else p.

Definition expand (p : Packer) (bytes : Z) : Packer :=
  let neededSize := bytes + Offset p in
  if neededSize <=? len p then p
  else if neededSize >? MaxSize p then
    mkPacker (Some ErrInsufficientLength) (MaxSize p) (array p) (len p) (Offset p)
  else if neededSize <=? cap p then mkPacker (Err_ p) (MaxSize p) (array p) neededSize (Offset p)
  else
    mkPacker (Err_ p) (MaxSize p)
      (array p ++ replicate (Z.to_nat (neededSize - cap p)) 0 ++ replicate (extra_cap (cap p) neededSize) 0)
      neededSize (Offset p).

(** [copy(p.Bytes[p.Offset:], bytes)] *)
Definition store_at (a : list Z) (offset : Z) (bytes : list Z) : list Z :=
  take (Z.to_nat offset) a ++ bytes ++ drop (Z.to_nat offset + length bytes) a.

(** The common shape of the functions that write: make room, write at the offset, move it. *)
Definition pack_raw (p : Packer) (bytes : list Z) : option Packer :=
  let n := Z.of_nat (length bytes) in
  let p := expand p n in
  if Errored p then Some p
  else if (Offset p <? 0) || (len p <? Offset p + n) then None
  else Some (mkPacker (Err_ p) (MaxSize p) (store_at (array p) (Offset p) bytes) (len p) (Offset p + n)).

(** The common shape of the functions that read [n] bytes; [nil] after an error. *)
Definition unpack_raw (p : Packer) (n : Z) : option (list Z * Packer) :=
  let p := checkSpace p n in
  if Errored p then Some ([], p)
  else if (Offset p <? 0) || (n <? 0) || (len p <? Offset p + n) then None
  else Some (take (Z.to_nat n) (drop (Z.to_nat (Offset p)) (array p)),
             mkPacker (Err_ p) (MaxSize p) (array p) (len p) (Offset p + n)).

Definition unpack_number (p : Packer) (n : Z) : option (Z * Packer) :=
  '(bytes, p) ← unpack_raw p n;
  Some (be_value bytes, p).

Definition PackByte (p : Packer) (val : Z) : option Packer := pack_raw p [val].
Definition UnpackByte (p : Packer) : option (Z * Packer) := unpack_number p 1.
Definition PackShort (p : Packer) (val : Z) : option Packer := pack_raw p (be_bytes 2 val).
Definition UnpackShort (p : Packer) : option (Z * Packer) := unpack_number p 2.
Definition PackInt (p : Packer) (val : Z) : option Packer := pack_raw p (be_bytes 4 val).
Definition UnpackInt (p : Packer) : option (Z * Packer) := unpack_number p 4.
Definition PackLong (p : Packer) (val : Z) : option Packer := pack_raw p (be_bytes 8 val).
Definition UnpackLong (p : Packer) : option (Z * Packer) := unpack_number p 8.

Definition PackBool (p : Packer) (b : bool) : option Packer := if b then PackByte p 1 else PackByte p 0.

Definition UnpackBool (p : Packer) : option (bool * Packer) :=
  '(b, p) ← UnpackByte p;
  Some (if b =? 0 then (false, p) else if b =? 1 then (true, p) else (false, add_error p ErrBadBool)).

Definition PackFixedBytes (p : Packer) (bytes : list Z) : option Packer := pack_raw p bytes.
Definition UnpackFixedBytes (p : Packer) (size : Z) : option (list Z * Packer) := unpack_raw p size.

Definition u32 (z : Z) : Z := z mod 2 ^ 32.
Definition u16 (z : Z) : Z := z mod 2 ^ 16.

Definition PackBytes (p : Packer) (bytes : list Z) : option Packer :=
  p ← PackInt p (u32 (Z.of_nat (length bytes)));
  PackFixedBytes p bytes.

Definition UnpackBytes (p : Packer) : option (list Z * Packer) :=
  '(size, p) ← UnpackInt p;
  UnpackFixedBytes p size.

Definition UnpackLimitedBytes (p : Packer) (limit : Z) : option (list Z * Packer) :=
  '(size, p) ← UnpackInt p;
  if size >? limit then Some ([], add_error p ErrOversized) else UnpackFixedBytes p size.

Definition MaxStringLen : Z := 2 ^ 16 - 1.

Definition PackStr (p : Packer) (str : list Z) : option Packer :=
  let strSize := Z.of_nat (length str) in
  if strSize >? MaxStringLen then Some (add_error p ErrInvalidInput)
  else
    p ← PackShort p (u16 strSize);
    PackFixedBytes p str.

Definition UnpackStr (p : Packer) : option (list Z * Packer) :=
  '(strSize, p) ← UnpackShort p;
  UnpackFixedBytes p strSize.

Definition UnpackLimitedStr (p : Packer) (limit : Z) : option (list Z * Packer) :=
  '(strSize, p) ← UnpackShort p;
  if strSize >? limit then Some ([], add_error p ErrOversized) else UnpackFixedBytes p strSize.

(** ** Well-formed packers *)

Record packer_ok (p : Packer) : Prop := {
  ok_offset : 0 ≤ Offset p;
  ok_len : 0 ≤ len p ≤ cap p;
}.

(** The bytes the slice holds. *)
Definition contents (p : Packer) : list Z := take (Z.to_nat (len p)) (array p).

Lemma length_store_at a off bs :
  0 ≤ off → off + Z.of_nat (length bs) ≤ Z.of_nat (length a) → length (store_at a off bs) = length a.
Proof. intros ??. unfold store_at. rewrite !length_app, length_take, length_drop. lia. Qed.

Lemma take_store_at a off bs :
  0 ≤ off → off + Z.of_nat (length bs) ≤ Z.of_nat (length a) →
  take (Z.to_nat (off + Z.of_nat (length bs))) (store_at a off bs) = take (Z.to_nat off) a ++ bs.
Proof.
  intros ??. unfold store_at. rewrite app_assoc. apply take_app_length'. rewrite length_app, length_take. lia.
Qed.

(** What [expand] does: the error when the limit is exceeded, else room for the bytes. *)
Lemma expand_spec p n :
  packer_ok p → 0 ≤ n →
  let p' := expand p n in
  packer_ok p' ∧ MaxSize p' = MaxSize p ∧ Offset p' = Offset p
  ∧ len p ≤ len p' ≤ Z.max (len p) (MaxSize p)
  ∧ take (Z.to_nat (len p)) (array p') = contents p
  ∧ if (n + Offset p <=? len p) || (n + Offset p <=? MaxSize p)
    then Err_ p' = Err_ p ∧ len p' = Z.max (len p) (n + Offset p)
    else Err_ p' = Some ErrInsufficientLength.
Proof.
  intros [Ho [Hl Hc]] Hn p'. unfold p', expand, contents, cap in *. rewrite Z.gtb_ltb.
  destruct (Z.leb_spec (n + Offset p) (len p)) as [E1|E1]; simpl.
  { split_and!; try done; lia. }
  destruct (Z.ltb_spec (MaxSize p) (n + Offset p)), (Z.leb_spec (n + Offset p) (MaxSize p)); try lia; simpl.
  { split_and!; try done; lia. }
  destruct (Z.leb_spec (n + Offset p) (Z.of_nat (length (array p)))); simpl.
  - split_and!; try done; try lia. split; unfold cap; simpl; lia.
  - split_and!; try done; try lia.
    + split; unfold cap; simpl; [lia|]. rewrite !length_app, !length_replicate. lia.
    + rewrite take_app_le by lia. done.
Qed.

Lemma Errored_true p : Errored p = true ↔ ∃ e, Err_ p = Some e.
Proof. unfold Errored. destruct (Err_ p); naive_solver. Qed.

Lemma Errored_false p : Errored p = false ↔ Err_ p = None.
Proof. unfold Errored. destruct (Err_ p); naive_solver. Qed.

(** ** Writing *)

(** Every write succeeds without a panic, keeps the packer well formed and its errors, and
    never makes it longer than the limit. *)
Definition grows (p p' : Packer) : Prop :=
  packer_ok p' ∧ MaxSize p' = MaxSize p ∧ len p ≤ len p' ≤ Z.max (len p) (MaxSize p)
  ∧ (Errored p = true → Errored p' = true).

Lemma grows_refl p : packer_ok p → grows p p.
Proof. intros H. repeat split; try apply H; (done || lia). Qed.

Lemma grows_trans p q r : grows p q → grows q r → grows p r.
Proof. intros (?&E1&?&?) (?&E2&?&?). rewrite E1 in *. repeat split; try (done || lia || congruence || apply H2); auto. Qed.

Lemma pack_raw_grows p bs : packer_ok p → ∃ p', pack_raw p bs = Some p' ∧ grows p p'.
Proof.
  intros Hok. destruct (expand_spec p (Z.of_nat (length bs)) Hok ltac:(lia)) as (Hok' & EM & EO & Hl & _ & Hc).
  unfold pack_raw. set (p' := expand p (Z.of_nat (length bs))) in *.
  destruct (Errored p') eqn:Her.
  - eexists. split; [done|]. repeat split; try apply Hok'; (done || lia).
  - destruct (_ || _) eqn:Hc' in Hc; [|by rewrite Errored_false in Her; rewrite Hc in Her].
    destruct Hc as [Hc EL]. destruct Hok as [Ho ?], Hok' as [Ho' Hl']. rewrite EO, EL in *.
    rewrite (proj2 (Z.ltb_ge _ _)) by lia. rewrite (proj2 (Z.ltb_ge _ _)) by lia. simpl.
    eexists. split; [done|]. unfold cap in *.
    repeat split; simpl; try (done || lia).
    + unfold cap. simpl. rewrite length_store_at; lia.
    + rewrite Errored_true, Errored_false, <- Hc in *. intros [e He]. congruence.
Qed.

(** A write at the end of the contents appends, or fails when the limit is exceeded. *)
Lemma pack_raw_append p bs :
  packer_ok p → Err_ p = None → Offset p = len p → bs ≠ [] ∨ len p ≤ MaxSize p →
  ∃ p', pack_raw p bs = Some p' ∧
    if len p + Z.of_nat (length bs) <=? MaxSize p
    then packer_ok p' ∧ Err_ p' = None ∧ Offset p' = len p' ∧ MaxSize p' = MaxSize p
         ∧ contents p' = contents p ++ bs
    else Err_ p' = Some ErrInsufficientLength.
Proof.
  intros Hok He Eo Hne. assert (0 < Z.of_nat (length bs) ∨ bs = []) as Hbs by (destruct bs; simpl; [auto|lia]).
  destruct (expand_spec p (Z.of_nat (length bs)) Hok ltac:(lia)) as (Hok' & EM & EO & Hl & Et & Hc).
  unfold pack_raw. set (p' := expand p (Z.of_nat (length bs))) in *. rewrite (Z.add_comm (len p)), Eo in *.
  destruct (Z.leb_spec (Z.of_nat (length bs) + len p) (MaxSize p)) as [Hm|Hm].
  - rewrite orb_true_r in Hc. destruct Hc as [Hc EL]. rewrite (proj2 (Errored_false _)) by congruence.
    destruct Hok as [Ho ?], Hok' as [Ho' Hl']. rewrite EO in *. rewrite EL.
    rewrite (proj2 (Z.ltb_ge _ _)) by lia. rewrite (proj2 (Z.ltb_ge _ _)) by lia. simpl.
    eexists. split; [done|]. unfold cap, contents in *. rewrite Z.max_r by lia.
    split_and!; simpl; try (done || lia || congruence).
    + split; unfold cap; simpl; [lia|]. rewrite length_store_at; lia.
    + rewrite Z.add_comm, take_store_at, Et by lia. done.
  - rewrite (proj2 (Z.leb_gt _ _)) in Hc; [|destruct Hbs as [Hbs|Hbs], Hne; subst; simpl in *; try done; lia].
    simpl in Hc. rewrite (proj2 (Errored_true _)) by eauto. eexists. eauto.
Qed.

Lemma pack_raw_failed p bs :
  Err_ p = Some ErrInsufficientLength → ∃ p', pack_raw p bs = Some p' ∧ Err_ p' = Some ErrInsufficientLength.
Proof.
  intros He. assert (Err_ (expand p (Z.of_nat (length bs))) = Some ErrInsufficientLength) as He'
    by (unfold expand; repeat case_match; simpl; done).
  unfold pack_raw. rewrite (proj2 (Errored_true _)) by eauto. eauto.
Qed.

(** ** Reading *)

Definition advance (p : Packer) (n : Z) : Packer :=
  mkPacker (Err_ p) (MaxSize p) (array p) (len p) (Offset p + n).

(** A reader is a packer over a slice of received bytes. *)
Definition reader (bs : list Z) : Packer := mkPacker None 0 bs (Z.of_nat (length bs)) 0.

(** [p] reads from the slice of [q]: only the offset and the error differ. *)
Definition same_slice (p q : Packer) : Prop :=
  array q = array p ∧ len q = len p ∧ MaxSize q = MaxSize p.

Lemma same_slice_contents p q : same_slice p q → contents q = contents p.
Proof. intros (E1 & E2 & _). unfold contents. by rewrite E1, E2. Qed.

Lemma same_slice_trans p q r : same_slice p q → same_slice q r → same_slice p r.
Proof. unfold same_slice. intuition congruence. Qed.

Lemma add_error_spec p e :
  Errored (add_error p e) = true ∧ same_slice p (add_error p e) ∧ Offset (add_error p e) = Offset p.
Proof. unfold add_error, Errored, same_slice. destruct (Err_ p) eqn:E; simpl; rewrite ?E; auto. Qed.

(** Reading the bytes at the offset. *)
Lemma unpack_raw_at p pre bs post :
  0 ≤ len p ≤ cap p → Err_ p = None → contents p = pre ++ bs ++ post → Offset p = Z.of_nat (length pre) →
  unpack_raw p (Z.of_nat (length bs)) = Some (bs, advance p (Z.of_nat (length bs))).
Proof.
  unfold contents, cap. intros [Hl Hc] He Ec Eo.
  assert (len p = Z.of_nat (length pre + length bs + length post)) as El.
  { apply (f_equal length) in Ec. rewrite length_take, !length_app in Ec. lia. }
  unfold unpack_raw, checkSpace. rewrite Eo. rewrite !(proj2 (Z.ltb_ge _ _)) by lia.
  rewrite (proj2 (Errored_false _)) by done. rewrite Eo. simpl.
  do 3 f_equal; [|unfold advance; by rewrite Eo].
  rewrite <- (take_drop (Z.to_nat (len p)) (array p)), Ec, <- !app_assoc, !Nat2Z.id, drop_app_length.
  apply take_app_length.
Qed.

(** Reading any number of bytes from anywhere. *)
Lemma unpack_raw_total p n :
  0 ≤ len p ≤ cap p →
  ∃ bs p', unpack_raw p n = Some (bs, p') ∧ same_slice p p' ∧ (0 ≤ Offset p → 0 ≤ Offset p')
  ∧ (Errored p = true → bs = [] ∧ Errored p' = true)
  ∧ (Errored p' = false → 0 ≤ Offset p ∧ Z.of_nat (length bs) = n ∧ p' = advance p n
     ∧ ∃ post, drop (Z.to_nat (Offset p)) (contents p) = bs ++ post).
Proof.
  intros [Hl Hc]. unfold cap in Hc. unfold unpack_raw, checkSpace.
  destruct (Z.ltb_spec (Offset p) 0); [|destruct (Z.ltb_spec n 0); [|destruct (Z.ltb_spec (len p - Offset p) n)]].
  1-3: match goal with |- context [add_error ?q ?e] => destruct (add_error_spec q e) as (E1 & E2 & E3) end;
    rewrite E1; do 2 eexists; (split; [done|]); split_and!; try done; congruence.
  destruct (Errored p) eqn:He.
  { do 2 eexists. split; [done|]. split_and!; try done. rewrite He. done. }
  rewrite !(proj2 (Z.ltb_ge _ _)) by lia. simpl. do 2 eexists. split; [done|]. split_and!; try done; simpl; try lia.
  intros _. split_and!; try done.
  - rewrite length_take, length_drop. lia.
  - exists (drop (Z.to_nat n) (drop (Z.to_nat (Offset p)) (contents p))). unfold contents.
    rewrite <- (take_drop (Z.to_nat n) (drop _ (take _ _))) at 1. f_equal.
    rewrite <- (take_drop (Z.to_nat (len p)) (array p)) at 2. rewrite drop_app_le by (rewrite length_take; lia).
    rewrite take_app_le; [done|]. rewrite length_drop, length_take. lia.
Qed.

(** ** Fields

    The values that messages are made of, what each is written as, and the calls that write
    and read them. *)

Inductive field :=
  | FByte (v : Z) | FShort (v : Z) | FInt (v : Z) | FLong (v : Z) | FBool (b : bool)
  | FFixed (bs : list Z) | FBytes (bs : list Z) | FStr (bs : list Z).

Inductive shape :=
  | SByte | SShort | SInt | SLong | SBool
  | SFixed (size : Z) | SBytes | SLimitedBytes (limit : Z) | SStr | SLimitedStr (limit : Z).

Definition pack_field (p : Packer) (f : field) : option Packer :=
  match f with
  | FByte v => PackByte p v | FShort v => PackShort p v | FInt v => PackInt p v | FLong v => PackLong p v
  | FBool b => PackBool p b | FFixed bs => PackFixedBytes p bs | FBytes bs => PackBytes p bs
  | FStr bs => PackStr p bs
  end.

Definition unpack_field (p : Packer) (s : shape) : option (field * Packer) :=
  match s with
  | SByte => '(v, p) ← UnpackByte p; Some (FByte v, p)
  | SShort => '(v, p) ← UnpackShort p; Some (FShort v, p)
  | SInt => '(v, p) ← UnpackInt p; Some (FInt v, p)
  | SLong => '(v, p) ← UnpackLong p; Some (FLong v, p)
  | SBool => '(b, p) ← UnpackBool p; Some (FBool b, p)
  | SFixed n => '(bs, p) ← UnpackFixedBytes p n; Some (FFixed bs, p)
  | SBytes => '(bs, p) ← UnpackBytes p; Some (FBytes bs, p)
  | SLimitedBytes n => '(bs, p) ← UnpackLimitedBytes p n; Some (FBytes bs, p)
  | SStr => '(bs, p) ← UnpackStr p; Some (FStr bs, p)
  | SLimitedStr n => '(bs, p) ← UnpackLimitedStr p n; Some (FStr bs, p)
  end.

Definition field_ok (f : field) : Prop :=
  match f with
  | FByte v => 0 ≤ v < 256 ^ 1 | FShort v => 0 ≤ v < 256 ^ 2 | FInt v => 0 ≤ v < 256 ^ 4
  | FLong v => 0 ≤ v < 256 ^ 8 | FBool b => True | FFixed bs => bytes_ok bs
  | FBytes bs => bytes_ok bs ∧ Z.of_nat (length bs) < 256 ^ 4
  | FStr bs => bytes_ok bs ∧ Z.of_nat (length bs) ≤ MaxStringLen
  end.

Definition has_shape (f : field) (s : shape) : Prop :=
  match f, s with
  | FByte _, SByte | FShort _, SShort | FInt _, SInt | FLong _, SLong | FBool _, SBool
  | FBytes _, SBytes | FStr _, SStr => True
  | FFixed bs, SFixed n => Z.of_nat (length bs) = n
  | FBytes bs, SLimitedBytes n | FStr bs, SLimitedStr n => Z.of_nat (length bs) ≤ n
  | _, _ => False
  end.

(** The writes of a field. *)
Definition chunks (f : field) : list (list Z) :=
  match f with
  | FByte v => [[v]] | FShort v => [be_bytes 2 v] | FInt v => [be_bytes 4 v] | FLong v => [be_bytes 8 v]
  | FBool b => [[if b then 1 else 0]] | FFixed bs => [bs]
  | FBytes bs => [be_bytes 4 (Z.of_nat (length bs)); bs]
  | FStr bs => [be_bytes 2 (Z.of_nat (length bs)); bs]
  end.

Definition encode (fs : list field) : list Z := concat (concat (chunks <$> fs)).

Fixpoint pack_fields (p : Packer) (fs : list field) : option Packer :=
  match fs with
  | [] => Some p
  | f :: fs => p ← pack_field p f; pack_fields p fs
  end.

Fixpoint unpack_fields (p : Packer) (ss : list shape) : option (list field * Packer) :=
  match ss with
  | [] => Some ([], p)
  | s :: ss =>
    '(f, p) ← unpack_field p s;
    '(fs, p) ← unpack_fields p ss;
    Some (f :: fs, p)
  end.

Fixpoint pack_chunks (p : Packer) (cs : list (list Z)) : option Packer :=
  match cs with
  | [] => Some p
  | c :: cs => p ← pack_raw p c; pack_chunks p cs
  end.

Lemma pack_chunks_app p cs ds : pack_chunks p (cs ++ ds) = (p ← pack_chunks p cs; pack_chunks p ds).
Proof. revert p. induction cs as [|c cs IH]; intros p; [done|]. simpl. destruct (pack_raw p c); simpl; auto. Qed.

Lemma pack_chunks_one p c : pack_chunks p [c] = pack_raw p c.
Proof. simpl. by destruct (pack_raw p c). Qed.

Lemma pack_field_chunks p f : field_ok f → pack_field p f = pack_chunks p (chunks f).
Proof.
  destruct f as [v|v|v|v|b|bs|bs|bs]; simpl pack_field; unfold chunks; intros H; rewrite ?pack_chunks_one; try done.
  - by destruct b.
  - unfold PackBytes, PackInt, PackFixedBytes, u32. simpl in H. rewrite Z.mod_small by lia.
    simpl. destruct (pack_raw p _) as [p'|]; simpl; [|done]. by destruct (pack_raw p' bs).
  - unfold PackStr, PackShort, PackFixedBytes, u16. simpl in H. unfold MaxStringLen in *. rewrite Z.gtb_ltb.
    rewrite (proj2 (Z.ltb_ge _ _)) by lia. rewrite Z.mod_small by lia.
    simpl. destruct (pack_raw p _) as [p'|]; simpl; [|done]. by destruct (pack_raw p' bs).
Qed.

Lemma pack_fields_chunks p fs : Forall field_ok fs → pack_fields p fs = pack_chunks p (concat (chunks <$> fs)).
Proof.
  intros H. revert p. induction H as [|f fs Hf _ IH]; intros p; [done|]. simpl.
  rewrite pack_chunks_app, pack_field_chunks by done. destruct (pack_chunks p (chunks f)); simpl; auto.
Qed.

Lemma pack_chunks_failed p cs :
  Err_ p = Some ErrInsufficientLength → ∃ p', pack_chunks p cs = Some p' ∧ Err_ p' = Some ErrInsufficientLength.
Proof.
  revert p. induction cs as [|c cs IH]; intros p He; simpl; [eauto|].
  destruct (pack_raw_failed p c He) as (p' & -> & He'). simpl. auto.
Qed.

Lemma pack_chunks_append p cs :
  packer_ok p → Err_ p = None → Offset p = len p → len p ≤ MaxSize p →
  ∃ p', pack_chunks p cs = Some p' ∧
    if len p + Z.of_nat (length (concat cs)) <=? MaxSize p
    then Err_ p' = None ∧ contents p' = contents p ++ concat cs
    else Err_ p' = Some ErrInsufficientLength.
Proof.
  revert p. induction cs as [|c cs IH]; intros p Hok He Eo Hm; simpl.
  { rewrite (proj2 (Z.leb_le _ _)) by lia. rewrite app_nil_r. eauto. }
  destruct (pack_raw_append p c Hok He Eo ltac:(auto)) as (p' & -> & Hp'). simpl. rewrite length_app, Nat2Z.inj_add.
  destruct (Z.leb_spec (len p + Z.of_nat (length c)) (MaxSize p)).
  - destruct Hp' as (Hok' & He' & Eo' & EM & EC).
    assert (len p' = len p + Z.of_nat (length c)) as EL.
    { apply (f_equal length) in EC. destruct Hok as [_ ?], Hok' as [_ ?].
      unfold contents, cap in *. rewrite length_app, !length_take in EC. lia. }
    destruct (IH p' Hok' He' Eo' ltac:(lia)) as (q & Eq & Hq). exists q. split; [done|].
    rewrite EL, EM, EC, <- Z.add_assoc in Hq. by rewrite app_assoc.
  - rewrite (proj2 (Z.leb_gt _ _)) by lia. by apply pack_chunks_failed.
Qed.

(** ** Decoding what was encoded *)

Lemma unpack_number_at p pre n k v post :
  k = Z.of_nat n → 0 ≤ len p ≤ cap p → Err_ p = None → 0 ≤ v < 256 ^ k →
  contents p = pre ++ be_bytes n v ++ post → Offset p = Z.of_nat (length pre) →
  unpack_number p k = Some (v, advance p k).
Proof.
  intros -> Hl He Hv Ec Eo. pose proof (unpack_raw_at p pre (be_bytes n v) post Hl He Ec Eo) as E.
  rewrite length_be_bytes in E. unfold unpack_number. rewrite E. simpl. by rewrite be_value_bytes.
Qed.

Lemma unpack_prefixed_at p pre n bs post :
  0 ≤ len p ≤ cap p → Err_ p = None → Z.of_nat (length bs) < 256 ^ Z.of_nat n →
  contents p = pre ++ (be_bytes n (Z.of_nat (length bs)) ++ bs) ++ post → Offset p = Z.of_nat (length pre) →
  unpack_number p (Z.of_nat n) = Some (Z.of_nat (length bs), advance p (Z.of_nat n))
  ∧ unpack_raw (advance p (Z.of_nat n)) (Z.of_nat (length bs)) = Some (bs, advance p (Z.of_nat (n + length bs))).
Proof.
  intros Hl He Hb Ec Eo. split.
  - rewrite <- app_assoc in Ec. apply (unpack_number_at p pre n _ _ (bs ++ post)); try done. lia.
  - rewrite (unpack_raw_at _ (pre ++ be_bytes n (Z.of_nat (length bs))) bs post); try done.
    + unfold advance. simpl. do 3 f_equal. lia.
    + unfold contents in *. simpl. by rewrite Ec, <- !app_assoc.
    + simpl. rewrite length_app, length_be_bytes, Eo. lia.
Qed.

Lemma encode_cons f fs : encode (f :: fs) = encode [f] ++ encode fs.
Proof. unfold encode. simpl. by rewrite app_nil_r, concat_app. Qed.

Lemma unpack_field_at p pre f s post :
  0 ≤ len p ≤ cap p → Err_ p = None → field_ok f → has_shape f s →
  contents p = pre ++ encode [f] ++ post → Offset p = Z.of_nat (length pre) →
  unpack_field p s = Some (f, advance p (Z.of_nat (length (encode [f])))).
Proof.
  intros Hl He Hok Hs. unfold encode. simpl. rewrite app_nil_r.
  destruct f as [v|v|v|v|b|bs|bs|bs], s; simpl in Hs; try done; simpl concat; rewrite ?app_nil_r; intros Ec Eo;
    simpl unpack_field; rewrite ?length_app, ?length_be_bytes.
  1: { simpl in Hok. unfold UnpackByte. rewrite (unpack_number_at p pre 1 1 v post); try done. simpl be_bytes.
       by rewrite Z.mod_small by lia. }
  1: unfold UnpackShort; rewrite (unpack_number_at p pre 2 2 v post); done.
  1: unfold UnpackInt; rewrite (unpack_number_at p pre 4 4 v post); done.
  1: unfold UnpackLong; rewrite (unpack_number_at p pre 8 8 v post); done.
  1: { unfold UnpackBool, UnpackByte.
       rewrite (unpack_number_at p pre 1 1 (if b then 1 else 0) post); try done; by destruct b. }
  1: { unfold UnpackFixedBytes. subst size. by rewrite (unpack_raw_at p pre bs post). }
  1-2: destruct Hok as [_ Hlen]; destruct (unpack_prefixed_at p pre 4 bs post) as [E1 E2]; try done;
    unfold UnpackBytes, UnpackLimitedBytes, UnpackInt, UnpackFixedBytes;
    change (Z.of_nat 4) with 4 in *; rewrite E1; simpl.
  3-4: destruct Hok as [_ Hlen]; unfold MaxStringLen in Hlen; destruct (unpack_prefixed_at p pre 2 bs post) as [E1 E2];
    try done; try lia; unfold UnpackStr, UnpackLimitedStr, UnpackShort, UnpackFixedBytes;
    change (Z.of_nat 2) with 2 in *; rewrite E1; simpl.
  all: rewrite ?Z.gtb_ltb, ?(proj2 (Z.ltb_ge _ _)) by lia; by rewrite E2.
Qed.

Lemma unpack_fields_at p pre fs ss post :
  0 ≤ len p ≤ cap p → Err_ p = None → Forall field_ok fs → Forall2 has_shape fs ss →
  contents p = pre ++ encode fs ++ post → Offset p = Z.of_nat (length pre) →
  unpack_fields p ss = Some (fs, advance p (Z.of_nat (length (encode fs)))).
Proof.
  intros Hl He Hok Hs. revert p pre Hl He Hok. induction Hs as [|f s fs ss Hf _ IH]; intros p pre Hl He Hok Ec Eo; simpl.
  { unfold encode, advance. simpl. destruct p. simpl. by rewrite Z.add_0_r. }
  inversion_clear Hok. rewrite encode_cons, <- app_assoc in Ec.
  rewrite (unpack_field_at p pre f s (encode fs ++ post)) by done. simpl.
  rewrite (IH _ (pre ++ encode [f])); try done.
  - simpl. rewrite (encode_cons f fs), length_app. unfold advance. simpl. do 3 f_equal. lia.
  - unfold contents in *. simpl. by rewrite Ec, <- app_assoc.
  - simpl. rewrite length_app, Eo. lia.
Qed.

(** ** Decoding received bytes *)

(** The outcome [p'] of reading at [p] what is written as [enc]: the slice is not changed, an
    error stays, and without an error the bytes at the offset are [enc]. *)
Record consumed (p : Packer) (enc : list Z) (ok : Prop) (p' : Packer) : Prop := {
  consumed_slice : same_slice p p';
  consumed_offset : 0 ≤ Offset p → 0 ≤ Offset p';
  consumed_error : Errored p = true → Errored p' = true;
  consumed_bytes : bytes_ok (contents p) → Errored p' = false →
    ok ∧ 0 ≤ Offset p ∧ Offset p' = Offset p + Z.of_nat (length enc)
    ∧ ∃ post, drop (Z.to_nat (Offset p)) (contents p) = enc ++ post;
}.

Lemma consumed_weaken p enc enc' (ok ok' : Prop) p' :
  consumed p enc ok p' → (ok → enc = enc' ∧ ok') → consumed p enc' ok' p'.
Proof.
  intros [H1 H2 H3 H4] He. split; try done. intros Hb Hp'. destruct (H4 Hb Hp') as (Hok & H).
  by destruct (He Hok) as [<- ?].
Qed.

Lemma consumed_trans p enc ok q enc' ok' r :
  consumed p enc ok q → consumed q enc' ok' r → consumed p (enc ++ enc') (ok ∧ ok') r.
Proof.
  intros [S1 O1 R1 B1] [S2 O2 R2 B2]. pose proof (same_slice_contents _ _ S1) as EC.
  split; [by eapply same_slice_trans|auto|auto|]. intros Hb Hr.
  assert (Errored q = false) as Hq by (destruct (Errored q); [rewrite R2 in Hr by done; done|done]).
  destruct (B1 Hb Hq) as (Ho1 & Hp & E1 & post1 & D1).
  destruct B2 as (Ho2 & _ & E2 & post2 & D2); [by rewrite EC|done|]. rewrite EC in D2.
  split_and!; try done; [rewrite length_app; lia|]. exists post2.
  rewrite D1, <- app_assoc. f_equal. rewrite E1, Z2Nat.inj_add, Nat2Z.id, <- drop_drop, D1, drop_app_length in D2 by lia.
  done.
Qed.

Lemma consumed_add_error p enc ok p' e enc' ok' : consumed p enc ok p' → consumed p enc' ok' (add_error p' e).
Proof.
  destruct (add_error_spec p' e) as (E1 & E2 & E3). intros [S1 O1 R1 B1].
  split; [by eapply same_slice_trans|rewrite E3; auto|by rewrite E1|congruence].
Qed.

Lemma consumed_nil p : 0 ≤ Offset p → consumed p [] True p.
Proof. intros. split; try done. intros _ _. simpl. split_and!; try (done || lia). eauto. Qed.

Lemma bytes_ok_drop bs n enc post : bytes_ok bs → drop n bs = enc ++ post → bytes_ok enc.
Proof. intros Hb E. apply (Forall_drop _ n) in Hb. rewrite E in Hb. by apply Forall_app in Hb as [? _]. Qed.

Lemma unpack_raw_consumed p n :
  0 ≤ len p ≤ cap p →
  ∃ bs p', unpack_raw p n = Some (bs, p') ∧ consumed p bs (bytes_ok bs ∧ Z.of_nat (length bs) = n) p'.
Proof.
  intros Hl. destruct (unpack_raw_total p n Hl) as (bs & p' & E & S & O & R & B).
  do 2 eexists. split; [done|]. split; [done|done|naive_solver|]. intros Hb Hp'.
  destruct (B Hp') as (? & En & -> & post & D). rewrite En. split_and!; eauto using bytes_ok_drop.
Qed.

Lemma unpack_number_consumed p n k :
  k = Z.of_nat n → 0 ≤ len p ≤ cap p →
  ∃ v p', unpack_number p k = Some (v, p') ∧ consumed p (be_bytes n v) (0 ≤ v < 256 ^ k) p'.
Proof.
  intros -> Hl. destruct (unpack_raw_consumed p (Z.of_nat n) Hl) as (bs & p' & E & C).
  unfold unpack_number. rewrite E. do 2 eexists. split; [done|]. eapply consumed_weaken; [done|].
  intros [Hb En]. pose proof (be_value_bound bs Hb) as Hv. rewrite En in Hv. apply Nat2Z.inj in En as <-.
  by rewrite be_bytes_value.
Qed.

Lemma unpack_prefixed_consumed p n k :
  k = Z.of_nat n → 0 ≤ len p ≤ cap p →
  ∃ v q bs p', unpack_number p k = Some (v, q) ∧ unpack_raw q v = Some (bs, p')
  ∧ consumed p (be_bytes n v) (0 ≤ v < 256 ^ k) q
  ∧ consumed p (be_bytes n (Z.of_nat (length bs)) ++ bs)
      (bytes_ok bs ∧ Z.of_nat (length bs) < 256 ^ k ∧ Z.of_nat (length bs) = v) p'.
Proof.
  intros Ek Hl. destruct (unpack_number_consumed p n k Ek Hl) as (v & q & E1 & C1).
  destruct (unpack_raw_consumed q v) as (bs & p' & E2 & C2).
  { unfold cap in *. destruct (consumed_slice _ _ _ _ C1) as (-> & -> & _). done. }
  exists v, q, bs, p'. split_and!; try done.
  eapply consumed_weaken; [by eapply consumed_trans|]. intros [? [? <-]]. split_and!; (done || lia).
Qed.

(** The number fields have one shape. *)
Lemma unpack_number_field p n k (F : Z → field) s :
  k = Z.of_nat n → 0 ≤ len p ≤ cap p →
  (∀ v, 0 ≤ v < 256 ^ k → encode [F v] = be_bytes n v ∧ field_ok (F v) ∧ has_shape (F v) s) →
  ∃ f p', ('(v, p) ← unpack_number p k; Some (F v, p)) = Some (f, p')
    ∧ consumed p (encode [f]) (field_ok f ∧ has_shape f s) p'.
Proof.
  intros Ek Hl HF. destruct (unpack_number_consumed p n k Ek Hl) as (v & p' & -> & C). simpl.
  do 2 eexists. split; [done|]. eapply consumed_weaken; [exact C|]. intros Hv. destruct (HF v Hv) as (-> & ?). done.
Qed.

Lemma encode_one f : encode [f] = concat (chunks f).
Proof. unfold encode. simpl. by rewrite app_nil_r. Qed.

Lemma unpack_bool_consumed p :
  0 ≤ len p ≤ cap p → ∃ b p', UnpackBool p = Some (b, p') ∧ consumed p (encode [FBool b]) True p'.
Proof.
  intros Hl. unfold UnpackBool, UnpackByte.
  destruct (unpack_number_consumed p 1 1 eq_refl Hl) as (v & p' & -> & C). simpl.
  destruct (Z.eqb_spec v 0) as [->|]; [|destruct (Z.eqb_spec v 1) as [->|]];
    do 2 eexists; (split; [done|]); [by eapply consumed_weaken|by eapply consumed_weaken|by eapply consumed_add_error].
Qed.

Lemma unpack_field_consumed p s :
  0 ≤ len p ≤ cap p →
  ∃ f p', unpack_field p s = Some (f, p') ∧ consumed p (encode [f]) (field_ok f ∧ has_shape f s) p'.
Proof.
  intros Hl. destruct s as [| | | | |size| |limit| |limit]; simpl unpack_field.
  - apply (unpack_number_field p 1 1 FByte SByte); try done. intros v Hv. split_and!; try done. rewrite encode_one.
    simpl. by rewrite Z.mod_small by lia.
  - apply (unpack_number_field p 2 2 FShort SShort); done.
  - apply (unpack_number_field p 4 4 FInt SInt); done.
  - apply (unpack_number_field p 8 8 FLong SLong); done.
  - destruct (unpack_bool_consumed p Hl) as (b & p' & -> & C). do 2 eexists. split; [done|]. by eapply consumed_weaken.
  - unfold UnpackFixedBytes. destruct (unpack_raw_consumed p size Hl) as (bs & p' & -> & C).
    do 2 eexists. split; [done|]. eapply consumed_weaken; [done|]. intros [? ?]. rewrite encode_one. simpl.
    by rewrite app_nil_r.
  - unfold UnpackBytes, UnpackInt, UnpackFixedBytes.
    destruct (unpack_prefixed_consumed p 4 4 eq_refl Hl) as (v & q & bs & p' & -> & E & _ & C). simpl. rewrite E. simpl.
    do 2 eexists. split; [done|]. eapply consumed_weaken; [done|]. intros (? & ? & ?). rewrite encode_one. simpl.
    by rewrite app_nil_r.
  - unfold UnpackLimitedBytes, UnpackInt, UnpackFixedBytes.
    destruct (unpack_prefixed_consumed p 4 4 eq_refl Hl) as (v & q & bs & p' & -> & E & C' & C). simpl.
    rewrite Z.gtb_ltb. destruct (Z.ltb_spec limit v); [|rewrite E]; simpl;
      do 2 eexists; (split; [done|]); [by eapply consumed_add_error|].
    eapply consumed_weaken; [done|]. intros (? & ? & ?). rewrite encode_one. simpl. rewrite app_nil_r. split_and!; (done || lia).
  - unfold UnpackStr, UnpackShort, UnpackFixedBytes.
    destruct (unpack_prefixed_consumed p 2 2 eq_refl Hl) as (v & q & bs & p' & -> & E & _ & C). simpl. rewrite E. simpl.
    do 2 eexists. split; [done|]. eapply consumed_weaken; [done|]. intros (? & ? & ?). rewrite encode_one. simpl.
    rewrite app_nil_r. unfold MaxStringLen. split_and!; (done || lia).
  - unfold UnpackLimitedStr, UnpackShort, UnpackFixedBytes.
    destruct (unpack_prefixed_consumed p 2 2 eq_refl Hl) as (v & q & bs & p' & -> & E & C' & C). simpl.
    rewrite Z.gtb_ltb. destruct (Z.ltb_spec limit v); [|rewrite E]; simpl;
      do 2 eexists; (split; [done|]); [by eapply consumed_add_error|].
    eapply consumed_weaken; [done|]. intros (? & ? & ?). rewrite encode_one. simpl. rewrite app_nil_r.
    unfold MaxStringLen. split_and!; (done || lia).
Qed.

Lemma same_slice_ok p q : same_slice p q → 0 ≤ len p ≤ cap p → 0 ≤ len q ≤ cap q.
Proof. unfold cap. by intros (-> & -> & _). Qed.

Lemma unpack_fields_consumed p ss :
  0 ≤ len p ≤ cap p → 0 ≤ Offset p →
  ∃ fs p', unpack_fields p ss = Some (fs, p')
  ∧ consumed p (encode fs) (Forall field_ok fs ∧ Forall2 has_shape fs ss) p'.
Proof.
  revert p. induction ss as [|s ss IH]; intros p Hl Ho; simpl.
  { do 2 eexists. split; [done|]. eapply consumed_weaken; [by apply consumed_nil|]. done. }
  destruct (unpack_field_consumed p s Hl) as (f & q & -> & C). simpl.
  destruct (IH q) as (fs & r & -> & C'); [by eapply same_slice_ok; [apply C|]|by apply C|]. simpl.
  do 2 eexists. split; [done|]. eapply consumed_weaken; [by eapply consumed_trans|].
  intros [[? ?] [? ?]]. rewrite (encode_cons f fs). auto.
Qed.

(** ** Any sequence of calls *)

Inductive packer_op := OPack (f : field) | OUnpack (s : shape).

Fixpoint run_ops (p : Packer) (ops : list packer_op) : option Packer :=
  match ops with
  | [] => Some p
  | OPack f :: ops => p ← pack_field p f; run_ops p ops
  | OUnpack s :: ops => '(_, p) ← unpack_field p s; run_ops p ops
  end.

Lemma consumed_grows p enc ok p' : packer_ok p → consumed p enc ok p' → grows p p'.
Proof.
  intros [Ho Hl] [S O R _]. pose proof (same_slice_ok _ _ S Hl) as Hl'. destruct S as (E1 & E2 & E3).
  split_and!; try done; try lia. split; auto.
Qed.

Lemma add_error_grows p e : packer_ok p → grows p (add_error p e).
Proof. intros H. eapply (consumed_grows _ [] True), (consumed_add_error _ [] True); [done|]. apply consumed_nil, H. Qed.

Lemma pack_two_grows p bs bs' :
  packer_ok p → ∃ p', (p ← pack_raw p bs; pack_raw p bs') = Some p' ∧ grows p p'.
Proof.
  intros Hok. destruct (pack_raw_grows p bs Hok) as (q & -> & G). simpl.
  destruct (pack_raw_grows q bs') as (r & -> & G'); [apply G|]. eauto using grows_trans.
Qed.

Lemma pack_field_grows p f : packer_ok p → ∃ p', pack_field p f = Some p' ∧ grows p p'.
Proof.
  intros Hok. destruct f as [v|v|v|v|b|bs|bs|bs]; simpl; try by apply pack_raw_grows.
  - destruct b; by apply pack_raw_grows.
  - by apply pack_two_grows.
  - unfold PackStr. case_match; [eauto using add_error_grows|]. by apply pack_two_grows.
Qed.

Lemma run_ops_grows p ops : packer_ok p → ∃ p', run_ops p ops = Some p' ∧ grows p p'.
Proof.
  revert p. induction ops as [|[f|s] ops IH]; intros p Hok; simpl; [eauto using grows_refl| |].
  - destruct (pack_field_grows p f Hok) as (q & -> & G). simpl.
    destruct (IH q) as (r & -> & G'); [apply G|]. eauto using grows_trans.
  - destruct (unpack_field_consumed p s (ok_len p Hok)) as (f & q & -> & C). simpl.
    apply consumed_grows in C; [|done]. destruct (IH q) as (r & -> & G'); [apply C|]. eauto using grows_trans.
Qed.

(** ** Properties *)

(** Writing fields to an empty packer never panics: when the encoding fits in [MaxSize]
    bytes the packer holds it and reading it back, with the shapes of the fields, returns the
    fields and consumes every byte; otherwise the packer has [ErrInsufficientLength]. *)
Theorem packer_roundtrip maxSize fs ss :
  0 ≤ maxSize → Forall field_ok fs → Forall2 has_shape fs ss →
  ∃ p, pack_fields (mkPacker None maxSize [] 0 0) fs = Some p ∧
    if Z.of_nat (length (encode fs)) <=? maxSize
    then Err_ p = None ∧ contents p = encode fs
      ∧ ∃ q, unpack_fields (reader (contents p)) ss = Some (fs, q) ∧ Err_ q = None
          ∧ Offset q = Z.of_nat (length (encode fs))
    else Err_ p = Some ErrInsufficientLength.
Proof.
  intros Hm Hok Hs. rewrite pack_fields_chunks by done.
  destruct (pack_chunks_append (mkPacker None maxSize [] 0 0) (concat (chunks <$> fs)))
    as (p & E & Hp); [split; unfold cap; simpl; lia|done|done|done|].
  exists p. split; [done|]. fold (encode fs) in Hp. simpl in Hp. destruct (_ <=? _); [|done].
  destruct Hp as [He Hc]. change (contents _ ++ encode fs) with (encode fs) in Hc. rewrite Hc. split_and!; try done.
  eexists. rewrite (unpack_fields_at _ [] fs ss []); try done.
  - unfold cap, reader. simpl. lia.
  - unfold contents, reader. simpl. rewrite app_nil_r. apply take_ge. lia.
Qed.

(** Reading received bytes never panics, and when it reports no error the bytes read are
    exactly the encoding of the fields returned: no two byte strings are read as the same
    fields. *)
Theorem unpack_canonical bs ss :
  bytes_ok bs →
  ∃ fs q, unpack_fields (reader bs) ss = Some (fs, q) ∧
    (Errored q = false →
      Forall field_ok fs ∧ Forall2 has_shape fs ss ∧ take (Z.to_nat (Offset q)) bs = encode fs).
Proof.
  intros Hb. destruct (unpack_fields_consumed (reader bs) ss) as (fs & q & E & C); [unfold cap; simpl; lia|done|].
  exists fs, q. split; [done|]. intros Hq. destruct C as [_ _ _ C].
  assert (contents (reader bs) = bs) as Ec by (unfold contents; simpl; apply take_ge; lia). rewrite Ec in C.
  destruct (C Hb Hq) as ((Hok & Hs) & _ & EO & post & D). split_and!; try done.
  simpl in D. change (Z.to_nat 0) with 0%nat in D. rewrite drop_0 in D. rewrite EO, D, Z.add_0_l, Nat2Z.id. apply take_app_length.
Qed.

(** No sequence of reads and writes, of any values, panics: the packer stays well formed,
    never grows past [MaxSize] and keeps an error once it has one. *)
Theorem packer_bounds p ops :
  packer_ok p →
  ∃ p', run_ops p ops = Some p' ∧ packer_ok p' ∧ len p ≤ len p' ≤ Z.max (len p) (MaxSize p)
    ∧ (Errored p = true → Errored p' = true).
Proof.
  intros Hok. destruct (run_ops_grows p ops Hok) as (p' & E & (? & _ & ? & ?)). eauto.
Qed.
End packer.

(** ** Witnesses *)

Definition sample_fields : list field := [FShort 513; FBool true; FStr [104; 105]; FBytes [7]].
Definition sample_shapes : list shape := [SShort; SBool; SStr; SLimitedBytes 4].

Lemma sample_fields_ok : Forall field_ok sample_fields.
Proof. unfold sample_fields, field_ok, bytes_ok, MaxStringLen. repeat constructor; simpl; lia. Qed.

Lemma sample_fields_shape : Forall2 has_shape sample_fields sample_shapes.
Proof. unfold sample_fields, sample_shapes. repeat constructor; simpl; lia. Qed.

Lemma packer_roundtrip_witness :
  encode sample_fields = [2; 1; 1; 0; 2; 104; 105; 0; 0; 0; 1; 7]
  ∧ ∃ p, pack_fields (λ _ _, 0%nat) (mkPacker None 12 [] 0 0) sample_fields = Some p ∧ Err_ p = None.
Proof.
  split; [reflexivity|].
  destruct (packer_roundtrip (λ _ _, 0%nat) 12 sample_fields sample_shapes ltac:(lia) sample_fields_ok sample_fields_shape)
    as (p & E & H). exists p. split; [exact E|]. simpl in H. apply H.
Defined.

Lemma unpack_canonical_witness :
  bytes_ok [2; 1; 5] ∧ ∃ fs q, unpack_fields (reader [2; 1; 5]) [SShort; SBool] = Some (fs, q) ∧ Errored q = true.
Proof.
  assert (bytes_ok [2; 1; 5]) as Hb by (unfold bytes_ok; repeat constructor; lia).
  split; [exact Hb|]. destruct (unpack_canonical [2; 1; 5] [SShort; SBool] Hb) as (fs & q & E & _).
  exists fs, q. split; [exact E|]. injection E as <- <-. reflexivity.
Defined.

Lemma packer_bounds_witness :
  ∃ p, run_ops (λ _ _, 0%nat) (mkPacker None 3 [] 0 0) [OPack (FShort 7); OPack (FInt 9); OUnpack SByte] = Some p
    ∧ len p ≤ 3.
Proof.
  destruct (packer_bounds (λ _ _, 0%nat) (mkPacker None 3 [] 0 0) [OPack (FShort 7); OPack (FInt 9); OUnpack SByte])
    as (p & E & _ & H & _); [split; unfold cap; simpl; lia|]. exists p. split; [exact E|]. simpl in H. lia.
Defined.
