(* ===== verification/Sampler.v ===== *)
(** * Random sampling

    Models [utils/sampler]: the unbiased draw from a range ([rand.go]), sampling without
    replacement ([uniform_replacer.go]), the lookup of a value in a table of weights
    ([weighted_heap.go], [weighted_linear.go], [weighted_uniform.go]) and their composition
    ([weighted_without_replacement_generic.go]), which picks the validators of a poll and
    the proposers of a block.

    The source of randomness is a parameter, a state with a function that draws 64 bits.
    The loops that draw until a value is accepted take fuel.  The weighted samplers are the
    instances of an interface whose law is a reference definition, [pick]: the values below
    the total weight are shared out among the indices, to each as many as its weight.
    [weighted_array.go] guesses its position with floating point numbers and is not
    modelled; [weighted_best.go] and [uniform_best.go] choose an implementation by timing. *)

From stdpp Require Import sorting.
From S2P Require Import Prelude Packer.

Open Scope Z_scope.

Definition MaxInt64 : Z := 2 ^ 63 - 1.
Definition MaxInt32 : Z := 2 ^ 31 - 1.

(** ** [rand.go] *)

Section rng.
Context {S : Type} (Uint64 : S → Z * S).

(** [uint64] and [uint63] *)
Definition rng_uint64 (s : S) : Z * S := Uint64 s.
Definition rng_uint63 (s : S) : Z * S := let '(v, s) := rng_uint64 s in (Z.land v MaxInt64, s).

(** [v := draw(); for v > max { v = draw() }] *)
Fixpoint draw_until (fuel : nat) (draw : S → Z * S) (max : Z) (s : S) : option (Z * S) :=
  match fuel with
  | O => None
  | Datatypes.S fuel =>
      let '(v, s) := draw s in
      if v >? max then draw_until fuel draw max s else Some (v, s)
  end.

Definition Uint64Inclusive (fuel : nat) (s : S) (n : Z) : option (Z * S) :=
  if Z.land n (u64 (n + 1)) =? 0 then
    let '(v, s) := rng_uint64 s in Some (Z.land v n, s)
  else if n >? MaxInt64 then draw_until fuel rng_uint64 n s
  else
    let max := 2 ^ 63 - 1 - 2 ^ 63 mod (n + 1) in
    '(v, s) ← draw_until fuel rng_uint63 max s;
    Some (v mod (n + 1), s).

(** ** [uniform_replacer.go] *)

Record uniformReplacer := mkReplacer {
  ur_rng : S;
  ur_length : Z;
  ur_drawn : gmap Z Z;
  ur_drawsCount : Z;
}.

Definition defaultMap_get (m : gmap Z Z) (key defaultVal : Z) : Z := default defaultVal (m !! key).

Definition ur_Initialize (u : uniformReplacer) (length : Z) : uniformReplacer := mkReplacer (ur_rng u) length ∅ 0.

Definition ur_Reset (u : uniformReplacer) : uniformReplacer := mkReplacer (ur_rng u) (ur_length u) ∅ 0.

(** The value and whether there was one; [None] when the fuel is used up. *)
Definition ur_Next (fuel : nat) (u : uniformReplacer) : option (option Z * uniformReplacer) :=
  if ur_drawsCount u >=? ur_length u then Some (None, u)
  else
    '(r, s) ← Uint64Inclusive fuel (ur_rng u) (ur_length u - 1 - ur_drawsCount u);
    let draw := r + ur_drawsCount u in
    let ret := defaultMap_get (ur_drawn u) draw draw in
    let drawn := <[draw := defaultMap_get (ur_drawn u) (ur_drawsCount u) (ur_drawsCount u)]> (ur_drawn u) in
    Some (Some ret, mkReplacer s (ur_length u) drawn (ur_drawsCount u + 1)).

(** The loop of [Sample], for [count] more values. *)
Fixpoint ur_sample_loop (fuel count : nat) (u : uniformReplacer) : option (option (list Z) * uniformReplacer) :=
  match count with
  | O => Some (Some [], u)
  | Datatypes.S count =>
      '(ret, u) ← ur_Next fuel u;
      match ret with
      | None => Some (None, u)
      | Some ret =>
          '(rest, u) ← ur_sample_loop fuel count u;
          Some (option_map (cons ret) rest, u)
      end
  end.

Definition ur_Sample (fuel count : nat) (u : uniformReplacer) : option (option (list Z) * uniformReplacer) :=
  ur_sample_loop fuel count (ur_Reset u).
End rng.
Arguments mkReplacer {S}.
Arguments ur_rng {S}.
Arguments ur_length {S}.
Arguments ur_drawn {S}.
Arguments ur_drawsCount {S}.
Arguments uniformReplacer : clear implicits.

(** ** Sharing out values *)

(** The reference definition: the index that owns the value [v] when the values from [0] on
    are shared out in the order of the table. *)
Fixpoint pick (l : list (nat * Z)) (v : Z) : option nat :=
  match l with
  | [] => None
  | (i, w) :: l => if v <? w then Some i else pick l (v - w)
  end.

Definition total (ws : list Z) : Z := foldr Z.add 0 ws.

Definition entries (ws : list Z) : list (nat * Z) := zip (seq 0 (length ws)) ws.

Inductive sampler_error := SErrOverflow | ErrWeightsTooLarge | SPanic.

(** The interface [Weighted]. *)
Class Weighted := {
  w_t : Type;
  w_Initialize : w_t → list Z → result sampler_error w_t;
  w_Sample : w_t → Z → option (option nat);
}.

(** [w] was initialized with [ws]: the values are shared out by the weights. *)
Definition shares `{Weighted} (w : w_t) (ws : list Z) : Prop :=
  total ws ≤ MaxUint64 ∧ ∃ l, l ≡ₚ entries ws ∧ ∀ v, is_u64 v → w_Sample w v = Some (pick l v).

Class WeightedLaws (W : Weighted) := {
  w_Initialize_shares w ws w' : Forall is_u64 ws → w_Initialize w ws = Ok w' → shares w' ws;
  w_Initialize_fails w ws e : Forall is_u64 ws → w_Initialize w ws = Err e →
    e = ErrWeightsTooLarge ∨ (e = SErrOverflow ∧ MaxUint64 < total ws);
}.

(** The loop that adds up the weights. *)
Definition sum_weights (ws : list Z) : result sampler_error Z :=
  foldl (λ acc w, let? t := acc in
                  match Add64 t w with Ok t => Ok t | Err _ => Err SErrOverflow end) (Ok 0) ws.

(** ** [weighted_uniform.go] *)

Record weightedUniform := mkWU { wu_indices : list nat; wu_maxWeight : Z }.

Definition wu_fill (ws : list Z) : list nat := concat (imap (λ i w, replicate (Z.to_nat w) i) ws).

Definition wu_Initialize (s : weightedUniform) (ws : list Z) : result sampler_error weightedUniform :=
  let? totalWeight := sum_weights ws in
  if (totalWeight >? wu_maxWeight s) || (totalWeight >? MaxInt32) then Err ErrWeightsTooLarge
  else Ok (mkWU (wu_fill ws) (wu_maxWeight s)).

Definition wu_Sample (s : weightedUniform) (value : Z) : option (option nat) :=
  if Z.of_nat (length (wu_indices s)) <=? value then Some None
  else i ← wu_indices s !! Z.to_nat value; Some (Some i).

(** ** [weighted_heap.go] *)

Record weightedHeapElement := mkHE { he_weight : Z; he_cumulativeWeight : Z; he_index : nat }.

(** [Compare(other) <= 0] *)
Definition he_le (e other : weightedHeapElement) : Prop :=
  he_weight other < he_weight e ∨ (he_weight other = he_weight e ∧ (he_index e ≤ he_index other)%nat).

#[export] Instance he_le_dec e other : Decision (he_le e other).
Proof. unfold he_le. apply _. Defined.

Definition set_cumulative (e : weightedHeapElement) (c : Z) : weightedHeapElement :=
  mkHE (he_weight e) c (he_index e).

(** The loop that initializes the heap, from [i] down to [1]. *)
Fixpoint heap_init_loop (i : nat) (heap : list weightedHeapElement) : result sampler_error (list weightedHeapElement) :=
  match i with
  | O => Ok heap
  | S j =>
      let parentIndex := Nat.shiftr j 1 in
      match heap !! parentIndex, heap !! i with
      | Some p, Some e =>
          match Add64 (he_cumulativeWeight p) (he_cumulativeWeight e) with
          | Ok newWeight => heap_init_loop j (<[parentIndex := set_cumulative p newWeight]> heap)
          | Err _ => Err SErrOverflow
          end
      | _, _ => Err SPanic
      end
  end.

Definition wh_Initialize (s : list weightedHeapElement) (ws : list Z) : result sampler_error (list weightedHeapElement) :=
  let heap := merge_sort he_le (imap (λ i w, mkHE w w i) ws) in
  heap_init_loop (length heap - 1) heap.

Fixpoint wh_sample_loop (fuel : nat) (heap : list weightedHeapElement) (index : nat) (value : Z)
    : option (option nat) :=
  match fuel with
  | O => None
  | S fuel =>
      currentElement ← heap !! index;
      let currentWeight := he_weight currentElement in
      if value <? currentWeight then Some (Some (he_index currentElement))
      else
        let value := u64 (value - currentWeight) in
        let index := (index * 2 + 1)%nat in
        left ← heap !! index;
        let leftWeight := he_cumulativeWeight left in
        if leftWeight <=? value
        then wh_sample_loop fuel heap (index + 1) (u64 (value - leftWeight))
        else wh_sample_loop fuel heap index value
  end.

Definition wh_Sample (heap : list weightedHeapElement) (value : Z) : option (option nat) :=
  match heap with
  | [] => Some None
  | root :: _ =>
      if he_cumulativeWeight root <=? value then Some None else wh_sample_loop (length heap) heap 0 value
  end.

(** ** [weighted_linear.go] *)

Record weightedLinearElement := mkLE { le_cumulativeWeight : Z; le_index : nat }.

Section linear.
(** [utils.Sort] is not stable and equal weights compare equal: any sorted order. *)
Context (sort : list weightedLinearElement → list weightedLinearElement).

(** The loop that adds up the weights from the second element on. *)
Fixpoint linear_init_loop (previous : Z) (arr : list weightedLinearElement)
    : result sampler_error (list weightedLinearElement) :=
  match arr with
  | [] => Ok []
  | e :: arr =>
      match Add64 previous (le_cumulativeWeight e) with
      | Err _ => Err SErrOverflow
      | Ok newWeight =>
          let? arr := linear_init_loop newWeight arr in
          Ok (mkLE newWeight (le_index e) :: arr)
      end
  end.

Definition wl_Initialize (s : list weightedLinearElement) (ws : list Z) : result sampler_error (list weightedLinearElement) :=
  match sort (imap (λ i w, mkLE w i) ws) with
  | [] => Ok []
  | e :: arr =>
      let? arr := linear_init_loop (le_cumulativeWeight e) arr in
      Ok (e :: arr)
  end.

Fixpoint wl_sample_loop (arr : list weightedLinearElement) (value : Z) : option (option nat) :=
  match arr with
  | [] => None
  | elem :: arr => if value <? le_cumulativeWeight elem then Some (Some (le_index elem)) else wl_sample_loop arr value
  end.

Definition wl_Sample (arr : list weightedLinearElement) (value : Z) : option (option nat) :=
  match last arr with
  | None => Some None
  | Some e => if le_cumulativeWeight e <=? value then Some None else wl_sample_loop arr value
  end.
End linear.

(** ** [weighted_without_replacement_generic.go] *)

Section generic.
Context `{W : Weighted} {S : Type} (Uint64 : S → Z * S).

Record weightedWithoutReplacement := mkWWR { wr_u : uniformReplacer S; wr_w : w_t }.

Definition wr_Initialize (s : weightedWithoutReplacement) (weights : list Z)
    : result sampler_error weightedWithoutReplacement :=
  let? totalWeight := sum_weights weights in
  let u := ur_Initialize (wr_u s) totalWeight in
  let? w := w_Initialize (wr_w s) weights in
  Ok (mkWWR u w).

(** The loop of [Sample]; the uniform sampler keeps its state when the loop ends early. *)
Fixpoint wr_sample_loop (fuel count : nat) (u : uniformReplacer S) (w : w_t)
    : option (option (list nat) * uniformReplacer S) :=
  match count with
  | O => Some (Some [], u)
  | Datatypes.S count =>
      '(weight, u) ← ur_Next Uint64 fuel u;
      match weight with
      | None => Some (None, u)
      | Some weight =>
          index ← w_Sample w weight;
          match index with
          | None => Some (None, u)
          | Some index =>
              '(rest, u) ← wr_sample_loop fuel count u w;
              Some (option_map (cons index) rest, u)
          end
      end
  end.

Definition wr_Sample (fuel count : nat) (s : weightedWithoutReplacement)
    : option (option (list nat) * weightedWithoutReplacement) :=
  '(indices, u) ← wr_sample_loop fuel count (ur_Reset (wr_u s)) (wr_w s);
  Some (indices, mkWWR u (wr_w s)).
End generic.

(** ** Drawing from a range *)

(** What [Uint64Inclusive] does with one draw: the value returned, or another draw. *)
Definition draw_result (n raw : Z) : option Z :=
  if Z.land n (u64 (n + 1)) =? 0 then Some (Z.land raw n)
  else if n >? MaxInt64 then if raw >? n then None else Some raw
  else
    let v := Z.land raw MaxInt64 in
    if v >? 2 ^ 63 - 1 - 2 ^ 63 mod (n + 1) then None else Some (v mod (n + 1)).

Lemma land_even m : Z.land (2 * m) (2 * m + 1) = 2 * m.
Proof.
  apply Z.bits_inj'. intros i Hi. rewrite Z.land_spec. destruct (decide (i = 0)) as [->|].
  - by rewrite Z.testbit_even_0.
  - replace i with (Z.succ (i - 1)) by lia. rewrite Z.testbit_even_succ, Z.testbit_odd_succ by lia. apply andb_diag.
Qed.

Lemma land_odd m : Z.land (2 * m + 1) (2 * (m + 1)) = 2 * Z.land m (m + 1).
Proof.
  apply Z.bits_inj'. intros i Hi. rewrite Z.land_spec. destruct (decide (i = 0)) as [->|].
  - by rewrite !Z.testbit_even_0, andb_false_r.
  - replace i with (Z.succ (i - 1)) by lia. rewrite !Z.testbit_even_succ, Z.testbit_odd_succ, Z.land_spec by lia. done.
Qed.

Lemma land_succ_zero_below k n :
  0 ≤ n < Z.of_nat k → Z.land n (n + 1) = 0 → ∃ j, 0 ≤ j ∧ n + 1 = 2 ^ j.
Proof.
  revert n. induction k as [|k IH]; intros n Hn E; [lia|].
  destruct (Z.Even_or_Odd n) as [[m ->]|[m ->]].
  - rewrite land_even in E. exists 0. lia.
  - replace (2 * m + 1 + 1) with (2 * (m + 1)) in * by lia. rewrite land_odd in E.
    destruct (IH m) as (j & Hj & E'); [lia..|]. exists (Z.succ j). rewrite Z.pow_succ_r by done. lia.
Qed.

(** The test for a power of two. *)
Lemma mask_test n :
  is_u64 n → Z.land n (u64 (n + 1)) = 0 → ∃ j, 0 ≤ j ≤ 64 ∧ n + 1 = 2 ^ j.
Proof.
  unfold is_u64, MaxUint64. intros Hn E. destruct (decide (n = 2 ^ 64 - 1)) as [->|]; [by exists 64|].
  unfold u64 in E. rewrite Z.mod_small in E by lia.
  destruct (land_succ_zero_below (Z.to_nat (n + 1)) n) as (j & Hj & Ej); [lia|done|].
  exists j. split; [|done]. split; [done|]. apply (Z.pow_le_mono_r_iff 2); lia.
Qed.

(** Two lists without repetitions that have the same members have the same length. *)
Lemma filter_seqZ_length (P : Z → Prop) `{∀ v, Decision (P v)} N l :
  NoDup l → (∀ v, v ∈ l ↔ 0 ≤ v < N ∧ P v) → length (filter P (seqZ 0 N)) = length l.
Proof.
  intros Hl Hin. apply Permutation_length, NoDup_Permutation; [apply NoDup_filter, NoDup_seqZ|done|].
  intros v. rewrite list_elem_of_filter, elem_of_seqZ, Hin. naive_solver lia.
Qed.

Lemma NoDup_arith m r q : 0 < m → NoDup ((λ k, k * m + r) <$> seqZ 0 q).
Proof. intros Hm. apply NoDup_fmap_2; [intros x y E; nia|apply NoDup_seqZ]. Qed.

(** The values with a given remainder. *)
Lemma count_mod N m r q :
  0 < m → 0 ≤ r < m → N = q * m → length (filter (λ v, v mod m = r) (seqZ 0 N)) = Z.to_nat q.
Proof.
  intros Hm Hr ->. rewrite (filter_seqZ_length _ _ ((λ k, k * m + r) <$> seqZ 0 q)).
  - by rewrite length_fmap, length_seqZ.
  - by apply NoDup_arith.
  - intros v. rewrite list_elem_of_fmap. setoid_rewrite elem_of_seqZ. split.
    + intros (k & -> & ?). split; [nia|]. rewrite Z.add_comm, Z.mod_add by lia. by apply Z.mod_small.
    + intros [? E]. exists (v / m). pose proof (Z.div_mod v m ltac:(lia)).
      split; [lia|]. split; [apply Z.div_pos; lia|]. simpl. apply Z.div_lt_upper_bound; lia.
Qed.

(** The same, for the low 63 bits of 64-bit values. *)
Lemma count_mod_63 m r q :
  0 < m → 0 ≤ r < m → 0 ≤ q → q * m ≤ 2 ^ 63 →
  length (filter (λ v, v mod 2 ^ 63 < q * m ∧ (v mod 2 ^ 63) mod m = r) (seqZ 0 (2 ^ 64))) = Z.to_nat (2 * q).
Proof.
  intros Hm Hr Hq Hle.
  rewrite (filter_seqZ_length _ _ (((λ k, k * m + r) <$> seqZ 0 q) ++ ((λ k, k * m + (2 ^ 63 + r)) <$> seqZ 0 q))).
  - rewrite length_app, !length_fmap, !length_seqZ. lia.
  - apply NoDup_app. split_and!; [by apply NoDup_arith| |by apply NoDup_arith].
    intros v. rewrite !list_elem_of_fmap. setoid_rewrite elem_of_seqZ. intros (k & -> & ?) (k' & E & ?). nia.
  - intros v. rewrite elem_of_app, !list_elem_of_fmap. setoid_rewrite elem_of_seqZ. split.
    + intros [(k & -> & ?)|(k & -> & ?)]; (split; [nia|]).
      * rewrite (Z.mod_small (k * m + r) (2 ^ 63)) by nia. split; [nia|].
        rewrite Z.add_comm, Z.mod_add by lia. by apply Z.mod_small.
      * replace (k * m + (2 ^ 63 + r)) with (k * m + r + 1 * 2 ^ 63) by lia. rewrite Z.mod_add by lia.
        rewrite (Z.mod_small (k * m + r) (2 ^ 63)) by nia. split; [nia|].
        rewrite Z.add_comm, Z.mod_add by lia. by apply Z.mod_small.
    + intros [Hv [Hlt E]]. set (x := v mod 2 ^ 63) in *.
      pose proof (Z.mod_pos_bound v (2 ^ 63) ltac:(lia)). pose proof (Z.div_mod v (2 ^ 63) ltac:(lia)).
      pose proof (Z.div_mod x m ltac:(lia)). assert (0 ≤ x / m < q).
      { split; [apply Z.div_pos; lia|apply Z.div_lt_upper_bound; lia]. }
      assert (v / 2 ^ 63 = 0 ∨ v / 2 ^ 63 = 1) as [E'|E'].
      { assert (0 ≤ v / 2 ^ 63 < 2); [|lia]. split; [apply Z.div_pos; lia|apply Z.div_lt_upper_bound; lia]. }
      * left. exists (x / m). split; [unfold x in *; lia|lia].
      * right. exists (x / m). split; [unfold x in *; lia|lia].
Qed.

Lemma land_maxint v : Z.land v MaxInt64 = v mod 2 ^ 63.
Proof. apply (Z.land_ones v 63). lia. Qed.

(** The most values below [2^63] that a multiple of [m] allows. *)
Lemma accepted_multiple m : 0 < m ≤ 2 ^ 63 → 2 ^ 63 - 2 ^ 63 mod m = 2 ^ 63 / m * m ∧ 2 ^ 62 < 2 ^ 63 - 2 ^ 63 mod m.
Proof.
  intros Hm. pose proof (Z.div_mod (2 ^ 63) m ltac:(lia)) as E. pose proof (Z.mod_pos_bound (2 ^ 63) m ltac:(lia)) as Hb.
  split; [lia|]. assert (1 ≤ 2 ^ 63 / m) by (apply Z.div_le_lower_bound; lia). nia.
Qed.

Lemma draw_result_range n raw r : is_u64 n → is_u64 raw → draw_result n raw = Some r → 0 ≤ r ≤ n.
Proof.
  intros Hn Hr. unfold draw_result. rewrite !Z.gtb_ltb.
  destruct (Z.eqb_spec (Z.land n (u64 (n + 1))) 0) as [E|E].
  - destruct (mask_test n Hn E) as (j & Hj & Ej). intros [= <-].
    replace n with (Z.ones j) at 1 2 by (rewrite Z.ones_equiv; lia). rewrite Z.land_ones by lia.
    pose proof (Z.mod_pos_bound raw (2 ^ j) ltac:(lia)). lia.
  - unfold is_u64 in *. case_match; [case_match; [done|]|case_match; [done|]]; intros [= <-]; bool_to_prop; [lia|].
    pose proof (Z.mod_pos_bound (Z.land raw MaxInt64) (n + 1) ltac:(lia)). lia.
Qed.

(** A draw below [2^62] is never rejected. *)
Lemma draw_result_accepts n raw : is_u64 n → 0 ≤ raw < 2 ^ 62 → is_Some (draw_result n raw).
Proof.
  unfold is_u64. intros Hn Hr. unfold draw_result. rewrite !Z.gtb_ltb. case_match; [eauto|].
  destruct (Z.ltb_spec MaxInt64 n) as [Hlt|Hlt]; unfold MaxInt64 in Hlt.
  - rewrite (proj2 (Z.ltb_ge _ _)) by lia. eauto.
  - rewrite land_maxint, (Z.mod_small raw) by lia. destruct (accepted_multiple (n + 1)) as [_ Hb]; [lia|].
    rewrite (proj2 (Z.ltb_ge _ _)) by lia. eauto.
Qed.

(** Every outcome has the same number of 64-bit draws. *)
Lemma draw_result_uniform n :
  is_u64 n → ∃ k, 2 ^ 63 < k * (n + 1) ∧
    ∀ r, 0 ≤ r ≤ n → length (filter (λ raw, draw_result n raw = Some r) (seqZ 0 (2 ^ 64))) = Z.to_nat k.
Proof.
  intros Hn. unfold draw_result. destruct (Z.eqb_spec (Z.land n (u64 (n + 1))) 0) as [E|E].
  - destruct (mask_test n Hn E) as (j & Hj & Ej). exists (2 ^ (64 - j)). rewrite Ej, <- Z.pow_add_r by lia.
    replace (64 - j + j) with 64 by lia. split; [lia|]. intros r Hr.
    rewrite <- (count_mod (2 ^ 64) (2 ^ j) r (2 ^ (64 - j))); [|lia|lia|by rewrite <- Z.pow_add_r, Z.sub_add by lia].
    f_equal. apply list_filter_iff. intros v. replace n with (Z.ones j) by (rewrite Z.ones_equiv; lia).
    rewrite Z.land_ones by lia. naive_solver.
  - unfold is_u64, MaxUint64 in Hn. rewrite Z.gtb_ltb. destruct (Z.ltb_spec MaxInt64 n) as [Hlt|Hlt]; unfold MaxInt64 in Hlt.
    + exists 1. split; [lia|]. intros r Hr. rewrite (filter_seqZ_length _ _ [r]); [done|apply NoDup_singleton|].
      intros v. rewrite list_elem_of_singleton. rewrite Z.gtb_ltb. destruct (Z.ltb_spec n v); naive_solver lia.
    + destruct (accepted_multiple (n + 1)) as [Em Hb]; [lia|].
      pose proof (Z.mod_pos_bound (2 ^ 63) (n + 1) ltac:(lia)). exists (2 * (2 ^ 63 / (n + 1))). split; [lia|].
      intros r Hr. rewrite <- (count_mod_63 (n + 1) r); [|lia|lia|apply Z.div_pos; lia|lia].
      f_equal. apply list_filter_iff. intros v. rewrite land_maxint, Z.gtb_ltb, <- Em.
      destruct (Z.ltb_spec (2 ^ 63 - 1 - 2 ^ 63 mod (n + 1)) (v mod 2 ^ 63)); naive_solver lia.
Qed.

Section draws.
Context {S : Type} (Uint64 : S → Z * S).

(** Draw until a value is accepted. *)
Fixpoint first_accepted (fuel : nat) (n : Z) (s : S) : option (Z * S) :=
  match fuel with
  | O => None
  | Datatypes.S fuel =>
      let '(raw, s) := Uint64 s in
      match draw_result n raw with
      | Some r => Some (r, s)
      | None => first_accepted fuel n s
      end
  end.

Lemma Uint64Inclusive_first fuel s n :
  Uint64Inclusive Uint64 (Datatypes.S fuel) s n = first_accepted (Datatypes.S fuel) n s.
Proof.
  unfold Uint64Inclusive, rng_uint64. set (test := Z.land n (u64 (n + 1)) =? 0) in *.
  destruct test eqn:Ht; [|destruct (n >? MaxInt64) eqn:Hg].
  - simpl. unfold draw_result. fold test. rewrite Ht. by destruct (Uint64 s).
  - revert s. generalize (Datatypes.S fuel). clear fuel. induction n0 as [|fuel IH]; intros s; [done|]. simpl.
    unfold rng_uint64, draw_result in *. fold test. rewrite Ht, Hg. destruct (Uint64 s) as [v s'].
    by destruct (v >? n).
  - revert s. generalize (Datatypes.S fuel). clear fuel. induction n0 as [|fuel IH]; intros s; [done|]. simpl.
    unfold rng_uint63, rng_uint64, draw_result in *. fold test. rewrite Ht, Hg. destruct (Uint64 s) as [v s'].
    by destruct (Z.land v MaxInt64 >? _).
Qed.

Context (source_range : ∀ s, is_u64 (Uint64 s).1).

Lemma Uint64Inclusive_range fuel s n r s' :
  is_u64 n → Uint64Inclusive Uint64 fuel s n = Some (r, s') → 0 ≤ r ≤ n.
Proof.
  intros Hn. destruct fuel as [|fuel].
  { unfold Uint64Inclusive, rng_uint64. destruct (Z.land n (u64 (n + 1)) =? 0) eqn:Ht; [|by case_match].
    pose proof (source_range s) as Hs. destruct (Uint64 s) as [v s1]. intros [= <- <-].
    apply (draw_result_range n v); [done|done|]. unfold draw_result. by rewrite Ht. }
  rewrite Uint64Inclusive_first. revert s. generalize (Datatypes.S fuel). intros f. induction f as [|f IH]; intros s; [done|].
  simpl. pose proof (source_range s) as Hs. destruct (Uint64 s) as [v s1]. simpl in Hs.
  destruct (draw_result n v) as [r'|] eqn:E; [|apply IH]. intros [= -> ->]. by eapply draw_result_range.
Qed.

(** The state after [k] draws, and a source whose every [fuel] draws have one below [2^62]. *)
Definition after (k : nat) (s : S) : S := Nat.iter k (λ s, (Uint64 s).2) s.
Definition fair (fuel : nat) : Prop := ∀ s, ∃ k, (k < fuel)%nat ∧ (Uint64 (after k s)).1 < 2 ^ 62.

Lemma Uint64Inclusive_returns fuel s n :
  fair fuel → is_u64 n → is_Some (Uint64Inclusive Uint64 fuel s n).
Proof.
  intros Hfair Hn. destruct (Hfair s) as (k & Hk & Hlt). destruct fuel as [|fuel]; [lia|].
  rewrite Uint64Inclusive_first. clear Hfair. revert s k Hk Hlt. generalize (Datatypes.S fuel). intros f.
  induction f as [|f IH]; intros s k Hk Hlt; [lia|]. simpl. pose proof (source_range s) as Hs.
  destruct (Uint64 s) as [v s1] eqn:E. simpl in Hs. destruct (draw_result n v) as [r|] eqn:Er; [eauto|].
  destruct k as [|k].
  - simpl in Hlt. rewrite E in Hlt. simpl in Hlt. destruct (draw_result_accepts n v Hn) as [r Hr]; [|congruence].
    destruct Hs. lia.
  - apply (IH s1 k); [lia|]. unfold after in *. rewrite Nat.iter_succ_r, E in Hlt. done.
Qed.
End draws.

(** ** Sampling without replacement *)

Section replacer.
Context {S : Type} (Uint64 : S → Z * S) (source_range : ∀ s, is_u64 (Uint64 s).1).
Implicit Types u : uniformReplacer S.

Definition slot u (i : Z) : Z := defaultMap_get (ur_drawn u) i i.

(** The slots from [drawsCount] on hold the values that were not returned, each once. *)
Record ur_ok u (seen : list Z) : Prop := {
  ur_range : is_u64 (ur_length u);
  ur_count : ur_drawsCount u = Z.of_nat (length seen);
  ur_count_le : ur_drawsCount u ≤ ur_length u;
  ur_nodup : NoDup seen;
  ur_seen : ∀ v, v ∈ seen → 0 ≤ v < ur_length u;
  ur_slots : ∀ i, ur_drawsCount u ≤ i < ur_length u → 0 ≤ slot u i < ur_length u ∧ slot u i ∉ seen;
  ur_inj : ∀ i j, ur_drawsCount u ≤ i < ur_length u → ur_drawsCount u ≤ j < ur_length u →
    slot u i = slot u j → i = j;
}.

Lemma ur_fresh s len : is_u64 len → ur_ok (mkReplacer s len ∅ 0) [].
Proof.
  intros Hl.
  assert (∀ i, slot (mkReplacer s len ∅ 0) i = i) as Hslot.
  { intros i. unfold slot, defaultMap_get. simpl. by rewrite lookup_empty. }
  split; simpl; [done|done|apply Hl|constructor|by intros v ?%not_elem_of_nil| |].
  - intros i Hi. rewrite Hslot. split; [done|apply not_elem_of_nil].
  - intros i j _ _. by rewrite !Hslot.
Qed.

(** A step of the shuffle at any position keeps the invariant. *)
Lemma ur_swap u seen draw s' :
  ur_ok u seen → ur_drawsCount u ≤ draw < ur_length u →
  ur_ok (mkReplacer s' (ur_length u) (<[draw := slot u (ur_drawsCount u)]> (ur_drawn u)) (ur_drawsCount u + 1))
    (seen ++ [slot u draw]).
Proof.
  intros [H1 H2 H3 H4 H5 H6 H7] Hd. set (c := ur_drawsCount u) in *. set (u' := mkReplacer _ _ _ _).
  assert (∀ i, slot u' i = if decide (i = draw) then slot u c else slot u i) as Hslot.
  { intros i. unfold slot, u', defaultMap_get. simpl. rewrite lookup_insert. by repeat case_decide. }
  destruct (H6 draw Hd) as [Hr Hn].
  assert (∀ i, c + 1 ≤ i < ur_length u → slot u' i ≠ slot u draw) as Hne.
  { intros i Hi E. rewrite Hslot in E. case_decide as Ei; [subst i|]; apply H7 in E; lia. }
  split; simpl; try done.
  - rewrite length_app. simpl. lia.
  - lia.
  - apply NoDup_app. split_and!; [done| |apply NoDup_singleton]. intros v Hv Hv'%list_elem_of_singleton. congruence.
  - intros v [Hv|Hv]%elem_of_app; [by apply H5|]. apply list_elem_of_singleton in Hv as ->. done.
  - intros i Hi. rewrite not_elem_of_app, list_elem_of_singleton. pose proof (Hne i Hi).
    rewrite Hslot in *. case_decide; (split; [apply H6; lia|split; [apply H6; lia|done]]).
  - intros i j Hi Hj. rewrite !Hslot. repeat case_decide; intros E; try congruence; apply H7 in E; lia.
Qed.

Lemma ur_Next_spec fuel u seen o u' :
  ur_ok u seen → ur_Next Uint64 fuel u = Some (o, u') →
  ur_length u' = ur_length u ∧
  match o with
  | None => u' = u ∧ Z.of_nat (length seen) = ur_length u
  | Some v => Z.of_nat (length seen) < ur_length u ∧ ur_ok u' (seen ++ [v])
  end.
Proof.
  intros Hok. unfold ur_Next. rewrite Z.geb_leb. pose proof Hok as [H1 H2 H3 _ _ _ _].
  destruct (Z.leb_spec (ur_length u) (ur_drawsCount u)) as [Hle|Hlt].
  { intros [= <- <-]. split_and!; try done. lia. }
  destruct (Uint64Inclusive _ _ _ _) as [[r s']|] eqn:E; simpl; [|done]. intros [= <- <-]. split; [done|].
  apply (Uint64Inclusive_range Uint64 source_range) in E; [|unfold is_u64 in *; lia].
  split; [lia|]. apply (ur_swap u seen (r + ur_drawsCount u)); [done|lia].
Qed.

Lemma ur_Next_returns fuel u seen : fair Uint64 fuel → ur_ok u seen → is_Some (ur_Next Uint64 fuel u).
Proof.
  intros Hf Hok. unfold ur_Next. case_match eqn:E; [eauto|]. rewrite Z.geb_leb in E. bool_to_prop.
  destruct (Uint64Inclusive_returns Uint64 source_range fuel (ur_rng u) (ur_length u - 1 - ur_drawsCount u) Hf)
    as [[r s'] ->]; [|simpl; eauto]. destruct Hok as [H1 H2 ?]. unfold is_u64 in *. lia.
Qed.

Lemma ur_sample_loop_spec fuel count u seen :
  fair Uint64 fuel → ur_ok u seen →
  ∃ o u', ur_sample_loop Uint64 fuel count u = Some (o, u') ∧ ur_length u' = ur_length u ∧
    match o with
    | Some vs => length vs = count ∧ ur_ok u' (seen ++ vs)
    | None => ur_length u < Z.of_nat (length seen) + Z.of_nat count
    end.
Proof.
  intros Hf. revert u seen. induction count as [|count IH]; intros u seen Hok; simpl.
  { exists (Some []), u. by rewrite app_nil_r. }
  destruct (ur_Next_returns fuel u seen Hf Hok) as [[o u1] E]. rewrite E. simpl.
  destruct (ur_Next_spec fuel u seen o u1 Hok E) as [El Ho]. destruct o as [v|].
  - destruct Ho as [Hlt Hok1]. destruct (IH u1 _ Hok1) as (o & u2 & -> & El2 & Ho). simpl.
    rewrite El in *. destruct o as [vs|]; simpl; (eexists _, _; split; [done|]; split; [congruence|]).
    + destruct Ho as [Hlen Ho]. rewrite <- app_assoc in Ho. simpl. auto.
    + rewrite length_app in Ho. simpl in Ho. lia.
  - destruct Ho as [-> Ho]. exists None, u. split_and!; try done. lia.
Qed.
End replacer.

(** ** The table of weights *)

Lemma total_cons w l : total (w :: l) = w + total l.
Proof. done. Qed.

Lemma sum_app l l' : total (l ++ l') = total l + total l'.
Proof. unfold total. induction l as [|x l IH]; simpl; [done|]. rewrite IH. lia. Qed.

Lemma total_perm l l' : l ≡ₚ l' → total l = total l'.
Proof. unfold total. induction 1; simpl; lia. Qed.

Lemma sum_nonneg l : Forall (λ w, 0 ≤ w) l → 0 ≤ total l.
Proof. unfold total. induction 1; simpl; lia. Qed.

Lemma entries_fst ws : (entries ws).*1 = seq 0 (length ws).
Proof. apply fst_zip. by rewrite length_seq. Qed.

Lemma entries_snd ws : (entries ws).*2 = ws.
Proof. apply snd_zip. by rewrite length_seq. Qed.

Lemma entries_elem ws i w : (i, w) ∈ entries ws ↔ ws !! i = Some w.
Proof.
  unfold entries. rewrite list_elem_of_lookup. setoid_rewrite lookup_zip_with_Some. split.
  - intros (k & x & y & [= <- <-] & Hk & Hy). apply lookup_seq in Hk as [-> _]. done.
  - intros Hi. exists i, i, w. split_and!; [done| |done]. apply lookup_seq. apply lookup_lt_Some in Hi. lia.
Qed.

Lemma entries_imap ws : entries ws = imap (λ i w, (i, w)) ws.
Proof.
  unfold entries. apply list_eq. intros i. rewrite list_lookup_imap, lookup_zip_with.
  destruct (ws !! i) as [w|] eqn:E; simpl.
  - rewrite (proj2 (lookup_seq _ _ _ i)); [done|]. apply lookup_lt_Some in E. lia.
  - by destruct (seq 0 (length ws) !! i).
Qed.

Lemma u64_nonneg ws : Forall is_u64 ws → Forall (λ w, 0 ≤ w) ws.
Proof. intros H. eapply Forall_impl; [done|]. unfold is_u64. lia. Qed.

Lemma pick_None l v :
  Forall (λ w, 0 ≤ w) l.*2 → 0 ≤ v → pick l v = None ↔ total l.*2 ≤ v.
Proof.
  revert v. induction l as [|[i w] l IH]; intros v Hw Hv; [done|]. rewrite fmap_cons, Forall_cons in Hw. destruct Hw as [Hw Hl].
  simpl in Hw. pose proof (sum_nonneg _ Hl). rewrite fmap_cons, total_cons. simpl. destruct (Z.ltb_spec v w).
  - split; [done|lia].
  - rewrite IH by (done || lia). lia.
Qed.

Lemma pick_app l l' v :
  Forall (λ w, 0 ≤ w) l.*2 → 0 ≤ v →
  pick (l ++ l') v = if total l.*2 <=? v then pick l' (v - total l.*2) else pick l v.
Proof.
  revert v. induction l as [|[i w] l IH]; intros v Hw Hv.
  { simpl. rewrite (proj2 (Z.leb_le _ _)) by (unfold total; simpl; lia). f_equal. unfold total. simpl. lia. }
  rewrite fmap_cons, Forall_cons in Hw. destruct Hw as [Hw Hl]. pose proof (sum_nonneg _ Hl).
  rewrite fmap_cons, total_cons. simpl in *. destruct (Z.ltb_spec v w).
  - by rewrite (proj2 (Z.leb_gt _ _)) by lia.
  - rewrite IH by (done || lia). destruct (Z.leb_spec (total l.*2) (v - w)), (Z.leb_spec (w + total l.*2) v); try lia; [|done].
    f_equal. lia.
Qed.

Lemma pick_elem l v i : pick l v = Some i → i ∈ l.*1.
Proof.
  revert v. induction l as [|[j w] l IH]; intros v; simpl; [done|]. case_match.
  - intros [= <-]. left.
  - intros Hp. right. eauto.
Qed.

Lemma filter_seqZ_shift (P : Z → Prop) `{∀ v, Decision (P v)} m n :
  length (filter P (seqZ m n)) = length (filter (λ v, P (m + v)) (seqZ 0 n)).
Proof.
  rewrite <- (Z.add_0_r m) at 1. rewrite <- fmap_add_seqZ. induction (seqZ 0 n) as [|v l IH]; [done|].
  rewrite fmap_cons, !filter_cons. destruct (decide (P (m + v))); cbn [length]; by rewrite IH.
Qed.

Lemma filter_length_none {A} (P : A → Prop) `{∀ x, Decision (P x)} l :
  (∀ x, x ∈ l → ¬ P x) → length (filter P l) = 0%nat.
Proof.
  induction l as [|x l IH]; intros Hl; [done|]. rewrite filter_cons_False; [|apply Hl; left].
  apply IH. intros y Hy. apply Hl. by right.
Qed.

(** Every index owns as many values as its weight. *)
Lemma pick_count l i w :
  NoDup l.*1 → Forall (λ w, 0 ≤ w) l.*2 → (i, w) ∈ l →
  length (filter (λ v, pick l v = Some i) (seqZ 0 (total l.*2))) = Z.to_nat w.
Proof.
  induction l as [|[j w'] l IH]; intros Hnd Hw Hi; [by apply not_elem_of_nil in Hi|].
  rewrite fmap_cons, NoDup_cons in Hnd. rewrite fmap_cons, Forall_cons in Hw.
  destruct Hnd as [Hj Hnd], Hw as [Hw' Hw]. simpl in Hj, Hw'.
  pose proof (sum_nonneg _ Hw) as Ht. change (total (((j, w') :: l).*2)) with (w' + total l.*2).
  rewrite seqZ_app, filter_app, length_app, Z.add_0_l, (filter_seqZ_shift _ w') by done.
  assert (length (filter (λ v, pick ((j, w') :: l) (w' + v) = Some i) (seqZ 0 (total l.*2)))
    = length (filter (λ v, pick l v = Some i) (seqZ 0 (total l.*2)))) as ->.
  { apply Permutation_length, NoDup_Permutation; [apply NoDup_filter, NoDup_seqZ..|].
    intros v. rewrite !list_elem_of_filter, !elem_of_seqZ. simpl. split; intros [Hp Hv].
    - rewrite (proj2 (Z.ltb_ge _ _)) in Hp by lia. replace (w' + v - w') with v in Hp by lia. done.
    - rewrite (proj2 (Z.ltb_ge _ _)) by lia. replace (w' + v - w') with v by lia. done. }
  apply elem_of_cons in Hi as [[= <- <-]|Hi].
  - rewrite (filter_length_none _ (seqZ 0 (total l.*2))).
    + rewrite list_filter_all, length_seqZ; [lia|]. apply Forall_forall. intros v Hv%elem_of_seqZ. simpl.
      by rewrite (proj2 (Z.ltb_lt _ _)) by lia.
    + intros v _ Hp. by apply pick_elem in Hp.
  - rewrite (IH Hnd Hw Hi), filter_length_none; [done|]. intros v Hv%elem_of_seqZ. simpl.
    rewrite (proj2 (Z.ltb_lt _ _)) by lia. intros [= <-]. apply Hj. by apply (list_elem_of_fmap_2 fst l (j, w)).
Qed.

(** The values that [pick] gives to an index, in any permutation of the table. *)
Lemma pick_share ws l i w :
  Forall is_u64 ws → l ≡ₚ entries ws → ws !! i = Some w →
  length (filter (λ v, pick l v = Some i) (seqZ 0 (total ws))) = Z.to_nat w.
Proof.
  intros Hws Hl Hi. assert (l.*2 ≡ₚ ws) as H2 by (by rewrite Hl, entries_snd).
  rewrite <- (total_perm _ _ H2). apply pick_count.
  - rewrite Hl, entries_fst. apply NoDup_seq.
  - rewrite H2. by apply u64_nonneg.
  - rewrite Hl. by apply entries_elem.
Qed.

Lemma sum_weights_spec ws :
  Forall is_u64 ws → sum_weights ws = if total ws <=? MaxUint64 then Ok (total ws) else Err SErrOverflow.
Proof.
  unfold sum_weights. intros Hws. enough (∀ t, is_u64 t →
    foldl (λ acc w, let? t := acc in match Add64 t w with Ok t => Ok t | Err _ => Err SErrOverflow end) (Ok t) ws
    = if t + total ws <=? MaxUint64 then Ok (t + total ws) else Err SErrOverflow) as H.
  { rewrite H by done. done. }
  induction Hws as [|w ws Hw Hws IH]; intros t Ht; simpl.
  { rewrite Z.add_0_r. destruct Ht. by rewrite (proj2 (Z.leb_le _ _)). }
  change (foldr Z.add 0 ws) with (total ws). pose proof (sum_nonneg _ (u64_nonneg _ Hws)).
  rewrite Add64_exact by done. unfold is_u64 in *. destruct (Z.leb_spec (t + w) MaxUint64); simpl.
  - rewrite IH by lia. by rewrite Z.add_assoc.
  - rewrite (proj2 (Z.leb_gt _ _)) by lia. clear -ws. by induction ws.
Qed.

(** ** The uniform table *)

Lemma wu_lookup_aux k ws v :
  Forall (λ w, 0 ≤ w) ws →
  concat (imap (λ i w, replicate (Z.to_nat w) (k + i)%nat) ws) !! v
  = pick (zip (seq k (length ws)) ws) (Z.of_nat v).
Proof.
  intros Hws. revert k v. induction Hws as [|w ws Hw Hws IH]; intros k v; [done|].
  simpl. rewrite Nat.add_0_r. destruct (Z.ltb_spec (Z.of_nat v) w).
  - rewrite lookup_app_l by (rewrite length_replicate; lia). apply lookup_replicate_2. lia.
  - rewrite lookup_app_r, length_replicate by (rewrite length_replicate; lia).
    replace (Z.of_nat v - w) with (Z.of_nat (v - Z.to_nat w)) by lia. rewrite <- IH. do 2 f_equal.
    apply imap_ext. intros i x _. simpl. f_equal. lia.
Qed.

Lemma wu_lookup ws v : Forall (λ w, 0 ≤ w) ws → wu_fill ws !! v = pick (entries ws) (Z.of_nat v).
Proof. apply (wu_lookup_aux 0). Qed.

#[export] Instance weightedUniform_weighted : Weighted :=
  {| w_t := weightedUniform; w_Initialize := wu_Initialize; w_Sample := wu_Sample |}.

#[export] Instance weightedUniform_laws : WeightedLaws weightedUniform_weighted.
Proof.
  split; simpl.
  - intros w ws w' Hws. unfold wu_Initialize. rewrite sum_weights_spec by done.
    destruct (Z.leb_spec (total ws) MaxUint64) as [Ht|Ht]; simpl; [|done]. case_match; [done|]. intros [= <-].
    split; [done|]. exists (entries ws). split; [done|]. intros v Hv. simpl. unfold wu_Sample, is_u64 in *. simpl.
    pose proof (wu_lookup ws (Z.to_nat v) (u64_nonneg _ Hws)) as E. rewrite Z2Nat.id in E by lia.
    destruct (Z.leb_spec (Z.of_nat (length (wu_fill ws))) v).
    + rewrite lookup_ge_None_2 in E by lia. by rewrite <- E.
    + destruct (lookup_lt_is_Some_2 (wu_fill ws) (Z.to_nat v)) as [i Hi]; [lia|]. rewrite Hi in *. simpl. by rewrite <- E.
  - intros w ws e Hws. unfold wu_Initialize. rewrite sum_weights_spec by done.
    destruct (Z.leb_spec (total ws) MaxUint64); simpl; [case_match; [|done]|]; intros [= <-]; auto.
Qed.

(** ** The linear table *)

Section linear_laws.
Context (sort : list weightedLinearElement → list weightedLinearElement) (sort_perm : ∀ l, sort l ≡ₚ l).

Definition linear_table (arr : list weightedLinearElement) : list (nat * Z) :=
  (λ e, (le_index e, le_cumulativeWeight e)) <$> arr.

Lemma linear_init_spec prev arr :
  is_u64 prev → Forall is_u64 (linear_table arr).*2 →
  match linear_init_loop prev arr with
  | Ok arr' =>
      prev + total (linear_table arr).*2 ≤ MaxUint64
      ∧ (∀ v, prev ≤ v → wl_sample_loop arr' v = Some <$> pick (linear_table arr) (v - prev))
      ∧ default prev (le_cumulativeWeight <$> last arr') = prev + total (linear_table arr).*2
  | Err e => e = SErrOverflow ∧ MaxUint64 < prev + total (linear_table arr).*2
  end.
Proof.
  revert prev. induction arr as [|e arr IH]; intros prev Hp Hw.
  { unfold total, is_u64 in *. simpl. split_and!; [lia|done|lia]. }
  unfold linear_table in *. rewrite !fmap_cons, Forall_cons in Hw. rewrite !fmap_cons. destruct Hw as [He Hw].
  cbn [linear_init_loop pick].
  rewrite Add64_exact by done. destruct (Z.leb_spec (prev + le_cumulativeWeight e) MaxUint64) as [Hle|Hle].
  2: { split; [done|]. rewrite total_cons. pose proof (sum_nonneg _ (u64_nonneg _ Hw)). simpl. lia. }
  assert (is_u64 (prev + le_cumulativeWeight e)) as Hu by (unfold is_u64 in *; simpl in *; lia).
  specialize (IH _ Hu Hw). destruct (linear_init_loop _ arr) as [arr'|].
  2: { rewrite total_cons. simpl in *. split; [apply IH|lia]. }
  cbn [result_bind wl_sample_loop]. destruct IH as (H1 & H2 & H3). rewrite total_cons. unfold is_u64 in *. cbn [fst snd pick le_cumulativeWeight le_index] in *.
  split_and!; [lia| |].
  - intros v Hv. destruct (Z.ltb_spec v (prev + le_cumulativeWeight e)), (Z.ltb_spec (v - prev) (le_cumulativeWeight e));
      try lia; [done|]. rewrite H2 by lia. do 2 f_equal. lia.
  - rewrite <- Z.add_assoc in *. rewrite <- H3. rewrite last_cons. by destruct (last arr').
Qed.

Lemma wl_Initialize_alt s ws :
  Forall is_u64 ws → wl_Initialize sort s ws = linear_init_loop 0 (sort (imap (λ i w, mkLE w i) ws)).
Proof.
  intros Hws. unfold wl_Initialize. destruct (sort _) as [|e arr] eqn:E; [done|]. simpl.
  assert (is_u64 (le_cumulativeWeight e)) as He.
  { assert (e ∈ imap (λ i w, mkLE w i) ws) as Hin by (rewrite <- sort_perm, E; left).
    apply elem_of_lookup_imap in Hin as (i & w & -> & Hw). by eapply Forall_lookup_1. }
  rewrite Add64_exact by (done || (unfold is_u64; lia)). rewrite Z.add_0_l. unfold is_u64 in He.
  rewrite (proj2 (Z.leb_le _ _)) by lia. by destruct e.
Qed.

Lemma linear_table_entries ws : linear_table (imap (λ i w, mkLE w i) ws) = entries ws.
Proof. unfold linear_table. rewrite fmap_imap. symmetry. apply entries_imap. Qed.

Definition weightedLinear_weighted : Weighted :=
  {| w_t := list weightedLinearElement; w_Initialize := wl_Initialize sort; w_Sample := wl_Sample |}.

Lemma weightedLinear_laws : WeightedLaws weightedLinear_weighted.
Proof.
  assert (∀ ws, linear_table (sort (imap (λ i w, mkLE w i) ws)) ≡ₚ entries ws) as Hperm.
  { intros ws. unfold linear_table. rewrite sort_perm. by rewrite <- linear_table_entries. }
  assert (∀ ws, Forall is_u64 ws → Forall is_u64 (linear_table (sort (imap (λ i w, mkLE w i) ws))).*2) as Hu.
  { intros ws Hws. by rewrite Hperm, entries_snd. }
  split; intros w ws; simpl.
  - intros w' Hws. rewrite wl_Initialize_alt by done. intros E.
    pose proof (linear_init_spec 0 _ ltac:(done) (Hu ws Hws)) as H. rewrite E in H. destruct H as (H1 & H2 & H3).
    assert (total (linear_table (sort (imap (λ i w, mkLE w i) ws))).*2 = total ws) as Et
      by (apply total_perm; by rewrite Hperm, entries_snd).
    rewrite Z.add_0_l, Et in *. split; [done|]. eexists. split; [apply Hperm|]. intros v Hv. simpl. unfold wl_Sample.
    pose proof (pick_None (linear_table (sort (imap (λ i w, mkLE w i) ws))) v (u64_nonneg _ (Hu ws Hws)) (proj1 Hv)) as Hn.
    rewrite Et in Hn. destruct (last w') as [e|]; simpl in H3.
    + rewrite H3. destruct (Z.leb_spec (total ws) v); [by rewrite (proj2 Hn)|].
      rewrite H2, Z.sub_0_r by apply Hv. destruct (pick _ v); [done|]. pose proof (proj1 Hn eq_refl). lia.
    + rewrite (proj2 Hn); [done|]. destruct Hv. lia.
  - intros e Hws. rewrite wl_Initialize_alt by done.
    pose proof (linear_init_spec 0 _ ltac:(done) (Hu ws Hws)) as H. intros E. rewrite E in H. right.
    rewrite (total_perm _ ws) in H by (by rewrite Hperm, entries_snd). done.
Qed.
End linear_laws.

(** ** The heap *)

(** The positions below [i] in a heap of [n] elements, in the order of [Sample]. *)
Fixpoint preorder_fuel (fuel n i : nat) : list nat :=
  match fuel with
  | O => []
  | S fuel =>
      if decide (i < n)%nat
      then i :: preorder_fuel fuel n (i * 2 + 1) ++ preorder_fuel fuel n (i * 2 + 2)
      else []
  end.

Definition preorder (n i : nat) : list nat := preorder_fuel (n - i) n i.

Lemma preorder_fuel_enough fuel n i : (n - i ≤ fuel)%nat → preorder_fuel fuel n i = preorder n i.
Proof.
  unfold preorder. remember (n - i)%nat as k eqn:Ek. revert fuel i Ek.
  induction k as [k IH] using lt_wf_ind. intros fuel i Ek Hle.
  destruct k as [|k], fuel as [|fuel]; simpl; try (lia || done).
  - rewrite decide_False by lia. done.
  - rewrite !decide_True by lia.
    assert (∀ f c, (n - c ≤ k)%nat → (n - c ≤ f)%nat → preorder_fuel f n c = preorder_fuel (n - c) n c) as IH'
      by (intros f c ??; apply (IH (n - c)%nat); lia).
    by rewrite (IH' fuel (i * 2 + 1)%nat), (IH' fuel (i * 2 + 2)%nat), (IH' k (i * 2 + 1)%nat), (IH' k (i * 2 + 2)%nat) by lia.
Qed.

Lemma preorder_unfold n i :
  (i < n)%nat → preorder n i = i :: preorder n (i * 2 + 1) ++ preorder n (i * 2 + 2).
Proof.
  intros Hi. unfold preorder at 1. destruct (n - i)%nat as [|k] eqn:E; [lia|]. simpl. rewrite decide_True by done.
  by rewrite !preorder_fuel_enough by lia.
Qed.

Lemma preorder_nil n i : (n ≤ i)%nat → preorder n i = [].
Proof. intros Hi. unfold preorder. by replace (n - i)%nat with 0%nat by lia. Qed.

(** Every position is below the root, once: the positions before [m] and what is below the
    children [m .. 2m] of them. *)
Lemma preorder_levels n m :
  (m ≤ n)%nat → preorder n 0 ≡ₚ seq 0 m ++ concat (preorder n <$> seq m (m + 1)).
Proof.
  induction m as [|m IH]; intros Hm.
  { simpl. by rewrite app_nil_r. }
  rewrite IH by lia. replace (m + 1)%nat with (S m) by lia. rewrite <- cons_seq, fmap_cons. cbn [concat].
  rewrite preorder_unfold by lia. replace (S m + 1)%nat with (m + 2)%nat by lia.
  rewrite (seq_S m 0), Nat.add_0_l, (seq_app m 2 (S m)), fmap_app, concat_app. cbn [seq fmap list_fmap concat].
  replace (S m + m)%nat with (m * 2 + 1)%nat by lia. replace (S (m * 2 + 1)) with (m * 2 + 2)%nat by lia.
  rewrite app_nil_r. solve_Permutation.
Qed.

Lemma preorder_perm n : preorder n 0 ≡ₚ seq 0 n.
Proof.
  rewrite (preorder_levels n n) by lia. enough (concat (preorder n <$> seq n (n + 1)) = []) as -> by by rewrite app_nil_r.
  assert (∀ k j, (n ≤ j)%nat → concat (preorder n <$> seq j k) = []) as H; [|by apply H].
  induction k as [|k IH]; intros j Hj; [done|]. simpl. rewrite preorder_nil by lia. apply IH. lia.
Qed.

Section heap_laws.
(** The sorted elements, as functions of the position. *)
Context (n : nat) (wt : nat → Z) (ix : nat → nat) (wt_range : ∀ p, (p < n)%nat → is_u64 (wt p)).

(** The weight below a position. *)
Definition below (i : nat) : Z := total (wt <$> preorder n i).

Lemma below_unfold i : (i < n)%nat → below i = wt i + below (i * 2 + 1) + below (i * 2 + 2).
Proof.
  intros Hi. unfold below at 1. rewrite preorder_unfold, fmap_cons, total_cons, fmap_app, sum_app by done.
  unfold below. lia.
Qed.

Lemma below_nil i : (n ≤ i)%nat → below i = 0.
Proof. intros Hi. unfold below. by rewrite preorder_nil. Qed.

Lemma preorder_lt i p : p ∈ preorder n i → (p < n)%nat.
Proof.
  unfold preorder. generalize (n - i)%nat. intros fuel. revert i. induction fuel as [|fuel IH]; intros i; simpl.
  { intros H. by apply not_elem_of_nil in H. }
  case_decide; [|intros H'; by apply not_elem_of_nil in H'].
  rewrite elem_of_cons, elem_of_app. naive_solver.
Qed.

Lemma below_nonneg i : 0 ≤ below i.
Proof.
  apply sum_nonneg, Forall_fmap, Forall_forall. intros p Hp. simpl. apply preorder_lt, wt_range in Hp.
  unfold is_u64 in Hp. lia.
Qed.

(** The elements after the positions from [k] on were added to their parents. *)
Definition heap_at (k : nat) (heap : list weightedHeapElement) : Prop :=
  length heap = n ∧ ∀ p, (p < n)%nat →
    heap !! p = Some (mkHE (wt p)
      (wt p + (if decide (k ≤ p * 2 + 1)%nat then below (p * 2 + 1) else 0)
            + (if decide (k ≤ p * 2 + 2)%nat then below (p * 2 + 2) else 0)) (ix p)).

Lemma heap_at_done heap k p :
  heap_at k heap → (p < n)%nat → (k ≤ p + 1)%nat → heap !! p = Some (mkHE (wt p) (below p) (ix p)).
Proof.
  intros [_ H] Hp Hk. rewrite H, (below_unfold p) by done. by rewrite !decide_True by lia.
Qed.

(** One step of the loop that initializes the heap. *)
Lemma heap_init_step heap j :
  heap_at (j + 2) heap → (j + 1 < n)%nat →
  ∃ p e, heap !! (Nat.shiftr j 1) = Some p ∧ heap !! (S j) = Some e
  ∧ is_u64 (he_weight p) ∧ he_weight p ≤ he_cumulativeWeight p ∧ he_cumulativeWeight e = below (j + 1)
  ∧ he_cumulativeWeight p + he_cumulativeWeight e ≤ below (Nat.shiftr j 1)
  ∧ heap_at (j + 1) (<[Nat.shiftr j 1 := set_cumulative p (he_cumulativeWeight p + he_cumulativeWeight e)]> heap).
Proof.
  intros Hh Hj. rewrite Nat.shiftr_div_pow2. change (2 ^ 1)%nat with 2%nat. set (q := (j / 2)%nat).
  assert (q * 2 + 1 = j + 1 ∨ q * 2 + 2 = j + 1)%nat as Hq.
  { pose proof (Nat.div_mod j 2 ltac:(lia)). pose proof (Nat.mod_upper_bound j 2 ltac:(lia)). fold q in H. lia. }
  pose proof (proj2 Hh q ltac:(lia)) as Eq. pose proof (heap_at_done heap _ (j + 1) Hh Hj ltac:(lia)) as Ee.
  pose proof (below_nonneg (q * 2 + 1)). pose proof (below_nonneg (q * 2 + 2)).
  replace (S j) with (j + 1)%nat by lia. do 2 eexists. split; [exact Eq|]. split; [exact Ee|]. simpl.
  split; [apply wt_range; lia|]. split; [repeat case_decide; lia|]. split; [done|].
  split; [rewrite (below_unfold q) by lia; destruct Hq as [E|E]; rewrite <- E; repeat case_decide; lia|].
  destruct Hh as [Hl Hh]. split; [by rewrite length_insert|]. intros p Hp.
  destruct (decide (p = q)) as [->|Hne].
  - rewrite list_lookup_insert_eq by lia. unfold set_cumulative. simpl. do 2 f_equal. destruct Hq as [E|E]; rewrite <- E; repeat case_decide; lia.
  - rewrite list_lookup_insert_ne, Hh by done. do 2 f_equal. repeat case_decide; lia.
Qed.

Lemma below_le_root i : below i ≤ below 0.
Proof.
  induction i as [i IH] using lt_wf_ind. destruct (decide (i = 0%nat)) as [->|]; [done|].
  destruct (decide (n ≤ i)%nat); [rewrite (below_nil i) by done; apply below_nonneg|].
  pose proof (Nat.div_mod (i - 1) 2 ltac:(lia)). pose proof (Nat.mod_upper_bound (i - 1) 2 ltac:(lia)).
  set (q := ((i - 1) / 2)%nat) in *. specialize (IH q ltac:(lia)). rewrite (below_unfold q) in IH by lia.
  pose proof (below_nonneg (q * 2 + 1)). pose proof (below_nonneg (q * 2 + 2)).
  pose proof (wt_range q ltac:(lia)) as Hq. unfold is_u64 in Hq.
  assert (i = (q * 2 + 1) ∨ i = (q * 2 + 2))%nat as [Ei|Ei] by lia; rewrite Ei; lia.
Qed.

Definition cumulative_ok (heap : list weightedHeapElement) : Prop := Forall (λ e, is_u64 (he_cumulativeWeight e)) heap.

Lemma heap_init_loop_spec i heap :
  heap_at (i + 1) heap → (i = 0 ∨ i < n)%nat → cumulative_ok heap →
  match heap_init_loop i heap with
  | Ok heap' => heap_at 1 heap' ∧ cumulative_ok heap'
  | Err e => e = SErrOverflow ∧ MaxUint64 < below 0
  end.
Proof.
  revert heap. induction i as [|j IH]; intros heap Hh Hi Hc; [done|]. cbn [heap_init_loop].
  replace (S j + 1)%nat with (j + 2)%nat in Hh by lia.
  destruct (heap_init_step heap j Hh ltac:(lia)) as (p & e & Ep & Ee & Hp & _ & _ & Hle & Hh'). rewrite Ep, Ee.
  assert (is_u64 (he_cumulativeWeight p) ∧ is_u64 (he_cumulativeWeight e)) as [Hup Hue]
    by (split; [exact (Forall_lookup_1 _ _ _ _ Hc Ep)|exact (Forall_lookup_1 _ _ _ _ Hc Ee)]).
  rewrite Add64_exact by done. destruct (Z.leb_spec (he_cumulativeWeight p + he_cumulativeWeight e) MaxUint64).
  - apply IH; [done|lia|]. apply Forall_insert; [done|]. unfold is_u64 in *. simpl. lia.
  - split; [done|]. pose proof (below_le_root (Nat.shiftr j 1)). lia.
Qed.

Definition heap_table (i : nat) : list (nat * Z) := (λ p, (ix p, wt p)) <$> preorder n i.

Lemma heap_table_snd i : total (heap_table i).*2 = below i.
Proof. unfold heap_table, below. by rewrite <- list_fmap_compose. Qed.

Lemma heap_table_nonneg i : Forall (λ w, 0 ≤ w) (heap_table i).*2.
Proof.
  unfold heap_table. rewrite <- list_fmap_compose. apply Forall_fmap, Forall_forall. intros p Hp. simpl.
  apply preorder_lt, wt_range in Hp. unfold is_u64 in Hp. lia.
Qed.

Lemma wh_sample_loop_spec heap fuel i value :
  heap_at 1 heap → below 0 ≤ MaxUint64 → (n - i ≤ fuel)%nat → 0 ≤ value < below i →
  wh_sample_loop fuel heap i value = Some (pick (heap_table i) value).
Proof.
  intros Hh Hmax. revert i value. induction fuel as [|fuel IH]; intros i value Hf Hv.
  { rewrite below_nil in Hv by lia. lia. }
  destruct (decide (n ≤ i)%nat); [rewrite below_nil in Hv by lia; lia|].
  cbn [wh_sample_loop]. rewrite (heap_at_done heap 1 i) by (done || lia). simpl.
  unfold heap_table. rewrite preorder_unfold, fmap_cons by lia. cbn [pick].
  destruct (Z.ltb_spec value (wt i)) as [Hlt|Hge]; [done|].
  pose proof (wt_range i ltac:(lia)) as Hw. pose proof (below_le_root i) as Hr. rewrite (below_unfold i) in Hv, Hr by lia.
  pose proof (below_nonneg (i * 2 + 1)). pose proof (below_nonneg (i * 2 + 2)).
  unfold is_u64 in Hw. rewrite (u64_id (value - wt i)) by (unfold is_u64; lia).
  destruct (decide (n ≤ i * 2 + 1)%nat); [rewrite !below_nil in Hv by lia; lia|].
  rewrite (heap_at_done heap 1 (i * 2 + 1)) by (done || lia). cbn [mbind option_bind he_cumulativeWeight].
  rewrite fmap_app, pick_app; [|apply heap_table_nonneg|lia].
  fold (heap_table (i * 2 + 1)) (heap_table (i * 2 + 2)). rewrite heap_table_snd.
  destruct (Z.leb_spec (below (i * 2 + 1)) (value - wt i)).
  - rewrite (u64_id (value - wt i - _)) by (unfold is_u64; lia).
    replace (i * 2 + 1 + 1)%nat with (i * 2 + 2)%nat by lia. apply IH; lia.
  - apply IH; lia.
Qed.

Lemma wh_Sample_spec heap value :
  heap_at 1 heap → below 0 ≤ MaxUint64 → is_u64 value →
  wh_Sample heap value = Some (pick (heap_table 0) value).
Proof.
  intros Hh Hmax Hv. unfold is_u64 in Hv. pose proof (pick_None (heap_table 0) value (heap_table_nonneg 0) (proj1 Hv)) as Hn.
  rewrite heap_table_snd in Hn. unfold wh_Sample. destruct heap as [|root heap'] eqn:E.
  { rewrite (proj2 Hn); [done|]. rewrite below_nil; [lia|]. destruct Hh as [<- _]. simpl. lia. }
  rewrite <- E in *. assert (length heap = n) as El by apply Hh.
  assert (root = mkHE (wt 0) (below 0) (ix 0)) as ->.
  { pose proof (heap_at_done heap 1 0 Hh) as Hr. rewrite E in *. simpl in *. specialize (Hr ltac:(lia) ltac:(lia)). congruence. }
  simpl. destruct (Z.leb_spec (below 0) value); [by rewrite (proj2 Hn)|].
  apply wh_sample_loop_spec; (done || lia).
Qed.
End heap_laws.

#[export] Instance weightedHeap_weighted : Weighted :=
  {| w_t := list weightedHeapElement; w_Initialize := wh_Initialize; w_Sample := wh_Sample |}.

(** The sorted elements that the heap is built from. *)
Definition sorted_elements (ws : list Z) : list weightedHeapElement := merge_sort he_le (imap (λ i w, mkHE w w i) ws).
Definition element_weight (ws : list Z) (p : nat) : Z := default 0 (he_weight <$> sorted_elements ws !! p).
Definition element_index (ws : list Z) (p : nat) : nat := default 0%nat (he_index <$> sorted_elements ws !! p).

Lemma sorted_elements_perm ws : sorted_elements ws ≡ₚ imap (λ i w, mkHE w w i) ws.
Proof. apply merge_sort_Permutation. Qed.

Lemma sorted_elements_lookup ws p e :
  sorted_elements ws !! p = Some e → e = mkHE (element_weight ws p) (element_weight ws p) (element_index ws p).
Proof.
  intros E. unfold element_weight, element_index. rewrite E. simpl.
  assert (e ∈ imap (λ i w, mkHE w w i) ws) as Hin by (rewrite <- sorted_elements_perm; by eapply list_elem_of_lookup_2).
  by apply elem_of_lookup_imap in Hin as (i & w & -> & _).
Qed.

Lemma length_sorted ws : length (sorted_elements ws) = length ws.
Proof. by rewrite sorted_elements_perm, length_imap. Qed.

Lemma sorted_weight_range ws p : Forall is_u64 ws → (p < length ws)%nat → is_u64 (element_weight ws p).
Proof.
  intros Hws Hp. destruct (lookup_lt_is_Some_2 (sorted_elements ws) p) as [e E]; [by rewrite length_sorted|].
  pose proof (sorted_elements_lookup _ _ _ E) as Ee.
  assert (e ∈ imap (λ i w, mkHE w w i) ws) as Hin by (rewrite <- sorted_elements_perm; by eapply list_elem_of_lookup_2).
  apply elem_of_lookup_imap in Hin as (i & w & -> & Hw). injection Ee as -> _. by eapply Forall_lookup_1.
Qed.

(** The heap shares out the values of the same table. *)
Lemma heap_table_entries ws :
  heap_table (length ws) (element_weight ws) (element_index ws) 0 ≡ₚ entries ws.
Proof.
  unfold heap_table. rewrite preorder_perm.
  assert ((λ p, (element_index ws p, element_weight ws p)) <$> seq 0 (length ws)
    = (λ e, (he_index e, he_weight e)) <$> sorted_elements ws) as ->.
  { apply list_eq. intros p. rewrite !list_lookup_fmap. destruct (sorted_elements ws !! p) as [e|] eqn:E; simpl.
    - rewrite (proj2 (lookup_seq _ _ _ p)) by (apply lookup_lt_Some in E; rewrite length_sorted in E; lia). simpl.
      apply sorted_elements_lookup in E. by rewrite E.
    - apply lookup_ge_None in E. rewrite length_sorted in E. by rewrite lookup_ge_None_2 by (by rewrite length_seq). }
  by rewrite sorted_elements_perm, fmap_imap, entries_imap.
Qed.

Lemma wh_Initialize_spec s ws :
  Forall is_u64 ws →
  let n := length ws in let wt := element_weight ws in let ix := element_index ws in
  match wh_Initialize s ws with
  | Ok heap => heap_at n wt ix 1 heap ∧ total ws ≤ MaxUint64
  | Err e => e = SErrOverflow ∧ MaxUint64 < total ws
  end.
Proof.
  intros Hws n wt ix. assert (below n wt 0 = total ws) as Eb.
  { rewrite <- (heap_table_snd n wt ix). apply total_perm. unfold n, wt, ix. by rewrite heap_table_entries, entries_snd. }
  assert (∀ p, (p < n)%nat → is_u64 (wt p)) as Hr by (intros; by apply sorted_weight_range).
  unfold wh_Initialize. fold (sorted_elements ws). rewrite length_sorted. fold n.
  pose proof (heap_init_loop_spec n wt ix Hr (n - 1) (sorted_elements ws)) as H. rewrite Eb in H.
  assert (heap_at n wt ix (n - 1 + 1) (sorted_elements ws)) as H0.
  { split; [apply length_sorted|]. intros p Hp.
    destruct (lookup_lt_is_Some_2 (sorted_elements ws) p) as [e E]; [by rewrite length_sorted|].
    rewrite E, (sorted_elements_lookup _ _ _ E). do 2 f_equal. fold wt.
    repeat case_decide; rewrite ?below_nil by lia; lia. }
  destruct (heap_init_loop (n - 1) (sorted_elements ws)) as [heap|e].
  - destruct H as [H Hc]; [done|lia| |].
    { apply Forall_lookup. intros p e E. rewrite (sorted_elements_lookup _ _ _ E). simpl. apply Hr.
      apply lookup_lt_Some in E. by rewrite length_sorted in E. }
    split; [done|]. destruct (decide (n = 0%nat)) as [En|].
    + rewrite <- Eb, below_nil by lia. unfold MaxUint64. lia.
    + rewrite <- Eb. pose proof (heap_at_done n wt ix heap 1 0 H ltac:(lia) ltac:(lia)) as E0.
      apply (Forall_lookup_1 _ _ _ _ Hc) in E0. simpl in E0. apply E0.
  - apply H; [done|lia|].
    apply Forall_lookup. intros p e' E. rewrite (sorted_elements_lookup _ _ _ E). simpl. apply Hr.
    apply lookup_lt_Some in E. by rewrite length_sorted in E.
Qed.

#[export] Instance weightedHeap_laws : WeightedLaws weightedHeap_weighted.
Proof.
  split; simpl; intros s ws.
  - intros heap Hws E. pose proof (wh_Initialize_spec s ws Hws) as H. simpl in H. rewrite E in H. destruct H as [Hh Ht].
    split; [done|]. eexists. split; [apply heap_table_entries|]. intros v Hv. simpl.
    apply wh_Sample_spec; [intros; by apply sorted_weight_range|done| |done].
    rewrite <- (heap_table_snd _ _ (element_index ws)). erewrite total_perm; [exact Ht|]. by rewrite heap_table_entries, entries_snd.
  - intros e Hws E. pose proof (wh_Initialize_spec s ws Hws) as H. simpl in H. rewrite E in H. by right.
Qed.

(** ** Weighted sampling without replacement *)

Section without_replacement.
Context `{W : Weighted} {L : WeightedLaws W}.
Context {S : Type} (Uint64 : S → Z * S) (source_range : ∀ s, is_u64 (Uint64 s).1).

(** The sampler was initialized with [ws]. *)
Record wr_ready (s : weightedWithoutReplacement (S := S)) (ws : list Z) : Prop := {
  wr_weights : Forall is_u64 ws;
  wr_length : ur_length (wr_u s) = total ws;
  wr_shares : shares (wr_w s) ws;
}.

Lemma wr_Initialize_spec (s : weightedWithoutReplacement (S := S)) ws :
  Forall is_u64 ws →
  match wr_Initialize s ws with
  | Ok s' => wr_ready s' ws
  | Err e => e = ErrWeightsTooLarge ∨ (e = SErrOverflow ∧ MaxUint64 < total ws)
  end.
Proof using L.
  intros Hws. unfold wr_Initialize. rewrite sum_weights_spec by done.
  destruct (Z.leb_spec (total ws) MaxUint64); simpl; [|auto].
  destruct (w_Initialize (wr_w s) ws) as [w|e] eqn:E; simpl.
  - split; [done|done|]. by eapply w_Initialize_shares.
  - by eapply w_Initialize_fails.
Qed.

(** How often an index is in a sample. *)
Definition occurrences (i : nat) (l : list nat) : nat := length (filter (λ j, j = i) l).

(** The draws of a sample and the indices that own them. *)
Lemma wr_sample_loop_spec fuel count u w ws l seen :
  fair Uint64 fuel → Forall is_u64 ws → total ws ≤ MaxUint64 → l ≡ₚ entries ws →
  (∀ v, is_u64 v → w_Sample w v = Some (pick l v)) → ur_length u = total ws → ur_ok u seen →
  ∃ o u', wr_sample_loop Uint64 fuel count u w = Some (o, u') ∧ ur_length u' = total ws ∧
    match o with
    | Some idx => ∃ vs, length vs = count ∧ ur_ok u' (seen ++ vs) ∧ Some <$> idx = pick l <$> vs
    | None => total ws < Z.of_nat (length seen) + Z.of_nat count
    end.
Proof using source_range.
  intros Hf Hws Ht Hl Hw. revert u seen. induction count as [|count IH]; intros u seen Eu Hok; simpl.
  { exists (Some []), u. split; [done|]. split; [done|]. exists []. by rewrite app_nil_r. }
  destruct (ur_Next_returns Uint64 source_range fuel u seen Hf Hok) as [[o u1] E]. rewrite E. simpl.
  destruct (ur_Next_spec Uint64 source_range fuel u seen o u1 Hok E) as [El Ho]. rewrite Eu in *.
  destruct o as [v|]; [|destruct Ho as [-> Ho]; exists None, u; split_and!; [done|done|lia]].
  destruct Ho as [Hlt Hok1]. assert (0 ≤ v < total ws) as Hv.
  { pose proof (ur_seen _ _ Hok1 v) as Hv. rewrite El in Hv. apply Hv. apply elem_of_app. right. by left. }
  rewrite Hw by (unfold is_u64; lia). simpl. assert (l.*2 ≡ₚ ws) as H2 by (by rewrite Hl, entries_snd).
  destruct (pick l v) as [i|] eqn:Ep.
  2: { apply pick_None in Ep; [|by rewrite H2; apply u64_nonneg|lia]. rewrite (total_perm _ _ H2) in Ep. lia. }
  destruct (IH u1 _ El Hok1) as (o & u2 & -> & El2 & Ho). simpl. destruct o as [idx|]; simpl.
  - destruct Ho as (vs & Hlen & Hok2 & Epick). do 2 eexists. split; [done|]. split; [done|]. exists (v :: vs).
    rewrite <- app_assoc in Hok2. simpl. rewrite Ep, Hlen. split_and!; [done|done|]. by f_equal.
  - do 2 eexists. split; [done|]. split; [done|]. rewrite length_app in Ho. simpl in Ho. lia.
Qed.

Lemma occurrences_draws i l idx vs :
  Some <$> idx = pick l <$> vs → occurrences i idx = length (filter (λ v, pick l v = Some i) vs).
Proof.
  unfold occurrences. revert idx. induction vs as [|v vs IH]; intros [|j idx]; try done.
  rewrite !fmap_cons. intros [= Ej E]. rewrite !filter_cons, <- Ej.
  destruct (decide (j = i)), (decide (Some j = Some i)); simplify_eq; cbn [length]; by rewrite (IH idx).
Qed.

(** A sample: its size, and how often an index can occur. *)
Definition sample_of (ws : list Z) (count : nat) (o : option (list nat)) : Prop :=
  match o with
  | Some idx =>
      length idx = count ∧ Z.of_nat count ≤ total ws
      ∧ ∀ i, i ∈ idx → ∃ w, ws !! i = Some w ∧ Z.of_nat (occurrences i idx) ≤ w
  | None => total ws < Z.of_nat count
  end.

Lemma wr_Sample_spec fuel count s ws :
  fair Uint64 fuel → wr_ready s ws →
  ∃ o s', wr_Sample Uint64 fuel count s = Some (o, s') ∧ wr_ready s' ws ∧ sample_of ws count o.
Proof using source_range.
  intros Hf [Hws El (Ht & l & Hl & Hw)]. unfold wr_Sample.
  assert (is_u64 (total ws)) as Hu by (pose proof (sum_nonneg _ (u64_nonneg _ Hws)); unfold is_u64; lia).
  destruct (wr_sample_loop_spec fuel count (ur_Reset (wr_u s)) (wr_w s) ws l []) as (o & u' & -> & El' & Ho);
    try done; [unfold ur_Reset; rewrite El; by apply ur_fresh|]. simpl. do 2 eexists. split; [done|]. split.
  { split; [done|done|]. split; [done|]. eauto. }
  destruct o as [idx|]; simpl in *; [|lia]. destruct Ho as (vs & Hlen & Hok & Epick).
  pose proof (f_equal length Epick) as Elen. rewrite !length_fmap in Elen.
  pose proof (ur_count _ _ Hok) as Ec. pose proof (ur_count_le _ _ Hok) as Hc. rewrite El', Ec in Hc.
  split_and!; [lia|lia|]. intros i Hi. assert (i ∈ l.*1) as Hil.
  { assert (Some i ∈ Some <$> idx) as Hs by (by apply list_elem_of_fmap_2). rewrite Epick in Hs.
    apply list_elem_of_fmap in Hs as (v & Ev & _). symmetry in Ev. by apply pick_elem in Ev. }
  rewrite Hl, entries_fst in Hil. apply elem_of_seq in Hil.
  destruct (lookup_lt_is_Some_2 ws i) as [w Ew]; [lia|]. exists w. split; [done|].
  rewrite (occurrences_draws i l idx vs Epick). assert (0 ≤ w) by (eapply Forall_lookup_1 in Hws; [|done]; apply Hws).
  rewrite <- (Z2Nat.id w) by done. rewrite <- (pick_share ws l i w Hws Hl Ew).
  apply Nat2Z.inj_le, submseteq_length, NoDup_submseteq; [apply NoDup_filter, (ur_nodup _ _ Hok)|].
  intros v. rewrite !list_elem_of_filter, elem_of_seqZ. intros [Hp Hv]. split; [done|].
  apply (ur_seen _ _ Hok) in Hv. rewrite El' in Hv. lia.
Qed.
End without_replacement.

(** ** Properties *)

(** A draw from [[0, n]] returns a value of the range, the first that is accepted of the
    draws of the source, and it is unbiased: each value of the range is the result of the
    same number of 64-bit draws, and more than half of the draws are accepted. *)
Theorem draws_unbiased {S : Type} (Uint64 : S → Z * S) fuel s n :
  (∀ s, is_u64 (Uint64 s).1) → fair Uint64 fuel → is_u64 n →
  (∃ r s', Uint64Inclusive Uint64 fuel s n = Some (r, s') ∧ 0 ≤ r ≤ n)
  ∧ Uint64Inclusive Uint64 fuel s n = first_accepted Uint64 fuel n s
  ∧ ∃ k, 2 ^ 63 < k * (n + 1) ∧
      ∀ r, 0 ≤ r ≤ n → length (filter (λ raw, draw_result n raw = Some r) (seqZ 0 (2 ^ 64))) = Z.to_nat k.
Proof.
  intros Hs Hf Hn. split_and!.
  - destruct (Uint64Inclusive_returns Uint64 Hs fuel s n Hf Hn) as [[r s'] E].
    eauto using Uint64Inclusive_range.
  - destruct (Hf s) as (k & Hk & _). destruct fuel as [|fuel]; [lia|]. apply Uint64Inclusive_first.
  - by apply draw_result_uniform.
Qed.

(** What sharing out the values means: every index is the sample for as many values as its
    weight, and a value from the total on is not sampled. *)
Definition fair_shares {W : Weighted} (r : result sampler_error w_t) (ws : list Z) : Prop :=
  match r with
  | Ok s =>
      (∀ i w, ws !! i = Some w →
        length (filter (λ v, w_Sample s v = Some (Some i)) (seqZ 0 (total ws))) = Z.to_nat w)
      ∧ ∀ v, is_u64 v → total ws ≤ v → w_Sample s v = Some None
  | Err e => e = ErrWeightsTooLarge ∨ (e = SErrOverflow ∧ MaxUint64 < total ws)
  end.

Lemma fair_shares_laws {W : Weighted} {L : WeightedLaws W} (s : w_t) ws :
  Forall is_u64 ws → fair_shares (w_Initialize s ws) ws.
Proof.
  intros Hws. unfold fair_shares. destruct (w_Initialize s ws) as [s'|e] eqn:E; [|by eapply w_Initialize_fails].
  destruct (w_Initialize_shares s ws s' Hws E) as (Ht & l & Hl & Hs). split.
  - intros i w Hi. rewrite <- (pick_share ws l i w Hws Hl Hi).
    apply Permutation_length, NoDup_Permutation; [apply NoDup_filter, NoDup_seqZ..|].
    intros v. rewrite !list_elem_of_filter, elem_of_seqZ. split; intros [Hp Hv]; (split; [|done]).
    + rewrite Hs in Hp by (unfold is_u64; lia). congruence.
    + rewrite Hs by (unfold is_u64; lia). congruence.
  - intros v Hv Hle. rewrite Hs by done. f_equal. assert (l.*2 ≡ₚ ws) as H2 by (by rewrite Hl, entries_snd).
    apply pick_None; [by rewrite H2; apply u64_nonneg|apply Hv|]. by rewrite (total_perm _ _ H2).
Qed.

(** C39. The heap, the uniform table and the linear table, with any sorting, share out the
    values below the total weight by the weights; they are only refused when the total
    overflows or is too large for the uniform table. *)
Theorem weighted_tables_fair sort ws heap maxWeight arr :
  (∀ l, sort l ≡ₚ l) → Forall is_u64 ws →
  fair_shares (W := weightedHeap_weighted) (wh_Initialize heap ws) ws
  ∧ fair_shares (W := weightedUniform_weighted) (wu_Initialize (mkWU [] maxWeight) ws) ws
  ∧ fair_shares (W := weightedLinear_weighted sort) (wl_Initialize sort arr ws) ws.
Proof.
  intros Hsort Hws. split; [exact (fair_shares_laws (W := weightedHeap_weighted) heap ws Hws)|].
  split; [exact (fair_shares_laws (W := weightedUniform_weighted) (mkWU [] maxWeight) ws Hws)|].
  exact (fair_shares_laws (L := weightedLinear_laws sort Hsort) arr ws Hws).
Qed.

(** A sample without replacement of [count] indices, with the heap of weights, returns:
    [count] indices, none of them more often than its weight, when the total weight is at
    least [count], and no sample otherwise.  The sampler can be used again. *)
Theorem sampling_without_replacement {S : Type} (Uint64 : S → Z * S) fuel s ws s' counts :
  (∀ s, is_u64 (Uint64 s).1) → fair Uint64 fuel → Forall is_u64 ws →
  wr_Initialize (W := weightedHeap_weighted) s ws = Ok s' →
  ∃ os, length os = length counts ∧
    foldl (λ acc count, '(os, s) ← acc; '(o, s) ← wr_Sample Uint64 fuel count s; Some (os ++ [o], s))
      (Some ([], s')) counts ≫= (λ r, Some r.1) = Some os
    ∧ ∀ k count o, counts !! k = Some count → os !! k = Some o → sample_of ws count o.
Proof.
  intros Hs Hf Hws E. pose proof (wr_Initialize_spec s ws Hws) as Hr. rewrite E in Hr. clear E s.
  enough (∃ os r, length os = length counts ∧
    foldl (λ acc count, '(os, s) ← acc; '(o, s) ← wr_Sample Uint64 fuel count s; Some (os ++ [o], s))
      (Some ([], s')) counts = Some (os, r) ∧ wr_ready r ws
    ∧ ∀ k count o, counts !! k = Some count → os !! k = Some o → sample_of ws count o) as (os & r & H1 & H2 & _ & H3).
  { exists os. rewrite H2. done. }
  induction counts as [|count counts IH] using rev_ind.
  { exists [], s'. split_and!; try done. }
  destruct IH as (os & r & Hlen & Eos & Hr' & Hos). rewrite foldl_app, Eos. simpl.
  destruct (wr_Sample_spec Uint64 Hs fuel count r ws Hf Hr') as (o & r' & -> & Hr'' & Ho). simpl.
  exists (os ++ [o]), r'. rewrite !length_app, Hlen. split_and!; try done.
  intros k c o' Hc Ho'. destruct (decide (k < length counts)%nat).
  - rewrite lookup_app_l in Hc by lia. rewrite lookup_app_l in Ho' by lia. eauto.
  - assert (k = length counts) as ->.
    { apply lookup_lt_Some in Hc. rewrite length_app in Hc. simpl in Hc. lia. }
    rewrite lookup_app_r in Hc by lia. rewrite lookup_app_r in Ho' by lia.
    rewrite Nat.sub_diag in Hc. rewrite Hlen, Nat.sub_diag in Ho'. by simplify_eq/=.
Qed.

(** ** Witnesses *)

Definition counter_source (s : Z) : Z * Z := (s mod 2 ^ 62, s + 1).

Lemma counter_source_range s : is_u64 (counter_source s).1.
Proof. pose proof (Z.mod_pos_bound s (2 ^ 62) ltac:(lia)). unfold is_u64, MaxUint64. simpl in *. lia. Qed.

Lemma counter_source_fair : fair counter_source 1.
Proof. intros s. exists 0%nat. pose proof (Z.mod_pos_bound s (2 ^ 62) ltac:(lia)). simpl in *. lia. Qed.

Lemma draws_unbiased_witness :
  ∃ r s', Uint64Inclusive counter_source 1 5 9 = Some (r, s') ∧ 0 ≤ r ≤ 9.
Proof.
  destruct (draws_unbiased counter_source 1 5 9 counter_source_range counter_source_fair) as (H & _ & _);
    [unfold is_u64, MaxUint64; lia|]. exact H.
Defined.

Lemma weighted_tables_fair_witness :
  wh_Initialize [] [5; 1; 3] = Ok [mkHE 5 9 0; mkHE 3 3 2; mkHE 1 1 1]
  ∧ fair_shares (W := weightedHeap_weighted) (wh_Initialize [] [5; 1; 3]) [5; 1; 3].
Proof.
  split; [reflexivity|].
  destruct (weighted_tables_fair (λ l, l) [5; 1; 3] [] 1024 []) as (H & _ & _);
    [done|repeat constructor; unfold MaxUint64; lia|]. exact H.
Defined.

Definition sample_sampler : weightedWithoutReplacement (W := weightedHeap_weighted) (S := Z) :=
  mkWWR (W := weightedHeap_weighted) (mkReplacer 5 0 ∅ 0) [].

Lemma sampling_without_replacement_witness :
  ∃ s' os, wr_Initialize sample_sampler [5; 1; 3] = Ok s' ∧ length os = 2%nat
    ∧ ∀ k count o, [4; 12]%nat !! k = Some count → os !! k = Some o → sample_of [5; 1; 3] count o.
Proof.
  destruct (wr_Initialize sample_sampler [5; 1; 3]) as [s'|] eqn:E; [|discriminate E]. exists s'.
  destruct (sampling_without_replacement counter_source 1 sample_sampler [5; 1; 3] s' [4; 12]%nat
    counter_source_range counter_source_fair) as (os & Hl & _ & H);
    [repeat constructor; unfold MaxUint64; lia|exact E|]. exists os. split_and!; done.
Defined.
