(* ===== verification/Validators.v ===== *)
(** * Validator sets

    Models [snow/validators]: the validators of one subnet ([set.go]) and the sets of all
    subnets ([manager.go]).  A set keeps pointers to its validators in a map by node ID and
    in a slice, next to the slice of their weights that the sampler works on; a validator
    holds its position in the slices, so that it can be removed by moving the last one to
    its place.  The pointers are explicit: [store] holds the objects that [vdrs] and
    [vdrSlice] share.

    Listeners are external; an operation returns the notifications that it sends.  Locks are
    not modelled: the manager holds its lock during every change.  Logging is not modelled. *)

From S2P Require Import Prelude Packer Sampler.

Open Scope Z_scope.

Inductive vdr_error :=
  | ErrDuplicateValidator
  | ErrMissingValidator
  | ErrTotalWeightNotUint64
  | ErrInsufficientWeight
  | ErrZeroWeight
  | ErrMissingValidators
  | ErrMath (e : math_error)
  | ErrSampler (e : sampler_error)
  | VPanic.

Section validators.
Context {NodeID : Type} `{Countable NodeID} {SubnetID : Type} `{Countable SubnetID}.
Context {PublicKey TxID Listener : Type} `{EqDecision Listener}.
Context `{W : Weighted} {S : Type} (Uint64 : S → Z * S).

Record Validator := mkVdr {
  v_NodeID : NodeID;
  v_PublicKey : option PublicKey;
  v_TxID : TxID;
  v_Weight : Z;
  v_index : nat;
}.

Record GetValidatorOutput := mkOutput {
  o_NodeID : NodeID;
  o_PublicKey : option PublicKey;
  o_Weight : Z;
}.

(** The calls to listeners.  A listener of the manager is told the subnet; for a listener of
    a set it is the subnet of the set that calls it. *)
Inductive event :=
  | OnValidatorAdded (nodeID : NodeID) (pk : option PublicKey) (txID : TxID) (weight : Z)
  | OnValidatorRemoved (nodeID : NodeID) (weight : Z)
  | OnValidatorWeightChanged (nodeID : NodeID) (oldWeight newWeight : Z).

Inductive target := ToManagerListener (l : Listener) | ToSetListener (l : Listener).

Record notification := mkNote { n_target : target; n_subnet : SubnetID; n_event : event }.

Record vdrSet := mkSet {
  subnetID : SubnetID;
  store : gmap nat Validator;
  next_ptr : nat;
  vdrs : gmap NodeID nat;
  vdrSlice : list nat;
  weights : list Z;
  totalWeight : Z;
  samplerInitialized : bool;
  set_sampler : weightedWithoutReplacement (S := S);
  managerCallbackListeners : list Listener;
  setCallbackListeners : list Listener;
}.

(** [sampler.NewWeightedWithoutReplacement()] *)
Context (NewWeightedWithoutReplacement : weightedWithoutReplacement (S := S)).

Definition newSet (subnet : SubnetID) (callbackListeners : list Listener) : vdrSet :=
  mkSet subnet ∅ 0 ∅ [] [] 0 false NewWeightedWithoutReplacement callbackListeners [].

(** [callValidatorAddedCallbacks], [callWeightChangeCallbacks], [callValidatorRemovedCallbacks] *)
Definition callCallbacks (s : vdrSet) (e : event) : list notification :=
  ((λ l, mkNote (ToManagerListener l) (subnetID s) e) <$> managerCallbackListeners s)
  ++ ((λ l, mkNote (ToSetListener l) (subnetID s) e) <$> setCallbackListeners s).

Definition set_add (s : vdrSet) (nodeID : NodeID) (pk : option PublicKey) (txID : TxID) (weight : Z)
    : result vdr_error (vdrSet * list notification) :=
  match vdrs s !! nodeID with
  | Some _ => Err ErrDuplicateValidator
  | None =>
      let vdr := mkVdr nodeID pk txID weight (length (vdrSlice s)) in
      let p := next_ptr s in
      let s' := mkSet (subnetID s) (<[p := vdr]> (store s)) (Datatypes.S p) (<[nodeID := p]> (vdrs s))
                  (vdrSlice s ++ [p]) (weights s ++ [weight]) (totalWeight s + weight) false
                  (set_sampler s) (managerCallbackListeners s) (setCallbackListeners s) in
      Ok (s', callCallbacks s' (OnValidatorAdded nodeID pk txID weight))
  end.

(** [s.weights[i] = w]; panics when the index is out of range. *)
Definition slice_set {A} (l : list A) (i : nat) (a : A) : result vdr_error (list A) :=
  if decide (i < length l)%nat then Ok (<[i := a]> l) else Err VPanic.

Definition deref {A} (o : option A) : result vdr_error A := match o with Some a => Ok a | None => Err VPanic end.

Definition set_weight (v : Validator) (w : Z) : Validator :=
  mkVdr (v_NodeID v) (v_PublicKey v) (v_TxID v) w (v_index v).
Definition set_index (v : Validator) (i : nat) : Validator :=
  mkVdr (v_NodeID v) (v_PublicKey v) (v_TxID v) (v_Weight v) i.

Definition math_result {A} (r : result math_error A) : result vdr_error A :=
  match r with Ok a => Ok a | Err e => Err (ErrMath e) end.

Definition addWeight (s : vdrSet) (nodeID : NodeID) (weight : Z)
    : result vdr_error (vdrSet * list notification) :=
  match vdrs s !! nodeID with
  | None => Err ErrMissingValidator
  | Some p =>
      let? vdr := deref (store s !! p) in
      let oldWeight := v_Weight vdr in
      let? newWeight := math_result (Add64 oldWeight weight) in
      let? ws := slice_set (weights s) (v_index vdr) newWeight in
      let s' := mkSet (subnetID s) (<[p := set_weight vdr newWeight]> (store s)) (next_ptr s) (vdrs s)
                  (vdrSlice s) ws (totalWeight s + weight) false
                  (set_sampler s) (managerCallbackListeners s) (setCallbackListeners s) in
      Ok (s', callCallbacks s' (OnValidatorWeightChanged nodeID oldWeight newWeight))
  end.

Definition getWeight (s : vdrSet) (nodeID : NodeID) : result vdr_error Z :=
  match vdrs s !! nodeID with
  | Some p => let? vdr := deref (store s !! p) in Ok (v_Weight vdr)
  | None => Ok 0
  end.

(** The loop of [subsetWeight] over the subset, in the order of the iteration. *)
Fixpoint subsetWeight (s : vdrSet) (subset : list NodeID) (total : Z) : result vdr_error Z :=
  match subset with
  | [] => Ok total
  | nodeID :: subset =>
      let? w := getWeight s nodeID in
      let? total := math_result (Add64 total w) in
      subsetWeight s subset total
  end.

Definition removeWeight (s : vdrSet) (nodeID : NodeID) (weight : Z)
    : result vdr_error (vdrSet * list notification) :=
  match vdrs s !! nodeID with
  | None => Err ErrMissingValidator
  | Some p =>
      let? vdr := deref (store s !! p) in
      let oldWeight := v_Weight vdr in
      let? newWeight := math_result (Sub oldWeight weight) in
      if newWeight =? 0 then
        let lastIndex := (length (vdrSlice s) - 1)%nat in
        let? q := deref (vdrSlice s !! lastIndex) in
        let? vdrToSwap := deref (store s !! q) in
        let? slice := slice_set (vdrSlice s) (v_index vdr) q in
        let? ws := slice_set (weights s) (v_index vdr) (v_Weight vdrToSwap) in
        let s' := mkSet (subnetID s) (<[q := set_index vdrToSwap (v_index vdr)]> (store s)) (next_ptr s)
                    (delete nodeID (vdrs s)) (take lastIndex slice) (take lastIndex ws)
                    (totalWeight s - weight) false
                    (set_sampler s) (managerCallbackListeners s) (setCallbackListeners s) in
        Ok (s', callCallbacks s' (OnValidatorRemoved nodeID oldWeight))
      else
        let? ws := slice_set (weights s) (v_index vdr) newWeight in
        let s' := mkSet (subnetID s) (<[p := set_weight vdr newWeight]> (store s)) (next_ptr s) (vdrs s)
                    (vdrSlice s) ws (totalWeight s - weight) false
                    (set_sampler s) (managerCallbackListeners s) (setCallbackListeners s) in
        Ok (s', callCallbacks s' (OnValidatorWeightChanged nodeID oldWeight newWeight))
  end.

(** A copy of the validator. *)
Definition set_get (s : vdrSet) (nodeID : NodeID) : result vdr_error (option Validator) :=
  match vdrs s !! nodeID with
  | None => Ok None
  | Some p => let? vdr := deref (store s !! p) in Ok (Some vdr)
  end.

Definition set_len (s : vdrSet) : nat := length (vdrSlice s).

Definition HasCallbackRegistered (s : vdrSet) : bool := (0 <? length (setCallbackListeners s))%nat.

(** [for _, vdr := range s.vdrSlice] *)
Fixpoint deref_all (s : vdrSet) (l : list nat) : result vdr_error (list Validator) :=
  match l with
  | [] => Ok []
  | p :: l => let? v := deref (store s !! p) in let? rest := deref_all s l in Ok (v :: rest)
  end.

Definition set_Map (s : vdrSet) : result vdr_error (gmap NodeID GetValidatorOutput) :=
  let? l := deref_all s (vdrSlice s) in
  Ok (foldl (λ m v, <[v_NodeID v := mkOutput (v_NodeID v) (v_PublicKey v) (v_Weight v)]> m) ∅ l).

Definition set_GetValidatorIDs (s : vdrSet) : result vdr_error (list NodeID) :=
  let? l := deref_all s (vdrSlice s) in
  Ok (v_NodeID <$> l).

(** The IDs of the sampled indices. *)
Fixpoint sampled_ids (s : vdrSet) (indices : list nat) : result vdr_error (list NodeID) :=
  match indices with
  | [] => Ok []
  | index :: indices =>
      let? p := deref (vdrSlice s !! index) in
      let? v := deref (store s !! p) in
      let? rest := sampled_ids s indices in
      Ok (v_NodeID v :: rest)
  end.

Definition set_set_sampler (s : vdrSet) (sampler : weightedWithoutReplacement (S := S)) : vdrSet :=
  mkSet (subnetID s) (store s) (next_ptr s) (vdrs s) (vdrSlice s) (weights s) (totalWeight s) true
    sampler (managerCallbackListeners s) (setCallbackListeners s).

Definition set_ensure_sampler (s : vdrSet) : result vdr_error vdrSet :=
  if samplerInitialized s then Ok s
  else
    match wr_Initialize (set_sampler s) (weights s) with
    | Err e => Err (ErrSampler e)
    | Ok sampler => Ok (set_set_sampler s sampler)
    end.

(** [None] when the draws exceed the fuel. *)
Definition set_sample (fuel : nat) (s : vdrSet) (size : nat) : option (result vdr_error (list NodeID) * vdrSet) :=
  match set_ensure_sampler s with
  | Err e => Some (Err e, s)
  | Ok s =>
      '(o, sampler) ← wr_Sample Uint64 fuel size (set_sampler s);
      let s := set_set_sampler s sampler in
      match o with
      | None => Some (Err ErrInsufficientWeight, s)
      | Some indices => Some (sampled_ids s indices, s)
      end
  end.

Definition set_TotalWeight (s : vdrSet) : result vdr_error Z :=
  if decide (is_u64 (totalWeight s)) then Ok (totalWeight s) else Err ErrTotalWeightNotUint64.

Definition added_notes (t : target) (s : vdrSet) (l : list Validator) : list notification :=
  (λ v, mkNote t (subnetID s) (OnValidatorAdded (v_NodeID v) (v_PublicKey v) (v_TxID v) (v_Weight v))) <$> l.

Definition RegisterManagerCallbackListener (s : vdrSet) (l : Listener) : result vdr_error (vdrSet * list notification) :=
  let s' := mkSet (subnetID s) (store s) (next_ptr s) (vdrs s) (vdrSlice s) (weights s) (totalWeight s)
              (samplerInitialized s) (set_sampler s) (managerCallbackListeners s ++ [l]) (setCallbackListeners s) in
  let? vs := deref_all s' (vdrSlice s') in
  Ok (s', added_notes (ToManagerListener l) s' vs).

Definition set_RegisterCallbackListener (s : vdrSet) (l : Listener) : result vdr_error (vdrSet * list notification) :=
  let s' := mkSet (subnetID s) (store s) (next_ptr s) (vdrs s) (vdrSlice s) (weights s) (totalWeight s)
              (samplerInitialized s) (set_sampler s) (managerCallbackListeners s) (setCallbackListeners s ++ [l]) in
  let? vs := deref_all s' (vdrSlice s') in
  Ok (s', added_notes (ToSetListener l) s' vs).

(** ** [manager.go] *)

Record manager := mkManager {
  subnetToVdrs : gmap SubnetID vdrSet;
  callbackListeners : list Listener;
}.

Definition NewManager : manager := mkManager ∅ [].

Definition put_set (m : manager) (subnet : SubnetID) (s : vdrSet) : manager :=
  mkManager (<[subnet := s]> (subnetToVdrs m)) (callbackListeners m).

(** The set of a subnet, created when there is none. *)
Definition set_for (m : manager) (subnet : SubnetID) : vdrSet :=
  default (newSet subnet (callbackListeners m)) (subnetToVdrs m !! subnet).

(** The manager keeps a set that it created also when the call on the set fails. *)
Definition AddStaker (m : manager) (subnet : SubnetID) (nodeID : NodeID) (pk : option PublicKey) (txID : TxID)
    (weight : Z) : result vdr_error (list notification) * manager :=
  if weight =? 0 then (Err ErrZeroWeight, m)
  else
    let s := set_for m subnet in
    match set_add s nodeID pk txID weight with
    | Ok (s, notes) => (Ok notes, put_set m subnet s)
    | Err e => (Err e, put_set m subnet s)
    end.

Definition AddWeight (m : manager) (subnet : SubnetID) (nodeID : NodeID) (weight : Z)
    : result vdr_error (list notification) * manager :=
  if weight =? 0 then (Err ErrZeroWeight, m)
  else
    match subnetToVdrs m !! subnet with
    | None => (Err ErrMissingValidator, m)
    | Some s =>
        match addWeight s nodeID weight with
        | Ok (s, notes) => (Ok notes, put_set m subnet s)
        | Err e => (Err e, m)
        end
    end.

Definition GetWeight (m : manager) (subnet : SubnetID) (nodeID : NodeID) : result vdr_error Z :=
  match subnetToVdrs m !! subnet with None => Ok 0 | Some s => getWeight s nodeID end.

Definition GetValidator (m : manager) (subnet : SubnetID) (nodeID : NodeID) : result vdr_error (option Validator) :=
  match subnetToVdrs m !! subnet with None => Ok None | Some s => set_get s nodeID end.

Definition SubsetWeight (m : manager) (subnet : SubnetID) (validatorIDs : list NodeID) : result vdr_error Z :=
  match subnetToVdrs m !! subnet with None => Ok 0 | Some s => subsetWeight s validatorIDs 0 end.

Definition RemoveWeight (m : manager) (subnet : SubnetID) (nodeID : NodeID) (weight : Z)
    : result vdr_error (list notification) * manager :=
  if weight =? 0 then (Err ErrZeroWeight, m)
  else
    match subnetToVdrs m !! subnet with
    | None => (Err ErrMissingValidator, m)
    | Some s =>
        match removeWeight s nodeID weight with
        | Err e => (Err e, m)
        | Ok (s, notes) =>
            if (set_len s =? 0)%nat && negb (HasCallbackRegistered s)
            then (Ok notes, mkManager (delete subnet (subnetToVdrs m)) (callbackListeners m))
            else (Ok notes, put_set m subnet s)
        end
    end.

Definition Count (m : manager) (subnet : SubnetID) : nat :=
  match subnetToVdrs m !! subnet with None => 0%nat | Some s => set_len s end.

Definition TotalWeight (m : manager) (subnet : SubnetID) : result vdr_error Z :=
  match subnetToVdrs m !! subnet with None => Ok 0 | Some s => set_TotalWeight s end.

Definition Sample (fuel : nat) (m : manager) (subnet : SubnetID) (size : nat)
    : option (result vdr_error (list NodeID) * manager) :=
  if (size =? 0)%nat then Some (Ok [], m)
  else
    match subnetToVdrs m !! subnet with
    | None => Some (Err ErrMissingValidators, m)
    | Some s => '(r, s) ← set_sample fuel s size; Some (r, put_set m subnet s)
    end.

Definition GetMap (m : manager) (subnet : SubnetID) : result vdr_error (gmap NodeID GetValidatorOutput) :=
  match subnetToVdrs m !! subnet with None => Ok ∅ | Some s => set_Map s end.

(** The loop over the sets, in the order of the iteration. *)
Fixpoint register_all (sets : list (SubnetID * vdrSet)) (l : Listener) (m : manager)
    : result vdr_error (manager * list notification) :=
  match sets with
  | [] => Ok (m, [])
  | (subnet, s) :: sets =>
      let? '(s, notes) := RegisterManagerCallbackListener s l in
      let? '(m, rest) := register_all sets l (put_set m subnet s) in
      Ok (m, notes ++ rest)
  end.

Definition RegisterCallbackListener (range : gmap SubnetID vdrSet → list (SubnetID * vdrSet)) (m : manager)
    (l : Listener) : result vdr_error (manager * list notification) :=
  register_all (range (subnetToVdrs m)) l (mkManager (subnetToVdrs m) (callbackListeners m ++ [l])).

Definition RegisterSetCallbackListener (m : manager) (subnet : SubnetID) (l : Listener)
    : result vdr_error (manager * list notification) :=
  let? '(s, notes) := set_RegisterCallbackListener (set_for m subnet) l in
  Ok (put_set m subnet s, notes).

Definition GetValidatorIDs (m : manager) (subnet : SubnetID) : result vdr_error (list NodeID) :=
  match subnetToVdrs m !! subnet with None => Ok [] | Some s => set_GetValidatorIDs s end.

(** ** The set of a subnet *)

Notation info := (option PublicKey * TxID * Z)%type.
Definition info_of (v : Validator) : info := (v_PublicKey v, v_TxID v, v_Weight v).

(** The abstract state: what the set knows of each of its validators. *)
Definition abs (s : vdrSet) : gmap NodeID info := omap (λ p, info_of <$> store s !! p) (vdrs s).

Record set_ok (s : vdrSet) : Prop := {
  ok_slice i p : vdrSlice s !! i = Some p → ∃ v,
    store s !! p = Some v ∧ v_index v = i ∧ vdrs s !! v_NodeID v = Some p ∧ weights s !! i = Some (v_Weight v);
  ok_vdrs n p : vdrs s !! n = Some p → ∃ v,
    store s !! p = Some v ∧ v_NodeID v = n ∧ vdrSlice s !! v_index v = Some p;
  ok_length : length (weights s) = length (vdrSlice s);
  ok_weights : Forall (λ w, is_u64 w ∧ 0 < w) (weights s);
  ok_total : totalWeight s = total (weights s);
  ok_fresh p : (next_ptr s ≤ p)%nat → store s !! p = None;
  ok_sampler : samplerInitialized s = true → wr_ready (set_sampler s) (weights s);
}.

Lemma abs_lookup s n : abs s !! n = vdrs s !! n ≫= (λ p, info_of <$> store s !! p).
Proof. apply lookup_omap. Qed.

Lemma weights_u64 s : set_ok s → Forall is_u64 (weights s).
Proof. intros Hok. eapply Forall_impl; [apply (ok_weights s Hok)|]. naive_solver. Qed.

(** What the invariant says of a validator that is in the set. *)
Lemma set_ok_vdr s n p :
  set_ok s → vdrs s !! n = Some p → ∃ v,
    store s !! p = Some v ∧ v_NodeID v = n ∧ vdrSlice s !! v_index v = Some p
    ∧ weights s !! v_index v = Some (v_Weight v) ∧ is_u64 (v_Weight v) ∧ 0 < v_Weight v ∧ abs s !! n = Some (info_of v).
Proof.
  intros Hok E. destruct (ok_vdrs s Hok n p E) as (v & Ev & En & Es). exists v.
  destruct (ok_slice s Hok _ _ Es) as (v' & Ev' & _ & _ & Ew). simplify_eq.
  destruct (Forall_lookup_1 _ _ _ _ (ok_weights s Hok) Ew). split_and!; try done. by rewrite abs_lookup, E; simpl; rewrite Ev.
Qed.

Lemma abs_None s n : set_ok s → abs s !! n = None ↔ vdrs s !! n = None.
Proof.
  intros Hok. rewrite abs_lookup. destruct (vdrs s !! n) as [p|] eqn:E; simpl; [|done].
  destruct (set_ok_vdr s n p Hok E) as (v & -> & _). done.
Qed.

(** Different validators are different objects at different positions. *)
Lemma ptr_inj s n n' p : set_ok s → vdrs s !! n = Some p → vdrs s !! n' = Some p → n = n'.
Proof.
  intros Hok E E'. destruct (ok_vdrs s Hok _ _ E) as (v & Ev & <- & _).
  destruct (ok_vdrs s Hok _ _ E') as (v' & Ev' & <- & _). congruence.
Qed.

Lemma slice_inj s i j p : set_ok s → vdrSlice s !! i = Some p → vdrSlice s !! j = Some p → i = j.
Proof.
  intros Hok E E'. destruct (ok_slice s Hok _ _ E) as (v & Ev & <- & _).
  destruct (ok_slice s Hok _ _ E') as (v' & Ev' & <- & _). congruence.
Qed.

Lemma set_ok_new subnet ls : set_ok (newSet subnet ls).
Proof. by split. Qed.

Lemma abs_new subnet ls : abs (newSet subnet ls) = ∅.
Proof. unfold abs. apply omap_empty. Qed.

(** *** Adding a validator *)

Lemma set_add_spec s n pk tx w :
  set_ok s → is_u64 w → 0 < w →
  match abs s !! n with
  | Some _ => set_add s n pk tx w = Err ErrDuplicateValidator
  | None => ∃ s', set_add s n pk tx w = Ok (s', callCallbacks s (OnValidatorAdded n pk tx w))
      ∧ set_ok s' ∧ abs s' = <[n := (pk, tx, w)]> (abs s)
      ∧ subnetID s' = subnetID s ∧ managerCallbackListeners s' = managerCallbackListeners s
      ∧ setCallbackListeners s' = setCallbackListeners s
  end.
Proof.
  intros Hok Hw Hpos. unfold set_add. destruct (vdrs s !! n) as [p|] eqn:E.
  { destruct (set_ok_vdr s n p Hok E) as (v & _ & _ & _ & _ & _ & _ & ->). done. }
  rewrite (proj2 (abs_None s n Hok) E). eexists. split; [done|].
  pose proof Hok as [H1 H2 H3 H4 H5 H6 H7].
  assert (∀ n' p, vdrs s !! n' = Some p → p ≠ next_ptr s) as Hne.
  { intros n' p E' ->. destruct (H2 _ _ E') as (v & Ev & _). rewrite H6 in Ev by lia. done. }
  split; [|split; [|done]].
  - split; simpl.
    + intros i p Hp. apply lookup_app_Some in Hp as [Hp|[Hi Hp]].
      * destruct (H1 i p Hp) as (v & Ev & Ei & En & Ew). exists v.
        rewrite (lookup_insert_ne (store s)) by (symmetry; by eapply Hne).
        rewrite (lookup_insert_ne (vdrs s)) by congruence.
        split_and!; try done. by apply lookup_app_l_Some.
      * destruct (i - length (vdrSlice s))%nat as [|k] eqn:Ek; simplify_eq/=.
        eexists. rewrite lookup_insert_eq. split; [done|]. simpl. assert (i = length (vdrSlice s)) as -> by lia.
        split_and!; [done|apply lookup_insert_eq|]. rewrite lookup_app_r, H3, Nat.sub_diag by lia. done.
    + intros n' p Hp. apply lookup_insert_Some in Hp as [[<- <-]|[Hn Hp]].
      * eexists. rewrite lookup_insert_eq. split; [done|]. simpl. split; [done|].
        rewrite lookup_app_r, Nat.sub_diag by lia. done.
      * destruct (H2 n' p Hp) as (v & Ev & En & Es). exists v. rewrite lookup_insert_ne by (symmetry; eauto).
        split_and!; try done. by apply lookup_app_l_Some.
    + rewrite !length_app, H3. done.
    + apply Forall_app. split; [done|]. by apply Forall_singleton.
    + rewrite sum_app, H5. unfold total at 3. simpl. lia.
    + intros p Hp. rewrite lookup_insert_ne by lia. apply H6. lia.
    + done.
  - apply map_eq. intros n'. rewrite abs_lookup. simpl. rewrite !lookup_insert. case_decide as En.
    + subst. simpl. by rewrite lookup_insert_eq.
    + rewrite abs_lookup. destruct (vdrs s !! n') as [p|] eqn:E'; simpl; [|done].
      by rewrite lookup_insert_ne by (symmetry; eauto).
Qed.

(** *** Changing a weight *)

Lemma total_insert l i x y : l !! i = Some x → total (<[i := y]> l) = total l - x + y.
Proof.
  revert i. induction l as [|a l IH]; intros [|i] E; simplify_eq/=; [lia|].
  change (a + total (<[i := y]> l) = a + total l - x + y). rewrite IH by done. lia.
Qed.

Definition reweighted (s : vdrSet) (p : nat) (v : Validator) (w t : Z) : vdrSet :=
  mkSet (subnetID s) (<[p := set_weight v w]> (store s)) (next_ptr s) (vdrs s) (vdrSlice s)
    (<[v_index v := w]> (weights s)) t false (set_sampler s) (managerCallbackListeners s) (setCallbackListeners s).

Lemma reweighted_ok s n p v w t :
  set_ok s → vdrs s !! n = Some p → store s !! p = Some v → v_NodeID v = n → is_u64 w → 0 < w →
  t = totalWeight s - v_Weight v + w →
  set_ok (reweighted s p v w t) ∧ abs (reweighted s p v w t) = <[n := (v_PublicKey v, v_TxID v, w)]> (abs s).
Proof.
  intros Hok Hp Hv Hn Hw Hpos Ht. destruct (set_ok_vdr s n p Hok Hp) as (v' & Ev' & _ & Es & Ew & _). simplify_eq.
  pose proof Hok as [H1 H2 H3 H4 H5 H6 H7]. assert (v_index v < length (weights s))%nat as Hi by (by eapply lookup_lt_Some).
  split; [split; simpl|].
  - intros i q Hq. destruct (decide (q = p)) as [->|Hne].
    + assert (i = v_index v) as -> by (by eapply slice_inj). eexists. rewrite lookup_insert_eq. split; [done|]. simpl.
      split_and!; try done. by apply list_lookup_insert_eq.
    + destruct (H1 i q Hq) as (u & Eu & Ei & En & Ewu). exists u. rewrite lookup_insert_ne by done. split_and!; try done.
      rewrite list_lookup_insert_ne; [done|]. intros <-. congruence.
  - intros n' q Hq. destruct (H2 n' q Hq) as (u & Eu & En & Eus). destruct (decide (q = p)) as [->|Hne].
    + eexists. rewrite lookup_insert_eq. split; [done|]. simpl. simplify_eq. done.
    + exists u. by rewrite lookup_insert_ne by done.
  - by rewrite length_insert.
  - by apply Forall_insert.
  - rewrite (total_insert _ _ (v_Weight v)) by done. lia.
  - intros q Hq. rewrite lookup_insert_ne; [by apply H6|]. intros ->. by rewrite H6 in Hv.
  - done.
  - apply map_eq. intros n'. rewrite abs_lookup. simpl. rewrite lookup_insert. case_decide as En.
    + subst n'. rewrite Hp. simpl. by rewrite lookup_insert_eq.
    + rewrite abs_lookup. destruct (vdrs s !! n') as [q|] eqn:E; simpl; [|done].
      rewrite lookup_insert_ne; [done|]. intros <-. apply En. by eapply ptr_inj.
Qed.

Lemma slice_set_ok {A} (l : list A) i a b : l !! i = Some b → slice_set l i a = Ok (<[i := a]> l).
Proof. intros E. unfold slice_set. by rewrite decide_True by (by eapply lookup_lt_Some). Qed.

(** What an operation does to the rest of the set. *)
Definition same_listeners (s s' : vdrSet) : Prop :=
  subnetID s' = subnetID s ∧ managerCallbackListeners s' = managerCallbackListeners s
  ∧ setCallbackListeners s' = setCallbackListeners s.

Lemma addWeight_spec s n w :
  set_ok s → is_u64 w → 0 < w →
  match abs s !! n with
  | None => addWeight s n w = Err ErrMissingValidator
  | Some (pk, tx, w0) =>
      if w0 + w <=? MaxUint64 then
        ∃ s', addWeight s n w = Ok (s', callCallbacks s (OnValidatorWeightChanged n w0 (w0 + w)))
          ∧ set_ok s' ∧ abs s' = <[n := (pk, tx, w0 + w)]> (abs s) ∧ same_listeners s s'
      else addWeight s n w = Err (ErrMath ErrOverflow)
  end.
Proof.
  intros Hok Hw Hpos. unfold addWeight. destruct (vdrs s !! n) as [p|] eqn:E.
  2: { by rewrite (proj2 (abs_None s n Hok) E). }
  destruct (set_ok_vdr s n p Hok E) as (v & Ev & En & Es & Ew & Hu & Hp & ->). unfold info_of. rewrite Ev. simpl.
  rewrite Add64_exact by done. destruct (Z.leb_spec (v_Weight v + w) MaxUint64); simpl; [|done].
  rewrite (slice_set_ok _ _ _ _ Ew). simpl. eexists. split; [done|].
  assert (is_u64 (v_Weight v + w)) as Hu' by (unfold is_u64 in *; lia).
  destruct (reweighted_ok s n p v _ (totalWeight s + w) Hok E Ev En Hu') as [Hs1 Hs2]; [lia|lia|].
  split; [exact Hs1|]. split; [exact Hs2|done].
Qed.

(** *** Removing a validator *)

Definition removed (s : vdrSet) (n : NodeID) (v : Validator) (q : nat) (vq : Validator) : vdrSet :=
  let lastIndex := (length (vdrSlice s) - 1)%nat in
  mkSet (subnetID s) (<[q := set_index vq (v_index v)]> (store s)) (next_ptr s) (delete n (vdrs s))
    (take lastIndex (<[v_index v := q]> (vdrSlice s))) (take lastIndex (<[v_index v := v_Weight vq]> (weights s)))
    (totalWeight s - v_Weight v) false (set_sampler s) (managerCallbackListeners s) (setCallbackListeners s).

(** Moving the last element to the place of a removed one. *)
Lemma take_insert_total l i x z :
  l !! i = Some x → last l = Some z → total (take (length l - 1) (<[i := z]> l)) = total l - x.
Proof.
  intros Hi Hz. destruct l as [|y l _] using rev_ind; [done|].
  rewrite last_snoc in Hz. injection Hz as ->. rewrite length_app. simpl.
  replace (length l + 1 - 1)%nat with (length l) by lia. rewrite sum_app. unfold total at 3. simpl.
  destruct (decide (i < length l)%nat).
  - rewrite insert_app_l by done. rewrite take_app_length' by (by rewrite length_insert).
    rewrite lookup_app_l in Hi by done. rewrite (total_insert _ _ x) by done. lia.
  - assert (i = length l) as ->.
    { apply lookup_lt_Some in Hi. rewrite length_app in Hi. simpl in Hi. lia. }
    rewrite lookup_app_r, Nat.sub_diag in Hi by lia. simplify_eq/=.
    rewrite insert_app_r_alt, Nat.sub_diag by lia. simpl. rewrite take_app_length. lia.
Qed.

Lemma lookup_take_insert {A} (l : list A) i j a :
  (i < length l)%nat → (j < length l - 1)%nat →
  take (length l - 1) (<[i := a]> l) !! j = if decide (j = i) then Some a else l !! j.
Proof.
  intros Hi Hj. rewrite lookup_take_lt by done. case_decide as E.
  - subst. by apply list_lookup_insert_eq.
  - by rewrite list_lookup_insert_ne.
Qed.

Lemma removed_ok s n p v q vq :
  set_ok s → vdrs s !! n = Some p → store s !! p = Some v → v_NodeID v = n →
  vdrSlice s !! (length (vdrSlice s) - 1)%nat = Some q → store s !! q = Some vq →
  set_ok (removed s n v q vq) ∧ abs (removed s n v q vq) = delete n (abs s).
Proof.
  intros Hok Hp Hv Hn Hq Hvq. destruct (set_ok_vdr s n p Hok Hp) as (v' & Ev' & _ & Es & Ew & _). simplify_eq.
  pose proof Hok as [H1 H2 H3 H4 H5 H6 H7]. destruct (H1 _ _ Hq) as (vq' & Evq' & Eiq & Enq & Ewq). simplify_eq.
  set (l := (length (vdrSlice s) - 1)%nat) in *. assert (v_index v < length (vdrSlice s))%nat as Hi by (by eapply lookup_lt_Some).
  assert (∀ j, (j < l)%nat → take l (<[v_index v := q]> (vdrSlice s)) !! j
    = if decide (j = v_index v) then Some q else vdrSlice s !! j) as Hsl by (intros; by apply lookup_take_insert).
  assert (∀ j, (j < l)%nat → take l (<[v_index v := v_Weight vq]> (weights s)) !! j
    = if decide (j = v_index v) then Some (v_Weight vq) else weights s !! j) as Hwl.
  { intros j Hj. unfold l in *. rewrite <- H3 in *. apply lookup_take_insert; lia. }
  assert (v_index v = l → q = p) as Hlast by (intros E; rewrite E in Es; congruence).
  assert (v_index v ≠ l → q ≠ p) as Hnlast by (intros E ->; apply E; by eapply slice_inj).
  split; [split; simpl|].
  - intros i r Hr. assert (i < l)%nat as Hil.
    { apply lookup_lt_Some in Hr. rewrite length_take in Hr. lia. }
    fold l in Hr. rewrite Hsl in Hr by done. rewrite Hwl by done. destruct (decide (i = v_index v)) as [->|Hne].
    + simplify_eq. eexists. rewrite lookup_insert_eq. split; [done|]. simpl. split_and!; try done.
      rewrite lookup_delete_ne; [done|]. intros E. apply Hnlast; [lia|]. rewrite E in Hp. congruence.
    + destruct (H1 i r Hr) as (u & Eu & Ei & En & Ewu). exists u.
      rewrite lookup_insert_ne; [|intros ->; assert (i = l) by (by eapply slice_inj); lia].
      split_and!; try done. rewrite lookup_delete_ne; [done|]. intros E. rewrite <- E in En. by simplify_eq.
  - intros n' r Hr. apply lookup_delete_Some in Hr as [Hne Hr]. destruct (H2 n' r Hr) as (u & Eu & En & Eus).
    assert (r ≠ p) as Hrp by (intros ->; apply Hne; by eapply ptr_inj).
    assert (v_index u < length (vdrSlice s))%nat by (by eapply lookup_lt_Some).
    destruct (decide (r = q)) as [->|Hrq].
    + assert (u = vq) as -> by congruence. eexists. rewrite lookup_insert_eq. split; [done|]. simpl. split; [done|].
      fold l. rewrite Hsl; [by rewrite decide_True|]. assert (v_index v ≠ l) by (intros E; apply Hrp; auto). lia.
    + exists u. rewrite lookup_insert_ne by done. split_and!; try done. fold l.
      assert (v_index u ≠ l) by (intros E; rewrite E in Eus; congruence). rewrite Hsl by lia.
      rewrite decide_False; [done|]. intros E. rewrite E in Eus. congruence.
  - rewrite !length_take, !length_insert. lia.
  - apply Forall_take, Forall_insert; [done|]. exact (Forall_lookup_1 _ _ _ _ H4 Ewq).
  - fold l. unfold l. rewrite <- H3. rewrite (take_insert_total _ _ (v_Weight v)); [lia|done|].
    rewrite last_lookup. replace (pred (length (weights s))) with (length (vdrSlice s) - 1)%nat by lia. done.
  - intros r Hr. rewrite lookup_insert_ne; [by apply H6|]. intros ->. by rewrite H6 in Hvq.
  - done.
  - apply map_eq. intros n'. rewrite abs_lookup. simpl. rewrite !lookup_delete. case_decide as E; [done|].
    rewrite abs_lookup. destruct (vdrs s !! n') as [r|] eqn:Er; simpl; [|done].
    destruct (decide (r = q)) as [->|]; [by rewrite lookup_insert_eq, Hvq|by rewrite lookup_insert_ne].
Qed.

Lemma removeWeight_spec s n w :
  set_ok s → is_u64 w → 0 < w →
  match abs s !! n with
  | None => removeWeight s n w = Err ErrMissingValidator
  | Some (pk, tx, w0) =>
      if w0 <? w then removeWeight s n w = Err (ErrMath ErrUnderflow)
      else if w0 =? w then
        ∃ s', removeWeight s n w = Ok (s', callCallbacks s (OnValidatorRemoved n w0))
          ∧ set_ok s' ∧ abs s' = delete n (abs s) ∧ same_listeners s s'
      else
        ∃ s', removeWeight s n w = Ok (s', callCallbacks s (OnValidatorWeightChanged n w0 (w0 - w)))
          ∧ set_ok s' ∧ abs s' = <[n := (pk, tx, w0 - w)]> (abs s) ∧ same_listeners s s'
  end.
Proof.
  intros Hok Hw Hpos. unfold removeWeight. destruct (vdrs s !! n) as [p|] eqn:E.
  2: { by rewrite (proj2 (abs_None s n Hok) E). }
  destruct (set_ok_vdr s n p Hok E) as (v & Ev & En & Es & Ew & Hu & Hp & ->). unfold info_of. rewrite Ev. simpl.
  rewrite Sub_exact by done.
  destruct (Z.ltb_spec (v_Weight v) w), (Z.leb_spec w (v_Weight v)); try lia; simpl; [done|].
  destruct (Z.eqb_spec (v_Weight v) w) as [Eq|Eq].
  - rewrite (proj2 (Z.eqb_eq _ _)) by lia.
    destruct (lookup_lt_is_Some_2 (vdrSlice s) (length (vdrSlice s) - 1)) as [q Hq].
    { apply lookup_lt_Some in Es. lia. }
    destruct (ok_slice s Hok _ _ Hq) as (vq & Evq & _). rewrite Hq. simpl. rewrite Evq. simpl.
    rewrite (slice_set_ok _ _ _ _ Es), (slice_set_ok _ _ _ _ Ew). simpl. eexists. split; [done|].
    destruct (removed_ok s n p v q vq) as [Hs1 Hs2]; try done. unfold removed in *. rewrite Eq in Hs1, Hs2.
    split; [exact Hs1|]. split; [exact Hs2|done].
  - rewrite (proj2 (Z.eqb_neq _ _)) by lia. rewrite (slice_set_ok _ _ _ _ Ew). simpl. eexists. split; [done|].
    assert (is_u64 (v_Weight v - w)) as Hu' by (unfold is_u64 in *; lia).
    destruct (reweighted_ok s n p v _ (totalWeight s - w) Hok E Ev En Hu') as [Hs1 Hs2]; [lia|lia|].
    split; [exact Hs1|]. split; [exact Hs2|done].
Qed.

(** *** Reading *)

Definition weight_of (i : info) : Z := i.2.
Definition weight_in (m : gmap NodeID info) (n : NodeID) : Z := default 0 (weight_of <$> m !! n).
Definition total_in (m : gmap NodeID info) : Z := map_sum (weight_of <$> m).

Lemma getWeight_spec s n : set_ok s → getWeight s n = Ok (weight_in (abs s) n).
Proof.
  intros Hok. unfold getWeight, weight_in. destruct (vdrs s !! n) as [p|] eqn:E.
  - destruct (set_ok_vdr s n p Hok E) as (v & Ev & _ & _ & _ & _ & _ & ->). by rewrite Ev.
  - by rewrite (proj2 (abs_None s n Hok) E).
Qed.

Lemma weight_in_range s n : set_ok s → is_u64 (weight_in (abs s) n).
Proof.
  intros Hok. unfold weight_in. destruct (vdrs s !! n) as [p|] eqn:E.
  - by destruct (set_ok_vdr s n p Hok E) as (v & _ & _ & _ & _ & Hu & _ & ->).
  - by rewrite (proj2 (abs_None s n Hok) E).
Qed.

Lemma set_get_spec s n :
  set_ok s → ∃ o, set_get s n = Ok o ∧ info_of <$> o = abs s !! n ∧ ∀ v, o = Some v → v_NodeID v = n.
Proof.
  intros Hok. unfold set_get. destruct (vdrs s !! n) as [p|] eqn:E.
  - destruct (set_ok_vdr s n p Hok E) as (v & Ev & En & _ & _ & _ & _ & ->). rewrite Ev. simpl.
    exists (Some v). split_and!; try done. by intros ? [= <-].
  - exists None. by rewrite (proj2 (abs_None s n Hok) E).
Qed.

(** In any order of iteration the result is the sum, or an overflow. *)
Lemma subsetWeight_spec s l t :
  set_ok s → is_u64 t →
  subsetWeight s l t =
    if t + total (weight_in (abs s) <$> l) <=? MaxUint64
    then Ok (t + total (weight_in (abs s) <$> l)) else Err (ErrMath ErrOverflow).
Proof.
  intros Hok. revert t. induction l as [|n l IH]; intros t Ht.
  { simpl. rewrite Z.add_0_r. unfold is_u64 in Ht. by rewrite (proj2 (Z.leb_le _ _)) by lia. }
  cbn [subsetWeight]. rewrite getWeight_spec by done. cbn [result_bind]. rewrite fmap_cons, total_cons.
  pose proof (weight_in_range s n Hok) as Hn. rewrite Add64_exact by done.
  assert (0 ≤ total (weight_in (abs s) <$> l)) as Hl.
  { apply sum_nonneg, Forall_fmap, Forall_forall. intros x _. simpl. apply weight_in_range. done. }
  unfold is_u64 in *. destruct (Z.leb_spec (t + weight_in (abs s) n) MaxUint64); cbn [math_result result_bind].
  - rewrite IH by lia. by rewrite Z.add_assoc.
  - by rewrite (proj2 (Z.leb_gt _ _)) by lia.
Qed.

Lemma deref_all_lookup s l :
  (∀ p, p ∈ l → is_Some (store s !! p)) →
  ∃ vs, deref_all s l = Ok vs ∧ length vs = length l ∧ ∀ i p, l !! i = Some p → vs !! i = store s !! p.
Proof.
  induction l as [|p l IH]; intros Hl.
  { by exists []. }
  destruct (Hl p) as [v Ev]; [left|]. destruct IH as (vs & E & Hlen & Hvs); [intros q Hq; apply Hl; by right|].
  exists (v :: vs). simpl. rewrite Ev. simpl. rewrite E. split_and!; [done|simpl; lia|].
  intros [|i] q Hq; simplify_eq/=; [done|auto].
Qed.

(** The validators in the order of the slice. *)
Lemma vdrSlice_spec s :
  set_ok s → ∃ vs, deref_all s (vdrSlice s) = Ok vs ∧ length vs = length (vdrSlice s)
  ∧ (∀ i p, vdrSlice s !! i = Some p → vs !! i = store s !! p) ∧ weights s = v_Weight <$> vs
  ∧ NoDup (v_NodeID <$> vs) ∧ abs s = list_to_map ((λ v, (v_NodeID v, info_of v)) <$> vs).
Proof.
  intros Hok. destruct (deref_all_lookup s (vdrSlice s)) as (vs & E & Hlen & Hvs).
  { intros p (i & Hi)%list_elem_of_lookup. destruct (ok_slice s Hok i p Hi) as (v & -> & _). eauto. }
  assert (∀ i v, vs !! i = Some v → ∃ p, vdrSlice s !! i = Some p ∧ store s !! p = Some v
    ∧ vdrs s !! v_NodeID v = Some p ∧ weights s !! i = Some (v_Weight v)) as Hi.
  { intros i v Hv. destruct (lookup_lt_is_Some_2 (vdrSlice s) i) as [p Hp]; [rewrite <- Hlen; by eapply lookup_lt_Some|].
    exists p. rewrite (Hvs i p Hp) in Hv. destruct (ok_slice s Hok i p Hp) as (v' & Ev & _ & ? & ?). by simplify_eq. }
  assert (NoDup (v_NodeID <$> vs)) as Hnd.
  { apply NoDup_alt. intros i j n. rewrite !list_lookup_fmap_Some. intros (v & -> & Hv) (v' & En & Hv').
    destruct (Hi _ _ Hv) as (p & Hp & _ & Ep & _). destruct (Hi _ _ Hv') as (p' & Hp' & _ & Ep' & _).
    rewrite En, Ep' in Ep. simplify_eq. by eapply slice_inj. }
  exists vs. split_and!; try done.
  - apply list_eq_same_length with (n := length (vdrSlice s)); [by rewrite length_fmap|apply ok_length, Hok|].
    intros i x y _ Hx Hy. apply list_lookup_fmap_Some in Hy as (v & -> & Hv).
    destruct (Hi _ _ Hv) as (_ & _ & _ & _ & Ew). congruence.
  - apply map_eq. intros n. apply option_eq. intros x.
    rewrite <- elem_of_list_to_map by (by rewrite <- list_fmap_compose).
    rewrite list_elem_of_fmap, abs_lookup, bind_Some. split.
    + intros (p & Ep & Hx). destruct (ok_vdrs s Hok n p Ep) as (v & Ev & En & Es). rewrite Ev in Hx. simplify_eq/=.
      exists v. split; [done|]. apply (list_elem_of_lookup_2 _ (v_index v)). by rewrite (Hvs _ _ Es).
    + intros (v & [= -> ->] & (i & Hv)%list_elem_of_lookup). destruct (Hi _ _ Hv) as (p & _ & Ev & Ep & _).
      exists p. by rewrite Ev.
Qed.

Lemma total_in_list (vs : list Validator) :
  NoDup (v_NodeID <$> vs) →
  total_in (list_to_map ((λ v, (v_NodeID v, info_of v)) <$> vs)) = total (v_Weight <$> vs)
  ∧ base.size (list_to_map (M := gmap NodeID info) ((λ v, (v_NodeID v, info_of v)) <$> vs)) = length vs.
Proof.
  unfold total_in. induction vs as [|v vs IH]; intros Hnd.
  { simpl list_to_map. by rewrite fmap_empty, map_sum_empty, map_size_empty. }
  rewrite fmap_cons, NoDup_cons in Hnd. destruct Hnd as [Hv Hnd]. destruct (IH Hnd) as [IH1 IH2].
  rewrite !fmap_cons, total_cons, list_to_map_cons.
  assert (list_to_map (M := gmap NodeID info) ((λ v, (v_NodeID v, info_of v)) <$> vs) !! v_NodeID v = None) as Hn.
  { apply not_elem_of_list_to_map. by rewrite <- list_fmap_compose. }
  split.
  - rewrite fmap_insert, map_sum_insert_new by (by rewrite lookup_fmap, Hn). rewrite IH1. done.
  - rewrite map_size_insert_None by done. simpl. by rewrite IH2.
Qed.

Lemma total_spec s : set_ok s → totalWeight s = total_in (abs s) ∧ set_len s = base.size (abs s).
Proof.
  intros Hok. destruct (vdrSlice_spec s Hok) as (vs & _ & Hlen & _ & Hw & Hnd & ->).
  destruct (total_in_list vs Hnd) as [H1' H2']. unfold set_len. rewrite H1', H2', <- Hw. split; [apply ok_total, Hok|done].
Qed.

Definition output_of (n : NodeID) (i : info) : GetValidatorOutput := mkOutput n i.1.1 i.2.

Lemma set_Map_spec s : set_ok s → set_Map s = Ok (map_imap (λ n i, Some (output_of n i)) (abs s)).
Proof.
  intros Hok. unfold set_Map. destruct (vdrSlice_spec s Hok) as (vs & -> & _ & _ & _ & Hnd & ->). simpl. f_equal.
  clear Hok. induction vs as [|v vs IH] using rev_ind.
  { simpl. by rewrite map_imap_empty. }
  rewrite fmap_app in Hnd. apply NoDup_app in Hnd as (Hnd & Hd & _). rewrite foldl_app, IH by done. simpl.
  rewrite fmap_app. simpl. apply map_eq. intros n. rewrite map_lookup_imap.
  assert (∀ (l : list (NodeID * info)) k x, k ∉ l.*1 → list_to_map (M := gmap NodeID info) (l ++ [(k, x)]) = <[k := x]> (list_to_map l)) as Hsnoc.
  { intros l k x Hk. rewrite list_to_map_snoc; done. }
  rewrite Hsnoc.
  - rewrite !lookup_insert. case_decide as E; [by subst|]. by rewrite map_lookup_imap.
  - rewrite <- list_fmap_compose. intros Hin. apply (Hd (v_NodeID v)); [done|]. simpl. by left.
Qed.

Lemma set_GetValidatorIDs_spec s :
  set_ok s → ∃ l, set_GetValidatorIDs s = Ok l ∧ NoDup l ∧ ∀ n, n ∈ l ↔ is_Some (abs s !! n).
Proof.
  intros Hok. unfold set_GetValidatorIDs. destruct (vdrSlice_spec s Hok) as (vs & -> & _ & _ & _ & Hnd & ->). simpl.
  eexists. split; [done|]. split; [done|]. intros n.
  rewrite <- (elem_of_dom (D := gset NodeID)), dom_list_to_map_L, elem_of_list_to_set.
  by rewrite <- list_fmap_compose.
Qed.

(** *** Sampling *)

Definition node_occurrences (n : NodeID) (l : list NodeID) : nat := length (filter (λ x, x = n) l).

Lemma sampled_ids_spec s vs idx :
  set_ok s → length vs = length (vdrSlice s) → (∀ i p, vdrSlice s !! i = Some p → vs !! i = store s !! p) →
  (∀ i, i ∈ idx → (i < length vs)%nat) →
  ∃ l, sampled_ids s idx = Ok l ∧ Some <$> l = (λ i, v_NodeID <$> vs !! i) <$> idx.
Proof.
  intros Hok Hlen Hvs. induction idx as [|i idx IH]; intros Hi.
  { by exists []. }
  destruct IH as (l & El & Hl); [intros j Hj; apply Hi; by right|].
  destruct (lookup_lt_is_Some_2 (vdrSlice s) i) as [p Hp]; [rewrite <- Hlen; apply Hi; left|].
  destruct (ok_slice s Hok i p Hp) as (v & Ev & _). simpl. rewrite Hp. simpl. rewrite Ev. simpl. rewrite El. simpl.
  eexists. split; [done|]. rewrite fmap_cons, Hl. rewrite (Hvs i p Hp), Ev. done.
Qed.

Lemma node_occurrences_index (vs : list Validator) idx l i v :
  NoDup (v_NodeID <$> vs) → Some <$> l = (λ i, v_NodeID <$> vs !! i) <$> idx → vs !! i = Some v →
  node_occurrences (v_NodeID v) l = occurrences i idx.
Proof.
  intros Hnd. unfold node_occurrences, occurrences. revert idx. induction l as [|n l IH]; intros [|j idx] E Hv; try done.
  rewrite !fmap_cons in E. injection E as Ej E. rewrite !filter_cons.
  assert (n = v_NodeID v ↔ j = i) as Hiff.
  { split.
    - intros ->. apply (NoDup_lookup _ j i (v_NodeID v) Hnd); [by rewrite list_lookup_fmap|]. by rewrite list_lookup_fmap, Hv.
    - intros ->. rewrite Hv in Ej. by simplify_eq/=. }
  destruct (decide (n = v_NodeID v)), (decide (j = i)); try tauto; cbn [length]; by rewrite (IH idx).
Qed.

(** A sample of the set: its size, and how often a validator can occur. *)
Definition sampled (m : gmap NodeID info) (size : nat) (r : result vdr_error (list NodeID)) : Prop :=
  match r with
  | Ok l => length l = size ∧ Z.of_nat size ≤ total_in m
      ∧ ∀ n, n ∈ l → Z.of_nat (node_occurrences n l) ≤ weight_in m n ∧ is_Some (m !! n)
  | Err ErrInsufficientWeight => total_in m < Z.of_nat size
  | Err (ErrSampler e) => e = ErrWeightsTooLarge ∨ (e = SErrOverflow ∧ MaxUint64 < total_in m)
  | Err _ => False
  end.

Lemma set_ensure_sampler_spec {L : WeightedLaws W} s :
  set_ok s →
  match set_ensure_sampler s with
  | Ok s' => set_ok s' ∧ samplerInitialized s' = true ∧ abs s' = abs s ∧ same_listeners s s'
  | Err (ErrSampler e) => e = ErrWeightsTooLarge ∨ (e = SErrOverflow ∧ MaxUint64 < total_in (abs s))
  | Err _ => False
  end.
Proof.
  intros Hok. unfold set_ensure_sampler. destruct (samplerInitialized s) eqn:Hi; [done|].
  pose proof (wr_Initialize_spec (set_sampler s) (weights s) (weights_u64 s Hok)) as Hr.
  destruct (wr_Initialize _ _) as [sam|e].
  - split; [|done]. destruct Hok as [H1 H2 H3 H4 H5 H6 H7]. split; try done.
  - destruct (total_spec s Hok) as [Ht _]. rewrite (ok_total s Hok) in Ht. by rewrite <- Ht.
Qed.

Lemma set_sample_spec {L : WeightedLaws W} (source_range : ∀ s, is_u64 (Uint64 s).1) fuel s size :
  fair Uint64 fuel → set_ok s →
  ∃ r s', set_sample fuel s size = Some (r, s') ∧ set_ok s' ∧ abs s' = abs s ∧ same_listeners s s'
    ∧ sampled (abs s) size r.
Proof.
  intros Hf Hok. unfold set_sample. pose proof (set_ensure_sampler_spec s Hok) as He.
  destruct (set_ensure_sampler s) as [s1|e].
  2: { exists (Err e), s. split_and!; try done. by destruct e. }
  destruct He as (Hok1 & Hi & Ea & Hsl). pose proof (ok_sampler s1 Hok1 Hi) as Hr.
  destruct (wr_Sample_spec Uint64 source_range fuel size (set_sampler s1) (weights s1) Hf Hr) as (o & sam & -> & Hr' & Ho).
  simpl. assert (set_ok (set_set_sampler s1 sam)) as Hok2 by (destruct Hok1 as [H1 H2 H3 H4 H5 H6 H7]; by split).
  destruct (total_spec s1 Hok1) as [Ht _]. rewrite (ok_total s1 Hok1), Ea in Ht.
  destruct o as [idx|]; simpl in Ho.
  2: { do 2 eexists. split; [done|]. split_and!; try done; try apply Hsl. simpl. lia. }
  destruct Ho as (Hlen & Hle & Hocc). destruct (vdrSlice_spec s1 Hok1) as (vs & _ & Hvl & Hvs & Hw & Hnd & Eabs).
  rewrite Hw in Hocc. destruct (sampled_ids_spec (set_set_sampler s1 sam) vs idx Hok2 Hvl Hvs) as (l & -> & El).
  { intros i Hin. destruct (Hocc i Hin) as (w & Ew & _). apply lookup_lt_Some in Ew. by rewrite length_fmap in Ew. }
  do 2 eexists. split; [done|]. split_and!; try done; try apply Hsl. simpl. split_and!; [|lia|].
  { apply (f_equal length) in El. rewrite !length_fmap in El. lia. }
  intros n Hn. assert (Some n ∈ Some <$> l) as Hsn by (by apply list_elem_of_fmap_2). rewrite El in Hsn.
  apply list_elem_of_fmap in Hsn as (i & Ei & Hin). symmetry in Ei. apply fmap_Some in Ei as (v & Ev & ->).
  destruct (Hocc i Hin) as (w & Ew & Hw'). rewrite list_lookup_fmap, Ev in Ew. simplify_eq/=.
  rewrite (node_occurrences_index vs idx l i v Hnd El Ev).
  assert (abs s !! v_NodeID v = Some (info_of v)) as Ea'.
  { rewrite <- Ea, Eabs. apply elem_of_list_to_map_1; [by rewrite <- list_fmap_compose|].
    apply list_elem_of_fmap. exists v. split; [done|]. by eapply list_elem_of_lookup_2. }
  unfold weight_in. rewrite Ea'. simpl. eauto.
Qed.

(** ** The manager *)

(** The validators of a subnet. *)
Definition vmap (m : manager) (sn : SubnetID) : gmap NodeID info :=
  match subnetToVdrs m !! sn with Some s => abs s | None => ∅ end.

Definition manager_ok (m : manager) : Prop := ∀ sn s, subnetToVdrs m !! sn = Some s →
  set_ok s ∧ subnetID s = sn ∧ managerCallbackListeners s = callbackListeners m.

(** What a call changes in the validators of its subnet. *)
Inductive change :=
  | ChAddStaker (nodeID : NodeID) (pk : option PublicKey) (txID : TxID) (weight : Z)
  | ChAddWeight (nodeID : NodeID) (weight : Z)
  | ChRemoveWeight (nodeID : NodeID) (weight : Z).

Definition change_weight (c : change) : Z :=
  match c with ChAddStaker _ _ _ w | ChAddWeight _ w | ChRemoveWeight _ w => w end.

Definition spec_change (m : gmap NodeID info) (c : change) : result vdr_error (event * gmap NodeID info) :=
  if change_weight c =? 0 then Err ErrZeroWeight
  else
    match c with
    | ChAddStaker n pk tx w =>
        match m !! n with
        | Some _ => Err ErrDuplicateValidator
        | None => Ok (OnValidatorAdded n pk tx w, <[n := (pk, tx, w)]> m)
        end
    | ChAddWeight n w =>
        match m !! n with
        | None => Err ErrMissingValidator
        | Some (pk, tx, w0) =>
            if w0 + w <=? MaxUint64 then Ok (OnValidatorWeightChanged n w0 (w0 + w), <[n := (pk, tx, w0 + w)]> m)
            else Err (ErrMath ErrOverflow)
        end
    | ChRemoveWeight n w =>
        match m !! n with
        | None => Err ErrMissingValidator
        | Some (pk, tx, w0) =>
            if w0 <? w then Err (ErrMath ErrUnderflow)
            else if w0 =? w then Ok (OnValidatorRemoved n w0, delete n m)
            else Ok (OnValidatorWeightChanged n w0 (w0 - w), <[n := (pk, tx, w0 - w)]> m)
        end
    end.

Definition run_change (m : manager) (sn : SubnetID) (c : change) : result vdr_error (list notification) * manager :=
  match c with
  | ChAddStaker n pk tx w => AddStaker m sn n pk tx w
  | ChAddWeight n w => AddWeight m sn n w
  | ChRemoveWeight n w => RemoveWeight m sn n w
  end.

Lemma vmap_put m sn s sn' : vmap (put_set m sn s) sn' = if decide (sn' = sn) then abs s else vmap m sn'.
Proof. unfold vmap. simpl. rewrite lookup_insert. by repeat case_decide; subst. Qed.

Lemma manager_ok_put m sn s :
  manager_ok m → set_ok s → subnetID s = sn → managerCallbackListeners s = callbackListeners m →
  manager_ok (put_set m sn s).
Proof. intros Hm ???. intros sn' s'. simpl. rewrite lookup_insert. case_decide; [naive_solver|apply Hm]. Qed.

Lemma set_for_ok m sn :
  manager_ok m → set_ok (set_for m sn) ∧ subnetID (set_for m sn) = sn
    ∧ managerCallbackListeners (set_for m sn) = callbackListeners m ∧ abs (set_for m sn) = vmap m sn.
Proof.
  intros Hm. unfold set_for, vmap. destruct (subnetToVdrs m !! sn) as [s|] eqn:E; simpl.
  - by destruct (Hm sn s E) as (? & ? & ?).
  - split_and!; [apply set_ok_new|done|done|apply abs_new].
Qed.

(** The listeners that a set of the subnet would call. *)
Definition set_listeners (m : manager) (sn : SubnetID) : list Listener :=
  match subnetToVdrs m !! sn with Some s => setCallbackListeners s | None => [] end.

Definition notes_of (m : manager) (sn : SubnetID) (e : event) : list notification :=
  ((λ l, mkNote (ToManagerListener l) sn e) <$> callbackListeners m)
  ++ ((λ l, mkNote (ToSetListener l) sn e) <$> set_listeners m sn).

Lemma callCallbacks_notes m sn s e :
  subnetID s = sn → managerCallbackListeners s = callbackListeners m → setCallbackListeners s = set_listeners m sn →
  callCallbacks s e = notes_of m sn e.
Proof. intros E1 E2 E3. unfold callCallbacks, notes_of. by rewrite E1, E2, E3. Qed.

(** A manager in which one subnet changed to [vm]. *)
Definition changed (m m' : manager) (sn : SubnetID) (vm : gmap NodeID info) : Prop :=
  manager_ok m' ∧ callbackListeners m' = callbackListeners m
  ∧ (∀ sn', set_listeners m' sn' = set_listeners m sn')
  ∧ ∀ sn', vmap m' sn' = if decide (sn' = sn) then vm else vmap m sn'.

Lemma changed_refl m sn : manager_ok m → changed m m sn (vmap m sn).
Proof. intros Hm. split_and!; try done. intros sn'. by case_decide; subst. Qed.

Lemma changed_put m sn s :
  manager_ok m → set_ok s → subnetID s = sn → managerCallbackListeners s = callbackListeners m →
  setCallbackListeners s = set_listeners m sn → changed m (put_set m sn s) sn (abs s).
Proof.
  intros Hm Hs Esn El Esl. split_and!; [by apply manager_ok_put|done| |intros; apply vmap_put].
  intros sn'. unfold set_listeners in *. simpl. rewrite lookup_insert. by case_decide; subst.
Qed.

Lemma set_listeners_for m sn : setCallbackListeners (set_for m sn) = set_listeners m sn.
Proof. unfold set_for, set_listeners. by destruct (subnetToVdrs m !! sn). Qed.

Lemma AddStaker_spec m sn n pk tx w :
  manager_ok m → is_u64 w →
  match spec_change (vmap m sn) (ChAddStaker n pk tx w) with
  | Ok (e, vm) => ∃ m', AddStaker m sn n pk tx w = (Ok (notes_of m sn e), m') ∧ changed m m' sn vm
  | Err err => ∃ m', AddStaker m sn n pk tx w = (Err err, m') ∧ changed m m' sn (vmap m sn)
  end.
Proof.
  intros Hm Hw. unfold spec_change, AddStaker. simpl. destruct (Z.eqb_spec w 0); [eauto using changed_refl|].
  destruct (set_for_ok m sn Hm) as (Hok & Esn & El & Ea). pose proof (set_listeners_for m sn) as Esl.
  pose proof (set_add_spec (set_for m sn) n pk tx w Hok Hw ltac:(unfold is_u64 in Hw; lia)) as Hs. rewrite Ea in Hs.
  destruct (vmap m sn !! n) as [i|].
  - rewrite Hs. eexists. split; [done|]. rewrite <- Ea. by apply changed_put.
  - destruct Hs as (s' & -> & Hok' & Ea' & E1 & E2 & E3). rewrite (callCallbacks_notes m sn) by done.
    eexists. split; [done|]. rewrite <- Ea'. apply changed_put; (done || congruence).
Qed.

Lemma same_listeners_changed m sn s s' :
  manager_ok m → subnetToVdrs m !! sn = Some s → set_ok s' → same_listeners s s' →
  changed m (put_set m sn s') sn (abs s').
Proof.
  intros Hm E Hok (E1 & E2 & E3). destruct (Hm sn s E) as (_ & Esn & El). apply changed_put; try done; try congruence.
  unfold set_listeners. by rewrite E.
Qed.

Lemma AddWeight_spec m sn n w :
  manager_ok m → is_u64 w →
  match spec_change (vmap m sn) (ChAddWeight n w) with
  | Ok (e, vm) => ∃ m', AddWeight m sn n w = (Ok (notes_of m sn e), m') ∧ changed m m' sn vm
  | Err err => ∃ m', AddWeight m sn n w = (Err err, m') ∧ changed m m' sn (vmap m sn)
  end.
Proof.
  intros Hm Hw. unfold spec_change, AddWeight. simpl. destruct (Z.eqb_spec w 0); [eauto using changed_refl|].
  destruct (subnetToVdrs m !! sn) as [s|] eqn:E.
  2: { assert (vmap m sn = ∅) as Ev by (unfold vmap; by rewrite E). rewrite Ev, lookup_empty, <- Ev. eauto using changed_refl. }
  assert (vmap m sn = abs s) as Ev by (unfold vmap; by rewrite E). destruct (Hm sn s E) as (Hok & Esn & El).
  pose proof (addWeight_spec s n w Hok Hw ltac:(unfold is_u64 in Hw; lia)) as Hs. rewrite <- Ev in Hs.
  destruct (vmap m sn !! n) as [[[pk tx] w0]|]; [|rewrite Hs; eauto using changed_refl].
  destruct (w0 + w <=? MaxUint64); [|rewrite Hs; eauto using changed_refl].
  destruct Hs as (s' & -> & Hok' & Ea' & Hsl).
  rewrite (callCallbacks_notes m sn) by (done || (unfold set_listeners; by rewrite E)).
  eexists. split; [done|]. rewrite <- Ea'. by eapply same_listeners_changed.
Qed.

(** Dropping an empty set that nobody listens to. *)
Lemma dropped_changed m sn s s' :
  manager_ok m → subnetToVdrs m !! sn = Some s → set_ok s' → same_listeners s s' →
  changed m (if (set_len s' =? 0)%nat && negb (HasCallbackRegistered s')
             then mkManager (delete sn (subnetToVdrs m)) (callbackListeners m) else put_set m sn s') sn (abs s').
Proof.
  intros Hm E Hok Hsl. destruct (_ && _) eqn:Hc; [|by eapply same_listeners_changed].
  apply andb_true_iff in Hc as [Hlen Hcb]. apply Nat.eqb_eq in Hlen. destruct (total_spec s' Hok) as [_ Hsz].
  rewrite Hlen in Hsz. symmetry in Hsz. apply map_size_empty_iff in Hsz.
  assert (setCallbackListeners s = []) as Esl.
  { destruct Hsl as (_ & _ & <-). unfold HasCallbackRegistered in Hcb. by destruct (setCallbackListeners s'). }
  split_and!; try done.
  - intros sn' s''. simpl. intros [_ E']%lookup_delete_Some. by apply Hm.
  - intros sn'. unfold set_listeners. simpl. rewrite lookup_delete. case_decide; [|done]. subst. by rewrite E.
  - intros sn'. unfold vmap. simpl. rewrite lookup_delete. repeat case_decide; subst; try done. 
Qed.

Lemma RemoveWeight_spec m sn n w :
  manager_ok m → is_u64 w →
  match spec_change (vmap m sn) (ChRemoveWeight n w) with
  | Ok (e, vm) => ∃ m', RemoveWeight m sn n w = (Ok (notes_of m sn e), m') ∧ changed m m' sn vm
  | Err err => ∃ m', RemoveWeight m sn n w = (Err err, m') ∧ changed m m' sn (vmap m sn)
  end.
Proof.
  intros Hm Hw. unfold spec_change, RemoveWeight. simpl. destruct (Z.eqb_spec w 0); [eauto using changed_refl|].
  destruct (subnetToVdrs m !! sn) as [s|] eqn:E.
  2: { assert (vmap m sn = ∅) as Ev by (unfold vmap; by rewrite E). rewrite Ev, lookup_empty, <- Ev. eauto using changed_refl. }
  assert (vmap m sn = abs s) as Ev by (unfold vmap; by rewrite E). destruct (Hm sn s E) as (Hok & Esn & El).
  pose proof (removeWeight_spec s n w Hok Hw ltac:(unfold is_u64 in Hw; lia)) as Hs. rewrite <- Ev in Hs.
  destruct (vmap m sn !! n) as [[[pk tx] w0]|]; [|rewrite Hs; eauto using changed_refl].
  destruct (w0 <? w); [rewrite Hs; eauto using changed_refl|].
  destruct (w0 =? w); destruct Hs as (s' & -> & Hok' & Ea' & Hsl);
    rewrite (callCallbacks_notes m sn) by (done || (unfold set_listeners; by rewrite E));
    rewrite <- Ea'; pose proof (dropped_changed m sn s s' Hm E Hok' Hsl) as Hd; destruct (_ && _); eauto.
Qed.

Lemma run_change_spec m sn c :
  manager_ok m → is_u64 (change_weight c) →
  match spec_change (vmap m sn) c with
  | Ok (e, vm) => ∃ m', run_change m sn c = (Ok (notes_of m sn e), m') ∧ changed m m' sn vm
  | Err err => ∃ m', run_change m sn c = (Err err, m') ∧ changed m m' sn (vmap m sn)
  end.
Proof.
  destruct c as [n pk tx w|n w|n w]; intros Hm Hw; simpl run_change.
  - by apply AddStaker_spec.
  - by apply AddWeight_spec.
  - by apply RemoveWeight_spec.
Qed.

(** ** What the listeners know *)

#[local] Instance target_eq_dec : EqDecision target.
Proof. solve_decision. Defined.

(** The weights that a listener computes from the calls it receives. *)
Definition apply_event (v : gmap NodeID Z) (e : event) : gmap NodeID Z :=
  match e with
  | OnValidatorAdded n _ _ w => <[n := w]> v
  | OnValidatorRemoved n _ => delete n v
  | OnValidatorWeightChanged n _ w => <[n := w]> v
  end.

Definition received (t : target) (sn : SubnetID) (log : list notification) : list event :=
  n_event <$> filter (λ x, n_target x = t ∧ n_subnet x = sn) log.

Definition view (t : target) (sn : SubnetID) (log : list notification) : gmap NodeID Z :=
  foldl apply_event ∅ (received t sn log).

Definition listening (m : manager) (t : target) (sn : SubnetID) : Prop :=
  match t with
  | ToManagerListener l => l ∈ callbackListeners m
  | ToSetListener l => l ∈ set_listeners m sn
  end.

(** A listener knows the weights from its registration on, and is not called before. *)
Definition informed (m : manager) (log : list notification) : Prop := ∀ t sn,
  (listening m t sn → view t sn log = weight_of <$> vmap m sn)
  ∧ (¬ listening m t sn → received t sn log = []).

Lemma received_app t sn log log' : received t sn (log ++ log') = received t sn log ++ received t sn log'.
Proof. unfold received. by rewrite filter_app, fmap_app. Qed.

Lemma view_app t sn log log' : view t sn (log ++ log') = foldl apply_event (view t sn log) (received t sn log').
Proof. unfold view. by rewrite received_app, foldl_app. Qed.

Lemma received_map (f : Listener → target) (inj : ∀ l l', f l = f l' → l = l') ls sn e t sn' :
  received t sn' ((λ l, mkNote (f l) sn e) <$> ls)
  = if decide (sn' = sn) then replicate (length (filter (λ l, f l = t) ls)) e else [].
Proof.
  unfold received. induction ls as [|l ls IH]; [by case_decide|]. rewrite fmap_cons, !filter_cons. simpl.
  destruct (decide (sn' = sn)) as [->|Hsn].
  - destruct (decide (f l = t)).
    + rewrite decide_True by done. rewrite fmap_cons, IH. done.
    + rewrite decide_False by tauto. done.
  - rewrite decide_False by naive_solver. done.
Qed.

(** The calls of one event: one for each registration of the listener. *)
Lemma received_notes m sn e t sn' :
  ∃ k, received t sn' (notes_of m sn e) = replicate k e ∧ (sn' ≠ sn → k = 0%nat) ∧ (sn' = sn → k = 0%nat ↔ ¬ listening m t sn).
Proof.
  unfold notes_of. rewrite received_app, !received_map by naive_solver. destruct (decide (sn' = sn)) as [->|Hsn].
  2: { by exists 0%nat. }
  assert (∀ {A} (P : A → Prop) `{∀ x, Decision (P x)} l, length (filter P l) = 0%nat ↔ ∀ x, x ∈ l → ¬ P x) as Hf.
  { intros A P ? l. rewrite length_zero_iff_nil. split.
    - intros E x Hx HP. assert (x ∈ filter P l) as Hin by (by apply list_elem_of_filter). rewrite E in Hin. by apply not_elem_of_nil in Hin.
    - intros Hl. apply length_zero_iff_nil. by apply filter_length_none. }
  rewrite <- replicate_add. eexists. split; [done|]. split; [done|]. intros _.
  rewrite Nat.eq_add_0, !Hf. destruct t as [l|l]; simpl; (split; [|naive_solver]).
  - intros [Hn _] Hl. by eapply Hn.
  - intros [_ Hn] Hl. by eapply Hn.
Qed.

Lemma apply_event_idemp v e : apply_event (apply_event v e) e = apply_event v e.
Proof. destruct e; simpl; by rewrite ?insert_insert_eq, ?delete_delete_eq. Qed.

Lemma foldl_replicate_event v e k : k ≠ 0%nat → foldl apply_event v (replicate k e) = apply_event v e.
Proof.
  destruct k as [|k]; [done|]. intros _. simpl. induction k as [|k IH]; [done|]. simpl. by rewrite apply_event_idemp.
Qed.

(** The event of a change describes it. *)
Lemma spec_change_event vm c e vm' : spec_change vm c = Ok (e, vm') → weight_of <$> vm' = apply_event (weight_of <$> vm) e.
Proof.
  unfold spec_change. case_match; [done|]. destruct c; repeat case_match; intros; simplify_eq/=;
    by rewrite ?fmap_insert, ?fmap_delete.
Qed.

Lemma informed_change m m' sn c e vm log :
  informed m log → spec_change (vmap m sn) c = Ok (e, vm) → changed m m' sn vm →
  informed m' (log ++ notes_of m sn e).
Proof.
  intros Hi Hc (_ & El & Esl & Ev) t sn'. assert (listening m' t sn' ↔ listening m t sn') as Hl.
  { unfold listening. destruct t; [by rewrite El|by rewrite Esl]. }
  rewrite Hl, view_app, received_app, Ev. destruct (received_notes m sn e t sn') as (k & -> & Hk0 & Hk).
  destruct (Hi t sn') as [H1' H2']. split.
  - intros Hlt. rewrite H1' by done. case_decide as E.
    + subst. rewrite foldl_replicate_event; [symmetry; by eapply spec_change_event|].
      intros E. by apply (Hk eq_refl) in E.
    + by rewrite (Hk0 E).
  - intros Hlt. rewrite H2' by done. destruct (decide (sn' = sn)) as [E|E].
    + subst. by rewrite (proj2 (Hk eq_refl)).
    + by rewrite (Hk0 E).
Qed.

(** *** Registration *)

Lemma received_added t t' sn sn' s vs :
  subnetID s = sn →
  received t' sn' (added_notes t s vs)
  = if decide (t' = t ∧ sn' = sn)
    then (λ v, OnValidatorAdded (v_NodeID v) (v_PublicKey v) (v_TxID v) (v_Weight v)) <$> vs else [].
Proof.
  intros Esn. unfold received, added_notes. rewrite Esn. destruct (decide (t' = t ∧ sn' = sn)) as [[-> ->]|E].
  - induction vs as [|v vs IH]; [done|]. rewrite fmap_cons, filter_cons_True by done. by rewrite !fmap_cons, IH.
  - induction vs as [|v vs IH]; [done|]. rewrite fmap_cons, filter_cons_False by naive_solver. done.
Qed.

(** The calls at a registration tell the listener all weights. *)
Lemma apply_added (vs : list Validator) v :
  NoDup (v_NodeID <$> vs) →
  foldl apply_event v ((λ v, OnValidatorAdded (v_NodeID v) (v_PublicKey v) (v_TxID v) (v_Weight v)) <$> vs)
  = (weight_of <$> list_to_map (M := gmap NodeID info) ((λ v, (v_NodeID v, info_of v)) <$> vs)) ∪ v.
Proof.
  revert v. induction vs as [|x vs IH]; intros v Hnd.
  { simpl. by rewrite fmap_empty, (left_id ∅ (∪)). }
  rewrite fmap_cons, NoDup_cons in Hnd. destruct Hnd as [Hx Hnd]. rewrite !fmap_cons. cbn [foldl apply_event].
  rewrite IH, list_to_map_cons, fmap_insert by done. rewrite <- insert_union_r, insert_union_l.
  - done.
  - rewrite lookup_fmap, not_elem_of_list_to_map_1; [done|]. by rewrite <- list_fmap_compose.
Qed.

Lemma registered_view s vs v :
  abs s = list_to_map ((λ v, (v_NodeID v, info_of v)) <$> vs) → NoDup (v_NodeID <$> vs) →
  v = ∅ ∨ v = weight_of <$> abs s →
  foldl apply_event v ((λ v, OnValidatorAdded (v_NodeID v) (v_PublicKey v) (v_TxID v) (v_Weight v)) <$> vs)
  = weight_of <$> abs s.
Proof.
  intros Ea Hnd Hv. rewrite apply_added by done. rewrite <- Ea. destruct Hv as [-> | ->].
  - apply (right_id ∅ (∪)).
  - apply map_union_idemp.
Qed.

Lemma RegisterManager_spec s l :
  set_ok s → ∃ s' vs, RegisterManagerCallbackListener s l = Ok (s', added_notes (ToManagerListener l) s vs)
  ∧ set_ok s' ∧ abs s' = abs s ∧ subnetID s' = subnetID s ∧ setCallbackListeners s' = setCallbackListeners s
  ∧ managerCallbackListeners s' = managerCallbackListeners s ++ [l]
  ∧ NoDup (v_NodeID <$> vs) ∧ abs s = list_to_map ((λ v, (v_NodeID v, info_of v)) <$> vs).
Proof.
  intros Hok. unfold RegisterManagerCallbackListener. set (s' := mkSet _ _ _ _ _ _ _ _ _ _ _).
  assert (set_ok s') as Hok' by (destruct Hok; by split).
  destruct (vdrSlice_spec s' Hok') as (vs & -> & _ & _ & _ & Hnd & Ea). exists s', vs. simpl. done.
Qed.

Lemma RegisterSet_spec s l :
  set_ok s → ∃ s' vs, set_RegisterCallbackListener s l = Ok (s', added_notes (ToSetListener l) s vs)
  ∧ set_ok s' ∧ abs s' = abs s ∧ subnetID s' = subnetID s ∧ setCallbackListeners s' = setCallbackListeners s ++ [l]
  ∧ managerCallbackListeners s' = managerCallbackListeners s
  ∧ NoDup (v_NodeID <$> vs) ∧ abs s = list_to_map ((λ v, (v_NodeID v, info_of v)) <$> vs).
Proof.
  intros Hok. unfold set_RegisterCallbackListener. set (s' := mkSet _ _ _ _ _ _ _ _ _ _ _).
  assert (set_ok s') as Hok' by (destruct Hok; by split).
  destruct (vdrSlice_spec s' Hok') as (vs & -> & _ & _ & _ & Hnd & Ea). exists s', vs. simpl. done.
Qed.

Lemma RegisterSetCallbackListener_spec m sn l log :
  manager_ok m → informed m log →
  ∃ m' notes, RegisterSetCallbackListener m sn l = Ok (m', notes) ∧ manager_ok m' ∧ informed m' (log ++ notes)
    ∧ ∀ sn', vmap m' sn' = vmap m sn'.
Proof.
  intros Hm Hi. unfold RegisterSetCallbackListener. destruct (set_for_ok m sn Hm) as (Hok & Esn & El & Ea).
  pose proof (set_listeners_for m sn) as Esl.
  destruct (RegisterSet_spec (set_for m sn) l Hok) as (s' & vs & -> & Hok' & Ea' & Esn' & Esl' & El' & Hnd & Evs). simpl.
  assert (∀ sn', vmap (put_set m sn s') sn' = vmap m sn') as Ev.
  { intros sn'. rewrite vmap_put. case_decide; [subst; congruence|done]. }
  do 2 eexists. split; [done|]. split; [apply manager_ok_put; (done || congruence)|]. split; [|done].
  intros t sn'. rewrite Ev, view_app, received_app, (received_added _ _ sn) by done. destruct (Hi t sn') as [H1' H2'].
  assert (∀ l', l' ∈ set_listeners (put_set m sn s') sn' ↔ l' ∈ set_listeners m sn' ∨ (l' = l ∧ sn' = sn)) as Hsl.
  { intros l'. unfold set_listeners at 1. simpl. rewrite lookup_insert. case_decide as E.
    - subst sn'. rewrite Esl', Esl, elem_of_app, list_elem_of_singleton. tauto.
    - change (l' ∈ set_listeners m sn' ↔ l' ∈ set_listeners m sn' ∨ (l' = l ∧ sn' = sn)). naive_solver. }
  case_decide as E.
  - destruct E as [-> ->]. split.
    + intros _. rewrite <- Ea. apply registered_view; [done|done|]. rewrite Ea.
      destruct (decide (l ∈ set_listeners m sn)) as [Hin|Hin]; [right; by apply H1'|left].
      unfold view. by rewrite H2'.
    + intros Hl. exfalso. apply Hl. simpl. apply Hsl. auto.
  - rewrite app_nil_r. simpl. assert (listening (put_set m sn s') t sn' ↔ listening m t sn') as ->; [|done].
    destruct t as [l'|l']; simpl; [done|]. rewrite Hsl. naive_solver.
Qed.

(** The set after the registration, and the calls it made. *)
Definition registered (l : Listener) (sn : SubnetID) (s : vdrSet) (m' : manager) (notes : list notification) : Prop :=
  ∃ s' vs, subnetToVdrs m' !! sn = Some s' ∧ set_ok s' ∧ abs s' = abs s ∧ subnetID s' = sn
  ∧ setCallbackListeners s' = setCallbackListeners s ∧ managerCallbackListeners s' = managerCallbackListeners s ++ [l]
  ∧ NoDup (v_NodeID <$> vs) ∧ abs s = list_to_map ((λ v, (v_NodeID v, info_of v)) <$> vs)
  ∧ ∀ t, received t sn notes = if decide (t = ToManagerListener l)
      then (λ v, OnValidatorAdded (v_NodeID v) (v_PublicKey v) (v_TxID v) (v_Weight v)) <$> vs else [].

Lemma register_all_spec sets l m :
  NoDup sets.*1 → (∀ sn s, (sn, s) ∈ sets → set_ok s ∧ subnetID s = sn) →
  ∃ m' notes, register_all sets l m = Ok (m', notes) ∧ callbackListeners m' = callbackListeners m
  ∧ (∀ sn, sn ∉ sets.*1 → subnetToVdrs m' !! sn = subnetToVdrs m !! sn ∧ ∀ t, received t sn notes = [])
  ∧ ∀ sn s, (sn, s) ∈ sets → registered l sn s m' notes.
Proof.
  revert m. induction sets as [|[sn s] sets IH]; intros m Hnd Hs.
  { exists m, []. split_and!; try done. intros sn s Hin. by apply not_elem_of_nil in Hin. }
  rewrite fmap_cons, NoDup_cons in Hnd. destruct Hnd as [Hn Hnd]. destruct (Hs sn s) as [Hok Esn]; [left|].
  cbn [register_all].
  destruct (RegisterManager_spec s l Hok) as (s' & vs & -> & Hok' & Ea & Esn' & Esl & El & Hvs & Evs). cbn [result_bind].
  destruct (IH (put_set m sn s')) as (m' & notes & -> & Em & Hout & Hin); [done|intros; apply Hs; by right|]. cbn [result_bind].
  destruct (Hout sn Hn) as [Esn2 Hr]. simpl in Esn2. rewrite lookup_insert_eq in Esn2.
  do 2 eexists. split; [done|]. split_and!; [done| |].
  - intros sn' Hsn'. rewrite fmap_cons, not_elem_of_cons in Hsn'. destruct Hsn' as [Hne Hsn']. simpl in Hne.
    destruct (Hout sn' Hsn') as [E1 E2]. split; [rewrite E1; simpl; by rewrite lookup_insert_ne|].
    intros t. rewrite received_app, (received_added _ _ sn) by done. rewrite decide_False by naive_solver. apply E2.
  - intros sn' s1 [[= -> ->]|Hin']%elem_of_cons.
    + exists s', vs. split_and!; try done; [congruence|]. intros t.
      rewrite received_app, Hr, app_nil_r, (received_added _ _ sn) by done. repeat case_decide; naive_solver.
    + assert (sn' ≠ sn) as Hne by (intros ->; apply Hn; by apply (list_elem_of_fmap_2 fst sets (sn, s1))).
      destruct (Hin sn' s1 Hin') as (s2 & vs2 & H1' & H2' & H3' & H4' & H5' & H6' & H7' & H8' & H9').
      exists s2, vs2. split_and!; try done. intros t. rewrite received_app, (received_added _ _ sn) by done.
      rewrite decide_False by naive_solver. apply H9'.
Qed.

Lemma RegisterCallbackListener_spec range m l log :
  (∀ x, range x ≡ₚ map_to_list x) → manager_ok m → informed m log →
  ∃ m' notes, RegisterCallbackListener range m l = Ok (m', notes) ∧ manager_ok m' ∧ informed m' (log ++ notes)
    ∧ ∀ sn, vmap m' sn = vmap m sn.
Proof.
  intros Hrange Hm Hi. unfold RegisterCallbackListener. set (sets := range (subnetToVdrs m)).
  assert (∀ sn s, (sn, s) ∈ sets ↔ subnetToVdrs m !! sn = Some s) as Hin.
  { intros sn s. unfold sets. by rewrite Hrange, elem_of_map_to_list. }
  assert (NoDup sets.*1) as Hnd by (unfold sets; rewrite Hrange; apply NoDup_fst_map_to_list).
  destruct (register_all_spec sets l (mkManager (subnetToVdrs m) (callbackListeners m ++ [l])) Hnd)
    as (m' & notes & E & Em & Hout & Hreg).
  { intros sn s E%Hin. by destruct (Hm sn s E) as (? & ? & _). }
  assert (∀ sn, subnetToVdrs m !! sn = None → sn ∉ sets.*1) as Hno.
  { intros sn Hn ((sn' & s) & -> & Hs)%list_elem_of_fmap. apply Hin in Hs. simpl in *. congruence. }
  exists m', notes. split; [done|]. simpl in Em.
  assert (∀ sn, set_listeners m' sn = set_listeners m sn ∧ vmap m' sn = vmap m sn) as Hv.
  { intros sn. unfold set_listeners, vmap. destruct (subnetToVdrs m !! sn) as [s|] eqn:Es.
    - destruct (Hreg sn s (proj2 (Hin sn s) Es)) as (s' & vs & -> & _ & -> & _ & -> & _). done.
    - destruct (Hout sn (Hno sn Es)) as [-> _]. simpl. by rewrite Es. }
  split_and!; [| |apply Hv].
  - intros sn s' Es'. destruct (subnetToVdrs m !! sn) as [s|] eqn:Es.
    + destruct (Hreg sn s (proj2 (Hin sn s) Es)) as (s2 & vs & E2 & Hok & _ & Esn & _ & El & _). simplify_eq.
      split_and!; try done. destruct (Hm _ _ Es) as (_ & _ & El'). congruence.
    + destruct (Hout sn (Hno sn Es)) as [E2 _]. simpl in E2. congruence.
  - intros t sn. destruct (Hv sn) as [Esl ->]. destruct (Hi t sn) as [H1' H2'].
    rewrite view_app, received_app. destruct (decide (t = ToManagerListener l)) as [->|Ht].
    + assert (view (ToManagerListener l) sn log = ∅ ∨ view (ToManagerListener l) sn log = weight_of <$> vmap m sn) as Hview.
      { destruct (decide (l ∈ callbackListeners m)); [right; by apply H1'|left]. unfold view. by rewrite H2'. }
      split; [intros _|intros Hl; exfalso; apply Hl; simpl; rewrite Em; set_solver].
      unfold vmap in *. destruct (subnetToVdrs m !! sn) as [s|] eqn:Es.
      * destruct (Hreg sn s (proj2 (Hin sn s) Es)) as (s' & vs & _ & _ & _ & _ & _ & _ & Hvs & Evs & ->).
        rewrite decide_True by done. by apply registered_view.
      * destruct (Hout sn (Hno sn Es)) as [_ ->]. simpl. rewrite fmap_empty in *. tauto.
    + assert (received t sn notes = []) as ->.
      { destruct (subnetToVdrs m !! sn) as [s|] eqn:Es.
        - destruct (Hreg sn s (proj2 (Hin sn s) Es)) as (s' & vs & _ & _ & _ & _ & _ & _ & _ & _ & ->).
          by rewrite decide_False.
        - by destruct (Hout sn (Hno sn Es)) as [_ ->]. }
      rewrite app_nil_r. simpl. assert (listening m' t sn ↔ listening m t sn) as ->; [|done].
      destruct t as [l'|l']; simpl; [|by rewrite Esl]. rewrite Em, elem_of_app, list_elem_of_singleton. naive_solver.
Qed.

(** ** Runs of the manager *)

Inductive op :=
  | OpChange (sn : SubnetID) (c : change)
  | OpSample (sn : SubnetID) (size : nat)
  | OpRegister (l : Listener)
  | OpRegisterSet (sn : SubnetID) (l : Listener).

(** A call on the manager with the log of all calls to listeners; [None] is a panic or a
    sample whose draws exceed the fuel. *)
Definition exec (range : gmap SubnetID vdrSet → list (SubnetID * vdrSet)) (fuel : nat)
    (st : manager * list notification) (o : op) : option (manager * list notification) :=
  match o with
  | OpChange sn c =>
      match run_change st.1 sn c with
      | (Ok notes, m) => Some (m, st.2 ++ notes)
      | (Err VPanic, _) => None
      | (Err _, m) => Some (m, st.2)
      end
  | OpSample sn size => '(_, m) ← Sample fuel st.1 sn size; Some (m, st.2)
  | OpRegister l => match RegisterCallbackListener range st.1 l with Ok (m, notes) => Some (m, st.2 ++ notes) | Err _ => None end
  | OpRegisterSet sn l => match RegisterSetCallbackListener st.1 sn l with Ok (m, notes) => Some (m, st.2 ++ notes) | Err _ => None end
  end.

Definition exec_all (range : gmap SubnetID vdrSet → list (SubnetID * vdrSet)) (fuel : nat) (ops : list op)
    : option (manager * list notification) :=
  foldl (λ acc o, st ← acc; exec range fuel st o) (Some (NewManager, [])) ops.

Definition op_ok (o : op) : Prop := match o with OpChange _ c => is_u64 (change_weight c) | _ => True end.

(** The validators of a subnet after an operation. *)
Definition spec_op (sn : SubnetID) (vm : gmap NodeID info) (o : op) : gmap NodeID info :=
  match o with
  | OpChange sn' c =>
      if decide (sn' = sn) then match spec_change vm c with Ok (_, vm') => vm' | Err _ => vm end else vm
  | _ => vm
  end.

Section runs.
Context {L : WeightedLaws W} (source_range : ∀ s, is_u64 (Uint64 s).1) (fuel : nat) (source_fair : fair Uint64 fuel).
Context (range : gmap SubnetID vdrSet → list (SubnetID * vdrSet)) (range_perm : ∀ x, range x ≡ₚ map_to_list x).

Lemma Sample_spec m sn size :
  manager_ok m → ∃ r m', Sample fuel m sn size = Some (r, m') ∧ changed m m' sn (vmap m sn)
  ∧ if (size =? 0)%nat then r = Ok []
    else match subnetToVdrs m !! sn with None => r = Err ErrMissingValidators | Some _ => sampled (vmap m sn) size r end.
Proof using source_range source_fair L.
  intros Hm. unfold Sample. destruct (size =? 0)%nat; [eauto 10 using changed_refl|].
  destruct (subnetToVdrs m !! sn) as [s|] eqn:E; [|eauto 10 using changed_refl].
  destruct (Hm sn s E) as (Hok & _ & _).
  destruct (set_sample_spec source_range fuel s size source_fair Hok) as (r & s' & -> & Hok' & Ea & Hsl & Hr). simpl.
  assert (vmap m sn = abs s) as Ev by (unfold vmap; by rewrite E). do 2 eexists. split; [done|]. rewrite Ev. split; [|done].
  rewrite <- Ea. by eapply same_listeners_changed.
Qed.

Lemma changed_informed m m' sn log :
  changed m m' sn (vmap m sn) → informed m log → informed m' log ∧ ∀ sn', vmap m' sn' = vmap m sn'.
Proof using Type.
  intros (_ & El & Esl & Ev) Hi. assert (∀ sn', vmap m' sn' = vmap m sn') as Ev'.
  { intros sn'. rewrite Ev. by case_decide; subst. }
  split; [|done]. intros t sn'. rewrite Ev'. assert (listening m' t sn' ↔ listening m t sn') as ->; [|apply Hi].
  unfold listening. destruct t; [by rewrite El|by rewrite Esl].
Qed.

(** Every call keeps the manager and the listeners right. *)
Lemma exec_spec m log o :
  manager_ok m → informed m log → op_ok o →
  ∃ m' log', exec range fuel (m, log) o = Some (m', log') ∧ manager_ok m' ∧ informed m' log'
    ∧ ∀ sn, vmap m' sn = spec_op sn (vmap m sn) o.
Proof using source_range source_fair range_perm L EqDecision2.
  intros Hm Hi Ho. destruct o as [sn c|sn size|l|sn l]; simpl.
  - pose proof (run_change_spec m sn c Hm Ho) as Hc. destruct (spec_change (vmap m sn) c) as [[e vm]|err] eqn:Es.
    + destruct Hc as (m' & -> & Hch). do 2 eexists. split; [done|]. split; [apply Hch|].
      split; [by eapply informed_change|]. intros sn'. destruct Hch as (_ & _ & _ & ->).
      destruct (decide (sn' = sn)) as [->|]; [by rewrite decide_True, Es|by rewrite decide_False].
    + destruct Hc as (m' & -> & Hch). destruct (changed_informed m m' sn log Hch Hi) as [Hi' Ev].
      exists m', log. split; [|split; [apply Hch|split; [done|]]].
      * unfold spec_change in Es. destruct err; try done. repeat case_match; simplify_eq/=.
      * intros sn'. rewrite Ev. case_decide; [subst; by rewrite Es|done].
  - destruct (Sample_spec m sn size Hm) as (r & m' & -> & Hch & _). simpl.
    destruct (changed_informed m m' sn log Hch Hi) as [Hi' Ev]. do 2 eexists. split; [done|]. split; [apply Hch|]. done.
  - destruct (RegisterCallbackListener_spec range m l log range_perm Hm Hi) as (m' & notes & -> & ? & ? & ?). eauto 10.
  - destruct (RegisterSetCallbackListener_spec m sn l log Hm Hi) as (m' & notes & -> & ? & ? & ?). eauto 10.
Qed.

Lemma exec_all_spec ops :
  Forall op_ok ops →
  ∃ m log, exec_all range fuel ops = Some (m, log) ∧ manager_ok m ∧ informed m log
    ∧ ∀ sn, vmap m sn = foldl (spec_op sn) ∅ ops.
Proof using source_range source_fair range_perm L EqDecision2.
  unfold exec_all. induction ops as [|o ops IH] using rev_ind; intros Hops.
  { exists NewManager, []. split; [done|]. split; [intros sn s; simpl; by rewrite lookup_empty|].
    assert (∀ sn, vmap NewManager sn = ∅) as Ev by (intros sn; unfold vmap; simpl; by rewrite lookup_empty).
    split; [|done]. intros t sn. split; [|done]. intros _. by rewrite Ev, fmap_empty. }
  apply Forall_app in Hops as [Hops Ho]. rewrite Forall_singleton in Ho.
  destruct (IH Hops) as (m & log & E & Hm & Hi & Ev). rewrite foldl_app, E. simpl.
  destruct (exec_spec m log o Hm Hi Ho) as (m' & log' & -> & Hm' & Hi' & Ev').
  exists m', log'. split_and!; try done. intros sn. by rewrite Ev', Ev, foldl_app.
Qed.

(** What the read operations return when the validators of the subnet are [vm]. *)
Record reads_ok (m : manager) (sn : SubnetID) (vm : gmap NodeID info) : Prop := {
  reads_weight n : GetWeight m sn n = Ok (weight_in vm n);
  reads_count : Count m sn = base.size vm;
  reads_total : TotalWeight m sn = if total_in vm <=? MaxUint64 then Ok (total_in vm) else Err ErrTotalWeightNotUint64;
  reads_subset l : SubsetWeight m sn l =
    let t := total (weight_in vm <$> l) in if t <=? MaxUint64 then Ok t else Err (ErrMath ErrOverflow);
  reads_map : GetMap m sn = Ok (map_imap (λ n i, Some (output_of n i)) vm);
  reads_validator n : ∃ o, GetValidator m sn n = Ok o ∧ info_of <$> o = vm !! n;
  reads_ids : ∃ l, GetValidatorIDs m sn = Ok l ∧ NoDup l ∧ ∀ n, n ∈ l ↔ is_Some (vm !! n);
}.

Lemma total_in_nonneg s : set_ok s → 0 ≤ total_in (abs s).
Proof using Type.
  intros Hok. destruct (total_spec s Hok) as [<- _]. rewrite (ok_total s Hok).
  apply sum_nonneg. eapply Forall_impl; [apply (ok_weights s Hok)|]. simpl. lia.
Qed.

Lemma manager_reads m sn : manager_ok m → reads_ok m sn (vmap m sn).
Proof using Type.
  intros Hm. unfold vmap. destruct (subnetToVdrs m !! sn) as [s|] eqn:E.
  - destruct (Hm sn s E) as (Hok & _ & _). destruct (total_spec s Hok) as [Ht Hl].
    split; unfold GetWeight, Count, TotalWeight, SubsetWeight, GetMap, GetValidator, GetValidatorIDs; rewrite E.
    + intros n. by apply getWeight_spec.
    + done.
    + unfold set_TotalWeight. rewrite Ht. pose proof (total_in_nonneg s Hok). unfold is_u64.
      destruct (Z.leb_spec (total_in (abs s)) MaxUint64); [by rewrite decide_True|by rewrite decide_False by lia].
    + intros l. by rewrite subsetWeight_spec.
    + by apply set_Map_spec.
    + intros n. destruct (set_get_spec s n Hok) as (o & Eo & Ei & _). eauto.
    + by apply set_GetValidatorIDs_spec.
  - split; unfold GetWeight, Count, TotalWeight, SubsetWeight, GetMap, GetValidator, GetValidatorIDs; rewrite E.
    + intros n. unfold weight_in. by rewrite lookup_empty.
    + by rewrite map_size_empty.
    + assert (total_in ∅ = 0) as ->; [|done]. unfold total_in. by rewrite fmap_empty, (map_sum_empty (K := NodeID)).
    + intros l. assert (total (weight_in ∅ <$> l) = 0) as ->; [|done].
      induction l as [|n l IH]; [done|]. rewrite fmap_cons, total_cons, IH. unfold weight_in. by rewrite lookup_empty.
    + by rewrite map_imap_empty.
    + intros n. exists None. by rewrite lookup_empty.
    + exists []. split_and!; [done|constructor|]. intros n. rewrite lookup_empty. split; [by intros ?%not_elem_of_nil|by intros [? ?]].
Qed.

(** ** Properties *)

(** C37. After any sequence of calls no call has panicked, the validators of every subnet are
    those that the changes define, and every read operation returns them; a change returns
    exactly the errors of its specification. *)
Theorem validators_refine ops :
  Forall op_ok ops →
  ∃ m log, exec_all range fuel ops = Some (m, log)
    ∧ (∀ sn, reads_ok m sn (foldl (spec_op sn) ∅ ops))
    ∧ ∀ sn c, is_u64 (change_weight c) →
        (run_change m sn c).1 =
          match spec_change (foldl (spec_op sn) ∅ ops) c with Ok (e, _) => Ok (notes_of m sn e) | Err err => Err err end.
Proof using source_range source_fair range_perm L EqDecision2.
  intros Hops. destruct (exec_all_spec ops Hops) as (m & log & E & Hm & _ & Ev). exists m, log. split_and!; [done| |].
  - intros sn. rewrite <- Ev. by apply manager_reads.
  - intros sn c Hc. rewrite <- Ev. pose proof (run_change_spec m sn c Hm Hc) as Hs.
    destruct (spec_change (vmap m sn) c) as [[e vm]|err]; by destruct Hs as (m' & -> & _).
Qed.

(** C38. After any sequence of calls, what a listener was told adds up to the weights of the
    validators: a listener of the manager for every subnet, a listener of a set for its
    subnet.  Nobody else was called. *)
Theorem listeners_informed ops :
  Forall op_ok ops →
  ∃ m log, exec_all range fuel ops = Some (m, log)
    ∧ ∀ t sn, (listening m t sn → view t sn log = weight_of <$> foldl (spec_op sn) ∅ ops)
        ∧ (¬ listening m t sn → received t sn log = []).
Proof using source_range source_fair range_perm L EqDecision2.
  intros Hops. destruct (exec_all_spec ops Hops) as (m & log & E & _ & Hi & Ev). exists m, log. split; [done|].
  intros t sn. rewrite <- Ev. apply Hi.
Qed.

(** After any sequence of calls a sample returns: validators of the subnet, as many as
    asked for, none of them more often than its weight, or an error when the total weight is
    less than the size or does not fit in 64 bits. *)
Theorem poll_sample_bounded ops sn size :
  Forall op_ok ops → size ≠ 0%nat →
  ∃ m log r m', exec_all range fuel ops = Some (m, log) ∧ Sample fuel m sn size = Some (r, m')
    ∧ (r = Err ErrMissingValidators ∨ sampled (foldl (spec_op sn) ∅ ops) size r)
    ∧ (foldl (spec_op sn) ∅ ops ≠ ∅ → sampled (foldl (spec_op sn) ∅ ops) size r).
Proof using source_range source_fair range_perm L EqDecision2.
  intros Hops Hsz. destruct (exec_all_spec ops Hops) as (m & log & E & Hm & _ & Ev).
  destruct (Sample_spec m sn size Hm) as (r & m' & Es & _ & Hr). apply Nat.eqb_neq in Hsz. rewrite Hsz in Hr.
  exists m, log, r, m'. rewrite <- Ev. split_and!; try done.
  - destruct (subnetToVdrs m !! sn); auto.
  - intros Hne. unfold vmap in *. by destruct (subnetToVdrs m !! sn).
Qed.
End runs.
End validators.

(** ** Witnesses *)

Definition sample_new : weightedWithoutReplacement (W := weightedHeap_weighted) (S := Z) :=
  mkWWR (W := weightedHeap_weighted) (mkReplacer 7 0 ∅ 0) [].

(** Node 1 joins subnet 0 with weight 5, node 2 with weight 3, a listener registers, node 1
    leaves and node 2 gains 4. *)
Definition sample_ops : list (op (NodeID := Z) (SubnetID := Z) (PublicKey := unit) (TxID := unit) (Listener := Z)) :=
  [OpChange 0 (ChAddStaker 1 None tt 5); OpChange 0 (ChAddStaker 2 None tt 3); OpRegister 9;
   OpChange 0 (ChRemoveWeight 1 5); OpChange 0 (ChAddWeight 2 4)].

Lemma sample_ops_ok : Forall op_ok sample_ops.
Proof. unfold sample_ops. repeat constructor; simpl; unfold MaxUint64; lia. Qed.

Lemma validators_refine_witness :
  ∃ m log, exec_all counter_source sample_new map_to_list 1 sample_ops = Some (m, log)
    ∧ TotalWeight m 0 = Ok 7 ∧ GetWeight m 0 1 = Ok 0.
Proof.
  destruct (validators_refine counter_source sample_new counter_source_range 1 counter_source_fair
    map_to_list (λ x, Permutation_refl _) sample_ops sample_ops_ok) as (m & log & E & H & _). exists m, log. split; [exact E|].
  split; [rewrite (reads_total _ _ _ (H 0)); reflexivity|rewrite (reads_weight _ _ _ (H 0)); reflexivity].
Defined.

Lemma listeners_informed_witness :
  ∃ m log, exec_all counter_source sample_new map_to_list 1 sample_ops = Some (m, log)
    ∧ (listening m (ToManagerListener 9) 0 →
       view (ToManagerListener 9) 0 log = weight_of <$> foldl (spec_op 0) ∅ sample_ops).
Proof.
  destruct (listeners_informed counter_source sample_new counter_source_range 1 counter_source_fair
    map_to_list (λ x, Permutation_refl _) sample_ops sample_ops_ok) as (m & log & E & H). exists m, log. split; [exact E|apply H].
Defined.

Lemma poll_sample_bounded_witness :
  ∃ m log r m', exec_all counter_source sample_new map_to_list 1 sample_ops = Some (m, log)
    ∧ Sample counter_source 1 m 0 4 = Some (r, m') ∧ sampled (foldl (spec_op 0) ∅ sample_ops) 4 r.
Proof.
  destruct (poll_sample_bounded counter_source sample_new counter_source_range 1 counter_source_fair
    map_to_list (λ x, Permutation_refl _) sample_ops 0 4 sample_ops_ok ltac:(done)) as (m & log & r & m' & E & Es & _ & H).
  exists m, log, r, m'. split; [exact E|]. split; [exact Es|]. apply H. done.
Defined.
