(* ===== verification/Funds.v ===== *)
(** * Spending funds

    Models the verification of transactions that move funds: the signature checks of
    [vms/secp256k1fx], the stakeable locks of [vms/platformvm/stakeable], the flow check of
    the X-chain ([vms/components/avax]) and the one of the P-chain
    ([vms/platformvm/utxo/verifier.go]), which also keeps locked funds with their owners.

    Identifiers, addresses and signatures are byte strings.  The hash function and the
    recovery of a signer from a signature are parameters; the cache of recovered keys is not
    modelled, nor are [nil] pointers, which the codec does not produce.  The owners of locked
    funds are identified by the hash of their encoding, which is written with [Packer]. *)

From S2P Require Import Prelude Packer Database Sampler.

Open Scope Z_scope.

Inductive spend_error :=
  | ErrOutputUnspendable | ErrOutputUnoptimized | ErrAddrsNotSortedUnique
  | ErrInputIndicesNotSortedUnique | ErrNoValueOutput | ErrNoValueInput
  | ErrWrongInputType | ErrWrongUTXOType | ErrMismatchedAmounts
  | ErrTimelocked | ErrTooManySigners | ErrTooFewSigners | ErrInputOutputIndexOutOfBounds
  | ErrInputCredentialSignersMismatch | ErrRecover | ErrWrongSig | ErrWrongMintCreated | ErrWrongNumberOfUTXOs
  | ErrInvalidLocktime | ErrNestedStakeableLocks
  | ErrEmptyAssetID | ErrOutputsNotSorted | ErrInputsNotSortedUnique
  | ErrFlow (e : math_error) | ErrInsufficientFunds
  | ErrMissingUTXO | ErrWrongNumberCredentials | ErrWrongNumberUTXOs | ErrAssetIDMismatch | ErrLocktimeMismatch
  | ErrLockedFundsNotMarkedAsLocked | ErrNotOwned | ErrMarshal
  | ErrInsufficientUnlockedFunds | ErrInsufficientLockedFunds
  | FPanic.

(** [utils.IsSortedAndUnique] *)
Fixpoint IsSortedAndUnique {A} (lt : A → A → bool) (s : list A) : bool :=
  match s with
  | a :: (b :: _) as rest => lt a b && IsSortedAndUnique lt rest
  | _ => true
  end.

(** ** [secp256k1fx] *)

Record OutputOwners := mkOwners { oo_Locktime : Z; oo_Threshold : Z; oo_Addrs : list bytes }.

#[export] Instance OutputOwners_eq_dec : EqDecision OutputOwners.
Proof. solve_decision. Defined.

Definition owners_Verify (out : OutputOwners) : result spend_error unit :=
  let n := u32 (Z.of_nat (length (oo_Addrs out))) in
  if oo_Threshold out >? n then Err ErrOutputUnspendable
  else if (oo_Threshold out =? 0) && (0 <? Z.of_nat (length (oo_Addrs out))) then Err ErrOutputUnoptimized
  else if negb (IsSortedAndUnique bytes_lt (oo_Addrs out)) then Err ErrAddrsNotSortedUnique
  else Ok tt.

(** The comparison of the addresses in [Equals]. *)
Fixpoint addrs_equal (a b : list bytes) : bool :=
  match a, b with
  | x :: a, y :: b => if bool_decide (x = y) then addrs_equal a b else false
  | _, _ => true
  end.

Definition owners_Equals (out other : OutputOwners) : bool :=
  if negb (oo_Locktime out =? oo_Locktime other) || negb (oo_Threshold out =? oo_Threshold other)
     || negb (length (oo_Addrs out) =? length (oo_Addrs other))%nat
  then false else addrs_equal (oo_Addrs out) (oo_Addrs other).

Record Input := mkInput { SigIndices : list Z }.

Definition CostPerSignature : Z := 1000.

Definition Input_Cost (i : Input) : result math_error Z := Mul64 (Z.of_nat (length (SigIndices i))) CostPerSignature.

Definition Input_Verify (i : Input) : result spend_error unit :=
  if negb (IsSortedAndUnique Z.ltb (SigIndices i)) then Err ErrInputIndicesNotSortedUnique else Ok tt.

Record TransferOutput := mkTO { out_Amt : Z; out_Owners : OutputOwners }.

Definition TransferOutput_Verify (out : TransferOutput) : result spend_error unit :=
  if out_Amt out =? 0 then Err ErrNoValueOutput else owners_Verify (out_Owners out).

Record TransferInput := mkTI { in_Amt : Z; in_Input : Input }.

Definition TransferInput_Verify (i : TransferInput) : result spend_error unit :=
  if in_Amt i =? 0 then Err ErrNoValueInput else Input_Verify (in_Input i).

Record Credential := mkCred { Sigs : list bytes }.

Definition Credential_Verify (c : Credential) : result spend_error unit := Ok tt.

Record MintOperation := mkMint { MintInput : Input; MintOutput : OutputOwners; op_TransferOutput : TransferOutput }.

Definition MintOperation_Verify (op : MintOperation) : result spend_error unit :=
  let? _ := Input_Verify (MintInput op) in
  let? _ := owners_Verify (MintOutput op) in
  TransferOutput_Verify (op_TransferOutput op).

(** ** [stakeable] and the interfaces of inputs and outputs *)

Inductive TransferableOut := TransferOut (out : TransferOutput) | LockOut (locktime : Z) (out : TransferableOut).
Inductive TransferableIn := TransferIn (i : TransferInput) | LockIn (locktime : Z) (i : TransferableIn).

Fixpoint out_Amount (o : TransferableOut) : Z :=
  match o with TransferOut o => out_Amt o | LockOut _ o => out_Amount o end.
Fixpoint in_Amount (i : TransferableIn) : Z :=
  match i with TransferIn i => in_Amt i | LockIn _ i => in_Amount i end.

Fixpoint out_Verify (o : TransferableOut) : result spend_error unit :=
  match o with
  | TransferOut o => TransferOutput_Verify o
  | LockOut locktime inner =>
      if locktime =? 0 then Err ErrInvalidLocktime
      else match inner with LockOut _ _ => Err ErrNestedStakeableLocks | TransferOut _ => out_Verify inner end
  end.

Fixpoint in_Verify (i : TransferableIn) : result spend_error unit :=
  match i with
  | TransferIn i => TransferInput_Verify i
  | LockIn locktime inner =>
      if locktime =? 0 then Err ErrInvalidLocktime
      else match inner with LockIn _ _ => Err ErrNestedStakeableLocks | TransferIn _ => in_Verify inner end
  end.

Section fx.
(** The clock, whether the chain is bootstrapped, and the cryptography. *)
Context (fx_now : Z) (bootstrapped : bool) (ComputeHash256 : bytes → bytes) (recover : bytes → bytes → option bytes).

(** The loop over the signatures; [recover] returns the address of the key that signed. *)
Fixpoint check_sigs (txHash : bytes) (addrs : list bytes) (indices : list Z) (sigs : list bytes)
    : result spend_error unit :=
  match indices with
  | [] => Ok tt
  | index :: indices =>
      if index >=? u32 (Z.of_nat (length addrs)) then Err ErrInputOutputIndexOutOfBounds
      else
        match sigs with
        | [] => Err FPanic
        | sig :: sigs =>
            match recover txHash sig with
            | None => Err ErrRecover
            | Some address =>
                match addrs !! Z.to_nat index with
                | None => Err FPanic
                | Some expectedAddress =>
                    if bool_decide (expectedAddress = address) then check_sigs txHash addrs indices sigs
                    else Err ErrWrongSig
                end
            end
        end
  end.

Definition VerifyCredentials (utx : bytes) (i : Input) (cred : Credential) (out : OutputOwners)
    : result spend_error unit :=
  let numSigs := Z.of_nat (length (SigIndices i)) in
  if oo_Locktime out >? fx_now then Err ErrTimelocked
  else if oo_Threshold out <? u32 numSigs then Err ErrTooManySigners
  else if oo_Threshold out >? u32 numSigs then Err ErrTooFewSigners
  else if negb (numSigs =? Z.of_nat (length (Sigs cred))) then Err ErrInputCredentialSignersMismatch
  else if negb bootstrapped then Ok tt
  else check_sigs (ComputeHash256 utx) (oo_Addrs out) (SigIndices i) (Sigs cred).

Definition VerifySpend (utx : bytes) (i : TransferInput) (cred : Credential) (utxo : TransferOutput)
    : result spend_error unit :=
  let? _ := TransferOutput_Verify utxo in
  let? _ := TransferInput_Verify i in
  let? _ := Credential_Verify cred in
  if negb (out_Amt utxo =? in_Amt i) then Err ErrMismatchedAmounts
  else VerifyCredentials utx (in_Input i) cred (out_Owners utxo).

Definition VerifyTransfer (utx : bytes) (i : TransferableIn) (cred : Credential) (utxo : TransferableOut)
    : result spend_error unit :=
  match i with
  | LockIn _ _ => Err ErrWrongInputType
  | TransferIn i =>
      match utxo with
      | LockOut _ _ => Err ErrWrongUTXOType
      | TransferOut utxo => VerifySpend utx i cred utxo
      end
  end.

Definition VerifyPermission (utx : bytes) (i : Input) (cred : Credential) (owner : OutputOwners)
    : result spend_error unit :=
  let? _ := Input_Verify i in
  let? _ := Credential_Verify cred in
  let? _ := owners_Verify owner in
  VerifyCredentials utx i cred owner.

Definition verifyOperation (utx : bytes) (op : MintOperation) (cred : Credential) (utxo : OutputOwners)
    : result spend_error unit :=
  let? _ := MintOperation_Verify op in
  let? _ := Credential_Verify cred in
  let? _ := owners_Verify utxo in
  if negb (owners_Equals utxo (MintOutput op)) then Err ErrWrongMintCreated
  else VerifyCredentials utx (MintInput op) cred utxo.

Definition VerifyOperation (utx : bytes) (op : MintOperation) (cred : Credential) (utxos : list OutputOwners)
    : result spend_error unit :=
  match utxos with
  | [utxo] => verifyOperation utx op cred utxo
  | _ => Err ErrWrongNumberOfUTXOs
  end.

Definition CreateOutput (amount : Z) (owner : OutputOwners) : result spend_error TransferOutput :=
  let? _ := owners_Verify owner in
  Ok (mkTO amount owner).
End fx.

(** ** [components/avax] *)

Definition Empty_ID : bytes := replicate 32 0.

Record TransferableOutput := mkTOut { to_asset : bytes; to_Out : TransferableOut }.
Record TransferableInput := mkTIn { ti_TxID : bytes; ti_OutputIndex : Z; ti_asset : bytes; ti_In : TransferableIn }.
Record UTXO := mkUTXO { ux_asset : bytes; ux_Out : TransferableOut }.

Definition Asset_Verify (id : bytes) : result spend_error unit :=
  if bool_decide (id = Empty_ID) then Err ErrEmptyAssetID else Ok tt.

Definition TransferableOutput_Verify (o : TransferableOutput) : result spend_error unit :=
  let? _ := Asset_Verify (to_asset o) in out_Verify (to_Out o).

Definition TransferableInput_Verify (i : TransferableInput) : result spend_error unit :=
  let? _ := Asset_Verify (ti_asset i) in in_Verify (ti_In i).

(** [UTXOID.Compare] is negative. *)
Definition input_lt (i other : TransferableInput) : bool :=
  if bool_decide (ti_TxID i = ti_TxID other) then ti_OutputIndex i <? ti_OutputIndex other
  else bytes_lt (ti_TxID i) (ti_TxID other).

Record FlowChecker := mkFC { fc_consumed : gmap bytes Z; fc_produced : gmap bytes Z; fc_err : option spend_error }.

Definition NewFlowChecker : FlowChecker := mkFC ∅ ∅ None.

(** [fc.add] on one of the maps; Go stores the zero that [Add64] returns with an error. *)
Definition flow_add (value : gmap bytes Z) (assetID : bytes) (amount : Z) : gmap bytes Z * option spend_error :=
  match Add64 (default 0 (value !! assetID)) amount with
  | Ok v => (<[assetID := v]> value, None)
  | Err e => (<[assetID := 0]> value, Some (ErrFlow e))
  end.

(** [Errs.Add] *)
Definition first_error (errs err : option spend_error) : option spend_error :=
  match errs with Some _ => errs | None => err end.

Definition Consume (fc : FlowChecker) (assetID : bytes) (amount : Z) : FlowChecker :=
  let '(m, e) := flow_add (fc_consumed fc) assetID amount in mkFC m (fc_produced fc) (first_error (fc_err fc) e).

Definition Produce (fc : FlowChecker) (assetID : bytes) (amount : Z) : FlowChecker :=
  let '(m, e) := flow_add (fc_produced fc) assetID amount in mkFC (fc_consumed fc) m (first_error (fc_err fc) e).

Section avax.
(** The order of iteration over a Go map, and the encoding of an output. *)
Context (range : ∀ V : Type, gmap bytes V → list (bytes * V)).
Context (marshal_out : TransferableOut → option bytes).

Definition Flow_Verify (fc : FlowChecker) : option spend_error :=
  match fc_err fc with
  | Some e => Some e
  | None =>
      if existsb (λ '(assetID, produced), produced >? default 0 (fc_consumed fc !! assetID)) (range Z (fc_produced fc))
      then Some ErrInsufficientFunds else None
  end.

(** [innerSortTransferableOutputs.Less] *)
Definition out_less (i j : TransferableOutput) : bool :=
  if bool_decide (to_asset i = to_asset j) then
    match marshal_out (to_Out i), marshal_out (to_Out j) with
    | Some iBytes, Some jBytes => bytes_lt iBytes jBytes
    | _, _ => false
    end
  else bytes_lt (to_asset i) (to_asset j).

(** [sort.IsSorted]: no element is less than the one before it. *)
Fixpoint IsSortedTransferableOutputs (outs : list TransferableOutput) : bool :=
  match outs with
  | a :: (b :: _) as rest => negb (out_less b a) && IsSortedTransferableOutputs rest
  | _ => true
  end.

(** The loops over the outputs and the inputs in [VerifyTx]. *)
Fixpoint produce_all (fc : FlowChecker) (outs : list TransferableOutput) : result spend_error FlowChecker :=
  match outs with
  | [] => Ok fc
  | out :: outs =>
      let? _ := TransferableOutput_Verify out in
      produce_all (Produce fc (to_asset out) (out_Amount (to_Out out))) outs
  end.

Fixpoint produce_lists (fc : FlowChecker) (allOuts : list (list TransferableOutput)) : result spend_error FlowChecker :=
  match allOuts with
  | [] => Ok fc
  | outs :: allOuts =>
      let? fc := produce_all fc outs in
      if negb (IsSortedTransferableOutputs outs) then Err ErrOutputsNotSorted else produce_lists fc allOuts
  end.

Fixpoint consume_all (fc : FlowChecker) (ins : list TransferableInput) : result spend_error FlowChecker :=
  match ins with
  | [] => Ok fc
  | i :: ins =>
      let? _ := TransferableInput_Verify i in
      consume_all (Consume fc (ti_asset i) (in_Amount (ti_In i))) ins
  end.

Fixpoint consume_lists (fc : FlowChecker) (allIns : list (list TransferableInput)) : result spend_error FlowChecker :=
  match allIns with
  | [] => Ok fc
  | ins :: allIns =>
      let? fc := consume_all fc ins in
      if negb (IsSortedAndUnique input_lt ins) then Err ErrInputsNotSortedUnique else consume_lists fc allIns
  end.

Definition VerifyTx (feeAmount : Z) (feeAssetID : bytes) (allIns : list (list TransferableInput))
    (allOuts : list (list TransferableOutput)) : result spend_error unit :=
  let fc := Produce NewFlowChecker feeAssetID feeAmount in
  let? fc := produce_lists fc allOuts in
  let? fc := consume_lists fc allIns in
  match Flow_Verify fc with Some e => Err e | None => Ok tt end.
End avax.

(** ** Sums *)

Lemma funds_total_app {A} (f : A → Z) l1 l2 : total (f <$> l1 ++ l2) = total (f <$> l1) + total (f <$> l2).
Proof. rewrite fmap_app. apply sum_app. Qed.

Lemma total_zero {A} (l : list A) : total ((λ _, 0) <$> l) = 0.
Proof. induction l; [done|]. rewrite fmap_cons, total_cons. lia. Qed.

Lemma total_add {A} (f g : A → Z) l : total ((λ x, f x + g x) <$> l) = total (f <$> l) + total (g <$> l).
Proof. induction l; [done|]. rewrite !fmap_cons, !total_cons. lia. Qed.

Lemma total_sub {A} (f g : A → Z) l : total ((λ x, f x - g x) <$> l) = total (f <$> l) - total (g <$> l).
Proof. induction l; [done|]. rewrite !fmap_cons, !total_cons. lia. Qed.

Lemma total_one (k : Z * bytes) v K :
  NoDup K → k ∈ K → total ((λ k', if decide (Some k = Some k') then v else 0) <$> K) = v.
Proof.
  induction 1 as [|k' K Hk HK IH]; intros Hin; [by apply elem_of_nil in Hin|].
  rewrite fmap_cons, total_cons. apply elem_of_cons in Hin as [->|Hin].
  - rewrite decide_True by done. rewrite (list_fmap_ext _ (λ _, 0)), total_zero; [lia|].
    intros i x Hi. apply list_elem_of_lookup_2 in Hi. rewrite decide_False by naive_solver. done.
  - rewrite IH by done. rewrite decide_False by naive_solver. done.
Qed.

(** The amount of an asset with a given lock, [None] for unlocked funds, among items with an
    asset, a lock and an amount. *)
Definition sum_at {A} (sel : A → bytes) (lk : A → option (Z * bytes)) (am : A → Z) (l : list A) (a : bytes) (k : option (Z * bytes)) : Z :=
  total ((λ x, if decide (sel x = a ∧ lk x = k) then am x else 0) <$> l).

Lemma sum_at_cons {A} (sel : A → bytes) lk am x l a k : sum_at sel lk am (x :: l) a k = sum_at sel lk am [x] a k + sum_at sel lk am l a k.
Proof. unfold sum_at. by rewrite <- sum_app. Qed.

Lemma sum_at_one {A} (sel : A → bytes) lk am x a k : sum_at sel lk am [x] a k = if decide (sel x = a ∧ lk x = k) then am x else 0.
Proof. unfold sum_at, total. simpl. lia. Qed.

(** The total of an asset is the unlocked amount and the amounts of the locks. *)
Lemma total_split {A} (sel : A → bytes) (lk : A → option (Z * bytes)) (am : A → Z) a (l : list A) (K : list (Z * bytes)) :
  NoDup K → (∀ x k, x ∈ l → lk x = Some k → k ∈ K) →
  total ((λ x, if decide (sel x = a) then am x else 0) <$> l)
  = sum_at sel lk am l a None + total ((λ k, sum_at sel lk am l a (Some k)) <$> K).
Proof.
  intros HK. induction l as [|x l IH]; intros Hl.
  { change (0 = 0 + total ((λ _ : Z * bytes, 0) <$> K)). by rewrite total_zero. }
  rewrite fmap_cons, total_cons, IH, sum_at_cons by (intros; eapply Hl; eauto using list_elem_of_further).
  rewrite (list_fmap_ext (λ k, sum_at sel lk am (x :: l) a (Some k)) (λ k, sum_at sel lk am [x] a (Some k) + sum_at sel lk am l a (Some k)) K)
    by (intros; apply sum_at_cons). rewrite total_add.
  assert (total ((λ k, sum_at sel lk am [x] a (Some k)) <$> K) = if decide (sel x = a ∧ lk x ≠ None) then am x else 0) as ->.
  2: { rewrite sum_at_one. destruct (lk x); repeat case_decide; naive_solver lia. }
  destruct (decide (sel x = a ∧ lk x ≠ None)) as [[Ea Ek]|Hn].
  - destruct (lk x) as [k0|] eqn:Ek0; [|done].
    rewrite (list_fmap_ext _ (λ k', if decide (Some k0 = Some k') then am x else 0) K), total_one; eauto using list_elem_of_here.
    intros i k' _. rewrite sum_at_one. repeat case_decide; naive_solver.
  - rewrite (list_fmap_ext _ (λ _, 0) K), total_zero; [done|].
    intros i k' _. rewrite sum_at_one. by rewrite decide_False by naive_solver.
Qed.

(** ** [platformvm/utxo/verifier.go] *)

(** [assetID -> locktime -> ownerID -> amount] *)
Notation locked := (gmap bytes (gmap Z (gmap bytes Z))).

Section verifier.
Context (fx_now : Z) (bootstrapped : bool) (ComputeHash256 : bytes → bytes) (recover : bytes → bytes → option bytes).
(** The time of the verification and the orders of iteration over Go maps. *)
Context (now : Z) (range_b : ∀ V : Type, gmap bytes V → list (bytes * V)) (range_z : ∀ V : Type, gmap Z V → list (Z * V)).

Arguments range_b {V}.
Arguments range_z {V}.

(** [txs.Codec.Marshal] of an owner: the codec version and the fields. *)
Definition CodecVersion : Z := 0.
Definition maxSize : Z := 256 * 1024.

Definition owner_fields (o : OutputOwners) : list field :=
  [FShort CodecVersion; FLong (oo_Locktime o); FInt (oo_Threshold o); FInt (Z.of_nat (length (oo_Addrs o)))]
  ++ (FFixed <$> oo_Addrs o).

Definition marshal_owner (o : OutputOwners) : result spend_error bytes :=
  match pack_fields (λ _ _, 0%nat) (mkPacker None maxSize [] 0 0) (owner_fields o) with
  | None => Err FPanic
  | Some p => if Errored p then Err ErrMarshal else Ok (Packer.contents p)
  end.

Definition ownerID (o : OutputOwners) : result spend_error bytes :=
  let? ownerBytes := marshal_owner o in
  Ok (ComputeHash256 ownerBytes).

(** [out.(fx.Owned)] *)
Definition owners_of (o : TransferableOut) : result spend_error OutputOwners :=
  match o with TransferOut o => Ok (out_Owners o) | LockOut _ _ => Err ErrNotOwned end.

(** The output and the locktime behind a stakeable lock. *)
Definition unlock_out (o : TransferableOut) : TransferableOut * Z :=
  match o with LockOut locktime inner => (inner, locktime) | TransferOut _ => (o, 0) end.

(** [m[assetID] = math.Add64(m[assetID], amount)] *)
Definition add_unlocked (m : gmap bytes Z) (assetID : bytes) (amount : Z) : result spend_error (gmap bytes Z) :=
  match Add64 (default 0 (m !! assetID)) amount with
  | Ok v => Ok (<[assetID := v]> m)
  | Err e => Err (ErrFlow e)
  end.

(** The same in the maps of locked amounts, creating the inner maps. *)
Definition add_locked (m : locked) (assetID : bytes) (locktime : Z) (owner : bytes) (amount : Z)
    : result spend_error locked :=
  let asset := default ∅ (m !! assetID) in
  let owners := default ∅ (asset !! locktime) in
  match Add64 (default 0 (owners !! owner)) amount with
  | Ok v => Ok (<[assetID := <[locktime := <[owner := v]> owners]> asset]> m)
  | Err e => Err (ErrFlow e)
  end.

(** One input; the state is [unlockedConsumed] and [lockedConsumed]. *)
Definition consume_input (utx : bytes) (st : gmap bytes Z * locked) (input : TransferableInput) (utxo : UTXO)
    (cred : Credential) : result spend_error (gmap bytes Z * locked) :=
  let realAssetID := ux_asset utxo in
  if negb (bool_decide (realAssetID = ti_asset input)) then Err ErrAssetIDMismatch
  else
    let '(out, locktime) := unlock_out (ux_Out utxo) in
    let? i :=
      match ti_In input with
      | TransferIn i => if now <? locktime then Err ErrLockedFundsNotMarkedAsLocked else Ok (TransferIn i)
      | LockIn l inner => if negb (l =? locktime) then Err ErrLocktimeMismatch else Ok inner
      end in
    let? _ := VerifyTransfer fx_now bootstrapped ComputeHash256 recover utx i cred out in
    let amount := in_Amount i in
    if now >=? locktime then
      let? unlockedConsumed := add_unlocked st.1 realAssetID amount in
      Ok (unlockedConsumed, st.2)
    else
      let? owner := owners_of out in
      let? owner := ownerID owner in
      let? lockedConsumed := add_locked st.2 realAssetID locktime owner amount in
      Ok (st.1, lockedConsumed).

Fixpoint consume_inputs (utx : bytes) (st : gmap bytes Z * locked) (ins : list TransferableInput)
    (utxos : list UTXO) (creds : list Credential) : result spend_error (gmap bytes Z * locked) :=
  match ins, utxos, creds with
  | [], _, _ => Ok st
  | i :: ins, u :: utxos, c :: creds =>
      let? st := consume_input utx st i u c in
      consume_inputs utx st ins utxos creds
  | _, _, _ => Err FPanic
  end.

(** One output; the state is [unlockedProduced] and [lockedProduced]. *)
Definition produce_output (st : gmap bytes Z * locked) (out : TransferableOutput)
    : result spend_error (gmap bytes Z * locked) :=
  let assetID := to_asset out in
  let '(output, locktime) := unlock_out (to_Out out) in
  let amount := out_Amount output in
  if locktime =? 0 then
    let? unlockedProduced := add_unlocked st.1 assetID amount in
    Ok (unlockedProduced, st.2)
  else
    let? owner := owners_of output in
    let? owner := ownerID owner in
    let? lockedProduced := add_locked st.2 assetID locktime owner amount in
    Ok (st.1, lockedProduced).

Fixpoint produce_outputs (st : gmap bytes Z * locked) (outs : list TransferableOutput)
    : result spend_error (gmap bytes Z * locked) :=
  match outs with
  | [] => Ok st
  | out :: outs => let? st := produce_output st out in produce_outputs st outs
  end.

(** The loops that compare the locked amounts; the state is [unlockedConsumed]. *)
Fixpoint check_owners (assetID : bytes) (consumedAmounts : gmap bytes Z) (uc : gmap bytes Z)
    (producedAmounts : list (bytes * Z)) : result spend_error (gmap bytes Z) :=
  match producedAmounts with
  | [] => Ok uc
  | (owner, producedAmount) :: rest =>
      let consumedAmount := default 0 (consumedAmounts !! owner) in
      if producedAmount >? consumedAmount then
        let increase := producedAmount - consumedAmount in
        let unlockedConsumedAsset := default 0 (uc !! assetID) in
        if increase >? unlockedConsumedAsset then Err ErrInsufficientLockedFunds
        else check_owners assetID consumedAmounts (<[assetID := unlockedConsumedAsset - increase]> uc) rest
      else check_owners assetID consumedAmounts uc rest
  end.

Fixpoint check_locktimes (assetID : bytes) (consumedAsset : gmap Z (gmap bytes Z)) (uc : gmap bytes Z)
    (producedAsset : list (Z * gmap bytes Z)) : result spend_error (gmap bytes Z) :=
  match producedAsset with
  | [] => Ok uc
  | (locktime, producedAmounts) :: rest =>
      let? uc := check_owners assetID (default ∅ (consumedAsset !! locktime)) uc (range_b producedAmounts) in
      check_locktimes assetID consumedAsset uc rest
  end.

Fixpoint check_assets (lockedConsumed : locked) (uc : gmap bytes Z) (lockedProduced : list (bytes * gmap Z (gmap bytes Z)))
    : result spend_error (gmap bytes Z) :=
  match lockedProduced with
  | [] => Ok uc
  | (assetID, producedAsset) :: rest =>
      let? uc := check_locktimes assetID (default ∅ (lockedConsumed !! assetID)) uc (range_z producedAsset) in
      check_assets lockedConsumed uc rest
  end.

Definition check_unlocked (uc : gmap bytes Z) (unlockedProduced : gmap bytes Z) : result spend_error unit :=
  if existsb (λ '(assetID, produced), produced >? default 0 (uc !! assetID)) (range_b unlockedProduced)
  then Err ErrInsufficientUnlockedFunds else Ok tt.

Fixpoint verify_creds (creds : list Credential) : result spend_error unit :=
  match creds with
  | [] => Ok tt
  | c :: creds => let? _ := Credential_Verify c in verify_creds creds
  end.

Definition VerifySpendUTXOs (utx : bytes) (utxos : list UTXO) (ins : list TransferableInput)
    (outs : list TransferableOutput) (creds : list Credential) (unlockedProduced : gmap bytes Z)
    : result spend_error unit :=
  if negb (length ins =? length creds)%nat then Err ErrWrongNumberCredentials
  else if negb (length ins =? length utxos)%nat then Err ErrWrongNumberUTXOs
  else
    let? _ := verify_creds creds in
    let? '(unlockedConsumed, lockedConsumed) := consume_inputs utx (∅, ∅) ins utxos creds in
    let? '(unlockedProduced, lockedProduced) := produce_outputs (unlockedProduced, ∅) outs in
    let? unlockedConsumed := check_assets lockedConsumed unlockedConsumed (range_b lockedProduced) in
    check_unlocked unlockedConsumed unlockedProduced.

(** The lookup of the UTXOs in the state; [InputID] is the hash of the source. *)
Context (InputID : bytes → Z → bytes).

Fixpoint get_utxos (utxoDB : gmap bytes UTXO) (ins : list TransferableInput) : result spend_error (list UTXO) :=
  match ins with
  | [] => Ok []
  | i :: ins =>
      match utxoDB !! InputID (ti_TxID i) (ti_OutputIndex i) with
      | None => Err ErrMissingUTXO
      | Some utxo => let? utxos := get_utxos utxoDB ins in Ok (utxo :: utxos)
      end
  end.

Definition Verifier_VerifySpend (utx : bytes) (utxoDB : gmap bytes UTXO) (ins : list TransferableInput)
    (outs : list TransferableOutput) (creds : list Credential) (unlockedProduced : gmap bytes Z)
    : result spend_error unit :=
  let? utxos := get_utxos utxoDB ins in
  VerifySpendUTXOs utx utxos ins outs creds unlockedProduced.

(** ** Amounts *)

Definition get_u (m : gmap bytes Z) (a : bytes) : Z := default 0 (m !! a).
Definition get_l (m : locked) (a : bytes) (k : Z * bytes) : Z :=
  default 0 (m !! a ≫= λ asset, asset !! k.1 ≫= λ owners, owners !! k.2).

Definition ok_u (m : gmap bytes Z) : Prop := ∀ a, is_u64 (get_u m a).
Definition ok_l (m : locked) : Prop := ∀ a k, is_u64 (get_l m a k).

Lemma get_u_insert m a v x : get_u (<[a := v]> m) x = if decide (x = a) then v else get_u m x.
Proof. unfold get_u. rewrite lookup_insert. by repeat case_decide; subst. Qed.

Lemma get_u_empty a : get_u ∅ a = 0.
Proof. unfold get_u. by rewrite lookup_empty. Qed.

Lemma get_l_empty a k : get_l ∅ a k = 0.
Proof. unfold get_l. by rewrite lookup_empty. Qed.

Lemma add_unlocked_spec m a v m' :
  ok_u m → is_u64 v → add_unlocked m a v = Ok m' →
  ok_u m' ∧ ∀ x, get_u m' x = get_u m x + if decide (x = a) then v else 0.
Proof.
  intros Hm Hv. unfold add_unlocked. fold (get_u m a). pose proof (Hm a) as Ha. rewrite Add64_exact by done.
  destruct (Z.leb_spec (get_u m a + v) MaxUint64); [|done]. intros [= <-].
  assert (∀ x, get_u (<[a := get_u m a + v]> m) x = get_u m x + if decide (x = a) then v else 0) as E.
  { intros x. rewrite get_u_insert. case_decide; subst; lia. }
  split; [|done]. intros x. rewrite E. pose proof (Hm x). unfold is_u64 in *. case_decide; subst; lia.
Qed.

Lemma add_locked_spec m a t o v m' :
  ok_l m → is_u64 v → add_locked m a t o v = Ok m' →
  ok_l m' ∧ ∀ x k, get_l m' x k = get_l m x k + if decide (x = a ∧ k = (t, o)) then v else 0.
Proof.
  intros Hm Hv. unfold add_locked. set (asset := default ∅ (m !! a)). set (owners := default ∅ (asset !! t)).
  assert (∀ k, get_l m a k = default 0 (asset !! k.1 ≫= λ ow, ow !! k.2)) as Ea.
  { intros k. unfold get_l, asset. destruct (m !! a); simpl; [done|]. by rewrite lookup_empty. }
  assert (∀ o', get_l m a (t, o') = default 0 (owners !! o')) as Eo.
  { intros o'. rewrite Ea. unfold owners. simpl. destruct (asset !! t); simpl; [done|]. by rewrite lookup_empty. }
  pose proof (Hm a (t, o)) as Ha. rewrite Eo in Ha. rewrite Add64_exact by done.
  destruct (Z.leb_spec (default 0 (owners !! o) + v) MaxUint64); [|done]. intros [= <-].
  set (m' := <[a := _]> m). assert (∀ x k, get_l m' x k = get_l m x k + if decide (x = a ∧ k = (t, o)) then v else 0) as E.
  { intros x [t' o']. unfold m', get_l at 1. rewrite lookup_insert. case_decide as Ex; [subst x|].
    - simpl. rewrite lookup_insert. case_decide as Et; [subst t'|].
      + simpl. rewrite lookup_insert, Eo. case_decide as Eo'; [subst o'|].
        * rewrite decide_True by done. done.
        * rewrite decide_False by naive_solver. lia.
      + rewrite decide_False by naive_solver. rewrite Ea. simpl. lia.
    - rewrite decide_False by naive_solver. unfold get_l. lia. }
  split; [|done]. intros x k. rewrite E. pose proof (Hm x k). unfold is_u64 in *. case_decide as Ek; [|lia].
  destruct Ek as [-> ->]. rewrite Eo. lia.
Qed.

(** ** What is locked *)

Definition owner_key (o : TransferableOut) : bytes :=
  match owners_of o with Ok ow => match ownerID ow with Ok b => b | Err _ => [] end | Err _ => [] end.

(** The lock of a consumed UTXO, by locktime and owner, while it is locked; the lock of an
    output. *)
Definition utxo_lock (u : UTXO) : option (Z * bytes) :=
  let '(out, t) := unlock_out (ux_Out u) in if now >=? t then None else Some (t, owner_key out).
Definition output_lock (o : TransferableOutput) : option (Z * bytes) :=
  let '(out, t) := unlock_out (to_Out o) in if t =? 0 then None else Some (t, owner_key out).

(** The amount of an asset with a given lock, [None] for unlocked funds. *)
Notation consumed := (sum_at ux_asset utxo_lock (λ u, out_Amount (ux_Out u))).
Notation produced := (sum_at to_asset output_lock (λ o, out_Amount (to_Out o))).

Lemma unlock_out_amount o : out_Amount (unlock_out o).1 = out_Amount o.
Proof. by destruct o. Qed.

(** A transfer that verifies moves the amount of the UTXO. *)
Lemma VerifyTransfer_amount utx i cred out :
  VerifyTransfer fx_now bootstrapped ComputeHash256 recover utx i cred out = Ok tt → in_Amount i = out_Amount out.
Proof.
  unfold VerifyTransfer. destruct i as [i|], out as [out|]; try done. unfold VerifySpend. simpl.
  destruct (TransferOutput_Verify out); simpl; [|done]. destruct (TransferInput_Verify i); simpl; [|done].
  destruct (Z.eqb_spec (out_Amt out) (in_Amt i)); [done|]. done.
Qed.

Lemma consume_input_spec utx uc lc i u c uc' lc' :
  ok_u uc → ok_l lc → is_u64 (out_Amount (ux_Out u)) → consume_input utx (uc, lc) i u c = Ok (uc', lc') →
  ok_u uc' ∧ ok_l lc' ∧ (∀ a, get_u uc' a = get_u uc a + consumed [u] a None)
  ∧ (∀ a k, get_l lc' a k = get_l lc a k + consumed [u] a (Some k)).
Proof.
  intros Hu Hl Ha. unfold consume_input. destruct (negb _); [done|].
  assert (∀ a k, consumed [u] a k = if decide (ux_asset u = a ∧ utxo_lock u = k) then out_Amount (ux_Out u) else 0) as Ec.
  { intros a k. by rewrite sum_at_one. }
  pose proof (unlock_out_amount (ux_Out u)) as Eam.
  destruct (unlock_out (ux_Out u)) as [out t] eqn:Eun. simpl in Eam.
  set (inner := match ti_In i with TransferIn _ => _ | LockIn _ _ => _ end). destruct inner as [j|]; simpl; [|done].
  destruct (VerifyTransfer _ _ _ _ _ _ _ _) as [[]|] eqn:Ev; simpl; [|done]. apply VerifyTransfer_amount in Ev.
  rewrite Ev, Eam. rewrite Z.geb_leb. destruct (Z.leb_spec t now) as [Hn|Hn].
  - destruct (add_unlocked uc (ux_asset u) _) as [uc1|] eqn:E; simpl; [|done]. intros [= <- <-].
    destruct (add_unlocked_spec _ _ _ _ Hu Ha E) as [Hu' E']. split_and!; try done.
    + intros a. rewrite E', Ec. f_equal. unfold utxo_lock. rewrite Eun, Z.geb_leb, (proj2 (Z.leb_le _ _)) by done.
      repeat case_decide; naive_solver.
    + intros a k. rewrite Ec. unfold utxo_lock. rewrite Eun, Z.geb_leb, (proj2 (Z.leb_le _ _)) by done.
      rewrite decide_False by naive_solver. lia.
  - destruct (owners_of out) as [ow|] eqn:Eow; simpl; [|done]. destruct (ownerID ow) as [ob|] eqn:Eob; simpl; [|done].
    destruct (add_locked lc (ux_asset u) t ob _) as [lc1|] eqn:E; simpl; [|done]. intros [= <- <-].
    destruct (add_locked_spec _ _ _ _ _ _ Hl Ha E) as [Hl' E']. split_and!; try done.
    + intros a. rewrite Ec. unfold utxo_lock. rewrite Eun, Z.geb_leb, (proj2 (Z.leb_gt _ _)) by done.
      rewrite decide_False by naive_solver. lia.
    + intros a k. rewrite E', Ec. f_equal. unfold utxo_lock. rewrite Eun, Z.geb_leb, (proj2 (Z.leb_gt _ _)) by done.
      unfold owner_key. rewrite Eow, Eob. repeat case_decide; naive_solver.
Qed.

Lemma consume_inputs_spec utx uc lc ins utxos creds uc' lc' :
  length ins = length utxos → Forall (λ u, is_u64 (out_Amount (ux_Out u))) utxos →
  ok_u uc → ok_l lc → consume_inputs utx (uc, lc) ins utxos creds = Ok (uc', lc') →
  ok_u uc' ∧ ok_l lc' ∧ (∀ a, get_u uc' a = get_u uc a + consumed utxos a None)
  ∧ (∀ a k, get_l lc' a k = get_l lc a k + consumed utxos a (Some k)).
Proof.
  intros Hlen Ha. revert ins creds uc lc Hlen. induction Ha as [|u utxos Hu Ha IH]; intros ins creds uc lc Hlen Huc Hlc.
  { destruct ins; [|done]. simpl. intros [= <- <-]. unfold sum_at, total. simpl. split_and!; try done; intros; lia. }
  destruct ins as [|i ins]; [done|]. destruct creds as [|c creds]; [done|]. cbn [consume_inputs].
  destruct (consume_input utx (uc, lc) i u c) as [[uc1 lc1]|] eqn:E; cbn [result_bind]; [|done].
  destruct (consume_input_spec _ _ _ _ _ _ _ _ Huc Hlc Hu E) as (Hu1 & Hl1 & E1 & E2). intros E'.
  destruct (IH ins creds uc1 lc1 ltac:(simpl in Hlen; lia) Hu1 Hl1 E') as (Hu2 & Hl2 & E3 & E4).
  split_and!; try done.
  - intros a. rewrite E3, E1, (sum_at_cons _ _ _ u utxos). lia.
  - intros a k. rewrite E4, E2, (sum_at_cons _ _ _ u utxos). lia.
Qed.

Lemma produce_output_spec up lp o up' lp' :
  ok_u up → ok_l lp → is_u64 (out_Amount (to_Out o)) → produce_output (up, lp) o = Ok (up', lp') →
  ok_u up' ∧ ok_l lp' ∧ (∀ a, get_u up' a = get_u up a + produced [o] a None)
  ∧ (∀ a k, get_l lp' a k = get_l lp a k + produced [o] a (Some k)).
Proof.
  intros Hu Hl Ha. unfold produce_output.
  assert (∀ a k, produced [o] a k = if decide (to_asset o = a ∧ output_lock o = k) then out_Amount (to_Out o) else 0) as Ec.
  { intros a k. by rewrite sum_at_one. }
  pose proof (unlock_out_amount (to_Out o)) as Eam.
  destruct (unlock_out (to_Out o)) as [out t] eqn:Eun. simpl in Eam. rewrite Eam. destruct (Z.eqb_spec t 0) as [Hn|Hn].
  - destruct (add_unlocked (up, lp).1 (to_asset o) _) as [up1|] eqn:E; simpl; [|done]. intros [= <- <-].
    destruct (add_unlocked_spec _ _ _ _ Hu Ha E) as [Hu' E']. split_and!; try done.
    + intros a. rewrite E', Ec. f_equal. unfold output_lock. rewrite Eun, (proj2 (Z.eqb_eq _ _)) by done.
      repeat case_decide; naive_solver.
    + intros a k. rewrite Ec. unfold output_lock. rewrite Eun, (proj2 (Z.eqb_eq _ _)) by done.
      rewrite decide_False by naive_solver. lia.
  - destruct (owners_of out) as [ow|] eqn:Eow; simpl; [|done]. destruct (ownerID ow) as [ob|] eqn:Eob; simpl; [|done].
    destruct (add_locked lp (to_asset o) t ob _) as [lp1|] eqn:E; simpl; [|done]. intros [= <- <-].
    destruct (add_locked_spec _ _ _ _ _ _ Hl Ha E) as [Hl' E']. split_and!; try done.
    + intros a. rewrite Ec. unfold output_lock. rewrite Eun, (proj2 (Z.eqb_neq _ _)) by done.
      rewrite decide_False by naive_solver. lia.
    + intros a k. rewrite E', Ec. f_equal. unfold output_lock. rewrite Eun, (proj2 (Z.eqb_neq _ _)) by done.
      unfold owner_key. rewrite Eow, Eob. repeat case_decide; naive_solver.
Qed.

Lemma produce_outputs_spec up lp outs up' lp' :
  Forall (λ o, is_u64 (out_Amount (to_Out o))) outs →
  ok_u up → ok_l lp → produce_outputs (up, lp) outs = Ok (up', lp') →
  ok_u up' ∧ ok_l lp' ∧ (∀ a, get_u up' a = get_u up a + produced outs a None)
  ∧ (∀ a k, get_l lp' a k = get_l lp a k + produced outs a (Some k)).
Proof.
  intros Ha. revert up lp. induction Ha as [|o outs Ho Ha IH]; intros up lp Hup Hlp.
  { simpl. intros [= <- <-]. unfold sum_at, total. simpl. split_and!; try done; intros; lia. }
  cbn [produce_outputs].
  destruct (produce_output (up, lp) o) as [[up1 lp1]|] eqn:E; cbn [result_bind]; [|done].
  destruct (produce_output_spec _ _ _ _ _ Hup Hlp Ho E) as (Hu1 & Hl1 & E1 & E2). intros E'.
  destruct (IH up1 lp1 Hu1 Hl1 E') as (Hu2 & Hl2 & E3 & E4).
  split_and!; try done.
  - intros a. rewrite E3, E1, (sum_at_cons _ _ _ o outs). lia.
  - intros a k. rewrite E4, E2, (sum_at_cons _ _ _ o outs). lia.
Qed.

(** ** The comparison of the locked amounts *)

(** The three loops visit one flat list of the produced amounts, keyed by asset, locktime
    and owner. *)
Definition flat_owners (a : bytes) (t : Z) (l : list (bytes * Z)) : list (bytes * (Z * bytes) * Z) :=
  (λ '(o, p), ((a, (t, o)), p)) <$> l.
Definition flat_asset (a : bytes) (l : list (Z * gmap bytes Z)) : list (bytes * (Z * bytes) * Z) :=
  l ≫= λ '(t, m), flat_owners a t (range_b m).
Definition flat (l : list (bytes * gmap Z (gmap bytes Z))) : list (bytes * (Z * bytes) * Z) :=
  l ≫= λ '(a, m), flat_asset a (range_z m).

(** How much of [asset] an entry takes from the unlocked funds. *)
Definition increase (lc : locked) (asset : bytes) (e : bytes * (Z * bytes) * Z) : Z :=
  let '((a, k), p) := e in if decide (a = asset) then Z.max 0 (p - get_l lc a k) else 0.

Definition ok_check (lc : locked) (uc : gmap bytes Z) (l : list (bytes * (Z * bytes) * Z)) (r : result spend_error (gmap bytes Z)) : Prop :=
  ∀ uc', r = Ok uc' →
    (∀ x, get_u uc' x = get_u uc x - total (increase lc x <$> l)) ∧ ((∀ x, 0 ≤ get_u uc x) → ∀ x, 0 ≤ get_u uc' x).

Lemma check_bind lc uc l1 l2 r k :
  ok_check lc uc l1 r → (∀ uc1, r = Ok uc1 → ok_check lc uc1 l2 (k uc1)) → ok_check lc uc (l1 ++ l2) (result_bind r k).
Proof.
  intros H1 H2 uc' E. destruct r as [uc1|]; [|done]. simpl in E.
  destruct (H1 uc1 eq_refl) as [E1 N1], (H2 uc1 eq_refl uc' E) as [E2 N2]. split; [|by auto].
  intros x. rewrite E2, E1, funds_total_app. lia.
Qed.

Lemma check_owners_spec lc a t l uc :
  ok_check lc uc (flat_owners a t l) (check_owners a (default ∅ (default ∅ (lc !! a) !! t)) uc l).
Proof.
  assert (∀ o, default 0 (default ∅ (default ∅ (lc !! a) !! t) !! o) = get_l lc a (t, o)) as Eg.
  { intros o. unfold get_l. destruct (lc !! a) as [m|]; simpl; [|by rewrite lookup_empty].
    destruct (m !! t); simpl; [done|by rewrite lookup_empty]. }
  revert uc. induction l as [|[o p] l IH]; intros uc uc'; cbn [check_owners].
  { intros [= <-]. split; [|done]. intros x. unfold total. simpl. lia. }
  rewrite Eg. intros E. change (flat_owners a t ((o, p) :: l)) with (((a, (t, o)), p) :: flat_owners a t l).
  destruct (Z.gtb_spec p (get_l lc a (t, o))) as [Hp|Hp].
  - destruct (Z.gtb_spec (p - get_l lc a (t, o)) (default 0 (uc !! a))); [done|].
    destruct (IH _ _ E) as [E1 N1]. split.
    + intros x. rewrite fmap_cons, total_cons, E1, get_u_insert. unfold increase at 2. unfold get_u.
      repeat case_decide; subst; try done; lia.
    + intros Hn. apply N1. intros x. rewrite get_u_insert. case_decide; [lia|done].
  - destruct (IH _ _ E) as [E1 N1]. split; [|done]. intros x. rewrite fmap_cons, total_cons, E1.
    unfold increase at 2. case_decide; lia.
Qed.

Lemma check_locktimes_spec lc a l uc :
  ok_check lc uc (flat_asset a l) (check_locktimes a (default ∅ (lc !! a)) uc l).
Proof.
  revert uc. induction l as [|[t m] l IH]; intros uc; [|apply check_bind; [apply check_owners_spec|intros; apply IH]].
  intros uc' [= <-]. split; [|done]. intros x. unfold total. simpl. lia.
Qed.

Lemma check_assets_spec lc l uc : ok_check lc uc (flat l) (check_assets lc uc l).
Proof.
  revert uc. induction l as [|[a m] l IH]; intros uc; [|apply check_bind; [apply check_locktimes_spec|intros; apply IH]].
  intros uc' [= <-]. split; [|done]. intros x. unfold total. simpl. lia.
Qed.

(** A range over a map visits each of its entries once. *)
Context (Hrange_b : ∀ V (m : gmap bytes V), range_b m ≡ₚ map_to_list m).
Context (Hrange_z : ∀ V (m : gmap Z V), range_z m ≡ₚ map_to_list m).

Lemma elem_range_b {V} (m : gmap bytes V) a v : (a, v) ∈ range_b m ↔ m !! a = Some v.
Proof using Hrange_b. by rewrite Hrange_b, elem_of_map_to_list. Qed.

Lemma elem_range_z {V} (m : gmap Z V) a v : (a, v) ∈ range_z m ↔ m !! a = Some v.
Proof using Hrange_z. by rewrite Hrange_z, elem_of_map_to_list. Qed.

Lemma elem_flat lp a t o p :
  ((a, (t, o)), p) ∈ flat (range_b lp) ↔ (lp !! a ≫= λ asset, asset !! t ≫= λ owners, owners !! o) = Some p.
Proof using Hrange_b Hrange_z.
  unfold flat, flat_asset, flat_owners. rewrite list_elem_of_bind. setoid_rewrite bind_Some. setoid_rewrite bind_Some. split.
  - intros ([a' m1] & H1 & H2). apply list_elem_of_bind in H1 as ([t' m2] & H1 & H3).
    apply list_elem_of_fmap in H1 as ([o' p'] & [= -> -> -> ->] & H4).
    apply elem_range_b in H2, H4. apply elem_range_z in H3. eauto.
  - intros (m1 & H1 & m2 & H2 & H3). apply elem_range_b in H1, H3. apply elem_range_z in H2.
    exists (a, m1). split; [|done]. apply list_elem_of_bind. exists (t, m2). split; [|done].
    apply list_elem_of_fmap. by exists (o, p).
Qed.

(** What the locked outputs of any set of owners exceed the locked inputs by is at most what
    the check takes from the unlocked funds. *)
Lemma flat_covers lc lp a (K : list (Z * bytes)) :
  ok_l lc → NoDup K →
  total ((λ k, get_l lp a k - get_l lc a k) <$> K) ≤ total (increase lc a <$> flat (range_b lp)).
Proof using Hrange_b Hrange_z.
  intros Hc HK. set (F := flat (range_b lp)).
  set (sel := λ k : Z * bytes, bool_decide (0 < get_l lp a k)).
  set (K' := (λ k, ((a, k), get_l lp a k)) <$> filter sel K).
  assert (K' ⊆+ F) as Hsub.
  { apply NoDup_submseteq.
    - apply (NoDup_fmap_2_strong _ _); [by intros k1 k2 _ _ [= ->]|]. by apply NoDup_filter.
    - intros [[a' [t o]] p] (k & Ek & Hk)%list_elem_of_fmap. injection Ek as -> <- ->.
      apply list_elem_of_filter in Hk as [Hk _]. unfold sel in Hk. apply bool_decide_unpack in Hk.
      apply elem_flat. unfold get_l in Hk |- *. simpl in *. destruct (_ ≫= _); [done|]. simpl in Hk. lia. }
  apply submseteq_Permutation in Hsub as (rest & HF).
  rewrite (total_perm _ _ (fmap_Permutation (increase lc a) _ _ HF)), funds_total_app.
  assert (0 ≤ total (increase lc a <$> rest)) as Hr.
  { apply sum_nonneg, Forall_fmap, Forall_true. intros [[b k] p]. simpl. unfold increase. case_decide; lia. }
  assert (total ((λ k, get_l lp a k - get_l lc a k) <$> K) ≤ total (increase lc a <$> K')); [|lia].
  unfold K'. clear K' HF HK Hr. induction K as [|k K IH]; [done|]. rewrite fmap_cons, total_cons, filter_cons.
  unfold sel at 1. pose proof (Hc a k) as Hk. unfold is_u64 in Hk. case_decide as Hd; apply bool_decide_spec in Hd || (rewrite bool_decide_spec in Hd).
  - rewrite !fmap_cons, total_cons. unfold increase at 1. rewrite decide_True by done. lia.
  - lia.
Qed.

(** ** Funds are conserved *)

Definition total_in (utxos : list UTXO) (a : bytes) : Z :=
  total ((λ u, if decide (ux_asset u = a) then out_Amount (ux_Out u) else 0) <$> utxos).
Definition total_out (outs : list TransferableOutput) (a : bytes) : Z :=
  total ((λ o, if decide (to_asset o = a) then out_Amount (to_Out o) else 0) <$> outs).

Definition locks_of (utxos : list UTXO) (outs : list TransferableOutput) : list (Z * bytes) :=
  remove_dups (omap utxo_lock utxos ++ omap output_lock outs).

Lemma check_unlocked_spec uc up :
  check_unlocked uc up = Ok tt → (∀ a, 0 ≤ get_u uc a) → ∀ a, get_u up a ≤ get_u uc a.
Proof using Hrange_b.
  unfold check_unlocked. destruct (existsb _ _) eqn:E; [done|]. intros _ Hc a.
  unfold get_u at 1. destruct (up !! a) as [p|] eqn:Ea; [|apply Hc]. simpl.
  apply elem_range_b, list_elem_of_In in Ea. destruct (Z.gtb_spec p (get_u uc a)) as [Hgt|]; [|done].
  assert (existsb (λ '(assetID, produced), produced >? default 0 (uc !! assetID)) (range_b up) = true); [|congruence].
  apply existsb_exists. exists (a, p). split; [done|]. by apply Z.gtb_gt, Z.lt_gt.
Qed.

(** What the code establishes, for every set of locks. *)
Lemma spend_balance utx utxos ins outs creds fees :
  Forall (λ u, is_u64 (out_Amount (ux_Out u))) utxos → Forall (λ o, is_u64 (out_Amount (to_Out o))) outs → ok_u fees →
  VerifySpendUTXOs utx utxos ins outs creds fees = Ok tt →
  ∀ a K, NoDup K →
    get_u fees a + produced outs a None + total ((λ k, produced outs a (Some k) - consumed utxos a (Some k)) <$> K)
    ≤ consumed utxos a None.
Proof using Hrange_b Hrange_z InputID.
  intros Hi Ho Hf. unfold VerifySpendUTXOs. destruct (_ =? _)%nat; [|done]. simpl.
  destruct (Nat.eqb_spec (length ins) (length utxos)) as [Hlen|]; [|done]. simpl. destruct (verify_creds creds) as [[]|]; [|done]. simpl.
  assert (ok_u ∅) as H0 by (intros a; by rewrite get_u_empty). assert (ok_l ∅) as H1 by (intros a k; by rewrite get_l_empty).
  destruct (consume_inputs _ _ _ _ _) as [[uc lc]|] eqn:Ec; simpl; [|done].
  destruct (consume_inputs_spec _ _ _ _ _ _ _ _ Hlen Hi H0 H1 Ec) as (Huc & Hlc & Euc & Elc).
  destruct (produce_outputs _ _) as [[up lp]|] eqn:Ep; simpl; [|done].
  destruct (produce_outputs_spec _ _ _ _ _ Ho Hf H1 Ep) as (Hup & Hlp & Eup & Elp).
  destruct (check_assets _ _ _) as [uc'|] eqn:Ea; simpl; [|done].
  destruct (check_assets_spec _ _ _ _ Ea) as [Ecu Hnn]. intros Hcu asset K HK.
  pose proof (flat_covers lc lp asset K Hlc HK) as Hfl.
  rewrite (list_fmap_ext _ (λ k, produced outs asset (Some k) - consumed utxos asset (Some k)) K) in Hfl.
  2: { intros i k _. rewrite Elp, Elc, !get_l_empty. lia. }
  specialize (Euc asset). rewrite get_u_empty in Euc. specialize (Eup asset). specialize (Ecu asset).
  assert (get_u up asset ≤ get_u uc' asset); [|lia].
  apply check_unlocked_spec; [done|]. apply Hnn. intros x. destruct (Huc x). done.
Qed.

Lemma spend_total utx utxos ins outs creds fees :
  Forall (λ u, is_u64 (out_Amount (ux_Out u))) utxos → Forall (λ o, is_u64 (out_Amount (to_Out o))) outs → ok_u fees →
  VerifySpendUTXOs utx utxos ins outs creds fees = Ok tt → ∀ a, get_u fees a + total_out outs a ≤ total_in utxos a.
Proof using Hrange_b Hrange_z InputID.
  intros Hi Ho Hf E a. assert (NoDup (locks_of utxos outs)) as HK by apply NoDup_remove_dups.
  pose proof (spend_balance _ _ _ _ _ _ Hi Ho Hf E a _ HK) as Hb. unfold total_out, total_in.
  rewrite (total_split to_asset output_lock _ a outs (locks_of utxos outs)), (total_split ux_asset utxo_lock _ a utxos (locks_of utxos outs)); try done.
  2,3: intros x k Hx Hk; unfold locks_of; rewrite elem_of_remove_dups, elem_of_app, !list_elem_of_omap; eauto.
  rewrite (total_sub (λ k, produced outs a (Some k)) (λ k, consumed utxos a (Some k))) in Hb.
  lia.
Qed.

Lemma get_utxos_spec utxoDB ins utxos :
  get_utxos utxoDB ins = Ok utxos → Forall2 (λ i u, utxoDB !! InputID (ti_TxID i) (ti_OutputIndex i) = Some u) ins utxos.
Proof using.
  revert utxos. induction ins as [|i ins IH]; intros utxos; simpl; [intros [= <-]; constructor|].
  destruct (utxoDB !! _) as [u|] eqn:E; [|done]. destruct (get_utxos utxoDB ins) as [us|]; simpl; [|done].
  intros [= <-]. constructor; [done|]. by apply IH.
Qed.

(** C33. A transaction that the P-chain's verifier accepts spends UTXOs of the state and
    creates no funds: for every asset, the fees and the outputs are at most the UTXOs that
    it consumes; and locked funds stay locked with their owners: for every choice of locks (a
    locktime and an owner), the fees, the unlocked outputs and whatever the locked outputs
    exceed the locked inputs by (counting negatively what they fall short by) come out of the
    unlocked inputs. *)
Theorem funds_conserved utx utxoDB ins outs creds fees :
  map_Forall (λ _ u, is_u64 (out_Amount (ux_Out u))) utxoDB →
  Forall (λ o, is_u64 (out_Amount (to_Out o))) outs → ok_u fees →
  Verifier_VerifySpend utx utxoDB ins outs creds fees = Ok tt →
  ∃ utxos, Forall2 (λ i u, utxoDB !! InputID (ti_TxID i) (ti_OutputIndex i) = Some u) ins utxos
    ∧ (∀ a, get_u fees a + total_out outs a ≤ total_in utxos a)
    ∧ (∀ a K, NoDup K →
        get_u fees a + produced outs a None + total ((λ k, produced outs a (Some k) - consumed utxos a (Some k)) <$> K)
        ≤ consumed utxos a None).
Proof using Hrange_b Hrange_z InputID.
  intros Hdb Ho Hf. unfold Verifier_VerifySpend. destruct (get_utxos utxoDB ins) as [utxos|] eqn:E; simpl; [|done].
  apply get_utxos_spec in E. intros Hs. exists utxos. split; [done|].
  assert (Forall (λ u, is_u64 (out_Amount (ux_Out u))) utxos) as Hi.
  { clear Hs. induction E; constructor; eauto. }
  split; [by eapply spend_total|by eapply spend_balance].
Qed.
End verifier.

(** ** The flow check of the X-chain *)

Notation entry := (bytes * Z)%type.

Definition sum_of (l : list entry) (a : bytes) : Z := total ((λ '(b, v), if decide (b = a) then v else 0) <$> l).

Lemma sum_of_cons b v l a : sum_of ((b, v) :: l) a = (if decide (b = a) then v else 0) + sum_of l a.
Proof. unfold sum_of. by rewrite fmap_cons, total_cons. Qed.

Lemma sum_of_app l1 l2 a : sum_of (l1 ++ l2) a = sum_of l1 a + sum_of l2 a.
Proof. unfold sum_of. apply funds_total_app. Qed.

Lemma sum_of_nonneg l a : Forall (λ e, is_u64 e.2) l → 0 ≤ sum_of l a.
Proof.
  induction 1 as [|[b v] l Hv Hl IH]; [done|]. rewrite sum_of_cons. unfold is_u64 in Hv. simpl in Hv. case_decide; lia.
Qed.

(** A run of additions to one of the maps of a checker. *)
Definition flow_run (st : gmap bytes Z * option spend_error) (l : list entry) : gmap bytes Z * option spend_error :=
  foldl (λ st '(a, v), let '(m, e) := flow_add st.1 a v in (m, first_error st.2 e)) st l.

Lemma flow_run_err m e l : (flow_run (m, Some e) l).2 = Some e.
Proof. revert m. induction l as [|[a v] l IH]; intros m; [done|]. simpl. destruct (flow_add m a v). apply IH. Qed.

Lemma flow_run_spec m l :
  ok_u m → Forall (λ e, is_u64 e.2) l →
  ((flow_run (m, None) l).2 = None ↔ ∀ a, get_u m a + sum_of l a ≤ MaxUint64)
  ∧ ((flow_run (m, None) l).2 = None → ∀ a, get_u (flow_run (m, None) l).1 a = get_u m a + sum_of l a).
Proof.
  intros Hm Hl. revert m Hm. induction Hl as [|[b v] l Hv Hl IH]; intros m Hm.
  { unfold sum_of, total. simpl. split; [|intros; lia]. split; [|done]. intros _ a. destruct (Hm a). lia. }
  cbn [flow_run foldl]. unfold flow_add. cbn [fst snd]. fold (get_u m b). rewrite Add64_exact by (by auto || apply Hm).
  simpl in Hv. destruct (Z.leb_spec (get_u m b + v) MaxUint64) as [Hle|Hgt]; cbn [first_error].
  - set (m1 := <[b := get_u m b + v]> m).
    assert (∀ a, get_u m1 a = get_u m a + if decide (b = a) then v else 0) as E.
    { intros a. unfold m1. rewrite get_u_insert. repeat case_decide; subst; try done; lia. }
    assert (ok_u m1) as Hm1. { intros a. rewrite E. destruct (Hm a). unfold is_u64 in *. case_decide; subst; lia. }
    destruct (IH m1 Hm1) as [I1 I2]. change (foldl _ (m1, None) l) with (flow_run (m1, None) l).
    split; [rewrite I1; apply forall_proper|intros Hn a; rewrite (I2 Hn)]; [intros a|]; rewrite sum_of_cons, E; [|lia].
    by rewrite Z.add_assoc.
  - change (foldl _ ?st l) with (flow_run st l). rewrite flow_run_err. split; [|done]. split; [done|].
    intros H. specialize (H b). rewrite sum_of_cons, decide_True in H by done. pose proof (sum_of_nonneg l b Hl). lia.
Qed.

Definition out_entry (o : TransferableOutput) : entry := (to_asset o, out_Amount (to_Out o)).
Definition in_entry (i : TransferableInput) : entry := (ti_asset i, in_Amount (ti_In i)).

Definition produce_run (fc : FlowChecker) (l : list entry) : FlowChecker :=
  let '(m, e) := flow_run (fc_produced fc, fc_err fc) l in mkFC (fc_consumed fc) m e.
Definition consume_run (fc : FlowChecker) (l : list entry) : FlowChecker :=
  let '(m, e) := flow_run (fc_consumed fc, fc_err fc) l in mkFC m (fc_produced fc) e.

Lemma produce_run_cons fc a v l : produce_run fc ((a, v) :: l) = produce_run (Produce fc a v) l.
Proof. unfold produce_run, Produce. simpl. by destruct (flow_add _ _ _). Qed.

Lemma consume_run_cons fc a v l : consume_run fc ((a, v) :: l) = consume_run (Consume fc a v) l.
Proof. unfold consume_run, Consume. simpl. by destruct (flow_add _ _ _). Qed.

Lemma produce_run_app fc l1 l2 : produce_run fc (l1 ++ l2) = produce_run (produce_run fc l1) l2.
Proof.
  revert fc. induction l1 as [|[a v] l1 IH]; intros fc; [by destruct fc|]. simpl. by rewrite !produce_run_cons.
Qed.

Lemma consume_run_app fc l1 l2 : consume_run fc (l1 ++ l2) = consume_run (consume_run fc l1) l2.
Proof.
  revert fc. induction l1 as [|[a v] l1 IH]; intros fc; [by destruct fc|]. simpl. by rewrite !consume_run_cons.
Qed.

Lemma produce_all_spec fc outs fc' :
  produce_all fc outs = Ok fc' ↔ Forall (λ o, TransferableOutput_Verify o = Ok tt) outs ∧ fc' = produce_run fc (out_entry <$> outs).
Proof.
  revert fc. induction outs as [|o outs IH]; intros fc.
  { simpl. rewrite Forall_nil. unfold produce_run. destruct fc; simpl. naive_solver. }
  cbn [produce_all]. rewrite fmap_cons, Forall_cons. unfold out_entry at 1. rewrite produce_run_cons.
  destruct (TransferableOutput_Verify o) as [[]|]; cbn [result_bind]; [rewrite IH|]; naive_solver.
Qed.

Lemma consume_all_spec fc ins fc' :
  consume_all fc ins = Ok fc' ↔ Forall (λ i, TransferableInput_Verify i = Ok tt) ins ∧ fc' = consume_run fc (in_entry <$> ins).
Proof.
  revert fc. induction ins as [|i ins IH]; intros fc.
  { simpl. rewrite Forall_nil. unfold consume_run. destruct fc; simpl. naive_solver. }
  cbn [consume_all]. rewrite fmap_cons, Forall_cons. unfold in_entry at 1. rewrite consume_run_cons.
  destruct (TransferableInput_Verify i) as [[]|]; cbn [result_bind]; [rewrite IH|]; naive_solver.
Qed.

Section flow.
Context (range : ∀ V : Type, gmap bytes V → list (bytes * V)) (marshal_out : TransferableOut → option bytes).
Context (Hrange : ∀ V (m : gmap bytes V), range V m ≡ₚ map_to_list m).

(** The lists that pass the checks other than the amounts. *)
Definition outs_ok (outs : list TransferableOutput) : Prop :=
  Forall (λ o, TransferableOutput_Verify o = Ok tt) outs ∧ IsSortedTransferableOutputs marshal_out outs = true.
Definition ins_ok (ins : list TransferableInput) : Prop :=
  Forall (λ i, TransferableInput_Verify i = Ok tt) ins ∧ IsSortedAndUnique input_lt ins = true.

Lemma produce_lists_spec fc outs fc' :
  produce_lists marshal_out fc outs = Ok fc' ↔ Forall outs_ok outs ∧ fc' = produce_run fc (out_entry <$> concat outs).
Proof using.
  revert fc. induction outs as [|os outs IH]; intros fc.
  { simpl. rewrite Forall_nil. unfold produce_run. destruct fc; simpl. naive_solver. }
  cbn [produce_lists concat]. rewrite fmap_app, produce_run_app, Forall_cons. unfold outs_ok at 1.
  destruct (produce_all fc os) as [fc1|] eqn:E; cbn [result_bind].
  - apply produce_all_spec in E as [Hv ->]. destruct (IsSortedTransferableOutputs marshal_out os); simpl; [rewrite IH|]; naive_solver.
  - split; [done|]. intros ([[Hv _] _] & _). by rewrite (proj2 (produce_all_spec fc os _) (conj Hv eq_refl)) in E.
Qed.

Lemma consume_lists_spec fc ins fc' :
  consume_lists fc ins = Ok fc' ↔ Forall ins_ok ins ∧ fc' = consume_run fc (in_entry <$> concat ins).
Proof using.
  revert fc. induction ins as [|l ins IH]; intros fc.
  { simpl. rewrite Forall_nil. unfold consume_run. destruct fc; simpl. naive_solver. }
  cbn [consume_lists concat]. rewrite fmap_app, consume_run_app, Forall_cons. unfold ins_ok at 1.
  destruct (consume_all fc l) as [fc1|] eqn:E; cbn [result_bind].
  - apply consume_all_spec in E as [Hv ->]. destruct (IsSortedAndUnique input_lt l); simpl; [rewrite IH|]; naive_solver.
  - split; [done|]. intros ([[Hv _] _] & _). by rewrite (proj2 (consume_all_spec fc l _) (conj Hv eq_refl)) in E.
Qed.

Lemma Flow_Verify_spec fc :
  ok_u (fc_consumed fc) → Flow_Verify range fc = None ↔ fc_err fc = None ∧ ∀ a, get_u (fc_produced fc) a ≤ get_u (fc_consumed fc) a.
Proof using Hrange.
  intros Hc. unfold Flow_Verify. destruct (fc_err fc); [naive_solver|]. destruct (existsb _ _) eqn:E; (split; [intros H|intros [_ H]]); try done.
  - apply existsb_exists in E as ([a p] & Hin & Hgt). apply list_elem_of_In in Hin. rewrite Hrange in Hin.
    apply elem_of_map_to_list in Hin. specialize (H a). unfold get_u in H. rewrite Hin in H. simpl in H. apply Z.gtb_lt in Hgt. lia.
  - split; [done|]. intros a. unfold get_u at 1. destruct (fc_produced fc !! a) as [p|] eqn:Ea; [|destruct (Hc a); simpl; lia].
    destruct (Z.gtb_spec p (get_u (fc_consumed fc) a)) as [Hgt|]; [|done].
    assert (existsb (λ '(assetID, produced), produced >? default 0 (fc_consumed fc !! assetID)) (range Z (fc_produced fc)) = true); [|congruence].
    apply existsb_exists. exists (a, p). split; [|by apply Z.gtb_gt, Z.lt_gt].
    apply list_elem_of_In. rewrite Hrange. by apply elem_of_map_to_list.
Qed.

Lemma flow_balance lo li :
  Forall (λ e, is_u64 e.2) lo → Forall (λ e, is_u64 e.2) li →
  Flow_Verify range (consume_run (produce_run NewFlowChecker lo) li) = None ↔ ∀ a, sum_of li a ≤ MaxUint64 ∧ sum_of lo a ≤ sum_of li a.
Proof using Hrange.
  intros Hlo Hli. assert (ok_u ∅) as H0 by (intros a; by rewrite get_u_empty).
  destruct (flow_run_spec ∅ _ H0 Hlo) as [P1 P2], (flow_run_spec ∅ _ H0 Hli) as [C1 C2].
  setoid_rewrite get_u_empty in P1. setoid_rewrite get_u_empty in C1. setoid_rewrite get_u_empty in P2. setoid_rewrite get_u_empty in C2.
  unfold produce_run, NewFlowChecker. cbn [fc_produced fc_consumed fc_err]. destruct (flow_run (∅, None) lo) as [mp [e|]]; cbn [fst snd] in *.
  { assert (¬ ∀ a, sum_of lo a ≤ MaxUint64) as Hn by (intros H; by apply P1 in H).
    unfold consume_run. cbn [fc_produced fc_consumed fc_err]. pose proof (flow_run_err ∅ e li) as He.
    destruct (flow_run (∅, Some e) li) as [mc ec]. simpl in He. subst ec. split; [done|]. intros H. destruct Hn. intros a. specialize (H a). lia. }
  specialize (P2 eq_refl). unfold consume_run. cbn [fc_produced fc_consumed fc_err].
  destruct (flow_run (∅, None) li) as [mc [e|]]; cbn [fst snd] in *.
  { split; [done|]. intros H. assert (Some e = None); [|done]. apply C1. intros a. specialize (H a). lia. }
  specialize (C2 eq_refl). pose proof (proj1 C1 eq_refl) as C3. rewrite Flow_Verify_spec; cbn [fc_produced fc_consumed fc_err].
  - setoid_rewrite P2. setoid_rewrite C2. split; [intros [_ H] a|intros H]; [split|split; [done|intros a]]; specialize (C3 a); try specialize (H a); lia.
  - intros a. rewrite C2. specialize (C3 a). pose proof (sum_of_nonneg li a Hli). unfold is_u64. lia.
Qed.

(** C35. [VerifyTx] accepts exactly the transactions that are well formed (every input and
    output verifies, outputs are sorted, inputs are sorted and unique) and that balance: for
    every asset, what the inputs consume fits in 64 bits and covers the outputs and the fee.
    In particular an overflow of any of the sums is always detected. *)
Theorem flow_check_exact fee feeAsset allIns allOuts :
  is_u64 fee → Forall (λ o, is_u64 (out_Amount (to_Out o))) (concat allOuts) → Forall (λ i, is_u64 (in_Amount (ti_In i))) (concat allIns) →
  VerifyTx range marshal_out fee feeAsset allIns allOuts = Ok tt
  ↔ Forall outs_ok allOuts ∧ Forall ins_ok allIns
    ∧ ∀ a, sum_of (in_entry <$> concat allIns) a ≤ MaxUint64
        ∧ (if decide (a = feeAsset) then fee else 0) + sum_of (out_entry <$> concat allOuts) a ≤ sum_of (in_entry <$> concat allIns) a.
Proof using Hrange.
  intros Hfee Ho Hi. unfold VerifyTx. set (lo := out_entry <$> concat allOuts). set (li := in_entry <$> concat allIns).
  assert (Forall (λ e, is_u64 e.2) ((feeAsset, fee) :: lo)) as Hlo by (constructor; [done|]; by apply Forall_fmap).
  assert (Forall (λ e, is_u64 e.2) li) as Hli by (by apply Forall_fmap).
  assert (∀ a, sum_of ((feeAsset, fee) :: lo) a = (if decide (a = feeAsset) then fee else 0) + sum_of lo a) as Es.
  { intros a. rewrite sum_of_cons. f_equal. repeat case_decide; congruence. }
  destruct (produce_lists marshal_out _ _) as [fc1|e] eqn:E1; cbn [result_bind].
  2: { split; [done|]. intros (H1 & _). by rewrite (proj2 (produce_lists_spec _ _ _) (conj H1 eq_refl)) in E1. }
  apply produce_lists_spec in E1 as [H1 E1]. rewrite <- produce_run_cons in E1.
  destruct (consume_lists fc1 allIns) as [fc2|e] eqn:E2; cbn [result_bind].
  2: { split; [done|]. intros (_ & H2 & _). by rewrite (proj2 (consume_lists_spec _ _ _) (conj H2 eq_refl)) in E2. }
  apply consume_lists_spec in E2 as [H2 E2]. fold lo in E1. fold li in E2.
  destruct (flow_balance _ _ Hlo Hli) as [F1 F2]. subst fc1 fc2. setoid_rewrite Es in F1. setoid_rewrite Es in F2.
  destruct (Flow_Verify _ _) as [e|]; [|naive_solver]. split; [done|]. intros (_ & _ & H). by specialize (F2 ltac:(naive_solver)).
Qed.
End flow.

(** ** Spends are authorized *)

Lemma IsSortedAndUnique_NoDup {A} (lt : A → A → bool) l :
  (∀ a, lt a a = false) → (∀ a b c, lt a b = true → lt b c = true → lt a c = true) →
  IsSortedAndUnique lt l = true → NoDup l.
Proof.
  intros Hi Ht Hs. assert (StronglySorted (λ a b, lt a b = true) l) as Hss.
  { apply Sorted_StronglySorted; [intros ? ? ?; apply Ht|]. induction l as [|a [|b l] IH]; [constructor|repeat constructor|].
    simpl in Hs. apply andb_true_iff in Hs as [H1 H2]. constructor; [by apply IH|by constructor]. }
  induction Hss as [|a l _ IH Ha]; constructor; [|apply IH; destruct l; [done|]; simpl in Hs; by apply andb_true_iff in Hs as [_ ?]].
  intros Hin. rewrite Forall_forall in Ha. specialize (Ha a Hin). by rewrite Hi in Ha.
Qed.

Section authorized.
Context (fx_now : Z) (ComputeHash256 : bytes → bytes) (recover : bytes → bytes → option bytes).

(** The owners are past their locktime and as many of them as their threshold signed the
    transaction. *)
Definition authorized (utx : bytes) (o : OutputOwners) (sigs : list bytes) : Prop :=
  oo_Locktime o ≤ fx_now
  ∧ ∃ signers, NoDup signers ∧ signers ⊆ oo_Addrs o ∧ Z.of_nat (length signers) = oo_Threshold o
    ∧ Forall2 (λ address sig, recover (ComputeHash256 utx) sig = Some address) signers sigs.

Lemma check_sigs_spec h addrs indices sigs :
  length indices = length sigs → check_sigs recover h addrs indices sigs = Ok tt →
  ∃ signers, Forall2 (λ i a, addrs !! Z.to_nat i = Some a) indices signers ∧ Forall2 (λ a sig, recover h sig = Some a) signers sigs.
Proof using.
  revert sigs. induction indices as [|i indices IH]; intros [|sig sigs] Hlen; try done; simpl.
  { intros _. exists []. split; constructor. }
  destruct (_ >=? _); [done|]. destruct (recover h sig) as [address|] eqn:Er; [|done].
  destruct (addrs !! Z.to_nat i) as [a|] eqn:Ea; [|done]. case_bool_decide as E; [|done]. subst a.
  intros H. destruct (IH sigs ltac:(simpl in Hlen; lia) H) as (signers & H1 & H2).
  exists (address :: signers). split; by constructor.
Qed.

Lemma signers_NoDup (indices : list Z) (addrs signers : list bytes) :
  Forall (λ i, 0 ≤ i) indices → NoDup indices → NoDup addrs → Forall2 (λ i a, addrs !! Z.to_nat i = Some a) indices signers → NoDup signers.
Proof using.
  intros Hi Hn Ha Hs. induction Hs as [|i a indices signers E Hs IH]; [constructor|].
  rewrite Forall_cons in Hi. rewrite NoDup_cons in Hn. destruct Hi as [Hi0 Hi], Hn as [Hn0 Hn].
  constructor; [|by apply IH]. intros (j & Hj)%list_elem_of_lookup.
  destruct (Forall2_lookup_r _ _ _ _ _ Hs Hj) as (i' & Hi' & E').
  pose proof (NoDup_lookup _ _ _ _ Ha E E') as Heq. destruct Hn0. apply list_elem_of_lookup. exists j.
  rewrite Forall_lookup in Hi. pose proof (Hi _ _ Hi'). by replace i with i' by lia.
Qed.

Lemma VerifyCredentials_authorized utx i cred o :
  owners_Verify o = Ok tt → Input_Verify i = Ok tt → Forall (λ x, 0 ≤ x) (SigIndices i) → Z.of_nat (length (SigIndices i)) < 2 ^ 32 →
  VerifyCredentials fx_now true ComputeHash256 recover utx i cred o = Ok tt → authorized utx o (Sigs cred).
Proof using.
  intros Ho Hi Hpos Hlen. unfold VerifyCredentials, u32. rewrite Z.mod_small by lia.
  destruct (Z.gtb_spec (oo_Locktime o) fx_now); [done|]. destruct (Z.ltb_spec (oo_Threshold o) (Z.of_nat (length (SigIndices i)))); [done|].
  destruct (Z.gtb_spec (oo_Threshold o) (Z.of_nat (length (SigIndices i)))); [done|].
  destruct (Z.eqb_spec (Z.of_nat (length (SigIndices i))) (Z.of_nat (length (Sigs cred)))) as [El|]; [|done]. simpl.
  intros Hs. apply check_sigs_spec in Hs as (signers & Hsel & Hrec); [|lia]. split; [lia|]. exists signers.
  assert (NoDup (oo_Addrs o)) as Hna.
  { unfold owners_Verify in Ho. repeat (case_match; try done).
    eapply (IsSortedAndUnique_NoDup bytes_lt); [apply bytes_lt_irrefl|apply bytes_lt_trans|]. by apply negb_false_iff. }
  assert (NoDup (SigIndices i)) as Hni.
  { unfold Input_Verify in Hi. case_match eqn:E; [done|]. eapply (IsSortedAndUnique_NoDup Z.ltb); [apply Z.ltb_irrefl| |by apply negb_false_iff].
    intros a b c ?%Z.ltb_lt ?%Z.ltb_lt. apply Z.ltb_lt. lia. }
  split_and!; try done.
  - by eapply signers_NoDup.
  - intros a (j & Hj)%list_elem_of_lookup. destruct (Forall2_lookup_r _ _ _ _ _ Hsel Hj) as (x & _ & E). by eapply list_elem_of_lookup_2.
  - apply Forall2_length in Hsel. lia.
Qed.

Fixpoint in_indices (i : TransferableIn) : list Z := match i with TransferIn i => SigIndices (in_Input i) | LockIn _ i => in_indices i end.

Lemma VerifyTransfer_authorized utx i cred out :
  Forall (λ x, 0 ≤ x) (in_indices i) → Z.of_nat (length (in_indices i)) < 2 ^ 32 →
  VerifyTransfer fx_now true ComputeHash256 recover utx i cred out = Ok tt →
  ∃ o, owners_of out = Ok o ∧ authorized utx o (Sigs cred).
Proof using.
  unfold VerifyTransfer. destruct i as [i|], out as [out|]; try done. simpl. intros Hp Hl H. exists (out_Owners out). split; [done|].
  revert H. unfold VerifySpend, TransferOutput_Verify, TransferInput_Verify.
  destruct (out_Amt out =? 0); [done|]. destruct (owners_Verify (out_Owners out)) as [[]|] eqn:E1; simpl; [|done].
  destruct (in_Amt i =? 0); [done|]. destruct (Input_Verify (in_Input i)) as [[]|] eqn:E2; simpl; [|done].
  destruct (negb _); [done|]. by apply VerifyCredentials_authorized.
Qed.

(** The input and the UTXO agree on the lock: funds that are still locked are spent by an
    input that carries their locktime. *)
Definition lock_respected (now : Z) (i : TransferableInput) (u : UTXO) : Prop :=
  match ti_In i with TransferIn _ => (unlock_out (ux_Out u)).2 ≤ now | LockIn t _ => t = (unlock_out (ux_Out u)).2 end.

Lemma consume_input_authorized now utx st i u c st' :
  Forall (λ x, 0 ≤ x) (in_indices (ti_In i)) → Z.of_nat (length (in_indices (ti_In i))) < 2 ^ 32 →
  consume_input fx_now true ComputeHash256 recover now utx st i u c = Ok st' →
  ti_asset i = ux_asset u ∧ in_Amount (ti_In i) = out_Amount (ux_Out u) ∧ lock_respected now i u
  ∧ ∃ o, owners_of (unlock_out (ux_Out u)).1 = Ok o ∧ authorized utx o (Sigs c).
Proof using.
  intros Hp Hl. unfold consume_input, lock_respected. case_bool_decide as Ea; [|done]. simpl.
  pose proof (unlock_out_amount (ux_Out u)) as Eam. destruct (unlock_out (ux_Out u)) as [out t]. simpl in Eam |- *.
  destruct (ti_In i) as [j|l j].
  - destruct (Z.ltb_spec now t); cbn [negb result_bind]; [done|].
    destruct (VerifyTransfer _ _ _ _ _ _ _ _) as [[]|] eqn:Ev; [|done]. intros _. split_and!; [done| |done|].
    + rewrite <- Eam. by apply VerifyTransfer_amount in Ev.
    + exact (VerifyTransfer_authorized _ _ _ _ Hp Hl Ev).
  - destruct (Z.eqb_spec l t); cbn [negb result_bind]; [|done].
    destruct (VerifyTransfer _ _ _ _ _ _ _ _) as [[]|] eqn:Ev; [|done]. intros _. split_and!; [done| |done|].
    + rewrite <- Eam. by apply VerifyTransfer_amount in Ev.
    + exact (VerifyTransfer_authorized _ j _ _ Hp Hl Ev).
Qed.

Lemma consume_inputs_each now utx st ins utxos creds st' j i u c :
  consume_inputs fx_now true ComputeHash256 recover now utx st ins utxos creds = Ok st' →
  ins !! j = Some i → utxos !! j = Some u → creds !! j = Some c →
  ∃ st1 st2, consume_input fx_now true ComputeHash256 recover now utx st1 i u c = Ok st2.
Proof using.
  revert st utxos creds j. induction ins as [|i' ins IH]; intros st utxos creds j; [done|].
  destruct utxos as [|u' utxos], creds as [|c' creds]; try done. cbn [consume_inputs].
  destruct (consume_input _ _ _ _ _ _ _ _ _ _) as [st1|] eqn:E; cbn [result_bind]; [|done].
  destruct j; simpl; [intros _ [= ->] [= ->] [= ->]; eauto|apply IH].
Qed.

(** C34. When the P-chain's verifier accepts a transaction on a bootstrapped chain, every
    input spends an existing UTXO of its asset and its amount, respects the UTXO's stakeable
    lock, and is authorized: the owners' locktime has passed and exactly the threshold of
    distinct addresses of the owners have signed the transaction. *)
Theorem spend_authorized now range_b range_z InputID utx utxoDB ins outs creds fees j i c :
  Forall (λ x, 0 ≤ x) (in_indices (ti_In i)) → Z.of_nat (length (in_indices (ti_In i))) < 2 ^ 32 →
  Verifier_VerifySpend fx_now true ComputeHash256 recover now range_b range_z InputID utx utxoDB ins outs creds fees = Ok tt →
  ins !! j = Some i → creds !! j = Some c →
  ∃ u o, utxoDB !! InputID (ti_TxID i) (ti_OutputIndex i) = Some u
    ∧ ti_asset i = ux_asset u ∧ in_Amount (ti_In i) = out_Amount (ux_Out u) ∧ lock_respected now i u
    ∧ owners_of (unlock_out (ux_Out u)).1 = Ok o ∧ authorized utx o (Sigs c).
Proof using.
  intros Hp Hl Hv Hi Hc. unfold Verifier_VerifySpend in Hv. destruct (get_utxos _ _ _) as [utxos|] eqn:E; simpl in Hv; [|done].
  apply get_utxos_spec in E. destruct (Forall2_lookup_l _ _ _ _ _ E Hi) as (u & Hu & Eu).
  unfold VerifySpendUTXOs in Hv. destruct (negb _); [done|]. destruct (negb _); [done|]. destruct (verify_creds creds); [|done]. simpl in Hv.
  destruct (consume_inputs _ _ _ _ _ _ _ _ _ _) as [st'|] eqn:E'; [|done].
  destruct (consume_inputs_each _ _ _ _ _ _ _ _ _ _ _ E' Hi Hu Hc) as (st1 & st2 & Es).
  apply consume_input_authorized in Es as (H1 & H2 & H3 & o & H4 & H5); [|done..]. by exists u, o.
Qed.
End authorized.

(** ** A concrete spend

    Two UTXOs of one owner, one of them stakeable and locked, pay an unlocked output, a
    locked one and a fee. *)

Definition ex_recover (_ sig : bytes) : option bytes := Some sig.
Definition ex_InputID (tx : bytes) (n : Z) : bytes := n :: tx.
Definition ex_owners : OutputOwners := mkOwners 0 1 [[9]].
Definition ex_out (v : Z) : TransferableOut := TransferOut (mkTO v ex_owners).
Definition ex_in (v : Z) : TransferableIn := TransferIn (mkTI v (mkInput [0])).
Definition ex_db : gmap bytes UTXO := {[ [0; 5] := mkUTXO [1] (ex_out 100); [1; 5] := mkUTXO [1] (LockOut 50 (ex_out 30)) ]}.
Definition ex_ins : list TransferableInput := [mkTIn [5] 0 [1] (ex_in 100); mkTIn [5] 1 [1] (LockIn 50 (ex_in 30))].
Definition ex_outs : list TransferableOutput := [mkTOut [1] (ex_out 80); mkTOut [1] (LockOut 50 (ex_out 40))].
Definition ex_creds : list Credential := [mkCred [[9]]; mkCred [[9]]].
Definition ex_fees : gmap bytes Z := {[ [1] := 10 ]}.

Definition ex_verify : result spend_error unit :=
  Verifier_VerifySpend 20 true (λ b, b) ex_recover 20 (λ V, map_to_list) (λ V, map_to_list) ex_InputID [7] ex_db ex_ins ex_outs ex_creds ex_fees.

Lemma funds_conserved_witness :
  ex_verify = Ok tt ∧ get_u ex_fees [1] + total_out ex_outs [1] ≤ 130.
Proof.
  assert (ex_verify = Ok tt) as E by reflexivity. split; [exact E|].
  destruct (funds_conserved 20 true (λ b, b) ex_recover 20 (λ V, map_to_list) (λ V, map_to_list) ex_InputID (λ _ _, reflexivity _) (λ _ _, reflexivity _)
    [7] ex_db ex_ins ex_outs ex_creds ex_fees) as (utxos & H & Hb & _).
  - unfold ex_db. apply map_Forall_insert_2; [by split|]. apply map_Forall_singleton. by split.
  - repeat constructor; done.
  - intros a. unfold ex_fees, get_u. rewrite lookup_singleton. by case_decide; split.
  - exact E.
  - specialize (Hb [1]). unfold ex_ins in H.
    apply Forall2_cons_inv_l in H as (u1 & us & E1 & H & ->). apply Forall2_cons_inv_l in H as (u2 & us2 & E2 & H & ->).
    apply Forall2_nil_inv_l in H as ->. cbv in E1, E2. injection E1 as <-. injection E2 as <-. exact Hb.
Defined.

Lemma spend_authorized_witness :
  ex_verify = Ok tt ∧ authorized 20 (λ b, b) ex_recover [7] ex_owners [[9]].
Proof.
  assert (ex_verify = Ok tt) as E by reflexivity. split; [exact E|].
  destruct (spend_authorized 20 (λ b, b) ex_recover 20 (λ V, map_to_list) (λ V, map_to_list) ex_InputID [7] ex_db ex_ins ex_outs ex_creds ex_fees
    1 (mkTIn [5] 1 [1] (LockIn 50 (ex_in 30))) (mkCred [[9]])) as (u & o & Eu & _ & _ & _ & Eo & H).
  - repeat constructor; done.
  - done.
  - exact E.
  - reflexivity.
  - reflexivity.
  - injection Eu as <-. injection Eo as <-. exact H.
Defined.

Lemma flow_check_exact_witness :
  VerifyTx (λ V, map_to_list) (λ _, Some []) 10 [1] [[mkTIn [5] 0 [1] (ex_in 100)]] [[mkTOut [1] (ex_out 80)]] = Ok tt.
Proof.
  apply (flow_check_exact (λ V, map_to_list) (λ _, Some []) (λ _ _, reflexivity _)).
  - by split.
  - repeat constructor; done.
  - repeat constructor; done.
  - split_and!; [repeat constructor..|]. intros a. unfold sum_of. simpl. repeat case_decide; subst; split; done.
Defined.
