(* ===== verification/Reward.v ===== *)
(** * Staking rewards

    Models [vms/platformvm/reward/calculator.go] and [config.go]: the reward of a staker and
    the split of a reward between a validator and its delegators.  Numbers of [math/big] are
    integers; a division by zero panics.  The arithmetic on [uint64] wraps. *)

From S2P Require Import Prelude Packer.

Open Scope Z_scope.

Definition PercentDenominator : Z := 1000000.
Definition consumptionRateDenominator : Z := PercentDenominator.

(** A [time.Duration] is an [int64]. *)
Record Config := mkConfig {
  MaxConsumptionRate : Z; MinConsumptionRate : Z; MintingPeriod : Z; SupplyCap : Z
}.

Record calculator := mkCalculator {
  maxSubMinConsumptionRate : Z; minConsumptionRate : Z; mintingPeriod : Z; supplyCap : Z
}.

Definition NewCalculator (c : Config) : calculator :=
  mkCalculator (u64 (MaxConsumptionRate c - MinConsumptionRate c)) (MinConsumptionRate c)
    (u64 (MintingPeriod c)) (SupplyCap c).

(** [big.Int.Div] *)
Definition big_Div (x y : Z) : option Z := if y =? 0 then None else Some (x / y).

(** [None] is a panic. *)
Definition Calculate (c : calculator) (stakedDuration stakedAmount currentSupply : Z) : option Z :=
  let bigStakedDuration := u64 stakedDuration in
  let adjustedConsumptionRateNumerator :=
    maxSubMinConsumptionRate c * bigStakedDuration + minConsumptionRate c * mintingPeriod c in
  let adjustedConsumptionRateDenominator := mintingPeriod c * consumptionRateDenominator in
  let remainingSupply := u64 (supplyCap c - currentSupply) in
  let reward := remainingSupply * adjustedConsumptionRateNumerator * stakedAmount * bigStakedDuration in
  reward ← big_Div reward adjustedConsumptionRateDenominator;
  reward ← big_Div reward currentSupply;
  reward ← big_Div reward (mintingPeriod c);
  if negb (bool_decide (is_u64 reward)) then Some remainingSupply
  else if reward >? remainingSupply then Some remainingSupply
  else Some reward.

Definition Split (totalAmount shares : Z) : Z * Z :=
  let remainderShares := u64 (PercentDenominator - shares) in
  let remainderAmount := u64 (remainderShares * (totalAmount / PercentDenominator)) in
  let remainderAmount :=
    match Mul64 remainderShares totalAmount with
    | Ok optimisticReward => optimisticReward / PercentDenominator
    | Err _ => remainderAmount
    end in
  (u64 (totalAmount - remainderAmount), remainderAmount).

(** ** The reward *)

(** A configuration with its rates in order and a period; a stake. *)
Record config_ok (c : Config) : Prop := {
  co_min : 0 ≤ MinConsumptionRate c;
  co_max : MinConsumptionRate c ≤ MaxConsumptionRate c ≤ MaxUint64;
  co_period : 0 < MintingPeriod c < 2 ^ 63;
  co_cap : is_u64 (SupplyCap c)
}.

(** The documented formula, over the rationals and rounded down once:
    [Remaining * (Amount / Supply) * Rate * (Duration / Period)] with
    [Rate = Min + (Max - Min) * Duration / Period]. *)
Definition exact_reward (c : Config) (duration amount supply : Z) : Z :=
  (SupplyCap c - supply) * amount * duration
    * ((MaxConsumptionRate c - MinConsumptionRate c) * duration + MinConsumptionRate c * MintingPeriod c)
  / (MintingPeriod c * PercentDenominator * supply * MintingPeriod c).

Lemma Calculate_exact c duration amount supply :
  config_ok c → 0 ≤ duration < 2 ^ 63 → is_u64 amount → 0 < supply ≤ SupplyCap c →
  Calculate (NewCalculator c) duration amount supply
  = Some (Z.min (SupplyCap c - supply) (exact_reward c duration amount supply)).
Proof.
  intros [Hmin Hmax Hp [Hc0 Hc1]] Hd [Ha0 Ha1] Hs. unfold Calculate, NewCalculator. cbn -[Z.mul Z.add Z.sub Z.div u64].
  unfold MaxUint64 in *. rewrite !u64_id by (unfold is_u64, MaxUint64; lia). unfold big_Div, consumptionRateDenominator, PercentDenominator.
  rewrite (proj2 (Z.eqb_neq (MintingPeriod c * 1000000) 0)) by lia. cbn [option_bind mbind].
  rewrite (proj2 (Z.eqb_neq supply 0)) by lia. cbn [option_bind mbind].
  rewrite (proj2 (Z.eqb_neq (MintingPeriod c) 0)) by lia. cbn [option_bind mbind].
  rewrite !Z.div_div, !Z.mul_assoc by lia. set (num := _ * _ * _ * duration). unfold exact_reward, PercentDenominator.
  replace ((SupplyCap c - supply) * amount * duration * _) with num by (unfold num; ring).
  set (r := num / _). assert (0 ≤ r) as Hr. { apply Z.div_pos; [unfold num; repeat apply Z.mul_nonneg_nonneg; nia|repeat apply Z.mul_pos_pos; lia]. }
  case_bool_decide as Hu; simpl.
  - destruct (Z.gtb_spec r (SupplyCap c - supply)); f_equal; lia.
  - f_equal. unfold is_u64, MaxUint64 in Hu. lia.
Qed.

Lemma exact_reward_mono c d1 d2 a1 a2 supply :
  config_ok c → 0 < supply ≤ SupplyCap c → 0 ≤ d1 ≤ d2 → 0 ≤ a1 ≤ a2 →
  exact_reward c d1 a1 supply ≤ exact_reward c d2 a2 supply.
Proof.
  intros [Hmin Hmax Hp _] Hs Hd Ha. unfold exact_reward, PercentDenominator. apply Z.div_le_mono; [repeat apply Z.mul_pos_pos; lia|].
  repeat apply Z.mul_le_mono_nonneg; try (repeat apply Z.mul_nonneg_nonneg; nia); nia.
Qed.

Lemma exact_reward_rate c duration amount supply :
  config_ok c → 0 < supply ≤ SupplyCap c → 0 ≤ duration ≤ MintingPeriod c → 0 ≤ amount ≤ supply →
  exact_reward c duration amount supply ≤ (SupplyCap c - supply) * MaxConsumptionRate c / PercentDenominator.
Proof.
  intros [Hmin Hmax Hp _] Hs Hd Ha. unfold exact_reward, PercentDenominator.
  replace (MintingPeriod c * 1000000 * supply * MintingPeriod c) with (1000000 * (supply * (MintingPeriod c * MintingPeriod c))) by ring.
  rewrite <- (Z.div_mul_cancel_r ((SupplyCap c - supply) * MaxConsumptionRate c) 1000000 (supply * (MintingPeriod c * MintingPeriod c))) by nia.
  apply Z.div_le_mono; [nia|].
  set (P := MintingPeriod c) in *. set (R := SupplyCap c - supply). set (M := MaxConsumptionRate c) in *. set (m := MinConsumptionRate c) in *.
  assert (0 ≤ R) by (unfold R; lia).
  assert (0 ≤ (M - m) * duration + m * P ≤ M * P) as Hrate by nia.
  assert (0 ≤ amount * duration ≤ supply * P) as Had by nia.
  replace (R * amount * duration * ((M - m) * duration + m * P)) with (R * ((amount * duration) * ((M - m) * duration + m * P))) by ring.
  replace (R * M * (supply * (P * P))) with (R * ((supply * P) * (M * P))) by ring.
  apply Z.mul_le_mono_nonneg_l; [done|]. apply Z.mul_le_mono_nonneg; lia.
Qed.

(** C36. The reward of a stake is the documented formula, rounded down once and capped by the
    remaining supply, although the code divides three times: so the supply never grows past
    its cap, a longer or a larger stake never earns less, and a stake of at most the supply
    over at most the minting period earns at most the maximal rate. *)
Theorem reward_exact c duration amount supply :
  config_ok c → 0 ≤ duration < 2 ^ 63 → is_u64 amount → 0 < supply ≤ SupplyCap c →
  ∃ reward, Calculate (NewCalculator c) duration amount supply = Some reward
    ∧ reward = Z.min (SupplyCap c - supply) (exact_reward c duration amount supply)
    ∧ 0 ≤ reward ∧ supply + reward ≤ SupplyCap c
    ∧ (∀ duration' amount', duration ≤ duration' < 2 ^ 63 → amount ≤ amount' ≤ MaxUint64 →
        ∃ reward', Calculate (NewCalculator c) duration' amount' supply = Some reward' ∧ reward ≤ reward')
    ∧ (duration ≤ MintingPeriod c → amount ≤ supply →
        reward ≤ (SupplyCap c - supply) * MaxConsumptionRate c / PercentDenominator).
Proof.
  intros Hc Hd Ha Hs. eexists. split; [by apply Calculate_exact|]. split; [done|]. destruct Ha as [Ha0 Ha1].
  assert (0 ≤ exact_reward c duration amount supply) as H0.
  { etrans; [|apply (exact_reward_mono c 0 duration 0 amount supply Hc Hs); lia]. unfold exact_reward. by rewrite !Z.mul_0_r, !Z.mul_0_l. }
  split_and!; try lia.
  - intros d' a' Hd' Ha'. eexists. split; [apply Calculate_exact; [done|lia|unfold is_u64; lia|done]|].
    pose proof (exact_reward_mono c duration d' amount a' supply Hc Hs ltac:(lia) ltac:(lia)). lia.
  - intros Hp Hle. pose proof (exact_reward_rate c duration amount supply Hc Hs ltac:(lia) ltac:(lia)). lia.
Qed.

(** The configuration of the mainnet, with a stake of 2,000 AVAX for a year. *)
Definition mainnet : Config := mkConfig 120000 100000 31536000000000000 720000000000000000.

Lemma mainnet_ok : config_ok mainnet.
Proof. by split. Qed.

Lemma reward_exact_witness :
  ∃ reward, Calculate (NewCalculator mainnet) 31536000000000000 2000000000000 360000000000000000 = Some reward
    ∧ 360000000000000000 + reward ≤ 720000000000000000.
Proof.
  destruct (reward_exact mainnet 31536000000000000 2000000000000 360000000000000000 mainnet_ok) as (r & E & _ & _ & H & _);
    [by split..|]. exists r. split; [exact E|exact H].
Defined.

(** ** The split *)

(** A split never loses or creates an amount, and the remainder is the exact share rounded
    down, unless the product overflows 64 bits, when it can fall short of it by less than the
    share's numerator. *)
Theorem split_exact totalAmount shares :
  is_u64 totalAmount → 0 ≤ shares ≤ PercentDenominator →
  let '(amountFromShares, remainderAmount) := Split totalAmount shares in
  let exact := (PercentDenominator - shares) * totalAmount / PercentDenominator in
  amountFromShares + remainderAmount = totalAmount ∧ is_u64 amountFromShares ∧ is_u64 remainderAmount
  ∧ remainderAmount ≤ exact
  ∧ ((PercentDenominator - shares) * totalAmount ≤ MaxUint64 → remainderAmount = exact)
  ∧ (shares < PercentDenominator → exact - (PercentDenominator - shares) < remainderAmount).
Proof.
  intros [Ht0 Ht1] Hs. unfold Split, PercentDenominator in *. set (R := 1000000 - shares).
  assert (0 ≤ R ≤ 1000000) as HR by (unfold R; lia). rewrite (u64_id R) by (unfold is_u64, MaxUint64; lia).
  rewrite Mul64_exact by (unfold is_u64, MaxUint64 in *; lia).
  pose proof (Z.div_mod totalAmount 1000000 ltac:(lia)) as Hdm. pose proof (Z.mod_pos_bound totalAmount 1000000 ltac:(lia)) as Hmod.
  set (q := totalAmount / 1000000) in *. set (r := totalAmount mod 1000000) in *.
  assert (0 ≤ q) as Hq by (apply Z.div_pos; lia).
  assert (R * totalAmount / 1000000 = R * q + R * r / 1000000) as Eexact.
  { rewrite Hdm. replace (R * (1000000 * q + r)) with (R * r + (R * q) * 1000000) by ring. rewrite Z.div_add by lia. lia. }
  assert (0 ≤ R * r / 1000000) as Hlow by (apply Z.div_pos; nia).
  assert (R * r / 1000000 ≤ r) as Hr by (apply Z.div_le_upper_bound; nia).
  assert (0 < R → R * r / 1000000 < R) as Hup by (intros; apply Z.div_lt_upper_bound; nia).
  assert (R * q + r ≤ totalAmount) as Hle by nia. rewrite Eexact.
  assert (0 ≤ R * q) by nia. rewrite (u64_id (R * q)) by (unfold is_u64, MaxUint64 in *; lia).
  destruct (Z.leb_spec (R * totalAmount) MaxUint64) as [Hm|Hm]; simpl.
  - rewrite Eexact, u64_id by (unfold is_u64, MaxUint64 in *; lia). unfold is_u64, MaxUint64 in *. repeat split; lia.
  - rewrite u64_id by (unfold is_u64, MaxUint64 in *; lia). unfold is_u64, MaxUint64 in *. repeat split; lia.
Qed.

Lemma split_exact_witness : Split 1000001 20000 = (20001, 980000) ∧ (Split 1000001 20000).1 + (Split 1000001 20000).2 = 1000001.
Proof. split; [reflexivity|]. destruct (split_exact 1000001 20000) as (H & _); [by split..|]. exact H. Defined.
