(* ===== verification/Bimap.v ===== *)
(** * Bidirectional maps

    Models [utils/bimap/bimap.go]: two maps that are kept inverse to each other.  The JSON
    text is a parameter of its parser, which is not under test: [UnmarshalJSON] starts from
    the parsed map. *)

From S2P Require Import Prelude.

Section inverse.
Context {K V : Type} `{Countable K, Countable V}.

Lemma values_NoDup (m : gmap K V) :
  NoDup (map_to_list m).*2 ↔ ∀ k k' v, m !! k = Some v → m !! k' = Some v → k = k'.
Proof.
  split.
  - intros Hnd k k' v Hk Hk'. apply elem_of_map_to_list in Hk, Hk'.
    apply list_elem_of_lookup in Hk as [i Hi], Hk' as [j Hj].
    assert (i = j) as ->. { eapply (NoDup_lookup _ _ _ v Hnd); rewrite list_lookup_fmap; [rewrite Hi|rewrite Hj]; done. }
    congruence.
  - intros Hinj. apply NoDup_fmap_2_strong; [|apply NoDup_map_to_list].
    intros [k v] [k' v'] Hk Hk' Heq. simpl in Heq. subst v'. apply elem_of_map_to_list in Hk, Hk'. f_equal. eauto.
Qed.

Lemma inverse_lookup (l : list (K * V)) (m : gmap V K) v k :
  NoDup l.*2 → foldl (λ m '(k, v), <[v := k]> m) m l !! v = Some k ↔ (k, v) ∈ l ∨ (v ∉ l.*2 ∧ m !! v = Some k).
Proof.
  revert m. induction l as [|[k' v'] l IH]; intros m Hnd; simpl.
  { rewrite elem_of_nil. split; [intros; right; split; [apply not_elem_of_nil|done]|by intros [[]|[_ ?]]]. }
  simpl in Hnd. rewrite NoDup_cons in Hnd. destruct Hnd as [Hv Hnd]. rewrite IH, lookup_insert_Some, !elem_of_cons by done.
  assert ((k, v) ∈ l → v ∈ l.*2) as Hl. { intros Hin. apply list_elem_of_fmap. by exists (k, v). }
  split.
  - intros [?|[Hnl [[<- <-]|[Hne Hm]]]]; [by left; right|by left; left|]. right. split; [|done]. intros [?|?]; [congruence|done].
  - intros [[[= -> ->]|?]|[Hnl Hm]]; [right; split; [done|by left]|by left|]. right. split; [tauto|]. right. split; [|done]. intros ->. tauto.
Qed.

Lemma inverse_size (l : list (K * V)) (m : gmap V K) :
  NoDup l.*2 → (∀ v, v ∈ l.*2 → m !! v = None) →
  base.size (foldl (λ m '(k, v), <[v := k]> m) m l) = (length l + base.size m)%nat.
Proof.
  revert m. induction l as [|[k v] l IH]; intros m Hnd Hm; [done|]. simpl in *. rewrite NoDup_cons in Hnd. destruct Hnd as [Hv Hnd].
  rewrite IH; [|done|].
  - rewrite map_size_insert_None by (apply Hm; set_solver). lia.
  - intros w Hw. rewrite lookup_insert_ne by (intros ->; done). apply Hm. set_solver.
Qed.

Lemma inverse_size_le (l : list (K * V)) (m : gmap V K) :
  (base.size (foldl (λ m '(k, v), <[v := k]> m) m l) ≤ length l + base.size m)%nat
  ∧ (¬ NoDup l.*2 → (base.size (foldl (λ m '(k, v), <[v := k]> m) m l) < length l + base.size m)%nat)
  ∧ ((∃ v, v ∈ l.*2 ∧ is_Some (m !! v)) → (base.size (foldl (λ m '(k, v), <[v := k]> m) m l) < length l + base.size m)%nat).
Proof.
  revert m. induction l as [|[k v] l IH]; intros m; [simpl; split_and!; [lia|intros []; constructor|intros (? & ?%elem_of_nil & _); done]|].
  simpl. destruct (IH (<[v := k]> m)) as (I1 & I2 & I3). destruct (m !! v) as [k'|] eqn:E.
  - rewrite map_size_insert_Some in * by done. split_and!; intros; lia.
  - rewrite map_size_insert_None in * by done. split_and!; [lia| |].
    + intros Hnd. destruct (decide (NoDup l.*2)) as [Hl|Hl]; [|specialize (I2 Hl); lia].
      destruct (decide (v ∈ l.*2)) as [Hv|Hv]; [|destruct Hnd; by constructor].
      enough (base.size (foldl (λ m '(k, v), <[v := k]> m) (<[v := k]> m) l) < length l + Datatypes.S (base.size m))%nat by lia.
      apply I3. exists v. split; [done|]. rewrite lookup_insert_eq. eauto.
    + intros (w & Hw & Hs). assert (w ≠ v) by (intros ->; rewrite E in Hs; by destruct Hs).
      enough (base.size (foldl (λ m '(k, v), <[v := k]> m) (<[v := k]> m) l) < length l + Datatypes.S (base.size m))%nat by lia.
      apply I3. exists w. rewrite elem_of_cons in Hw. split; [naive_solver|]. by rewrite lookup_insert_ne.
Qed.
End inverse.

Section bimap.
Context {K V : Type} `{Countable K, Countable V}.
(** The order of iteration over a Go map. *)
Context (range : gmap K V → list (K * V)).

Record BiMap := mkBiMap { keyToValue : gmap K V; valueToKey : gmap V K }.

Definition bimap_New : BiMap := mkBiMap ∅ ∅.

Definition DeleteKey (m : BiMap) (key : K) : BiMap * option V :=
  match keyToValue m !! key with
  | None => (m, None)
  | Some val => (mkBiMap (delete key (keyToValue m)) (delete val (valueToKey m)), Some val)
  end.

Definition DeleteValue (m : BiMap) (val : V) : BiMap * option K :=
  match valueToKey m !! val with
  | None => (m, None)
  | Some key => (mkBiMap (delete key (keyToValue m)) (delete val (valueToKey m)), Some key)
  end.

Definition bimap_Put (m : BiMap) (key : K) (val : V) : BiMap * list (K * V) :=
  let '(m, oldVal) := DeleteKey m key in
  let removed := match oldVal with Some oldVal => [(key, oldVal)] | None => [] end in
  let '(m, oldKey) := DeleteValue m val in
  let removed := match oldKey with Some oldKey => removed ++ [(oldKey, val)] | None => removed end in
  (mkBiMap (<[key := val]> (keyToValue m)) (<[val := key]> (valueToKey m)), removed).

Definition GetKey (m : BiMap) (val : V) : option K := valueToKey m !! val.
Definition GetValue (m : BiMap) (key : K) : option V := keyToValue m !! key.
Definition HasKey (m : BiMap) (key : K) : bool := bool_decide (is_Some (keyToValue m !! key)).
Definition HasValue (m : BiMap) (val : V) : bool := bool_decide (is_Some (valueToKey m !! val)).
Definition bimap_Keys (m : BiMap) : list K := (range (keyToValue m)).*1.
Definition bimap_Values (m : BiMap) : list V := (range (keyToValue m)).*2.
Definition bimap_Len (m : BiMap) : nat := base.size (keyToValue m).

(** After the text was parsed; [None] is [errNotBijective]. *)
Definition UnmarshalJSON (keyToValue : gmap K V) : option BiMap :=
  let valueToKey := foldl (λ m '(k, v), <[v := k]> m) ∅ (range keyToValue) in
  if negb (base.size keyToValue =? base.size valueToKey)%nat then None else Some (mkBiMap keyToValue valueToKey).

(** ** The maps are inverse *)

Definition bimap_ok (m : BiMap) : Prop := ∀ k v, keyToValue m !! k = Some v ↔ valueToKey m !! v = Some k.

(** The pairs of a bimap. *)
Definition pairs (m : BiMap) (k : K) (v : V) : Prop := keyToValue m !! k = Some v.

Lemma bimap_New_ok : bimap_ok bimap_New.
Proof. intros k v. unfold bimap_New. simpl. by rewrite !lookup_empty. Qed.

Lemma delete_pair_spec m k v :
  bimap_ok m → pairs m k v →
  let m' := mkBiMap (delete k (keyToValue m)) (delete v (valueToKey m)) in
  bimap_ok m' ∧ ∀ k' v', pairs m' k' v' ↔ pairs m k' v' ∧ k' ≠ k ∧ v' ≠ v.
Proof.
  intros Hok Hkv. unfold pairs in *. simpl. split.
  - intros k' v'. simpl. rewrite !lookup_delete_Some, <- (Hok k' v'). pose proof (proj1 (Hok k v) Hkv) as Hvk. split.
    + intros [Hne Hl]. split; [|done]. intros ->. apply Hok in Hl. congruence.
    + intros [Hne Hl]. split; [|done]. intros ->. congruence.
  - intros k' v'. rewrite lookup_delete_Some. split; [|naive_solver].
    intros [Hne Hl]. split_and!; [done|congruence|]. intros ->. apply Hok in Hl, Hkv. congruence.
Qed.

Lemma DeleteKey_spec m k :
  bimap_ok m →
  let '(m', r) := DeleteKey m k in
  bimap_ok m' ∧ r = keyToValue m !! k ∧ ∀ k' v', pairs m' k' v' ↔ pairs m k' v' ∧ k' ≠ k.
Proof.
  intros Hok. unfold DeleteKey. destruct (keyToValue m !! k) as [v|] eqn:E.
  - destruct (delete_pair_spec m k v Hok E) as [Hok' Hp]. split_and!; try done. intros k' v'. rewrite Hp. split; [naive_solver|].
    intros [Hl Hne]. split_and!; try done. intros ->. unfold pairs in Hl. apply Hok in Hl, E. congruence.
  - split_and!; try done. unfold pairs. intros k' v'. split; [|naive_solver]. intros Hl. split; [done|]. congruence.
Qed.

Lemma DeleteValue_spec m v :
  bimap_ok m →
  let '(m', r) := DeleteValue m v in
  bimap_ok m' ∧ r = valueToKey m !! v ∧ ∀ k' v', pairs m' k' v' ↔ pairs m k' v' ∧ v' ≠ v.
Proof.
  intros Hok. unfold DeleteValue. destruct (valueToKey m !! v) as [k|] eqn:E.
  - apply Hok in E. destruct (delete_pair_spec m k v Hok E) as [Hok' Hp]. split_and!; try done.
    intros k' v'. rewrite Hp. unfold pairs. split; [naive_solver|]. intros [Hl Hne]. split_and!; try done. congruence.
  - split_and!; try done. unfold pairs. intros k' v'. split; [|naive_solver]. intros Hl. split; [done|].
    intros ->. apply Hok in Hl. congruence.
Qed.

(** A bimap is a one-to-one relation: [Put] relates its key and its value, drops exactly
    the pairs that shared one of them and returns those, and [DeleteKey] and [DeleteValue]
    drop exactly the pair that they return. *)
Theorem bimap_one_to_one m key val :
  bimap_ok m →
  (let '(m', removed) := bimap_Put m key val in
   bimap_ok m' ∧ (∀ k v, pairs m' k v ↔ (k = key ∧ v = val) ∨ (pairs m k v ∧ k ≠ key ∧ v ≠ val))
   ∧ NoDup removed ∧ ∀ k v, (k, v) ∈ removed ↔ pairs m k v ∧ (k = key ∨ v = val))
  ∧ (let '(m', r) := DeleteKey m key in
     bimap_ok m' ∧ r = GetValue m key ∧ ∀ k v, pairs m' k v ↔ pairs m k v ∧ k ≠ key)
  ∧ (let '(m', r) := DeleteValue m val in
     bimap_ok m' ∧ r = GetKey m val ∧ ∀ k v, pairs m' k v ↔ pairs m k v ∧ v ≠ val).
Proof.
  intros Hok. split; [|split; [by apply DeleteKey_spec|by apply DeleteValue_spec]].
  unfold bimap_Put. pose proof (DeleteKey_spec m key Hok) as H1. destruct (DeleteKey m key) as [m1 r1]. destruct H1 as (Hok1 & -> & H1).
  pose proof (DeleteValue_spec m1 val Hok1) as H2. destruct (DeleteValue m1 val) as [m2 r2]. destruct H2 as (Hok2 & -> & H2).
  set (m' := mkBiMap _ _).
  assert (∀ k v, pairs m' k v ↔ (k = key ∧ v = val) ∨ (pairs m k v ∧ k ≠ key ∧ v ≠ val)) as Hp.
  { intros k v. unfold pairs at 1, m'. simpl. rewrite lookup_insert_Some. fold (pairs m2 k v). rewrite H2, H1. naive_solver. }
  split_and!; [|done| |].
  - intros k v. fold (pairs m' k v). rewrite Hp. unfold m'. simpl. rewrite lookup_insert_Some, <- (Hok2 k v).
    fold (pairs m2 k v). rewrite H2, H1. naive_solver.
  - destruct (keyToValue m !! key) as [ov|] eqn:E1, (valueToKey m1 !! val) as [ok|] eqn:E2; simpl;
      [|apply NoDup_singleton|apply NoDup_singleton|apply NoDup_nil_2].
    apply Hok1, H1 in E2 as [_ Hne]. apply NoDup_cons. split; [|apply NoDup_singleton]. rewrite list_elem_of_singleton. congruence.
  - intros k v. assert (∀ k', valueToKey m1 !! val = Some k' ↔ pairs m k' val ∧ k' ≠ key) as E2.
    { intros k'. by rewrite <- (Hok1 k' val), <- H1. }
    assert (∀ ov ok, (k, v) ∈ (let removed := match ov with Some o => [(key, o)] | None => [] end in
        match ok with Some o => removed ++ [(o, val)] | None => removed end)
      ↔ (k = key ∧ ov = Some v) ∨ (v = val ∧ ok = Some k)) as ->.
    { intros [o|] [o'|]; simpl; rewrite ?elem_of_cons, ?elem_of_nil; intuition congruence. }
    rewrite E2. unfold pairs in *. destruct (decide (k = key)); intuition congruence.
Qed.

(** A range over a map visits each of its entries once. *)
Context (Hrange : ∀ m, range m ≡ₚ map_to_list m).

(** The text of a bimap is accepted exactly when no two of its keys have one value, and then
    the bimap has the pairs of the text. *)
Lemma UnmarshalJSON_spec kv :
  (UnmarshalJSON kv = None ↔ ¬ ∀ k k' v, kv !! k = Some v → kv !! k' = Some v → k = k')
  ∧ ∀ m, UnmarshalJSON kv = Some m → bimap_ok m ∧ keyToValue m = kv.
Proof using Hrange.
  set (inv := foldl (λ m '(k, v), <[v := k]> m) ∅ (range kv) : gmap V K).
  assert (NoDup (range kv).*2 ↔ ∀ k k' v, kv !! k = Some v → kv !! k' = Some v → k = k') as Hnd.
  { rewrite Hrange. apply values_NoDup. }
  assert (UnmarshalJSON kv = None ↔ ¬ NoDup (range kv).*2) as E.
  { unfold UnmarshalJSON. fold inv. assert (length (range kv) = base.size kv) as El by (rewrite Hrange; apply length_map_to_list).
    destruct (Nat.eqb_spec (base.size kv) (base.size inv)) as [Es|Es]; simpl; split; try done.
    - intros Hn. destruct (inverse_size_le (range kv) ∅) as (_ & Hlt & _). specialize (Hlt Hn). fold inv in Hlt. rewrite map_size_empty in Hlt. lia.
    - intros _ Hn. apply Es. unfold inv. rewrite inverse_size by (done || intros; apply lookup_empty). rewrite map_size_empty. lia. }
  split; [by rewrite E, Hnd|]. intros m Hm. unfold UnmarshalJSON in Hm. fold inv in Hm. case_match; [done|]. injection Hm as <-.
  assert (NoDup (range kv).*2) as Hn. { apply dec_stable. rewrite <- E. unfold UnmarshalJSON. fold inv. rewrite H1. done. }
  split; [|done]. intros k v. simpl. unfold inv. rewrite inverse_lookup by done. rewrite Hrange, elem_of_map_to_list, lookup_empty. naive_solver.
Qed.
End bimap.

Definition ex_bimap : BiMap (K := Z) (V := Z) := (bimap_Put bimap_New 1%Z 10%Z).1.

Lemma bimap_one_to_one_witness :
  (bimap_Put ex_bimap 2%Z 10%Z).2 = [(1%Z, 10%Z)] ∧ bimap_ok (bimap_Put ex_bimap 2%Z 10%Z).1.
Proof.
  split; [reflexivity|].
  destruct (bimap_one_to_one bimap_New 1%Z 10%Z bimap_New_ok) as ((H1 & _) & _).
  destruct (bimap_one_to_one ex_bimap 2%Z 10%Z H1) as ((H2 & _) & _). exact H2.
Defined.
