(* ===== verification/Codec.v ===== *)
(** * The codec

    Models [codec/reflectcodec]: the serialization of Go values by reflection on their types
    ([type_codec.go]) and the choice of the serialized fields of a struct
    ([struct_fielder.go]), on the [Packer].

    A Go type is a value of [ty]; struct types carry a name, so that two of them with the same
    fields can differ.  A Go value is a value of [val]: nil slices and maps are the empty ones,
    and a map is listed in the order of its encoded keys, while the order in which Go ranges
    over it is a parameter.  Types that refer to themselves do so through interfaces, whose
    concrete types are registered; how these are identified is the class [TypeCodec].  A type
    that the codec does not support has its [reflect.Kind].  An entry of a map whose key cannot
    be hashed makes Go panic.  The cache of the struct fields is not modelled. *)

From S2P Require Import Prelude Database Packer.

Open Scope Z_scope.

(** ** Types and values *)

Inductive width := W8 | W16 | W32 | W64.

Definition wbytes (w : width) : nat := match w with W8 => 1 | W16 => 2 | W32 => 4 | W64 => 8 end.
Definition wbits (w : width) : Z := 8 * Z.of_nat (wbytes w).

(** The tags of a field whose value is [TagValue], and whether it is exported. *)
Record FieldInfo := mkField { fi_tags : list bytes; fi_exported : bool }.

Inductive ty :=
  | TNum (signed : bool) (w : width)
  | TBool
  | TString
  | TPtr (t : ty)
  | TIface (i : nat)
  | TSlice (t : ty)
  | TArray (n : nat) (t : ty)
  | TStruct (name : nat) (fs : list (FieldInfo * ty))
  | TMap (tk tv : ty)
  | TOther (kind : nat).

Inductive val :=
  | VNum (z : Z)
  | VBool (b : bool)
  | VStr (s : bytes)
  | VNil
  | VPtr (v : val)
  | VIface (t : ty) (v : val)
  | VSeq (vs : list val)
  | VStruct (vs : list val)
  | VMap (kvs : list (val * val)).

(** Induction over the lists in types and values. *)
Section ty_ind'.
Context (P : ty → Prop).
Context (HNum : ∀ s w, P (TNum s w)) (HBool : P TBool) (HString : P TString) (HPtr : ∀ t, P t → P (TPtr t)).
Context (HIface : ∀ i, P (TIface i)) (HSlice : ∀ t, P t → P (TSlice t)) (HArray : ∀ n t, P t → P (TArray n t)).
Context (HStruct : ∀ name fs, Forall (λ f, P f.2) fs → P (TStruct name fs)).
Context (HMap : ∀ k v, P k → P v → P (TMap k v)) (HOther : ∀ k, P (TOther k)).

Fixpoint ty_ind' (t : ty) : P t :=
  match t with
  | TNum s w => HNum s w
  | TBool => HBool
  | TString => HString
  | TPtr t => HPtr t (ty_ind' t)
  | TIface i => HIface i
  | TSlice t => HSlice t (ty_ind' t)
  | TArray n t => HArray n t (ty_ind' t)
  | TStruct name fs =>
      HStruct name fs ((fix go fs : Forall (λ f, P f.2) fs :=
        match fs with
        | [] => List.Forall_nil _
        | f :: fs => @List.Forall_cons _ _ f fs (ty_ind' f.2) (go fs)
        end) fs)
  | TMap k v => HMap k v (ty_ind' k) (ty_ind' v)
  | TOther k => HOther k
  end.
End ty_ind'.

Section val_ind'.
Context (P : val → Prop).
Context (HNum : ∀ z, P (VNum z)) (HBool : ∀ b, P (VBool b)) (HStr : ∀ s, P (VStr s)) (HNil : P VNil).
Context (HPtr : ∀ v, P v → P (VPtr v)) (HIface : ∀ t v, P v → P (VIface t v)).
Context (HSeq : ∀ vs, Forall P vs → P (VSeq vs)) (HStruct : ∀ vs, Forall P vs → P (VStruct vs)).
Context (HMap : ∀ kvs, Forall (λ kv, P kv.1 ∧ P kv.2) kvs → P (VMap kvs)).

Fixpoint val_ind' (v : val) : P v :=
  match v with
  | VNum z => HNum z
  | VBool b => HBool b
  | VStr s => HStr s
  | VNil => HNil
  | VPtr v => HPtr v (val_ind' v)
  | VIface t v => HIface t v (val_ind' v)
  | VSeq vs =>
      HSeq vs ((fix go vs : Forall P vs :=
        match vs with [] => List.Forall_nil _ | v :: vs => @List.Forall_cons _ _ v vs (val_ind' v) (go vs) end) vs)
  | VStruct vs =>
      HStruct vs ((fix go vs : Forall P vs :=
        match vs with [] => List.Forall_nil _ | v :: vs => @List.Forall_cons _ _ v vs (val_ind' v) (go vs) end) vs)
  | VMap kvs =>
      HMap kvs ((fix go kvs : Forall (λ kv, P kv.1 ∧ P kv.2) kvs :=
        match kvs with
        | [] => List.Forall_nil _
        | kv :: kvs => @List.Forall_cons _ _ kv kvs (conj (val_ind' kv.1) (val_ind' kv.2)) (go kvs)
        end) kvs)
  end.
End val_ind'.

(** Types are compared and used as keys of maps. *)
#[export] Instance width_eq_dec : EqDecision width.
Proof. solve_decision. Defined.
#[export] Instance FieldInfo_eq_dec : EqDecision FieldInfo.
Proof. solve_decision. Defined.

Definition leaf : Type := (bool * nat) + (nat + FieldInfo).

Definition width_code (w : width) : nat := match w with W8 => 0 | W16 => 1 | W32 => 2 | W64 => 3 end.
Definition width_decode (n : nat) : width := match n with 0%nat => W8 | 1%nat => W16 | 2%nat => W32 | _ => W64 end.

Fixpoint ty_code (t : ty) : gen_tree leaf :=
  match t with
  | TNum s w => GenLeaf (inl (s, width_code w))
  | TBool => GenNode 0 []
  | TString => GenNode 1 []
  | TPtr t => GenNode 2 [ty_code t]
  | TIface i => GenNode 3 [GenLeaf (inr (inl i))]
  | TSlice t => GenNode 4 [ty_code t]
  | TArray n t => GenNode 5 [GenLeaf (inr (inl n)); ty_code t]
  | TStruct name fs => GenNode 6 (GenLeaf (inr (inl name)) :: ((λ f, GenNode 9 [GenLeaf (inr (inr f.1)); ty_code f.2]) <$> fs))
  | TMap k v => GenNode 7 [ty_code k; ty_code v]
  | TOther k => GenNode 8 [GenLeaf (inr (inl k))]
  end.

Fixpoint ty_decode (t : gen_tree leaf) : ty :=
  match t with
  | GenLeaf (inl (s, w)) => TNum s (width_decode w)
  | GenNode 0 _ => TBool
  | GenNode 1 _ => TString
  | GenNode 2 [t] => TPtr (ty_decode t)
  | GenNode 3 [GenLeaf (inr (inl i))] => TIface i
  | GenNode 4 [t] => TSlice (ty_decode t)
  | GenNode 5 [GenLeaf (inr (inl n)); t] => TArray n (ty_decode t)
  | GenNode 6 (GenLeaf (inr (inl name)) :: fs) =>
      TStruct name ((λ f, match f with GenNode 9 [GenLeaf (inr (inr fi)); t] => (fi, ty_decode t) | _ => (mkField [] false, TBool) end) <$> fs)
  | GenNode 7 [k; v] => TMap (ty_decode k) (ty_decode v)
  | GenNode 8 [GenLeaf (inr (inl k))] => TOther k
  | _ => TBool
  end.

Lemma ty_decode_code t : ty_decode (ty_code t) = t.
Proof.
  induction t as [s w| | |t IH|i|t IH|n t IH|name fs IH|k v IHk IHv|k] using ty_ind'; simpl; rewrite ?IH, ?IHk, ?IHv; try done.
  - by destruct w.
  - f_equal. induction IH as [|[fi t] fs Ht _ IHfs]; [done|]. cbn. f_equal; [simpl in Ht; by rewrite Ht|exact IHfs].
Qed.

#[export] Instance FieldInfo_countable : Countable FieldInfo.
Proof. refine (inj_countable' (λ f, (fi_tags f, fi_exported f)) (λ '(a, b), mkField a b) _). by intros []. Defined.

#[export] Instance ty_eq_dec : EqDecision ty.
Proof.
  intros x y. destruct (decide (ty_code x = ty_code y)) as [E|E]; [left|right; by intros ->].
  by rewrite <- (ty_decode_code x), <- (ty_decode_code y), E.
Defined.

#[export] Instance ty_countable : Countable ty := inj_countable' ty_code ty_decode ty_decode_code.

(** ** Hashing, of the run time

    Slices, maps and functions cannot be compared, nor can arrays and structs of them.  A key
    of a map is hashed with the values that its interfaces hold, not with those behind its
    pointers, and hashing a value that cannot be compared panics. *)

Definition KindFunc : nat := 19.

Fixpoint comparable (t : ty) : bool :=
  match t with
  | TSlice _ | TMap _ _ => false
  | TOther kind => negb (kind =? KindFunc)%nat
  | TArray _ t => comparable t
  | TStruct _ fs => forallb (λ f, comparable f.2) fs
  | _ => true
  end.

Definition forallb_fields (f : val → ty → bool) : list val → list (FieldInfo * ty) → bool :=
  fix go vs fs :=
  match vs, fs with
  | v :: vs, (_, t) :: fs => f v t && go vs fs
  | _, _ => true
  end.

Fixpoint hashable (v : val) (t : ty) {struct v} : bool :=
  match t, v with
  | TIface _, VIface u v => comparable u && hashable v u
  | TArray _ t, VSeq vs => forallb (λ v, hashable v t) vs
  | TStruct _ fs, VStruct vs => forallb_fields hashable vs fs
  | _, _ => true
  end.

(** ** Errors *)

Inductive codec_error :=
  | ErrMarshalNil | ErrUnmarshalNil | ErrUnsupportedType | ErrMaxSliceLenExceeded | ErrDoesNotImplementInterface
  | ErrUnexportedField | ErrExtraSpace | ErrMarshalZeroLength | ErrUnmarshalZeroLength
  | ErrRecursiveInterfaceTypes | ErrUnregisteredType | ErrUnknownTypeID | ErrKeysNotSorted | ErrDuplicateType
  | ErrUnknownVersion | ErrDuplicatedVersion | ErrCantPackVersion | ErrCantUnpackVersion | ErrUnmarshalTooBig
  | ErrPacker (e : pack_error)
  | CPanic | CFuel.

(** A panic of the packer; [return p.Err]. *)
Definition lift {A} (o : option A) : result codec_error A := match o with Some a => Ok a | None => Err CPanic end.
Definition check (p : Packer) : result codec_error Packer := match Err_ p with Some e => Err (ErrPacker e) | None => Ok p end.

(** ** [TypeCodec] *)

Class TypeCodec := {
  PackPrefix : Packer → ty → result codec_error Packer;
  UnpackPrefix : Packer → nat → result codec_error (ty * Packer);
  PrefixSize : ty → Z
}.

Definition MaxInt32 : Z := 2 ^ 31 - 1.

Definition is_byte (t : ty) : bool := match t with TNum false W8 => true | _ => false end.

(** [value.Bytes()] *)
Definition bytes_of (vs : list val) : bytes := (λ v, match v with VNum z => z mod 256 | _ => 0 end) <$> vs.

(** [p.Bytes[a:b]] *)
Definition slice (bs : bytes) (a b : Z) : bytes := take (Z.to_nat (b - a)) (drop (Z.to_nat a) bs).

(** [slices.SortFunc] with a comparison; elements that compare equal do not occur. *)
Fixpoint sort_insert {A} (less : A → A → bool) (x : A) (l : list A) : list A :=
  match l with
  | [] => [x]
  | y :: l => if less x y then x :: y :: l else y :: sort_insert less x l
  end.
Definition SortFunc {A} (less : A → A → bool) (l : list A) : list A := foldr (sort_insert less) [] l.

Section reflectcodec.
(** How a slice grows, the tags of the codec, and the order of iteration over a map. *)
Context (extra_cap : Z → Z → nat) (tags : list bytes) (map_range : ∀ A : Type, list A → list A).
Context {TC : TypeCodec}.

Arguments map_range {A}.

(** [GetSerializedFields]: whether a field is captured, and the error of an unexported one. *)
Definition captured (fi : FieldInfo) : bool := existsb (λ tag, bool_decide (tag ∈ fi_tags fi)) tags.

Fixpoint GetSerializedFields (fs : list (FieldInfo * ty)) : result codec_error (list bool) :=
  match fs with
  | [] => Ok []
  | (fi, _) :: fs =>
      if captured fi && negb (fi_exported fi) then Err ErrUnexportedField
      else let? rest := GetSerializedFields fs in Ok (captured fi :: rest)
  end.

(** What is done with the captured fields of a struct, in order. *)
Definition serialized {A} (f : val → ty → A) (bad : A) : list val → list (FieldInfo * ty) → list A :=
  fix go vs fs :=
  match vs, fs with
  | [], [] => []
  | v :: vs, (fi, t) :: fs => if captured fi then f v t :: go vs fs else go vs fs
  | _, _ => [bad]
  end.

(** ** [size] *)

Definition num_size (w : width) : Z := Z.of_nat (wbytes w).

Definition size_t : Type := result codec_error (Z * bool).

(** The sizes of the elements after the first one. *)
Fixpoint size_rest (acc : Z) (rest : list (unit → size_t)) : result codec_error Z :=
  match rest with
  | [] => Ok acc
  | s :: rest => let? '(n, _) := s tt in size_rest (acc + n) rest
  end.

(** The fields of a struct. *)
Fixpoint size_fields (acc : Z) (const : bool) (fields : list (unit → size_t)) : size_t :=
  match fields with
  | [] => Ok (acc, const)
  | s :: fields => let? '(n, c) := s tt in size_fields (acc + n) (const && c) fields
  end.

Definition size_map (entries : list ((unit → size_t) * (unit → size_t))) : size_t :=
  match map_range entries with
  | [] => Ok (4, false)
  | (sk, sv) :: rest =>
      let? '(keySize, keyConst) := sk tt in
      let? '(valueSize, valueConst) := sv tt in
      let numElts := Z.of_nat (length (map_range entries)) in
      if (keySize =? 0) && (valueSize =? 0) then Err ErrMarshalZeroLength
      else if keyConst && valueConst then Ok (4 + numElts * (keySize + valueSize), false)
      else if keyConst then
        let? n := size_rest valueSize rest.*2 in Ok (4 + numElts * keySize + n, false)
      else if valueConst then
        let? n := size_rest keySize rest.*1 in Ok (4 + n + numElts * valueSize, false)
      else
        let? n := size_rest (4 + keySize + valueSize) (concat ((λ '(a, b), [a; b]) <$> rest)) in Ok (n, false)
  end.

Fixpoint size (v : val) (t : ty) (stack : list ty) {struct v} : size_t :=
  match t, v with
  | TNum _ w, VNum _ => Ok (num_size w, true)
  | TBool, VBool _ => Ok (1, true)
  | TString, VStr s => Ok (2 + Z.of_nat (length s), false)
  | TPtr _, VNil => Err ErrMarshalNil
  | TPtr t, VPtr v => size v t stack
  | TIface _, VNil => Err ErrMarshalNil
  | TIface _, VIface u v =>
      if bool_decide (u ∈ stack) then Err ErrRecursiveInterfaceTypes
      else
        let prefixSize := PrefixSize u in
        let? '(valueSize, _) := size v u (u :: stack) in Ok (prefixSize + valueSize, false)
  | TSlice t, VSeq vs =>
      match vs with
      | [] => Ok (4, false)
      | v :: rest =>
          let? '(n, const) := size v t stack in
          if n =? 0 then Err ErrMarshalZeroLength
          else if const then Ok (4 + Z.of_nat (length vs) * n, false)
          else
            let? n := size_rest n ((λ v _, size v t stack) <$> rest) in
            Ok (4 + n, false)
      end
  | TArray _ t, VSeq vs =>
      match vs with
      | [] => Ok (0, true)
      | v :: rest =>
          let? '(n, const) := size v t stack in
          if const then Ok (Z.of_nat (length vs) * n, true)
          else
            let? n := size_rest n ((λ v _, size v t stack) <$> rest) in
            Ok (n, false)
      end
  | TStruct _ fs, VStruct vs =>
      let? _ := GetSerializedFields fs in
      size_fields 0 true (serialized (λ v t _, size v t stack) (λ _, Err CPanic) vs fs)
  | TMap tk tv, VMap kvs =>
      size_map ((λ kv, ((λ _, size kv.1 tk stack), (λ _, size kv.2 tv stack))) <$> kvs)
  | TOther _, _ => Err ErrUnsupportedType
  | _, _ => Err CPanic
  end.

(** ** [marshal] *)

(** [uint8(v)] and the like, then the write. *)
Definition pack_num (w : width) (p : Packer) (z : Z) : option Packer :=
  let z := z mod 2 ^ wbits w in
  match w with
  | W8 => PackByte extra_cap p z
  | W16 => PackShort extra_cap p z
  | W32 => PackInt extra_cap p z
  | W64 => PackLong extra_cap p z
  end.

Definition writer : Type := Packer → result codec_error Packer.

(** The elements of a slice: each must write something. *)
Fixpoint marshal_elems (ws : list writer) (p : Packer) : result codec_error Packer :=
  match ws with
  | [] => Ok p
  | w :: ws =>
      let startOffset := Offset p in
      let? p := w p in
      if startOffset =? Offset p then Err ErrMarshalZeroLength else marshal_elems ws p
  end.

(** The elements of an array and the fields of a struct. *)
Fixpoint marshal_all (ws : list writer) (p : Packer) : result codec_error Packer :=
  match ws with
  | [] => Ok p
  | w :: ws => let? p := w p in marshal_all ws p
  end.

(** A map: the keys are written once to learn their encodings, sorted by these, and written
    again with their values. *)
Record keyTuple := mkKey { kt_value : writer; startIndex : Z; endIndex : Z }.

Fixpoint marshal_keys (entries : list (writer * writer)) (p : Packer) : result codec_error (list keyTuple * Packer) :=
  match entries with
  | [] => Ok ([], p)
  | (k, v) :: entries =>
      let endOffset := Offset p in
      let? p := k p in
      let? p := check p in
      let key := mkKey v endOffset (Offset p) in
      let? '(keys, p) := marshal_keys entries p in
      Ok (key :: keys, p)
  end.

Fixpoint marshal_sorted (allKeyBytes : bytes) (startOffset : Z) (keys : list keyTuple) (p : Packer)
    : result codec_error Packer :=
  match keys with
  | [] => Ok p
  | key :: keys =>
      let keyStartOffset := Offset p in
      let keyBytes := slice allKeyBytes (startIndex key - startOffset) (endIndex key - startOffset) in
      let? p := lift (PackFixedBytes extra_cap p keyBytes) in
      let? p := check p in
      let? p := kt_value key p in
      if keyStartOffset =? Offset p then Err ErrMarshalZeroLength
      else marshal_sorted allKeyBytes startOffset keys p
  end.

Definition set_Offset (p : Packer) (offset : Z) : Packer := mkPacker (Err_ p) (MaxSize p) (array p) (len p) offset.

Definition marshal_map (entries : list (writer * writer)) (p : Packer) : result codec_error Packer :=
  let keys := map_range entries in
  let numElts := Z.of_nat (length keys) in
  if numElts >? MaxInt32 then Err ErrMaxSliceLenExceeded
  else
    let? p := lift (PackInt extra_cap p (u32 numElts)) in
    let? p := check p in
    let startOffset := Offset p in
    let? '(sortedKeys, p) := marshal_keys keys p in
    let key_bytes key := slice (contents p) (startIndex key) (endIndex key) in
    let sortedKeys := SortFunc (λ a b, bytes_lt (key_bytes a) (key_bytes b)) sortedKeys in
    let allKeyBytes := slice (contents p) startOffset (Offset p) in
    marshal_sorted allKeyBytes startOffset sortedKeys (set_Offset p startOffset).

Fixpoint marshal (v : val) (t : ty) (stack : list ty) (p : Packer) {struct v} : result codec_error Packer :=
  match t, v with
  | TNum _ w, VNum z => let? p := lift (pack_num w p z) in check p
  | TString, VStr s => let? p := lift (PackStr extra_cap p s) in check p
  | TBool, VBool b => let? p := lift (PackBool extra_cap p b) in check p
  | TPtr _, VNil => Err ErrMarshalNil
  | TPtr t, VPtr v => marshal v t stack p
  | TIface _, VNil => Err ErrMarshalNil
  | TIface _, VIface u v =>
      if bool_decide (u ∈ stack) then Err ErrRecursiveInterfaceTypes
      else
        let? p := PackPrefix p u in
        let? p := marshal v u (u :: stack) p in
        check p
  | TSlice t, VSeq vs =>
      let numElts := Z.of_nat (length vs) in
      if numElts >? MaxInt32 then Err ErrMaxSliceLenExceeded
      else
        let? p := lift (PackInt extra_cap p (u32 numElts)) in
        let? p := check p in
        if numElts =? 0 then Ok p
        else if is_byte t then let? p := lift (PackFixedBytes extra_cap p (bytes_of vs)) in check p
        else marshal_elems ((λ v, marshal v t stack) <$> vs) p
  | TArray _ t, VSeq vs =>
      marshal_all ((λ v, marshal v t stack) <$> vs) p
  | TStruct _ fs, VStruct vs =>
      let? _ := GetSerializedFields fs in
      marshal_all (serialized (λ v t, marshal v t stack) (λ _, Err CPanic) vs fs) p
  | TMap tk tv, VMap kvs =>
      marshal_map ((λ kv, (marshal kv.1 tk stack, marshal kv.2 tv stack)) <$> kvs) p
  | TOther _, _ => Err ErrUnsupportedType
  | _, _ => Err CPanic
  end.

(** ** [unmarshal] *)

Fixpoint zero (t : ty) : val :=
  match t with
  | TNum _ _ => VNum 0
  | TBool => VBool false
  | TString => VStr []
  | TPtr _ | TIface _ | TOther _ => VNil
  | TSlice _ => VSeq []
  | TArray n t => VSeq (replicate n (zero t))
  | TStruct _ fs => VStruct ((λ f, zero f.2) <$> fs)
  | TMap _ _ => VMap []
  end.

Definition unpack_num (w : width) (p : Packer) : option (Z * Packer) :=
  match w with W8 => UnpackByte p | W16 => UnpackShort p | W32 => UnpackInt p | W64 => UnpackLong p end.

(** [SetInt] and [SetUint] keep the low bits. *)
Definition of_bits (signed : bool) (w : width) (z : Z) : Z :=
  if signed && (2 ^ (wbits w - 1) <=? z) then z - 2 ^ wbits w else z.

Definition reader_t : Type := Packer → result codec_error (val * Packer).

(** [numElts] elements appended to a slice. *)
Fixpoint unmarshal_elems (read : reader_t) (numElts : nat) (p : Packer) : result codec_error (list val * Packer) :=
  match numElts with
  | O => Ok ([], p)
  | S n =>
      let startOffset := Offset p in
      let? '(v, p) := read p in
      if startOffset =? Offset p then Err ErrUnmarshalZeroLength
      else let? '(vs, p) := unmarshal_elems read n p in Ok (v :: vs, p)
  end.

(** The elements of an array, into those it holds. *)
Fixpoint unmarshal_into (read : val → reader_t) (dests : list val) (p : Packer) : result codec_error (list val * Packer) :=
  match dests with
  | [] => Ok ([], p)
  | d :: dests =>
      let? '(v, p) := read d p in
      let? '(vs, p) := unmarshal_into read dests p in
      Ok (v :: vs, p)
  end.

(** The captured fields of a struct, into those it holds. *)
Definition unmarshal_fields (read : ty → val → reader_t)
    : list (FieldInfo * ty) → list val → Packer → result codec_error (list val * Packer) :=
  fix loop fs dests p :=
  match fs, dests with
  | [], [] => Ok ([], p)
  | (fi, t) :: fs, d :: dests =>
      if captured fi then
        let? '(v, p) := read t d p in
        let? '(vs, p) := loop fs dests p in
        Ok (v :: vs, p)
      else
        let? '(vs, p) := loop fs dests p in
        Ok (d :: vs, p)
  | _, _ => Err CPanic
  end.

(** The entries of a map; [prevKey] is [None] for the first one.  [value.SetMapIndex] panics
    unless [canHash] its key. *)
Fixpoint unmarshal_entries (canHash : val → bool) (readKey readValue : reader_t) (numElts : nat) (prevKey : option bytes) (p : Packer)
    : result codec_error (list (val * val) * Packer) :=
  match numElts with
  | O => Ok ([], p)
  | S n =>
      let keyStartOffset := Offset p in
      let? '(k, p) := readKey p in
      let keyBytes := slice (contents p) keyStartOffset (Offset p) in
      if match prevKey with Some prev => negb (bytes_lt prev keyBytes) | None => false end then Err ErrKeysNotSorted
      else
        let? '(v, p) := readValue p in
        if keyStartOffset =? Offset p then Err ErrUnmarshalZeroLength
        else if negb (canHash k) then Err CPanic
        else
          let? '(kvs, p) := unmarshal_entries canHash readKey readValue n (Some keyBytes) p in
          Ok ((k, v) :: kvs, p)
  end.

(** The fuel bounds the nesting of interfaces. *)
Fixpoint unmarshal (fuel : nat) : ty → list ty → val → Packer → result codec_error (val * Packer) :=
  fix go (t : ty) (stack : list ty) (dest : val) (p : Packer) {struct t} : result codec_error (val * Packer) :=
  match t with
  | TNum s w => let? '(z, p) := lift (unpack_num w p) in let? p := check p in Ok (VNum (of_bits s w z), p)
  | TBool => let? '(b, p) := lift (UnpackBool p) in let? p := check p in Ok (VBool b, p)
  | TString => let? '(s, p) := lift (UnpackStr p) in let? p := check p in Ok (VStr s, p)
  | TSlice t =>
      let? '(numElts, p) := lift (UnpackInt p) in
      let? p := check p in
      if numElts >? MaxInt32 then Err ErrMaxSliceLenExceeded
      else if is_byte t then
        let? '(bs, p) := lift (UnpackFixedBytes p numElts) in
        let? p := check p in
        Ok (VSeq (VNum <$> bs), p)
      else
        let? '(vs, p) := unmarshal_elems (go t stack (zero t)) (Z.to_nat numElts) p in
        Ok (VSeq vs, p)
  | TArray n t =>
      match dest with
      | VSeq dests =>
          if is_byte t then
            let? '(bs, p) := lift (UnpackFixedBytes p (Z.of_nat n)) in
            let? p := check p in
            Ok (VSeq (VNum <$> bs), p)
          else
            let? '(vs, p) := unmarshal_into (go t stack) dests p in
            Ok (VSeq vs, p)
      | _ => Err CPanic
      end
  | TIface i =>
      match fuel with
      | O => Err CFuel
      | S fuel =>
          let? '(u, p) := UnpackPrefix p i in
          if bool_decide (u ∈ stack) then Err ErrRecursiveInterfaceTypes
          else
            let? '(v, p) := unmarshal fuel u (u :: stack) (zero u) p in
            Ok (VIface u v, p)
      end
  | TStruct _ fs =>
      match dest with
      | VStruct dests =>
          let? _ := GetSerializedFields fs in
          let? '(vs, p) := unmarshal_fields (λ t d, go t stack d) fs dests p in
          Ok (VStruct vs, p)
      | _ => Err CPanic
      end
  | TPtr t => let? '(v, p) := go t stack (zero t) p in Ok (VPtr v, p)
  | TMap tk tv =>
      let? '(numElts, p) := lift (UnpackInt p) in
      let? p := check p in
      if numElts >? MaxInt32 then Err ErrMaxSliceLenExceeded
      else
        let? '(kvs, p) :=
          unmarshal_entries (λ k, hashable k tk) (go tk stack (zero tk)) (go tv stack (zero tv)) (Z.to_nat numElts) None p in
        Ok (VMap kvs, p)
  | TOther _ => Err ErrUnsupportedType
  end.

(** ** The entry points; a value is a pointer to what is marshalled *)

Definition codec_Size (v : val) (t : ty) : result codec_error Z := let? '(n, _) := size v t [] in Ok n.

Definition MarshalInto (v : val) (t : ty) (p : Packer) : result codec_error Packer := marshal v t [] p.

Definition codec_Unmarshal (fuel : nat) (bs : bytes) (t : ty) (dest : val) : result codec_error val :=
  let p := reader bs in
  let? '(v, p) := unmarshal fuel t [] dest p in
  if negb (Offset p =? Z.of_nat (length bs)) then Err ErrExtraSpace else Ok v.
End reflectcodec.
