(* ===== verification/CodecWrite.v ===== *)
(** * What the codec writes

    A reference encoder, a function on values, the typing of values, and the proof that
    [marshal] of [Codec] appends exactly the reference encoding, or fails when there is none or
    it does not fit.  The laws of a [TypeCodec] that this and the decoder rely on are a class. *)

From S2P Require Import Prelude Database Packer Codec.

Open Scope Z_scope.

(** ** Packers that are written to *)

Record good (p : Packer) : Prop := {
  good_ok : packer_ok p;
  good_err : Err_ p = None;
  good_len : Offset p ≤ len p ≤ MaxSize p
}.

(** The bytes before the offset. *)
Definition written (p : Packer) : bytes := take (Z.to_nat (Offset p)) (array p).

Record appended (p : Packer) (e : bytes) (p' : Packer) : Prop := {
  app_good : good p';
  app_max : MaxSize p' = MaxSize p;
  app_written : written p' = written p ++ e;
  app_offset : Offset p' = Offset p + Z.of_nat (length e);
  app_len : len p' = Z.max (len p) (Offset p')
}.

Definition fails {A} (r : result codec_error A) : Prop := ∃ err, r = Err err.

(** The outcome of writing an optional encoding at [p]. *)
Definition writes (p : Packer) (o : option bytes) (r : result codec_error Packer) : Prop :=
  match o with
  | None => fails r
  | Some e => if decide (Offset p + Z.of_nat (length e) ≤ MaxSize p) then ∃ p', r = Ok p' ∧ appended p e p' else fails r
  end.

Lemma length_written p : good p → Z.of_nat (length (written p)) = Offset p.
Proof. intros [[Ho [Hl Hc]] _ Hle]. unfold written, cap in *. rewrite length_take. lia. Qed.

Lemma appended_nil p : good p → appended p [] p.
Proof. intros Hg. split; try done; [by rewrite app_nil_r|simpl; lia|]. destruct Hg as [_ _ ?]. lia. Qed.

Lemma appended_trans p e q e' r : appended p e q → appended q e' r → appended p (e ++ e') r.
Proof.
  intros [G1 M1 W1 O1 L1] [G2 M2 W2 O2 L2]. split; [done|congruence| |rewrite length_app; lia|].
  - by rewrite W2, W1, app_assoc.
  - rewrite L2, L1. lia.
Qed.

Lemma fails_bind {A B} (r : result codec_error A) (k : A → result codec_error B) : fails r → fails (result_bind r k).
Proof. intros [err ->]. by exists err. Qed.

Lemma writes_bind p e o r k :
  writes p (Some e) r → (∀ p', appended p e p' → writes p' o (k p')) →
  writes p (e' ← o; Some (e ++ e')) (result_bind r k).
Proof.
  intros Hr Hk. unfold writes in Hr. case_decide as Hf.
  - destruct Hr as (p' & -> & Ha). simpl. specialize (Hk p' Ha). destruct o as [e'|]; simpl in *; [|done].
    rewrite (app_max _ _ _ Ha), (app_offset _ _ _ Ha) in Hk. rewrite length_app, Nat2Z.inj_add, Z.add_assoc. case_decide; [|done].
    destruct Hk as (p'' & -> & Ha'). eauto using appended_trans.
  - destruct o as [e'|]; simpl; [|by apply fails_bind]. rewrite decide_False by (rewrite length_app; lia). by apply fails_bind.
Qed.

(** The same for a first write that may fail. *)
Lemma writes_bind_opt p o1 o2 r k :
  writes p o1 r → (∀ e p', o1 = Some e → appended p e p' → writes p' o2 (k p')) →
  writes p (e ← o1; e' ← o2; Some (e ++ e')) (result_bind r k).
Proof. intros Hr Hk. destruct o1 as [e|]; simpl; [|by apply fails_bind]. apply writes_bind; eauto. Qed.

Lemma writes_Ok p : good p → writes p (Some []) (Ok p).
Proof. intros Hg. simpl. rewrite decide_True by (destruct Hg as [_ _ ?]; simpl; lia). eauto using appended_nil. Qed.

Section raw.
Context (extra_cap : Z → Z → nat).

Lemma pack_raw_writes p bs : good p → writes p (Some bs) (let? p := lift (pack_raw extra_cap p bs) in check p).
Proof.
  intros [Hok He [Hol Hlm]]. destruct (expand_spec extra_cap p (Z.of_nat (length bs)) Hok ltac:(lia)) as (Hok' & EM & EO & Hl & Et & Hc).
  unfold pack_raw. set (p' := expand extra_cap p (Z.of_nat (length bs))) in *. simpl. case_decide as Hf.
  - rewrite (proj2 (Z.leb_le (Z.of_nat (length bs) + Offset p) (MaxSize p))), orb_true_r in Hc by lia. destruct Hc as [Hc EL].
    rewrite (proj2 (Errored_false _)) by congruence. destruct Hok as [Ho [? ?]], Hok' as [Ho' [? Hc']]. rewrite EO in *. rewrite EL.
    rewrite (proj2 (Z.ltb_ge _ _)) by lia. rewrite (proj2 (Z.ltb_ge _ _)) by lia. simpl. unfold check. simpl. rewrite Hc, He.
    eexists. split; [done|]. unfold cap in *.
    assert (length (store_at (array p') (Offset p) bs) = length (array p')) as Els by (apply length_store_at; lia).
    split; simpl; [|done| |done|lia].
    + split; simpl; [split; unfold cap; simpl; lia|done|lia].
    + unfold written. simpl. rewrite take_store_at by lia. f_equal.
      replace (Z.to_nat (Offset p)) with (Z.to_nat (Offset p) `min` Z.to_nat (len p))%nat by lia.
      rewrite <- !take_take, Et. done.
  - rewrite (proj2 (Z.leb_gt (Z.of_nat (length bs) + Offset p) (len p))), (proj2 (Z.leb_gt (Z.of_nat (length bs) + Offset p) (MaxSize p))) in Hc by lia.
    simpl in Hc. rewrite (proj2 (Errored_true _)) by eauto. simpl. unfold check. rewrite Hc. by eexists.
Qed.
End raw.

(** ** The laws of a [TypeCodec] *)

(** [p] is a reader that has the bytes [e] next. *)
Definition next_bytes (p : Packer) (e : bytes) : Prop :=
  0 ≤ len p ≤ cap p ∧ Err_ p = None ∧ 0 ≤ Offset p ≤ len p ∧ ∃ post, drop (Z.to_nat (Offset p)) (contents p) = e ++ post.

(** A reader of received bytes without an error. *)
Definition reading (p : Packer) : Prop :=
  0 ≤ len p ≤ cap p ∧ Err_ p = None ∧ 0 ≤ Offset p ≤ len p ∧ bytes_ok (contents p).

(** The outcome of reading something with the encoding [e] at [p]. *)
Definition read_bytes (p : Packer) (e : bytes) (p' : Packer) : Prop := next_bytes p e ∧ p' = advance p (Z.of_nat (length e)).

Class TypeCodecLaws (extra_cap : Z → Z → nat) (implements : ty → nat → bool) (TC : TypeCodec) := {
  prefix_of : ty → option bytes;
  registered : list ty;
  prefix_registered : ∀ t pre, prefix_of t = Some pre → t ∈ registered;
  PackPrefix_writes : ∀ p t, good p → writes p (prefix_of t) (PackPrefix p t);
  PrefixSize_exact : ∀ t pre, prefix_of t = Some pre → PrefixSize t = Z.of_nat (length pre);
  UnpackPrefix_at : ∀ p t i pre, prefix_of t = Some pre → implements t i = true → next_bytes p pre →
    UnpackPrefix p i = Ok (t, advance p (Z.of_nat (length pre)));
  UnpackPrefix_sound : ∀ p i, reading p →
    match UnpackPrefix p i with
    | Ok (t, p') => implements t i = true ∧ ∃ pre, prefix_of t = Some pre ∧ read_bytes p pre p'
    | Err err => err ≠ CPanic ∧ err ≠ CFuel
    end
}.

Fixpoint all_some {A} (l : list (option A)) : option (list A) :=
  match l with
  | [] => Some []
  | o :: l => x ← o; xs ← all_some l; Some (x :: xs)
  end.

Lemma all_some_cons {A} (o : option A) l : all_some (o :: l) = (x ← o; xs ← all_some l; Some (x :: xs)).
Proof. done. Qed.

Lemma all_some_Some {A} (l : list (option A)) xs : all_some l = Some xs ↔ l = Some <$> xs.
Proof.
  revert xs. induction l as [|o l IH]; intros xs; simpl.
  { split; [by intros [= <-]|]. by destruct xs. }
  destruct o as [x|]; simpl; [|split; [done|by destruct xs]]. destruct (all_some l) as [ys|]; simpl.
  - split; [intros [= <-]; simpl; f_equal; by apply IH|]. destruct xs as [|x' xs]; [done|]. simpl. intros [= -> E]. by apply IH in E as [= <-].
  - split; [done|]. destruct xs as [|x' xs]; [done|]. simpl. intros [= -> E]. by apply IH in E.
Qed.

Definition conj_all (l : list Prop) : Prop := foldr and True l.

Lemma conj_all_Forall {A} (P : A → Prop) l : conj_all (P <$> l) ↔ Forall P l.
Proof. induction l as [|x l IH]; simpl; [done|]. by rewrite Forall_cons, <- IH. Qed.

(** A check on every field of a struct. *)
Definition all_fields (f : val → ty → Prop) : list val → list (FieldInfo * ty) → Prop :=
  fix go vs fs :=
  match vs, fs with
  | [], [] => True
  | v :: vs, (_, t) :: fs => f v t ∧ go vs fs
  | _, _ => False
  end.

Definition num_range (signed : bool) (w : width) (z : Z) : Prop :=
  if signed then - 2 ^ (wbits w - 1) ≤ z < 2 ^ (wbits w - 1) else 0 ≤ z < 2 ^ wbits w.

(** Keys that have an encoding are listed in the order of these. *)
Definition sorted_keys (l : list (option bytes)) : Prop :=
  ∀ i j a b, (i < j)%nat → l !! i = Some (Some a) → l !! j = Some (Some b) → bytes_lt a b = true.

Definition is_nil {A} (l : list A) : bool := match l with [] => true | _ => false end.

Section encoding.
Context {extra_cap : Z → Z → nat} {implements : ty → nat → bool} {TC : TypeCodec} {TL : TypeCodecLaws extra_cap implements TC}.
Context (tags : list bytes).

Definition be_len {A} (l : list A) : bytes := be_bytes 4 (Z.of_nat (length l)).

Fixpoint encoding (v : val) (t : ty) (stack : list ty) {struct v} : option bytes :=
  match t, v with
  | TNum _ w, VNum z => Some (be_bytes (wbytes w) (z mod 2 ^ wbits w))
  | TBool, VBool b => Some [if b then 1 else 0]
  | TString, VStr s => if Z.of_nat (length s) <=? MaxStringLen then Some (be_bytes 2 (Z.of_nat (length s)) ++ s) else None
  | TPtr t, VPtr v => encoding v t stack
  | TIface _, VIface u v =>
      if bool_decide (u ∈ stack) then None
      else pre ← prefix_of u; e ← encoding v u (u :: stack); Some (pre ++ e)
  | TSlice t, VSeq vs =>
      if MaxInt32 <? Z.of_nat (length vs) then None
      else
        es ← all_some ((λ v, encoding v t stack) <$> vs);
        if existsb is_nil es then None else Some (be_len vs ++ concat es)
  | TArray _ t, VSeq vs => es ← all_some ((λ v, encoding v t stack) <$> vs); Some (concat es)
  | TStruct _ fs, VStruct vs =>
      match GetSerializedFields tags fs with
      | Ok _ => es ← all_some (serialized tags (λ v t, encoding v t stack) None vs fs); Some (concat es)
      | Err _ => None
      end
  | TMap tk tv, VMap kvs =>
      if MaxInt32 <? Z.of_nat (length kvs) then None
      else
        es ← all_some ((λ kv, ek ← encoding kv.1 tk stack; ev ← encoding kv.2 tv stack; Some (ek, ev)) <$> kvs);
        if existsb (λ e, is_nil (e.1 ++ e.2)) es then None else Some (be_len kvs ++ concat ((λ e, e.1 ++ e.2) <$> es))
  | _, _ => None
  end.

(** The values of a type.  The keys of a map can be hashed, or Go could not have put them in. *)
Fixpoint typed (v : val) (t : ty) {struct v} : Prop :=
  match t, v with
  | TNum s w, VNum z => num_range s w z
  | TBool, VBool _ => True
  | TString, VStr s => bytes_ok s
  | TPtr _, VNil => True
  | TPtr t, VPtr v => typed v t
  | TIface _, VNil => True
  | TIface i, VIface u v => implements u i = true ∧ typed v u
  | TSlice t, VSeq vs => conj_all ((λ v, typed v t) <$> vs)
  | TArray n t, VSeq vs => length vs = n ∧ conj_all ((λ v, typed v t) <$> vs)
  | TStruct _ fs, VStruct vs => all_fields typed vs fs
  | TMap tk tv, VMap kvs =>
      conj_all ((λ kv, typed kv.1 tk ∧ typed kv.2 tv) <$> kvs) ∧ sorted_keys ((λ kv, encoding kv.1 tk []) <$> kvs)
      ∧ Forall (λ kv, hashable kv.1 tk = true) kvs
  | TOther _, VNil => True
  | _, _ => False
  end.

(** Unfolding the recursive definitions on the values with parts. *)
Lemma typed_slice t vs : typed (VSeq vs) (TSlice t) ↔ Forall (λ v, typed v t) vs.
Proof. apply (conj_all_Forall (λ v, typed v t)). Qed.

Lemma typed_array n t vs : typed (VSeq vs) (TArray n t) ↔ length vs = n ∧ Forall (λ v, typed v t) vs.
Proof. change (length vs = n ∧ conj_all ((λ v, typed v t) <$> vs) ↔ length vs = n ∧ Forall (λ v, typed v t) vs). by rewrite conj_all_Forall. Qed.

Lemma typed_struct name fs vs : typed (VStruct vs) (TStruct name fs) ↔ all_fields typed vs fs.
Proof. done. Qed.

Lemma typed_map tk tv kvs :
  typed (VMap kvs) (TMap tk tv)
  ↔ Forall (λ kv, typed kv.1 tk ∧ typed kv.2 tv) kvs ∧ sorted_keys ((λ kv, encoding kv.1 tk []) <$> kvs)
    ∧ Forall (λ kv, hashable kv.1 tk = true) kvs.
Proof.
  change (typed (VMap kvs) (TMap tk tv)) with
    (conj_all ((λ kv, typed kv.1 tk ∧ typed kv.2 tv) <$> kvs) ∧ sorted_keys ((λ kv, encoding kv.1 tk []) <$> kvs)
     ∧ Forall (λ kv, hashable kv.1 tk = true) kvs).
  by rewrite (conj_all_Forall (λ kv, typed kv.1 tk ∧ typed kv.2 tv)).
Qed.

Lemma encoding_iface i u v stack :
  encoding (VIface u v) (TIface i) stack
  = if bool_decide (u ∈ stack) then None else pre ← prefix_of u; e ← encoding v u (u :: stack); Some (pre ++ e).
Proof. done. Qed.

Definition elems_encoding (es : option (list bytes)) : option bytes := es ← es; if existsb is_nil es then None else Some (concat es).

Lemma encoding_slice t vs stack :
  encoding (VSeq vs) (TSlice t) stack
  = if MaxInt32 <? Z.of_nat (length vs) then None
    else e ← elems_encoding (all_some ((λ v, encoding v t stack) <$> vs)); Some (be_len vs ++ e).
Proof.
  change (encoding (VSeq vs) (TSlice t) stack) with (if MaxInt32 <? Z.of_nat (length vs) then None
    else es ← all_some ((λ v, encoding v t stack) <$> vs); if existsb is_nil es then None else Some (be_len vs ++ concat es)).
  case_match; [done|]. unfold elems_encoding. destruct (all_some _) as [es|]; simpl; [|done]. by case_match.
Qed.

Lemma encoding_array n t vs stack :
  encoding (VSeq vs) (TArray n t) stack = (es ← all_some ((λ v, encoding v t stack) <$> vs); Some (concat es)).
Proof. done. Qed.

Lemma encoding_struct name fs vs stack :
  encoding (VStruct vs) (TStruct name fs) stack
  = match GetSerializedFields tags fs with
    | Ok _ => es ← all_some (serialized tags (λ v t, encoding v t stack) None vs fs); Some (concat es)
    | Err _ => None
    end.
Proof. done. Qed.

(** The encoded entries of a map. *)
Definition pair_enc {E} (ok ov : E → option bytes) (kv : E) : option (bytes * bytes) := ek ← ok kv; ev ← ov kv; Some (ek, ev).

Definition map_encoding {E} (ok ov : E → option bytes) (kvs : list E) : option bytes :=
  es ← all_some (pair_enc ok ov <$> kvs);
  if existsb (λ e, is_nil (e.1 ++ e.2)) es then None else Some (concat ((λ e, e.1 ++ e.2) <$> es)).

Lemma encoding_map tk tv kvs stack :
  encoding (VMap kvs) (TMap tk tv) stack
  = if MaxInt32 <? Z.of_nat (length kvs) then None
    else e ← map_encoding (λ kv, encoding kv.1 tk stack) (λ kv, encoding kv.2 tv stack) kvs; Some (be_len kvs ++ e).
Proof.
  change (encoding (VMap kvs) (TMap tk tv) stack) with (if MaxInt32 <? Z.of_nat (length kvs) then None
    else es ← all_some (pair_enc (λ kv, encoding kv.1 tk stack) (λ kv, encoding kv.2 tv stack) <$> kvs);
      if existsb (λ e, is_nil (e.1 ++ e.2)) es then None else Some (be_len kvs ++ concat ((λ e, e.1 ++ e.2) <$> es))).
  case_match; [done|]. unfold map_encoding. destruct (all_some _) as [es|]; simpl; [|done]. by case_match.
Qed.
End encoding.

#[global] Arguments be_len {_} _ : simpl never.

(** ** Writing sequences *)

(** [w] writes the optional encoding [o]. *)
Definition writes_all (w : writer) (o : option bytes) : Prop := ∀ p, good p → writes p o (w p).

Lemma writes_Some p e r :
  writes p (Some e) r ↔ (Offset p + Z.of_nat (length e) ≤ MaxSize p ∧ ∃ p', r = Ok p' ∧ appended p e p')
                        ∨ (MaxSize p < Offset p + Z.of_nat (length e) ∧ fails r).
Proof. unfold writes. case_decide; [|naive_solver lia]. split; [naive_solver|]. intros [?|[? _]]; [naive_solver|lia]. Qed.

Lemma fails_writes p o r : fails r → (∀ e, o = Some e → MaxSize p < Offset p + Z.of_nat (length e)) → writes p o r.
Proof. intros Hf Ho. destruct o as [e|]; [|done]. apply writes_Some. right. eauto. Qed.

Lemma marshal_all_writes ws os p :
  Forall2 writes_all ws os → good p → writes p (es ← all_some os; Some (concat es)) (marshal_all ws p).
Proof.
  intros Hw. revert p. induction Hw as [|w o ws os H _ IH]; intros p Hg; [by apply writes_Ok|]. cbn [marshal_all].
  assert ((es ← all_some (o :: os); Some (concat es)) = (e ← o; e' ← (es ← all_some os; Some (concat es)); Some (e ++ e'))) as ->.
  { destruct o; simpl; [|done]. by destruct (all_some os). }
  apply writes_bind_opt; [by apply H|]. intros e p' _ Ha. apply IH, Ha.
Qed.

Lemma marshal_elems_writes ws os p :
  Forall2 writes_all ws os → good p →
  writes p (es ← all_some os; if existsb is_nil es then None else Some (concat es)) (marshal_elems ws p).
Proof.
  intros Hw. revert p. induction Hw as [|w o ws os H _ IH]; intros p Hg; [by apply writes_Ok|]. cbn [marshal_elems all_some].
  specialize (H p Hg). destruct o as [e|]; cbn [mbind option_bind]; [|by apply fails_bind].
  apply writes_Some in H as [[Hf (p' & -> & Ha)]|[Hf Hw]].
  - cbn [result_bind]. pose proof (app_offset _ _ _ Ha) as Eo. specialize (IH p' (app_good _ _ _ Ha)). destruct e as [|b e].
    + simpl in Eo. rewrite (proj2 (Z.eqb_eq _ _)) by lia. destruct (all_some os); by eexists.
    + rewrite (proj2 (Z.eqb_neq _ _)) by (simpl in Eo; lia). destruct (all_some os) as [es|]; [|exact IH]. simpl in IH |- *.
      destruct (existsb is_nil es); [exact IH|]. apply writes_Some. apply writes_Some in IH. rewrite (app_max _ _ _ Ha), Eo in IH.
      rewrite app_comm_cons, length_app. destruct IH as [[Hf' (q & -> & Hq)]|[Hf' Hw]]; [left|right; split; [lia|done]].
      split; [lia|]. eauto using appended_trans.
  - apply fails_writes; [by apply fails_bind|]. intros e' E'. destruct (all_some os) as [es|]; [|done]. simpl in E'.
    case_match; [done|]. injection E' as <-. rewrite length_app. lia.
Qed.

Lemma serialized_writes tags f g bad (Q : val → ty → Prop) vs fs :
  (∀ v t, v ∈ vs → Q v t → writes_all (f v t) (g v t)) → all_fields Q vs fs →
  Forall2 writes_all (serialized tags f bad vs fs) (serialized tags g None vs fs).
Proof.
  intros H. revert fs. induction vs as [|v vs IH]; intros [|[fi t] fs] Hf; try (done || by constructor). destruct Hf as [Hv Hf].
  simpl. specialize (IH ltac:(intros; eapply H; eauto using list_elem_of_further) fs Hf).
  destruct (captured tags fi); [|done]. constructor; [|done]. apply H; [apply list_elem_of_here|done].
Qed.

Section raw2.
Context (extra_cap : Z → Z → nat).

Lemma pack_two_writes p a b :
  good p → writes p (Some (a ++ b)) (let? p := lift (p ← pack_raw extra_cap p a; pack_raw extra_cap p b) in check p).
Proof.
  intros Hg. pose proof (pack_raw_writes extra_cap p a Hg) as H1.
  destruct (pack_raw_grows extra_cap p a (good_ok _ Hg)) as (p1 & E & _). rewrite E in *. cbn [lift result_bind mbind option_bind] in *.
  apply writes_Some in H1 as [[Hf (p' & Hc & Ha)]|[Hf Hw]].
  - assert (p' = p1) as ->. { unfold check in Hc. destruct (Err_ p1); congruence. }
    pose proof (pack_raw_writes extra_cap p1 b (app_good _ _ _ Ha)) as H2. apply writes_Some. apply writes_Some in H2.
    rewrite (app_max _ _ _ Ha), (app_offset _ _ _ Ha) in H2. rewrite length_app.
    destruct H2 as [[Hf' (q & Eq & Hq)]|[Hf' Hw]]; [left|right; split; [lia|done]]. split; [lia|]. eauto using appended_trans.
  - apply writes_Some. right. split; [rewrite length_app; lia|]. destruct Hw as [err Hw]. unfold check in Hw.
    destruct (Err_ p1) as [e|] eqn:Ee; [|done].
    assert (∃ q e', pack_raw extra_cap p1 b = Some q ∧ Err_ q = Some e') as (q & e' & -> & Eq).
    { unfold pack_raw. assert (∃ e', Err_ (expand extra_cap p1 (Z.of_nat (length b))) = Some e') as [e' He'].
      { unfold expand. repeat case_match; simpl; eauto. }
      rewrite (proj2 (Errored_true _)) by eauto. eauto. }
    simpl. unfold check. rewrite Eq. by eexists.
Qed.
End raw2.

(** ** Sorting by keys *)

Section sort.
Context {A : Type} (key : A → bytes).
Notation less := (λ a b, bytes_lt (key a) (key b)).
Notation lt := (λ a b, bytes_lt (key a) (key b) = true).

Lemma sort_insert_perm x l : sort_insert less x l ≡ₚ x :: l.
Proof. induction l as [|y l IH]; simpl; [done|]. case_match; [done|]. rewrite IH. by constructor. Qed.

Lemma SortFunc_perm l : SortFunc less l ≡ₚ l.
Proof. induction l as [|x l IH]; simpl; [done|]. by rewrite sort_insert_perm, IH. Qed.

Lemma sort_insert_sorted x l : key x ∉ key <$> l → StronglySorted lt l → StronglySorted lt (sort_insert less x l).
Proof.
  intros Hx Hs. induction Hs as [|y l Hs IH Hy]; simpl; [by repeat constructor|].
  rewrite fmap_cons, elem_of_cons in Hx. destruct (bytes_lt (key x) (key y)) eqn:E.
  - constructor; [by constructor|]. constructor; [done|]. eapply Forall_impl; [exact Hy|]. intros z Hz. by eapply bytes_lt_trans.
  - constructor; [apply IH; tauto|]. rewrite sort_insert_perm. constructor; [|done].
    destruct (bytes_lt_total (key x) (key y)) as [?|[?|?]]; [congruence|tauto|done].
Qed.

Lemma SortFunc_sorted l : NoDup (key <$> l) → StronglySorted lt (SortFunc less l).
Proof.
  induction l as [|x l IH]; [constructor|]. rewrite fmap_cons, NoDup_cons. intros [Hx Hnd]. apply sort_insert_sorted; [|auto].
  by rewrite SortFunc_perm.
Qed.

Lemma strict_NoDup l : StronglySorted lt l → NoDup (key <$> l).
Proof.
  induction 1 as [|x l _ IH Hx]; [constructor|]. rewrite fmap_cons. constructor; [|done].
  intros (y & Ey & Hy)%list_elem_of_fmap. rewrite Forall_forall in Hx. specialize (Hx y Hy). simpl in Hx.
  by rewrite Ey, bytes_lt_irrefl in Hx.
Qed.

Lemma SortFunc_unique l l0 : l ≡ₚ l0 → StronglySorted lt l0 → SortFunc less l = l0.
Proof.
  intros Hp Hs. apply (StronglySorted_unique_strong lt).
  - intros a b _ _ H1 H2. pose proof (bytes_lt_trans _ _ _ H1 H2) as H. by rewrite bytes_lt_irrefl in H.
  - apply SortFunc_sorted. rewrite Hp. by apply strict_NoDup.
  - done.
  - by rewrite SortFunc_perm.
Qed.
End sort.

Lemma SortFunc_Forall2 {A B} (R : A → B → Prop) (less : A → A → bool) (less' : B → B → bool) l l' :
  (∀ a b a' b', R a a' → R b b' → less a b = less' a' b') → Forall2 R l l' → Forall2 R (SortFunc less l) (SortFunc less' l').
Proof.
  intros Hl. induction 1 as [|a a' l l' Ha _ IH]; [constructor|]. simpl. revert IH.
  generalize (SortFunc less l) (SortFunc less' l'). intros s s' IH. induction IH as [|b b' s s' Hb Hss IH]; simpl; [by repeat constructor|].
  rewrite (Hl a b a' b') by done. case_match; by repeat constructor.
Qed.

(** ** Writing maps *)

Fixpoint mk_keys (off : Z) (ws : list writer) (eks : list bytes) : list keyTuple :=
  match ws, eks with
  | w :: ws, ek :: eks => mkKey w off (off + Z.of_nat (length ek)) :: mk_keys (off + Z.of_nat (length ek)) ws eks
  | _, _ => []
  end.

Lemma check_good p : good p → check p = Ok p.
Proof. intros [_ He _]. unfold check. by rewrite He. Qed.

Lemma marshal_keys_spec ents oks p :
  Forall2 (λ e o, writes_all e.1 o) ents oks → good p →
  match all_some oks with
  | None => fails (marshal_keys ents p)
  | Some eks =>
      (Offset p + Z.of_nat (length (concat eks)) ≤ MaxSize p
       ∧ ∃ p', marshal_keys ents p = Ok (mk_keys (Offset p) ents.*2 eks, p') ∧ appended p (concat eks) p')
      ∨ (MaxSize p < Offset p + Z.of_nat (length (concat eks)) ∧ fails (marshal_keys ents p))
  end.
Proof.
  intros Hw. revert p. induction Hw as [|[k v] o ents oks H _ IH]; intros p Hg.
  { left. split; [destruct Hg as [_ _ ?]; simpl; lia|]. exists p. split; [done|]. by apply appended_nil. }
  cbn [marshal_keys all_some fst snd] in *. specialize (H p Hg). destruct o as [e|]; cbn [mbind option_bind]; [|by apply fails_bind].
  apply writes_Some in H as [[Hf (p' & -> & Ha)]|[Hf Hw]].
  - cbn [result_bind]. rewrite check_good by apply Ha. cbn [result_bind]. specialize (IH p' (app_good _ _ _ Ha)).
    pose proof (app_offset _ _ _ Ha) as Eo. destruct (all_some oks) as [eks|]; cbn [mbind option_bind]; [|by apply fails_bind].
    cbn [concat]. rewrite length_app. rewrite (app_max _ _ _ Ha), Eo in IH. destruct IH as [[Hf' (q & -> & Hq)]|[Hf' Hw]].
    + left. split; [lia|]. exists q. cbn [result_bind fmap list_fmap mk_keys]. rewrite Eo. split; [done|]. by eapply appended_trans.
    + right. split; [lia|]. by apply fails_bind.
  - destruct (all_some oks); cbn [mbind option_bind]; [right|by apply fails_bind]. split; [cbn [concat]; rewrite length_app; lia|].
    by apply fails_bind.
Qed.

Lemma mk_keys_slices base off ws eks bs pre post :
  bs = pre ++ concat eks ++ post → off - base = Z.of_nat (length pre) → length ws = length eks →
  Forall2 (λ key e, kt_value key = e.1 ∧ slice bs (startIndex key - base) (endIndex key - base) = e.2)
    (mk_keys off ws eks) (zip ws eks).
Proof.
  revert off ws pre. induction eks as [|e eks IH]; intros off [|w ws] pre Eb Eo El; try (done || by constructor). simpl. constructor.
  - simpl. split; [done|]. unfold slice. replace (off + Z.of_nat (length e) - base - (off - base)) with (Z.of_nat (length e)) by lia.
    rewrite Eo, !Nat2Z.id, Eb, drop_app_length. simpl. rewrite <- app_assoc. apply take_app_length.
  - apply (IH _ _ (pre ++ e)); [by rewrite Eb; simpl; rewrite <- !app_assoc|rewrite length_app; lia|simpl in El; lia].
Qed.

Lemma Forall2_both {A B} (P Q : A → B → Prop) l k : Forall2 P l k → Forall2 Q l k → Forall2 (λ x y, P x y ∧ Q x y) l k.
Proof. induction 1 as [|x y l k H _ IH]; intros Hq; [constructor|]. apply Forall2_cons_1 in Hq as [? ?]. constructor; auto. Qed.

(** A packer whose offset is moved back over the keys. *)
Lemma rewind p e p' : good p → appended p e p' → good (set_Offset p' (Offset p)) ∧ written (set_Offset p' (Offset p)) = written p.
Proof.
  intros Hg Ha. pose proof (length_written p Hg) as Hw. destruct Ha as [[Hok He Hl] EM EW EO EL]. destruct Hg as [[Ho _] _ _]. split.
  - split; [|done|]; unfold set_Offset; simpl; [|lia]. destruct Hok as [? ?]. split; done.
  - unfold written in *. simpl. rewrite <- (take_app_length (take (Z.to_nat (Offset p)) (array p)) e), <- EW.
    rewrite take_take. f_equal. lia.
Qed.

Section maps.
Context (extra_cap : Z → Z → nat).

Lemma marshal_sorted_writes all start keys (es : list (writer * bytes)) os p :
  Forall2 (λ key e, kt_value key = e.1 ∧ slice all (startIndex key - start) (endIndex key - start) = e.2) keys es →
  Forall2 (λ e o, writes_all e.1 o) es os → good p →
  writes p (evs ← all_some os; if existsb (λ e, is_nil (e.1 ++ e.2)) (zip es.*2 evs) then None
            else Some (concat ((λ e, e.1 ++ e.2) <$> zip es.*2 evs)))
    (marshal_sorted extra_cap all start keys p).
Proof.
  intros Hk. revert os p. induction Hk as [|key [w ek] keys es [Ew Ek] _ IH]; intros os p Ho Hg.
  { apply Forall2_nil_inv_l in Ho as ->. by apply writes_Ok. }
  apply Forall2_cons_inv_l in Ho as (o & os' & Hwo & Ho & ->). simpl in Ew, Ek, Hwo. cbn [marshal_sorted all_some]. rewrite Ek, Ew.
  pose proof (pack_raw_writes extra_cap p ek Hg) as H1. unfold PackFixedBytes.
  destruct (lift (pack_raw extra_cap p ek)) as [p0|] eqn:E0; cbn [result_bind] in *; [|].
  - apply writes_Some in H1 as [[Hf (p1 & -> & Ha1)]|[Hf Hw]]; cbn [result_bind].
    + specialize (Hwo p1 (app_good _ _ _ Ha1)). destruct o as [ev|]; cbn [mbind option_bind]; [|by apply fails_bind].
      pose proof (app_offset _ _ _ Ha1) as Eo1. apply writes_Some in Hwo. rewrite (app_max _ _ _ Ha1), Eo1 in Hwo.
      destruct Hwo as [[Hf2 (p2 & -> & Ha2)]|[Hf2 Hw]]; cbn [result_bind].
      * pose proof (appended_trans _ _ _ _ _ Ha1 Ha2) as Ha. pose proof (app_offset _ _ _ Ha) as Eo.
        specialize (IH os' p2 Ho (app_good _ _ _ Ha)). destruct (is_nil (ek ++ ev)) eqn:En.
        -- assert (length (ek ++ ev) = 0%nat) by (by destruct (ek ++ ev)). rewrite (proj2 (Z.eqb_eq _ _)) by lia.
           destruct (all_some os'); cbn; rewrite ?En; by eexists.
        -- assert (0 < Z.of_nat (length (ek ++ ev))) by (destruct (ek ++ ev); [done|simpl; lia]).
           rewrite (proj2 (Z.eqb_neq _ _)) by lia. destruct (all_some os') as [evs|]; [|exact IH]. cbn in IH |- *. rewrite En. simpl.
           destruct (existsb _ _); [exact IH|]. apply writes_Some. apply writes_Some in IH. rewrite (app_max _ _ _ Ha), Eo in IH.
           rewrite length_app. destruct IH as [[Hf' (q & -> & Hq)]|[Hf' Hw]]; [left|right; split; [lia|done]].
           split; [lia|]. eauto using appended_trans.
      * apply fails_writes; [by apply fails_bind|]. intros e' E'. destruct (all_some os') as [evs|]; [|done]. cbn in E'.
        case_match; [done|]. injection E' as <-. rewrite !length_app. lia.
    + apply fails_writes; [by apply fails_bind|]. intros e' E'. destruct o as [ev|], (all_some os') as [evs|]; try done. cbn in E'.
      case_match; [done|]. injection E' as <-. rewrite !length_app. lia.
  - exfalso. destruct (pack_raw_grows extra_cap p ek (good_ok _ Hg)) as (? & Eg & _). by rewrite Eg in E0.
Qed.

Context {E : Type} (wk wv : E → writer) (ok ov : E → option bytes) (kvs : list E).

Definition ek (kv : E) : bytes := default [] (ok kv).

Lemma all_some_None {A} (l : list (option A)) : all_some l = None ↔ None ∈ l.
Proof using.
  induction l as [|[x|] l IH]; simpl; [split; [done|by intros ?%elem_of_nil]| |].
  - rewrite elem_of_cons, <- IH. destruct (all_some l); simpl; [split; [done|by intros [?|?]]|split; [by right|done]].
  - split; [|done]. intros _. apply list_elem_of_here.
Qed.

Notation pairs := (pair_enc ok ov).

Lemma all_some_keys (l : list E) eks : all_some (ok <$> l) = Some eks → eks = ek <$> l ∧ ∀ kv, kv ∈ l → ok kv = Some (ek kv).
Proof using.
  revert eks. induction l as [|kv l IH]; intros eks; simpl; [intros [= <-]; split; [done|by intros ? ?%elem_of_nil]|].
  destruct (ok kv) as [e|] eqn:Ee; simpl; [|done]. change (list_fmap E (option bytes) ok l) with (ok <$> l).
  destruct (all_some (ok <$> l)) as [es|]; simpl; [|done]. intros [= <-]. destruct (IH es eq_refl) as [-> Hl]. split.
  - unfold ek at 2. by rewrite Ee.
  - intros x [->|Hx]%elem_of_cons; [unfold ek; by rewrite Ee|by apply Hl].
Qed.

Lemma all_some_pairs (l : list E) :
  (∀ kv, kv ∈ l → ok kv = Some (ek kv)) → all_some (pairs <$> l) = (evs ← all_some (ov <$> l); Some (zip (ek <$> l) evs)).
Proof using.
  induction l as [|kv l IH]; intros Hl; [done|]. rewrite !fmap_cons. cbn [all_some]. rewrite IH by (intros; apply Hl; by apply list_elem_of_further).
  unfold pair_enc at 1. rewrite (Hl kv) by apply list_elem_of_here. simpl. destruct (ov kv); simpl; [|done]. by destruct (all_some (ov <$> l)).
Qed.

Lemma length_concat_perm (l l' : list bytes) : l ≡ₚ l' → length (concat l) = length (concat l').
Proof using. induction 1; simpl; rewrite ?length_app in *; lia. Qed.

Lemma length_pairs (l : list bytes) evs :
  length evs = length l → (length (concat l) ≤ length (concat ((λ e, e.1 ++ e.2) <$> zip l evs)))%nat.
Proof using. revert evs. induction l as [|a l IH]; intros [|b evs] Hl; try done. cbn [concat zip zip_with fmap list_fmap fst snd]. rewrite !length_app. specialize (IH evs ltac:(simpl in Hl; lia)). fold (zip l evs). cbn [fmap] in IH. lia. Qed.

Lemma all_some_length {A} (l : list (option A)) xs : all_some l = Some xs → length xs = length l.
Proof using. intros ->%all_some_Some. by rewrite length_fmap. Qed.

Context (Hspec : Forall (λ kv, writes_all (wk kv) (ok kv) ∧ writes_all (wv kv) (ov kv)) kvs).
Context (Hsorted : sorted_keys (ok <$> kvs)).

Lemma sorted_entries : (∀ kv, kv ∈ kvs → ok kv = Some (ek kv)) → StronglySorted (λ a b : writer * bytes, bytes_lt a.2 b.2 = true) ((λ kv, (wv kv, ek kv)) <$> kvs).
Proof using Hsorted.
  clear Hspec. intros Hl. induction kvs as [|kv l IH]; [constructor|]. rewrite fmap_cons. constructor.
  - apply IH; [|intros; apply Hl; by apply list_elem_of_further]. intros i j a b Hij Hi Hj. by apply (Hsorted (Datatypes.S i) (Datatypes.S j)); [lia| |].
  - apply Forall_fmap, Forall_forall. intros kv' Hin. simpl. apply list_elem_of_lookup in Hin as [j Hj].
    apply (Hsorted 0%nat (Datatypes.S j)); [lia| |]; simpl.
    + f_equal. apply Hl, list_elem_of_here.
    + change (list_fmap E (option bytes) ok l) with (ok <$> l). rewrite list_lookup_fmap, Hj. simpl. f_equal.
      apply Hl, list_elem_of_further. by eapply list_elem_of_lookup_2.
Qed.

Lemma zip_entries (l : list E) : zip ((λ kv, (wk kv, wv kv)) <$> l).*2 (ek <$> l) = (λ kv, (wv kv, ek kv)) <$> l.
Proof using. induction l; [done|]. rewrite !fmap_cons. simpl. by f_equal. Qed.

Lemma contents_split q : good q → ∃ post, contents q = written q ++ post.
Proof using.
  intros [[Ho _] _ Hl]. exists (drop (Z.to_nat (Offset q)) (contents q)). rewrite <- (take_drop (Z.to_nat (Offset q)) (contents q)) at 1. f_equal.
  unfold contents, written. rewrite take_take. f_equal. lia.
Qed.

(** The sorted keys are those of the entries in order. *)
Lemma sorted_tuples kvs' p q :
  kvs ≡ₚ kvs' → good p → appended p (concat (ek <$> kvs')) q → (∀ kv, kv ∈ kvs → ok kv = Some (ek kv)) →
  Forall2 (λ key e, kt_value key = e.1
      ∧ slice (slice (contents q) (Offset p) (Offset q)) (startIndex key - Offset p) (endIndex key - Offset p) = e.2)
    (SortFunc (λ a b, bytes_lt (slice (contents q) (startIndex a) (endIndex a)) (slice (contents q) (startIndex b) (endIndex b)))
      (mk_keys (Offset p) ((λ kv, (wk kv, wv kv)) <$> kvs').*2 (ek <$> kvs')))
    ((λ kv, (wv kv, ek kv)) <$> kvs).
Proof using Hsorted.
  intros Hp Hg Ha Hall. destruct (contents_split q (app_good _ _ _ Ha)) as [post Ec]. rewrite (app_written _ _ _ Ha), <- app_assoc in Ec.
  pose proof (length_written p Hg) as Hlw.
  assert (slice (contents q) (Offset p) (Offset q) = concat (ek <$> kvs')) as Eall.
  { unfold slice. rewrite (app_offset _ _ _ Ha), Ec, <- Hlw, Z.add_simpl_l, !Nat2Z.id, drop_app_length. apply take_app_length. }
  rewrite Eall.
  assert (length ((λ kv, (wk kv, wv kv)) <$> kvs').*2 = length (ek <$> kvs')) as El by (by rewrite !length_fmap).
  pose proof (mk_keys_slices 0 (Offset p) _ _ (contents q) (written p) post Ec ltac:(lia) El) as H1.
  pose proof (mk_keys_slices (Offset p) (Offset p) _ _ (concat (ek <$> kvs')) [] [] ltac:(by rewrite app_nil_r) ltac:(simpl; lia) El) as H2.
  rewrite zip_entries in H1, H2.
  rewrite <- (SortFunc_unique (A := writer * bytes) snd ((λ kv, (wv kv, ek kv)) <$> kvs') ((λ kv, (wv kv, ek kv)) <$> kvs));
    [|by rewrite Hp|by apply sorted_entries].
  eapply Forall2_impl; [eapply (SortFunc_Forall2 (λ key e, (kt_value key = e.1 ∧ slice (contents q) (startIndex key) (endIndex key) = e.2)
    ∧ slice (concat (ek <$> kvs')) (startIndex key - Offset p) (endIndex key - Offset p) = e.2))|].
  - intros a b a' b' [[_ ->] _] [[_ ->] _]. done.
  - apply Forall2_both.
    + eapply Forall2_impl; [exact H1|]. intros key e [? Hs]. rewrite !Z.sub_0_r in Hs. done.
    + eapply Forall2_impl; [exact H2|]. by intros key e [_ ?].
  - by intros key e [[? _] ?].
Qed.

(** The part after the number of elements. *)
Lemma marshal_entries_writes kvs' p :
  kvs ≡ₚ kvs' → good p →
  writes p (map_encoding ok ov kvs)
    (let? '(sortedKeys, q) := marshal_keys ((λ kv, (wk kv, wv kv)) <$> kvs') p in
     let key_bytes key := slice (contents q) (startIndex key) (endIndex key) in
     let sortedKeys := SortFunc (λ a b, bytes_lt (key_bytes a) (key_bytes b)) sortedKeys in
     let allKeyBytes := slice (contents q) (Offset p) (Offset q) in
     marshal_sorted extra_cap allKeyBytes (Offset p) sortedKeys (set_Offset q (Offset p))).
Proof using Hspec Hsorted.
  intros Hp Hg.
  assert (Forall2 (λ e o, writes_all e.1 o) ((λ kv, (wk kv, wv kv)) <$> kvs') (ok <$> kvs')) as Hw.
  { apply Forall2_fmap, Forall_Forall2_diag. rewrite <- Hp. eapply Forall_impl; [exact Hspec|]. by intros kv [? _]. }
  pose proof (marshal_keys_spec _ _ p Hw Hg) as Hk. destruct (all_some (ok <$> kvs')) as [eks|] eqn:Eks.
  2: { apply fails_writes; [by apply fails_bind|]. intros e He. exfalso. unfold map_encoding in He.
       apply all_some_None in Eks. destruct (all_some (pairs <$> kvs)) as [es|] eqn:Ees; [|done].
       assert (None ∈ pairs <$> kvs) as Hn; [|apply all_some_None in Hn; congruence].
       apply list_elem_of_fmap in Eks as (kv & Ekv & Hin). apply list_elem_of_fmap. exists kv. rewrite Hp. split; [|done].
       unfold pair_enc. by rewrite <- Ekv. }
  apply all_some_keys in Eks as [-> Hall].
  assert (∀ kv, kv ∈ kvs → ok kv = Some (ek kv)) as Hall0 by (intros kv Hin; apply Hall; by rewrite <- Hp).
  assert (length (concat (ek <$> kvs)) = length (concat (ek <$> kvs'))) as Elen by (apply length_concat_perm; by rewrite Hp).
  unfold map_encoding. rewrite all_some_pairs by done.
  assert (∀ evs, all_some (ov <$> kvs) = Some evs → (length (concat (ek <$> kvs)) ≤ length (concat ((λ e, e.1 ++ e.2) <$> zip (ek <$> kvs) evs)))%nat) as Hmore.
  { intros evs Ev. apply length_pairs. apply all_some_length in Ev. rewrite length_fmap in Ev. by rewrite length_fmap. }
  destruct Hk as [[Hf (q & -> & Ha)]|[Hf Hk]]; cbn [result_bind].
  2: { apply fails_writes; [by apply fails_bind|]. intros e He. destruct (all_some (ov <$> kvs)) as [evs|]; [|done]. simpl in He.
       case_match; [done|]. injection He as <-. specialize (Hmore evs eq_refl). lia. }
  destruct (rewind p _ q Hg Ha) as [Hgr Hwr].
  pose proof (marshal_sorted_writes _ (Offset p) _ _ (ov <$> kvs) (set_Offset q (Offset p)) (sorted_tuples kvs' p q Hp Hg Ha Hall0)) as Hms.
  specialize (Hms ltac:(apply Forall2_fmap, Forall_Forall2_diag; eapply Forall_impl; [exact Hspec|]; by intros kv [_ ?]) Hgr).
  rewrite <- list_fmap_compose in Hms. change (snd ∘ _) with ek in Hms.
  destruct (all_some (ov <$> kvs)) as [evs|]; [|exact Hms]. cbn [mbind option_bind] in Hms |- *. specialize (Hmore evs eq_refl).
  destruct (existsb _ _); [exact Hms|]. apply writes_Some. apply writes_Some in Hms.
  assert (Offset (set_Offset q (Offset p)) = Offset p ∧ MaxSize (set_Offset q (Offset p)) = MaxSize p ∧ len (set_Offset q (Offset p)) = len q) as (Eo & Em & El).
  { unfold set_Offset. simpl. split_and!; [done|apply Ha|done]. }
  rewrite Eo, Em in Hms. destruct Hms as [[Hf' (r & -> & Hr)]|?]; [left|by right]. split; [done|]. exists r. split; [done|].
  destruct Hr as [R1 R2 R3 R4 R5]. rewrite Em in R2. rewrite Hwr in R3. rewrite Eo in R4. rewrite El, (app_len _ _ _ Ha), (app_offset _ _ _ Ha) in R5.
  split; try done. lia.
Qed.

Context (map_range : ∀ A : Type, list A → list A) (Hperm : ∀ A (l : list A), map_range A l ≡ₚ l).

Lemma marshal_map_writes p :
  good p →
  writes p (if MaxInt32 <? Z.of_nat (length kvs) then None else e ← map_encoding ok ov kvs; Some (be_len kvs ++ e))
    (marshal_map extra_cap map_range ((λ kv, (wk kv, wv kv)) <$> kvs) p).
Proof using Hspec Hsorted Hperm.
  intros Hg. pose proof (Hperm _ ((λ kv, (wk kv, wv kv)) <$> kvs)) as Hp.
  apply Permutation_map_inv in Hp as (kvs' & Er & Hp). change (map ?f ?l) with (f <$> l) in Er.
  unfold marshal_map. rewrite Er, length_fmap, <- (Permutation_length Hp), Z.gtb_ltb.
  destruct (Z.ltb_spec MaxInt32 (Z.of_nat (length kvs))) as [Hn|Hn]; [by eexists|]. unfold MaxInt32 in Hn.
  unfold PackInt, u32. rewrite Z.mod_small by lia.
  pose proof (pack_raw_writes extra_cap p (be_bytes 4 (Z.of_nat (length kvs))) Hg) as H1. fold (be_len kvs) in H1 |- *.
  destruct (pack_raw_grows extra_cap p (be_len kvs) (good_ok _ Hg)) as (p0 & E0 & _). rewrite E0 in *. cbn [lift result_bind] in *.
  apply (writes_bind _ _ _ _ _ H1). intros p1 Ha. apply marshal_entries_writes; [done|apply Ha].
Qed.
End maps.

(** ** [marshal] writes the encoding *)

Section marshal.
Context (extra_cap : Z → Z → nat) (implements : ty → nat → bool) {TC : TypeCodec} {TL : TypeCodecLaws extra_cap implements TC}.
Context (tags : list bytes).

Notation enc := (encoding tags).

(** An encoding does not depend on the enclosing interfaces. *)
Lemma all_some_impl {A B} (f g : A → option B) l xs :
  (∀ a b, a ∈ l → f a = Some b → g a = Some b) → all_some (f <$> l) = Some xs → all_some (g <$> l) = Some xs.
Proof using.
  rewrite !all_some_Some. revert xs. induction l as [|a l IH]; intros [|x xs] H; try done. rewrite !fmap_cons. intros [= Ha Hl].
  f_equal; [apply H; [apply list_elem_of_here|done]|]. apply IH; [|done]. intros; eapply H; eauto using list_elem_of_further.
Qed.

Lemma serialized_impl {B} (f g : val → ty → option B) vs fs xs :
  (∀ v t b, v ∈ vs → f v t = Some b → g v t = Some b) →
  all_some (serialized tags f None vs fs) = Some xs → all_some (serialized tags g None vs fs) = Some xs.
Proof using.
  rewrite !all_some_Some. revert fs xs. induction vs as [|v vs IH]; intros [|[fi t] fs] xs H; try done.
  simpl. specialize (IH fs). destruct (captured tags fi).
  - destruct xs as [|x xs]; [done|]. rewrite !fmap_cons. intros [= Ha Hl].
    f_equal; [apply H; [apply list_elem_of_here|done]|]. apply IH; [|done]. intros; eapply H; eauto using list_elem_of_further.
  - apply IH. intros; eapply H; eauto using list_elem_of_further.
Qed.

Lemma encoding_stack v t stack stack' e : stack' ⊆ stack → enc v t stack = Some e → enc v t stack' = Some e.
Proof using.
  revert t stack stack' e. induction v as [z|b|s| |v IH|u v IH|vs IH|vs IH|kvs IH] using val_ind'; intros t stack stack' e Hs;
    destruct t; try done; simpl; eauto.
  - case_bool_decide as Hu; [done|]. rewrite bool_decide_false by set_solver. destruct (prefix_of u); simpl; [|done].
    destruct (enc v u (u :: stack)) eqn:E; simpl; [|done]. intros [= <-]. rewrite (IH _ (u :: stack) (u :: stack') _ ltac:(set_solver) E). done.
  - case_match; [done|]. destruct (all_some _) as [es|] eqn:E; simpl; [|done]. rewrite Forall_forall in IH.
    erewrite all_some_impl; [|intros v b Hv Hb; exact (IH v Hv _ _ _ _ Hs Hb)|exact E]. done.
  - destruct (all_some _) as [es|] eqn:E; simpl; [|done]. rewrite Forall_forall in IH.
    erewrite all_some_impl; [|intros v b Hv Hb; exact (IH v Hv _ _ _ _ Hs Hb)|exact E]. done.
  - case_match; [|done]. destruct (all_some _) as [es|] eqn:E; simpl; [|done]. rewrite Forall_forall in IH.
    erewrite serialized_impl; [|intros v t b Hv Hb; exact (IH v Hv _ _ _ _ Hs Hb)|exact E]. done.
  - case_match; [done|]. destruct (all_some _) as [es|] eqn:E; simpl; [|done]. rewrite Forall_forall in IH.
    set (f := λ st kv, ek ← enc kv.1 t1 st; ev ← enc kv.2 t2 st; Some (ek, ev)) in *.
    assert (all_some (f stack' <$> kvs) = Some es) as E'; [|unfold f in E'; by rewrite E'].
    eapply all_some_impl; [|exact E]. intros kv b Hkv. unfold f. destruct (IH kv Hkv) as [IHk IHv].
    destruct (enc kv.1 t1 stack) as [a|] eqn:Ea; simpl; [|done]. destruct (enc kv.2 t2 stack) as [b'|] eqn:Eb; simpl; [|done].
    by rewrite (IHk _ stack stack' _ Hs Ea), (IHv _ stack stack' _ Hs Eb).
Qed.

Lemma be_bytes_1 z : be_bytes 1 (z mod 256) = [z mod 256].
Proof using. simpl. f_equal. apply Z.mod_mod. lia. Qed.

Lemma pack_num_writes w p z :
  good p → writes p (Some (be_bytes (wbytes w) (z mod 2 ^ wbits w))) (let? p := lift (pack_num extra_cap w p z) in check p).
Proof using.
  intros Hg. destruct w; unfold pack_num, PackByte, PackShort, PackInt, PackLong; try by apply pack_raw_writes.
  change (2 ^ wbits W8) with 256. rewrite be_bytes_1. by apply pack_raw_writes.
Qed.

Lemma byte_elements (vs : list val) stack :
  Forall (λ v, typed (implements := implements) tags v (TNum false W8)) vs →
  all_some ((λ v, enc v (TNum false W8) stack) <$> vs) = Some ((λ b, [b]) <$> bytes_of vs).
Proof using.
  induction 1 as [|v vs Hv _ IH]; [done|]. destruct v; try done. rewrite fmap_cons. cbn [all_some encoding wbytes].
  change (2 ^ wbits W8) with 256. rewrite be_bytes_1. cbn [mbind option_bind]. by rewrite IH.
Qed.

Lemma concat_singletons {A} (l : list A) : concat ((λ b, [b]) <$> l) = l ∧ existsb is_nil ((λ b, [b]) <$> l) = false.
Proof using. induction l as [|x l [IH1 IH2]]; [done|]. split; simpl; [f_equal; exact IH1|exact IH2]. Qed.

(** The checks on a slice that [marshal] makes before its elements. *)
Lemma slice_writes {A} (vs : list A) o (k : Packer → result codec_error Packer) p :
  good p → (∀ p1, good p1 → writes p1 o (k p1)) →
  writes p (if MaxInt32 <? Z.of_nat (length vs) then None else e ← o; Some (be_len vs ++ e))
    (if Z.of_nat (length vs) >? MaxInt32 then Err ErrMaxSliceLenExceeded
     else let? p := lift (PackInt extra_cap p (u32 (Z.of_nat (length vs)))) in let? p := check p in k p).
Proof using.
  intros Hg Hk. rewrite Z.gtb_ltb. destruct (Z.ltb_spec MaxInt32 (Z.of_nat (length vs))) as [Hn|Hn]; [by eexists|]. unfold MaxInt32 in Hn.
  unfold PackInt, u32. rewrite Z.mod_small by lia. fold (be_len vs).
  pose proof (pack_raw_writes extra_cap p (be_len vs) Hg) as H1.
  destruct (pack_raw_grows extra_cap p (be_len vs) (good_ok _ Hg)) as (p0 & E0 & _). rewrite E0 in *. cbn [lift result_bind] in *.
  apply (writes_bind _ _ _ _ _ H1). intros p1 Ha. apply Hk, Ha.
Qed.

Context (map_range : ∀ A : Type, list A → list A) (Hperm : ∀ A (l : list A), map_range A l ≡ₚ l).

Theorem marshal_writes v t stack p :
  typed (implements := implements) tags v t → good p → writes p (enc v t stack) (marshal extra_cap tags map_range v t stack p).
Proof using Hperm.
  revert t stack p. induction v as [z|b|s| |v IH|u v IH|vs IH|vs IH|kvs IH] using val_ind'; intros t stack p Ht Hg;
    destruct t; try done; try by eexists; cbn [typed] in Ht.
  - by apply pack_num_writes.
  - change (writes p (Some [if b then 1 else 0]) (let? p := lift (PackBool extra_cap p b) in check p)). unfold PackBool, PackByte. destruct b; by apply pack_raw_writes.
  - cbn [marshal encoding]. unfold PackStr. rewrite Z.gtb_ltb. destruct (Z.ltb_spec MaxStringLen (Z.of_nat (length s))) as [Hl|Hl].
    + rewrite (proj2 (Z.leb_gt _ _)) by lia. cbn [lift result_bind]. unfold check, add_error. rewrite (good_err _ Hg). by eexists.
    + rewrite (proj2 (Z.leb_le _ _)) by lia. unfold MaxStringLen in Hl. unfold PackShort, PackFixedBytes, u16. rewrite Z.mod_small by lia.
      by apply pack_two_writes.
  - by apply IH.
  - destruct Ht as [Himp Ht]. rewrite encoding_iface.
    change (marshal _ _ _ (VIface u v) _ _ _) with (if bool_decide (u ∈ stack) then Err ErrRecursiveInterfaceTypes
      else let? p := PackPrefix p u in let? p := marshal extra_cap tags map_range v u (u :: stack) p in check p).
    case_bool_decide; [by eexists|]. apply writes_bind_opt; [by apply PackPrefix_writes|].
    intros pre p' _ Ha. specialize (IH u (u :: stack) p' Ht (app_good _ _ _ Ha)). destruct (enc v u (u :: stack)) as [e|]; [|by apply fails_bind].
    apply writes_Some in IH as [[Hf (q & -> & Hq)]|[Hf Hw]]; apply writes_Some; [left|right; split; [done|by apply fails_bind]].
    split; [done|]. exists q. split; [|done]. cbn [result_bind]. apply check_good, Hq.
  - apply typed_slice in Ht. rewrite encoding_slice.
    change (marshal _ _ _ (VSeq vs) (TSlice t) _ _) with (if Z.of_nat (length vs) >? MaxInt32 then Err ErrMaxSliceLenExceeded
      else let? p := lift (PackInt extra_cap p (u32 (Z.of_nat (length vs)))) in let? p := check p in
        if Z.of_nat (length vs) =? 0 then Ok p
        else if is_byte t then let? p := lift (PackFixedBytes extra_cap p (bytes_of vs)) in check p
        else marshal_elems ((λ v, marshal extra_cap tags map_range v t stack) <$> vs) p).
    apply slice_writes; [done|]. intros p1 Hg1. destruct vs as [|v vs]; [by apply writes_Ok|]. simpl length. rewrite (proj2 (Z.eqb_neq _ _)) by lia.
    destruct (is_byte t) eqn:Eb.
    + destruct t as [[] []| | | | | | | | |]; try done. unfold elems_encoding. rewrite byte_elements by done. cbn [mbind option_bind].
      destruct (concat_singletons (bytes_of (v :: vs))) as [-> ->]. by apply pack_raw_writes.
    + apply marshal_elems_writes; [|done]. apply Forall2_fmap, Forall_Forall2_diag. rewrite Forall_forall in IH, Ht |- *.
      intros x Hx p2 Hg2. apply IH; [done|by apply Ht|done].
  - apply typed_array in Ht as [_ Ht]. rewrite encoding_array. apply marshal_all_writes; [|done].
    apply Forall2_fmap, Forall_Forall2_diag. rewrite Forall_forall in IH, Ht |- *. intros x Hx p2 Hg2. apply IH; [done|by apply Ht|done].
  - rewrite encoding_struct. change (marshal _ _ _ (VStruct vs) _ _ _) with (let? _ := GetSerializedFields tags fs in
      marshal_all (serialized tags (λ v t, marshal extra_cap tags map_range v t stack) (λ _, Err CPanic) vs fs) p).
    destruct (GetSerializedFields tags fs) as [l|]; [|by eexists]. cbn [result_bind].
    apply marshal_all_writes; [|done]. eapply serialized_writes; [|exact Ht]. rewrite Forall_forall in IH.
    intros x u Hx Hu p2 Hg2. by apply IH.
  - apply typed_map in Ht as (Ht & Hs & _). rewrite encoding_map.
    apply (marshal_map_writes extra_cap (λ kv, marshal extra_cap tags map_range kv.1 t1 stack) (λ kv, marshal extra_cap tags map_range kv.2 t2 stack)
      (λ kv, enc kv.1 t1 stack) (λ kv, enc kv.2 t2 stack) kvs); [| |done|done].
    + rewrite Forall_forall in IH, Ht |- *. intros kv Hkv. destruct (IH kv Hkv) as [IHk IHv], (Ht kv Hkv) as [Hk Hv].
      split; intros p2 Hg2; by (apply IHk || apply IHv).
    + intros i j a b Hij Hi Hj. apply (Hs i j); [done| |]; rewrite list_lookup_fmap in Hi, Hj |- *.
      * destruct (kvs !! i); [|done]. simpl in *. injection Hi as Hi. f_equal. by apply (encoding_stack _ _ stack); [set_solver|].
      * destruct (kvs !! j); [|done]. simpl in *. injection Hj as Hj. f_equal. by apply (encoding_stack _ _ stack); [set_solver|].
Qed.
End marshal.
