(* ===== verification/CodecSize.v ===== *)
(** * The sizes that the codec computes

    [Size] returns the length of the encoding without writing it: for values whose type has a
    fixed size it multiplies the size of one element. *)

From S2P Require Import Prelude Database Packer Codec CodecWrite.

Open Scope Z_scope.

Section size.
Context (extra_cap : Z → Z → nat) (implements : ty → nat → bool) {TC : TypeCodec} {TL : TypeCodecLaws extra_cap implements TC}.
Context (tags : list bytes).

Notation enc := (encoding tags).
Notation len_of := (λ e : bytes, Z.of_nat (length e)).

Definition sum_lens (es : list bytes) : Z := Z.of_nat (length (concat es)).

(** The size of the types whose values all have one size. *)
Fixpoint fixed (t : ty) : option Z :=
  match t with
  | TNum _ w => Some (num_size w)
  | TBool => Some 1
  | TPtr t => fixed t
  | TArray n t => if (n =? 0)%nat then Some 0 else k ← fixed t; Some (Z.of_nat n * k)
  | TStruct _ fs =>
      foldr (λ (f : FieldInfo * option Z) acc, if captured tags f.1 then k ← f.2; a ← acc; Some (k + a) else acc) (Some 0)
        ((λ f : FieldInfo * ty, (f.1, fixed f.2)) <$> fs)
  | _ => None
  end.

Definition is_fixed (t : ty) : bool := match fixed t with Some _ => true | None => false end.

(** What [size] returns for a value with the encoding [e]. *)
Definition sized (t : ty) (e : bytes) (r : size_t) : Prop :=
  r = Ok (len_of e, is_fixed t) ∧ ∀ n, fixed t = Some n → len_of e = n.

Lemma sum_lens_cons e es : sum_lens (e :: es) = len_of e + sum_lens es.
Proof. unfold sum_lens. simpl. rewrite length_app. lia. Qed.

Lemma size_rest_spec acc (ss : list (unit → size_t)) es :
  Forall2 (λ s e, ∃ c, s tt = Ok (len_of e, c)) ss es → size_rest acc ss = Ok (acc + sum_lens es).
Proof.
  intros H. revert acc. induction H as [|s e ss es [c Hs] _ IH]; intros acc; [unfold sum_lens; simpl; f_equal; lia|].
  cbn [size_rest]. rewrite Hs. cbn [result_bind]. rewrite IH, sum_lens_cons. f_equal. lia.
Qed.

(** The elements of a sequence. *)
Definition elems_sized (t : ty) (vs : list val) (es : list bytes) (stack : list ty) (sz : val → size_t) : Prop :=
  Forall2 (λ v e, sized t e (sz v)) vs es.

Lemma const_sum t vs es (sz : val → size_t) n :
  Forall2 (λ v e, sized t e (sz v)) vs es → fixed t = Some n → sum_lens es = Z.of_nat (length vs) * n.
Proof.
  intros H Hn. induction H as [|v e vs es [_ Hf] _ IH]; [done|]. rewrite sum_lens_cons, IH, (Hf n Hn). simpl length. lia.
Qed.

Lemma rest_sized t (vs : list val) es (sz : val → size_t) :
  Forall2 (λ v e, sized t e (sz v)) vs es → Forall2 (λ s e, ∃ c, s tt = Ok (len_of e, c)) ((λ v (_ : unit), sz v) <$> vs) es.
Proof. intros H. apply Forall2_fmap_l. eapply Forall2_impl; [exact H|]. intros v e [E _]. eauto. Qed.

Lemma is_fixed_true t : is_fixed t = true ↔ ∃ n, fixed t = Some n.
Proof. unfold is_fixed. destruct (fixed t); naive_solver. Qed.

Lemma slice_size t v vs e es (sz : val → size_t) :
  Forall2 (λ v e, sized t e (sz v)) (v :: vs) (e :: es) →
  (let? '(n, const) := sz v in
   if const then Ok (Z.of_nat (length (v :: vs)) * n)
   else size_rest n ((λ v (_ : unit), sz v) <$> vs)) = Ok (sum_lens (e :: es)).
Proof.
  intros H. pose proof H as H'. apply Forall2_cons in H as [[E Hf] H]. rewrite E. cbn [result_bind]. destruct (is_fixed t) eqn:Ef.
  - apply is_fixed_true in Ef as [n Hn]. rewrite (const_sum _ _ _ _ n H' Hn), (Hf n Hn). done.
  - rewrite (size_rest_spec _ _ es) by by eapply rest_sized. by rewrite sum_lens_cons.
Qed.

Definition fixed_fields (fs : list (FieldInfo * option Z)) : option Z :=
  foldr (λ (f : FieldInfo * option Z) acc, if captured tags f.1 then k ← f.2; a ← acc; Some (k + a) else acc) (Some 0) fs.

Lemma size_fields_spec (Q : val → ty → Prop) vs fs es acc const stack (sz : val → ty → size_t) :
  all_fields Q vs fs → (∀ v t e, v ∈ vs → Q v t → enc v t stack = Some e → sized t e (sz v t)) →
  all_some (serialized tags (λ v t, enc v t stack) None vs fs) = Some es →
  let fixed_fs := fixed_fields ((λ f : FieldInfo * ty, (f.1, fixed f.2)) <$> fs) in
  size_fields acc const (serialized tags (λ v t (_ : unit), sz v t) (λ _, Err CPanic) vs fs)
    = Ok (acc + sum_lens es, const && match fixed_fs with Some _ => true | None => false end)
  ∧ ∀ n, fixed_fs = Some n → sum_lens es = n.
Proof.
  intros Hq Hs. revert fs es acc const Hq. induction vs as [|v vs IH]; intros [|[fi t] fs] es acc const Hq; try done.
  { simpl. intros [= <-]. unfold sum_lens. simpl. rewrite Z.add_0_r, andb_true_r. split; [done|]. by intros n [= <-]. }
  destruct Hq as [Hv Hq]. specialize (IH ltac:(intros; apply Hs; [by apply list_elem_of_further|done|done]) fs).
  rewrite fmap_cons. cbn [serialized fixed_fields foldr fst snd]. fold (fixed_fields ((λ f : FieldInfo * ty, (f.1, fixed f.2)) <$> fs)).
  destruct (captured tags fi).
  - cbn [all_some]. destruct (enc v t stack) as [e|] eqn:Ee; cbn [mbind option_bind]; [|done].
    destruct (all_some _) as [es'|] eqn:Ees; cbn [mbind option_bind]; [|done]. intros [= <-].
    destruct (Hs v t e ltac:(apply list_elem_of_here) Hv Ee) as [E Hf]. cbn [size_fields]. rewrite E. cbn [result_bind].
    destruct (IH es' (acc + len_of e) (const && is_fixed t) Hq eq_refl) as [-> Hf']. rewrite sum_lens_cons, Z.add_assoc. unfold is_fixed. split.
    + do 2 f_equal. destruct (fixed t), (fixed_fields _), const; done.
    + intros n. destruct (fixed t) as [k|]; simpl; [|done]. destruct (fixed_fields _) as [m|]; simpl; [|done]. intros [= <-].
      rewrite (Hf k eq_refl), (Hf' m eq_refl). done.
  - apply IH. done.
Qed.

Context (map_range : ∀ A : Type, list A → list A) (Hperm : ∀ A (l : list A), map_range A l ≡ₚ l).

Lemma concat_pairs_rest (rest : list ((unit → size_t) * (unit → size_t))) (es : list (bytes * bytes)) :
  Forall2 (λ s e, (∃ c, s.1 tt = Ok (len_of e.1, c)) ∧ (∃ c, s.2 tt = Ok (len_of e.2, c))) rest es →
  Forall2 (λ s e, ∃ c, s tt = Ok (len_of e, c)) (concat ((λ '(a, b), [a; b]) <$> rest)) (concat ((λ e, [e.1; e.2]) <$> es)).
Proof using.
  induction 1 as [|[a b] [x y] rest es [? ?] _ IH]; [constructor|]. simpl. by repeat constructor.
Qed.

Lemma sum_pairs (es : list (bytes * bytes)) :
  sum_lens ((λ e, e.1 ++ e.2) <$> es) = sum_lens es.*1 + sum_lens es.*2 ∧ sum_lens (concat ((λ e, [e.1; e.2]) <$> es)) = sum_lens es.*1 + sum_lens es.*2.
Proof using.
  induction es as [|[x y] es [IH1 IH2]]; [done|]. rewrite !fmap_cons. cbn [concat fst snd]. rewrite !sum_lens_cons, length_app. cbn [app].
  rewrite !sum_lens_cons. lia.
Qed.

(** [size_map] adds up the sizes, with the shortcuts of fixed sizes. *)
Lemma size_map_spec tk tv (ss : list ((unit → size_t) * (unit → size_t))) es :
  Forall2 (λ s e, sized tk e.1 (s.1 tt) ∧ sized tv e.2 (s.2 tt)) ss es →
  existsb (λ e, is_nil (e.1 ++ e.2)) es = false →
  size_map map_range ss = Ok (4 + sum_lens ((λ e, e.1 ++ e.2) <$> es), false).
Proof using Hperm.
  intros H0 Hne0.
  assert (∃ es', Forall2 (λ s e, sized tk e.1 (s.1 tt) ∧ sized tv e.2 (s.2 tt)) (map_range _ ss) es' ∧ es ≡ₚ es') as (es' & H & Hp).
  { destruct (Permutation_Forall2 (Permutation_sym (Hperm _ ss)) H0) as (es' & Hp & H). eauto. }
  assert (sum_lens ((λ e, e.1 ++ e.2) <$> es) = sum_lens ((λ e, e.1 ++ e.2) <$> es')) as ->.
  { unfold sum_lens. f_equal. apply length_concat_perm. by rewrite Hp. }
  assert (existsb (λ e, is_nil (e.1 ++ e.2)) es' = false) as Hne.
  { apply not_true_is_false. intros (e & Hin & He)%existsb_exists. apply not_true_iff_false in Hne0. apply Hne0, existsb_exists.
    exists e. split; [|done]. apply list_elem_of_In. rewrite Hp. by apply list_elem_of_In. }
  clear H0 Hne0 Hp. unfold size_map. destruct (map_range _ ss) as [|[sk sv] rest].
  { apply Forall2_nil_inv_l in H as ->. unfold sum_lens. done. }
  pose proof H as H'. apply Forall2_cons_inv_l in H as ([a b] & es'' & [[E1 F1] [E2 F2]] & H & ->). cbn [fst snd] in *.
  rewrite E1. cbn [result_bind]. rewrite E2. cbn [result_bind].
  assert ((len_of a =? 0) && (len_of b =? 0) = false) as ->.
  { cbn [existsb fst snd] in Hne. apply orb_false_iff in Hne as [Hne _]. destruct a, b; done. }
  destruct (sum_pairs ((a, b) :: es'')) as [Es1 Es2]. rewrite Es1.
  assert (length ((sk, sv) :: rest) = length ((a, b) :: es'')) as El by (by eapply Forall2_length).
  assert (∀ n, fixed tk = Some n → sum_lens ((a, b) :: es'').*1 = Z.of_nat (length ((sk, sv) :: rest)) * n) as Hk.
  { intros n Hn. clear -H' Hn. induction H' as [|s [x y] ss es [[_ Hf] _] _ IH]; [done|]. rewrite fmap_cons, sum_lens_cons, IH. cbn [fst] in *. rewrite (Hf n Hn). simpl length. lia. }
  assert (∀ n, fixed tv = Some n → sum_lens ((a, b) :: es'').*2 = Z.of_nat (length ((sk, sv) :: rest)) * n) as Hv.
  { intros n Hn. clear -H' Hn. induction H' as [|s [x y] ss es [_ [_ Hf]] _ IH]; [done|]. rewrite fmap_cons, sum_lens_cons, IH. cbn [snd] in *. rewrite (Hf n Hn). simpl length. lia. }
  assert (Forall2 (λ s e, ∃ c, s tt = Ok (len_of e, c)) rest.*1 es''.*1) as R1.
  { apply Forall2_fmap. eapply Forall2_impl; [exact H|]. intros ? ? [[? _] _]. eauto. }
  assert (Forall2 (λ s e, ∃ c, s tt = Ok (len_of e, c)) rest.*2 es''.*2) as R2.
  { apply Forall2_fmap. eapply Forall2_impl; [exact H|]. intros ? ? [_ [? _]]. eauto. }
  rewrite !fmap_cons, !sum_lens_cons in *. cbn [fst snd] in *. unfold is_fixed.
  destruct (fixed tk) as [nk|] eqn:Etk, (fixed tv) as [nv|] eqn:Etv; cbn [andb].
  - rewrite (F1 nk eq_refl), (F2 nv eq_refl) in *. rewrite (Hk nk eq_refl), (Hv nv eq_refl). do 2 f_equal. lia.
  - rewrite (size_rest_spec _ _ _ R2). cbn [result_bind]. rewrite (Hk nk eq_refl), (F1 nk eq_refl). do 2 f_equal. lia.
  - rewrite (size_rest_spec _ _ _ R1). cbn [result_bind]. rewrite (Hv nv eq_refl), (F2 nv eq_refl). do 2 f_equal. lia.
  - assert (Forall2 (λ s e, (∃ c, s.1 tt = Ok (len_of e.1, c)) ∧ (∃ c, s.2 tt = Ok (len_of e.2, c))) rest es'') as R.
    { eapply Forall2_impl; [exact H|]. intros ? ? [[? _] [? _]]. eauto. }
    rewrite (size_rest_spec _ _ _ (concat_pairs_rest _ _ R)). cbn [result_bind]. destruct (sum_pairs es'') as [_ ->]. do 2 f_equal. lia.
Qed.

Lemma elems_sized_all t vs es stack (sz : val → size_t) :
  (∀ v e, v ∈ vs → enc v t stack = Some e → sized t e (sz v)) → all_some ((λ v, enc v t stack) <$> vs) = Some es →
  Forall2 (λ v e, sized t e (sz v)) vs es.
Proof using.
  rewrite all_some_Some. revert es. induction vs as [|v vs IH]; intros [|e es] H; try (done || by constructor). rewrite !fmap_cons. intros [= Hv Hl].
  constructor; [apply H; [apply list_elem_of_here|done]|]. apply IH; [|done]. intros; apply H; [by apply list_elem_of_further|done].
Qed.

Theorem size_sized v t stack e :
  typed (implements := implements) tags v t → enc v t stack = Some e → sized t e (size tags map_range v t stack).
Proof using Hperm.
  revert t stack e. induction v as [z|b|s| |v IH|u v IH|vs IH|vs IH|kvs IH] using val_ind'; intros t stack e Ht He; destruct t; try done.
  - injection He as <-. unfold sized, is_fixed. simpl. rewrite length_be_bytes. split; [done|]. by intros n [= <-].
  - injection He as <-. split; [done|]. by intros n [= <-].
  - simpl in He. case_match; [|done]. injection He as <-. split; [|done]. simpl. do 2 f_equal. simpl. lia.
  - exact (IH t stack e Ht He).
  - destruct Ht as [_ Ht]. rewrite encoding_iface in He. cbn [size]. case_bool_decide; [done|]. destruct (prefix_of u) as [pre|] eqn:Ep; cbn [mbind option_bind] in He; [|done].
    destruct (enc v u (u :: stack)) as [e'|] eqn:Ee; cbn [mbind option_bind] in He; [|done]. injection He as <-.
    destruct (IH u (u :: stack) e' Ht Ee) as [E _]. change (size _ _ v u (u :: stack)) with (size tags map_range v u (u :: stack)). rewrite E. cbn [result_bind].
    split; [|done]. do 2 f_equal. rewrite (PrefixSize_exact _ _ Ep), length_app. lia.
  - apply typed_slice in Ht. rewrite encoding_slice in He. case_match; [done|]. unfold elems_encoding in He.
    destruct (all_some _) as [es|] eqn:Ees; cbn [mbind option_bind] in He; [|done]. destruct (existsb is_nil es) eqn:En; cbn [mbind option_bind] in He; [done|]. apply (inj Some) in He as <-.
    rewrite Forall_forall in IH, Ht. split; [|done].
    apply (elems_sized_all _ _ _ _ (λ v, size tags map_range v t stack)) in Ees; [|intros; apply IH; [done|by apply Ht|done]].
    destruct vs as [|v vs]; [by apply Forall2_nil_inv_l in Ees as ->|]. pose proof Ees as H'.
    apply Forall2_cons_inv_l in Ees as (e & es' & [E Hf] & _ & ->). pose proof (slice_size _ _ _ _ _ _ H') as Hs. cbv beta in E, Hs. rewrite E in Hs. cbn [result_bind] in Hs.
    change (size _ _ (VSeq (v :: vs)) _ _) with (let? '(n, const) := size tags map_range v t stack in
      if n =? 0 then Err ErrMarshalZeroLength else if const then Ok (4 + Z.of_nat (length (v :: vs)) * n, false)
      else let? n := size_rest n ((λ v (_ : unit), size tags map_range v t stack) <$> vs) in Ok (4 + n, false)).
    rewrite E. cbn [result_bind]. rewrite (proj2 (Z.eqb_neq _ _)) by (destruct e; [done|simpl; lia]).
    assert (len_of (be_len (v :: vs) ++ concat (e :: es')) = 4 + sum_lens (e :: es')) as ->.
    { unfold be_len, sum_lens. rewrite length_app, length_be_bytes. lia. }
    destruct (is_fixed t); [assert (Z.of_nat (length (v :: vs)) * len_of e = sum_lens (e :: es')) as -> by congruence; done|]. rewrite Hs. done.
  - apply typed_array in Ht as [Hn Ht]. rewrite encoding_array in He. destruct (all_some _) as [es|] eqn:Ees; cbn [mbind option_bind] in He; [|done]. apply (inj Some) in He as <-.
    rewrite Forall_forall in IH, Ht. apply (elems_sized_all _ _ _ _ (λ v, size tags map_range v t stack)) in Ees; [|intros; apply IH; [done|by apply Ht|done]].
    fold (sum_lens es). unfold sized, is_fixed. cbn [fixed]. destruct vs as [|v vs].
    { apply Forall2_nil_inv_l in Ees as ->. simpl in Hn. subst n. split; [done|]. by intros n [= <-]. }
    pose proof Ees as H'. apply Forall2_cons_inv_l in Ees as (e & es' & [E Hf] & _ & ->). pose proof (slice_size _ _ _ _ _ _ H') as Hs. cbv beta in E, Hs. rewrite E in Hs. cbn [result_bind] in Hs.
    change (size _ _ (VSeq (v :: vs)) _ _) with (let? '(n, const) := size tags map_range v t stack in
      if const then Ok (Z.of_nat (length (v :: vs)) * n, true)
      else let? n := size_rest n ((λ v (_ : unit), size tags map_range v t stack) <$> vs) in Ok (n, false)).
    rewrite E. cbn [result_bind]. destruct n as [|n]; [done|]. cbn [Nat.eqb]. unfold is_fixed in Hs |- *. destruct (fixed t) as [k|] eqn:Ek; cbn [mbind option_bind].
    + assert (Z.of_nat (length (v :: vs)) * len_of e = sum_lens (e :: es')) as Hs' by congruence. clear Hs. rename Hs' into Hs. rewrite Hs. split; [done|]. intros m [= <-]. fold (sum_lens (e :: es')). rewrite <- Hs, (Hf k eq_refl), Hn. done.
    + rewrite Hs. done.
  - rewrite encoding_struct in He. change (size _ _ (VStruct vs) _ _) with (let? _ := GetSerializedFields tags fs in
      size_fields 0 true (serialized tags (λ v t (_ : unit), size tags map_range v t stack) (λ _, Err CPanic) vs fs)).
    destruct (GetSerializedFields tags fs); [|done]. cbn [result_bind]. destruct (all_some _) as [es|] eqn:Ees; cbn [mbind option_bind] in He; [|done]. injection He as <-.
    rewrite Forall_forall in IH.
    destruct (size_fields_spec (typed (implements := implements) tags) vs fs es 0 true stack (λ v t, size tags map_range v t stack) Ht) as [E Hf];
      [intros; by apply IH|done|]. rewrite E. split; [done|]. exact Hf.
  - apply typed_map in Ht as [Ht _]. rewrite encoding_map in He. case_match; [done|]. unfold map_encoding in He.
    destruct (all_some _) as [es|] eqn:Ees; cbn [mbind option_bind] in He; [|done]. destruct (existsb _ es) eqn:En; cbn [mbind option_bind] in He; [done|]. apply (inj Some) in He as <-.
    split; [|done]. change (size _ _ (VMap kvs) _ _) with (size_map map_range
      ((λ kv, ((λ _ : unit, size tags map_range kv.1 t1 stack), (λ _ : unit, size tags map_range kv.2 t2 stack))) <$> kvs)).
    rewrite (size_map_spec t1 t2 _ es); [| |done].
    + do 2 f_equal. unfold be_len, sum_lens. rewrite length_app, length_be_bytes. lia.
    + apply Forall2_fmap_l. rewrite all_some_Some in Ees. clear -IH Ht Ees. revert es Ees.
      induction IH as [|kv kvs [IHk IHv] _ IHl]; intros [|[a b] es] Ees; try (done || by constructor).
      rewrite Forall_cons in Ht. destruct Ht as [[Hk Hv] Ht]. rewrite !fmap_cons in Ees. injection Ees as Ep Ees.
      constructor; [|by apply IHl]. unfold pair_enc in Ep. destruct (enc kv.1 t1 stack) as [x|] eqn:Ex; simpl in Ep; [|done].
      destruct (enc kv.2 t2 stack) as [y|] eqn:Ey; simpl in Ep; [|done]. injection Ep as <- <-. split; [by apply IHk|by apply IHv].
Qed.
End size.
