(* ===== verification/CodecRead.v ===== *)
(** * What the codec reads

    [unmarshal] of [Codec] reads back what was encoded, and everything that it accepts is the
    encoding of the well-typed value that it returns.  On any bytes it does not run out of the
    fuel that the number of registered types gives, and it panics only for a key of a map that
    holds, in an interface, a value of a registered type that cannot be compared. *)

From S2P Require Import Prelude Database Packer Codec CodecWrite.

Open Scope Z_scope.

(** ** Readers *)

Lemma length_contents p : 0 ≤ len p ≤ cap p → Z.of_nat (length (contents p)) = len p.
Proof. unfold contents, cap. rewrite length_take. lia. Qed.

Lemma next_fits p e : next_bytes p e → Offset p + Z.of_nat (length e) ≤ len p.
Proof.
  intros (Hl & _ & Ho & post & Ed). apply (f_equal length) in Ed. rewrite length_drop, length_app in Ed.
  pose proof (length_contents p Hl). lia.
Qed.

Lemma reading_next p : reading p → next_bytes p [].
Proof. intros (Hl & He & Ho & _). split; [done|]. split; [done|]. split; [done|]. by eexists. Qed.

Lemma next_app p e e' : next_bytes p (e ++ e') → next_bytes p e ∧ next_bytes (advance p (Z.of_nat (length e))) e'.
Proof.
  intros Hn. pose proof (next_fits _ _ Hn) as Hf. rewrite length_app in Hf. destruct Hn as (Hl & He & Ho & post & Ed). split.
  - split; [done|]. split; [done|]. split; [done|]. exists (e' ++ post). by rewrite Ed, <- app_assoc.
  - split; [done|]. split; [done|]. split; [simpl; lia|]. exists post.
    change (contents (advance p (Z.of_nat (length e)))) with (contents p). simpl.
    rewrite Z2Nat.inj_add, Nat2Z.id, <- drop_drop, Ed, <- app_assoc, drop_app_length by lia. done.
Qed.

Lemma read_bytes_trans p e q e' r : read_bytes p e q → read_bytes q e' r → read_bytes p (e ++ e') r.
Proof.
  intros [(Hl & He & Ho & post & Ed) ->] [(_ & _ & _ & post' & Ed') ->]. split.
  - split; [done|]. split; [done|]. split; [done|]. exists post'. simpl in Ed'. change (contents (advance p _)) with (contents p) in Ed'.
    rewrite Z2Nat.inj_add, Nat2Z.id, <- drop_drop, Ed, drop_app_length in Ed' by lia. by rewrite Ed, Ed', app_assoc.
  - unfold advance. simpl. f_equal. rewrite length_app. lia.
Qed.

Lemma read_reading p e p' : reading p → read_bytes p e p' → reading p'.
Proof.
  intros (Hl & He & Ho & Hb) [Hn ->]. pose proof (next_fits _ _ Hn). split; [done|]. split; [done|]. split; [simpl; lia|done].
Qed.

Lemma advance_zero p : advance p 0 = p.
Proof. unfold advance. destruct p. simpl. f_equal. lia. Qed.

Lemma advance_add p a b : advance (advance p a) b = advance p (a + b).
Proof. unfold advance. simpl. f_equal. lia. Qed.

Lemma read_nil p : reading p → read_bytes p [] p.
Proof. intros H. split; [by apply reading_next|]. by rewrite advance_zero. Qed.

(** What a read of the packer consumed. *)
Lemma consumed_read p e ok p' : reading p → consumed p e ok p' → Err_ p' = None → ok ∧ read_bytes p e p'.
Proof.
  intros (Hl & He & Ho & Hb) [(E1 & E2 & E3) _ _ HC] He'. destruct HC as (Hok & _ & Eo & post & Ed); [done|by apply Errored_false|].
  split; [done|]. split; [split; [done|]; split; [done|]; split; [done|]; by eexists|].
  unfold advance. destruct p', p. simpl in *. by subst.
Qed.

Lemma next_pre p e : next_bytes p e → ∃ pre post, contents p = pre ++ e ++ post ∧ Offset p = Z.of_nat (length pre).
Proof.
  intros (Hl & He & Ho & post & Ed). exists (take (Z.to_nat (Offset p)) (contents p)), post. rewrite <- Ed, take_drop. split; [done|].
  rewrite length_take. pose proof (length_contents p Hl). lia.
Qed.

Lemma check_none p : Err_ p = None → check p = Ok p.
Proof. unfold check. by intros ->. Qed.

Lemma check_cases p : (Err_ p = None ∧ check p = Ok p) ∨ ∃ e, check p = Err (ErrPacker e).
Proof. unfold check. destruct (Err_ p); eauto. Qed.

(** The reads of the packer at an encoding. *)
Lemma unpack_num_at w p z :
  0 ≤ z < 2 ^ wbits w → next_bytes p (be_bytes (wbytes w) z) →
  unpack_num w p = Some (z, advance p (Z.of_nat (wbytes w))).
Proof.
  intros Hz Hn. destruct (next_pre _ _ Hn) as (pre & post & Ec & Eo). destruct Hn as (Hl & He & Ho & _).
  destruct w; unfold unpack_num, UnpackByte, UnpackShort, UnpackInt, UnpackLong; by eapply unpack_number_at.
Qed.

Lemma unpack_raw_next p bs : next_bytes p bs → unpack_raw p (Z.of_nat (length bs)) = Some (bs, advance p (Z.of_nat (length bs))).
Proof.
  intros Hn. destruct (next_pre _ _ Hn) as (pre & post & Ec & Eo). destruct Hn as (Hl & He & Ho & _). by eapply unpack_raw_at.
Qed.

Lemma unpack_int_at {A} p (l : list A) :
  Z.of_nat (length l) ≤ MaxInt32 → next_bytes p (be_len l) → UnpackInt p = Some (Z.of_nat (length l), advance p 4).
Proof. intros Hl Hn. apply (unpack_num_at W32); [unfold MaxInt32 in Hl; change (2 ^ wbits W32) with (2 ^ 32); lia|done]. Qed.

(** The reads of the packer at any bytes. *)

Lemma unpack_num_any w p :
  reading p → ∃ z p', unpack_num w p = Some (z, p') ∧ (Err_ p' = None → 0 ≤ z < 2 ^ wbits w ∧ read_bytes p (be_bytes (wbytes w) z) p').
Proof.
  intros Hr. assert (0 ≤ len p ≤ cap p) as Hl by apply Hr.
  destruct (unpack_number_consumed p (wbytes w) (Z.of_nat (wbytes w)) eq_refl Hl) as (z & p' & E & C).
  exists z, p'. split; [by destruct w|]. intros He. destruct (consumed_read _ _ _ _ Hr C He) as [Hz ?]. split; [|done]. by destruct w.
Qed.

Lemma unpack_raw_any p n :
  reading p → ∃ bs p', unpack_raw p n = Some (bs, p') ∧ (Err_ p' = None → bytes_ok bs ∧ Z.of_nat (length bs) = n ∧ read_bytes p bs p').
Proof.
  intros Hr. assert (0 ≤ len p ≤ cap p) as Hl by apply Hr. destruct (unpack_raw_consumed p n Hl) as (bs & p' & E & C).
  exists bs, p'. split; [done|]. intros He. destruct (consumed_read _ _ _ _ Hr C He) as [[? ?] ?]. done.
Qed.

(** ** The fields that are not serialized come from the destination *)

Definition fill_fields (captured : FieldInfo → bool) (f : val → ty → val → val) : list val → list (FieldInfo * ty) → list val → list val :=
  fix go vs fs ds :=
  match vs, fs, ds with
  | v :: vs, (fi, t) :: fs, d :: ds => (if captured fi then f v t d else d) :: go vs fs ds
  | _, _, _ => []
  end.

Fixpoint fill (captured : FieldInfo → bool) (v : val) (t : ty) (dest : val) {struct v} : val :=
  match t, v with
  | TPtr t, VPtr v => VPtr (fill captured v t (zero t))
  | TIface _, VIface u v => VIface u (fill captured v u (zero u))
  | TSlice t, VSeq vs => VSeq ((λ v, fill captured v t (zero t)) <$> vs)
  | TArray _ t, VSeq vs => match dest with VSeq ds => VSeq (zip_with (λ v d, fill captured v t d) vs ds) | _ => v end
  | TStruct _ fs, VStruct vs =>
      match dest with VStruct ds => VStruct (fill_fields captured (λ v t d, fill captured v t d) vs fs ds) | _ => v end
  | TMap tk tv, VMap kvs => VMap ((λ kv, (fill captured kv.1 tk (zero tk), fill captured kv.2 tv (zero tv))) <$> kvs)
  | _, _ => v
  end.

(** ** Keys of maps *)

(** No interface is hashed with a value of the type. *)
Fixpoint plain_key (t : ty) : bool :=
  match t with
  | TIface _ => false
  | TArray _ t => plain_key t
  | TStruct _ fs => forallb (λ f, plain_key f.2) fs
  | _ => true
  end.

(** The maps of the type have such keys. *)
Fixpoint plain_maps (t : ty) : bool :=
  match t with
  | TPtr t | TSlice t | TArray _ t => plain_maps t
  | TStruct _ fs => forallb (λ f, plain_maps f.2) fs
  | TMap tk tv => plain_key tk && plain_maps tk && plain_maps tv
  | _ => true
  end.

Lemma forallb_Forall' {A} (f : A → bool) l : forallb f l = true ↔ Forall (λ x, f x = true) l.
Proof. by rewrite forallb_forall, List.Forall_forall. Qed.

Lemma hashable_zero t : hashable (zero t) t = true.
Proof.
  induction t as [s w| | |t IH|i|t IH|n t IH|name fs IH|k v IHk IHv|k] using ty_ind'; try done.
  - apply forallb_Forall', Forall_replicate, IH.
  - cbn [hashable zero]. induction IH as [|[fi t] fs Ht _ IHfs]; [done|]. rewrite fmap_cons. cbn [forallb_fields snd] in *.
    by rewrite Ht.
Qed.

Section read.
Context (extra_cap : Z → Z → nat) (implements : ty → nat → bool) {TC : TypeCodec} {TL : TypeCodecLaws extra_cap implements TC}.
Context (tags : list bytes).

Notation enc := (encoding tags).
Notation well := (typed (implements := implements) tags).
Notation unm := (unmarshal tags).
Notation fil := (fill (captured tags)).

(** Unfolding [unmarshal]. *)
Lemma unm_num fuel s w stack d p :
  unm fuel (TNum s w) stack d p = let? '(z, p) := lift (unpack_num w p) in let? p := check p in Ok (VNum (of_bits s w z), p).
Proof. by destruct fuel. Qed.
Lemma unm_bool fuel stack d p : unm fuel TBool stack d p = let? '(b, p) := lift (UnpackBool p) in let? p := check p in Ok (VBool b, p).
Proof. by destruct fuel. Qed.
Lemma unm_string fuel stack d p : unm fuel TString stack d p = let? '(s, p) := lift (UnpackStr p) in let? p := check p in Ok (VStr s, p).
Proof. by destruct fuel. Qed.
Lemma unm_ptr fuel t stack d p : unm fuel (TPtr t) stack d p = let? '(v, p) := unm fuel t stack (zero t) p in Ok (VPtr v, p).
Proof. by destruct fuel. Qed.
Lemma unm_iface fuel i stack d p :
  unm (Datatypes.S fuel) (TIface i) stack d p
  = let? '(u, p) := UnpackPrefix p i in
    if bool_decide (u ∈ stack) then Err ErrRecursiveInterfaceTypes
    else let? '(v, p) := unm fuel u (u :: stack) (zero u) p in Ok (VIface u v, p).
Proof. done. Qed.
Lemma unm_slice fuel t stack d p :
  unm fuel (TSlice t) stack d p
  = let? '(numElts, p) := lift (UnpackInt p) in
    let? p := check p in
    if numElts >? MaxInt32 then Err ErrMaxSliceLenExceeded
    else if is_byte t then
      let? '(bs, p) := lift (UnpackFixedBytes p numElts) in let? p := check p in Ok (VSeq (VNum <$> bs), p)
    else let? '(vs, p) := unmarshal_elems (unm fuel t stack (zero t)) (Z.to_nat numElts) p in Ok (VSeq vs, p).
Proof. by destruct fuel. Qed.
Lemma unm_array fuel n t stack ds p :
  unm fuel (TArray n t) stack (VSeq ds) p
  = if is_byte t then
      let? '(bs, p) := lift (UnpackFixedBytes p (Z.of_nat n)) in let? p := check p in Ok (VSeq (VNum <$> bs), p)
    else let? '(vs, p) := unmarshal_into (unm fuel t stack) ds p in Ok (VSeq vs, p).
Proof. by destruct fuel. Qed.
Lemma unm_struct fuel name fs stack ds p :
  unm fuel (TStruct name fs) stack (VStruct ds) p
  = let? _ := GetSerializedFields tags fs in
    let? '(vs, p) := unmarshal_fields tags (λ t d, unm fuel t stack d) fs ds p in Ok (VStruct vs, p).
Proof. by destruct fuel. Qed.
Lemma unm_map fuel tk tv stack d p :
  unm fuel (TMap tk tv) stack d p
  = let? '(numElts, p) := lift (UnpackInt p) in
    let? p := check p in
    if numElts >? MaxInt32 then Err ErrMaxSliceLenExceeded
    else
      let? '(kvs, p) :=
        unmarshal_entries (λ k, hashable k tk) (unm fuel tk stack (zero tk)) (unm fuel tv stack (zero tv)) (Z.to_nat numElts) None p in
      Ok (VMap kvs, p).
Proof. by destruct fuel. Qed.

Lemma typed_zero t : well (zero t) t.
Proof using.
  induction t as [s w| | |t IH|i|t IH|n t IH|name fs IH|k v IHk IHv|k] using ty_ind'; try done.
  - destruct s, w; done.
  - constructor.
  - apply typed_array. split; [apply length_replicate|]. by apply Forall_replicate.
  - apply typed_struct. induction IH as [|[fi t] fs Ht _ IHfs]; [done|]. by split.
Qed.

Lemma of_bits_mod s w z : num_range s w z → of_bits s w (z mod 2 ^ wbits w) = z.
Proof using.
  unfold num_range, of_bits. assert (2 ^ wbits w = 2 * 2 ^ (wbits w - 1)) as Ew by (by destruct w).
  assert (0 < 2 ^ (wbits w - 1)) as Hpos by (by destruct w). rewrite Ew. set (h := 2 ^ (wbits w - 1)) in *. destruct s; simpl; intros Hz.
  - destruct (Z.ltb_spec z 0).
    + rewrite <- (Z.mod_add z 1) by lia. rewrite Z.mod_small by lia. rewrite (proj2 (Z.leb_le _ _)) by lia. lia.
    + rewrite Z.mod_small by lia. rewrite (proj2 (Z.leb_gt _ _)) by lia. done.
  - by rewrite Z.mod_small by lia.
Qed.

Definition enough (fuel : nat) (stack : list ty) : Prop :=
  NoDup stack ∧ stack ⊆ registered ∧ (length registered < fuel + length stack)%nat.

(** A further registered type leaves fuel for it. *)
Lemma enough_push fuel stack u :
  enough fuel stack → u ∈ registered → u ∉ stack → ∃ fuel', fuel = Datatypes.S fuel' ∧ enough fuel' (u :: stack).
Proof using.
  intros (Hnd & Hsub & Hlen) Hu Hn. assert (NoDup (u :: stack)) as Hnd' by (by constructor).
  assert (u :: stack ⊆ registered) as Hsub' by (intros x [->|Hx]%elem_of_cons; [done|by apply Hsub]).
  assert (length (u :: stack) ≤ length registered)%nat as Hl.
  { apply submseteq_length, NoDup_submseteq; done. }
  simpl in Hl. destruct fuel as [|fuel]; [lia|]. exists fuel. split; [done|]. split_and!; [done|done|simpl; lia].
Qed.

(** A type that is safe to read: hashing a key of its maps, and of those of the registered
    types, cannot panic. *)
Definition all_comparable : Prop := ∀ u, u ∈ registered → comparable u = true.
Definition safe (t : ty) : Prop :=
  all_comparable ∨ (plain_maps t = true ∧ ∀ u, u ∈ registered → plain_maps u = true).

Lemma safe_fields name fs : safe (TStruct name fs) → Forall (λ f, safe f.2) fs.
Proof using.
  intros [H|[H Hreg]]; [apply Forall_true; intros; by left|]. apply forallb_Forall' in H. eapply Forall_impl; [exact H|].
  intros f Hf. right. by split.
Qed.

Lemma safe_key tk tv : safe (TMap tk tv) → (all_comparable ∨ plain_key tk = true) ∧ safe tk ∧ safe tv.
Proof using.
  intros [H|[[[H1 H2]%andb_true_iff H3]%andb_true_iff Hreg]]; [split_and!; by left|].
  split_and!; by right.
Qed.

Lemma safe_registered t u : safe t → u ∈ registered → safe u.
Proof using. intros [H|[_ H]] Hu; [by left|right]. split; [by apply H|done]. Qed.

Lemma plain_hashable v t : well v t → plain_key t = true → hashable v t = true.
Proof using.
  revert v. induction t as [s w| | |t IH|i|t IH|n t IH|name fs IH|k v IHk IHv|k] using ty_ind'; intros x Hx Hp;
    destruct x as [| | | | | |vs|vs|]; try done.
  - apply typed_array in Hx as [_ Hx]. apply forallb_Forall'. eapply Forall_impl; [exact Hx|]. auto.
  - cbn [hashable]. apply forallb_Forall' in Hp. change (all_fields well vs fs) in Hx. revert vs Hx.
    induction IH as [|[fi t] fs Ht _ IHfs]; intros [|v vs] Hx; try done. destruct Hx as [Hv Hvs]. rewrite Forall_cons in Hp. destruct Hp as [Hpt Hp].
    cbn [forallb_fields snd] in *. by rewrite Ht, IHfs.
Qed.

(** The fields that are not serialized do not make a value unhashable. *)
Lemma fill_hashable v t dest : hashable v t = true → hashable dest t = true → hashable (fil v t dest) t = true.
Proof using.
  revert t dest. induction v as [z|b|s| |v IH|u v IH|vs IH|vs IH|kvs IH] using val_ind'; intros t dest Hv Hd; destruct t; try done.
  - cbn [hashable fill] in *. apply andb_true_iff in Hv as [-> Hv]. cbn [andb]. apply IH; [done|apply hashable_zero].
  - destruct dest as [| | | | | |ds| |]; try done. cbn [hashable fill] in *. apply forallb_Forall' in Hv, Hd. apply forallb_Forall'.
    revert ds Hd. induction IH as [|v vs Hi _ IHvs]; intros [|d ds] Hd; try by constructor. rewrite Forall_cons in Hv; rewrite Forall_cons in Hd. cbn [zip_with].
    destruct Hv as [Hv Hvs], Hd as [Hd Hds]. constructor; [by apply Hi|]. by apply IHvs.
  - destruct dest as [| | | | | | |ds|]; try done. cbn [hashable fill] in *. revert fs ds Hv Hd.
    induction IH as [|v vs Hi _ IHvs]; intros [|[fi t] fs] [|d ds] Hv Hd; try done. cbn [forallb_fields fill_fields] in *.
    apply andb_true_iff in Hv as [Hv Hvs], Hd as [Hd Hds]. destruct (captured tags fi); rewrite ?Hi, ?Hd; try done; by apply IHvs.
Qed.

(** ** Reading back an encoding *)

Lemma elems_at (read : reader_t) (g : val → option bytes) (f : val → val) vs es p :
  (∀ v e p, v ∈ vs → g v = Some e → next_bytes p e → read p = Ok (f v, advance p (Z.of_nat (length e)))) →
  all_some (g <$> vs) = Some es → existsb is_nil es = false → next_bytes p (concat es) →
  unmarshal_elems read (length vs) p = Ok (f <$> vs, advance p (Z.of_nat (length (concat es)))).
Proof using.
  intros Hr. rewrite all_some_Some. revert es p. induction vs as [|v vs IH]; intros [|e es] p; try done.
  { intros _ _ _. simpl. by rewrite advance_zero. }
  rewrite !fmap_cons. intros [= Hv Hl] Hne Hn. cbn [existsb concat] in *. apply orb_false_iff in Hne as [He Hne].
  apply next_app in Hn as [Hn1 Hn2]. cbn [length unmarshal_elems]. rewrite (Hr v e p ltac:(apply list_elem_of_here) Hv Hn1). cbn [result_bind].
  assert (0 < Z.of_nat (length e)) by (destruct e; [done|simpl; lia]). rewrite (proj2 (Z.eqb_neq _ _)) by (simpl; lia).
  rewrite (IH (λ v e p Hin, Hr v e p (list_elem_of_further _ _ _ Hin)) es _ Hl Hne Hn2). cbn [result_bind].
  by rewrite advance_add, length_app, Nat2Z.inj_add.
Qed.

Lemma into_at (read : val → reader_t) (g : val → option bytes) (f : val → val → val) (Q : val → Prop) vs ds es p :
  (∀ v d e p, v ∈ vs → Q d → g v = Some e → next_bytes p e → read d p = Ok (f v d, advance p (Z.of_nat (length e)))) →
  length vs = length ds → Forall Q ds → all_some (g <$> vs) = Some es → next_bytes p (concat es) →
  unmarshal_into read ds p = Ok (zip_with f vs ds, advance p (Z.of_nat (length (concat es)))).
Proof using.
  intros Hr. rewrite all_some_Some. revert ds es p. induction vs as [|v vs IH]; intros [|d ds] [|e es] p; try done.
  { intros _ _ _ _. simpl. by rewrite advance_zero. }
  rewrite !fmap_cons, Forall_cons. intros Hlen [Hd Hds] [= Hv Hl] Hn. cbn [concat] in *. apply next_app in Hn as [Hn1 Hn2].
  cbn [unmarshal_into]. rewrite (Hr v d e p ltac:(apply list_elem_of_here) Hd Hv Hn1). cbn [result_bind].
  rewrite (IH (λ v d e p Hin, Hr v d e p (list_elem_of_further _ _ _ Hin)) ds es _ ltac:(simpl in Hlen; lia) Hds Hl Hn2). cbn [result_bind].
  by rewrite advance_add, length_app, Nat2Z.inj_add.
Qed.

Lemma fields_at (read : ty → val → reader_t) (g : val → ty → option bytes) (f : val → ty → val → val) (Q : val → ty → Prop) vs fs ds es p :
  (∀ v t d e p, v ∈ vs → Q v t → Q d t → g v t = Some e → next_bytes p e → read t d p = Ok (f v t d, advance p (Z.of_nat (length e)))) →
  all_fields Q vs fs → all_fields Q ds fs → all_some (serialized tags g None vs fs) = Some es → next_bytes p (concat es) →
  unmarshal_fields tags read fs ds p = Ok (fill_fields (captured tags) f vs fs ds, advance p (Z.of_nat (length (concat es)))).
Proof using.
  intros Hr. rewrite all_some_Some. revert fs ds es p. induction vs as [|v vs IH]; intros [|[fi t] fs] [|d ds] es p; try done.
  { intros _ _ He _. destruct es; [|done]. simpl. by rewrite advance_zero. }
  intros [Hv Hvs] [Hd Hds]. specialize (IH (λ v t d e p Hin, Hr v t d e p (list_elem_of_further _ _ _ Hin)) fs ds).
  cbn [serialized unmarshal_fields fill_fields]. destruct (captured tags fi).
  - destruct es as [|e es]; [done|]. rewrite fmap_cons. intros [= Ev Hl] Hn. cbn [concat] in *. apply next_app in Hn as [Hn1 Hn2].
    rewrite (Hr v t d e p ltac:(apply list_elem_of_here) Hv Hd Ev Hn1). cbn [result_bind].
    change (unmarshal_fields tags read) with (unmarshal_fields tags read) in *. rewrite (IH es _ Hvs Hds Hl Hn2). cbn [result_bind].
    by rewrite advance_add, length_app, Nat2Z.inj_add.
  - intros Hl Hn. by rewrite (IH es _ Hvs Hds Hl Hn).
Qed.

Lemma entries_at (canHash : val → bool) (readKey readValue : reader_t) (gk gv : val → option bytes) (fk fv : val → val) kvs es prev p :
  Forall (λ kv, canHash (fk kv.1) = true) kvs →
  (∀ kv e p, kv ∈ kvs → gk kv.1 = Some e → next_bytes p e → readKey p = Ok (fk kv.1, advance p (Z.of_nat (length e)))) →
  (∀ kv e p, kv ∈ kvs → gv kv.2 = Some e → next_bytes p e → readValue p = Ok (fv kv.2, advance p (Z.of_nat (length e)))) →
  all_some (pair_enc (λ kv, gk kv.1) (λ kv, gv kv.2) <$> kvs) = Some es → existsb (λ e, is_nil (e.1 ++ e.2)) es = false →
  StronglySorted (λ a b : bytes * bytes, bytes_lt a.1 b.1 = true) es → match prev, es with Some b, e :: _ => bytes_lt b e.1 = true | _, _ => True end →
  next_bytes p (concat ((λ e, e.1 ++ e.2) <$> es)) →
  unmarshal_entries canHash readKey readValue (length kvs) prev p
  = Ok ((λ kv, (fk kv.1, fv kv.2)) <$> kvs, advance p (Z.of_nat (length (concat ((λ e, e.1 ++ e.2) <$> es))))).
Proof using.
  intros Hh Hk Hv. rewrite all_some_Some. revert es prev p. induction kvs as [|kv kvs IH]; intros [|[ek ev] es] prev p; try done.
  { intros _ _ _ _ _. simpl. by rewrite advance_zero. }
  rewrite !fmap_cons. intros [= Ep Hl] Hne Hs Hprev Hn. cbn [existsb concat fst snd] in *. apply orb_false_iff in Hne as [He Hne].
  unfold pair_enc in Ep. destruct (gk kv.1) as [a|] eqn:Ea; cbn in Ep; [|done]. destruct (gv kv.2) as [b|] eqn:Eb; cbn in Ep; [|done]. injection Ep as -> ->.
  apply next_app in Hn as [Hn1 Hn2]. pose proof Hn1 as Hn0. apply next_app in Hn1 as [Hnk Hnv].
  cbn [length unmarshal_entries]. rewrite (Hk kv ek p ltac:(apply list_elem_of_here) Ea Hnk). cbn [result_bind].
  assert (slice (contents (advance p (Z.of_nat (length ek)))) (Offset p) (Offset (advance p (Z.of_nat (length ek)))) = ek) as Ekey.
  { destruct Hnk as (_ & _ & Ho & post & Ed). unfold slice. change (contents (advance _ _)) with (contents p). simpl.
    rewrite Ed, Z.add_simpl_l, Nat2Z.id. apply take_app_length. }
  rewrite Ekey. assert (match prev with Some prev => negb (bytes_lt prev ek) | None => false end = false) as ->.
  { destruct prev; [|done]. by rewrite Hprev. }
  rewrite (Hv kv ev _ ltac:(apply list_elem_of_here) Eb Hnv). cbn [result_bind].
  assert (0 < Z.of_nat (length (ek ++ ev))) by (destruct (ek ++ ev); [done|simpl; lia]). rewrite length_app in *.
  rewrite (proj2 (Z.eqb_neq _ _)) by (simpl; lia). apply StronglySorted_inv in Hs as [Hs Hall].
  rewrite Forall_cons in Hh. destruct Hh as [-> Hh]. cbn [negb].
  rewrite !advance_add, <- Nat2Z.inj_add in *.
  rewrite (IH Hh (λ kv e p Hin, Hk kv e p (list_elem_of_further _ _ _ Hin)) (λ kv e p Hin, Hv kv e p (list_elem_of_further _ _ _ Hin)) es (Some ek) _ Hl Hne Hs); [| |done].
  - cbn [result_bind]. rewrite advance_add, !length_app, !Nat2Z.inj_add. done.
  - destruct es as [|e es]; [done|]. rewrite Forall_cons in Hall. by destruct Hall.
Qed.

(** The keys of an encoded map are sorted. *)
Lemma encoded_keys_sorted tk tv kvs stack es :
  sorted_keys ((λ kv, enc kv.1 tk []) <$> kvs) →
  all_some (pair_enc (λ kv : val * val, enc kv.1 tk stack) (λ kv, enc kv.2 tv stack) <$> kvs) = Some es →
  StronglySorted (λ a b : bytes * bytes, bytes_lt a.1 b.1 = true) es.
Proof using.
  rewrite all_some_Some. intros Hs He.
  assert (∀ i e, es !! i = Some e → ((λ kv : val * val, enc kv.1 tk []) <$> kvs) !! i = Some (Some e.1)) as Hi.
  { intros i e Hi. apply (f_equal (.!! i)) in He. rewrite !list_lookup_fmap, Hi in He. rewrite list_lookup_fmap.
    destruct (kvs !! i) as [kv|]; simpl in *; [|done]. injection He as He. unfold pair_enc in He.
    destruct (enc kv.1 tk stack) as [a|] eqn:Ea; simpl in He; [|done]. destruct (enc kv.2 tv stack); simpl in He; [|done]. injection He as <-.
    simpl. f_equal. eapply encoding_stack; [|exact Ea]. apply list_subseteq_nil. }
  clear He. assert (∀ i j a b, (i < j)%nat → es !! i = Some a → es !! j = Some b → bytes_lt a.1 b.1 = true) as Hlt by eauto.
  clear Hs Hi. induction es as [|e es IH]; [constructor|]. constructor.
  - apply IH. intros i j a b Hij Ha Hb. by apply (Hlt (Datatypes.S i) (Datatypes.S j)); [lia| |].
  - apply Forall_lookup. intros j b Hb. by apply (Hlt 0%nat (Datatypes.S j)); [lia| |].
Qed.

Lemma bytes_val vs : Forall (λ v, well v (TNum false W8)) vs → VNum <$> bytes_of vs = vs.
Proof using.
  induction 1 as [|v vs Hv _ IH]; [done|]. destruct v; try done. unfold bytes_of in *. rewrite !fmap_cons, IH. do 2 f_equal.
  apply Z.mod_small. exact Hv.
Qed.

Lemma bytes_fill vs ds : Forall (λ v, well v (TNum false W8)) vs → length vs = length ds → zip_with (λ v d, fil v (TNum false W8) d) vs ds = vs.
Proof using.
  intros H. revert ds. induction H as [|v vs Hv _ IH]; intros [|d ds] Hl; try done. simpl. rewrite IH by (simpl in Hl; lia). by destruct v.
Qed.

Lemma bytes_encoding vs stack es :
  Forall (λ v, well v (TNum false W8)) vs → all_some ((λ v, enc v (TNum false W8) stack) <$> vs) = Some es → concat es = bytes_of vs.
Proof using.
  intros H. rewrite (byte_elements extra_cap implements tags vs stack H). intros [= <-]. apply concat_singletons.
Qed.

Lemma length_bytes_of vs : length (bytes_of vs) = length vs.
Proof using. apply length_fmap. Qed.

Theorem unmarshal_at v t stack e fuel dest p :
  well v t → well dest t → enc v t stack = Some e → enough fuel stack → next_bytes p e →
  unm fuel t stack dest p = Ok (fil v t dest, advance p (Z.of_nat (length e))).
Proof using.
  revert t stack e fuel dest p. induction v as [z|b|s| |v IH|u v IH|vs IH|vs IH|kvs IH] using val_ind';
    intros t stack e fuel dest p Ht Hd He Hf Hn; destruct t; try done.
  - injection He as <-. rewrite unm_num. rewrite (unpack_num_at w p (z mod 2 ^ wbits w)); [|apply Z.mod_pos_bound; by destruct w|done].
    cbn [lift result_bind]. rewrite check_none by apply Hn. cbn [result_bind]. rewrite length_be_bytes, of_bits_mod by done. done.
  - injection He as <-. rewrite unm_bool. unfold UnpackBool, UnpackByte.
    assert (next_bytes p (be_bytes 1 (if b then 1 else 0))) as Hn' by (by destruct b).
    assert (unpack_number p 1 = Some (if b then 1 else 0, advance p 1)) as ->.
    { apply (unpack_num_at W8 p (if b then 1 else 0)); [by destruct b|done]. }
    cbn [mbind option_bind]. destruct b; simpl; rewrite check_none by apply Hn; done.
  - cbn [encoding] in He. case_match eqn:El; [|done]. apply (inj Some) in He as <-. apply Z.leb_le in El. unfold MaxStringLen in El.
    rewrite unm_string. unfold UnpackStr, UnpackShort, UnpackFixedBytes. apply next_app in Hn as [Hn1 Hn2]. rewrite length_be_bytes in Hn2.
    rewrite (unpack_num_at W16 p (Z.of_nat (length s)) ltac:(change (2 ^ wbits W16) with (2 ^ 16); lia) Hn1 : unpack_number p 2 = _).
    cbn [mbind option_bind]. change (wbytes W16) with 2%nat. rewrite (unpack_raw_next _ _ Hn2). cbn [lift result_bind]. rewrite check_none by apply Hn1. cbn [result_bind].
    rewrite advance_add, length_app, length_be_bytes. do 3 f_equal. simpl. lia.
  - rewrite unm_ptr. rewrite (IH t stack e fuel (zero t) p Ht (typed_zero t) He Hf Hn). done.
  - destruct Ht as [Himp Ht]. rewrite encoding_iface in He. case_bool_decide as Hu; [done|].
    destruct (prefix_of u) as [pre|] eqn:Ep; cbn [mbind option_bind] in He; [|done].
    destruct (enc v u (u :: stack)) as [e'|] eqn:Ee; cbn [mbind option_bind] in He; [|done]. apply (inj Some) in He as <-.
    destruct (enough_push fuel stack u Hf (prefix_registered _ _ Ep) Hu) as (fuel' & -> & Hf'). rewrite unm_iface.
    apply next_app in Hn as [Hn1 Hn2]. rewrite (UnpackPrefix_at p u i pre Ep Himp Hn1). cbn [result_bind]. rewrite bool_decide_false by done.
    rewrite (IH u (u :: stack) e' fuel' (zero u) _ Ht (typed_zero u) Ee Hf' Hn2). cbn [result_bind].
    by rewrite advance_add, length_app, Nat2Z.inj_add.
  - apply typed_slice in Ht. rewrite encoding_slice in He. destruct (Z.ltb_spec MaxInt32 (Z.of_nat (length vs))) as [?|Hm]; [done|]. unfold elems_encoding in He.
    destruct (all_some _) as [es|] eqn:Ees; cbn [mbind option_bind] in He; [|done].
    destruct (existsb is_nil es) eqn:En; cbn [mbind option_bind] in He; [done|]. apply (inj Some) in He as <-.
    apply next_app in Hn as [Hn1 Hn2]. unfold be_len in Hn2 at 1. rewrite length_be_bytes in Hn2. change (Z.of_nat 4) with 4 in Hn2.
    rewrite unm_slice, (unpack_int_at p vs Hm Hn1). cbn [lift result_bind]. rewrite check_none by apply Hn1. cbn [result_bind].
    rewrite Z.gtb_ltb, (proj2 (Z.ltb_ge _ _)) by done. rewrite length_app. unfold be_len. rewrite length_be_bytes. destruct (is_byte t) eqn:Eb.
    + destruct t as [[] []| | | | | | | | |]; try done. rewrite (bytes_encoding _ _ _ Ht Ees) in *. unfold UnpackFixedBytes. rewrite <- (length_bytes_of vs).
      rewrite (unpack_raw_next _ _ Hn2). cbn [lift result_bind]. rewrite check_none by apply Hn1. cbn [result_bind].
      rewrite bytes_val by done. rewrite advance_add. do 3 f_equal; [|lia].
      change (VSeq vs = VSeq ((λ v, fil v (TNum false W8) (VNum 0)) <$> vs)). f_equal. clear -Ht.
      induction Ht as [|v vs Hv _ IHl]; [done|]. rewrite fmap_cons, <- IHl. by destruct v.
    + rewrite Forall_forall in IH, Ht. rewrite Nat2Z.id.
      rewrite (elems_at _ (λ v, enc v t stack) (λ v, fil v t (zero t)) vs es); [| |done|done|done].
      * cbn [result_bind]. rewrite advance_add. do 3 f_equal. lia.
      * intros v e q Hv Hve Hq. apply IH; [done|by apply Ht|apply typed_zero|done|done|done].
  - apply typed_array in Ht as [Hlen Ht]. destruct dest as [| | | | | |ds| |]; try done. apply typed_array in Hd as [Hlend Hd].
    rewrite encoding_array in He. destruct (all_some _) as [es|] eqn:Ees; cbn [mbind option_bind] in He; [|done]. apply (inj Some) in He as <-.
    rewrite unm_array. change (fil (VSeq vs) (TArray n t) (VSeq ds)) with (VSeq (zip_with (λ v d, fil v t d) vs ds)). destruct (is_byte t) eqn:Eb.
    + destruct t as [[] []| | | | | | | | |]; try done. rewrite (bytes_encoding _ _ _ Ht Ees) in *. unfold UnpackFixedBytes. rewrite <- Hlen, <- (length_bytes_of vs).
      rewrite (unpack_raw_next _ _ Hn). cbn [lift result_bind]. rewrite check_none by apply Hn. cbn [result_bind].
      rewrite bytes_val, bytes_fill by (done || lia). done.
    + rewrite Forall_forall in IH, Ht. rewrite (into_at _ (λ v, enc v t stack) (λ v d, fil v t d) (λ d, well d t) vs ds es); [done| |lia|done|done|done].
      intros v d e q Hv Hwd Hve Hq. apply IH; [done|by apply Ht|done|done|done|done].
  - destruct dest as [| | | | | | |ds|]; try done. rewrite encoding_struct in He. rewrite unm_struct.
    change (fil (VStruct vs) (TStruct name fs) (VStruct ds)) with (VStruct (fill_fields (captured tags) (λ v t d, fil v t d) vs fs ds)).
    destruct (GetSerializedFields tags fs); [|done]. cbn [result_bind]. destruct (all_some _) as [es|] eqn:Ees; cbn [mbind option_bind] in He; [|done].
    apply (inj Some) in He as <-. rewrite Forall_forall in IH.
    rewrite (fields_at _ (λ v t, enc v t stack) (λ v t d, fil v t d) well vs fs ds es); [done| |done|done|done|done].
    intros v t d e q Hv Hwv Hwd Hve Hq. by apply IH.
  - apply typed_map in Ht as (Ht & Hs & Hh). rewrite encoding_map in He. destruct (Z.ltb_spec MaxInt32 (Z.of_nat (length kvs))) as [?|Hm]; [done|]. unfold map_encoding in He.
    destruct (all_some _) as [es|] eqn:Ees; cbn [mbind option_bind] in He; [|done].
    destruct (existsb _ es) eqn:En; cbn [mbind option_bind] in He; [done|]. apply (inj Some) in He as <-.
    pose proof (encoded_keys_sorted _ _ _ _ _ Hs Ees) as Hss.
    apply next_app in Hn as [Hn1 Hn2]. unfold be_len in Hn2 at 1. rewrite length_be_bytes in Hn2. change (Z.of_nat 4) with 4 in Hn2.
    rewrite unm_map, (unpack_int_at p kvs Hm Hn1). cbn [lift result_bind]. rewrite check_none by apply Hn1. cbn [result_bind].
    rewrite Z.gtb_ltb, (proj2 (Z.ltb_ge _ _)) by done. rewrite length_app. unfold be_len. rewrite length_be_bytes, Nat2Z.id. rewrite Forall_forall in IH, Ht.
    rewrite (entries_at _ _ _ (λ k, enc k t1 stack) (λ v, enc v t2 stack) (λ k, fil k t1 (zero t1)) (λ v, fil v t2 (zero t2)) kvs es None); [| | | |done|done|done|done|done].
    2: { eapply Forall_impl; [exact Hh|]. intros kv Hkv. apply fill_hashable; [done|apply hashable_zero]. }
    + cbn [result_bind]. rewrite advance_add. do 3 f_equal. lia.
    + intros kv e q Hkv Hve Hq. apply IH; [done|by apply Ht|apply typed_zero|done|done|done].
    + intros kv e q Hkv Hve Hq. apply IH; [done|by apply Ht|apply typed_zero|done|done|done].
Qed.

(** ** Reading anything *)

(** A result of reading a value of the type [t] into [dest]; a panic is excluded if the type is
    safe. *)
Definition ok_err (cond : Prop) (err : codec_error) : Prop := err ≠ CFuel ∧ (cond → err ≠ CPanic).

Definition sound (p : Packer) (t : ty) (stack : list ty) (dest : val) (r : result codec_error (val * Packer)) : Prop :=
  match r with
  | Ok (v, p') => well v t ∧ (all_comparable → hashable dest t = true → hashable v t = true)
      ∧ ∃ e, enc v t stack = Some e ∧ read_bytes p e p'
  | Err err => ok_err (safe t) err
  end.

Lemma ok_err_weaken (P Q : Prop) err : (Q → P) → ok_err P err → ok_err Q err.
Proof using. intros HPQ [H1 H2]. split; auto. Qed.

Lemma enough_fuel fuel stack : enough fuel stack → ∃ fuel', fuel = Datatypes.S fuel'.
Proof using.
  intros (Hnd & Hsub & Hlen). assert (length stack ≤ length registered)%nat by (by apply submseteq_length, NoDup_submseteq).
  destruct fuel; [lia|eauto].
Qed.

Lemma elems_sound (read : reader_t) t stack dest n p :
  (∀ p, reading p → sound p t stack dest (read p)) → reading p →
  match unmarshal_elems read n p with
  | Ok (vs, p') => length vs = n ∧ Forall (λ v, well v t) vs
      ∧ ∃ es, all_some ((λ v, enc v t stack) <$> vs) = Some es ∧ existsb is_nil es = false ∧ read_bytes p (concat es) p'
  | Err err => ok_err (safe t) err
  end.
Proof using.
  intros Hr. revert p. induction n as [|n IH]; intros p Hp; cbn [unmarshal_elems].
  { split_and!; [done|done|]. exists []. split_and!; [done|done|by apply read_nil]. }
  pose proof (Hr p Hp) as Hs. destruct (read p) as [[v q]|err]; cbn [result_bind]; [|exact Hs]. destruct Hs as (Hv & _ & e & He & Hq).
  destruct (Z.eqb_spec (Offset p) (Offset q)) as [Eo|Eo]; [done|].
  specialize (IH q (read_reading _ _ _ Hp Hq)). destruct (unmarshal_elems read n q) as [[vs r]|err]; cbn [result_bind]; [|exact IH].
  destruct IH as (Hl & Hvs & es & Ees & Hne & Hr'). split_and!; [by simpl; f_equal|by constructor|]. exists (e :: es).
  rewrite fmap_cons. cbn [all_some]. rewrite He, Ees. split_and!; [done| |by eapply read_bytes_trans].
  simpl. apply orb_false_iff. split; [|done]. destruct e; [|done]. destruct Hq as [_ ->]. simpl in Eo. lia.
Qed.

Lemma into_sound (read : val → reader_t) t stack ds p :
  (∀ d p, well d t → reading p → sound p t stack d (read d p)) → Forall (λ d, well d t) ds → reading p →
  match unmarshal_into read ds p with
  | Ok (vs, p') => length vs = length ds ∧ Forall (λ v, well v t) vs
      ∧ (all_comparable → forallb (λ d, hashable d t) ds = true → forallb (λ v, hashable v t) vs = true)
      ∧ ∃ es, all_some ((λ v, enc v t stack) <$> vs) = Some es ∧ read_bytes p (concat es) p'
  | Err err => ok_err (safe t) err
  end.
Proof using.
  intros Hr Hds. revert p. induction Hds as [|d ds Hd _ IH]; intros p Hp; cbn [unmarshal_into].
  { split_and!; [done|done|done|]. exists []. split; [done|by apply read_nil]. }
  pose proof (Hr d p Hd Hp) as Hs. destruct (read d p) as [[v q]|err]; cbn [result_bind]; [|exact Hs]. destruct Hs as (Hv & Hh & e & He & Hq).
  specialize (IH q (read_reading _ _ _ Hp Hq)). destruct (unmarshal_into read ds q) as [[vs r]|err]; cbn [result_bind]; [|exact IH].
  destruct IH as (Hl & Hvs & Hhs & es & Ees & Hr'). split_and!; [by simpl; f_equal|by constructor| |].
  - intros Hall. cbn [forallb]. rewrite !andb_true_iff. intros [H1 H2]. split; auto.
  - exists (e :: es). rewrite fmap_cons. cbn [all_some]. rewrite He, Ees. split; [done|by eapply read_bytes_trans].
Qed.

Lemma fields_sound (read : ty → val → reader_t) stack fs ds p :
  Forall (λ f, ∀ d p, well d f.2 → reading p → sound p f.2 stack d (read f.2 d p)) fs → all_fields well ds fs → reading p →
  match unmarshal_fields tags read fs ds p with
  | Ok (vs, p') => all_fields well vs fs
      ∧ (all_comparable → forallb_fields hashable ds fs = true → forallb_fields hashable vs fs = true)
      ∧ ∃ es, all_some (serialized tags (λ v t, enc v t stack) None vs fs) = Some es ∧ read_bytes p (concat es) p'
  | Err err => ok_err (Forall (λ f, safe f.2) fs) err
  end.
Proof using.
  intros Hr. revert ds p. induction Hr as [|[fi t] fs Hr _ IH]; intros [|d ds] p Hds Hp; try done.
  { split; [done|]. split; [done|]. exists []. split; [done|by apply read_nil]. }
  destruct Hds as [Hd Hds]. cbn [unmarshal_fields]. destruct (captured tags fi) eqn:Ec.
  - pose proof (Hr d p Hd Hp) as Hs. cbn [snd] in Hs.
    destruct (read t d p) as [[v q]|err]; cbn [result_bind]; [|eapply ok_err_weaken; [|exact Hs]; by intros [? _]%Forall_cons].
    destruct Hs as (Hv & Hh & e & He & Hq).
    specialize (IH ds q Hds (read_reading _ _ _ Hp Hq)). fold (unmarshal_fields tags read) in *.
    destruct (unmarshal_fields tags read fs ds q) as [[vs r]|err]; cbn [result_bind]; [|eapply ok_err_weaken; [|exact IH]; by intros [_ ?]%Forall_cons].
    destruct IH as (Hvs & Hhs & es & Ees & Hr'). split; [done|]. split.
    + intros Hall. cbn [forallb_fields]. rewrite !andb_true_iff. intros [H1 H2]. split; auto.
    + exists (e :: es). cbn [serialized]. rewrite Ec. cbn [all_some]. rewrite He, Ees. split; [done|by eapply read_bytes_trans].
  - specialize (IH ds p Hds Hp). fold (unmarshal_fields tags read) in *.
    destruct (unmarshal_fields tags read fs ds p) as [[vs r]|err]; cbn [result_bind]; [|eapply ok_err_weaken; [|exact IH]; by intros [_ ?]%Forall_cons].
    destruct IH as (Hvs & Hhs & es & Ees & Hr'). split; [done|]. split.
    + intros Hall. cbn [forallb_fields]. rewrite !andb_true_iff. intros [H1 H2]. split; auto.
    + exists es. cbn [serialized]. rewrite Ec. done.
Qed.

Lemma read_slice p e p' : read_bytes p e p' → slice (contents p') (Offset p) (Offset p') = e.
Proof using.
  intros [(_ & _ & Ho & post & Ed) ->]. unfold slice. change (contents (advance _ _)) with (contents p). simpl.
  rewrite Ed, Z.add_simpl_l, Nat2Z.id. apply take_app_length.
Qed.

Lemma entries_sound (readKey readValue : reader_t) tk tv stack dv n prev p :
  (∀ p, reading p → sound p tk stack (zero tk) (readKey p)) → (∀ p, reading p → sound p tv stack dv (readValue p)) → reading p →
  match unmarshal_entries (λ k, hashable k tk) readKey readValue n prev p with
  | Ok (kvs, p') => length kvs = n ∧ Forall (λ kv, well kv.1 tk ∧ well kv.2 tv) kvs ∧ Forall (λ kv, hashable kv.1 tk = true) kvs
      ∧ ∃ es, all_some (pair_enc (λ kv, enc kv.1 tk stack) (λ kv, enc kv.2 tv stack) <$> kvs) = Some es
        ∧ existsb (λ e, is_nil (e.1 ++ e.2)) es = false ∧ StronglySorted (λ a b : bytes * bytes, bytes_lt a.1 b.1 = true) es
        ∧ match prev with Some b => Forall (λ e, bytes_lt b e.1 = true) es | None => True end
        ∧ read_bytes p (concat ((λ e, e.1 ++ e.2) <$> es)) p'
  | Err err => ok_err (safe (TMap tk tv)) err
  end.
Proof using.
  intros Hk Hv. revert prev p. induction n as [|n IH]; intros prev p Hp; cbn [unmarshal_entries].
  { split_and!; [done|done|done|]. exists []. split_and!; [done|done|constructor|by destruct prev|by apply read_nil]. }
  pose proof (Hk p Hp) as Hs.
  destruct (readKey p) as [[k q]|err]; cbn [result_bind]; [|eapply ok_err_weaken; [|exact Hs]; by intros (_ & ? & _)%safe_key].
  destruct Hs as (Hwk & Hhk & ek & Eek & Hq).
  rewrite (read_slice _ _ _ Hq). destruct (match prev with Some _ => _ | None => _ end) eqn:Eprev; [done|].
  pose proof (read_reading _ _ _ Hp Hq) as Hrq. pose proof (Hv q Hrq) as Hs.
  destruct (readValue q) as [[v r]|err]; cbn [result_bind]; [|eapply ok_err_weaken; [|exact Hs]; by intros (_ & _ & ?)%safe_key].
  destruct Hs as (Hwv & _ & ev & Eev & Hr).
  destruct (Z.eqb_spec (Offset p) (Offset r)) as [Eo|Eo]; [done|]. pose proof (read_bytes_trans _ _ _ _ _ Hq Hr) as Hpr.
  destruct (hashable k tk) eqn:Ehash; cbn [negb].
  2: { split; [done|]. intros [[Hall|Hplain] _]%safe_key; exfalso.
       - discriminate (Hhk Hall (hashable_zero tk)).
       - rewrite (plain_hashable k tk Hwk Hplain) in Ehash. done. }
  specialize (IH (Some ek) r (read_reading _ _ _ Hrq Hr)). destruct (unmarshal_entries _ readKey readValue n (Some ek) r) as [[kvs r']|err]; cbn [result_bind]; [|exact IH].
  destruct IH as (Hl & Hkvs & Hhash & es & Ees & Hne & Hss & Hall & Hr'). split_and!; [by simpl; f_equal|by constructor|by constructor|]. exists ((ek, ev) :: es).
  rewrite fmap_cons. unfold pair_enc at 1. cbn [all_some fst snd]. rewrite Eek, Eev. cbn [mbind option_bind]. rewrite Ees. split_and!.
  - done.
  - simpl. apply orb_false_iff. split; [|done]. destruct (ek ++ ev) eqn:En; [|done]. destruct Hpr as [_ ->]. simpl in Eo. lia.
  - by constructor.
  - destruct prev as [b|]; [|done]. apply negb_false_iff in Eprev. constructor; [done|]. eapply Forall_impl; [exact Hall|].
    intros e He. by eapply bytes_lt_trans.
  - rewrite fmap_cons. cbn [concat fst snd]. by eapply read_bytes_trans.
Qed.

Lemma read_keys_sorted tk tv kvs stack es :
  all_some (pair_enc (λ kv : val * val, enc kv.1 tk stack) (λ kv, enc kv.2 tv stack) <$> kvs) = Some es →
  StronglySorted (λ a b : bytes * bytes, bytes_lt a.1 b.1 = true) es → sorted_keys ((λ kv, enc kv.1 tk []) <$> kvs).
Proof using.
  rewrite all_some_Some. intros He Hs.
  assert (∀ i a, ((λ kv : val * val, enc kv.1 tk []) <$> kvs) !! i = Some (Some a) → ∃ b, es !! i = Some (a, b)) as Hi.
  { intros i a Hi. rewrite list_lookup_fmap in Hi. apply (f_equal (.!! i)) in He. rewrite !list_lookup_fmap in He.
    destruct (kvs !! i) as [kv|]; simpl in *; [|done]. destruct (es !! i) as [[x y]|]; simpl in *; [|done]. injection He as He. injection Hi as Hi.
    unfold pair_enc in He. destruct (enc kv.1 tk stack) as [a'|] eqn:Ea; simpl in He; [|done].
    destruct (enc kv.2 tv stack); simpl in He; [|done]. injection He as -> ->.
    assert (enc kv.1 tk [] = Some x) as Ea' by (eapply encoding_stack; [apply list_subseteq_nil|exact Ea]). exists y. congruence. }
  intros i j a b Hij Ha Hb. destruct (Hi i a Ha) as [a' Ha'], (Hi j b Hb) as [b' Hb']. clear -Hs Hij Ha' Hb'.
  revert i j Hij Ha' Hb'. induction Hs as [|e es _ IH Hall]; intros i j Hij Ha Hb; [done|].
  destruct j as [|j]; [lia|]. destruct i as [|i]; simpl in *.
  - injection Ha as ->. rewrite Forall_lookup in Hall. by specialize (Hall j _ Hb).
  - eapply (IH i j); [lia|done|done].
Qed.

Lemma of_bits_range s w z : 0 ≤ z < 2 ^ wbits w → num_range s w (of_bits s w z) ∧ of_bits s w z mod 2 ^ wbits w = z.
Proof using.
  unfold num_range, of_bits. assert (2 ^ wbits w = 2 * 2 ^ (wbits w - 1)) as Ew by (by destruct w).
  assert (0 < 2 ^ (wbits w - 1)) as Hpos by (by destruct w). rewrite Ew. set (h := 2 ^ (wbits w - 1)) in *. intros Hz. destruct s; simpl.
  - destruct (Z.leb_spec h z); (split; [lia|]).
    + rewrite <- (Z.mod_add _ 1) by lia. rewrite Z.mod_small by lia. lia.
    + by rewrite Z.mod_small by lia.
  - split; [done|]. by rewrite Z.mod_small by lia.
Qed.

Lemma bytes_sound bs stack :
  bytes_ok bs → Forall (λ v, well v (TNum false W8)) (VNum <$> bs)
  ∧ all_some ((λ v, enc v (TNum false W8) stack) <$> (VNum <$> bs)) = Some ((λ b, [b]) <$> bs).
Proof using.
  intros Hb. assert (Forall (λ v, well v (TNum false W8)) (VNum <$> bs)) as Hw by (by apply Forall_fmap). split; [done|].
  rewrite (byte_elements extra_cap implements tags _ stack Hw). do 2 f_equal. unfold bytes_of. rewrite <- list_fmap_compose.
  clear Hw. induction Hb as [|b bs Hb _ IHb]; [done|]. rewrite fmap_cons, IHb. f_equal. by apply Z.mod_small.
Qed.

(** A length that was read is the number of elements. *)
Lemma be_len_read {A} (l : list A) n : 0 ≤ n → length l = Z.to_nat n → be_bytes 4 n = be_len l.
Proof using. intros Hn El. unfold be_len. rewrite El, Z2Nat.id by done. done. Qed.

Theorem unmarshal_sound fuel t stack dest p :
  enough fuel stack → well dest t → reading p → sound p t stack dest (unm fuel t stack dest p).
Proof using.
  revert t stack dest p. induction fuel as [|fuel IHf]; [intros t stack dest p He; by destruct (enough_fuel _ _ He)|].
  intros t. induction t as [s w| | |t IH|i|t IH|n t IH|name fs IH|tk tv IHk IHv|k] using ty_ind'; intros stack dest p He Hd Hp.
  - rewrite unm_num. destruct (unpack_num_any w p Hp) as (z & p' & -> & Hz). cbn [lift result_bind].
    destruct (check_cases p') as [[Hn ->]|[e ->]]; cbn [result_bind]; [|done]. destruct (Hz Hn) as [Hrange Hr].
    destruct (of_bits_range s w z Hrange) as [H1 H2]. split; [exact H1|]. split; [done|]. exists (be_bytes (wbytes w) z). split; [|done]. simpl. by rewrite H2.
  - rewrite unm_bool. assert (0 ≤ len p ≤ cap p) as Hl by apply Hp. destruct (unpack_bool_consumed p Hl) as (b & p' & -> & C). cbn [lift result_bind].
    destruct (check_cases p') as [[Hn ->]|[e ->]]; cbn [result_bind]; [|done]. destruct (consumed_read _ _ _ _ Hp C Hn) as [_ Hr].
    split; [done|]. split; [done|]. eexists. split; [done|]. by destruct b.
  - rewrite unm_string. unfold UnpackStr, UnpackShort, UnpackFixedBytes. assert (0 ≤ len p ≤ cap p) as Hl by apply Hp.
    destruct (unpack_prefixed_consumed p 2 2 eq_refl Hl) as (v & q & bs & p' & -> & E & _ & C). cbn [mbind option_bind]. rewrite E. cbn [lift result_bind].
    destruct (check_cases p') as [[Hn ->]|[e ->]]; cbn [result_bind]; [|done]. destruct (consumed_read _ _ _ _ Hp C Hn) as [(Hb & Hlen & _) Hr].
    split; [exact Hb|]. split; [done|]. eexists. split; [|exact Hr]. cbn [encoding]. rewrite (proj2 (Z.leb_le _ _)) by (unfold MaxStringLen; lia). done.
  - rewrite unm_ptr. specialize (IH stack (zero t) p He (typed_zero t) Hp). destruct (unm (Datatypes.S fuel) t stack (zero t) p) as [[v p']|err]; [|exact IH].
    destruct IH as (Hv & _ & He'). by split_and!.
  - rewrite unm_iface. pose proof (UnpackPrefix_sound p i Hp) as Hs. destruct (UnpackPrefix p i) as [[u q]|err]; cbn [result_bind]; [|by destruct Hs].
    destruct Hs as (Himp & pre & Ep & Hq). case_bool_decide as Hu; [done|].
    destruct (enough_push _ stack u He (prefix_registered _ _ Ep) Hu) as (fuel' & [= <-] & He').
    specialize (IHf u (u :: stack) (zero u) q He' (typed_zero u) (read_reading _ _ _ Hp Hq)).
    destruct (unm fuel u (u :: stack) (zero u) q) as [[v p']|err]; cbn [result_bind].
    2: { eapply ok_err_weaken; [|exact IHf]. intros Hsafe. eapply safe_registered; [exact Hsafe|by eapply prefix_registered]. }
    destruct IHf as (Hv & Hh & e & Ee & Hr). split; [done|]. split.
    { intros Hall _. cbn [hashable]. rewrite (Hall u) by (by eapply prefix_registered). apply Hh; [done|apply hashable_zero]. }
    exists (pre ++ e). rewrite encoding_iface, bool_decide_false by done. rewrite Ep. cbn [mbind option_bind].
    rewrite Ee. split; [done|by eapply read_bytes_trans].
  - rewrite unm_slice. destruct (unpack_num_any W32 p Hp) as (n & q & En & Hn). change (unpack_num W32 p) with (UnpackInt p) in En. rewrite En. cbn [lift result_bind].
    destruct (check_cases q) as [[Hq ->]|[e ->]]; cbn [result_bind]; [|done]. destruct (Hn Hq) as [Hrange Hrq]. pose proof (read_reading _ _ _ Hp Hrq) as Hpq.
    rewrite Z.gtb_ltb. destruct (Z.ltb_spec MaxInt32 n) as [|Hm]; [done|]. destruct (is_byte t) eqn:Eb.
    + destruct t as [[] []| | | | | | | | |]; try done. unfold UnpackFixedBytes. destruct (unpack_raw_any q n Hpq) as (bs & r & -> & Hbs). cbn [lift result_bind].
      destruct (check_cases r) as [[Hr ->]|[e ->]]; cbn [result_bind]; [|done]. destruct (Hbs Hr) as (Hb & Hlen & Hrr).
      destruct (bytes_sound bs stack Hb) as [Hw Eall]. split; [by apply typed_slice|]. split; [done|]. exists (be_bytes 4 n ++ bs). split; [|by eapply read_bytes_trans].
      rewrite encoding_slice, length_fmap, (proj2 (Z.ltb_ge _ _)) by lia. unfold elems_encoding. rewrite Eall. cbn [mbind option_bind].
      destruct (concat_singletons bs) as [-> ->]. cbn [mbind option_bind]. rewrite (be_len_read (VNum <$> bs) n); [done|lia|rewrite length_fmap; lia].
    + pose proof (elems_sound (unm (Datatypes.S fuel) t stack (zero t)) t stack (zero t) (Z.to_nat n) q ltac:(intros; apply IH; [done|apply typed_zero|done]) Hpq) as Hs.
      destruct (unmarshal_elems _ _ q) as [[vs r]|err]; cbn [result_bind]; [|exact Hs]. destruct Hs as (Hlen & Hvs & es & Ees & Hne & Hr).
      split; [by apply typed_slice|]. split; [done|]. exists (be_bytes 4 n ++ concat es). split; [|by eapply read_bytes_trans].
      rewrite encoding_slice, (proj2 (Z.ltb_ge _ _)) by lia. unfold elems_encoding. rewrite Ees. cbn [mbind option_bind]. rewrite Hne. cbn [mbind option_bind].
      rewrite (be_len_read vs n) by lia. done.
  - destruct dest as [| | | | | |ds| |]; try done. apply typed_array in Hd as [Hlen Hd]. rewrite unm_array. destruct (is_byte t) eqn:Eb.
    + destruct t as [[] []| | | | | | | | |]; try done. unfold UnpackFixedBytes. destruct (unpack_raw_any p (Z.of_nat n) Hp) as (bs & r & -> & Hbs). cbn [lift result_bind].
      destruct (check_cases r) as [[Hr ->]|[e ->]]; cbn [result_bind]; [|done]. destruct (Hbs Hr) as (Hb & Hlenb & Hrr).
      destruct (bytes_sound bs stack Hb) as [Hw Eall]. split; [apply typed_array; split; [rewrite length_fmap; lia|done]|].
      split; [intros _ _; apply forallb_Forall', Forall_fmap, Forall_true; by intros|]. exists bs. split; [|done].
      rewrite encoding_array, Eall. cbn [mbind option_bind]. by destruct (concat_singletons bs) as [-> _].
    + pose proof (into_sound (unm (Datatypes.S fuel) t stack) t stack ds p ltac:(intros; by apply IH) Hd Hp) as Hs.
      destruct (unmarshal_into _ ds p) as [[vs r]|err]; cbn [result_bind]; [|exact Hs]. destruct Hs as (Hlenv & Hvs & Hh & es & Ees & Hr).
      split; [apply typed_array; split; [lia|done]|]. split; [exact Hh|]. exists (concat es). rewrite encoding_array, Ees. done.
  - destruct dest as [| | | | | | |ds|]; try done. rewrite unm_struct. destruct (GetSerializedFields tags fs) as [l|err] eqn:Eg; cbn [result_bind].
    + pose proof (fields_sound (λ t d, unm (Datatypes.S fuel) t stack d) stack fs ds p) as Hs.
      specialize (Hs ltac:(eapply Forall_impl; [exact IH|]; intros f Hf d q Hwd Hq; by apply Hf) Hd Hp).
      destruct (unmarshal_fields tags _ fs ds p) as [[vs r]|err]; cbn [result_bind]; [|eapply ok_err_weaken; [apply safe_fields|exact Hs]].
      destruct Hs as (Hvs & Hh & es & Ees & Hr). split; [done|]. split; [exact Hh|]. exists (concat es). rewrite encoding_struct, Eg, Ees. done.
    + assert (err = ErrUnexportedField) as ->; [|done]. revert Eg. clear. revert err. induction fs as [|[fi t] fs IH]; intros err; simpl; [done|].
      case_match; [by intros [= <-]|]. destruct (GetSerializedFields tags fs); simpl; [done|]. intros [= <-]. by apply IH.
  - rewrite unm_map. destruct (unpack_num_any W32 p Hp) as (n & q & En & Hn). change (unpack_num W32 p) with (UnpackInt p) in En. rewrite En. cbn [lift result_bind].
    destruct (check_cases q) as [[Hq ->]|[e ->]]; cbn [result_bind]; [|done]. destruct (Hn Hq) as [Hrange Hrq]. pose proof (read_reading _ _ _ Hp Hrq) as Hpq.
    rewrite Z.gtb_ltb. destruct (Z.ltb_spec MaxInt32 n) as [|Hm]; [done|].
    pose proof (entries_sound (unm (Datatypes.S fuel) tk stack (zero tk)) (unm (Datatypes.S fuel) tv stack (zero tv)) tk tv stack (zero tv) (Z.to_nat n) None q
      ltac:(intros; apply IHk; [done|apply typed_zero|done]) ltac:(intros; apply IHv; [done|apply typed_zero|done]) Hpq) as Hs.
    destruct (unmarshal_entries _ _ _ _ None q) as [[kvs r]|err]; cbn [result_bind]; [|exact Hs]. destruct Hs as (Hlen & Hkvs & Hhash & es & Ees & Hne & Hss & _ & Hr).
    split; [apply typed_map; split_and!; [done|by eapply read_keys_sorted|done]|]. split; [done|]. exists (be_bytes 4 n ++ concat ((λ e, e.1 ++ e.2) <$> es)). split; [|by eapply read_bytes_trans].
    rewrite encoding_map, (proj2 (Z.ltb_ge _ _)) by lia. unfold map_encoding. rewrite Ees. cbn [mbind option_bind]. rewrite Hne. cbn [mbind option_bind].
    rewrite (be_len_read kvs n) by lia. done.
  - by destruct fuel.
Qed.
End read.
