(* ===== verification/CodecManager.v ===== *)
(** * Codecs with registered types and versions

    Models [codec/linearcodec], [codec/hierarchycodec] and [codec/manager.go]: the two ways to
    identify the concrete types of interfaces, which both have the laws of a [TypeCodec], and
    the manager that chooses a codec by the version that precedes the encoding.  The theorems
    on the codec are stated for the manager and any codecs with the laws. *)

From S2P Require Import Prelude Database Packer Bimap Codec CodecWrite CodecSize CodecRead.

Open Scope Z_scope.

(** ** [linearcodec] *)

Record linearCodec := mkLinear { l_nextTypeID : Z; l_registeredTypes : BiMap (K := Z) (V := ty) }.

Definition linear_New : linearCodec := mkLinear 0 bimap_New.

Definition l_SkipRegistrations (c : linearCodec) (num : Z) : linearCodec :=
  mkLinear (u32 (l_nextTypeID c + u32 num)) (l_registeredTypes c).

Definition l_RegisterType (c : linearCodec) (valType : ty) : result codec_error linearCodec :=
  if HasValue (l_registeredTypes c) valType then Err ErrDuplicateType
  else Ok (mkLinear (u32 (l_nextTypeID c + 1)) (bimap_Put (l_registeredTypes c) (l_nextTypeID c) valType).1).

(** ** [hierarchycodec] *)

Record hierarchyCodec := mkHierarchy {
  h_currentGroupID : Z; h_nextTypeID : Z; h_registeredTypes : BiMap (K := Z * Z) (V := ty)
}.

Definition hierarchy_New : hierarchyCodec := mkHierarchy 0 0 bimap_New.

Definition h_SkipRegistrations (c : hierarchyCodec) (num : Z) : hierarchyCodec :=
  mkHierarchy (h_currentGroupID c) (u16 (h_nextTypeID c + u16 num)) (h_registeredTypes c).

Definition h_NextGroup (c : hierarchyCodec) : hierarchyCodec :=
  mkHierarchy (u16 (h_currentGroupID c + 1)) 0 (h_registeredTypes c).

Definition h_RegisterType (c : hierarchyCodec) (valType : ty) : result codec_error hierarchyCodec :=
  if HasValue (h_registeredTypes c) valType then Err ErrDuplicateType
  else
    let valTypeID := (h_currentGroupID c, h_nextTypeID c) in
    Ok (mkHierarchy (h_currentGroupID c) (u16 (h_nextTypeID c + 1)) (bimap_Put (h_registeredTypes c) valTypeID valType).1).

Section typers.
(** How a slice grows, and whether a type implements an interface. *)
Context (extra_cap : Z → Z → nat) (implements : ty → nat → bool).

Definition l_PackPrefix (c : linearCodec) (p : Packer) (valueType : ty) : result codec_error Packer :=
  match GetKey (l_registeredTypes c) valueType with
  | None => Err ErrUnregisteredType
  | Some typeID => let? p := lift (PackInt extra_cap p typeID) in check p
  end.

Definition l_UnpackPrefix (c : linearCodec) (p : Packer) (i : nat) : result codec_error (ty * Packer) :=
  let? '(typeID, p) := lift (UnpackInt p) in
  let? p := check p in
  match GetValue (l_registeredTypes c) typeID with
  | None => Err ErrUnknownTypeID
  | Some implementingType =>
      if negb (implements implementingType i) then Err ErrDoesNotImplementInterface else Ok (implementingType, p)
  end.

Definition linear_typer (c : linearCodec) : TypeCodec := {|
  PackPrefix := l_PackPrefix c; UnpackPrefix := l_UnpackPrefix c; PrefixSize := λ _, 4
|}.

Definition h_PackPrefix (c : hierarchyCodec) (p : Packer) (valueType : ty) : result codec_error Packer :=
  match GetKey (h_registeredTypes c) valueType with
  | None => Err ErrUnregisteredType
  | Some (groupID, typeID) =>
      let? p := lift (p ← PackShort extra_cap p groupID; PackShort extra_cap p typeID) in check p
  end.

Definition h_UnpackPrefix (c : hierarchyCodec) (p : Packer) (i : nat) : result codec_error (ty * Packer) :=
  let? '(groupID, p) := lift (UnpackShort p) in
  let? '(typeIDShort, p) := lift (UnpackShort p) in
  let? p := check p in
  match GetValue (h_registeredTypes c) (groupID, typeIDShort) with
  | None => Err ErrUnknownTypeID
  | Some implementingType =>
      if negb (implements implementingType i) then Err ErrDoesNotImplementInterface else Ok (implementingType, p)
  end.

Definition hierarchy_typer (c : hierarchyCodec) : TypeCodec := {|
  PackPrefix := h_PackPrefix c; UnpackPrefix := h_UnpackPrefix c; PrefixSize := λ _, 4
|}.

(** ** [codec.manager] *)

Record codec := mkCodec { c_tags : list bytes; c_typer : TypeCodec; c_types : nat }.
Record manager := mkManager { m_maxSize : Z; m_codecs : gmap Z codec }.

Context (map_range : ∀ A : Type, list A → list A).

Definition NewManager (maxSize : Z) : manager := mkManager maxSize ∅.

Definition RegisterCodec (m : manager) (version : Z) (c : codec) : result codec_error manager :=
  match m_codecs m !! version with
  | Some _ => Err ErrDuplicatedVersion
  | None => Ok (mkManager (m_maxSize m) (<[version := c]> (m_codecs m)))
  end.

Definition VersionSize : Z := 2.
Definition initialSliceCap : nat := 128.

Definition Size (m : manager) (version : Z) (v : val) (t : ty) : result codec_error Z :=
  match m_codecs m !! version with
  | None => Err ErrUnknownVersion
  | Some c => let? res := codec_Size (TC := c_typer c) (c_tags c) map_range v t in Ok (VersionSize + res)
  end.

Definition Marshal (m : manager) (version : Z) (v : val) (t : ty) : result codec_error bytes :=
  match m_codecs m !! version with
  | None => Err ErrUnknownVersion
  | Some c =>
      let p := mkPacker None (m_maxSize m) (replicate initialSliceCap 0) 0 0 in
      let? p := lift (PackShort extra_cap p version) in
      if Errored p then Err ErrCantPackVersion
      else
        let? p := MarshalInto extra_cap (TC := c_typer c) (c_tags c) map_range v t p in
        Ok (contents p)
  end.

(** The nesting of interfaces is bounded by the number of registered types. *)
Definition Unmarshal (m : manager) (bs : bytes) (t : ty) (dest : val) : result codec_error (Z * val) :=
  if Z.of_nat (length bs) >? m_maxSize m then Err ErrUnmarshalTooBig
  else
    let p := reader bs in
    let? '(version, p) := lift (UnpackShort p) in
    if Errored p then Err ErrCantUnpackVersion
    else
      match m_codecs m !! version with
      | None => Err ErrUnknownVersion
      | Some c =>
          let rest := drop (Z.to_nat (Offset p)) bs in
          let? v := codec_Unmarshal (TC := c_typer c) (c_tags c) (Datatypes.S (c_types c)) rest t dest in
          Ok (version, v)
      end.
End typers.

(** ** Both typers have the laws *)

Definition is_u32 (z : Z) : Prop := 0 ≤ z < 2 ^ 32.
Definition is_u16 (z : Z) : Prop := 0 ≤ z < 2 ^ 16.

Record linear_ok (c : linearCodec) : Prop := {
  lo_bimap : bimap_ok (l_registeredTypes c);
  lo_next : is_u32 (l_nextTypeID c);
  lo_ids : ∀ id t, pairs (l_registeredTypes c) id t → is_u32 id
}.

Record hierarchy_ok (c : hierarchyCodec) : Prop := {
  ho_bimap : bimap_ok (h_registeredTypes c);
  ho_next : is_u16 (h_currentGroupID c) ∧ is_u16 (h_nextTypeID c);
  ho_ids : ∀ id t, pairs (h_registeredTypes c) id t → is_u16 id.1 ∧ is_u16 id.2
}.

Lemma Put_pairs {K V} `{Countable K, Countable V} (m : BiMap (K := K) (V := V)) key val :
  bimap_ok m →
  bimap_ok (bimap_Put m key val).1
  ∧ ∀ k v, pairs (bimap_Put m key val).1 k v ↔ (k = key ∧ v = val) ∨ (pairs m k v ∧ k ≠ key ∧ v ≠ val).
Proof.
  intros Hok. unfold bimap_Put. pose proof (DeleteKey_spec m key Hok) as H1. destruct (DeleteKey m key) as [m1 r1]. destruct H1 as (Hok1 & -> & H1).
  pose proof (DeleteValue_spec m1 val Hok1) as H2. destruct (DeleteValue m1 val) as [m2 r2]. destruct H2 as (Hok2 & -> & H2). simpl.
  assert (∀ k v, pairs (mkBiMap (<[key := val]> (keyToValue m2)) (<[val := key]> (valueToKey m2))) k v
    ↔ (k = key ∧ v = val) ∨ (pairs m k v ∧ k ≠ key ∧ v ≠ val)) as Hp.
  { intros k v. unfold pairs at 1. simpl. rewrite lookup_insert_Some. fold (pairs m2 k v). rewrite H2, H1. naive_solver. }
  split; [|done]. intros k v. simpl. rewrite !lookup_insert_Some, <- (Hok2 k v). fold (pairs m2 k v). rewrite H2, H1. naive_solver.
Qed.

(** Every registration keeps the codecs well formed. *)
Lemma linear_registrations c :
  linear_ok c → (∀ num, linear_ok (l_SkipRegistrations c num))
  ∧ ∀ t c', l_RegisterType c t = Ok c' → linear_ok c'.
Proof.
  intros [Hb Hn Hi]. assert (∀ z, is_u32 (u32 z)) as Hu by (intros z; apply Z.mod_pos_bound; lia).
  split; [intros num; split; [done|apply Hu|done]|]. intros t c'. unfold l_RegisterType. case_match; [done|]. intros [= <-].
  destruct (Put_pairs _ (l_nextTypeID c) t Hb) as [Hb' Hp]. split; [done|apply Hu|]. intros id t' [[-> _]|[? _]]%Hp; [done|by eapply Hi].
Qed.

Lemma linear_New_ok : linear_ok linear_New.
Proof. split; [apply bimap_New_ok|done|]. intros id t H. unfold pairs in H. simpl in H. by rewrite lookup_empty in H. Qed.

Lemma hierarchy_New_ok : hierarchy_ok hierarchy_New.
Proof. split; [apply bimap_New_ok|done|]. intros id t H. unfold pairs in H. simpl in H. by rewrite lookup_empty in H. Qed.

Lemma hierarchy_registrations c :
  hierarchy_ok c → (∀ num, hierarchy_ok (h_SkipRegistrations c num)) ∧ hierarchy_ok (h_NextGroup c)
  ∧ ∀ t c', h_RegisterType c t = Ok c' → hierarchy_ok c'.
Proof.
  intros [Hb [Hg Hn] Hi]. assert (∀ z, is_u16 (u16 z)) as Hu by (intros z; apply Z.mod_pos_bound; lia).
  split; [intros num; split; [done|split; [done|apply Hu]|done]|]. split; [split; [done|split; [apply Hu|done]|done]|]. intros t c'. unfold h_RegisterType. case_match; [done|]. intros [= <-].
  destruct (Put_pairs _ (h_currentGroupID c, h_nextTypeID c) t Hb) as [Hb' Hp]. split; [done|split; [done|apply Hu]|].
  intros id t' [[-> _]|[? _]]%Hp; [done|by eapply Hi].
Qed.

Section laws.
Context (extra_cap : Z → Z → nat) (implements : ty → nat → bool).

Lemma value_registered {K} `{Countable K} (m : BiMap (K := K) (V := ty)) k t : pairs m k t → t ∈ (map_to_list (keyToValue m)).*2.
Proof. intros Hp. apply list_elem_of_fmap. exists (k, t). split; [done|]. by apply elem_of_map_to_list. Qed.

(** Two numbers in a row, checked at the end. *)
Lemma unpack_two_any p :
  reading p → ∃ a b q p', UnpackShort p = Some (a, q) ∧ UnpackShort q = Some (b, p')
    ∧ (Err_ p' = None → is_u16 a ∧ is_u16 b ∧ read_bytes p (be_bytes 2 a ++ be_bytes 2 b) p').
Proof.
  intros Hp. assert (0 ≤ len p ≤ cap p) as Hl by apply Hp.
  destruct (unpack_number_consumed p 2 2 eq_refl Hl) as (a & q & E1 & C1).
  destruct (unpack_number_consumed q 2 2 eq_refl) as (b & p' & E2 & C2). { by eapply same_slice_ok; [apply C1|]. }
  exists a, b, q, p'. split_and!; [done|done|]. intros He.
  destruct (consumed_read _ _ _ _ Hp (consumed_trans _ _ _ _ _ _ _ C1 C2) He) as [[? ?] ?]. done.
Qed.

#[local] Instance linear_laws c (Hc : linear_ok c) : TypeCodecLaws extra_cap implements (linear_typer extra_cap implements c).
Proof.
  refine {|
    prefix_of := λ t, id ← GetKey (l_registeredTypes c) t; Some (be_bytes 4 id);
    registered := (map_to_list (keyToValue (l_registeredTypes c))).*2
  |}; cbn [PackPrefix UnpackPrefix PrefixSize linear_typer hierarchy_typer].
  - intros t pre Hp. destruct (GetKey _ t) as [id|] eqn:E; [|done]. apply Hc in E. by eapply value_registered.
  - intros p t Hg. unfold l_PackPrefix. destruct (GetKey _ t) as [id|]; cbn [mbind option_bind]; [|by eexists]. by apply pack_raw_writes.
  - intros t pre Hp. destruct (GetKey _ t) as [id|]; [|done]. apply (inj Some) in Hp as <-. done.
  - intros p t i pre Hp Hi Hn. destruct (GetKey _ t) as [id|] eqn:E; [|done]. apply (inj Some) in Hp as <-. apply Hc in E. unfold l_UnpackPrefix.
    rewrite (unpack_num_at W32 p id (lo_ids _ Hc _ _ E) Hn : UnpackInt p = _). cbn [lift result_bind]. rewrite check_none by apply Hn. cbn [result_bind].
    unfold GetValue. rewrite E, Hi. done.
  - intros p i Hp. unfold l_UnpackPrefix. destruct (unpack_num_any W32 p Hp) as (id & q & E & Hq). change (unpack_num W32 p) with (UnpackInt p) in E. rewrite E.
    cbn [lift result_bind]. destruct (check_cases q) as [[He ->]|[e ->]]; cbn [result_bind]; [|done]. destruct (Hq He) as [Hr Hrb].
    unfold GetValue. destruct (keyToValue _ !! id) as [t|] eqn:Et; [|done]. destruct (implements t i) eqn:Ei; [|done]. cbn [negb]. split; [done|].
    apply Hc in Et. unfold GetKey. rewrite Et. by exists (be_bytes 4 id).
Defined.

#[local] Instance hierarchy_laws c (Hc : hierarchy_ok c) : TypeCodecLaws extra_cap implements (hierarchy_typer extra_cap implements c).
Proof.
  refine {|
    prefix_of := λ t, id ← GetKey (h_registeredTypes c) t; Some (be_bytes 2 id.1 ++ be_bytes 2 id.2);
    registered := (map_to_list (keyToValue (h_registeredTypes c))).*2
  |}; cbn [PackPrefix UnpackPrefix PrefixSize linear_typer hierarchy_typer].
  - intros t pre Hp. destruct (GetKey _ t) as [id|] eqn:E; [|done]. apply Hc in E. by eapply value_registered.
  - intros p t Hg. unfold h_PackPrefix. destruct (GetKey _ t) as [[g id]|]; cbn [mbind option_bind fst snd]; [|by eexists]. by apply pack_two_writes.
  - intros t pre Hp. destruct (GetKey _ t) as [id|]; [|done]. apply (inj Some) in Hp as <-. done.
  - intros p t i pre Hp Hi Hn. destruct (GetKey _ t) as [[g id]|] eqn:E; [|done]. apply (inj Some) in Hp as <-. apply Hc in E. unfold h_UnpackPrefix.
    destruct (ho_ids _ Hc _ _ E) as [Hg Hid]. cbn [fst snd] in *. apply next_app in Hn as [Hn1 Hn2].
    rewrite (unpack_num_at W16 p g Hg Hn1 : UnpackShort p = _). cbn [lift result_bind].
    rewrite (unpack_num_at W16 _ id Hid Hn2 : UnpackShort (advance p (Z.of_nat (wbytes W16))) = _). cbn [lift result_bind].
    rewrite check_none by apply Hn1. cbn [result_bind]. unfold GetValue. rewrite E, Hi. simpl. by rewrite advance_add.
  - intros p i Hp. unfold h_UnpackPrefix. destruct (unpack_two_any p Hp) as (g & id & q & p' & -> & E & Hq). cbn [lift result_bind]. rewrite E.
    cbn [lift result_bind]. destruct (check_cases p') as [[He ->]|[e ->]]; cbn [result_bind]; [|done]. destruct (Hq He) as (Hg & Hid & Hrb).
    unfold GetValue. destruct (keyToValue _ !! (g, id)) as [t|] eqn:Et; [|done]. destruct (implements t i) eqn:Ei; [|done]. cbn [negb]. split; [done|].
    apply Hc in Et. unfold GetKey. rewrite Et. by eexists.
Defined.
End laws.

(** ** The manager *)

Section manager.
Context (extra_cap : Z → Z → nat) (implements : ty → nat → bool).
Context (map_range : ∀ A : Type, list A → list A) (Hperm : ∀ A (l : list A), map_range A l ≡ₚ l).

(** A codec with the laws whose number of types is known. *)
Record codec_ok (c : codec) := mkCodecOk {
  co_laws : TypeCodecLaws extra_cap implements (c_typer c);
  co_types : length (registered (TypeCodecLaws := co_laws)) = c_types c
}.

Definition has_type (c : codec) (Hc : codec_ok c) (v : val) (t : ty) : Prop := typed (TL := co_laws c Hc) (c_tags c) v t.
Definition value_encoding (c : codec) (Hc : codec_ok c) (v : val) (t : ty) : option bytes := encoding (TL := co_laws c Hc) (c_tags c) v t [].

(** Every registered type can be compared, or neither the type nor a registered one has a map
    with interfaces in its keys. *)
Definition safe_type (c : codec) (Hc : codec_ok c) (t : ty) : Prop := safe extra_cap implements (TL := co_laws c Hc) t.

Lemma codec_fuel c Hc : enough (TL := co_laws c Hc) extra_cap implements (Datatypes.S (c_types c)) [].
Proof. split_and!; [constructor|apply list_subseteq_nil|]. rewrite (co_types c Hc). simpl. lia. Qed.

Lemma reader_next bs : next_bytes (reader bs) bs.
Proof.
  split; [unfold cap, reader; simpl; lia|]. split; [done|]. split; [unfold reader; simpl; lia|]. exists [].
  unfold contents, reader. simpl. by rewrite Nat2Z.id, take_ge, app_nil_r, drop_0 by done.
Qed.

Lemma contents_reader bs : contents (reader bs) = bs.
Proof. unfold contents, reader. simpl. by rewrite Nat2Z.id, take_ge. Qed.

Lemma reader_reading bs : bytes_ok bs → reading (reader bs).
Proof. intros Hb. destruct (reader_next bs) as (? & ? & ? & _). split; [done|]. split; [done|]. split; [done|]. by rewrite contents_reader. Qed.

Context (m : manager) (Hmax : 0 ≤ m_maxSize m).

(** [Marshal] returns the version and the encoding, when there is one and it fits. *)
Lemma Marshal_spec version c (Hc : codec_ok c) v t :
  m_codecs m !! version = Some c → has_type c Hc v t →
  match value_encoding c Hc v t with
  | Some e =>
      if decide (2 + Z.of_nat (length e) ≤ m_maxSize m) then Marshal extra_cap map_range m version v t = Ok (be_bytes 2 version ++ e)
      else fails (Marshal extra_cap map_range m version v t)
  | None => fails (Marshal extra_cap map_range m version v t)
  end.
Proof using Hperm Hmax.
  intros Hm Ht. unfold Marshal. rewrite Hm. set (p := mkPacker _ _ _ _ _).
  assert (good p) as Hg. { split; [split; unfold cap; simpl; lia|done|simpl; lia]. }
  pose proof (pack_raw_writes extra_cap p (be_bytes 2 version) Hg) as H1. unfold PackShort.
  destruct (pack_raw_grows extra_cap p (be_bytes 2 version) (good_ok _ Hg)) as (p0 & E0 & _). rewrite E0 in *. cbn [lift result_bind] in *.
  apply writes_Some in H1. rewrite length_be_bytes in H1. change (Offset p) with 0 in H1. change (MaxSize p) with (m_maxSize m) in H1.
  destruct H1 as [[Hf (p1 & Ec & Ha)]|[Hf [err Ec]]]; unfold check in Ec; unfold Errored; destruct (Err_ p0) eqn:Ee; try done.
  - injection Ec as ->. pose proof (marshal_writes extra_cap implements (TL := co_laws c Hc) (c_tags c) map_range Hperm v t [] p1 Ht (app_good _ _ _ Ha)) as Hw.
    unfold value_encoding, MarshalInto. destruct (encoding _ v t []) as [e|]; [|by apply fails_bind].
    apply writes_Some in Hw. rewrite (app_max _ _ _ Ha), (app_offset _ _ _ Ha), length_be_bytes in Hw. change (Offset p) with 0 in Hw.
    change (MaxSize p) with (m_maxSize m) in Hw. destruct Hw as [[Hf' (q & -> & Hq)]|[Hf' Hw]].
    + rewrite decide_True by lia. cbn [result_bind]. f_equal. pose proof (appended_trans _ _ _ _ _ Ha Hq) as [G _ W O L].
      change (written p) with (@nil Z) in W. change (len p) with 0 in L. destruct G as [[Go _] _ _]. unfold contents. rewrite L, Z.max_r by done.
      exact W.
    + rewrite decide_False by lia. by apply fails_bind.
  - destruct (value_encoding c Hc v t); [rewrite decide_False by lia|]; by eexists.
Qed.

Lemma codec_Unmarshal_at c (Hc : codec_ok c) v t dest e :
  has_type c Hc v t → has_type c Hc dest t → value_encoding c Hc v t = Some e →
  codec_Unmarshal (TC := c_typer c) (c_tags c) (Datatypes.S (c_types c)) e t dest = Ok (fill (captured (c_tags c)) v t dest).
Proof using.
  intros Hv Hd He. unfold codec_Unmarshal.
  rewrite (unmarshal_at extra_cap implements (TL := co_laws c Hc) (c_tags c) v t [] e _ dest (reader e) Hv Hd He (codec_fuel c Hc) (reader_next e)).
  cbn [result_bind]. unfold reader, advance. simpl. by rewrite Z.eqb_refl.
Qed.

(** What [Unmarshal] does with a version and the rest. *)
Lemma Unmarshal_version version c rest t dest :
  is_u16 version → m_codecs m !! version = Some c → 2 + Z.of_nat (length rest) ≤ m_maxSize m →
  Unmarshal m (be_bytes 2 version ++ rest) t dest
  = let? v := codec_Unmarshal (TC := c_typer c) (c_tags c) (Datatypes.S (c_types c)) rest t dest in Ok (version, v).
Proof using.
  intros Hv Hm Hl. unfold Unmarshal. rewrite length_app, length_be_bytes, Z.gtb_ltb, (proj2 (Z.ltb_ge _ _)) by lia.
  pose proof (reader_next (be_bytes 2 version ++ rest)) as Hn. apply next_app in Hn as [Hn _].
  rewrite (unpack_num_at W16 _ version Hv Hn : UnpackShort _ = _). cbn [lift result_bind]. change (Errored (advance _ _)) with false. cbn iota. rewrite Hm.
  change (Z.to_nat (Offset (advance _ _))) with 2%nat. by rewrite drop_app_length' by (by rewrite length_be_bytes).
Qed.

(** C31. A value that was marshalled is read back: unmarshalling the bytes into any destination
    of the type gives the same version and the value, with the fields that are not serialized
    taken from the destination, whatever order Go ranges over maps in. *)
Theorem codec_roundtrip version c (Hc : codec_ok c) v t dest bs :
  is_u16 version → m_codecs m !! version = Some c → has_type c Hc v t → has_type c Hc dest t →
  Marshal extra_cap map_range m version v t = Ok bs →
  Unmarshal m bs t dest = Ok (version, fill (captured (c_tags c)) v t dest).
Proof using Hperm Hmax.
  intros Hu Hm Ht Hd Hb. pose proof (Marshal_spec version c Hc v t Hm Ht) as Hs. destruct (value_encoding c Hc v t) as [e|] eqn:Ee.
  - case_decide as Hl; [|destruct Hs; congruence]. rewrite Hs in Hb. assert (bs = be_bytes 2 version ++ e) as -> by congruence.
    rewrite (Unmarshal_version version c e t dest Hu Hm Hl), (codec_Unmarshal_at c Hc v t dest e Ht Hd Ee). done.
  - destruct Hs. congruence.
Qed.

(** C32. [Size] is the number of bytes that [Marshal] writes, whenever it succeeds, although it
    does not visit the elements of sequences and maps whose types have a fixed size. *)
Theorem codec_size_exact version c (Hc : codec_ok c) v t bs :
  m_codecs m !! version = Some c → has_type c Hc v t →
  Marshal extra_cap map_range m version v t = Ok bs → Size map_range m version v t = Ok (Z.of_nat (length bs)).
Proof using Hperm Hmax.
  intros Hm Ht Hb. pose proof (Marshal_spec version c Hc v t Hm Ht) as Hs. destruct (value_encoding c Hc v t) as [e|] eqn:Ee; [|destruct Hs; congruence].
  case_decide as Hl; [|destruct Hs; congruence]. rewrite Hs in Hb. assert (bs = be_bytes 2 version ++ e) as -> by congruence. unfold Size, codec_Size. rewrite Hm.
  destruct (size_sized extra_cap implements (TL := co_laws c Hc) (c_tags c) map_range Hperm v t [] e Ht Ee) as [-> _]. cbn [result_bind].
  rewrite length_app, length_be_bytes. unfold VersionSize. f_equal. lia.
Qed.

(** C30. Whatever bytes are received, [Unmarshal] returns a well-typed value whose encoding is
    exactly these bytes, so that no two byte strings decode to one value, or an error; this is
    not a panic if every registered type can be compared, as pointers can, or if neither the
    type nor a registered one has a map with interfaces in its keys.  It never runs out of
    fuel: interfaces nest at most as deep as there are registered types. *)
Theorem codec_canonical (laws : ∀ version c, m_codecs m !! version = Some c → codec_ok c) bs t dest :
  bytes_ok bs → (∀ version c (E : m_codecs m !! version = Some c), has_type c (laws version c E) dest t) →
  match Unmarshal m bs t dest with
  | Ok (version, v) => ∃ c (E : m_codecs m !! version = Some c),
      has_type c (laws version c E) v t ∧ Marshal extra_cap map_range m version v t = Ok bs
  | Err err =>
      err ≠ CFuel
      ∧ ((∀ version c (E : m_codecs m !! version = Some c), safe_type c (laws version c E) t) → err ≠ CPanic)
  end.
Proof using Hperm Hmax.
  intros Hb Hd. unfold Unmarshal. rewrite Z.gtb_ltb. destruct (Z.ltb_spec (m_maxSize m) (Z.of_nat (length bs))) as [|Hl]; [done|].
  pose proof (reader_reading bs Hb) as Hr. destruct (unpack_num_any W16 (reader bs) Hr) as (version & p & E & Hp).
  change (unpack_num W16 (reader bs)) with (UnpackShort (reader bs)) in E. rewrite E. cbn [lift result_bind].
  destruct (Errored p) eqn:Ee; [done|]. apply Errored_false in Ee. destruct (Hp Ee) as [Hv [Hn ->]]. clear E.
  destruct (m_codecs m !! version) as [c|] eqn:Em; [|done]. set (rest := drop _ bs).
  assert (bs = be_bytes 2 version ++ rest) as Ebs.
  { destruct Hn as (_ & _ & _ & post & Ed). rewrite contents_reader in Ed. change (Z.to_nat (Offset (reader bs))) with 0%nat in Ed. rewrite drop_0 in Ed.
    assert (rest = post) as ->; [|exact Ed]. unfold rest.
    assert (Z.to_nat (Offset (advance (reader bs) (Z.of_nat (length (be_bytes (wbytes W16) version))))) = 2%nat) as -> by (by rewrite length_be_bytes).
    by rewrite Ed, drop_app_length' by (by rewrite length_be_bytes). }
  assert (bytes_ok rest) as Hbr by (by apply Forall_drop). unfold codec_Unmarshal.
  pose proof (unmarshal_sound extra_cap implements (TL := co_laws c (laws version c Em)) (c_tags c) _ t [] dest (reader rest)
    (codec_fuel c (laws version c Em)) (Hd version c Em) (reader_reading rest Hbr)) as Hs.
  destruct (unmarshal _ _ t [] dest (reader rest)) as [[v q]|err]; cbn [result_bind].
  2: { destruct Hs as [H1 H2]. split; [exact H1|]. intros Hsafe. apply H2, Hsafe. }
  destruct Hs as (Hw & _ & e & He & Hn' & ->).
  destruct (Z.eqb_spec (Offset (advance (reader rest) (Z.of_nat (length e)))) (Z.of_nat (length rest))) as [Eo|]; [|done]. cbn [negb result_bind].
  exists c, Em. split; [exact Hw|]. assert (e = rest) as ->.
  { destruct Hn' as (_ & _ & _ & post & Ed). rewrite contents_reader in Ed. simpl in Ed, Eo. rewrite drop_0 in Ed. rewrite Ed in Eo |- *.
    rewrite length_app in Eo. destruct post; [by rewrite app_nil_r|simpl in Eo; lia]. }
  pose proof (Marshal_spec version c (laws version c Em) v t Em Hw) as Hs. unfold value_encoding in Hs. rewrite He in Hs.
  rewrite decide_True in Hs; [by rewrite Hs, <- Ebs|]. rewrite Ebs, length_app, length_be_bytes in Hl. lia.
Qed.
End manager.

(** ** A concrete codec

    A message with an interface, a map and a field that is not serialized. *)

Definition ex_cap : Z → Z → nat := λ _ _, 0%nat.
Definition ex_range : ∀ A : Type, list A → list A := λ A l, rev l.
Definition ex_implements : ty → nat → bool := λ _ _, true.
Definition ex_tag : bytes := [115].
Definition ser : FieldInfo := mkField [ex_tag] true.
Definition unser : FieldInfo := mkField [] true.
Definition ex_payload : ty := TPtr (TStruct 1 [(ser, TNum false W32); (ser, TSlice TString)]).
Definition ex_message : ty := TStruct 2 [(ser, TIface 0); (ser, TMap (TNum true W8) TBool); (unser, TNum false W64)].
Definition ex_value : val :=
  VStruct [VIface ex_payload (VPtr (VStruct [VNum 7; VSeq [VStr [104]]])); VMap [(VNum 1, VBool true); (VNum (-1), VBool false)]; VNum 42].
Definition ex_read : val :=
  VStruct [VIface ex_payload (VPtr (VStruct [VNum 7; VSeq [VStr [104]]])); VMap [(VNum 1, VBool true); (VNum (-1), VBool false)]; VNum 0].
Definition ex_linear : linearCodec := match l_RegisterType linear_New ex_payload with Ok c => c | Err _ => linear_New end.

Lemma ex_linear_ok : linear_ok ex_linear.
Proof. destruct (linear_registrations linear_New linear_New_ok) as [_ H]. by apply (H ex_payload). Qed.

Definition ex_codec : codec := mkCodec [ex_tag] (linear_typer ex_cap ex_implements ex_linear) 1.

Definition ex_codec_ok : codec_ok ex_cap ex_implements ex_codec.
Proof. refine (mkCodecOk _ _ ex_codec (linear_laws ex_cap ex_implements ex_linear ex_linear_ok) _). reflexivity. Defined.

Definition ex_manager : manager := mkManager 1000 {[ 0 := ex_codec ]}.
Definition ex_bytes : bytes := [0; 0; 0; 0; 0; 0; 0; 0; 0; 7; 0; 0; 0; 1; 0; 1; 104; 0; 0; 0; 2; 1; 1; 255; 0].

Lemma ex_perm A (l : list A) : ex_range A l ≡ₚ l.
Proof. apply Permutation_sym, Permutation_rev. Qed.

Lemma ex_value_typed : has_type ex_cap ex_implements ex_codec ex_codec_ok ex_value ex_message.
Proof.
  split; [split; [done|]|split; [apply typed_map; split_and!|split; [|done]]].
  - split; [|split; [|done]]; [done|]. apply typed_slice. repeat constructor; done.
  - repeat constructor; done.
  - intros i j a b Hij Hi Hj. destruct i as [|[|i]], j as [|[|j]]; try lia; try done. simpl in Hi, Hj. by simplify_eq.
  - by repeat constructor.
  - done.
Qed.

Lemma codec_roundtrip_witness :
  Marshal ex_cap ex_range ex_manager 0 ex_value ex_message = Ok ex_bytes
  ∧ Unmarshal ex_manager ex_bytes ex_message (zero ex_message) = Ok (0, ex_read).
Proof.
  assert (Marshal ex_cap ex_range ex_manager 0 ex_value ex_message = Ok ex_bytes) as E by reflexivity. split; [exact E|].
  refine (codec_roundtrip ex_cap ex_implements ex_range ex_perm ex_manager _ 0 ex_codec ex_codec_ok ex_value ex_message (zero ex_message) ex_bytes _ _ ex_value_typed _ E).
  - by compute.
  - by split.
  - reflexivity.
  - apply typed_zero.
Defined.

Lemma codec_size_exact_witness :
  Marshal ex_cap ex_range ex_manager 0 ex_value ex_message = Ok ex_bytes ∧ Size ex_range ex_manager 0 ex_value ex_message = Ok 25.
Proof.
  assert (Marshal ex_cap ex_range ex_manager 0 ex_value ex_message = Ok ex_bytes) as E by reflexivity. split; [exact E|].
  refine (codec_size_exact ex_cap ex_implements ex_range ex_perm ex_manager _ 0 ex_codec ex_codec_ok ex_value ex_message ex_bytes _ ex_value_typed E); [by compute|reflexivity].
Defined.

Lemma ex_only version c : m_codecs ex_manager !! version = Some c → ex_codec = c.
Proof. simpl. rewrite lookup_singleton. case_decide; congruence. Qed.

Definition ex_laws version c (E : m_codecs ex_manager !! version = Some c) : codec_ok ex_cap ex_implements c :=
  eq_rect ex_codec (codec_ok ex_cap ex_implements) ex_codec_ok c (ex_only version c E).

(** The only registered type is a pointer. *)
Lemma ex_safe version c E t : safe_type ex_cap ex_implements c (ex_laws version c E) t.
Proof. unfold ex_laws. destruct (ex_only version c E). left. intros u Hu. vm_compute in Hu. apply list_elem_of_singleton in Hu as ->. reflexivity. Qed.

Lemma codec_canonical_witness :
  Unmarshal ex_manager ex_bytes ex_message (zero ex_message) = Ok (0, ex_read)
  ∧ Marshal ex_cap ex_range ex_manager 0 ex_read ex_message = Ok ex_bytes
  ∧ ∀ n, Unmarshal ex_manager (take n ex_bytes) ex_message (zero ex_message) ≠ Err CPanic.
Proof.
  assert (∀ bs, bytes_ok bs → _) as Hcan by exact (λ bs Hbs, codec_canonical ex_cap ex_implements ex_range ex_perm ex_manager
    ltac:(by compute) ex_laws bs ex_message (zero ex_message) Hbs ltac:(intros; apply typed_zero)).
  assert (bytes_ok ex_bytes) as Hb by (repeat constructor; done).
  assert (Unmarshal ex_manager ex_bytes ex_message (zero ex_message) = Ok (0, ex_read)) as E by reflexivity. split; [exact E|]. split.
  - pose proof (Hcan ex_bytes Hb) as H. rewrite E in H. destruct H as (c & Ec & _ & H). exact H.
  - intros n En. pose proof (Hcan (take n ex_bytes) ltac:(by apply Forall_take)) as H. rewrite En in H. destruct H as [_ H].
    apply H; [|reflexivity]. intros version c Ec. apply ex_safe.
Defined.

(** ** A key that cannot be hashed

    A map with keys of an interface type, and a slice among the registered types.  The bytes
    are the version, the length 1 of the map, the prefix of the slice type, its length 1 and
    its element 7, and the value. *)

Definition slice_linear : linearCodec := match l_RegisterType linear_New (TSlice (TNum false W8)) with Ok c => c | Err _ => linear_New end.
Definition slice_manager : manager := mkManager 1000 {[ 0 := mkCodec [ex_tag] (linear_typer ex_cap ex_implements slice_linear) 1 ]}.
Definition iface_map : ty := TMap (TIface 0) TBool.

(** [Unmarshal] of these bytes panics, in [value.SetMapIndex]. *)
Theorem interface_key_panics :
  Unmarshal slice_manager [0; 0; 0; 0; 0; 1; 0; 0; 0; 0; 0; 0; 0; 1; 7; 1] iface_map (zero iface_map) = Err CPanic.
Proof. reflexivity. Qed.
