(* ===== verification/Dbhelpers.v ===== *)
(** * Helpers over key-value databases

    [database/helpers.go]: integers, booleans and identifiers as values, and the loops that
    count, measure and clear the entries of a database.  The helpers only use the interface
    of [Database.v], so what is proved here holds of every database that keeps its
    contract.  [KeyValueWriterDeleter] is what a database and a batch have in common; its
    law says on which map a writer acts. *)

From S2P Require Import Prelude Packer Database Memdb Versiondb.

Open Scope Z_scope.

(** ** Writers *)

Class KeyValueWriterDeleter (W : Type) := {
  kv_Put : W → bytes → bytes → result db_error W;
  kv_Delete : W → bytes → result db_error W;
}.

#[export] Instance db_writer {D : Database} : KeyValueWriterDeleter db_t :=
  {| kv_Put := db_Put; kv_Delete := db_Delete |}.

(** Queueing an operation in a batch cannot fail. *)
#[export] Instance batch_writer {D : Database} : KeyValueWriterDeleter batch_t :=
  {| kv_Put b k v := Ok (batch_Put b k v); kv_Delete b k := Ok (batch_Delete b k) |}.

(** [acts w m]: the writes made through [w] go to the map [m]. *)
Class WriterLaws {W} (K : KeyValueWriterDeleter W) (acts : W → gmap bytes bytes → Prop) := {
  law_kv_Put w m k v : acts w m → ∃ w', kv_Put w k v = Ok w' ∧ acts w' (<[k := v]> m);
  law_kv_Delete w m k : acts w m → ∃ w', kv_Delete w k = Ok w' ∧ acts w' (delete k m);
}.

(** An open database holds the map; a batch holds it relative to the contents of its
    database. *)
Definition db_acts {D : Database} {L : DatabaseLaws D} (i : ident) (d : db_t) (m : gmap bytes bytes) : Prop :=
  db_ok d ∧ db_ident d = i ∧ contents d = Some m.
Definition batch_acts {D : Database} {L : DatabaseLaws D} (i : ident) (m0 : gmap bytes bytes) (b : batch_t)
    (m : gmap bytes bytes) : Prop :=
  batch_ok b ∧ batch_ident b = i ∧ m = apply_ops m0 (batch_ops b).

#[export] Instance db_writer_laws {D : Database} {L : DatabaseLaws D} i : WriterLaws db_writer (db_acts i).
Proof.
  split.
  - intros d m k v (Hd & Hi & Hm). pose proof (law_Put d k v Hd) as H. rewrite Hm in H.
    destruct H as (d' & E & ? & Hi' & ?). exists d'. split; [exact E|]. split; [done|]. split; [congruence|done].
  - intros d m k (Hd & Hi & Hm). pose proof (law_Delete d k Hd) as H. rewrite Hm in H.
    destruct H as (d' & E & ? & Hi' & ?). exists d'. split; [exact E|]. split; [done|]. split; [congruence|done].
Qed.

#[export] Instance batch_writer_laws {D : Database} {L : DatabaseLaws D} i m0 :
  WriterLaws batch_writer (batch_acts i m0).
Proof.
  split.
  - intros b m k v (Hb & Hi & Hm). exists (batch_Put b k v). split; [done|].
    destruct (law_batch_Put b k v Hb) as (? & Hi' & Ho). split; [done|]. split; [congruence|].
    by rewrite Ho, apply_ops_app, Hm.
  - intros b m k (Hb & Hi & Hm). exists (batch_Delete b k). split; [done|].
    destruct (law_batch_Delete b k Hb) as (? & Hi' & Ho). split; [done|]. split; [congruence|].
    by rewrite Ho, apply_ops_app, Hm.
Qed.

(** ** Values *)

Inductive helper_error :=
  | DbError (e : db_error)
  | errWrongSize
  | errHashLength
  | errBoolLength
  | errBoolValue.

Definition Uint64Size : Z := 8.
Definition BoolSize : Z := 1.
Definition BoolFalse : Z := 0.
Definition BoolTrue : Z := 1.
Definition kvPairOverhead : Z := 8.
Definition HashLen : Z := 32.

(** Errors of the database as errors of the helpers *)
Definition of_db {A} (r : result db_error A) : result helper_error A :=
  match r with Ok a => Ok a | Err e => Err (DbError e) end.

Definition PackUInt64 (val : Z) : bytes := be_bytes 8 val.

Definition ParseUInt64 (b : bytes) : result helper_error Z :=
  if negb (Z.of_nat (length b) =? Uint64Size) then Err errWrongSize else Ok (be_value b).

Definition PackUInt32 (val : Z) : bytes := be_bytes 4 val.

Definition ParseUInt32 (b : bytes) : result helper_error Z :=
  if negb (Z.of_nat (length b) =? 4) then Err errWrongSize else Ok (be_value b).

(** [ids.ToID] *)
Definition ParseID (b : bytes) : result helper_error bytes :=
  if negb (Z.of_nat (length b) =? HashLen) then Err errHashLength else Ok b.

Section values.
Context {W : Type} {K : KeyValueWriterDeleter W} {D : Database}.

Definition PutUInt64 (w : W) (key : bytes) (val : Z) : result db_error W :=
  let b := PackUInt64 val in kv_Put w key b.
Definition GetUInt64 (d : db_t) (key : bytes) : result helper_error Z :=
  let? b := of_db (db_Get d key) in ParseUInt64 b.

Definition PutUInt32 (w : W) (key : bytes) (val : Z) : result db_error W :=
  let b := PackUInt32 val in kv_Put w key b.
Definition GetUInt32 (d : db_t) (key : bytes) : result helper_error Z :=
  let? b := of_db (db_Get d key) in ParseUInt32 b.

Definition PutID (w : W) (key val : bytes) : result db_error W := kv_Put w key val.
Definition GetID (d : db_t) (key : bytes) : result helper_error bytes :=
  let? b := of_db (db_Get d key) in ParseID b.

Definition PutBool (w : W) (key : bytes) (b : bool) : result db_error W :=
  if b then kv_Put w key [BoolTrue] else kv_Put w key [BoolFalse].
Definition GetBool (d : db_t) (key : bytes) : result helper_error bool :=
  let? b := of_db (db_Get d key) in
  if negb (Z.of_nat (length b) =? BoolSize) then Err errBoolLength
  else match b with
    | x :: _ => if negb (x =? BoolFalse) && negb (x =? BoolTrue) then Err errBoolValue else Ok (x =? BoolTrue)
    | [] => Err errBoolLength
    end.
End values.

(** ** Loops over an iterator *)

Section loops.
Context {D : Database}.

(** [for it.Next() { body }]: the number of turns is bounded by the fuel; [None] is running
    out of it. *)
Fixpoint for_next {A} (fuel : nat) (d : db_t) (it : iter_t) (body : bytes → bytes → A → A) (a : A) :
    option (A * iter_t) :=
  match fuel with
  | O => None
  | S fuel =>
      let '(ok, it) := iter_Next d it in
      if ok then for_next fuel d it body (body (iter_Key it) (iter_Value it) a) else Some (a, it)
  end.

(** The result and the error of the iterator *)
Definition Count (fuel : nat) (d : db_t) : option (Z * option db_error) :=
  let iterator := db_NewIterator d [] [] in
  '(count, it) ← for_next fuel d iterator (λ _ _ count, count + 1) 0;
  Some (count, iter_Error it).

Definition Size (fuel : nat) (d : db_t) : option (Z * option db_error) :=
  let iterator := db_NewIterator d [] [] in
  '(size, it) ← for_next fuel d iterator
    (λ key value size, size + (Z.of_nat (length key) + Z.of_nat (length value) + kvPairOverhead)) 0;
  Some (size, iter_Error it).

Definition IsEmpty (d : db_t) : bool * option db_error :=
  let '(ok, it) := iter_Next d (db_NewIterator d [] []) in (negb ok, iter_Error it).

(** [AtomicClearPrefix(readerDB, deleterDB, prefix)].  The two databases may be one object
    or share one: [S] is the state they are parts of, [reader] the database read and [del]
    the deletion through [deleterDB]. *)
Fixpoint atomic_clear_loop {S} (reader : S → db_t) (del : S → bytes → result db_error S)
    (fuel : nat) (s : S) (it : iter_t) : option (option db_error * S) :=
  match fuel with
  | O => None
  | Datatypes.S fuel =>
      let '(ok, it) := iter_Next (reader s) it in
      if ok then
        match del s (iter_Key it) with
        | Err e => Some (Some e, s)
        | Ok s => atomic_clear_loop reader del fuel s it
        end
      else Some (iter_Error it, s)
  end.

Definition AtomicClearPrefix {S} (reader : S → db_t) (del : S → bytes → result db_error S)
    (fuel : nat) (s : S) (prefix : bytes) : option (option db_error * S) :=
  atomic_clear_loop reader del fuel s (db_NewIterator (reader s) [] prefix).

Definition AtomicClear {S} (reader : S → db_t) (del : S → bytes → result db_error S)
    (fuel : nat) (s : S) : option (option db_error * S) := AtomicClearPrefix reader del fuel s [].

(** [ClearPrefix(db, prefix, writeSize)] *)
Fixpoint clear_loop (prefix : bytes) (writeSize : Z) (fuel : nat) (d : db_t) (b : batch_t) (it : iter_t) :
    option (option db_error * db_t) :=
  match fuel with
  | O => None
  | S fuel =>
      let '(ok, it) := iter_Next d it in
      if ok then
        let b := batch_Delete b (iter_Key it) in
        if batch_Size b <? writeSize then clear_loop prefix writeSize fuel d b it
        else
          match batch_Write d b with
          | Err e => Some (Some e, d)
          | Ok d =>
              let b := batch_Reset b in
              match iter_Error it with
              | Some e => Some (Some e, d)
              | None => clear_loop prefix writeSize fuel d b (db_NewIterator d [] prefix)
              end
          end
      else
        match batch_Write d b with
        | Err e => Some (Some e, d)
        | Ok d => Some (iter_Error it, d)
        end
  end.

Definition ClearPrefix (fuel : nat) (d : db_t) (prefix : bytes) (writeSize : Z) : option (option db_error * db_t) :=
  clear_loop prefix writeSize fuel d (db_NewBatch d) (db_NewIterator d [] prefix).

Definition Clear (fuel : nat) (d : db_t) (writeSize : Z) : option (option db_error * db_t) :=
  ClearPrefix fuel d [] writeSize.
End loops.

(** ** Values are read back *)

Lemma be_bytes_lt n a b :
  0 ≤ a < 256 ^ Z.of_nat n → 0 ≤ b < 256 ^ Z.of_nat n → bytes_lt (be_bytes n a) (be_bytes n b) = (a <? b).
Proof.
  revert a b. assert (Hsnoc : ∀ (u v : bytes) x y, length u = length v →
    bytes_lt (u ++ [x]) (v ++ [y]) = bytes_lt u v || (bool_decide (u = v) && (x <? y))).
  { induction u as [|c u IH]; intros [|e v] x y Hl; try done; simpl.
    - by rewrite andb_false_r, orb_false_r.
    - injection Hl as Hl. rewrite (IH v x y Hl), andb_orb_distrib_r, orb_assoc. f_equal.
      rewrite andb_assoc. f_equal. destruct (Z.eqb_spec c e) as [->|Hne]; simpl.
      + apply bool_decide_ext. split; congruence.
      + symmetry. apply bool_decide_eq_false. congruence. }
  induction n as [|n IH]; intros a b Ha Hb; [simpl in *; destruct (Z.ltb_spec a b); lia|].
  rewrite Nat2Z.inj_succ, Z.pow_succ_r in Ha, Hb by lia. simpl.
  pose proof (Z.div_mod a 256 ltac:(lia)) as Da. pose proof (Z.mod_pos_bound a 256 ltac:(lia)).
  pose proof (Z.div_mod b 256 ltac:(lia)) as Db. pose proof (Z.mod_pos_bound b 256 ltac:(lia)).
  assert (0 ≤ a / 256 < 256 ^ Z.of_nat n) by (split; [apply Z.div_pos; lia|apply Z.div_lt_upper_bound; lia]).
  assert (0 ≤ b / 256 < 256 ^ Z.of_nat n) by (split; [apply Z.div_pos; lia|apply Z.div_lt_upper_bound; lia]).
  rewrite Hsnoc, IH by (rewrite ?length_be_bytes; done).
  assert (bool_decide (be_bytes n (a / 256) = be_bytes n (b / 256)) = (a / 256 =? b / 256)) as ->.
  { rewrite Z_eqb_bool_decide. apply bool_decide_ext. split; [|by intros ->].
    intros E. rewrite <- (be_value_bytes n (a / 256)), E by done. by apply be_value_bytes. }
  apply eq_true_iff_eq. rewrite orb_true_iff, andb_true_iff, !Z.ltb_lt, Z.eqb_eq. lia.
Qed.

Lemma u64_256 v : is_u64 v → 0 ≤ v < 256 ^ Z.of_nat 8.
Proof. unfold is_u64, MaxUint64. change (256 ^ Z.of_nat 8) with (2 ^ 64). lia. Qed.

Lemma ParseUInt64_Pack v : is_u64 v → ParseUInt64 (PackUInt64 v) = Ok v.
Proof.
  intros Hv. unfold ParseUInt64, PackUInt64. rewrite length_be_bytes.
  change (negb (Z.of_nat 8 =? Uint64Size)) with false. cbn iota. by rewrite be_value_bytes by by apply u64_256.
Qed.

Lemma PackUInt64_lt a b : is_u64 a → is_u64 b → bytes_lt (PackUInt64 a) (PackUInt64 b) = (a <? b).
Proof. intros Ha Hb. apply be_bytes_lt; by apply u64_256. Qed.

Lemma PackUInt64_inj a b : is_u64 a → is_u64 b → PackUInt64 a = PackUInt64 b → a = b.
Proof.
  intros Ha Hb E. assert (@Ok helper_error Z a = Ok b) as [= ->]; [|done].
  by rewrite <- (ParseUInt64_Pack a Ha), E, ParseUInt64_Pack.
Qed.

(** ** What the helpers do to a database that keeps the contract *)

Section specs.
Context {D : Database} {L : DatabaseLaws D}.

Lemma for_next_spec {A} d m (body : bytes → bytes → A → A) :
  db_ok d → contents d = Some m → ∀ fuel it a,
  iter_ok it → (length (iter_pending it) < fuel)%nat →
  ∃ it', for_next fuel d it body a = Some (foldl (λ a e, body e.1 e.2 a) a (iter_pending it), it')
    ∧ iter_Error it' = iter_Error it.
Proof.
  intros Hd Hm. induction fuel as [|fuel IH]; intros it a Hok Hf; [lia|]. simpl.
  destruct (law_Next d m it Hd Hm Hok) as (Hok' & Hn & He). destruct (iter_Next d it) as [ok it'] eqn:E. simpl in *.
  destruct (iter_pending it) as [|[k v] rest] eqn:Ep.
  - destruct Hn as [-> _]. eauto.
  - destruct Hn as (-> & <- & <- & Ep'). rewrite <- He, <- Ep'. apply IH; [done|]. rewrite Ep'. simpl in Hf. lia.
Qed.

(** The entries a listing holds, as a map *)
Lemma listing_nodup m start prefix l : is_listing m start prefix l → NoDup l.*1.
Proof.
  intros [Hs _]. induction Hs as [|[k v] l Hs IH Hl]; [constructor|]. rewrite fmap_cons. constructor; [|done].
  intros ([k' v'] & E & Hin)%list_elem_of_fmap. rewrite Forall_forall in Hl. specialize (Hl _ Hin).
  unfold entry_lt, key_lt in Hl. simpl in E, Hl. subst k'. by rewrite bytes_lt_irrefl in Hl.
Qed.

Lemma listing_map m prefix l :
  is_listing m [] prefix l → list_to_map l = filter (λ e, HasPrefix e.1 prefix = true) m.
Proof.
  intros Hl. pose proof (listing_nodup _ _ _ _ Hl) as Hn. apply map_eq. intros k.
  apply option_eq. intros v. rewrite <- elem_of_list_to_map by done. rewrite (ls_elem _ _ _ _ Hl).
  rewrite map_lookup_filter_Some. simpl. assert (bytes_lt k [] = false) as -> by (by destruct k). tauto.
Qed.

Lemma listing_perm m prefix l :
  is_listing m [] prefix l → l ≡ₚ map_to_list (filter (λ e, HasPrefix e.1 prefix = true) m).
Proof.
  intros Hl. rewrite <- (listing_map m prefix l Hl). symmetry. apply map_to_list_to_map. by eapply listing_nodup.
Qed.

Lemma filter_all_prefix (m : gmap bytes bytes) : filter (λ e, HasPrefix e.1 [] = true) m = m.
Proof. apply map_filter_id. by intros [|]. Qed.

Lemma listing_length m prefix l : is_listing m [] prefix l → (length l ≤ base.size m)%nat.
Proof.
  intros Hl. rewrite (listing_perm m prefix l Hl), length_map_to_list.
  apply map_subseteq_size, map_filter_subseteq.
Qed.

(** What is left of a map without the keys that have the prefix. *)
Definition cleared (prefix : bytes) (m : gmap bytes bytes) : gmap bytes bytes :=
  filter (λ e, ¬ HasPrefix e.1 prefix = true) m.

Lemma cleared_done prefix m : is_listing m [] prefix [] → cleared prefix m = m.
Proof.
  intros Hl. apply map_filter_id. intros k v Hk Hp. assert ((k, v) ∈ []) as []%not_elem_of_nil.
  apply (ls_elem _ _ _ _ Hl). split; [done|]. split; [done|]. by destruct k.
Qed.

Lemma cleared_step prefix m k v rest :
  is_listing m [] prefix ((k, v) :: rest) →
  is_listing (delete k m) [] prefix rest ∧ cleared prefix (delete k m) = cleared prefix m.
Proof.
  intros Hl. assert (Hk : HasPrefix k prefix = true) by (by apply (ls_elem _ _ _ _ Hl k v); left). split.
  - pose proof (listing_nodup _ _ _ _ Hl) as Hnd. rewrite fmap_cons in Hnd. apply NoDup_cons in Hnd as [Hnk _].
    split; [by pose proof (ls_sorted _ _ _ _ Hl) as Hs; inversion Hs|]. intros k' v'.
    rewrite lookup_delete_Some. pose proof (ls_elem _ _ _ _ Hl k' v') as Hel. rewrite elem_of_cons in Hel. split.
    + intros Hin. destruct Hel as [Hel _]. destruct (Hel (or_intror Hin)) as (? & ? & ?). split; [|done]. split; [|done].
      intros <-. apply Hnk. apply list_elem_of_fmap. by exists (k, v').
    + intros [[Hne Hk'] Hp]. destruct Hel as [_ Hel]. destruct (Hel (conj Hk' Hp)) as [Heq|?]; [congruence|done].
  - unfold cleared. apply map_eq. intros k'. apply option_eq. intros v'.
    rewrite !map_lookup_filter_Some, lookup_delete_Some. simpl. split; [tauto|]. intros [? Hn]. split; [|done].
    split; [|done]. congruence.
Qed.

(** The loop over a queue: the keys not yet read are those of the map that the queue leaves. *)
Lemma clear_loop_spec prefix writeSize m : ∀ fuel d m0 b it,
  db_ok d → contents d = Some m0 → batch_ok b → batch_ident b = db_ident d →
  iter_ok it → iter_Error it = None → is_listing (apply_ops m0 (batch_ops b)) [] prefix (iter_pending it) →
  cleared prefix (apply_ops m0 (batch_ops b)) = cleared prefix m →
  (length (iter_pending it) < fuel)%nat →
  ∃ d', clear_loop prefix writeSize fuel d b it = Some (None, d')
    ∧ db_ok d' ∧ db_ident d' = db_ident d ∧ contents d' = Some (cleared prefix m).
Proof.
  induction fuel as [|fuel IH]; intros d m0 b it Hd Hm Hb Hi Hit He Hl Hc Hf; [lia|]. simpl.
  destruct (law_Next d m0 it Hd Hm Hit) as (Hok' & Hn & He'). destruct (iter_Next d it) as [ok it'] eqn:E.
  simpl in Hok', Hn, He'. destruct (iter_pending it) as [|[k v] rest] eqn:Ep.
  - destruct Hn as [-> _]. pose proof (law_Write d b Hd Hb Hi) as Hw. rewrite Hm in Hw.
    destruct Hw as (d' & -> & Hd' & Hi' & Hm'). exists d'. rewrite He', He. split; [done|]. split; [done|]. split; [done|].
    rewrite Hm', <- Hc. f_equal. symmetry. by apply cleared_done.
  - destruct Hn as (-> & <- & <- & Ep').
    destruct (law_batch_Delete b (iter_Key it') Hb) as (Hb' & Hib & Ho).
    set (b' := batch_Delete b (iter_Key it')) in *. set (key := iter_Key it') in *. set (val := iter_Value it') in *.
    assert (Hdel : apply_ops m0 (batch_ops b') = delete key (apply_ops m0 (batch_ops b))).
    { by rewrite Ho, apply_ops_app. }
    destruct (cleared_step _ _ _ _ _ Hl) as [Hl' Hc']. rewrite <- Hdel in Hl', Hc'. rewrite Hc in Hc'.
    simpl in Hf. destruct (batch_Size b' <? writeSize).
    + apply (IH d m0); try done; try congruence; rewrite Ep'; (done || lia).
    + pose proof (law_Write d b' Hd Hb' (eq_trans Hib Hi)) as Hw. rewrite Hm in Hw.
      destruct Hw as (d' & -> & Hd' & Hi' & Hm'). rewrite He', He.
      destruct (law_batch_Reset b' Hb') as (Hbr & Hir & Hor).
      destruct (law_NewIterator d' _ [] prefix Hd' Hm') as (Hni & Hnl & Hne).
      pose proof (is_listing_unique _ _ _ _ _ Hnl Hl') as El.
      edestruct (IH d' _ (batch_Reset b') (db_NewIterator d' [] prefix) Hd' Hm' Hbr) as (d'' & ? & ? & Hid & ?);
        [congruence|exact Hni|exact Hne|by rewrite Hor|by rewrite Hor|rewrite El; lia|].
      exists d''. split; [done|]. split; [done|]. split; [congruence|done].
Qed.

Lemma ClearPrefix_spec d m prefix writeSize fuel :
  db_ok d → contents d = Some m → (base.size m < fuel)%nat →
  ∃ d', ClearPrefix fuel d prefix writeSize = Some (None, d')
    ∧ db_ok d' ∧ db_ident d' = db_ident d ∧ contents d' = Some (cleared prefix m).
Proof.
  intros Hd Hm Hf. destruct (law_NewBatch d Hd) as (Hb & Hi & Ho).
  destruct (law_NewIterator d m [] prefix Hd Hm) as (Hit & Hl & He).
  apply (clear_loop_spec prefix writeSize m fuel d m); rewrite ?Ho; try done.
  apply (listing_length _ _ _) in Hl. lia.
Qed.

Lemma count_fold (l : list entry) a : foldl (λ count _, count + 1) a l = a + Z.of_nat (length l).
Proof. revert a. induction l as [|e l IH]; intros a; simpl; [lia|]. rewrite IH. lia. Qed.

Lemma sum_fold {A} (f : A → Z) l a : foldl (λ s e, s + f e) a l = a + foldr Z.add 0 (f <$> l).
Proof. revert a. induction l as [|e l IH]; intros a; [simpl; lia|].
  rewrite fmap_cons. cbn [foldl foldr]. rewrite IH. lia. Qed.

Lemma sum_perm (l k : list Z) : l ≡ₚ k → foldr Z.add 0 l = foldr Z.add 0 k.
Proof. induction 1; simpl; lia. Qed.

(** Deleting every key that an iterator of the same database returns. *)
Lemma atomic_clear_spec prefix m : ∀ fuel d m0 it,
  db_ok d → contents d = Some m0 → iter_ok it → iter_Error it = None →
  is_listing m0 [] prefix (iter_pending it) → cleared prefix m0 = cleared prefix m →
  (length (iter_pending it) < fuel)%nat →
  ∃ d', atomic_clear_loop id db_Delete fuel d it = Some (None, d')
    ∧ db_ok d' ∧ db_ident d' = db_ident d ∧ contents d' = Some (cleared prefix m).
Proof.
  induction fuel as [|fuel IH]; intros d m0 it Hd Hm Hit He Hl Hc Hf; [lia|]. simpl.
  destruct (law_Next d m0 it Hd Hm Hit) as (Hok' & Hn & He'). destruct (iter_Next d it) as [ok it'] eqn:E.
  simpl in Hok', Hn, He'. destruct (iter_pending it) as [|[k v] rest] eqn:Ep.
  - destruct Hn as [-> _]. exists d. rewrite He', He, Hm, <- Hc. repeat split; try done. f_equal. symmetry.
    by apply cleared_done.
  - destruct Hn as (-> & <- & <- & Ep'). pose proof (law_Delete d (iter_Key it') Hd) as Hdel. rewrite Hm in Hdel.
    destruct Hdel as (d' & -> & Hd' & Hi' & Hm').
    destruct (cleared_step _ _ _ _ _ Hl) as [Hl' Hc'].
    edestruct (IH d' _ it' Hd' Hm' Hok') as (d'' & ? & ? & ? & ?);
      [congruence|by rewrite Ep'|by rewrite Hc'|rewrite Ep'; simpl in Hf; lia|].
    exists d''. split; [done|]. split; [done|]. split; [congruence|done].
Qed.

(** The loops of the helpers on an open database: [Count], [Size] and [IsEmpty] report
    the number, the bytes and the absence of entries; [ClearPrefix], whatever the size at
    which it writes its batch, and [AtomicClearPrefix] of a database through itself end
    without error having removed the entries whose keys have the prefix and no other.  One
    turn more than there are entries is enough for all of them. *)
Theorem helper_loops_exact (d : db_t) (m : gmap bytes bytes) (prefix : bytes) (writeSize : Z) (fuel : nat) :
  db_ok d → contents d = Some m → (base.size m < fuel)%nat →
  Count fuel d = Some (Z.of_nat (base.size m), None)
  ∧ Size fuel d
    = Some (foldr Z.add 0 ((λ e : entry, Z.of_nat (length e.1) + Z.of_nat (length e.2) + 8) <$> map_to_list m), None)
  ∧ IsEmpty d = (bool_decide (m = ∅), None)
  ∧ (∃ d', ClearPrefix fuel d prefix writeSize = Some (None, d') ∧ db_ok d' ∧ contents d' = Some (cleared prefix m))
  ∧ (∃ d', AtomicClearPrefix id db_Delete fuel d prefix = Some (None, d')
      ∧ db_ok d' ∧ contents d' = Some (cleared prefix m)).
Proof.
  intros Hd Hm Hf. destruct (law_NewIterator d m [] [] Hd Hm) as (Hit & Hl & He).
  pose proof (listing_length _ _ _ Hl) as Hlen. pose proof (listing_perm _ _ _ Hl) as Hp. rewrite filter_all_prefix in Hp.
  split; [|split; [|split; [|split]]].
  - unfold Count. destruct (for_next_spec d m (λ _ _ count, count + 1) Hd Hm fuel _ 0 Hit) as (it & -> & Hie); [lia|].
    simpl. rewrite Hie, He. repeat f_equal. rewrite <- length_map_to_list, <- Hp. apply count_fold.
  - unfold Size. set (body := λ (key value : bytes) (size : Z), _).
    destruct (for_next_spec d m body Hd Hm fuel _ 0 Hit) as (it & -> & Hie); [lia|].
    simpl. rewrite Hie, He. do 2 f_equal. rewrite (sum_fold (λ e : entry, Z.of_nat (length e.1) + Z.of_nat (length e.2) + 8)).
    apply sum_perm. by rewrite Hp.
  - unfold IsEmpty. destruct (law_Next d m _ Hd Hm Hit) as (_ & Hn & Hie). destruct (iter_Next d _) as [ok it].
    simpl in Hn, Hie. rewrite Hie, He. f_equal.
    destruct (iter_pending _) as [|[k v] l]; destruct Hn as [-> _].
    + symmetry. apply bool_decide_eq_true, map_to_list_empty_iff, Permutation_nil_r. by symmetry.
    + symmetry. apply bool_decide_eq_false. intros ->. rewrite map_to_list_empty in Hp. by apply Permutation_nil_r in Hp.
  - destruct (ClearPrefix_spec d m prefix writeSize fuel Hd Hm Hf) as (d' & ? & ? & _ & ?). eauto.
  - destruct (law_NewIterator d m [] prefix Hd Hm) as (Hit' & Hl' & He').
    destruct (atomic_clear_spec prefix m fuel d m _ Hd Hm Hit' He' Hl' eq_refl) as (d' & ? & ? & _ & ?);
      [pose proof (listing_length _ _ _ Hl'); lia|]. eauto.
Qed.

Lemma put_get (d : db_t) m k v :
  db_ok d → contents d = Some m → ∃ d', db_Put d k v = Ok d' ∧ db_ok d' ∧ db_Get d' k = Ok v.
Proof.
  intros Hd Hm. pose proof (law_Put d k v Hd) as H. rewrite Hm in H. destruct H as (d' & ? & ? & _ & Hm').
  exists d'. split; [done|]. split; [done|]. by rewrite law_Get, Hm', lookup_insert_eq by done.
Qed.

(** Each value that a helper stores under a key is the one its reader returns. *)
Theorem helper_values_read_back (d : db_t) (m : gmap bytes bytes) (key : bytes) :
  db_ok d → contents d = Some m →
  (∀ v, is_u64 v → ∃ d', PutUInt64 d key v = Ok d' ∧ GetUInt64 d' key = Ok v)
  ∧ (∀ v, 0 ≤ v < 2 ^ 32 → ∃ d', PutUInt32 d key v = Ok d' ∧ GetUInt32 d' key = Ok v)
  ∧ (∀ b, ∃ d', PutBool d key b = Ok d' ∧ GetBool d' key = Ok b)
  ∧ (∀ id, length id = 32%nat → ∃ d', PutID d key id = Ok d' ∧ GetID d' key = Ok id).
Proof.
  intros Hd Hm. split; [|split; [|split]].
  - intros v Hv. destruct (put_get d m key (PackUInt64 v) Hd Hm) as (d' & ? & _ & Hg). exists d'. split; [done|].
    unfold GetUInt64. rewrite Hg. by apply ParseUInt64_Pack.
  - intros v Hv. destruct (put_get d m key (PackUInt32 v) Hd Hm) as (d' & ? & _ & Hg). exists d'. split; [done|].
    unfold GetUInt32. rewrite Hg. cbn [of_db result_bind]. unfold ParseUInt32, PackUInt32. rewrite length_be_bytes.
    change (negb (Z.of_nat 4 =? 4)) with false. cbn iota. by rewrite be_value_bytes by done.
  - intros b. destruct (put_get d m key [if b then BoolTrue else BoolFalse] Hd Hm) as (d' & ? & _ & Hg). exists d'.
    split; [by destruct b|]. unfold GetBool. rewrite Hg. by destruct b.
  - intros id Hid. destruct (put_get d m key id Hd Hm) as (d' & ? & _ & Hg). exists d'. split; [done|].
    unfold GetID. rewrite Hg. cbn [of_db result_bind]. unfold ParseID. by rewrite Hid.
Qed.
End specs.

(** ** Examples *)

Definition helper_map : gmap bytes bytes := {[ [1] := [10]; [1; 2] := [20]; [3] := [30; 31] ]}.

Lemma helper_loops_exact_witness :
  ∃ d', ClearPrefix (D := memdb_database sample_range) 4 (mkMemdb (Some helper_map)) [1] 2 = Some (None, d')
    ∧ mem_db d' = Some (cleared [1] helper_map).
Proof.
  destruct (helper_loops_exact (D := memdb_database sample_range) (L := memdb_laws sample_range (λ _ _, reflexivity _))
    (mkMemdb (Some helper_map)) helper_map [1] 2 4) as (_ & _ & _ & (d' & H1 & _ & H2) & _).
  - exact I.
  - reflexivity.
  - vm_compute. lia.
  - exists d'. split; [exact H1|exact H2].
Defined.

Lemma helper_values_read_back_witness :
  ∃ d', PutUInt64 (K := db_writer (D := memdb_database sample_range)) (mkMemdb (Some helper_map)) [9] 258 = Ok d'
    ∧ GetUInt64 (D := memdb_database sample_range) d' [9] = Ok 258.
Proof.
  destruct (helper_values_read_back (D := memdb_database sample_range) (L := memdb_laws sample_range (λ _ _, reflexivity _))
    (mkMemdb (Some helper_map)) helper_map [9] I eq_refl) as (H & _). apply H. unfold is_u64, MaxUint64. lia.
Defined.
