(* ===== verification/Btree.v ===== *)
(** * Ordered trees

    The ordered tree of the package [google/btree], which is not part of the repository: the
    interface [BTree] and, as [BTreeLaws], its documented behaviour.  An operation takes the
    comparison that it uses, since items may be pointers whose order depends on the heap;
    the laws speak of a comparison under which the items are sorted when the operation is
    called.  A sorted list is an instance.  The interval tree of the bootstrapper
    ([Interval.v]) and the staker sets of the P-chain ([Stakers.v]) use the interface. *)

From stdpp Require Export sorting.
From S2P Require Import Prelude.

Open Scope Z_scope.

(** The iteration functions call back for each item until the callback returns false. *)
Fixpoint visit {T A} (f : T → A → A * bool) (l : list T) (a : A) : A :=
  match l with
  | [] => a
  | p :: l => let '(a, continue) := f p a in if continue then visit f l a else a
  end.

Class BTree (T : Type) := {
  bt_t : Type;
  bt_NewG : bt_t;
  bt_ReplaceOrInsert : (T → T → bool) → bt_t → T → bt_t;
  bt_Delete : (T → T → bool) → bt_t → T → bt_t;
  bt_Len : bt_t → Z;
  bt_Ascend : ∀ {A}, bt_t → (T → A → A * bool) → A → A;
  bt_AscendGreaterOrEqual : ∀ {A}, (T → T → bool) → bt_t → T → (T → A → A * bool) → A → A;
  bt_DescendLessOrEqual : ∀ {A}, (T → T → bool) → bt_t → T → (T → A → A * bool) → A → A;
}.

Definition strict_weak_order {T} (less : T → T → bool) : Prop :=
  (∀ x, less x x = false)
  ∧ (∀ x y z, less x y = true → less y z = true → less x z = true)
  ∧ (∀ x y z, less x y = true → less x z = true ∨ less z y = true).

Notation sorted_by less := (StronglySorted (λ x y, less x y = true)).

(** The items in order *)
Class BTreeLaws {T} (B : BTree T) := {
  bt_items : bt_t → list T;
  law_NewG : bt_items bt_NewG = [];
  law_ReplaceOrInsert less b x : strict_weak_order less → sorted_by less (bt_items b) →
    bt_items (bt_ReplaceOrInsert less b x)
    = filter (λ y, less y x = true) (bt_items b) ++ x :: filter (λ y, less x y = true) (bt_items b);
  law_bt_Delete less b x : strict_weak_order less → sorted_by less (bt_items b) →
    bt_items (bt_Delete less b x) = filter (λ y, less y x || less x y = true) (bt_items b);
  law_Len b : bt_Len b = Z.of_nat (length (bt_items b));
  law_Ascend A b (f : T → A → A * bool) a : bt_Ascend b f a = visit f (bt_items b) a;
  law_AscendGreaterOrEqual A less b x (f : T → A → A * bool) a :
    strict_weak_order less → sorted_by less (bt_items b) →
    bt_AscendGreaterOrEqual less b x f a = visit f (filter (λ y, less y x = false) (bt_items b)) a;
  law_DescendLessOrEqual A less b x (f : T → A → A * bool) a :
    strict_weak_order less → sorted_by less (bt_items b) →
    bt_DescendLessOrEqual less b x f a = visit f (reverse (filter (λ y, less x y = false) (bt_items b))) a;
}.

Lemma visit_collect {T} (l : list T) acc : visit (λ item items, (items ++ [item], true)) l acc = acc ++ l.
Proof.
  revert acc. induction l as [|p l IH]; intros acc; simpl; [by rewrite app_nil_r|]. by rewrite IH, <- app_assoc.
Qed.

(** ** Sorted lists *)

Section sorted.
Context {T : Type}.

Lemma sorted_delete (less : T → T → bool) psA p psB :
  strict_weak_order less → sorted_by less (psA ++ p :: psB) →
  filter (λ y, less y p || less p y = true) (psA ++ p :: psB) = psA ++ psB.
Proof.
  intros (Hirr & _ & _) Hs. apply StronglySorted_app in Hs as (H1 & HsA & HsB).
  inversion HsB as [|? ? _ HpB]; subst. rewrite filter_app, filter_cons_False by (by rewrite Hirr).
  f_equal; apply list_filter_all; apply Forall_forall.
  - intros q Hq. rewrite (H1 q p); [done|done|by left].
  - intros q Hq. rewrite Forall_forall in HpB. rewrite (HpB q Hq). apply orb_true_r.
Qed.

Lemma sorted_same (less less' : T → T → bool) l :
  (∀ a b, less' a b = less a b) → sorted_by less l → sorted_by less' l.
Proof.
  intros E. induction 1 as [|a l Hs IH Ha]; constructor; [done|]. eapply Forall_impl; [exact Ha|]. intros b. by rewrite E.
Qed.

Lemma sorted_insert (less : T → T → bool) ps1 p ps2 :
  strict_weak_order less → (∀ q, q ∈ ps1 → less q p = true) → (∀ q, q ∈ ps2 → less p q = true) →
  filter (λ y, less y p = true) (ps1 ++ ps2) ++ p :: filter (λ y, less p y = true) (ps1 ++ ps2) = ps1 ++ p :: ps2.
Proof.
  intros (Hirr & Htr & _) H1 H2. rewrite !filter_app.
  assert (∀ q r, less q r = true → less r q = false) as Has.
  { intros q r Hqr. destruct (less r q) eqn:E; [|done]. specialize (Htr q r q Hqr E). by rewrite Hirr in Htr. }
  rewrite (list_filter_all (λ y, less y p = true) ps1) by (apply Forall_forall; exact H1).
  rewrite (list_filter_all (λ y, less p y = true) ps2) by (apply Forall_forall; exact H2).
  assert (∀ P `{∀ q : T, Decision (P q)} l, (∀ q, q ∈ l → ¬ P q) → filter P l = []) as Hnil.
  { intros P HP l Hl. induction l as [|q l IH]; [done|]. rewrite filter_cons_False by (apply Hl; by left).
    apply IH. intros r Hr. apply Hl. by right. }
  rewrite (Hnil _ _ ps2), (Hnil _ _ ps1), app_nil_r; [done|..].
  - intros q Hq. by rewrite (Has q p) by auto.
  - intros q Hq. by rewrite (Has p q) by auto.
Qed.

End sorted.

(** ** A sorted list as the ordered tree *)

Definition list_btree {T} : BTree T := {|
  bt_t := list T;
  bt_NewG := [];
  bt_ReplaceOrInsert less b x := filter (λ y, less y x = true) b ++ x :: filter (λ y, less x y = true) b;
  bt_Delete less b x := filter (λ y, less y x || less x y = true) b;
  bt_Len b := Z.of_nat (length b);
  bt_Ascend A b f a := visit f b a;
  bt_AscendGreaterOrEqual A less b x f a := visit f (filter (λ y, less y x = false) b) a;
  bt_DescendLessOrEqual A less b x f a := visit f (reverse (filter (λ y, less x y = false) b)) a;
|}.

Definition list_btree_laws {T} : BTreeLaws (list_btree (T := T)).
Proof. by refine {| bt_items := (λ b, b) : @bt_t T list_btree → list T |}. Defined.
