(* ===== verification/Interval.v ===== *)
(** * Sets of heights as intervals

    [snow/engine/snowman/bootstrap/interval]: the tree of intervals of block heights that
    bootstrapping keeps in memory ([tree.go], [interval.go]), its mirror in the database
    ([state.go]) and the blocks stored beside it ([blocks.go]).

    The tree holds pointers to intervals, which the operations modify in place while they
    are in the tree, so intervals live in a heap.  The ordered tree is [google/btree], a
    package outside the repository: it is the interface of [Btree.v].  The database is any
    writer of [Dbhelpers.v].  Every operation returns its error, if any, with the state it
    leaves; [None] is the dereference of a nil pointer. *)

From S2P Require Import Prelude Btree Packer Database Memdb Versiondb Dbhelpers.

Open Scope Z_scope.

(** ** [interval.go] *)

Record Interval := mkInterval { LowerBound : Z; UpperBound : Z }.

#[export] Instance Interval_eq_dec : EqDecision Interval.
Proof. solve_decision. Defined.

Definition Less (i other : Interval) : bool := UpperBound i <? UpperBound other.

(** The receiver may be nil. *)
Definition Contains (i : option Interval) (height : Z) : bool :=
  match i with
  | None => false
  | Some i => (LowerBound i <=? height) && (height <=? UpperBound i)
  end.

Definition AdjacentToLowerBound (i : option Interval) (height : Z) : bool :=
  match i with
  | None => false
  | Some i => (height <? MaxUint64) && (u64 (height + 1) =? LowerBound i)
  end.

Definition AdjacentToUpperBound (i : option Interval) (height : Z) : bool :=
  match i with
  | None => false
  | Some i => (UpperBound i <? MaxUint64) && (u64 (UpperBound i + 1) =? height)
  end.

Notation ptr := positive.

(** ** [state.go] *)

Definition intervalPrefix : bytes := [0].
Definition blockPrefix : bytes := [1].
Definition prefixLen : nat := 1.

Inductive state_error :=
  | StateError (e : helper_error)
  | errInvalidKeyLength.

Definition makeIntervalKey (upperBound : Z) : bytes :=
  let intervalKey := PackUInt64 upperBound in intervalPrefix ++ intervalKey.

Definition makeBlockKey (height : Z) : bytes :=
  let blockKey := PackUInt64 height in blockPrefix ++ blockKey.

Section state.
Context {W : Type} {K : KeyValueWriterDeleter W} {D : Database}.

Definition PutInterval (w : W) (upperBound lowerBound : Z) : result db_error W :=
  PutUInt64 w (makeIntervalKey upperBound) lowerBound.
Definition DeleteInterval (w : W) (upperBound : Z) : result db_error W :=
  kv_Delete w (makeIntervalKey upperBound).

Definition GetBlockIterator (d : db_t) : iter_t := db_NewIterator d [] blockPrefix.
Definition GetBlockIteratorWithStart (d : db_t) (height : Z) : iter_t :=
  db_NewIterator d (makeBlockKey height) blockPrefix.
Definition GetBlock (d : db_t) (height : Z) : result db_error bytes := db_Get d (makeBlockKey height).
Definition PutBlock (w : W) (height : Z) (bs : bytes) : result db_error W := kv_Put w (makeBlockKey height) bs.
Definition DeleteBlock (w : W) (height : Z) : result db_error W := kv_Delete w (makeBlockKey height).

Definition of_helper {A} (r : result helper_error A) : result state_error A :=
  match r with Ok a => Ok a | Err e => Err (StateError e) end.

(** One turn of the loop of [GetIntervals]: the interval of an entry *)
Definition parse_interval (dbKey value : bytes) : result state_error Interval :=
  if (length dbKey <? prefixLen)%nat then Err errInvalidKeyLength
  else
    let intervalKey := drop prefixLen dbKey in
    let? upperBound := of_helper (ParseUInt64 intervalKey) in
    let? lowerBound := of_helper (ParseUInt64 value) in
    Ok (mkInterval lowerBound upperBound).

Fixpoint get_intervals_loop (fuel : nat) (d : db_t) (it : iter_t) (intervals : list Interval) :
    option (result state_error (list Interval)) :=
  match fuel with
  | O => None
  | S fuel =>
      let '(ok, it) := iter_Next d it in
      if ok then
        match parse_interval (iter_Key it) (iter_Value it) with
        | Err e => Some (Err e)
        | Ok i => get_intervals_loop fuel d it (intervals ++ [i])
        end
      else
        match iter_Error it with
        | Some e => Some (Err (StateError (DbError e)))
        | None => Some (Ok intervals)
        end
  end.

Definition GetIntervals (fuel : nat) (d : db_t) : option (result state_error (list Interval)) :=
  get_intervals_loop fuel d (db_NewIterator d [] intervalPrefix) [].
End state.

(** ** [tree.go] *)

Notation iheap := (gmap ptr Interval).

Definition deref (hp : iheap) (p : ptr) : Interval := default (mkInterval 0 0) (hp !! p).

(** [Less] on pointers *)
Definition less_in (hp : iheap) (p q : ptr) : bool := Less (deref hp p) (deref hp q).

(** [&Interval{...}] *)
Definition alloc (hp : iheap) (i : Interval) : ptr * iheap :=
  let p := fresh (dom hp) in (p, <[p := i]> hp).

Section tree.
Context {B : BTree ptr}.

Record Tree := mkTree { knownHeights : bt_t; numKnownHeights : Z }.

Fixpoint insert_all (hp : iheap) (t : Tree) (intervals : list Interval) : iheap * Tree :=
  match intervals with
  | [] => (hp, t)
  | i :: intervals =>
      let '(p, hp) := alloc hp i in
      insert_all hp (mkTree (bt_ReplaceOrInsert (less_in hp) (knownHeights t) p)
        (u64 (numKnownHeights t + u64 (UpperBound i - LowerBound i + 1)))) intervals
  end.

Definition NewTree {D : Database} (fuel : nat) (hp : iheap) (d : db_t) :
    option (result state_error (iheap * Tree)) :=
  r ← GetIntervals fuel d;
  Some (let? intervals := r in Ok (insert_all hp (mkTree bt_NewG 0) intervals)).

(** The first item of an iteration *)
Definition first_item (p : ptr) (_ : option ptr) : option ptr * bool := (Some p, false).

(** What a pointer variable refers to *)
Definition ref (hp : iheap) (v : option ptr) : option Interval := v ≫= λ p, hp !! p.

Definition Tree_Contains (hp : iheap) (t : Tree) (height : Z) : bool :=
  let '(i, hp) := alloc hp (mkInterval height height) in
  let higher := bt_AscendGreaterOrEqual (less_in hp) (knownHeights t) i first_item None in
  Contains (ref hp higher) height.

(** The pointers of the intervals in order *)
Definition Flatten (t : Tree) : list ptr :=
  bt_Ascend (knownHeights t) (λ item intervals, (intervals ++ [item], true)) [].

Definition Tree_Len (t : Tree) : Z := numKnownHeights t.

Context {W : Type} {K : KeyValueWriterDeleter W}.

(** The heap, the tree and the database that an operation leaves, and its error *)
Notation outcome := (option (option db_error * (iheap * Tree * W))).

(** [return write(db)] *)
Definition finish (hp : iheap) (t : Tree) (w : W) (r : result db_error W) : outcome :=
  match r with
  | Err e => Some (Some e, (hp, t, w))
  | Ok w => Some (None, (hp, t, w))
  end.

Definition Tree_Add (hp : iheap) (t : Tree) (w : W) (height : Z) : outcome :=
  let '(newInterval, hp) := alloc hp (mkInterval height height) in
  let upper := bt_AscendGreaterOrEqual (less_in hp) (knownHeights t) newInterval first_item None in
  if Contains (ref hp upper) height then Some (None, (hp, t, w))
  else
    let lower := bt_DescendLessOrEqual (less_in hp) (knownHeights t) newInterval first_item None in
    let t := mkTree (knownHeights t) (u64 (numKnownHeights t + 1)) in
    let adjacentToLowerBound := AdjacentToLowerBound (ref hp upper) height in
    let adjacentToUpperBound := AdjacentToUpperBound (ref hp lower) height in
    if adjacentToLowerBound && adjacentToUpperBound then
      upper ← upper; lower ← lower; up ← hp !! upper; lo ← hp !! lower;
      match DeleteInterval w (UpperBound lo) with
      | Err e => Some (Some e, (hp, t, w))
      | Ok w =>
          let hp := <[upper := mkInterval (LowerBound lo) (UpperBound up)]> hp in
          let t := mkTree (bt_Delete (less_in hp) (knownHeights t) lower) (numKnownHeights t) in
          finish hp t w (PutInterval w (UpperBound up) (LowerBound lo))
      end
    else if adjacentToLowerBound then
      upper ← upper; up ← hp !! upper;
      let hp := <[upper := mkInterval height (UpperBound up)]> hp in
      finish hp t w (PutInterval w (UpperBound up) height)
    else if adjacentToUpperBound then
      lower ← lower; lo ← hp !! lower;
      match DeleteInterval w (UpperBound lo) with
      | Err e => Some (Some e, (hp, t, w))
      | Ok w =>
          let hp := <[lower := mkInterval (LowerBound lo) height]> hp in
          finish hp t w (PutInterval w height (LowerBound lo))
      end
    else
      let t := mkTree (bt_ReplaceOrInsert (less_in hp) (knownHeights t) newInterval) (numKnownHeights t) in
      finish hp t w (PutInterval w height height).

Definition Tree_Remove (hp : iheap) (t : Tree) (w : W) (height : Z) : outcome :=
  let '(newInterval, hp) := alloc hp (mkInterval height height) in
  let higher := bt_AscendGreaterOrEqual (less_in hp) (knownHeights t) newInterval first_item None in
  if negb (Contains (ref hp higher) height) then Some (None, (hp, t, w))
  else
    let t := mkTree (knownHeights t) (u64 (numKnownHeights t - 1)) in
    higher ← higher; hi ← hp !! higher;
    if LowerBound hi =? UpperBound hi then
      let t := mkTree (bt_Delete (less_in hp) (knownHeights t) higher) (numKnownHeights t) in
      finish hp t w (DeleteInterval w (UpperBound hi))
    else if LowerBound hi =? height then
      let hi := mkInterval (u64 (LowerBound hi + 1)) (UpperBound hi) in
      let hp := <[higher := hi]> hp in
      finish hp t w (PutInterval w (UpperBound hi) (LowerBound hi))
    else if UpperBound hi =? height then
      match DeleteInterval w (UpperBound hi) with
      | Err e => Some (Some e, (hp, t, w))
      | Ok w =>
          let hi := mkInterval (LowerBound hi) (u64 (UpperBound hi - 1)) in
          let hp := <[higher := hi]> hp in
          finish hp t w (PutInterval w (UpperBound hi) (LowerBound hi))
      end
    else
      let new := mkInterval (LowerBound hi) (u64 (height - 1)) in
      let hp := <[newInterval := new]> hp in
      let t := mkTree (bt_ReplaceOrInsert (less_in hp) (knownHeights t) newInterval) (numKnownHeights t) in
      match PutInterval w (UpperBound new) (LowerBound new) with
      | Err e => Some (Some e, (hp, t, w))
      | Ok w =>
          let hi := mkInterval (u64 (height + 1)) (UpperBound hi) in
          let hp := <[higher := hi]> hp in
          finish hp t w (PutInterval w (UpperBound hi) (LowerBound hi))
      end.

(** ** [blocks.go] *)

Definition Add (hp : iheap) (t : Tree) (w : W) (lastAcceptedHeight height : Z) (blkBytes : bytes) :
    option (result db_error bool * (iheap * Tree * W)) :=
  if (height <=? lastAcceptedHeight) || Tree_Contains hp t height then Some (Ok false, (hp, t, w))
  else
    match PutBlock w height blkBytes with
    | Err e => Some (Err e, (hp, t, w))
    | Ok w =>
        '(err, (hp, t, w)) ← Tree_Add hp t w height;
        match err with
        | Some e => Some (Err e, (hp, t, w))
        | None =>
            let nextHeight := u64 (height - 1) in
            Some (Ok (negb (nextHeight =? lastAcceptedHeight) && negb (Tree_Contains hp t nextHeight)), (hp, t, w))
        end
    end.

Definition Remove (hp : iheap) (t : Tree) (w : W) (height : Z) : outcome :=
  match DeleteBlock w height with
  | Err e => Some (Some e, (hp, t, w))
  | Ok w => Tree_Remove hp t w height
  end.
End tree.

(** ** Canonical lists of intervals *)

Definition iv_ok (i : Interval) : Prop := 0 ≤ LowerBound i ≤ UpperBound i ∧ UpperBound i ≤ MaxUint64.

(** Two intervals in order that do not touch. *)
Definition gap (i j : Interval) : Prop := UpperBound i + 1 < LowerBound j.

Definition canonical (l : list Interval) : Prop := Forall iv_ok l ∧ StronglySorted gap l.

Definition covers (l : list Interval) (x : Z) : Prop := ∃ i, i ∈ l ∧ LowerBound i ≤ x ≤ UpperBound i.

Definition card (l : list Interval) : Z := foldr Z.add 0 ((λ i, UpperBound i - LowerBound i + 1) <$> l).

(** All the heights of the intervals *)
Definition heights (l : list Interval) : list Z :=
  l ≫= λ i, seqZ (LowerBound i) (UpperBound i - LowerBound i + 1).

Lemma canonical_nil : canonical [].
Proof. split; constructor. Qed.

Lemma canonical_cons i l : canonical (i :: l) ↔ iv_ok i ∧ canonical l ∧ ∀ j, j ∈ l → gap i j.
Proof.
  unfold canonical. rewrite Forall_cons. split.
  - intros [[Hi Hl] Hs]. inversion Hs; subst. rewrite <- Forall_forall. done.
  - intros (Hi & [Hl Hs] & Hg). split; [done|]. constructor; [done|]. by apply Forall_forall.
Qed.

Lemma canonical_app l1 l2 :
  canonical (l1 ++ l2) ↔ canonical l1 ∧ canonical l2 ∧ ∀ i j, i ∈ l1 → j ∈ l2 → gap i j.
Proof.
  induction l1 as [|i l1 IH]; simpl.
  - split; [|tauto]. intros H. split; [apply canonical_nil|]. split; [done|]. by intros i j ?%not_elem_of_nil.
  - rewrite !canonical_cons, IH. setoid_rewrite elem_of_app. setoid_rewrite elem_of_cons. split.
    + intros (Hi & (H1 & H2 & H3) & Hg). split; [|split]; [by auto|done|]. intros i' j [->|?] ?; auto.
    + intros ((Hi & H1 & Hg) & H2 & H3). split; [done|]. split; [by auto|]. intros j [?|?]; auto.
Qed.

Lemma canonical_ok l i : canonical l → i ∈ l → iv_ok i.
Proof. intros [H _]. rewrite Forall_forall in H. auto. Qed.

Lemma covers_app l1 l2 x : covers (l1 ++ l2) x ↔ covers l1 x ∨ covers l2 x.
Proof. unfold covers. setoid_rewrite elem_of_app. naive_solver. Qed.

Lemma covers_cons i l x : covers (i :: l) x ↔ LowerBound i ≤ x ≤ UpperBound i ∨ covers l x.
Proof. unfold covers. setoid_rewrite elem_of_cons. naive_solver. Qed.

Lemma covers_nil x : ¬ covers [] x.
Proof. by intros (i & ?%not_elem_of_nil & _). Qed.

Lemma card_app l1 l2 : card (l1 ++ l2) = card l1 + card l2.
Proof. unfold card. induction l1 as [|i l1 IH]; [done|]. rewrite <- app_comm_cons, !fmap_cons. cbn [foldr]. rewrite IH. lia. Qed.

Lemma card_cons i l : card (i :: l) = UpperBound i - LowerBound i + 1 + card l.
Proof. done. Qed.

(** The intervals below a height and those that end at it or above *)
Lemma canonical_split l x :
  canonical l → ∃ l1 l2, l = l1 ++ l2 ∧ (∀ i, i ∈ l1 → UpperBound i < x) ∧ (∀ i, i ∈ l2 → x ≤ UpperBound i).
Proof.
  induction l as [|i l IH]; intros Hc.
  - exists [], []. split; [done|]. split; by intros i ?%not_elem_of_nil.
  - pose proof Hc as Hc'. apply canonical_cons in Hc as (Hi & Hl & Hg). destruct (decide (UpperBound i < x)) as [Hx|Hx].
    + destruct (IH Hl) as (l1 & l2 & -> & H1 & H2). exists (i :: l1), l2. split; [done|]. split; [|done].
      intros j [->|?]%elem_of_cons; auto.
    + exists [], (i :: l). split; [done|]. split; [by intros j ?%not_elem_of_nil|].
      intros j Hj. pose proof (canonical_ok _ _ Hc' Hj) as [? ?]. apply elem_of_cons in Hj as [->|Hj]; [lia|].
      specialize (Hg _ Hj). unfold gap in Hg. lia.
Qed.

(** There is one canonical list of a set of heights. *)
Lemma canonical_unique l1 l2 : canonical l1 → canonical l2 → (∀ x, covers l1 x ↔ covers l2 x) → l1 = l2.
Proof.
  assert (Hhead : ∀ i l j k, canonical (i :: l) → canonical (j :: k) →
    (∀ x, covers (i :: l) x → covers (j :: k) x) → (∀ x, covers (j :: k) x → covers (i :: l) x) →
    LowerBound j ≤ LowerBound i ∧ (LowerBound i = LowerBound j → UpperBound i ≤ UpperBound j)).
  { intros i l j k Hi Hj Hij Hji. pose proof (canonical_ok _ i Hi ltac:(by left)) as [? ?].
    apply canonical_cons in Hj as (Hjo & Hk & Hg).
    assert (Hlow : LowerBound j ≤ LowerBound i).
    { destruct (Hij (LowerBound i)) as (z & Hz & ?); [exists i; split; [by left|lia]|].
      apply elem_of_cons in Hz as [->|Hz]; [lia|]. specialize (Hg _ Hz). unfold gap in Hg. destruct Hjo. lia. }
    split; [done|]. intros E. destruct (decide (UpperBound i ≤ UpperBound j)) as [|Hn]; [done|].
    destruct (Hij (UpperBound j + 1)) as (z & Hz & ?).
    { exists i. split; [by left|]. destruct Hjo. lia. }
    apply elem_of_cons in Hz as [->|Hz]; [lia|]. specialize (Hg _ Hz). unfold gap in Hg. lia. }
  revert l2. induction l1 as [|i l1 IH]; intros [|j l2] H1 H2 Hc; [done| | |].
  - destruct (canonical_ok _ j H2 ltac:(by left)). exfalso. apply (covers_nil (LowerBound j)), Hc.
    exists j. split; [by left|lia].
  - destruct (canonical_ok _ i H1 ltac:(by left)). exfalso. apply (covers_nil (LowerBound i)), Hc.
    exists i. split; [by left|lia].
  - destruct (Hhead i l1 j l2 H1 H2) as [Ha Hb]; [by intros; apply Hc..|].
    destruct (Hhead j l2 i l1 H2 H1) as [Ha' Hb']; [by intros; apply Hc..|].
    assert (i = j) as <-. { destruct i as [li ui], j as [lj uj]. simpl in *. f_equal; lia. }
    f_equal. apply canonical_cons in H1 as (Hi & H1 & G1). apply canonical_cons in H2 as (_ & H2 & G2).
    apply IH; [done..|]. intros x. specialize (Hc x). rewrite !covers_cons in Hc. split; intros Hx.
    + destruct Hc as [Hc _]. destruct Hc as [?|?]; [by right| |done]. exfalso.
      destruct Hx as (z & Hz & ?). specialize (G1 _ Hz). unfold gap in G1. lia.
    + destruct Hc as [_ Hc]. destruct Hc as [?|?]; [by right| |done]. exfalso.
      destruct Hx as (z & Hz & ?). specialize (G2 _ Hz). unfold gap in G2. lia.
Qed.

Lemma elem_heights l x : x ∈ heights l ↔ covers l x.
Proof.
  unfold heights, covers. rewrite list_elem_of_bind. setoid_rewrite elem_of_seqZ.
  split; intros (i & ? & ?); exists i; split; (done || lia).
Qed.

Lemma heights_NoDup l : canonical l → NoDup (heights l).
Proof.
  induction l as [|i l IH]; intros Hc; [constructor|]. apply canonical_cons in Hc as (Hi & Hl & Hg).
  change (heights (i :: l)) with (seqZ (LowerBound i) (UpperBound i - LowerBound i + 1) ++ heights l).
  apply NoDup_app. split; [apply NoDup_seqZ|]. split; [|by apply IH].
  intros x Hx%elem_of_seqZ (j & Hj & ?)%elem_heights. specialize (Hg _ Hj). unfold gap in Hg. lia.
Qed.

Lemma length_heights l : canonical l → Z.of_nat (length (heights l)) = card l.
Proof.
  induction l as [|i l IH]; intros Hc; [done|]. apply canonical_cons in Hc as ([Hi _] & Hl & _).
  change (heights (i :: l)) with (seqZ (LowerBound i) (UpperBound i - LowerBound i + 1) ++ heights l).
  rewrite length_app, length_seqZ, card_cons, <- IH by done. lia.
Qed.

(** ** Intervals in the heap *)

Notation points hp := (Forall2 (λ (p : ptr) (i : Interval), hp !! p = Some i)).

Lemma less_in_order hp : strict_weak_order (less_in hp).
Proof.
  unfold strict_weak_order, less_in, Less. split; [intros x; apply Z.ltb_irrefl|].
  split; intros x y z; rewrite !Z.ltb_lt; lia.
Qed.

Lemma points_deref (hp : iheap) p i : hp !! p = Some i → deref hp p = i.
Proof. unfold deref. by intros ->. Qed.

Lemma points_sorted (hp : iheap) ps l : points hp ps l → canonical l → sorted_by (less_in hp) ps.
Proof.
  induction 1 as [|p i ps l Hp Hps IH]; intros Hc; constructor.
  - apply IH. by apply canonical_cons in Hc as (_ & ? & _).
  - apply canonical_cons in Hc as (_ & Hl & Hg). apply Forall_forall. intros q Hq.
    apply list_elem_of_lookup in Hq as [n Hq]. destruct (Forall2_lookup_l _ _ _ _ _ Hps Hq) as (j & Hj & Hqj).
    apply list_elem_of_lookup_2 in Hj. unfold less_in, Less.
    rewrite (points_deref hp p i), (points_deref hp q j) by done.
    specialize (Hg _ Hj). destruct (canonical_ok _ _ Hl Hj). unfold gap in Hg. apply Z.ltb_lt. lia.
Qed.

Lemma points_dom (hp : iheap) ps l p : points hp ps l → p ∈ ps → p ∈ dom hp.
Proof.
  intros Hps Hp. apply list_elem_of_lookup in Hp as [n Hp].
  destruct (Forall2_lookup_l _ _ _ _ _ Hps Hp) as (j & _ & Hj). by apply elem_of_dom_2 in Hj.
Qed.

Lemma points_insert (hp : iheap) ps l p i : points hp ps l → p ∉ ps → points (<[p := i]> hp) ps l.
Proof.
  induction 1 as [|q j ps l Hq Hps IH]; intros Hp; constructor.
  - rewrite lookup_insert_ne; [done|]. intros ->. apply Hp. by left.
  - apply IH. intros ?. apply Hp. by right.
Qed.

Lemma alloc_spec (hp : iheap) ps l i p hp' :
  alloc hp i = (p, hp') → points hp ps l → p ∉ ps ∧ points hp' ps l ∧ hp' !! p = Some i.
Proof.
  unfold alloc. intros [= <- <-] Hps. assert (fresh (dom hp) ∉ ps).
  { intros Hin. by apply (is_fresh (dom hp)), (points_dom hp ps l). }
  split; [done|]. split; [by apply points_insert|apply lookup_insert_eq].
Qed.

Section filter_points.
Context (P : ptr → Prop) `{∀ p, Decision (P p)} (hp : iheap) (ps : list ptr) (l : list Interval) (Hps : points hp ps l).

Lemma filter_points_all : (∀ p i, hp !! p = Some i → i ∈ l → P p) → filter P ps = ps.
Proof using Hps.
  intros HP. apply list_filter_all, Forall_forall. intros p Hp. apply list_elem_of_lookup in Hp as [n Hp].
  destruct (Forall2_lookup_l _ _ _ _ _ Hps Hp) as (j & Hj & Hpj). apply list_elem_of_lookup_2 in Hj. eauto.
Qed.

Lemma filter_points_none : (∀ p i, hp !! p = Some i → i ∈ l → ¬ P p) → filter P ps = [].
Proof using Hps.
  intros HP. induction Hps as [|p i ps' l' Hp Hps' IH]; [done|].
  rewrite filter_cons_False; [|by apply (HP p i); [done|left]].
  apply IH; [done|]. intros q j Hq Hj. apply (HP q j Hq). by right.
Qed.
End filter_points.

(** ** The mirror in the database *)

Definition mirrors (m : gmap bytes bytes) (l : list Interval) : Prop :=
  ∀ k v, HasPrefix k intervalPrefix = true →
    (m !! k = Some v ↔ ∃ i, i ∈ l ∧ k = makeIntervalKey (UpperBound i) ∧ v = PackUInt64 (LowerBound i)).

(** Nothing but interval entries differs. *)
Definition same_blocks (m m' : gmap bytes bytes) : Prop :=
  ∀ k, HasPrefix k intervalPrefix = false → m' !! k = m !! k.

Lemma interval_key_prefix u : HasPrefix (makeIntervalKey u) intervalPrefix = true.
Proof. done. Qed.

Lemma interval_key_inj u v : is_u64 u → is_u64 v → makeIntervalKey u = makeIntervalKey v → u = v.
Proof. intros Hu Hv E. apply PackUInt64_inj; [done..|]. by apply (inj (app intervalPrefix)) in E. Qed.

Lemma iv_ok_u64 i : iv_ok i → is_u64 (LowerBound i) ∧ is_u64 (UpperBound i).
Proof. unfold iv_ok, is_u64. lia. Qed.

Lemma mirrors_put m l l' u lo :
  mirrors m l → is_u64 u → (∀ i, i ∈ l → iv_ok i) →
  (∀ i, i ∈ l' ↔ i = mkInterval lo u ∨ (i ∈ l ∧ UpperBound i ≠ u)) →
  mirrors (<[makeIntervalKey u := PackUInt64 lo]> m) l'.
Proof.
  intros Hm Hu Hok Hl' k v Hk. rewrite lookup_insert. destruct (decide (makeIntervalKey u = k)) as [<-|Hne].
  - split.
    + intros [= <-]. exists (mkInterval lo u). split; [by apply Hl'; left|done].
    + intros (i & [->|[Hi Hne]]%Hl' & E & ->); [done|]. apply interval_key_inj in E; [congruence|done|].
      by apply iv_ok_u64, Hok.
  - rewrite (Hm k v Hk). split; intros (i & Hi & -> & ->); exists i.
    + split; [|done]. apply Hl'. right. split; [done|congruence].
    + split; [|done]. apply Hl' in Hi as [->|[? _]]; done.
Qed.

Lemma mirrors_delete m l l' u :
  mirrors m l → is_u64 u → (∀ i, i ∈ l → iv_ok i) →
  (∀ i, i ∈ l' ↔ i ∈ l ∧ UpperBound i ≠ u) →
  mirrors (delete (makeIntervalKey u) m) l'.
Proof.
  intros Hm Hu Hok Hl' k v Hk. rewrite lookup_delete_Some, (Hm k v Hk). split.
  - intros [Hne (i & Hi & -> & ->)]. exists i. split; [|done]. apply Hl'. split; [done|congruence].
  - intros (i & [Hi Hne]%Hl' & -> & ->). split; [|by eauto]. intros E. apply Hne.
    symmetry. apply interval_key_inj; [done| |done]. by apply iv_ok_u64, Hok.
Qed.

Lemma same_blocks_refl m : same_blocks m m.
Proof. by intros k. Qed.

Lemma same_blocks_trans m1 m2 m3 : same_blocks m1 m2 → same_blocks m2 m3 → same_blocks m1 m3.
Proof. intros H1 H2 k Hk. by rewrite H2, H1. Qed.

Lemma same_blocks_put m u v : same_blocks m (<[makeIntervalKey u := v]> m).
Proof. intros k Hk. rewrite lookup_insert_ne; [done|]. by intros <-. Qed.

Lemma same_blocks_delete m u : same_blocks m (delete (makeIntervalKey u) m).
Proof. intros k Hk. rewrite lookup_delete_ne; [done|]. by intros <-. Qed.

(** ** The operations on the tree *)

Section tree_specs.
Context {B : BTree ptr} {BL : BTreeLaws B}.

(** The tree is the canonical list [l]. *)
Record is_tree (hp : iheap) (t : Tree) (l : list Interval) : Prop := {
  it_nodup : NoDup (bt_items (knownHeights t));
  it_points : points hp (bt_items (knownHeights t)) l;
  it_canonical : canonical l;
  it_num : numKnownHeights t = u64 (card l);
}.

(** The pointers at a height: [ps1] to the intervals that end below it, [ps2] to those
    that end at it or above. *)
Record at_height (hp : iheap) (t : Tree) (x : Z) (ps1 ps2 : list ptr) (l1 l2 : list Interval) : Prop := {
  ah_items : bt_items (knownHeights t) = ps1 ++ ps2;
  ah_points1 : points hp ps1 l1;
  ah_points2 : points hp ps2 l2;
  ah_below : ∀ i, i ∈ l1 → UpperBound i < x;
  ah_above : ∀ i, i ∈ l2 → x ≤ UpperBound i;
}.

Lemma at_height_new hp t l x :
  is_tree hp t l → ∃ p hp' ps1 ps2 l1 l2,
    alloc hp (mkInterval x x) = (p, hp') ∧ l = l1 ++ l2 ∧ at_height hp' t x ps1 ps2 l1 l2
    ∧ is_tree hp' t l ∧ p ∉ ps1 ++ ps2 ∧ hp' !! p = Some (mkInterval x x).
Proof.
  intros [Hn Hp Hc Hu]. destruct (alloc hp (mkInterval x x)) as [p hp'] eqn:Ea.
  destruct (alloc_spec _ _ _ _ _ _ Ea Hp) as (Hfresh & Hp' & Hnew).
  destruct (canonical_split l x Hc) as (l1 & l2 & -> & H1 & H2).
  pose proof Hp' as Hps. apply Forall2_app_inv_r in Hps as (ps1 & ps2 & Hp1 & Hp2 & E).
  exists p, hp', ps1, ps2, l1, l2. rewrite <- E. repeat (split; [done|]). done.
Qed.

Context {hp : iheap} {t : Tree} {x : Z} {ps1 ps2 : list ptr} {l1 l2 : list Interval}.
Context (Hah : at_height hp t x ps1 ps2 l1 l2) (Ht : is_tree hp t (l1 ++ l2)).

Lemma tree_sorted : sorted_by (less_in hp) (bt_items (knownHeights t)).
Proof using Ht. destruct Ht. by eapply points_sorted. Qed.

Lemma less_below p q i : hp !! p = Some i → hp !! q = Some (mkInterval x x) → less_in hp p q = (UpperBound i <? x).
Proof. intros Hp Hq. unfold less_in, Less. by rewrite (points_deref _ _ _ Hp), (points_deref _ _ _ Hq). Qed.
Lemma less_above p q i : hp !! p = Some i → hp !! q = Some (mkInterval x x) → less_in hp q p = (x <? UpperBound i).
Proof. intros Hp Hq. unfold less_in, Less. by rewrite (points_deref _ _ _ Hp), (points_deref _ _ _ Hq). Qed.

(** The first item at the height or above *)
Lemma find_upper p :
  hp !! p = Some (mkInterval x x) →
  bt_AscendGreaterOrEqual (less_in hp) (knownHeights t) p first_item None = head ps2.
Proof using Hah Ht BL.
  intros Hp. destruct Hah as [E H1 H2 Hb Ha].
  rewrite law_AscendGreaterOrEqual by (apply less_in_order || apply tree_sorted).
  rewrite E, filter_app.
  rewrite (filter_points_none _ hp ps1 l1), (filter_points_all _ hp ps2 l2); [by destruct ps2|done| |done|];
    intros q i Hq Hi; rewrite (less_below q p i Hq Hp).
  - apply Z.ltb_ge. by apply Ha.
  - rewrite (proj2 (Z.ltb_lt _ _)); [done|by apply Hb].
Qed.

(** The last item below the height, when no interval ends at it *)
Lemma find_lower p :
  hp !! p = Some (mkInterval x x) → (∀ i, i ∈ l2 → x < UpperBound i) →
  bt_DescendLessOrEqual (less_in hp) (knownHeights t) p first_item None = last ps1.
Proof using Hah Ht BL.
  intros Hp Hab. destruct Hah as [E H1 H2 Hb _].
  rewrite law_DescendLessOrEqual by (apply less_in_order || apply tree_sorted).
  rewrite E, filter_app.
  rewrite (filter_points_all _ hp ps1 l1), (filter_points_none _ hp ps2 l2); [|done| |done|].
  2: { intros q i Hq Hi. rewrite (less_above q p i Hq Hp), (proj2 (Z.ltb_lt _ _)); [done|by apply Hab]. }
  2: { intros q i Hq Hi. rewrite (less_above q p i Hq Hp). apply Z.ltb_ge. apply Z.lt_le_incl. by apply Hb. }
  rewrite app_nil_r. destruct ps1 as [|q qs _] using rev_ind; [done|]. by rewrite reverse_snoc, last_snoc.
Qed.

(** Whether the first interval at the height or above contains it *)
Lemma contains_upper : Contains (ref hp (head ps2)) x = true ↔ covers (l1 ++ l2) x.
Proof using Hah Ht.
  destruct Hah as [E H1 H2 Hb Ha]. destruct Ht as [_ _ Hc _]. rewrite covers_app.
  assert (Hn1 : ¬ covers l1 x) by (intros (i & Hi & ?); specialize (Hb _ Hi); lia).
  apply canonical_app in Hc as (_ & Hc2 & _).
  destruct H2 as [|q i ps2' l2' Hq Hps]; simpl.
  - split; [done|]. by intros [?|?%covers_nil].
  - unfold ref. simpl. rewrite Hq. simpl. rewrite andb_true_iff, !Z.leb_le, covers_cons.
    apply canonical_cons in Hc2 as (Hi & _ & Hg). split; [tauto|]. intros [?|[?|(j & Hj & ?)]]; [done|done|].
    specialize (Ha i ltac:(by left)). specialize (Hg _ Hj). unfold gap in Hg. lia.
Qed.
End tree_specs.

(** ** Replacing a part of a canonical list *)

Lemma canonical_replace A M M' C :
  canonical (A ++ M ++ C) → canonical M' →
  (∀ i j, i ∈ A → j ∈ M' → gap i j) → (∀ j k, j ∈ M' → k ∈ C → gap j k) → canonical (A ++ M' ++ C).
Proof.
  rewrite !canonical_app. intros (HA & (_ & HC & _) & HAC) HM HAM HMC. split; [done|]. split; [done|].
  intros i j Hi [Hj|Hj]%elem_of_app; [by auto|]. apply HAC; [done|]. apply elem_of_app. by right.
Qed.

Lemma canonical_one i : iv_ok i → canonical [i].
Proof. intros Hi. apply canonical_cons. split; [done|]. split; [apply canonical_nil|]. by intros j ?%not_elem_of_nil. Qed.

Lemma covers_one i x : covers [i] x ↔ LowerBound i ≤ x ≤ UpperBound i.
Proof. rewrite covers_cons. split; [|tauto]. by intros [?|?%covers_nil]. Qed.

(** The intervals below a height keep a distance from it when the last does. *)
Lemma below_gap l x :
  canonical l → (∀ i, i ∈ l → UpperBound i < x) → (∀ i, last l = Some i → UpperBound i + 1 ≠ x) →
  ∀ i, i ∈ l → UpperBound i + 1 < x.
Proof.
  intros Hc Hb Hl i Hi. destruct l as [|lo l' _] using rev_ind; [by apply not_elem_of_nil in Hi|].
  rewrite last_snoc in Hl. specialize (Hl lo eq_refl). pose proof (Hb lo ltac:(apply elem_of_app; right; by left)).
  apply elem_of_app in Hi as [Hi|Hi%list_elem_of_singleton]; [|subst; lia].
  pose proof (canonical_ok _ lo Hc ltac:(apply elem_of_app; right; by left)) as [? _].
  apply canonical_app in Hc as (_ & _ & Hg). specialize (Hg i lo Hi ltac:(by left)). unfold gap in Hg. lia.
Qed.

Lemma above_gap l x :
  canonical l → (∀ i, i ∈ l → x < LowerBound i) → (∀ i, head l = Some i → x + 1 ≠ LowerBound i) →
  ∀ i, i ∈ l → x + 1 < LowerBound i.
Proof.
  intros Hc Ha Hh i Hi. destruct l as [|up l']; [by apply not_elem_of_nil in Hi|].
  specialize (Hh up eq_refl). pose proof (Ha up ltac:(by left)).
  apply elem_of_cons in Hi as [->|Hi]; [lia|].
  apply canonical_cons in Hc as ([? _] & _ & Hg). specialize (Hg i Hi). unfold gap in Hg. lia.
Qed.

(** A height that is not covered is below every interval that ends at it or above. *)
Lemma above_uncovered l1 l2 x :
  ¬ covers (l1 ++ l2) x → (∀ i, i ∈ l2 → x ≤ UpperBound i) → ∀ i, i ∈ l2 → x < LowerBound i.
Proof.
  rewrite covers_app. intros Hn Ha i Hi. destruct (decide (LowerBound i ≤ x)); [|lia].
  exfalso. apply Hn. right. exists i. split; [done|]. split; [done|by apply Ha].
Qed.

(** ** Pointers at a position *)

Lemma points_update (hp : iheap) psA p psB A i j C :
  points hp psA A → points hp psB C → hp !! p = Some i → NoDup (psA ++ p :: psB) →
  points (<[p := j]> hp) (psA ++ p :: psB) (A ++ j :: C).
Proof.
  intros HA HC Hp Hn. rewrite NoDup_app in Hn. destruct Hn as (_ & HnA & [HnB _]%NoDup_cons).
  apply Forall2_app; [apply points_insert; [done|]; intros Hin; apply (HnA p Hin); by left|].
  constructor; [apply lookup_insert_eq|by apply points_insert].
Qed.

(** ** Upper bounds identify the intervals *)

Lemma upper_distinct A i C k : canonical (A ++ i :: C) → k ∈ A ++ C → UpperBound k ≠ UpperBound i.
Proof.
  intros Hc Hk. pose proof (canonical_ok _ i Hc ltac:(apply elem_of_app; right; by left)) as [? _].
  apply canonical_app in Hc as (_ & (_ & HC & Hg)%canonical_cons & Hg'). apply elem_of_app in Hk as [Hk|Hk].
  - specialize (Hg' k i Hk ltac:(by left)). unfold gap in Hg'. lia.
  - pose proof (canonical_ok _ _ HC Hk) as [? _]. specialize (Hg k Hk). unfold gap in Hg. lia.
Qed.

Lemma elem_without A i C k : canonical (A ++ i :: C) → k ∈ A ++ C ↔ k ∈ A ++ i :: C ∧ UpperBound k ≠ UpperBound i.
Proof.
  intros Hc. pose proof (upper_distinct A i C k Hc) as Hd. rewrite !elem_of_app, elem_of_cons in *. split; [tauto|].
  intros [[?|[->|?]] ?]; tauto.
Qed.

Lemma elem_put A j C k :
  canonical (A ++ j :: C) → k ∈ A ++ j :: C ↔ k = j ∨ (k ∈ A ++ C ∧ UpperBound k ≠ UpperBound j).
Proof.
  intros Hc. pose proof (upper_distinct A j C k Hc) as Hd. rewrite !elem_of_app, elem_of_cons in *. tauto.
Qed.

Lemma elem_put_over A i j C k :
  canonical (A ++ i :: C) → canonical (A ++ j :: C) → UpperBound i = UpperBound j →
  k ∈ A ++ j :: C ↔ k = j ∨ (k ∈ A ++ i :: C ∧ UpperBound k ≠ UpperBound j).
Proof.
  intros Hi Hj E. rewrite (elem_put A j C k Hj). rewrite (elem_without A i C k Hi), E. tauto.
Qed.

(** ** [Contains], [Add] and [Remove] *)

Section operations.
Context {B : BTree ptr} {BL : BTreeLaws B} {W : Type} {K : KeyValueWriterDeleter W}.
Context {acts : W → gmap bytes bytes → Prop} {WL : WriterLaws K acts}.

Lemma Tree_Contains_spec hp t l x : is_tree hp t l → Tree_Contains hp t x = true ↔ covers l x.
Proof.
  intros Ht. destruct (at_height_new hp t l x Ht) as (p & hp' & ps1 & ps2 & l1 & l2 & Ea & -> & Hah & Ht' & _ & Hp).
  unfold Tree_Contains. rewrite Ea, (find_upper Hah Ht' p Hp). exact (contains_upper Hah Ht').
Qed.

(** An operation succeeds and leaves the set of heights [P] in the tree and in the database. *)
Definition leaves (m : gmap bytes bytes) (P : Z → Prop) (o : option (option db_error * (iheap * Tree * W))) : Prop :=
  ∃ hp t w m' l, o = Some (None, (hp, t, w))
    ∧ is_tree hp t l ∧ acts w m' ∧ mirrors m' l ∧ same_blocks m m' ∧ ∀ x, covers l x ↔ P x.

Lemma finish_put hp t w m m1 lm l u lo (P : Z → Prop) :
  is_tree hp t l → acts w m1 → mirrors m1 lm → same_blocks m m1 → is_u64 u → (∀ i, i ∈ lm → iv_ok i) →
  (∀ i, i ∈ l ↔ i = mkInterval lo u ∨ (i ∈ lm ∧ UpperBound i ≠ u)) → (∀ x, covers l x ↔ P x) →
  leaves m P (finish hp t w (PutInterval w u lo)).
Proof using WL.
  intros Ht Hw Hm Hs Hu Hok Hl HP. destruct (law_kv_Put w m1 (makeIntervalKey u) (PackUInt64 lo) Hw) as (w' & E & Hw').
  unfold PutInterval, PutUInt64. rewrite E. simpl. exists hp, t, w', (<[makeIntervalKey u := PackUInt64 lo]> m1), l. split; [done|]. split; [done|].
  split; [exact Hw'|]. split; [by apply (mirrors_put m1 lm)|]. split; [|done].
  eapply same_blocks_trans; [exact Hs|apply same_blocks_put].
Qed.

Lemma delete_then w m lm u :
  acts w m → mirrors m lm → is_u64 u → (∀ i, i ∈ lm → iv_ok i) →
  ∃ w' m', DeleteInterval w u = Ok w' ∧ acts w' m' ∧ same_blocks m m'
    ∧ ∀ l, (∀ i, i ∈ l ↔ i ∈ lm ∧ UpperBound i ≠ u) → mirrors m' l.
Proof using WL.
  intros Hw Hm Hu Hok. destruct (law_kv_Delete w m (makeIntervalKey u) Hw) as (w' & E & Hw').
  exists w', (delete (makeIntervalKey u) m). split; [exact E|]. split; [done|]. split; [apply same_blocks_delete|].
  intros l Hl. by apply (mirrors_delete m lm).
Qed.

(** The tree with other intervals at some of its pointers *)
Lemma tree_change hp items l n :
  NoDup items → points hp items l → canonical l → n = u64 (card l) → ∀ kh, bt_items kh = items →
  is_tree hp (mkTree kh n) l.
Proof. intros Hn Hp Hc Hu kh E. split; simpl; rewrite ?E; done. Qed.

Lemma u64_card n l d : n = u64 (card l) → u64 (n + d) = u64 (card l + d).
Proof. intros ->. unfold u64. by rewrite Z.add_mod_idemp_l by lia. Qed.

Lemma less_in_same (hp : iheap) r i j :
  hp !! r = Some i → UpperBound j = UpperBound i → ∀ a b, less_in (<[r := j]> hp) a b = less_in hp a b.
Proof.
  intros Hr E. assert (Hu : ∀ a, UpperBound (deref (<[r := j]> hp) a) = UpperBound (deref hp a)).
  { intros a. unfold deref. rewrite lookup_insert. destruct (decide (r = a)) as [<-|]; [by rewrite Hr|done]. }
  intros a b. unfold less_in, Less. by rewrite !Hu.
Qed.

(** One interval of the tree is changed in place. *)
Lemma tree_update hp kh n psA r psC A i j C :
  bt_items kh = psA ++ r :: psC → NoDup (psA ++ r :: psC) →
  points hp psA A → points hp psC C → hp !! r = Some i →
  canonical (A ++ j :: C) → n = u64 (card (A ++ j :: C)) →
  is_tree (<[r := j]> hp) (mkTree kh n) (A ++ j :: C).
Proof.
  intros E Hnd HA HC Hr Hc Hn. eapply tree_change; [exact Hnd| |done|done|exact E].
  by eapply points_update.
Qed.

(** The four cases of [Add] at a height that is not covered *)
Section add_cases.
Context {hp : iheap} {t : Tree} {w : W} {m : gmap bytes bytes} {x : Z} {ps1 ps2 : list ptr} {l1 l2 : list Interval}.
Context (Hah : at_height hp t x ps1 ps2 l1 l2) (Ht : is_tree hp t (l1 ++ l2)).
Context (Hw : acts w m) (Hm : mirrors m (l1 ++ l2)) (Hx : is_u64 x) (Hn : ¬ covers (l1 ++ l2) x).

Let added (y : Z) : Prop := y = x ∨ covers (l1 ++ l2) y.

Lemma all_ok i : i ∈ l1 ++ l2 → iv_ok i.
Proof using Ht. destruct Ht as [_ _ Hc _]. by apply canonical_ok. Qed.

Lemma add_low i : i ∈ l1 → UpperBound i < x.
Proof using Hah. by destruct Hah as [_ _ _ Hb _]; apply Hb. Qed.

Lemma add_high i : i ∈ l2 → x < LowerBound i.
Proof using Hah Hn. destruct Hah as [_ _ _ _ Ha]. by apply (above_uncovered l1 l2). Qed.

(** The interval of the height alone *)
Lemma add_single p :
  p ∉ ps1 ++ ps2 → hp !! p = Some (mkInterval x x) →
  (∀ i, last l1 = Some i → UpperBound i + 1 ≠ x) → (∀ i, head l2 = Some i → x + 1 ≠ LowerBound i) →
  leaves m added (finish hp (mkTree (bt_ReplaceOrInsert (less_in hp) (knownHeights t) p) (u64 (numKnownHeights t + 1)))
    w (PutInterval w x x)).
Proof using All.
  intros Hfresh Hp Hlast Hhead. pose proof Hah as [E H1 H2 Hb Ha]. pose proof Ht as [Hnd Hps Hc Hnum].
  pose proof Hc as (Hc1 & Hc2 & Hg)%canonical_app.
  assert (Hc' : canonical (l1 ++ [mkInterval x x] ++ l2)).
  { apply (canonical_replace l1 [] _ l2); [done|apply canonical_one; unfold iv_ok, is_u64 in *; cbn [LowerBound UpperBound]; lia| |].
    - intros i j' Hi ->%list_elem_of_singleton. unfold gap. simpl. by apply (below_gap l1 x Hc1 add_low).
    - intros j' k ->%list_elem_of_singleton Hk. unfold gap. simpl. by apply (above_gap l2 x Hc2 add_high). }
  eapply (finish_put _ _ w m m (l1 ++ l2) (l1 ++ [mkInterval x x] ++ l2)); [|done|done|apply same_blocks_refl|done|apply all_ok| |].
  - eapply (tree_change _ (ps1 ++ p :: ps2)); [| |done| |].
    + rewrite E in Hnd. by apply NoDup_Permutation_proper with (p :: ps1 ++ ps2);
        [symmetry; apply Permutation_middle|constructor].
    + apply Forall2_app; [done|by constructor].
    + rewrite (u64_card _ _ 1 Hnum). f_equal. rewrite !card_app, !card_cons. cbn [LowerBound UpperBound]. change (card []) with 0. lia.
    + rewrite law_ReplaceOrInsert by (apply less_in_order || by apply (tree_sorted Ht)). rewrite E.
      apply sorted_insert; [apply less_in_order|..]; intros q Hq;
        apply list_elem_of_lookup in Hq as [n Hq].
      * destruct (Forall2_lookup_l _ _ _ _ _ H1 Hq) as (i & Hi%list_elem_of_lookup_2 & Hqi).
        rewrite (less_below q p i Hqi Hp). apply Z.ltb_lt. by apply add_low.
      * destruct (Forall2_lookup_l _ _ _ _ _ H2 Hq) as (i & Hi%list_elem_of_lookup_2 & Hqi).
        rewrite (less_above q p i Hqi Hp). apply Z.ltb_lt. pose proof (add_high _ Hi).
        destruct (canonical_ok _ _ Hc2 Hi). lia.
  - intros i. rewrite !elem_of_app, list_elem_of_singleton. split; [|tauto].
    intros [Hi|[->|Hi]]; [right|by left|right]; (split; [tauto|]).
    + pose proof (add_low _ Hi). lia.
    + pose proof (add_high _ Hi). destruct (canonical_ok _ _ Hc2 Hi). lia.
  - intros y. unfold added. rewrite !covers_app, covers_one. simpl. split; [|naive_solver lia]. intros [?|[?|?]]; auto. left. lia.
Qed.

(** The interval above is extended downwards. *)
Lemma add_to_upper r psC up C :
  ps2 = r :: psC → l2 = up :: C → hp !! r = Some up → points hp psC C →
  (∀ i, last l1 = Some i → UpperBound i + 1 ≠ x) → x + 1 = LowerBound up →
  leaves m added (finish (<[r := mkInterval x (UpperBound up)]> hp) (mkTree (knownHeights t) (u64 (numKnownHeights t + 1)))
    w (PutInterval w (UpperBound up) x)).
Proof using All.
  intros Ep El Hr HC Hlast Hup. pose proof Hah as [E H1 _ Hb _]. pose proof Ht as [Hnd _ Hc Hnum].
  rewrite El in Hc, Hm, Hnum. rewrite Ep in E. rewrite E in Hnd.
  pose proof Hc as (Hc1 & (Hok & _ & HgC)%canonical_cons & _)%canonical_app.
  assert (Hc' : canonical (l1 ++ [mkInterval x (UpperBound up)] ++ C)).
  { apply (canonical_replace l1 [up] _ C); [done|apply canonical_one; unfold iv_ok, is_u64 in *; cbn [LowerBound UpperBound]; lia| |].
    - intros i j' Hi ->%list_elem_of_singleton. unfold gap. simpl. by apply (below_gap l1 x Hc1 add_low).
    - intros j' k ->%list_elem_of_singleton Hk. by apply HgC. }
  eapply (finish_put _ _ w m m (l1 ++ up :: C) (l1 ++ [mkInterval x (UpperBound up)] ++ C));
    [|done|done|apply same_blocks_refl|by apply iv_ok_u64|exact (λ i, canonical_ok _ i Hc)| |].
  - eapply (tree_update _ _ _ ps1 r psC l1 up); try done.
    rewrite (u64_card _ _ 1 Hnum). f_equal. rewrite !card_app, !card_cons. cbn [LowerBound UpperBound]. change (card []) with 0. lia.
  - intros i. exact (elem_put_over l1 up _ C i Hc Hc' eq_refl).
  - intros y. unfold added. rewrite El, !covers_app, covers_one, covers_cons. cbn [LowerBound UpperBound]. destruct Hok.
    assert (x ≤ y ≤ UpperBound up ↔ y = x ∨ LowerBound up ≤ y ≤ UpperBound up) by lia. tauto.
Qed.

(** The interval below is extended upwards. *)
Lemma add_to_lower q psA lo A :
  ps1 = psA ++ [q] → l1 = A ++ [lo] → hp !! q = Some lo → points hp psA A →
  UpperBound lo + 1 = x → (∀ i, head l2 = Some i → x + 1 ≠ LowerBound i) →
  ∃ w', DeleteInterval w (UpperBound lo) = Ok w'
  ∧ leaves m added (finish (<[q := mkInterval (LowerBound lo) x]> hp) (mkTree (knownHeights t) (u64 (numKnownHeights t + 1)))
    w' (PutInterval w' x (LowerBound lo))).
Proof using All.
  intros Ep El Hq HA Hlo Hhead. pose proof Hah as [E _ H2 _ _]. pose proof Ht as [Hnd _ Hc Hnum].
  rewrite El, <- app_assoc in Hc, Hm, Hnum. rewrite Ep, <- app_assoc in E. rewrite E in Hnd.
  pose proof Hc as (HcA & (Hok & Hc2 & _)%canonical_cons & HgA)%canonical_app.
  destruct (delete_then w m _ (UpperBound lo) Hw Hm) as (w' & m' & Ed & Hw' & Hs & Hm');
    [by apply iv_ok_u64|exact (λ i, canonical_ok _ i Hc)|]. exists w'. split; [done|].
  assert (Hc' : canonical (A ++ [mkInterval (LowerBound lo) x] ++ l2)).
  { apply (canonical_replace A [lo] _ l2); [done|apply canonical_one; unfold iv_ok, is_u64 in *; cbn [LowerBound UpperBound]; lia| |].
    - intros i j' Hi ->%list_elem_of_singleton. apply (HgA i lo Hi). by left.
    - intros j' k ->%list_elem_of_singleton Hk. unfold gap. simpl. by apply (above_gap l2 x Hc2 add_high). }
  eapply (finish_put _ _ w' m m' (A ++ l2) (A ++ [mkInterval (LowerBound lo) x] ++ l2));
    [|done|apply Hm'; intros i; by apply elem_without|done|done|..].
  - eapply (tree_update _ _ _ psA q ps2 A lo); try done.
    rewrite (u64_card _ _ 1 Hnum). f_equal. rewrite !card_app, !card_cons. cbn [LowerBound UpperBound]. change (card []) with 0. lia.
  - intros i Hi. apply (canonical_ok _ i Hc). apply (elem_without A lo l2 i Hc) in Hi. tauto.
  - intros i. exact (elem_put A _ l2 i Hc').
  - intros y. unfold added. rewrite El, !covers_app, !covers_one. cbn [LowerBound UpperBound]. destruct Hok.
    assert (LowerBound lo ≤ y ≤ x ↔ y = x ∨ LowerBound lo ≤ y ≤ UpperBound lo) by lia. tauto.
Qed.

(** The intervals below and above are merged. *)
Lemma add_between q psA lo A r psC up C :
  ps1 = psA ++ [q] → l1 = A ++ [lo] → hp !! q = Some lo → points hp psA A →
  ps2 = r :: psC → l2 = up :: C → hp !! r = Some up → points hp psC C →
  UpperBound lo + 1 = x → x + 1 = LowerBound up →
  ∃ w', DeleteInterval w (UpperBound lo) = Ok w'
  ∧ let hp' := <[r := mkInterval (LowerBound lo) (UpperBound up)]> hp in
    leaves m added (finish hp' (mkTree (bt_Delete (less_in hp') (knownHeights t) q) (u64 (numKnownHeights t + 1)))
      w' (PutInterval w' (UpperBound up) (LowerBound lo))).
Proof using All.
  intros Ep1 El1 Hq HA Ep2 El2 Hr HC Hlo Hup. pose proof Hah as [E _ _ _ _]. pose proof Ht as [Hnd _ Hc Hnum].
  pose proof (tree_sorted Ht) as Hsort.
  rewrite El1, El2, <- app_assoc in Hc, Hm, Hnum. rewrite Ep1, Ep2, <- app_assoc in E. rewrite E in Hnd, Hsort.
  simpl in Hc, Hm, Hnum, E, Hnd, Hsort.
  pose proof Hc as (HcA & (Hok & (Hok' & HcC & HgC)%canonical_cons & Hg)%canonical_cons & HgA)%canonical_app.
  destruct (delete_then w m _ (UpperBound lo) Hw Hm) as (w' & m' & Ed & Hw' & Hs & Hm');
    [by apply iv_ok_u64|exact (λ i, canonical_ok _ i Hc)|]. exists w'. split; [done|]. cbv zeta.
  set (j := mkInterval (LowerBound lo) (UpperBound up)). set (hp' := <[r := j]> hp).
  pose proof (less_in_same hp r up j Hr eq_refl) as Hless.
  assert (Hc' : canonical (A ++ [j] ++ C)).
  { apply (canonical_replace A [lo; up] _ C); [done|apply canonical_one; unfold j, iv_ok in *; cbn [LowerBound UpperBound]; lia| |].
    - intros i j' Hi ->%list_elem_of_singleton. apply (HgA i lo Hi). by left.
    - intros j' k ->%list_elem_of_singleton Hk. by apply HgC. }
  assert (Hcu : canonical (A ++ up :: C)).
  { apply (canonical_replace A [lo; up] [up] C); [done|by apply canonical_one| |].
    - intros i j' Hi ->%list_elem_of_singleton. apply (HgA i up Hi). right. by left.
    - intros j' k ->%list_elem_of_singleton Hk. by apply HgC. }
  assert (Hnd' : NoDup (psA ++ r :: psC)).
  { apply NoDup_app in Hnd as (? & Hd & [_ ?]%NoDup_cons). apply NoDup_app. split; [done|]. split; [|done].
    intros z Hz Hin. apply (Hd z Hz). by right. }
  eapply (finish_put _ _ w' m m' (A ++ up :: C) (A ++ [j] ++ C));
    [|done|apply Hm'; intros i; by apply elem_without|done|by apply iv_ok_u64|exact (λ i, canonical_ok _ i Hcu)|..].
  - eapply (tree_update _ _ _ psA r psC A up); try done.
    + rewrite law_bt_Delete, E; [|apply less_in_order|rewrite E].
      * apply (sorted_delete (less_in hp') psA q (r :: psC)); [apply less_in_order|].
        by eapply sorted_same.
      * by eapply sorted_same.
    + rewrite (u64_card _ _ 1 Hnum). f_equal. rewrite !card_app, !card_cons. unfold j. cbn [LowerBound UpperBound]. change (card []) with 0. lia.
  - intros i. exact (elem_put_over A up _ C i Hcu Hc' eq_refl).
  - intros y. unfold added. rewrite El1, El2, !covers_app, !covers_one, covers_cons. unfold j. cbn [LowerBound UpperBound].
    destruct Hok, Hok'.
    assert (LowerBound lo ≤ y ≤ UpperBound up
      ↔ y = x ∨ LowerBound lo ≤ y ≤ UpperBound lo ∨ LowerBound up ≤ y ≤ UpperBound up) by lia. tauto.
Qed.
End add_cases.

Lemma points_head (hp : iheap) ps l : points hp ps l → ref hp (head ps) = head l.
Proof. by intros [|p i ps' l' Hp _]. Qed.

Lemma ref_Some (hp : iheap) p : ref hp (Some p) = hp !! p.
Proof. done. Qed.

Lemma points_snoc (hp : iheap) ps l :
  points hp ps l → (ps = [] ∧ l = []) ∨ ∃ psA q A lo,
    ps = psA ++ [q] ∧ l = A ++ [lo] ∧ hp !! q = Some lo ∧ points hp psA A.
Proof.
  intros Hp. destruct l as [|lo A _] using rev_ind; [left; by apply Forall2_nil_inv_r in Hp|right].
  apply Forall2_app_inv_r in Hp as (psA & psq & HA & Hq & ->). inversion Hq as [|q ? ? ? Hq' Hn]; subst. inversion Hn; subst.
  by exists psA, q, A, lo.
Qed.

Lemma adjacent_lower i x : iv_ok i → is_u64 x → AdjacentToLowerBound (Some i) x = bool_decide (x + 1 = LowerBound i).
Proof.
  unfold iv_ok, is_u64, AdjacentToLowerBound. intros Hi Hx. apply eq_true_iff_eq.
  rewrite andb_true_iff, Z.ltb_lt, Z.eqb_eq, bool_decide_eq_true. split.
  - intros [? <-]. rewrite u64_id; [done|]. unfold is_u64. lia.
  - intros E. rewrite u64_id; [lia|]. unfold is_u64. lia.
Qed.

Lemma adjacent_upper i x : iv_ok i → is_u64 x → AdjacentToUpperBound (Some i) x = bool_decide (UpperBound i + 1 = x).
Proof.
  unfold iv_ok, is_u64, AdjacentToUpperBound. intros Hi Hx. apply eq_true_iff_eq.
  rewrite andb_true_iff, Z.ltb_lt, Z.eqb_eq, bool_decide_eq_true. split.
  - intros [? <-]. rewrite u64_id; [done|]. unfold is_u64. lia.
  - intros E. rewrite u64_id; [lia|]. unfold is_u64. lia.
Qed.

Lemma leaves_same hp t w m l :
  is_tree hp t l → acts w m → mirrors m l → leaves m (covers l) (Some (None, (hp, t, w))).
Proof. intros. exists hp, t, w, m, l. do 5 (split; [done|]). done. Qed.

Lemma leaves_ext m P Q o : leaves m P o → (∀ x, P x ↔ Q x) → leaves m Q o.
Proof.
  intros (hp & t & w & m' & l & ? & ? & ? & ? & ? & HP) HQ. exists hp, t, w, m', l. do 5 (split; [done|]).
  intros x. by rewrite HP.
Qed.

Lemma interval_Tree_Add_spec hp t w m l x :
  is_tree hp t l → acts w m → mirrors m l → is_u64 x →
  leaves m (λ y, y = x ∨ covers l y) (Tree_Add hp t w x).
Proof using BL WL.
  intros Ht0 Hw Hm Hx.
  destruct (at_height_new hp t l x Ht0) as (p & hp' & ps1 & ps2 & l1 & l2 & Ea & -> & Hah & Ht & Hfresh & Hp).
  clear Ht0. unfold Tree_Add. rewrite Ea, (find_upper Hah Ht p Hp). pose proof (contains_upper Hah Ht) as Hcov.
  destruct (Contains (ref hp' (head ps2)) x).
  { eapply leaves_ext; [by apply leaves_same|]. intros y. split; [tauto|]. intros [->|?]; tauto. }
  assert (Hn : ¬ covers (l1 ++ l2) x) by (rewrite <- Hcov; done). clear Hcov.
  assert (Hu : ∀ i, i ∈ l2 → x < UpperBound i).
  { intros i Hi. pose proof (add_high Hah Hn i Hi).
    destruct (all_ok Ht i); [by apply elem_of_app; right|lia]. }
  rewrite (find_lower Hah Ht p Hp Hu). pose proof Hah as [_ Hp1 Hp2 _ _]. pose proof Ht as [_ _ Hc _].
  destruct (points_snoc _ _ _ Hp1) as [[-> ->]|(psA & q & A & lo & -> & -> & Hq & HA)].
  - change (AdjacentToUpperBound (ref hp' (last [])) x) with false. rewrite andb_false_r.
    inversion Hp2 as [|r up psC C Hr HC]; subst ps2 l2; cbn [head].
    { by apply (add_single Hah Ht). }
    rewrite (ref_Some _ r), Hr, adjacent_lower by (done || apply (canonical_ok _ _ Hc); by left).
    case_bool_decide as Hup; cbn [mbind option_bind].
    + rewrite Hr. by apply (add_to_upper Hah Ht Hw Hm Hx Hn r psC up C).
    + apply (add_single Hah Ht); try done. by intros i [= <-].
  - rewrite last_snoc, (ref_Some _ q), Hq.
    assert (Hlo : iv_ok lo) by (apply (canonical_ok _ _ Hc), elem_of_app; left; apply elem_of_app; right; by left).
    rewrite (adjacent_upper lo x) by done.
    inversion Hp2 as [|r up psC C Hr HC]; subst ps2 l2; cbn [head].
    + change (AdjacentToLowerBound (ref hp' None) x) with false. cbn [andb].
      case_bool_decide as Elo; cbn [mbind option_bind].
      * rewrite Hq. cbn [mbind option_bind]. destruct (add_to_lower Hah Ht Hw Hm Hx Hn q psA lo A) as (w' & -> & H); done.
      * apply (add_single Hah Ht); try done. intros i. rewrite last_snoc. by intros [= <-].
    + rewrite (ref_Some _ r), Hr, adjacent_lower by (done || apply (canonical_ok _ _ Hc), elem_of_app; right; by left).
      case_bool_decide as Hup; case_bool_decide as Elo; cbn [andb mbind option_bind]; rewrite ?Hr, ?Hq; cbn [mbind option_bind].
      * destruct (add_between Hah Ht Hw Hm Hx Hn q psA lo A r psC up C) as (w' & -> & H); done.
      * apply (add_to_upper Hah Ht Hw Hm Hx Hn r psC up C); try done. intros i. rewrite last_snoc. by intros [= <-].
      * destruct (add_to_lower Hah Ht Hw Hm Hx Hn q psA lo A) as (w' & -> & H); try done. by intros i [= <-].
      * apply (add_single Hah Ht); try done; [intros i; rewrite last_snoc; by intros [= <-]|by intros i [= <-]].
Qed.

Lemma finish_delete hp t w m lm l u (P : Z → Prop) :
  is_tree hp t l → acts w m → mirrors m lm → is_u64 u → (∀ i, i ∈ lm → iv_ok i) →
  (∀ i, i ∈ l ↔ i ∈ lm ∧ UpperBound i ≠ u) → (∀ x, covers l x ↔ P x) →
  leaves m P (finish hp t w (DeleteInterval w u)).
Proof using WL.
  intros Ht Hw Hm Hu Hok Hl HP. destruct (delete_then w m lm u Hw Hm Hu Hok) as (w' & m' & -> & Hw' & Hs & Hm').
  exists hp, t, w', m', l. do 3 (split; [done|]). split; [by apply Hm'|done].
Qed.

(** The four cases of [Remove] at a height in the interval [hi]. *)
Section remove_cases.
Context {hp : iheap} {t : Tree} {w : W} {m : gmap bytes bytes} {x : Z} {ps1 : list ptr} {r : ptr} {psC : list ptr}.
Context {l1 : list Interval} {hi : Interval} {C : list Interval}.
Context (E : bt_items (knownHeights t) = ps1 ++ r :: psC).
Context (H1 : points hp ps1 l1) (HC : points hp psC C) (Hr : hp !! r = Some hi).
Context (Ht : is_tree hp t (l1 ++ hi :: C)) (Hw : acts w m) (Hm : mirrors m (l1 ++ hi :: C)).
Context (Hx : LowerBound hi ≤ x ≤ UpperBound hi).

Let removed (y : Z) : Prop := y ≠ x ∧ covers (l1 ++ hi :: C) y.

Lemma rm_nodup : NoDup (ps1 ++ r :: psC).
Proof using E Ht. destruct Ht as [Hnd _ _ _]. by rewrite E in Hnd. Qed.

Lemma rm_ok : iv_ok hi.
Proof using Ht. destruct Ht as [_ _ Hc _]. apply (canonical_ok _ _ Hc), elem_of_app. right. by left. Qed.

Lemma rm_card d : u64 (numKnownHeights t + d) = u64 (card (l1 ++ hi :: C) + d).
Proof using Ht. destruct Ht as [_ _ _ Hn]. by apply u64_card. Qed.

(** Replacing [hi] by intervals inside it *)
Lemma rm_canonical M :
  canonical M → (∀ j, j ∈ M → LowerBound hi ≤ LowerBound j ∧ UpperBound j ≤ UpperBound hi) → canonical (l1 ++ M ++ C).
Proof using Ht.
  destruct Ht as [_ _ Hc _]. intros HM Hin. pose proof Hc as (_ & (_ & _ & HgC)%canonical_cons & HgA)%canonical_app.
  apply (canonical_replace l1 [hi] M C); [done|done| |].
  - intros i j Hi Hj. specialize (HgA i hi Hi ltac:(by left)). destruct (Hin j Hj). unfold gap in *. lia.
  - intros j k Hj Hk. specialize (HgC k Hk). destruct (Hin j Hj). unfold gap in *. lia.
Qed.

Lemma rm_covers M :
  (∀ y, covers M y ↔ y ≠ x ∧ LowerBound hi ≤ y ≤ UpperBound hi) → ∀ y, covers (l1 ++ M ++ C) y ↔ removed y.
Proof using Ht Hx.
  destruct Ht as [_ _ Hc _]. pose proof Hc as (_ & (_ & _ & HgC)%canonical_cons & HgA)%canonical_app.
  intros HM y. unfold removed. rewrite !covers_app, covers_cons, HM.
  assert (¬ covers l1 x). { intros (i & Hi & ?). specialize (HgA i hi Hi ltac:(by left)). unfold gap in HgA. lia. }
  assert (¬ covers C x). { intros (i & Hi & ?). specialize (HgC i Hi). unfold gap in HgC. lia. }
  destruct (decide (y = x)) as [->|]; tauto.
Qed.

(** The interval has only this height. *)
Lemma rm_single :
  LowerBound hi = UpperBound hi →
  leaves m removed (finish hp (mkTree (bt_Delete (less_in hp) (knownHeights t) r) (u64 (numKnownHeights t + -1)))
    w (DeleteInterval w (UpperBound hi))).
Proof using All.
  intros Hb. pose proof Ht as [_ _ Hc _]. eapply (finish_delete _ _ w m _ (l1 ++ C)); [|done|exact Hm|..].
  - eapply (tree_change _ (ps1 ++ psC)).
    + pose proof rm_nodup as (? & Hd & [_ ?]%NoDup_cons)%NoDup_app. apply NoDup_app. split; [done|]. split; [|done].
      intros z Hz Hin. apply (Hd z Hz). by right.
    + by apply Forall2_app.
    + apply (rm_canonical []); [apply canonical_nil|]. by intros j ?%not_elem_of_nil.
    + rewrite rm_card. f_equal. rewrite !card_app, card_cons. lia.
    + rewrite law_bt_Delete, E by (apply less_in_order || by apply (tree_sorted Ht)).
      apply sorted_delete; [apply less_in_order|]. rewrite <- E. apply (tree_sorted Ht).
  - apply iv_ok_u64, rm_ok.
  - exact (λ i, canonical_ok _ i Hc).
  - intros i. by apply elem_without.
  - apply (rm_covers []). intros y. split; [by intros ?%covers_nil|lia].
Qed.

(** The height is the lower bound. *)
Lemma rm_lowest :
  LowerBound hi ≠ UpperBound hi → LowerBound hi = x →
  leaves m removed (finish (<[r := mkInterval (LowerBound hi + 1) (UpperBound hi)]> hp)
    (mkTree (knownHeights t) (u64 (numKnownHeights t + -1))) w (PutInterval w (UpperBound hi) (LowerBound hi + 1))).
Proof using All.
  intros Hb Hl. pose proof Ht as [_ _ Hc _]. pose proof rm_ok as Hok.
  assert (Hc' : canonical (l1 ++ [mkInterval (LowerBound hi + 1) (UpperBound hi)] ++ C)).
  { apply rm_canonical; [apply canonical_one; unfold iv_ok in *; cbn [LowerBound UpperBound]; lia|].
    intros j ->%list_elem_of_singleton. cbn [LowerBound UpperBound]. lia. }
  eapply (finish_put _ _ w m m _ (l1 ++ [mkInterval (LowerBound hi + 1) (UpperBound hi)] ++ C));
    [|done|exact Hm|apply same_blocks_refl|by apply iv_ok_u64|exact (λ i, canonical_ok _ i Hc)| |].
  - eapply (tree_update _ _ _ ps1 r psC l1 hi); try done; [apply rm_nodup|].
    rewrite rm_card. f_equal. rewrite !card_app, !card_cons. cbn [LowerBound UpperBound]. change (card []) with 0. lia.
  - intros i. exact (elem_put_over l1 hi _ C i Hc Hc' eq_refl).
  - apply rm_covers. intros y. rewrite covers_one. cbn [LowerBound UpperBound]. lia.
Qed.

(** The height is the upper bound. *)
Lemma rm_highest :
  LowerBound hi ≠ UpperBound hi → UpperBound hi = x →
  ∃ w', DeleteInterval w (UpperBound hi) = Ok w'
  ∧ leaves m removed (finish (<[r := mkInterval (LowerBound hi) (UpperBound hi - 1)]> hp)
    (mkTree (knownHeights t) (u64 (numKnownHeights t + -1))) w' (PutInterval w' (UpperBound hi - 1) (LowerBound hi))).
Proof using All.
  intros Hb Hl. pose proof Ht as [_ _ Hc _]. pose proof rm_ok as Hok.
  destruct (delete_then w m _ (UpperBound hi) Hw Hm) as (w' & m' & Ed & Hw' & Hs & Hm');
    [by apply iv_ok_u64|exact (λ i, canonical_ok _ i Hc)|]. exists w'. split; [done|].
  assert (Hc' : canonical (l1 ++ [mkInterval (LowerBound hi) (UpperBound hi - 1)] ++ C)).
  { apply rm_canonical; [apply canonical_one; unfold iv_ok in *; cbn [LowerBound UpperBound]; lia|].
    intros j ->%list_elem_of_singleton. cbn [LowerBound UpperBound]. lia. }
  eapply (finish_put _ _ w' m m' (l1 ++ C) (l1 ++ [mkInterval (LowerBound hi) (UpperBound hi - 1)] ++ C));
    [|done|apply Hm'; intros i; by apply elem_without|done|..].
  - eapply (tree_update _ _ _ ps1 r psC l1 hi); try done; [apply rm_nodup|].
    rewrite rm_card. f_equal. rewrite !card_app, !card_cons. cbn [LowerBound UpperBound]. change (card []) with 0. lia.
  - unfold iv_ok, is_u64 in *. lia.
  - intros i Hi. apply (canonical_ok _ i Hc). apply (elem_without l1 hi C i Hc) in Hi. tauto.
  - intros i. exact (elem_put l1 _ C i Hc').
  - apply rm_covers. intros y. rewrite covers_one. cbn [LowerBound UpperBound]. lia.
Qed.

(** The interval is split. *)
Lemma rm_middle p :
  LowerBound hi < x < UpperBound hi → p ∉ ps1 ++ r :: psC →
  let new := mkInterval (LowerBound hi) (x - 1) in
  let hp1 := <[p := new]> hp in
  ∃ w', PutInterval w (x - 1) (LowerBound hi) = Ok w'
  ∧ leaves m removed (finish (<[r := mkInterval (x + 1) (UpperBound hi)]> hp1)
    (mkTree (bt_ReplaceOrInsert (less_in hp1) (knownHeights t) p) (u64 (numKnownHeights t + -1)))
    w' (PutInterval w' (UpperBound hi) (x + 1))).
Proof using All.
  intros Hb Hp new hp1. pose proof Ht as [_ _ Hc _]. pose proof rm_ok as Hok.
  pose proof Hc as (_ & (_ & HcC & HgC)%canonical_cons & HgA)%canonical_app.
  destruct (law_kv_Put w m (makeIntervalKey (x - 1)) (PackUInt64 (LowerBound hi)) Hw) as (w' & Ep & Hw').
  exists w'. split; [exact Ep|]. set (rest := mkInterval (x + 1) (UpperBound hi)).
  assert (Hnew : iv_ok new) by (unfold new, iv_ok in *; cbn [LowerBound UpperBound]; lia).
  assert (Hc' : canonical (l1 ++ [new; rest] ++ C)).
  { apply rm_canonical.
    - apply canonical_cons. split; [done|]. split; [apply canonical_one; unfold rest, iv_ok in *; cbn [LowerBound UpperBound]; lia|].
      intros j ->%list_elem_of_singleton. unfold gap, new, rest. cbn [LowerBound UpperBound]. lia.
    - intros j [->| ->%list_elem_of_singleton]%elem_of_cons; unfold new, rest; cbn [LowerBound UpperBound]; lia. }
  assert (Hps : points hp1 (ps1 ++ r :: psC) (l1 ++ hi :: C)).
  { apply points_insert; [|done]. apply Forall2_app; [done|]. by constructor. }
  assert (Hnp : hp1 !! p = Some new) by apply lookup_insert_eq.
  assert (Hitems : bt_items (bt_ReplaceOrInsert (less_in hp1) (knownHeights t) p) = ps1 ++ p :: r :: psC).
  { rewrite law_ReplaceOrInsert, E; [|apply less_in_order|rewrite E; by eapply points_sorted].
    apply sorted_insert; [apply less_in_order|..]; intros q Hq; apply list_elem_of_lookup in Hq as [n Hq].
    - destruct (Forall2_lookup_l _ _ _ _ _ H1 Hq) as (i & Hi%list_elem_of_lookup_2 & Hqi).
      assert (hp1 !! q = Some i) as Hqi'.
      { unfold hp1. rewrite lookup_insert_ne; [done|]. intros <-. apply Hp, elem_of_app. left. by eapply list_elem_of_lookup_2. }
      unfold less_in, Less. rewrite (points_deref _ _ _ Hqi'), (points_deref _ _ _ Hnp). apply Z.ltb_lt.
      specialize (HgA i hi Hi ltac:(by left)). unfold gap, new in *. cbn [LowerBound UpperBound]. lia.
    - apply Forall2_app_inv in Hps as [_ Hps2]; [|by eapply Forall2_length].
      destruct (Forall2_lookup_l _ _ _ _ _ Hps2 Hq) as (i & Hi%list_elem_of_lookup_2 & Hqi).
      unfold less_in, Less. rewrite (points_deref _ _ _ Hqi), (points_deref _ _ _ Hnp). apply Z.ltb_lt.
      unfold new. cbn [LowerBound UpperBound]. apply elem_of_cons in Hi as [->|Hi]; [lia|].
      specialize (HgC i Hi). pose proof (canonical_ok _ _ HcC Hi) as [? _]. unfold gap in *. lia. }
  eapply (finish_put _ _ w' m _ (l1 ++ new :: hi :: C) (l1 ++ [new; rest] ++ C));
    [|exact Hw'| |apply same_blocks_put|by apply iv_ok_u64|..].
  - eapply (tree_change _ (ps1 ++ p :: r :: psC)); [| |exact Hc'| |exact Hitems].
    + eapply NoDup_Permutation_proper; [symmetry; apply Permutation_middle|]. constructor; [done|apply rm_nodup].
    + pose proof rm_nodup as (? & Hd & [? _]%NoDup_cons)%NoDup_app.
      apply not_elem_of_app in Hp as [Hp1 [Hpr HpC]%not_elem_of_cons].
      apply Forall2_app; [|constructor; [|constructor]].
      * apply points_insert; [by apply points_insert|]. intros Hin. apply (Hd r Hin). by left.
      * by rewrite lookup_insert_ne.
      * apply lookup_insert_eq.
      * apply points_insert; [by apply points_insert|done].
    + rewrite rm_card. f_equal. rewrite !card_app, !card_cons. unfold new, rest. cbn [LowerBound UpperBound].
      change (card []) with 0. lia.
  - apply (mirrors_put m (l1 ++ hi :: C)); [done|unfold iv_ok, is_u64 in *; lia|exact (λ i, canonical_ok _ i Hc)|].
    intros i. rewrite !elem_of_app, !elem_of_cons. split; [|unfold new; tauto].
    intros [Hi|[->|[->|Hi]]]; [right|by left|right|right]; (split; [tauto|]).
    + specialize (HgA i hi Hi ltac:(by left)). unfold gap in HgA. lia.
    + lia.
    + specialize (HgC i Hi). pose proof (canonical_ok _ _ HcC Hi) as [? _]. unfold gap in *. lia.
  - intros i. rewrite elem_of_app, !elem_of_cons. intros [Hi|[->|[->|Hi]]]; try done.
    + apply (canonical_ok _ _ Hc), elem_of_app. by left.
    + by apply (canonical_ok _ _ HcC).
  - intros i. assert (Hd : i ∈ l1 ++ [new] ++ C → UpperBound i ≠ UpperBound hi).
    { intros Hi. apply (upper_distinct (l1 ++ [new]) rest C i).
      - by rewrite <- app_assoc.
      - by rewrite <- app_assoc. }
    rewrite !elem_of_app, !elem_of_cons, elem_of_nil in *. fold rest. split.
    + destruct (decide (i = rest)); tauto.
    + intros [?|[[?|[?|[->|?]]] ?]]; tauto.
  - apply rm_covers. intros y. rewrite covers_cons, covers_one. unfold new, rest. cbn [LowerBound UpperBound]. lia.
Qed.
End remove_cases.

Lemma Tree_Remove_spec hp t w m l x :
  is_tree hp t l → acts w m → mirrors m l →
  leaves m (λ y, y ≠ x ∧ covers l y) (Tree_Remove hp t w x).
Proof using BL WL.
  intros Ht0 Hw Hm.
  destruct (at_height_new hp t l x Ht0) as (p & hp' & ps1 & ps2 & l1 & l2 & Ea & -> & Hah & Ht & Hfresh & Hp).
  clear Ht0. unfold Tree_Remove. rewrite Ea, (find_upper Hah Ht p Hp). pose proof (contains_upper Hah Ht) as Hcov.
  destruct (Contains (ref hp' (head ps2)) x) eqn:Econ; cbn [negb].
  2: { eapply leaves_ext; [by apply leaves_same|]. intros y. split; [|tauto]. intros Hy. split; [|done].
       intros ->. apply Hcov in Hy. congruence. }
  pose proof Hah as [E Hp1 Hp2 _ Ha]. pose proof Ht as [_ _ Hc _].
  inversion Hp2 as [|r hi psC C Hr HC]; subst ps2 l2; [done|]. cbn [head mbind option_bind] in *.
  rewrite (ref_Some _ r), Hr in Econ. unfold Contains in Econ. apply andb_true_iff in Econ as [Elo Ehi].
  apply Z.leb_le in Elo, Ehi. rewrite Hr. cbn [mbind option_bind].
  assert (Hok : iv_ok hi) by (apply (canonical_ok _ _ Hc), elem_of_app; right; by left).
  assert (Hu : ∀ z, LowerBound hi ≤ z ≤ UpperBound hi → u64 z = z).
  { intros z Hz. apply u64_id. unfold iv_ok, is_u64 in *. lia. }
  change (numKnownHeights t - 1) with (numKnownHeights t + -1).
  destruct (Z.eqb_spec (LowerBound hi) (UpperBound hi)) as [Eb|Eb]; [exact (rm_single E Hp1 HC Hr Ht Hw Hm (conj Elo Ehi) Eb)|].
  destruct (Z.eqb_spec (LowerBound hi) x) as [El|El].
  { cbn [LowerBound UpperBound]. rewrite (Hu (LowerBound hi + 1)) by lia.
    exact (rm_lowest E Hp1 HC Hr Ht Hw Hm (conj Elo Ehi) Eb El). }
  destruct (Z.eqb_spec (UpperBound hi) x) as [Eu|Eu].
  { destruct (rm_highest E Hp1 HC Hr Ht Hw Hm (conj Elo Ehi) Eb Eu) as (w' & -> & H).
    cbn [LowerBound UpperBound]. rewrite (Hu (UpperBound hi - 1)) by lia. exact H. }
  cbn [LowerBound UpperBound]. rewrite (Hu (x - 1)), (Hu (x + 1)) by lia.
  destruct (rm_middle E Hp1 HC Hr Ht Hw Hm (conj Elo Ehi) p) as (w' & -> & H); [lia|done|]. exact H.
Qed.
End operations.

(** ** The tree of a database *)

Lemma Flatten_items {B : BTree ptr} {BL : BTreeLaws B} t : Flatten t = bt_items (knownHeights t).
Proof.
  unfold Flatten. rewrite law_Ascend.
  apply visit_collect.
Qed.

Lemma Flatten_spec {B : BTree ptr} {BL : BTreeLaws B} hp t l : is_tree hp t l → deref hp <$> Flatten t = l.
Proof.
  intros [_ Hp _ _]. rewrite Flatten_items. induction Hp as [|p i ps l' Hp' _ IH]; [done|].
  rewrite fmap_cons, IH. by rewrite (points_deref _ _ _ Hp').
Qed.

Lemma insert_all_spec {B : BTree ptr} {BL : BTreeLaws B} l : ∀ hp t l0,
  is_tree hp t l0 → canonical (l0 ++ l) →
  is_tree (insert_all hp t l).1 (insert_all hp t l).2 (l0 ++ l).
Proof.
  induction l as [|i l IH]; intros hp t l0 Ht Hc; cbn [insert_all]; [by rewrite app_nil_r|].
  destruct (alloc hp i) as [p hp'] eqn:Ea. pose proof Ht as [Hn Hps Hc0 Hnum].
  destruct (alloc_spec _ _ _ _ _ _ Ea Hps) as (Hfresh & Hps' & Hp).
  rewrite (cons_middle i l0 l), app_assoc in Hc |- *. apply IH; [|done].
  pose proof Hc as (Hc1 & _ & _)%canonical_app.
  assert (Hsort : sorted_by (less_in hp') (bt_items (knownHeights t) ++ [p])).
  { apply (points_sorted hp' _ (l0 ++ [i])); [|done]. apply Forall2_app; [done|by repeat constructor]. }
  apply StronglySorted_app in Hsort as (Hlt & Hs0 & _).
  apply (tree_change _ (bt_items (knownHeights t) ++ [p])).
  - apply NoDup_app. split; [done|]. split; [|apply NoDup_singleton]. by intros q Hq ->%list_elem_of_singleton.
  - apply Forall2_app; [done|by repeat constructor].
  - done.
  - rewrite Hnum, card_app, card_cons. change (card []) with 0. unfold u64.
    rewrite Z.add_mod_idemp_l, Z.add_mod_idemp_r by lia. f_equal. lia.
  - rewrite law_ReplaceOrInsert by (apply less_in_order || done).
    pose proof (sorted_insert (less_in hp') (bt_items (knownHeights t)) p []) as Hi. rewrite app_nil_r in Hi.
    apply Hi; [apply less_in_order| |by intros q ?%not_elem_of_nil]. intros q Hq. apply Hlt; [done|by left].
Qed.

(** The entries of the intervals *)
Definition interval_entry (i : Interval) : entry := (makeIntervalKey (UpperBound i), PackUInt64 (LowerBound i)).

Lemma mirrors_listing m l e :
  mirrors m l → canonical l → is_listing m [] intervalPrefix e → e = interval_entry <$> l.
Proof.
  intros Hm Hc Hl. apply sorted_entries_unique; [apply Hl| |].
  - clear Hm Hl. induction l as [|i l IH]; [constructor|]. pose proof Hc as (Hi & Hc' & Hg)%canonical_cons.
    rewrite fmap_cons. constructor; [by apply IH|]. apply Forall_forall. intros e' (j & -> & Hj)%list_elem_of_fmap.
    unfold entry_lt, key_lt, interval_entry, makeIntervalKey. cbn [fst]. rewrite bytes_lt_app.
    pose proof (canonical_ok _ _ Hc' Hj) as Hjo. rewrite PackUInt64_lt by by apply iv_ok_u64.
    apply Z.ltb_lt. specialize (Hg j Hj). destruct Hjo. unfold gap in Hg. lia.
  - intros [k v]. rewrite (ls_elem _ _ _ _ Hl), list_elem_of_fmap. split.
    + intros (Hk & Hp & _). apply (Hm k v Hp) in Hk as (i & Hi & -> & ->). by exists i.
    + intros (i & [= -> ->] & Hi). split; [|done]. apply Hm; [done|]. by exists i.
Qed.

Lemma parse_interval_entry i :
  iv_ok i → parse_interval (interval_entry i).1 (interval_entry i).2 = Ok i.
Proof.
  intros [Hl Hu]%iv_ok_u64. unfold parse_interval, interval_entry, makeIntervalKey, prefixLen. cbn [fst snd].
  change (length (intervalPrefix ++ PackUInt64 (UpperBound i)) <? 1)%nat with false. cbn iota.
  change (drop 1 (intervalPrefix ++ PackUInt64 (UpperBound i))) with (PackUInt64 (UpperBound i)).
  rewrite !ParseUInt64_Pack by done. by destruct i.
Qed.

Section reload.
Context {D : Database} {L : DatabaseLaws D}.

Lemma get_intervals_spec d m : db_ok d → contents d = Some m → ∀ l fuel it acc,
  iter_ok it → iter_Error it = None → iter_pending it = interval_entry <$> l → Forall iv_ok l → (length l < fuel)%nat →
  get_intervals_loop fuel d it acc = Some (Ok (acc ++ l)).
Proof.
  intros Hd Hm. induction l as [|i l IH]; intros [|fuel] it acc Hok He Ep Hl Hf; simpl in Hf; try lia.
  - simpl. destruct (law_Next d m it Hd Hm Hok) as (_ & Hn & He'). destruct (iter_Next d it) as [ok it'].
    cbn [fst snd] in *. rewrite Ep in Hn. simpl in Hn. destruct Hn as [-> _]. rewrite He', He. by rewrite app_nil_r.
  - rewrite Forall_cons in Hl. destruct Hl as [Hi Hl]. cbn [get_intervals_loop].
    destruct (law_Next d m it Hd Hm Hok) as (Hok' & Hn & He'). destruct (iter_Next d it) as [ok it'].
    cbn [fst snd] in *. rewrite Ep, fmap_cons in Hn. destruct (interval_entry i) as [k v] eqn:Ei.
    destruct Hn as (-> & -> & -> & Ep'). pose proof (parse_interval_entry i Hi) as Hpi. rewrite Ei in Hpi.
    cbn [fst snd] in Hpi. rewrite Hpi. rewrite (IH fuel it' (acc ++ [i])); [|done|congruence|done|done|lia].
    by rewrite <- app_assoc.
Qed.

Lemma NewTree_spec {B : BTree ptr} {BL : BTreeLaws B} d m l fuel hp :
  db_ok d → contents d = Some m → mirrors m l → canonical l → (length l < fuel)%nat →
  ∃ hp' t, NewTree fuel hp d = Some (Ok (hp', t)) ∧ is_tree hp' t l.
Proof.
  intros Hd Hm Hmir Hc Hf. destruct (law_NewIterator d m [] intervalPrefix Hd Hm) as (Hit & Hl & He).
  unfold NewTree, GetIntervals.
  rewrite (get_intervals_spec d m Hd Hm l); [|done|done|by apply (mirrors_listing m)|by destruct Hc|done].
  cbn [mbind option_bind result_bind app].
  exists (insert_all hp (mkTree bt_NewG 0) l).1, (insert_all hp (mkTree bt_NewG 0) l).2. split; [by destruct (insert_all _ _ _)|].
  apply (insert_all_spec l hp (mkTree bt_NewG 0) []); [|done].
  apply (tree_change _ []); [constructor|constructor|apply canonical_nil|done|apply law_NewG].
Qed.
End reload.

(** ** Blocks and their heights *)

(** The blocks of the database by height *)
Definition blocks_mirror (m : gmap bytes bytes) (M : gmap Z bytes) : Prop :=
  ∀ k v, HasPrefix k blockPrefix = true →
    (m !! k = Some v ↔ ∃ h, is_u64 h ∧ k = makeBlockKey h ∧ M !! h = Some v).

(** The tree, the database and the abstract store [M] agree. *)
Definition is_store {B : BTree ptr} {BL : BTreeLaws B} (hp : iheap) (t : Tree) (m : gmap bytes bytes) (M : gmap Z bytes) : Prop :=
  blocks_mirror m M ∧ ∃ l, is_tree hp t l ∧ mirrors m l ∧ ∀ x, covers l x ↔ is_Some (M !! x).

(** Adding a block above the last accepted one at a free height, and whether its parent is
    then wanted. *)
Definition store_Add (M : gmap Z bytes) (lastAcceptedHeight height : Z) (blk : bytes) : bool * gmap Z bytes :=
  if bool_decide (height ≤ lastAcceptedHeight ∨ is_Some (M !! height)) then (false, M)
  else (bool_decide (height - 1 ≠ lastAcceptedHeight ∧ M !! (height - 1) = None), <[height := blk]> M).

Lemma block_key_inj u v : is_u64 u → is_u64 v → makeBlockKey u = makeBlockKey v → u = v.
Proof. intros Hu Hv E. apply PackUInt64_inj; [done..|]. by apply (inj (app blockPrefix)) in E. Qed.

Lemma blocks_mirror_same m m' M : blocks_mirror m M → same_blocks m m' → blocks_mirror m' M.
Proof.
  intros Hb Hs k v Hk. rewrite Hs; [by apply Hb|].
  destruct k as [|y k]; [done|]. cbn [HasPrefix blockPrefix] in Hk. apply andb_true_iff in Hk as [<-%Z.eqb_eq _]. done.
Qed.

Lemma blocks_mirror_put m M h b :
  blocks_mirror m M → is_u64 h → blocks_mirror (<[makeBlockKey h := b]> m) (<[h := b]> M).
Proof.
  intros Hb Hh k v Hk. rewrite lookup_insert. destruct (decide (makeBlockKey h = k)) as [<-|Hne].
  - split; [intros [= <-]; exists h; by rewrite lookup_insert_eq|].
    intros (h' & Hh' & E & Hv). apply block_key_inj in E as <-; [|done..]. by rewrite lookup_insert_eq in Hv.
  - rewrite (Hb k v Hk). split; intros (h' & Hh' & -> & Hv); exists h'; (split; [done|]); (split; [done|]).
    + rewrite lookup_insert_ne; [done|congruence].
    + rewrite lookup_insert_ne in Hv; [done|congruence].
Qed.

Lemma blocks_mirror_delete m M h :
  blocks_mirror m M → is_u64 h → blocks_mirror (delete (makeBlockKey h) m) (delete h M).
Proof.
  intros Hb Hh k v Hk. rewrite lookup_delete_Some, (Hb k v Hk). split.
  - intros [Hne (h' & Hh' & -> & Hv)]. exists h'. split; [done|]. split; [done|]. rewrite lookup_delete_ne; [done|congruence].
  - intros (h' & Hh' & -> & Hv). apply lookup_delete_Some in Hv as [Hne Hv]. split; [|by eauto].
    intros E. by apply block_key_inj in E.
Qed.

(** Writing a block leaves the intervals. *)
Lemma mirrors_blocks m m' l h :
  mirrors m l → (∀ k, k ≠ makeBlockKey h → m' !! k = m !! k) → mirrors m' l.
Proof. intros Hm Hs k v Hk. rewrite Hs; [by apply Hm|]. by intros ->. Qed.

Lemma covers_u64 {B : BTree ptr} {BL : BTreeLaws B} hp t l x : is_tree hp t l → covers l x → is_u64 x.
Proof.
  intros [_ _ Hc _] (i & Hi & ?). destruct (canonical_ok _ _ Hc Hi). unfold is_u64. lia.
Qed.

Section store.
Context {B : BTree ptr} {BL : BTreeLaws B} {W : Type} {K : KeyValueWriterDeleter W}.
Context {acts : W → gmap bytes bytes → Prop} {WL : WriterLaws K acts}.

Lemma interval_Add_spec hp t w m M la h b :
  is_store hp t m M → acts w m → is_u64 h → is_u64 la →
  ∃ hp' t' w' m', Add hp t w la h b = Some (Ok (store_Add M la h b).1, (hp', t', w'))
    ∧ acts w' m' ∧ is_store hp' t' m' (store_Add M la h b).2.
Proof using BL WL.
  intros (Hb & l & Ht & Hm & HM) Hw Hh Hla. unfold Add, store_Add.
  assert (Hcon : (h <=? la) || Tree_Contains hp t h = bool_decide (h ≤ la ∨ is_Some (M !! h))).
  { apply eq_true_iff_eq. rewrite orb_true_iff, Z.leb_le, (Tree_Contains_spec hp t l h Ht), HM. by rewrite bool_decide_eq_true. }
  rewrite Hcon. case_bool_decide as Hc; cbn [fst snd].
  { exists hp, t, w, m. split; [done|]. split; [done|]. split; [done|]. by exists l. }
  destruct (law_kv_Put w m (makeBlockKey h) b Hw) as (w1 & Ep & Hw1). unfold PutBlock. rewrite Ep.
  assert (Hm1 : mirrors (<[makeBlockKey h := b]> m) l).
  { apply (mirrors_blocks m _ l h Hm). intros k Hk. by rewrite lookup_insert_ne. }
  destruct (interval_Tree_Add_spec hp t w1 _ l h Ht Hw1 Hm1 Hh) as (hp' & t' & w' & m' & l' & Ea & Ht' & Hw' & Hm' & Hs & Hcov).
  rewrite Ea. cbn [mbind option_bind]. exists hp', t', w', m'. split; [|split; [done|]].
  - repeat f_equal. rewrite u64_id by (unfold is_u64 in *; lia). apply eq_true_iff_eq.
    rewrite bool_decide_eq_true, andb_true_iff, !negb_true_iff, Z.eqb_neq.
    rewrite <- not_true_iff_false, (Tree_Contains_spec hp' t' l' (h - 1) Ht'), Hcov, HM.
    split; [|intros [? ?]; split; [done|]; intros [?|[? ?]]; [lia|congruence]].
    intros [? Hn]. split; [done|]. destruct (M !! (h - 1)) eqn:E; [|done]. exfalso. apply Hn. right. by eexists.
  - split; [by eapply blocks_mirror_same, Hs; apply blocks_mirror_put|]. exists l'. split; [done|]. split; [done|].
    intros x. rewrite Hcov, HM, lookup_insert_is_Some'. naive_solver.
Qed.

Lemma Remove_spec hp t w m M h :
  is_store hp t m M → acts w m → is_u64 h →
  ∃ hp' t' w' m', Remove hp t w h = Some (None, (hp', t', w')) ∧ acts w' m' ∧ is_store hp' t' m' (delete h M).
Proof using BL WL.
  intros (Hb & l & Ht & Hm & HM) Hw Hh. unfold Remove, DeleteBlock.
  destruct (law_kv_Delete w m (makeBlockKey h) Hw) as (w1 & -> & Hw1).
  assert (Hm1 : mirrors (delete (makeBlockKey h) m) l).
  { apply (mirrors_blocks m _ l h Hm). intros k Hk. by rewrite lookup_delete_ne. }
  destruct (Tree_Remove_spec hp t w1 _ l h Ht Hw1 Hm1) as (hp' & t' & w' & m' & l' & Ea & Ht' & Hw' & Hm' & Hs & Hcov).
  exists hp', t', w', m'. split; [done|]. split; [done|].
  split; [by eapply blocks_mirror_same, Hs; apply blocks_mirror_delete|]. exists l'. split; [done|]. split; [done|].
  intros x. rewrite Hcov, HM, lookup_delete_is_Some. naive_solver.
Qed.

(** What a client reads of a tree that agrees with a store: membership, the canonical
    intervals and the number of heights modulo [2^64]. *)
Lemma store_reads hp t m M :
  is_store hp t m M →
  (∀ h, Tree_Contains hp t h = bool_decide (is_Some (M !! h)))
  ∧ Tree_Len t = u64 (Z.of_nat (base.size M))
  ∧ canonical (deref hp <$> Flatten t)
  ∧ (∀ h, covers (deref hp <$> Flatten t) h ↔ is_Some (M !! h)).
Proof using BL.
  intros (Hb & l & Ht & Hm & HM). rewrite (Flatten_spec hp t l Ht). split; [|split; [|split]].
  - intros h. apply eq_true_iff_eq. by rewrite (Tree_Contains_spec hp t l h Ht), HM, bool_decide_eq_true.
  - pose proof Ht as [_ _ Hc Hn]. unfold Tree_Len. rewrite Hn, <- length_heights by done. do 2 f_equal.
    rewrite <- size_dom. rewrite <- (size_list_to_set (C := gset Z) (heights l)) by by apply heights_NoDup. f_equal.
    apply leibniz_equiv. intros x. rewrite elem_of_list_to_set, elem_heights, HM, elem_of_dom. done.
  - by destruct Ht.
  - done.
Qed.
End store.

(** ** Sequences of operations *)

Inductive store_op :=
  | OpAdd (lastAcceptedHeight height : Z) (blkBytes : bytes)
  | OpRemove (height : Z).

Definition op_ok (o : store_op) : Prop :=
  match o with OpAdd la h _ => is_u64 la ∧ is_u64 h | OpRemove h => is_u64 h end.

(** The operations one after the other, with the answers of [Add]; an error stops the run. *)
Fixpoint run_ops {B : BTree ptr} {W} {K : KeyValueWriterDeleter W} (hp : iheap) (t : Tree) (w : W) (ops : list store_op) :
    option (list bool * (iheap * Tree * W)) :=
  match ops with
  | [] => Some ([], (hp, t, w))
  | OpAdd la h b :: ops =>
      '(r, (hp, t, w)) ← Add hp t w la h b;
      match r with
      | Err _ => None
      | Ok wants => '(answers, s) ← run_ops hp t w ops; Some (wants :: answers, s)
      end
  | OpRemove h :: ops =>
      '(err, (hp, t, w)) ← Remove hp t w h;
      match err with Some _ => None | None => run_ops hp t w ops end
  end.

(** The same on the abstract store *)
Fixpoint store_run (M : gmap Z bytes) (ops : list store_op) : list bool * gmap Z bytes :=
  match ops with
  | [] => ([], M)
  | OpAdd la h b :: ops =>
      let '(wants, M) := store_Add M la h b in
      let '(answers, M) := store_run M ops in (wants :: answers, M)
  | OpRemove h :: ops => store_run (delete h M) ops
  end.

Lemma run_ops_spec {B : BTree ptr} {BL : BTreeLaws B} {W} {K : KeyValueWriterDeleter W}
    {acts : W → gmap bytes bytes → Prop} {WL : WriterLaws K acts} ops : ∀ hp t w m M,
  is_store hp t m M → acts w m → Forall op_ok ops →
  ∃ hp' t' w' m', run_ops hp t w ops = Some ((store_run M ops).1, (hp', t', w'))
    ∧ acts w' m' ∧ is_store hp' t' m' (store_run M ops).2.
Proof.
  induction ops as [|[la h b|h] ops IH]; intros hp t w m M Hs Hw Hok; cbn [run_ops store_run].
  - by exists hp, t, w, m.
  - apply Forall_cons in Hok as [[Hla Hh] Hok].
    destruct (interval_Add_spec hp t w m M la h b Hs Hw Hh Hla) as (hp1 & t1 & w1 & m1 & -> & Hw1 & Hs1). cbn [mbind option_bind].
    destruct (store_Add M la h b) as [wants M1]. cbn [fst snd] in Hs1 |- *.
    destruct (IH hp1 t1 w1 m1 M1 Hs1 Hw1 Hok) as (hp2 & t2 & w2 & m2 & -> & Hw2 & Hs2). cbn [mbind option_bind].
    destruct (store_run M1 ops) as [answers M2]. by exists hp2, t2, w2, m2.
  - apply Forall_cons in Hok as [Hh Hok].
    destruct (Remove_spec hp t w m M h Hs Hw Hh) as (hp1 & t1 & w1 & m1 & -> & Hw1 & Hs1). cbn [mbind option_bind].
    by apply (IH hp1 t1 w1 m1 (delete h M)).
Qed.

(** C9. A run of [interval.Add] and [interval.Remove] on a tree and a database that agree
    with a store of blocks by height never fails and does what the store does: [Add]
    answers whether the parent height is now wanted; afterwards [Contains] is membership,
    [Len] the number of stored heights modulo [2^64], [Flatten] the only canonical list
    (disjoint, not adjacent, in order) of intervals that covers the stored heights, each
    stored block is read back, and [NewTree] on the database, as after a restart, gives a
    tree with the same intervals. *)
Theorem interval_store_refines {B : BTree ptr} {BL : BTreeLaws B} {D : Database} {L : DatabaseLaws D}
    (hp : iheap) (t : Tree) (d : db_t) (m : gmap bytes bytes) (M : gmap Z bytes) (ops : list store_op) :
  db_ok d → contents d = Some m → is_store hp t m M → Forall op_ok ops →
  let '(answers, M') := store_run M ops in
  ∃ hp' t' d', run_ops hp t d ops = Some (answers, (hp', t', d'))
    ∧ (∀ h, Tree_Contains hp' t' h = bool_decide (is_Some (M' !! h)))
    ∧ Tree_Len t' = u64 (Z.of_nat (base.size M'))
    ∧ (∀ l, canonical l ∧ (∀ h, covers l h ↔ is_Some (M' !! h)) ↔ l = deref hp' <$> Flatten t')
    ∧ (∀ h, is_u64 h → GetBlock d' h = match M' !! h with Some b => Ok b | None => Err ErrNotFound end)
    ∧ ∀ fuel hp0, (length (Flatten t') < fuel)%nat →
      ∃ hp1 t1, NewTree fuel hp0 d' = Some (Ok (hp1, t1)) ∧ deref hp1 <$> Flatten t1 = deref hp' <$> Flatten t'.
Proof.
  intros Hd Hm Hs Hok.
  destruct (run_ops_spec (WL := db_writer_laws (db_ident d)) ops hp t d m M Hs (conj Hd (conj eq_refl Hm)) Hok)
    as (hp' & t' & d' & m' & E & (Hd' & _ & Hm') & Hs').
  destruct (store_run M ops) as [answers M']. cbn [fst snd] in *. exists hp', t', d'. split; [done|].
  destruct (store_reads hp' t' m' M' Hs') as (Hc & Hl & Hcan & Hcov). split; [done|]. split; [done|]. split; [|split].
  - intros l. split; [|by intros ->]. intros [Hlc Hlcov]. apply canonical_unique; [done|done|].
    intros h. by rewrite Hcov, Hlcov.
  - intros h Hh. unfold GetBlock. rewrite law_Get, Hm' by done. destruct Hs' as [Hb _].
    destruct (M' !! h) as [b|] eqn:Eh.
    + assert (m' !! makeBlockKey h = Some b) as ->; [|done]. apply Hb; [done|]. by exists h.
    + destruct (m' !! makeBlockKey h) as [b|] eqn:Em; [|done]. apply Hb in Em as (h' & Hh' & E' & Hv); [|done].
      apply block_key_inj in E' as <-; [congruence|done..].
  - intros fuel hp0 Hf. destruct Hs' as (_ & l & Ht' & Hmir & _). pose proof Ht' as [_ _ Hcl _].
    rewrite (Flatten_spec hp' t' l Ht'). rewrite <- (length_fmap (deref hp')), (Flatten_spec hp' t' l Ht') in Hf.
    destruct (NewTree_spec d' m' l fuel hp0 Hd' Hm' Hmir Hcl Hf) as (hp1 & t1 & ? & Ht1). exists hp1, t1.
    split; [done|]. by apply Flatten_spec.
Qed.

(** ** Examples *)

Lemma empty_store : is_store (BL := list_btree_laws) ∅ (mkTree (B := list_btree) [] 0) ∅ ∅.
Proof.
  split; [intros k v _; split; [done|by intros (h & _ & _ & ?)]|]. exists []. split; [|split].
  - split; [constructor|constructor|apply canonical_nil|done].
  - intros k v _. split; [done|]. by intros (i & ?%not_elem_of_nil & _).
  - intros x. split; [by intros ?%covers_nil|by intros [? ?]].
Qed.

Definition sample_ops : list store_op :=
  [OpAdd 0 5 [50]; OpAdd 0 7 [70]; OpAdd 0 6 [60]; OpAdd 0 7 [71]; OpAdd 0 1 [10]; OpRemove 6].

Lemma interval_store_refines_witness :
  ∃ hp' t' d', run_ops (B := list_btree) (K := db_writer (D := memdb_database sample_range))
      ∅ (mkTree (B := list_btree) [] 0) mem_New sample_ops = Some ([true; true; false; false; false], (hp', t', d'))
    ∧ Tree_Len t' = 3 ∧ deref hp' <$> Flatten t' = [mkInterval 1 1; mkInterval 5 5; mkInterval 7 7].
Proof.
  destruct (interval_store_refines (B := list_btree) (BL := list_btree_laws) (D := memdb_database sample_range)
    (L := memdb_laws sample_range (λ _ _, reflexivity _)) ∅ (mkTree (B := list_btree) [] 0) mem_New ∅ ∅ sample_ops)
    as (hp' & t' & d' & H1 & _ & H2 & H3 & _).
  - exact I.
  - reflexivity.
  - exact empty_store.
  - repeat constructor; unfold is_u64, MaxUint64; lia.
  - exists hp', t', d'. split; [exact H1|]. split; [exact H2|]. symmetry. apply H3. split.
    + repeat constructor; unfold iv_ok, gap, MaxUint64; cbn [LowerBound UpperBound]; lia.
    + intros h. rewrite !covers_cons. cbn [LowerBound UpperBound]. split.
      * intros [?|[?|[?|?%covers_nil]]]; [assert (h = 1) as -> by lia|assert (h = 5) as -> by lia|assert (h = 7) as -> by lia|done]; by eexists.
      * intros Hh. destruct (decide (h = 1)); [lia|]. destruct (decide (h = 5)); [lia|]. destruct (decide (h = 7)); [lia|].
        exfalso. cbn in Hh. apply lookup_delete_is_Some in Hh as [? Hh].
        repeat (apply lookup_insert_is_Some' in Hh as [Hh|Hh]; [congruence|]). by destruct Hh.
Defined.
