(* ===== verification/Bootstrap.v ===== *)
(** * Fetching and executing blocks while bootstrapping

    [snow/engine/snowman/bootstrap/storage.go]: which blocks are missing below the fetched
    ones ([getMissingBlockIDs]), storing a fetched block and the ancestors that came with it
    ([process]), and executing everything that was stored, in batches ([execute]).

    The blocks, the parser and what [Verify] and [Accept] do are the virtual machine's:
    parameters.  [halted n] is the answer to the [n]-th question whether to halt.  Logging,
    the estimate of the remaining time and [Compact], whose errors are only logged, have no
    effect on the state and are left out.  The tree, the database and the interval
    operations are those of [Interval.v]; [execute] passes its batch to [interval.Remove],
    so the tree is ahead of the database until the batch is written. *)

From S2P Require Import Prelude Btree Packer Database Memdb Versiondb Dbhelpers Interval.

Open Scope Z_scope.

Definition batchWritePeriod : Z := 64.
Definition iteratorReleasePeriod : Z := 1024.

(** [snowman.Block] *)
Record Block := mkBlock { blk_ID : Z; blk_Parent : Z; blk_Height : Z; blk_Bytes : bytes }.

Section storage.
Context {B : BTree ptr} {D : Database}.
Context {vm_error vm : Type}.
Context (ParseBlock : bytes → result vm_error Block).
Context (Verify Accept : vm → Block → option vm_error * vm).

Inductive exec_error :=
  | ExecDb (e : db_error)
  | ExecParse (e : vm_error)
  | ExecVerify (blk : Block) (e : vm_error)
  | ExecAccept (blk : Block) (e : vm_error).

Definition to_exec {A} (r : result db_error A) : result exec_error A :=
  match r with Ok a => Ok a | Err e => Err (ExecDb e) end.

(** The loop over the intervals *)
Fixpoint missing_loop (d : db_t) (lastHeightToFetch : Z) (intervals : list Interval) (missingBlocks : gset Z) :
    result exec_error (gset Z) :=
  match intervals with
  | [] => Ok missingBlocks
  | i :: intervals =>
      if LowerBound i <=? lastHeightToFetch then missing_loop d lastHeightToFetch intervals missingBlocks
      else
        let? blkBytes := to_exec (GetBlock d (LowerBound i)) in
        match ParseBlock blkBytes with
        | Err e => Err (ExecParse e)
        | Ok blk =>
            let parentID := blk_Parent blk in
            missing_loop d lastHeightToFetch intervals ({[ parentID ]} ∪ missingBlocks)
        end
  end.

Definition getMissingBlockIDs (hp : iheap) (d : db_t) (t : Tree) (lastAcceptedHeight : Z) :
    result exec_error (gset Z) :=
  let intervals := deref hp <$> Flatten t in
  let lastHeightToFetch := u64 (lastAcceptedHeight + 1) in
  missing_loop d lastHeightToFetch intervals ∅.

(** The identifier to fetch next, if any, and the state: the missing identifiers, the heap,
    the tree and the database.  [None] is running out of fuel. *)
Fixpoint process {W} {K : KeyValueWriterDeleter W} (fuel : nat) (hp : iheap) (t : Tree) (w : W)
    (missingBlockIDs : gset Z) (lastAcceptedHeight : Z) (blk : Block) (ancestors : gmap Z Block) :
    option (result db_error (option Z) * (gset Z * iheap * Tree * W)) :=
  match fuel with
  | O => None
  | S fuel =>
      let blkID := blk_ID blk in
      let missingBlockIDs := missingBlockIDs ∖ {[ blkID ]} in
      let height := blk_Height blk in
      let blkBytes := blk_Bytes blk in
      '(r, (hp, t, w)) ← Add hp t w lastAcceptedHeight height blkBytes;
      match r with
      | Err e => Some (Err e, (missingBlockIDs, hp, t, w))
      | Ok false => Some (Ok None, (missingBlockIDs, hp, t, w))
      | Ok true =>
          let parentID := blk_Parent blk in
          match ancestors !! parentID with
          | None => Some (Ok (Some parentID), (missingBlockIDs, hp, t, w))
          | Some parent => process fuel hp t w missingBlockIDs lastAcceptedHeight parent ancestors
          end
      end
  end.

(** The state of [execute]: what it shares with its caller and its local variables. *)
Record exec_state := mkExec {
  e_heap : iheap;
  e_tree : Tree;
  e_db : db_t;
  e_vm : vm;
  e_batch : batch_t;
  processedSinceBatchWrite : Z;
  e_iterator : iter_t;
  processedSinceIteratorRelease : Z;
}.

(** The closure [writeBatch] *)
Definition writeBatch (s : exec_state) : option db_error * exec_state :=
  if processedSinceBatchWrite s =? 0 then (None, s)
  else
    let s := mkExec (e_heap s) (e_tree s) (e_db s) (e_vm s) (e_batch s) 0 (e_iterator s) (processedSinceIteratorRelease s) in
    match batch_Write (e_db s) (e_batch s) with
    | Err e => (Some e, s)
    | Ok d => (None, mkExec (e_heap s) (e_tree s) d (e_vm s) (batch_Reset (e_batch s)) 0 (e_iterator s)
                            (processedSinceIteratorRelease s))
    end.

Definition set_iterator (s : exec_state) (it : iter_t) (n : Z) : exec_state :=
  mkExec (e_heap s) (e_tree s) (e_db s) (e_vm s) (e_batch s) (processedSinceBatchWrite s) it n.

Definition set_vm (s : exec_state) (v : vm) : exec_state :=
  mkExec (e_heap s) (e_tree s) (e_db s) v (e_batch s) (processedSinceBatchWrite s) (e_iterator s)
         (processedSinceIteratorRelease s).

(** The periodic part of an iteration: writing the batch and getting a new iterator *)
Definition periodic (s : exec_state) (height : Z) : option db_error * exec_state :=
  let '(err, s) := if batchWritePeriod <=? processedSinceBatchWrite s then writeBatch s else (None, s) in
  match err with
  | Some e => (Some e, s)
  | None =>
      let s := set_iterator s (e_iterator s) (processedSinceIteratorRelease s + 1) in
      if iteratorReleasePeriod <=? processedSinceIteratorRelease s then
        match iter_Error (e_iterator s) with
        | Some e => (Some e, s)
        | None =>
            let '(err, s) := writeBatch s in
            match err with
            | Some e => (Some e, s)
            | None => (None, set_iterator s (GetBlockIteratorWithStart (e_db s) (u64 (height + 1))) 0)
            end
        end
      else (None, s)
  end.

(** Verifying and accepting the block of an iteration *)
Definition run_block (s : exec_state) (blk : Block) : option exec_error * exec_state :=
  let '(err, v) := Verify (e_vm s) blk in
  match err with
  | Some e => (Some (ExecVerify blk e), set_vm s v)
  | None =>
      let '(err, v) := Accept v blk in
      match err with
      | Some e => (Some (ExecAccept blk e), set_vm s v)
      | None => (None, set_vm s v)
      end
  end.

Fixpoint execute_loop (fuel : nat) (halted : nat → bool) (n : nat) (lastAcceptedHeight : Z) (s : exec_state) :
    option (option exec_error * exec_state) :=
  match fuel with
  | O => None
  | S fuel =>
      let finished (s : exec_state) :=
        let '(err, s) := writeBatch s in
        match err with
        | Some e => Some (Some (ExecDb e), s)
        | None => Some (ExecDb <$> iter_Error (e_iterator s), s)
        end in
      if halted n then finished s
      else
        let '(ok, it) := iter_Next (e_db s) (e_iterator s) in
        let s := set_iterator s it (processedSinceIteratorRelease s) in
        if negb ok then finished s
        else
          let blkBytes := iter_Value it in
          match ParseBlock blkBytes with
          | Err e => Some (Some (ExecParse e), s)
          | Ok blk =>
              let height := blk_Height blk in
              '(err, (hp, t, b)) ← Remove (e_heap s) (e_tree s) (e_batch s) height;
              let s := mkExec hp t (e_db s) (e_vm s) b (processedSinceBatchWrite s) (e_iterator s)
                              (processedSinceIteratorRelease s) in
              match err with
              | Some e => Some (Some (ExecDb e), s)
              | None =>
                  let s := mkExec hp t (e_db s) (e_vm s) b (processedSinceBatchWrite s + 1) (e_iterator s)
                                  (processedSinceIteratorRelease s) in
                  let '(err, s) := periodic s height in
                  match err with
                  | Some e => Some (Some (ExecDb e), s)
                  | None =>
                      if height <=? lastAcceptedHeight then execute_loop fuel halted (S n) lastAcceptedHeight s
                      else
                        let '(err, s) := run_block s blk in
                        match err with
                        | Some e => Some (Some e, s)
                        | None => execute_loop fuel halted (S n) lastAcceptedHeight s
                        end
                  end
              end
          end
  end.

(** The error and the heap, the tree, the database and the virtual machine *)
Definition execute (fuel : nat) (halted : nat → bool) (hp : iheap) (t : Tree) (d : db_t) (v : vm)
    (lastAcceptedHeight : Z) : option (option exec_error * exec_state) :=
  execute_loop fuel halted 0 lastAcceptedHeight
    (mkExec hp t d v (db_NewBatch d) 0 (GetBlockIterator d) 0).
End storage.

(** ** What the stored blocks are *)

(** The blocks by height *)
Definition blocks_map (bl : list Block) : gmap Z bytes :=
  list_to_map ((λ blk, (blk_Height blk, blk_Bytes blk)) <$> bl).

Definition block_entry (blk : Block) : entry := (makeBlockKey (blk_Height blk), blk_Bytes blk).

Notation by_height := (StronglySorted (λ a b : Block, blk_Height a < blk_Height b)).

(** A database holds the blocks and the intervals of their heights, so a tree can be made
    of it. *)
Definition disk_ok (m : gmap bytes bytes) (M : gmap Z bytes) : Prop :=
  blocks_mirror m M ∧ ∃ l, canonical l ∧ mirrors m l ∧ ∀ x, covers l x ↔ is_Some (M !! x).

Lemma store_disk {B : BTree ptr} {BL : BTreeLaws B} hp t m M : is_store hp t m M → disk_ok m M.
Proof. intros (Hb & l & Ht & Hm & Hc). split; [done|]. exists l. by destruct Ht. Qed.

Lemma by_height_nodup bl : by_height bl → NoDup (blk_Height <$> bl).
Proof.
  induction 1 as [|b bl Hs IH Hb]; [constructor|]. rewrite fmap_cons. constructor; [|done].
  intros (b' & E & Hin)%list_elem_of_fmap. rewrite Forall_forall in Hb. specialize (Hb b' Hin). simpl in Hb. lia.
Qed.

Lemma blocks_map_lookup bl h b :
  by_height bl → blocks_map bl !! h = Some b ↔ ∃ blk, blk ∈ bl ∧ blk_Height blk = h ∧ blk_Bytes blk = b.
Proof.
  intros Hs. unfold blocks_map. rewrite <- elem_of_list_to_map.
  - rewrite list_elem_of_fmap. split; [intros (blk & [= -> ->] & ?); by exists blk|].
    intros (blk & ? & <- & <-). by exists blk.
  - rewrite <- list_fmap_compose. by apply by_height_nodup.
Qed.

Lemma blocks_map_delete blk bl :
  by_height (blk :: bl) → delete (blk_Height blk) (blocks_map (blk :: bl)) = blocks_map bl.
Proof.
  intros Hs%by_height_nodup. rewrite fmap_cons in Hs. apply NoDup_cons in Hs as [Hn _].
  unfold blocks_map. rewrite fmap_cons. simpl. apply delete_insert_id.
  apply not_elem_of_list_to_map. by rewrite <- list_fmap_compose.
Qed.

Lemma by_height_drop k bl : by_height bl → by_height (drop k bl).
Proof.
  revert k. induction bl as [|b bl IH]; intros [|k] Hs; simpl; try done.
  apply IH. by inversion Hs.
Qed.

(** The entries an iterator over the blocks returns *)
Lemma blocks_listing m bl start l :
  by_height bl → Forall (λ b, is_u64 (blk_Height b)) bl → blocks_mirror m (blocks_map bl) →
  (∀ blk, blk ∈ bl → bytes_lt (makeBlockKey (blk_Height blk)) start = false) →
  is_listing m start blockPrefix l → l = block_entry <$> bl.
Proof.
  intros Hs Hu Hb Hst Hl. apply sorted_entries_unique; [apply Hl| |].
  - clear Hb Hl Hst. induction Hs as [|b bl Hs IH Hb]; [constructor|]. rewrite fmap_cons.
    apply Forall_cons in Hu as [Hu1 Hu]. constructor; [by apply IH|].
    apply Forall_forall. intros e (b' & -> & Hin)%list_elem_of_fmap. rewrite Forall_forall in Hb, Hu.
    unfold entry_lt, key_lt, block_entry, makeBlockKey. cbn [fst]. rewrite bytes_lt_app, PackUInt64_lt by auto.
    apply Z.ltb_lt. by apply Hb.
  - intros [k v]. rewrite (ls_elem _ _ _ _ Hl), list_elem_of_fmap. split.
    + intros (Hk & Hp & _). apply (Hb k v Hp) in Hk as (h & Hh & -> & Hv).
      apply blocks_map_lookup in Hv as (blk & ? & <- & <-); [|done]. by exists blk.
    + intros (blk & [= -> ->] & Hin). split; [|split; [done|by apply Hst]].
      apply Hb; [done|]. exists (blk_Height blk). rewrite Forall_forall in Hu. split; [by apply Hu|]. split; [done|].
      apply blocks_map_lookup; [done|]. by exists blk.
Qed.

Lemma mod_succ (p k : nat) : (0 < p)%nat →
  (S k mod p = if decide (k mod p + 1 = p) then 0 else k mod p + 1)%nat.
Proof.
  intros Hp. pose proof (Nat.div_mod_eq k p). pose proof (Nat.mod_upper_bound k p ltac:(lia)).
  case_decide.
  - symmetry. apply (Nat.mod_unique _ _ (k / p + 1)); lia.
  - symmetry. apply (Nat.mod_unique _ _ (k / p)); lia.
Qed.

(** ** [execute] *)

Ltac exec_cbn :=
  cbn [set_iterator set_vm e_heap e_tree e_db e_vm e_batch processedSinceBatchWrite e_iterator
       processedSinceIteratorRelease].

Section execution.
Context {B : BTree ptr} {BL : BTreeLaws B} {D : Database} {L : DatabaseLaws D}.
Context {vm_error vm : Type}.
Context (ParseBlock : bytes → result vm_error Block).
Context (Verify Accept : vm → Block → option vm_error * vm).

(** The blocks one after the other without batches, iterators or a tree: the error, the
    state of the virtual machine and the number of blocks taken. *)
Fixpoint exec_ref (halted : nat → bool) (n : nat) (lastAcceptedHeight : Z) (v : vm) (bl : list Block) :
    option (@exec_error vm_error) * vm * nat :=
  if halted n then (None, v, 0%nat)
  else
    match bl with
    | [] => (None, v, 0%nat)
    | blk :: bl =>
        if blk_Height blk <=? lastAcceptedHeight then
          let '(err, v, k) := exec_ref halted (S n) lastAcceptedHeight v bl in (err, v, S k)
        else
          match Verify v blk with
          | (Some e, v) => (Some (ExecVerify blk e), v, 1%nat)
          | (None, v) =>
              match Accept v blk with
              | (Some e, v) => (Some (ExecAccept blk e), v, 1%nat)
              | (None, v) => let '(err, v, k) := exec_ref halted (S n) lastAcceptedHeight v bl in (err, v, S k)
              end
          end
    end.

(** Without a halt or an error every block is taken. *)
Lemma exec_ref_all halted la bl : ∀ n v, (∀ k, halted k = false) →
  (exec_ref halted n la v bl).1.1 = None → (exec_ref halted n la v bl).2 = length bl.
Proof.
  intros n v Hh. revert n v. induction bl as [|blk bl IH]; intros n v; cbn [exec_ref]; rewrite Hh; [done|].
  destruct (blk_Height blk <=? la).
  - specialize (IH (S n) v). destruct (exec_ref _ _ _ _ _) as [[err v'] k]. cbn in *. intros E. by rewrite IH.
  - destruct (Verify v blk) as [[e|] v1]; [done|]. destruct (Accept v1 blk) as [[e|] v2]; [done|].
    specialize (IH (S n) v2). destruct (exec_ref _ _ _ _ _) as [[err v'] k]. cbn in *. intros E. by rewrite IH.
Qed.

Context (all : list Block) (i : ident).
Context (Hsorted : by_height all) (Hu64 : Forall (λ b, is_u64 (blk_Height b)) all).
Context (Hparse : ∀ blk, blk ∈ all → ParseBlock (blk_Bytes blk) = Ok blk).

Notation exec_state := (exec_state (vm := vm)).

(** [k] blocks have been taken from the iterator; the database still has those whose
    removal is in the batch. *)
Record exec_inv (k : nat) (s : exec_state) : Prop := {
  xi_db : db_ok (e_db s);
  xi_id : db_ident (e_db s) = i;
  xi_batch : processedSinceBatchWrite s = Z.of_nat (k mod 64);
  xi_release : processedSinceIteratorRelease s = Z.of_nat (k mod 1024);
  xi_store : ∃ m0 m, contents (e_db s) = Some m0
    ∧ disk_ok m0 (blocks_map (drop (k - k mod 64) all))
    ∧ batch_acts i m0 (e_batch s) m ∧ is_store (e_heap s) (e_tree s) m (blocks_map (drop k all));
  xi_iter : iter_ok (e_iterator s) ∧ iter_Error (e_iterator s) = None
    ∧ iter_pending (e_iterator s) = block_entry <$> drop k all;
}.

(** The tree has lost the first [n] blocks, the database the first [j]. *)
Definition exec_post (n j : nat) (s : exec_state) : Prop :=
  db_ok (e_db s)
  ∧ (∃ m, is_store (e_heap s) (e_tree s) m (blocks_map (drop n all)))
  ∧ ∃ m, contents (e_db s) = Some m ∧ disk_ok m (blocks_map (drop j all)).

(** Writing the batch brings the database to the store that the tree agrees with. *)
Lemma writeBatch_spec (s : exec_state) m0 m M :
  db_ok (e_db s) → db_ident (e_db s) = i → contents (e_db s) = Some m0 → batch_acts i m0 (e_batch s) m →
  is_store (e_heap s) (e_tree s) m M → (processedSinceBatchWrite s = 0 → disk_ok m0 M) →
  ∃ d b m1 m1', writeBatch s = (None, mkExec (e_heap s) (e_tree s) d (e_vm s) b 0 (e_iterator s) (processedSinceIteratorRelease s))
    ∧ db_ok d ∧ db_ident d = i ∧ contents d = Some m1 ∧ disk_ok m1 M
    ∧ batch_acts i m1 b m1' ∧ is_store (e_heap s) (e_tree s) m1' M.
Proof.
  intros Hd Hi Hm0 (Hb & Hbi & Hm) Hs Hdisk. unfold writeBatch.
  destruct (Z.eqb_spec (processedSinceBatchWrite s) 0) as [E|E].
  - exists (e_db s), (e_batch s), m0, m. rewrite <- E at 1. split; [by destruct s|]. repeat (split; [by auto|]). done.
  - cbn [e_db e_batch e_heap e_tree e_vm e_iterator processedSinceIteratorRelease].
    pose proof (law_Write (e_db s) (e_batch s) Hd Hb ltac:(congruence)) as Hw. rewrite Hm0 in Hw.
    destruct Hw as (d' & -> & Hd' & Hi' & Hc'). exists d', (batch_Reset (e_batch s)), m, m.
    split; [done|]. split; [done|]. split; [congruence|]. split; [by rewrite Hc', Hm|].
    split; [by eapply store_disk|]. split; [|done].
    destruct (law_batch_Reset (e_batch s) Hb) as (? & ? & Ho). split; [done|]. split; [congruence|]. by rewrite Ho.
Qed.

Lemma finished_spec k s :
  exec_inv k s → ∃ s', writeBatch s = (None, s') ∧ iter_Error (e_iterator s') = None
    ∧ e_vm s' = e_vm s ∧ exec_post k k s'.
Proof.
  intros [Hd Hi Hc _ (m0 & m & Hm0 & Hdisk & Hb & Hs) (_ & He & _)].
  destruct (writeBatch_spec s m0 m _ Hd Hi Hm0 Hb Hs) as (d & b & m1 & m1' & -> & Hd' & _ & Hm1 & Hdisk' & _ & Hs').
  { intros E. assert (k mod 64 = 0)%nat as E0 by lia. by rewrite E0, Nat.sub_0_r in Hdisk. }
  eexists. split; [done|]. cbn. split; [done|]. split; [done|]. split; [done|]. split; eauto.
Qed.

(** Reading the next block *)
Lemma next_spec k s blk :
  exec_inv k s → all !! k = Some blk → ∃ it,
    iter_Next (e_db s) (e_iterator s) = (true, it) ∧ iter_Value it = blk_Bytes blk
    ∧ iter_ok it ∧ iter_Error it = None ∧ iter_pending it = block_entry <$> drop (S k) all.
Proof.
  intros [Hd _ _ _ (m0 & _ & Hm0 & _) (Hok & He & Hp)] Hk.
  destruct (law_Next (e_db s) m0 _ Hd Hm0 Hok) as (Hok' & Hn & He').
  rewrite Hp, (drop_S _ _ _ Hk), fmap_cons in Hn. unfold block_entry at 1 in Hn.
  destruct (iter_Next (e_db s) (e_iterator s)) as [ok it]. cbn [fst snd] in *.
  destruct Hn as (-> & _ & Hv & Hp'). exists it. split; [done|]. split; [done|]. split; [done|]. split; [congruence|done].
Qed.

Lemma next_end k s :
  exec_inv k s → all !! k = None → ∃ it, iter_Next (e_db s) (e_iterator s) = (false, it)
    ∧ exec_inv k (set_iterator s it (processedSinceIteratorRelease s)).
Proof.
  intros Hinv Hk. pose proof Hinv as [Hd Hi Hc Hr (m0 & m & Hm0 & Hst) (Hok & He & Hp)].
  destruct (law_Next (e_db s) m0 _ Hd Hm0 Hok) as (Hok' & Hn & He').
  rewrite Hp in Hn. rewrite drop_ge in Hn by by apply lookup_ge_None. simpl in Hn.
  destruct (iter_Next (e_db s) (e_iterator s)) as [ok it]. cbn [fst snd] in *. destruct Hn as [-> Hp'].
  exists it. split; [done|]. split; try done; [by exists m0, m|]. split; [done|]. split; [cbn; congruence|].
  cbn. rewrite Hp'. by rewrite drop_ge by by apply lookup_ge_None.
Qed.

(** The periodic part after a block has been removed *)
Lemma periodic_spec k (s : exec_state) blk m0 m :
  all !! k = Some blk → db_ok (e_db s) → db_ident (e_db s) = i →
  processedSinceBatchWrite s = Z.of_nat (k mod 64) + 1 → processedSinceIteratorRelease s = Z.of_nat (k mod 1024) →
  contents (e_db s) = Some m0 → disk_ok m0 (blocks_map (drop (k - k mod 64) all)) →
  batch_acts i m0 (e_batch s) m → is_store (e_heap s) (e_tree s) m (blocks_map (drop (S k) all)) →
  iter_ok (e_iterator s) → iter_Error (e_iterator s) = None → iter_pending (e_iterator s) = block_entry <$> drop (S k) all →
  ∃ s', periodic s (blk_Height blk) = (None, s') ∧ e_vm s' = e_vm s ∧ exec_inv (S k) s'.
Proof using Hsorted Hu64.
  intros Hk Hd Hi Hc Hr Hm0 Hdisk Hb Hs Hok He Hp. unfold periodic.
  pose proof (Nat.mod_upper_bound k 64 ltac:(lia)). pose proof (Nat.mod_upper_bound k 1024 ltac:(lia)).
  pose proof (Nat.div_mod_eq k 64). pose proof (Nat.div_mod_eq k 1024).
  pose proof (mod_succ 64 k ltac:(lia)) as E64. pose proof (mod_succ 1024 k ltac:(lia)) as E1024.
  assert (Hfirst : ∃ c d b m1 m1',
    (if batchWritePeriod <=? processedSinceBatchWrite s then writeBatch s else (None, s))
    = (None, mkExec (e_heap s) (e_tree s) d (e_vm s) b c (e_iterator s) (Z.of_nat (k mod 1024)))
    ∧ c = Z.of_nat (S k mod 64) ∧ db_ok d ∧ db_ident d = i ∧ contents d = Some m1
    ∧ disk_ok m1 (blocks_map (drop (S k - S k mod 64) all))
    ∧ batch_acts i m1 b m1' ∧ is_store (e_heap s) (e_tree s) m1' (blocks_map (drop (S k) all))).
  { rewrite <- Hr. unfold batchWritePeriod. destruct (Z.leb_spec 64 (processedSinceBatchWrite s)).
    - rewrite decide_True in E64 by lia.
      destruct (writeBatch_spec s m0 m _ Hd Hi Hm0 Hb Hs) as (d & b & m1 & m1' & -> & ? & ? & ? & ? & ? & ?); [lia|].
      exists 0, d, b, m1, m1'. rewrite E64, Nat.sub_0_r. repeat (split; [done|]). done.
    - rewrite decide_False in E64 by lia. exists (processedSinceBatchWrite s), (e_db s), (e_batch s), m0, m.
      split; [by destruct s|]. split; [lia|]. repeat (split; [done|]). split; [|done].
      by replace (S k - S k mod 64)%nat with (k - k mod 64)%nat by lia. }
  destruct Hfirst as (c & d & b & m1 & m1' & -> & Ec & Hd1 & Hi1 & Hm1 & Hdisk1 & Hb1 & Hs1).
  exec_cbn.
  unfold iteratorReleasePeriod. destruct (Z.leb_spec 1024 (Z.of_nat (k mod 1024) + 1)).
  - rewrite decide_True in E1024 by lia. rewrite He.
    assert (S k mod 64 = 0)%nat as E0.
    { symmetry. apply (Nat.mod_unique _ _ (16 * (k / 1024 + 1))); lia. }
    rewrite E0 in Ec, Hdisk1. rewrite Nat.sub_0_r in Hdisk1.
    match goal with |- context [writeBatch ?s1] =>
      destruct (writeBatch_spec s1 m1 m1' _ Hd1 Hi1 Hm1 Hb1 Hs1) as (d2 & b2 & m2 & m2' & -> & Hd2 & Hi2 & Hm2 & Hdisk2 & Hb2 & Hs2); [done|] end.
    eexists. split; [done|]. exec_cbn.
    split; [done|]. destruct (law_NewIterator d2 m2 (makeBlockKey (u64 (blk_Height blk + 1))) blockPrefix Hd2 Hm2) as (Hok2 & Hl2 & He2).
    split; exec_cbn; try done; [by rewrite E0|by rewrite E1024|exists m2, m2'; by rewrite E0, Nat.sub_0_r|].
    split; [done|]. split; [done|]. eapply blocks_listing; [by apply by_height_drop| | | |exact Hl2].
    + by apply Forall_drop.
    + by destruct Hdisk2.
    + intros blk' Hin. pose proof (by_height_drop k all Hsorted) as Hsk. rewrite (drop_S _ _ _ Hk) in Hsk.
      inversion Hsk as [|? ? _ Hlt]; subst. rewrite Forall_forall in Hlt. specialize (Hlt _ Hin).
      assert (is_u64 (blk_Height blk')) as Hu'.
      { rewrite Forall_forall in Hu64. apply Hu64. apply list_elem_of_lookup in Hin as [n Hn].
        rewrite lookup_drop in Hn. by eapply list_elem_of_lookup_2. }
      assert (is_u64 (blk_Height blk)) as Hu.
      { rewrite Forall_forall in Hu64. apply Hu64. by eapply list_elem_of_lookup_2. }
      unfold is_u64 in Hu, Hu'. rewrite u64_id by (unfold is_u64; lia). unfold makeBlockKey. rewrite bytes_lt_app.
      rewrite PackUInt64_lt by (unfold is_u64; lia). apply Z.ltb_ge. lia.
  - rewrite decide_False in E1024 by lia. eexists. split; [done|]. split; [done|].
    split; exec_cbn; try done; [lia|by exists m1, m1'].
Qed.

Lemma run_block_inv k s blk : exec_inv k s →
  (run_block Verify Accept s blk).2 = set_vm s (e_vm (run_block Verify Accept s blk).2) ∧ exec_inv k (run_block Verify Accept s blk).2.
Proof.
  intros Hinv. assert (∀ v, exec_inv k (set_vm s v)) as Hv by (intros v; destruct Hinv; by split).
  unfold run_block. destruct (Verify (e_vm s) blk) as [[e|] v]; [by split; [|apply Hv]|].
  destruct (Accept v blk) as [[e|] v']; (split; [done|apply Hv]).
Qed.

Lemma inv_post k s : exec_inv k s → exec_post k (k - k mod 64) s.
Proof. intros [Hd _ _ _ (m0 & m & Hm0 & Hdisk & _ & Hs) _]. split; [done|]. split; by eauto. Qed.

Lemma execute_loop_spec halted la : ∀ fuel n k s,
  exec_inv k s → (length all - k < fuel)%nat → (k ≤ length all)%nat →
  let '(err, v, taken) := exec_ref halted n la (e_vm s) (drop k all) in
  ∃ s', execute_loop ParseBlock Verify Accept fuel halted n la s = Some (err, s') ∧ e_vm s' = v
    ∧ let j := (k + taken)%nat in exec_post j (if err then j - j mod 64 else j) s'.
Proof using All.
  induction fuel as [|fuel IH]; intros n k s Hinv Hf Hk; [lia|]. cbn [execute_loop].
  assert (Hfin : ∀ s, exec_inv k s → ∃ s', (let '(err, s0) := writeBatch s in
      match err with Some e => Some (Some (ExecDb (vm_error := vm_error) e), s0)
      | None => Some (ExecDb <$> iter_Error (e_iterator s0), s0) end) = Some (None, s')
      ∧ e_vm s' = e_vm s ∧ exec_post (k + 0) (k + 0) s').
  { intros s0 Hinv0. destruct (finished_spec k s0 Hinv0) as (s' & -> & -> & Ev & Hpost). exists s'.
    by rewrite Nat.add_0_r. }
  destruct (all !! k) as [blk|] eqn:Ek.
  2: { rewrite (drop_ge all k) by by apply lookup_ge_None. destruct (next_end k s Hinv Ek) as (it & En & Hinv').
       rewrite En. cbn [negb exec_ref]. destruct (halted n); [exact (Hfin s Hinv)|exact (Hfin _ Hinv')]. }
  rewrite (drop_S _ _ _ Ek). cbn [exec_ref]. destruct (halted n); [exact (Hfin s Hinv)|].
  destruct (next_spec k s blk Hinv Ek) as (it & -> & -> & Hok & He & Hp). cbn [negb].
  assert (Hin : blk ∈ all) by by eapply list_elem_of_lookup_2.
  rewrite (Hparse blk Hin). destruct Hinv as [Hd Hi Hc Hr (m0 & m & Hm0 & Hdisk & Hb & Hs) _].
  assert (Hu : is_u64 (blk_Height blk)) by (rewrite Forall_forall in Hu64; by apply Hu64).
  destruct (Remove_spec (WL := batch_writer_laws i m0) _ _ (e_batch s) m _ (blk_Height blk) Hs Hb Hu)
    as (hp' & t' & b' & m' & Er & Hb' & Hs').
  assert (Hdel : delete (blk_Height blk) (blocks_map (drop k all)) = blocks_map (drop (S k) all)).
  { rewrite (drop_S _ _ _ Ek). apply blocks_map_delete. rewrite <- (drop_S _ _ _ Ek). by apply by_height_drop. }
  rewrite Hdel in Hs'. cbn [set_iterator e_heap e_tree e_batch]. rewrite Er. cbn [mbind option_bind].
  exec_cbn.
  match goal with |- context [periodic ?s1 _] =>
    destruct (periodic_spec k s1 blk m0 m' Ek Hd Hi) as (s2 & -> & Ev & Hinv2); exec_cbn; try done; [congruence|] end.
  cbn in Ev. assert (Hlen : (k < length all)%nat) by by eapply lookup_lt_Some.
  assert (Hrec : ∀ v, let '(err, v', taken) := exec_ref halted (S n) la v (drop (S k) all) in
    ∃ s', execute_loop ParseBlock Verify Accept fuel halted (S n) la (set_vm s2 v) = Some (err, s') ∧ e_vm s' = v'
      ∧ exec_post (k + S taken) (if err then (k + S taken) - (k + S taken) mod 64 else k + S taken) s').
  { intros v. specialize (IH (S n) (S k) (set_vm s2 v)). cbn [e_vm set_vm] in IH.
    destruct (exec_ref halted (S n) la v (drop (S k) all)) as [[err v'] taken].
    destruct IH as (s' & ? & ? & ?); [by destruct Hinv2|lia|lia|]. exists s'. split; [done|]. split; [done|].
    by rewrite <- plus_n_Sm. }
  destruct (Z.leb_spec (blk_Height blk) la).
  - specialize (Hrec (e_vm s)). destruct (exec_ref halted (S n) la (e_vm s) (drop (S k) all)) as [[err v'] taken].
    rewrite <- Ev in Hrec. by destruct s2.
  - destruct (run_block_inv (S k) s2 blk Hinv2) as [_ Hpost%inv_post]. unfold run_block in *. rewrite Ev in *.
    destruct (Verify (e_vm s) blk) as [[e|] v].
    { eexists. split; [done|]. split; [done|]. cbn. by rewrite Nat.add_1_r. }
    destruct (Accept v blk) as [[e|] v'].
    { eexists. split; [done|]. split; [done|]. cbn. by rewrite Nat.add_1_r. }
    specialize (Hrec v'). by destruct (exec_ref halted (S n) la v' (drop (S k) all)) as [[err v''] taken].
Qed.
End execution.

(** ** Missing blocks *)

(** The lower bounds of a canonical list are the heights whose predecessor is not covered. *)
Lemma lower_bounds l h :
  canonical l → (∃ i, i ∈ l ∧ LowerBound i = h) ↔ covers l h ∧ ¬ covers l (h - 1).
Proof.
  intros Hc. split.
  - intros (i & Hi & <-). pose proof (canonical_ok _ _ Hc Hi) as [? _]. split; [exists i; split; [done|lia]|].
    intros (j & Hj & ?). apply list_elem_of_split in Hi as (A & C & ->).
    apply canonical_app in Hc as (_ & (_ & HC & HgC)%canonical_cons & HgA).
    apply elem_of_app in Hj as [Hj|[->|Hj]%elem_of_cons].
    + specialize (HgA j i Hj ltac:(by left)). unfold gap in HgA. lia.
    + lia.
    + specialize (HgC j Hj). unfold gap in HgC. lia.
  - intros [(i & Hi & ?) Hn]. exists i. split; [done|].
    destruct (decide (LowerBound i = h)); [done|]. exfalso. apply Hn. exists i. split; [done|lia].
Qed.

Section missing.
Context {B : BTree ptr} {BL : BTreeLaws B} {D : Database} {L : DatabaseLaws D}.
Context {vm_error : Type} (ParseBlock : bytes → result vm_error Block).

Lemma missing_loop_spec d m (par : Z → Z) low : db_ok d → contents d = Some m → ∀ l acc,
  (∀ i, i ∈ l → ∃ blk, m !! makeBlockKey (LowerBound i) = Some (blk_Bytes blk)
    ∧ ParseBlock (blk_Bytes blk) = Ok blk ∧ blk_Parent blk = par (LowerBound i)) →
  ∃ r, missing_loop ParseBlock d low l acc = Ok r
    ∧ ∀ p, p ∈ r ↔ p ∈ acc ∨ ∃ i, i ∈ l ∧ low < LowerBound i ∧ p = par (LowerBound i).
Proof.
  intros Hd Hm. induction l as [|i l IH]; intros acc Hl; cbn [missing_loop].
  - exists acc. split; [done|]. intros p. split; [by left|]. by intros [?|(i & ?%not_elem_of_nil & _)].
  - assert (Hl' : ∀ j, j ∈ l → _) by (intros j Hj; apply Hl; by right).
    destruct (Z.leb_spec (LowerBound i) low).
    + destruct (IH acc Hl') as (r & -> & Hr). exists r. split; [done|]. intros p. rewrite Hr.
      setoid_rewrite elem_of_cons. split; [naive_solver|]. intros [?|(j & [->|?] & ? & ?)]; [by left|lia|right; eauto].
    + destruct (Hl i ltac:(by left)) as (blk & Eb & Ep & Ei). unfold GetBlock. rewrite law_Get, Hm, Eb by done.
      cbn [to_exec result_bind]. rewrite Ep. destruct (IH ({[blk_Parent blk]} ∪ acc) Hl') as (r & -> & Hr).
      exists r. split; [done|]. intros p. rewrite Hr, elem_of_union, elem_of_singleton, Ei.
      setoid_rewrite elem_of_cons. split.
      * intros [[->|?]|(j & ? & ? & ?)]; [right; exists i; auto|by left|right; exists j; auto].
      * intros [?|(j & [->|?] & ? & ->)]; [by left; right|by left; left|right; eauto].
Qed.
End missing.

(** ** [process] *)

Section processing.
Context {B : BTree ptr} {BL : BTreeLaws B} {W : Type} {K : KeyValueWriterDeleter W}.
Context {acts : W → gmap bytes bytes → Prop} {WL : WriterLaws K acts}.
Context (la : Z) (ancestors : gmap Z Block).
Context (Hla : is_u64 la) (Hanc : ∀ id blk, ancestors !! id = Some blk → is_u64 (blk_Height blk)).

(** Storing a block, and whether its parent is wanted *)
Definition add_block (M : gmap Z bytes) (blk : Block) : bool * gmap Z bytes :=
  store_Add M la (blk_Height blk) (blk_Bytes blk).

(** A block is stored if it is above the last accepted height and no block of its height is. *)
Definition storable (M : gmap Z bytes) (blk : Block) : Prop := la < blk_Height blk ∧ M !! blk_Height blk = None.
#[local] Instance storable_dec M blk : Decision (storable M blk).
Proof using. unfold storable. apply _. Defined.
Definition stored (M : gmap Z bytes) (blk : Block) : gmap Z bytes :=
  if decide (storable M blk) then <[blk_Height blk := blk_Bytes blk]> M else M.

(** Its parent is wanted if the height below is neither accepted last nor stored. *)
Definition wants_parent (M : gmap Z bytes) (blk : Block) : Prop :=
  storable M blk ∧ blk_Height blk - 1 ≠ la ∧ M !! (blk_Height blk - 1) = None.

(** The blocks [blk :: l] are stored, each the parent of the one before it, which wanted it and
    found it among the ancestors; it ends at the first block that does not want its parent, and
    then nothing is to be fetched, or whose parent is not at hand and is to be fetched. *)
Fixpoint walk (M : gmap Z bytes) (blk : Block) (l : list Block) (next : option Z) : Prop :=
  match l with
  | [] => (¬ wants_parent M blk ∧ next = None)
          ∨ (wants_parent M blk ∧ ancestors !! blk_Parent blk = None ∧ next = Some (blk_Parent blk))
  | p :: l => wants_parent M blk ∧ ancestors !! blk_Parent blk = Some p ∧ walk (stored M blk) p l next
  end.

Lemma walk_unique l1 : ∀ M blk next1 l2 next2, walk M blk l1 next1 → walk M blk l2 next2 → l1 = l2 ∧ next1 = next2.
Proof using.
  induction l1 as [|p l1 IH]; intros M blk next1 [|q l2] next2; cbn [walk].
  - naive_solver.
  - intros [[? _]|(_ & E & _)] (? & E' & _); [done|congruence].
  - intros (? & E & _) [[? _]|(_ & E' & _)]; [done|congruence].
  - intros (_ & E & H1) (_ & E' & H2). assert (p = q) as -> by congruence. by destruct (IH _ _ _ _ _ H1 H2) as [-> ->].
Qed.

Lemma add_block_spec M blk : ((add_block M blk).1 = true ↔ wants_parent M blk) ∧ (add_block M blk).2 = stored M blk.
Proof using.
  unfold add_block, store_Add, stored, wants_parent. case_bool_decide as Hc; cbn [fst snd].
  - assert (¬ storable M blk) as Hn by (intros [H1 H2]; rewrite H2 in Hc; destruct Hc as [?|[? [=]]]; lia).
    rewrite decide_False by done. split; [|done]. split; [done|tauto].
  - assert (storable M blk) as Hs by (split; [lia|]; apply eq_None_not_Some; tauto).
    rewrite decide_True by done. split; [|done]. rewrite bool_decide_eq_true. tauto.
Qed.

(** The ancestors at heights that are not stored *)
Definition unstored (M : gmap Z bytes) : gmap Z Block := filter (λ e, M !! blk_Height e.2 = None) ancestors.

Lemma unstored_shrinks M id blk :
  ancestors !! id = Some blk → (add_block M blk).1 = true →
  (base.size (unstored (add_block M blk).2) < base.size (unstored M))%nat.
Proof.
  unfold add_block, store_Add. intros Hid. case_bool_decide as Hc; [done|]. intros _. cbn [snd].
  apply map_subset_size. split.
  - apply map_subseteq_spec. intros id' b'. unfold unstored. rewrite !map_lookup_filter_Some. cbn [snd].
    intros [? Hn]. split; [done|]. apply lookup_insert_None in Hn. tauto.
  - intros Hsub. apply map_subseteq_spec with (i := id) (x := blk) in Hsub.
    + unfold unstored in Hsub. apply map_lookup_filter_Some in Hsub as [_ Hn]. cbn [snd] in Hn.
      by rewrite lookup_insert_eq in Hn.
    + unfold unstored. apply map_lookup_filter_Some. split; [done|]. cbn [snd].
      apply eq_None_not_Some. tauto.
Qed.

(** Blocks are stored until one whose parent is not wanted or not at hand. *)
Lemma process_spec : ∀ fuel hp t w m M missing blk,
  is_store hp t m M → acts w m → is_u64 (blk_Height blk) → (0 < fuel)%nat →
  ((add_block M blk).1 = true → base.size (unstored (add_block M blk).2) + 1 < fuel)%nat →
  ∃ l next hp' t' w' m',
    process fuel hp t w missing la blk ancestors
      = Some (Ok next, (missing ∖ list_to_set (blk_ID <$> blk :: l), hp', t', w'))
    ∧ acts w' m' ∧ is_store hp' t' m' (foldl stored M (blk :: l)) ∧ walk M blk l next.
Proof using All.
  induction fuel as [|fuel IH]; intros hp t w m M missing blk Hs Hw Hu Hf Hfuel; [lia|]. cbn [process].
  destruct (interval_Add_spec hp t w m M la (blk_Height blk) (blk_Bytes blk) Hs Hw Hu Hla) as (hp1 & t1 & w1 & m1 & -> & Hw1 & Hs1).
  fold (add_block M blk) in *. cbn [mbind option_bind]. destruct (add_block_spec M blk) as [Ewant Estore]. rewrite Estore in *.
  assert (Hset : missing ∖ list_to_set (blk_ID <$> [blk]) = missing ∖ {[blk_ID blk]}).
  { change (blk_ID <$> [blk]) with [blk_ID blk]. by rewrite list_to_set_singleton_L. }
  destruct (add_block M blk).1 eqn:Ew.
  2: { exists [], None, hp1, t1, w1, m1. rewrite Hset. repeat (split; [done|]). left. split; [|done]. intros H%Ewant. done. }
  assert (Hwant : wants_parent M blk) by (by apply Ewant). destruct (ancestors !! blk_Parent blk) as [p|] eqn:Ep.
  - specialize (Hfuel eq_refl).
    destruct (IH hp1 t1 w1 m1 (stored M blk) (missing ∖ {[blk_ID blk]}) p Hs1 Hw1)
      as (l & next & hp2 & t2 & w2 & m2 & -> & Hw2 & Hs2 & Hwalk); [by eapply Hanc|lia| |].
    { intros Hp. pose proof (unstored_shrinks _ _ _ Ep Hp). lia. }
    exists (p :: l), next, hp2, t2, w2, m2. split; [|by repeat (split; [done|])].
    replace (missing ∖ {[blk_ID blk]} ∖ list_to_set (blk_ID <$> p :: l))
      with (missing ∖ list_to_set (blk_ID <$> blk :: p :: l)); [done|].
    rewrite (fmap_cons _ blk), list_to_set_cons. clear. set_solver.
  - exists [], (Some (blk_Parent blk)), hp1, t1, w1, m1. rewrite Hset. repeat (split; [done|]). by right.
Qed.
End processing.

(** ** Theorems *)

(** C8. [execute] does what running the stored blocks one after the other does.  Whatever
    [Verify] and [Accept] answer and whenever it is told to halt, it takes the stored
    blocks in increasing height, each once, and verifies and accepts those above the last
    accepted height, until the first error, a halt or the end; its error and the state of
    the virtual machine are those of that run ([exec_ref]), in spite of the batches of 64
    and of the iterators it replaces every 1024 blocks.  The tree has lost exactly the
    blocks taken; the database has too, unless there was an error, when the blocks taken
    since the last written batch are still there, with the intervals of their heights.  A
    run that ends without error or halt leaves neither blocks nor heights.  One turn more
    than there are blocks is enough. *)
Theorem execute_correct {B : BTree ptr} {BL : BTreeLaws B} {D : Database} {L : DatabaseLaws D} {vm_error vm : Type}
    (ParseBlock : bytes → result vm_error Block) (Verify Accept : vm → Block → option vm_error * vm)
    (hp : iheap) (t : Tree) (d : db_t) (m : gmap bytes bytes) (v : vm) (all : list Block) (la : Z)
    (halted : nat → bool) (fuel : nat) :
  db_ok d → contents d = Some m → is_store hp t m (blocks_map all) →
  by_height all → Forall (λ b, is_u64 (blk_Height b)) all →
  (∀ blk, blk ∈ all → ParseBlock (blk_Bytes blk) = Ok blk) → (length all < fuel)%nat →
  let '(err, v', taken) := exec_ref Verify Accept halted 0 la v all in
  ∃ s, execute ParseBlock Verify Accept fuel halted hp t d v la = Some (err, s) ∧ e_vm s = v'
    ∧ exec_post all taken (if err then taken - taken mod 64 else taken) s
    ∧ ((∀ n, halted n = false) → err = None →
       taken = length all ∧ Tree_Len (e_tree s) = 0 ∧ ∀ h, is_u64 h → GetBlock (e_db s) h = Err ErrNotFound).
Proof.
  intros Hd Hm Hs Hsort Hu Hparse Hf. destruct (law_NewBatch d Hd) as (Hb & Hbi & Ho).
  destruct (law_NewIterator d m [] blockPrefix Hd Hm) as (Hit & Hl & He).
  pose proof (execute_loop_spec ParseBlock Verify Accept all (db_ident d) Hsort Hu Hparse halted la fuel 0 0
    (mkExec hp t d v (db_NewBatch d) 0 (GetBlockIterator d) 0)) as Hloop.
  cbn [e_vm] in Hloop. rewrite drop_0 in Hloop. pose proof (exec_ref_all Verify Accept halted la all 0%nat v) as Hall.
  destruct (exec_ref Verify Accept halted 0 la v all) as [[err v'] taken].
  destruct Hloop as (s & Ee & Ev & Hpost); [|lia|lia|].
  { split; try done.
    - exists m, m. split; [done|]. split; [by eapply store_disk|]. split; [|done]. split; [done|]. split; [done|].
      exec_cbn. by rewrite Ho.
    - split; [done|]. split; [done|]. eapply blocks_listing; [done|done|by destruct Hs| |exact Hl]. by intros blk _. }
  exists s. split; [exact Ee|]. split; [done|]. rewrite Nat.add_0_l in Hpost. split; [exact Hpost|].
  cbn [fst snd] in Hall. intros Hh ->. specialize (Hall Hh eq_refl). split; [done|]. subst taken. unfold exec_post in Hpost. cbn iota in Hpost.
  rewrite drop_all in Hpost. destruct Hpost as (Hd' & (m1 & Hs1) & m2 & Hm2 & [Hb2 _]). split.
  - by destruct (store_reads _ _ _ _ Hs1) as (_ & -> & _).
  - intros h Hh'. unfold GetBlock. rewrite law_Get, Hm2 by done. destruct (m2 !! makeBlockKey h) eqn:E; [|done].
    apply Hb2 in E as (? & _ & _ & ?); done.
Qed.

(** C10. [process] stores a fetched block and, through the ancestors that came with it, its
    parents: as long as a block was above the last accepted height, at a free height, and the
    height below is neither accepted last nor stored, it goes on with the parent if that is
    among the ancestors, and returns its identifier, to be fetched, if it is not; it returns
    nothing to fetch at the first block that does not want its parent.  This determines the
    blocks it goes through; all of them that are above the last accepted height and at free
    heights are stored, and their identifiers, and no others, are no longer missing.  It ends,
    at the latest after two turns more than there are ancestors, whatever heights they claim
    to have. *)
Theorem process_correct {B : BTree ptr} {BL : BTreeLaws B} {D : Database} {L : DatabaseLaws D}
    (hp : iheap) (t : Tree) (d : db_t) (m : gmap bytes bytes) (M : gmap Z bytes) (missing : gset Z) (la : Z)
    (blk : Block) (ancestors : gmap Z Block) (fuel : nat) :
  db_ok d → contents d = Some m → is_store hp t m M → is_u64 la → is_u64 (blk_Height blk) →
  (∀ id b, ancestors !! id = Some b → is_u64 (blk_Height b)) → (base.size ancestors + 1 < fuel)%nat →
  ∃ l next hp' t' d' m',
    process fuel hp t d missing la blk ancestors
      = Some (Ok next, (missing ∖ list_to_set (blk_ID <$> blk :: l), hp', t', d'))
    ∧ db_ok d' ∧ contents d' = Some m'
    ∧ is_store hp' t' m' (foldl (stored la) M (blk :: l))
    ∧ walk la ancestors M blk l next
    ∧ ∀ l' next', walk la ancestors M blk l' next' → l' = l ∧ next' = next.
Proof.
  intros Hd Hm Hs Hla Hu Hanc Hf.
  destruct (process_spec (WL := db_writer_laws (db_ident d)) la ancestors Hla Hanc fuel hp t d m M missing blk Hs
    (conj Hd (conj eq_refl Hm)) Hu ltac:(lia)) as (l & next & hp' & t' & d' & m' & E & (Hd' & _ & Hm') & Hs' & Hwalk).
  { intros _. pose proof (map_subseteq_size (unstored ancestors (add_block la M blk).2) ancestors
      (map_filter_subseteq _ _)). lia. }
  exists l, next, hp', t', d', m'. repeat (split; [done|]). intros l' next' Hwalk'. by eapply walk_unique.
Qed.

(** [getMissingBlockIDs] succeeds and returns the parents of exactly the stored blocks
    above the height after the last accepted one below which no block is stored: what has
    to be fetched to close the gaps. *)
Theorem missing_blocks_exact {B : BTree ptr} {BL : BTreeLaws B} {D : Database} {L : DatabaseLaws D} {vm_error : Type}
    (ParseBlock : bytes → result vm_error Block)
    (hp : iheap) (t : Tree) (d : db_t) (m : gmap bytes bytes) (all : list Block) (la : Z) :
  db_ok d → contents d = Some m → is_store hp t m (blocks_map all) → by_height all →
  (∀ blk, blk ∈ all → ParseBlock (blk_Bytes blk) = Ok blk) → is_u64 la → la < MaxUint64 →
  ∃ ids, getMissingBlockIDs ParseBlock hp d t la = Ok ids
    ∧ ∀ id, id ∈ ids ↔ ∃ blk, blk ∈ all ∧ la + 1 < blk_Height blk ∧ blk_Parent blk = id
        ∧ ∀ b, b ∈ all → blk_Height b ≠ blk_Height blk - 1.
Proof.
  intros Hd Hm (Hb & l & Ht & Hmir & Hcov) Hsort Hparse Hla Hmax. unfold getMissingBlockIDs.
  rewrite (Flatten_spec hp t l Ht), u64_id by (unfold is_u64 in *; lia). pose proof Ht as [_ _ Hc _].
  assert (Hcb : ∀ h, covers l h ↔ ∃ blk, blk ∈ all ∧ blk_Height blk = h).
  { intros h. rewrite Hcov. split.
    - intros [b (blk & ? & ? & _)%blocks_map_lookup]; [by exists blk|done].
    - intros (blk & ? & ?). exists (blk_Bytes blk). apply blocks_map_lookup; [done|]. by exists blk. }
  set (par := λ h, default 0 (blk_Parent <$> find (λ b, blk_Height b =? h) all)).
  assert (Hpar : ∀ blk, blk ∈ all → par (blk_Height blk) = blk_Parent blk).
  { intros blk Hin. unfold par. pose proof (by_height_nodup all Hsort) as Hnd. clear -Hin Hnd.
    induction all as [|b bl IH]; [by apply not_elem_of_nil in Hin|]. rewrite fmap_cons in Hnd.
    apply NoDup_cons in Hnd as [Hn Hnd]. cbn [find]. destruct (Z.eqb_spec (blk_Height b) (blk_Height blk)) as [E|E].
    - apply elem_of_cons in Hin as [->|Hin]; [done|]. exfalso. apply Hn. rewrite E. by apply list_elem_of_fmap_2.
    - apply elem_of_cons in Hin as [->|Hin]; [done|]. by apply IH. }
  destruct (missing_loop_spec ParseBlock d m par (la + 1) Hd Hm l ∅) as (r & -> & Hr).
  { intros i Hi. assert (covers l (LowerBound i)) as (blk & Hin & Eh)%Hcb.
    { exists i. split; [done|]. destruct (canonical_ok _ _ Hc Hi). lia. }
    exists blk. rewrite <- Eh. split; [|split; [by apply Hparse|by rewrite Hpar]].
    apply Hb; [done|]. exists (blk_Height blk). split; [rewrite Eh; by apply iv_ok_u64, (canonical_ok l)|]. split; [done|].
    apply blocks_map_lookup; [done|]. by exists blk. }
  exists r. split; [done|]. intros id. rewrite Hr. split.
  - intros [?%not_elem_of_empty|(i & Hi & Hlow & ->)]; [done|].
    destruct (proj1 (lower_bounds l (LowerBound i) Hc) ltac:(by exists i)) as [(blk & Hin & Eh)%Hcb Hn].
    exists blk. split; [done|]. split; [lia|]. split; [by rewrite <- Eh, Hpar|].
    intros b Hbin Ebh. apply Hn, Hcb. exists b. split; [done|]. lia.
  - intros (blk & Hin & Hh & <- & Hno). right.
    destruct (proj2 (lower_bounds l (blk_Height blk) Hc)) as (i & Hi & Ei).
    { split; [apply Hcb; by exists blk|]. intros (b & Hbin & Eb)%Hcb. by apply (Hno b). }
    exists i. split; [done|]. split; [lia|]. by rewrite Ei, Hpar.
Qed.

(** ** Examples *)

(** A virtual machine that records the heights it accepts, with blocks of one byte. *)
Definition ex_block (h : Z) : Block := mkBlock h (h - 1) h [h].
Definition ex_parse (bs : bytes) : result unit Block := match bs with [h] => Ok (ex_block h) | _ => Err tt end.
Definition ex_verify (v : list Z) (_ : Block) : option unit * list Z := (None, v).
Definition ex_accept (v : list Z) (blk : Block) : option unit * list Z := (None, v ++ [blk_Height blk]).

#[local] Existing Instance list_btree.
#[local] Existing Instance list_btree_laws.
#[local] Instance ex_database : Database := memdb_database sample_range.
#[local] Instance ex_laws : DatabaseLaws ex_database := memdb_laws sample_range (λ _ _, reflexivity _).

(** A database with the blocks 2 and 5, and their tree *)
Lemma ex_store : ∃ hp t (d : @db_t ex_database) m,
  db_ok d ∧ contents d = Some m ∧ is_store hp t m (blocks_map [ex_block 2; ex_block 5]).
Proof.
  destruct (run_ops_spec (WL := db_writer_laws (L := ex_laws) (db_ident (mem_New : @db_t ex_database))) [OpAdd 0 5 [5]; OpAdd 0 2 [2]] ∅ (mkTree (B := list_btree) [] 0)
    mem_New ∅ ∅ empty_store) as (hp & t & d & m & _ & (Hd & _ & Hm) & Hs); [done| |].
  - repeat constructor; unfold is_u64, MaxUint64; lia.
  - exists hp, t, d, m. split; [exact Hd|]. split; [exact Hm|]. exact Hs.
Qed.

Lemma ex_sorted : by_height [ex_block 2; ex_block 5].
Proof. repeat constructor; cbn; lia. Qed.

Lemma ex_parses blk : blk ∈ [ex_block 2; ex_block 5] → ex_parse (blk_Bytes blk) = Ok blk.
Proof. rewrite !elem_of_cons. by intros [->|[->|?%not_elem_of_nil]]. Qed.

Lemma execute_correct_witness :
  ∃ hp t (d : @db_t ex_database) s, execute ex_parse ex_verify ex_accept 3 (λ _, false) hp t d [] 1 = Some (None, s)
    ∧ e_vm s = [2; 5] ∧ Tree_Len (e_tree s) = 0.
Proof.
  destruct ex_store as (hp & t & d & m & Hd & Hm & Hs).
  destruct (execute_correct ex_parse ex_verify ex_accept hp t d m [] [ex_block 2; ex_block 5] 1 (λ _, false) 3
    Hd Hm Hs ex_sorted) as (s & He & Hv & _ & Hall).
  - repeat constructor; unfold is_u64, MaxUint64; cbn; lia.
  - exact ex_parses.
  - cbn. lia.
  - exists hp, t, d, s. split; [exact He|]. split; [exact Hv|]. by destruct (Hall (λ _, eq_refl) eq_refl) as (_ & ? & _).
Defined.

(** The blocks 8 and 7 are stored, and 6 is to be fetched. *)
Lemma process_correct_witness :
  ∃ hp t (d : @db_t ex_database) hp' t' d',
    process 3 hp t d {[ 7; 6; 9 ]} 0 (ex_block 8) {[ 7 := ex_block 7 ]}
      = Some (Ok (Some 6), ({[ 7; 6; 9 ]} ∖ list_to_set (blk_ID <$> [ex_block 8; ex_block 7]), hp', t', d')).
Proof.
  destruct ex_store as (hp & t & d & m & Hd & Hm & Hs).
  destruct (process_correct hp t d m _ {[ 7; 6; 9 ]} 0 (ex_block 8) {[ 7 := ex_block 7 ]} 3 Hd Hm Hs)
    as (l & next & hp' & t' & d' & m' & E & _ & _ & _ & _ & Hall).
  - by split.
  - by split.
  - intros id b [_ <-]%lookup_singleton_Some. by split.
  - rewrite map_size_singleton. lia.
  - destruct (Hall [ex_block 7] (Some 6)) as [<- <-]; [|by exists hp, t, d, hp', t', d'].
    cbn [walk]. assert (Hlook : ∀ h, h ≠ 2 → h ≠ 5 → blocks_map [ex_block 2; ex_block 5] !! h = None).
    { intros h H2 H5. unfold blocks_map. cbn. by rewrite !lookup_insert_ne. }
    assert (W8 : wants_parent 0 (blocks_map [ex_block 2; ex_block 5]) (ex_block 8)).
    { split; [split; [cbn; lia|]|split; [cbn; lia|]]; apply Hlook; cbn; lia. }
    split; [done|]. split; [by rewrite lookup_singleton_eq|]. right. split; [|split; [by rewrite lookup_singleton_ne|done]].
    unfold stored. destruct W8 as [W8 _]. rewrite decide_True by done.
    split; [split; [cbn; lia|]|split; [cbn; lia|]]; rewrite lookup_insert_ne by (cbn; lia); apply Hlook; cbn; lia.
Defined.

Lemma missing_blocks_exact_witness :
  ∃ hp t (d : @db_t ex_database) ids, getMissingBlockIDs ex_parse hp d t 0 = Ok ids ∧ 4 ∈ ids ∧ 1 ∈ ids ∧ 3 ∉ ids.
Proof.
  destruct ex_store as (hp & t & d & m & Hd & Hm & Hs).
  destruct (missing_blocks_exact ex_parse hp t d m [ex_block 2; ex_block 5] 0 Hd Hm Hs ex_sorted ex_parses)
    as (ids & E & Hids).
  - by split.
  - done.
  - exists hp, t, d, ids. split; [exact E|]. split; [|split].
    + apply Hids. exists (ex_block 5). split; [right; by left|]. split; [cbn; lia|]. split; [done|].
      intros b. rewrite !elem_of_cons. by intros [->|[->|?%not_elem_of_nil]].
    + apply Hids. exists (ex_block 2). split; [by left|]. split; [cbn; lia|]. split; [done|].
      intros b. rewrite !elem_of_cons. by intros [->|[->|?%not_elem_of_nil]].
    + intros (blk & Hin & _ & Hp & _)%Hids. rewrite !elem_of_cons in Hin.
      destruct Hin as [->|[->|?%not_elem_of_nil]]; done.
Defined.
