(* ===== verification/Heap.v ===== *)
(** * Binary heaps

    [utils/heap]: priority queues ([queue.go]), and heaps without duplicates that know the
    position of every key ([map.go], [set.go]), on the functions of Go's [container/heap].
    Those only use the interface [heap.Interface], which is the class [HeapInterface] here:
    the length, the comparison and the exchange of two positions, appending an element and
    removing the last one.  [queue] and [indexedQueue] are its instances.  An index out of
    range, which panics in Go, is not compared as less and not exchanged; the theorems are
    about queues on which this does not happen. *)

From S2P Require Import Prelude.

Open Scope Z_scope.

(** ** [container/heap] *)

Class HeapInterface (S T : Type) := {
  h_Len : S → nat;
  h_Less : S → nat → nat → bool;
  h_Swap : S → nat → nat → S;
  h_Push : S → T → S;
  h_Pop : S → option (T * S);
}.

Section container_heap.
Context {S T : Type} {H : HeapInterface S T}.

Definition parent (j : nat) : nat := (j - 1) / 2.

(** [up(h, j)]; the loop halves [j], so [j + 1] turns are enough. *)
Fixpoint up_loop (fuel : nat) (h : S) (j : nat) : S :=
  match fuel with
  | O => h
  | Datatypes.S fuel =>
      let i := parent j in
      if (i =? j)%nat || negb (h_Less h j i) then h else up_loop fuel (h_Swap h i j) i
  end.
Definition up (h : S) (j : nat) : S := up_loop (j + 1) h j.

(** [down(h, i0, n)]: the heap and the last position, which is [i0] when nothing moved. *)
Fixpoint down_loop (fuel : nat) (h : S) (i n : nat) : S * nat :=
  match fuel with
  | O => (h, i)
  | Datatypes.S fuel =>
      let j1 := (2 * i + 1)%nat in
      if (n <=? j1)%nat then (h, i)
      else
        let j2 := (j1 + 1)%nat in
        let j := if (j2 <? n)%nat && h_Less h j2 j1 then j2 else j1 in
        if negb (h_Less h j i) then (h, i) else down_loop fuel (h_Swap h i j) j n
  end.
Definition down (h : S) (i0 n : nat) : S * bool :=
  let '(h, i) := down_loop n h i0 n in (h, (i0 <? i)%nat).

(** [for i := n/2 - 1; i >= 0; i-- { down(h, i, n) }]: the turns that are left *)
Fixpoint init_loop (k : nat) (h : S) (n : nat) : S :=
  match k with
  | O => h
  | Datatypes.S i => init_loop i (down h i n).1 n
  end.
Definition Init (h : S) : S := let n := h_Len h in init_loop (n / 2) h n.

Definition heap_Push (h : S) (x : T) : S :=
  let h := h_Push h x in up h (h_Len h - 1).

Definition heap_Pop (h : S) : option (T * S) :=
  let n := (h_Len h - 1)%nat in
  let h := h_Swap h 0 n in
  let h := (down h 0 n).1 in
  h_Pop h.

Definition heap_Remove (h : S) (i : nat) : option (T * S) :=
  let n := (h_Len h - 1)%nat in
  let h :=
    if (n =? i)%nat then h
    else
      let h := h_Swap h i n in
      let '(h, moved) := down h i n in
      if moved then h else up h i in
  h_Pop h.

Definition heap_Fix (h : S) (i : nat) : S :=
  let '(h, moved) := down h i (h_Len h) in
  if moved then h else up h i.
End container_heap.

(** ** [queue.go] *)

(** Exchanging two positions of a slice *)
Definition swap {T} (l : list T) (i j : nat) : list T :=
  match l !! i, l !! j with
  | Some x, Some y => <[j := x]> (<[i := y]> l)
  | _, _ => l
  end.

(** Removing the last element *)
Definition pop_last {T} (l : list T) : option (T * list T) :=
  x ← last l; Some (x, take (length l - 1) l).

Section queue.
Context {T : Type} (less : T → T → bool).

Definition less_at (l : list T) (i j : nat) : bool :=
  match l !! i, l !! j with Some x, Some y => less x y | _, _ => false end.

Definition queue : HeapInterface (list T) T := {|
  h_Len := length;
  h_Less := less_at;
  h_Swap := swap;
  h_Push l x := l ++ [x];
  h_Pop := pop_last;
|}.

Definition QueueOf (entries : list T) : list T := Init (H := queue) entries.
Definition NewQueue : list T := QueueOf [].
Definition Queue_Len (q : list T) : nat := length q.
Definition Queue_Push (q : list T) (t : T) : list T := heap_Push (H := queue) q t.
Definition Queue_Pop (q : list T) : option (T * list T) :=
  if (Queue_Len q =? 0)%nat then None else heap_Pop (H := queue) q.
Definition Queue_Peek (q : list T) : option T :=
  if (Queue_Len q =? 0)%nat then None else q !! 0%nat.
Definition Queue_Fix (q : list T) (i : nat) : list T := heap_Fix (H := queue) q i.
End queue.

(** ** [map.go] *)

Section map.
Context {K V : Type} `{Countable K} (less : V → V → bool).

Record indexedQueue := mkIndexed { iq_entries : list (K * V); iq_index : gmap K nat }.

Definition entry_less (a b : K * V) : bool := less a.2 b.2.

Definition iq_Swap (h : indexedQueue) (i j : nat) : indexedQueue :=
  let entries := swap (iq_entries h) i j in
  match entries !! i, entries !! j with
  | Some a, Some b => mkIndexed entries (<[b.1 := j]> (<[a.1 := i]> (iq_index h)))
  | _, _ => h
  end.

Definition iq_Push (h : indexedQueue) (e : K * V) : indexedQueue :=
  mkIndexed (iq_entries h ++ [e]) (<[e.1 := base.size (iq_index h)]> (iq_index h)).

Definition iq_Pop (h : indexedQueue) : option ((K * V) * indexedQueue) :=
  '(popped, entries) ← pop_last (iq_entries h);
  Some (popped, mkIndexed entries (delete popped.1 (iq_index h))).

Definition indexed : HeapInterface indexedQueue (K * V) := {|
  h_Len h := length (iq_entries h);
  h_Less h := less_at entry_less (iq_entries h);
  h_Swap := iq_Swap;
  h_Push := iq_Push;
  h_Pop := iq_Pop;
|}.

Definition NewMap : indexedQueue := mkIndexed [] ∅.
Definition MapValues (m : indexedQueue) : list V := (iq_entries m).*2.
Definition Map_Len (m : indexedQueue) : nat := length (iq_entries m).

(** The value that was replaced, if any *)
Definition Map_Push (m : indexedQueue) (k : K) (v : V) : option V * indexedQueue :=
  match iq_index m !! k with
  | Some i =>
      let prev := iq_entries m !! i in
      let m := mkIndexed (alter (λ e, (e.1, v)) i (iq_entries m)) (iq_index m) in
      (snd <$> prev, heap_Fix (H := indexed) m i)
  | None => (None, heap_Push (H := indexed) m (k, v))
  end.

Definition Map_Pop (m : indexedQueue) : option ((K * V) * indexedQueue) :=
  if (Map_Len m =? 0)%nat then None else heap_Pop (H := indexed) m.

Definition Map_Peek (m : indexedQueue) : option (K * V) :=
  if (Map_Len m =? 0)%nat then None else iq_entries m !! 0%nat.

Definition Map_Remove (m : indexedQueue) (k : K) : option V * indexedQueue :=
  match iq_index m !! k with
  | Some i =>
      match heap_Remove (H := indexed) m i with
      | Some (removed, m) => (Some removed.2, m)
      | None => (None, m)
      end
  | None => (None, m)
  end.

Definition Map_Contains (m : indexedQueue) (k : K) : bool :=
  match iq_index m !! k with Some _ => true | None => false end.

Definition Map_Get (m : indexedQueue) (k : K) : option V :=
  match iq_index m !! k with
  | Some i => snd <$> iq_entries m !! i
  | None => None
  end.

Definition Map_Fix (m : indexedQueue) (k : K) : indexedQueue :=
  match iq_index m !! k with
  | Some i => heap_Fix (H := indexed) m i
  | None => m
  end.
End map.

(** ** [set.go] *)

Section set.
Context {T : Type} `{Countable T} (less : T → T → bool).

Definition NewSet : indexedQueue (K := T) (V := T) := NewMap.
Definition Set_Push (s : indexedQueue (K := T) (V := T)) (t : T) : bool * indexedQueue (K := T) (V := T) :=
  let '(prev, s) := Map_Push less s t t in
  (match prev with Some _ => false | None => true end, s).
Definition Set_Pop (s : indexedQueue (K := T) (V := T)) : option (T * indexedQueue (K := T) (V := T)) :=
  '(e, s) ← Map_Pop less s; Some (e.1, s).
Definition Set_Peek (s : indexedQueue (K := T) (V := T)) : option T := e ← Map_Peek s; Some e.1.
Definition Set_Len (s : indexedQueue (K := T) (V := T)) : nat := Map_Len s.
Definition Set_Remove (s : indexedQueue (K := T) (V := T)) (t : T) : bool * indexedQueue (K := T) (V := T) :=
  let '(removed, s) := Map_Remove less s t in
  (match removed with Some _ => true | None => false end, s).
Definition Set_Fix (s : indexedQueue (K := T) (V := T)) (t : T) : indexedQueue (K := T) (V := T) := Map_Fix less s t.
Definition Set_Contains (s : indexedQueue (K := T) (V := T)) (t : T) : bool := Map_Contains s t.
End set.

(** ** Exchanging positions *)

Lemma length_swap {T} (l : list T) i j : length (swap l i j) = length l.
Proof. unfold swap. destruct (l !! i), (l !! j); by rewrite ?length_insert. Qed.

Lemma swap_lookup {T} (l : list T) i j k :
  (i < length l)%nat → (j < length l)%nat →
  swap l i j !! k = if decide (k = i) then l !! j else if decide (k = j) then l !! i else l !! k.
Proof.
  intros Hi Hj. apply lookup_lt_is_Some_2 in Hi as [x Hx]. apply lookup_lt_is_Some_2 in Hj as [y Hy].
  unfold swap. rewrite Hx, Hy. pose proof (lookup_lt_Some _ _ _ Hx). pose proof (lookup_lt_Some _ _ _ Hy).
  destruct (decide (k = i)) as [->|Hki].
  - destruct (decide (i = j)) as [->|Hij].
    + rewrite list_lookup_insert_eq by by rewrite length_insert. congruence.
    + rewrite list_lookup_insert_ne by done. by rewrite list_lookup_insert_eq.
  - destruct (decide (k = j)) as [->|Hkj].
    + by rewrite list_lookup_insert_eq by by rewrite length_insert.
    + by rewrite !list_lookup_insert_ne by done.
Qed.

Lemma swap_perm {T} (l : list T) i j : swap l i j ≡ₚ l.
Proof.
  destruct (decide (i < length l)%nat) as [Hi|Hi].
  2: { unfold swap. rewrite (lookup_ge_None_2 l i) by lia. done. }
  destruct (decide (j < length l)%nat) as [Hj|Hj].
  2: { unfold swap. rewrite (lookup_ge_None_2 l j) by lia. by destruct (l !! i). }
  symmetry. apply Permutation_inj. split; [by rewrite length_swap|].
  exists (λ k, if decide (k = i) then j else if decide (k = j) then i else k). split.
  - intros a b. repeat case_decide; intros; subst; congruence.
  - intros k. rewrite swap_lookup by done. repeat case_decide; congruence.
Qed.

(** ** Order in the heap *)

Lemma parent_lt j : (0 < j)%nat → (parent j < j)%nat.
Proof. intros Hj. unfold parent. apply Nat.Div0.div_lt_upper_bound. lia. Qed.

(** The children of a position *)
Lemma parent_child i c : (0 < c)%nat → parent c = i ↔ (c = 2 * i + 1 ∨ c = 2 * i + 2)%nat.
Proof.
  intros Hc. unfold parent. pose proof (Nat.div_mod_eq (c - 1) 2). pose proof (Nat.mod_upper_bound (c - 1) 2 ltac:(lia)).
  split; [lia|]. intros E. symmetry. apply (Nat.div_unique _ _ _ (c - 1 - 2 * i)); lia.
Qed.

Section order.
Context {T : Type} (less : T → T → bool).
Context (Htrans : ∀ x y z, less x y = false → less y z = false → less x z = false).
Context (Hasym : ∀ x y, less x y = true → less y x = false).

Notation queue := (queue less).

(** The element at [i] is not less than the one at [j]. *)
Definition le_at (l : list T) (j i : nat) : Prop := less_at less l i j = false.

(** Every position in [[0, n)] but those in [except] is in order with its parent, as far
    as the parent is at least [k]. *)
Definition ordered (k n : nat) (except : nat → Prop) (l : list T) : Prop :=
  ∀ c, (0 < c < n)%nat → (k ≤ parent c)%nat → ¬ except c → le_at l (parent c) c.

Definition is_heap (l : list T) : Prop := ordered 0 (length l) (λ _, False) l.

Lemma less_at_asym (l : list T) i j : less_at less l i j = true → less_at less l j i = false.
Proof using Hasym. unfold less_at. destruct (l !! i), (l !! j); try done. apply Hasym. Qed.

Lemma less_at_irrefl (l : list T) i : less_at less l i i = false.
Proof using Hasym. destruct (less_at less l i i) eqn:E; [|done]. by rewrite (less_at_asym l i i E) in E. Qed.

Lemma le_at_trans (l : list T) a b c :
  (b < length l)%nat → le_at l a b → le_at l b c → le_at l a c.
Proof using Htrans.
  unfold le_at, less_at. intros Hb. apply lookup_lt_is_Some_2 in Hb as [y Hy]. rewrite Hy.
  destruct (l !! a) as [x|], (l !! c) as [z|]; try done. intros H1 H2. by apply (Htrans z y x).
Qed.

Lemma le_at_swap (l : list T) i j a b :
  (i < length l)%nat → (j < length l)%nat →
  let s k := if decide (k = i) then j else if decide (k = j) then i else k in
  le_at (swap l i j) a b ↔ le_at l (s a) (s b).
Proof.
  intros Hi Hj s. unfold le_at, less_at. rewrite !swap_lookup by done. unfold s. repeat case_decide; done.
Qed.

(** The children of a position that is exchanged with its parent were in order with it. *)
Definition above_children (k n i : nat) (l : list T) : Prop :=
  (0 < i)%nat → (k ≤ parent i)%nat → ∀ c, (0 < c < n)%nat → parent c = i → le_at l (parent i) c.

(** [down] restores the order below a position. *)
Lemma down_loop_spec k n i0 : ∀ fuel l i,
  (n ≤ length l)%nat → (k ≤ i0 ≤ i)%nat → (n ≤ fuel + i)%nat →
  ordered k n (λ c, parent c = i ∨ (c = i0 ∧ i = i0)) l → above_children k n i l →
  ∃ l' i', down_loop (H := queue) fuel l i n = (l', i') ∧ (i ≤ i')%nat ∧ l' ≡ₚ l ∧ length l' = length l
    ∧ (∀ m, (n ≤ m)%nat → l' !! m = l !! m) ∧ (∀ m, (m < i)%nat → l' !! m = l !! m)
    ∧ (i' = i → l' = l)
    ∧ ordered k n (λ c, c = i0 ∧ i' = i0) l'.
Proof using Htrans Hasym.
  induction fuel as [|fuel IH]; intros l i Hn Hi Hf Hord Habove; cbn [down_loop].
  - exists l, i. repeat (split; [done || lia|]). intros c Hc Hk He. apply Hord; [done|done|]. intros [E|?]; [|tauto].
    apply parent_child in E; lia.
  - destruct (Nat.leb_spec n (2 * i + 1)) as [Hj1|Hj1].
    { exists l, i. repeat (split; [done || lia|]). intros c Hc Hk He. apply Hord; [done|done|]. intros [E|?]; [|tauto].
      apply parent_child in E; lia. }
    change (h_Less (HeapInterface := queue) l) with (less_at less l).
    set (j := if ((2 * i + 1 + 1 <? n)%nat && less_at less l (2 * i + 1 + 1) (2 * i + 1))
              then (2 * i + 1 + 1)%nat else (2 * i + 1)%nat).
    (* [j] is the lesser child *)
    assert (Hj : (j = 2 * i + 1 ∨ (j = 2 * i + 2 ∧ j < n))%nat).
    { unfold j. destruct (Nat.ltb_spec (2 * i + 1 + 1) n); cbn [andb]; [|by left].
      destruct (less_at less l (2 * i + 1 + 1) (2 * i + 1)); [right; lia|by left]. }
    assert (Hpj : parent j = i) by (apply parent_child; lia). assert (Hjn : (0 < j < n)%nat) by lia. clear Hj.
    assert (Hmin : ∀ c, (0 < c < n)%nat → parent c = i → le_at l j c).
    { intros c Hc E%parent_child; [|lia]. unfold j, le_at. destruct E as [->|E].
      - destruct (Nat.ltb_spec (2 * i + 1 + 1) n); cbn [andb]; [|apply less_at_irrefl].
        destruct (less_at less l (2 * i + 1 + 1) (2 * i + 1)) eqn:El; [by apply less_at_asym|apply less_at_irrefl].
      - assert (c = 2 * i + 1 + 1)%nat as -> by lia. rewrite (proj2 (Nat.ltb_lt _ _)) by lia. cbn [andb].
        destruct (less_at less l (2 * i + 1 + 1) (2 * i + 1)) eqn:El; [apply less_at_irrefl|done]. }
    destruct (less_at less l j i) eqn:Eji; cbn [negb].
    2: { exists l, i. repeat (split; [done || lia|]). intros c Hc Hk He.
         destruct (decide (parent c = i)) as [E|E]; [|by apply Hord; tauto]. rewrite E.
         apply (le_at_trans l i j c); [lia|done|by apply Hmin]. }
    assert (Hij : (i < j)%nat) by (rewrite <- Hpj; apply parent_lt; lia).
    assert (Hle : le_at l j i).
    { by apply less_at_asym. }
    change (h_Swap (HeapInterface := queue) l i j) with (swap l i j).
    assert (Hs : ∀ a b, le_at (swap l i j) a b ↔ _) by (intros a b; apply (le_at_swap l i j a b); lia).
    destruct (IH (swap l i j) j) as (l' & i' & -> & Hi' & Hp & Hl & Hout & Hlow & Hsame & Hord').
    + by rewrite length_swap.
    + lia.
    + lia.
    + intros c Hc Hk He. apply Hs. cbv zeta.
      destruct (decide (c = i)) as [->|Hci].
      * (* the lesser child has come to [i] *)
        pose proof (parent_lt i ltac:(lia)). rewrite (decide_False (P := parent i = i)) by lia.
        rewrite (decide_False (P := parent i = j)) by lia. apply (Habove ltac:(lia) Hk j Hjn Hpj).
      * destruct (decide (c = j)) as [->|Hcj].
        -- rewrite Hpj. by rewrite decide_True.
        -- destruct (decide (parent c = i)) as [E|E]; [by apply Hmin|].
           destruct (decide (parent c = j)) as [E'|E']; [tauto|]. apply Hord; [done|done|].
           intros [?|[? ?]]; [done|]. apply Hci. lia.
    + intros _ Hk c Hc E. rewrite Hpj. apply Hs. cbv zeta. rewrite decide_True by done.
      pose proof (parent_lt c ltac:(lia)).
      rewrite (decide_False (P := c = i)) by lia. rewrite (decide_False (P := c = j)) by lia.
      rewrite <- E at 1. apply Hord; [lia|lia|]. intros [?|[? ?]]; lia.
    + exists l', i'. split; [done|]. split; [lia|]. split; [by rewrite Hp, swap_perm|].
      split; [by rewrite Hl, length_swap|]. split; [|split; [|split; [lia|]]].
      * intros m Hm. rewrite Hout, swap_lookup by lia. rewrite !decide_False by lia. done.
      * intros m Hm. rewrite Hlow, swap_lookup by lia. rewrite !decide_False by lia. done.
      * intros c Hc Hk He. apply Hord'; [done|done|]. intros [? ?]. lia.
Qed.

Lemma down_spec k n i0 l :
  (n ≤ length l)%nat → (k ≤ i0)%nat → ordered k n (λ c, parent c = i0 ∨ c = i0) l → above_children k n i0 l →
  ∃ l' moved, down (H := queue) l i0 n = (l', moved) ∧ l' ≡ₚ l ∧ length l' = length l
    ∧ (∀ m, (n ≤ m)%nat → l' !! m = l !! m) ∧ (∀ m, (m < i0)%nat → l' !! m = l !! m)
    ∧ (moved = false → l' = l) ∧ ordered k n (λ c, c = i0 ∧ moved = false) l'.
Proof using Htrans Hasym.
  intros Hn Hk Hord Habove. unfold down.
  destruct (down_loop_spec k n i0 n l i0) as (l' & i' & -> & Hi' & Hp & Hl & Hout & Hlow & Hsame & Hord'); try done; try lia.
  { intros c Hc Hkc He. apply Hord; [done|done|]. tauto. }
  exists l', (i0 <? i')%nat. split; [done|]. split; [done|]. split; [done|]. split; [done|]. split; [done|]. split.
  - intros E%Nat.ltb_ge. apply Hsame. lia.
  - intros c Hc Hkc He. apply Hord'; [done|done|]. intros [-> ->]. apply He. split; [done|]. apply Nat.ltb_irrefl.
Qed.

(** [up] restores the order above a position. *)
Lemma up_loop_spec : ∀ fuel l j,
  (j < length l)%nat → (j < fuel)%nat → ordered 0 (length l) (λ c, c = j) l → above_children 0 (length l) j l →
  up_loop (H := queue) fuel l j ≡ₚ l ∧ is_heap (up_loop (H := queue) fuel l j).
Proof using Htrans Hasym.
  induction fuel as [|fuel IH]; intros l j Hj Hf Hord Habove; [lia|]. cbn [up_loop].
  change (h_Less (HeapInterface := queue) l) with (less_at less l).
  change (h_Swap (HeapInterface := queue) l) with (swap l).
  destruct (Nat.eqb_spec (parent j) j) as [E|E]; cbn [orb].
  { split; [done|]. intros c Hc Hk _. apply Hord; [done|done|]. intros ->.
    pose proof (parent_lt j ltac:(lia)). lia. }
  destruct (less_at less l j (parent j)) eqn:Eless; cbn [negb].
  2: { split; [done|]. intros c Hc Hk _. destruct (decide (c = j)) as [->|]; [done|by apply Hord]. }
  assert (Hj0 : (0 < j)%nat) by (destruct j; [done|lia]). pose proof (parent_lt j Hj0) as Hpj.
  assert (Hle : le_at l j (parent j)) by (by apply less_at_asym).
  set (i := parent j) in *.
  assert (Hs : ∀ a b, le_at (swap l i j) a b ↔ _) by (intros a b; apply (le_at_swap l i j a b); lia).
  destruct (IH (swap l i j) i) as [Hp Hh]; rewrite ?length_swap; [lia|lia|..].
  - intros c Hc Hk He. apply Hs. cbv zeta. rewrite (decide_False (P := c = i)) by done.
    destruct (decide (c = j)) as [->|Hcj].
    + fold i. rewrite decide_True by done. done.
    + destruct (decide (parent c = i)) as [Ec|Ec].
      * (* a sibling *) apply (le_at_trans l j i c); [lia|done|]. rewrite <- Ec. by apply Hord.
      * destruct (decide (parent c = j)) as [Ec'|Ec']; [by apply (Habove Hj0 ltac:(lia))|by apply Hord].
  - intros Hi0 _ c Hc Ec. pose proof (parent_lt i Hi0). apply Hs. cbv zeta.
    rewrite (decide_False (P := parent i = i)), (decide_False (P := parent i = j)) by lia.
    pose proof (parent_lt c ltac:(lia)). rewrite (decide_False (P := c = i)) by lia.
    assert (Hpi : le_at l (parent i) i) by (apply Hord; [lia|lia|lia]).
    destruct (decide (c = j)) as [->|Hcj]; [done|].
    apply (le_at_trans l _ i c); [lia|done|]. rewrite <- Ec. apply Hord; [done|lia|done].
  - split; [by rewrite Hp, swap_perm|done].
Qed.

Lemma up_spec l j :
  (j < length l)%nat → ordered 0 (length l) (λ c, c = j) l → above_children 0 (length l) j l →
  up (H := queue) l j ≡ₚ l ∧ is_heap (up (H := queue) l j).
Proof using Htrans Hasym. intros. apply up_loop_spec; [done|lia|done|done]. Qed.

(** The root is minimal. *)
Lemma heap_root l i : is_heap l → (i < length l)%nat → le_at l 0 i.
Proof using Htrans Hasym.
  intros Hh. induction i as [i IH] using lt_wf_ind. intros Hi. destruct (decide (i = 0)%nat) as [->|Hi0].
  - apply less_at_irrefl.
  - pose proof (parent_lt i ltac:(lia)). apply (le_at_trans l 0 (parent i) i); [lia|apply IH; lia|].
    apply Hh; [lia|lia|tauto].
Qed.

(** ** The operations keep the heap *)

Lemma init_loop_spec : ∀ k l n,
  n = length l → (k ≤ n)%nat → ordered k n (λ _, False) l →
  init_loop (H := queue) k l n ≡ₚ l ∧ is_heap (init_loop (H := queue) k l n).
Proof using Htrans Hasym.
  induction k as [|i IH]; intros l n Hn Hk Hord; cbn [init_loop].
  - split; [done|]. unfold is_heap. by rewrite <- Hn.
  - destruct (down_spec i n i l) as (l' & moved & -> & Hp & Hl & _ & _ & _ & Hord').
    + lia.
    + lia.
    + intros c Hc Hkc He. apply Hord; [done| |tauto]. destruct (decide (parent c = i)); [tauto|lia].
    + intros Hi Hki. pose proof (parent_lt i Hi). lia.
    + cbn [fst]. destruct (IH l' n) as [Hp' Hh']; [lia|lia| |].
      * intros c Hc Hkc _. apply Hord'; [done|done|]. intros [-> _]. pose proof (parent_lt i ltac:(lia)). lia.
      * split; [by rewrite Hp'|done].
Qed.

Lemma Init_spec l : Init (H := queue) l ≡ₚ l ∧ is_heap (Init (H := queue) l).
Proof using Htrans Hasym.
  unfold Init. apply init_loop_spec; [done| |].
  - change (h_Len l) with (length l). apply Nat.Div0.div_le_upper_bound. lia.
  - intros c Hc Hk _. exfalso. change (h_Len l) with (length l) in Hk, Hc.
    pose proof (Nat.div_mod_eq (length l) 2). pose proof (Nat.mod_upper_bound (length l) 2 ltac:(lia)).
    pose proof (proj1 (parent_child (parent c) c ltac:(lia)) eq_refl). lia.
Qed.

(** A heap in which one position has got another element *)
Definition heap_but (i : nat) (l : list T) : Prop :=
  ordered 0 (length l) (λ c, c = i ∨ parent c = i) l ∧ above_children 0 (length l) i l.

Lemma Fix_spec l i : (i < length l)%nat → heap_but i l → heap_Fix (H := queue) l i ≡ₚ l ∧ is_heap (heap_Fix (H := queue) l i).
Proof using Htrans Hasym.
  intros Hi [Hord Habove]. unfold heap_Fix. change (h_Len l) with (length l).
  destruct (down_spec 0 (length l) i l) as (l' & moved & -> & Hp & Hl & _ & _ & Hsame & Hord'); [lia|lia| |done|].
  { intros c Hc Hk He. apply Hord; tauto. }
  destruct moved.
  - split; [done|]. unfold is_heap. rewrite Hl. intros c Hc Hk _. apply Hord'; [done|done|]. by intros [_ ?].
  - specialize (Hsame eq_refl) as ->. apply up_spec; [done| |done]. intros c Hc Hk He. apply Hord'; tauto.
Qed.

Lemma insert_heap_but l i x : is_heap l → (i < length l)%nat → heap_but i (<[i := x]> l).
Proof using Htrans.
  intros Hh Hi. assert (Hle : ∀ a b, a ≠ i → b ≠ i → le_at (<[i := x]> l) a b ↔ le_at l a b).
  { intros a b Ha Hb. unfold le_at, less_at. by rewrite !list_lookup_insert_ne. }
  split; rewrite length_insert.
  - intros c Hc Hk He. apply Hle; [tauto|tauto|]. apply Hh; [done|lia|tauto].
  - intros Hi0 _ c Hc Ec. pose proof (parent_lt i Hi0). pose proof (parent_lt c ltac:(lia)).
    apply Hle; [lia|lia|]. apply (le_at_trans l _ i c); [done|by apply Hh; [lia|lia|tauto]|]. rewrite <- Ec. apply Hh; [done|lia|tauto].
Qed.

Lemma Push_spec l x : is_heap l → heap_Push (H := queue) l x ≡ₚ x :: l ∧ is_heap (heap_Push (H := queue) l x).
Proof using Htrans Hasym.
  intros Hh. unfold heap_Push. change (h_Push l x) with (l ++ [x]). change (h_Len (l ++ [x])) with (length (l ++ [x])).
  rewrite length_app. cbn [length]. rewrite Nat.add_sub.
  destruct (up_spec (l ++ [x]) (length l)) as [Hp Hh'].
  - rewrite length_app. simpl. lia.
  - rewrite length_app. simpl. intros c Hc Hk He. pose proof (parent_lt c ltac:(lia)).
    unfold le_at, less_at. rewrite !lookup_app_l by lia. apply Hh; [lia|lia|tauto].
  - rewrite length_app. simpl. intros _ _ c Hc Ec. apply parent_child in Ec; lia.
  - split; [|done]. rewrite Hp. symmetry. apply Permutation_cons_append.
Qed.

(** ** A heap with one element more at its end *)

Lemma less_at_app (l k : list T) i j :
  (i < length l)%nat → (j < length l)%nat → less_at less (l ++ k) i j = less_at less l i j.
Proof. intros Hi Hj. unfold less_at. by rewrite !lookup_app_l. Qed.

Lemma swap_app (l k : list T) i j :
  (i < length l)%nat → (j < length l)%nat → swap (l ++ k) i j = swap l i j ++ k.
Proof.
  intros Hi Hj. unfold swap. rewrite !lookup_app_l by done.
  destruct (l !! i), (l !! j); try done. rewrite !insert_app_l by (rewrite ?length_insert; done). done.
Qed.

Lemma up_loop_app (k : list T) fuel : ∀ l j, (j < length l)%nat →
  up_loop (H := queue) fuel (l ++ k) j = up_loop (H := queue) fuel l j ++ k.
Proof.
  induction fuel as [|fuel IH]; intros l j Hj; cbn [up_loop]; [done|].
  assert (Hpj : (parent j < length l)%nat).
  { destruct (decide (j = 0)%nat) as [->|]; [done|]. pose proof (parent_lt j ltac:(lia)). lia. }
  change (h_Less (HeapInterface := queue)) with (less_at less).
  change (h_Swap (HeapInterface := queue)) with (@swap T).
  rewrite less_at_app, swap_app by done. destruct (_ || _); [done|]. apply IH. by rewrite length_swap.
Qed.

Lemma down_loop_app (k : list T) fuel n : ∀ l i, n = length l → (i < length l)%nat →
  down_loop (H := queue) fuel (l ++ k) i n
  = ((down_loop (H := queue) fuel l i n).1 ++ k, (down_loop (H := queue) fuel l i n).2).
Proof.
  induction fuel as [|fuel IH]; intros l i Hn Hi; cbn [down_loop]; [done|].
  destruct (Nat.leb_spec n (2 * i + 1)) as [Hj1|Hj1]; [done|].
  change (h_Less (HeapInterface := queue)) with (less_at less).
  change (h_Swap (HeapInterface := queue)) with (@swap T).
  assert (Hc : (2 * i + 1 + 1 <? n)%nat && less_at less (l ++ k) (2 * i + 1 + 1) (2 * i + 1)
    = (2 * i + 1 + 1 <? n)%nat && less_at less l (2 * i + 1 + 1) (2 * i + 1)).
  { destruct (Nat.ltb_spec (2 * i + 1 + 1) n); [|done]. by rewrite less_at_app by lia. }
  rewrite Hc. set (j := if (2 * i + 1 + 1 <? n)%nat && less_at less l (2 * i + 1 + 1) (2 * i + 1)
            then (2 * i + 1 + 1)%nat else (2 * i + 1)%nat).
  assert (Hj : (j < length l)%nat).
  { unfold j. destruct (Nat.ltb_spec (2 * i + 1 + 1) n); cbn [andb]; [|lia].
    destruct (less_at less l (2 * i + 1 + 1) (2 * i + 1)); lia. }
  rewrite less_at_app by done. destruct (negb _); [done|]. rewrite swap_app by done.
  apply IH; by rewrite length_swap.
Qed.

Lemma down_app (l k : list T) i : (i < length l)%nat →
  down (H := queue) (l ++ k) i (length l) = ((down (H := queue) l i (length l)).1 ++ k, (down (H := queue) l i (length l)).2).
Proof.
  intros Hi. unfold down. rewrite down_loop_app by done. by destruct (down_loop (H := queue) _ l i _) as [l' i'].
Qed.

Lemma length_down l i n : length (down (H := queue) l i n).1 = length l.
Proof.
  unfold down. assert (Hl : ∀ fuel l i, length (down_loop (H := queue) fuel l i n).1 = length l).
  { clear. induction fuel as [|fuel IH]; intros l i; cbn [down_loop]; [done|].
    destruct (n <=? 2 * i + 1)%nat; [done|]. destruct (negb _); [done|]. rewrite IH. apply length_swap. }
  specialize (Hl n l i). by destruct (down_loop (H := queue) n l i n).
Qed.

Lemma pop_last_app (l : list T) x : pop_last (l ++ [x]) = Some (x, l).
Proof.
  unfold pop_last. rewrite last_snoc. cbn [mbind option_bind]. rewrite length_app. cbn [length].
  rewrite Nat.add_sub, take_app_length. done.
Qed.

(** Putting the last element in place of another *)
Lemma swap_last (l : list T) y i x : l !! i = Some x → swap (l ++ [y]) i (length l) = <[i := y]> l ++ [x].
Proof.
  intros Hi. pose proof (lookup_lt_Some _ _ _ Hi). unfold swap. rewrite lookup_app_l, Hi by done.
  rewrite list_lookup_middle by done. rewrite (insert_app_l l [y] i y) by done.
  rewrite insert_app_r_alt by (rewrite length_insert; lia). by rewrite length_insert, Nat.sub_diag.
Qed.

(** [Remove] takes the element at a position out of the heap. *)
Lemma Remove_heap_spec l i x : is_heap l → l !! i = Some x →
  ∃ l', heap_Remove (H := queue) l i = Some (x, l') ∧ l ≡ₚ x :: l' ∧ is_heap l'.
Proof using Htrans Hasym.
  intros Hh Hi. destruct l as [|y l0 _] using rev_ind; [done|].
  assert (Hh0 : is_heap l0).
  { intros c Hc Hk _. pose proof (parent_lt c ltac:(lia)). unfold le_at. rewrite <- (less_at_app l0 [y]) by lia.
    apply Hh; [rewrite length_app; simpl; lia|done|tauto]. }
  unfold heap_Remove. change (h_Len (l0 ++ [y])) with (length (l0 ++ [y])). rewrite length_app. cbn [length]. rewrite Nat.add_sub.
  change (h_Pop (HeapInterface := queue)) with (@pop_last T). change (h_Swap (HeapInterface := queue)) with (@swap T).
  destruct (Nat.eqb_spec (length l0) i) as [<-|Hne].
  - rewrite list_lookup_middle in Hi by done. injection Hi as ->. exists l0. split; [apply pop_last_app|].
    split; [symmetry; apply Permutation_cons_append|done].
  - assert (Hil : (i < length l0)%nat).
    { apply lookup_lt_Some in Hi. rewrite length_app in Hi. simpl in Hi. lia. }
    rewrite lookup_app_l in Hi by done. rewrite (swap_last l0 y i x Hi).
    pose proof (Fix_spec (<[i := y]> l0) i) as Hfix. rewrite length_insert in Hfix.
    destruct Hfix as [Hp Hh']; [done|by apply insert_heap_but|]. unfold heap_Fix in Hp, Hh'.
    change (h_Len (<[i := y]> l0)) with (length (<[i := y]> l0)) in Hp, Hh'.
    pose proof (down_app (<[i := y]> l0) [x] i) as Hd. pose proof (length_down (<[i := y]> l0) i (length (<[i := y]> l0))) as Hld.
    rewrite length_insert in Hd, Hp, Hh', Hld. rewrite (Hd Hil).
    destruct (down (H := queue) (<[i := y]> l0) i (length l0)) as [l1 moved]. cbn [fst snd] in *.
    assert (Hperm : l0 ++ [y] ≡ₚ x :: <[i := y]> l0).
    { rewrite <- (swap_perm (l0 ++ [y]) i (length l0)), (swap_last l0 y i x Hi). symmetry. apply Permutation_cons_append. }
    destruct moved.
    + exists l1. split; [apply pop_last_app|]. split; [by rewrite Hp|done].
    + exists (up (H := queue) l1 i). unfold up in *. rewrite up_loop_app by lia.
      split; [apply pop_last_app|]. split; [by rewrite Hp|done].
Qed.

(** [Pop] removes the root. *)
Lemma Pop_heap_spec l x : is_heap l → l !! 0%nat = Some x →
  ∃ l', heap_Pop (H := queue) l = Some (x, l') ∧ l ≡ₚ x :: l' ∧ is_heap l'.
Proof using Htrans Hasym.
  intros Hh Hx. destruct (Remove_heap_spec l 0 x Hh Hx) as (l' & E & ? & ?). exists l'. split; [|done].
  rewrite <- E. unfold heap_Pop, heap_Remove. change (h_Len l) with (length l).
  change (h_Pop (HeapInterface := queue)) with (@pop_last T). change (h_Swap (HeapInterface := queue)) with (@swap T).
  destruct l as [|a [|b l]]; [done| |].
  - done.
  - replace (length (a :: b :: l) - 1 =? 0)%nat with false by (symmetry; apply Nat.eqb_neq; simpl; lia).
    destruct (down _ 0 _) as [l1 moved]. cbn [fst]. destruct moved; [done|]. done.
Qed.
End order.

(** ** Heaps with an index *)

(** An implementation of the interface whose elements are those of a slice, and what its
    exchanges preserve. *)
Section simulation.
Context {S T : Type} (less : T → T → bool) (H : HeapInterface S T) (elems : S → list T) (P : S → Prop).
Context (Hless : ∀ h i j, h_Less h i j = less_at less (elems h) i j).
Context (Hswap : ∀ h i j, P h → (i < length (elems h))%nat → (j < length (elems h))%nat →
  elems (h_Swap h i j) = swap (elems h) i j ∧ P (h_Swap h i j)).

Lemma up_loop_sim fuel : ∀ h j, P h → (j < length (elems h))%nat →
  elems (up_loop (H := H) fuel h j) = up_loop (H := queue less) fuel (elems h) j ∧ P (up_loop (H := H) fuel h j).
Proof using Hless Hswap.
  induction fuel as [|fuel IH]; intros h j HP Hj; cbn [up_loop]; [done|].
  rewrite Hless. change (h_Less (HeapInterface := queue less)) with (less_at less).
  destruct (_ || _); [done|].
  assert (Hpj : (parent j < length (elems h))%nat).
  { destruct (decide (j = 0)%nat) as [->|]; [done|]. pose proof (parent_lt j ltac:(lia)). lia. }
  destruct (Hswap h (parent j) j HP Hpj Hj) as [E HP']. change (h_Swap (HeapInterface := queue less)) with (@swap T).
  rewrite <- E. apply IH; [done|]. by rewrite E, length_swap.
Qed.

Lemma down_loop_sim n fuel : ∀ h i, P h → (n ≤ length (elems h))%nat → (i < length (elems h))%nat →
  (λ r, (elems r.1, r.2)) (down_loop (H := H) fuel h i n) = down_loop (H := queue less) fuel (elems h) i n
  ∧ P (down_loop (H := H) fuel h i n).1.
Proof using Hless Hswap.
  induction fuel as [|fuel IH]; intros h i HP Hn Hi; cbn [down_loop]; [done|].
  destruct (Nat.leb_spec n (2 * i + 1)) as [Hj1|Hj1]; [done|].
  rewrite !Hless. change (h_Less (HeapInterface := queue less)) with (less_at less).
  set (j := if (2 * i + 1 + 1 <? n)%nat && less_at less (elems h) (2 * i + 1 + 1) (2 * i + 1)
            then (2 * i + 1 + 1)%nat else (2 * i + 1)%nat).
  assert (Hj : (j < length (elems h))%nat).
  { unfold j. destruct (Nat.ltb_spec (2 * i + 1 + 1) n); cbn [andb]; [|lia].
    destruct (less_at less (elems h) (2 * i + 1 + 1) (2 * i + 1)); lia. }
  destruct (negb _); [done|]. destruct (Hswap h i j HP Hi Hj) as [E HP'].
  change (h_Swap (HeapInterface := queue less)) with (@swap T). rewrite <- E. apply IH; [done|..]; by rewrite E, length_swap.
Qed.

Lemma down_sim n h i : P h → (n ≤ length (elems h))%nat → (i < length (elems h))%nat →
  ∃ h' moved, down (H := H) h i n = (h', moved) ∧ down (H := queue less) (elems h) i n = (elems h', moved) ∧ P h'.
Proof using Hless Hswap.
  intros HP Hn Hi. unfold down. destruct (down_loop_sim n n h i HP Hn Hi) as [E HP'].
  destruct (down_loop (H := H) n h i n) as [h' k]. cbn [fst snd] in *. rewrite <- E. by exists h', (i <? k)%nat.
Qed.

Lemma Fix_sim h i : h_Len h = length (elems h) → P h → (i < length (elems h))%nat →
  elems (heap_Fix (H := H) h i) = heap_Fix (H := queue less) (elems h) i ∧ P (heap_Fix (H := H) h i).
Proof using Hless Hswap.
  intros Hl HP Hi. unfold heap_Fix. rewrite Hl. change (h_Len (elems h)) with (length (elems h)).
  destruct (down_sim (length (elems h)) h i HP ltac:(lia) Hi) as (h' & moved & -> & Hd & HP').
  pose proof (length_down less (elems h) i (length (elems h))) as Hlen. rewrite Hd in Hlen |- *. cbn [fst] in Hlen.
  destruct moved; [done|]. apply up_loop_sim; [done|lia].
Qed.
End simulation.

Section indexed_specs.
Context {K V : Type} `{Countable K} (less : V → V → bool).
Context (Htrans : ∀ x y z, less x y = false → less y z = false → less x z = false).
Context (Hasym : ∀ x y, less x y = true → less y x = false).

Notation iq := (indexedQueue (K := K) (V := V)).
Notation eless := (entry_less (K := K) less).

(** The index gives the position of every key. *)
Definition index_ok (m : iq) : Prop :=
  ∀ k i, iq_index m !! k = Some i ↔ ∃ v, iq_entries m !! i = Some (k, v).

Definition map_ok (m : iq) : Prop := index_ok m ∧ is_heap eless (iq_entries m).

(** The contents as a finite map *)
Definition map_of (m : iq) : gmap K V := list_to_map (iq_entries m).

Lemma eless_trans x y z : eless x y = false → eless y z = false → eless x z = false.
Proof using Htrans. apply Htrans. Qed.
Lemma eless_asym x y : eless x y = true → eless y x = false.
Proof using Hasym. apply Hasym. Qed.

Lemma index_ok_nodup m : index_ok m → NoDup (iq_entries m).*1.
Proof.
  intros Hi. apply NoDup_alt. intros a b k Ha Hb. rewrite list_lookup_fmap in Ha, Hb.
  destruct (iq_entries m !! a) as [[k1 v1]|] eqn:Ea; [|done]. destruct (iq_entries m !! b) as [[k2 v2]|] eqn:Eb; [|done].
  cbn in Ha, Hb. assert (k1 = k) as -> by congruence. assert (k2 = k) as -> by congruence.
  assert (iq_index m !! k = Some a) by (apply Hi; by exists v1).
  assert (iq_index m !! k = Some b) by (apply Hi; by exists v2). congruence.
Qed.

Lemma index_ok_size m : index_ok m → base.size (iq_index m) = length (iq_entries m).
Proof.
  intros Hi. pose proof (index_ok_nodup m Hi) as Hnd.
  assert (E : iq_index m = list_to_map (imap (λ i e, (e.1, i)) (iq_entries m))).
  { apply map_eq. intros k. apply option_eq. intros i. rewrite (Hi k i), <- elem_of_list_to_map.
    - rewrite list_elem_of_lookup. setoid_rewrite list_lookup_imap_Some. split.
      + intros [v Hv]. exists i, (k, v). done.
      + intros (j & [k' v] & Hj & [= -> ->]). by exists v.
    - rewrite fmap_imap. erewrite imap_ext, imap_const; [exact Hnd|]. done. }
  rewrite E, <- length_map_to_list, map_to_list_to_map; [by rewrite length_imap|].
  rewrite fmap_imap. erewrite imap_ext, imap_const; [exact Hnd|]. done.
Qed.

Lemma iq_Swap_spec m i j :
  index_ok m → (i < length (iq_entries m))%nat → (j < length (iq_entries m))%nat →
  iq_entries (iq_Swap m i j) = swap (iq_entries m) i j ∧ index_ok (iq_Swap m i j).
Proof.
  intros Hok Hi Hj. apply lookup_lt_is_Some_2 in Hi as [[ki vi] Hi]. apply lookup_lt_is_Some_2 in Hj as [[kj vj] Hj].
  pose proof (lookup_lt_Some _ _ _ Hi). pose proof (lookup_lt_Some _ _ _ Hj).
  assert (Hs : ∀ k, swap (iq_entries m) i j !! k = _) by (intros k; by apply swap_lookup).
  unfold iq_Swap. pose proof (Hs i) as Ei. pose proof (Hs j) as Ej.
  rewrite decide_True in Ei by done. rewrite Hj in Ei.
  assert (swap (iq_entries m) i j !! j = Some (ki, vi)) as Ej'.
  { rewrite Ej. destruct (decide (j = i)) as [->|]; [congruence|]. by rewrite decide_True. }
  rewrite Ei, Ej'. cbn [iq_entries iq_index fst]. split; [done|]. intros k n. cbn [iq_entries iq_index].
  rewrite lookup_insert. destruct (decide (ki = k)) as [<-|Hk1].
  - split.
    + intros [= <-]. by exists vi.
    + intros [v Hv]. rewrite Hs in Hv. assert (iq_index m !! ki = Some i) as Hidx by (apply Hok; by exists vi).
      destruct (decide (n = i)) as [->|].
      * rewrite Hj in Hv. assert (iq_index m !! ki = Some j) by (apply Hok; exists v; congruence). congruence.
      * destruct (decide (n = j)) as [->|]; [done|].
        assert (iq_index m !! ki = Some n) by (apply Hok; by exists v). congruence.
  - rewrite lookup_insert. destruct (decide (kj = k)) as [<-|Hk2].
    + split.
      * intros [= <-]. by exists vj.
      * intros [v Hv]. rewrite Hs in Hv. assert (iq_index m !! kj = Some j) as Hidx by (apply Hok; by exists vj).
        destruct (decide (n = i)) as [->|]; [done|]. destruct (decide (n = j)) as [->|]; [congruence|].
        assert (iq_index m !! kj = Some n) by (apply Hok; by exists v). congruence.
    + rewrite (Hok k n). split; intros [v Hv]; exists v.
      * rewrite Hs. destruct (decide (n = i)) as [->|]; [congruence|]. destruct (decide (n = j)) as [->|]; congruence.
      * rewrite Hs in Hv. destruct (decide (n = i)) as [->|]; [congruence|]. destruct (decide (n = j)) as [->|]; congruence.
Qed.

Lemma map_of_lookup m k v : index_ok m → map_of m !! k = Some v ↔ (k, v) ∈ iq_entries m.
Proof. intros Hok. unfold map_of. symmetry. apply elem_of_list_to_map. by apply index_ok_nodup. Qed.

Lemma map_of_index m k : index_ok m → map_of m !! k = (i ← iq_index m !! k; snd <$> iq_entries m !! i).
Proof.
  intros Hok. apply option_eq. intros v. rewrite (map_of_lookup m k v Hok), list_elem_of_lookup. split.
  - intros [i Hi]. assert (iq_index m !! k = Some i) as -> by (apply Hok; by exists v). cbn. by rewrite Hi.
  - destruct (iq_index m !! k) as [i|] eqn:Ei; [|done]. apply Hok in Ei as [v' Hv']. cbn. rewrite Hv'. intros [= <-]. by exists i.
Qed.

Lemma index_none m k : index_ok m → iq_index m !! k = None ↔ map_of m !! k = None.
Proof.
  intros Hok. rewrite (map_of_index m k Hok). destruct (iq_index m !! k) as [i|] eqn:Ei; [|done].
  apply Hok in Ei as [v Hv]. cbn. by rewrite Hv.
Qed.

(** Two queues with the same entries up to order *)
Lemma map_of_perm (l1 l2 : list (K * V)) : NoDup l1.*1 → l1 ≡ₚ l2 → list_to_map (M := gmap K V) l1 = list_to_map l2.
Proof. intros Hnd Hp. by apply list_to_map_proper. Qed.

Lemma eless_props : (∀ x y z, eless x y = false → eless y z = false → eless x z = false) ∧ (∀ x y, eless x y = true → eless y x = false).
Proof using Htrans Hasym. split; [apply eless_trans|apply eless_asym]. Qed.

(** The entries after an exchange-only operation *)
Lemma Map_Fix_ok m i : index_ok m → (i < length (iq_entries m))%nat → heap_but eless i (iq_entries m) →
  map_ok (heap_Fix (H := indexed less) m i) ∧ iq_entries (heap_Fix (H := indexed less) m i) ≡ₚ iq_entries m.
Proof using Htrans Hasym.
  intros Hok Hi Hb. destruct eless_props as [Ht Ha].
  destruct (Fix_sim eless (indexed less) iq_entries index_ok ltac:(done) iq_Swap_spec m i eq_refl Hok Hi) as [E Hok'].
  destruct (Fix_spec eless Ht Ha (iq_entries m) i Hi Hb) as [Hp Hh]. split; [split; [done|]|]; by rewrite E.
Qed.

Lemma Map_Push_new m k v : map_ok m → iq_index m !! k = None →
  map_ok (heap_Push (H := indexed less) m (k, v)) ∧ iq_entries (heap_Push (H := indexed less) m (k, v)) ≡ₚ (k, v) :: iq_entries m.
Proof using Htrans Hasym.
  intros [Hok Hh] Hk. destruct eless_props as [Ht Ha].
  assert (Hok1 : index_ok (iq_Push m (k, v))).
  { intros k' i. unfold iq_Push. cbn [iq_index iq_entries fst]. rewrite (index_ok_size m Hok), lookup_insert.
    destruct (decide (k = k')) as [<-|Hne].
    - split; [intros [= <-]; exists v; by apply list_lookup_middle|].
      intros [v' Hv']. apply lookup_app_Some in Hv' as [Hv'|[Hle Hv']].
      + assert (iq_index m !! k = Some i) by (apply Hok; by exists v'). congruence.
      + apply list_lookup_singleton_Some in Hv' as [? _]. f_equal. lia.
    - rewrite (Hok k' i). split.
      + intros [v' Hv']. exists v'. by apply lookup_app_l_Some.
      + intros [v' Hv']. exists v'. apply lookup_app_Some in Hv' as [?|[_ Hv']]; [done|].
        apply list_lookup_singleton_Some in Hv' as [_ ?]. congruence. }
  unfold heap_Push. change (h_Push m (k, v)) with (iq_Push m (k, v)).
  change (h_Len (iq_Push m (k, v))) with (length (iq_entries m ++ [(k, v)])).
  destruct (up_loop_sim eless (indexed less) iq_entries index_ok ltac:(done) iq_Swap_spec
    (length (iq_entries m ++ [(k, v)]) - 1 + 1) (iq_Push m (k, v)) (length (iq_entries m ++ [(k, v)]) - 1) Hok1) as [E Hok'].
  { cbn. rewrite length_app. simpl. lia. }
  pose proof (Push_spec eless Ht Ha (iq_entries m) (k, v) Hh) as [Hp Hh'].
  unfold heap_Push, up in Hp, Hh'. split; [split; [done|]|]; unfold up; rewrite E; done.
Qed.

(** Popping the last entry *)
Lemma iq_Pop_spec m x l : index_ok m → pop_last (iq_entries m) = Some (x, l) →
  ∃ m', iq_Pop m = Some (x, m') ∧ iq_entries m' = l ∧ index_ok m'.
Proof.
  intros Hok Hp. unfold iq_Pop. rewrite Hp. cbn [mbind option_bind]. eexists. split; [done|]. split; [done|].
  destruct (iq_entries m) as [|y l0 _] eqn:El using rev_ind; [done|]. rewrite pop_last_app in Hp. injection Hp as -> ->.
  pose proof (index_ok_nodup m Hok) as Hnd. rewrite El, fmap_app, NoDup_app in Hnd. destruct Hnd as (_ & Hnd & _).
  intros k i. cbn [iq_entries iq_index]. rewrite lookup_delete_Some, (Hok k i), El. split.
  - intros [Hne [v Hv]]. exists v. apply lookup_app_Some in Hv as [?|[_ Hv]]; [done|].
    apply list_lookup_singleton_Some in Hv as [_ ->]. done.
  - intros [v Hv]. split; [|exists v; by apply lookup_app_l_Some]. intros E. apply (Hnd k).
    + apply list_elem_of_fmap. exists (k, v). split; [done|]. by eapply list_elem_of_lookup_2.
    + cbn. rewrite <- E. by left.
Qed.

Lemma Map_Remove_ok m i x : map_ok m → iq_entries m !! i = Some x →
  ∃ m', heap_Remove (H := indexed less) m i = Some (x, m') ∧ map_ok m' ∧ iq_entries m ≡ₚ x :: iq_entries m'.
Proof using Htrans Hasym.
  intros [Hok Hh] Hi. destruct eless_props as [Ht Ha]. pose proof (lookup_lt_Some _ _ _ Hi) as Hil.
  destruct (Remove_heap_spec eless Ht Ha (iq_entries m) i x Hh Hi) as (l' & E & Hp & Hh').
  unfold heap_Remove in *. change (h_Len (iq_entries m)) with (length (iq_entries m)) in E.
  change (h_Len m) with (length (iq_entries m)). change (h_Swap (HeapInterface := indexed less)) with (@iq_Swap K V _ _).
  change (h_Swap (HeapInterface := Heap.queue eless)) with (@swap (K * V)) in E.
  change (h_Pop (HeapInterface := Heap.queue eless)) with (@pop_last (K * V)) in E.
  change (h_Pop (HeapInterface := indexed less)) with (@iq_Pop K V _ _).
  set (n := (length (iq_entries m) - 1)%nat) in *. assert (Hpop : ∀ m1, index_ok m1 → pop_last (iq_entries m1) = Some (x, l') →
    ∃ m', iq_Pop m1 = Some (x, m') ∧ map_ok m' ∧ iq_entries m ≡ₚ x :: iq_entries m').
  { intros m1 Hok1 Hp1. destruct (iq_Pop_spec m1 x l' Hok1 Hp1) as (m' & ? & El & ?). exists m'. split; [done|].
    unfold map_ok. rewrite El. done. }
  destruct (Nat.eqb_spec n i) as [En|En]; [by apply Hpop|].
  destruct (iq_Swap_spec m i n Hok Hil ltac:(lia)) as [Es Hok1].
  destruct (down_sim eless (indexed less) iq_entries index_ok ltac:(done) iq_Swap_spec n (iq_Swap m i n) i Hok1)
    as (m2 & moved & -> & Hd & Hok2); [rewrite Es, length_swap; lia..|].
  rewrite <- Es, Hd in E. destruct moved; [by apply Hpop|].
  assert (Hl2 : length (iq_entries m2) = length (iq_entries m)).
  { pose proof (length_down eless (iq_entries (iq_Swap m i n)) i n) as Hl. rewrite Hd, Es in Hl. cbn [fst] in Hl.
    by rewrite Hl, length_swap. }
  destruct (up_loop_sim eless (indexed less) iq_entries index_ok ltac:(done) iq_Swap_spec (i + 1) m2 i Hok2 ltac:(lia)) as [Eu Hok3].
  apply Hpop; unfold up; [done|]. by rewrite Eu.
Qed.

Lemma Map_Pop_ok m x : map_ok m → iq_entries m !! 0%nat = Some x →
  ∃ m', heap_Pop (H := indexed less) m = Some (x, m') ∧ map_ok m' ∧ iq_entries m ≡ₚ x :: iq_entries m'.
Proof using Htrans Hasym.
  intros [Hok Hh] Hx. destruct eless_props as [Ht Ha]. pose proof (lookup_lt_Some _ _ _ Hx) as Hl.
  destruct (Pop_heap_spec eless Ht Ha (iq_entries m) x Hh Hx) as (l' & E & Hp & Hh').
  unfold heap_Pop in *. change (h_Len (iq_entries m)) with (length (iq_entries m)) in E.
  change (h_Len m) with (length (iq_entries m)). change (h_Swap (HeapInterface := indexed less)) with (@iq_Swap K V _ _).
  change (h_Swap (HeapInterface := Heap.queue eless)) with (@swap (K * V)) in E.
  change (h_Pop (HeapInterface := Heap.queue eless)) with (@pop_last (K * V)) in E.
  change (h_Pop (HeapInterface := indexed less)) with (@iq_Pop K V _ _).
  set (n := (length (iq_entries m) - 1)%nat) in *.
  destruct (iq_Swap_spec m 0 n Hok Hl ltac:(lia)) as [Es Hok1].
  destruct (down_sim eless (indexed less) iq_entries index_ok ltac:(done) iq_Swap_spec n (iq_Swap m 0 n) 0 Hok1)
    as (m2 & moved & -> & Hd & Hok2); [rewrite Es, length_swap; lia..|].
  rewrite <- Es, Hd in E. cbn [fst] in *.
  destruct (iq_Pop_spec m2 x l' Hok2 E) as (m' & ? & El & ?). exists m'. split; [done|]. unfold map_ok. rewrite El. done.
Qed.

(** What a client of a heap of values by keys sees: a finite map whose [Peek] and [Pop]
    give an entry with a least value. *)
Lemma map_minimum m : map_ok m → map_of m ≠ ∅ →
  ∃ x, iq_entries m !! 0%nat = Some x ∧ map_of m !! x.1 = Some x.2 ∧ ∀ k v, map_of m !! k = Some v → less v x.2 = false.
Proof using Htrans Hasym.
  intros [Hok Hh] Hne. destruct (iq_entries m) as [|x l] eqn:El.
  { exfalso. apply Hne. unfold map_of. by rewrite El. }
  exists x. split; [done|]. rewrite (map_of_lookup m _ _ Hok). destruct eless_props as [Ht Ha]. split.
  - rewrite El. destruct x. by left.
  - intros k v Hv. apply (map_of_lookup m k v Hok) in Hv. rewrite El in Hv. apply list_elem_of_lookup in Hv as [i Hi].
    pose proof (heap_root eless Ht Ha (x :: l) i Hh ltac:(by eapply lookup_lt_Some)) as Hr.
    unfold le_at, less_at in Hr. rewrite Hi in Hr. exact Hr.
Qed.

Lemma map_of_len m : map_ok m → Map_Len m = base.size (map_of m).
Proof.
  intros [Hok _]. unfold Map_Len, map_of. rewrite <- length_map_to_list, map_to_list_to_map; [done|]. by apply index_ok_nodup.
Qed.

Lemma map_of_cons m m' x : index_ok m → iq_entries m ≡ₚ x :: iq_entries m' → map_of m' = delete x.1 (map_of m).
Proof.
  intros Hok Hp. pose proof (index_ok_nodup m Hok) as Hnd. unfold map_of.
  rewrite (map_of_perm _ _ Hnd Hp). destruct x as [k v]. cbn [fst]. rewrite list_to_map_cons, delete_insert_id; [done|].
  rewrite Hp in Hnd. rewrite fmap_cons, NoDup_cons in Hnd. apply not_elem_of_list_to_map. tauto.
Qed.

(** The value of a key changes in place, as values that are pointers do. *)
Definition change_value (m : iq) (k : K) (v : V) : iq :=
  mkIndexed ((λ e, if decide (e.1 = k) then (k, v) else e) <$> iq_entries m) (iq_index m).

Lemma change_value_at m k v i v0 : index_ok m → iq_entries m !! i = Some (k, v0) →
  iq_entries (change_value m k v) = <[i := (k, v)]> (iq_entries m).
Proof.
  intros Hok Hi. cbn. apply list_eq. intros j. rewrite list_lookup_fmap. destruct (decide (j = i)) as [->|Hj].
  - rewrite Hi, list_lookup_insert_eq by (by eapply lookup_lt_Some). cbn. by rewrite decide_True.
  - rewrite list_lookup_insert_ne by done. destruct (iq_entries m !! j) as [[k' v']|] eqn:E; [|done]. cbn. rewrite decide_False; [done|].
    intros ->. assert (iq_index m !! k = Some i) by (apply Hok; by exists v0). assert (iq_index m !! k = Some j) by (apply Hok; by exists v'). congruence.
Qed.

(** [Fix] after the value of the key has changed *)
Lemma Map_Fix_changed m k v i v0 : map_ok m → iq_entries m !! i = Some (k, v0) →
  map_ok (heap_Fix (H := indexed less) (change_value m k v) i)
  ∧ map_of (heap_Fix (H := indexed less) (change_value m k v) i) = <[k := v]> (map_of m).
Proof using Htrans Hasym.
  intros [Hok Hh] Hv0. pose proof (lookup_lt_Some _ _ _ Hv0) as Hil. pose proof (change_value_at m k v i v0 Hok Hv0) as El.
  assert (Ei : iq_index m !! k = Some i) by (apply Hok; by exists v0). set (m1 := change_value m k v) in *.
  assert (Hok1 : index_ok m1).
  { intros k' j. rewrite El. change (iq_index m1) with (iq_index m). rewrite (Hok k' j). destruct (decide (j = i)) as [->|Hj].
    - rewrite list_lookup_insert_eq by done. rewrite Hv0. split; intros [v' [= -> _]]; by eexists.
    - by rewrite list_lookup_insert_ne. }
  destruct eless_props as [Ht Ha].
  destruct (Map_Fix_ok m1 i Hok1) as [Hok2 Hp2]; [by rewrite El, length_insert|rewrite El; by apply insert_heap_but|].
  split; [done|]. apply map_eq. intros k'. unfold map_of at 1.
  rewrite (map_of_perm _ _ (index_ok_nodup _ (proj1 Hok2)) Hp2). fold (map_of m1).
  rewrite lookup_insert, !(map_of_index _ _ Hok1), (map_of_index m k' Hok), El. change (iq_index m1) with (iq_index m).
  destruct (decide (k = k')) as [<-|Hne].
  - rewrite Ei. cbn. by rewrite list_lookup_insert_eq.
  - destruct (iq_index m !! k') as [j|] eqn:Ej; [|done]. cbn. rewrite list_lookup_insert_ne; [done|].
    intros <-. apply Hok in Ej as [v1 Hv1]. congruence.
Qed.

(** [Push] of a key that is present changes its value in place. *)
Lemma Push_in_place m k v i v0 : index_ok m → iq_entries m !! i = Some (k, v0) →
  change_value m k v = mkIndexed (alter (λ e, (e.1, v)) i (iq_entries m)) (iq_index m).
Proof.
  intros Hok Hv0. pose proof (change_value_at m k v i v0 Hok Hv0) as El. unfold change_value in *. cbn in El. rewrite El. f_equal.
  rewrite list_insert_alter. apply list_alter_ext; [|done]. intros x Hx. rewrite Hv0 in Hx. by injection Hx as <-.
Qed.

Lemma Map_Remove_spec m k : map_ok m →
  map_ok (Map_Remove less m k).2 ∧ (Map_Remove less m k).1 = map_of m !! k ∧ map_of (Map_Remove less m k).2 = delete k (map_of m).
Proof using Htrans Hasym.
  intros Hm. pose proof Hm as [Hok Hh]. unfold Map_Remove. destruct (iq_index m !! k) as [i|] eqn:Ei.
  - pose proof Ei as Ei'. apply Hok in Ei' as [v0 Hv0]. destruct (Map_Remove_ok m i _ Hm Hv0) as (m' & -> & Hm' & Hp).
    cbn [fst snd]. split; [done|]. split; [by rewrite (map_of_index m k Hok), Ei; cbn; rewrite Hv0|].
    exact (map_of_cons m m' (k, v0) Hok Hp).
  - cbn [fst snd]. apply (index_none m k Hok) in Ei. split; [done|]. split; [done|]. by rewrite delete_id.
Qed.

Lemma Map_Fix_spec m k v : map_ok m →
  map_ok (Map_Fix less (change_value m k v) k) ∧ map_of (Map_Fix less (change_value m k v) k) = alter (λ _, v) k (map_of m).
Proof using Htrans Hasym.
  intros Hm. pose proof Hm as [Hok Hh]. unfold Map_Fix. change (iq_index (change_value m k v)) with (iq_index m).
  destruct (iq_index m !! k) as [i|] eqn:Ei.
  - pose proof Ei as Ei'. apply Hok in Ei' as [v0 Hv0]. destruct (Map_Fix_changed m k v i v0 Hm Hv0) as [H1 ->]. split; [done|].
    assert (Hk : map_of m !! k = Some v0) by (rewrite (map_of_index m k Hok), Ei; cbn; by rewrite Hv0).
    apply map_eq. intros k'. destruct (decide (k = k')) as [<-|Hne];
      [by rewrite lookup_insert_eq, lookup_alter_eq, Hk|by rewrite lookup_insert_ne, lookup_alter_ne].
  - assert (E : change_value m k v = m).
    { destruct m as [es ix]. unfold change_value. cbn [iq_entries iq_index] in *. f_equal. rewrite <- list_fmap_id. apply list_fmap_ext.
      intros j [k' v'] Hj. cbn. rewrite decide_False; [done|]. intros ->. assert (ix !! k = Some j) by (apply (Hok k j); by exists v'). congruence. }
    rewrite E. split; [done|]. apply (index_none m k Hok) in Ei. apply map_eq. intros k'.
    destruct (decide (k = k')) as [<-|Hne]; [by rewrite lookup_alter_eq, Ei|by rewrite lookup_alter_ne].
Qed.

Lemma NewMap_ok : map_ok NewMap.
Proof. split; [|intros c Hc; simpl in Hc; lia]. intros k i. split; [done|]. by intros [v ?]. Qed.

(** C24. The heap of [map.go] is a finite map with a minimum: for a comparison that is a
    strict weak order, a new map is empty, [Push] inserts and returns the value replaced,
    [Remove] deletes and returns the value, [Get], [Contains], [Len] and [MapValues] read the
    map, [Peek] and [Pop] give an entry with a least value, or nothing when the map is empty,
    and [Pop] deletes it.  After the value of a key was changed in place [Fix] makes a heap
    again, in which only that value differs.  The index and the order of the heap are kept,
    and no index is out of range. *)
Theorem heap_map_refines (m : iq) (k : K) (v : V) :
  map_ok m →
  (map_ok NewMap ∧ map_of NewMap = ∅)
  ∧ (map_ok (Map_Push less m k v).2 ∧ (Map_Push less m k v).1 = map_of m !! k
    ∧ map_of (Map_Push less m k v).2 = <[k := v]> (map_of m))
  ∧ (map_ok (Map_Remove less m k).2 ∧ (Map_Remove less m k).1 = map_of m !! k
    ∧ map_of (Map_Remove less m k).2 = delete k (map_of m))
  ∧ (map_ok (Map_Fix less (change_value m k v) k)
    ∧ map_of (Map_Fix less (change_value m k v) k) = alter (λ _, v) k (map_of m))
  ∧ Map_Get m k = map_of m !! k ∧ Map_Contains m k = bool_decide (is_Some (map_of m !! k))
  ∧ Map_Len m = base.size (map_of m) ∧ MapValues m ≡ₚ (map_to_list (map_of m)).*2
  ∧ match Map_Peek m with
    | None => map_of m = ∅ ∧ Map_Pop less m = None
    | Some e => map_of m !! e.1 = Some e.2 ∧ (∀ k' v', map_of m !! k' = Some v' → less v' e.2 = false)
        ∧ ∃ m', Map_Pop less m = Some (e, m') ∧ map_ok m' ∧ map_of m' = delete e.1 (map_of m)
    end.
Proof using Htrans Hasym.
  intros Hm. pose proof Hm as [Hok Hh]. split; [split; [apply NewMap_ok|done]|]. split_and!; try (by apply map_of_len).
  - unfold Map_Push. destruct (iq_index m !! k) as [i|] eqn:Ei; [|by apply Map_Push_new].
    apply Hok in Ei as [v0 Hv0]. pose proof (Map_Fix_changed m k v i v0 Hm Hv0) as [H1 _].
    cbn [snd]. by rewrite <- (Push_in_place m k v i v0 Hok Hv0).
  - unfold Map_Push. rewrite (map_of_index m k Hok). by destruct (iq_index m !! k).
  - unfold Map_Push. destruct (iq_index m !! k) as [i|] eqn:Ei.
    + apply Hok in Ei as [v0 Hv0]. pose proof (Map_Fix_changed m k v i v0 Hm Hv0) as [_ H2].
      cbn [snd]. by rewrite <- (Push_in_place m k v i v0 Hok Hv0).
    + destruct (Map_Push_new m k v Hm Ei) as [Hm' Hp]. cbn [snd]. unfold map_of.
      by rewrite (map_of_perm _ _ (index_ok_nodup _ (proj1 Hm')) Hp).
  - by apply Map_Remove_spec.
  - by apply Map_Remove_spec.
  - by apply Map_Remove_spec.
  - by apply Map_Fix_spec.
  - by apply Map_Fix_spec.
  - unfold Map_Get. rewrite (map_of_index m k Hok). by destruct (iq_index m !! k).
  - unfold Map_Contains. destruct (iq_index m !! k) as [i|] eqn:Ei.
    + symmetry. apply bool_decide_eq_true. destruct (map_of m !! k) eqn:E; [by eexists|]. apply (index_none m k Hok) in E. congruence.
    + symmetry. apply bool_decide_eq_false. apply (index_none m k Hok) in Ei. rewrite Ei. by intros [? ?].
  - unfold MapValues, map_of. by rewrite map_to_list_to_map by (by apply index_ok_nodup).
  - unfold Map_Peek, Map_Pop. destruct (Nat.eqb_spec (Map_Len m) 0) as [E|E].
    + rewrite (map_of_len m Hm) in E. split; [by apply map_size_empty_inv|done].
    + destruct (map_minimum m Hm) as (x & Hx & Hmx & Hmin).
      { intros E0. rewrite (map_of_len m Hm), E0, map_size_empty in E. done. }
      rewrite Hx. split; [done|]. split; [done|]. destruct (Map_Pop_ok m x Hm Hx) as (m' & Ep & Hm' & Hp).
      exists m'. split; [done|]. split; [done|]. by apply map_of_cons.
Qed.
End indexed_specs.

(** ** Priority queues *)

Section queue_specs.
Context {T : Type} (less : T → T → bool).
Context (Htrans : ∀ x y z, less x y = false → less y z = false → less x z = false).
Context (Hasym : ∀ x y, less x y = true → less y x = false).

Lemma QueueOf_spec l : QueueOf less l ≡ₚ l ∧ is_heap less (QueueOf less l).
Proof using Htrans Hasym. by apply Init_spec. Qed.

Lemma Queue_Push_spec q x : is_heap less q → Queue_Push less q x ≡ₚ x :: q ∧ is_heap less (Queue_Push less q x).
Proof using Htrans Hasym. by apply Push_spec. Qed.

Lemma Queue_Peek_spec q x : is_heap less q → Queue_Peek q = Some x → x ∈ q ∧ ∀ y, y ∈ q → less y x = false.
Proof using Htrans Hasym.
  unfold Queue_Peek. intros Hh. destruct (Nat.eqb_spec (Queue_Len q) 0) as [E|E]; [done|]. intros Hx.
  split; [by eapply list_elem_of_lookup_2|]. intros y Hy. apply list_elem_of_lookup in Hy as [i Hi].
  pose proof (heap_root less Htrans Hasym q i Hh ltac:(by eapply lookup_lt_Some)) as Hr.
  unfold le_at, less_at in Hr. by rewrite Hi, Hx in Hr.
Qed.

Lemma Queue_Peek_None (q : list T) : Queue_Peek q = None ↔ q = [].
Proof. unfold Queue_Peek, Queue_Len. by destruct q. Qed.

Lemma Queue_Pop_spec q x : is_heap less q → Queue_Peek q = Some x →
  ∃ q', Queue_Pop less q = Some (x, q') ∧ q ≡ₚ x :: q' ∧ is_heap less q'.
Proof using Htrans Hasym.
  unfold Queue_Peek, Queue_Pop. intros Hh. destruct (Nat.eqb_spec (Queue_Len q) 0) as [E|E]; [done|]. intros Hx.
  by apply Pop_heap_spec.
Qed.

(** Popping a root that is out of order with the rest *)
Lemma Queue_Pop_root x y q : is_heap less (x :: q) →
  ∃ q', Queue_Pop less (y :: q) = Some (y, q') ∧ q' ≡ₚ q ∧ is_heap less q'.
Proof using Htrans Hasym.
  intros Hh. unfold Queue_Pop, heap_Pop. cbn [Queue_Len length Nat.eqb].
  change (h_Len (y :: q)) with (length (y :: q)). change (h_Pop (HeapInterface := queue less)) with (@pop_last T).
  change (h_Swap (HeapInterface := queue less)) with (@swap T).
  destruct q as [|z q0 _] using rev_ind; [by exists []|].
  assert (Hh0 : is_heap less (x :: q0)).
  { intros c Hc Hk _. pose proof (parent_lt c ltac:(lia)). unfold le_at. rewrite <- (less_at_app less (x :: q0) [z]) by lia.
    apply Hh; [cbn [length] in *; rewrite length_app; simpl in *; lia|done|tauto]. }
  replace (length (y :: q0 ++ [z]) - 1)%nat with (length (y :: q0)) by (cbn [length]; rewrite length_app; simpl; lia).
  rewrite app_comm_cons, (swap_last (y :: q0) z 0 y eq_refl). cbn [insert list_insert].
  change (length (y :: q0)) with (length (z :: q0)). rewrite down_app by (simpl; lia). cbn [fst]. rewrite pop_last_app.
  eexists. split; [done|].
  destruct (Fix_spec less Htrans Hasym (z :: q0) 0) as [Hp Hh1].
  { simpl. lia. }
  { apply (insert_heap_but less Htrans (x :: q0) 0 z Hh0). simpl. lia. }
  unfold heap_Fix in Hp, Hh1. change (h_Len (z :: q0)) with (length (z :: q0)) in Hp, Hh1.
  destruct (down _ 0 _) as [l1 moved]. cbn [fst].
  assert (Hl1 : l1 ≡ₚ z :: q0 ∧ is_heap less l1) by (destruct moved; done).
  destruct Hl1 as [Hp1 ?]. split; [|done]. by rewrite Hp1, Permutation_cons_append.
Qed.

Lemma Queue_Fix_root x y q : is_heap less (x :: q) → Queue_Fix less (y :: q) 0 ≡ₚ y :: q ∧ is_heap less (Queue_Fix less (y :: q) 0).
Proof using Htrans Hasym.
  intros Hh. apply Fix_spec; [done|done|simpl; lia|]. apply (insert_heap_but less Htrans (x :: q) 0 y Hh). simpl. lia.
Qed.
End queue_specs.

(** ** Examples *)

Definition sample_heap : indexedQueue (K := Z) (V := Z) :=
  (Map_Push Z.ltb (Map_Push Z.ltb (Map_Push Z.ltb NewMap 1 30).2 2 10).2 3 20).2.

Lemma Zltb_order :
  (∀ x y z : Z, (x <? y) = false → (y <? z) = false → (x <? z) = false) ∧ (∀ x y : Z, (x <? y) = true → (y <? x) = false).
Proof. split; intros; rewrite ?Z.ltb_ge, ?Z.ltb_lt in *; lia. Qed.

Lemma sample_heap_ok : map_ok Z.ltb sample_heap.
Proof.
  destruct Zltb_order as [Ht Ha].
  assert (Hstep : ∀ (m : indexedQueue (K := Z) (V := Z)) k v, map_ok Z.ltb m → iq_index m !! k = None → map_ok Z.ltb (Map_Push Z.ltb m k v).2).
  { intros m k v Hm Hk. unfold Map_Push. rewrite Hk. by apply Map_Push_new. }
  apply Hstep; [apply Hstep; [apply Hstep|]|]; try (vm_compute; reflexivity).
  apply NewMap_ok.
Qed.

Lemma heap_map_refines_witness :
  Map_Peek sample_heap = Some (2, 10) ∧ (Map_Remove Z.ltb sample_heap 2).1 = Some 10
  ∧ map_ok Z.ltb (Map_Remove Z.ltb sample_heap 2).2
  ∧ map_ok Z.ltb (Map_Fix Z.ltb (change_value sample_heap 2 50) 2)
  ∧ Map_Peek (Map_Fix Z.ltb (change_value sample_heap 2 50) 2) = Some (3, 20).
Proof.
  destruct (heap_map_refines Z.ltb (proj1 Zltb_order) (proj2 Zltb_order) sample_heap 2 50 sample_heap_ok) as (_ & _ & (H1 & H2 & _) & (H3 & _) & _).
  split; [reflexivity|]. split; [rewrite H2; reflexivity|]. split; [exact H1|]. split; [exact H3|vm_compute; reflexivity].
Defined.
