(* ===== verification/StakerIterators.v ===== *)
(** * Stakers and their iterators

    [vms/platformvm/state]: stakers and their order ([staker.go]), and the iterators over
    them: of a tree ([tree_iterator.go], [empty_iterator.go]), the merge of several
    ([merged_iterator.go]), an iterator without some stakers ([masked_iterator.go]) and the
    changes of the current set that the pending stakers bring about
    ([staker_diff_iterator.go]).

    The interface [StakerIterator] is a class; its laws say which stakers an iterator still
    has to return.  The goroutine and the channels of the tree iterator are the list of the
    items that the tree would still send.  Times and identifiers are integers and byte
    strings; public keys are not interpreted. *)

From S2P Require Import Prelude Btree Heap Database.

Open Scope Z_scope.

(** ** [staker.go] *)

Record Staker := mkStaker {
  TxID : bytes;
  NodeID : bytes;
  PublicKey : option bytes;
  SubnetID : bytes;
  Weight : Z;
  StartTime : Z;
  EndTime : Z;
  PotentialReward : Z;
  NextTime : Z;
  Priority : Z;
}.

#[export] Instance Staker_eq_dec : EqDecision Staker.
Proof. solve_decision. Defined.

Definition Staker_Less (s than : Staker) : bool :=
  if NextTime s <? NextTime than then true
  else if NextTime than <? NextTime s then false
  else if Priority s <? Priority than then true
  else if Priority than <? Priority s then false
  else bytes_lt (TxID s) (TxID than).

(** The part of a transaction that describes a staker *)
Record StakerTx := mkStakerTx {
  tx_NodeID : bytes;
  tx_PublicKey : result unit (option bytes);
  tx_SubnetID : bytes;
  tx_Weight : Z;
  tx_StartTime : Z;
  tx_EndTime : Z;
  tx_CurrentPriority : Z;
  tx_PendingPriority : Z;
}.

Definition NewCurrentStaker (txID : bytes) (staker : StakerTx) (startTime potentialReward : Z) : result unit Staker :=
  let? publicKey := tx_PublicKey staker in
  let endTime := tx_EndTime staker in
  Ok (mkStaker txID (tx_NodeID staker) publicKey (tx_SubnetID staker) (tx_Weight staker) startTime endTime
        potentialReward endTime (tx_CurrentPriority staker)).

Definition NewPendingStaker (txID : bytes) (staker : StakerTx) : result unit Staker :=
  let? publicKey := tx_PublicKey staker in
  let startTime := tx_StartTime staker in
  Ok (mkStaker txID (tx_NodeID staker) publicKey (tx_SubnetID staker) (tx_Weight staker) startTime (tx_EndTime staker)
        0 startTime (tx_PendingPriority staker)).

(** ** The interface *)

(** [Bound], which the interface of the code does not have, bounds the stakers that an
    iterator can still return, and so the loops over it. *)
Class StakerIterator (I : Type) := {
  Next : I → bool * I;
  Value : I → option Staker;
  Release : I → I;
  Bound : I → nat;
}.

Class IteratorLaws {I} (S : StakerIterator I) := {
  it_ok : I → Prop;
  it_pending : I → list Staker;
  law_it_Next it : it_ok it →
    it_ok (Next it).2
    ∧ match it_pending it with
      | [] => (Next it).1 = false ∧ it_pending (Next it).2 = []
      | s :: rest => (Next it).1 = true ∧ Value (Next it).2 = Some s ∧ it_pending (Next it).2 = rest
      end;
  law_it_Release it : it_ok it → it_ok (Release it) ∧ it_pending (Release it) = [];
  law_it_Bound it : it_ok it → (length (it_pending it) ≤ Bound it)%nat;
}.

(** ** Iterators over a tree *)

Inductive tree_iterator :=
  | EmptyIterator
  | TreeIterator (current : option Staker) (next : list Staker).

Definition NewTreeIterator {B : BTree Staker} (tree : option bt_t) : tree_iterator :=
  match tree with
  | None => EmptyIterator
  | Some tree => TreeIterator None (bt_Ascend tree (λ i sent, (sent ++ [i], true)) [])
  end.

#[export] Instance tree_StakerIterator : StakerIterator tree_iterator := {|
  Next it :=
    match it with
    | EmptyIterator => (false, EmptyIterator)
    | TreeIterator _ [] => (false, TreeIterator None [])
    | TreeIterator _ (s :: next) => (true, TreeIterator (Some s) next)
    end;
  Value it := match it with EmptyIterator => None | TreeIterator current _ => current end;
  Release it := match it with EmptyIterator => EmptyIterator | TreeIterator current _ => TreeIterator current [] end;
  Bound it := match it with EmptyIterator => 0%nat | TreeIterator _ next => length next end;
|}.

(** An interface value holds one of two kinds of iterators. *)
#[export] Instance sum_StakerIterator {I J} `{StakerIterator I, StakerIterator J} : StakerIterator (I + J) := {|
  Next it :=
    match it with
    | inl i => let '(ok, i) := Next i in (ok, inl i)
    | inr j => let '(ok, j) := Next j in (ok, inr j)
    end;
  Value it := match it with inl i => Value i | inr j => Value j end;
  Release it := match it with inl i => inl (Release i) | inr j => inr (Release j) end;
  Bound it := match it with inl i => Bound i | inr j => Bound j end;
|}.

(** ** [masked_iterator.go] *)

Section masked.
Context {I : Type} {SI : StakerIterator I}.

Record maskedIterator := mkMasked { parentIterator : I; maskedStakers : gmap bytes Staker }.

Definition NewMaskedIterator (parent : I) (masked : gmap bytes Staker) : maskedIterator := mkMasked parent masked.

(** The loop ends when the parent does. *)
Fixpoint masked_next (fuel : nat) (it : maskedIterator) : option (bool * maskedIterator) :=
  match fuel with
  | O => None
  | S fuel =>
      let '(ok, parent) := Next (parentIterator it) in
      let it := mkMasked parent (maskedStakers it) in
      if ok then
        match Value parent with
        | None => None
        | Some staker =>
            match maskedStakers it !! TxID staker with
            | None => Some (true, it)
            | Some _ => masked_next fuel it
            end
        end
      else Some (false, it)
  end.

#[export] Instance masked_StakerIterator : StakerIterator maskedIterator := {|
  Next it := default (false, it) (masked_next (S (Bound (parentIterator it))) it);
  Value it := Value (parentIterator it);
  Release it := mkMasked (Release (parentIterator it)) (maskedStakers it);
  Bound it := Bound (parentIterator it);
|}.
End masked.

(** ** [merged_iterator.go] *)

Section merged.
Context {I : Type} {SI : StakerIterator I}.

Record mergedIterator := mkMerged { m_initialized : bool; m_heap : list I }.

(** The iterators in the heap have a value; nil, which the code would dereference, is
    ordered first. *)
Definition value_less (a b : I) : bool :=
  match Value a, Value b with
  | Some x, Some y => Staker_Less x y
  | None, Some _ => true
  | _, None => false
  end.

(** The iterators that are not exhausted, after their first [Next]; at most as many turns
    as there are iterators. *)
Fixpoint filter_exhausted (fuel i : nat) (stakers : list I) : list I :=
  match fuel with
  | O => stakers
  | S fuel =>
      match stakers !! i with
      | None => stakers
      | Some staker =>
          let '(ok, staker) := Next staker in
          if ok then filter_exhausted fuel (i + 1) (<[i := staker]> stakers)
          else
            let newLength := (length stakers - 1)%nat in
            let stakers :=
              match (<[i := Release staker]> stakers) !! newLength with
              | Some moved => <[i := moved]> stakers
              | None => stakers
              end in
            filter_exhausted fuel i (take newLength stakers)
      end
  end.

Definition NewMergedIterator (stakers : list I) : mergedIterator :=
  mkMerged false (QueueOf value_less (filter_exhausted (length stakers) 0 stakers)).

Definition merged_Next (it : mergedIterator) : bool * mergedIterator :=
  if (Queue_Len (m_heap it) =? 0)%nat then (false, it)
  else if negb (m_initialized it) then (true, mkMerged true (m_heap it))
  else
    match m_heap it with
    | [] => (false, it)
    | current :: rest =>
        let '(ok, current) := Next current in
        if ok then (true, mkMerged true (Queue_Fix value_less (current :: rest) 0))
        else
          let heap := Release current :: rest in
          match Queue_Pop value_less heap with
          | Some (_, heap) => (negb (Queue_Len heap =? 0)%nat, mkMerged true heap)
          | None => (false, mkMerged true heap)
          end
    end.

Definition merged_Value (it : mergedIterator) : option Staker := peek ← Queue_Peek (m_heap it); Value peek.

(** [Release] pops and releases every iterator. *)
Definition merged_Release (it : mergedIterator) : mergedIterator := mkMerged (m_initialized it) [].

Definition merged_Bound (it : mergedIterator) : nat := sum_list ((λ i, S (Bound i)) <$> m_heap it).

Definition merged_Len (it : mergedIterator) : nat := Queue_Len (m_heap it).

#[export] Instance merged_StakerIterator : StakerIterator mergedIterator :=
  {| Next := merged_Next; Value := merged_Value; Release := merged_Release; Bound := merged_Bound |}.
End merged.

(** ** The order of stakers *)

Lemma Staker_Less_iff s t :
  Staker_Less s t = true ↔ NextTime s < NextTime t ∨ (NextTime s = NextTime t ∧
    (Priority s < Priority t ∨ (Priority s = Priority t ∧ bytes_lt (TxID s) (TxID t) = true))).
Proof.
  unfold Staker_Less. destruct (Z.ltb_spec (NextTime s) (NextTime t)); [split; [tauto|done]|].
  destruct (Z.ltb_spec (NextTime t) (NextTime s)); [split; [done|lia]|].
  destruct (Z.ltb_spec (Priority s) (Priority t)); [split; [lia|done]|].
  destruct (Z.ltb_spec (Priority t) (Priority s)); [split; [done|lia]|].
  split; [intros ?; right; split; [lia|]; right; split; [lia|done]|]. intros [?|[_ [?|[_ ?]]]]; [lia|lia|done].
Qed.

Lemma Staker_Less_order : strict_weak_order Staker_Less.
Proof.
  split; [|split].
  - intros x. apply not_true_iff_false. rewrite Staker_Less_iff, bytes_lt_irrefl. lia.
  - intros x y z. rewrite !Staker_Less_iff. intros [?|[? [?|[? H1]]]] [?|[? [?|[? H2]]]]; try lia.
    right. split; [lia|]. right. split; [lia|]. by eapply bytes_lt_trans.
  - intros x y z. rewrite !Staker_Less_iff. intros [?|[? [?|[? H1]]]]; try lia.
    destruct (decide (NextTime z = NextTime x)); [|lia]. destruct (decide (Priority z = Priority x)); [|lia].
    destruct (bytes_lt_total (TxID x) (TxID z)) as [?|[E|H2]].
    + left. right. split; [lia|]. right. split; [lia|done].
    + right. right. split; [lia|]. right. split; [lia|]. by rewrite <- E.
    + right. right. split; [lia|]. right. split; [lia|]. by eapply bytes_lt_trans.
Qed.

Lemma Staker_Less_asym x y : Staker_Less x y = true → Staker_Less y x = false.
Proof.
  destruct Staker_Less_order as (Hi & Ht & _). intros H. destruct (Staker_Less y x) eqn:E; [|done].
  specialize (Ht x y x H E). by rewrite Hi in Ht.
Qed.

Lemma Staker_Less_neg_trans x y z : Staker_Less x y = false → Staker_Less y z = false → Staker_Less x z = false.
Proof.
  destruct Staker_Less_order as (_ & _ & Ht). intros H1 H2. destruct (Staker_Less x z) eqn:E; [|done].
  destruct (Ht x z y E); congruence.
Qed.

(** Stakers that are not ordered have the same transaction. *)
Lemma Staker_Less_tie x y : Staker_Less x y = false → Staker_Less y x = false → TxID x = TxID y.
Proof.
  rewrite <- !not_true_iff_false, !Staker_Less_iff. intros H1 H2.
  destruct (bytes_lt_total (TxID x) (TxID y)) as [H|[E|H]]; [exfalso; apply H1|done|exfalso; apply H2];
    (right; split; [lia|]; right; split; [lia|done]).
Qed.

Definition staker_le (x y : Staker) : Prop := Staker_Less y x = false.

#[export] Instance staker_le_dec x y : Decision (staker_le x y).
Proof. unfold staker_le. apply _. Defined.
#[export] Instance staker_le_total : Total staker_le.
Proof.
  intros x y. unfold staker_le. destruct (Staker_Less y x) eqn:E; [|by left]. right. by apply Staker_Less_asym.
Qed.
#[export] Instance staker_le_trans : Transitive staker_le.
Proof. intros x y z. unfold staker_le. intros H1 H2. by apply (Staker_Less_neg_trans z y x). Qed.

(** The stakers in order *)
Definition in_order (l : list Staker) : list Staker := merge_sort staker_le l.

Notation distinct l := (NoDup (TxID <$> l)).

Lemma in_order_perm l : in_order l ≡ₚ l.
Proof. apply merge_sort_Permutation. Qed.

(** A list in strict order is determined by its elements. *)
Lemma sorted_unique l1 l2 : StronglySorted staker_le l1 → sorted_by Staker_Less l2 → l1 ≡ₚ l2 → l1 = l2.
Proof.
  intros H1. revert l2. induction H1 as [|x l1 H1 IH Hx]; intros l2 H2 Hp.
  - symmetry in Hp. apply Permutation_nil_r in Hp. done.
  - destruct H2 as [|y l2 H2 Hy]; [by apply Permutation_nil_r in Hp|].
    rewrite Forall_forall in Hx, Hy.
    assert (x = y) as <-.
    { assert (x ∈ y :: l2) as [->|Hxy]%elem_of_cons by (rewrite <- Hp; by left); [done|].
      assert (y ∈ x :: l1) as [->|Hyx]%elem_of_cons by (rewrite Hp; by left); [done|].
      specialize (Hx y Hyx). specialize (Hy x Hxy). unfold staker_le in Hx. congruence. }
    f_equal. apply IH; [done|]. by apply Permutation_cons_inv in Hp.
Qed.

Lemma in_order_unique l k : sorted_by Staker_Less k → k ≡ₚ l → in_order l = k.
Proof.
  intros Hk Hp. apply sorted_unique; [apply StronglySorted_merge_sort; apply _|done|by rewrite in_order_perm].
Qed.

Lemma in_order_sorted l : distinct l → sorted_by Staker_Less (in_order l).
Proof.
  intros Hd. pose proof (StronglySorted_merge_sort staker_le l) as Hs. fold (in_order l) in Hs.
  rewrite <- (in_order_perm l) in Hd. induction Hs as [|x l' Hs IH Hx]; [constructor|].
  rewrite fmap_cons in Hd. apply NoDup_cons in Hd as [Hn Hd]. constructor; [by apply IH|].
  rewrite Forall_forall in Hx |- *. intros y Hy. specialize (Hx y Hy). unfold staker_le in Hx.
  destruct (Staker_Less x y) eqn:E; [done|]. exfalso. apply Hn. rewrite (Staker_Less_tie x y E Hx).
  by apply list_elem_of_fmap_2.
Qed.

Lemma in_order_proper l k : distinct l → l ≡ₚ k → in_order l = in_order k.
Proof.
  intros Hd Hp. apply in_order_unique; [apply in_order_sorted; by rewrite <- Hp|]. by rewrite in_order_perm.
Qed.

(** A least staker comes first. *)
Lemma in_order_cons x l : distinct (x :: l) → (∀ y, y ∈ l → Staker_Less y x = false) → in_order (x :: l) = x :: in_order l.
Proof.
  intros Hd Hmin. pose proof Hd as Hd'. rewrite fmap_cons in Hd'. apply NoDup_cons in Hd' as [Hn Hd'].
  apply in_order_unique; [|by rewrite in_order_perm]. constructor; [by apply in_order_sorted|].
  apply Forall_forall. intros y Hy. rewrite in_order_perm in Hy. specialize (Hmin y Hy).
  destruct (Staker_Less x y) eqn:E; [done|]. exfalso. apply Hn. rewrite (Staker_Less_tie x y E Hmin).
  by apply list_elem_of_fmap_2.
Qed.

(** ** The laws of the iterators *)

#[export] Instance tree_iterator_laws : IteratorLaws tree_StakerIterator.
Proof.
  refine {| it_ok := λ _, True; it_pending it := match it with EmptyIterator => [] | TreeIterator _ next => next end |}.
  - intros [|current [|s next]] _; done.
  - by intros [|current next] _.
  - by intros [|current next] _.
Defined.

Lemma NewTreeIterator_pending {B : BTree Staker} {BL : BTreeLaws B} tree :
  it_pending (NewTreeIterator tree) = match tree with None => [] | Some tree => bt_items tree end.
Proof. destruct tree as [tree|]; [|done]. cbn. by rewrite law_Ascend, visit_collect. Qed.

#[export] Instance sum_iterator_laws {I J} {SI : StakerIterator I} {SJ : StakerIterator J}
    {LI : IteratorLaws SI} {LJ : IteratorLaws SJ} : IteratorLaws (I := I + J) sum_StakerIterator.
Proof.
  refine {| it_ok it := match it with inl i => it_ok i | inr j => it_ok j end;
            it_pending it := match it with inl i => it_pending i | inr j => it_pending j end |}.
  - intros [i|j] Hok; cbn.
    + pose proof (law_it_Next i Hok) as [Hok' Hn]. by destruct (Next i) as [ok i'].
    + pose proof (law_it_Next j Hok) as [Hok' Hn]. by destruct (Next j) as [ok j'].
  - intros [i|j] Hok; cbn; by apply law_it_Release.
  - intros [i|j] Hok; cbn; by apply law_it_Bound.
Defined.

Section masked_laws.
Context {I : Type} {SI : StakerIterator I} {LI : IteratorLaws SI}.

Definition unmasked (masked : gmap bytes Staker) (l : list Staker) : list Staker :=
  filter (λ s, masked !! TxID s = None) l.

Lemma masked_next_spec : ∀ fuel (it : maskedIterator), it_ok (parentIterator it) →
  (length (it_pending (parentIterator it)) < fuel)%nat →
  ∃ ok p, masked_next fuel it = Some (ok, mkMasked p (maskedStakers it)) ∧ it_ok p
    ∧ (length (it_pending p) ≤ length (it_pending (parentIterator it)))%nat
    ∧ match unmasked (maskedStakers it) (it_pending (parentIterator it)) with
      | [] => ok = false ∧ it_pending p = []
      | s :: rest => ok = true ∧ Value p = Some s ∧ unmasked (maskedStakers it) (it_pending p) = rest
      end.
Proof.
  induction fuel as [|fuel IH]; intros [p masked] Hok Hf; [lia|]. cbn [masked_next parentIterator maskedStakers] in *.
  pose proof (law_it_Next p Hok) as [Hok' Hn]. destruct (Next p) as [ok p']. cbn [fst snd] in *.
  destruct (it_pending p) as [|s rest] eqn:Ep.
  - destruct Hn as [-> Hp']. exists false, p'. rewrite Hp'. done.
  - destruct Hn as (-> & Hv & Hp'). rewrite Hv. cbn [length] in *. destruct (masked !! TxID s) as [z|] eqn:Em.
    + destruct (IH (mkMasked p' masked) Hok') as (ok & p'' & -> & Hok'' & Hlen & Hspec); cbn [parentIterator maskedStakers] in *.
      { rewrite Hp'. lia. }
      rewrite Hp' in Hlen, Hspec. exists ok, p''. split; [done|]. split; [done|]. split; [lia|].
      unfold unmasked in *. rewrite filter_cons_False by (by rewrite Em). done.
    + exists true, p'. split; [done|]. split; [done|]. split; [rewrite Hp'; lia|].
      unfold unmasked. rewrite filter_cons_True by done. by rewrite Hp'.
Qed.

(** The masked iterator returns the stakers that are not masked. *)
#[export] Instance masked_iterator_laws : IteratorLaws masked_StakerIterator.
Proof.
  refine {| it_ok it := it_ok (parentIterator it);
            it_pending it := unmasked (maskedStakers it) (it_pending (parentIterator it)) |}.
  - intros it Hok. pose proof (law_it_Bound _ Hok) as Hb.
    destruct (masked_next_spec (S (Bound (parentIterator it))) it Hok ltac:(lia)) as (ok & p & E & Hok' & Hlen & Hspec).
    cbn [Next masked_StakerIterator]. rewrite E. cbn [from_option id fst snd parentIterator maskedStakers].
    split; [done|]. destruct (unmasked _ (it_pending (parentIterator it))) as [|s rest].
    + destruct Hspec as [-> Hp]. split; [done|]. by rewrite Hp.
    + by destruct Hspec as (-> & ? & ?).
  - intros it Hok. cbn. destruct (law_it_Release _ Hok) as [Hok' E]. split; [done|by rewrite E].
  - intros it Hok. cbn. etrans; [apply length_filter|by apply law_it_Bound].
Defined.
End masked_laws.

Section merged_laws.
Context {I : Type} {SI : StakerIterator I} {LI : IteratorLaws SI}.

Lemma value_less_asym (a b : I) : value_less a b = true → value_less b a = false.
Proof. unfold value_less. destruct (Value a), (Value b); try done. apply Staker_Less_asym. Qed.

Lemma value_less_trans (a b c : I) : value_less a b = false → value_less b c = false → value_less a c = false.
Proof. unfold value_less. destruct (Value a), (Value b), (Value c); try done. apply Staker_Less_neg_trans. Qed.

(** The stakers of an iterator that stands on a value, that one included *)
Definition remaining (i : I) : list Staker := match Value i with Some s => s :: it_pending i | None => [] end.

(** An iterator in the heap stands on a value and is in order. *)
Definition in_heap (i : I) : Prop := it_ok i ∧ is_Some (Value i) ∧ sorted_by Staker_Less (remaining i).

Definition merged_ok (it : mergedIterator (I := I)) : Prop :=
  Forall in_heap (m_heap it) ∧ is_heap value_less (m_heap it) ∧ distinct (concat (remaining <$> m_heap it)).

Definition merged_pending (it : mergedIterator (I := I)) : list Staker :=
  let l := in_order (concat (remaining <$> m_heap it)) in if m_initialized it then tail l else l.

Lemma concat_remaining_perm (h1 h2 : list I) :
  h1 ≡ₚ h2 → concat (remaining <$> h1) ≡ₚ concat (remaining <$> h2).
Proof. intros Hp. by rewrite Hp. Qed.

(** The value of the root comes first. *)
Lemma merged_root (i : I) (rest : list I) s :
  Forall in_heap (i :: rest) → is_heap value_less (i :: rest) → distinct (concat (remaining <$> i :: rest)) →
  Value i = Some s →
  in_order (concat (remaining <$> i :: rest)) = s :: in_order (it_pending i ++ concat (remaining <$> rest)).
Proof.
  intros Hin Hh Hd Hs. rewrite fmap_cons, concat_cons in *. unfold remaining at 1. unfold remaining at 1 in Hd.
  rewrite Hs in *. rewrite <- app_comm_cons in *. apply in_order_cons; [done|]. intros y Hy.
  apply Forall_cons in Hin as [(_ & _ & Hsort) Hrest]. unfold remaining in Hsort. rewrite Hs in Hsort.
  inversion Hsort as [|? ? _ Hlt]; subst. rewrite Forall_forall in Hlt. rewrite Forall_forall in Hrest.
  apply elem_of_app in Hy as [Hy|Hy]; [by apply Staker_Less_asym, Hlt|].
  apply list_elem_of_In, in_concat in Hy as (l & Hl & Hy). apply list_elem_of_In in Hl, Hy.
  apply list_elem_of_fmap in Hl as (j & -> & Hj). destruct (Hrest j Hj) as (_ & [t Ht] & Hsj).
  unfold remaining in Hy, Hsj. rewrite Ht in Hy, Hsj.
  assert (Hti : Staker_Less t s = false).
  { apply list_elem_of_lookup in Hj as [n Hn].
    pose proof (heap_root value_less value_less_trans value_less_asym (i :: rest) (S n) Hh) as Hr.
    specialize (Hr ltac:(simpl; apply lookup_lt_Some in Hn; lia)). unfold le_at, less_at in Hr.
    change ((i :: rest) !! S n) with (rest !! n) in Hr. change ((i :: rest) !! 0%nat) with (Some i) in Hr.
    rewrite Hn in Hr. unfold value_less in Hr. by rewrite Ht, Hs in Hr. }
  apply elem_of_cons in Hy as [->|Hy]; [done|]. inversion Hsj as [|? ? _ Hlt']; subst. rewrite Forall_forall in Hlt'.
  apply (Staker_Less_neg_trans y t s); [by apply Staker_Less_asym, Hlt'|done].
Qed.

Lemma merged_Value_root (h : list I) b : merged_Value (mkMerged b h) = match h with i :: _ => Value i | [] => None end.
Proof. unfold merged_Value, Queue_Peek, Queue_Len. by destruct h. Qed.

(** After the root has been advanced, what is left is the rest in order. *)
Lemma merged_step (h : list I) R :
  Forall in_heap h → is_heap value_less h → distinct R → concat (remaining <$> h) ≡ₚ R →
  merged_ok (mkMerged true h)
  ∧ match in_order R with
    | [] => h = [] ∧ merged_pending (mkMerged true h) = []
    | s :: rest => h ≠ [] ∧ merged_Value (mkMerged true h) = Some s ∧ merged_pending (mkMerged true h) = rest
    end.
Proof.
  intros Hin Hh Hd Hp. assert (Hd' : distinct (concat (remaining <$> h))) by (by rewrite Hp).
  split; [done|]. unfold merged_pending. cbn [m_heap m_initialized].
  rewrite <- (in_order_proper _ R Hd' Hp). destruct h as [|i rest]; [done|].
  pose proof Hin as Hi. apply Forall_cons in Hi as [(_ & [s Hs] & _) _].
  rewrite (merged_root i rest s Hin Hh Hd' Hs). split; [done|]. split; [|done]. by rewrite merged_Value_root.
Qed.

Lemma remaining_bound (h : list I) :
  Forall in_heap h → (length (concat (remaining <$> h)) ≤ sum_list ((λ i, S (Bound i)) <$> h))%nat.
Proof.
  induction 1 as [|i h (Hok & [s Hs] & _) _ IH]; [done|]. rewrite !fmap_cons, concat_cons, length_app. cbn [sum_list sum_list_with].
  pose proof (law_it_Bound i Hok). unfold remaining at 1. rewrite Hs. cbn [length id]. unfold sum_list in *. lia.
Qed.

#[export] Instance merged_iterator_laws : IteratorLaws (merged_StakerIterator (I := I)).
Proof.
  refine {| it_ok := merged_ok; it_pending := merged_pending |}.
  - intros [b h] (Hin & Hh & Hd). cbn [m_heap] in *. change (Next (mkMerged b h)) with (merged_Next (mkMerged b h)).
    unfold merged_Next. cbn [m_heap m_initialized]. destruct (Nat.eqb_spec (Queue_Len h) 0) as [E|E].
    + destruct h; [|done]. cbn [fst snd]. split; [done|]. by destruct b.
    + destruct h as [|i rest]; [done|]. pose proof Hin as Hi. apply Forall_cons in Hi as [(Hok & [s Hs] & Hsort) Hrest].
      pose proof (merged_root i rest s Hin Hh Hd Hs) as Hroot. destruct b; cbn [negb].
      * assert (Hpe : merged_pending (mkMerged true (i :: rest)) = in_order (it_pending i ++ concat (remaining <$> rest))).
        { unfold merged_pending. cbn [m_heap m_initialized]. by rewrite Hroot. }
        rewrite Hpe.
        assert (Hdr : distinct (it_pending i ++ concat (remaining <$> rest))).
        { rewrite fmap_cons, concat_cons in Hd. unfold remaining in Hd at 1. rewrite Hs in Hd.
          rewrite <- app_comm_cons, fmap_cons in Hd. by apply NoDup_cons in Hd as [_ ?]. }
        pose proof (law_it_Next i Hok) as [Hok' Hn]. destruct (Next i) as [ok i'] eqn:En. cbn [fst snd] in *.
        unfold remaining in Hsort. rewrite Hs in Hsort.
        destruct (it_pending i) as [|s' pend] eqn:Ep.
        -- destruct Hn as [-> Hp'].
           destruct (Queue_Pop_root value_less value_less_trans value_less_asym i (Release i') rest Hh) as (h' & -> & Hp & Hh').
           destruct (merged_step h' (concat (remaining <$> rest))) as [Hok2 Hst]; [by rewrite Hp|done|done| |].
           { by apply concat_remaining_perm. }
           cbn [app] in *. cbn [fst snd]. split; [exact Hok2|]. destruct (in_order (concat (remaining <$> rest))) as [|x l].
           ++ destruct Hst as [-> Hpend]. done.
           ++ destruct Hst as (Hne & Hv & Hpend). split; [by destruct h'|by split].
        -- destruct Hn as (-> & Hv' & Hp').
           destruct (Queue_Fix_root value_less value_less_trans value_less_asym i i' rest Hh) as [Hp Hh'].
           set (h' := Queue_Fix value_less (i' :: rest) 0) in *. cbn [fst snd].
           assert (Hri : remaining i' = s' :: pend) by (unfold remaining; by rewrite Hv', Hp').
           destruct (merged_step h' ((s' :: pend) ++ concat (remaining <$> rest))) as [Hok2 Hst]; [|done|done| |].
           { rewrite Hp. constructor; [|done]. split; [done|]. split; [by eexists|]. rewrite Hri. by inversion Hsort. }
           { rewrite (concat_remaining_perm _ _ Hp), fmap_cons, concat_cons. by rewrite Hri. }
           split; [exact Hok2|]. destruct (in_order ((s' :: pend) ++ concat (remaining <$> rest))) as [|x l] eqn:Eo.
           { apply (f_equal length) in Eo. rewrite (Permutation_length (in_order_perm _)) in Eo. done. }
           destruct Hst as (Hne & Hv & Hpend). done.
      * cbn [fst snd]. split; [done|]. unfold merged_pending. cbn [m_heap m_initialized]. rewrite Hroot.
        split; [done|]. split; [|done]. change (Value (mkMerged true (i :: rest))) with (merged_Value (mkMerged true (i :: rest))).
        by rewrite merged_Value_root.
  - intros [b h] Hok. cbn. split; [|by destruct b]. split; [constructor|]. split; [|constructor].
    intros c Hc. simpl in Hc. lia.
  - intros [b h] (Hin & _). unfold merged_pending. cbn [m_heap m_initialized].
    assert (length (in_order (concat (remaining <$> h))) ≤ merged_Bound (mkMerged b h))%nat as Hle.
    { rewrite (Permutation_length (in_order_perm _)). unfold merged_Bound. cbn [m_heap] in *. by apply remaining_bound. }
    change (Bound (mkMerged b h)) with (merged_Bound (mkMerged b h)).
    destruct b; [|done]. destruct (in_order (concat (remaining <$> h))); cbn in *; lia.
Defined.

(** The first [Next] of every iterator *)
Lemma filter_exhausted_spec : ∀ fuel i (l : list I),
  (length l - i ≤ fuel)%nat → (i ≤ length l)%nat →
  Forall in_heap (take i l) → Forall (λ j, it_ok j ∧ sorted_by Staker_Less (it_pending j)) (drop i l) →
  Forall in_heap (filter_exhausted fuel i l)
  ∧ concat (remaining <$> filter_exhausted fuel i l)
    ≡ₚ concat (remaining <$> take i l) ++ concat (it_pending <$> drop i l).
Proof.
  induction fuel as [|fuel IH]; intros i l Hf Hi Hdone Htodo; cbn [filter_exhausted].
  - assert (i = length l) as -> by lia. rewrite firstn_all in *. rewrite drop_all. cbn. by rewrite app_nil_r.
  - destruct (l !! i) as [j|] eqn:Ej.
    2: { apply lookup_ge_None in Ej. assert (i = length l) as -> by lia. rewrite firstn_all in *. rewrite drop_all. cbn.
         by rewrite app_nil_r. }
    pose proof (lookup_lt_Some _ _ _ Ej) as Hil. rewrite (drop_S _ _ _ Ej) in Htodo |- *.
    apply Forall_cons in Htodo as [[Hok Hsort] Htodo].
    pose proof (law_it_Next j Hok) as [Hok' Hn]. destruct (Next j) as [ok j'] eqn:En. cbn [fst snd] in *.
    destruct (it_pending j) as [|s pend] eqn:Ep.
    + destruct Hn as [-> Hp'].
      destruct (decide (i = length l - 1)%nat) as [E|E].
      * (* the last one *)
        assert (Hshort : ∀ k, take (length l - 1) (<[i := k]> l) = take i l).
        { intros k. rewrite <- E. apply list_eq. intros n. destruct (decide (n < i)%nat).
          - rewrite !lookup_take_lt, list_lookup_insert_ne by lia. done.
          - by rewrite !lookup_take_ge by lia. }
        replace ((<[i := Release j']> l) !! (length l - 1)%nat) with (Some (Release j'))
          by (rewrite <- E; by rewrite list_lookup_insert_eq).
        rewrite Hshort.
        assert (drop (S i) l = []) as -> by (apply drop_ge; lia).
        destruct (IH i (take i l)) as [H1 H2]; rewrite ?length_take; [lia|lia| | |].
        -- by rewrite take_take, Nat.min_id.
        -- rewrite drop_ge; [constructor|]. rewrite length_take. lia.
        -- split; [done|]. rewrite H2, take_take, Nat.min_id, drop_ge by (rewrite length_take; lia). cbn. by rewrite Ep.
      * rewrite list_lookup_insert_ne by done. destruct (l !! (length l - 1)%nat) as [k|] eqn:Ek.
        2: { apply lookup_ge_None in Ek. lia. }
        assert (Et : take i (take (length l - 1) (<[i := k]> l)) = take i l).
        { rewrite take_take, Nat.min_l by lia. apply take_insert_ge. lia. }
        assert (Ed : drop i (take (length l - 1) (<[i := k]> l)) ≡ₚ drop (S i) l).
        { rewrite <- (take_drop (length l - 1) l) at 3. rewrite drop_app_le by (rewrite length_take; lia).
          rewrite (drop_S l k (length l - 1) Ek), (drop_ge l (S (length l - 1))) by lia.
          rewrite (drop_S _ k).
          2: { rewrite lookup_take_lt, list_lookup_insert_eq by lia. done. }
          rewrite <- Permutation_cons_append. f_equiv. rewrite take_insert_lt by lia. rewrite drop_insert_lt by lia. done. }
        destruct (IH i (take (length l - 1) (<[i := k]> l))) as [H1 H2].
        -- rewrite length_take, length_insert. lia.
        -- rewrite length_take, length_insert. lia.
        -- by rewrite Et.
        -- by rewrite Ed.
        -- split; [done|]. rewrite H2, Et. f_equiv. rewrite fmap_cons, concat_cons, Ep. by rewrite Ed.
    + destruct Hn as (-> & Hv' & Hp').
      assert (Hri : remaining j' = s :: pend) by (unfold remaining; by rewrite Hv', Hp').
      assert (Et : take (i + 1) (<[i := j']> l) = take i l ++ [j']).
      { rewrite Nat.add_1_r, (take_S_r _ i j') by by apply list_lookup_insert_eq. by rewrite take_insert_ge. }
      assert (Ed : drop (i + 1) (<[i := j']> l) = drop (S i) l) by (rewrite Nat.add_1_r; apply drop_insert_lt; lia).
      destruct (IH (i + 1)%nat (<[i := j']> l)) as [H1 H2]; rewrite ?length_insert; [lia|lia| | |].
      * rewrite Et. apply Forall_app. split; [done|]. constructor; [|constructor]. split; [done|]. split; [by eexists|].
        by rewrite Hri.
      * by rewrite Ed.
      * split; [done|]. rewrite H2, Et, Ed, fmap_app, concat_app. cbn. rewrite Hri, Ep, app_nil_r. by rewrite <- !app_assoc.
Qed.

(** The merge of sorted iterators is the sorted list of all their stakers. *)
Lemma NewMergedIterator_spec (l : list I) :
  Forall (λ j, it_ok j ∧ sorted_by Staker_Less (it_pending j)) l → distinct (concat (it_pending <$> l)) →
  it_ok (NewMergedIterator l) ∧ it_pending (NewMergedIterator l) = in_order (concat (it_pending <$> l)).
Proof.
  intros Hl Hd. destruct (filter_exhausted_spec (length l) 0 l) as [H1 H2]; [lia|lia|by rewrite take_0|by rewrite drop_0|].
  rewrite take_0, drop_0 in H2. cbn [fmap list_fmap concat app] in H2.
  destruct (QueueOf_spec value_less value_less_trans value_less_asym (filter_exhausted (length l) 0 l)) as [Hp Hh].
  pose proof (concat_remaining_perm _ _ Hp) as Hpc. rewrite H2 in Hpc.
  split; [split; [by cbn; rewrite Hp|split; [exact Hh|cbn; by rewrite Hpc]]|].
  cbn. unfold merged_pending. cbn [m_heap m_initialized NewMergedIterator]. symmetry. apply in_order_proper; [done|by rewrite Hpc].
Qed.
End merged_laws.
