(* ===== verification/StakerDiffIterator.v ===== *)
(** * The changes of the current staker set

    [vms/platformvm/txs/priorities.go] and [vms/platformvm/state/staker_diff_iterator.go]:
    the iterator over the events that the advancement of time will perform on the current
    staker set, which adds the pending stakers when they start and removes the current ones
    when they end.  A nil staker that the code would dereference, and an index out of the
    range of [PendingToCurrentPriorities], are [None]; the theorem shows that neither
    occurs. *)

From S2P Require Import Prelude Btree Heap Database StakerIterators.

Open Scope Z_scope.

(** ** [priorities.go] *)

Definition PrimaryNetworkDelegatorApricotPendingPriority : Z := 1.
Definition PrimaryNetworkValidatorPendingPriority : Z := 2.
Definition PrimaryNetworkDelegatorBanffPendingPriority : Z := 3.
Definition SubnetPermissionlessValidatorPendingPriority : Z := 4.
Definition SubnetPermissionlessDelegatorPendingPriority : Z := 5.
Definition SubnetPermissionedValidatorPendingPriority : Z := 6.
Definition SubnetPermissionedValidatorCurrentPriority : Z := 7.
Definition SubnetPermissionlessDelegatorCurrentPriority : Z := 8.
Definition SubnetPermissionlessValidatorCurrentPriority : Z := 9.
Definition PrimaryNetworkDelegatorCurrentPriority : Z := 10.
Definition PrimaryNetworkValidatorCurrentPriority : Z := 11.

(** The element of index 0, which the literal does not name, is zero. *)
Definition PendingToCurrentPriorities : list Z :=
  [ 0;
    PrimaryNetworkDelegatorCurrentPriority;
    PrimaryNetworkValidatorCurrentPriority;
    PrimaryNetworkDelegatorCurrentPriority;
    SubnetPermissionlessValidatorCurrentPriority;
    SubnetPermissionlessDelegatorCurrentPriority;
    SubnetPermissionedValidatorCurrentPriority ].

Definition IsPermissionedValidator (p : Z) : bool :=
  (p =? SubnetPermissionedValidatorCurrentPriority) || (p =? SubnetPermissionedValidatorPendingPriority).

Definition IsCurrentValidator (p : Z) : bool :=
  (p =? PrimaryNetworkValidatorCurrentPriority) || (p =? SubnetPermissionedValidatorCurrentPriority)
  || (p =? SubnetPermissionlessValidatorCurrentPriority).

Definition IsCurrentDelegator (p : Z) : bool :=
  (p =? PrimaryNetworkDelegatorCurrentPriority) || (p =? SubnetPermissionlessDelegatorCurrentPriority).

Definition IsPendingValidator (p : Z) : bool :=
  (p =? PrimaryNetworkValidatorPendingPriority) || (p =? SubnetPermissionedValidatorPendingPriority)
  || (p =? SubnetPermissionlessValidatorPendingPriority).

Definition IsPendingDelegator (p : Z) : bool :=
  (p =? PrimaryNetworkDelegatorBanffPendingPriority) || (p =? PrimaryNetworkDelegatorApricotPendingPriority)
  || (p =? SubnetPermissionlessDelegatorPendingPriority).

Definition IsCurrent (p : Z) : bool := IsCurrentValidator p || IsCurrentDelegator p.
Definition IsPending (p : Z) : bool := IsPendingValidator p || IsPendingDelegator p.
Definition IsValidator (p : Z) : bool := IsCurrentValidator p || IsPendingValidator p.
Definition IsDelegator (p : Z) : bool := IsCurrentDelegator p || IsPendingDelegator p.

(** ** [staker_diff_iterator.go] *)

Section iterator.
Context {I : Type} {SI : StakerIterator I}.

Record mutableStakerIterator := mkMutable { iteratorExhausted : bool; iterator : I; heap : list Staker }.

Definition newMutableStakerIterator (iterator : I) : mutableStakerIterator :=
  let '(ok, iterator) := Next iterator in
  mkMutable (negb ok) iterator (NewQueue Staker_Less).

Definition mutable_Add (it : mutableStakerIterator) (staker : Staker) : mutableStakerIterator :=
  mkMutable (iteratorExhausted it) (iterator it) (Queue_Push Staker_Less (heap it) staker).

Definition mutable_Next (it : mutableStakerIterator) : option (bool * mutableStakerIterator) :=
  let it :=
    match Queue_Pop Staker_Less (heap it) with
    | Some (_, heap) => mkMutable (iteratorExhausted it) (iterator it) heap
    | None => it
    end in
  if iteratorExhausted it then Some (negb (Queue_Len (heap it) =? 0)%nat, it)
  else
    nextIteratorStaker ← Value (iterator it);
    let add :=
      match Queue_Peek (heap it) with
      | None => true
      | Some peek => Staker_Less nextIteratorStaker peek
      end in
    if add then
      let it := mutable_Add it nextIteratorStaker in
      let '(ok, iterator) := Next (iterator it) in
      Some (true, mkMutable (negb ok) iterator (heap it))
    else Some (true, it).

Definition mutable_Value (it : mutableStakerIterator) : option Staker := Queue_Peek (heap it).

Definition mutable_Release (it : mutableStakerIterator) : mutableStakerIterator :=
  mkMutable true (Release (iterator it)) (NewQueue Staker_Less).
End iterator.

Section diff.
Context {I J : Type} {SI : StakerIterator I} {SJ : StakerIterator J}.

Record stakerDiffIterator := mkDiffIterator {
  currentIteratorExhausted : bool;
  currentIterator : mutableStakerIterator (I := I);
  pendingIteratorExhausted : bool;
  pendingIterator : J;
  modifiedStaker : option Staker;
  isAdded : bool;
}.

Definition NewStakerDiffIterator (currentIterator : I) (pendingIterator : J) : option stakerDiffIterator :=
  '(ok, mutableCurrentIterator) ← mutable_Next (newMutableStakerIterator currentIterator);
  let '(okPending, pendingIterator) := Next pendingIterator in
  Some (mkDiffIterator (negb ok) mutableCurrentIterator (negb okPending) pendingIterator None false).

Definition advanceCurrent (it : stakerDiffIterator) : option stakerDiffIterator :=
  '(ok, current) ← mutable_Next (currentIterator it);
  Some (mkDiffIterator (negb ok) current (pendingIteratorExhausted it) (pendingIterator it)
          (mutable_Value (currentIterator it)) false).

(** The removal of a staker that starts *)
Definition toRemove (s : Staker) (priority : Z) : Staker :=
  mkStaker (TxID s) (NodeID s) (PublicKey s) (SubnetID s) (Weight s) (StartTime s) (EndTime s) (PotentialReward s)
    (EndTime s) priority.

Definition advancePending (it : stakerDiffIterator) : option stakerDiffIterator :=
  let modified := Value (pendingIterator it) in
  let '(ok, pending) := Next (pendingIterator it) in
  s ← modified;
  priority ← PendingToCurrentPriorities !! Z.to_nat (Priority s);
  Some (mkDiffIterator false (mutable_Add (currentIterator it) (toRemove s priority)) (negb ok) pending modified true).

Definition diff_Next (it : stakerDiffIterator) : option (bool * stakerDiffIterator) :=
  if currentIteratorExhausted it && pendingIteratorExhausted it then Some (false, it)
  else
    it ←
      (if currentIteratorExhausted it then advancePending it
       else if pendingIteratorExhausted it then advanceCurrent it
       else
         nextStakerRemoved ← mutable_Value (currentIterator it);
         nextStakerAdded ← Value (pendingIterator it);
         if EndTime nextStakerRemoved <? StartTime nextStakerAdded then advanceCurrent it
         else advancePending it);
    Some (true, it).

Definition diff_Value (it : stakerDiffIterator) : option Staker * bool := (modifiedStaker it, isAdded it).

Definition diff_Release (it : stakerDiffIterator) : stakerDiffIterator :=
  mkDiffIterator true (mutable_Release (currentIterator it)) true (Release (pendingIterator it)) None (isAdded it).

(** All the events of the iterator, in at most [fuel] calls of [Next] *)
Fixpoint diff_events (fuel : nat) (it : stakerDiffIterator) : option (list (Staker * bool)) :=
  match fuel with
  | O => None
  | S fuel =>
      '(ok, it) ← diff_Next it;
      if ok : bool then
        let '(s, added) := diff_Value it in
        s ← s;
        rest ← diff_events fuel it;
        Some ((s, added) :: rest)
      else Some []
  end.
End diff.

(** ** The order of the events *)

(** Events are ordered by time; at the same time additions come before removals; further
    ties are broken by the order of the stakers. *)
Definition event_less (e f : Staker * bool) : bool :=
  if NextTime e.1 <? NextTime f.1 then true
  else if NextTime f.1 <? NextTime e.1 then false
  else if e.2 && negb f.2 then true
  else if negb e.2 && f.2 then false
  else Staker_Less e.1 f.1.

Definition removal (s : Staker) : Staker := toRemove s (default 0 (PendingToCurrentPriorities !! Z.to_nat (Priority s))).

(** The events that the current stakers [cs] and the pending stakers [ps] bring about *)
Definition events_of (cs ps : list Staker) : list (Staker * bool) :=
  ((λ s, (s, true)) <$> ps) ++ ((λ s, (s, false)) <$> cs ++ (removal <$> ps)).

Definition current_wf (s : Staker) : Prop := NextTime s = EndTime s.
Definition pending_wf (s : Staker) : Prop :=
  NextTime s = StartTime s ∧ StartTime s ≤ EndTime s ∧ IsPending (Priority s) = true.

Lemma event_less_time e f : NextTime e.1 < NextTime f.1 → event_less e f = true.
Proof. intros H. unfold event_less. by apply Z.ltb_lt in H as ->. Qed.

Lemma event_less_add s t : NextTime s ≤ NextTime t → event_less (s, true) (t, false) = true.
Proof.
  intros H. unfold event_less. cbn. destruct (Z.ltb_spec (NextTime s) (NextTime t)); [done|].
  destruct (Z.ltb_spec (NextTime t) (NextTime s)); [lia|done].
Qed.

Lemma event_less_same s t b : Staker_Less s t = true → event_less (s, b) (t, b) = true.
Proof.
  intros H. unfold event_less. cbn. pose proof H as H'. apply Staker_Less_iff in H'.
  destruct (Z.ltb_spec (NextTime s) (NextTime t)); [done|].
  destruct (Z.ltb_spec (NextTime t) (NextTime s)); [lia|]. by destruct b.
Qed.

Lemma Staker_Less_time s t : Staker_Less s t = true → NextTime s ≤ NextTime t.
Proof. rewrite Staker_Less_iff. lia. Qed.

Lemma not_less_time s t : Staker_Less t s = false → NextTime s ≤ NextTime t.
Proof. rewrite <- not_true_iff_false, Staker_Less_iff. lia. Qed.

Lemma pending_priority p : IsPending p = true → ∃ q, PendingToCurrentPriorities !! Z.to_nat p = Some q.
Proof.
  unfold IsPending, IsPendingValidator, IsPendingDelegator. rewrite !orb_true_iff, !Z.eqb_eq.
  intros Hp. apply lookup_lt_is_Some_2. revert Hp. unfold PrimaryNetworkValidatorPendingPriority,
    SubnetPermissionedValidatorPendingPriority, SubnetPermissionlessValidatorPendingPriority,
    PrimaryNetworkDelegatorBanffPendingPriority, PrimaryNetworkDelegatorApricotPendingPriority,
    SubnetPermissionlessDelegatorPendingPriority. simpl length. lia.
Qed.

(** ** The current stakers that are still to be removed *)

Section mutable.
Context {I : Type} {SI : StakerIterator I} {LI : IteratorLaws SI}.
Implicit Types m : mutableStakerIterator (I := I).

(** The stakers that the iterator under [m] still has *)
Definition upcoming (exhausted : bool) (i : I) : list Staker := if exhausted then [] else remaining i.

Definition standing (exhausted : bool) (i : I) : Prop :=
  it_ok i ∧ if exhausted then it_pending i = [] else is_Some (Value i) ∧ sorted_by Staker_Less (remaining i).

Definition mutable_all m : list Staker := heap m ++ upcoming (iteratorExhausted m) (iterator m).

(** The root of the heap is least, and the heap is empty only if nothing is left. *)
Definition mutable_ok m : Prop :=
  is_heap Staker_Less (heap m) ∧ standing (iteratorExhausted m) (iterator m)
  ∧ match Queue_Peek (heap m) with
    | None => upcoming (iteratorExhausted m) (iterator m) = []
    | Some r => ∀ y, y ∈ upcoming (iteratorExhausted m) (iterator m) → Staker_Less y r = false
    end.

Lemma standing_Next i ok i' : it_ok i → sorted_by Staker_Less (it_pending i) → Next i = (ok, i') →
  standing (negb ok) i' ∧ upcoming (negb ok) i' = it_pending i.
Proof.
  intros Hok Hs E. pose proof (law_it_Next i Hok) as [Hok' Hn]. rewrite E in Hok', Hn. cbn [fst snd] in *.
  unfold standing, upcoming, remaining. destruct (it_pending i) as [|s rest].
  - by destruct Hn as [-> ->].
  - destruct Hn as (-> & -> & ->). split; [split; [done|split; [by eexists|done]]|done].
Qed.

Lemma Peek_least q r : is_heap Staker_Less q → Queue_Peek q = Some r →
  r ∈ q ∧ ∀ y, y ∈ q → Staker_Less y r = false.
Proof. apply Queue_Peek_spec; [apply Staker_Less_neg_trans|apply Staker_Less_asym]. Qed.

Lemma mutable_Value_spec m : mutable_ok m →
  match mutable_Value m with
  | None => mutable_all m = []
  | Some r => r ∈ mutable_all m ∧ ∀ y, y ∈ mutable_all m → Staker_Less y r = false
  end.
Proof.
  intros (Hh & _ & Hr). unfold mutable_Value, mutable_all. destruct (Queue_Peek (heap m)) as [r|] eqn:E.
  - destruct (Peek_least _ _ Hh E) as [Hin Hle]. split; [apply elem_of_app; by left|].
    intros y [Hy|Hy]%elem_of_app; auto.
  - apply Queue_Peek_None in E. by rewrite E, Hr.
Qed.

Lemma mutable_Add_spec m s : mutable_ok m → mutable_ok (mutable_Add m s) ∧ mutable_all (mutable_Add m s) ≡ₚ s :: mutable_all m.
Proof.
  intros (Hh & Hst & Hr). unfold mutable_all, mutable_ok. cbn [mutable_Add heap iterator iteratorExhausted].
  destruct (Queue_Push_spec Staker_Less Staker_Less_neg_trans Staker_Less_asym (heap m) s Hh) as [Hp Hh'].
  split; [|by rewrite Hp]. split; [done|]. split; [done|].
  destruct (Queue_Peek (Queue_Push Staker_Less (heap m) s)) as [r'|] eqn:E'.
  2: { apply Queue_Peek_None in E'. rewrite E' in Hp. by apply Permutation_nil_cons in Hp. }
  destruct (Peek_least _ _ Hh' E') as [_ Hle]. intros y Hy. destruct (Queue_Peek (heap m)) as [r|] eqn:E.
  - destruct (Peek_least _ _ Hh E) as [Hin _]. apply (Staker_Less_neg_trans y r r'); [by apply Hr|].
    apply Hle. rewrite Hp. by right.
  - rewrite Hr in Hy. by apply elem_of_nil in Hy.
Qed.

(** After the pop of the root, the next staker is moved into the heap if it is less than the
    new root. *)
Lemma mutable_refill m q :
  match Queue_Pop Staker_Less (heap m) with Some (_, q') => q' | None => heap m end = q →
  is_heap Staker_Less q → standing (iteratorExhausted m) (iterator m) →
  ∃ ok m', mutable_Next m = Some (ok, m') ∧ mutable_ok m'
    ∧ mutable_all m' ≡ₚ q ++ upcoming (iteratorExhausted m) (iterator m)
    ∧ (ok = true ↔ mutable_all m' ≠ []).
Proof.
  destruct m as [exhausted i h]. cbn [heap iterator iteratorExhausted]. intros Eq Hh Hst. unfold mutable_Next.
  set (m1 := match Queue_Pop Staker_Less _ with Some _ => _ | None => _ end).
  assert (m1 = mkMutable exhausted i q) as ->.
  { unfold m1. cbn [heap iterator iteratorExhausted]. destruct (Queue_Pop Staker_Less h) as [[? ?]|]; by rewrite Eq. }
  clear Eq h. cbn [heap iterator iteratorExhausted]. destruct exhausted.
  - eexists _, _. split; [done|]. unfold mutable_ok, mutable_all. cbn [heap iterator iteratorExhausted upcoming].
    split; [split; [done|split; [done|]]|split; [done|]].
    + destruct (Queue_Peek q); [intros y Hy; by apply elem_of_nil in Hy|done].
    + by destruct q.
  - destruct Hst as [Hok [[s Hs] Hsort]]. rewrite Hs. cbn [mbind option_bind].
    assert (Hup : upcoming false i = s :: it_pending i) by (unfold upcoming, remaining; by rewrite Hs).
    unfold remaining in Hsort. rewrite Hs in Hsort. inversion Hsort as [|? ? Hsort' Hlt]; subst. rewrite Forall_forall in Hlt.
    destruct (match Queue_Peek q with None => true | Some peek => Staker_Less s peek end) eqn:Ea.
    + destruct (Next i) as [ok i'] eqn:En. cbn [mutable_Add heap iterator iteratorExhausted]. rewrite En.
      destruct (standing_Next i ok i' Hok Hsort' En) as [Hst' Hup'].
      destruct (Queue_Push_spec Staker_Less Staker_Less_neg_trans Staker_Less_asym q s Hh) as [Hp Hh'].
      eexists _, _. split; [done|]. unfold mutable_ok, mutable_all. cbn [heap iterator iteratorExhausted].
      assert (Hne : Queue_Push Staker_Less q s ≠ []).
      { intros E. rewrite E in Hp. by apply Permutation_nil_cons in Hp. }
      split; [split; [done|split; [done|]]|split].
      * rewrite Hup'. destruct (Queue_Peek (Queue_Push Staker_Less q s)) as [r|] eqn:Er.
        2: { by apply Queue_Peek_None in Er. }
        destruct (Peek_least _ _ Hh' Er) as [_ Hle]. intros y Hy.
        apply (Staker_Less_neg_trans y s r); [by apply Staker_Less_asym, Hlt|]. apply Hle. rewrite Hp. by left.
      * rewrite Hup', Hup, Hp. cbn [app]. apply Permutation_middle.
      * split; [|done]. intros _ E. by apply app_eq_nil in E as [? _].
    + eexists _, _. split; [done|]. unfold mutable_ok, mutable_all. cbn [heap iterator iteratorExhausted].
      destruct (Queue_Peek q) as [r|] eqn:Er; [|done].
      split; [split; [done|split]|split; [done|]].
      * split; [done|]. unfold remaining. rewrite Hs. by split; [eexists|].
      * rewrite Hup. intros y [->|Hy]%elem_of_cons; [done|].
        apply (Staker_Less_neg_trans y s r); [by apply Staker_Less_asym, Hlt|done].
      * split; [|done]. intros _ E. apply app_eq_nil in E as [-> _]. done.
Qed.

Lemma mutable_Next_spec m r : mutable_ok m → mutable_Value m = Some r →
  ∃ ok m', mutable_Next m = Some (ok, m') ∧ mutable_ok m' ∧ mutable_all m ≡ₚ r :: mutable_all m'
    ∧ (ok = true ↔ mutable_all m' ≠ []).
Proof.
  intros (Hh & Hst & _) Hr.
  destruct (Queue_Pop_spec Staker_Less Staker_Less_neg_trans Staker_Less_asym (heap m) r Hh Hr) as (q & E & Hp & Hq).
  destruct (mutable_refill m q) as (ok & m' & En & Hok & Hall & Hb); [by rewrite E|done|done|].
  exists ok, m'. split; [done|]. split; [done|]. split; [|done]. unfold mutable_all at 1. by rewrite Hp, Hall.
Qed.

Lemma mutable_init i : it_ok i → sorted_by Staker_Less (it_pending i) →
  ∃ ok m, mutable_Next (newMutableStakerIterator i) = Some (ok, m) ∧ mutable_ok m
    ∧ mutable_all m ≡ₚ it_pending i ∧ (ok = true ↔ mutable_all m ≠ []).
Proof.
  intros Hok Hs. unfold newMutableStakerIterator. destruct (Next i) as [ok i'] eqn:E.
  destruct (standing_Next i ok i' Hok Hs E) as [Hst Hup].
  destruct (mutable_refill (mkMutable (negb ok) i' (NewQueue Staker_Less)) []) as (ok' & m & En & Hm & Hall & Hb).
  - done.
  - intros c Hc. simpl in Hc. lia.
  - done.
  - exists ok', m. cbn [iterator iteratorExhausted] in Hall. rewrite Hup in Hall. done.
Qed.
End mutable.

(** ** The events in order *)

#[export] Instance events_of_proper : Proper ((≡ₚ) ==> (≡ₚ) ==> (≡ₚ)) events_of.
Proof. intros cs cs' Hc ps ps' Hp. unfold events_of. by rewrite Hc, Hp. Qed.

Lemma events_of_remove cs cs' ps r : cs ≡ₚ r :: cs' → events_of cs ps ≡ₚ (r, false) :: events_of cs' ps.
Proof. intros E. rewrite E. unfold events_of. rewrite <- app_comm_cons, fmap_cons.
  symmetry. apply Permutation_middle. Qed.

Lemma events_of_add cs cs' s ps : cs' ≡ₚ removal s :: cs → events_of cs (s :: ps) ≡ₚ (s, true) :: events_of cs' ps.
Proof.
  intros E. rewrite E. unfold events_of. rewrite !fmap_cons, <- !app_comm_cons. constructor. f_equiv.
  apply fmap_Permutation. symmetry. apply Permutation_middle.
Qed.

Lemma elem_of_events cs ps e : e ∈ events_of cs ps ↔
  (e.2 = true ∧ e.1 ∈ ps) ∨ (e.2 = false ∧ (e.1 ∈ cs ∨ ∃ p, p ∈ ps ∧ e.1 = removal p)).
Proof.
  unfold events_of. destruct e as [s [|]]; rewrite elem_of_app, !list_elem_of_fmap; cbn [fst snd]; split.
  - intros [(y & [= ->] & Hy)|(y & [=] & _)]. by left.
  - intros [[_ H]|[[=] _]]. left. by exists s.
  - intros [(y & [=] & _)|(y & [= ->] & Hy)]. right. split; [done|].
    apply elem_of_app in Hy as [Hy|Hy]; [by left|]. apply list_elem_of_fmap in Hy as (p & -> & Hp). right. by exists p.
  - intros [[[=] _]|[_ H]]. right. exists s. split; [done|]. apply elem_of_app.
    destruct H as [H|(p & Hp & ->)]; [by left|right]. by apply list_elem_of_fmap_2.
Qed.

Section events.
Context {I J : Type} {SI : StakerIterator I} {SJ : StakerIterator J} {LI : IteratorLaws SI} {LJ : IteratorLaws SJ}.
Implicit Types it : stakerDiffIterator (I := I) (J := J).

Definition diff_current it : list Staker := mutable_all (currentIterator it).
Definition diff_pending it : list Staker := upcoming (pendingIteratorExhausted it) (pendingIterator it).

Definition diff_ok it : Prop :=
  mutable_ok (currentIterator it)
  ∧ (currentIteratorExhausted it = true ↔ diff_current it = [])
  ∧ standing (pendingIteratorExhausted it) (pendingIterator it)
  ∧ Forall current_wf (diff_current it) ∧ Forall pending_wf (diff_pending it)
  ∧ distinct (diff_current it ++ diff_pending it).

Lemma exhausted_iff (ok : bool) (l : list Staker) : (ok = true ↔ l ≠ []) → (negb ok = true ↔ l = []).
Proof. destruct ok, l; naive_solver. Qed.

(** A removed staker is the least current one. *)
Lemma advanceCurrent_spec it r : diff_ok it → mutable_Value (currentIterator it) = Some r →
  ∃ it', advanceCurrent it = Some it' ∧ diff_ok it' ∧ diff_Value it' = (Some r, false)
    ∧ diff_current it ≡ₚ r :: diff_current it' ∧ diff_pending it' = diff_pending it.
Proof.
  intros (Hm & _ & Hst & Hc & Hp & Hd) Hr. unfold advanceCurrent.
  destruct (mutable_Next_spec (currentIterator it) r Hm Hr) as (ok & m' & -> & Hm' & Hall & Hb).
  eexists. split; [done|]. unfold diff_ok, diff_current, diff_pending, diff_Value in *.
  cbn [currentIterator currentIteratorExhausted pendingIterator pendingIteratorExhausted modifiedStaker isAdded].
  rewrite Hr. rewrite Hall in Hc, Hd. apply Forall_cons in Hc as [_ Hc]. cbn [app] in Hd. rewrite fmap_cons in Hd.
  apply NoDup_cons in Hd as [_ Hd]. split_and!; try done.
  by apply exhausted_iff.
Qed.

(** An added staker is the next pending one; its removal is due later. *)
Lemma advancePending_spec it s rest : diff_ok it → diff_pending it = s :: rest →
  ∃ it', advancePending it = Some it' ∧ diff_ok it' ∧ diff_Value it' = (Some s, true)
    ∧ diff_current it' ≡ₚ removal s :: diff_current it ∧ diff_pending it' = rest.
Proof.
  intros (Hm & _ & Hst & Hc & Hp & Hd) Hs. unfold diff_ok, diff_current, diff_pending, diff_Value, upcoming in *.
  unfold advancePending. destruct (pendingIteratorExhausted it) eqn:Eex; [done|]. destruct Hst as [Hok [[s' Hv] Hsort]].
  unfold remaining in *. rewrite Hv in *. injection Hs as -> Hpend. inversion Hsort as [|? ? Hsort' _]; subst.
  destruct (Next (pendingIterator it)) as [ok pending'] eqn:En. cbn [mbind option_bind].
  destruct (standing_Next _ ok pending' Hok Hsort' En) as [Hst' Hup'].
  apply Forall_cons in Hp as [(Hw1 & Hw2 & Hw3) Hp]. destruct (pending_priority _ Hw3) as [q Hq].
  assert (removal s = toRemove s q) as Hrem by (unfold removal; by rewrite Hq). rewrite Hq. cbn [mbind option_bind].
  destruct (mutable_Add_spec (currentIterator it) (toRemove s q) Hm) as [Hm' Hall].
  eexists. split; [done|]. unfold upcoming, remaining in Hup'.
  cbn [currentIterator currentIteratorExhausted pendingIterator pendingIteratorExhausted modifiedStaker isAdded].
  rewrite Hup', Hrem. split_and!; try done.
  - split; [done|]. intros E. rewrite E in Hall. by apply Permutation_nil_cons in Hall.
  - rewrite Hall. by constructor.
  - rewrite Hall. cbn [app]. rewrite fmap_cons. cbn [TxID toRemove].
    by rewrite <- Permutation_middle, fmap_cons in Hd.
Qed.

(** The events that are left *)
Definition diff_left it : list (Staker * bool) := events_of (diff_current it) (diff_pending it).

Lemma diff_pending_sorted it : diff_ok it → sorted_by Staker_Less (diff_pending it).
Proof.
  intros (_ & _ & [_ Hst] & _). unfold diff_pending, upcoming. destruct (pendingIteratorExhausted it); [constructor|].
  by destruct Hst.
Qed.

(** The iterator [it'] after [it] returned the least event that was left. *)
Definition least_event it it' : Prop :=
  ∃ s b, diff_Value it' = (Some s, b) ∧ diff_left it ≡ₚ (s, b) :: diff_left it'
    ∧ ∀ e, e ∈ diff_left it' → event_less (s, b) e = true.

Lemma advanceCurrent_least it r : diff_ok it → mutable_Value (currentIterator it) = Some r →
  (∀ p, p ∈ diff_pending it → EndTime r < StartTime p) →
  ∃ it', advanceCurrent it = Some it' ∧ diff_ok it' ∧ least_event it it'.
Proof.
  intros Hok Hr Hbefore. pose proof Hok as (Hm & _ & _ & Hc & Hp & Hd). rewrite Forall_forall in Hc. rewrite Forall_forall in Hp.
  pose proof (mutable_Value_spec _ Hm) as Hval. fold (diff_current it) in Hval. rewrite Hr in Hval. destruct Hval as [Hin Hleast].
  destruct (advanceCurrent_spec it r Hok Hr) as (it' & -> & Hok' & Hv & Hcur & Hpend). exists it'. split; [done|]. split; [done|].
  exists r, false. split; [done|]. unfold diff_left. split; [rewrite Hpend; by apply events_of_remove|].
  pose proof (Hc r Hin) as Hwr. unfold current_wf in Hwr.
  intros [y b] Hy. rewrite Hpend in Hy. apply elem_of_events in Hy. cbn [fst snd] in Hy.
  destruct Hy as [[-> Hy]|[-> [Hy|(p & Hy & E)]]].
  - apply event_less_time. cbn [fst]. destruct (Hp y Hy) as (-> & _). rewrite Hwr. by apply Hbefore.
  - apply event_less_same. assert (Hyc : y ∈ diff_current it) by (rewrite Hcur; by right). specialize (Hleast y Hyc).
    destruct (Staker_Less r y) eqn:E; [done|]. exfalso. rewrite Hcur in Hd. cbn [app] in Hd. rewrite fmap_cons in Hd.
    apply NoDup_cons in Hd as [Hn _]. apply Hn. rewrite (Staker_Less_tie _ _ E Hleast). apply list_elem_of_fmap_2.
    apply elem_of_app. by left.
  - apply event_less_time. rewrite E. cbn. specialize (Hbefore p Hy). destruct (Hp p Hy) as (_ & ? & _). lia.
Qed.

Lemma advancePending_least it s rest : diff_ok it → diff_pending it = s :: rest →
  (∀ c, c ∈ diff_current it → StartTime s ≤ EndTime c) →
  ∃ it', advancePending it = Some it' ∧ diff_ok it' ∧ least_event it it'.
Proof.
  intros Hok Hs Hafter. pose proof Hok as (_ & _ & _ & Hc & Hp & _). rewrite Forall_forall in Hc. rewrite Forall_forall in Hp.
  pose proof (diff_pending_sorted it Hok) as Hsort. rewrite Hs in Hsort.
  destruct (advancePending_spec it s rest Hok Hs) as (it' & -> & Hok' & Hv & Hcur & Hpend).
  exists it'. split; [done|]. split; [done|]. exists s, true. split; [done|]. unfold diff_left.
  rewrite Hpend, Hs. split; [by apply events_of_add|].
  inversion Hsort as [|? ? _ Hlt]; subst. rewrite Forall_forall in Hlt.
  destruct (Hp s) as (Hw1 & Hw2 & _); [rewrite Hs; by left|].
  intros [y b] Hy. apply elem_of_events in Hy. cbn [fst snd] in Hy.
  destruct Hy as [[-> Hy]|[-> [Hy|(p & Hy & E)]]].
  - apply event_less_same. by apply Hlt.
  - apply event_less_add. rewrite Hw1. rewrite Hcur in Hy. apply elem_of_cons in Hy as [->|Hy]; [done|].
    pose proof (Hc y Hy) as Hwy. unfold current_wf in Hwy. rewrite Hwy. by apply Hafter.
  - apply event_less_add. rewrite E. cbn. pose proof (Staker_Less_time _ _ (Hlt p Hy)) as Ht.
    destruct (Hp p) as (? & ? & _); [rewrite Hs; by right|]. lia.
Qed.

(** [Next] returns the least event that is left. *)
Lemma diff_Next_spec it : diff_ok it →
  ∃ ok it', diff_Next it = Some (ok, it') ∧ diff_ok it' ∧ if ok then least_event it it' else diff_left it = [].
Proof.
  intros Hok. pose proof Hok as (Hm & Hcx & Hst & Hc & Hp & _). unfold diff_Next.
  pose proof (mutable_Value_spec _ Hm) as Hval. fold (diff_current it) in Hval. rewrite Forall_forall in Hc. rewrite Forall_forall in Hp.
  assert (Hpe : pendingIteratorExhausted it = false → ∃ s, Value (pendingIterator it) = Some s
                ∧ diff_pending it = s :: it_pending (pendingIterator it)).
  { intros E. rewrite E in Hst. destruct Hst as [_ [[s Hs] _]]. exists s. split; [done|].
    unfold diff_pending, upcoming, remaining. by rewrite E, Hs. }
  assert (Hpn : pendingIteratorExhausted it = true → diff_pending it = []) by (intros E; unfold diff_pending; by rewrite E).
  destruct (currentIteratorExhausted it) eqn:Ec.
  - destruct Hcx as [Hcx _]. specialize (Hcx eq_refl). destruct (pendingIteratorExhausted it) eqn:Ep; cbn [andb].
    + exists false, it. split; [done|]. split; [done|]. unfold diff_left. by rewrite Hcx, Hpn.
    + destruct (Hpe eq_refl) as (s & _ & Es). destruct (advancePending_least it s _ Hok Es) as (it' & -> & Hok' & Hres).
      { rewrite Hcx. intros c Hcin. by apply elem_of_nil in Hcin. }
      by exists true, it'.
  - cbn [andb]. destruct (mutable_Value (currentIterator it)) as [r|] eqn:Er.
    2: { destruct Hcx as [_ Hcx]. specialize (Hcx Hval). congruence. }
    destruct Hval as [Hin Hleast]. destruct (pendingIteratorExhausted it) eqn:Ep.
    + destruct (advanceCurrent_least it r Hok Er) as (it' & -> & Hok' & Hres); [|by exists true, it'].
      rewrite Hpn by done. intros p Hpin. by apply elem_of_nil in Hpin.
    + destruct (Hpe eq_refl) as (s & -> & Es). cbn [mbind option_bind].
      destruct (Z.ltb_spec (EndTime r) (StartTime s)) as [Hlt|Hge].
      * destruct (advanceCurrent_least it r Hok Er) as (it' & -> & Hok' & Hres); [|by exists true, it'].
        intros p Hpin. pose proof (diff_pending_sorted it Hok) as Hsort. pose proof Hpin as Hpin'. rewrite Es in Hpin', Hsort.
        apply elem_of_cons in Hpin' as [->|Hpin']; [done|]. inversion Hsort as [|? ? _ Hl]; subst. rewrite Forall_forall in Hl.
        pose proof (Staker_Less_time _ _ (Hl p Hpin')). destruct (Hp p Hpin) as (? & _ & _).
        destruct (Hp s) as (? & _ & _); [rewrite Es; by left|]. lia.
      * destruct (advancePending_least it s _ Hok Es) as (it' & -> & Hok' & Hres); [|by exists true, it'].
        intros c Hcin. pose proof (not_less_time _ _ (Hleast c Hcin)). pose proof (Hc r Hin). pose proof (Hc c Hcin).
        unfold current_wf in *. lia.
Qed.

Lemma diff_events_spec : ∀ fuel it, diff_ok it → (length (diff_left it) < fuel)%nat →
  ∃ l, diff_events fuel it = Some l ∧ l ≡ₚ diff_left it ∧ sorted_by event_less l.
Proof.
  induction fuel as [|fuel IH]; intros it Hok Hf; [lia|]. cbn [diff_events].
  destruct (diff_Next_spec it Hok) as (ok & it' & -> & Hok' & Hres). cbn [mbind option_bind]. destruct ok.
  - destruct Hres as (s & b & -> & Hp & Hleast). cbn [mbind option_bind]. pose proof (Permutation_length Hp) as Hlen.
    simpl in Hlen. destruct (IH it' Hok' ltac:(lia)) as (l & -> & Hl & Hs). cbn [mbind option_bind].
    eexists. split; [done|]. split; [by rewrite Hp, Hl|]. constructor; [done|]. apply Forall_forall. intros e He.
    apply Hleast. by rewrite <- Hl.
  - exists []. rewrite Hres. split; [done|]. split; [done|constructor].
Qed.
End events.

(** C14. The staker diff iterator reports, in as many calls of [Next] as there are events and
    one more, every event that time will bring about on the current staker set: each pending
    staker is added once, and each current and each added staker is removed once.  The events
    come in the documented order: by time, additions before removals at the same time,
    further ties by the order of the stakers.  The stakers must be as their constructors make
    them: current ones leave at their end time, pending ones start at their start time, not
    after their end time, with a priority of the pending set; transactions are distinct. *)
Theorem staker_diff_events {I J} {SI : StakerIterator I} {SJ : StakerIterator J} {LI : IteratorLaws SI} {LJ : IteratorLaws SJ}
    (current : I) (pending : J) (fuel : nat) :
  it_ok current → it_ok pending →
  sorted_by Staker_Less (it_pending current) → sorted_by Staker_Less (it_pending pending) →
  Forall current_wf (it_pending current) → Forall pending_wf (it_pending pending) →
  distinct (it_pending current ++ it_pending pending) →
  (length (it_pending current) + 2 * length (it_pending pending) < fuel)%nat →
  ∃ it l, NewStakerDiffIterator current pending = Some it ∧ diff_events fuel it = Some l
    ∧ l ≡ₚ events_of (it_pending current) (it_pending pending) ∧ sorted_by event_less l.
Proof.
  intros Hoc Hop Hsc Hsp Hwc Hwp Hd Hf. unfold NewStakerDiffIterator.
  destruct (mutable_init current Hoc Hsc) as (ok & m & -> & Hm & Hall & Hb). cbn [mbind option_bind].
  destruct (Next pending) as [okp pending'] eqn:En. destruct (standing_Next pending okp pending' Hop Hsp En) as [Hst Hup].
  set (it := mkDiffIterator _ _ _ _ _ _). exists it.
  assert (Hcur : diff_current it ≡ₚ it_pending current) by done.
  assert (Hpend : diff_pending it = it_pending pending) by done.
  assert (Hok : diff_ok it).
  { unfold diff_ok. rewrite Hpend. split_and!; [done|by apply exhausted_iff|done|by rewrite Hcur|done|by rewrite Hcur]. }
  destruct (diff_events_spec fuel it Hok) as (l & El & Hl & Hs).
  { unfold diff_left, events_of. rewrite Hpend. rewrite length_app, !length_fmap, length_app, length_fmap, (Permutation_length Hcur). lia. }
  exists l. split; [done|]. split; [done|]. split; [|done]. rewrite Hl. unfold diff_left. by rewrite Hpend, Hcur.
Qed.

(** One validator leaves at 5; another starts at 5 and leaves at 9. *)
Definition sample_current : Staker := mkStaker [1] [1] None [] 10 0 5 0 5 PrimaryNetworkValidatorCurrentPriority.
Definition sample_pending : Staker := mkStaker [2] [2] None [] 10 5 9 0 5 PrimaryNetworkValidatorPendingPriority.

Lemma staker_diff_events_witness :
  ∃ it l, NewStakerDiffIterator (TreeIterator None [sample_current]) (TreeIterator None [sample_pending]) = Some it
    ∧ diff_events 4 it = Some l ∧ l ≡ₚ events_of [sample_current] [sample_pending] ∧ sorted_by event_less l.
Proof.
  assert (H1 : sorted_by Staker_Less [sample_current]) by repeat constructor.
  assert (H2 : sorted_by Staker_Less [sample_pending]) by repeat constructor.
  assert (H3 : Forall current_wf [sample_current]) by repeat constructor.
  assert (H4 : Forall pending_wf [sample_pending]) by (repeat constructor; discriminate).
  assert (H5 : distinct ([sample_current] ++ [sample_pending])) by (apply (bool_decide_unpack _); vm_compute; exact I).
  assert (H6 : (1 + 2 * 1 < 4)%nat) by lia.
  exact (staker_diff_events (LI := tree_iterator_laws) (LJ := tree_iterator_laws)
           (TreeIterator None [sample_current]) (TreeIterator None [sample_pending]) 4
           I I H1 H2 H3 H4 H5 H6).
Defined.
