(* ===== verification/Stakers.v ===== *)
(** * The staker sets of the P-chain

    [vms/platformvm/state/stakers.go] and [staker_status.go]: the staker set of the last
    accepted state ([baseStakers]) and the changes to it that a block which is not accepted
    makes ([diffStakers]).

    The class [Stakers] is what a state offers for one of its two sets, current or pending;
    its laws speak of an abstract set of stakers, and [baseStakers] has them.  That diffs keep
    them is shown in [StakerStack.v].

    The maps hold pointers which are shared with nothing else: changing the entry in place is
    storing the changed entry.  A nil map reads like an empty one. *)

From S2P Require Import Prelude Btree Database StakerIterators.

Open Scope Z_scope.

Inductive diffValidatorStatus := unmodified | added | deleted.

#[export] Instance diffValidatorStatus_eq_dec : EqDecision diffValidatorStatus.
Proof. solve_decision. Defined.

(** Two-level maps: subnet, node *)
Notation nested A := (gmap bytes (gmap bytes A)).

Definition nested_lookup {A} (m : nested A) (s n : bytes) : option A := subnet ← m !! s; subnet !! n.

Definition nested_insert {A} (m : nested A) (s n : bytes) (x : A) : nested A :=
  <[s := <[n := x]> (default ∅ (m !! s))]> m.

(** ** The operations *)

Section operations.
Context {B : BTree Staker}.

Record diffValidator := mkDiffValidator {
  validatorStatus : diffValidatorStatus;
  dv_validator : option Staker;
  addedDelegators : option bt_t;
  deletedDelegators : gmap bytes Staker;
}.

Definition emptyDiff : diffValidator := mkDiffValidator unmodified None None ∅.

Record baseStaker := mkBaseStaker { bs_validator : option Staker; bs_delegators : option bt_t }.

Record baseStakers := mkBaseStakers {
  validators : nested baseStaker;
  stakers : bt_t;
  base_validatorDiffs : nested diffValidator;
}.

Definition newBaseStakers : baseStakers := mkBaseStakers ∅ bt_NewG ∅.

(** *** [baseStakers] *)

Definition base_GetValidator (v : baseStakers) (subnetID nodeID : bytes) : result db_error Staker :=
  match validators v !! subnetID with
  | None => Err ErrNotFound
  | Some subnetValidators =>
      match subnetValidators !! nodeID with
      | None => Err ErrNotFound
      | Some validator =>
          match bs_validator validator with
          | None => Err ErrNotFound
          | Some staker => Ok staker
          end
      end
  end.

(** The entry at a subnet and a node; the maps get the entry when they do not have it. *)
Definition getOrCreateValidator (v : baseStakers) (subnetID nodeID : bytes) : baseStaker * baseStakers :=
  let subnetValidators := default ∅ (validators v !! subnetID) in
  let validator := default (mkBaseStaker None None) (subnetValidators !! nodeID) in
  (validator,
   mkBaseStakers (<[subnetID := <[nodeID := validator]> subnetValidators]> (validators v)) (stakers v) (base_validatorDiffs v)).

Definition base_getOrCreateValidatorDiff (v : baseStakers) (subnetID nodeID : bytes) : diffValidator * baseStakers :=
  let subnetValidatorDiffs := default ∅ (base_validatorDiffs v !! subnetID) in
  let validatorDiff := default emptyDiff (subnetValidatorDiffs !! nodeID) in
  (validatorDiff,
   mkBaseStakers (validators v) (stakers v)
     (<[subnetID := <[nodeID := validatorDiff]> subnetValidatorDiffs]> (base_validatorDiffs v))).

(** Assignments through the pointers *)
Definition set_validator (v : baseStakers) (subnetID nodeID : bytes) (validator : baseStaker) : baseStakers :=
  mkBaseStakers (nested_insert (validators v) subnetID nodeID validator) (stakers v) (base_validatorDiffs v).
Definition base_set_diff (v : baseStakers) (subnetID nodeID : bytes) (validatorDiff : diffValidator) : baseStakers :=
  mkBaseStakers (validators v) (stakers v) (nested_insert (base_validatorDiffs v) subnetID nodeID validatorDiff).
Definition set_stakers (v : baseStakers) (tree : bt_t) : baseStakers :=
  mkBaseStakers (validators v) tree (base_validatorDiffs v).

Definition pruneValidator (v : baseStakers) (subnetID nodeID : bytes) : baseStakers :=
  match validators v !! subnetID with
  | None => v
  | Some subnetValidators =>
      match subnetValidators !! nodeID with
      | None => v
      | Some validator =>
          match bs_validator validator with
          | Some _ => v
          | None =>
              if match bs_delegators validator with Some tree => 0 <? bt_Len tree | None => false end then v
              else
                let subnetValidators := delete nodeID subnetValidators in
                mkBaseStakers
                  (if decide (subnetValidators = ∅) then delete subnetID (validators v)
                   else <[subnetID := subnetValidators]> (validators v))
                  (stakers v) (base_validatorDiffs v)
          end
      end
  end.

Definition base_PutValidator (v : baseStakers) (staker : Staker) : baseStakers :=
  let '(validator, v) := getOrCreateValidator v (SubnetID staker) (NodeID staker) in
  let v := set_validator v (SubnetID staker) (NodeID staker) (mkBaseStaker (Some staker) (bs_delegators validator)) in
  let '(d, v) := base_getOrCreateValidatorDiff v (SubnetID staker) (NodeID staker) in
  let v := base_set_diff v (SubnetID staker) (NodeID staker)
             (mkDiffValidator added (Some staker) (addedDelegators d) (deletedDelegators d)) in
  set_stakers v (bt_ReplaceOrInsert Staker_Less (stakers v) staker).

Definition base_DeleteValidator (v : baseStakers) (staker : Staker) : baseStakers :=
  let '(validator, v) := getOrCreateValidator v (SubnetID staker) (NodeID staker) in
  let v := set_validator v (SubnetID staker) (NodeID staker) (mkBaseStaker None (bs_delegators validator)) in
  let v := pruneValidator v (SubnetID staker) (NodeID staker) in
  let '(d, v) := base_getOrCreateValidatorDiff v (SubnetID staker) (NodeID staker) in
  let v := base_set_diff v (SubnetID staker) (NodeID staker)
             (mkDiffValidator deleted (Some staker) (addedDelegators d) (deletedDelegators d)) in
  set_stakers v (bt_Delete Staker_Less (stakers v) staker).

Definition base_GetDelegatorIterator (v : baseStakers) (subnetID nodeID : bytes) : tree_iterator :=
  match validators v !! subnetID with
  | None => EmptyIterator
  | Some subnetValidators =>
      match subnetValidators !! nodeID with
      | None => EmptyIterator
      | Some validator => NewTreeIterator (bs_delegators validator)
      end
  end.

(** A nil tree is made when it is needed. *)
Definition tree_add (tree : option bt_t) (staker : Staker) : option bt_t :=
  Some (bt_ReplaceOrInsert Staker_Less (default bt_NewG tree) staker).

Definition base_PutDelegator (v : baseStakers) (staker : Staker) : baseStakers :=
  let '(validator, v) := getOrCreateValidator v (SubnetID staker) (NodeID staker) in
  let v := set_validator v (SubnetID staker) (NodeID staker)
             (mkBaseStaker (bs_validator validator) (tree_add (bs_delegators validator) staker)) in
  let '(d, v) := base_getOrCreateValidatorDiff v (SubnetID staker) (NodeID staker) in
  let v := base_set_diff v (SubnetID staker) (NodeID staker)
             (mkDiffValidator (validatorStatus d) (dv_validator d) (tree_add (addedDelegators d) staker) (deletedDelegators d)) in
  set_stakers v (bt_ReplaceOrInsert Staker_Less (stakers v) staker).

Definition base_DeleteDelegator (v : baseStakers) (staker : Staker) : baseStakers :=
  let '(validator, v) := getOrCreateValidator v (SubnetID staker) (NodeID staker) in
  let v := set_validator v (SubnetID staker) (NodeID staker)
             (mkBaseStaker (bs_validator validator) ((λ tree, bt_Delete Staker_Less tree staker) <$> bs_delegators validator)) in
  let v := pruneValidator v (SubnetID staker) (NodeID staker) in
  let '(d, v) := base_getOrCreateValidatorDiff v (SubnetID staker) (NodeID staker) in
  let v := base_set_diff v (SubnetID staker) (NodeID staker)
             (mkDiffValidator (validatorStatus d) (dv_validator d) (addedDelegators d)
                (<[TxID staker := staker]> (deletedDelegators d))) in
  set_stakers v (bt_Delete Staker_Less (stakers v) staker).

Definition base_GetStakerIterator (v : baseStakers) : tree_iterator := NewTreeIterator (Some (stakers v)).

(** *** [diffStakers] *)

Record diffStakers := mkDiffStakers {
  validatorDiffs : nested diffValidator;
  addedStakers : option bt_t;
  deletedStakers : gmap bytes Staker;
}.

Definition emptyDiffStakers : diffStakers := mkDiffStakers ∅ None ∅.

Definition diff_GetValidator (s : diffStakers) (subnetID nodeID : bytes) : option Staker * diffValidatorStatus :=
  match validatorDiffs s !! subnetID with
  | None => (None, unmodified)
  | Some subnetValidatorDiffs =>
      match subnetValidatorDiffs !! nodeID with
      | None => (None, unmodified)
      | Some validatorDiff =>
          if decide (validatorStatus validatorDiff = added) then (dv_validator validatorDiff, added)
          else (None, validatorStatus validatorDiff)
      end
  end.

Definition getOrCreateDiff (s : diffStakers) (subnetID nodeID : bytes) : diffValidator * diffStakers :=
  let subnetValidatorDiffs := default ∅ (validatorDiffs s !! subnetID) in
  let validatorDiff := default emptyDiff (subnetValidatorDiffs !! nodeID) in
  (validatorDiff,
   mkDiffStakers (<[subnetID := <[nodeID := validatorDiff]> subnetValidatorDiffs]> (validatorDiffs s))
     (addedStakers s) (deletedStakers s)).

Definition set_diff (s : diffStakers) (subnetID nodeID : bytes) (validatorDiff : diffValidator) : diffStakers :=
  mkDiffStakers (nested_insert (validatorDiffs s) subnetID nodeID validatorDiff) (addedStakers s) (deletedStakers s).

Definition diff_PutValidator (s : diffStakers) (staker : Staker) : diffStakers :=
  let '(d, s) := getOrCreateDiff s (SubnetID staker) (NodeID staker) in
  let s := set_diff s (SubnetID staker) (NodeID staker)
             (mkDiffValidator added (Some staker) (addedDelegators d) (deletedDelegators d)) in
  mkDiffStakers (validatorDiffs s) (tree_add (addedStakers s) staker) (deletedStakers s).

(** Deleting from a nil tree or a nil validator would panic: a validator that was added is in
    the tree. *)
Definition diff_DeleteValidator (s : diffStakers) (staker : Staker) : diffStakers :=
  let '(d, s) := getOrCreateDiff s (SubnetID staker) (NodeID staker) in
  if decide (validatorStatus d = added) then
    let s := set_diff s (SubnetID staker) (NodeID staker)
               (mkDiffValidator unmodified None (addedDelegators d) (deletedDelegators d)) in
    match addedStakers s, dv_validator d with
    | Some tree, Some validator =>
        mkDiffStakers (validatorDiffs s) (Some (bt_Delete Staker_Less tree validator)) (deletedStakers s)
    | _, _ => s
    end
  else
    let s := set_diff s (SubnetID staker) (NodeID staker)
               (mkDiffValidator deleted (Some staker) (addedDelegators d) (deletedDelegators d)) in
    mkDiffStakers (validatorDiffs s) (addedStakers s) (<[TxID staker := staker]> (deletedStakers s)).

Definition diff_PutDelegator (s : diffStakers) (staker : Staker) : diffStakers :=
  let '(d, s) := getOrCreateDiff s (SubnetID staker) (NodeID staker) in
  let s := set_diff s (SubnetID staker) (NodeID staker)
             (mkDiffValidator (validatorStatus d) (dv_validator d) (tree_add (addedDelegators d) staker) (deletedDelegators d)) in
  mkDiffStakers (validatorDiffs s) (tree_add (addedStakers s) staker) (deletedStakers s).

Definition diff_DeleteDelegator (s : diffStakers) (staker : Staker) : diffStakers :=
  let '(d, s) := getOrCreateDiff s (SubnetID staker) (NodeID staker) in
  let s := set_diff s (SubnetID staker) (NodeID staker)
             (mkDiffValidator (validatorStatus d) (dv_validator d) (addedDelegators d)
                (<[TxID staker := staker]> (deletedDelegators d))) in
  mkDiffStakers (validatorDiffs s) (addedStakers s) (<[TxID staker := staker]> (deletedStakers s)).

Section diff_iterators.
Context {I : Type} {SI : StakerIterator I}.

Notation diff_iterator := (maskedIterator (I := mergedIterator (I := I + tree_iterator))).

Definition diff_GetDelegatorIterator (s : diffStakers) (parentIterator : I) (subnetID nodeID : bytes) : diff_iterator :=
  let '(addedDelegatorIterator, deletedDelegators) :=
    match validatorDiffs s !! subnetID with
    | None => (EmptyIterator, ∅)
    | Some subnetValidatorDiffs =>
        match subnetValidatorDiffs !! nodeID with
        | None => (EmptyIterator, ∅)
        | Some validatorDiff => (NewTreeIterator (addedDelegators validatorDiff), deletedDelegators validatorDiff)
        end
    end in
  NewMaskedIterator (NewMergedIterator [inl parentIterator; inr addedDelegatorIterator]) deletedDelegators.

Definition diff_GetStakerIterator (s : diffStakers) (parentIterator : I) : diff_iterator :=
  NewMaskedIterator (NewMergedIterator [inl parentIterator; inr (NewTreeIterator (addedStakers s))]) (deletedStakers s).
End diff_iterators.
End operations.

(** ** An abstract set of stakers *)

(** The validators by subnet and node, and the delegators by transaction.  [ss_used] has the
    transactions of all the stakers that were ever put, and [ss_gone] the validators that were
    removed: a transaction makes one staker, and a state does not get back a validator that
    it removed. *)
Record staker_set := mkSet {
  ss_vals : gmap (bytes * bytes) Staker;
  ss_dels : gmap bytes Staker;
  ss_used : gset bytes;
  ss_gone : gset (bytes * bytes);
}.

Definition key (x : Staker) : bytes * bytes := (SubnetID x, NodeID x).

Definition values {K} `{Countable K} (m : gmap K Staker) : list Staker := (map_to_list m).*2.
Definition at_key (sn : bytes * bytes) (l : list Staker) : list Staker := filter (λ x, key x = sn) l.
Definition all_stakers (a : staker_set) : list Staker := values (ss_vals a) ++ values (ss_dels a).

Record ss_wf (a : staker_set) : Prop := {
  wf_vals sn x : ss_vals a !! sn = Some x → key x = sn;
  wf_dels k x : ss_dels a !! k = Some x → TxID x = k;
  wf_used x : x ∈ all_stakers a → TxID x ∈ ss_used a;
  wf_distinct : distinct (all_stakers a);
}.

Definition put_validator (a : staker_set) (x : Staker) : staker_set :=
  mkSet (<[key x := x]> (ss_vals a)) (ss_dels a) ({[TxID x]} ∪ ss_used a) (ss_gone a).
Definition delete_validator (a : staker_set) (x : Staker) : staker_set :=
  mkSet (delete (key x) (ss_vals a)) (ss_dels a) (ss_used a) ({[key x]} ∪ ss_gone a).
Definition put_delegator (a : staker_set) (x : Staker) : staker_set :=
  mkSet (ss_vals a) (<[TxID x := x]> (ss_dels a)) ({[TxID x]} ∪ ss_used a) (ss_gone a).
Definition delete_delegator (a : staker_set) (x : Staker) : staker_set :=
  mkSet (ss_vals a) (delete (TxID x) (ss_dels a)) (ss_used a) (ss_gone a).

Definition can_put_validator (a : staker_set) (x : Staker) : Prop :=
  ss_vals a !! key x = None ∧ key x ∉ ss_gone a ∧ TxID x ∉ ss_used a.
Definition can_delete_validator (a : staker_set) (x : Staker) : Prop := ss_vals a !! key x = Some x.
Definition can_put_delegator (a : staker_set) (x : Staker) : Prop := TxID x ∉ ss_used a.
Definition can_delete_delegator (a : staker_set) (x : Staker) : Prop := ss_dels a !! TxID x = Some x.

(** ** What a state offers for one of its staker sets *)

Class Stakers (C I : Type) := {
  GetValidator : C → bytes → bytes → result db_error Staker;
  PutValidator : C → Staker → C;
  DeleteValidator : C → Staker → C;
  GetDelegatorIterator : C → bytes → bytes → I;
  PutDelegator : C → Staker → C;
  DeleteDelegator : C → Staker → C;
  GetStakerIterator : C → I;
}.

Class StakersLaws {C I} (S : Stakers C I) {SI : StakerIterator I} (LI : IteratorLaws SI) := {
  st_repr : C → staker_set → Prop;
  law_st_wf c a : st_repr c a → ss_wf a;
  law_GetValidator c a s n : st_repr c a →
    GetValidator c s n = match ss_vals a !! (s, n) with Some x => Ok x | None => Err ErrNotFound end;
  law_PutValidator c a x : st_repr c a → can_put_validator a x → st_repr (PutValidator c x) (put_validator a x);
  law_DeleteValidator c a x : st_repr c a → can_delete_validator a x → st_repr (DeleteValidator c x) (delete_validator a x);
  law_GetDelegatorIterator c a s n : st_repr c a →
    it_ok (GetDelegatorIterator c s n)
    ∧ it_pending (GetDelegatorIterator c s n) = in_order (at_key (s, n) (values (ss_dels a)));
  law_PutDelegator c a x : st_repr c a → can_put_delegator a x → st_repr (PutDelegator c x) (put_delegator a x);
  law_DeleteDelegator c a x : st_repr c a → can_delete_delegator a x → st_repr (DeleteDelegator c x) (delete_delegator a x);
  law_GetStakerIterator c a : st_repr c a →
    it_ok (GetStakerIterator c) ∧ it_pending (GetStakerIterator c) = in_order (all_stakers a);
}.

(** ** The values of maps *)

Section values.
Context {K : Type} `{Countable K}.
Implicit Types m : gmap K Staker.

Lemma values_insert m k x : m !! k = None → values (<[k := x]> m) ≡ₚ x :: values m.
Proof. intros E. unfold values. by rewrite map_to_list_insert. Qed.

Lemma values_delete m k x : m !! k = Some x → values m ≡ₚ x :: values (delete k m).
Proof. intros E. unfold values. by rewrite <- (map_to_list_delete m k x). Qed.

Lemma elem_of_values m x : x ∈ values m ↔ ∃ k, m !! k = Some x.
Proof.
  unfold values. rewrite list_elem_of_fmap. split.
  - intros ([k y] & -> & E%elem_of_map_to_list). by exists k.
  - intros [k E]. exists (k, x). split; [done|]. by apply elem_of_map_to_list.
Qed.
End values.

Lemma values_distinct (m : gmap bytes Staker) : (∀ k x, m !! k = Some x → TxID x = k) → distinct (values m).
Proof.
  intros Hm. assert (TxID <$> values m = (map_to_list m).*1) as ->; [|apply NoDup_fst_map_to_list].
  unfold values. rewrite <- list_fmap_compose. apply list_fmap_ext. intros i [k x] H. cbn. apply Hm, elem_of_map_to_list.
  by eapply list_elem_of_lookup_2.
Qed.

Lemma at_key_cons sn x l : at_key sn (x :: l) = if decide (key x = sn) then x :: at_key sn l else at_key sn l.
Proof. unfold at_key. by rewrite filter_cons. Qed.

#[export] Instance at_key_proper sn : Proper ((≡ₚ) ==> (≡ₚ)) (at_key sn).
Proof. intros l k E. unfold at_key. by rewrite E. Qed.

Lemma elem_of_at_key sn l x : x ∈ at_key sn l ↔ key x = sn ∧ x ∈ l.
Proof. unfold at_key. by rewrite list_elem_of_filter. Qed.

Lemma at_key_distinct sn l : distinct l → distinct (at_key sn l).
Proof. unfold at_key. induction l as [|x l IH]; [done|]. rewrite fmap_cons, filter_cons. intros [Hn Hd]%NoDup_cons.
  case_decide; [|auto]. rewrite fmap_cons. constructor; [|auto]. contradict Hn.
  apply list_elem_of_fmap in Hn as (y & -> & [_ Hy]%list_elem_of_filter). by apply list_elem_of_fmap_2.
Qed.

Lemma distinct_eq l x y : distinct l → x ∈ l → y ∈ l → TxID x = TxID y → x = y.
Proof.
  intros Hd Hx Hy E. apply list_elem_of_lookup in Hx as [i Hi]. apply list_elem_of_lookup in Hy as [j Hj].
  assert (i = j) as ->; [|congruence]. eapply NoDup_lookup; [exact Hd| |]; rewrite list_lookup_fmap.
  - by rewrite Hi.
  - by rewrite Hj, E.
Qed.

(** ** Trees of stakers *)

Section trees.
Context {B : BTree Staker} {BL : BTreeLaws B}.

(** The tree has the stakers of a list. *)
Definition tree_rep (t : bt_t) (l : list Staker) : Prop := sorted_by Staker_Less (bt_items t) ∧ bt_items t ≡ₚ l.
Definition opt_tree_rep (t : option bt_t) (l : list Staker) : Prop :=
  match t with None => l = [] | Some t => tree_rep t l end.

#[export] Instance tree_rep_proper t : Proper ((≡ₚ) ==> iff) (tree_rep t).
Proof. intros l k E. unfold tree_rep. by rewrite E. Qed.
#[export] Instance opt_tree_rep_proper t : Proper ((≡ₚ) ==> iff) (opt_tree_rep t).
Proof.
  intros l k E. destruct t; cbn; [by rewrite E|]. split; intros ->; [by apply Permutation_nil_r|by apply Permutation_nil_r].
Qed.

Lemma tree_rep_items t l : tree_rep t l → bt_items t = in_order l.
Proof. intros [Hs Hp]. symmetry. by apply in_order_unique. Qed.

Lemma tree_rep_new : tree_rep bt_NewG [].
Proof. unfold tree_rep. rewrite law_NewG. split; [constructor|done]. Qed.

Lemma filter_sorted {T} (R : T → T → Prop) (P : T → Prop) `{∀ x, Decision (P x)} l :
  StronglySorted R l → StronglySorted R (filter P l).
Proof.
  induction 1 as [|x l Hs IH Hx]; [constructor|]. rewrite filter_cons. case_decide; [|done]. constructor; [done|].
  rewrite Forall_forall in Hx |- *. intros y [_ Hy]%list_elem_of_filter. auto.
Qed.

Lemma tree_insert t l x : tree_rep t l → TxID x ∉ TxID <$> l → tree_rep (bt_ReplaceOrInsert Staker_Less t x) (x :: l).
Proof.
  intros [Hs Hp] Hx. unfold tree_rep. rewrite law_ReplaceOrInsert by (done || apply Staker_Less_order).
  assert (Hperm : filter (λ y, Staker_Less y x = true) (bt_items t) ++ x :: filter (λ y, Staker_Less x y = true) (bt_items t) ≡ₚ x :: bt_items t).
  { rewrite <- Permutation_middle. constructor. rewrite <- Hp in Hx. clear Hp Hs. induction (bt_items t) as [|y its IH]; [done|].
    rewrite fmap_cons in Hx. apply not_elem_of_cons in Hx as [Hne Hx]. specialize (IH Hx).
    destruct (Staker_Less y x) eqn:E1.
    - rewrite filter_cons_True, filter_cons_False by (done || by rewrite (Staker_Less_asym _ _ E1)).
      rewrite <- app_comm_cons. by rewrite IH.
    - rewrite filter_cons_False by (by rewrite E1). destruct (Staker_Less x y) eqn:E2.
      + rewrite filter_cons_True by done. by rewrite <- Permutation_middle, IH.
      + exfalso. apply Hne. by apply Staker_Less_tie. }
  split; [|by rewrite Hperm, Hp]. apply StronglySorted_app. split; [|split; [by apply filter_sorted|]].
  - intros y z [Hy _]%list_elem_of_filter Hz. apply elem_of_cons in Hz as [->|[Hz _]%list_elem_of_filter]; [done|].
    destruct Staker_Less_order as (_ & Ht & _). by apply (Ht y x z).
  - constructor; [by apply filter_sorted|]. apply Forall_forall. by intros y [Hy _]%list_elem_of_filter.
Qed.

Lemma tree_delete t l x : tree_rep t (x :: l) → tree_rep (bt_Delete Staker_Less t x) l.
Proof.
  intros [Hs Hp]. assert (x ∈ bt_items t) as Hin by (rewrite Hp; by left).
  apply list_elem_of_split in Hin as (l1 & l2 & E). unfold tree_rep.
  rewrite law_bt_Delete by (done || apply Staker_Less_order). rewrite E in *.
  rewrite sorted_delete by (done || apply Staker_Less_order). split.
  - apply StronglySorted_app in Hs as (H1 & H2 & H3). inversion H3; subst. apply StronglySorted_app.
    split; [|done]. intros y z Hy Hz. apply H1; [done|]. by right.
  - rewrite <- Permutation_middle in Hp. by apply Permutation_cons_inv in Hp.
Qed.

Lemma tree_add_rep t l x : opt_tree_rep t l → TxID x ∉ TxID <$> l → opt_tree_rep (tree_add t x) (x :: l).
Proof.
  intros Ht Hx. cbn. apply tree_insert; [|done]. destruct t; cbn in *; [done|]. subst. apply tree_rep_new.
Qed.

Lemma tree_iterator_rep t l : opt_tree_rep t l → it_pending (NewTreeIterator t) = in_order l.
Proof.
  rewrite NewTreeIterator_pending. destruct t as [t|]; cbn [opt_tree_rep]; [apply tree_rep_items|]. by intros ->.
Qed.
End trees.

(** ** The operations keep the abstract set well-formed *)

Section wf.
Implicit Types a : staker_set.

Lemma elem_of_all a x : x ∈ all_stakers a ↔ (∃ sn, ss_vals a !! sn = Some x) ∨ ∃ k, ss_dels a !! k = Some x.
Proof. unfold all_stakers. by rewrite elem_of_app, !elem_of_values. Qed.

Lemma used_fresh a x : ss_wf a → TxID x ∉ ss_used a → TxID x ∉ TxID <$> all_stakers a.
Proof.
  intros Hwf Hx (y & E & Hy)%list_elem_of_fmap. apply Hx. rewrite E. by apply (wf_used a Hwf).
Qed.

Lemma all_put_validator a x : can_put_validator a x → all_stakers (put_validator a x) ≡ₚ x :: all_stakers a.
Proof. intros (Hn & _ & _). unfold all_stakers. cbn [put_validator ss_vals ss_dels]. by rewrite values_insert. Qed.

Lemma all_delete_validator a x : can_delete_validator a x → all_stakers a ≡ₚ x :: all_stakers (delete_validator a x).
Proof. intros Hx. unfold all_stakers. cbn [delete_validator ss_vals ss_dels]. by rewrite (values_delete _ _ _ Hx). Qed.

Lemma put_delegator_fresh a x : ss_wf a → can_put_delegator a x → ss_dels a !! TxID x = None.
Proof.
  intros Hwf Hx. destruct (ss_dels a !! TxID x) as [y|] eqn:E; [|done]. exfalso. apply Hx.
  rewrite <- (wf_dels a Hwf _ _ E). apply (wf_used a Hwf), elem_of_all. right. by eexists.
Qed.

Lemma all_put_delegator a x : ss_wf a → can_put_delegator a x → all_stakers (put_delegator a x) ≡ₚ x :: all_stakers a.
Proof.
  intros Hwf Hx. unfold all_stakers. cbn [put_delegator ss_vals ss_dels].
  rewrite values_insert by (by apply put_delegator_fresh). symmetry. apply Permutation_middle.
Qed.

Lemma all_delete_delegator a x : can_delete_delegator a x → all_stakers a ≡ₚ x :: all_stakers (delete_delegator a x).
Proof.
  intros Hx. unfold all_stakers. cbn [delete_delegator ss_vals ss_dels]. rewrite (values_delete _ _ _ Hx).
  symmetry. apply Permutation_middle.
Qed.

(** Adding a staker with a new transaction, or removing one *)
Lemma wf_add a a' x : ss_wf a → TxID x ∉ ss_used a → all_stakers a' ≡ₚ x :: all_stakers a →
  ss_used a' = {[TxID x]} ∪ ss_used a →
  (∀ y, y ∈ all_stakers a' → TxID y ∈ ss_used a') ∧ distinct (all_stakers a').
Proof.
  intros Hwf Hx Hp Hu. split.
  - intros y Hy. rewrite Hp in Hy. rewrite Hu. apply elem_of_cons in Hy as [->|Hy]; [set_solver|].
    pose proof (wf_used a Hwf y Hy). set_solver.
  - rewrite Hp, fmap_cons. constructor; [by apply used_fresh|]. apply Hwf.
Qed.

Lemma wf_remove a a' x : ss_wf a → all_stakers a ≡ₚ x :: all_stakers a' → ss_used a' = ss_used a →
  (∀ y, y ∈ all_stakers a' → TxID y ∈ ss_used a') ∧ distinct (all_stakers a').
Proof.
  intros Hwf Hp Hu. split.
  - intros y Hy. rewrite Hu. apply (wf_used a Hwf). rewrite Hp. by right.
  - pose proof (wf_distinct a Hwf) as Hd. rewrite Hp, fmap_cons in Hd. by apply NoDup_cons in Hd as [_ ?].
Qed.

Lemma put_validator_wf a x : ss_wf a → can_put_validator a x → ss_wf (put_validator a x).
Proof.
  intros Hwf Hx. destruct (wf_add a (put_validator a x) x Hwf (proj2 (proj2 Hx)) (all_put_validator a x Hx) eq_refl) as [H1 H2].
  split; [|apply Hwf|done|done]. cbn [put_validator ss_vals]. intros sn y [[<- <-]|[_ E]]%lookup_insert_Some; [done|].
  by apply (wf_vals a Hwf).
Qed.

Lemma delete_validator_wf a x : ss_wf a → can_delete_validator a x → ss_wf (delete_validator a x).
Proof.
  intros Hwf Hx. destruct (wf_remove a (delete_validator a x) x Hwf (all_delete_validator a x Hx) eq_refl) as [H1 H2].
  split; [|apply Hwf|done|done]. cbn [delete_validator ss_vals]. intros sn y [_ E]%lookup_delete_Some.
  by apply (wf_vals a Hwf).
Qed.

Lemma put_delegator_wf a x : ss_wf a → can_put_delegator a x → ss_wf (put_delegator a x).
Proof.
  intros Hwf Hx. destruct (wf_add a (put_delegator a x) x Hwf Hx (all_put_delegator a x Hwf Hx) eq_refl) as [H1 H2].
  split; [apply Hwf| |done|done]. cbn [put_delegator ss_dels]. intros k y [[<- <-]|[_ E]]%lookup_insert_Some; [done|].
  by apply (wf_dels a Hwf).
Qed.

Lemma delete_delegator_wf a x : ss_wf a → can_delete_delegator a x → ss_wf (delete_delegator a x).
Proof.
  intros Hwf Hx. destruct (wf_remove a (delete_delegator a x) x Hwf (all_delete_delegator a x Hx) eq_refl) as [H1 H2].
  split; [apply Hwf| |done|done]. cbn [delete_delegator ss_dels]. intros k y [_ E]%lookup_delete_Some.
  by apply (wf_dels a Hwf).
Qed.

(** The delegators of a validator *)
Lemma dels_put a x sn : ss_wf a → can_put_delegator a x →
  at_key sn (values (ss_dels (put_delegator a x)))
  ≡ₚ if decide (key x = sn) then x :: at_key sn (values (ss_dels a)) else at_key sn (values (ss_dels a)).
Proof.
  intros Hwf Hx. cbn [put_delegator ss_dels]. rewrite values_insert by (by apply put_delegator_fresh).
  by rewrite at_key_cons.
Qed.

Lemma dels_delete a x sn : can_delete_delegator a x →
  at_key sn (values (ss_dels a))
  ≡ₚ if decide (key x = sn) then x :: at_key sn (values (ss_dels (delete_delegator a x)))
     else at_key sn (values (ss_dels (delete_delegator a x))).
Proof. intros Hx. cbn [delete_delegator ss_dels]. by rewrite (values_delete _ _ _ Hx), at_key_cons. Qed.

Lemma dels_distinct a sn : ss_wf a → distinct (at_key sn (values (ss_dels a))).
Proof.
  intros Hwf. apply at_key_distinct. pose proof (wf_distinct a Hwf) as Hd. unfold all_stakers in Hd. rewrite fmap_app in Hd.
  by apply NoDup_app in Hd as (_ & _ & ?).
Qed.

Lemma dels_fresh a x sn : ss_wf a → TxID x ∉ ss_used a → TxID x ∉ TxID <$> at_key sn (values (ss_dels a)).
Proof.
  intros Hwf Hx Hin. apply (used_fresh a x Hwf Hx). apply list_elem_of_fmap in Hin as (y & E & [_ Hy]%elem_of_at_key).
  rewrite E. apply list_elem_of_fmap_2. unfold all_stakers. apply elem_of_app. by right.
Qed.
End wf.

(** ** Two-level maps *)

Lemma nested_lookup_insert {A} (m : nested A) s n x s' n' :
  nested_lookup (nested_insert m s n x) s' n' = if decide ((s, n) = (s', n')) then Some x else nested_lookup m s' n'.
Proof.
  unfold nested_lookup, nested_insert. destruct (decide (s = s')) as [<-|Hs].
  - rewrite lookup_insert_eq. cbn [mbind option_bind]. destruct (decide (n = n')) as [<-|Hn].
    + by rewrite lookup_insert_eq, decide_True.
    + rewrite lookup_insert_ne, decide_False by (done || congruence). by destruct (m !! s).
  - by rewrite lookup_insert_ne, decide_False by (done || congruence).
Qed.

Lemma nested_insert_insert {A} (m : nested A) s n x y :
  nested_insert (nested_insert m s n x) s n y = nested_insert m s n y.
Proof. unfold nested_insert. rewrite lookup_insert_eq, insert_insert_eq. cbn [from_option id]. by rewrite insert_insert_eq. Qed.

(** No subnet has an empty map. *)
Definition no_empty {A} (m : nested A) : Prop := ∀ s, m !! s ≠ Some ∅.

Lemma no_empty_insert {A} (m : nested A) s n x : no_empty m → no_empty (nested_insert m s n x).
Proof.
  intros Hm s'. unfold nested_insert. destruct (decide (s = s')) as [<-|Hs]; [|by rewrite lookup_insert_ne].
  rewrite lookup_insert_eq. intros [= E]. by apply insert_non_empty in E.
Qed.

(** ** [baseStakers] implements the set *)

Section base.
Context {B : BTree Staker} {BL : BTreeLaws B}.
Implicit Types (v : baseStakers) (a : staker_set).

#[export] Instance base_Stakers : Stakers baseStakers tree_iterator := {|
  GetValidator := base_GetValidator;
  PutValidator := base_PutValidator;
  DeleteValidator := base_DeleteValidator;
  GetDelegatorIterator := base_GetDelegatorIterator;
  PutDelegator := base_PutDelegator;
  DeleteDelegator := base_DeleteDelegator;
  GetStakerIterator := base_GetStakerIterator;
|}.

(** The entry of a validator; an entry that has neither a validator nor delegators is
    pruned. *)
Definition entry_rep (e : option baseStaker) (validator : option Staker) (delegators : list Staker) : Prop :=
  match e with
  | None => validator = None ∧ delegators = []
  | Some e => bs_validator e = validator ∧ opt_tree_rep (bs_delegators e) delegators ∧ (validator = None → delegators ≠ [])
  end.

#[export] Instance entry_rep_proper e validator : Proper ((≡ₚ) ==> iff) (entry_rep e validator).
Proof.
  intros l k E. destruct e as [e|]; cbn [entry_rep].
  - assert (l = [] ↔ k = []) as Hn by (split; intros ->; by apply Permutation_nil_r).
    pose proof (opt_tree_rep_proper (bs_delegators e) l k E). naive_solver.
  - split; intros [? ->]; (split; [done|]); by apply Permutation_nil_r.
Qed.

Definition base_repr v a : Prop :=
  ss_wf a ∧ tree_rep (stakers v) (all_stakers a) ∧ no_empty (validators v)
  ∧ ∀ s n, entry_rep (nested_lookup (validators v) s n) (ss_vals a !! (s, n)) (at_key (s, n) (values (ss_dels a))).

Lemma default_lookup {A} (m : nested A) s n (x : A) :
  default x (default ∅ (m !! s) !! n) = default x (nested_lookup m s n).
Proof. unfold nested_lookup. by destruct (m !! s). Qed.

Lemma getOrCreateValidator_eq v s n :
  let validator := default (mkBaseStaker None None) (nested_lookup (validators v) s n) in
  getOrCreateValidator v s n = (validator, set_validator v s n validator).
Proof. unfold getOrCreateValidator, set_validator, nested_insert. by rewrite default_lookup. Qed.

Lemma base_getOrCreateValidatorDiff_eq v s n :
  let d := default emptyDiff (nested_lookup (base_validatorDiffs v) s n) in
  base_getOrCreateValidatorDiff v s n = (d, base_set_diff v s n d).
Proof. unfold base_getOrCreateValidatorDiff, base_set_diff, nested_insert. by rewrite default_lookup. Qed.

Lemma set_validator_twice v s n x y : set_validator (set_validator v s n x) s n y = set_validator v s n y.
Proof. unfold set_validator. cbn [validators stakers base_validatorDiffs]. by rewrite nested_insert_insert. Qed.

Lemma base_GetValidator_eq v s n :
  base_GetValidator v s n
  = match nested_lookup (validators v) s n with
    | Some (mkBaseStaker (Some x) _) => Ok x
    | _ => Err ErrNotFound
    end.
Proof.
  unfold base_GetValidator, nested_lookup. destruct (validators v !! s) as [m|]; [|done]. cbn [mbind option_bind].
  by destruct (m !! n) as [[[x|] ds]|].
Qed.

Lemma base_GetDelegatorIterator_eq v s n :
  base_GetDelegatorIterator v s n
  = match nested_lookup (validators v) s n with Some e => NewTreeIterator (bs_delegators e) | None => EmptyIterator end.
Proof.
  unfold base_GetDelegatorIterator, nested_lookup. destruct (validators v !! s) as [m|]; [|done]. cbn [mbind option_bind].
  by destruct (m !! n).
Qed.

(** An entry that has nothing left is pruned. *)
Lemma pruneValidator_spec v s n e validator l :
  nested_lookup (validators v) s n = Some e → bs_validator e = validator → opt_tree_rep (bs_delegators e) l →
  no_empty (validators v) →
  let v' := pruneValidator v s n in
  stakers v' = stakers v ∧ base_validatorDiffs v' = base_validatorDiffs v ∧ no_empty (validators v')
  ∧ entry_rep (nested_lookup (validators v') s n) validator l
  ∧ ∀ s' n', (s, n) ≠ (s', n') → nested_lookup (validators v') s' n' = nested_lookup (validators v) s' n'.
Proof.
  intros Hl He Ht Hne. unfold pruneValidator. pose proof Hl as Hl'. unfold nested_lookup in Hl'.
  destruct (validators v !! s) as [m|] eqn:Em; [|done]. cbn [mbind option_bind] in Hl'. rewrite Hl', He.
  destruct validator as [x|]; [rewrite Hl; done|].
  destruct (match bs_delegators e with Some tree => 0 <? bt_Len tree | None => false end) eqn:Elen.
  - rewrite Hl. split_and!; try done. cbn [entry_rep]. split_and!; try done. intros _ ->.
    destruct (bs_delegators e) as [t|]; [|done]. destruct Ht as [_ Ht]. apply Permutation_nil_r in Ht.
    by rewrite law_Len, Ht in Elen.
  - assert (l = []) as ->.
    { destruct (bs_delegators e) as [t|]; [|done]. destruct Ht as [_ Ht]. rewrite law_Len in Elen.
      apply Z.ltb_ge in Elen. destruct l; [done|]. apply Permutation_length in Ht. simpl in Ht. lia. }
    cbn [stakers base_validatorDiffs validators]. split_and!; try done.
    + case_decide as E; intros s'; [|destruct (decide (s = s')) as [<-|Hs]].
      * destruct (decide (s = s')) as [<-|Hs]; [by rewrite lookup_delete_eq|]. by rewrite lookup_delete_ne.
      * rewrite lookup_insert_eq. congruence.
      * by rewrite lookup_insert_ne.
    + unfold nested_lookup. case_decide.
      * by rewrite lookup_delete_eq.
      * rewrite lookup_insert_eq. cbn [mbind option_bind]. by rewrite lookup_delete_eq.
    + intros s' n' Hn. unfold nested_lookup. destruct (decide (s = s')) as [<-|Hs].
      * rewrite Em. cbn [mbind option_bind]. assert (n ≠ n') by congruence. case_decide as E.
        -- rewrite lookup_delete_eq. cbn [mbind option_bind]. symmetry. rewrite <- (lookup_delete_ne m n n') by done. by rewrite E.
        -- rewrite lookup_insert_eq. cbn [mbind option_bind]. by rewrite lookup_delete_ne.
      * case_decide; [by rewrite lookup_delete_ne|by rewrite lookup_insert_ne].
Qed.

(** The changes of the entry of a staker: [f] is the entry after the change. *)
Lemma base_update v a a' x f :
  base_repr v a → ss_wf a' →
  let e := default (mkBaseStaker None None) (nested_lookup (validators v) (SubnetID x) (NodeID x)) in
  (∀ s n, key x ≠ (s, n) → ss_vals a' !! (s, n) = ss_vals a !! (s, n)
     ∧ at_key (s, n) (values (ss_dels a')) ≡ₚ at_key (s, n) (values (ss_dels a))) →
  ∀ validators' stakers' diffs',
  tree_rep stakers' (all_stakers a') → no_empty validators' →
  entry_rep (nested_lookup validators' (SubnetID x) (NodeID x)) (ss_vals a' !! key x) (at_key (key x) (values (ss_dels a'))) →
  (∀ s n, key x ≠ (s, n) → nested_lookup validators' s n = nested_lookup (validators v) s n) →
  f = mkBaseStakers validators' stakers' diffs' →
  base_repr f a'.
Proof.
  intros (_ & _ & _ & He) Hwf e Hother vs ss ds Htree Hne Hentry Hsame ->. split; [done|]. split; [done|]. split; [done|].
  intros s n. cbn [validators]. destruct (decide (key x = (s, n))) as [E|E].
  - injection E as <- <-. done.
  - rewrite Hsame by done. destruct (Hother s n E) as [-> Hp]. rewrite Hp. apply He.
Qed.

(** The entry of a validator, which may have to be created *)
Lemma entry_default v a s n : base_repr v a →
  let e := default (mkBaseStaker None None) (nested_lookup (validators v) s n) in
  bs_validator e = ss_vals a !! (s, n) ∧ opt_tree_rep (bs_delegators e) (at_key (s, n) (values (ss_dels a))).
Proof.
  intros (_ & _ & _ & He). specialize (He s n). destruct (nested_lookup (validators v) s n) as [e|]; cbn [from_option id]; cbn in He.
  - by destruct He as (? & ? & _).
  - by destruct He as [-> ->].
Qed.

Ltac base_simpl := rewrite getOrCreateValidator_eq, set_validator_twice, base_getOrCreateValidatorDiff_eq.

Lemma base_PutValidator_repr v a x : base_repr v a → can_put_validator a x → base_repr (base_PutValidator v x) (put_validator a x).
Proof.
  intros Hr Hx. pose proof Hr as (Hwf & Htree & Hne & _). destruct (entry_default v a (SubnetID x) (NodeID x) Hr) as [_ Hd].
  unfold base_PutValidator. base_simpl.
  eapply (base_update v a (put_validator a x) x); [done|by apply put_validator_wf| | | | | |done].
  - intros s n Hk. cbn [put_validator ss_vals ss_dels]. by rewrite lookup_insert_ne.
  - rewrite all_put_validator by done. apply tree_insert; [done|]. apply used_fresh; [done|]. apply Hx.
  - by apply no_empty_insert.
  - cbn [base_set_diff set_validator validators]. rewrite nested_lookup_insert, decide_True by done.
    cbn [put_validator ss_vals ss_dels]. rewrite lookup_insert_eq. done.
  - intros s n Hk. cbn [base_set_diff set_validator validators]. by rewrite nested_lookup_insert, decide_False.
Qed.

Lemma base_PutDelegator_repr v a x : base_repr v a → can_put_delegator a x → base_repr (base_PutDelegator v x) (put_delegator a x).
Proof.
  intros Hr Hx. pose proof Hr as (Hwf & Htree & Hne & _). destruct (entry_default v a (SubnetID x) (NodeID x) Hr) as [Hv Hd].
  unfold base_PutDelegator. base_simpl.
  eapply (base_update v a (put_delegator a x) x); [done|by apply put_delegator_wf| | | | | |done].
  - intros s n Hk. split; [done|]. by rewrite dels_put, decide_False.
  - rewrite all_put_delegator by done. apply tree_insert; [done|]. by apply used_fresh.
  - by apply no_empty_insert.
  - cbn [base_set_diff set_validator validators]. rewrite nested_lookup_insert, decide_True by done.
    rewrite dels_put, decide_True by done. cbn [entry_rep bs_validator bs_delegators]. split; [done|]. split; [|done].
    apply tree_add_rep; [done|]. by apply dels_fresh.
  - intros s n Hk. cbn [base_set_diff set_validator validators]. by rewrite nested_lookup_insert, decide_False.
Qed.

Lemma base_DeleteValidator_repr v a x : base_repr v a → can_delete_validator a x → base_repr (base_DeleteValidator v x) (delete_validator a x).
Proof.
  intros Hr Hx. pose proof Hr as (Hwf & Htree & Hne & _). destruct (entry_default v a (SubnetID x) (NodeID x) Hr) as [_ Hd].
  unfold base_DeleteValidator. rewrite getOrCreateValidator_eq, set_validator_twice.
  match goal with |- context [pruneValidator ?v1 _ _] =>
    destruct (pruneValidator_spec v1 (SubnetID x) (NodeID x) _ None _
      ltac:(cbn [set_validator validators]; by rewrite nested_lookup_insert, decide_True) eq_refl Hd
      (no_empty_insert _ _ _ _ Hne)) as (Hs & _ & Hne' & Hentry & Hsame) end.
  rewrite base_getOrCreateValidatorDiff_eq.
  eapply (base_update v a (delete_validator a x) x); [done|by apply delete_validator_wf| | | | | |done].
  - intros s n Hk. cbn [delete_validator ss_vals ss_dels]. by rewrite lookup_delete_ne.
  - cbn [base_set_diff stakers]. rewrite Hs. apply tree_delete. by rewrite <- all_delete_validator.
  - exact Hne'.
  - cbn [delete_validator ss_vals ss_dels]. rewrite lookup_delete_eq. exact Hentry.
  - intros s n Hk. cbn [base_set_diff validators]. rewrite Hsame by done. cbn [set_validator validators].
    by rewrite nested_lookup_insert, decide_False.
Qed.

Lemma base_DeleteDelegator_repr v a x : base_repr v a → can_delete_delegator a x → base_repr (base_DeleteDelegator v x) (delete_delegator a x).
Proof.
  intros Hr Hx. pose proof Hr as (Hwf & Htree & Hne & _). destruct (entry_default v a (SubnetID x) (NodeID x) Hr) as [Hv Hd].
  fold (key x) in Hd. rewrite (dels_delete a x (key x) Hx), decide_True in Hd by done.
  unfold base_DeleteDelegator. rewrite getOrCreateValidator_eq, set_validator_twice.
  assert (Hd' : opt_tree_rep ((λ tree, bt_Delete Staker_Less tree x)
      <$> bs_delegators (default (mkBaseStaker None None) (nested_lookup (validators v) (SubnetID x) (NodeID x))))
      (at_key (key x) (values (ss_dels (delete_delegator a x))))).
  { destruct (bs_delegators _) as [t|]; [by apply tree_delete|]. done. }
  match goal with |- context [pruneValidator ?v1 _ _] =>
    destruct (pruneValidator_spec v1 (SubnetID x) (NodeID x) _ _ _
      ltac:(cbn [set_validator validators]; by rewrite nested_lookup_insert, decide_True) Hv Hd'
      (no_empty_insert _ _ _ _ Hne)) as (Hs & _ & Hne' & Hentry & Hsame) end.
  rewrite base_getOrCreateValidatorDiff_eq.
  eapply (base_update v a (delete_delegator a x) x); [done|by apply delete_delegator_wf| | | | | |done].
  - intros s n Hk. split; [done|]. rewrite (dels_delete a x (s, n) Hx). by rewrite decide_False.
  - cbn [base_set_diff stakers]. rewrite Hs. apply tree_delete. by rewrite <- all_delete_delegator.
  - exact Hne'.
  - exact Hentry.
  - intros s n Hk. cbn [base_set_diff validators]. rewrite Hsame by done. cbn [set_validator validators].
    by rewrite nested_lookup_insert, decide_False.
Qed.

#[export] Instance base_StakersLaws : StakersLaws base_Stakers tree_iterator_laws.
Proof.
  refine {| st_repr := base_repr |}.
  - by intros v a (? & _).
  - intros v a s n (_ & _ & _ & He). specialize (He s n). cbn [GetValidator base_Stakers]. rewrite base_GetValidator_eq.
    destruct (nested_lookup (validators v) s n) as [[w ds]|]; cbn in He.
    + destruct He as (<- & _). by destruct w.
    + by destruct He as [-> _].
  - exact base_PutValidator_repr.
  - exact base_DeleteValidator_repr.
  - intros v a s n (_ & _ & _ & He). specialize (He s n). split; [done|].
    cbn [GetDelegatorIterator base_Stakers]. rewrite base_GetDelegatorIterator_eq.
    destruct (nested_lookup (validators v) s n) as [e|].
    + destruct He as (_ & Ht & _). by apply tree_iterator_rep.
    + by destruct He as [_ ->].
  - exact base_PutDelegator_repr.
  - exact base_DeleteDelegator_repr.
  - intros v a (_ & Ht & _). split; [done|]. by apply (tree_iterator_rep (Some (stakers v))).
Defined.

Lemma newBaseStakers_repr used gone : base_repr newBaseStakers (mkSet ∅ ∅ used gone).
Proof.
  split; [|split; [apply tree_rep_new|split]].
  - split; cbn; try done.
    + intros x Hx. by apply elem_of_nil in Hx.
    + constructor.
  - intros s. cbn. by rewrite lookup_empty.
  - done.
Qed.
End base.
