(* ===== verification/StakerStack.v ===== *)
(** * Diffs of staker sets

    What the [diffStakers] of [Stakers.v] and the part of [diff.Apply] for one staker set
    ([vms/platformvm/state/diff.go]) do.  A diff on top of any state that implements the
    abstract staker set implements it too, so that the laws hold for a stack of diffs, one for
    each block that is processing; and applying the diff to a state with the stakers of the
    parent gives that state the stakers of the diff. *)

From S2P Require Import Prelude Btree Database StakerIterators Stakers.

Open Scope Z_scope.

(** ** [diffStakers] on top of a state *)

(** What a diff changes: the validators and the delegators that it adds and deletes *)
Record changes := mkChanges {
  ch_addV : gmap (bytes * bytes) Staker;
  ch_delV : gmap (bytes * bytes) Staker;
  ch_addD : gmap bytes Staker;
  ch_delD : gmap bytes Staker;
}.

Definition ch_added (ch : changes) : list Staker := values (ch_addV ch) ++ values (ch_addD ch).

(** The changes take the set [a0] to the set [a1]. *)
Record changes_ok (ch : changes) (a0 a1 : staker_set) : Prop := {
  ch_wf0 : ss_wf a0;
  ch_wf1 : ss_wf a1;
  ch_vals sn : ss_vals a1 !! sn
    = match ch_addV ch !! sn with
      | Some x => Some x
      | None => match ch_delV ch !! sn with Some _ => None | None => ss_vals a0 !! sn end
      end;
  ch_dels k : ss_dels a1 !! k
    = match ch_delD ch !! k with
      | Some _ => None
      | None => match ch_addD ch !! k with Some x => Some x | None => ss_dels a0 !! k end
      end;
  ch_addV_ok sn x : ch_addV ch !! sn = Some x → key x = sn ∧ ss_vals a0 !! sn = None ∧ sn ∉ ss_gone a1;
  ch_delV_ok sn x : ch_delV ch !! sn = Some x → ss_vals a0 !! sn = Some x ∧ sn ∈ ss_gone a1;
  ch_addD_ok k x : ch_addD ch !! k = Some x → TxID x = k;
  ch_delD_ok k x : ch_delD ch !! k = Some x → ss_dels a0 !! k = Some x ∨ ch_addD ch !! k = Some x;
  ch_added_new x : x ∈ ch_added ch → TxID x ∉ ss_used a0 ∧ TxID x ∈ ss_used a1;
  ch_added_distinct : distinct (ch_added ch);
  ch_used : ss_used a0 ⊆ ss_used a1;
}.

Definition empty_changes : changes := mkChanges ∅ ∅ ∅ ∅.

Section changes.
Context (a0 : staker_set).
Implicit Types (ch : changes) (a : staker_set).

Lemma empty_changes_ok gone : ss_wf a0 → changes_ok empty_changes a0 (mkSet (ss_vals a0) (ss_dels a0) (ss_used a0) gone).
Proof.
  intros Hwf. split; try done.
  - by split; apply Hwf.
  - intros x Hx. by apply elem_of_nil in Hx.
  - constructor.
Qed.

Definition ch_put_validator ch x : changes := mkChanges (<[key x := x]> (ch_addV ch)) (ch_delV ch) (ch_addD ch) (ch_delD ch).
Definition ch_drop_validator ch x : changes := mkChanges (delete (key x) (ch_addV ch)) (ch_delV ch) (ch_addD ch) (ch_delD ch).
Definition ch_delete_validator ch x : changes := mkChanges (ch_addV ch) (<[key x := x]> (ch_delV ch)) (ch_addD ch) (ch_delD ch).
Definition ch_put_delegator ch x : changes := mkChanges (ch_addV ch) (ch_delV ch) (<[TxID x := x]> (ch_addD ch)) (ch_delD ch).
Definition ch_delete_delegator ch x : changes := mkChanges (ch_addV ch) (ch_delV ch) (ch_addD ch) (<[TxID x := x]> (ch_delD ch)).

Lemma elem_of_added ch x : x ∈ ch_added ch ↔ (∃ sn, ch_addV ch !! sn = Some x) ∨ ∃ k, ch_addD ch !! k = Some x.
Proof. unfold ch_added. by rewrite elem_of_app, !elem_of_values. Qed.

(** A transaction that was not used is not that of an added staker. *)
Lemma added_fresh ch a x : changes_ok ch a0 a → TxID x ∉ ss_used a → TxID x ∉ TxID <$> ch_added ch.
Proof.
  intros Hch Hx (y & E & Hy)%list_elem_of_fmap. apply Hx. rewrite E. by apply (ch_added_new _ _ _ Hch).
Qed.

Lemma added_grow ch ch' a used x : changes_ok ch a0 a → TxID x ∉ ss_used a → ch_added ch' ≡ₚ x :: ch_added ch →
  used = {[TxID x]} ∪ ss_used a →
  (∀ y, y ∈ ch_added ch' → TxID y ∉ ss_used a0 ∧ TxID y ∈ used) ∧ distinct (ch_added ch').
Proof.
  intros Hch Hx Hp ->. split.
  - intros y Hy. rewrite Hp in Hy. pose proof (ch_used _ _ _ Hch). apply elem_of_cons in Hy as [->|Hy]; [set_solver|].
    pose proof (ch_added_new _ _ _ Hch y Hy). set_solver.
  - rewrite Hp, fmap_cons. constructor; [by eapply added_fresh|]. apply Hch.
Qed.

Lemma ch_fresh_addV ch a x : changes_ok ch a0 a → can_put_validator a x → ch_addV ch !! key x = None ∧ ch_delV ch !! key x = None.
Proof.
  intros Hch (Hv & Hg & _). rewrite (ch_vals _ _ _ Hch) in Hv.
  destruct (ch_addV ch !! key x); [done|]. destruct (ch_delV ch !! key x) as [y|] eqn:E; [|done].
  exfalso. by apply Hg, (ch_delV_ok _ _ _ Hch _ _ E).
Qed.

Lemma ch_fresh_addD ch a x : changes_ok ch a0 a → TxID x ∉ ss_used a →
  ch_addD ch !! TxID x = None ∧ ss_dels a0 !! TxID x = None ∧ ch_delD ch !! TxID x = None.
Proof.
  intros Hch Hx. assert (HA : ch_addD ch !! TxID x = None).
  { destruct (ch_addD ch !! TxID x) as [y|] eqn:E; [|done]. exfalso. apply Hx.
    rewrite <- (ch_addD_ok _ _ _ Hch _ _ E). apply (ch_added_new _ _ _ Hch), elem_of_added. right. by eexists. }
  assert (H0 : ss_dels a0 !! TxID x = None).
  { destruct (ss_dels a0 !! TxID x) as [y|] eqn:E; [|done]. exfalso. apply Hx.
    rewrite <- (wf_dels _ (ch_wf0 _ _ _ Hch) _ _ E). apply (ch_used _ _ _ Hch), (wf_used _ (ch_wf0 _ _ _ Hch)), elem_of_all.
    right. by eexists. }
  split; [done|]. split; [done|]. destruct (ch_delD ch !! TxID x) as [y|] eqn:E; [|done].
  destruct (ch_delD_ok _ _ _ Hch _ _ E); congruence.
Qed.

Lemma ch_put_validator_ok ch a x : changes_ok ch a0 a → can_put_validator a x →
  changes_ok (ch_put_validator ch x) a0 (put_validator a x).
Proof.
  intros Hch Hx. destruct (ch_fresh_addV ch a x Hch Hx) as [HA HD]. destruct Hx as (Hv & Hg & Hu).
  assert (H0 : ss_vals a0 !! key x = None) by (rewrite (ch_vals _ _ _ Hch), HA, HD in Hv; done).
  destruct (added_grow ch (ch_put_validator ch x) a ({[TxID x]} ∪ ss_used a) x Hch Hu) as [Hn Hd]; [|done|].
  { unfold ch_added. cbn [ch_put_validator ch_addV ch_addD]. by rewrite values_insert. }
  split; cbn [ch_put_validator ch_addV ch_delV ch_addD ch_delD put_validator ss_vals ss_dels ss_used ss_gone];
    try apply Hch; try done.
  - apply put_validator_wf; [apply Hch|done].
  - intros sn. destruct (decide (key x = sn)) as [<-|E]; [by rewrite !lookup_insert_eq|]. rewrite !lookup_insert_ne by done. apply Hch.
  - intros sn y [[<- <-]|[_ E]]%lookup_insert_Some; [done|]. by apply Hch.
  - pose proof (ch_used _ _ _ Hch). set_solver.
Qed.

Lemma ch_drop_validator_ok ch a x : changes_ok ch a0 a → can_delete_validator a x → ch_addV ch !! key x = Some x →
  changes_ok (ch_drop_validator ch x) a0 (delete_validator a x).
Proof.
  intros Hch Hx HA. destruct (ch_addV_ok _ _ _ Hch _ _ HA) as (_ & H0 & _).
  assert (Hp : ch_added ch ≡ₚ x :: ch_added (ch_drop_validator ch x)).
  { unfold ch_added. cbn [ch_drop_validator ch_addV ch_addD]. by rewrite (values_delete _ _ _ HA). }
  split; cbn [ch_drop_validator ch_addV ch_delV ch_addD ch_delD delete_validator ss_vals ss_dels ss_used ss_gone];
    try apply Hch; try done.
  - apply delete_validator_wf; [apply Hch|done].
  - intros sn. destruct (decide (key x = sn)) as [<-|E].
    + rewrite !lookup_delete_eq. destruct (ch_delV ch !! key x) as [y|]; [done|]. by rewrite H0.
    + rewrite !lookup_delete_ne by done. apply Hch.
  - intros sn y [Hn E]%lookup_delete_Some. destruct (ch_addV_ok _ _ _ Hch _ _ E) as (? & ? & ?). set_solver.
  - intros sn y E. destruct (ch_delV_ok _ _ _ Hch _ _ E). set_solver.
  - intros y Hy. apply (ch_added_new _ _ _ Hch). rewrite Hp. by right.
  - pose proof (ch_added_distinct _ _ _ Hch) as Hd. rewrite Hp, fmap_cons in Hd. by apply NoDup_cons in Hd as [_ ?].
Qed.

Lemma ch_delete_validator_ok ch a x : changes_ok ch a0 a → can_delete_validator a x → ch_addV ch !! key x = None →
  changes_ok (ch_delete_validator ch x) a0 (delete_validator a x).
Proof.
  intros Hch Hx HA. pose proof Hx as H0. unfold can_delete_validator in H0. rewrite (ch_vals _ _ _ Hch), HA in H0.
  destruct (ch_delV ch !! key x) as [y|] eqn:HD; [done|].
  split; cbn [ch_delete_validator ch_addV ch_delV ch_addD ch_delD delete_validator ss_vals ss_dels ss_used ss_gone];
    try apply Hch; try done.
  - apply delete_validator_wf; [apply Hch|done].
  - intros sn. destruct (decide (key x = sn)) as [<-|E].
    + by rewrite lookup_delete_eq, lookup_insert_eq, HA.
    + rewrite lookup_delete_ne, lookup_insert_ne by done. apply Hch.
  - intros sn y E. destruct (ch_addV_ok _ _ _ Hch _ _ E) as (? & ? & ?). assert (key x ≠ sn) by congruence. set_solver.
  - intros sn y [[<- <-]|[_ E]]%lookup_insert_Some; [split; [done|set_solver]|].
    destruct (ch_delV_ok _ _ _ Hch _ _ E). set_solver.
Qed.

Lemma ch_put_delegator_ok ch a x : changes_ok ch a0 a → can_put_delegator a x →
  changes_ok (ch_put_delegator ch x) a0 (put_delegator a x).
Proof.
  intros Hch Hx. destruct (ch_fresh_addD ch a x Hch Hx) as (HA & H0 & HD).
  destruct (added_grow ch (ch_put_delegator ch x) a ({[TxID x]} ∪ ss_used a) x Hch Hx) as [Hn Hd]; [|done|].
  { unfold ch_added. cbn [ch_put_delegator ch_addV ch_addD]. rewrite values_insert by done. symmetry. apply Permutation_middle. }
  split; cbn [ch_put_delegator ch_addV ch_delV ch_addD ch_delD put_delegator ss_vals ss_dels ss_used ss_gone];
    try apply Hch; try done.
  - apply put_delegator_wf; [apply Hch|done].
  - intros k. destruct (decide (TxID x = k)) as [<-|E]; [by rewrite HD, !lookup_insert_eq|]. rewrite !lookup_insert_ne by done. apply Hch.
  - intros k y [[<- <-]|[_ E]]%lookup_insert_Some; [done|]. by apply (ch_addD_ok _ _ _ Hch).
  - intros k y E. destruct (ch_delD_ok _ _ _ Hch _ _ E) as [?|E']; [by left|right].
    rewrite lookup_insert_ne; [done|]. intros <-. congruence.
  - pose proof (ch_used _ _ _ Hch). set_solver.
Qed.

Lemma ch_delete_delegator_ok ch a x : changes_ok ch a0 a → can_delete_delegator a x →
  changes_ok (ch_delete_delegator ch x) a0 (delete_delegator a x).
Proof.
  intros Hch Hx. pose proof Hx as Hx'. unfold can_delete_delegator in Hx'. rewrite (ch_dels _ _ _ Hch) in Hx'.
  destruct (ch_delD ch !! TxID x) as [y|] eqn:HD; [done|].
  split; cbn [ch_delete_delegator ch_addV ch_delV ch_addD ch_delD delete_delegator ss_vals ss_dels ss_used ss_gone];
    try apply Hch; try done.
  - apply delete_delegator_wf; [apply Hch|done].
  - intros k. destruct (decide (TxID x = k)) as [<-|E]; [by rewrite lookup_delete_eq, lookup_insert_eq|].
    rewrite lookup_delete_ne, lookup_insert_ne by done. apply Hch.
  - intros k y [[<- <-]|[_ E]]%lookup_insert_Some; [|by apply Hch].
    destruct (ch_addD ch !! TxID x); [right; congruence|by left].
Qed.
End changes.

Section diff.
Context {B : BTree Staker} {BL : BTreeLaws B}.
Implicit Types (d : diffStakers) (ch : changes) (a : staker_set).

Definition status_rep (dv : diffValidator) (added_v deleted_v : option Staker) : Prop :=
  match validatorStatus dv with
  | unmodified => added_v = None ∧ deleted_v = None
  | added => is_Some added_v ∧ added_v = dv_validator dv ∧ deleted_v = None
  | deleted => is_Some deleted_v ∧ deleted_v = dv_validator dv ∧ added_v = None
  end.

Definition diff_entry d (s n : bytes) : diffValidator := default emptyDiff (nested_lookup (validatorDiffs d) s n).

Definition entry_ok (dv : diffValidator) ch (sn : bytes * bytes) : Prop :=
  status_rep dv (ch_addV ch !! sn) (ch_delV ch !! sn)
  ∧ opt_tree_rep (addedDelegators dv) (at_key sn (values (ch_addD ch)))
  ∧ deletedDelegators dv = filter (λ p, key p.2 = sn) (ch_delD ch).

Definition deleted_rep (m : gmap bytes Staker) ch : Prop :=
  ∀ k, is_Some (m !! k) ↔ is_Some (ch_delD ch !! k) ∨ ∃ sn x, ch_delV ch !! sn = Some x ∧ TxID x = k.

(** The diff records the changes. *)
Definition diff_rep d ch : Prop :=
  (∀ s n, entry_ok (diff_entry d s n) ch (s, n))
  ∧ opt_tree_rep (addedStakers d) (ch_added ch) ∧ deleted_rep (deletedStakers d) ch.

Lemma emptyDiffStakers_rep : diff_rep emptyDiffStakers empty_changes.
Proof.
  split; [|split; [done|]].
  - intros s n. unfold diff_entry, nested_lookup. cbn. done.
  - intros k. cbn. rewrite !lookup_empty. split; [by left|]. intros [?|(sn & x & [=] & _)]; done.
Qed.

Lemma getOrCreateDiff_eq d s n : getOrCreateDiff d s n = (diff_entry d s n, set_diff d s n (diff_entry d s n)).
Proof. unfold getOrCreateDiff, set_diff, nested_insert, diff_entry. by rewrite default_lookup. Qed.

Lemma set_diff_twice d s n x y : set_diff (set_diff d s n x) s n y = set_diff d s n y.
Proof. unfold set_diff. cbn [validatorDiffs addedStakers deletedStakers]. by rewrite nested_insert_insert. Qed.

(** Changing the entry of [x] *)
Lemma diff_update d ch ch' x dv added' deleted' :
  diff_rep d ch → entry_ok dv ch' (key x) →
  (∀ sn, key x ≠ sn → ch_addV ch' !! sn = ch_addV ch !! sn ∧ ch_delV ch' !! sn = ch_delV ch !! sn
     ∧ at_key sn (values (ch_addD ch')) ≡ₚ at_key sn (values (ch_addD ch))
     ∧ filter (λ p, key p.2 = sn) (ch_delD ch') = filter (λ p, key p.2 = sn) (ch_delD ch)) →
  opt_tree_rep added' (ch_added ch') → deleted_rep deleted' ch' →
  diff_rep (mkDiffStakers (validatorDiffs (set_diff d (SubnetID x) (NodeID x) dv)) added' deleted') ch'.
Proof.
  intros (He & _ & _) Hx Hother Ha Hd. split; [|done]. intros s n. unfold diff_entry. cbn [validatorDiffs set_diff].
  rewrite nested_lookup_insert. destruct (decide ((SubnetID x, NodeID x) = (s, n))) as [E|E].
  - rewrite <- E. exact Hx.
  - destruct (Hother (s, n) E) as (H1 & H2 & H3 & H4). unfold entry_ok. rewrite H1, H2, H3, H4. apply He.
Qed.

Lemma diff_PutValidator_rep a0 a d ch x : diff_rep d ch → changes_ok ch a0 a → can_put_validator a x →
  diff_rep (diff_PutValidator d x) (ch_put_validator ch x).
Proof.
  intros Hd Hch Hx. destruct (ch_fresh_addV a0 ch a x Hch Hx) as [HA HD]. pose proof Hd as (He & Ha & Hdel).
  specialize (He (SubnetID x) (NodeID x)) as (_ & He2 & He3).
  unfold diff_PutValidator. rewrite getOrCreateDiff_eq, set_diff_twice. apply diff_update with (ch := ch); [done| | | |].
  - unfold entry_ok. cbn [ch_put_validator ch_addV ch_delV ch_addD ch_delD addedDelegators deletedDelegators].
    split; [|done]. unfold status_rep. cbn [validatorStatus dv_validator]. rewrite lookup_insert_eq. by split.
  - intros sn Hsn. cbn [ch_put_validator ch_addV ch_delV ch_addD ch_delD]. by rewrite lookup_insert_ne.
  - assert (ch_added (ch_put_validator ch x) ≡ₚ x :: ch_added ch) as ->.
    { unfold ch_added. cbn [ch_put_validator ch_addV ch_addD]. by rewrite values_insert. }
    apply tree_add_rep; [done|]. eapply added_fresh; [done|]. apply Hx.
  - done.
Qed.

Lemma diff_PutDelegator_rep a0 a d ch x : diff_rep d ch → changes_ok ch a0 a → can_put_delegator a x →
  diff_rep (diff_PutDelegator d x) (ch_put_delegator ch x).
Proof.
  intros Hd Hch Hx. destruct (ch_fresh_addD a0 ch a x Hch Hx) as (HA & _ & HD). pose proof Hd as (He & Ha & Hdel).
  specialize (He (SubnetID x) (NodeID x)) as (He1 & He2 & He3). pose proof (added_fresh a0 ch a x Hch Hx) as Hf.
  unfold diff_PutDelegator. rewrite getOrCreateDiff_eq, set_diff_twice. apply diff_update with (ch := ch); [done| | | |].
  - unfold entry_ok. cbn [ch_put_delegator ch_addV ch_delV ch_addD ch_delD addedDelegators deletedDelegators].
    split; [done|]. split; [|done]. rewrite values_insert, at_key_cons, decide_True by done. apply tree_add_rep; [done|].
    contradict Hf. apply list_elem_of_fmap in Hf as (y & -> & [_ Hy]%elem_of_at_key). apply list_elem_of_fmap_2.
    unfold ch_added. apply elem_of_app. by right.
  - intros sn Hsn. cbn [ch_put_delegator ch_addV ch_delV ch_addD ch_delD].
    rewrite values_insert, at_key_cons, decide_False by done. done.
  - assert (ch_added (ch_put_delegator ch x) ≡ₚ x :: ch_added ch) as ->.
    { unfold ch_added. cbn [ch_put_delegator ch_addV ch_addD]. rewrite values_insert by done. symmetry. apply Permutation_middle. }
    by apply tree_add_rep.
  - done.
Qed.

Lemma diff_DeleteDelegator_rep a0 a d ch x : diff_rep d ch → changes_ok ch a0 a → can_delete_delegator a x →
  diff_rep (diff_DeleteDelegator d x) (ch_delete_delegator ch x).
Proof.
  intros Hd Hch Hx. pose proof Hd as (He & Ha & Hdel). specialize (He (SubnetID x) (NodeID x)) as (He1 & He2 & He3).
  assert (HD : ch_delD ch !! TxID x = None).
  { unfold can_delete_delegator in Hx. rewrite (ch_dels _ _ _ Hch) in Hx. by destruct (ch_delD ch !! TxID x). }
  unfold diff_DeleteDelegator. rewrite getOrCreateDiff_eq, set_diff_twice. apply diff_update with (ch := ch); [done| | |done|].
  - unfold entry_ok. cbn [ch_delete_delegator ch_addV ch_delV ch_addD ch_delD addedDelegators deletedDelegators].
    split; [done|]. split; [done|]. rewrite He3. by rewrite map_filter_insert_True.
  - intros sn Hsn. cbn [ch_delete_delegator ch_addV ch_delV ch_addD ch_delD]. split_and!; try done.
    rewrite map_filter_insert_False by done. by rewrite delete_id.
  - intros k. cbn [ch_delete_delegator ch_delV ch_delD]. specialize (Hdel k). rewrite !lookup_insert.
    case_decide; [|done]. split; [|by eexists]. intros _. left. by eexists.
Qed.

Lemma deleted_rep_validator m ch x : deleted_rep m ch → ch_delV ch !! key x = None →
  deleted_rep (<[TxID x := x]> m) (ch_delete_validator ch x).
Proof.
  intros Hm HD k. cbn [ch_delete_validator ch_delV ch_delD]. specialize (Hm k). rewrite lookup_insert. case_decide as E.
  - split; [|by eexists]. intros _. right. exists (key x), x. by rewrite lookup_insert_eq.
  - rewrite Hm. split; (intros [?|(sn & y & Hy & E')]; [by left|right]).
    + exists sn, y. split; [|done]. rewrite lookup_insert_ne; [done|]. intros <-. congruence.
    + exists sn, y. apply lookup_insert_Some in Hy as [[_ <-]|[_ Hy]]; done.
Qed.

(** A validator that was added in the diff is dropped from it; another one is recorded as
    deleted. *)
Lemma diff_DeleteValidator_rep a0 a d ch x : diff_rep d ch → changes_ok ch a0 a → can_delete_validator a x →
  ∃ ch', diff_rep (diff_DeleteValidator d x) ch' ∧ changes_ok ch' a0 (delete_validator a x).
Proof.
  intros Hd Hch Hx. pose proof Hd as (He & Ha & Hdel). specialize (He (SubnetID x) (NodeID x)) as (He1 & He2 & He3).
  fold (key x) in *. unfold diff_DeleteValidator. rewrite getOrCreateDiff_eq, !set_diff_twice.
  pose proof Hx as Hx'. unfold can_delete_validator in Hx'. rewrite (ch_vals _ _ _ Hch) in Hx'. unfold status_rep in He1.
  case_decide as E.
  - rewrite E in He1. destruct He1 as ([y Hy] & E1 & HD). rewrite Hy in Hx', E1. injection Hx' as ->. rewrite <- E1.
    cbn [set_diff addedStakers deletedStakers]. exists (ch_drop_validator ch x). split; [|by apply ch_drop_validator_ok].
    assert (Hp : ch_added ch ≡ₚ x :: ch_added (ch_drop_validator ch x)).
    { unfold ch_added. cbn [ch_drop_validator ch_addV ch_addD]. by rewrite (values_delete _ _ _ Hy). }
    rewrite Hp in Ha. destruct (addedStakers d) as [tree|]; [|done]. apply diff_update with (ch := ch); [done| | | |done].
    + unfold entry_ok. cbn [ch_drop_validator ch_addV ch_delV ch_addD ch_delD addedDelegators deletedDelegators].
      split; [|done]. unfold status_rep. cbn [validatorStatus]. by rewrite lookup_delete_eq.
    + intros sn Hsn. cbn [ch_drop_validator ch_addV ch_delV ch_addD ch_delD]. by rewrite lookup_delete_ne.
    + cbn. by apply tree_delete.
  - assert (HA : ch_addV ch !! key x = None) by (destruct (validatorStatus _); [by destruct He1|done|by destruct He1 as (_ & _ & ?)]).
    rewrite HA in Hx'. assert (HD : ch_delV ch !! key x = None) by (by destruct (ch_delV ch !! key x)).
    exists (ch_delete_validator ch x). split; [|by apply ch_delete_validator_ok].
    cbn [set_diff addedStakers deletedStakers]. apply diff_update with (ch := ch); [done| | |done|].
    + unfold entry_ok. cbn [ch_delete_validator ch_addV ch_delV ch_addD ch_delD addedDelegators deletedDelegators].
      split; [|done]. unfold status_rep. cbn [validatorStatus dv_validator]. rewrite lookup_insert_eq, HA. by split.
    + intros sn Hsn. cbn [ch_delete_validator ch_addV ch_delV ch_addD ch_delD]. by rewrite lookup_insert_ne.
    + by apply deleted_rep_validator.
Qed.

(** *** The stakers after the changes *)

Lemma changes_cases a0 a ch : changes_ok ch a0 a →
  (∀ sn x k y, ss_vals a0 !! sn = Some x → ss_dels a0 !! k = Some y → TxID x ≠ TxID y)
  ∧ (∀ sn x k y, ch_addV ch !! sn = Some x → ch_addD ch !! k = Some y → TxID x ≠ TxID y)
  ∧ (∀ x y, x ∈ all_stakers a0 → y ∈ ch_added ch → TxID x ≠ TxID y).
Proof.
  intros Hch. split; [|split].
  - intros sn x k y Hx Hy E. pose proof (wf_distinct _ (ch_wf0 _ _ _ Hch)) as Hd. unfold all_stakers in Hd. rewrite fmap_app in Hd.
    apply NoDup_app in Hd as (_ & Hd & _). apply (Hd (TxID x)); [|rewrite E]; apply list_elem_of_fmap_2, elem_of_values; by eexists.
  - intros sn x k y Hx Hy E. pose proof (ch_added_distinct _ _ _ Hch) as Hd. unfold ch_added in Hd. rewrite fmap_app in Hd.
    apply NoDup_app in Hd as (_ & Hd & _). apply (Hd (TxID x)); [|rewrite E]; apply list_elem_of_fmap_2, elem_of_values; by eexists.
  - intros x y Hx Hy E. apply (ch_added_new _ _ _ Hch y Hy). rewrite <- E. by apply (wf_used _ (ch_wf0 _ _ _ Hch)).
Qed.

Lemma changes_distinct a0 a ch : changes_ok ch a0 a → distinct (all_stakers a0 ++ ch_added ch).
Proof.
  intros Hch. destruct (changes_cases a0 a ch Hch) as (_ & _ & Hsep). rewrite fmap_app. apply NoDup_app.
  split; [apply (wf_distinct _ (ch_wf0 _ _ _ Hch))|]. split; [|apply (ch_added_distinct _ _ _ Hch)].
  intros k (x & -> & Hx)%list_elem_of_fmap (y & E & Hy)%list_elem_of_fmap. by apply (Hsep x y).
Qed.

(** The delegators: added ones and old ones, without the deleted *)
Lemma changes_dels a0 a ch k x : changes_ok ch a0 a →
  ss_dels a !! k = Some x ↔ (ss_dels a0 !! k = Some x ∨ ch_addD ch !! k = Some x) ∧ ch_delD ch !! k = None.
Proof.
  intros Hch. rewrite (ch_dels _ _ _ Hch). destruct (ch_delD ch !! k); [naive_solver|].
  destruct (ch_addD ch !! k) as [y|] eqn:EA; [|naive_solver]. split; [naive_solver|].
  intros [[H0|H] _]; [|done]. exfalso. destruct (changes_cases a0 a ch Hch) as (_ & _ & Hsep). apply (Hsep x y).
  - apply elem_of_all. right. by eexists.
  - apply elem_of_added. right. by eexists.
  - by rewrite (wf_dels _ (ch_wf0 _ _ _ Hch) _ _ H0), (ch_addD_ok _ _ _ Hch _ _ EA).
Qed.

Lemma changes_vals a0 a ch sn x : changes_ok ch a0 a →
  ss_vals a !! sn = Some x ↔ (ss_vals a0 !! sn = Some x ∧ ch_delV ch !! sn = None) ∨ ch_addV ch !! sn = Some x.
Proof.
  intros Hch. rewrite (ch_vals _ _ _ Hch). destruct (ch_addV ch !! sn) as [y|] eqn:EA.
  - destruct (ch_addV_ok _ _ _ Hch _ _ EA) as (? & ? & _). naive_solver.
  - destruct (ch_delV ch !! sn); naive_solver.
Qed.

(** A deleted delegator is masked, and no other staker is. *)
Lemma masked_iff a0 a ch m x : changes_ok ch a0 a → deleted_rep m ch → x ∈ all_stakers a0 ++ ch_added ch →
  m !! TxID x = None ↔ x ∈ all_stakers a.
Proof.
  intros Hch Hm Hx. destruct (changes_cases a0 a ch Hch) as (Hvd & Hvd' & Hsep).
  assert (Hwf := ch_wf0 _ _ _ Hch). pose proof (changes_distinct a0 a ch Hch) as Hdist.
  assert (Hnone : m !! TxID x = None ↔ ch_delD ch !! TxID x = None ∧ ∀ sn y, ch_delV ch !! sn = Some y → TxID y ≠ TxID x).
  { pose proof (Hm (TxID x)) as Hmx. rewrite !eq_None_not_Some, Hmx. clear -Hx. naive_solver. }
  assert (Hdel : ∀ y, ch_delD ch !! TxID x = Some y → y = x ∧ ¬ ∃ sn, ss_vals a0 !! sn = Some x ∨ ch_addV ch !! sn = Some x).
  { intros y Hy. assert (y ∈ all_stakers a0 ++ ch_added ch ∧ TxID y = TxID x) as [Hin E].
    { rewrite elem_of_app, elem_of_all, elem_of_added. destruct (ch_delD_ok _ _ _ Hch _ _ Hy) as [H|H].
      - split; [left; right; by eexists|by apply (wf_dels _ Hwf)].
      - split; [right; right; by eexists|by apply (ch_addD_ok _ _ _ Hch)]. }
    pose proof (distinct_eq _ _ _ Hdist Hin Hx E) as ->. split; [done|]. intros [sn [H|H]];
      destruct (ch_delD_ok _ _ _ Hch _ _ Hy) as [H'|H'].
    - by eapply Hvd.
    - apply (Hsep x x); [apply elem_of_all; left; by eexists|apply elem_of_added; right; by eexists|done].
    - apply (Hsep x x); [apply elem_of_all; right; by eexists|apply elem_of_added; left; by eexists|done].
    - by eapply Hvd'. }
  assert (HdelV : ∀ sn y, ch_delV ch !! sn = Some y → TxID y = TxID x → y = x ∧ ss_vals a0 !! sn = Some x).
  { intros sn y Hy E. destruct (ch_delV_ok _ _ _ Hch _ _ Hy) as [H0 _].
    assert (y ∈ all_stakers a0 ++ ch_added ch) as Hin by (rewrite elem_of_app, elem_of_all; left; left; by eexists).
    by rewrite <- (distinct_eq _ _ _ Hdist Hin Hx E). }
  rewrite Hnone. rewrite elem_of_all. setoid_rewrite (changes_vals a0 a ch _ x Hch). setoid_rewrite (changes_dels a0 a ch _ x Hch).
  rewrite elem_of_app, elem_of_all, elem_of_added in Hx. split.
  - intros [HD HV]. destruct Hx as [[[sn H]|[k H]]|[[sn H]|[k H]]].
    + left. exists sn. left. split; [done|]. destruct (ch_delV ch !! sn) as [y|] eqn:E; [|done]. exfalso.
      destruct (ch_delV_ok _ _ _ Hch _ _ E) as [H' _]. apply (HV sn y E). congruence.
    + right. exists k. split; [by left|]. by rewrite <- (wf_dels _ Hwf _ _ H).
    + left. exists sn. by right.
    + right. exists k. split; [by right|]. by rewrite <- (ch_addD_ok _ _ _ Hch _ _ H).
  - intros Ha. split.
    + destruct (ch_delD ch !! TxID x) as [y|] eqn:E; [|done]. destruct (Hdel y eq_refl) as [-> Hno]. exfalso.
      destruct Ha as [[sn [[H _]|H]]|[k [H HD]]]; [apply Hno; exists sn; by left|apply Hno; exists sn; by right|].
      assert (TxID x = k) as Ek by (destruct H as [H|H]; [by apply (wf_dels _ Hwf)|by apply (ch_addD_ok _ _ _ Hch)]).
      rewrite Ek in E. congruence.
    + intros sn y Hy E. destruct (HdelV sn y Hy E) as [-> H0].
      destruct Ha as [[sn' [[H HD]|H]]|[k [[H|H] _]]].
      * rewrite <- (wf_vals _ Hwf _ _ H), (wf_vals _ Hwf _ _ H0) in HD. congruence.
      * apply (Hsep x x); [apply elem_of_all; left; by eexists|apply elem_of_added; left; by eexists|done].
      * by eapply Hvd.
      * apply (Hsep x x); [apply elem_of_all; left; by eexists|apply elem_of_added; right; by eexists|done].
Qed.

Lemma all_in_changes a0 a ch x : changes_ok ch a0 a → x ∈ all_stakers a → x ∈ all_stakers a0 ++ ch_added ch.
Proof.
  intros Hch. rewrite elem_of_app, !elem_of_all, elem_of_added. setoid_rewrite (changes_vals a0 a ch _ x Hch).
  setoid_rewrite (changes_dels a0 a ch _ x Hch). naive_solver.
Qed.

Lemma unmasked_all a0 a ch m : changes_ok ch a0 a → deleted_rep m ch →
  unmasked m (all_stakers a0 ++ ch_added ch) ≡ₚ all_stakers a.
Proof.
  intros Hch Hm. pose proof (changes_distinct a0 a ch Hch) as Hd. apply NoDup_Permutation.
  - unfold unmasked. apply NoDup_filter. by apply NoDup_fmap_1 in Hd.
  - pose proof (wf_distinct _ (ch_wf1 _ _ _ Hch)) as Hd1. by apply NoDup_fmap_1 in Hd1.
  - intros x. unfold unmasked. rewrite list_elem_of_filter. split.
    + intros [Hn Hx]. by apply (masked_iff a0 a ch m x Hch Hm Hx).
    + intros Hx. pose proof (all_in_changes a0 a ch x Hch Hx) as Hin. split; [|done]. by apply (masked_iff a0 a ch m x Hch Hm Hin).
Qed.

Lemma unmasked_dels a0 a ch sn : changes_ok ch a0 a →
  unmasked (filter (λ p, key p.2 = sn) (ch_delD ch)) (at_key sn (values (ss_dels a0)) ++ at_key sn (values (ch_addD ch)))
  ≡ₚ at_key sn (values (ss_dels a)).
Proof.
  intros Hch. pose proof (changes_distinct a0 a ch Hch) as Hd. apply NoDup_fmap_1 in Hd.
  assert (Hin : ∀ k x, ss_dels a0 !! k = Some x ∨ ch_addD ch !! k = Some x → TxID x = k).
  { intros k x [H|H]; [by apply (wf_dels _ (ch_wf0 _ _ _ Hch))|by apply (ch_addD_ok _ _ _ Hch)]. }
  assert (Hone : ∀ k x y, ss_dels a0 !! k = Some x → ch_addD ch !! k = Some y → False).
  { intros k x y Hx Hy. destruct (changes_cases a0 a ch Hch) as (_ & _ & Hsep). apply (Hsep x y).
    - apply elem_of_all. right. by eexists.
    - apply elem_of_added. right. by eexists.
    - rewrite (Hin k x), (Hin k y); eauto. }
  apply NoDup_Permutation.
  - unfold unmasked, at_key. apply NoDup_filter. rewrite <- filter_app. apply NoDup_filter.
    unfold all_stakers, ch_added in Hd. eapply sublist_NoDup; [exact Hd|].
    apply sublist_app; [apply sublist_inserts_l, reflexivity|apply sublist_inserts_l, reflexivity].
  - pose proof (dels_distinct a sn (ch_wf1 _ _ _ Hch)) as Hd1. by apply NoDup_fmap_1 in Hd1.
  - intros x. unfold unmasked. rewrite list_elem_of_filter, elem_of_app, !elem_of_at_key, !elem_of_values.
    setoid_rewrite (changes_dels a0 a ch _ x Hch). rewrite map_lookup_filter_None. split.
    + intros [HD Hx].
      assert (∃ k, (ss_dels a0 !! k = Some x ∨ ch_addD ch !! k = Some x) ∧ key x = sn) as (k & Hk & <-) by naive_solver.
      split; [done|]. exists k. split; [done|]. rewrite <- (Hin k x Hk). destruct HD as [HD|HD]; [done|].
      destruct (ch_delD ch !! TxID x) as [y|] eqn:E; [|done]. exfalso. apply (HD y eq_refl). cbn.
      rewrite (Hin k x Hk) in E. destruct (ch_delD_ok _ _ _ Hch _ _ E), Hk; try congruence; exfalso; eauto.
    + intros (<- & k & Hk & HD). rewrite (Hin k x Hk). split; [by left|]. naive_solver.
Qed.
End diff.

(** ** Reading through a diff *)

Section diff_from.
Context {B : BTree Staker} {BL : BTreeLaws B} (a0 : staker_set).

(** The diff takes the set [a0] to [a]. *)
Definition diff_from (d : diffStakers) (a : staker_set) : Prop := ∃ ch, diff_rep d ch ∧ changes_ok ch a0 a.

(** A new diff changes nothing. *)
Lemma diff_from_new gone : ss_wf a0 → diff_from emptyDiffStakers (mkSet (ss_vals a0) (ss_dels a0) (ss_used a0) gone).
Proof. exists empty_changes. split; [apply emptyDiffStakers_rep|]. by apply empty_changes_ok. Qed.

Lemma diff_from_PutValidator d a x : diff_from d a → can_put_validator a x → diff_from (diff_PutValidator d x) (put_validator a x).
Proof.
  intros (ch & Hd & Hch) Hx. exists (ch_put_validator ch x). split; [by eapply diff_PutValidator_rep|by apply ch_put_validator_ok].
Qed.

Lemma diff_from_DeleteValidator d a x : diff_from d a → can_delete_validator a x →
  diff_from (diff_DeleteValidator d x) (delete_validator a x).
Proof. intros (ch & Hd & Hch) Hx. by apply (diff_DeleteValidator_rep a0 a d ch x). Qed.

Lemma diff_from_PutDelegator d a x : diff_from d a → can_put_delegator a x → diff_from (diff_PutDelegator d x) (put_delegator a x).
Proof.
  intros (ch & Hd & Hch) Hx. exists (ch_put_delegator ch x). split; [by eapply diff_PutDelegator_rep|by apply ch_put_delegator_ok].
Qed.

Lemma diff_from_DeleteDelegator d a x : diff_from d a → can_delete_delegator a x →
  diff_from (diff_DeleteDelegator d x) (delete_delegator a x).
Proof.
  intros (ch & Hd & Hch) Hx. exists (ch_delete_delegator ch x).
  split; [by eapply diff_DeleteDelegator_rep|by apply ch_delete_delegator_ok].
Qed.
End diff_from.

Section iterators.
Context {B : BTree Staker} {BL : BTreeLaws B} {I : Type} {SI : StakerIterator I} {LI : IteratorLaws SI}.

(** The parent and the added stakers, merged and masked *)
Lemma masked_merged i t l1 l2 masked : it_ok i → it_pending i = in_order l1 → opt_tree_rep t l2 → distinct (l1 ++ l2) →
  let it := NewMaskedIterator (NewMergedIterator [inl i; inr (NewTreeIterator t)]) masked in
  it_ok it ∧ it_pending it = in_order (unmasked masked (l1 ++ l2)).
Proof.
  intros Hok Hi Ht Hd it. pose proof (tree_iterator_rep _ _ Ht) as Hpt.
  assert (Hd12 : distinct l1 ∧ distinct l2) by (rewrite fmap_app in Hd; apply NoDup_app in Hd as (? & _ & ?); done).
  destruct Hd12 as [Hd1 Hd2].
  destruct (NewMergedIterator_spec (I := I + tree_iterator) [inl i; inr (NewTreeIterator t)]) as [Hm Hp].
  - repeat constructor; cbn [it_pending sum_iterator_laws].
    + done.
    + rewrite Hi. by apply in_order_sorted.
    + change (sorted_by Staker_Less (it_pending (NewTreeIterator t))). rewrite Hpt. by apply in_order_sorted.
  - cbn. rewrite app_nil_r. change (distinct (it_pending i ++ it_pending (NewTreeIterator t))).
    by rewrite Hi, Hpt, !in_order_perm.
  - assert (Hc : concat (it_pending <$> ([inl i; inr (NewTreeIterator t)] : list (I + tree_iterator))) ≡ₚ l1 ++ l2).
    { cbn. rewrite app_nil_r. change (it_pending i ++ it_pending (NewTreeIterator t) ≡ₚ l1 ++ l2). by rewrite Hi, Hpt, !in_order_perm. }
    split; [done|]. change (it_pending it) with (unmasked masked (it_pending (NewMergedIterator [inl i; inr (NewTreeIterator t)]))).
    rewrite Hp. rewrite (in_order_proper _ (l1 ++ l2)); [|by rewrite Hc|done]. symmetry. apply in_order_unique.
    + apply filter_sorted, in_order_sorted, Hd.
    + unfold unmasked. by rewrite in_order_perm.
Qed.

Lemma diff_GetValidator_rep d ch s n : diff_rep d ch →
  diff_GetValidator d s n
  = match ch_addV ch !! (s, n) with
    | Some x => (Some x, added)
    | None => (None, if ch_delV ch !! (s, n) then deleted else unmodified)
    end.
Proof.
  intros (He & _). destruct (He s n) as (Hs & _). unfold diff_GetValidator, diff_entry, nested_lookup, status_rep in *.
  destruct (validatorDiffs d !! s) as [m|]; cbn [mbind option_bind] in Hs; [|by destruct Hs as [-> ->]].
  destruct (m !! n) as [dv|]; cbn [from_option id] in Hs; [|by destruct Hs as [-> ->]].
  destruct (validatorStatus dv) eqn:E.
  - destruct Hs as [-> ->]. by rewrite decide_False.
  - destruct Hs as ([x Hx] & Hv & ->). rewrite decide_True by done. rewrite Hx in *. by rewrite <- Hv.
  - destruct Hs as ([x ->] & _ & ->). by rewrite decide_False.
Qed.

Lemma diff_GetDelegatorIterator_from a0 d a (i : I) s n : diff_from a0 d a →
  it_ok i → it_pending i = in_order (at_key (s, n) (values (ss_dels a0))) →
  it_ok (diff_GetDelegatorIterator d i s n)
  ∧ it_pending (diff_GetDelegatorIterator d i s n) = in_order (at_key (s, n) (values (ss_dels a))).
Proof.
  intros (ch & Hd & Hch) Hok Hp. destruct Hd as (He & _). destruct (He s n) as (_ & Ha & Hdel).
  unfold diff_GetDelegatorIterator. set (pair := match validatorDiffs d !! s with Some _ => _ | None => _ end).
  assert (pair = (NewTreeIterator (addedDelegators (diff_entry d s n)), deletedDelegators (diff_entry d s n))) as ->.
  { unfold pair, diff_entry, nested_lookup. destruct (validatorDiffs d !! s) as [m|]; [|done]. cbn [mbind option_bind].
    by destruct (m !! n). }
  assert (Hdist : distinct (at_key (s, n) (values (ss_dels a0)) ++ at_key (s, n) (values (ch_addD ch)))).
  { pose proof (changes_distinct a0 a ch Hch) as Hall. unfold all_stakers, ch_added in Hall. eapply sublist_NoDup; [exact Hall|].
    apply fmap_sublist, sublist_app; (etrans; [apply sublist_filter|apply sublist_inserts_l, reflexivity]). }
  destruct (masked_merged i (addedDelegators (diff_entry d s n)) _ _ (deletedDelegators (diff_entry d s n)) Hok Hp Ha Hdist)
    as [Hok' Hp'].
  split; [done|]. rewrite Hp', Hdel. apply in_order_proper.
  - rewrite (unmasked_dels a0 a ch (s, n) Hch). apply dels_distinct. apply Hch.
  - by apply (unmasked_dels a0 a ch).
Qed.

Lemma diff_GetStakerIterator_from a0 d a (i : I) : diff_from a0 d a → it_ok i → it_pending i = in_order (all_stakers a0) →
  it_ok (diff_GetStakerIterator d i) ∧ it_pending (diff_GetStakerIterator d i) = in_order (all_stakers a).
Proof.
  intros (ch & Hd & Hch) Hok Hp. destruct Hd as (_ & Ha & Hdel).
  destruct (masked_merged i (addedStakers d) _ _ (deletedStakers d) Hok Hp Ha (changes_distinct a0 a ch Hch)) as [Hok' Hp'].
  split; [done|]. unfold diff_GetStakerIterator. rewrite Hp'. apply in_order_proper.
  - rewrite (unmasked_all a0 a ch _ Hch Hdel). apply (wf_distinct _ (ch_wf1 _ _ _ Hch)).
  - by apply (unmasked_all a0 a ch).
Qed.
End iterators.

Section stack.
Context {B : BTree Staker} {BL : BTreeLaws B}.
Context {C I : Type} {S : Stakers C I} {SI : StakerIterator I} {LI : IteratorLaws SI}.

Notation diff_iterator := (maskedIterator (I := mergedIterator (I := I + tree_iterator))).

(** A diff on top of its parent state ([diff.GetCurrentValidator] and the like) *)
Definition stack_GetValidator (c : C * diffStakers) (subnetID nodeID : bytes) : result db_error Staker :=
  let '(newValidator, status) := diff_GetValidator c.2 subnetID nodeID in
  match status, newValidator with
  | added, Some validator => Ok validator
  | added, None => Err ErrNotFound
  | deleted, _ => Err ErrNotFound
  | unmodified, _ => GetValidator c.1 subnetID nodeID
  end.

Definition stack_GetDelegatorIterator (c : C * diffStakers) (subnetID nodeID : bytes) : diff_iterator :=
  diff_GetDelegatorIterator c.2 (GetDelegatorIterator c.1 subnetID nodeID) subnetID nodeID.

Definition stack_GetStakerIterator (c : C * diffStakers) : diff_iterator := diff_GetStakerIterator c.2 (GetStakerIterator c.1).

#[export] Instance stack_Stakers : Stakers (C * diffStakers) diff_iterator := {|
  GetValidator := stack_GetValidator;
  PutValidator c x := (c.1, diff_PutValidator c.2 x);
  DeleteValidator c x := (c.1, diff_DeleteValidator c.2 x);
  GetDelegatorIterator := stack_GetDelegatorIterator;
  PutDelegator c x := (c.1, diff_PutDelegator c.2 x);
  DeleteDelegator c x := (c.1, diff_DeleteDelegator c.2 x);
  GetStakerIterator := stack_GetStakerIterator;
|}.

Context {SL : StakersLaws S LI}.

Definition stack_repr (c : C * diffStakers) (a : staker_set) : Prop := ∃ a0, st_repr c.1 a0 ∧ diff_from a0 c.2 a.

Lemma stack_GetValidator_repr c a s n : stack_repr c a →
  stack_GetValidator c s n = match ss_vals a !! (s, n) with Some x => Ok x | None => Err ErrNotFound end.
Proof.
  intros (a0 & H0 & ch & Hd & Hch). unfold stack_GetValidator. rewrite (diff_GetValidator_rep _ ch s n Hd), (ch_vals _ _ _ Hch).
  destruct (ch_addV ch !! (s, n)); [done|]. destruct (ch_delV ch !! (s, n)); [done|]. by apply law_GetValidator.
Qed.

Lemma stack_GetDelegatorIterator_repr c a s n : stack_repr c a →
  it_ok (stack_GetDelegatorIterator c s n)
  ∧ it_pending (stack_GetDelegatorIterator c s n) = in_order (at_key (s, n) (values (ss_dels a))).
Proof.
  intros (a0 & H0 & Hd). destruct (law_GetDelegatorIterator c.1 a0 s n H0) as [Hok Hp].
  by apply (diff_GetDelegatorIterator_from a0).
Qed.

Lemma stack_GetStakerIterator_repr c a : stack_repr c a →
  it_ok (stack_GetStakerIterator c) ∧ it_pending (stack_GetStakerIterator c) = in_order (all_stakers a).
Proof.
  intros (a0 & H0 & Hd). destruct (law_GetStakerIterator c.1 a0 H0) as [Hok Hp]. by apply (diff_GetStakerIterator_from a0).
Qed.

(** A diff on a state that implements the set implements it too. *)
#[export] Instance stack_StakersLaws : StakersLaws stack_Stakers masked_iterator_laws.
Proof.
  refine {| st_repr := stack_repr |}.
  - intros c a (a0 & _ & ch & _ & Hch). apply Hch.
  - exact stack_GetValidator_repr.
  - intros c a x (a0 & H0 & Hd) Hx. exists a0. split; [done|]. by apply diff_from_PutValidator.
  - intros c a x (a0 & H0 & Hd) Hx. exists a0. split; [done|]. by apply diff_from_DeleteValidator.
  - exact stack_GetDelegatorIterator_repr.
  - intros c a x (a0 & H0 & Hd) Hx. exists a0. split; [done|]. by apply diff_from_PutDelegator.
  - intros c a x (a0 & H0 & Hd) Hx. exists a0. split; [done|]. by apply diff_from_DeleteDelegator.
  - exact stack_GetStakerIterator_repr.
Defined.

Lemma stack_new c a gone : st_repr c a →
  stack_repr (c, emptyDiffStakers) (mkSet (ss_vals a) (ss_dels a) (ss_used a) gone).
Proof. intros H. exists a. split; [done|]. apply diff_from_new. by apply (law_st_wf c a). Qed.
End stack.

(** ** Iterating over two-level maps *)

Section nested_entries.
Context {A : Type} (range : ∀ A, gmap bytes A → list (bytes * A)) (range_perm : ∀ A (m : gmap bytes A), range A m ≡ₚ map_to_list m).

(** The two nested loops over the maps visit every entry once. *)
Definition subnet_entries (s : bytes) (m : gmap bytes A) : list ((bytes * bytes) * A) := (λ e, ((s, e.1), e.2)) <$> range _ m.
Definition nested_entries (m : nested A) : list ((bytes * bytes) * A) := e ← range _ m; subnet_entries e.1 e.2.

Lemma nested_entries_at s m sn dv : (sn, dv) ∈ subnet_entries s m ↔ sn.1 = s ∧ m !! sn.2 = Some dv.
Proof using range_perm.
  unfold subnet_entries. rewrite list_elem_of_fmap. split.
  - intros ([n dv'] & [= -> ->] & H). rewrite range_perm in H. by apply elem_of_map_to_list in H.
  - destruct sn as [s' n]. cbn. intros [-> H]. exists (n, dv). split; [done|]. rewrite range_perm. by apply elem_of_map_to_list.
Qed.

Lemma elem_of_nested_entries d s n dv : ((s, n), dv) ∈ nested_entries d ↔ nested_lookup d s n = Some dv.
Proof using range_perm.
  unfold nested_entries, nested_lookup. rewrite list_elem_of_bind. split.
  - intros ([s' m] & H1 & H2). apply nested_entries_at in H1 as [Es H1]. cbn in Es, H1. subst s'. rewrite range_perm in H2.
    apply elem_of_map_to_list in H2. by rewrite H2.
  - intros H. destruct (d !! s) as [m|] eqn:E; [|done]. exists (s, m). split; [by apply nested_entries_at|].
    rewrite range_perm. by apply elem_of_map_to_list.
Qed.

Lemma nested_entries_nodup d : NoDup (nested_entries d).*1.
Proof using range_perm.
  unfold nested_entries. pose proof (NoDup_fst_map_to_list (d)) as Hn. rewrite <- range_perm in Hn.
  induction (range _ d) as [|[s m] l IH]; [constructor|]. rewrite fmap_cons in Hn. apply NoDup_cons in Hn as [Hs Hn].
  cbn [mbind list_bind fst snd]. rewrite fmap_app. apply NoDup_app. split; [|split; [|by apply IH]].
  - pose proof (NoDup_fst_map_to_list m) as Hm. rewrite <- range_perm in Hm.
    assert ((subnet_entries s m).*1 = (λ n, (s, n)) <$> (range _ m).*1) as ->.
    { unfold subnet_entries. by rewrite <- !list_fmap_compose. }
    apply NoDup_fmap_2; [|done]. by intros ? ? [= ->].
  - intros sn ([sn1 dv1] & -> & [E1 _]%nested_entries_at)%list_elem_of_fmap ([sn2 dv2] & E & H2)%list_elem_of_fmap.
    apply list_elem_of_bind in H2 as ([s' m'] & [E2 _]%nested_entries_at & Hin). cbn in *. subst. apply Hs.
    apply list_elem_of_fmap. by exists (sn2.1, m').
Qed.
End nested_entries.

(** ** Applying a diff *)

Section apply.
Context {B : BTree Staker}.
Context {C I : Type} {S : Stakers C I} (range : ∀ A, gmap bytes A → list (bytes * A)).

(** The loop over the added delegators *)
Fixpoint put_delegators (fuel : nat) (it : tree_iterator) (c : C) : C :=
  match fuel with
  | O => c
  | Datatypes.S fuel =>
      let '(ok, it) := Next it in
      if ok then
        match Value it with
        | Some delegator => put_delegators fuel it (PutDelegator c delegator)
        | None => c
        end
      else c
  end.

(** The part of [diff.Apply] for one validator, the same for both sets *)
Definition apply_validator (c : C) (validatorDiff : diffValidator) : C :=
  let c :=
    match validatorStatus validatorDiff, dv_validator validatorDiff with
    | added, Some validator => PutValidator c validator
    | deleted, Some validator => DeleteValidator c validator
    | _, _ => c
    end in
  let addedDelegatorIterator := NewTreeIterator (addedDelegators validatorDiff) in
  let c := put_delegators (Datatypes.S (Bound addedDelegatorIterator)) addedDelegatorIterator c in
  foldl DeleteDelegator c (range _ (deletedDelegators validatorDiff)).*2.

Definition apply_stakers (c : C) (d : diffStakers) : C :=
  foldl (λ c subnetValidatorDiffs, foldl apply_validator c (range _ subnetValidatorDiffs).*2) c (range _ (validatorDiffs d)).*2.

Lemma put_delegators_spec : ∀ fuel it c, (length (it_pending it) < fuel)%nat →
  put_delegators fuel it c = foldl PutDelegator c (it_pending it).
Proof.
  induction fuel as [|fuel IH]; intros it c Hf; [lia|]. cbn [put_delegators]. pose proof (law_it_Next it Logic.I) as [_ Hn].
  destruct (Next it) as [ok it'] eqn:E. cbn [fst snd] in Hn. destruct (it_pending it) as [|x rest].
  - by destruct Hn as [-> _].
  - destruct Hn as (-> & -> & Hp). rewrite IH by (rewrite Hp; simpl in Hf; lia). by rewrite Hp.
Qed.

Context {BL : BTreeLaws B} {SI : StakerIterator I} {LI : IteratorLaws SI} {SL : StakersLaws S LI}.
Context (range_perm : ∀ A (m : gmap bytes A), range A m ≡ₚ map_to_list m).

Lemma put_all_spec l : ∀ c a, st_repr c a → (∀ x, x ∈ l → TxID x ∉ ss_used a) → distinct l →
  ∃ a', st_repr (foldl PutDelegator c l) a' ∧ ss_vals a' = ss_vals a ∧ ss_gone a' = ss_gone a
    ∧ (∀ t, t ∈ ss_used a' ↔ t ∈ ss_used a ∨ t ∈ TxID <$> l)
    ∧ ∀ k x, ss_dels a' !! k = Some x ↔ ss_dels a !! k = Some x ∨ (x ∈ l ∧ TxID x = k).
Proof.
  induction l as [|y l IH]; intros c a Hr Hl Hd; cbn [foldl].
  - exists a. split_and!; try done; [intros t|intros k x]; set_solver.
  - rewrite fmap_cons in Hd. apply NoDup_cons in Hd as [Hn Hd].
    assert (Hy : can_put_delegator a y) by (apply Hl; by left).
    pose proof (put_delegator_fresh a y (law_st_wf c a Hr) Hy) as Hfresh.
    destruct (IH (PutDelegator c y) (put_delegator a y)) as (a' & Hr' & Hv & Hg & Hu & Hdels); [by apply law_PutDelegator| |done|].
    { intros x Hx. cbn [put_delegator ss_used]. apply not_elem_of_union. split; [|apply Hl; by right].
      rewrite elem_of_singleton. intros E. apply Hn. rewrite <- E. by apply list_elem_of_fmap_2. }
    exists a'. split; [done|]. split; [done|]. split; [done|]. split.
    + intros t. rewrite Hu. cbn [put_delegator ss_used]. rewrite fmap_cons, elem_of_union, elem_of_cons, elem_of_singleton. tauto.
    + intros k x. rewrite Hdels. cbn [put_delegator ss_dels]. rewrite lookup_insert_Some, elem_of_cons. split.
      * intros [[[<- <-]|[_ H]]|[H E]]; [right; by split; [left|]|by left|right; by split; [right|]].
      * intros [H|[[->|H] E]]; [left; right|by left; left|by right]. split; [|done]. intros <-. congruence.
Qed.

Lemma delete_all_spec l : ∀ c a, st_repr c a → (∀ x, x ∈ l → ss_dels a !! TxID x = Some x) → distinct l →
  ∃ a', st_repr (foldl DeleteDelegator c l) a' ∧ ss_vals a' = ss_vals a ∧ ss_gone a' = ss_gone a ∧ ss_used a' = ss_used a
    ∧ ∀ k x, ss_dels a' !! k = Some x ↔ ss_dels a !! k = Some x ∧ x ∉ l.
Proof.
  induction l as [|y l IH]; intros c a Hr Hl Hd; cbn [foldl].
  - exists a. split_and!; try done. intros k x. set_solver.
  - rewrite fmap_cons in Hd. apply NoDup_cons in Hd as [Hn Hd].
    assert (Hy : can_delete_delegator a y) by (apply Hl; by left).
    destruct (IH (DeleteDelegator c y) (delete_delegator a y)) as (a' & Hr' & Hv & Hg & Hu & Hdels); [by apply law_DeleteDelegator| |done|].
    { intros x Hx. cbn [delete_delegator ss_dels]. rewrite lookup_delete_ne; [apply Hl; by right|].
      intros E. apply Hn. rewrite E. by apply list_elem_of_fmap_2. }
    exists a'. split_and!; try done. intros k x. rewrite Hdels. cbn [delete_delegator ss_dels].
    rewrite lookup_delete_Some, not_elem_of_cons. pose proof (law_st_wf c a Hr) as Hwf. unfold can_delete_delegator in Hy. split.
    + intros [[Hk H] Hx]. split_and!; try done. intros ->. by rewrite (wf_dels _ Hwf _ _ H) in Hk.
    + intros (H & Hne & Hx). split_and!; try done. intros <-. congruence.
Qed.

(** *** The state when the validators [P] have been applied *)

Record applied (ch : changes) (a0 a1 ab : staker_set) (P : list (bytes * bytes)) (a : staker_set) : Prop := {
  ap_vals sn : ss_vals a !! sn = if decide (sn ∈ P) then ss_vals a1 !! sn else ss_vals a0 !! sn;
  ap_dels k x : ss_dels a !! k = Some x
    ↔ if decide (key x ∈ P) then ss_dels a1 !! k = Some x else ss_dels a0 !! k = Some x;
  ap_used t : t ∈ ss_used a → t ∈ ss_used ab ∨ ∃ x, x ∈ ch_added ch ∧ TxID x = t ∧ key x ∈ P;
  ap_gone sn : sn ∈ ss_gone a → sn ∈ ss_gone ab ∨ is_Some (ch_delV ch !! sn);
}.

(** What is asked of the base state: it has the stakers of the parent of the diff, the
    transactions of the stakers to add are new to it, and it did not remove the validators to
    add. *)
Record base_of (ch : changes) (a0 ab : staker_set) : Prop := {
  bo_vals : ss_vals ab = ss_vals a0;
  bo_dels : ss_dels ab = ss_dels a0;
  bo_used x : x ∈ ch_added ch → TxID x ∉ ss_used ab;
  bo_gone sn x : ch_addV ch !! sn = Some x → sn ∉ ss_gone ab;
}.

Section steps.
Context (ch : changes) (a0 a1 ab : staker_set) (Hch : changes_ok ch a0 a1) (Hb : base_of ch a0 ab).

Lemma applied_fresh P a x : applied ch a0 a1 ab P a → x ∈ ch_added ch → key x ∉ P → TxID x ∉ ss_used a.
Proof using Hb Hch.
  intros Hap Hx HP Hu. destruct (ap_used _ _ _ _ _ _ Hap _ Hu) as [H|(y & Hy & E & Hk)].
  - by apply (bo_used _ _ _ Hb x).
  - by rewrite (distinct_eq _ y x (ch_added_distinct _ _ _ Hch) Hy Hx E) in Hk.
Qed.

(** The first step: the validator itself *)
Lemma apply_status c P a sn dv : st_repr c a → applied ch a0 a1 ab P a → sn ∉ P → entry_ok dv ch sn →
  ∃ a', st_repr (match validatorStatus dv, dv_validator dv with
                 | added, Some validator => PutValidator c validator
                 | deleted, Some validator => DeleteValidator c validator
                 | _, _ => c
                 end) a'
    ∧ ss_dels a' = ss_dels a
    ∧ (∀ sn', ss_vals a' !! sn' = if decide (sn' = sn) then ss_vals a1 !! sn' else ss_vals a !! sn')
    ∧ (∀ t, t ∈ ss_used a' → t ∈ ss_used a ∨ ∃ x, ch_addV ch !! sn = Some x ∧ TxID x = t)
    ∧ (∀ sn', sn' ∈ ss_gone a' → sn' ∈ ss_gone a ∨ is_Some (ch_delV ch !! sn')).
Proof using Hb Hch.
  intros Hr Hap HP (Hs & _ & _). assert (Hv0 : ss_vals a !! sn = ss_vals a0 !! sn) by (by rewrite (ap_vals _ _ _ _ _ _ Hap), decide_False).
  pose proof (ch_vals _ _ _ Hch sn) as Hv1. unfold status_rep in Hs. destruct (validatorStatus dv).
  - destruct Hs as [E1 E2]. rewrite E1, E2 in Hv1. exists a. split_and!; try done; [|by left|by left]. intros sn'.
    case_decide as E; [|done]. subst. congruence.
  - destruct Hs as ([x Hx] & E1 & E2). rewrite Hx in *. rewrite <- E1. destruct (ch_addV_ok _ _ _ Hch _ _ Hx) as (Hk & H0 & _).
    assert (x ∈ ch_added ch) as Hin by (apply elem_of_added; left; by eexists).
    exists (put_validator a x). split_and!; try done.
    + apply law_PutValidator; [done|]. unfold can_put_validator. rewrite Hk. split; [congruence|].
      split; [|eapply applied_fresh; [done|done|by rewrite Hk]]. intros Hg. destruct (ap_gone _ _ _ _ _ _ Hap _ Hg) as [H|H].
      * by apply (bo_gone _ _ _ Hb sn x).
      * rewrite E2 in H. by destruct H.
    + intros sn'. cbn [put_validator ss_vals]. rewrite Hk. case_decide; [subst; rewrite lookup_insert_eq; congruence|by rewrite lookup_insert_ne].
    + intros t. cbn [put_validator ss_used]. rewrite elem_of_union, elem_of_singleton. intros [->|?]; [right; by exists x|by left].
    + by left.
  - destruct Hs as ([x Hx] & E1 & E2). rewrite Hx, E2 in *. rewrite <- E1. destruct (ch_delV_ok _ _ _ Hch _ _ Hx) as [H0 Hg].
    pose proof (wf_vals _ (ch_wf0 _ _ _ Hch) _ _ H0) as Hk. exists (delete_validator a x). split_and!; try done.
    + apply law_DeleteValidator; [done|]. unfold can_delete_validator. rewrite Hk. congruence.
    + intros sn'. cbn [delete_validator ss_vals]. rewrite Hk. case_decide; [subst; rewrite lookup_delete_eq; congruence|by rewrite lookup_delete_ne].
    + by left.
    + intros sn'. cbn [delete_validator ss_gone]. rewrite Hk, elem_of_union, elem_of_singleton. intros [->|?]; [right; by exists x|by left].
Qed.

Lemma added_at sn x : x ∈ at_key sn (values (ch_addD ch)) ↔ key x = sn ∧ ch_addD ch !! TxID x = Some x.
Proof using Hch.
  rewrite elem_of_at_key, elem_of_values. split; intros [H1 H2]; (split; [done|]); [|by eexists].
  destruct H2 as [k H2]. by rewrite (ch_addD_ok _ _ _ Hch _ _ H2).
Qed.

Lemma deleted_key k x : ch_delD ch !! k = Some x → TxID x = k.
Proof using Hch.
  intros H. destruct (ch_delD_ok _ _ _ Hch _ _ H); [by apply (wf_dels _ (ch_wf0 _ _ _ Hch))|by apply (ch_addD_ok _ _ _ Hch)].
Qed.

(** The deleted delegators of a validator, in the order of the iteration *)
Lemma deleted_at sn dv : deletedDelegators dv = filter (λ p, key p.2 = sn) (ch_delD ch) →
  let l := (range _ (deletedDelegators dv)).*2 in
  distinct l ∧ ∀ x, x ∈ l ↔ key x = sn ∧ ch_delD ch !! TxID x = Some x.
Proof using Hch range_perm.
  intros E l. assert (Hl : l ≡ₚ values (filter (λ p, key p.2 = sn) (ch_delD ch))) by (unfold l, values; by rewrite range_perm, E).
  split.
  - rewrite Hl. apply values_distinct. intros k x [H _]%map_lookup_filter_Some. by apply deleted_key.
  - intros x. rewrite Hl, elem_of_values. setoid_rewrite map_lookup_filter_Some. cbn [snd].
    split; [intros (k & H & Hk)|intros [Hk H]; by exists (TxID x)]. split; [done|]. by rewrite (deleted_key k x H).
Qed.

(** The stakers at a validator after its delegators were put and deleted *)
Lemma applied_step P a a' sn : applied ch a0 a1 ab P a → sn ∉ P →
  (∀ sn', ss_vals a' !! sn' = if decide (sn' = sn) then ss_vals a1 !! sn' else ss_vals a !! sn') →
  (∀ k x, ss_dels a' !! k = Some x
     ↔ (ss_dels a !! k = Some x ∨ (key x = sn ∧ ch_addD ch !! TxID x = Some x ∧ TxID x = k))
       ∧ ¬ (key x = sn ∧ ch_delD ch !! TxID x = Some x)) →
  (∀ t, t ∈ ss_used a' → t ∈ ss_used a ∨ ∃ x, x ∈ ch_added ch ∧ TxID x = t ∧ key x = sn) →
  (∀ sn', sn' ∈ ss_gone a' → sn' ∈ ss_gone a ∨ is_Some (ch_delV ch !! sn')) →
  applied ch a0 a1 ab (sn :: P) a'.
Proof using Hch.
  intros Hap HP Hv Hd Hu Hg. split.
  - intros sn'. rewrite Hv, (ap_vals _ _ _ _ _ _ Hap). destruct (decide (sn' = sn)) as [->|E].
    + by rewrite decide_True by by left.
    + apply decide_ext. rewrite elem_of_cons. naive_solver.
  - intros k x. rewrite Hd, (ap_dels _ _ _ _ _ _ Hap). destruct (decide (key x = sn)) as [Ek|Ek].
    + rewrite (decide_False (P := key x ∈ P)) by (by rewrite Ek). rewrite decide_True by (rewrite Ek; by left).
      rewrite (changes_dels a0 a1 ch k x Hch).
      assert (Hk : ss_dels a0 !! k = Some x ∨ ch_addD ch !! k = Some x → TxID x = k).
      { intros [H|H]; [by apply (wf_dels _ (ch_wf0 _ _ _ Hch))|by apply (ch_addD_ok _ _ _ Hch)]. }
      assert (HD : ss_dels a0 !! k = Some x ∨ ch_addD ch !! k = Some x → ch_delD ch !! k = None ↔ ch_delD ch !! k ≠ Some x).
      { intros H. split; [congruence|]. intros Hne. destruct (ch_delD ch !! k) as [y|] eqn:E; [|done]. exfalso. apply Hne. f_equal.
        destruct (changes_cases a0 a1 ch Hch) as (_ & _ & Hsep).
        assert (∀ u v, ss_dels a0 !! k = Some u → ch_addD ch !! k = Some v → False) as Hno.
        { intros u v Hu0 Hv0. apply (Hsep u v); [apply elem_of_all; right; by eexists|apply elem_of_added; right; by eexists|].
          by rewrite (wf_dels _ (ch_wf0 _ _ _ Hch) _ _ Hu0), (ch_addD_ok _ _ _ Hch _ _ Hv0). }
        destruct H, (ch_delD_ok _ _ _ Hch _ _ E); try congruence; exfalso; eauto. }
      clear -Ek Hk HD. naive_solver.
    + assert (key x ∈ P ↔ key x ∈ sn :: P) as Hiff by (rewrite elem_of_cons; naive_solver).
      destruct (decide (key x ∈ P)) as [Hp|Hp].
      * rewrite (decide_True (P := key x ∈ sn :: P)) by (by apply Hiff). naive_solver.
      * rewrite (decide_False (P := key x ∈ sn :: P)) by (by rewrite <- Hiff). naive_solver.
  - intros t Ht. destruct (Hu t Ht) as [H|(x & Hx & E & Hk)].
    + destruct (ap_used _ _ _ _ _ _ Hap _ H) as [?|(x & Hx & E & Hk)]; [by left|right]. exists x. split_and!; try done. by right.
    + right. exists x. split_and!; try done. rewrite Hk. by left.
  - intros sn' H. destruct (Hg sn' H) as [H'|H']; [by apply Hap|by right].
Qed.

(** One validator *)
Lemma apply_validator_spec c P a sn dv : st_repr c a → applied ch a0 a1 ab P a → sn ∉ P → entry_ok dv ch sn →
  ∃ a', st_repr (apply_validator c dv) a' ∧ applied ch a0 a1 ab (sn :: P) a'.
Proof using Hb Hch BL SL range_perm.
  intros Hr Hap HP He. unfold apply_validator.
  destruct (apply_status c P a sn dv Hr Hap HP He) as (a2 & Hr2 & Hd2 & Hv2 & Hu2 & Hg2). destruct He as (_ & Ht & Hdel).
  destruct (deleted_at sn dv Hdel) as [Hdd Hdin]. pose proof (tree_iterator_rep _ _ Ht) as Hpend.
  rewrite put_delegators_spec by (pose proof (law_it_Bound (NewTreeIterator (addedDelegators dv)) Logic.I); lia).
  rewrite Hpend.
  destruct (put_all_spec (in_order (at_key sn (values (ch_addD ch)))) _ a2 Hr2) as (a3 & Hr3 & Hv3 & Hg3 & Hu3 & Hd3).
  { intros x Hx Hu. rewrite in_order_perm in Hx. apply added_at in Hx as [Hk Hx]. apply Hu2 in Hu as [Hu|(y & Hy & E)].
    - revert Hu. eapply applied_fresh; [done|apply elem_of_added; right; by eexists|]. by rewrite Hk.
    - destruct (changes_cases a0 a1 ch Hch) as (_ & Hvd & _). by eapply Hvd. }
  { rewrite in_order_perm. apply at_key_distinct, values_distinct. apply (ch_addD_ok _ _ _ Hch). }
  destruct (delete_all_spec (range _ (deletedDelegators dv)).*2 _ a3 Hr3) as (a4 & Hr4 & Hv4 & Hg4 & Hu4 & Hd4); [|done|].
  { intros x Hx. apply Hdin in Hx as [Hk Hx]. apply Hd3. rewrite Hd2, in_order_perm, added_at.
    destruct (ch_delD_ok _ _ _ Hch _ _ Hx) as [H|H]; [left|right; done].
    apply (ap_dels _ _ _ _ _ _ Hap). rewrite decide_False by (by rewrite Hk). done. }
  exists a4. split; [done|]. apply (applied_step P a); [done|done| | | |].
  - intros sn'. by rewrite Hv4, Hv3.
  - intros k x. rewrite Hd4, Hd3, Hd2, Hdin, in_order_perm, added_at. tauto.
  - intros t. rewrite Hu4, Hu3, in_order_perm. intros [Hu|(x & -> & Hx)%list_elem_of_fmap].
    + apply Hu2 in Hu as [Hu|(x & Hx & E)]; [by left|right]. exists x. split; [apply elem_of_added; left; by eexists|].
      split; [done|]. by apply (ch_addV_ok _ _ _ Hch).
    + right. apply added_at in Hx as [Hk Hx]. exists x. split; [apply elem_of_added; right; by eexists|done].
  - intros sn'. rewrite Hg4, Hg3. apply Hg2.
Qed.

Lemma apply_stakers_entries c d : apply_stakers c d = foldl apply_validator c (nested_entries range (validatorDiffs d)).*2.
Proof.
  unfold apply_stakers, nested_entries. revert c. induction (range _ (validatorDiffs d)) as [|[s m] l IH]; intros c; [done|].
  cbn [mbind list_bind fst snd]. rewrite !fmap_cons, fmap_app, foldl_app. cbn [foldl fst snd]. rewrite IH. f_equal.
  unfold subnet_entries. by rewrite <- list_fmap_compose.
Qed.

Lemma apply_entries_spec : ∀ es c P a, st_repr c a → applied ch a0 a1 ab P a → NoDup es.*1 →
  (∀ sn dv, (sn, dv) ∈ es → sn ∉ P ∧ entry_ok dv ch sn) →
  ∃ a', st_repr (foldl apply_validator c es.*2) a' ∧ applied ch a0 a1 ab (reverse es.*1 ++ P) a'.
Proof using Hb Hch BL SL range_perm.
  induction es as [|[sn dv] es IH]; intros c P a Hr Hap Hnd Hes; [by exists a|]. rewrite !fmap_cons. cbn [fst snd foldl].
  rewrite fmap_cons in Hnd. apply NoDup_cons in Hnd as [Hn Hnd]. destruct (Hes sn dv) as [HP He]; [by left|].
  destruct (apply_validator_spec c P a sn dv Hr Hap HP He) as (a' & Hr' & Hap').
  destruct (IH _ _ _ Hr' Hap' Hnd) as (a'' & Hr'' & Hap'').
  - intros sn' dv' Hin. destruct (Hes sn' dv') as [HP' He']; [by right|]. split; [|done]. apply not_elem_of_cons. split; [|done].
    intros ->. apply Hn. apply list_elem_of_fmap. by exists (sn, dv').
  - exists a''. split; [done|]. by rewrite reverse_cons, <- app_assoc.
Qed.

(** Applying the diff brings the base state to the stakers of the diff. *)
Lemma apply_stakers_spec c d : st_repr c ab → diff_rep d ch →
  ∃ a', st_repr (apply_stakers c d) a' ∧ ss_vals a' = ss_vals a1 ∧ ss_dels a' = ss_dels a1
    ∧ (∀ t, t ∈ ss_used a' → t ∈ ss_used ab ∨ t ∈ ss_used a1) ∧ (∀ sn, sn ∈ ss_gone a' → sn ∈ ss_gone ab ∨ sn ∈ ss_gone a1).
Proof using Hb Hch BL SL range_perm.
  intros Hr (He & _ & _). rewrite apply_stakers_entries.
  destruct (apply_entries_spec (nested_entries range (validatorDiffs d)) c [] ab Hr) as (a' & Hr' & Hap).
  - split; intros; rewrite ?decide_False by (apply not_elem_of_nil); [by rewrite (bo_vals _ _ _ Hb)|by rewrite (bo_dels _ _ _ Hb)|by left|by left].
  - by apply nested_entries_nodup.
  - intros [s n] dv Hin. split; [apply not_elem_of_nil|]. apply elem_of_nested_entries in Hin; [|done]. specialize (He s n). unfold diff_entry in He.
    by rewrite Hin in He.
  - rewrite app_nil_r in Hap. exists a'. split; [done|].
    assert (Hrest : ∀ sn, sn ∉ reverse (nested_entries range (validatorDiffs d)).*1 → entry_ok emptyDiff ch sn).
    { intros [s n] Hn. specialize (He s n). unfold diff_entry in He. destruct (nested_lookup (validatorDiffs d) s n) as [dv|] eqn:E; [|done].
      exfalso. apply Hn. rewrite elem_of_reverse. apply list_elem_of_fmap. exists ((s, n), dv). split; [done|]. by apply elem_of_nested_entries. }
    split_and!.
    + apply map_eq. intros sn. rewrite (ap_vals _ _ _ _ _ _ Hap). case_decide as Hn; [done|].
      destruct (Hrest sn Hn) as ([E1 E2] & _). by rewrite (ch_vals _ _ _ Hch), E1, E2.
    + apply map_eq. intros k. apply option_eq. intros x. rewrite (ap_dels _ _ _ _ _ _ Hap). case_decide as Hn; [done|].
      destruct (Hrest _ Hn) as (_ & Ea & Ed). rewrite (changes_dels a0 a1 ch k x Hch). split.
      * intros H. split; [by left|]. destruct (ch_delD ch !! k) as [y|] eqn:E; [|done]. exfalso.
        assert (Hy : y = x).
        { destruct (changes_cases a0 a1 ch Hch) as (_ & _ & Hsep). destruct (ch_delD_ok _ _ _ Hch _ _ E) as [H'|H']; [congruence|].
          exfalso. apply (Hsep x y); [apply elem_of_all; right; by eexists|apply elem_of_added; right; by eexists|].
          by rewrite (wf_dels _ (ch_wf0 _ _ _ Hch) _ _ H), (ch_addD_ok _ _ _ Hch _ _ H'). }
        subst y. assert (filter (λ p, key p.2 = key x) (ch_delD ch) !! k = Some x) as Hf by (by apply map_lookup_filter_Some).
        rewrite <- Ed in Hf. done.
      * intros [[H|H] _]; [done|]. exfalso. pose proof (ch_addD_ok _ _ _ Hch _ _ H) as Ek. subst k.
        assert (x ∈ at_key (key x) (values (ch_addD ch))) as Hin by (by apply added_at). cbn in Ea. rewrite Ea in Hin.
        by apply elem_of_nil in Hin.
    + intros t Ht. destruct (ap_used _ _ _ _ _ _ Hap _ Ht) as [?|(x & Hx & <- & _)]; [by left|right]. by apply (ch_added_new _ _ _ Hch).
    + intros sn Hs. destruct (ap_gone _ _ _ _ _ _ Hap _ Hs) as [?|[x Hx]]; [by left|right]. by apply (ch_delV_ok _ _ _ Hch _ _ Hx).
Qed.
End steps.
End apply.

(** ** Sequences of changes *)

Inductive staker_op :=
  | OpPutValidator (x : Staker)
  | OpDeleteValidator (x : Staker)
  | OpPutDelegator (x : Staker)
  | OpDeleteDelegator (x : Staker).

Definition run_op {C I} {S : Stakers C I} (c : C) (op : staker_op) : C :=
  match op with
  | OpPutValidator x => PutValidator c x
  | OpDeleteValidator x => DeleteValidator c x
  | OpPutDelegator x => PutDelegator c x
  | OpDeleteDelegator x => DeleteDelegator c x
  end.

Definition set_op (a : staker_set) (op : staker_op) : staker_set :=
  match op with
  | OpPutValidator x => put_validator a x
  | OpDeleteValidator x => delete_validator a x
  | OpPutDelegator x => put_delegator a x
  | OpDeleteDelegator x => delete_delegator a x
  end.

Definition op_ok (a : staker_set) (op : staker_op) : Prop :=
  match op with
  | OpPutValidator x => can_put_validator a x
  | OpDeleteValidator x => can_delete_validator a x
  | OpPutDelegator x => can_put_delegator a x
  | OpDeleteDelegator x => can_delete_delegator a x
  end.

Fixpoint ops_ok (a : staker_set) (ops : list staker_op) : Prop :=
  match ops with [] => True | op :: ops => op_ok a op ∧ ops_ok (set_op a op) ops end.

(** What a state returns for a validator: the staker, its delegators, and all the stakers *)
Definition reads {C I} {S : Stakers C I} {SI : StakerIterator I} {LI : IteratorLaws SI} (c : C) (s n : bytes) :
    result db_error Staker * list Staker * list Staker :=
  (GetValidator c s n, it_pending (GetDelegatorIterator c s n), it_pending (GetStakerIterator c)).

Definition set_reads (a : staker_set) (s n : bytes) : result db_error Staker * list Staker * list Staker :=
  (match ss_vals a !! (s, n) with Some x => Ok x | None => Err ErrNotFound end,
   in_order (at_key (s, n) (values (ss_dels a))), in_order (all_stakers a)).

Section runs.
Context {C I : Type} {S : Stakers C I} {SI : StakerIterator I} {LI : IteratorLaws SI} {SL : StakersLaws S LI}.

Lemma run_ops_repr ops : ∀ (c : C) a, st_repr c a → ops_ok a ops → st_repr (foldl run_op c ops) (foldl set_op a ops).
Proof.
  induction ops as [|op ops IH]; intros c a Hr Hok; [done|]. destruct Hok as [Hop Hok]. cbn [foldl]. apply IH; [|done].
  destruct op; cbn [run_op set_op op_ok] in *;
    [by apply law_PutValidator|by apply law_DeleteValidator|by apply law_PutDelegator|by apply law_DeleteDelegator].
Qed.

Lemma reads_repr (c : C) a s n : st_repr c a → reads c s n = set_reads a s n.
Proof.
  intros Hr. unfold reads, set_reads. destruct (law_GetDelegatorIterator c a s n Hr) as [_ ->].
  destruct (law_GetStakerIterator c a Hr) as [_ ->]. by rewrite (law_GetValidator c a s n Hr).
Qed.

Lemma run_ops_diff {B : BTree Staker} {BL : BTreeLaws B} a0 ops : ∀ (p : C) d a, diff_from a0 d a → ops_ok a ops →
  diff_from a0 (foldl run_op (p, d) ops).2 (foldl set_op a ops).
Proof.
  induction ops as [|op ops IH]; intros p d a Hr Hok; [done|]. destruct Hok as [Hop Hok]. cbn [foldl].
  destruct op; cbn [run_op set_op op_ok] in *; (apply IH; [|done]);
    [by apply diff_from_PutValidator|by apply diff_from_DeleteValidator|by apply diff_from_PutDelegator|by apply diff_from_DeleteDelegator].
Qed.

Lemma set_ops_gone ops : ∀ a, ss_gone a ⊆ ss_gone (foldl set_op a ops).
Proof.
  induction ops as [|op ops IH]; intros a; [done|]. cbn [foldl]. etrans; [|apply IH]. destruct op; cbn; set_solver.
Qed.
End runs.

Lemma set_reads_ext a a' s n : ss_vals a = ss_vals a' → ss_dels a = ss_dels a' → set_reads a s n = set_reads a' s n.
Proof. intros Hv Hd. unfold set_reads, all_stakers. by rewrite Hv, Hd. Qed.

(** ** The staker set of the last accepted state *)

(** The documented invariants: a validator that is added is not currently in the set and a staker
    that is removed is; and no two current stakers are of one transaction.  A staker that was
    removed may be added again. *)
Definition call_ok (a : staker_set) (op : staker_op) : Prop :=
  match op with
  | OpPutValidator x => ss_vals a !! key x = None ∧ TxID x ∉ TxID <$> all_stakers a
  | OpDeleteValidator x => ss_vals a !! key x = Some x
  | OpPutDelegator x => TxID x ∉ TxID <$> all_stakers a
  | OpDeleteDelegator x => ss_dels a !! TxID x = Some x
  end.

Fixpoint calls_ok (a : staker_set) (ops : list staker_op) : Prop :=
  match ops with [] => True | op :: ops => call_ok a op ∧ calls_ok (set_op a op) ops end.

(** The same stakers, without what was removed *)
Definition current (a : staker_set) : staker_set :=
  mkSet (ss_vals a) (ss_dels a) (list_to_set (TxID <$> all_stakers a)) ∅.

Lemma call_ok_current a op : call_ok a op → op_ok (current a) op.
Proof.
  destruct op as [x|x|x|x]; cbn [call_ok op_ok]; unfold can_put_validator, can_put_delegator; cbn [current ss_vals ss_used ss_gone];
    rewrite ?elem_of_list_to_set; try done. intros [? ?]. split; [done|]. split; [apply not_elem_of_empty|done].
Qed.

Lemma current_set_op a op : current (set_op (current a) op) = current (set_op a op).
Proof. by destruct op. Qed.

Section base.
Context {B : BTree Staker} {BL : BTreeLaws B}.

Lemma base_repr_current c a : base_repr c a → base_repr c (current a).
Proof.
  intros (Hwf & Ht & Hn & He). split; [|done]. destruct Hwf as [W1 W2 W3 W4]. split; [done|done| |done].
  intros x Hx. cbn [current ss_used]. apply elem_of_list_to_set. by apply list_elem_of_fmap_2.
Qed.

Lemma base_calls ops : ∀ c a, base_repr c (current a) → calls_ok a ops → base_repr (foldl run_op c ops) (current (foldl set_op a ops)).
Proof.
  induction ops as [|op ops IH]; intros c a Hr Hok; [done|]. destruct Hok as [Hop Hok]. cbn [foldl]. apply IH; [|done].
  rewrite <- current_set_op. apply base_repr_current. apply (run_ops_repr (SL := base_StakersLaws) [op] c (current a) Hr).
  split; [by apply call_ok_current|done].
Qed.

(** C13. The staker set of the last accepted state is an ordered set of stakers: after any
    sequence of additions and removals that respects the documented invariants (a validator
    that is added is not in the set, a staker that is removed is, no two current stakers are
    of one transaction; removed stakers may be added again), the validator of a subnet and
    node, the delegators of each validator and all the stakers, in order, are exactly those
    that the changes define. *)
Theorem base_stakers_refine (ops : list staker_op) (s n : bytes) :
  calls_ok (mkSet ∅ ∅ ∅ ∅) ops →
  reads (foldl run_op newBaseStakers ops) s n = set_reads (foldl set_op (mkSet ∅ ∅ ∅ ∅) ops) s n.
Proof.
  intros Hok. rewrite (reads_repr (SL := base_StakersLaws) _ (current (foldl set_op (mkSet ∅ ∅ ∅ ∅) ops))).
  - by apply set_reads_ext.
  - apply base_calls; [apply base_repr_current, newBaseStakers_repr|done].
Qed.
End base.

(** C12. A diff is as good as the changes themselves: for any parent state and any base state
    with the same stakers, reading through the diff after a sequence of changes returns the
    stakers that the changes define, and so does the base state after the diff was applied to
    it, in whatever order the maps of the diff are iterated.  Changes respect the documented
    invariants; a validator that was removed is not added again. *)
Theorem staker_diff_equivalent {B : BTree Staker} {BL : BTreeLaws B}
    {C I} {S : Stakers C I} {SI : StakerIterator I} {LI : IteratorLaws SI} {SL : StakersLaws S LI}
    {C' I'} {S' : Stakers C' I'} {SI' : StakerIterator I'} {LI' : IteratorLaws SI'} {SL' : StakersLaws S' LI'}
    (range : ∀ A, gmap bytes A → list (bytes * A)) (parent : C) (base : C') (a ab : staker_set) (ops : list staker_op) (s n : bytes) :
  (∀ A (m : gmap bytes A), range A m ≡ₚ map_to_list m) →
  st_repr parent a → st_repr base ab →
  ss_vals ab = ss_vals a → ss_dels ab = ss_dels a → ss_used ab ⊆ ss_used a →
  let start := mkSet (ss_vals a) (ss_dels a) (ss_used a) (ss_gone ab) in
  ops_ok start ops →
  let d := foldl run_op (parent, emptyDiffStakers) ops in
  reads d s n = set_reads (foldl set_op start ops) s n
  ∧ reads (apply_stakers range base d.2) s n = reads d s n.
Proof.
  intros Hrange Hp Hb Hv Hd Hu start Hok d.
  assert (Hread : reads d s n = set_reads (foldl set_op start ops) s n).
  { apply reads_repr, run_ops_repr; [|done]. by apply stack_new. }
  split; [done|]. rewrite Hread.
  destruct (run_ops_diff a ops parent emptyDiffStakers start) as (ch & Hdr & Hch);
    [apply diff_from_new; by apply (law_st_wf parent a)|done|]. fold d in Hdr.
  destruct (apply_stakers_spec range Hrange ch a (foldl set_op start ops) ab Hch) with (c := base) (d := d.2)
    as (a' & Hr' & Hv' & Hd' & _); [|done|done|].
  - split; [done|done| |].
    + intros x Hx Hin. by apply (ch_added_new _ _ _ Hch x Hx), Hu.
    + intros sn x Hx Hin. apply (ch_addV_ok _ _ _ Hch _ _ Hx). by apply (set_ops_gone ops start).
  - rewrite (reads_repr _ a' s n Hr'). by apply set_reads_ext.
Qed.

(** *** Examples, with sorted lists as trees *)

#[local] Existing Instance list_btree.
#[local] Existing Instance list_btree_laws.

Definition vdr1 : Staker := mkStaker [1] [1] None [] 10 0 5 0 5 11.
Definition vdr2 : Staker := mkStaker [2] [2] None [] 10 0 9 0 9 11.
Definition dlg1 : Staker := mkStaker [3] [1] None [] 3 0 4 0 4 10.
Definition dlg2 : Staker := mkStaker [4] [1] None [] 3 0 3 0 3 10.

Definition base_ops : list staker_op := [OpPutValidator vdr1; OpPutDelegator dlg1].
Definition diff_ops : list staker_op :=
  [OpPutValidator vdr2; OpPutDelegator dlg2; OpDeleteDelegator dlg1; OpDeleteDelegator dlg2; OpDeleteValidator vdr1].

Definition empty_set : staker_set := mkSet ∅ ∅ ∅ ∅.

Lemma base_ops_ok : ops_ok empty_set base_ops.
Proof. cbn -[union]. unfold can_put_validator, can_put_delegator. split_and!; try done; apply (bool_decide_unpack _); by vm_compute. Qed.

(** A validator is removed and added again. *)
Definition again_ops : list staker_op := [OpPutValidator vdr1; OpPutDelegator dlg1; OpDeleteValidator vdr1; OpPutValidator vdr1].

Lemma base_stakers_refine_witness :
  reads (foldl run_op newBaseStakers again_ops) [] [1] = (Ok vdr1, [dlg1], [dlg1; vdr1]).
Proof.
  rewrite (base_stakers_refine again_ops [] [1]); [by vm_compute|].
  cbn -[union lookup insert delete]. split_and!; try done; apply (bool_decide_unpack _); by vm_compute.
Defined.

Definition parent_set : staker_set := foldl set_op empty_set base_ops.
Definition parent_state : baseStakers := foldl run_op newBaseStakers base_ops.

Lemma diff_ops_ok : ops_ok parent_set diff_ops.
Proof.
  cbn -[union lookup insert delete]. unfold can_put_validator, can_put_delegator, can_delete_delegator, can_delete_validator.
  split_and!; try done; apply (bool_decide_unpack _); by vm_compute.
Qed.

Lemma staker_diff_equivalent_witness :
  reads (foldl run_op (parent_state, emptyDiffStakers) diff_ops) [] [1] = (Err ErrNotFound, [], [vdr2])
  ∧ reads (apply_stakers (λ A m, map_to_list m) parent_state (foldl run_op (parent_state, emptyDiffStakers) diff_ops).2) [] [1]
    = (Err ErrNotFound, [], [vdr2]).
Proof.
  assert (Hp : st_repr (StakersLaws := base_StakersLaws) parent_state parent_set)
    by exact (run_ops_repr base_ops newBaseStakers empty_set (newBaseStakers_repr ∅ ∅) base_ops_ok).
  destruct (staker_diff_equivalent (SL := base_StakersLaws) (SL' := base_StakersLaws) (λ A m, map_to_list m) parent_state parent_state parent_set parent_set diff_ops [] [1]
              (λ A m, reflexivity _) Hp Hp eq_refl eq_refl (reflexivity _) diff_ops_ok) as [H1 H2].
  rewrite H2, H1. split; by vm_compute.
Defined.
