(* ===== verification/Diff.v ===== *)
(** * Diffs of the P-chain state

    [vms/platformvm/state/diff.go]: the state of the P-chain after a block that is processing,
    as changes on top of the state after its parent, which is found by the identifier of the
    parent whenever it is read ([Versions]); and [Apply], which writes the changes to another
    state when the block is accepted.

    The interface [Chain] is a class.  Its laws speak of a [view]: what each read returns,
    and what was added where the interface has no read.  A diff on top of a state with the
    laws has them; [Apply] gives the state it is applied to the view of the diff.

    Transactions, UTXOs and owners are types of the model's parameters, as the code only stores
    them; a [SubnetTx] is a transaction whose unsigned part has the asserted type, which names
    a subnet.  Nil maps read like empty ones. *)

From S2P Require Import Prelude Btree Database StakerIterators Stakers StakerStack.

Open Scope Z_scope.

Inductive chain_error := ErrDB (e : db_error) | ErrMissingParentState.

Class ChainTypes := {
  Tx : Type;
  UTXO : Type;
  Owner : Type;
  tx_ID : Tx → bytes;
  utxo_InputID : UTXO → bytes;
}.

Record SubnetTx {T : ChainTypes} := mkSubnetTx { sub_tx : Tx; sub_subnet : bytes }.

(** ** The interface of a state *)

Class Chain {T : ChainTypes} (C I : Type) := {
  GetTimestamp : C → Z;
  SetTimestamp : C → Z → C;
  GetCurrentSupply : C → bytes → result chain_error Z;
  SetCurrentSupply : C → bytes → Z → C;
  GetCurrentValidator : C → bytes → bytes → result chain_error Staker;
  PutCurrentValidator : C → Staker → C;
  DeleteCurrentValidator : C → Staker → C;
  SetDelegateeReward : C → bytes → bytes → Z → option chain_error * C;
  GetDelegateeReward : C → bytes → bytes → result chain_error Z;
  GetCurrentDelegatorIterator : C → bytes → bytes → result chain_error I;
  PutCurrentDelegator : C → Staker → C;
  DeleteCurrentDelegator : C → Staker → C;
  GetCurrentStakerIterator : C → result chain_error I;
  GetPendingValidator : C → bytes → bytes → result chain_error Staker;
  PutPendingValidator : C → Staker → C;
  DeletePendingValidator : C → Staker → C;
  GetPendingDelegatorIterator : C → bytes → bytes → result chain_error I;
  PutPendingDelegator : C → Staker → C;
  DeletePendingDelegator : C → Staker → C;
  GetPendingStakerIterator : C → result chain_error I;
  AddSubnet : C → Tx → C;
  GetSubnetOwner : C → bytes → result chain_error Owner;
  SetSubnetOwner : C → bytes → Owner → C;
  GetSubnetTransformation : C → bytes → result chain_error SubnetTx;
  AddSubnetTransformation : C → SubnetTx → C;
  AddChain : C → SubnetTx → C;
  GetTx : C → bytes → result chain_error (Tx * Z);
  AddTx : C → Tx → Z → C;
  AddRewardUTXO : C → bytes → UTXO → C;
  GetUTXO : C → bytes → result chain_error UTXO;
  AddUTXO : C → UTXO → C;
  DeleteUTXO : C → bytes → C;
}.

(** ** The diff *)

Section diff.
Context {T : ChainTypes} {B : BTree Staker}.

Record diff := mkDiff {
  parentID : bytes;
  timestamp : Z;
  currentSupply : gmap bytes Z;
  currentStakerDiffs : diffStakers;
  modifiedDelegateeRewards : nested Z;
  pendingStakerDiffs : diffStakers;
  addedSubnets : list Tx;
  subnetOwners : gmap bytes Owner;
  transformedSubnets : gmap bytes SubnetTx;
  addedChains : gmap bytes (list SubnetTx);
  addedRewardUTXOs : gmap bytes (list UTXO);
  addedTxs : gmap bytes (Tx * Z);
  modifiedUTXOs : gmap bytes (option UTXO);
}.

(** Changes of one field *)
Definition set_timestamp d x :=
  mkDiff (parentID d) x (currentSupply d) (currentStakerDiffs d) (modifiedDelegateeRewards d)
    (pendingStakerDiffs d) (addedSubnets d) (subnetOwners d) (transformedSubnets d) (addedChains d)
    (addedRewardUTXOs d) (addedTxs d) (modifiedUTXOs d).
Definition set_supply d x :=
  mkDiff (parentID d) (timestamp d) x (currentStakerDiffs d) (modifiedDelegateeRewards d) (pendingStakerDiffs
    d) (addedSubnets d) (subnetOwners d) (transformedSubnets d) (addedChains d) (addedRewardUTXOs d) (addedTxs
    d) (modifiedUTXOs d).
Definition set_current d x :=
  mkDiff (parentID d) (timestamp d) (currentSupply d) x (modifiedDelegateeRewards d) (pendingStakerDiffs d)
    (addedSubnets d) (subnetOwners d) (transformedSubnets d) (addedChains d) (addedRewardUTXOs d) (addedTxs d)
    (modifiedUTXOs d).
Definition set_rewards d x :=
  mkDiff (parentID d) (timestamp d) (currentSupply d) (currentStakerDiffs d) x (pendingStakerDiffs d)
    (addedSubnets d) (subnetOwners d) (transformedSubnets d) (addedChains d) (addedRewardUTXOs d) (addedTxs d)
    (modifiedUTXOs d).
Definition set_pending d x :=
  mkDiff (parentID d) (timestamp d) (currentSupply d) (currentStakerDiffs d) (modifiedDelegateeRewards d) x
    (addedSubnets d) (subnetOwners d) (transformedSubnets d) (addedChains d) (addedRewardUTXOs d) (addedTxs d)
    (modifiedUTXOs d).
Definition set_subnets d x :=
  mkDiff (parentID d) (timestamp d) (currentSupply d) (currentStakerDiffs d) (modifiedDelegateeRewards d)
    (pendingStakerDiffs d) x (subnetOwners d) (transformedSubnets d) (addedChains d) (addedRewardUTXOs d)
    (addedTxs d) (modifiedUTXOs d).
Definition set_owners d x :=
  mkDiff (parentID d) (timestamp d) (currentSupply d) (currentStakerDiffs d) (modifiedDelegateeRewards d)
    (pendingStakerDiffs d) (addedSubnets d) x (transformedSubnets d) (addedChains d) (addedRewardUTXOs d)
    (addedTxs d) (modifiedUTXOs d).
Definition set_transformed d x :=
  mkDiff (parentID d) (timestamp d) (currentSupply d) (currentStakerDiffs d) (modifiedDelegateeRewards d)
    (pendingStakerDiffs d) (addedSubnets d) (subnetOwners d) x (addedChains d) (addedRewardUTXOs d) (addedTxs
    d) (modifiedUTXOs d).
Definition set_chains d x :=
  mkDiff (parentID d) (timestamp d) (currentSupply d) (currentStakerDiffs d) (modifiedDelegateeRewards d)
    (pendingStakerDiffs d) (addedSubnets d) (subnetOwners d) (transformedSubnets d) x (addedRewardUTXOs d)
    (addedTxs d) (modifiedUTXOs d).
Definition set_rewardUTXOs d x :=
  mkDiff (parentID d) (timestamp d) (currentSupply d) (currentStakerDiffs d) (modifiedDelegateeRewards d)
    (pendingStakerDiffs d) (addedSubnets d) (subnetOwners d) (transformedSubnets d) (addedChains d) x
    (addedTxs d) (modifiedUTXOs d).
Definition set_txs d x :=
  mkDiff (parentID d) (timestamp d) (currentSupply d) (currentStakerDiffs d) (modifiedDelegateeRewards d)
    (pendingStakerDiffs d) (addedSubnets d) (subnetOwners d) (transformedSubnets d) (addedChains d)
    (addedRewardUTXOs d) x (modifiedUTXOs d).
Definition set_utxos d x :=
  mkDiff (parentID d) (timestamp d) (currentSupply d) (currentStakerDiffs d) (modifiedDelegateeRewards d)
    (pendingStakerDiffs d) (addedSubnets d) (subnetOwners d) (transformedSubnets d) (addedChains d)
    (addedRewardUTXOs d) (addedTxs d) x.

(** *** Writes *)

Definition d_SetTimestamp (d : diff) (t : Z) : diff := set_timestamp d t.
Definition d_SetCurrentSupply (d : diff) (subnetID : bytes) (supply : Z) : diff :=
  set_supply d (<[subnetID := supply]> (currentSupply d)).
Definition d_SetDelegateeReward (d : diff) (subnetID nodeID : bytes) (amount : Z) : option chain_error * diff :=
  (None, set_rewards d (nested_insert (modifiedDelegateeRewards d) subnetID nodeID amount)).
Definition d_PutCurrentValidator (d : diff) (staker : Staker) : diff := set_current d (diff_PutValidator (currentStakerDiffs d) staker).
Definition d_DeleteCurrentValidator (d : diff) (staker : Staker) : diff := set_current d (diff_DeleteValidator (currentStakerDiffs d) staker).
Definition d_PutCurrentDelegator (d : diff) (staker : Staker) : diff := set_current d (diff_PutDelegator (currentStakerDiffs d) staker).
Definition d_DeleteCurrentDelegator (d : diff) (staker : Staker) : diff := set_current d (diff_DeleteDelegator (currentStakerDiffs d) staker).
Definition d_PutPendingValidator (d : diff) (staker : Staker) : diff := set_pending d (diff_PutValidator (pendingStakerDiffs d) staker).
Definition d_DeletePendingValidator (d : diff) (staker : Staker) : diff := set_pending d (diff_DeleteValidator (pendingStakerDiffs d) staker).
Definition d_PutPendingDelegator (d : diff) (staker : Staker) : diff := set_pending d (diff_PutDelegator (pendingStakerDiffs d) staker).
Definition d_DeletePendingDelegator (d : diff) (staker : Staker) : diff := set_pending d (diff_DeleteDelegator (pendingStakerDiffs d) staker).
Definition d_AddSubnet (d : diff) (createSubnetTx : Tx) : diff := set_subnets d (addedSubnets d ++ [createSubnetTx]).
Definition d_SetSubnetOwner (d : diff) (subnetID : bytes) (owner : Owner) : diff := set_owners d (<[subnetID := owner]> (subnetOwners d)).
Definition d_AddSubnetTransformation (d : diff) (tx : SubnetTx) : diff := set_transformed d (<[sub_subnet tx := tx]> (transformedSubnets d)).
Definition d_AddChain (d : diff) (tx : SubnetTx) : diff :=
  set_chains d (<[sub_subnet tx := default [] (addedChains d !! sub_subnet tx) ++ [tx]]> (addedChains d)).
Definition d_AddTx (d : diff) (tx : Tx) (status : Z) : diff := set_txs d (<[tx_ID tx := (tx, status)]> (addedTxs d)).
Definition d_AddRewardUTXO (d : diff) (txID : bytes) (utxo : UTXO) : diff :=
  set_rewardUTXOs d (<[txID := default [] (addedRewardUTXOs d !! txID) ++ [utxo]]> (addedRewardUTXOs d)).
Definition d_AddUTXO (d : diff) (utxo : UTXO) : diff := set_utxos d (<[utxo_InputID utxo := Some utxo]> (modifiedUTXOs d)).
Definition d_DeleteUTXO (d : diff) (utxoID : bytes) : diff := set_utxos d (<[utxoID := None]> (modifiedUTXOs d)).

(** *** Reads *)

Section reads.
Context {C I : Type} {CH : Chain C I} {SI : StakerIterator I} (GetState : bytes → option C).

Notation diff_iterator := (maskedIterator (I := mergedIterator (I := I + tree_iterator))).

Definition NewDiff (parent : bytes) : result chain_error diff :=
  match GetState parent with
  | None => Err ErrMissingParentState
  | Some parentState =>
      Ok (mkDiff parent (GetTimestamp parentState) ∅ emptyDiffStakers ∅ emptyDiffStakers [] ∅ ∅ ∅ ∅ ∅ ∅)
  end.

(** Ask the parent state. *)
Definition ask {A} (d : diff) (f : C → result chain_error A) : result chain_error A :=
  match GetState (parentID d) with None => Err ErrMissingParentState | Some parentState => f parentState end.

Definition d_GetTimestamp (d : diff) : Z := timestamp d.

Definition d_GetCurrentSupply (d : diff) (subnetID : bytes) : result chain_error Z :=
  match currentSupply d !! subnetID with
  | Some supply => Ok supply
  | None => ask d (λ p, GetCurrentSupply p subnetID)
  end.

(** The shape of [GetCurrentValidator] and [GetPendingValidator] *)
Definition d_GetValidator (s : diffStakers) (d : diff) (f : C → bytes → bytes → result chain_error Staker) (subnetID nodeID : bytes) :
    result chain_error Staker :=
  let '(newValidator, status) := diff_GetValidator s subnetID nodeID in
  match status, newValidator with
  | added, Some validator => Ok validator
  | added, None => Err (ErrDB ErrNotFound)
  | deleted, _ => Err (ErrDB ErrNotFound)
  | unmodified, _ => ask d (λ p, f p subnetID nodeID)
  end.

Definition d_GetCurrentValidator (d : diff) : bytes → bytes → result chain_error Staker :=
  d_GetValidator (currentStakerDiffs d) d GetCurrentValidator.
Definition d_GetPendingValidator (d : diff) : bytes → bytes → result chain_error Staker :=
  d_GetValidator (pendingStakerDiffs d) d GetPendingValidator.

Definition d_GetDelegateeReward (d : diff) (subnetID nodeID : bytes) : result chain_error Z :=
  match nested_lookup (modifiedDelegateeRewards d) subnetID nodeID with
  | Some amount => Ok amount
  | None => ask d (λ p, GetDelegateeReward p subnetID nodeID)
  end.

Definition d_GetCurrentDelegatorIterator (d : diff) (subnetID nodeID : bytes) : result chain_error diff_iterator :=
  let? parentIterator := ask d (λ p, GetCurrentDelegatorIterator p subnetID nodeID) in
  Ok (diff_GetDelegatorIterator (currentStakerDiffs d) parentIterator subnetID nodeID).
Definition d_GetCurrentStakerIterator (d : diff) : result chain_error diff_iterator :=
  let? parentIterator := ask d (λ p, GetCurrentStakerIterator p) in
  Ok (diff_GetStakerIterator (currentStakerDiffs d) parentIterator).
Definition d_GetPendingDelegatorIterator (d : diff) (subnetID nodeID : bytes) : result chain_error diff_iterator :=
  let? parentIterator := ask d (λ p, GetPendingDelegatorIterator p subnetID nodeID) in
  Ok (diff_GetDelegatorIterator (pendingStakerDiffs d) parentIterator subnetID nodeID).
Definition d_GetPendingStakerIterator (d : diff) : result chain_error diff_iterator :=
  let? parentIterator := ask d (λ p, GetPendingStakerIterator p) in
  Ok (diff_GetStakerIterator (pendingStakerDiffs d) parentIterator).

Definition d_GetSubnetOwner (d : diff) (subnetID : bytes) : result chain_error Owner :=
  match subnetOwners d !! subnetID with Some owner => Ok owner | None => ask d (λ p, GetSubnetOwner p subnetID) end.
Definition d_GetSubnetTransformation (d : diff) (subnetID : bytes) : result chain_error SubnetTx :=
  match transformedSubnets d !! subnetID with Some tx => Ok tx | None => ask d (λ p, GetSubnetTransformation p subnetID) end.
Definition d_GetTx (d : diff) (txID : bytes) : result chain_error (Tx * Z) :=
  match addedTxs d !! txID with Some tx => Ok tx | None => ask d (λ p, GetTx p txID) end.
Definition d_GetUTXO (d : diff) (utxoID : bytes) : result chain_error UTXO :=
  match modifiedUTXOs d !! utxoID with
  | None => ask d (λ p, GetUTXO p utxoID)
  | Some None => Err (ErrDB ErrNotFound)
  | Some (Some utxo) => Ok utxo
  end.

#[export] Instance diff_Chain : Chain diff diff_iterator := {|
  GetTimestamp := d_GetTimestamp; SetTimestamp := d_SetTimestamp;
  GetCurrentSupply := d_GetCurrentSupply; SetCurrentSupply := d_SetCurrentSupply;
  GetCurrentValidator := d_GetCurrentValidator; PutCurrentValidator := d_PutCurrentValidator;
  DeleteCurrentValidator := d_DeleteCurrentValidator;
  SetDelegateeReward := d_SetDelegateeReward; GetDelegateeReward := d_GetDelegateeReward;
  GetCurrentDelegatorIterator := d_GetCurrentDelegatorIterator; PutCurrentDelegator := d_PutCurrentDelegator;
  DeleteCurrentDelegator := d_DeleteCurrentDelegator; GetCurrentStakerIterator := d_GetCurrentStakerIterator;
  GetPendingValidator := d_GetPendingValidator; PutPendingValidator := d_PutPendingValidator;
  DeletePendingValidator := d_DeletePendingValidator;
  GetPendingDelegatorIterator := d_GetPendingDelegatorIterator; PutPendingDelegator := d_PutPendingDelegator;
  DeletePendingDelegator := d_DeletePendingDelegator; GetPendingStakerIterator := d_GetPendingStakerIterator;
  AddSubnet := d_AddSubnet; GetSubnetOwner := d_GetSubnetOwner; SetSubnetOwner := d_SetSubnetOwner;
  GetSubnetTransformation := d_GetSubnetTransformation; AddSubnetTransformation := d_AddSubnetTransformation;
  AddChain := d_AddChain; GetTx := d_GetTx; AddTx := d_AddTx; AddRewardUTXO := d_AddRewardUTXO;
  GetUTXO := d_GetUTXO; AddUTXO := d_AddUTXO; DeleteUTXO := d_DeleteUTXO;
|}.
End reads.

(** *** [Apply] *)

Section apply.
Context {C I : Type} {CH : Chain C I} (range : ∀ A, gmap bytes A → list (bytes * A)).

(** One of the two staker sets of a state, for the part of [Apply] they share *)
Definition staker_ops {J} (getV : C → bytes → bytes → result chain_error Staker) (putV delV : C → Staker → C)
    (getD : C → bytes → bytes → J) (putD delD : C → Staker → C) (getS : C → J) : Stakers C J := {|
  GetValidator c s n := match getV c s n with Ok x => Ok x | Err _ => Err ErrNotFound end;
  PutValidator := putV; DeleteValidator := delV;
  GetDelegatorIterator := getD; PutDelegator := putD; DeleteDelegator := delD; GetStakerIterator := getS;
|}.

(** An iterator that could not be had is empty. *)
Definition ok_iterator (r : result chain_error I) : I + tree_iterator := match r with Ok it => inl it | Err _ => inr EmptyIterator end.

Definition current_ops : Stakers C (I + tree_iterator) :=
  staker_ops GetCurrentValidator PutCurrentValidator DeleteCurrentValidator
    (λ c s n, ok_iterator (GetCurrentDelegatorIterator c s n)) PutCurrentDelegator DeleteCurrentDelegator
    (λ c, ok_iterator (GetCurrentStakerIterator c)).
Definition pending_ops : Stakers C (I + tree_iterator) :=
  staker_ops GetPendingValidator PutPendingValidator DeletePendingValidator
    (λ c s n, ok_iterator (GetPendingDelegatorIterator c s n)) PutPendingDelegator DeletePendingDelegator
    (λ c, ok_iterator (GetPendingStakerIterator c)).

(** The loop over the rewards stops at the first error. *)
Fixpoint apply_rewards (c : C) (l : list ((bytes * bytes) * Z)) : option chain_error * C :=
  match l with
  | [] => (None, c)
  | ((subnetID, nodeID), amount) :: l =>
      match SetDelegateeReward c subnetID nodeID amount with
      | (Some err, c) => (Some err, c)
      | (None, c) => apply_rewards c l
      end
  end.

Definition Apply (d : diff) (baseState : C) : option chain_error * C :=
  let c := SetTimestamp baseState (timestamp d) in
  let c := foldl (λ c e, SetCurrentSupply c e.1 e.2) c (range _ (currentSupply d)) in
  let c := apply_stakers (S := current_ops) range c (currentStakerDiffs d) in
  match apply_rewards c (nested_entries range (modifiedDelegateeRewards d)) with
  | (Some err, c) => (Some err, c)
  | (None, c) =>
      let c := apply_stakers (S := pending_ops) range c (pendingStakerDiffs d) in
      let c := foldl AddSubnet c (addedSubnets d) in
      let c := foldl AddSubnetTransformation c (range _ (transformedSubnets d)).*2 in
      let c := foldl (λ c chains, foldl AddChain c chains) c (range _ (addedChains d)).*2 in
      let c := foldl (λ c tx, AddTx c tx.1 tx.2) c (range _ (addedTxs d)).*2 in
      let c := foldl (λ c e, foldl (λ c utxo, AddRewardUTXO c e.1 utxo) c e.2) c (range _ (addedRewardUTXOs d)) in
      let c := foldl (λ c e, match e.2 with Some utxo => AddUTXO c utxo | None => DeleteUTXO c e.1 end) c (range _ (modifiedUTXOs d)) in
      (None, foldl (λ c e, SetSubnetOwner c e.1 e.2) c (range _ (subnetOwners d)))
  end.
End apply.
End diff.

(** ** What a state says *)

Section view.
Context {T : ChainTypes}.

(** The result of every read, and what was added where there is none.  Of the two staker sets
    the abstract sets of [Stakers.v]. *)
Record view := mkView {
  v_time : Z;
  v_supply : bytes → result chain_error Z;
  v_current : staker_set;
  v_reward : bytes → bytes → result chain_error Z;
  v_pending : staker_set;
  v_subnets : list Tx;
  v_owner : bytes → result chain_error Owner;
  v_transform : bytes → result chain_error SubnetTx;
  v_chains : bytes → list SubnetTx;
  v_tx : bytes → result chain_error (Tx * Z);
  v_rewardUTXOs : bytes → list UTXO;
  v_utxo : bytes → result chain_error UTXO;
}.

Record view_eq (v w : view) : Prop := {
  eq_time : v_time v = v_time w;
  eq_supply s : v_supply v s = v_supply w s;
  eq_current : v_current v = v_current w;
  eq_reward s n : v_reward v s n = v_reward w s n;
  eq_pending : v_pending v = v_pending w;
  eq_subnets : v_subnets v = v_subnets w;
  eq_owner s : v_owner v s = v_owner w s;
  eq_transform s : v_transform v s = v_transform w s;
  eq_chains s : v_chains v s = v_chains w s;
  eq_tx t : v_tx v t = v_tx w t;
  eq_rewardUTXOs t : v_rewardUTXOs v t = v_rewardUTXOs w t;
  eq_utxo u : v_utxo v u = v_utxo w u;
}.

#[export] Instance view_eq_trans : Transitive view_eq.
Proof. intros u v w H1 H2. destruct H1, H2. split; intros; etrans; eauto. Qed.

Definition fn_set {A} (f : bytes → A) (k : bytes) (x : A) : bytes → A := λ k', if decide (k' = k) then x else f k'.
Definition fn_set2 {A} (f : bytes → bytes → A) (k n : bytes) (x : A) : bytes → bytes → A :=
  λ k' n', if decide (k' = k ∧ n' = n) then x else f k' n'.

(** The change of one component *)
Definition w_time v x :=
  mkView x (v_supply v) (v_current v) (v_reward v) (v_pending v) (v_subnets v) (v_owner v) (v_transform v)
    (v_chains v) (v_tx v) (v_rewardUTXOs v) (v_utxo v).
Definition w_supply v x :=
  mkView (v_time v) x (v_current v) (v_reward v) (v_pending v) (v_subnets v) (v_owner v) (v_transform v)
    (v_chains v) (v_tx v) (v_rewardUTXOs v) (v_utxo v).
Definition w_current v x :=
  mkView (v_time v) (v_supply v) x (v_reward v) (v_pending v) (v_subnets v) (v_owner v) (v_transform v)
    (v_chains v) (v_tx v) (v_rewardUTXOs v) (v_utxo v).
Definition w_reward v x :=
  mkView (v_time v) (v_supply v) (v_current v) x (v_pending v) (v_subnets v) (v_owner v) (v_transform v)
    (v_chains v) (v_tx v) (v_rewardUTXOs v) (v_utxo v).
Definition w_pending v x :=
  mkView (v_time v) (v_supply v) (v_current v) (v_reward v) x (v_subnets v) (v_owner v) (v_transform v)
    (v_chains v) (v_tx v) (v_rewardUTXOs v) (v_utxo v).
Definition w_subnets v x :=
  mkView (v_time v) (v_supply v) (v_current v) (v_reward v) (v_pending v) x (v_owner v) (v_transform v)
    (v_chains v) (v_tx v) (v_rewardUTXOs v) (v_utxo v).
Definition w_owner v x :=
  mkView (v_time v) (v_supply v) (v_current v) (v_reward v) (v_pending v) (v_subnets v) x (v_transform v)
    (v_chains v) (v_tx v) (v_rewardUTXOs v) (v_utxo v).
Definition w_transform v x :=
  mkView (v_time v) (v_supply v) (v_current v) (v_reward v) (v_pending v) (v_subnets v) (v_owner v) x
    (v_chains v) (v_tx v) (v_rewardUTXOs v) (v_utxo v).
Definition w_chains v x :=
  mkView (v_time v) (v_supply v) (v_current v) (v_reward v) (v_pending v) (v_subnets v) (v_owner v)
    (v_transform v) x (v_tx v) (v_rewardUTXOs v) (v_utxo v).
Definition w_tx v x :=
  mkView (v_time v) (v_supply v) (v_current v) (v_reward v) (v_pending v) (v_subnets v) (v_owner v)
    (v_transform v) (v_chains v) x (v_rewardUTXOs v) (v_utxo v).
Definition w_rewardUTXOs v x :=
  mkView (v_time v) (v_supply v) (v_current v) (v_reward v) (v_pending v) (v_subnets v) (v_owner v)
    (v_transform v) (v_chains v) (v_tx v) x (v_utxo v).
Definition w_utxo v x :=
  mkView (v_time v) (v_supply v) (v_current v) (v_reward v) (v_pending v) (v_subnets v) (v_owner v)
    (v_transform v) (v_chains v) (v_tx v) (v_rewardUTXOs v) x.

(** A change of the state and when it may be made *)
Inductive chain_op :=
  | OpTimestamp (t : Z)
  | OpSupply (s : bytes) (x : Z)
  | OpCurrent (op : staker_op)
  | OpPending (op : staker_op)
  | OpSubnet (tx : Tx)
  | OpOwner (s : bytes) (o : Owner)
  | OpTransform (tx : SubnetTx)
  | OpChain (tx : SubnetTx)
  | OpTx (tx : Tx) (status : Z)
  | OpRewardUTXO (t : bytes) (u : UTXO)
  | OpAddUTXO (u : UTXO)
  | OpDeleteUTXO (u : bytes).

Definition view_op (v : view) (op : chain_op) : view :=
  match op with
  | OpTimestamp t => w_time v t
  | OpSupply s x => w_supply v (fn_set (v_supply v) s (Ok x))
  | OpCurrent op => w_current v (set_op (v_current v) op)
  | OpPending op => w_pending v (set_op (v_pending v) op)
  | OpSubnet tx => w_subnets v (v_subnets v ++ [tx])
  | OpOwner s o => w_owner v (fn_set (v_owner v) s (Ok o))
  | OpTransform tx => w_transform v (fn_set (v_transform v) (sub_subnet tx) (Ok tx))
  | OpChain tx => w_chains v (fn_set (v_chains v) (sub_subnet tx) (v_chains v (sub_subnet tx) ++ [tx]))
  | OpTx tx status => w_tx v (fn_set (v_tx v) (tx_ID tx) (Ok (tx, status)))
  | OpRewardUTXO t u => w_rewardUTXOs v (fn_set (v_rewardUTXOs v) t (v_rewardUTXOs v t ++ [u]))
  | OpAddUTXO u => w_utxo v (fn_set (v_utxo v) (utxo_InputID u) (Ok u))
  | OpDeleteUTXO u => w_utxo v (fn_set (v_utxo v) u (Err (ErrDB ErrNotFound)))
  end.

Definition view_set_reward (v : view) (s n : bytes) (x : Z) : view := w_reward v (fn_set2 (v_reward v) s n (Ok x)).

Definition view_op_ok (v : view) (op : chain_op) : Prop :=
  match op with
  | OpCurrent op => op_ok (v_current v) op
  | OpPending op => op_ok (v_pending v) op
  | _ => True
  end.

Definition run_chain_op {C I} {CH : Chain C I} (c : C) (op : chain_op) : C :=
  match op with
  | OpTimestamp t => SetTimestamp c t
  | OpSupply s x => SetCurrentSupply c s x
  | OpCurrent op => run_op (S := current_ops) c op
  | OpPending op => run_op (S := pending_ops) c op
  | OpSubnet tx => AddSubnet c tx
  | OpOwner s o => SetSubnetOwner c s o
  | OpTransform tx => AddSubnetTransformation c tx
  | OpChain tx => AddChain c tx
  | OpTx tx status => AddTx c tx status
  | OpRewardUTXO t u => AddRewardUTXO c t u
  | OpAddUTXO u => AddUTXO c u
  | OpDeleteUTXO u => DeleteUTXO c u
  end.

(** An iterator over the stakers of a list, in order *)
Definition lists {I} {SI : StakerIterator I} {LI : IteratorLaws SI} (r : result chain_error I) (l : list Staker) : Prop :=
  ∃ it, r = Ok it ∧ it_ok it ∧ it_pending it = in_order l.

Definition found (x : option Staker) : result chain_error Staker :=
  match x with Some x => Ok x | None => Err (ErrDB ErrNotFound) end.

(** The reads of a state return what the view says. *)
Record reads_view {C I} {CH : Chain C I} {SI : StakerIterator I} {LI : IteratorLaws SI} (c : C) (v : view) : Prop := {
  rd_time : GetTimestamp c = v_time v;
  rd_supply s : GetCurrentSupply c s = v_supply v s;
  rd_validator s n : GetCurrentValidator c s n = found (ss_vals (v_current v) !! (s, n));
  rd_reward s n : GetDelegateeReward c s n = v_reward v s n;
  rd_delegators s n : lists (GetCurrentDelegatorIterator c s n) (at_key (s, n) (values (ss_dels (v_current v))));
  rd_stakers : lists (GetCurrentStakerIterator c) (all_stakers (v_current v));
  rd_pvalidator s n : GetPendingValidator c s n = found (ss_vals (v_pending v) !! (s, n));
  rd_pdelegators s n : lists (GetPendingDelegatorIterator c s n) (at_key (s, n) (values (ss_dels (v_pending v))));
  rd_pstakers : lists (GetPendingStakerIterator c) (all_stakers (v_pending v));
  rd_owner s : GetSubnetOwner c s = v_owner v s;
  rd_transform s : GetSubnetTransformation c s = v_transform v s;
  rd_tx t : GetTx c t = v_tx v t;
  rd_utxo u : GetUTXO c u = v_utxo v u;
}.

(** The delegatee reward of a validator that the state does not know cannot be set: this write
    may fail, and nothing is said of the state it leaves then. *)
Class ChainLaws {C I} (CH : Chain C I) {SI : StakerIterator I} (LI : IteratorLaws SI) := {
  c_repr : C → view → Prop;
  law_c_ext c v w : view_eq v w → c_repr c v → c_repr c w;
  law_c_wf c v : c_repr c v → ss_wf (v_current v) ∧ ss_wf (v_pending v);
  law_c_reads c v : c_repr c v → reads_view c v;
  law_c_op c v op : c_repr c v → view_op_ok v op → c_repr (run_chain_op c op) (view_op v op);
  law_c_reward c v s n x c' : c_repr c v → SetDelegateeReward c s n x = (None, c') → c_repr c' (view_set_reward v s n x);
}.
End view.

(** ** A diff on top of a state *)

(** A read that falls back to the parent *)
Definition over {A} (x : option A) (r : result chain_error A) : result chain_error A :=
  match x with Some x => Ok x | None => r end.

Section diff_laws.
Context {T : ChainTypes} {B : BTree Staker} {BL : BTreeLaws B}.

(** The diff takes the view [v0] of its parent to [v]. *)
Record overlay (d : diff) (v0 v : view) : Prop := {
  ov_time : v_time v = timestamp d;
  ov_supply s : v_supply v s = over (currentSupply d !! s) (v_supply v0 s);
  ov_current : diff_from (v_current v0) (currentStakerDiffs d) (v_current v);
  ov_reward s n : v_reward v s n = over (nested_lookup (modifiedDelegateeRewards d) s n) (v_reward v0 s n);
  ov_pending : diff_from (v_pending v0) (pendingStakerDiffs d) (v_pending v);
  ov_subnets : v_subnets v = v_subnets v0 ++ addedSubnets d;
  ov_owner s : v_owner v s = over (subnetOwners d !! s) (v_owner v0 s);
  ov_transform s : v_transform v s = over (transformedSubnets d !! s) (v_transform v0 s);
  ov_chains s : v_chains v s = v_chains v0 s ++ default [] (addedChains d !! s);
  ov_tx t : v_tx v t = over (addedTxs d !! t) (v_tx v0 t);
  ov_rewardUTXOs t : v_rewardUTXOs v t = v_rewardUTXOs v0 t ++ default [] (addedRewardUTXOs d !! t);
  ov_utxo u : v_utxo v u
    = match modifiedUTXOs d !! u with Some (Some x) => Ok x | Some None => Err (ErrDB ErrNotFound) | None => v_utxo v0 u end;
  (* the maps are keyed by the identifiers of their values *)
  ov_transform_key s tx : transformedSubnets d !! s = Some tx → sub_subnet tx = s;
  ov_chains_key s txs : addedChains d !! s = Some txs → Forall (λ tx, sub_subnet tx = s) txs;
  ov_tx_key t tx : addedTxs d !! t = Some tx → tx_ID tx.1 = t;
  ov_utxo_key u x : modifiedUTXOs d !! u = Some (Some x) → utxo_InputID x = u;
}.

Lemma over_insert {A} (m : gmap bytes A) k x (f g : bytes → result chain_error A) :
  (∀ s, f s = over (m !! s) (g s)) → ∀ s, fn_set f k (Ok x) s = over (<[k := x]> m !! s) (g s).
Proof.
  intros H s. unfold fn_set. destruct (decide (s = k)) as [->|E].
  - by rewrite lookup_insert_eq.
  - by rewrite lookup_insert_ne, <- H.
Qed.

Lemma app_insert {A} (m : gmap bytes (list A)) k x (f g : bytes → list A) :
  (∀ s, f s = g s ++ default [] (m !! s)) →
  ∀ s, fn_set f k (f k ++ [x]) s = g s ++ default [] (<[k := default [] (m !! k) ++ [x]]> m !! s).
Proof.
  intros H s. unfold fn_set. destruct (decide (s = k)) as [->|E].
  - rewrite lookup_insert_eq, H. cbn. by rewrite <- app_assoc.
  - by rewrite lookup_insert_ne, <- H.
Qed.

Lemma overlay_ext d v0 v w : view_eq v w → overlay d v0 v → overlay d v0 w.
Proof.
  intros E H. split; intros.
  - rewrite <- (eq_time _ _ E). apply H.
  - rewrite <- (eq_supply _ _ E). apply H.
  - rewrite <- (eq_current _ _ E). apply H.
  - rewrite <- (eq_reward _ _ E). apply H.
  - rewrite <- (eq_pending _ _ E). apply H.
  - rewrite <- (eq_subnets _ _ E). apply H.
  - rewrite <- (eq_owner _ _ E). apply H.
  - rewrite <- (eq_transform _ _ E). apply H.
  - rewrite <- (eq_chains _ _ E). apply H.
  - rewrite <- (eq_tx _ _ E). apply H.
  - rewrite <- (eq_rewardUTXOs _ _ E). apply H.
  - rewrite <- (eq_utxo _ _ E). apply H.
  - by apply (ov_transform_key _ _ _ H).
  - by apply (ov_chains_key _ _ _ H).
  - by apply (ov_tx_key _ _ _ H).
  - by apply (ov_utxo_key _ _ _ H).
Qed.

Lemma diff_from_op a0 d a op : diff_from a0 d a → op_ok a op →
  diff_from a0 match op with
               | OpPutValidator x => diff_PutValidator d x
               | OpDeleteValidator x => diff_DeleteValidator d x
               | OpPutDelegator x => diff_PutDelegator d x
               | OpDeleteDelegator x => diff_DeleteDelegator d x
               end (set_op a op).
Proof.
  intros Hd Hop. destruct op; cbn [op_ok set_op] in *;
    [by apply diff_from_PutValidator|by apply diff_from_DeleteValidator|by apply diff_from_PutDelegator|by apply diff_from_DeleteDelegator].
Qed.

Context {C I : Type} {CH : Chain C I} {SI : StakerIterator I} {LI : IteratorLaws SI} {CL : ChainLaws CH LI}.
Context (GetState : bytes → option C).

#[local] Instance diff_CH : Chain diff _ := diff_Chain GetState.

Lemma overlay_op d v0 v op : overlay d v0 v → view_op_ok v op → overlay (run_chain_op d op) v0 (view_op v op).
Proof.
  intros H Hop. pose proof (ov_current _ _ _ H) as Hc. pose proof (ov_pending _ _ _ H) as Hp.
  destruct op as [t|s x|op|op|tx|s o|tx|tx|tx st|t u|u|u]; cbn [view_op_ok] in Hop.
  - destruct H; by split.
  - destruct H; split; try done. by apply over_insert.
  - pose proof (diff_from_op _ _ _ _ Hc Hop) as Hc'. destruct H; destruct op; by split.
  - pose proof (diff_from_op _ _ _ _ Hp Hop) as Hp'. destruct H; destruct op; by split.
  - destruct H; split; try done. cbn. rewrite ov_subnets0. by rewrite <- app_assoc.
  - destruct H; split; try done. by apply over_insert.
  - destruct H; split; try done; [by apply over_insert|]. intros s y.
    change (<[sub_subnet tx := tx]> (transformedSubnets d) !! s = Some y → sub_subnet y = s).
    intros [[<- <-]|[_ E]]%lookup_insert_Some; eauto.
  - destruct H; split; try done; [by apply app_insert|]. intros s y.
    change (<[sub_subnet tx := default [] (addedChains d !! sub_subnet tx) ++ [tx]]> (addedChains d) !! s = Some y
            → Forall (λ tx, sub_subnet tx = s) y).
    intros [[<- <-]|[_ E]]%lookup_insert_Some; [|eauto].
    apply Forall_app. split; [|by constructor]. destruct (addedChains d !! sub_subnet tx) eqn:E; [eauto|constructor].
  - destruct H; split; try done; [by apply over_insert|]. intros s y.
    change (<[tx_ID tx := (tx, st)]> (addedTxs d) !! s = Some y → tx_ID y.1 = s).
    intros [[<- <-]|[_ E]]%lookup_insert_Some; eauto.
  - destruct H; split; try done. by apply app_insert.
  - destruct H; split; try done.
    + intros s. cbn. unfold fn_set. destruct (decide (s = utxo_InputID u)) as [->|E]; [by rewrite lookup_insert_eq|].
      by rewrite lookup_insert_ne.
    + intros s y. change (<[utxo_InputID u := Some u]> (modifiedUTXOs d) !! s = Some (Some y) → utxo_InputID y = s).
      intros [[<- [= <-]]|[_ E]]%lookup_insert_Some; eauto.
  - destruct H; split; try done.
    + intros s. cbn. unfold fn_set. destruct (decide (s = u)) as [->|E]; [by rewrite lookup_insert_eq|].
      by rewrite lookup_insert_ne.
    + intros s y. change (<[u := None]> (modifiedUTXOs d) !! s = Some (Some y) → utxo_InputID y = s).
      intros [[<- [=]]|[_ E]]%lookup_insert_Some; eauto.
Qed.

Lemma overlay_reward d v0 v s n x : overlay d v0 v →
  overlay (set_rewards d (nested_insert (modifiedDelegateeRewards d) s n x)) v0 (view_set_reward v s n x).
Proof.
  intros H. destruct H; split; try done. intros s' n'. cbn. rewrite nested_lookup_insert. unfold fn_set2.
  destruct (decide (s' = s ∧ n' = n)) as [[-> ->]|E]; [by rewrite decide_True|]. rewrite decide_False; [done|]. intros [= -> ->]. by apply E.
Qed.

(** The view of a new diff: the validators that were removed before it do not count. *)
Definition fresh_view (v0 : view) (gone_c gone_p : gset (bytes * bytes)) : view :=
  w_pending (w_current v0 (mkSet (ss_vals (v_current v0)) (ss_dels (v_current v0)) (ss_used (v_current v0)) gone_c))
    (mkSet (ss_vals (v_pending v0)) (ss_dels (v_pending v0)) (ss_used (v_pending v0)) gone_p).

Lemma overlay_new p v0 id gone_c gone_p : c_repr p v0 →
  overlay (mkDiff id (GetTimestamp p) ∅ emptyDiffStakers ∅ emptyDiffStakers [] ∅ ∅ ∅ ∅ ∅ ∅) v0
    (fresh_view v0 gone_c gone_p).
Proof.
  intros Hr. destruct (law_c_wf p v0 Hr) as [H1 H2]. split; cbn; try done.
  - by rewrite (rd_time _ _ (law_c_reads p v0 Hr)).
  - by apply diff_from_new.
  - by apply diff_from_new.
  - by rewrite app_nil_r.
  - intros s. by rewrite lookup_empty, app_nil_r.
  - intros s. by rewrite lookup_empty, app_nil_r.
Qed.

(** The reads of the diff *)
Lemma ask_over {A} d p (x : option A) (f : C → result chain_error A) r : GetState (parentID d) = Some p → f p = r →
  match x with Some x => Ok x | None => ask GetState d f end = over x r.
Proof. intros Hp <-. unfold ask. rewrite Hp. by destruct x. Qed.

Lemma d_GetValidator_over d s p f a0 a subnetID nodeID : GetState (parentID d) = Some p → diff_from a0 s a →
  f p subnetID nodeID = found (ss_vals a0 !! (subnetID, nodeID)) →
  d_GetValidator GetState s d f subnetID nodeID = found (ss_vals a !! (subnetID, nodeID)).
Proof.
  intros Hp (ch & Hd & Hch) Hf. unfold d_GetValidator, ask. rewrite Hp, Hf.
  rewrite (diff_GetValidator_rep _ ch _ _ Hd), (ch_vals _ _ _ Hch).
  destruct (ch_addV ch !! _); [done|]. by destruct (ch_delV ch !! _).
Qed.

Definition diff_repr (d : diff) (v : view) : Prop :=
  ∃ p v0, GetState (parentID d) = Some p ∧ c_repr p v0 ∧ overlay d v0 v.

Lemma lists_delegators d s (r : C → result chain_error I) p a0 a subnetID nodeID :
  GetState (parentID d) = Some p → diff_from a0 s a → lists (r p) (at_key (subnetID, nodeID) (values (ss_dels a0))) →
  lists (let? i := ask GetState d r in Ok (diff_GetDelegatorIterator s i subnetID nodeID))
    (at_key (subnetID, nodeID) (values (ss_dels a))).
Proof.
  intros Hp Hd (i & Hr & Hok & Hpend). unfold ask. rewrite Hp, Hr. cbn [result_bind]. eexists. split; [done|].
  by apply (diff_GetDelegatorIterator_from a0).
Qed.

Lemma lists_stakers d s (r : C → result chain_error I) p a0 a :
  GetState (parentID d) = Some p → diff_from a0 s a → lists (r p) (all_stakers a0) →
  lists (let? i := ask GetState d r in Ok (diff_GetStakerIterator s i)) (all_stakers a).
Proof.
  intros Hp Hd (i & Hr & Hok & Hpend). unfold ask. rewrite Hp, Hr. cbn [result_bind]. eexists. split; [done|].
  by apply (diff_GetStakerIterator_from a0).
Qed.

Lemma diff_reads d v : diff_repr d v → reads_view d v.
Proof using CL BL.
  intros (p & v0 & Hp & Hr & H). pose proof (law_c_reads p v0 Hr) as R. split; intros; cbn.
  - symmetry. apply H.
  - rewrite (ov_supply _ _ _ H). apply (ask_over d p); [done|apply R].
  - eapply d_GetValidator_over; [done|apply H|apply R].
  - rewrite (ov_reward _ _ _ H). apply (ask_over d p); [done|apply R].
  - eapply lists_delegators; [done|apply H|apply R].
  - eapply lists_stakers; [done|apply H|apply R].
  - eapply d_GetValidator_over; [done|apply H|apply R].
  - eapply lists_delegators; [done|apply H|apply R].
  - eapply lists_stakers; [done|apply H|apply R].
  - rewrite (ov_owner _ _ _ H). apply (ask_over d p); [done|apply R].
  - rewrite (ov_transform _ _ _ H). apply (ask_over d p); [done|apply R].
  - rewrite (ov_tx _ _ _ H). apply (ask_over d p); [done|apply R].
  - rewrite (ov_utxo _ _ _ H). unfold d_GetUTXO, ask. rewrite Hp, (rd_utxo _ _ R). by destruct (modifiedUTXOs d !! u) as [[x|]|].
Qed.

Lemma diff_from_wf a0 d a : diff_from a0 d a → ss_wf a.
Proof. intros (ch & _ & Hch). apply (ch_wf1 _ _ _ Hch). Qed.

Lemma run_chain_op_parent d op : parentID (run_chain_op d op) = parentID d.
Proof. by destruct op as [| |[]|[]| | | | | | | |]. Qed.

(** A diff on a state with the laws has the laws. *)
#[export] Instance diff_ChainLaws : ChainLaws diff_CH masked_iterator_laws.
Proof using CL BL.
  refine {| c_repr := diff_repr |}.
  - intros d v w E (p & v0 & Hp & Hr & H). exists p, v0. split; [done|]. split; [done|]. by eapply overlay_ext.
  - intros d v (p & v0 & Hp & Hr & H). split; eapply diff_from_wf; apply H.
  - exact diff_reads.
  - intros d v op (p & v0 & Hp & Hr & H) Hop. exists p, v0. rewrite run_chain_op_parent. split; [done|]. split; [done|].
    by apply overlay_op.
  - intros d v s n x d' (p & v0 & Hp & Hr & H) [= <-]. exists p, v0. split; [done|]. split; [done|]. by apply overlay_reward.
Defined.
End diff_laws.

(** ** [Apply] *)

Section stages.
Context {T : ChainTypes} {C I : Type} {CH : Chain C I} {SI : StakerIterator I} {LI : IteratorLaws SI} {CL : ChainLaws CH LI}.
Context (range : ∀ A, gmap bytes A → list (bytes * A)) (range_perm : ∀ A (m : gmap bytes A), range A m ≡ₚ map_to_list m).

(** A component of the view that is a function of an identifier *)
Class Component {R} (get : view → bytes → R) (set : view → (bytes → R) → view) := {
  set_set v f g : set (set v f) g = set v g;
  get_set v f : get (set v f) = f;
  set_ext v f g : (∀ s, f s = g s) → view_eq (set v f) (set v g);
  set_get v : view_eq v (set v (get v));
}.

#[local] Ltac component := split; intros; done || (split; intros; cbn; auto).
#[local] Instance supply_component : Component v_supply w_supply. Proof. component. Qed.
#[local] Instance owner_component : Component v_owner w_owner. Proof. component. Qed.
#[local] Instance transform_component : Component v_transform w_transform. Proof. component. Qed.
#[local] Instance chains_component : Component v_chains w_chains. Proof. component. Qed.
#[local] Instance tx_component : Component v_tx w_tx. Proof. component. Qed.
#[local] Instance rewardUTXOs_component : Component v_rewardUTXOs w_rewardUTXOs. Proof. component. Qed.
#[local] Instance utxo_component : Component v_utxo w_utxo. Proof. component. Qed.

Section stage.
Context {A R : Type} (get : view → bytes → R) (set : view → (bytes → R) → view) {L : Component get set}.
Context (step : C → bytes * A → C) (G : A → R → R) (m : gmap bytes A).
Context (Hstep : ∀ c v e, m !! e.1 = Some e.2 → c_repr c v →
  ∃ f, c_repr (step c e) (set v f) ∧ ∀ s, f s = if decide (s = e.1) then G e.2 (get v s) else get v s).

Definition combine (m' : gmap bytes A) (f : bytes → R) : bytes → R :=
  λ s, match m' !! s with Some x => G x (f s) | None => f s end.

Lemma stage_list l : ∀ c v, c_repr c v → NoDup l.*1 → (∀ e, e ∈ l → m !! e.1 = Some e.2) →
  c_repr (foldl step c l) (set v (combine (list_to_map l) (get v))).
Proof using CL L Hstep.
  induction l as [|e l IH]; intros c v Hr Hn Hl; cbn [foldl].
  - eapply law_c_ext; [|exact Hr]. etrans; [apply set_get|]. by apply set_ext.
  - rewrite fmap_cons in Hn. apply NoDup_cons in Hn as [Hn Hnd].
    destruct (Hstep c v e ltac:(apply Hl; by left) Hr) as (f & Hr' & Hf).
    specialize (IH _ _ Hr' Hnd (λ x Hx, Hl x (list_elem_of_further _ _ _ Hx))). rewrite set_set, get_set in IH.
    eapply law_c_ext; [|exact IH]. apply set_ext. intros s. unfold combine. destruct e as [k x]. cbn [fst snd] in *.
    rewrite list_to_map_cons, lookup_insert, Hf. destruct (decide (k = s)) as [->|E].
    + rewrite decide_True by done. assert ((list_to_map l : gmap bytes A) !! s = None) as -> by (by apply not_elem_of_list_to_map).
      done.
    + by rewrite decide_False.
Qed.

(** Applying a map to the component *)
Lemma stage_map c v : c_repr c v → c_repr (foldl step c (range _ m)) (set v (combine m (get v))).
Proof using CL L Hstep range_perm.
  intros Hr. assert (Hnd : NoDup (range _ m).*1) by (rewrite range_perm; apply NoDup_fst_map_to_list).
  eapply law_c_ext; [|apply (stage_list (range _ m) c v Hr Hnd)].
  - apply set_ext. intros s. unfold combine. rewrite (list_to_map_proper _ (map_to_list m)) by (done || apply range_perm).
    by rewrite list_to_map_to_list.
  - intros [k x] Hx. rewrite range_perm in Hx. by apply elem_of_map_to_list in Hx.
Qed.
End stage.

(** The loops of [Apply] over maps *)
Lemma supply_stage m c v : c_repr c v →
  c_repr (foldl (λ c e, SetCurrentSupply c e.1 e.2) c (range _ m)) (w_supply v (λ s, over (m !! s) (v_supply v s))).
Proof using CL range_perm.
  apply (stage_map v_supply w_supply (λ c e, SetCurrentSupply c e.1 e.2) (λ x _, Ok x) m).
  intros c' v' e _ Hr. eexists. split; [exact (law_c_op c' v' (OpSupply e.1 e.2) Hr Logic.I)|done].
Qed.

Lemma owner_stage m c v : c_repr c v →
  c_repr (foldl (λ c e, SetSubnetOwner c e.1 e.2) c (range _ m)) (w_owner v (λ s, over (m !! s) (v_owner v s))).
Proof using CL range_perm.
  apply (stage_map v_owner w_owner (λ c e, SetSubnetOwner c e.1 e.2) (λ x _, Ok x) m).
  intros c' v' e _ Hr. eexists. split; [exact (law_c_op c' v' (OpOwner e.1 e.2) Hr Logic.I)|done].
Qed.

Lemma foldl_snd {A K D} (f : D → A → D) (l : list (K * A)) : ∀ d, foldl f d l.*2 = foldl (λ d e, f d e.2) d l.
Proof. induction l as [|e l IH]; intros d; [done|]. rewrite fmap_cons. cbn [foldl]. apply IH. Qed.

Lemma transform_stage m c v : (∀ s tx, m !! s = Some tx → sub_subnet tx = s) → c_repr c v →
  c_repr (foldl AddSubnetTransformation c (range _ m).*2) (w_transform v (λ s, over (m !! s) (v_transform v s))).
Proof using CL range_perm.
  intros Hk. rewrite foldl_snd.
  apply (stage_map v_transform w_transform (λ c e, AddSubnetTransformation c e.2) (λ x _, Ok x) m).
  intros c' v' e He Hr. eexists. split; [exact (law_c_op c' v' (OpTransform e.2) Hr Logic.I)|].
  intros s. unfold fn_set. by rewrite (Hk _ _ He).
Qed.

Lemma tx_stage m c v : (∀ t tx, m !! t = Some tx → tx_ID tx.1 = t) → c_repr c v →
  c_repr (foldl (λ c tx, AddTx c tx.1 tx.2) c (range _ m).*2) (w_tx v (λ t, over (m !! t) (v_tx v t))).
Proof using CL range_perm.
  intros Hk. rewrite foldl_snd. apply (stage_map v_tx w_tx (λ c e, AddTx c e.2.1 e.2.2) (λ x _, Ok x) m).
  intros c' v' e He Hr. eexists. split; [exact (law_c_op c' v' (OpTx e.2.1 e.2.2) Hr Logic.I)|].
  intros s. unfold fn_set. rewrite (Hk _ _ He). by destruct e as [? []].
Qed.

Lemma utxo_stage m c v : (∀ u x, m !! u = Some (Some x) → utxo_InputID x = u) → c_repr c v →
  c_repr (foldl (λ c e, match e.2 with Some utxo => AddUTXO c utxo | None => DeleteUTXO c e.1 end) c (range _ m))
    (w_utxo v (λ u, match m !! u with Some (Some x) => Ok x | Some None => Err (ErrDB ErrNotFound) | None => v_utxo v u end)).
Proof using CL range_perm.
  intros Hk Hr. eapply law_c_ext; cycle 1.
  - apply (stage_map v_utxo w_utxo (λ c e, match e.2 with Some utxo => AddUTXO c utxo | None => DeleteUTXO c e.1 end)
             (λ o _, match o with Some x => Ok x | None => Err (ErrDB ErrNotFound) end) m); [|exact Hr].
    intros c' v' [u [x|]] He Hr'; cbn [fst snd] in *.
    + eexists. split; [exact (law_c_op c' v' (OpAddUTXO x) Hr' Logic.I)|]. intros s. unfold fn_set. by rewrite (Hk _ _ He).
    + eexists. by split; [exact (law_c_op c' v' (OpDeleteUTXO u) Hr' Logic.I)|].
  - apply set_ext. intros s. unfold combine. by destruct (m !! s) as [[]|].
Qed.

(** The loops over lists *)
Lemma subnets_stage l : ∀ c v, c_repr c v → c_repr (foldl AddSubnet c l) (w_subnets v (v_subnets v ++ l)).
Proof using CL.
  induction l as [|tx l IH]; intros c v Hr; cbn [foldl].
  - eapply law_c_ext; [|exact Hr]. split; intros; cbn; rewrite ?app_nil_r; done.
  - specialize (IH _ _ (law_c_op c v (OpSubnet tx) Hr Logic.I)). eapply law_c_ext; [|exact IH].
    split; intros; cbn; rewrite <- ?app_assoc; done.
Qed.

Lemma append_list {A} (get : view → bytes → list A) set {L : Component get set} (add : C → A → C) k l :
  (∀ c v x, x ∈ l → c_repr c v → c_repr (add c x) (set v (fn_set (get v) k (get v k ++ [x])))) →
  ∀ c v, c_repr c v → c_repr (foldl add c l) (set v (fn_set (get v) k (get v k ++ l))).
Proof using CL.
  induction l as [|x l IH]; intros Hadd c v Hr; cbn [foldl].
  - eapply law_c_ext; [|exact Hr]. etrans; [apply set_get|]. apply set_ext. intros s. unfold fn_set.
    case_decide; [|done]. subst. by rewrite app_nil_r.
  - assert (Hx := Hadd c v x ltac:(by left) Hr).
    specialize (IH (λ c v y Hy, Hadd c v y (list_elem_of_further _ _ _ Hy)) _ _ Hx). rewrite set_set, get_set in IH.
    eapply law_c_ext; [|exact IH]. apply set_ext. intros s. unfold fn_set. rewrite (decide_True (P := k = k)) by done.
    case_decide; [|done]. by rewrite <- app_assoc.
Qed.

Lemma append_stage {A} (get : view → bytes → list A) set {L : Component get set} (add : C → bytes → A → C) (m : gmap bytes (list A)) :
  (∀ c v k xs x, m !! k = Some xs → x ∈ xs → c_repr c v → c_repr (add c k x) (set v (fn_set (get v) k (get v k ++ [x])))) →
  ∀ c v, c_repr c v →
  c_repr (foldl (λ c e, foldl (λ c x, add c e.1 x) c e.2) c (range _ m)) (set v (λ s, get v s ++ default [] (m !! s))).
Proof using CL range_perm.
  intros Hadd c v Hr. eapply law_c_ext; cycle 1.
  - apply (stage_map get set (λ c e, foldl (λ c x, add c e.1 x) c e.2) (λ xs r, r ++ xs) m); [|exact Hr].
    intros c' v' [k xs] He Hr'. cbn [fst snd] in *. eexists. split; [apply (append_list get set (λ c x, add c k x) k xs); [|done]|].
    + intros c2 v2 x Hx Hr2. by apply (Hadd c2 v2 k xs).
    + intros s. unfold fn_set. case_decide; by subst.
  - apply set_ext. intros s. unfold combine. destruct (m !! s); cbn; by rewrite ?app_nil_r.
Qed.

Lemma chains_stage m c v : (∀ s txs, m !! s = Some txs → Forall (λ tx, sub_subnet tx = s) txs) → c_repr c v →
  c_repr (foldl (λ c chains, foldl AddChain c chains) c (range _ m).*2) (w_chains v (λ s, v_chains v s ++ default [] (m !! s))).
Proof using CL range_perm.
  intros Hk Hr. rewrite foldl_snd. apply (append_stage v_chains w_chains (λ c _ tx, AddChain c tx) m); [|done].
  intros c' v' k xs x He Hx Hr'. specialize (Hk k xs He). rewrite Forall_forall in Hk.
  pose proof (law_c_op c' v' (OpChain x) Hr' Logic.I) as H. cbn [view_op] in H. by rewrite (Hk x Hx) in H.
Qed.

Lemma rewardUTXOs_stage m c v : c_repr c v →
  c_repr (foldl (λ c e, foldl (λ c utxo, AddRewardUTXO c e.1 utxo) c e.2) c (range _ m))
    (w_rewardUTXOs v (λ t, v_rewardUTXOs v t ++ default [] (m !! t))).
Proof using CL range_perm.
  apply (append_stage v_rewardUTXOs w_rewardUTXOs AddRewardUTXO m).
  intros c' v' k xs x _ _ Hr. exact (law_c_op c' v' (OpRewardUTXO k x) Hr Logic.I).
Qed.

(** The rewards: the loop stops at the first write that fails. *)
Lemma rewards_stage l : ∀ c v c', c_repr c v → NoDup l.*1 → apply_rewards c l = (None, c') →
  c_repr c' (w_reward v (λ s n, over ((list_to_map l : gmap (bytes * bytes) Z) !! (s, n)) (v_reward v s n))).
Proof using CL.
  induction l as [|[[s n] x] l IH]; intros c v c' Hr Hnd Hap; cbn [apply_rewards] in Hap.
  - injection Hap as <-. eapply law_c_ext; [|exact Hr]. by split.
  - destruct (SetDelegateeReward c s n x) as [[e|] c1] eqn:E; [done|]. rewrite fmap_cons in Hnd. apply NoDup_cons in Hnd as [Hn Hnd].
    specialize (IH _ _ _ (law_c_reward c v s n x c1 Hr E) Hnd Hap). eapply law_c_ext; [|exact IH]. split; try done.
    intros s' n'. cbn [view_set_reward w_reward v_reward]. rewrite list_to_map_cons, lookup_insert. unfold fn_set2.
    destruct (decide ((s, n) = (s', n'))) as [E'|E'].
    + injection E' as <- <-. rewrite decide_True by done.
      assert ((list_to_map l : gmap (bytes * bytes) Z) !! (s, n) = None) as -> by (by apply not_elem_of_list_to_map). done.
    + rewrite decide_False by naive_solver. done.
Qed.

Lemma rewards_error l : ∀ c e c', apply_rewards c l = (Some e, c') →
  ∃ c0 s n x, ((s, n), x) ∈ l ∧ SetDelegateeReward c0 s n x = (Some e, c').
Proof.
  induction l as [|[[s n] x] l IH]; intros c e c' Hap; cbn [apply_rewards] in Hap; [done|].
  destruct (SetDelegateeReward c s n x) as [[e'|] c1] eqn:E.
  - injection Hap as -> ->. exists c, s, n, x. split; [by left|done].
  - destruct (IH _ _ _ Hap) as (c0 & s' & n' & x' & Hin & H). exists c0, s', n', x'. split; [by right|done].
Qed.

Lemma nested_list_to_map m s n : (list_to_map (nested_entries range m) : gmap (bytes * bytes) Z) !! (s, n) = nested_lookup m s n.
Proof using range_perm.
  apply option_eq. intros x. rewrite <- (elem_of_nested_entries range range_perm), <- elem_of_list_to_map; [done|].
  by apply nested_entries_nodup.
Qed.
End stages.

(** The staker sets of a state, the other components of whose view are those of [v] *)
Section staker_laws.
Context {T : ChainTypes} {C I : Type} {CH : Chain C I} {SI : StakerIterator I} {LI : IteratorLaws SI} {CL : ChainLaws CH LI}.
Context (v : view).

Lemma lists_ok (r : result chain_error I) l : lists r l → it_ok (ok_iterator r) ∧ it_pending (ok_iterator r) = in_order l.
Proof. by intros (it & -> & ? & ?). Qed.

Lemma found_ok (r : result chain_error Staker) x : r = found x →
  match r with Ok x => Ok x | Err _ => Err ErrNotFound end = match x with Some x => Ok x | None => Err ErrNotFound end.
Proof. intros ->. by destruct x. Qed.

Definition current_laws : StakersLaws current_ops sum_iterator_laws.
Proof using CL v.
  refine {| st_repr c a := c_repr c (w_current v a) |}.
  - intros c a Hr. apply (law_c_wf c _ Hr).
  - intros c a s n Hr. apply found_ok, (rd_validator _ _ (law_c_reads c _ Hr)).
  - intros c a x Hr Hx. exact (law_c_op c _ (OpCurrent (OpPutValidator x)) Hr Hx).
  - intros c a x Hr Hx. exact (law_c_op c _ (OpCurrent (OpDeleteValidator x)) Hr Hx).
  - intros c a s n Hr. apply lists_ok, (rd_delegators _ _ (law_c_reads c _ Hr)).
  - intros c a x Hr Hx. exact (law_c_op c _ (OpCurrent (OpPutDelegator x)) Hr Hx).
  - intros c a x Hr Hx. exact (law_c_op c _ (OpCurrent (OpDeleteDelegator x)) Hr Hx).
  - intros c a Hr. apply lists_ok, (rd_stakers _ _ (law_c_reads c _ Hr)).
Defined.

Definition pending_laws : StakersLaws pending_ops sum_iterator_laws.
Proof using CL v.
  refine {| st_repr c a := c_repr c (w_pending v a) |}.
  - intros c a Hr. apply (law_c_wf c _ Hr).
  - intros c a s n Hr. apply found_ok, (rd_pvalidator _ _ (law_c_reads c _ Hr)).
  - intros c a x Hr Hx. exact (law_c_op c _ (OpPending (OpPutValidator x)) Hr Hx).
  - intros c a x Hr Hx. exact (law_c_op c _ (OpPending (OpDeleteValidator x)) Hr Hx).
  - intros c a s n Hr. apply lists_ok, (rd_pdelegators _ _ (law_c_reads c _ Hr)).
  - intros c a x Hr Hx. exact (law_c_op c _ (OpPending (OpPutDelegator x)) Hr Hx).
  - intros c a x Hr Hx. exact (law_c_op c _ (OpPending (OpDeleteDelegator x)) Hr Hx).
  - intros c a Hr. apply lists_ok, (rd_pstakers _ _ (law_c_reads c _ Hr)).
Defined.
End staker_laws.

(** Views that tell the same, whatever stakers they had before *)
Definition same_stakers (a b : staker_set) : Prop := ss_vals a = ss_vals b ∧ ss_dels a = ss_dels b.

Record view_sim {T : ChainTypes} (v w : view) : Prop := {
  sim_current : same_stakers (v_current v) (v_current w);
  sim_pending : same_stakers (v_pending v) (v_pending w);
  sim_rest : view_eq (w_pending (w_current v (v_current w)) (v_pending w)) w;
}.

(** A staker set on which the changes of another one can be made *)
Definition base_set (ab a0 a : staker_set) : Prop :=
  same_stakers ab a0 ∧ ss_used ab ⊆ ss_used a0 ∧ ss_gone ab ⊆ ss_gone a.

Section apply_laws.
Context {T : ChainTypes} {B : BTree Staker} {BL : BTreeLaws B}.
Context {C I : Type} {CH : Chain C I} {SI : StakerIterator I} {LI : IteratorLaws SI} {CL : ChainLaws CH LI}.
Context (range : ∀ A, gmap bytes A → list (bytes * A)) (range_perm : ∀ A (m : gmap bytes A), range A m ≡ₚ map_to_list m).

Lemma base_set_of ch ab a0 a : base_set ab a0 a → changes_ok ch a0 a → base_of ch a0 ab.
Proof.
  intros ([Hv Hd] & Hu & Hg) Hch. split; [done|done| |].
  - intros x Hx Hin. by apply (ch_added_new _ _ _ Hch x Hx), Hu.
  - intros sn x Hx Hin. by apply (ch_addV_ok _ _ _ Hch _ _ Hx), Hg.
Qed.

Lemma current_stage d c v a0 a : c_repr c v → diff_from a0 d a → base_set (v_current v) a0 a →
  ∃ a', c_repr (apply_stakers (S := current_ops) range c d) (w_current v a') ∧ same_stakers a' a.
Proof using CL BL range_perm.
  intros Hr (ch & Hd & Hch) Hb. pose proof (base_set_of _ _ _ _ Hb Hch) as Hbo.
  destruct (apply_stakers_spec (SL := current_laws v) range range_perm ch a0 a (v_current v) Hch Hbo c d) as (a' & Hr' & Hv & Hdl & _);
    [|done|by exists a']. eapply law_c_ext; [|exact Hr]. by split.
Qed.

Lemma pending_stage d c v a0 a : c_repr c v → diff_from a0 d a → base_set (v_pending v) a0 a →
  ∃ a', c_repr (apply_stakers (S := pending_ops) range c d) (w_pending v a') ∧ same_stakers a' a.
Proof using CL BL range_perm.
  intros Hr (ch & Hd & Hch) Hb. pose proof (base_set_of _ _ _ _ Hb Hch) as Hbo.
  destruct (apply_stakers_spec (SL := pending_laws v) range range_perm ch a0 a (v_pending v) Hch Hbo c d) as (a' & Hr' & Hv & Hdl & _);
    [|done|by exists a']. eapply law_c_ext; [|exact Hr]. by split.
Qed.

(** The base state after [Apply] has the view of the diff. *)
Lemma Apply_spec d b b' vb v0 v : c_repr b vb → overlay d v0 v → view_sim vb v0 →
  base_set (v_current vb) (v_current v0) (v_current v) → base_set (v_pending vb) (v_pending v0) (v_pending v) →
  Apply range d b = (None, b') → ∃ w, c_repr b' w ∧ view_sim w v.
Proof using CL BL range_perm.
  intros Hr H [_ _ Hrest] Hbc Hbp Hap. unfold Apply in Hap.
  pose proof (law_c_op b vb (OpTimestamp (timestamp d)) Hr Logic.I) as Hr1.
  pose proof (supply_stage range range_perm (currentSupply d) _ _ Hr1) as Hr2.
  destruct (current_stage (currentStakerDiffs d) _ _ _ _ Hr2 (ov_current _ _ _ H) Hbc) as (ac & Hr3 & Hac).
  destruct (apply_rewards _ _) as [[e|] c4] eqn:E4; [done|]. injection Hap as Hap.
  pose proof (rewards_stage _ _ _ _ Hr3 (nested_entries_nodup range range_perm _) E4) as Hr4.
  destruct (pending_stage (pendingStakerDiffs d) _ _ _ _ Hr4 (ov_pending _ _ _ H) Hbp) as (ap & Hr5 & Hap').
  pose proof (subnets_stage (addedSubnets d) _ _ Hr5) as Hr6.
  pose proof (transform_stage range range_perm _ _ _ (ov_transform_key _ _ _ H) Hr6) as Hr7.
  pose proof (chains_stage range range_perm _ _ _ (ov_chains_key _ _ _ H) Hr7) as Hr8.
  pose proof (tx_stage range range_perm _ _ _ (ov_tx_key _ _ _ H) Hr8) as Hr9.
  pose proof (rewardUTXOs_stage range range_perm (addedRewardUTXOs d) _ _ Hr9) as Hr10.
  pose proof (utxo_stage range range_perm _ _ _ (ov_utxo_key _ _ _ H) Hr10) as Hr11.
  pose proof (owner_stage range range_perm (subnetOwners d) _ _ Hr11) as Hr12.
  rewrite Hap in Hr12. eexists. split; [exact Hr12|]. split; [exact Hac|exact Hap'|].
  destruct Hrest. cbn in * |-. split; intros; cbn.
  - symmetry. apply H.
  - by rewrite (ov_supply _ _ _ H), eq_supply0.
  - done.
  - by rewrite (ov_reward _ _ _ H), eq_reward0, nested_list_to_map.
  - done.
  - by rewrite (ov_subnets _ _ _ H), eq_subnets0.
  - by rewrite (ov_owner _ _ _ H), eq_owner0.
  - by rewrite (ov_transform _ _ _ H), eq_transform0.
  - by rewrite (ov_chains _ _ _ H), eq_chains0.
  - by rewrite (ov_tx _ _ _ H), eq_tx0.
  - by rewrite (ov_rewardUTXOs _ _ _ H), eq_rewardUTXOs0.
  - by rewrite (ov_utxo _ _ _ H), eq_utxo0.
Qed.

Lemma reads_sim (c : C) w v : view_sim w v → reads_view c w → reads_view c v.
Proof.
  intros [[Hv1 Hd1] [Hv2 Hd2] E] R. split; intros; unfold all_stakers; rewrite <- ?Hv1, <- ?Hd1, <- ?Hv2, <- ?Hd2;
    try apply R; (etrans; [apply R|]); apply E.
Qed.
End apply_laws.

(** ** Runs *)

Section runs.
Context {T : ChainTypes}.

(** A change, or the reward of the delegatees of a validator *)
Inductive chain_step :=
  | StepOp (op : chain_op)
  | StepReward (s n : bytes) (x : Z).

Definition run_step {C I} {CH : Chain C I} (c : C) (st : chain_step) : C :=
  match st with
  | StepOp op => run_chain_op c op
  | StepReward s n x => (SetDelegateeReward c s n x).2
  end.

Definition view_step (v : view) (st : chain_step) : view :=
  match st with
  | StepOp op => view_op v op
  | StepReward s n x => view_set_reward v s n x
  end.

Fixpoint steps_ok (v : view) (l : list chain_step) : Prop :=
  match l with
  | [] => True
  | st :: l => match st with StepOp op => view_op_ok v op | StepReward _ _ _ => True end ∧ steps_ok (view_step v st) l
  end.

Lemma steps_gone l : ∀ v, ss_gone (v_current v) ⊆ ss_gone (v_current (foldl view_step v l))
  ∧ ss_gone (v_pending v) ⊆ ss_gone (v_pending (foldl view_step v l)).
Proof.
  induction l as [|st l IH]; intros v; [done|]. cbn [foldl]. destruct (IH (view_step v st)) as [H1 H2].
  split; (etrans; [|eassumption]).
  - destruct st as [[]|]; try done. apply (set_ops_gone [_]).
  - destruct st as [[]|]; try done. apply (set_ops_gone [_]).
Qed.

Context {B : BTree Staker} {BL : BTreeLaws B}.
Context {C I : Type} {CH : Chain C I} {SI : StakerIterator I} {LI : IteratorLaws SI} {CL : ChainLaws CH LI}.
Context (GetState : bytes → option C).

Lemma overlay_steps v0 l : ∀ d v, overlay d v0 v → steps_ok v l →
  overlay (foldl (run_step (CH := diff_Chain GetState)) d l) v0 (foldl view_step v l)
  ∧ parentID (foldl (run_step (CH := diff_Chain GetState)) d l) = parentID d.
Proof using BL CL.
  induction l as [|st l IH]; intros d v H Hok; [done|]. destruct Hok as [Hst Hok]. cbn [foldl].
  assert (Hp : parentID (run_step (CH := diff_Chain GetState) d st) = parentID d).
  { destruct st as [op|]; [apply run_chain_op_parent|done]. }
  rewrite <- Hp. apply IH; [|done]. destruct st as [op|s n x]; [by apply overlay_op|by apply overlay_reward].
Qed.
End runs.

(** C11. A diff tells what the block would do, and [Apply] does it.  Let the state after the
    parent of a block be known, and let [base] be a state that tells the same.  A new diff of
    the parent on which any sequence of changes is made then answers every read as if the
    changes had been made on the parent itself.  [Apply] of the diff to [base], in whatever
    order its maps are iterated, ends without an error in a state that answers every read as
    the diff does and has received the same subnets, chains and reward UTXOs in the same
    order; or it ends with the error of a delegatee reward that [base] refused.  The changes
    of the staker sets respect the documented invariants. *)
Theorem diff_apply_correct {T : ChainTypes} {B : BTree Staker} {BL : BTreeLaws B}
    {C I} {CH : Chain C I} {SI : StakerIterator I} {LI : IteratorLaws SI} {CL : ChainLaws CH LI}
    {C' I'} {CH' : Chain C' I'} {SI' : StakerIterator I'} {LI' : IteratorLaws SI'} {CL' : ChainLaws CH' LI'}
    (range : ∀ A, gmap bytes A → list (bytes * A)) (GetState : bytes → option C) (id : bytes) (parent : C) (v0 : view)
    (base : C') (vb : view) (steps : list chain_step) :
  (∀ A (m : gmap bytes A), range A m ≡ₚ map_to_list m) →
  GetState id = Some parent → c_repr parent v0 → c_repr base vb → view_sim vb v0 →
  ss_used (v_current vb) ⊆ ss_used (v_current v0) → ss_used (v_pending vb) ⊆ ss_used (v_pending v0) →
  let start := fresh_view v0 (ss_gone (v_current vb)) (ss_gone (v_pending vb)) in
  steps_ok start steps →
  let v := foldl view_step start steps in
  ∃ d0, NewDiff GetState id = Ok d0
    ∧ let d := foldl (run_step (CH := diff_Chain GetState)) d0 steps in
      reads_view (CH := diff_Chain GetState) d v
      ∧ match Apply range d base with
        | (None, base') => reads_view base' v ∧ ∃ w, c_repr base' w ∧ view_sim w v
        | (Some e, base') => ∃ c s n x, nested_lookup (modifiedDelegateeRewards d) s n = Some x
                               ∧ SetDelegateeReward c s n x = (Some e, base')
        end.
Proof.
  intros Hrange Hp Hr Hrb Hsim Hu1 Hu2 start Hok v. unfold NewDiff. rewrite Hp. eexists. split; [done|].
  set (d0 := mkDiff _ _ _ _ _ _ _ _ _ _ _ _ _). cbv zeta. set (d := foldl _ d0 steps).
  destruct (overlay_steps GetState v0 steps d0 start) as [H Hpar]; [by apply overlay_new|done|]. fold d v in H, Hpar.
  destruct (steps_gone steps start) as [Hg1 Hg2]. fold v in Hg1, Hg2.
  split; [apply diff_reads; exists parent, v0; by rewrite Hpar|].
  destruct (Apply range d base) as [[e|] base'] eqn:E.
  - unfold Apply in E. destruct (apply_rewards _ _) as [[e'|] c4] eqn:E4; [|done]. injection E as -> ->.
    destruct (rewards_error _ _ _ _ E4) as (c0 & s & n & x & Hin & Hf). exists c0, s, n, x. split; [|done].
    by apply elem_of_nested_entries in Hin.
  - destruct (Apply_spec range Hrange d base base' vb v0 v) as (w & Hw & Hwv); try done.
    + split; [apply Hsim|done].
    + split; [apply Hsim|done].
    + split; [|by exists w]. eapply reads_sim; [done|]. by apply law_c_reads.
Qed.

(** ** A state in memory

    The simplest state with the laws, to run the theorems on: the staker sets of the accepted
    state, and functions for everything else. *)

Section memory.
Context {T : ChainTypes} {B : BTree Staker} {BL : BTreeLaws B}.

Record memory := mkMemory { m_view : view; m_current : baseStakers; m_pending : baseStakers }.

Definition on_view (c : memory) (op : chain_op) : memory := mkMemory (view_op (m_view c) op) (m_current c) (m_pending c).
Definition on_current (c : memory) (s : baseStakers) : memory := mkMemory (m_view c) s (m_pending c).
Definition on_pending (c : memory) (s : baseStakers) : memory := mkMemory (m_view c) (m_current c) s.
Definition get_validator (r : result db_error Staker) : result chain_error Staker := match r with Ok x => Ok x | Err e => Err (ErrDB e) end.

#[export] Instance memory_Chain : Chain memory tree_iterator := {|
  GetTimestamp c := v_time (m_view c); SetTimestamp c t := on_view c (OpTimestamp t);
  GetCurrentSupply c := v_supply (m_view c); SetCurrentSupply c s x := on_view c (OpSupply s x);
  GetCurrentValidator c s n := get_validator (base_GetValidator (m_current c) s n);
  PutCurrentValidator c x := on_current c (base_PutValidator (m_current c) x);
  DeleteCurrentValidator c x := on_current c (base_DeleteValidator (m_current c) x);
  SetDelegateeReward c s n x := (None, mkMemory (view_set_reward (m_view c) s n x) (m_current c) (m_pending c));
  GetDelegateeReward c := v_reward (m_view c);
  GetCurrentDelegatorIterator c s n := Ok (base_GetDelegatorIterator (m_current c) s n);
  PutCurrentDelegator c x := on_current c (base_PutDelegator (m_current c) x);
  DeleteCurrentDelegator c x := on_current c (base_DeleteDelegator (m_current c) x);
  GetCurrentStakerIterator c := Ok (base_GetStakerIterator (m_current c));
  GetPendingValidator c s n := get_validator (base_GetValidator (m_pending c) s n);
  PutPendingValidator c x := on_pending c (base_PutValidator (m_pending c) x);
  DeletePendingValidator c x := on_pending c (base_DeleteValidator (m_pending c) x);
  GetPendingDelegatorIterator c s n := Ok (base_GetDelegatorIterator (m_pending c) s n);
  PutPendingDelegator c x := on_pending c (base_PutDelegator (m_pending c) x);
  DeletePendingDelegator c x := on_pending c (base_DeleteDelegator (m_pending c) x);
  GetPendingStakerIterator c := Ok (base_GetStakerIterator (m_pending c));
  AddSubnet c tx := on_view c (OpSubnet tx);
  GetSubnetOwner c := v_owner (m_view c); SetSubnetOwner c s o := on_view c (OpOwner s o);
  GetSubnetTransformation c := v_transform (m_view c); AddSubnetTransformation c tx := on_view c (OpTransform tx);
  AddChain c tx := on_view c (OpChain tx);
  GetTx c := v_tx (m_view c); AddTx c tx status := on_view c (OpTx tx status);
  AddRewardUTXO c t u := on_view c (OpRewardUTXO t u);
  GetUTXO c := v_utxo (m_view c); AddUTXO c u := on_view c (OpAddUTXO u); DeleteUTXO c u := on_view c (OpDeleteUTXO u);
|}.

Definition memory_repr (c : memory) (v : view) : Prop :=
  base_repr (m_current c) (v_current v) ∧ base_repr (m_pending c) (v_pending v)
  ∧ view_eq (w_pending (w_current (m_view c) (v_current v)) (v_pending v)) v.

Lemma memory_op v w op : view_eq (w_pending (w_current v (v_current w)) (v_pending w)) w →
  match op with OpCurrent _ | OpPending _ => True
  | _ => view_eq (w_pending (w_current (view_op v op) (v_current (view_op w op))) (v_pending (view_op w op))) (view_op w op) end.
Proof.
  intros E. destruct E. cbn in * |-.
  destruct op; try done; split; intros; cbn; unfold fn_set; try case_decide; subst; try done; congruence.
Qed.

Lemma base_run_op s a op : base_repr s a → op_ok a op → base_repr (run_op s op) (set_op a op).
Proof.
  intros Hr Hop. exact (run_ops_repr [op] s a Hr (conj Hop Logic.I)).
Qed.

Lemma memory_reads c v : memory_repr c v → reads_view c v.
Proof.
  intros (Hc & Hp & E).
  assert (Hval : ∀ s a sn n, base_repr s a → get_validator (base_GetValidator s sn n) = found (ss_vals a !! (sn, n))).
  { intros s a sn n Hr. unfold found. change (base_GetValidator s sn n) with (GetValidator s sn n).
    rewrite (law_GetValidator (StakersLaws := base_StakersLaws) s a sn n Hr). by destruct (ss_vals a !! (sn, n)). }
  assert (Hdel : ∀ s a sn n, base_repr s a → lists (Ok (base_GetDelegatorIterator s sn n)) (at_key (sn, n) (values (ss_dels a)))).
  { intros s a sn n Hr. eexists. split; [done|]. exact (law_GetDelegatorIterator (StakersLaws := base_StakersLaws) s a sn n Hr). }
  assert (Hall : ∀ s a, base_repr s a → lists (Ok (base_GetStakerIterator s)) (all_stakers a)).
  { intros s a Hr. eexists. split; [done|]. exact (law_GetStakerIterator (StakersLaws := base_StakersLaws) s a Hr). }
  split; intros;
    [apply E|apply E|by apply Hval|apply E|by apply Hdel|by apply Hall|by apply Hval|by apply Hdel|by apply Hall|apply E..].
Qed.

#[export] Instance memory_ChainLaws : ChainLaws memory_Chain tree_iterator_laws.
Proof.
  refine {| c_repr := memory_repr |}.
  - intros c v w E (Hc & Hp & H). unfold memory_repr. rewrite <- (eq_current _ _ E), <- (eq_pending _ _ E).
    split; [done|]. split; [done|]. etrans; [exact H|exact E].
  - intros c v ((H1 & _) & (H2 & _) & _). done.
  - exact memory_reads.
  - intros c v op (Hc & Hp & E) Hop. pose proof (memory_op _ _ op E) as E'.
    destruct op as [| |op|op| | | | | | | |]; cbn [view_op_ok] in Hop; try (split; [exact Hc|split; [exact Hp|exact E']]).
    + pose proof (base_run_op _ _ op Hc Hop). destruct op; (split; [done|split; [done|]]); destruct E; by split.
    + pose proof (base_run_op _ _ op Hp Hop). destruct op; (split; [done|split; [done|]]); destruct E; by split.
  - intros c v s n x c' (Hc & Hp & E) [= <-]. split; [done|]. split; [done|]. destruct E; split; try done.
    intros s' n'. cbn in *. unfold fn_set2. case_decide; [done|]. congruence.
Defined.

Definition empty_view : view :=
  mkView 0 (λ _, Err (ErrDB ErrNotFound)) empty_set (λ _ _, Err (ErrDB ErrNotFound)) empty_set []
    (λ _, Err (ErrDB ErrNotFound)) (λ _, Err (ErrDB ErrNotFound)) (λ _, []) (λ _, Err (ErrDB ErrNotFound)) (λ _, [])
    (λ _, Err (ErrDB ErrNotFound)).
Definition empty_memory : memory := mkMemory empty_view newBaseStakers newBaseStakers.

Lemma empty_memory_repr : memory_repr empty_memory empty_view.
Proof. split; [apply newBaseStakers_repr|]. split; [apply newBaseStakers_repr|]. by split. Qed.
End memory.

(** *** Example: identifiers stand for transactions and UTXOs. *)

#[local] Existing Instance list_btree.
#[local] Existing Instance list_btree_laws.

Definition sample_types : ChainTypes := {| Tx := bytes; UTXO := bytes; Owner := Z; tx_ID t := t; utxo_InputID u := u |}.
#[local] Existing Instance sample_types.

Definition sample_steps : list chain_step :=
  [StepOp (OpTimestamp 7); StepOp (OpSupply [1] 100); StepOp (OpCurrent (OpPutValidator vdr1));
   StepOp (OpCurrent (OpPutDelegator dlg1)); StepReward [] [1] 5; StepOp (OpAddUTXO [9]); StepOp (OpDeleteUTXO [9])].

Lemma sample_steps_ok : steps_ok (fresh_view empty_view ∅ ∅) sample_steps.
Proof.
  cbn -[union lookup insert]. unfold can_put_validator, can_put_delegator.
  split_and!; try done; apply (bool_decide_unpack _); by vm_compute.
Qed.

Lemma diff_apply_correct_witness :
  ∃ d0, NewDiff (λ _, Some empty_memory) [0] = Ok d0
    ∧ let d := foldl (run_step (CH := diff_Chain (λ _, Some empty_memory))) d0 sample_steps in
      GetDelegateeReward (Chain := diff_Chain (λ _, Some empty_memory)) d [] [1] = Ok 5
      ∧ GetCurrentSupply (Apply (λ A m, map_to_list m) d empty_memory).2 [1] = Ok 100.
Proof.
  destruct (diff_apply_correct (CL := memory_ChainLaws) (CL' := memory_ChainLaws) (λ A m, map_to_list m) (λ _, Some empty_memory) [0]
    empty_memory empty_view empty_memory empty_view sample_steps (λ A m, reflexivity _) eq_refl empty_memory_repr empty_memory_repr)
    as (d0 & Hd & Hread & Happ).
  - by repeat split.
  - done.
  - done.
  - exact sample_steps_ok.
  - exists d0. split; [done|]. cbv zeta. split; [exact (rd_reward _ _ Hread [] [1])|].
    destruct (Apply _ _ empty_memory) as [[e|] b'].
    + by destruct Happ as (c & s & n & x & _ & [=]).
    + exact (rd_supply _ _ (proj1 Happ) [1]).
Defined.
