(* ===== verification/Uptime.v ===== *)
(** * Uptimes of validators

    [snow/uptime]: the measurement of how long each validator was connected ([manager.go]) on
    the interface to what is stored ([state.go]).  Before a subnet is tracked its validators
    count as connected; afterwards they accrue uptime while they are connected.

    Times and durations are integers, in nanoseconds.  [clock n] is the [n]-th reading of the
    clock, which may go backwards unless a theorem says otherwise; an operation counts its
    readings in [tick].  [time.Sub] saturates at 292 years, which is not modelled.
    [CalculateUptimePercentFrom] divides in floating point; its two arguments are modelled.
    Iterating over the subnets of a connection is a parameter. *)

From S2P Require Import Prelude Database.

Open Scope Z_scope.

(** ** [state.go] *)

Class UptimeState (S : Type) := {
  GetUptime : S → bytes → bytes → result db_error (Z * Z);
  SetUptime : S → bytes → bytes → Z → Z → option db_error * S;
  GetStartTime : S → bytes → bytes → result db_error Z;
}.

(** The state is a map from validators (a node and a subnet) to their uptime and when it was
    last updated. *)
Class UptimeStateLaws {S} (U : UptimeState S) := {
  us_repr : S → gmap (bytes * bytes) (Z * Z) → Prop;
  law_GetUptime s m node subnet : us_repr s m →
    GetUptime s node subnet = match m !! (node, subnet) with Some x => Ok x | None => Err ErrNotFound end;
  law_SetUptime s m node subnet up last : us_repr s m →
    match m !! (node, subnet) with
    | Some _ => ∃ s', SetUptime s node subnet up last = (None, s') ∧ us_repr s' (<[(node, subnet) := (up, last)]> m)
    | None => SetUptime s node subnet up last = (Some ErrNotFound, s)
    end;
}.

(** ** [manager.go] *)

Section manager.
Context {S : Type} {U : UptimeState S} (clock : nat → Z) (range : gmap bytes Z → list bytes).

Record manager := mkManager {
  tick : nat;
  state : S;
  connections : gmap bytes (gmap bytes Z);
  trackedSubnets : gset bytes;
}.

Definition NewManager (state : S) : manager := mkManager 0 state ∅ ∅.

Definition UnixTime (m : manager) : Z * manager :=
  (clock (tick m), mkManager (tick m + 1) (state m) (connections m) (trackedSubnets m)).
Definition set_state (m : manager) (s : S) : manager := mkManager (tick m) s (connections m) (trackedSubnets m).
Definition set_connections (m : manager) (c : gmap bytes (gmap bytes Z)) : manager :=
  mkManager (tick m) (state m) c (trackedSubnets m).

(** [m.connections[nodeID][subnetID]] *)
Definition connection (m : manager) (nodeID subnetID : bytes) : option Z :=
  connections m !! nodeID ≫= λ c, c !! subnetID.

Fixpoint start_loop (m : manager) (now : Z) (nodeIDs : list bytes) (subnetID : bytes) : option db_error * manager :=
  match nodeIDs with
  | [] => (None, m)
  | nodeID :: nodeIDs =>
      match GetUptime (state m) nodeID subnetID with
      | Err err => (Some err, m)
      | Ok (upDuration, lastUpdated) =>
          if now <? lastUpdated then start_loop m now nodeIDs subnetID
          else
            let durationOffline := now - lastUpdated in
            let newUpDuration := upDuration + durationOffline in
            match SetUptime (state m) nodeID subnetID newUpDuration now with
            | (Some err, s) => (Some err, set_state m s)
            | (None, s) => start_loop (set_state m s) now nodeIDs subnetID
            end
      end
  end.

Definition StartTracking (m : manager) (nodeIDs : list bytes) (subnetID : bytes) : option db_error * manager :=
  let '(now, m) := UnixTime m in
  match start_loop m now nodeIDs subnetID with
  | (Some err, m) => (Some err, m)
  | (None, m) => (None, mkManager (tick m) (state m) (connections m) ({[subnetID]} ∪ trackedSubnets m))
  end.

(** The uptime and the time of its calculation *)
Definition CalculateUptime (m : manager) (nodeID subnetID : bytes) : result db_error (Z * Z) * manager :=
  match GetUptime (state m) nodeID subnetID with
  | Err err => (Err err, m)
  | Ok (upDuration, lastUpdated) =>
      let '(now, m) := UnixTime m in
      (Ok (if now <? lastUpdated then (upDuration, lastUpdated)
           else if negb (bool_decide (subnetID ∈ trackedSubnets m)) then
             let durationOffline := now - lastUpdated in
             (upDuration + durationOffline, now)
           else
             match connection m nodeID subnetID with
             | None => (upDuration, now)
             | Some timeConnected =>
                 let timeConnected := if timeConnected <? lastUpdated then lastUpdated else timeConnected in
                 if now <? timeConnected then (upDuration, now)
                 else
                   let durationConnected := now - timeConnected in
                   (upDuration + durationConnected, now)
             end), m)
  end.

Definition updateSubnetUptime (m : manager) (nodeID subnetID : bytes) : option db_error * manager :=
  if negb (bool_decide (subnetID ∈ trackedSubnets m)) then (None, m)
  else
    match CalculateUptime m nodeID subnetID with
    | (Err ErrNotFound, m) => (None, m)
    | (Err err, m) => (Some err, m)
    | (Ok (newDuration, newLastUpdated), m) =>
        let '(err, s) := SetUptime (state m) nodeID subnetID newDuration newLastUpdated in
        (err, set_state m s)
    end.

(** [delete(connectedSubnets, subnetID)], where the inner map is shared with the outer one *)
Definition drop_connection (m : manager) (nodeID subnetID : bytes) : manager :=
  set_connections m (alter (delete subnetID) nodeID (connections m)).

Fixpoint stop_loop (m : manager) (now : Z) (nodeIDs : list bytes) (subnetID : bytes) : option db_error * manager :=
  match nodeIDs with
  | [] => (None, m)
  | nodeID :: nodeIDs =>
      match connection m nodeID subnetID with
      | Some _ =>
          match updateSubnetUptime m nodeID subnetID with
          | (Some err, m) => (Some err, drop_connection m nodeID subnetID)
          | (None, m) => stop_loop (drop_connection m nodeID subnetID) now nodeIDs subnetID
          end
      | None =>
          match GetUptime (state m) nodeID subnetID with
          | Err err => (Some err, m)
          | Ok (upDuration, lastUpdated) =>
              if now <? lastUpdated then stop_loop m now nodeIDs subnetID
              else
                match SetUptime (state m) nodeID subnetID upDuration now with
                | (Some err, s) => (Some err, set_state m s)
                | (None, s) => stop_loop (set_state m s) now nodeIDs subnetID
                end
          end
      end
  end.

Definition StopTracking (m : manager) (nodeIDs : list bytes) (subnetID : bytes) : option db_error * manager :=
  let '(now, m) := UnixTime m in
  stop_loop m now nodeIDs subnetID.

Definition Connect (m : manager) (nodeID subnetID : bytes) : option db_error * manager :=
  let subnetConnections := default ∅ (connections m !! nodeID) in
  let '(now, m) := UnixTime m in
  (None, set_connections m (<[nodeID := <[subnetID := now]> subnetConnections]> (connections m))).

Definition IsConnected (m : manager) (nodeID subnetID : bytes) : bool := bool_decide (is_Some (connection m nodeID subnetID)).

Fixpoint disconnect_loop (m : manager) (nodeID : bytes) (subnets : list bytes) : option db_error * manager :=
  match subnets with
  | [] => (None, m)
  | subnetID :: subnets =>
      match updateSubnetUptime m nodeID subnetID with
      | (Some err, m) => (Some err, m)
      | (None, m) => disconnect_loop m nodeID subnets
      end
  end.

Definition Disconnect (m : manager) (nodeID : bytes) : option db_error * manager :=
  match disconnect_loop m nodeID (range (default ∅ (connections m !! nodeID))) with
  | (Some err, m) => (Some err, m)
  | (None, m) => (None, set_connections m (delete nodeID (connections m)))
  end.

(** The uptime and the best possible one, whose quotient is the percentage; a quotient by zero
    counts as one. *)
Definition CalculateUptimePercentFrom (m : manager) (nodeID subnetID : bytes) (startTime : Z) : result db_error (Z * Z) * manager :=
  match CalculateUptime m nodeID subnetID with
  | (Err err, m) => (Err err, m)
  | (Ok (upDuration, now), m) =>
      let bestPossibleUpDuration := now - startTime in
      (Ok (if bestPossibleUpDuration =? 0 then (1, 1) else (upDuration, bestPossibleUpDuration)), m)
  end.

Definition CalculateUptimePercent (m : manager) (nodeID subnetID : bytes) : result db_error (Z * Z) * manager :=
  match GetStartTime (state m) nodeID subnetID with
  | Err err => (Err err, m)
  | Ok startTime => CalculateUptimePercentFrom m nodeID subnetID startTime
  end.
End manager.

(** ** The calculation *)

(** Uptime and last update of an entry at a time *)
Definition calc_at (e : Z * Z) (tracked : bool) (conn : option Z) (now : Z) : Z * Z :=
  let '(up, last) := e in
  if now <? last then e
  else if negb tracked then (up + (now - last), now)
  else match conn with
       | None => (up, now)
       | Some tc => let tc := if tc <? last then last else tc in if now <? tc then (up, now) else (up + (now - tc), now)
       end.

(** An entry that changes gains no more uptime than the time that passed. *)
Definition grows (e e' : Z * Z) : Prop := e.1 ≤ e'.1 ∧ e.2 ≤ e'.2 ∧ e'.1 - e.1 ≤ e'.2 - e.2.

#[export] Instance grows_preorder : PreOrder grows.
Proof. split; [intros e|intros e f g]; unfold grows; lia. Qed.

Lemma calc_grows e tracked conn now : grows e (calc_at e tracked conn now).
Proof.
  destruct e as [up last]. unfold calc_at, grows. destruct (Z.ltb_spec now last); [cbn; lia|].
  destruct tracked; cbn [negb]; [|cbn; lia]. destruct conn as [tc|]; [|cbn; lia].
  destruct (Z.ltb_spec tc last); [destruct (Z.ltb_spec now last)|destruct (Z.ltb_spec now tc)]; cbn; lia.
Qed.

(** While nothing changes, uptime accrues with the time, or not at all. *)
Definition accrues (tracked : bool) (conn : option Z) : bool := negb tracked || bool_decide (is_Some conn).

Lemma calc_value e tracked conn now : e.2 ≤ now → (∀ tc, conn = Some tc → tc ≤ now) →
  ∃ since, calc_at e tracked conn now = (e.1 + (if accrues tracked conn then now - since else 0), now)
    ∧ since ≤ now ∧ ∀ t, now ≤ t → calc_at e tracked conn t = (e.1 + (if accrues tracked conn then t - since else 0), t).
Proof.
  intros Hl Hc. destruct e as [up last]. cbn [snd fst] in *. unfold calc_at, accrues.
  assert (Hnl : ∀ t, now ≤ t → (t <? last) = false) by (intros t Ht; apply Z.ltb_ge; lia).
  destruct tracked; cbn [negb orb].
  - destruct conn as [tc|].
    + specialize (Hc tc eq_refl). rewrite bool_decide_true by (by eexists).
      exists (if tc <? last then last else tc). destruct (Z.ltb_spec tc last).
      * split; [by rewrite !Hnl by lia|]. split; [lia|]. intros t Ht. by rewrite !Hnl by lia.
      * assert (Htc : ∀ t, now ≤ t → (t <? tc) = false) by (intros t Ht; apply Z.ltb_ge; lia).
        split; [by rewrite Hnl, Htc by lia|]. split; [lia|]. intros t Ht. by rewrite Hnl, Htc by lia.
    + rewrite bool_decide_false by (by intros [? [=]]). exists now.
      split; [rewrite Hnl by lia; f_equal; lia|]. split; [lia|]. intros t Ht. rewrite Hnl by lia. f_equal. lia.
  - exists last. split; [by rewrite Hnl by lia|]. split; [lia|]. intros t Ht. by rewrite Hnl by lia.
Qed.

Section laws.
Context {S : Type} {U : UptimeState S} {UL : UptimeStateLaws U} (clock : nat → Z) (range : gmap bytes Z → list bytes).
Context (range_perm : ∀ c, range c ≡ₚ (map_to_list c).*1).
Implicit Types (m : manager (S := S)) (M : gmap (bytes * bytes) (Z * Z)).

Definition tracks m (k : bytes * bytes) : bool := bool_decide (k.2 ∈ trackedSubnets m).
Definition conn m (k : bytes * bytes) : option Z := connection m k.1 k.2.

Lemma CalculateUptime_eq m M node subnet : us_repr (state m) M →
  CalculateUptime clock m node subnet
  = match M !! (node, subnet) with
    | None => (Err ErrNotFound, m)
    | Some e => (Ok (calc_at e (tracks m (node, subnet)) (conn m (node, subnet)) (clock (tick m))),
                 mkManager (tick m + 1) (state m) (connections m) (trackedSubnets m))
    end.
Proof.
  intros Hr. unfold CalculateUptime. rewrite (law_GetUptime _ M) by done. by destruct (M !! (node, subnet)) as [[up last]|].
Qed.

(** *** Changes of the entries *)

(** The states of the manager before and after, and their entries *)
Record changed m M m' M' : Prop := {
  cg_repr : us_repr (state m') M';
  cg_dom k : is_Some (M' !! k) ↔ is_Some (M !! k);
  cg_grows k e e' : M !! k = Some e → M' !! k = Some e' → grows e e';
}.

Lemma changed_same m M m' : us_repr (state m') M → changed m M m' M.
Proof. intros Hr. split; [done|done|]. intros k e e' H1 H2. by simplify_eq. Qed.

Lemma changed_trans m1 M1 m2 M2 m3 M3 : changed m1 M1 m2 M2 → changed m2 M2 m3 M3 → changed m1 M1 m3 M3.
Proof.
  intros [R1 D1 G1] [R2 D2 G2]. split; [done|intros k; by rewrite D2|]. intros k e e3 H1 H3.
  destruct (proj2 (D1 k) (mk_is_Some _ _ H1)) as [e2 H2]. etrans; eauto.
Qed.

Lemma SetUptime_changed m M node subnet e up last : us_repr (state m) M → M !! (node, subnet) = Some e → grows e (up, last) →
  ∃ s', SetUptime (state m) node subnet up last = (None, s')
    ∧ ∀ c t, changed m M (mkManager t s' c (trackedSubnets m)) (<[(node, subnet) := (up, last)]> M).
Proof.
  intros Hr He Hg. pose proof (law_SetUptime (state m) M node subnet up last Hr) as H. rewrite He in H.
  destruct H as (s' & -> & Hr'). exists s'. split; [done|]. intros c t. split; [done| |].
  - intros k. rewrite lookup_insert. case_decide; [|done]. subst. rewrite He. split; by eexists.
  - intros k e1 e2 H1 H2. rewrite lookup_insert in H2. case_decide; [subst; by simplify_eq|by simplify_eq].
Qed.

Lemma updateSubnetUptime_changed m M node subnet : us_repr (state m) M →
  ∃ M' m', updateSubnetUptime clock m node subnet = (None, m') ∧ changed m M m' M'
    ∧ connections m' = connections m ∧ trackedSubnets m' = trackedSubnets m
    ∧ (tick m ≤ tick m')%nat ∧ (∀ k, k ≠ (node, subnet) → M' !! k = M !! k)
    ∧ match M !! (node, subnet) with
      | Some e => if tracks m (node, subnet)
                  then tick m' = (tick m + 1)%nat ∧ M' = <[(node, subnet) := calc_at e true (conn m (node, subnet)) (clock (tick m))]> M
                  else tick m' = tick m ∧ M' = M
      | None => tick m' = tick m ∧ M' = M
      end.
Proof.
  intros Hr. unfold updateSubnetUptime. rewrite (CalculateUptime_eq m M) by done. unfold tracks at 2. cbn [snd].
  destruct (bool_decide (subnet ∈ trackedSubnets m)) eqn:Et; cbn [negb].
  - destruct (M !! (node, subnet)) as [e|] eqn:Ee.
    + unfold tracks. cbn [snd]. rewrite Et. destruct (calc_at e true (conn m (node, subnet)) (clock (tick m))) as [up last] eqn:Ec.
      cbn [state]. destruct (SetUptime_changed m M node subnet e up last Hr Ee) as (s' & -> & Hc).
      { rewrite <- Ec. apply calc_grows. }
      eexists _, _. split; [done|]. split; [apply Hc|]. cbn [tick set_state]. split_and!; try done; [lia|].
      intros k Hk. by rewrite lookup_insert_ne.
    + exists M, m. split; [done|]. split; [by apply changed_same|]. by split_and!.
  - exists M, m. split; [done|]. split; [by apply changed_same|]. split_and!; try done. by destruct (M !! (node, subnet)).
Qed.

(** *** The loops, for any clock *)

(** The credit of the time before tracking *)
Definition credit (now : Z) (e : Z * Z) : Z * Z := if now <? e.2 then e else (e.1 + (now - e.2), now).

Lemma credit_idem now e : credit now (credit now e) = credit now e.
Proof.
  unfold credit. destruct (Z.ltb_spec now e.2) as [H|H].
  - by apply Z.ltb_lt in H as ->.
  - cbn [fst snd]. rewrite Z.ltb_irrefl. f_equal. lia.
Qed.

Lemma start_loop_spec subnet now : ∀ nodes m M, us_repr (state m) M →
  ∃ r m' M', start_loop m now nodes subnet = (r, m') ∧ changed m M m' M'
    ∧ connections m' = connections m ∧ trackedSubnets m' = trackedSubnets m ∧ tick m' = tick m
    ∧ (∀ k, k.2 ≠ subnet ∨ k.1 ∉ nodes → M' !! k = M !! k)
    ∧ ((∀ n, n ∈ nodes → is_Some (M !! (n, subnet))) →
       r = None ∧ ∀ n, n ∈ nodes → M' !! (n, subnet) = credit now <$> M !! (n, subnet)).
Proof.
  induction nodes as [|n nodes IH]; intros m M Hr; cbn [start_loop].
  - exists None, m, M. split; [done|]. split; [by apply changed_same|]. split_and!; try done. intros _. split; [done|].
    intros n Hn. by apply elem_of_nil in Hn.
  - rewrite (law_GetUptime _ M) by done. destruct (M !! (n, subnet)) as [e|] eqn:Ee.
    2: { exists (Some ErrNotFound), m, M. split; [done|]. split; [by apply changed_same|]. split_and!; try done.
         intros Hall. exfalso. destruct (Hall n) as [e He]; [by left|congruence]. }
    assert (Hstep : ∃ m1, start_loop m now (n :: nodes) subnet = start_loop m1 now nodes subnet
      ∧ changed m M m1 (<[(n, subnet) := credit now e]> M)
      ∧ connections m1 = connections m ∧ trackedSubnets m1 = trackedSubnets m ∧ tick m1 = tick m).
    { cbn [start_loop]. rewrite (law_GetUptime _ M), Ee by done. destruct e as [up last]. unfold credit. cbn [fst snd].
      destruct (Z.ltb_spec now last) as [Hlt|Hge].
      - exists m. split; [done|]. split; [|done]. rewrite insert_id by done. by apply changed_same.
      - destruct (SetUptime_changed m M n subnet (up, last) (up + (now - last)) now Hr Ee) as (s' & -> & Hc1); [unfold grows; cbn; lia|].
        exists (set_state m s'). split; [done|]. split; [apply Hc1|done]. }
    destruct Hstep as (m1 & Heq & Hc1 & Hcon1 & Htr1 & Htk1). cbn [start_loop] in Heq.
    rewrite (law_GetUptime _ M), Ee in Heq by done. rewrite Heq. clear Heq.
    destruct (IH m1 _ (cg_repr _ _ _ _ Hc1)) as (r & m' & M' & -> & Hc & Hcon & Htr & Htk & Hrest & Hok).
    exists r, m', M'. split; [done|]. split; [by eapply changed_trans|]. split_and!; try congruence.
    + intros k Hk. rewrite Hrest.
      * rewrite lookup_insert_ne; [done|]. intros <-. destruct Hk as [Hk|Hk]; [done|]. by apply not_elem_of_cons in Hk as [? _].
      * destruct Hk as [Hk|Hk]; [by left|right]. by apply not_elem_of_cons in Hk as [_ ?].
    + intros Hall. destruct Hok as [-> Hok].
      { intros n' Hn'. rewrite lookup_insert. case_decide; [by eexists|]. apply Hall. by right. }
      split; [done|]. intros n' Hn'. destruct (decide (n' ∈ nodes)) as [Hin|Hin].
      * rewrite Hok by done. rewrite lookup_insert. case_decide as Hd; [|done]. injection Hd as <-. rewrite Ee. cbn. by rewrite credit_idem.
      * rewrite Hrest by (by right). apply elem_of_cons in Hn' as [->|]; [|done]. by rewrite lookup_insert_eq, Ee.
Qed.

Lemma connection_drop m n s k : conn (drop_connection m n s) k = if decide (k = (n, s)) then None else conn m k.
Proof.
  unfold conn, connection, drop_connection, set_connections. cbn [connections]. destruct k as [n' s']. cbn [fst snd].
  destruct (decide (n = n')) as [<-|E].
  - rewrite lookup_alter_eq. destruct (connections m !! n) as [c|]; cbn; [|by case_decide]. destruct (decide (s = s')) as [<-|E'].
    + by rewrite lookup_delete_eq, decide_True.
    + by rewrite lookup_delete_ne, decide_False by (done || congruence).
  - by rewrite lookup_alter_ne, decide_False by (done || congruence).
Qed.

(** A loop reads the clock for the validators that are tracked and connected. *)
Definition measures m M (k : bytes * bytes) : bool :=
  tracks m k && bool_decide (is_Some (conn m k)) && bool_decide (is_Some (M !! k)).

Lemma measures_connected m M k :
  is_Some (conn m k) → measures m M k = match M !! k with Some _ => tracks m k | None => false end.
Proof.
  intros H. unfold measures. rewrite (bool_decide_true _ H), andb_true_r.
  destruct (M !! k); [rewrite bool_decide_true by (by eexists)|rewrite bool_decide_false by apply is_Some_None].
  - apply andb_true_r.
  - apply andb_false_r.
Qed.

Lemma measures_disconnected m M k : conn m k = None → measures m M k = false.
Proof. intros H. unfold measures. by rewrite H, bool_decide_false, andb_false_r by apply is_Some_None. Qed.

(** The number of readings for the elements of a list before [k] *)
Fixpoint reads_before (f : bytes * bytes → bool) (keys : list (bytes * bytes)) (k : bytes * bytes) : nat :=
  match keys with
  | [] => 0
  | k' :: keys => if decide (k' = k) then 0 else (if f k' then 1 else 0) + reads_before f keys k
  end.

Lemma reads_before_ext f g keys k : (∀ k', k' ∈ keys → f k' = g k') → reads_before f keys k = reads_before g keys k.
Proof.
  induction keys as [|k' keys IH]; intros H; cbn [reads_before]; [done|]. case_decide; [done|].
  rewrite (H k') by (by left). rewrite IH; [done|]. intros k2 Hk2. apply H. by right.
Qed.

(** What a loop over nodes does not touch *)
Definition keep m M m' M' (k : bytes * bytes) : Prop := M' !! k = M !! k ∧ conn m' k = conn m k.

(** The last update of a validator that is not connected *)
Definition touch (now : Z) (e : Z * Z) : Z * Z := if now <? e.2 then e else (e.1, now).


(** One node of [StopTracking] *)
Lemma stop_loop_step subnet now n nodes m M : us_repr (state m) M →
  (stop_loop clock m now (n :: nodes) subnet = (Some ErrNotFound, m) ∧ M !! (n, subnet) = None ∧ conn m (n, subnet) = None)
  ∨ ∃ m1 M1, stop_loop clock m now (n :: nodes) subnet = stop_loop clock m1 now nodes subnet
      ∧ changed m M m1 M1 ∧ trackedSubnets m1 = trackedSubnets m
      ∧ tick m1 = (tick m + if measures m M (n, subnet) then 1 else 0)%nat
      ∧ (∀ k, k ≠ (n, subnet) → keep m M m1 M1 k) ∧ conn m1 (n, subnet) = None
      ∧ ∀ e, M !! (n, subnet) = Some e →
        match conn m (n, subnet) with
        | Some tc => tracks m (n, subnet) → M1 !! (n, subnet) = Some (calc_at e true (Some tc) (clock (tick m)))
        | None => M1 !! (n, subnet) = Some (touch now e)
        end.
Proof.
  intros Hr. cbn [stop_loop]. change (connection m n subnet) with (conn m (n, subnet)).
  destruct (conn m (n, subnet)) as [tc|] eqn:Etc.
  - right. destruct (updateSubnetUptime_changed m M n subnet Hr) as (M1 & m1 & -> & Hc1 & Hcon & Htr & Htk1 & Hrest1 & Hup).
    assert (Hconn : ∀ k, conn m1 k = conn m k) by (intros k; unfold conn, connection; by rewrite Hcon).
    exists (drop_connection m1 n subnet), M1. split; [done|]. split; [destruct Hc1; by split|]. split; [done|].
    split; [|split; [|split]].
    + cbn [tick drop_connection set_connections]. rewrite measures_connected by (rewrite Etc; by eexists).
      destruct (M !! (n, subnet)); [destruct (tracks m (n, subnet))|]; destruct Hup as [-> _]; lia.
    + intros k Hk. split; [by apply Hrest1|]. by rewrite connection_drop, decide_False, Hconn.
    + by rewrite connection_drop, decide_True.
    + intros e He Ht. rewrite He in Hup. destruct (tracks m (n, subnet)); [|done]. destruct Hup as [Htk ->]. rewrite Etc.
      by rewrite lookup_insert_eq.
  - rewrite measures_disconnected, Nat.add_0_r by done.
    rewrite (law_GetUptime _ M) by done. destruct (M !! (n, subnet)) as [e|] eqn:Ee; [right|by left].
    destruct e as [up last]. unfold touch. destruct (Z.ltb_spec now last) as [Hlt|Hge].
    + exists m, M. split; [done|]. split; [by apply changed_same|]. split_and!; try done. intros e [= <-]. cbn. rewrite Ee.
      by apply Z.ltb_lt in Hlt as ->.
    + destruct (SetUptime_changed m M n subnet (up, last) up now Hr Ee) as (s' & -> & Hc1); [unfold grows; cbn; lia|].
      eexists (set_state m s'), _. split; [done|]. split; [apply Hc1|]. split_and!; try done.
      * intros k Hk. split; [by rewrite lookup_insert_ne|done].
      * intros e [= <-]. cbn. rewrite lookup_insert_eq. by apply Z.ltb_ge in Hge as ->.
Qed.

Lemma stop_loop_spec subnet now : ∀ nodes m M, us_repr (state m) M →
  ∃ r m' M', stop_loop clock m now nodes subnet = (r, m') ∧ changed m M m' M' ∧ trackedSubnets m' = trackedSubnets m
    ∧ (tick m ≤ tick m')%nat
    ∧ (∀ k, k.2 ≠ subnet ∨ k.1 ∉ nodes → keep m M m' M' k)
    ∧ ((∀ n, n ∈ nodes → is_Some (M !! (n, subnet)) ∨ is_Some (conn m (n, subnet))) → NoDup nodes → subnet ∈ trackedSubnets m →
       r = None ∧ ∀ n, n ∈ nodes → conn m' (n, subnet) = None
         ∧ ∀ e, M !! (n, subnet) = Some e →
           match conn m (n, subnet) with
           | Some tc =>
               let j := (tick m + reads_before (measures m M) ((., subnet) <$> nodes) (n, subnet))%nat in
               (j < tick m')%nat ∧ M' !! (n, subnet) = Some (calc_at e true (Some tc) (clock j))
           | None => M' !! (n, subnet) = Some (touch now e)
           end).
Proof.
  induction nodes as [|n nodes IH]; intros m M Hr.
  - exists None, m, M. split; [done|]. split; [by apply changed_same|]. split_and!; try done. intros _ _ _. split; [done|].
    intros n Hn. by apply elem_of_nil in Hn.
  - destruct (stop_loop_step subnet now n nodes m M Hr)
      as [(-> & H1 & H2)|(m1 & M1 & -> & Hc1 & Htr1 & Htk1 & Hkeep1 & Hn1 & Hval1)].
    { exists (Some ErrNotFound), m, M. split; [done|]. split; [by apply changed_same|]. split_and!; try done.
      intros Hall. exfalso. destruct (Hall n ltac:(by left)) as [H|H]; [rewrite H1 in H|rewrite H2 in H]; by destruct H as [? [=]]. }
    destruct (IH m1 M1 (cg_repr _ _ _ _ Hc1)) as (r & m' & M' & -> & Hc & Htr & Htk & Hkeep & Hok).
    exists r, m', M'. split; [done|]. split; [by eapply changed_trans|]. split; [congruence|]. split; [lia|]. split.
    + intros k Hk. destruct (Hkeep k) as [Hk1 Hk2]; [destruct Hk as [Hk|Hk]; [by left|right]; by apply not_elem_of_cons in Hk as [_ ?]|].
      destruct (Hkeep1 k) as [Hk3 Hk4].
      { intros ->. destruct Hk as [Hk|Hk]; [done|]. by apply not_elem_of_cons in Hk as [? _]. }
      split; congruence.
    + intros Hall Hnd Hs. apply NoDup_cons in Hnd as [Hn Hnd].
      assert (Hother : ∀ n', n' ∈ nodes → keep m M m1 M1 (n', subnet)) by (intros n' Hn'; apply Hkeep1; intros [= ->]; done).
      destruct Hok as [-> Hok]; [|done|by rewrite Htr1|].
      { intros n' Hn'. destruct (Hother n' Hn') as [-> ->]. apply Hall. by right. }
      assert (Hmeas : ∀ k', k' ∈ (., subnet) <$> nodes → measures m1 M1 k' = measures m M k').
      { intros k' (n' & -> & Hn')%list_elem_of_fmap. destruct (Hother n' Hn') as [H1 H2]. unfold measures, tracks.
        by rewrite H1, H2, Htr1. }
      split; [done|]. intros n' Hn'. rewrite fmap_cons. cbn [reads_before]. apply elem_of_cons in Hn' as [->|Hn'].
      * destruct (Hkeep (n, subnet)) as [Hk1 Hk2]; [by right|]. split; [congruence|]. intros e He. specialize (Hval1 e He).
        rewrite decide_True, Nat.add_0_r by done. destruct (conn m (n, subnet)) as [tc|] eqn:Ec; [|congruence].
        assert (Ht : tracks m (n, subnet)) by (by apply bool_decide_pack). split; [|rewrite Hk1; by apply Hval1].
        rewrite measures_connected, He in Htk1 by (rewrite Ec; by eexists). destruct (tracks m (n, subnet)); [lia|done].
      * destruct (Hother n' Hn') as [Hk1 Hk2]. destruct (Hok n' Hn') as [Hcn HM']. split; [done|]. intros e He.
        rewrite <- Hk1 in He. specialize (HM' e He). rewrite Hk2 in HM'. destruct (conn m (n', subnet)) as [tc|]; [|done].
        rewrite decide_False by congruence. rewrite (reads_before_ext _ (measures m M)) in HM' by done.
        cbv zeta in *. rewrite Htk1, <- Nat.add_assoc in HM'. done.
Qed.

Lemma disconnect_loop_spec node : ∀ subnets m M, us_repr (state m) M →
  ∃ m' M', disconnect_loop clock m node subnets = (None, m') ∧ changed m M m' M'
    ∧ trackedSubnets m' = trackedSubnets m ∧ connections m' = connections m ∧ (tick m ≤ tick m')%nat
    ∧ (∀ k, k.1 ≠ node ∨ k.2 ∉ subnets ∨ ¬ tracks m k → M' !! k = M !! k)
    ∧ (NoDup subnets → (∀ s, s ∈ subnets → is_Some (conn m (node, s))) →
       ∀ s e, s ∈ subnets → M !! (node, s) = Some e → tracks m (node, s) →
       let j := (tick m + reads_before (measures m M) ((node,.) <$> subnets) (node, s))%nat in
       (j < tick m')%nat ∧ M' !! (node, s) = Some (calc_at e true (conn m (node, s)) (clock j))).
Proof.
  induction subnets as [|s subnets IH]; intros m M Hr; cbn [disconnect_loop].
  - exists m, M. split; [done|]. split; [by apply changed_same|]. split_and!; try done. intros _ _ s e Hs. by apply elem_of_nil in Hs.
  - destruct (updateSubnetUptime_changed m M node s Hr) as (M1 & m1 & -> & Hc1 & Hcon & Htr & Htk1 & Hrest1 & Hup).
    destruct (IH m1 M1 (cg_repr _ _ _ _ Hc1)) as (m' & M' & -> & Hc & Htr' & Hcon' & Htk & Hrest & Hval).
    assert (Ht : ∀ k, tracks m1 k = tracks m k) by (intros k; unfold tracks; by rewrite Htr).
    assert (Hk1 : ∀ k, conn m1 k = conn m k) by (intros k; unfold conn, connection; by rewrite Hcon).
    exists m', M'. split; [done|]. split; [by eapply changed_trans|]. split; [by rewrite Htr'|]. split; [by rewrite Hcon'|].
    split; [lia|]. split.
    + intros k Hk. rewrite Hrest.
      * destruct (decide (k = (node, s))) as [->|Hne]; [|by apply Hrest1]. destruct Hk as [Hk|[Hk|Hk]]; [done|by apply not_elem_of_cons in Hk as [? _]|].
        destruct (tracks m (node, s)); [done|]. destruct (M !! (node, s)) eqn:E; destruct Hup as [_ ->]; done.
      * destruct Hk as [Hk|[Hk|Hk]]; [by left|right; left|right; right; by rewrite Ht]. by apply not_elem_of_cons in Hk as [_ ?].
    + intros Hnd Hcs s' e Hs' He Htk'. apply NoDup_cons in Hnd as [Hn Hnd]. rewrite fmap_cons. cbn [reads_before].
      assert (Htk2 : tick m1 = (tick m + if measures m M (node, s) then 1 else 0)%nat).
      { rewrite measures_connected by (apply Hcs; by left).
        destruct (M !! (node, s)); [destruct (tracks m (node, s))|]; destruct Hup as [-> _]; lia. }
      apply elem_of_cons in Hs' as [->|Hs'].
      * rewrite decide_True, Nat.add_0_r by done. rewrite He in Hup. destruct (tracks m (node, s)) eqn:Et; [|done].
        destruct Hup as [Htk3 HM1]. split; [lia|]. rewrite Hrest by (by right; left). by rewrite HM1, lookup_insert_eq.
      * assert (Hne : s' ≠ s) by (intros ->; done). rewrite decide_False by congruence.
        destruct (Hval Hnd) with (s := s') (e := e) as [Hj HM']; [|done|by rewrite Hrest1 by congruence|by rewrite Ht|].
        { intros s2 Hs2. rewrite Hk1. apply Hcs. by right. }
        assert (Hmeas : ∀ k', k' ∈ (node,.) <$> subnets → measures m1 M1 k' = measures m M k').
        { intros k' (s2 & -> & Hs2)%list_elem_of_fmap. unfold measures. rewrite Ht, Hk1, Hrest1; [done|]. intros [= ->]. done. }
        rewrite (reads_before_ext _ (measures m M)) in Hj, HM' by done. rewrite Htk2, <- Nat.add_assoc in Hj, HM'.
        split; [exact Hj|]. by rewrite <- Hk1.
Qed.

(** *** Operations and runs of them *)

Inductive op :=
| OpStartTracking (nodeIDs : list bytes) (subnetID : bytes)
| OpStopTracking (nodeIDs : list bytes) (subnetID : bytes)
| OpConnect (nodeID subnetID : bytes)
| OpDisconnect (nodeID : bytes)
| OpCalculateUptime (nodeID subnetID : bytes).

Definition apply m (o : op) : option db_error * manager :=
  match o with
  | OpStartTracking nodeIDs subnetID => StartTracking clock m nodeIDs subnetID
  | OpStopTracking nodeIDs subnetID => StopTracking clock m nodeIDs subnetID
  | OpConnect nodeID subnetID => Connect clock m nodeID subnetID
  | OpDisconnect nodeID => Disconnect clock range m nodeID
  | OpCalculateUptime nodeID subnetID =>
      match CalculateUptime clock m nodeID subnetID with (Err err, m) => (Some err, m) | (Ok _, m) => (None, m) end
  end.

Definition run m (ops : list op) : manager := foldl (λ m o, (apply m o).2) m ops.

Definition ticked m : manager := mkManager (tick m + 1) (state m) (connections m) (trackedSubnets m).

Lemma apply_changed m M o : us_repr (state m) M → ∃ M', changed m M (apply m o).2 M'.
Proof.
  intros Hr. destruct o as [nodes s|nodes s|n s|n|n s]; cbn [apply].
  - unfold StartTracking, UnixTime. fold (ticked m). destruct (start_loop_spec s (clock (tick m)) nodes (ticked m) M Hr)
      as (r & m' & M' & -> & Hc & _). exists M'. destruct r; [|destruct Hc; split]; try done. destruct Hc; by split.
  - unfold StopTracking, UnixTime. fold (ticked m). destruct (stop_loop_spec s (clock (tick m)) nodes (ticked m) M Hr)
      as (r & m' & M' & -> & Hc & _). exists M'. destruct Hc; by split.
  - exists M. by apply changed_same.
  - unfold Disconnect. destruct (disconnect_loop_spec n (range (default ∅ (connections m !! n))) m M Hr) as (m' & M' & -> & Hc & _).
    exists M'. destruct Hc; by split.
  - exists M. rewrite (CalculateUptime_eq m M) by done. apply changed_same. by destruct (M !! (n, s)).
Qed.

Lemma run_changed ops : ∀ m M, us_repr (state m) M → ∃ M', changed m M (run m ops) M'.
Proof.
  induction ops as [|o ops IH]; intros m M Hr; [exists M; by apply changed_same|].
  destruct (apply_changed m M o Hr) as [M1 Hc1]. destruct (IH _ M1 (cg_repr _ _ _ _ Hc1)) as [M2 Hc2].
  exists M2. by eapply changed_trans.
Qed.

(** *** Who is connected *)

(** The subnets that are tracked and the validators that are connected, according to the
    operations alone.  [StopTracking] ends the connections of its nodes. *)
Record presence := mkPresence { tracked : gset bytes; online : gset (bytes * bytes) }.

Definition nobody : presence := mkPresence ∅ ∅.

Definition observe (p : presence) (o : op) : presence :=
  match o with
  | OpStartTracking _ subnetID => mkPresence ({[subnetID]} ∪ tracked p) (online p)
  | OpStopTracking nodeIDs subnetID => mkPresence (tracked p) (online p ∖ list_to_set ((., subnetID) <$> nodeIDs))
  | OpConnect nodeID subnetID => mkPresence (tracked p) ({[(nodeID, subnetID)]} ∪ online p)
  | OpDisconnect nodeID => mkPresence (tracked p) (filter (λ k, k.1 ≠ nodeID) (online p))
  | OpCalculateUptime _ _ => p
  end.

(** A validator is up while it is connected, or its subnet is not tracked. *)
Definition is_up (p : presence) (k : bytes * bytes) : bool := bool_decide (k.2 ∉ tracked p) || bool_decide (k ∈ online p).

(** *** When an operation takes effect *)

(** The connections for which an operation may read the clock, in this order *)
Definition op_keys m (o : op) : list (bytes * bytes) :=
  match o with
  | OpStopTracking nodeIDs subnetID => (., subnetID) <$> nodeIDs
  | OpDisconnect nodeID => (nodeID,.) <$> range (default ∅ (connections m !! nodeID))
  | _ => []
  end.

(** Which of them belong to one of the validators [V] and are counted until then *)
Definition counted_key (V : gset (bytes * bytes)) (p : presence) (k : bytes * bytes) : bool :=
  bool_decide (k.2 ∈ tracked p) && bool_decide (k ∈ online p) && bool_decide (k ∈ V).

(** The reading of the clock at which an operation takes effect for a validator: the one for
    its own connection when this ends, and else the first one of the operation *)
Definition effect (V : gset (bytes * bytes)) (p : presence) m (o : op) (k : bytes * bytes) : Z :=
  let first := match o with OpStopTracking _ _ => 1%nat | _ => 0%nat end in
  clock (tick m + (if bool_decide (k ∈ op_keys m o) && counted_key V p k
                   then first + reads_before (counted_key V p) (op_keys m o) k else 0))%nat.

(** How long a validator is up from the time [since] until [t], while [ops] run *)
Fixpoint time_up (V : gset (bytes * bytes)) (p : presence) m (ops : list op) (k : bytes * bytes) (since t : Z) : Z :=
  match ops with
  | [] => if is_up p k then t - since else 0
  | o :: ops =>
      let τ := effect V p m o k in
      (if is_up p k then τ - since else 0) + time_up V (observe p o) (apply m o).2 ops k τ t
  end.

(** *** A clock that does not go backwards *)

(** The uptime of a validator at a time, while no operation runs *)
Definition value m (e : Z * Z) (k : bytes * bytes) (t : Z) : Z := (calc_at e (tracks m k) (conn m k) t).1.
Definition acc m (k : bytes * bytes) : bool := accrues (tracks m k) (conn m k).

(** Neither the last update nor the connection is after [τ]. *)
Definition settled m (e : Z * Z) (k : bytes * bytes) (τ : Z) : Prop := e.2 ≤ τ ∧ ∀ tc, conn m k = Some tc → tc ≤ τ.

Definition timely m M : Prop := ∀ k e, M !! k = Some e → settled m e k (clock (tick m)).

(** How the callers use the tracker: a subnet is tracked with all of its validators, it is
    tracked when it stops, and nodes connect while they are not connected. *)
Definition op_ok m M (o : op) : Prop :=
  match o with
  | OpStartTracking nodeIDs subnetID => subnetID ∉ trackedSubnets m ∧ ∀ n, n ∈ nodeIDs ↔ is_Some (M !! (n, subnetID))
  | OpStopTracking nodeIDs subnetID => subnetID ∈ trackedSubnets m ∧ NoDup nodeIDs
      ∧ ∀ n, n ∈ nodeIDs → is_Some (M !! (n, subnetID)) ∨ is_Some (conn m (n, subnetID))
  | OpConnect nodeID subnetID => conn m (nodeID, subnetID) = None
  | OpDisconnect _ => True
  | OpCalculateUptime nodeID subnetID => is_Some (M !! (nodeID, subnetID))
  end.

(** The manager knows who is connected. *)
Definition reflects m (p : presence) : Prop :=
  (∀ s, s ∈ trackedSubnets m ↔ s ∈ tracked p) ∧ ∀ k, is_Some (conn m k) ↔ k ∈ online p.

Lemma reflects_up m p k : reflects m p → acc m k = is_up p k.
Proof.
  intros [H1 H2]. unfold acc, accrues, tracks, is_up. rewrite (bool_decide_ext _ _ (H2 k)). f_equal.
  rewrite <- bool_decide_not. apply bool_decide_ext. by rewrite H1.
Qed.

Lemma reflects_counted m M V p k : reflects m p → (∀ k, k ∈ V ↔ is_Some (M !! k)) → counted_key V p k = measures m M k.
Proof.
  intros [H1 H2] HV. unfold counted_key, measures, tracks.
  by rewrite (bool_decide_ext _ _ (H1 k.2)), (bool_decide_ext _ _ (H2 k)), (bool_decide_ext _ _ (HV k)).
Qed.

(** The value of a validator is the same before and after an operation at the time [τ]. *)
Definition continues m m' (k : bytes * bytes) (e e' : Z * Z) (τ : Z) : Prop :=
  settled m' e' k τ ∧ value m' e' k τ = value m e k τ.

Lemma value_flow m e k now t : settled m e k now → now ≤ t →
  value m e k t = value m e k now + (if acc m k then t - now else 0).
Proof.
  intros [He Hc] Ht. destruct (calc_value e (tracks m k) (conn m k) now He Hc) as (since & Hnow & Hs & Hv).
  unfold value, acc. rewrite (Hv t Ht), Hnow. cbn [fst]. destruct (accrues _ _); lia.
Qed.

Lemma settled_le m e k τ τ' : settled m e k τ → τ ≤ τ' → settled m e k τ'.
Proof. intros [H1 H2] Hle. split; [lia|]. intros tc Htc. specialize (H2 tc Htc). lia. Qed.

(** Nothing changed that counts. *)
Lemma continues_keep m m' k e τ : settled m e k τ → tracks m' k = tracks m k →
  (tracks m k → conn m' k = conn m k) → (∀ tc, conn m' k = Some tc → conn m k = Some tc) → continues m m' k e e τ.
Proof.
  intros [H1 H2] Htr Hc Hc'. split; [split; [done|]; intros tc Htc; by apply H2, Hc'|].
  unfold value. rewrite Htr. destruct (tracks m k); [by rewrite Hc|]. by destruct e.
Qed.

(** The value was stored, and the connection dropped. *)
Lemma continues_drop m m' k e τ : settled m e k τ → tracks m k → tracks m' k → conn m' k = None →
  continues m m' k e (calc_at e true (conn m k) τ) τ.
Proof.
  intros [H1 H2] Ht Ht' Hc. destruct (calc_value e true (conn m k) τ H1 H2) as (since & E & _ & _).
  split; [split|]; [rewrite E; cbn; lia|by rewrite Hc|]. unfold value. destruct (tracks m k); [|done]. destruct (tracks m' k); [|done].
  rewrite Hc, E. unfold calc_at. cbn [negb fst]. by destruct (τ <? τ).
Qed.

Lemma continues_touch m m' k e τ : settled m e k τ → tracks m k → tracks m' k → conn m k = None → conn m' k = None →
  continues m m' k e (touch τ e) τ.
Proof.
  intros Hs Ht Ht' Hc Hc'. replace (touch τ e) with (calc_at e true (conn m k) τ); [by apply continues_drop|].
  rewrite Hc. unfold calc_at, touch. by destruct e.
Qed.

(** The time before tracking was credited. *)
Lemma continues_start m m' k e τ : settled m e k τ → tracks m k = false → conn m' k = conn m k →
  continues m m' k e (credit τ e) τ.
Proof.
  intros [H1 H2] Ht Hc. destruct e as [u last]. cbn [snd] in H1.
  assert (Hcr : credit τ (u, last) = (u + (τ - last), τ)) by (unfold credit; cbn; by apply Z.ltb_ge in H1 as ->).
  rewrite Hcr. split; [split; [cbn; lia|by rewrite Hc]|]. unfold value. rewrite Ht, Hc. unfold calc_at. rewrite Z.ltb_irrefl.
  apply Z.ltb_ge in H1 as ->. cbn [negb]. destruct (negb (tracks m' k)); [cbn; lia|].
  destruct (conn m k) as [tc|]; [|done]. specialize (H2 tc eq_refl).
  destruct (Z.ltb_spec tc τ); [rewrite Z.ltb_irrefl; cbn; lia|]. destruct (Z.ltb_spec τ tc); cbn; lia.
Qed.

Lemma continues_connect m m' k e τ : settled m e k τ → tracks m' k = tracks m k → conn m k = None → conn m' k = Some τ →
  continues m m' k e e τ.
Proof.
  intros [H1 H2] Ht Hc Hc'. split; [split; [done|]; rewrite Hc'; intros tc [= <-]; lia|].
  unfold value. rewrite Ht, Hc, Hc'. destruct e as [u last]. cbn [snd] in H1. unfold calc_at.
  destruct (τ <? last); [done|]. destruct (negb (tracks m k)); [done|].
  destruct (Z.ltb_spec τ last); [cbn; lia|]. destruct (Z.ltb_spec τ τ); cbn; lia.
Qed.

Section monotone.
Context (clock_mono : ∀ n, clock n ≤ clock (n + 1)%nat).

Lemma clock_le i j : (i ≤ j)%nat → clock i ≤ clock j.
Proof using clock_mono.
  intros Hij. induction Hij as [|j Hij IH]; [lia|]. specialize (clock_mono j). rewrite Nat.add_1_r in clock_mono. lia.
Qed.

(** *** Every operation continues the values. *)

(** What an operation achieves: the validators keep their entries, their values continue at
    the time of the effect, and the manager knows who is connected. *)
Record stepped (V : gset (bytes * bytes)) (p : presence) m M (o : op) m' M' : Prop := {
  st_tick : (tick m ≤ tick m')%nat;
  st_effect k e : M !! k = Some e → clock (tick m) ≤ effect V p m o k ≤ clock (tick m')
    ∧ ∃ e', M' !! k = Some e' ∧ continues m m' k e e' (effect V p m o k);
  st_reflects : reflects m' (observe p o);
}.

Lemma stepped_timely V p m M o m' M' : changed m M m' M' → stepped V p m M o m' M' → timely m' M'.
Proof.
  intros Hc [_ H1 _] k e' He'. destruct (proj1 (cg_dom _ _ _ _ Hc k) (mk_is_Some _ _ He')) as [e He].
  destruct (H1 k e He) as ([_ Hle] & e2 & He2 & Hs & _). simplify_eq. by eapply settled_le.
Qed.

(** An operation that reads the clock first takes effect then. *)
Lemma effect_first V p m o k : bool_decide (k ∈ op_keys m o) && counted_key V p k = false → effect V p m o k = clock (tick m).
Proof. intros H. unfold effect. rewrite H. by rewrite Nat.add_0_r. Qed.

Section steps.
Context (V : gset (bytes * bytes)) (p : presence) (m : manager (S := S)) (M : gmap (bytes * bytes) (Z * Z)).
Context (Hr : us_repr (state m) M) (HT : timely m M) (Hp : reflects m p) (HV : ∀ k, k ∈ V ↔ is_Some (M !! k)).

Lemma tracks_iff k : tracks m k ↔ k.2 ∈ tracked p.
Proof using Hp. unfold tracks. rewrite <- (proj1 Hp). apply bool_decide_spec. Qed.

Lemma StartTracking_stepped nodes s : op_ok m M (OpStartTracking nodes s) →
  ∃ m' M', StartTracking clock m nodes s = (None, m') ∧ changed m M m' M' ∧ stepped V p m M (OpStartTracking nodes s) m' M'.
Proof using clock_mono Hr HT Hp.
  intros [Hs Hall]. unfold StartTracking, UnixTime. fold (ticked m).
  destruct (start_loop_spec s (clock (tick m)) nodes (ticked m) M Hr) as (r & m1 & M' & -> & Hc & Hcon & Htr & Htk & Hrest & Hok).
  destruct Hok as [-> Hok]; [intros n Hn; by apply Hall|]. cbn [ticked tick connections trackedSubnets] in *.
  eexists _, M'. split; [done|]. split; [destruct Hc; by split|]. set (m' := mkManager _ _ _ _).
  assert (Htm : (tick m ≤ tick m')%nat) by (cbn; lia). pose proof (clock_le _ _ Htm) as Hcl.
  assert (Hconn : ∀ k, conn m' k = conn m k) by (intros k; unfold conn, connection; cbn; by rewrite Hcon).
  split; [done| |].
  - intros k e He. rewrite effect_first by done. split; [lia|]. specialize (HT k e He). destruct (decide (k.2 = s)) as [<-|Hne].
    + assert (Hn : k.1 ∈ nodes) by (apply Hall; destruct k; by eexists). specialize (Hok k.1 Hn).
      rewrite <- surjective_pairing, He in Hok. cbn in Hok. exists (credit (clock (tick m)) e). split; [done|].
      apply continues_start; [done| |done]. unfold tracks. by rewrite bool_decide_false.
    + exists e. split; [rewrite Hrest by (by left); done|]. apply continues_keep; [done| |done|by rewrite Hconn].
      unfold tracks. cbn [m' trackedSubnets]. rewrite Htr. apply bool_decide_ext. clear -Hne. set_solver.
  - split; [|intros k; rewrite Hconn; apply Hp]. intros s'. cbn. rewrite Htr, !elem_of_union. by rewrite (proj1 Hp).
Qed.

Lemma StopTracking_stepped nodes s : op_ok m M (OpStopTracking nodes s) →
  ∃ m' M', StopTracking clock m nodes s = (None, m') ∧ changed m M m' M' ∧ stepped V p m M (OpStopTracking nodes s) m' M'.
Proof using clock_mono Hr HT Hp HV.
  intros (Hs & Hnd & Hall). unfold StopTracking, UnixTime. fold (ticked m).
  destruct (stop_loop_spec s (clock (tick m)) nodes (ticked m) M Hr) as (r & m1 & M' & -> & Hc & Htr & Htk & Hkeep & Hok).
  destruct Hok as [-> Hok]; [done|done|done|]. cbn [ticked tick trackedSubnets] in *.
  exists m1, M'. split; [done|]. split; [destruct Hc; by split|].
  assert (Htm : (tick m ≤ tick m1)%nat) by lia. pose proof (clock_le _ _ Htm) as Hcl.
  assert (Htracks : ∀ k, tracks m1 k = tracks m k) by (intros k; unfold tracks; by rewrite Htr).
  assert (Hmem : ∀ k, k ∈ (., s) <$> nodes ↔ k.2 = s ∧ k.1 ∈ nodes).
  { intros [n' s']. rewrite list_elem_of_fmap. cbn [fst snd]. naive_solver. }
  split; [done| |].
  - intros k e He. specialize (HT k e He). destruct (decide (k ∈ (., s) <$> nodes)) as [Hin|Hni].
    + pose proof Hin as [<- Hn]%Hmem. assert (Ht : tracks m k) by (by apply bool_decide_pack).
      destruct (Hok k.1 Hn) as [Hcn Hv]. rewrite <- surjective_pairing in *. specialize (Hv e He).
      change (conn (ticked m) k) with (conn m k) in Hv. unfold effect. cbn [op_keys]. rewrite (bool_decide_true _ Hin).
      rewrite (reflects_counted m M) by done. destruct (conn m k) as [tc|] eqn:Ec.
      * rewrite measures_connected, He by (rewrite Ec; by eexists). destruct (tracks m k) eqn:Et; [|done]. cbn [andb].
        rewrite (reads_before_ext _ (measures (ticked m) M)) by (intros k' _; by apply reflects_counted).
        cbv zeta in Hv. rewrite <- Nat.add_assoc in Hv. destruct Hv as [Hj HM'].
        set (j := (tick m + (1 + _))%nat) in *. pose proof (clock_le (tick m) j ltac:(lia)).
        pose proof (clock_le j (tick m1) ltac:(lia)). split; [lia|]. eexists. split; [done|]. rewrite <- Ec.
        apply continues_drop; [by eapply settled_le|by rewrite Et|by rewrite Htracks, Et|done].
      * rewrite measures_disconnected by done. cbn [andb]. rewrite Nat.add_0_r. split; [lia|]. eexists. split; [done|].
        apply continues_touch; try done. by rewrite Htracks.
    + rewrite effect_first by (cbn [op_keys]; by rewrite (bool_decide_false _ Hni)). split; [lia|]. exists e.
      destruct (Hkeep k) as [H1 H2]; [rewrite Hmem in Hni; destruct (decide (k.2 = s)); tauto|].
      split; [by rewrite H1|]. apply continues_keep; [done|done|intros _; apply H2|by rewrite H2].
  - split; [intros s'; cbn; rewrite Htr; apply Hp|]. intros k. cbn [observe online].
    rewrite elem_of_difference, elem_of_list_to_set, <- (proj2 Hp k), Hmem.
    destruct (decide (k.2 = s ∧ k.1 ∈ nodes)) as [[Hk1 Hk2]|Hni].
    + destruct (Hok k.1 Hk2) as [Hcn _]. rewrite <- Hk1, <- surjective_pairing in Hcn. rewrite Hcn.
      split; [by intros ?%is_Some_None|tauto].
    + destruct (Hkeep k) as [_ H2]; [destruct (decide (k.2 = s)); tauto|]. change (conn (ticked m) k) with (conn m k) in H2.
      rewrite H2. tauto.
Qed.

Lemma Connect_stepped n s : op_ok m M (OpConnect n s) →
  ∃ m' M', Connect clock m n s = (None, m') ∧ changed m M m' M' ∧ stepped V p m M (OpConnect n s) m' M'.
Proof using clock_mono Hr HT Hp.
  intros Hnone. eexists _, M. split; [done|]. split; [by apply changed_same|].
  set (m' := set_connections _ _). assert (Htm : (tick m ≤ tick m')%nat) by (cbn; lia). pose proof (clock_le _ _ Htm) as Hcl.
  assert (Hconn : ∀ k, conn m' k = if decide (k = (n, s)) then Some (clock (tick m)) else conn m k).
  { intros [n' s']. unfold m', conn, connection, set_connections. cbn [connections fst snd].
    destruct (decide (n = n')) as [<-|E]; [rewrite lookup_insert_eq|by rewrite lookup_insert_ne, decide_False by (done || congruence)].
    cbn. destruct (decide (s = s')) as [<-|E]; [by rewrite lookup_insert_eq, decide_True|].
    rewrite lookup_insert_ne, decide_False by (done || congruence). destruct (connections m !! n); [done|]. cbn. by rewrite lookup_empty. }
  split; [done| |].
  - intros k e He. rewrite effect_first by done. split; [lia|]. specialize (HT k e He). exists e. split; [done|].
    destruct (decide (k = (n, s))) as [->|Hne].
    + eapply continues_connect; try done. by rewrite Hconn, decide_True.
    + apply continues_keep; try done; rewrite Hconn, decide_False; done.
  - split; [apply Hp|]. intros k. rewrite Hconn. cbn [observe online]. rewrite elem_of_union, elem_of_singleton, <- (proj2 Hp k).
    case_decide as E; [split; [by left|by eexists]|]. tauto.
Qed.

Lemma Disconnect_stepped n :
  ∃ m' M', Disconnect clock range m n = (None, m') ∧ changed m M m' M' ∧ stepped V p m M (OpDisconnect n) m' M'.
Proof using clock_mono range_perm Hr HT Hp HV.
  unfold Disconnect. set (c := default ∅ (connections m !! n)).
  destruct (disconnect_loop_spec n (range c) m M Hr) as (m1 & M' & -> & Hc & Htr & Hcon & Htk & Hrest & Hval).
  eexists _, M'. split; [done|]. split; [destruct Hc; by split|]. set (m' := set_connections _ _).
  pose proof (clock_le _ _ Htk) as Hcl. change (tick m1) with (tick m') in *.
  assert (Hnd : NoDup (range c)) by (rewrite range_perm; apply NoDup_fst_map_to_list).
  assert (Htracks : ∀ k, tracks m' k = tracks m k) by (intros k; unfold tracks; cbn; by rewrite Htr).
  assert (Hconn : ∀ k, conn m' k = if decide (k.1 = n) then None else conn m k).
  { intros [n' s']. unfold m', conn, connection, set_connections. cbn [connections fst snd]. rewrite Hcon.
    destruct (decide (n' = n)) as [->|E]; [by rewrite lookup_delete_eq|by rewrite lookup_delete_ne]. }
  assert (Hin : ∀ s, s ∈ range c ↔ is_Some (conn m (n, s))).
  { intros s. rewrite range_perm. unfold conn, connection, c. cbn [fst snd]. rewrite list_elem_of_fmap. split.
    - intros ([s' tc] & -> & H%elem_of_map_to_list). destruct (connections m !! n); [by eexists|]. cbn in H. by rewrite lookup_empty in H.
    - intros [tc H]. exists (s, tc). split; [done|]. apply elem_of_map_to_list. by destruct (connections m !! n). }
  assert (Hmem : ∀ k, k ∈ (n,.) <$> range c ↔ k.1 = n ∧ is_Some (conn m k)).
  { intros [n' s']. rewrite list_elem_of_fmap. cbn [fst]. setoid_rewrite Hin. naive_solver. }
  split; [done| |].
  - intros k e He. specialize (HT k e He).
    destruct (decide (k ∈ (n,.) <$> range c ∧ tracks m k)) as [[Hk Ht]|Hno].
    + pose proof Hk as [<- Hck]%Hmem. unfold effect. cbn [op_keys]. fold c. rewrite (bool_decide_true _ Hk).
      rewrite (reflects_counted m M), measures_connected, He by done.
      destruct (Hval Hnd (λ s, proj1 (Hin s)) k.2 e) as [Hj HM']; [apply Hin; by destruct k|by destruct k|done|].
      rewrite <- surjective_pairing in Hj, HM'. destruct (tracks m k) eqn:Et; [|done]. cbn [andb].
      rewrite (reads_before_ext _ (measures m M)) by (intros k' _; by apply reflects_counted).
      cbn [Nat.add]. set (j := (tick m + _)%nat) in *. pose proof (clock_le (tick m) j ltac:(lia)).
      pose proof (clock_le j (tick m') ltac:(cbn in *; lia)). split; [lia|]. eexists. split; [done|].
      apply continues_drop; [by eapply settled_le|by rewrite Et|by rewrite Htracks, Et|]. by rewrite Hconn, decide_True.
    + rewrite effect_first. 2: { cbn [op_keys]. fold c. case_bool_decide as Hk; [|done]. cbn [andb].
        rewrite (reflects_counted m M), measures_connected, He; [|by apply Hmem|done|done]. destruct (tracks m k); [by destruct Hno|done]. }
      split; [lia|]. exists e. split.
      * rewrite Hrest; [done|]. rewrite Hmem in Hno. destruct (decide (k.1 = n)) as [<-|]; [right|by left].
        destruct (decide (tracks m k)); [left|by right]. rewrite Hin, <- surjective_pairing. tauto.
      * apply continues_keep; [done|done| |].
        -- intros Ht. rewrite Hconn. case_decide; [|done]. destruct (conn m k) eqn:E; [|done]. exfalso. apply Hno.
           rewrite Hmem, E. split; [split; [done|by eexists]|done].
        -- intros tc. rewrite Hconn. by case_decide.
  - split; [intros s'; cbn; rewrite Htr; apply Hp|]. intros k. rewrite Hconn. cbn [observe online].
    rewrite elem_of_filter, <- (proj2 Hp k). case_decide; [|tauto]. split; [by intros ?%is_Some_None|tauto].
Qed.

Lemma apply_stepped o : op_ok m M o → ∃ m' M', apply m o = (None, m') ∧ changed m M m' M' ∧ stepped V p m M o m' M'.
Proof using clock_mono range_perm Hr HT Hp HV.
  intros Hok. destruct o as [nodes s|nodes s|n s|n|n s]; cbn [apply].
  - by apply StartTracking_stepped.
  - by apply StopTracking_stepped.
  - by apply Connect_stepped.
  - by apply Disconnect_stepped.
  - destruct Hok as [e He]. rewrite (CalculateUptime_eq m M), He by done. fold (ticked m). exists (ticked m), M. split; [done|].
    split; [by apply changed_same|]. assert (Htm : (tick m ≤ tick (ticked m))%nat) by (cbn; lia). pose proof (clock_le _ _ Htm).
    split; [done| |done]. intros k e' He'. rewrite effect_first by done. split; [lia|]. exists e'. split; [done|].
    apply continues_keep; try done. by apply HT.
Qed.
End steps.

(** *** Runs *)

(** Every operation of a run is called as [op_ok] says. *)
Inductive run_ok : manager → list op → Prop :=
| run_ok_nil m : run_ok m []
| run_ok_cons m M o ops : us_repr (state m) M → op_ok m M o → run_ok (apply m o).2 ops → run_ok m (o :: ops).

Fixpoint succeeds m (ops : list op) : Prop :=
  match ops with
  | [] => True
  | o :: ops => (apply m o).1 = None ∧ succeeds (apply m o).2 ops
  end.

Lemma us_repr_functional s M1 M2 : us_repr s M1 → us_repr s M2 → M1 = M2.
Proof.
  intros H1 H2. apply map_eq. intros [n sub]. pose proof (law_GetUptime s M1 n sub H1) as E1.
  rewrite (law_GetUptime s M2 n sub H2) in E1. destruct (M1 !! (n, sub)), (M2 !! (n, sub)); congruence.
Qed.

Lemma run_time_up V ops : ∀ m M p, us_repr (state m) M → timely m M → reflects m p → (∀ k, k ∈ V ↔ is_Some (M !! k)) →
  run_ok m ops →
  succeeds m ops
  ∧ ∃ M', us_repr (state (run m ops)) M' ∧ timely (run m ops) M'
    ∧ ∀ k e since, M !! k = Some e → settled m e k since → since ≤ clock (tick m) →
      ∃ e', M' !! k = Some e' ∧ ∀ t, clock (tick (run m ops)) ≤ t →
        value (run m ops) e' k t = value m e k since + time_up V p m ops k since t.
Proof using clock_mono range_perm.
  induction ops as [|o ops IH]; intros m M p Hr HT Hp HV Hok.
  - split; [done|]. exists M. split; [done|]. split; [done|]. intros k e since He Hs Hle. exists e. split; [done|].
    intros t Ht. cbn [time_up run foldl] in *. rewrite <- (reflects_up m p k Hp). apply value_flow; [done|lia].
  - inversion Hok as [|? M0 ? ? Hr0 Ho Hrun]; subst. rewrite (us_repr_functional _ _ _ Hr0 Hr) in Ho. clear Hr0 M0.
    destruct (apply_stepped V p m M Hr HT Hp HV o Ho) as (m1 & M1 & Ea & Hc1 & Hst). cbn [run foldl succeeds time_up].
    rewrite Ea in *. cbn [fst snd] in *. fold (run m1 ops).
    destruct (IH m1 M1 _ (cg_repr _ _ _ _ Hc1) (stepped_timely _ _ _ _ _ _ _ Hc1 Hst) (st_reflects _ _ _ _ _ _ _ Hst)) as (Hsucc & M' & Hr' & HT' & Hval);
      [intros k; by rewrite (cg_dom _ _ _ _ Hc1)|done|].
    split; [done|]. exists M'. split; [done|]. split; [done|]. intros k e since He Hs Hle.
    destruct (st_effect _ _ _ _ _ _ _ Hst k e He) as ([Hτ1 Hτ2] & e1 & He1 & Hset & Hcont).
    destruct (Hval k e1 _ He1 Hset Hτ2) as (e' & He' & Hv). exists e'. split; [done|]. intros t Ht. rewrite (Hv t Ht), Hcont.
    rewrite (value_flow m e k since _ Hs) by lia. rewrite (reflects_up m p k Hp). lia.
Qed.

Lemma calc_now e tracked c t : e.2 ≤ t → (∀ tc, c = Some tc → tc ≤ t) → (calc_at e tracked c t).2 = t.
Proof. intros He Hc. by destruct (calc_value e tracked c t He Hc) as (since & -> & _). Qed.

(** C22. The uptimes are exact.  A new manager runs operations, called as their callers do (a
    subnet is tracked once, with its validators; it stops while it is tracked; nodes connect
    while they are not connected), and the clock does not go backwards.  Then every operation
    succeeds, and for a validator that was stored with the uptime [up0] at the time [last],
    [CalculateUptime] gives, at the time [t] of its own reading of the clock, [up0] and exactly
    the time between [last] and [t] for which the validator was connected or its subnet was
    not tracked.  Each operation takes effect at a reading of the clock that it makes:
    [StartTracking] and [Connect] at their only one, [StopTracking] and [Disconnect] at the one
    for the connection that they end. *)
Theorem uptime_is_connected_time s M ops k up0 last :
  us_repr s M → (∀ k e, M !! k = Some e → e.2 ≤ clock 0) → run_ok (NewManager s) ops → M !! k = Some (up0, last) →
  succeeds (NewManager s) ops
  ∧ let t := clock (tick (run (NewManager s) ops)) in
    (CalculateUptime clock (run (NewManager s) ops) k.1 k.2).1
    = Ok (up0 + time_up (dom M) nobody (NewManager s) ops k last t, t).
Proof using clock_mono range_perm.
  intros Hr Hlast Hok He. set (m := NewManager s).
  assert (Hnone : ∀ k, conn m k = None) by (intros k'; unfold conn, connection; cbn; by rewrite lookup_empty).
  assert (Hset : ∀ k e τ, e.2 ≤ τ → settled m e k τ) by (intros k' e τ Hle; split; [done|]; intros tc; by rewrite Hnone).
  destruct (run_time_up (dom M) ops m M nobody) as (Hsucc & M' & Hr' & HT' & Hval); [done| | | |done|].
  { intros k' e He'. by apply Hset, (Hlast k'). }
  { split; [done|]. intros k'. rewrite Hnone. split; [by intros ?%is_Some_None|set_solver]. }
  { intros k'. apply elem_of_dom. }
  split; [done|]. cbv zeta.
  destruct (Hval k _ last He) as (e' & He' & Hv); [by apply Hset|by apply (Hlast k _ He)|].
  specialize (Hv (clock (tick (run m ops))) ltac:(lia)).
  rewrite (CalculateUptime_eq _ M') by done. rewrite <- surjective_pairing, He'. cbn [fst].
  rewrite (surjective_pairing (calc_at e' _ _ _)), calc_now by (by destruct (HT' k e' He')). unfold value in Hv. rewrite Hv.
  rewrite (Hnone k). unfold calc_at, tracks. cbn [m NewManager trackedSubnets]. rewrite bool_decide_false by set_solver.
  cbn [negb]. rewrite Z.ltb_irrefl. cbn [fst]. f_equal. f_equal. lia.
Qed.
End monotone.

(** Whatever the clock reads, also backwards, and whatever operations run, in any order of
    the ranges over maps: a validator keeps its entry, its uptime never decreases, and it
    never grows by more than the time between the updates.  So, if the stored uptime is at most
    the time since the start, the quotient of [CalculateUptimePercentFrom] is between 0 and 1
    and never one by zero. *)
Theorem uptime_percent_bounded m M ops k e start : us_repr (state m) M → M !! k = Some e → 0 ≤ e.1 ≤ e.2 - start →
  ∃ up last up' best,
    (CalculateUptime clock (run m ops) k.1 k.2).1 = Ok (up, last) ∧ grows e (up, last)
    ∧ (CalculateUptimePercentFrom clock (run m ops) k.1 k.2 start).1 = Ok (up', best) ∧ 0 ≤ up' ≤ best ∧ 0 < best.
Proof.
  intros Hr He Hb. destruct (run_changed ops m M Hr) as [M' Hc]. destruct (proj2 (cg_dom _ _ _ _ Hc k) (mk_is_Some _ _ He)) as [e' He'].
  pose proof (cg_grows _ _ _ _ Hc k e e' He He') as Hg. unfold CalculateUptimePercentFrom.
  rewrite (CalculateUptime_eq _ M') by apply Hc. rewrite <- surjective_pairing, He'. cbn [fst].
  destruct (calc_at e' _ _ _) as [up last] eqn:Ec.
  assert (Hg' : grows e (up, last)) by (etrans; [exact Hg|]; rewrite <- Ec; apply calc_grows).
  unfold grows in Hg'. cbn [fst snd] in Hg'. destruct (Z.eqb_spec (last - start) 0).
  - exists up, last, 1, 1. split_and!; try done; cbn; lia.
  - exists up, last, up, (last - start). split_and!; try done; cbn; lia.
Qed.
End laws.

(** ** Uptimes in memory *)

Module Memory.
Definition set (s : gmap (bytes * bytes) (Z * Z)) (node subnet : bytes) (up last : Z) : option db_error * gmap (bytes * bytes) (Z * Z) :=
  match s !! (node, subnet) with Some _ => (None, <[(node, subnet) := (up, last)]> s) | None => (Some ErrNotFound, s) end.
Definition get (s : gmap (bytes * bytes) (Z * Z)) (node subnet : bytes) : result db_error (Z * Z) :=
  match s !! (node, subnet) with Some x => Ok x | None => Err ErrNotFound end.

#[export] Instance memory : UptimeState (gmap (bytes * bytes) (Z * Z)) :=
  {| GetUptime := get; SetUptime := set; GetStartTime _ _ _ := Ok 0 |}.

#[export] Program Instance memory_laws : UptimeStateLaws memory := {| us_repr s m := s = m |}.
Next Obligation. by intros s m node subnet ->. Qed.
Next Obligation.
  intros s m node subnet up last ->. cbn. unfold set. destruct (m !! (node, subnet)); [|done]. by eexists.
Qed.

Definition range (c : gmap bytes Z) : list bytes := (map_to_list c).*1.
Definition clock (n : nat) : Z := 10 * Z.of_nat n.
Definition node : bytes := [1].
Definition subnet : bytes := [2].
Definition entries : gmap (bytes * bytes) (Z * Z) := {[(node, subnet) := (5, -5)]}.
Definition ops : list op := [OpStartTracking [node] subnet; OpConnect node subnet; OpDisconnect node].
End Memory.
#[local] Existing Instances Memory.memory Memory.memory_laws.

(** The validator is up from -5 to 0, before its subnet is tracked, and from 10, when it
    connects, to 20, when it disconnects; the uptime is calculated at 30. *)
Lemma uptime_is_connected_time_witness :
  let m := run Memory.clock Memory.range (NewManager Memory.entries) Memory.ops in
  (CalculateUptime Memory.clock m Memory.node Memory.subnet).1 = Ok (20, 30)
  ∧ time_up Memory.clock Memory.range {[(Memory.node, Memory.subnet)]} nobody (NewManager Memory.entries) Memory.ops
      (Memory.node, Memory.subnet) (-5) 30 = 15
  ∧ (CalculateUptime Memory.clock m Memory.node Memory.subnet).1
    = Ok (5 + time_up Memory.clock Memory.range (dom Memory.entries) nobody (NewManager Memory.entries) Memory.ops
                (Memory.node, Memory.subnet) (-5) (Memory.clock (tick m)), Memory.clock (tick m)).
Proof.
  split; [vm_compute; reflexivity|]. split; [vm_compute; reflexivity|].
  apply (uptime_is_connected_time Memory.clock Memory.range (λ c, reflexivity _)
           ltac:(intros n; unfold Memory.clock; lia) Memory.entries Memory.entries Memory.ops
           (Memory.node, Memory.subnet) 5 (-5)).
  - reflexivity.
  - unfold Memory.entries. intros k e [<- <-]%lookup_singleton_Some. unfold Memory.clock. cbn. lia.
  - apply (run_ok_cons _ _ _ Memory.entries); [reflexivity| |].
    { split; [set_solver|]. intros n. unfold Memory.entries. rewrite list_elem_of_singleton. split.
      - intros ->. by eexists.
      - intros [e [[= ->] _]%lookup_singleton_Some]. done. }
    eapply run_ok_cons; [reflexivity|vm_compute; reflexivity|]. eapply run_ok_cons; [reflexivity|exact I|]. apply run_ok_nil.
  - reflexivity.
Defined.

Lemma uptime_percent_bounded_witness : ∃ up last up' best,
  let m := run Memory.clock Memory.range (NewManager Memory.entries) Memory.ops in
  (CalculateUptime Memory.clock m Memory.node Memory.subnet).1 = Ok (up, last) ∧ grows (5, -5) (up, last)
  ∧ (CalculateUptimePercentFrom Memory.clock m Memory.node Memory.subnet (-10)).1 = Ok (up', best) ∧ 0 ≤ up' ≤ best ∧ 0 < best.
Proof.
  apply (uptime_percent_bounded Memory.clock Memory.range (NewManager Memory.entries) Memory.entries Memory.ops
           (Memory.node, Memory.subnet) (5, -5) (-10)); [reflexivity|reflexivity|cbn; lia].
Defined.
