(* ===== verification/Metadata.v ===== *)
(** * Metadata of validators

    [vms/platformvm/state/metadata_validator.go], [metadata_delegator.go] and
    [metadata_codec.go]: the uptimes and rewards of validators and delegators, in memory and as they are stored, through the codec.  The
    metadata of a validator is one of the states of [Uptime.v].

    A loaded metadata is pointed to by the map only, so the map holds its value.  The codec
    does not visit fields without tags, so the codec value of a struct leaves them out; when it
    fails, what it left in the destination is not modelled.  Times are in nanoseconds.  The
    orders in which maps and sets are ranged over are parameters. *)

From S2P Require Import Prelude Packer Database Memdb Versiondb Bimap Codec CodecWrite CodecRead CodecManager Dbhelpers Uptime.

Open Scope Z_scope.

(** ** The codec *)

Definition CodecVersion0Tag : bytes := [118; 48].
Definition CodecVersion0 : Z := 0.
Definition CodecVersion1Tag : bytes := [118; 49].
Definition CodecVersion1 : Z := 1.

Definition preDelegateeRewardSize : Z := VersionSize + 3 * 8.

Record validatorMetadata := mkMeta {
  UpDuration : Z;
  LastUpdated : Z;
  PotentialReward : Z;
  PotentialDelegateeReward : Z;
  StakerStartTime : Z;
  txID : bytes;
  lastUpdated : Z;
}.

Definition v0 : FieldInfo := mkField [CodecVersion0Tag] true.
Definition v1 : FieldInfo := mkField [CodecVersion1Tag] true.

Definition preDelegateeRewardMetadata_ty : ty :=
  TStruct 1 [(v0, TNum true W64); (v0, TNum false W64); (v0, TNum false W64)].
Definition validatorMetadata_ty : ty :=
  TStruct 2 [(v0, TNum true W64); (v0, TNum false W64); (v0, TNum false W64); (v0, TNum false W64); (v1, TNum false W64)].

(** The serialized fields as a value of the codec, and these fields set *)
Definition meta_val (md : validatorMetadata) : val :=
  VStruct [VNum (UpDuration md); VNum (LastUpdated md); VNum (PotentialReward md);
           VNum (PotentialDelegateeReward md); VNum (StakerStartTime md)].
Definition set_pre (md : validatorMetadata) (v : val) : validatorMetadata :=
  match v with
  | VStruct [VNum a; VNum b; VNum c] =>
      mkMeta a b c (PotentialDelegateeReward md) (StakerStartTime md) (txID md) (lastUpdated md)
  | _ => md
  end.
Definition set_meta (md : validatorMetadata) (v : val) : validatorMetadata :=
  match v with
  | VStruct [VNum a; VNum b; VNum c; VNum d; VNum e] => mkMeta a b c d e (txID md) (lastUpdated md)
  | _ => md
  end.
Definition set_LastUpdated (md : validatorMetadata) (x : Z) : validatorMetadata :=
  mkMeta (UpDuration md) x (PotentialReward md) (PotentialDelegateeReward md) (StakerStartTime md) (txID md) (lastUpdated md).
Definition set_lastUpdated (md : validatorMetadata) (x : Z) : validatorMetadata :=
  mkMeta (UpDuration md) (LastUpdated md) (PotentialReward md) (PotentialDelegateeReward md) (StakerStartTime md) (txID md) x.
Definition set_PotentialReward (md : validatorMetadata) (x : Z) : validatorMetadata :=
  mkMeta (UpDuration md) (LastUpdated md) x (PotentialDelegateeReward md) (StakerStartTime md) (txID md) (lastUpdated md).
Definition set_PotentialDelegateeReward (md : validatorMetadata) (x : Z) : validatorMetadata :=
  mkMeta (UpDuration md) (LastUpdated md) (PotentialReward md) x (StakerStartTime md) (txID md) (lastUpdated md).
Definition set_uptime (md : validatorMetadata) (up last : Z) : validatorMetadata :=
  mkMeta up (LastUpdated md) (PotentialReward md) (PotentialDelegateeReward md) (StakerStartTime md) (txID md) last.

Record delegatorMetadata := mkDelegator { dm_PotentialReward : Z; dm_StakerStartTime : Z; dm_txID : bytes }.

Definition delegatorMetadata_ty : ty := TStruct 3 [(v1, TNum false W64); (v1, TNum false W64)].
Definition delegator_val (md : delegatorMetadata) : val := VStruct [VNum (dm_PotentialReward md); VNum (dm_StakerStartTime md)].
Definition set_delegator (md : delegatorMetadata) (v : val) : delegatorMetadata :=
  match v with VStruct [VNum a; VNum b] => mkDelegator a b (dm_txID md) | _ => md end.

(** [time.Unix(int64(x), 0)], and [uint64(t.Unix())] *)
Definition second : Z := 1000000000.
Definition Unix (x : Z) : Z := of_bits true W64 x * second.
Definition to_Unix (t : Z) : Z := (t / second) mod 2 ^ 64.

Inductive metadata_error := MHelper (e : helper_error) | MCodec (e : codec_error) | MDb (e : db_error) | MPanic.

Definition lift_codec {A} (r : result codec_error A) : result metadata_error A :=
  match r with Ok a => Ok a | Err e => Err (MCodec e) end.
Definition lift_helper {A} (r : result helper_error A) : result metadata_error A :=
  match r with Ok a => Ok a | Err e => Err (MHelper e) end.
Definition lift_db {A} (r : result db_error A) : result metadata_error A :=
  match r with Ok a => Ok a | Err e => Err (MDb e) end.

Section codec.
Context (extra_cap : Z → Z → nat) (implements : ty → nat → bool) (map_range : ∀ A : Type, list A → list A).

Definition c0 : codec := mkCodec [CodecVersion0Tag] (linear_typer extra_cap implements linear_New) 0.
Definition c1 : codec := mkCodec [CodecVersion0Tag; CodecVersion1Tag] (linear_typer extra_cap implements linear_New) 0.

(** [init], which panics on an error *)
Definition init : result codec_error CodecManager.manager :=
  let? m := RegisterCodec (CodecManager.NewManager MaxInt32) CodecVersion0 c0 in
  RegisterCodec m CodecVersion1 c1.
Definition MetadataCodec : CodecManager.manager :=
  match init with Ok m => m | Err _ => CodecManager.NewManager MaxInt32 end.

Definition parseValidatorMetadata (bs : bytes) (md : validatorMetadata) : result metadata_error validatorMetadata :=
  let n := Z.of_nat (length bs) in
  let? md :=
    if n =? 0 then Ok md
    else if n =? Uint64Size then
      let? r := lift_helper (ParseUInt64 bs) in Ok (set_PotentialReward md r)
    else if n =? preDelegateeRewardSize then
      let? '(_, tmp) := lift_codec (Unmarshal MetadataCodec bs preDelegateeRewardMetadata_ty (zero preDelegateeRewardMetadata_ty)) in
      Ok (set_pre md tmp)
    else
      let? '(_, v) := lift_codec (Unmarshal MetadataCodec bs validatorMetadata_ty (meta_val md)) in
      Ok (set_meta md v) in
  Ok (set_lastUpdated md (Unix (LastUpdated md))).

Definition parseDelegatorMetadata (bs : bytes) (md : delegatorMetadata) : result metadata_error delegatorMetadata :=
  if Z.of_nat (length bs) =? Uint64Size then
    let? r := lift_helper (ParseUInt64 bs) in Ok (mkDelegator r (dm_StakerStartTime md) (dm_txID md))
  else
    let? '(_, v) := lift_codec (Unmarshal MetadataCodec bs delegatorMetadata_ty (delegator_val md)) in
    Ok (set_delegator md v).

(** ** The metadata in memory *)

Record metadata := mkMetadata {
  md_metadata : gmap bytes (gmap bytes validatorMetadata);
  updatedMetadata : gmap bytes (gset bytes);
}.

Definition newValidatorState : metadata := mkMetadata ∅ ∅.

Definition LoadValidatorMetadata (m : metadata) (vdrID subnetID : bytes) (uptime : validatorMetadata) : metadata :=
  let subnetMetadata := default ∅ (md_metadata m !! vdrID) in
  mkMetadata (<[vdrID := <[subnetID := uptime]> subnetMetadata]> (md_metadata m)) (updatedMetadata m).

(** [m.metadata[vdrID][subnetID]] *)
Definition find (m : metadata) (vdrID subnetID : bytes) : option validatorMetadata :=
  md_metadata m !! vdrID ≫= λ c, c !! subnetID.

Definition md_GetUptime (m : metadata) (vdrID subnetID : bytes) : result db_error (Z * Z) :=
  match find m vdrID subnetID with
  | None => Err ErrNotFound
  | Some md => Ok (UpDuration md, lastUpdated md)
  end.

Definition addUpdatedMetadata (m : metadata) (vdrID subnetID : bytes) : metadata :=
  let updatedSubnetMetadata := default ∅ (updatedMetadata m !! vdrID) in
  mkMetadata (md_metadata m) (<[vdrID := {[subnetID]} ∪ updatedSubnetMetadata]> (updatedMetadata m)).

(** An assignment through the pointer *)
Definition store (m : metadata) (vdrID subnetID : bytes) (md : validatorMetadata) : metadata :=
  mkMetadata (alter (insert subnetID md) vdrID (md_metadata m)) (updatedMetadata m).

Definition md_SetUptime (m : metadata) (vdrID subnetID : bytes) (upDuration lastUpdated : Z) : option db_error * metadata :=
  match find m vdrID subnetID with
  | None => (Some ErrNotFound, m)
  | Some md => (None, addUpdatedMetadata (store m vdrID subnetID (set_uptime md upDuration lastUpdated)) vdrID subnetID)
  end.

Definition md_GetDelegateeReward (m : metadata) (subnetID vdrID : bytes) : result db_error Z :=
  match find m vdrID subnetID with
  | None => Err ErrNotFound
  | Some md => Ok (PotentialDelegateeReward md)
  end.

Definition md_SetDelegateeReward (m : metadata) (subnetID vdrID : bytes) (amount : Z) : option db_error * metadata :=
  match find m vdrID subnetID with
  | None => (Some ErrNotFound, m)
  | Some md => (None, addUpdatedMetadata (store m vdrID subnetID (set_PotentialDelegateeReward md amount)) vdrID subnetID)
  end.

(** [delete] of a nil map does nothing, and a map or set that became empty is removed. *)
Definition DeleteValidatorMetadata (m : metadata) (vdrID subnetID : bytes) : metadata :=
  let subnetMetadata : gmap bytes validatorMetadata := delete subnetID (default ∅ (md_metadata m !! vdrID)) in
  let subnetUpdatedMetadata : gset bytes := default ∅ (updatedMetadata m !! vdrID) ∖ {[subnetID]} in
  mkMetadata
    (if decide (base.size subnetMetadata = 0%nat) then delete vdrID (md_metadata m) else <[vdrID := subnetMetadata]> (md_metadata m))
    (if decide (base.size subnetUpdatedMetadata = 0%nat) then delete vdrID (updatedMetadata m)
     else <[vdrID := subnetUpdatedMetadata]> (updatedMetadata m)).

(** ** [WriteValidatorMetadata] *)

Definition PrimaryNetworkID : bytes := replicate 32 0.

Context {W : Type} {K : KeyValueWriterDeleter W}.
Context (range_updated : gmap bytes (gset bytes) → list (bytes * gset bytes)) (range_subnets : gset bytes → list bytes).

Definition writeDelegatorMetadata (db : W) (md : delegatorMetadata) (codecVersion : Z) : result metadata_error W :=
  if codecVersion =? 0 then lift_db (PutUInt64 db (dm_txID md) (dm_PotentialReward md))
  else
    let? metadataBytes := lift_codec (Marshal extra_cap map_range MetadataCodec codecVersion (VPtr (delegator_val md)) (TPtr delegatorMetadata_ty)) in
    lift_db (kv_Put db (dm_txID md) metadataBytes).

Definition written_state : Type := metadata * W * W.

Fixpoint write_subnets (codecVersion : Z) (vdrID : bytes) (subnets : list bytes) (st : written_state)
    : option metadata_error * written_state :=
  match subnets with
  | [] => (None, st)
  | subnetID :: subnets =>
      let '(m, dbPrimary, dbSubnet) := st in
      match find m vdrID subnetID with
      | None => (Some MPanic, st)
      | Some md =>
          let md := set_LastUpdated md (to_Unix (lastUpdated md)) in
          let m := store m vdrID subnetID md in
          match Marshal extra_cap map_range MetadataCodec codecVersion (VPtr (meta_val md)) (TPtr validatorMetadata_ty) with
          | Err e => (Some (MCodec e), (m, dbPrimary, dbSubnet))
          | Ok metadataBytes =>
              if bool_decide (subnetID = PrimaryNetworkID) then
                match kv_Put dbPrimary (txID md) metadataBytes with
                | Err e => (Some (MDb e), (m, dbPrimary, dbSubnet))
                | Ok dbPrimary => write_subnets codecVersion vdrID subnets (m, dbPrimary, dbSubnet)
                end
              else
                match kv_Put dbSubnet (txID md) metadataBytes with
                | Err e => (Some (MDb e), (m, dbPrimary, dbSubnet))
                | Ok dbSubnet => write_subnets codecVersion vdrID subnets (m, dbPrimary, dbSubnet)
                end
          end
      end
  end.

Fixpoint write_validators (codecVersion : Z) (updated : list (bytes * gset bytes)) (st : written_state)
    : option metadata_error * written_state :=
  match updated with
  | [] => (None, st)
  | (vdrID, updatedSubnets) :: updated =>
      match write_subnets codecVersion vdrID (range_subnets updatedSubnets) st with
      | (Some err, st) => (Some err, st)
      | (None, (m, dbPrimary, dbSubnet)) =>
          let m := mkMetadata (md_metadata m) (delete vdrID (updatedMetadata m)) in
          write_validators codecVersion updated (m, dbPrimary, dbSubnet)
      end
  end.

Definition WriteValidatorMetadata (m : metadata) (dbPrimary dbSubnet : W) (codecVersion : Z) : option metadata_error * written_state :=
  write_validators codecVersion (range_updated (updatedMetadata m)) (m, dbPrimary, dbSubnet).
End codec.

(** ** What is stored is read back *)

(** The ranges of the fields *)
Record meta_ok (md : validatorMetadata) : Prop := {
  mo_up : - 2 ^ 63 ≤ UpDuration md < 2 ^ 63;
  mo_last : is_u64 (LastUpdated md);
  mo_reward : is_u64 (PotentialReward md);
  mo_delegatee : is_u64 (PotentialDelegateeReward md);
  mo_start : is_u64 (StakerStartTime md);
}.

(** The times that the manager of uptimes sets: whole seconds after the epoch *)
Definition time_ok (md : validatorMetadata) : Prop :=
  ∃ s, 0 ≤ s < 2 ^ 63 ∧ lastUpdated md = s * second.

(** What reading gives: only version 1 has the start time. *)
Definition stored (codecVersion : Z) (md dest : validatorMetadata) : validatorMetadata :=
  mkMeta (UpDuration md) (to_Unix (lastUpdated md)) (PotentialReward md) (PotentialDelegateeReward md)
    (if codecVersion =? CodecVersion1 then StakerStartTime md else StakerStartTime dest) (txID dest) (lastUpdated md).

Lemma u64_num x : is_u64 x → num_range false W64 x.
Proof. unfold is_u64, MaxUint64, num_range. change (2 ^ wbits W64) with (2 ^ 64). lia. Qed.

Lemma to_Unix_time md : time_ok md → is_u64 (to_Unix (lastUpdated md)) ∧ Unix (to_Unix (lastUpdated md)) = lastUpdated md.
Proof.
  intros (s & Hs & ->). unfold to_Unix, Unix, of_bits, is_u64, MaxUint64. rewrite Z.div_mul by done. rewrite Z.mod_small by lia.
  split; [lia|]. destruct (Z.leb_spec (2 ^ (wbits W64 - 1)) s) as [H|]; [|done]. change (2 ^ (wbits W64 - 1)) with (2 ^ 63) in H. lia.
Qed.

Section reading.
Context (extra_cap : Z → Z → nat) (implements : ty → nat → bool).
Context (map_range : ∀ A : Type, list A → list A) (Hperm : ∀ A (l : list A), map_range A l ≡ₚ l).

Notation Codec := (MetadataCodec extra_cap implements).
Notation parse := (parseValidatorMetadata extra_cap implements).

(** The codec of a version *)
Definition codec_of (codecVersion : Z) : codec := if codecVersion =? CodecVersion1 then c1 extra_cap implements else c0 extra_cap implements.

Lemma init_registers : init extra_cap implements = Ok Codec ∧ m_maxSize Codec = MaxInt32
  ∧ ∀ codecVersion, codecVersion = CodecVersion0 ∨ codecVersion = CodecVersion1 → m_codecs Codec !! codecVersion = Some (codec_of codecVersion).
Proof. split; [done|]. split; [done|]. by intros ? [->| ->]. Qed.

Definition codec_of_ok codecVersion : codec_ok extra_cap implements (codec_of codecVersion).
Proof.
  unfold codec_of. destruct (codecVersion =? CodecVersion1).
  - exact (mkCodecOk _ _ (c1 extra_cap implements) (linear_laws extra_cap implements linear_New linear_New_ok) eq_refl).
  - exact (mkCodecOk _ _ (c0 extra_cap implements) (linear_laws extra_cap implements linear_New linear_New_ok) eq_refl).
Defined.

Lemma meta_val_typed codecVersion md : meta_ok md →
  has_type extra_cap implements (codec_of codecVersion) (codec_of_ok codecVersion) (meta_val md) validatorMetadata_ty.
Proof. intros [Hup ? ? ? ?]. split; [exact Hup|]. do 4 (split; [by apply u64_num|]). done. Qed.

Lemma meta_val_encoding codecVersion md : ∃ e,
  value_encoding extra_cap implements (codec_of codecVersion) (codec_of_ok codecVersion) (meta_val md) validatorMetadata_ty = Some e
  ∧ Z.of_nat (length e) = if codecVersion =? CodecVersion1 then 40 else 32.
Proof.
  unfold codec_of, codec_of_ok. destruct (codecVersion =? CodecVersion1); (eexists; split; [reflexivity|]);
    rewrite ?length_concat; cbn [fmap list_fmap sum_list]; cbn [concat]; rewrite ?length_app, ?length_be_bytes; done.
Qed.

(** What the codec writes for a struct is read into any struct of its type. *)
Lemma struct_roundtrip codecVersion v t e : codecVersion = CodecVersion0 ∨ codecVersion = CodecVersion1 →
  has_type extra_cap implements (codec_of codecVersion) (codec_of_ok codecVersion) v t →
  value_encoding extra_cap implements (codec_of codecVersion) (codec_of_ok codecVersion) v t = Some e → Z.of_nat (length e) ≤ 100 →
  let bs := be_bytes 2 codecVersion ++ e in
  Marshal extra_cap map_range Codec codecVersion (VPtr v) (TPtr t) = Ok bs
  ∧ Z.of_nat (length bs) = 2 + Z.of_nat (length e)
  ∧ ∀ dest, has_type extra_cap implements (codec_of codecVersion) (codec_of_ok codecVersion) dest t →
      Unmarshal Codec bs t dest = Ok (codecVersion, fill (captured (c_tags (codec_of codecVersion))) v t dest).
Proof using Hperm.
  intros Hv Ht Ee He bs. destruct init_registers as (_ & Hmax & Hreg). specialize (Hreg codecVersion Hv).
  pose proof (Marshal_spec extra_cap implements map_range Hperm Codec ltac:(by rewrite Hmax) codecVersion _ (codec_of_ok codecVersion)
    (VPtr v) (TPtr t) Hreg Ht) as Hs.
  change (value_encoding _ _ _ _ (VPtr _) _) with (value_encoding extra_cap implements (codec_of codecVersion) (codec_of_ok codecVersion) v t) in Hs.
  rewrite Ee in Hs. assert (Hl : 2 + Z.of_nat (length e) ≤ m_maxSize Codec) by (rewrite Hmax; unfold MaxInt32; lia).
  rewrite decide_True in Hs by done. split; [done|]. split; [unfold bs; rewrite length_app, length_be_bytes; lia|].
  intros dest Hd. assert (Hu : is_u16 codecVersion) by (clear -Hv; unfold is_u16, CodecVersion0, CodecVersion1 in *; lia).
  unfold bs. rewrite (Unmarshal_version Codec codecVersion (codec_of codecVersion) e t dest Hu Hreg Hl).
  by rewrite (codec_Unmarshal_at extra_cap implements _ (codec_of_ok codecVersion) v t dest e Ht Hd Ee).
Qed.

Definition parses (codecVersion : Z) (md : validatorMetadata) (bs : bytes) : Prop :=
  ∀ dest, meta_ok dest → parse bs dest = Ok (stored codecVersion md dest).

(** A metadata is written, and read into any other. *)
Lemma written_parses codecVersion md : meta_ok (set_LastUpdated md 0) → time_ok md → codecVersion = CodecVersion0 ∨ codecVersion = CodecVersion1 →
  ∃ bs, Marshal extra_cap map_range Codec codecVersion (VPtr (meta_val (set_LastUpdated md (to_Unix (lastUpdated md))))) (TPtr validatorMetadata_ty) = Ok bs
    ∧ parses codecVersion md bs.
Proof using Hperm.
  intros Hm Ht Hv. destruct (to_Unix_time md Ht) as [Hu HU]. set (md' := set_LastUpdated md _).
  assert (Hm' : meta_ok md') by (by destruct Hm; split). destruct (meta_val_encoding codecVersion md') as (e & Ee & He).
  destruct (struct_roundtrip codecVersion (meta_val md') validatorMetadata_ty e Hv (meta_val_typed _ _ Hm') Ee) as (Hbs & Hl & Hp).
  { rewrite He. by destruct (codecVersion =? _). }
  eexists. split; [exact Hbs|]. intros dest Hd. unfold parseValidatorMetadata. rewrite Hl, He.
  replace (2 + _ =? 0) with false by (by destruct (codecVersion =? _)).
  replace (2 + _ =? Uint64Size) with false by (by destruct (codecVersion =? _)).
  replace (2 + _ =? preDelegateeRewardSize) with false by (by destruct (codecVersion =? _)).
  rewrite Hp by (by apply meta_val_typed). cbn [lift_codec result_bind]. 
  set (v := fill _ _ _ _). assert (set_meta dest v = set_lastUpdated (stored codecVersion md dest) (lastUpdated dest)) as ->.
  { clear -Hv. destruct Hv as [->| ->]; reflexivity. }
  unfold set_lastUpdated, stored. cbn. by rewrite HU.
Qed.

(** *** The databases after writing *)

Context {W : Type} {K : KeyValueWriterDeleter W} (acts : W → gmap bytes bytes → Prop) {WL : WriterLaws K acts}.
Context (codecVersion : Z) (version_ok : codecVersion = CodecVersion0 ∨ codecVersion = CodecVersion1).
Implicit Types (m : metadata) (P Q : gmap bytes bytes).

(** Up to the field that is only set for the codec *)
Definition erase (md : validatorMetadata) : validatorMetadata := set_LastUpdated md 0.
Definition primary (subnetID : bytes) : bool := bool_decide (subnetID = PrimaryNetworkID).

Record wrote (keys : list (bytes * bytes)) m P Q m' P' Q' : Prop := {
  wr_same v s : erase <$> find m' v s = erase <$> find m v s;
  wr_updated : updatedMetadata m' = updatedMetadata m;
  wr_read v s md : (v, s) ∈ keys → find m v s = Some md →
    ∃ bs, (if primary s then P' else Q') !! txID md = Some bs ∧ parses codecVersion md bs;
  wr_rest (b : bool) key : (∀ v s md, (v, s) ∈ keys → find m v s = Some md → primary s = b → txID md ≠ key) →
    (if b then P' else Q') !! key = (if b then P else Q) !! key;
}.

(** Different validators have different transactions. *)
Definition distinct (keys : list (bytes * bytes)) m : Prop := ∀ v s md v' s' md',
  (v, s) ∈ keys → find m v s = Some md → (v', s') ∈ keys → find m v' s' = Some md' →
  primary s = primary s' → txID md = txID md' → (v, s) = (v', s').

Definition writable (keys : list (bytes * bytes)) m : Prop := ∀ v s, (v, s) ∈ keys →
  ∃ md, find m v s = Some md ∧ meta_ok (erase md) ∧ time_ok md.

Lemma erase_find m m' : (∀ v s, erase <$> find m' v s = erase <$> find m v s) → ∀ v s md, find m v s = Some md →
  ∃ md', find m' v s = Some md' ∧ erase md' = erase md.
Proof using. intros H v s md E. specialize (H v s). rewrite E in H. apply fmap_Some in H as (md' & E' & H). by exists md'. Qed.

Lemma erase_parses md md' bs : erase md' = erase md → parses codecVersion md' bs → parses codecVersion md bs.
Proof using.
  intros He Hp dest Hd. rewrite (Hp dest Hd). change (Ok (stored codecVersion (erase md') dest) = Ok (E := metadata_error) (stored codecVersion (erase md) dest)).
  by rewrite He.
Qed.

Lemma erase_txID md md' : erase md' = erase md → txID md' = txID md.
Proof using. intros He. change (txID (erase md') = txID (erase md)). by rewrite He. Qed.

Lemma writable_erase keys m m' : (∀ v s, erase <$> find m' v s = erase <$> find m v s) → writable keys m → writable keys m'.
Proof using.
  intros H Hw v s Hk. destruct (Hw v s Hk) as (md & E & H1 & H2). destruct (erase_find m m' H v s md E) as (md' & E' & He).
  exists md'. split; [done|]. split; [by rewrite He|]. change (time_ok (erase md')). by rewrite He.
Qed.

Lemma distinct_erase keys m m' : (∀ v s, erase <$> find m' v s = erase <$> find m v s) → distinct keys m → distinct keys m'.
Proof using.
  intros H Hd v1 s1 md1 v2 s2 md2 Hk1 E1 Hk2 E2 Hpr Htx. assert (H' : ∀ v s, erase <$> find m v s = erase <$> find m' v s) by done.
  destruct (erase_find m' m H' _ _ _ E1) as (x & Ex & Hx). destruct (erase_find m' m H' _ _ _ E2) as (y & Ey & Hy).
  apply (Hd v1 s1 x v2 s2 y); try done. by rewrite (erase_txID _ _ Hx), (erase_txID _ _ Hy).
Qed.

Lemma distinct_subset k1 k2 m : k1 ⊆ k2 → distinct k2 m → distinct k1 m.
Proof using. intros H Hd v s md v' s' md' Hk E Hk' E'. apply Hd; auto. Qed.

Lemma wrote_app k1 k2 m P Q m1 P1 Q1 m2 P2 Q2 : distinct (k1 ++ k2) m →
  (∀ v s, (v, s) ∈ k1 ++ k2 → is_Some (find m v s)) →
  wrote k1 m P Q m1 P1 Q1 → wrote k2 m1 P1 Q1 m2 P2 Q2 → wrote (k1 ++ k2) m P Q m2 P2 Q2.
Proof using.
  intros Hd Hs [A1 A2 A3 A4] [B1 B2 B3 B4]. split; [intros v s; by rewrite B1|by rewrite B2| |].
  - intros v s md Hk E. destruct (erase_find m m1 A1 v s md E) as (md1 & E1 & He).
    destruct (decide ((v, s) ∈ k2)) as [Hk2|Hk2].
    + destruct (B3 v s md1 Hk2 E1) as (bs & Hb & Hp). exists bs. rewrite <- (erase_txID _ _ He). split; [done|]. by eapply erase_parses.
    + apply elem_of_app in Hk as Hk'. destruct Hk' as [Hk1|]; [|done]. destruct (A3 v s md Hk1 E) as (bs & Hb & Hp). exists bs.
      split; [|done]. rewrite B4; [done|]. intros v' s' md1' Hk' E' Hpr Htx.
      destruct (Hs v' s') as [md' E2]; [apply elem_of_app; by right|].
      destruct (erase_find m m1 A1 v' s' md' E2) as (md'' & E3 & He'). rewrite E3 in E'. injection E' as ->.
      assert ((v, s) = (v', s')) as Heq; [|rewrite Heq in Hk2; done].
      eapply (Hd v s md v' s' md'); try done; [apply elem_of_app; by right|]. by rewrite <- Htx, (erase_txID _ _ He').
  - intros b key Hk. rewrite B4, A4; [done| |].
    + intros v s md Hk1. apply Hk, elem_of_app. by left.
    + intros v s md1 Hk2 E1 Hb Htx. destruct (Hs v s) as [md E]; [apply elem_of_app; by right|].
      destruct (erase_find m m1 A1 v s md E) as (md' & E' & He). rewrite E' in E1. injection E1 as ->.
      apply (Hk v s md); [apply elem_of_app; by right|done|done|]. by rewrite <- (erase_txID _ _ He).
Qed.

Lemma find_store m v s md0 md v' s' : find m v s = Some md0 →
  find (store m v s md) v' s' = if decide ((v', s') = (v, s)) then Some md else find m v' s'.
Proof using.
  unfold find, store. cbn [md_metadata]. intros E. destruct (decide (v' = v)) as [->|Hv].
  - rewrite lookup_alter_eq. destruct (md_metadata m !! v) as [c|]; [|done]. cbn. destruct (decide (s' = s)) as [->|Hs].
    + by rewrite lookup_insert_eq, decide_True.
    + by rewrite lookup_insert_ne, decide_False by congruence.
  - by rewrite lookup_alter_ne, decide_False by congruence.
Qed.

Lemma wrote_nil m P Q : wrote [] m P Q m P Q.
Proof using. split; try done. intros v s md Hk. by apply elem_of_nil in Hk. Qed.

(** One write *)
Lemma wrote_one m P Q v s md bs : find m v s = Some md → parses codecVersion md bs →
  let m' := store m v s (set_LastUpdated md (to_Unix (lastUpdated md))) in
  wrote [(v, s)] m P Q m' (if primary s then <[txID md := bs]> P else P) (if primary s then Q else <[txID md := bs]> Q).
Proof using.
  intros E Hp m'. split; [|done| |].
  - intros v' s'. unfold m'. rewrite (find_store m v s md) by done. case_decide as Hk; [|done]. injection Hk as -> ->. by rewrite E.
  - intros v' s' md' [= -> ->]%list_elem_of_singleton E'. rewrite E in E'. injection E' as <-. exists bs. split; [|done].
    destruct (primary s); by rewrite lookup_insert_eq.
  - intros b key Hk. specialize (Hk v s md ltac:(by left) E).
    destruct b, (primary s); try done; (rewrite lookup_insert_ne; [done|]; by apply Hk).
Qed.

Lemma write_subnets_spec v : ∀ subnets m p q P Q, acts p P → acts q Q →
  let keys := pair v <$> subnets in writable keys m → distinct keys m →
  ∃ m' p' q' P' Q', write_subnets extra_cap implements map_range codecVersion v subnets (m, p, q) = (None, (m', p', q'))
    ∧ acts p' P' ∧ acts q' Q' ∧ wrote keys m P Q m' P' Q'.
Proof using Hperm WL version_ok.
  induction subnets as [|s subnets IH]; intros m p q P Q Hp Hq keys Hw Hd; cbn [write_subnets].
  - exists m, p, q, P, Q. split; [done|]. split; [done|]. split; [done|]. apply wrote_nil.
  - destruct (Hw v s ltac:(by left)) as (md & E & Hmeta & Htime). rewrite E.
    destruct (written_parses codecVersion md Hmeta Htime version_ok) as (bs & Hbs & Hparse). cbv zeta. rewrite Hbs.
    pose proof (wrote_one m P Q v s md bs E Hparse) as H1. cbv zeta in H1. change (txID (set_LastUpdated md _)) with (txID md).
    set (m1 := store m v s _) in *.
    assert (Hput : ∃ p1 q1, acts p1 (if primary s then <[txID md := bs]> P else P) ∧ acts q1 (if primary s then Q else <[txID md := bs]> Q)
      ∧ (if bool_decide (s = PrimaryNetworkID) then kv_Put p (txID md) bs = Ok p1 ∧ q1 = q else kv_Put q (txID md) bs = Ok q1 ∧ p1 = p)).
    { unfold primary. destruct (bool_decide (s = PrimaryNetworkID)).
      - destruct (law_kv_Put p P (txID md) bs Hp) as (p1 & ? & ?). by exists p1, q.
      - destruct (law_kv_Put q Q (txID md) bs Hq) as (q1 & ? & ?). by exists p, q1. }
    destruct Hput as (p1 & q1 & Hp1 & Hq1 & Hput).
    destruct (IH m1 p1 q1 _ _ Hp1 Hq1) as (m' & p' & q' & P' & Q' & Hrun & Hp' & Hq' & H2).
    { apply (writable_erase _ m); [apply H1|]. intros v' s' Hk. apply Hw. by right. }
    { apply (distinct_erase _ m); [apply H1|]. eapply distinct_subset; [|exact Hd]. intros k Hk. by right. }
    exists m', p', q', P', Q'. split; [|split; [done|split; [done|]]].
    + destruct (bool_decide (s = PrimaryNetworkID)); destruct Hput as [-> ->]; exact Hrun.
    + change keys with ([(v, s)] ++ (pair v <$> subnets)). eapply wrote_app; [done| |exact H1|exact H2].
      intros v' s' Hk. destruct (Hw v' s' Hk) as (? & ? & _). by eexists.
Qed.

(** The keys of the updated validators, in the order of the ranges *)
Context (range_updated : gmap bytes (gset bytes) → list (bytes * gset bytes)) (range_subnets : gset bytes → list bytes).
Context (range_updated_perm : ∀ u, range_updated u ≡ₚ map_to_list u) (range_subnets_perm : ∀ s, range_subnets s ≡ₚ elements s).

Definition updated_keys (updated : list (bytes * gset bytes)) : list (bytes * bytes) :=
  concat ((λ e, pair e.1 <$> range_subnets e.2) <$> updated).

Definition clear_updated (u : gmap bytes (gset bytes)) (updated : list (bytes * gset bytes)) : gmap bytes (gset bytes) :=
  foldl (λ u e, delete e.1 u) u updated.

Lemma write_validators_spec : ∀ updated m p q P Q, acts p P → acts q Q →
  writable (updated_keys updated) m → distinct (updated_keys updated) m →
  ∃ m' p' q' P' Q' m'', write_validators extra_cap implements map_range range_subnets codecVersion updated (m, p, q) = (None, (m', p', q'))
    ∧ acts p' P' ∧ acts q' Q' ∧ wrote (updated_keys updated) m P Q m'' P' Q'
    ∧ md_metadata m'' = md_metadata m' ∧ updatedMetadata m' = clear_updated (updatedMetadata m) updated.
Proof using Hperm WL version_ok.
  induction updated as [|[v subnets] updated IH]; intros m p q P Q Hp Hq Hw Hd; cbn [write_validators].
  - exists m, p, q, P, Q, m. split; [done|]. split; [done|]. split; [done|]. split; [apply wrote_nil|done].
  - change (updated_keys ((v, subnets) :: updated)) with ((pair v <$> range_subnets subnets) ++ updated_keys updated) in *.
    destruct (write_subnets_spec v (range_subnets subnets) m p q P Q Hp Hq) as (m1 & p1 & q1 & P1 & Q1 & -> & Hp1 & Hq1 & H1).
    { intros v' s' Hk. apply Hw, elem_of_app. by left. }
    { eapply distinct_subset; [|exact Hd]. intros k Hk. apply elem_of_app. by left. }
    set (m2 := mkMetadata (md_metadata m1) (delete v (updatedMetadata m1))).
    assert (Hsame : ∀ v s, erase <$> find m2 v s = erase <$> find m v s) by (intros v' s'; apply (wr_same _ _ _ _ _ _ _ H1)).
    destruct (IH m2 p1 q1 P1 Q1 Hp1 Hq1) as (m' & p' & q' & P' & Q' & m'' & -> & Hp' & Hq' & H2 & Hmd & Hupd).
    { apply (writable_erase _ m m2 Hsame). intros v' s' Hk. apply Hw, elem_of_app. by right. }
    { apply (distinct_erase _ m m2 Hsame). eapply distinct_subset; [|exact Hd]. intros k Hk. apply elem_of_app. by right. }
    exists m', p', q', P', Q', (mkMetadata (md_metadata m'') (updatedMetadata m)). split; [done|]. split; [done|]. split; [done|].
    split; [|split; [exact Hmd|]].
    + eapply wrote_app; [done| |exact H1|].
      * intros v' s' Hk. destruct (Hw v' s' Hk) as (? & ? & _). by eexists.
      * destruct H2 as [A1 A2 A3 A4]. split; [exact A1|by rewrite (wr_updated _ _ _ _ _ _ _ H1)|exact A3|exact A4].
    + rewrite Hupd. unfold clear_updated, m2. cbn [updatedMetadata foldl fst]. by rewrite (wr_updated _ _ _ _ _ _ _ H1).
Qed.

Lemma clear_updated_lookup updated : ∀ u v, clear_updated u updated !! v = if decide (v ∈ updated.*1) then None else u !! v.
Proof using.
  induction updated as [|[v' ss] updated IH]; intros u v; [done|]. change (clear_updated u ((v', ss) :: updated)) with (clear_updated (delete v' u) updated).
  rewrite IH. cbn [fmap list_fmap fst]. destruct (decide (v ∈ updated.*1)).
  - rewrite decide_True; [done|]. by right.
  - destruct (decide (v = v')) as [->|Hne].
    + rewrite lookup_delete_eq, decide_True; [done|]. by left.
    + rewrite lookup_delete_ne, decide_False by (done || by apply not_elem_of_cons). done.
Qed.

Lemma clear_updated_all u : clear_updated u (range_updated u) = ∅.
Proof using range_updated_perm.
  apply map_eq. intros v. rewrite clear_updated_lookup, lookup_empty. case_decide as Hv; [done|]. destruct (u !! v) as [ss|] eqn:E; [|done].
  exfalso. apply Hv. rewrite range_updated_perm. apply list_elem_of_fmap. exists (v, ss). split; [done|]. by apply elem_of_map_to_list.
Qed.

Lemma elem_of_updated_keys u v s : (v, s) ∈ updated_keys (range_updated u) ↔ s ∈ default ∅ (u !! v).
Proof using range_updated_perm range_subnets_perm.
  unfold updated_keys. rewrite list_elem_of_In, in_concat. setoid_rewrite <- list_elem_of_In. split.
  - intros (l & Hl & Hk). apply list_elem_of_fmap in Hl as ([v' ss] & -> & He). cbn [fst snd] in Hk.
    apply list_elem_of_fmap in Hk as (s' & [= -> ->] & Hs). rewrite range_updated_perm in He. apply elem_of_map_to_list in He. rewrite He.
    rewrite range_subnets_perm in Hs. by apply elem_of_elements.
  - destruct (u !! v) as [ss|] eqn:E; cbn; [|by intros H%elem_of_empty]. intros Hs. eexists. split.
    + apply list_elem_of_fmap. exists (v, ss). split; [done|]. rewrite range_updated_perm. by apply elem_of_map_to_list.
    + cbn. apply list_elem_of_fmap. exists s. split; [done|]. rewrite range_subnets_perm. by apply elem_of_elements.
Qed.

(** ** The operations as changes of a map and of the keys to write *)

Inductive md_op :=
| MLoad (vdrID subnetID : bytes) (md : validatorMetadata)
| MSetUptime (vdrID subnetID : bytes) (upDuration lastUpdated : Z)
| MSetDelegateeReward (subnetID vdrID : bytes) (amount : Z)
| MDelete (vdrID subnetID : bytes).

Definition md_apply m (o : md_op) : metadata :=
  match o with
  | MLoad v s md => LoadValidatorMetadata m v s md
  | MSetUptime v s up last => (md_SetUptime m v s up last).2
  | MSetDelegateeReward s v amount => (md_SetDelegateeReward m s v amount).2
  | MDelete v s => DeleteValidatorMetadata m v s
  end.

Definition md_spec : Type := gmap (bytes * bytes) validatorMetadata * gset (bytes * bytes).

Definition spec_update (st : md_spec) (k : bytes * bytes) (f : validatorMetadata → validatorMetadata) : md_spec :=
  match st.1 !! k with Some md => (<[k := f md]> st.1, {[k]} ∪ st.2) | None => st end.

Definition spec_apply (st : md_spec) (o : md_op) : md_spec :=
  match o with
  | MLoad v s md => (<[(v, s) := md]> st.1, st.2)
  | MSetUptime v s up last => spec_update st (v, s) (λ md, set_uptime md up last)
  | MSetDelegateeReward s v amount => spec_update st (v, s) (λ md, set_PotentialDelegateeReward md amount)
  | MDelete v s => (delete (v, s) st.1, st.2 ∖ {[(v, s)]})
  end.

Definition md_run m (ops : list md_op) : metadata := foldl md_apply m ops.
Definition spec_run (ops : list md_op) : md_spec := foldl spec_apply (∅, ∅) ops.

Record md_view m (st : md_spec) : Prop := {
  mv_find v s : find m v s = st.1 !! (v, s);
  mv_updated v s : s ∈ default ∅ (updatedMetadata m !! v) ↔ (v, s) ∈ st.2;
  mv_known k : k ∈ st.2 → is_Some (st.1 !! k);
}.

Lemma md_view_update m st v s f : md_view m st →
  md_view (match find m v s with None => m | Some md => addUpdatedMetadata (store m v s (f md)) v s end) (spec_update st (v, s) f).
Proof using.
  intros [F U Kn]. unfold spec_update. rewrite <- F. destruct (find m v s) as [md|] eqn:E; [|done]. split; cbn [fst snd].
  - intros v' s'. change (find (addUpdatedMetadata ?x _ _)) with (find x). rewrite (find_store m v s md) by done. rewrite lookup_insert.
    case_decide as H; [by rewrite decide_True|by rewrite decide_False, F].
  - intros v' s'. cbn [addUpdatedMetadata store updatedMetadata]. destruct (decide (v' = v)) as [->|Hne].
    + rewrite lookup_insert_eq. cbn. rewrite !elem_of_union, !elem_of_singleton, U. split; (intros [H|H]; [left|by right]); congruence.
    + rewrite lookup_insert_ne by done. rewrite U, elem_of_union, elem_of_singleton. split; [by right|]. intros [H|H]; [congruence|done].
  - intros k Hk. rewrite lookup_insert. case_decide; [by eexists|]. apply Kn. apply elem_of_union in Hk as [->%elem_of_singleton|]; done.
Qed.

Lemma find_load m v s md v' s' : find (LoadValidatorMetadata m v s md) v' s' = if decide ((v', s') = (v, s)) then Some md else find m v' s'.
Proof using.
  unfold find, LoadValidatorMetadata. cbn [md_metadata]. destruct (decide (v' = v)) as [->|Hne].
  - rewrite lookup_insert_eq. cbn. destruct (decide (s' = s)) as [->|Hs]; [by rewrite lookup_insert_eq, decide_True|].
    rewrite lookup_insert_ne, decide_False by congruence. destruct (md_metadata m !! v); [done|]. cbn. by rewrite lookup_empty.
  - by rewrite lookup_insert_ne, decide_False by congruence.
Qed.

Lemma find_delete m v s v' s' : find (DeleteValidatorMetadata m v s) v' s' = if decide ((v', s') = (v, s)) then None else find m v' s'.
Proof using.
  unfold find, DeleteValidatorMetadata. cbn [md_metadata]. set (c := delete s (default ∅ (md_metadata m !! v))).
  destruct (decide (v' = v)) as [->|Hne].
  - assert (Hc : (if decide (base.size c = 0%nat) then delete v (md_metadata m) else <[v := c]> (md_metadata m)) !! v ≫= (λ c, c !! s') = c !! s').
    { case_decide as Hs; [rewrite lookup_delete_eq|by rewrite lookup_insert_eq]. apply map_size_empty_inv in Hs. rewrite Hs. cbn. by rewrite lookup_empty. }
    rewrite Hc. unfold c. destruct (decide (s' = s)) as [->|Hs]; [by rewrite lookup_delete_eq, decide_True|].
    rewrite lookup_delete_ne, decide_False by congruence. destruct (md_metadata m !! v); [done|]. cbn. by rewrite lookup_empty.
  - rewrite (decide_False (P := (v', s') = (v, s))) by congruence. case_decide; [by rewrite lookup_delete_ne|by rewrite lookup_insert_ne].
Qed.

Lemma updated_delete m v s v' s' : s' ∈ default ∅ (updatedMetadata (DeleteValidatorMetadata m v s) !! v')
  ↔ s' ∈ default ∅ (updatedMetadata m !! v') ∧ (v', s') ≠ (v, s).
Proof using.
  unfold DeleteValidatorMetadata. cbn [updatedMetadata]. set (c := default ∅ (updatedMetadata m !! v) ∖ {[s]}).
  destruct (decide (v' = v)) as [->|Hne].
  - assert (Hc : default ∅ ((if decide (base.size c = 0%nat) then delete v (updatedMetadata m) else <[v := c]> (updatedMetadata m)) !! v) = c).
    { case_decide as Hs; [rewrite lookup_delete_eq|by rewrite lookup_insert_eq]. apply size_empty_inv in Hs. symmetry. by apply leibniz_equiv. }
    rewrite Hc. unfold c. rewrite elem_of_difference, elem_of_singleton. split; intros [? H]; split; congruence.
  - assert (Hc : default ∅ ((if decide (base.size c = 0%nat) then delete v (updatedMetadata m) else <[v := c]> (updatedMetadata m)) !! v')
      = default ∅ (updatedMetadata m !! v')) by (case_decide; [by rewrite lookup_delete_ne|by rewrite lookup_insert_ne]).
    rewrite Hc. split; [|by intros [? _]]. intros H. split; [done|congruence].
Qed.

Lemma md_view_apply m st o : md_view m st → md_view (md_apply m o) (spec_apply st o).
Proof using.
  intros Hv. destruct o as [v s md|v s up last|s v amount|v s]; cbn [md_apply spec_apply].
  - destruct Hv as [F U Kn]. split; cbn [fst snd]; [|exact U|].
    + intros v' s'. rewrite find_load, lookup_insert. case_decide as H; [by rewrite decide_True|by rewrite decide_False, F].
    + intros k Hk. rewrite lookup_insert. case_decide; [by eexists|by apply Kn].
  - unfold md_SetUptime. pose proof (md_view_update m st v s (λ md, set_uptime md up last) Hv) as H. by destruct (find m v s).
  - unfold md_SetDelegateeReward. pose proof (md_view_update m st v s (λ md, set_PotentialDelegateeReward md amount) Hv) as H. by destruct (find m v s).
  - destruct Hv as [F U Kn]. split; cbn [fst snd].
    + intros v' s'. rewrite find_delete, lookup_delete. case_decide as H; [by rewrite decide_True|by rewrite decide_False, F].
    + intros v' s'. by rewrite updated_delete, U, elem_of_difference, elem_of_singleton.
    + intros k [Hk Hne]%elem_of_difference. rewrite lookup_delete_ne; [by apply Kn|]. intros <-. by apply Hne, elem_of_singleton.
Qed.

Lemma md_view_run ops : md_view (md_run newValidatorState ops) (spec_run ops).
Proof using.
  unfold md_run, spec_run. assert (H : md_view newValidatorState (∅, ∅)).
  { split; cbn [fst snd]; [done| |by intros k Hk%elem_of_empty]. intros v s. cbn. by rewrite !elem_of_empty. }
  revert H. generalize newValidatorState, ((∅, ∅) : md_spec). induction ops as [|o ops IH]; intros m st H; [done|]. apply IH. by apply md_view_apply.
Qed.

(** C23. After any sequence of loading, setting and deleting, [WriteValidatorMetadata] succeeds
    and stores exactly the metadata that were set since, those of the primary network in the one
    database and the others in the other: reading what is stored under the transaction of a
    validator gives its uptime and rewards again, and nothing else in the databases changes.
    The metadata in memory answer as before, and none is left to write. *)
Theorem metadata_persisted ops p q P Q : let m := md_run newValidatorState ops in let st := spec_run ops in
  acts p P → acts q Q →
  (∀ k md, k ∈ st.2 → st.1 !! k = Some md → meta_ok (erase md) ∧ time_ok md) →
  (∀ k md k' md', k ∈ st.2 → st.1 !! k = Some md → k' ∈ st.2 → st.1 !! k' = Some md' →
    primary k.2 = primary k'.2 → txID md = txID md' → k = k') →
  ∃ m' p' q' P' Q',
    WriteValidatorMetadata extra_cap implements map_range range_updated range_subnets m p q codecVersion = (None, (m', p', q'))
    ∧ acts p' P' ∧ acts q' Q' ∧ updatedMetadata m' = ∅
    ∧ (∀ v s, md_GetUptime m' v s = match st.1 !! (v, s) with Some md => Ok (UpDuration md, lastUpdated md) | None => Err ErrNotFound end
        ∧ md_GetDelegateeReward m' s v = match st.1 !! (v, s) with Some md => Ok (PotentialDelegateeReward md) | None => Err ErrNotFound end)
    ∧ (∀ k md, k ∈ st.2 → st.1 !! k = Some md → ∃ bs, (if primary k.2 then P' else Q') !! txID md = Some bs
        ∧ ∀ dest, meta_ok dest → parse bs dest = Ok (stored codecVersion md dest))
    ∧ (∀ (b : bool) key, (∀ k md, k ∈ st.2 → st.1 !! k = Some md → primary k.2 = b → txID md ≠ key) →
        (if b then P' else Q') !! key = (if b then P else Q) !! key).
Proof using Hperm WL version_ok range_updated_perm range_subnets_perm.
  intros m st Hp Hq Hok Hd. destruct (md_view_run ops : md_view m st) as [F U Kn].
  assert (Hkeys : ∀ v s, (v, s) ∈ updated_keys (range_updated (updatedMetadata m)) ↔ (v, s) ∈ st.2).
  { intros v s. by rewrite elem_of_updated_keys. }
  destruct (write_validators_spec (range_updated (updatedMetadata m)) m p q P Q Hp Hq)
    as (m' & p' & q' & P' & Q' & m'' & Hrun & Hp' & Hq' & [W1 _ W3 W4] & Hmd & Hupd).
  - intros v s Hk%Hkeys. destruct (Kn (v, s) Hk) as [md E]. exists md. split; [by rewrite F|]. by apply (Hok (v, s)).
  - intros v s md v' s' md' Hk%Hkeys E Hk'%Hkeys E'. rewrite F in E, E'. by apply (Hd (v, s) md (v', s') md').
  - exists m', p', q', P', Q'. split; [exact Hrun|]. split; [done|]. split; [done|]. split; [by rewrite Hupd, clear_updated_all|].
    assert (Hfind : ∀ v s, find m' v s = find m'' v s) by (intros v s; unfold find; by rewrite Hmd).
    split; [|split].
    + intros v s. unfold md_GetUptime, md_GetDelegateeReward. rewrite Hfind. specialize (W1 v s). rewrite F in W1.
      destruct (find m'' v s) as [x|], (st.1 !! (v, s)) as [y|]; try done. injection W1 as E1 E2 E3 E4 E5 E6. by rewrite E1, E3, E6.
    + intros [v s] md Hk E. apply (W3 v s md); [by apply Hkeys|by rewrite F].
    + intros b key Hk. apply W4. intros v s md Hin%Hkeys E. rewrite F in E. by apply (Hk (v, s)).
Qed.

(** The formats that were stored before: nothing, the reward, and the uptime with the reward *)
Theorem legacy_metadata_read dest :
  parse [] dest = Ok (set_lastUpdated dest (Unix (LastUpdated dest)))
  ∧ (∀ r, is_u64 r → parse (PackUInt64 r) dest = Ok (set_lastUpdated (set_PotentialReward dest r) (Unix (LastUpdated dest))))
  ∧ ∀ up last r, - 2 ^ 63 ≤ up < 2 ^ 63 → is_u64 last → is_u64 r →
    ∃ bs, Marshal extra_cap map_range Codec CodecVersion0 (VPtr (VStruct [VNum up; VNum last; VNum r])) (TPtr preDelegateeRewardMetadata_ty) = Ok bs
      ∧ parse bs dest = Ok (mkMeta up last r (PotentialDelegateeReward dest) (StakerStartTime dest) (txID dest) (Unix last)).
Proof using Hperm.
  split; [done|]. split.
  - intros r Hr. unfold parseValidatorMetadata. assert (length (PackUInt64 r) = 8%nat) as -> by apply length_be_bytes.
    change (Z.of_nat 8 =? 0) with false. change (Z.of_nat 8 =? Uint64Size) with true. cbn iota. by rewrite ParseUInt64_Pack.
  - intros up last r Hup Hl Hr. set (v := VStruct _).
    assert (Ht : has_type extra_cap implements _ (codec_of_ok CodecVersion0) v preDelegateeRewardMetadata_ty).
    { split; [exact Hup|]. do 2 (split; [by apply u64_num|]). done. }
    assert (He : ∃ e, value_encoding extra_cap implements _ (codec_of_ok CodecVersion0) v preDelegateeRewardMetadata_ty = Some e ∧ length e = 24%nat).
    { eexists. split; [reflexivity|]. cbn [concat]. by rewrite !length_app, !length_be_bytes. }
    destruct He as (e & Ee & He).
    destruct (struct_roundtrip CodecVersion0 v preDelegateeRewardMetadata_ty e (or_introl eq_refl) Ht Ee) as (Hbs & Hlen & Hp); [by rewrite He|].
    eexists. split; [exact Hbs|]. unfold parseValidatorMetadata. rewrite Hlen, He.
    change (2 + Z.of_nat 24 =? 0) with false. change (2 + Z.of_nat 24 =? Uint64Size) with false.
    change (2 + Z.of_nat 24 =? preDelegateeRewardSize) with true. cbn iota. rewrite Hp by apply typed_zero. reflexivity.
Qed.

(** ** Metadata of delegators *)

(** A delegator's metadata is read back with the start time since version 1, and without it
    before. *)
Theorem delegator_metadata_read w M (md : delegatorMetadata) : acts w M → is_u64 (dm_PotentialReward md) → is_u64 (dm_StakerStartTime md) →
  ∃ w' bs, writeDelegatorMetadata extra_cap implements map_range w md codecVersion = Ok w' ∧ acts w' (<[dm_txID md := bs]> M)
    ∧ ∀ dest, is_u64 (dm_PotentialReward dest) → is_u64 (dm_StakerStartTime dest) →
      parseDelegatorMetadata extra_cap implements bs dest
      = Ok (mkDelegator (dm_PotentialReward md) (if codecVersion =? CodecVersion1 then dm_StakerStartTime md else dm_StakerStartTime dest) (dm_txID dest)).
Proof using Hperm WL version_ok.
  intros Hw Hr Hs. unfold writeDelegatorMetadata, parseDelegatorMetadata. destruct version_ok as [->| ->].
  - destruct (law_kv_Put w M (dm_txID md) (PackUInt64 (dm_PotentialReward md)) Hw) as (w' & E & Hw'). exists w', (PackUInt64 (dm_PotentialReward md)).
    split; [change (CodecVersion0 =? 0) with true; unfold PutUInt64; by rewrite E|]. split; [done|]. intros dest _ _.
    assert (length (PackUInt64 (dm_PotentialReward md)) = 8%nat) as -> by apply length_be_bytes.
    change (Z.of_nat 8 =? Uint64Size) with true. cbn iota. by rewrite ParseUInt64_Pack.
  - assert (Ht : ∀ md, is_u64 (dm_PotentialReward md) → is_u64 (dm_StakerStartTime md) →
      has_type extra_cap implements _ (codec_of_ok CodecVersion1) (delegator_val md) delegatorMetadata_ty).
    { intros d H1 H2. do 2 (split; [by apply u64_num|]). done. }
    assert (He : ∃ e, value_encoding extra_cap implements _ (codec_of_ok CodecVersion1) (delegator_val md) delegatorMetadata_ty = Some e ∧ length e = 16%nat).
    { eexists. split; [reflexivity|]. cbn [concat]. by rewrite !length_app, !length_be_bytes. }
    destruct He as (e & Ee & He).
    destruct (struct_roundtrip CodecVersion1 (delegator_val md) delegatorMetadata_ty e (or_intror eq_refl) (Ht md Hr Hs) Ee) as (Hbs & Hlen & Hp); [by rewrite He|].
    change (CodecVersion1 =? 0) with false. cbn iota. rewrite Hbs. cbn [lift_codec result_bind].
    destruct (law_kv_Put w M (dm_txID md) (be_bytes 2 CodecVersion1 ++ e) Hw) as (w' & E & Hw'). exists w', (be_bytes 2 CodecVersion1 ++ e).
    split; [by rewrite E|]. split; [done|]. intros dest H1 H2. rewrite Hlen, He. change (2 + Z.of_nat 16 =? Uint64Size) with false. cbn iota.
    rewrite Hp by (by apply Ht). reflexivity.
Qed.
End reading.

(** ** The metadata as the state of the manager of uptimes *)

(** The start times are those of the stakers. *)
Definition metadata_uptime (start : bytes → bytes → result db_error Z) : UptimeState metadata :=
  {| GetUptime := md_GetUptime; SetUptime := md_SetUptime; GetStartTime _ := start |}.

Definition uptime_entries (m : metadata) (M : gmap (bytes * bytes) (Z * Z)) : Prop :=
  ∀ v s, M !! (v, s) = (λ md, (UpDuration md, lastUpdated md)) <$> find m v s.

#[export] Program Instance metadata_uptime_laws start : UptimeStateLaws (metadata_uptime start) := {| us_repr := uptime_entries |}.
Next Obligation. intros start m M v s H. rewrite H. cbn. unfold md_GetUptime. by destruct (find m v s). Qed.
Next Obligation.
  intros start m M v s up last H. cbn. unfold md_SetUptime. rewrite H. destruct (find m v s) as [md|] eqn:E; cbn; [|done].
  eexists. split; [done|]. intros v' s'. change (find (addUpdatedMetadata ?x _ _)) with (find x).
  rewrite (find_store m v s md) by done. rewrite lookup_insert. case_decide as Hk; [by rewrite decide_True|].
  by rewrite decide_False, H.
Qed.

(** ** Example *)

Definition ex_meta : validatorMetadata := mkMeta 0 0 7 0 100 [1] 0.
Definition ex_ops : list md_op := [MLoad [5] PrimaryNetworkID ex_meta; MLoad [6] [9] ex_meta; MSetUptime [5] PrimaryNetworkID 30 (60 * second)].
Definition ex_updated (u : gmap bytes (gset bytes)) : list (bytes * gset bytes) := map_to_list u.
Definition ex_subnets (s : gset bytes) : list bytes := elements s.

Lemma ex_ops_spec : (spec_run ex_ops).2 = {[([5], PrimaryNetworkID)]}
  ∧ (spec_run ex_ops).1 !! ([5], PrimaryNetworkID) = Some (set_uptime ex_meta 30 (60 * second)).
Proof. split; vm_compute; reflexivity. Qed.

Lemma metadata_persisted_witness : ∃ m' p' q' P',
  WriteValidatorMetadata (K := db_writer (D := memdb_database sample_range)) ex_cap ex_implements ex_range ex_updated ex_subnets
    (md_run newValidatorState ex_ops) (mkMemdb (Some ∅)) (mkMemdb (Some ∅)) CodecVersion1 = (None, (m', p', q'))
  ∧ contents (D := memdb_database sample_range) (DatabaseLaws := memdb_laws sample_range (λ _ _, reflexivity _)) p' = Some P'
  ∧ updatedMetadata m' = ∅ ∧ is_Some (P' !! [1]).
Proof.
  pose (L := memdb_laws sample_range (λ _ _, reflexivity _)). destruct ex_ops_spec as [Hd He].
  destruct (metadata_persisted ex_cap ex_implements ex_range ex_perm (db_acts (L := L) (db_ident (DatabaseLaws := L) (mkMemdb (Some ∅))))
    CodecVersion1 (or_intror eq_refl) ex_updated ex_subnets (λ _, reflexivity _) (λ _, reflexivity _)
    ex_ops (mkMemdb (Some ∅)) (mkMemdb (Some ∅)) ∅ ∅) as (m' & p' & q' & P' & Q' & Hrun & Hp' & _ & Hu & _ & Hread & _).
  - split; [exact I|by split].
  - split; [exact I|by split].
  - rewrite Hd. intros k md ->%elem_of_singleton E. rewrite He in E. injection E as <-. split.
    + split; unfold is_u64, MaxUint64; cbn; lia.
    + exists 60. split; [lia|done].
  - rewrite Hd. intros k md k' md' ->%elem_of_singleton _ ->%elem_of_singleton. done.
  - exists m', p', q', P'. split; [exact Hrun|]. split; [apply Hp'|]. split; [exact Hu|].
    destruct (Hread ([5], PrimaryNetworkID) _ ltac:(rewrite Hd; by apply elem_of_singleton) He) as (bs & Hb & _). exists bs.
    change (primary ([5], PrimaryNetworkID).2) with true in Hb. exact Hb.
Defined.
