(* ===== verification/Cacher.v ===== *)
(** * The interface of caches

    [Cacher] of [cache/cache.go] with what its clients rely on, and the LRU cache as an instance
    of it. *)

From S2P Require Import Prelude Hashmap Cache.

Open Scope Z_scope.

(** [Cacher] of [cache/cache.go], less its sizes *)
Class Cacher (K V C : Type) := {
  cache_Put : C → K → V → C;
  cache_Get : C → K → option V * C;
  cache_Evict : C → K → C;
  cache_Flush : C → C;
}.

(** A best effort store: [cached c k v] when [v] may be what [cache_Get] finds. *)
Class CacherLaws {K V C} (R : Cacher K V C) := {
  cache_ok : C → Prop;
  cached : C → K → V → Prop;
  law_cache_Put c k v : cache_ok c → cache_ok (cache_Put c k v)
    ∧ ∀ k' v', cached (cache_Put c k v) k' v' → (k' = k ∧ v' = v) ∨ (k' ≠ k ∧ cached c k' v');
  law_cache_Get c k : cache_ok c → cache_ok (cache_Get c k).2
    ∧ (∀ v, (cache_Get c k).1 = Some v → cached c k v)
    ∧ ∀ k' v', cached (cache_Get c k).2 k' v' → cached c k' v';
  law_cache_Evict c k : cache_ok c → cache_ok (cache_Evict c k)
    ∧ ∀ k' v', cached (cache_Evict c k) k' v' → k' ≠ k ∧ cached c k' v';
  law_cache_Flush c : cache_ok c → cache_ok (cache_Flush c) ∧ ∀ k v, ¬ cached (cache_Flush c) k v;
}.

Section lru_cacher.
Context {K V : Type} `{EqDecision K} `{GoZero K} `{GoZero V}.

#[export] Instance lru_cacher : Cacher K V (LRU.LRU (K := K) (V := V)) := {|
  cache_Put := LRU.put;
  cache_Get c k := let '(v, ok, c) := LRU.get c k in (if ok : bool then Some v else None, c);
  cache_Evict := LRU.evict;
  cache_Flush := LRU.flush;
|}.

Definition lru_cached (c : LRU.LRU (K := K) (V := V)) (k : K) (v : V) : Prop := (k, v) ∈ default [] (LRU.elements c).

Lemma resize_cached c m size k v : LRU.lru_wf c → LRU.resize c = (m, size) → (k, v) ∈ m → lru_cached c k v.
Proof.
  intros Hc Hr Hin. destruct (LRU.resize_spec c Hc) as [E _]. rewrite Hr in E. injection E as -> _.
  eapply elem_of_submseteq; [exact Hin|]. apply sublist_submseteq, sublist_drop.
Qed.

Lemma om_put_elem (m : ordmap K V) k v k' v' : (k', v') ∈ om_put m k v → (k' = k ∧ v' = v) ∨ (k' ≠ k ∧ (k', v') ∈ m).
Proof.
  unfold om_put. intros [Hin|Hin]%elem_of_app; [right; apply om_delete_elem in Hin as [? ?]; done|left].
  apply list_elem_of_singleton in Hin. by injection Hin as -> ->.
Qed.

#[export] Program Instance lru_cacher_laws : CacherLaws lru_cacher := {| cache_ok := LRU.lru_wf; cached := lru_cached |}.
Next Obligation.
  intros c k v Hc. cbn [cache_Put lru_cacher]. split; [apply LRU.put_establishes, Hc|]. unfold LRU.put. destruct (LRU.resize c) as [m size] eqn:E.
  unfold lru_cached at 1. cbn [LRU.elements default]. intros k' v' [?|[Hne Hin]]%om_put_elem; [by left|right]. split; [done|].
  eapply resize_cached; [done|exact E|]. revert Hin. destruct (om_len m =? size); [|done]. by intros [? _]%om_delete_elem.
Qed.
Next Obligation.
  intros c k Hc. cbn [cache_Get lru_cacher]. pose proof (proj1 (LRU.get_establishes c k Hc)) as Hwf. unfold LRU.get in *.
  destruct (LRU.resize c) as [m size] eqn:E. destruct (LRU.resize_establishes c m size Hc E) as (Hm & _).
  destruct (om_get m k) as [val|] eqn:Eg; cbn [fst snd] in *; (split; [exact Hwf|]); split.
  - intros v [= <-]. eapply resize_cached; [done|exact E|]. by apply om_get_Some.
  - intros k' v' [[-> ->]|[_ Hin]]%om_put_elem; (eapply resize_cached; [done|exact E|]); [by apply om_get_Some|done].
  - done.
  - intros k' v' Hin. by eapply resize_cached.
Qed.
Next Obligation.
  intros c k Hc. cbn [cache_Evict lru_cacher]. split; [apply LRU.evict_establishes, Hc|]. unfold LRU.evict. destruct (LRU.resize c) as [m size] eqn:E.
  unfold lru_cached at 1. cbn [LRU.elements default]. intros k' v' [Hin Hne]%om_delete_elem. split; [done|]. by eapply resize_cached.
Qed.
Next Obligation.
  intros c Hc. cbn. unfold LRU.flush, lru_cached, LRU.lru_wf in *. destruct (LRU.elements c) eqn:E; cbn.
  - split; [constructor|]. intros k v Hin. by apply elem_of_nil in Hin.
  - rewrite E. cbn. split; [constructor|]. intros k v Hin. by apply elem_of_nil in Hin.
Qed.
End lru_cacher.
