(* ===== verification/Linkeddb.v ===== *)
(** * A list in a database

    [database/linkeddb]: key-value pairs that are kept in a database as a doubly linked list,
    the last key that was added first, with its codec ([codec.go]), the caches of the nodes and
    of the key of the head, and iterators ([linkeddb.go]).  It is built on the interfaces of
    databases, of caches ([cache/cache.go]) and on the codec.

    Nil and empty slices are the empty list.  A cached node is not changed in place, so the
    cache holds values; a nil pointer in it is [None].  An operation returns its result with the
    new state.  The locks make every operation one step.  What the operations do to the list is
    in [LinkeddbList]. *)

From S2P Require Import Prelude Packer Database Hashmap Cache Bimap Codec CodecWrite CodecRead CodecManager Cacher.

Open Scope Z_scope.

(** ** [codec.go] and the nodes *)

Record node := mkNode { Value : bytes; HasNext : bool; Next : bytes; HasPrevious : bool; Previous : bytes }.

Definition serialize : FieldInfo := mkField [[115; 101; 114; 105; 97; 108; 105; 122; 101]] true.
Definition bytes_ty : ty := TSlice (TNum false W8).
Definition node_ty : ty := TStruct 1 [(serialize, bytes_ty); (serialize, TBool); (serialize, bytes_ty); (serialize, TBool); (serialize, bytes_ty)].

(** A node as a value of the codec, and back *)
Definition bytes_val (b : bytes) : val := VSeq (VNum <$> b).
Definition val_bytes (v : val) : bytes := match v with VSeq vs => bytes_of vs | _ => [] end.
Definition node_val (n : node) : val :=
  VStruct [bytes_val (Value n); VBool (HasNext n); bytes_val (Next n); VBool (HasPrevious n); bytes_val (Previous n)].
Definition val_node (v : val) : node :=
  match v with
  | VStruct [v; VBool hn; n; VBool hp; p] => mkNode (val_bytes v) hn (val_bytes n) hp (val_bytes p)
  | _ => mkNode [] false [] false []
  end.

Definition CodecVersion : Z := 0.

Inductive linked_error := LDb (e : db_error) | LCodec (e : codec_error).

Definition headKey : bytes := [1].
Definition nodeKey (key : bytes) : bytes := 0 :: key.

Section linkeddb.
Context (extra_cap : Z → Z → nat) (implements : ty → nat → bool) (map_range : ∀ A : Type, list A → list A).
Context {D : Database} {C : Type} {R : Cacher bytes (option node) C} (range_updated : gmap bytes (option node) → list (bytes * option node)).

Definition lc : codec := mkCodec [[115; 101; 114; 105; 97; 108; 105; 122; 101]] (linear_typer extra_cap implements linear_New) 0.
Definition Codec : result codec_error CodecManager.manager := RegisterCodec (CodecManager.NewManager MaxInt32) CodecVersion lc.
Definition the_codec : CodecManager.manager := match Codec with Ok m => m | Err _ => CodecManager.NewManager MaxInt32 end.

(** ** The state *)

Record linkedDB := mkLinkedDB {
  headKeyIsSynced : bool;
  headKeyExists : bool;
  headKeyIsUpdated : bool;
  updatedHeadKeyExists : bool;
  ldb_headKey : bytes;
  updatedHeadKey : bytes;
  nodeCache : C;
  updatedNodes : gmap bytes (option node);
  ldb_db : db_t;
  ldb_batch : batch_t;
}.

Implicit Types (ldb : linkedDB).

(** [cache] is the empty LRU cache of the given size. *)
Definition New (db : db_t) (cache : C) : linkedDB :=
  mkLinkedDB false false false false [] [] cache ∅ db (db_NewBatch db).

Definition set_nodeCache ldb (c : C) : linkedDB :=
  mkLinkedDB (headKeyIsSynced ldb) (headKeyExists ldb) (headKeyIsUpdated ldb) (updatedHeadKeyExists ldb) (ldb_headKey ldb)
    (updatedHeadKey ldb) c (updatedNodes ldb) (ldb_db ldb) (ldb_batch ldb).
Definition set_headKey ldb (synced exists_ : bool) (key : bytes) : linkedDB :=
  mkLinkedDB synced exists_ (headKeyIsUpdated ldb) (updatedHeadKeyExists ldb) key
    (updatedHeadKey ldb) (nodeCache ldb) (updatedNodes ldb) (ldb_db ldb) (ldb_batch ldb).
Definition set_updatedHeadKey ldb (exists_ : bool) (key : bytes) (b : batch_t) : linkedDB :=
  mkLinkedDB (headKeyIsSynced ldb) (headKeyExists ldb) true exists_ (ldb_headKey ldb)
    key (nodeCache ldb) (updatedNodes ldb) (ldb_db ldb) b.
Definition set_updatedNodes ldb (u : gmap bytes (option node)) (b : batch_t) : linkedDB :=
  mkLinkedDB (headKeyIsSynced ldb) (headKeyExists ldb) (headKeyIsUpdated ldb) (updatedHeadKeyExists ldb) (ldb_headKey ldb)
    (updatedHeadKey ldb) (nodeCache ldb) u (ldb_db ldb) b.
Definition set_db ldb (d : db_t) : linkedDB :=
  mkLinkedDB (headKeyIsSynced ldb) (headKeyExists ldb) (headKeyIsUpdated ldb) (updatedHeadKeyExists ldb) (ldb_headKey ldb)
    (updatedHeadKey ldb) (nodeCache ldb) (updatedNodes ldb) d (ldb_batch ldb).

Definition returns (A : Type) : Type := result linked_error A * linkedDB.

(** [if err != nil { return err }] *)
Definition bind {A B} (r : returns A) (k : A → linkedDB → returns B) : returns B :=
  match r with (Ok a, ldb) => k a ldb | (Err e, ldb) => (Err e, ldb) end.

(** ** Nodes and the head *)

Definition getHeadKey ldb : returns bytes :=
  if headKeyIsSynced ldb then
    if headKeyExists ldb then (Ok (ldb_headKey ldb), ldb) else (Err (LDb ErrNotFound), ldb)
  else
    match db_Get (ldb_db ldb) headKey with
    | Ok key => (Ok key, set_headKey ldb true true key)
    | Err ErrNotFound => (Err (LDb ErrNotFound), set_headKey ldb true false (ldb_headKey ldb))
    | Err err => (Err (LDb err), ldb)
    end.

Definition putHeadKey ldb (key : bytes) : returns unit :=
  (Ok tt, set_updatedHeadKey ldb true key (batch_Put (ldb_batch ldb) headKey key)).

Definition deleteHeadKey ldb : returns unit :=
  (Ok tt, set_updatedHeadKey ldb false (updatedHeadKey ldb) (batch_Delete (ldb_batch ldb) headKey)).

Definition getNode ldb (key : bytes) : returns node :=
  let '(found, c) := cache_Get (nodeCache ldb) key in
  let ldb := set_nodeCache ldb c in
  match found with
  | Some None => (Err (LDb ErrNotFound), ldb)
  | Some (Some n) => (Ok n, ldb)
  | None =>
      match db_Get (ldb_db ldb) (nodeKey key) with
      | Err ErrNotFound => (Err (LDb ErrNotFound), set_nodeCache ldb (cache_Put (nodeCache ldb) key None))
      | Err err => (Err (LDb err), ldb)
      | Ok nodeBytes =>
          match Unmarshal the_codec nodeBytes node_ty (zero node_ty) with
          | Ok (_, v) => (Ok (val_node v), set_nodeCache ldb (cache_Put (nodeCache ldb) key (Some (val_node v))))
          | Err err => (Err (LCodec err), ldb)
          end
      end
  end.

Definition putNode ldb (key : bytes) (n : node) : returns unit :=
  let ldb := set_updatedNodes ldb (<[key := Some n]> (updatedNodes ldb)) (ldb_batch ldb) in
  match Marshal extra_cap map_range the_codec CodecVersion (node_val n) node_ty with
  | Err err => (Err (LCodec err), ldb)
  | Ok nodeBytes => (Ok tt, set_updatedNodes ldb (updatedNodes ldb) (batch_Put (ldb_batch ldb) (nodeKey key) nodeBytes))
  end.

Definition deleteNode ldb (key : bytes) : returns unit :=
  (Ok tt, set_updatedNodes ldb (<[key := None]> (updatedNodes ldb)) (batch_Delete (ldb_batch ldb) (nodeKey key))).

Definition resetBatch ldb : linkedDB :=
  mkLinkedDB (headKeyIsSynced ldb) (headKeyExists ldb) false (updatedHeadKeyExists ldb) (ldb_headKey ldb)
    (updatedHeadKey ldb) (nodeCache ldb) ∅ (ldb_db ldb) (batch_Reset (ldb_batch ldb)).

Definition writeBatch ldb : returns unit :=
  match batch_Write (ldb_db ldb) (ldb_batch ldb) with
  | Err err => (Err (LDb err), ldb)
  | Ok d =>
      let ldb := set_db ldb d in
      let ldb := if headKeyIsUpdated ldb then set_headKey ldb true (updatedHeadKeyExists ldb) (updatedHeadKey ldb) else ldb in
      (Ok tt, set_nodeCache ldb (foldl (λ c e, cache_Put c e.1 e.2) (nodeCache ldb) (range_updated (updatedNodes ldb))))
  end.

(** ** The operations *)

Definition Has ldb (key : bytes) : result db_error bool := db_Has (ldb_db ldb) (nodeKey key).

Definition Get ldb (key : bytes) : returns bytes := bind (getNode ldb key) (λ n ldb, (Ok (Value n), ldb)).

Definition put_head ldb (key : bytes) (newHead : node) : returns unit :=
  bind (putNode ldb key newHead) (λ _ ldb, bind (putHeadKey ldb key) (λ _ ldb, writeBatch ldb)).

Definition Put ldb (key value : bytes) : returns unit :=
  let ldb := resetBatch ldb in
  match getNode ldb key with
  | (Ok existingNode, ldb) =>
      let existingNode := mkNode value (HasNext existingNode) (Next existingNode) (HasPrevious existingNode) (Previous existingNode) in
      bind (putNode ldb key existingNode) (λ _ ldb, writeBatch ldb)
  | (Err (LDb ErrNotFound), ldb) =>
      let newHead := mkNode value false [] false [] in
      match getHeadKey ldb with
      | (Ok headKey, ldb) =>
          bind (getNode ldb headKey) (λ oldHead ldb,
            let oldHead := mkNode (Value oldHead) (HasNext oldHead) (Next oldHead) true key in
            bind (putNode ldb headKey oldHead) (λ _ ldb,
              put_head ldb key (mkNode (Value newHead) true headKey (HasPrevious newHead) (Previous newHead))))
      | (Err (LDb ErrNotFound), ldb) => put_head ldb key newHead
      | (Err err, ldb) => (Err err, ldb)
      end
  | (Err err, ldb) => (Err err, ldb)
  end.

Definition Delete ldb (key : bytes) : returns unit :=
  match getNode ldb key with
  | (Err (LDb ErrNotFound), ldb) => (Ok tt, ldb)
  | (Err err, ldb) => (Err err, ldb)
  | (Ok currentNode, ldb) =>
      let ldb := resetBatch ldb in
      bind (deleteNode ldb key) (λ _ ldb,
        if HasPrevious currentNode then
          bind (getNode ldb (Previous currentNode)) (λ previousNode ldb,
            let previousNode := mkNode (Value previousNode) (HasNext currentNode) (Next currentNode)
                                       (HasPrevious previousNode) (Previous previousNode) in
            bind (putNode ldb (Previous currentNode) previousNode) (λ _ ldb,
              if HasNext currentNode then
                bind (getNode ldb (Next currentNode)) (λ nextNode ldb,
                  let nextNode := mkNode (Value nextNode) (HasNext nextNode) (Next nextNode) true (Previous currentNode) in
                  bind (putNode ldb (Next currentNode) nextNode) (λ _ ldb, writeBatch ldb))
              else writeBatch ldb))
        else if negb (HasNext currentNode) then bind (deleteHeadKey ldb) (λ _ ldb, writeBatch ldb)
        else
          bind (putHeadKey ldb (Next currentNode)) (λ _ ldb,
            bind (getNode ldb (Next currentNode)) (λ nextNode ldb,
              let nextNode := mkNode (Value nextNode) (HasNext nextNode) (Next nextNode) false [] in
              bind (putNode ldb (Next currentNode) nextNode) (λ _ ldb, writeBatch ldb))))
  end.

Definition HeadKey ldb : returns bytes := getHeadKey ldb.

Definition IsEmpty ldb : returns bool :=
  match HeadKey ldb with
  | (Err (LDb ErrNotFound), ldb) => (Ok true, ldb)
  | (Err err, ldb) => (Err err, ldb)
  | (Ok _, ldb) => (Ok false, ldb)
  end.

Definition Head ldb : returns (bytes * bytes) :=
  bind (getHeadKey ldb) (λ headKey ldb, bind (getNode ldb headKey) (λ head ldb, (Ok (headKey, Value head), ldb))).

(** ** Iterators *)

Record iterator := mkIter {
  initialized : bool;
  exhausted : bool;
  key : bytes;
  value : bytes;
  nextKey : bytes;
  err : option linked_error;
}.

Definition NewIterator : iterator := mkIter false false [] [] [] None.

Definition NewIteratorWithStart ldb (start : bytes) : iterator :=
  match Has ldb start with
  | Ok true => mkIter true false [] [] start None
  | _ => NewIterator
  end.

(** The end, with an error or not *)
Definition stop (it : iterator) (e : option linked_error) : iterator :=
  mkIter (initialized it) true [] [] (nextKey it) (match e with Some e => Some e | None => err it end).

Definition Next_node ldb (it : iterator) : bool * iterator * linkedDB :=
  match getNode ldb (nextKey it) with
  | (Err (LDb ErrNotFound), ldb) => (false, stop it None, ldb)
  | (Err err, ldb) => (false, stop it (Some err), ldb)
  | (Ok nextNode, ldb) =>
      (true, mkIter (initialized it) (negb (HasNext nextNode)) (nextKey it) (Value nextNode) (Next nextNode) (err it), ldb)
  end.

Definition iterator_Next ldb (it : iterator) : bool * iterator * linkedDB :=
  if exhausted it then (false, mkIter (initialized it) true [] [] (nextKey it) (err it), ldb)
  else if initialized it then Next_node ldb it
  else
    let it := mkIter true (exhausted it) (key it) (value it) (nextKey it) (err it) in
    match getHeadKey ldb with
    | (Err (LDb ErrNotFound), ldb) => (false, stop it None, ldb)
    | (Err e, ldb) => (false, stop it (Some e), ldb)
    | (Ok headKey, ldb) => Next_node ldb (mkIter true (exhausted it) (key it) (value it) headKey (err it))
    end.
End linkeddb.

#[export] Instance bytes_zero : GoZero bytes := [].
#[export] Instance node_zero : GoZero (option node) := None.

Definition defaultCacheSize : Z := 1024.
Definition NewDefault {D : Database} (db : db_t) : linkedDB (C := LRU.LRU (K := bytes) (V := option node)) :=
  New db (LRU.mkLRU None defaultCacheSize).

(** ** The encoding of nodes *)

(** Byte strings for which nodes are far from the limit of the codec *)
Definition small (b : bytes) : Prop := bytes_ok b ∧ Z.of_nat (length b) ≤ 2 ^ 29.

Definition node_ok (n : node) : Prop := small (Value n) ∧ small (Next n) ∧ small (Previous n).

Lemma small_nil : small [].
Proof. split; [constructor|done]. Qed.

Lemma val_bytes_val b : bytes_ok b → val_bytes (bytes_val b) = b.
Proof.
  intros Hb. unfold val_bytes, bytes_val, bytes_of. rewrite <- list_fmap_compose. rewrite <- (list_fmap_id b) at 2.
  apply list_fmap_ext. intros i z Hz. cbn. apply Z.mod_small. eapply Forall_lookup in Hz; [|exact Hb]. exact Hz.
Qed.

Section nodes.
Context (extra_cap : Z → Z → nat) (implements : ty → nat → bool).
Context (map_range : ∀ A : Type, list A → list A) (Hperm : ∀ A (l : list A), map_range A l ≡ₚ l).

Notation codec := (the_codec extra_cap implements).

Definition lc_ok : codec_ok extra_cap implements (lc extra_cap implements) :=
  mkCodecOk _ _ (lc extra_cap implements) (linear_laws extra_cap implements linear_New linear_New_ok) eq_refl.

Definition enc (v : val) (t : ty) : option bytes := value_encoding extra_cap implements (lc extra_cap implements) lc_ok v t.

Lemma bytes_elems b : all_some ((λ v, enc v (TNum false W8)) <$> (VNum <$> b)) = Some ((λ z, be_bytes 1 (z mod 256)) <$> b).
Proof using. induction b as [|z b IH]; [done|]. cbn [fmap list_fmap] in IH |- *. change (enc (VNum z) (TNum false W8)) with (Some (be_bytes 1 (z mod 256))). cbn [all_some]. by rewrite IH. Qed.

Lemma slice_encoding b : Z.of_nat (length b) ≤ 2 ^ 29 → ∃ e, enc (bytes_val b) bytes_ty = Some e ∧ Z.of_nat (length e) = 4 + Z.of_nat (length b).
Proof using.
  intros Hb. change (enc (bytes_val b) bytes_ty) with
    (if MaxInt32 <? Z.of_nat (length (VNum <$> b)) then None
     else es ← all_some ((λ v, enc v (TNum false W8)) <$> (VNum <$> b));
          if existsb is_nil es then None else Some (be_len (VNum <$> b) ++ concat es)).
  rewrite length_fmap. destruct (Z.ltb_spec MaxInt32 (Z.of_nat (length b))) as [H|_]; [unfold MaxInt32 in H; lia|].
  rewrite bytes_elems. cbn [mbind option_bind]. set (es := _ <$> b).
  assert (Hes : existsb is_nil es = false ∧ length (concat es) = length b).
  { unfold es. clear Hb es. induction b as [|z b [IH1 IH2]]; [done|]. cbn [fmap list_fmap existsb concat]. split; [exact IH1|].
    rewrite length_app, length_be_bytes. cbn [length]. f_equal. exact IH2. }
  destruct Hes as [-> Hl]. eexists. split; [done|]. rewrite length_app, Hl. unfold be_len. rewrite length_be_bytes. lia.
Qed.

Definition node_bytes (n : node) : bytes := be_bytes 2 CodecVersion ++ default [] (enc (node_val n) node_ty).

Lemma node_encoding n : node_ok n → ∃ e, enc (node_val n) node_ty = Some e ∧ Z.of_nat (length e) ≤ MaxInt32 - 2.
Proof using.
  intros ((_ & H1) & (_ & H2) & (_ & H3)).
  destruct (slice_encoding _ H1) as (e1 & E1 & L1). destruct (slice_encoding _ H2) as (e2 & E2 & L2). destruct (slice_encoding _ H3) as (e3 & E3 & L3).
  change (enc (node_val n) node_ty) with
    (es ← all_some [enc (bytes_val (Value n)) bytes_ty; enc (VBool (HasNext n)) TBool; enc (bytes_val (Next n)) bytes_ty;
                    enc (VBool (HasPrevious n)) TBool; enc (bytes_val (Previous n)) bytes_ty]; Some (concat es)).
  rewrite E1, E2, E3. eexists. split; [reflexivity|]. cbn [concat]. rewrite !length_app. cbn [length]. unfold MaxInt32. lia.
Qed.

Lemma bytes_typed b : bytes_ok b → has_type extra_cap implements (lc extra_cap implements) lc_ok (bytes_val b) bytes_ty.
Proof using.
  intros Hb. apply typed_slice. apply Forall_fmap. eapply Forall_impl; [exact Hb|]. intros z Hz. exact Hz.
Qed.

Lemma node_typed n : node_ok n → has_type extra_cap implements (lc extra_cap implements) lc_ok (node_val n) node_ty.
Proof using.
  intros ((H1 & _) & (H2 & _) & (H3 & _)). split; [by apply bytes_typed|]. split; [done|]. split; [by apply bytes_typed|]. split; [done|].
  split; [by apply bytes_typed|done].
Qed.

Lemma fill_bytes b : fill (captured (c_tags (lc extra_cap implements))) (bytes_val b) bytes_ty (zero bytes_ty) = bytes_val b.
Proof using. unfold bytes_val, bytes_ty. cbn. f_equal. rewrite <- list_fmap_compose. by apply list_fmap_ext. Qed.

Lemma node_codec n : node_ok n →
  Marshal extra_cap map_range codec CodecVersion (node_val n) node_ty = Ok (node_bytes n)
  ∧ ∃ v, Unmarshal codec (node_bytes n) node_ty (zero node_ty) = Ok (CodecVersion, v) ∧ val_node v = n.
Proof using Hperm.
  intros Hn. destruct (node_encoding n Hn) as (e & Ee & Hl). unfold node_bytes. rewrite Ee. change (default [] (Some e)) with e.
  pose proof (Marshal_spec extra_cap implements map_range Hperm codec ltac:(done) CodecVersion _ lc_ok (node_val n) node_ty eq_refl (node_typed n Hn)) as Hs.
  fold (enc (node_val n) node_ty) in Hs. rewrite Ee, decide_True in Hs by (change (m_maxSize codec) with MaxInt32; lia).
  split; [done|]. eexists. split.
  - rewrite (Unmarshal_version codec CodecVersion (lc extra_cap implements) e node_ty (zero node_ty) ltac:(done) eq_refl
      ltac:(change (m_maxSize codec) with MaxInt32; lia)).
    by rewrite (codec_Unmarshal_at extra_cap implements _ lc_ok (node_val n) node_ty (zero node_ty) e (node_typed n Hn) (typed_zero _ _ _ _) Ee).
  - change (val_node (fill _ (node_val n) node_ty (zero node_ty))) with
      (val_node (VStruct [fill (captured (c_tags (lc extra_cap implements))) (bytes_val (Value n)) bytes_ty (zero bytes_ty); VBool (HasNext n);
        fill (captured (c_tags (lc extra_cap implements))) (bytes_val (Next n)) bytes_ty (zero bytes_ty); VBool (HasPrevious n);
        fill (captured (c_tags (lc extra_cap implements))) (bytes_val (Previous n)) bytes_ty (zero bytes_ty)])).
    rewrite !fill_bytes. cbn [val_node]. destruct Hn as ((H1 & _) & (H2 & _) & (H3 & _)). rewrite !val_bytes_val by done. by destruct n.
Qed.
End nodes.

(** ** The nodes of a list *)

Notation pairs_t := (list (bytes * bytes)).

Definition head_key (l : pairs_t) (n : option bytes) : option bytes := match l with [] => n | (k, _) :: _ => Some k end.
Fixpoint last_key (p : option bytes) (l : pairs_t) : option bytes := match l with [] => p | (k, _) :: l => last_key (Some k) l end.

Definition mk (v : bytes) (n p : option bytes) : node :=
  mkNode v (bool_decide (is_Some n)) (default [] n) (bool_decide (is_Some p)) (default [] p).

(** The nodes of a list between a previous and a next key *)
Fixpoint nodes (p : option bytes) (l : pairs_t) (n : option bytes) : list (bytes * node) :=
  match l with
  | [] => []
  | (k, v) :: l => (k, mk v (head_key l n) p) :: nodes (Some k) l n
  end.

Definition node_map (l : pairs_t) : gmap bytes node := list_to_map (nodes None l None).

(** What [Put] and [Delete] mean *)
Definition list_put (l : pairs_t) (k v : bytes) : pairs_t :=
  if decide (k ∈ l.*1) then (λ e, if decide (e.1 = k) then (k, v) else e) <$> l else (k, v) :: l.
Definition list_delete (l : pairs_t) (k : bytes) : pairs_t := filter (λ e, e.1 ≠ k) l.

Lemma nodes_app p l1 l2 n : nodes p (l1 ++ l2) n = nodes p l1 (head_key l2 n) ++ nodes (last_key p l1) l2 n.
Proof.
  revert p. induction l1 as [|[k v] l1 IH]; intros p; [done|]. cbn [app nodes last_key]. rewrite IH. do 3 f_equal. by destruct l1 as [|[]].
Qed.

Lemma last_key_snoc o l p u : last_key o (l ++ [(p, u)]) = Some p.
Proof. revert o. induction l as [|[] l IH]; intros o; [done|apply IH]. Qed.

Lemma nodes_keys p l n : (nodes p l n).*1 = l.*1.
Proof. revert p. induction l as [|[k v] l IH]; intros p; [done|]. cbn. by rewrite IH. Qed.

Section map_update.
Context {V : Type}.
Implicit Types (A B : list (bytes * V)).

Lemma list_to_map_middle A B x a : NoDup (A ++ (x, a) :: B).*1 →
  (list_to_map (A ++ (x, a) :: B) : gmap bytes V) = <[x := a]> (list_to_map (A ++ B)) ∧ (list_to_map (A ++ B) : gmap bytes V) !! x = None.
Proof.
  intros Hnd. rewrite fmap_app, fmap_cons in Hnd. cbn [fst] in Hnd. apply NoDup_app in Hnd as (H1 & H2 & H3). apply NoDup_cons in H3 as [H3 _].
  assert (HA : (list_to_map A : gmap bytes V) !! x = None) by (apply not_elem_of_list_to_map; intros Hin; apply (H2 x Hin); by left).
  assert (HB : (list_to_map B : gmap bytes V) !! x = None) by (by apply not_elem_of_list_to_map).
  rewrite !list_to_map_app, list_to_map_cons. split; [by rewrite insert_union_r|]. by rewrite lookup_union_None.
Qed.

Lemma list_to_map_update A B x a b : NoDup (A ++ (x, a) :: B).*1 →
  (list_to_map (A ++ (x, b) :: B) : gmap bytes V) = <[x := b]> (list_to_map (A ++ (x, a) :: B)).
Proof.
  intros Hnd. destruct (list_to_map_middle A B x a Hnd) as [-> _]. destruct (list_to_map_middle A B x b) as [-> _].
  - by rewrite fmap_app, fmap_cons in *.
  - by rewrite insert_insert_eq.
Qed.

Lemma list_to_map_remove A B x a : NoDup (A ++ (x, a) :: B).*1 → (list_to_map (A ++ B) : gmap bytes V) = delete x (list_to_map (A ++ (x, a) :: B)).
Proof. intros Hnd. destruct (list_to_map_middle A B x a Hnd) as [-> H]. by rewrite delete_insert_id. Qed.
End map_update.

Lemma nodes_NoDup p l n : NoDup l.*1 → NoDup (nodes p l n).*1.
Proof. by rewrite nodes_keys. Qed.

Lemma node_map_None l k : node_map l !! k = None ↔ k ∉ l.*1.
Proof. unfold node_map. rewrite <- not_elem_of_list_to_map. by rewrite nodes_keys. Qed.

Lemma node_map_lookup l1 k v l2 : NoDup (l1 ++ (k, v) :: l2).*1 →
  node_map (l1 ++ (k, v) :: l2) !! k = Some (mk v (head_key l2 None) (last_key None l1)).
Proof.
  intros Hnd. unfold node_map. apply (nodes_NoDup None _ None) in Hnd. rewrite nodes_app in *. cbn [nodes] in *.
  destruct (list_to_map_middle _ _ _ _ Hnd) as [-> _]. by rewrite lookup_insert_eq.
Qed.

(** A value is replaced. *)
Lemma node_map_value l1 k v w l2 : NoDup (l1 ++ (k, v) :: l2).*1 →
  node_map (l1 ++ (k, w) :: l2) = <[k := mk w (head_key l2 None) (last_key None l1)]> (node_map (l1 ++ (k, v) :: l2)).
Proof.
  intros Hnd. unfold node_map. apply (nodes_NoDup None _ None) in Hnd. rewrite !nodes_app in *. cbn [nodes] in *.
  rewrite <- list_to_map_update with (a := mk v (head_key l2 None) (last_key None l1)); [|done]. done.
Qed.

Lemma node_map_cons k v h w l : NoDup (k :: h :: l.*1) →
  node_map ((k, v) :: (h, w) :: l) = <[k := mk v (Some h) None]> (<[h := mk w (head_key l None) (Some k)]> (node_map ((h, w) :: l))).
Proof.
  intros Hnd. unfold node_map. cbn [nodes head_key]. rewrite !list_to_map_cons. by rewrite insert_insert_eq.
Qed.

Lemma node_map_single k v : node_map [(k, v)] = {[k := mk v None None]}.
Proof. done. Qed.

(** Deleting: the first node, *)
Lemma node_map_delete_first k v h w l : NoDup (k :: h :: l.*1) →
  node_map ((h, w) :: l) = <[h := mk w (head_key l None) None]> (delete k (node_map ((k, v) :: (h, w) :: l))).
Proof.
  intros Hnd. apply NoDup_cons in Hnd as [Hk Hnd]. unfold node_map. cbn [nodes head_key]. rewrite !list_to_map_cons.
  rewrite delete_insert_id, insert_insert_eq; [done|]. rewrite lookup_insert_ne by (intros ->; apply Hk; by left).
  apply not_elem_of_list_to_map. rewrite nodes_keys. intros Hin. apply Hk. by right.
Qed.

(** the last node, *)
Lemma node_map_delete_last l1 p u k v : NoDup ((l1 ++ [(p, u)]) ++ [(k, v)]).*1 →
  node_map (l1 ++ [(p, u)]) = <[p := mk u None (last_key None l1)]> (delete k (node_map ((l1 ++ [(p, u)]) ++ [(k, v)]))).
Proof.
  intros Hnd. unfold node_map. assert (Hnd' : NoDup (l1 ++ [(p, u)]).*1) by (rewrite fmap_app in Hnd; by apply NoDup_app in Hnd as (? & _)).
  apply (nodes_NoDup None _ None) in Hnd. rewrite (nodes_app None (l1 ++ [(p, u)])) in *. cbn [nodes head_key] in *.
  rewrite <- list_to_map_remove by done. rewrite app_nil_r, !nodes_app. cbn [nodes head_key].
  apply list_to_map_update. apply (nodes_NoDup None _ (Some k)) in Hnd'. by rewrite nodes_app in Hnd'.
Qed.

(** and one between two others *)
Lemma node_map_delete_middle l1 p u k v h w l2 : NoDup ((l1 ++ [(p, u)]) ++ (k, v) :: (h, w) :: l2).*1 →
  node_map ((l1 ++ [(p, u)]) ++ (h, w) :: l2)
  = <[h := mk w (head_key l2 None) (Some p)]> (<[p := mk u (Some h) (last_key None l1)]>
      (delete k (node_map ((l1 ++ [(p, u)]) ++ (k, v) :: (h, w) :: l2)))).
Proof.
  intros Hnd. unfold node_map. assert (Hnd' : NoDup ((l1 ++ [(p, u)]) ++ (h, w) :: l2).*1).
  { eapply sublist_NoDup; [exact Hnd|]. apply fmap_sublist, sublist_app; [done|]. by apply sublist_cons. }
  apply (nodes_NoDup None _ None) in Hnd. rewrite (nodes_app None (l1 ++ [(p, u)])) in Hnd. rewrite !(nodes_app None (l1 ++ [(p, u)])). cbn [nodes head_key] in *.
  rewrite <- list_to_map_remove by done.
  rewrite last_key_snoc, !nodes_app. cbn [nodes head_key]. rewrite <- !(assoc_L (++)). cbn [app].
  rewrite <- (list_to_map_update _ _ p _ (mk u (Some h) (last_key None l1))).
  - rewrite !(cons_middle (p, _)), !(assoc_L (++)). apply list_to_map_update.
    rewrite !fmap_app, fmap_cons. cbn [fst fmap list_fmap app]. rewrite !nodes_keys. rewrite !fmap_app in Hnd'. cbn in Hnd'. done.
  - rewrite !fmap_app, !fmap_cons. cbn [fst]. rewrite !nodes_keys. rewrite !fmap_app, <- (assoc_L (++)) in Hnd'. done.
Qed.
