(* ===== verification/LinkeddbList.v ===== *)
(** * The list in the database

    The operations of [Linkeddb] implement a list of pairs: the invariant between the state, the
    database and the list, what is staged in a batch, [Put], [Delete], reading and iterating. *)

From S2P Require Import Prelude Packer Database Memdb Versiondb Hashmap Cache Bimap Codec CodecWrite CodecRead CodecManager Dbhelpers Cacher Linkeddb.

Open Scope Z_scope.

(** ** The state holds a list *)

Definition list_ok (l : pairs_t) : Prop := NoDup l.*1 ∧ Forall (λ e, small e.1 ∧ small e.2) l.

Lemma nodes_ok l : ∀ p n, Forall (λ e, small e.1 ∧ small e.2) l → small (default [] p) → small (default [] n) →
  Forall (λ e, node_ok e.2) (nodes p l n).
Proof.
  induction l as [|[k v] l IH]; intros p n Hl Hp Hn; [constructor|]. inversion Hl as [|? ? [Hk Hv] Hl']; subst. cbn [nodes fst snd] in *.
  constructor; [|by apply IH]. split; [done|]. split; [|done]. cbn. destruct l as [|[k' v'] l]; [done|]. by inversion Hl' as [|? ? [? _] _].
Qed.

Lemma node_map_ok l k n : list_ok l → node_map l !! k = Some n → node_ok n.
Proof.
  intros [Hnd Hl] E. apply elem_of_list_to_map_2 in E. pose proof (nodes_ok l None None Hl small_nil small_nil) as H.
  rewrite Forall_forall in H. by apply (H (k, n)).
Qed.

Section invariant.
Context (extra_cap : Z → Z → nat) (implements : ty → nat → bool).
Context (map_range : ∀ A : Type, list A → list A) (Hperm : ∀ A (l : list A), map_range A l ≡ₚ l).
Context {D : Database} {L : DatabaseLaws D} {C : Type} {R : Cacher bytes (option node) C} {RL : CacherLaws R}.
Context (range_updated : gmap bytes (option node) → list (bytes * option node)) (range_perm : ∀ u, range_updated u ≡ₚ map_to_list u).
Implicit Types (ldb : linkedDB (D := D) (C := C)) (m : gmap bytes bytes) (l : pairs_t) (U : gmap bytes (option node)) (H : option (option bytes)).

Notation node_bytes := (node_bytes extra_cap implements).
Notation getNode := (getNode extra_cap implements).
Notation putNode := (putNode extra_cap implements map_range).

Definition stores m l : Prop := (∀ k, m !! nodeKey k = node_bytes <$> node_map l !! k) ∧ m !! headKey = head_key l None.

Record inv ldb m l : Prop := {
  in_db : db_ok (ldb_db ldb);
  in_contents : Database.contents (ldb_db ldb) = Some m;
  in_stores : stores m l;
  in_list : list_ok l;
  in_batch : batch_ok (ldb_batch ldb);
  in_ident : batch_ident (ldb_batch ldb) = db_ident (ldb_db ldb);
  in_cache : cache_ok (nodeCache ldb);
  in_cached k on : cached (nodeCache ldb) k on → on = node_map l !! k;
  in_head : headKeyIsSynced ldb = true → head_key l None = if headKeyExists ldb then Some (ldb_headKey ldb) else None;
}.

Section staging.
(** The database, which only changes when the batch is written *)
Context (d : db_t).

Definition evolves (d' : db_t) : Prop := d' = d ∨ ∃ b, batch_ok b ∧ batch_ident b = db_ident d ∧ batch_Write d b = Ok d'.

Definition reached ldb m l : Prop := inv ldb m l ∧ evolves (ldb_db ldb).

(** What is staged in the batch: nodes, and the head *)
Definition head_update ldb : option (option bytes) :=
  if headKeyIsUpdated ldb then Some (if updatedHeadKeyExists ldb then Some (updatedHeadKey ldb) else None) else None.

Definition ops_of ldb : list BatchOp := batch_ops (ldb_batch ldb).

Record work ldb m l U H : Prop := {
  wk_inv : inv ldb m l;
  wk_db : ldb_db ldb = d;
  wk_U : updatedNodes ldb = U;
  wk_H : head_update ldb = H;
  wk_nodes k : apply_ops m (ops_of ldb) !! nodeKey k = match U !! k with Some on => node_bytes <$> on | None => m !! nodeKey k end;
  wk_head : apply_ops m (ops_of ldb) !! headKey = match H with Some h => h | None => m !! headKey end;
}.

Lemma resetBatch_work ldb m l : inv ldb m l → ldb_db ldb = d → work (resetBatch ldb) m l ∅ None.
Proof using.
  intros [? ? ? ? Hb Hi ? ? ?] Hd. destruct (law_batch_Reset (ldb_batch ldb) Hb) as (Hb' & Hi' & Ho). split; [|done|done|done| |].
  - split; try done. cbn. congruence.
  - intros k. unfold ops_of. cbn [resetBatch ldb_batch]. by rewrite Ho, lookup_empty.
  - unfold ops_of. cbn [resetBatch ldb_batch]. by rewrite Ho.
Qed.

(** A state with another cache or synchronized head *)
Definition pending_eq ldb ldb' : Prop :=
  updatedNodes ldb' = updatedNodes ldb ∧ head_update ldb' = head_update ldb ∧ ldb_batch ldb' = ldb_batch ldb ∧ ldb_db ldb' = ldb_db ldb.

Lemma pending_work ldb ldb' m l U H : work ldb m l U H → pending_eq ldb ldb' → inv ldb' m l → work ldb' m l U H.
Proof using. intros [_ Hd HU HH Hn Hh] (E1 & E2 & E3 & E4) Hi. split; [done|congruence|congruence|congruence| |]; unfold ops_of in *; by rewrite E3. Qed.

Definition found {A} (o : option A) : result linked_error A := match o with Some a => Ok a | None => Err (LDb ErrNotFound) end.

Lemma getHeadKey_inv ldb m l : inv ldb m l →
  ∃ ldb', getHeadKey ldb = (found (head_key l None), ldb') ∧ inv ldb' m l ∧ pending_eq ldb ldb'.
Proof using.
  intros Hi. pose proof Hi as [Hdb Hm [Hs1 Hs2] ? ? ? ? ? Hh]. unfold getHeadKey. destruct (headKeyIsSynced ldb) eqn:Es.
  - specialize (Hh eq_refl). exists ldb. split; [|split; [done|by split]]. rewrite Hh. by destruct (headKeyExists ldb).
  - rewrite law_Get, Hm by done. rewrite Hs2. destruct (head_key l None) as [k|] eqn:Ek;
      (eexists; split; [reflexivity|]; split; [|by split]; destruct Hi; split; try done; cbn; intros _; by rewrite Ek).
Qed.

Lemma getNode_inv ldb m l key : inv ldb m l →
  ∃ ldb', getNode ldb key = (found (node_map l !! key), ldb') ∧ inv ldb' m l ∧ pending_eq ldb ldb'.
Proof using Hperm RL.
  intros Hi. pose proof Hi as [Hdb Hm [Hs1 Hs2] Hl ? ? Hc Hcd Hh]. unfold Linkeddb.getNode.
  destruct (law_cache_Get (nodeCache ldb) key Hc) as (Hc1 & Hf & Hcd1). destruct (cache_Get (nodeCache ldb) key) as [fnd c] eqn:Ec. cbn [fst snd] in *.
  assert (Hi1 : inv (set_nodeCache ldb c) m l) by (destruct Hi; split; try done; cbn; intros k on Hk; apply Hcd; by apply Hcd1).
  destruct fnd as [on|].
  - rewrite <- (Hcd key on (Hf on eq_refl)). exists (set_nodeCache ldb c). split; [by destruct on|]. split; [done|by split].
  - cbn [set_nodeCache ldb_db nodeCache]. rewrite law_Get, Hm, Hs1 by done.
    assert (Hput : inv (set_nodeCache (set_nodeCache ldb c) (cache_Put c key (node_map l !! key))) m l).
    { destruct (law_cache_Put c key (node_map l !! key) Hc1) as [Hc2 Hcd2]. destruct Hi1 as [? ? ? ? ? ? ? Hcd' ?]. split; try done. cbn.
      intros k on [[-> ->]|[_ Hk]]%Hcd2; [done|]. by apply Hcd'. }
    destruct (node_map l !! key) as [n|] eqn:En; cbn [fmap option_fmap option_map].
    + destruct (node_codec extra_cap implements map_range Hperm n (node_map_ok _ _ _ Hl En)) as [_ (v & -> & ->)].
      eexists. split; [reflexivity|]. split; [exact Hput|by split].
    + eexists. split; [reflexivity|]. split; [exact Hput|by split].
Qed.

Lemma getHeadKey_work ldb m l U H : work ldb m l U H → ∃ ldb', getHeadKey ldb = (found (head_key l None), ldb') ∧ work ldb' m l U H.
Proof using. intros Hw. destruct (getHeadKey_inv ldb m l (wk_inv _ _ _ _ _ Hw)) as (ldb' & ? & ? & ?). exists ldb'. split; [done|]. by eapply pending_work. Qed.

Lemma getNode_work ldb m l U H key : work ldb m l U H → ∃ ldb', getNode ldb key = (found (node_map l !! key), ldb') ∧ work ldb' m l U H.
Proof using Hperm RL. intros Hw. destruct (getNode_inv ldb m l key (wk_inv _ _ _ _ _ Hw)) as (ldb' & ? & ? & ?). exists ldb'. split; [done|]. by eapply pending_work. Qed.

Lemma apply_ops_put m ops k v : apply_ops m (ops ++ [mkOp k v false]) = <[k := v]> (apply_ops m ops).
Proof using. by rewrite apply_ops_app. Qed.

Lemma apply_ops_delete m ops k : apply_ops m (ops ++ [mkOp k [] true]) = delete k (apply_ops m ops).
Proof using. by rewrite apply_ops_app. Qed.

(** A state with another batch *)
Lemma inv_batch ldb ldb' m l : inv ldb m l → batch_ok (ldb_batch ldb') → batch_ident (ldb_batch ldb') = batch_ident (ldb_batch ldb) →
  ldb_db ldb' = ldb_db ldb → nodeCache ldb' = nodeCache ldb → headKeyIsSynced ldb' = headKeyIsSynced ldb →
  headKeyExists ldb' = headKeyExists ldb → ldb_headKey ldb' = ldb_headKey ldb → inv ldb' m l.
Proof using.
  intros [? ? ? ? ? Hid ? ? ?] Hb Hi E1 E2 E3 E4 E5. split; rewrite ?E1, ?E2, ?E3, ?E4, ?E5; try done. by rewrite Hi.
Qed.

Lemma nodeKey_inj k k' : nodeKey k = nodeKey k' → k = k'.
Proof using. by intros [= ->]. Qed.

Lemma putNode_work ldb m l U H key n : work ldb m l U H → node_ok n →
  ∃ ldb', putNode ldb key n = (Ok tt, ldb') ∧ work ldb' m l (<[key := Some n]> U) H.
Proof using Hperm.
  intros [Hi Hd HU HH Hn Hh] Hok. unfold Linkeddb.putNode. destruct (node_codec extra_cap implements map_range Hperm n Hok) as [-> _].
  eexists. split; [reflexivity|]. destruct (law_batch_Put (ldb_batch ldb) (nodeKey key) (node_bytes n) (in_batch _ _ _ Hi)) as (Hb & Hid & Ho).
  split; [by eapply inv_batch|done|by rewrite <- HU|done| |]; unfold ops_of in *; cbn [set_updatedNodes set_updatedHeadKey ldb_batch updatedNodes]; rewrite Ho, ?apply_ops_put, ?apply_ops_delete.
  - intros k. destruct (decide (k = key)) as [->|Hne]; [by rewrite !lookup_insert_eq|].
    rewrite !lookup_insert_ne by (done || by intros E%nodeKey_inj). apply Hn.
  - by rewrite lookup_insert_ne.
Qed.

Lemma deleteNode_work ldb m l U H key : work ldb m l U H →
  ∃ ldb', deleteNode ldb key = (Ok tt, ldb') ∧ work ldb' m l (<[key := None]> U) H.
Proof using.
  intros [Hi Hd HU HH Hn Hh]. eexists. split; [reflexivity|]. destruct (law_batch_Delete (ldb_batch ldb) (nodeKey key) (in_batch _ _ _ Hi)) as (Hb & Hid & Ho).
  split; [by eapply inv_batch|done|by rewrite <- HU|done| |]; unfold ops_of in *; cbn [set_updatedNodes set_updatedHeadKey ldb_batch updatedNodes]; rewrite Ho, ?apply_ops_put, ?apply_ops_delete.
  - intros k. destruct (decide (k = key)) as [->|Hne]; [by rewrite lookup_delete_eq, lookup_insert_eq|].
    rewrite lookup_delete_ne, lookup_insert_ne by (done || by intros E%nodeKey_inj). apply Hn.
  - by rewrite lookup_delete_ne.
Qed.

Lemma putHeadKey_work ldb m l U H key : work ldb m l U H → ∃ ldb', putHeadKey ldb key = (Ok tt, ldb') ∧ work ldb' m l U (Some (Some key)).
Proof using.
  intros [Hi Hd HU HH Hn Hh]. eexists. split; [reflexivity|]. destruct (law_batch_Put (ldb_batch ldb) headKey key (in_batch _ _ _ Hi)) as (Hb & Hid & Ho).
  split; [by eapply inv_batch|done|done|done| |]; unfold ops_of in *; cbn [set_updatedNodes set_updatedHeadKey ldb_batch updatedNodes]; rewrite Ho, ?apply_ops_put, ?apply_ops_delete.
  - intros k. by rewrite lookup_insert_ne.
  - by rewrite lookup_insert_eq.
Qed.

Lemma deleteHeadKey_work ldb m l U H : work ldb m l U H → ∃ ldb', deleteHeadKey ldb = (Ok tt, ldb') ∧ work ldb' m l U (Some None).
Proof using.
  intros [Hi Hd HU HH Hn Hh]. eexists. split; [reflexivity|]. destruct (law_batch_Delete (ldb_batch ldb) headKey (in_batch _ _ _ Hi)) as (Hb & Hid & Ho).
  split; [by eapply inv_batch|done|done|done| |]; unfold ops_of in *; cbn [set_updatedNodes set_updatedHeadKey ldb_batch updatedNodes]; rewrite Ho, ?apply_ops_put, ?apply_ops_delete.
  - intros k. by rewrite lookup_delete_ne.
  - by rewrite lookup_delete_eq.
Qed.

(** *** Writing the batch *)

Lemma cache_puts es : ∀ c, cache_ok c → let c' := foldl (λ c e, cache_Put c e.1 e.2) c es in
  cache_ok c' ∧ ∀ k on, cached c' k on → (k, on) ∈ es ∨ (k ∉ es.*1 ∧ cached c k on).
Proof using RL.
  induction es as [|[k v] es IH]; intros c Hc; cbn [foldl fst snd].
  - split; [done|]. intros k on Hk. right. split; [apply not_elem_of_nil|done].
  - destruct (law_cache_Put c k v Hc) as [Hc1 Hcd]. destruct (IH _ Hc1) as [Hc2 Hcd2]. split; [done|]. intros k' on Hk.
    destruct (Hcd2 k' on Hk) as [Hin|[Hnin Hk1]]; [left; by right|]. destruct (Hcd k' on Hk1) as [[-> ->]|[Hne Hk2]]; [left; by left|].
    right. split; [|done]. cbn. by apply not_elem_of_cons.
Qed.

Lemma writeBatch_work ldb m l U H l' : work ldb m l U H → list_ok l' →
  (∀ k, node_map l' !! k = match U !! k with Some on => on | None => node_map l !! k end) →
  head_key l' None = match H with Some h => h | None => head_key l None end →
  ∃ ldb' m', writeBatch range_updated ldb = (Ok tt, ldb') ∧ reached ldb' m' l'.
Proof using RL range_perm.
  intros [Hi Hd HU HH Hn Hh] Hl' Hnodes Hhead. destruct Hi as [Hdb Hm [Hs1 Hs2] Hl Hb Hid Hc Hcd Hsync]. unfold writeBatch.
  pose proof (law_Write (ldb_db ldb) (ldb_batch ldb) Hdb Hb Hid) as Hw. rewrite Hm in Hw. destruct Hw as (d' & Hwr & Hd' & Hid' & Hm').
  rewrite Hwr. eexists _, _. split; [reflexivity|].
  assert (Hcaches : let c' := foldl (λ c e, cache_Put c e.1 e.2) (nodeCache ldb) (range_updated U) in
    cache_ok c' ∧ ∀ k on, cached c' k on → on = node_map l' !! k).
  { destruct (cache_puts (range_updated U) (nodeCache ldb) Hc) as [Hc' Hcd']. split; [exact Hc'|]. intros k on Hk. rewrite Hnodes.
    destruct (Hcd' k on Hk) as [Hin|[Hnin Hk']].
    - rewrite range_perm in Hin. apply elem_of_map_to_list in Hin. by rewrite Hin.
    - destruct (U !! k) as [on'|] eqn:E; [|by apply Hcd]. exfalso. apply Hnin. rewrite range_perm. apply list_elem_of_fmap.
      exists (k, on'). split; [done|]. by apply elem_of_map_to_list. }
  assert (Hst : stores (apply_ops m (batch_ops (ldb_batch ldb))) l').
  { split; [intros k; unfold ops_of in Hn; rewrite Hn, Hnodes; by destruct (U !! k)|]. unfold ops_of in Hh. rewrite Hh, Hhead. by destruct H. }
  split; [|right; exists (ldb_batch ldb); rewrite <- Hd; split; [done|]; split; [done|]; cbn; by destruct (headKeyIsUpdated ldb)].
  unfold head_update in HH. cbn [set_db headKeyIsUpdated].
  split; try (cbn; destruct (headKeyIsUpdated ldb); cbn; rewrite ?HU; (done || congruence || apply Hcaches)).
  rewrite Hhead, <- HH. destruct (headKeyIsUpdated ldb); cbn; [done|]. exact Hsync.
Qed.

(** *** [Put] *)

Lemma split_pairs l k : k ∈ l.*1 → ∃ l1 v l2, l = l1 ++ (k, v) :: l2.
Proof using. intros ([k' v] & -> & Hin)%list_elem_of_fmap. apply list_elem_of_split in Hin as (l1 & l2 & ->). by exists l1, v, l2. Qed.

Lemma list_put_existing l1 k v w l2 : NoDup (l1 ++ (k, v) :: l2).*1 → list_put (l1 ++ (k, v) :: l2) k w = l1 ++ (k, w) :: l2.
Proof using.
  intros Hnd. unfold list_put. rewrite decide_True by (rewrite fmap_app; apply elem_of_app; right; by left).
  rewrite fmap_app, fmap_cons in Hnd. rewrite fmap_app, fmap_cons. cbn [fst] in *. apply NoDup_app in Hnd as (_ & H1 & H2). apply NoDup_cons in H2 as [H2 _].
  rewrite decide_True by done.
  assert (Hid : ∀ l, k ∉ l.*1 → (λ e : bytes * bytes, if decide (e.1 = k) then (k, w) else e) <$> l = l).
  { intros l Hl. rewrite <- (list_fmap_id l) at 2. apply list_fmap_ext. intros i e He. rewrite decide_False; [done|].
    intros <-. apply Hl. apply list_elem_of_fmap. exists e. split; [done|]. by apply list_elem_of_lookup_2 in He. }
  rewrite !Hid; [done|done|]. intros Hin. apply (H1 k Hin). by left.
Qed.

Lemma list_ok_put l k v : list_ok l → small k → small v → list_ok (list_put l k v).
Proof using.
  intros [Hnd Hl] Hk Hv. destruct (decide (k ∈ l.*1)) as [Hin|Hnin].
  - destruct (split_pairs l k Hin) as (l1 & w & l2 & ->). rewrite list_put_existing by done. split; [by rewrite fmap_app, fmap_cons in *|].
    apply Forall_app in Hl as [H1 H2]. inversion H2; subst. apply Forall_app. split; [done|]. by constructor.
  - unfold list_put. rewrite decide_False by done. split; [by constructor|]. by constructor.
Qed.

Lemma mk_ok v n p : small v → small (default [] n) → small (default [] p) → node_ok (mk v n p).
Proof using. by split. Qed.

Lemma list_small l1 k v l2 : list_ok (l1 ++ (k, v) :: l2) →
  small k ∧ small v ∧ small (default [] (head_key l2 None)) ∧ small (default [] (last_key None l1)).
Proof using.
  intros [_ Hl]. apply Forall_app in Hl as [H1 H2]. inversion H2 as [|? ? [Hk Hv] H3]; subst. split; [done|]. split; [done|]. split.
  - destruct l2 as [|[k' v'] l2]; [apply small_nil|]. by inversion H3 as [|? ? [? _] _].
  - destruct l1 as [|[p u] l1 _] using rev_ind; [apply small_nil|]. rewrite last_key_snoc. apply Forall_app in H1 as [_ H1]. by inversion H1 as [|? ? [? _] _].
Qed.

(** A key that is not in the list becomes the head. *)
Lemma put_head_spec ldb m l U key v : work ldb m l U None → list_ok ((key, v) :: l) →
  (∀ k, node_map ((key, v) :: l) !! k
    = match (<[key := Some (mk v (head_key l None) None)]> U) !! k with Some on => on | None => node_map l !! k end) →
  ∃ ldb' m', put_head extra_cap implements map_range range_updated ldb key (mk v (head_key l None) None) = (Ok tt, ldb') ∧ reached ldb' m' ((key, v) :: l).
Proof using Hperm RL range_perm.
  intros Hw Hl Hn. destruct (list_small [] key v l Hl) as (_ & Hv & Hh & _). unfold put_head.
  destruct (putNode_work ldb m l U None key (mk v (head_key l None) None) Hw) as (ldb1 & -> & Hw1); [apply mk_ok; [done|done|apply small_nil]|]. cbn [bind].
  destruct (putHeadKey_work ldb1 m l _ _ key Hw1) as (ldb2 & -> & Hw2). cbn [bind]. by eapply writeBatch_work.
Qed.

Lemma Put_spec ldb m l key v : inv ldb m l → ldb_db ldb = d → small key → small v →
  ∃ ldb' m', Put extra_cap implements map_range range_updated ldb key v = (Ok tt, ldb') ∧ reached ldb' m' (list_put l key v).
Proof using Hperm RL range_perm.
  intros Hi Hd Hk Hv. unfold Put. pose proof (resetBatch_work ldb m l Hi Hd) as Hw0. pose proof (in_list _ _ _ Hi) as Hl.
  pose proof (list_ok_put l key v Hl Hk Hv) as Hl'. destruct (getNode_work _ m l _ _ key Hw0) as (ldb1 & -> & Hw1).
  destruct (decide (key ∈ l.*1)) as [Hin|Hnin].
  - destruct (split_pairs l key Hin) as (l1 & w & l2 & ->). destruct Hl as [Hnd Hsm]. rewrite list_put_existing in * by done.
    rewrite node_map_lookup by done. cbn [found mk HasNext Next HasPrevious Previous].
    destruct (list_small l1 key w l2 (conj Hnd Hsm)) as (_ & _ & Hn & Hp).
    destruct (putNode_work ldb1 m _ _ _ key (mk v (head_key l2 None) (last_key None l1)) Hw1) as (ldb2 & E & Hw2); [by apply mk_ok|].
    unfold mk in E. rewrite E. cbn [bind]. eapply writeBatch_work; [exact Hw2|done| |by destruct l1 as [|[]]].
    intros k. rewrite (node_map_value l1 key w v l2) by done. destruct (decide (k = key)) as [->|Hne]; [by rewrite !lookup_insert_eq|].
    by rewrite !lookup_insert_ne, lookup_empty.
  - unfold list_put in *. rewrite decide_False in * by done. rewrite (proj2 (node_map_None l key) Hnin). cbn [found].
    destruct (getHeadKey_work ldb1 m l _ _ Hw1) as (ldb2 & -> & Hw2). destruct l as [|[h w] l].
    + cbn [found head_key]. apply (put_head_spec ldb2 m [] ∅ key v Hw2 Hl'). intros k.
      rewrite node_map_single. destruct (decide (k = key)) as [->|Hne]; [by rewrite lookup_insert_eq, lookup_singleton_eq|].
      by rewrite lookup_insert_ne, lookup_empty, lookup_singleton_ne.
    + cbn [found head_key]. destruct (getNode_work ldb2 m _ _ _ h Hw2) as (ldb3 & -> & Hw3).
      pose proof (node_map_lookup [] h w l (proj1 Hl)) as Hlook. cbn [app last_key] in Hlook. rewrite Hlook.
      cbn [found bind last_key mk Value HasNext Next HasPrevious Previous]. destruct (list_small [] h w l Hl) as (Hh & Hw & Hn & _).
      destruct (putNode_work ldb3 m _ _ _ h (mk w (head_key l None) (Some key)) Hw3) as (ldb4 & E & Hw4); [by apply mk_ok|].
      change (mk w (head_key l None) (Some key)) with (mkNode w (bool_decide (is_Some (head_key l None))) (default [] (head_key l None)) true key) in E.
      rewrite E. cbn [bind]. eapply (put_head_spec ldb4 m _ _ key v Hw4 Hl'). intros k. rewrite node_map_cons by apply Hl'. cbn [head_key].
      destruct (decide (k = key)) as [->|Hne]; [by rewrite !lookup_insert_eq|]. rewrite !(lookup_insert_ne _ key) by done.
      destruct (decide (k = h)) as [->|Hne']; [by rewrite !lookup_insert_eq|]. by rewrite !lookup_insert_ne, lookup_empty.
Qed.

(** *** [Delete] *)

Lemma list_delete_split l1 k v l2 : NoDup (l1 ++ (k, v) :: l2).*1 → list_delete (l1 ++ (k, v) :: l2) k = l1 ++ l2.
Proof using. intros Hnd. apply (om_delete_split l1 k v l2 Hnd). Qed.

Lemma list_delete_absent l k : k ∉ l.*1 → list_delete l k = l.
Proof using. intros Hk. by apply (om_delete_absent l k). Qed.

Lemma list_ok_delete l k : list_ok l → list_ok (list_delete l k).
Proof using.
  intros [Hnd Hl]. split; [by apply (om_delete_wf l k)|]. unfold list_delete.
  apply Forall_forall. intros e [_ He]%list_elem_of_filter. rewrite Forall_forall in Hl. by apply Hl.
Qed.

(** The nodes before and after a node *)
Lemma node_map_before l1 p u k v l2 : NoDup ((l1 ++ [(p, u)]) ++ (k, v) :: l2).*1 →
  node_map ((l1 ++ [(p, u)]) ++ (k, v) :: l2) !! p = Some (mk u (Some k) (last_key None l1)).
Proof using. rewrite <- (assoc_L (++)). intros Hnd. apply (node_map_lookup l1 p u ((k, v) :: l2) Hnd). Qed.

Lemma node_map_after l1 k v h w l2 : NoDup (l1 ++ (k, v) :: (h, w) :: l2).*1 →
  node_map (l1 ++ (k, v) :: (h, w) :: l2) !! h = Some (mk w (head_key l2 None) (Some k)).
Proof using.
  rewrite (cons_middle (k, v)), (assoc_L (++)). intros Hnd.
  pose proof (node_map_lookup (l1 ++ [(k, v)]) h w l2 Hnd) as E. by rewrite last_key_snoc in E.
Qed.

Lemma small_after l1 k v h w l2 : list_ok (l1 ++ (k, v) :: (h, w) :: l2) → small h ∧ small w ∧ small (default [] (head_key l2 None)).
Proof using. rewrite (cons_middle (k, v)), (assoc_L (++)). intros Hl. by destruct (list_small _ _ _ _ Hl) as (? & ? & ? & _). Qed.

Lemma small_before l1 p u k v l2 : list_ok ((l1 ++ [(p, u)]) ++ (k, v) :: l2) → small p ∧ small u ∧ small (default [] (last_key None l1)).
Proof using. rewrite <- (assoc_L (++)). intros Hl. by destruct (list_small _ _ _ _ Hl) as (? & ? & _ & ?). Qed.

(** The head is deleted. *)
Lemma delete_head_spec ldb m key v l : work ldb m ((key, v) :: l) {[key := None]} None → list_ok ((key, v) :: l) →
  ∃ ldb' m',
    (if negb (bool_decide (is_Some (head_key l None))) then bind (deleteHeadKey ldb) (λ _ ldb, writeBatch range_updated ldb)
     else
       bind (putHeadKey ldb (default [] (head_key l None))) (λ _ ldb,
         bind (getNode ldb (default [] (head_key l None))) (λ nextNode ldb,
           let nextNode := mkNode (Value nextNode) (HasNext nextNode) (Next nextNode) false [] in
           bind (putNode ldb (default [] (head_key l None)) nextNode) (λ _ ldb, writeBatch range_updated ldb)))) = (Ok tt, ldb')
    ∧ reached ldb' m' l.
Proof using Hperm RL range_perm.
  intros Hw Hl. destruct l as [|[h w] l]; cbn [head_key].
  - destruct (deleteHeadKey_work ldb m _ _ _ Hw) as (ldb1 & -> & Hw1). cbn. eapply writeBatch_work; [exact Hw1|by repeat constructor| |done].
    intros k. rewrite node_map_single. destruct (decide (k = key)) as [->|Hne]; [by rewrite lookup_singleton_eq|]. by rewrite !lookup_singleton_ne.
  - change (negb (bool_decide (is_Some (Some h)))) with false. cbn iota. change (default [] (Some h)) with h.
    destruct (putHeadKey_work ldb m _ _ _ h Hw) as (ldb1 & -> & Hw1). cbn [bind].
    destruct (getNode_work ldb1 m _ _ _ h Hw1) as (ldb2 & -> & Hw2). 
    pose proof (node_map_after [] key v h w l (proj1 Hl)) as Hlook. cbn [app] in Hlook. rewrite Hlook.
    cbn [found bind mk Value HasNext Next]. destruct (small_after [] key v h w l Hl) as (Hh & Hsw & Hn).
    destruct (putNode_work ldb2 m _ _ _ h (mk w (head_key l None) None) Hw2) as (ldb3 & E & Hw3); [apply mk_ok; [done|done|apply small_nil]|].
    unfold mk in E. cbn [default] in E. cbv zeta. change (bool_decide (is_Some (@None bytes))) with false in E. rewrite E. cbn [bind].
    eapply writeBatch_work; [exact Hw3| | |done].
    + destruct Hl as [Hnd Hsm]. split; [by apply NoDup_cons in Hnd as [_ ?]|by inversion Hsm].
    + intros k. rewrite (node_map_delete_first key v h w l) by apply Hl.
      destruct (decide (k = h)) as [->|Hne]; [by rewrite !lookup_insert_eq|]. rewrite !lookup_insert_ne by done.
      destruct (decide (k = key)) as [->|Hne']; [by rewrite lookup_delete_eq, lookup_singleton_eq|]. by rewrite lookup_delete_ne, lookup_singleton_ne.
Qed.

(** Any other node is deleted. *)
Lemma delete_inner_spec ldb m l1 p u key v l2 : let l := (l1 ++ [(p, u)]) ++ (key, v) :: l2 in
  work ldb m l {[key := None]} None → list_ok l → list_ok ((l1 ++ [(p, u)]) ++ l2) →
  ∃ ldb' m',
    bind (getNode ldb p) (λ previousNode ldb,
      let previousNode := mkNode (Value previousNode) (bool_decide (is_Some (head_key l2 None))) (default [] (head_key l2 None))
                                 (HasPrevious previousNode) (Previous previousNode) in
      bind (putNode ldb p previousNode) (λ _ ldb,
        if bool_decide (is_Some (head_key l2 None)) then
          bind (getNode ldb (default [] (head_key l2 None))) (λ nextNode ldb,
            let nextNode := mkNode (Value nextNode) (HasNext nextNode) (Next nextNode) true p in
            bind (putNode ldb (default [] (head_key l2 None)) nextNode) (λ _ ldb, writeBatch range_updated ldb))
        else writeBatch range_updated ldb)) = (Ok tt, ldb')
    ∧ reached ldb' m' ((l1 ++ [(p, u)]) ++ l2).
Proof using Hperm RL range_perm.
  intros l Hw Hl Hl'. pose proof (proj1 Hl) as Hnd. destruct (small_before l1 p u key v l2 Hl) as (Hp & Hu & Hlast).
  destruct (list_small _ _ _ _ Hl) as (_ & _ & Hn & _).
  destruct (getNode_work ldb m _ _ _ p Hw) as (ldb1 & -> & Hw1). unfold l at 1. rewrite node_map_before by done.
  cbn [found bind mk Value HasPrevious Previous]. cbv zeta.
  destruct (putNode_work ldb1 m _ _ _ p (mk u (head_key l2 None) (last_key None l1)) Hw1) as (ldb2 & E & Hw2); [by apply mk_ok|].
  unfold mk in E. rewrite E. cbn [bind]. assert (Hpk : p ≠ key).
  { intros ->. unfold l in Hnd. rewrite !fmap_app in Hnd. apply NoDup_app in Hnd as (_ & Hd & _). apply (Hd key); [apply elem_of_app; right|]; by left. }
  destruct l2 as [|[h w] l2]; cbn [head_key] in *.
  - change (bool_decide (is_Some (@None bytes))) with false. cbn iota. eapply writeBatch_work; [exact Hw2|done| |].
    + intros k. rewrite app_nil_r, (node_map_delete_last l1 p u key v Hnd). fold l.
      destruct (decide (k = p)) as [->|Hne]; [by rewrite !lookup_insert_eq|]. rewrite !lookup_insert_ne by done.
      destruct (decide (k = key)) as [->|Hne']; [by rewrite lookup_delete_eq, lookup_singleton_eq|]. by rewrite lookup_delete_ne, lookup_singleton_ne.
    + unfold l. by destruct l1 as [|[]].
  - change (bool_decide (is_Some (Some h))) with true. cbn iota. change (default [] (Some h)) with h.
    destruct (getNode_work ldb2 m _ _ _ h Hw2) as (ldb3 & -> & Hw3). unfold l at 1. rewrite node_map_after by done.
    cbn [found bind mk Value HasNext Next]. cbv zeta. destruct (small_after _ key v h w l2 Hl) as (Hh & Hsw & Hn2).
    destruct (putNode_work ldb3 m _ _ _ h (mk w (head_key l2 None) (Some p)) Hw3) as (ldb4 & E' & Hw4); [by apply mk_ok|].
    change (mk w (head_key l2 None) (Some p)) with (mkNode w (bool_decide (is_Some (head_key l2 None))) (default [] (head_key l2 None)) true p) in E'.
    rewrite E'. cbn [bind]. eapply writeBatch_work; [exact Hw4|done| |].
    + intros k. rewrite (node_map_delete_middle l1 p u key v h w l2 Hnd). fold l.
      destruct (decide (k = h)) as [->|Hne]; [by rewrite !lookup_insert_eq|]. rewrite !(lookup_insert_ne _ h) by done.
      destruct (decide (k = p)) as [->|Hne2]; [by rewrite !lookup_insert_eq|]. rewrite !(lookup_insert_ne _ p) by done.
      destruct (decide (k = key)) as [->|Hne']; [by rewrite lookup_delete_eq, lookup_singleton_eq|]. by rewrite lookup_delete_ne, lookup_singleton_ne.
    + unfold l. by destruct l1 as [|[]].
Qed.

Lemma Delete_spec ldb m l key : inv ldb m l → ldb_db ldb = d →
  ∃ ldb' m', Delete extra_cap implements map_range range_updated ldb key = (Ok tt, ldb') ∧ reached ldb' m' (list_delete l key).
Proof using Hperm RL range_perm.
  intros Hi Hd. pose proof (in_list _ _ _ Hi) as Hl. pose proof (list_ok_delete l key Hl) as Hl'. unfold Delete.
  destruct (getNode_inv ldb m l key Hi) as (ldb1 & -> & Hi1 & _ & _ & _ & Hd1). rewrite Hd in Hd1. destruct (decide (key ∈ l.*1)) as [Hin|Hnin].
  - destruct (split_pairs l key Hin) as (l1 & v & l2 & ->). rewrite (list_delete_split _ _ _ _ (proj1 Hl)) in *.
    rewrite node_map_lookup by apply Hl. cbn [found]. pose proof (resetBatch_work ldb1 m _ Hi1 Hd1) as Hw0.
    destruct (deleteNode_work _ m _ _ _ key Hw0) as (ldb2 & -> & Hw2). cbn [bind mk HasPrevious Previous HasNext Next].
    destruct l1 as [|[p u] l1 _] using rev_ind.
    + change (bool_decide (is_Some (last_key None []))) with false. cbn iota. by apply (delete_head_spec ldb2 m key v l2).
    + rewrite last_key_snoc. change (bool_decide (is_Some (Some p))) with true. cbn iota. change (default [] (Some p)) with p.
      by apply (delete_inner_spec ldb2 m l1 p u key v l2).
  - rewrite (proj2 (node_map_None l key) Hnin). cbn [found]. exists ldb1, m. split; [done|]. rewrite list_delete_absent by done. split; [done|by left].
Qed.

End staging.

(** *** Reading *)

(** An iterator, run until it has no next pair *)
Fixpoint collect (fuel : nat) ldb (it : iterator) : list (bytes * bytes) * iterator :=
  match fuel with
  | O => ([], it)
  | S fuel =>
      match iterator_Next extra_cap implements ldb it with
      | (true, it, ldb) => let '(l, it') := collect fuel ldb it in ((key it, value it) :: l, it')
      | (false, it, ldb) => ([], it)
      end
  end.

Fixpoint from_key (start : bytes) (l : pairs_t) : pairs_t :=
  match l with [] => [] | (k, v) :: l => if decide (k = start) then (k, v) :: l else from_key start l end.

(** Everything that can be read is what the list says. *)
Record reads ldb l : Prop := {
  rd_Get k : (Get extra_cap implements ldb k).1 = found (om_get l k);
  rd_Has k : Has ldb k = Ok (bool_decide (k ∈ l.*1));
  rd_HeadKey : (HeadKey ldb).1 = found (head_key l None);
  rd_IsEmpty : (IsEmpty ldb).1 = Ok (bool_decide (l = []));
  rd_Head : (Head extra_cap implements ldb).1 = found (hd_error l);
  rd_iterator : ∃ it, collect (length l + 1) ldb NewIterator = (l, it) ∧ err it = None;
  rd_iterator_start start : ∃ it,
    collect (length l + 1) ldb (NewIteratorWithStart ldb start) = (if decide (start ∈ l.*1) then from_key start l else l, it) ∧ err it = None;
}.

Lemma node_map_value_of l k : NoDup l.*1 → Value <$> node_map l !! k = om_get l k.
Proof using.
  intros Hnd. destruct (decide (k ∈ l.*1)) as [Hin|Hnin].
  - destruct (split_pairs l k Hin) as (l1 & v & l2 & ->). rewrite node_map_lookup by done. cbn. symmetry. apply om_get_Some; [done|].
    apply elem_of_app. right. by left.
  - rewrite (proj2 (node_map_None l k) Hnin). symmetry. by apply om_get_None.
Qed.

(** An iterator that has [r] of the list [l] still to visit *)
Inductive it_at l : iterator → pairs_t → Prop :=
| at_end it : exhausted it = true → err it = None → it_at l it []
| at_key l1 k v r it : l = l1 ++ (k, v) :: r → initialized it = true → exhausted it = false → nextKey it = k → err it = None →
    it_at l it ((k, v) :: r)
| at_new it : initialized it = false → exhausted it = false → err it = None → it_at l it l.

Lemma Next_node_at ldb m l1 k v r it : let l := l1 ++ (k, v) :: r in inv ldb m l →
  initialized it = true → nextKey it = k → err it = None →
  ∃ it' ldb', Next_node extra_cap implements ldb it = (true, it', ldb') ∧ key it' = k ∧ value it' = v ∧ inv ldb' m l ∧ it_at l it' r.
Proof using Hperm RL.
  intros l Hi Hin <- He. unfold Next_node. destruct (getNode_inv ldb m l (nextKey it) Hi) as (ldb' & -> & Hi' & _).
  unfold l at 1. rewrite node_map_lookup by apply Hi. eexists _, ldb'. split; [reflexivity|]. split; [done|]. split; [done|]. split; [done|].
  destruct r as [|[k' v'] r]; [by apply at_end|]. apply (at_key _ (l1 ++ [(nextKey it, v)])); try done. unfold l. by rewrite <- (assoc_L (++)).
Qed.

Lemma iterator_Next_at ldb m l it r : inv ldb m l → it_at l it r →
  match r with
  | [] => ∃ it' ldb', iterator_Next extra_cap implements ldb it = (false, it', ldb') ∧ err it' = None
  | (k, v) :: r' => ∃ it' ldb', iterator_Next extra_cap implements ldb it = (true, it', ldb') ∧ key it' = k ∧ value it' = v
      ∧ inv ldb' m l ∧ it_at l it' r'
  end.
Proof using Hperm RL.
  intros Hi [it0 H1 H2|l1 k v r0 it0 -> H1 H2 H3 H4|it0 H1 H2 H3]; unfold iterator_Next.
  - rewrite H1. by eexists _, _.
  - rewrite H2, H1. by apply (Next_node_at ldb m l1 k v r0).
  - rewrite H2, H1. destruct (getHeadKey_inv ldb m l Hi) as (ldb1 & -> & Hi1 & _). destruct l as [|[k v] l]; cbn [head_key found].
    + by eexists _, _.
    + by apply (Next_node_at ldb1 m [] k v l).
Qed.

Lemma collect_at r : ∀ ldb m l it fuel, inv ldb m l → it_at l it r → (length r < fuel)%nat → ∃ it', collect fuel ldb it = (r, it') ∧ err it' = None.
Proof using Hperm RL.
  induction r as [|[k v] r IH]; intros ldb m l it fuel Hi Hat Hf; (destruct fuel as [|fuel]; [cbn in Hf; lia|]); cbn [collect];
    pose proof (iterator_Next_at ldb m l it _ Hi Hat) as H.
  - destruct H as (it' & ldb' & -> & ?). by exists it'.
  - destruct H as (it1 & ldb1 & -> & <- & <- & Hi1 & Hat1). destruct (IH ldb1 m l it1 fuel Hi1 Hat1) as (it' & -> & ?); [cbn in Hf; lia|].
    by exists it'.
Qed.

Lemma from_key_split l1 k v l2 : NoDup (l1 ++ (k, v) :: l2).*1 → from_key k (l1 ++ (k, v) :: l2) = (k, v) :: l2.
Proof using.
  induction l1 as [|[k' v'] l1 IH]; intros Hnd; cbn; [by rewrite decide_True|]. cbn in Hnd. apply NoDup_cons in Hnd as [Hk Hnd].
  rewrite decide_False; [by apply IH|]. intros ->. apply Hk. rewrite fmap_app. apply elem_of_app. right. by left.
Qed.

Lemma Has_inv ldb m l k : inv ldb m l → Has ldb k = Ok (bool_decide (k ∈ l.*1)).
Proof using.
  intros [Hdb Hm [Hs _] _ _ _ _ _ _]. unfold Has. rewrite law_Has, Hm by done. f_equal. apply bool_decide_ext. rewrite Hs, fmap_is_Some.
  destruct (decide (k ∈ l.*1)) as [Hin|Hnin].
  - split; [done|]. intros _. apply not_eq_None_Some. intros E. by apply node_map_None in E.
  - rewrite (proj2 (node_map_None l k) Hnin). split; [by intros [? [=]]|done].
Qed.

Lemma start_at ldb m l start : inv ldb m l →
  it_at l (NewIteratorWithStart ldb start) (if decide (start ∈ l.*1) then from_key start l else l).
Proof using.
  intros Hi. unfold NewIteratorWithStart. rewrite (Has_inv ldb m l) by done. case_decide as Hin.
  - rewrite bool_decide_true by done. destruct (split_pairs l start Hin) as (l1 & v & l2 & ->). rewrite from_key_split by apply Hi.
    by apply (at_key _ l1).
  - rewrite bool_decide_false by done. by apply at_new.
Qed.

Lemma length_from_key start l : (length (from_key start l) ≤ length l)%nat.
Proof using. induction l as [|[k v] l IH]; cbn; [lia|]. case_decide; cbn; lia. Qed.

Lemma inv_reads ldb m l : inv ldb m l → reads ldb l.
Proof using Hperm RL.
  intros Hi. pose proof (proj1 (in_list _ _ _ Hi)) as Hnd. split.
  - intros k. unfold Get. destruct (getNode_inv ldb m l k Hi) as (ldb' & -> & _). rewrite <- node_map_value_of by done. by destruct (node_map l !! k).
  - intros k. by eapply Has_inv.
  - unfold HeadKey. by destruct (getHeadKey_inv ldb m l Hi) as (ldb' & -> & _).
  - unfold IsEmpty, HeadKey. destruct (getHeadKey_inv ldb m l Hi) as (ldb' & -> & _). by destruct l as [|[]].
  - unfold Head. destruct (getHeadKey_inv ldb m l Hi) as (ldb' & -> & Hi' & _). destruct l as [|[k v] l]; [done|]. cbn [head_key found bind hd_error].
    destruct (getNode_inv ldb' m _ k Hi') as (ldb2 & -> & _). pose proof (node_map_lookup [] k v l Hnd) as E. cbn [app] in E. by rewrite E.
  - apply (collect_at l ldb m l); [done|by apply at_new|lia].
  - intros start. pose proof (start_at ldb m l start Hi) as Hat. eapply (collect_at _ ldb m l); [done|exact Hat|].
    case_decide; [|lia]. pose proof (length_from_key start l). lia.
Qed.

(** *** Runs *)

Inductive ldb_op := LPut (key value : bytes) | LDelete (key : bytes).

Definition ldb_apply ldb (o : ldb_op) : returns unit :=
  match o with
  | LPut k v => Put extra_cap implements map_range range_updated ldb k v
  | LDelete k => Delete extra_cap implements map_range range_updated ldb k
  end.

Definition list_apply l (o : ldb_op) : pairs_t := match o with LPut k v => list_put l k v | LDelete k => list_delete l k end.

Definition op_small (o : ldb_op) : Prop := match o with LPut k v => small k ∧ small v | LDelete _ => True end.

Fixpoint ldb_run ldb (ops : list ldb_op) : returns unit :=
  match ops with [] => (Ok tt, ldb) | o :: ops => bind (ldb_apply ldb o) (λ _ ldb, ldb_run ldb ops) end.

Lemma run_inv ops : ∀ ldb m l, inv ldb m l → Forall op_small ops →
  ∃ ldb' m', ldb_run ldb ops = (Ok tt, ldb') ∧ inv ldb' m' (foldl list_apply l ops).
Proof using Hperm RL range_perm.
  induction ops as [|o ops IH]; intros ldb m l Hi Hs; cbn [ldb_run foldl]; [by exists ldb, m|]. inversion Hs as [|? ? Ho Hs']; subst.
  assert (Hstep : ∃ ldb1 m1, ldb_apply ldb o = (Ok tt, ldb1) ∧ inv ldb1 m1 (list_apply l o)).
  { destruct o as [k v|k].
    - destruct Ho. destruct (Put_spec (ldb_db ldb) ldb m l k v) as (ldb1 & m1 & ? & ? & _); [done..|]. by exists ldb1, m1.
    - destruct (Delete_spec (ldb_db ldb) ldb m l k) as (ldb1 & m1 & ? & ? & _); [done..|]. by exists ldb1, m1. }
  destruct Hstep as (ldb1 & m1 & -> & Hi1). by apply (IH ldb1 m1).
Qed.

Lemma New_inv d m l (c : C) : db_ok d → Database.contents d = Some m → stores m l → list_ok l → cache_ok c → (∀ k on, ¬ cached c k on) →
  inv (New d c) m l.
Proof using.
  intros Hd Hm Hs Hl Hc Hcd. destruct (law_NewBatch d Hd) as (Hb & Hi & _). split; try done. intros k on Hk. by destruct (Hcd k on).
Qed.

(** C15. A list of pairs in a database: after any sequence of [Put] and [Delete] on an empty
    database, each of which succeeds, every way of reading gives the pairs in the order of the
    list, where a new key comes first and a known key keeps its place: [Get], [Has], the head
    and the iterators, whatever the cache evicted, and also after a restart, when nothing is
    cached. *)
Theorem linkeddb_refines d (c : C) ops : db_ok d → Database.contents d = Some ∅ → cache_ok c → (∀ k on, ¬ cached c k on) → Forall op_small ops →
  ∃ ldb', ldb_run (New d c) ops = (Ok tt, ldb')
    ∧ reads ldb' (foldl list_apply [] ops) ∧ reads (New (ldb_db ldb') c) (foldl list_apply [] ops).
Proof using Hperm RL range_perm.
  intros Hd Hm Hc Hcd Hs. assert (Hi : inv (New d c) ∅ []) by (apply New_inv; try done; by repeat constructor).
  destruct (run_inv ops _ _ _ Hi Hs) as (ldb' & m' & E & Hi'). exists ldb'. split; [done|]. split; [by eapply inv_reads|].
  apply (inv_reads _ m'). destruct Hi'. by apply New_inv.
Qed.
End invariant.

(** ** Example *)

Definition ex_cache : LRU.LRU (K := bytes) (V := option node) := LRU.mkLRU None 2.
Definition ex_list_ops : list ldb_op := [LPut [1] [10]; LPut [2] [20]; LPut [3] [30]; LPut [2] [21]; LDelete [3]; LDelete [1]; LPut [] [40]].

Definition ex_nodes (u : gmap bytes (option node)) : list (bytes * option node) := map_to_list u.

Lemma linkeddb_refines_witness : ∃ ldb',
  ldb_run ex_cap ex_implements ex_range (D := memdb_database sample_range) ex_nodes (New (D := memdb_database sample_range) (mkMemdb (Some ∅)) ex_cache) ex_list_ops
  = (Ok tt, ldb')
  ∧ (Get ex_cap ex_implements ldb' [2]).1 = Ok [21]
  ∧ ∃ it, collect ex_cap ex_implements 3 ldb' NewIterator = ([([], [40]); ([2], [21])], it).
Proof.
  destruct (linkeddb_refines ex_cap ex_implements ex_range ex_perm (D := memdb_database sample_range)
    (L := memdb_laws sample_range (λ _ _, reflexivity _)) ex_nodes (λ _, reflexivity _) (mkMemdb (Some ∅)) ex_cache ex_list_ops)
    as (ldb' & E & [H1 _ _ _ _ (it & H2 & _) _] & _).
  - exact I.
  - reflexivity.
  - constructor.
  - intros k on H. by apply elem_of_nil in H.
  - repeat constructor; cbn; lia.
  - exists ldb'. split; [exact E|]. split; [exact (H1 [2])|]. exists it. exact H2.
Defined.
