(* ===== verification/Atomic.v ===== *)
(** * Shared memory of two chains

    [chains/atomic/state.go] with [prefixes.go], [codec.go] and the name of the memory of two chains
    ([sharedID] of [memory.go]): the elements that one chain sends
    to another, found by their key and by their traits.  An element that is removed before it
    was added leaves a marker, which the addition cancels.

    The two databases of a state are prefix databases in one database, which the state holds:
    [valueDB] and [indexDB] are views of it, and so are the linked lists of the traits.  The
    hash function is a parameter; that the prefixes in use do not collide is a hypothesis of the
    theorems. *)

From S2P Require Import Prelude Packer Database Memdb Versiondb Prefixdb Hashmap Cache Bimap Codec CodecWrite CodecRead CodecManager Dbhelpers Cacher Linkeddb LinkeddbList.

Open Scope Z_scope.

(** ** Elements and their codec *)

Record dbElement := mkElem { Present : bool; el_Value : bytes; el_Traits : list bytes }.
Record Element := mkElement { e_Key : bytes; e_Value : bytes; e_Traits : list bytes }.

Definition dbElement_ty : ty := TStruct 1 [(serialize, TBool); (serialize, bytes_ty); (serialize, TSlice bytes_ty)].

(** An element as a value of the codec, and back *)
Definition elem_val (e : dbElement) : val :=
  VStruct [VBool (Present e); bytes_val (el_Value e); VSeq (bytes_val <$> el_Traits e)].
Definition val_elem (v : val) : dbElement :=
  match v with
  | VStruct [VBool p; v; VSeq ts] => mkElem p (val_bytes v) (val_bytes <$> ts)
  | _ => mkElem false [] []
  end.

Definition MaxInt : Z := 2 ^ 63 - 1.

Inductive atomic_error := ADb (e : db_error) | ACodec (e : codec_error) | errDuplicatePut | errDuplicateRemove.

Definition of_linked (e : linked_error) : atomic_error := match e with LDb e => ADb e | LCodec e => ACodec e end.

(** ** [prefixes.go] *)

Record prefixes := mkPrefixes {
  smallerValuePrefix : bytes;
  smallerIndexPrefix : bytes;
  largerValuePrefix : bytes;
  largerIndexPrefix : bytes;
}.

Definition inboundSmallerValuePrefix : bytes := [0].
Definition inboundSmallerIndexPrefix : bytes := [1].
Definition inboundLargerValuePrefix : bytes := [2].
Definition inboundLargerIndexPrefix : bytes := [3].

Definition inbound : prefixes :=
  mkPrefixes inboundSmallerValuePrefix inboundSmallerIndexPrefix inboundLargerValuePrefix inboundLargerIndexPrefix.
Definition outbound : prefixes :=
  mkPrefixes inboundLargerValuePrefix inboundLargerIndexPrefix inboundSmallerValuePrefix inboundSmallerIndexPrefix.

Section atomic.
Context (extra_cap : Z → Z → nat) (implements : ty → nat → bool) (map_range : ∀ A : Type, list A → list A).
Context {D : Database} (ComputeHash256 : bytes → bytes).
Context (range_updated : gmap bytes (option node) → list (bytes * option node)).

Definition atomic_Codec : result codec_error CodecManager.manager :=
  RegisterCodec (CodecManager.NewManager MaxInt) CodecVersion (lc extra_cap implements).
Definition atomic_codec : CodecManager.manager :=
  match atomic_Codec with Ok m => m | Err _ => CodecManager.NewManager MaxInt end.

(** ** The state *)

Record state := mkState { valuePrefix : bytes; indexPrefix : bytes; shared : db_t }.

Definition valueDB (s : state) : prefixdb := newDB (valuePrefix s) (shared s).
Definition indexDB (s : state) : prefixdb := newDB (indexPrefix s) (shared s).
Definition set_shared (s : state) (d : db_t) : state := mkState (valuePrefix s) (indexPrefix s) d.

(** [getValueAndIndexDB] on a prefix database *)
Definition getValueAndIndexDB (p : prefixes) (myChainID peerChainID : bytes) (db : prefixdb) : state :=
  let '(v, i) := if bytes_lt myChainID peerChainID then (smallerValuePrefix p, smallerIndexPrefix p)
                 else (largerValuePrefix p, largerIndexPrefix p) in
  mkState (JoinPrefixes ComputeHash256 (dbPrefix db) v) (JoinPrefixes ComputeHash256 (dbPrefix db) i) (p_db db).

(** [sharedID] of [memory.go], which panics when the codec fails *)
Definition id_ty : ty := TArray 32 (TNum false W8).
Definition sharedID (id1 id2 : bytes) : option bytes :=
  let '(id1, id2) := if bytes_lt id2 id1 then (id2, id1) else (id1, id2) in
  match Marshal extra_cap map_range atomic_codec CodecVersion (VSeq [bytes_val id1; bytes_val id2]) (TArray 2 id_ty) with
  | Ok combinedBytes => Some (ComputeHash256 combinedBytes)
  | Err _ => None
  end.

Definition loadValue (s : state) (key : bytes) : result atomic_error dbElement :=
  match p_Get (valueDB s) key with
  | Err err => Err (ADb err)
  | Ok valueBytes =>
      match Unmarshal atomic_codec valueBytes dbElement_ty (zero dbElement_ty) with
      | Err err => Err (ACodec err)
      | Ok (_, v) => Ok (val_elem v)
      end
  end.

Definition Value (s : state) (key : bytes) : result atomic_error Element :=
  match loadValue s key with
  | Err err => Err err
  | Ok value =>
      if negb (Present value) then Err (ADb ErrNotFound)
      else Ok (mkElement key (el_Value value) (el_Traits value))
  end.

(** [s.valueDB.Put] and [s.valueDB.Delete] *)
Definition put_value (s : state) (key valueBytes : bytes) : result atomic_error unit * state :=
  match p_Put (valueDB s) key valueBytes with
  | Err err => (Err (ADb err), s)
  | Ok d => (Ok tt, set_shared s (p_db d))
  end.
Definition delete_value (s : state) (key : bytes) : result atomic_error unit * state :=
  match p_Delete (valueDB s) key with
  | Err err => (Err (ADb err), s)
  | Ok d => (Ok tt, set_shared s (p_db d))
  end.

Definition marshal_value (s : state) (key : bytes) (e : dbElement) : result atomic_error unit * state :=
  match Marshal extra_cap map_range atomic_codec CodecVersion (VPtr (elem_val e)) (TPtr dbElement_ty) with
  | Err err => (Err (ACodec err), s)
  | Ok valueBytes => put_value s key valueBytes
  end.

(** The lists of the traits have the default cache. *)
Definition trait_list : Type := linkedDB (D := prefixdb_database) (C := LRU.LRU (K := bytes) (V := option node)).

Definition traitList (s : state) (trait : bytes) : trait_list :=
  NewDefault (D := prefixdb_database) (New_on_prefixdb ComputeHash256 trait (indexDB s)).

(** After an operation on a list, the database that it is in *)
Definition on_list {A} (s : state) (r : result linked_error A * trait_list) : result atomic_error A * state :=
  let '(res, l) := r in
  (match res with Ok a => Ok a | Err e => Err (of_linked e) end, set_shared s (p_db (ldb_db l))).

Fixpoint put_traits (s : state) (key : bytes) (traits : list bytes) : result atomic_error unit * state :=
  match traits with
  | [] => (Ok tt, s)
  | trait :: traits =>
      match on_list s (Put extra_cap implements map_range range_updated (traitList s trait) key []) with
      | (Err err, s) => (Err err, s)
      | (Ok _, s) => put_traits s key traits
      end
  end.

Fixpoint delete_traits (s : state) (key : bytes) (traits : list bytes) : result atomic_error unit * state :=
  match traits with
  | [] => (Ok tt, s)
  | trait :: traits =>
      match on_list s (Delete extra_cap implements map_range range_updated (traitList s trait) key) with
      | (Err err, s) => (Err err, s)
      | (Ok _, s) => delete_traits s key traits
      end
  end.

Definition SetValue (s : state) (e : Element) : result atomic_error unit * state :=
  match loadValue s (e_Key e) with
  | Ok value => if negb (Present value) then delete_value s (e_Key e) else (Err errDuplicatePut, s)
  | Err (ADb ErrNotFound) =>
      match put_traits s (e_Key e) (e_Traits e) with
      | (Err err, s) => (Err err, s)
      | (Ok _, s) => marshal_value s (e_Key e) (mkElem true (e_Value e) (e_Traits e))
      end
  | Err err => (Err err, s)
  end.

Definition RemoveValue (s : state) (key : bytes) : result atomic_error unit * state :=
  match loadValue s key with
  | Err (ADb ErrNotFound) => marshal_value s key (mkElem false [] [])
  | Err err => (Err err, s)
  | Ok value =>
      if negb (Present value) then (Err errDuplicateRemove, s)
      else
        match delete_traits s key (el_Traits value) with
        | (Err err, s) => (Err err, s)
        | (Ok _, s) => delete_value s key
        end
  end.

(** ** [getKeys] *)

Record page := mkPage { keys : list bytes; keySet : gset bytes; limit : Z }.

(** The loop of [appendTraitKeys], with the last key; it ends when the fuel is more than the
    number of keys of the list. *)
Fixpoint append_loop (fuel : nat) (l : trait_list) (iter : iterator) (p : page) (lastKey : bytes)
    : option (page * bytes * option linked_error) :=
  match fuel with
  | O => None
  | S fuel =>
      let '(more, iter, l) := iterator_Next extra_cap implements l iter in
      if more && (0 <? limit p) then
        let key := Linkeddb.key iter in
        let lastKey := key in
        let id := ComputeHash256 key in
        if bool_decide (id ∈ keySet p) then append_loop fuel l iter p lastKey
        else append_loop fuel l iter (mkPage (keys p ++ [key]) ({[id]} ∪ keySet p) (limit p - 1)) lastKey
      else Some (p, lastKey, Linkeddb.err iter)
  end.

Definition appendTraitKeys (fuel : nat) (s : state) (p : page) (trait startKey : bytes) : option (page * bytes * option linked_error) :=
  let l := traitList s trait in
  append_loop fuel l (NewIteratorWithStart l startKey) p startKey.

Definition keys_result : Type := result atomic_error (list bytes * bytes * bytes).

Fixpoint keys_loop (fuel : nat) (s : state) (startTrait : bytes) (traits : list bytes) (p : page) (startKey lastTrait lastKey : bytes) : option keys_result :=
  match traits with
  | [] => Some (Ok (keys p, lastTrait, lastKey))
  | trait :: traits =>
      if bytes_lt trait startTrait then keys_loop fuel s startTrait traits p startKey lastTrait lastKey
      else
        let startKey := if bytes_lt startTrait trait then [] else startKey in
        let lastTrait := trait in
        match appendTraitKeys fuel s p trait startKey with
        | None => None
        | Some (_, _, Some err) => Some (Err (of_linked err))
        | Some (p, lastKey, None) =>
            if limit p =? 0 then Some (Ok (keys p, lastTrait, lastKey))
            else keys_loop fuel s startTrait traits p startKey lastTrait lastKey
        end
  end.

Definition getKeys (fuel : nat) (s : state) (traits : list bytes) (startTrait startKey : bytes) (limit : Z) : option keys_result :=
  keys_loop fuel s startTrait (SortFunc bytes_lt traits) (mkPage [] ∅ limit) startKey startTrait startKey.
End atomic.

(** ** Both chains use the same memory *)

(** What one chain writes to the other is what the other one reads, in the memory that has the
    same name for both. *)
Theorem both_ends_agree extra_cap implements map_range {D : Database} ComputeHash256 (a b : bytes) (db : prefixdb (D := D)) : a ≠ b →
  getValueAndIndexDB ComputeHash256 outbound a b db = getValueAndIndexDB ComputeHash256 inbound b a db
  ∧ sharedID extra_cap implements map_range ComputeHash256 a b = sharedID extra_cap implements map_range ComputeHash256 b a.
Proof.
  intros Hne. unfold getValueAndIndexDB, sharedID. destruct (bytes_lt_total a b) as [H|[H|H]]; [|done|];
    rewrite H, (bytes_lt_asym _ _ H); done.
Qed.

(** ** The encoding of elements *)

Definition elem_ok (e : dbElement) : Prop := small (el_Value e) ∧ Forall small (el_Traits e) ∧ Z.of_nat (length (el_Traits e)) ≤ 2 ^ 29.

Lemma val_elem_val e : elem_ok e → val_elem (elem_val e) = e.
Proof.
  intros ((Hv & _) & Ht & _). destruct e as [p v ts]. cbn [elem_val val_elem Present el_Value el_Traits] in *. rewrite val_bytes_val by done. f_equal.
  rewrite <- list_fmap_compose. rewrite <- (list_fmap_id ts) at 2. apply list_fmap_ext. intros i t Hi. cbn.
  apply val_bytes_val. eapply Forall_lookup in Hi; [|exact Ht]. apply Hi.
Qed.

Section codec.
Context (extra_cap : Z → Z → nat) (implements : ty → nat → bool).
Context (map_range : ∀ A : Type, list A → list A) (Hperm : ∀ A (l : list A), map_range A l ≡ₚ l).

Notation codec := (atomic_codec extra_cap implements).
Notation enc := (enc extra_cap implements).
Notation has_type := (has_type extra_cap implements (lc extra_cap implements) (lc_ok extra_cap implements)).

Lemma traits_elems ts : Forall small ts → ∃ es, all_some ((λ v, enc v bytes_ty) <$> (bytes_val <$> ts)) = Some es
  ∧ existsb is_nil es = false ∧ Z.of_nat (length (concat es)) ≤ Z.of_nat (length ts) * (4 + 2 ^ 29).
Proof using.
  induction 1 as [|t ts [_ Ht] _ (es & E & Hn & Hl)]; [by exists []|]. cbn [fmap list_fmap all_some].
  destruct (slice_encoding extra_cap implements t Ht) as (e & -> & He). cbn [fmap list_fmap] in E. rewrite E. exists (e :: es). split; [done|].
  cbn [existsb concat length]. rewrite Hn, length_app. split; [|lia]. destruct e; [cbn in He; lia|done].
Qed.

Definition elem_bytes (e : dbElement) : bytes := be_bytes 2 CodecVersion ++ default [] (enc (elem_val e) dbElement_ty).

Lemma elem_encoding e : elem_ok e → ∃ b, enc (elem_val e) dbElement_ty = Some b ∧ Z.of_nat (length b) ≤ MaxInt - 2.
Proof using.
  intros ((_ & Hv) & Ht & Hn). destruct (slice_encoding extra_cap implements _ Hv) as (e1 & E1 & L1).
  destruct (traits_elems _ Ht) as (es & Es & Hnil & Hl).
  change (enc (elem_val e) dbElement_ty) with
    (es ← all_some [enc (VBool (Present e)) TBool; enc (bytes_val (el_Value e)) bytes_ty; enc (VSeq (bytes_val <$> el_Traits e)) (TSlice bytes_ty)];
     Some (concat es)).
  assert (E2 : enc (VSeq (bytes_val <$> el_Traits e)) (TSlice bytes_ty) = Some (be_len (bytes_val <$> el_Traits e) ++ concat es)).
  { change (enc (VSeq (bytes_val <$> el_Traits e)) (TSlice bytes_ty)) with
      (if MaxInt32 <? Z.of_nat (length (bytes_val <$> el_Traits e)) then None
       else es ← all_some ((λ v, enc v bytes_ty) <$> (bytes_val <$> el_Traits e));
            if existsb is_nil es then None else Some (be_len (bytes_val <$> el_Traits e) ++ concat es)).
    rewrite length_fmap, Es. cbn [mbind option_bind]. rewrite Hnil.
    destruct (Z.ltb_spec MaxInt32 (Z.of_nat (length (el_Traits e)))) as [H|]; [unfold MaxInt32 in H; lia|done]. }
  rewrite E1, E2. eexists. split; [reflexivity|]. cbn [concat]. rewrite !length_app. unfold be_len. rewrite length_be_bytes. cbn [length].
  unfold MaxInt. nia.
Qed.

Lemma elem_typed e : elem_ok e → has_type (elem_val e) dbElement_ty.
Proof using.
  intros ((Hv & _) & Ht & _). split; [done|]. split; [by apply bytes_typed|]. split; [|done]. apply typed_slice, Forall_fmap.
  eapply Forall_impl; [exact Ht|]. intros t [Hb _]. by apply (bytes_typed extra_cap implements t).
Qed.

Lemma elem_filled e :
  fill (captured (c_tags (lc extra_cap implements))) (elem_val e) dbElement_ty (zero dbElement_ty) = elem_val e.
Proof using.
  change (fill _ (elem_val e) dbElement_ty (zero dbElement_ty)) with
    (VStruct [VBool (Present e); fill (captured (c_tags (lc extra_cap implements))) (bytes_val (el_Value e)) bytes_ty (zero bytes_ty);
      VSeq ((λ v, fill (captured (c_tags (lc extra_cap implements))) v bytes_ty (zero bytes_ty)) <$> (bytes_val <$> el_Traits e))]).
  rewrite fill_bytes. unfold elem_val. do 4 f_equal. rewrite <- list_fmap_compose. f_equal. apply list_fmap_ext. intros i t _. apply fill_bytes.
Qed.

Lemma elem_codec e : elem_ok e →
  Marshal extra_cap map_range codec CodecVersion (VPtr (elem_val e)) (TPtr dbElement_ty) = Ok (elem_bytes e)
  ∧ Unmarshal codec (elem_bytes e) dbElement_ty (zero dbElement_ty) = Ok (CodecVersion, elem_val e).
Proof using Hperm.
  intros He. destruct (elem_encoding e He) as (b & Eb & Hl). unfold elem_bytes. rewrite Eb. change (default [] (Some b)) with b.
  pose proof (Marshal_spec extra_cap implements map_range Hperm codec ltac:(done) CodecVersion _ (lc_ok extra_cap implements)
    (VPtr (elem_val e)) (TPtr dbElement_ty) eq_refl (elem_typed e He)) as Hs.
  change (value_encoding _ _ _ _ (VPtr _) _) with (enc (elem_val e) dbElement_ty) in Hs.
  rewrite Eb, decide_True in Hs by (change (m_maxSize codec) with MaxInt; lia). split; [done|].
  rewrite (Unmarshal_version codec CodecVersion (lc extra_cap implements) b dbElement_ty (zero dbElement_ty) ltac:(done) eq_refl
    ltac:(change (m_maxSize codec) with MaxInt; lia)).
  rewrite (codec_Unmarshal_at extra_cap implements _ (lc_ok extra_cap implements) (elem_val e) dbElement_ty (zero dbElement_ty) b
    (elem_typed e He) (typed_zero _ _ _ _) Eb).
  by rewrite elem_filled.
Qed.
End codec.

(** ** Names of the memories *)

(** The name of the memory of two chains is the hash of their IDs, the smaller one first. *)
Definition chain_id (b : bytes) : Prop := length b = 32%nat ∧ bytes_ok b.
Definition pair_name (a b : bytes) : bytes := be_bytes 2 CodecVersion ++ (if bytes_lt b a then b ++ a else a ++ b).

Section names.
Context (extra_cap : Z → Z → nat) (implements : ty → nat → bool).
Context (map_range : ∀ A : Type, list A → list A) (Hperm : ∀ A (l : list A), map_range A l ≡ₚ l).
Context (ComputeHash256 : bytes → bytes).

Notation sharedID := (sharedID extra_cap implements map_range ComputeHash256).
Notation enc := (enc extra_cap implements).

Lemma id_encoding b : chain_id b → enc (bytes_val b) id_ty = Some b.
Proof using.
  intros [_ Hb]. change (enc (bytes_val b) id_ty) with (es ← all_some ((λ v, enc v (TNum false W8)) <$> (VNum <$> b)); Some (concat es)).
  rewrite bytes_elems. cbn [mbind option_bind]. f_equal. induction Hb as [|z b Hz _ IH]; [done|]. cbn [fmap list_fmap concat].
  change (be_bytes 1 (z mod 256)) with [z mod 256 mod 256]. cbn [app]. rewrite Zmod_mod, Z.mod_small by done. f_equal. exact IH.
Qed.

Lemma sharedID_spec a b : chain_id a → chain_id b → sharedID a b = Some (ComputeHash256 (pair_name a b)).
Proof using Hperm.
  assert (H : ∀ a b, chain_id a → chain_id b →
    Marshal extra_cap map_range (atomic_codec extra_cap implements) CodecVersion (VSeq [bytes_val a; bytes_val b]) (TArray 2 id_ty)
    = Ok (be_bytes 2 CodecVersion ++ a ++ b)).
  { clear a b. intros a b Ha Hb.
    pose proof (Marshal_spec extra_cap implements map_range Hperm (atomic_codec extra_cap implements) ltac:(done) CodecVersion _ (lc_ok extra_cap implements)
      (VSeq [bytes_val a; bytes_val b]) (TArray 2 id_ty) eq_refl) as Hs.
    change (value_encoding _ _ _ _ (VSeq _) _) with (es ← all_some [enc (bytes_val a) id_ty; enc (bytes_val b) id_ty]; Some (concat es)) in Hs.
    rewrite (id_encoding a Ha), (id_encoding b Hb) in Hs. cbn [all_some mbind option_bind concat] in Hs. rewrite app_nil_r in Hs.
    rewrite decide_True in Hs; [apply Hs|].
    - assert (Hid : ∀ x, chain_id x → has_type extra_cap implements (lc extra_cap implements) (lc_ok extra_cap implements) (bytes_val x) id_ty).
      { intros x [Hl Hx]. apply typed_array. unfold bytes_val. rewrite length_fmap. split; [done|]. apply Forall_fmap. eapply Forall_impl; [exact Hx|]. done. }
      apply typed_array. split; [done|]. constructor; [by apply Hid|]. constructor; [by apply Hid|constructor].
    - change (m_maxSize (atomic_codec extra_cap implements)) with MaxInt. rewrite length_app, (proj1 Ha), (proj1 Hb). unfold MaxInt. lia. }
  intros Ha Hb. unfold sharedID, pair_name. destruct (bytes_lt b a); by rewrite H.
Qed.

End names.

Lemma pair_name_inj a b c : chain_id a → chain_id b → chain_id c → pair_name a b = pair_name a c → b = c.
Proof.
  intros [La _] [Lb _] [Lc _] E%app_inv_head. destruct (bytes_lt b a), (bytes_lt c a); apply app_inj_1 in E as [E1 E2]; congruence.
Qed.

Lemma pair_name_sym a b : pair_name a b = pair_name b a.
Proof. unfold pair_name. destruct (bytes_lt_total a b) as [H|[->|H]]; [|done|]; by rewrite H, (bytes_lt_asym _ _ H). Qed.

(** ** The lists of the traits *)

Section lists.
Context (extra_cap : Z → Z → nat) (implements : ty → nat → bool).
Context (map_range : ∀ A : Type, list A → list A) (Hperm : ∀ A (l : list A), map_range A l ≡ₚ l).
Context {D : Database} {L : DatabaseLaws D} (ComputeHash256 : bytes → bytes) (hash_length : ∀ b, length (ComputeHash256 b) = 32%nat).
Context (range_updated : gmap bytes (option node) → list (bytes * option node)) (range_perm : ∀ u, range_updated u ≡ₚ map_to_list u).
(** The prefixes of the values and of the index *)
Context (vp ip : bytes).

Notation D' := (prefixdb_database (D := D)).
Notation L' := (prefixdb_laws (D := D)).
Notation st := (mkState vp ip).
Notation stores := (stores extra_cap implements).

Definition tp (trait : bytes) : bytes := JoinPrefixes ComputeHash256 ip trait.

(** A database after some writes *)
Definition write_step (d d' : db_t) : Prop :=
  (∃ k v, db_Put d k v = Ok d') ∨ (∃ k, db_Delete d k = Ok d') ∨ ∃ b, batch_Write d b = Ok d'.
Definition writes : db_t → db_t → Prop := rtc write_step.

(** A change of the list of a trait: everything behind other prefixes stays. *)
Definition moved (trait : bytes) (d : db_t) (m : gmap bytes bytes) (d' : db_t) (l' : pairs_t) : Prop :=
  ∃ m', db_ok d' ∧ Database.contents d' = Some m' ∧ stores (strip (tp trait) m') l' ∧ writes d d'
    ∧ ∀ q, q ≠ tp trait → length q = 32%nat → strip q m' = strip q m.

Lemma evolves_frame trait d m (pd' : prefixdb) : db_ok d → Database.contents d = Some m →
  evolves (D := D') (L := L') (newDB (tp trait) d) pd' →
  ∃ m', db_ok (p_db pd') ∧ Database.contents (p_db pd') = Some m' ∧ dbPrefix pd' = tp trait ∧ p_closed pd' = false
    ∧ writes d (p_db pd') ∧ ∀ q, q ≠ tp trait → length q = 32%nat → strip q m' = strip q m.
Proof using hash_length.
  intros Hd Hm [->|(b & (Hb & Hops & Hpre) & [= Hp Hi] & Hw)]; [exists m; split_and!; try done; apply rtc_refl|].
  cbn [batch_Write prefixdb_database] in Hw. unfold p_batch_Write in Hw. cbn [newDB p_closed p_db] in Hw.
  pose proof (law_Write d (pb_inner b) Hd Hb Hi) as H. rewrite Hm in H. destruct H as (db & Ew & Hdb & _ & Hc). rewrite Ew in Hw.
  injection Hw as <-. exists (apply_ops m (batch_ops (pb_inner b))). split; [done|]. split; [done|]. split; [done|]. split; [done|].
  split; [apply rtc_once; right; right; by eexists|]. intros q Hq Hlen. rewrite Hops. apply (strip_other_ops (tp trait)); [by rewrite Hp in Hpre|done|]. unfold tp, JoinPrefixes, MakePrefix. by rewrite hash_length.
Qed.

Lemma traitList_inv trait d m l : db_ok d → Database.contents d = Some m → stores (strip (tp trait) m) l → list_ok l →
  inv extra_cap implements (D := D') (L := L') (traitList ComputeHash256 (st d) trait) (strip (tp trait) m) l.
Proof using.
  intros Hd Hm Hs Hl. apply New_inv; [split; [done|intros _; cbn; rewrite Hm; by eexists]| |done|done|constructor|].
  - cbn. unfold p_contents. cbn [newDB p_closed p_db dbPrefix]. by rewrite Hm.
  - intros k on H. by apply elem_of_nil in H.
Qed.

Lemma reached_moved trait d m l' ldb' m'' : db_ok d → Database.contents d = Some m →
  reached extra_cap implements (D := D') (L := L') (newDB (tp trait) d) ldb' m'' l' → moved trait d m (p_db (ldb_db ldb')) l'.
Proof using hash_length.
  intros Hd Hm [Hi He]. destruct (evolves_frame trait d m (ldb_db ldb') Hd Hm He) as (m' & Hd' & Hm' & Hp & Hcl & Hwr & Hrest).
  exists m'. split; [done|]. split; [done|]. split; [|done]. destruct Hi as [_ Hc Hs _ _ _ _ _ _]. cbn in Hc. unfold p_contents in Hc.
  rewrite Hcl, Hm', Hp in Hc. by injection Hc as <-.
Qed.

Lemma trait_put trait d m l k : db_ok d → Database.contents d = Some m → stores (strip (tp trait) m) l → list_ok l → small k →
  ∃ d', on_list (st d) (Put extra_cap implements map_range range_updated (traitList ComputeHash256 (st d) trait) k []) = (Ok tt, st d')
    ∧ moved trait d m d' (list_put l k []).
Proof using Hperm range_perm hash_length.
  intros Hd Hm Hs Hl Hk. pose proof (traitList_inv trait d m l Hd Hm Hs Hl) as Hi.
  destruct (Put_spec extra_cap implements map_range Hperm (D := D') (L := L') range_updated range_perm (newDB (tp trait) d) _ _ _ k [] Hi eq_refl Hk small_nil)
    as (ldb' & m' & -> & Hr). exists (p_db (ldb_db ldb')). split; [done|]. by eapply reached_moved.
Qed.

Lemma trait_delete trait d m l k : db_ok d → Database.contents d = Some m → stores (strip (tp trait) m) l → list_ok l →
  ∃ d', on_list (st d) (Delete extra_cap implements map_range range_updated (traitList ComputeHash256 (st d) trait) k) = (Ok tt, st d')
    ∧ moved trait d m d' (list_delete l k).
Proof using Hperm range_perm hash_length.
  intros Hd Hm Hs Hl. pose proof (traitList_inv trait d m l Hd Hm Hs Hl) as Hi.
  destruct (Delete_spec extra_cap implements map_range Hperm (D := D') (L := L') range_updated range_perm (newDB (tp trait) d) _ _ _ k Hi eq_refl)
    as (ldb' & m' & -> & Hr). exists (p_db (ldb_db ldb')). split; [done|]. by eapply reached_moved.
Qed.

(** ** What the state holds *)

(** The elements that are present, the newest first, and the keys that were removed too early *)
Notation elements_t := (list (bytes * (bytes * list bytes))).

(** The traits in use, whose prefixes do not collide *)
Context (U : bytes → Prop) (no_collision : ∀ t t', U t → U t' → tp t = tp t' → t = t').
Context (vp_length : length vp = 32%nat) (vp_apart : ∀ t, U t → tp t ≠ vp).

Implicit Types (P : elements_t) (T : gset bytes).

Definition index P (trait : bytes) : pairs_t := (λ e, (e.1, [])) <$> filter (λ e, trait ∈ e.2.2) P.

Definition element P T (k : bytes) : option dbElement :=
  match om_get P k with
  | Some (v, ts) => Some (mkElem true v ts)
  | None => if decide (k ∈ T) then Some (mkElem false [] []) else None
  end.

Definition entry_ok (e : bytes * (bytes * list bytes)) : Prop := small e.1 ∧ elem_ok (mkElem true e.2.1 e.2.2) ∧ Forall U e.2.2.

Notation elem_bytes := (elem_bytes extra_cap implements).

Record ainv (d : db_t) (m : gmap bytes bytes) P T : Prop := {
  ai_db : db_ok d;
  ai_contents : Database.contents d = Some m;
  ai_values k : strip vp m !! k = elem_bytes <$> element P T k;
  ai_index t : U t → stores (strip (tp t) m) (index P t);
  ai_nodup : NoDup P.*1;
  ai_ok : Forall entry_ok P;
  ai_apart k : k ∈ T → k ∉ P.*1;
}.

Lemma tombstone_ok : elem_ok (mkElem false [] []).
Proof using. split; [apply small_nil|]. by split. Qed.

Lemma element_ok P T k e : Forall entry_ok P → NoDup P.*1 → element P T k = Some e → elem_ok e.
Proof using.
  intros Hok Hnd E. unfold element in E. destruct (om_get P k) as [[v ts]|] eqn:Eg.
  - injection E as <-. apply om_get_Some in Eg; [|done]. rewrite Forall_forall in Hok. by destruct (Hok _ Eg) as (_ & ? & _).
  - case_decide; [|done]. injection E as <-. apply tombstone_ok.
Qed.

Lemma loadValue_spec d m P T k : ainv d m P T →
  loadValue extra_cap implements (st d) k = match element P T k with Some e => Ok e | None => Err (ADb ErrNotFound) end.
Proof using Hperm.
  intros [Hd Hm Hv _ Hnd Hok _]. unfold loadValue, p_Get, valueDB. cbn [newDB p_closed p_db valuePrefix shared]. unfold with_prefix. cbn [newDB dbPrefix].
  rewrite law_Get, Hm, <- strip_lookup, Hv by done. destruct (element P T k) as [e|] eqn:E; cbn [fmap option_fmap option_map]; [|done].
  pose proof (element_ok P T k e Hok Hnd E) as He. destruct (elem_codec extra_cap implements map_range Hperm e He) as [_ ->]. by rewrite val_elem_val.
Qed.

Lemma index_cons k v ts P t : index ((k, (v, ts)) :: P) t = if decide (t ∈ ts) then (k, []) :: index P t else index P t.
Proof using. unfold index. rewrite filter_cons. cbn [snd]. by case_decide. Qed.

Lemma index_keys P t : (index P t).*1 = (filter (λ e, t ∈ e.2.2) P).*1.
Proof using. unfold index. rewrite <- list_fmap_compose. by apply list_fmap_ext. Qed.

Lemma index_absent P t k : k ∉ P.*1 → k ∉ (index P t).*1.
Proof using.
  rewrite index_keys. intros Hk (e & -> & [_ He]%list_elem_of_filter)%list_elem_of_fmap. apply Hk. by apply list_elem_of_fmap_2.
Qed.

Lemma index_ok P t : NoDup P.*1 → Forall entry_ok P → list_ok (index P t).
Proof using.
  intros Hnd Hok. split.
  - rewrite index_keys. eapply sublist_NoDup; [exact Hnd|]. apply fmap_sublist, sublist_filter.
  - unfold index. apply Forall_fmap, Forall_forall. intros e [_ He]%list_elem_of_filter. rewrite Forall_forall in Hok.
    destruct (Hok e He) as (Hk & _). split; [exact Hk|apply small_nil].
Qed.

Lemma index_delete P t k : index (om_delete P k) t = list_delete (index P t) k.
Proof using.
  unfold index, om_delete, list_delete. induction P as [|[k' [v ts]] P IH]; [done|]. rewrite !filter_cons. cbn [fst snd].
  destruct (decide (k' ≠ k)) as [Hk|Hk], (decide (t ∈ ts)) as [Ht|Ht]; rewrite ?filter_cons; cbn [fst snd fmap list_fmap].
  - rewrite (decide_True (P := t ∈ ts)) by done. cbn [fmap list_fmap fst]. rewrite filter_cons. cbn [fst]. rewrite (decide_True (P := k' ≠ k)) by done. f_equal. exact IH.
  - rewrite (decide_False (P := t ∈ ts)) by done. exact IH.
  - rewrite filter_cons. cbn [fst]. rewrite (decide_False (P := k' ≠ k)) by done. exact IH.
  - exact IH.
Qed.

(** *** Writing values *)

(** Everything behind the prefixes of other states stays. *)
Definition changes (d : db_t) (m : gmap bytes bytes) (d' : db_t) (m' : gmap bytes bytes) : Prop :=
  writes d d' ∧ ∀ q, length q = 32%nat → q ≠ vp → (∀ t, U t → q ≠ tp t) → strip q m' = strip q m.

Lemma changes_refl d m : changes d m d m.
Proof using. split; [apply rtc_refl|done]. Qed.

Lemma changes_trans d m d1 m1 d2 m2 : changes d m d1 m1 → changes d1 m1 d2 m2 → changes d m d2 m2.
Proof using. intros [W1 F1] [W2 F2]. split; [unfold writes in *; by etrans|]. intros q H1 H2 H3. rewrite F2 by done. by apply F1. Qed.

Lemma tp_length t : length (tp t) = 32%nat.
Proof using hash_length. unfold tp, JoinPrefixes, MakePrefix. by rewrite hash_length. Qed.

Lemma value_frame m k v b q : length q = 32%nat → q ≠ vp → strip q (apply_ops m [mkOp (vp ++ k) v b]) = strip q m.
Proof using vp_length.
  intros Hq Hne. apply (strip_other_ops vp); [|done|by rewrite Hq]. apply Forall_singleton. by exists k.
Qed.

Lemma put_value_spec d m k e : db_ok d → Database.contents d = Some m → elem_ok e →
  ∃ d' m', marshal_value extra_cap implements map_range (st d) k e = (Ok tt, st d') ∧ db_ok d' ∧ Database.contents d' = Some m'
    ∧ strip vp m' = <[k := elem_bytes e]> (strip vp m) ∧ (∀ t, U t → strip (tp t) m' = strip (tp t) m) ∧ changes d m d' m'.
Proof using Hperm hash_length vp_length vp_apart.
  intros Hd Hm He. unfold marshal_value. destruct (elem_codec extra_cap implements map_range Hperm e He) as [-> _].
  unfold put_value, p_Put, valueDB. cbn [newDB p_closed p_db valuePrefix shared]. unfold with_prefix. cbn [newDB dbPrefix].
  pose proof (law_Put d (vp ++ k) (elem_bytes e) Hd) as H. rewrite Hm in H. destruct H as (d' & Ew & Hd' & _ & Hm').
  rewrite Ew. exists d', (<[vp ++ k := elem_bytes e]> m). split; [done|]. split; [done|]. split; [done|]. split; [apply strip_insert|].
  split; [intros t Ht; apply (value_frame m k (elem_bytes e) false); [apply tp_length|by apply vp_apart]|].
  split; [apply rtc_once; left; by eexists _, _|]. intros q H1 H2 _. by apply (value_frame m k (elem_bytes e) false).
Qed.

Lemma delete_value_spec d m k : db_ok d → Database.contents d = Some m →
  ∃ d' m', delete_value (st d) k = (Ok tt, st d') ∧ db_ok d' ∧ Database.contents d' = Some m'
    ∧ strip vp m' = delete k (strip vp m) ∧ (∀ t, U t → strip (tp t) m' = strip (tp t) m) ∧ changes d m d' m'.
Proof using hash_length vp_length vp_apart.
  intros Hd Hm. unfold delete_value, p_Delete, valueDB. cbn [newDB p_closed p_db valuePrefix shared]. unfold with_prefix. cbn [newDB dbPrefix].
  pose proof (law_Delete d (vp ++ k) Hd) as H. rewrite Hm in H. destruct H as (d' & Ew & Hd' & _ & Hm').
  rewrite Ew. exists d', (delete (vp ++ k) m). split; [done|]. split; [done|]. split; [done|]. split; [apply strip_delete|].
  split; [intros t Ht; apply (value_frame m k [] true); [apply tp_length|by apply vp_apart]|].
  split; [apply rtc_once; right; left; by eexists|]. intros q H1 H2 _. by apply (value_frame m k [] true).
Qed.

(** *** The loops over the traits *)

(** After the traits in [ts] were visited *)
Definition visited (ts : list bytes) (f : pairs_t → pairs_t) P (t : bytes) : pairs_t :=
  if decide (t ∈ ts) then f (index P t) else index P t.

Definition indexed (m : gmap bytes bytes) (l : bytes → pairs_t) : Prop := ∀ t, U t → stores (strip (tp t) m) (l t).

Lemma moved_indexed trait d m d' l l' : U trait → indexed m l → moved trait d m d' l' →
  ∃ m', db_ok d' ∧ Database.contents d' = Some m' ∧ strip vp m' = strip vp m ∧ indexed m' (λ t, if decide (t = trait) then l' else l t)
    ∧ changes d m d' m'.
Proof using hash_length no_collision vp_length vp_apart.
  intros Ht Hi (m' & Hd' & Hm' & Hs & Hwr & Hrest). exists m'. split; [done|]. split; [done|]. split; [apply Hrest; [intros E; by apply (vp_apart trait)|done]|].
  split; [|split; [done|]; intros q H1 _ H3; apply Hrest; [by apply H3|done]].
  intros t Ht'. case_decide as E; [by subst|]. rewrite Hrest; [by apply Hi| |apply tp_length].
  intros E'. apply E. by apply no_collision.
Qed.

Lemma indexed_ext m l l' : (∀ t, U t → l t = l' t) → indexed m l → indexed m l'.
Proof using. intros E Hi t Ht. rewrite <- E by done. by apply Hi. Qed.

Lemma put_traits_spec k P ts : k ∉ P.*1 → small k → NoDup P.*1 → Forall entry_ok P → Forall U ts → ∀ seen d m,
  db_ok d → Database.contents d = Some m → indexed m (visited seen (cons (k, [])) P) →
  ∃ d' m', put_traits extra_cap implements map_range ComputeHash256 range_updated (st d) k ts = (Ok tt, st d')
    ∧ db_ok d' ∧ Database.contents d' = Some m' ∧ strip vp m' = strip vp m ∧ indexed m' (visited (seen ++ ts) (cons (k, [])) P)
    ∧ changes d m d' m'.
Proof using Hperm hash_length range_perm no_collision vp_length vp_apart.
  intros Hk Hsk Hnd Hok HU. induction HU as [|t ts Ht _ IH]; intros seen d m Hd Hm Hi; cbn [put_traits].
  - exists d, m. rewrite app_nil_r. split_and!; try done; apply changes_refl.
  - assert (Hl : list_ok (visited seen (cons (k, [])) P t)).
    { unfold visited. pose proof (index_ok P t Hnd Hok) as Hl. case_decide; [|done]. destruct Hl as [H1 H2].
      split; [|constructor; [split; [done|apply small_nil]|done]]. cbn. constructor; [by apply index_absent|done]. }
    destruct (trait_put t d m _ k Hd Hm (Hi t Ht) Hl Hsk) as (d1 & E & Hmv). rewrite E.
    destruct (moved_indexed t d m d1 _ _ Ht Hi Hmv) as (m1 & Hd1 & Hm1 & Hv1 & Hi1 & Hch1).
    destruct (IH (seen ++ [t]) d1 m1 Hd1 Hm1) as (d' & m' & E' & Hd' & Hm' & Hv' & Hi' & Hch').
    { eapply indexed_ext; [|exact Hi1]. intros t' _. cbv beta. unfold visited. destruct (decide (t' = t)) as [->|Hne].
      - rewrite (decide_True (P := t ∈ seen ++ [t])) by (apply elem_of_app; right; by left). case_decide.
        + apply (list_put_existing [] k [] [] (index P t)). cbn. constructor; [by apply index_absent|apply index_ok; done].
        + unfold list_put. rewrite decide_False; [done|]. by apply index_absent.
      - destruct (decide (t' ∈ seen)).
        + rewrite decide_True; [done|]. apply elem_of_app. by left.
        + rewrite decide_False; [done|]. rewrite elem_of_app, list_elem_of_singleton. by intros [?|?]. }
    exists d', m'. split; [exact E'|]. split; [done|]. split; [done|]. split; [congruence|].
    rewrite <- (assoc_L (++)) in Hi'. split; [exact Hi'|by eapply changes_trans].
Qed.

Lemma delete_traits_spec k P ts : NoDup P.*1 → Forall entry_ok P → Forall U ts → ∀ seen d m,
  db_ok d → Database.contents d = Some m → indexed m (visited seen (λ l, list_delete l k) P) →
  ∃ d' m', delete_traits extra_cap implements map_range ComputeHash256 range_updated (st d) k ts = (Ok tt, st d')
    ∧ db_ok d' ∧ Database.contents d' = Some m' ∧ strip vp m' = strip vp m ∧ indexed m' (visited (seen ++ ts) (λ l, list_delete l k) P)
    ∧ changes d m d' m'.
Proof using Hperm hash_length range_perm no_collision vp_length vp_apart.
  intros Hnd Hok HU. induction HU as [|t ts Ht _ IH]; intros seen d m Hd Hm Hi; cbn [delete_traits].
  - exists d, m. rewrite app_nil_r. split_and!; try done; apply changes_refl.
  - assert (Hl : list_ok (visited seen (λ l, list_delete l k) P t)).
    { unfold visited. pose proof (index_ok P t Hnd Hok) as Hl. case_decide; [|done]. by apply list_ok_delete. }
    destruct (trait_delete t d m _ k Hd Hm (Hi t Ht) Hl) as (d1 & E & Hmv). rewrite E.
    destruct (moved_indexed t d m d1 _ _ Ht Hi Hmv) as (m1 & Hd1 & Hm1 & Hv1 & Hi1 & Hch1).
    destruct (IH (seen ++ [t]) d1 m1 Hd1 Hm1) as (d' & m' & E' & Hd' & Hm' & Hv' & Hi' & Hch').
    { eapply indexed_ext; [|exact Hi1]. intros t' _. cbv beta. unfold visited. destruct (decide (t' = t)) as [->|Hne].
      - rewrite (decide_True (P := t ∈ seen ++ [t])) by (apply elem_of_app; right; by left). case_decide; [|done].
        apply list_delete_absent. apply (om_delete_not_in (index P t) k).
      - destruct (decide (t' ∈ seen)).
        + rewrite decide_True; [done|]. apply elem_of_app. by left.
        + rewrite decide_False; [done|]. rewrite elem_of_app, list_elem_of_singleton. by intros [?|?]. }
    exists d', m'. split; [exact E'|]. split; [done|]. split; [done|]. split; [congruence|].
    rewrite <- (assoc_L (++)) in Hi'. split; [exact Hi'|by eapply changes_trans].
Qed.

(** *** The operations *)

Inductive atomic_op := ASet (e : Element) | ARemove (key : bytes).

Definition atomic_apply (s : state) (o : atomic_op) : result atomic_error unit * state :=
  match o with
  | ASet e => SetValue extra_cap implements map_range ComputeHash256 range_updated s e
  | ARemove k => RemoveValue extra_cap implements map_range ComputeHash256 range_updated s k
  end.

(** What the operations mean *)
Definition spec_apply (PT : elements_t * gset bytes) (o : atomic_op) : result atomic_error unit * (elements_t * gset bytes) :=
  let '(P, T) := PT in
  match o with
  | ASet (mkElement k v ts) =>
      if decide (k ∈ P.*1) then (Err errDuplicatePut, PT)
      else if decide (k ∈ T) then (Ok tt, (P, T ∖ {[k]}))
      else (Ok tt, ((k, (v, ts)) :: P, T))
  | ARemove k =>
      if decide (k ∈ P.*1) then (Ok tt, (om_delete P k, T))
      else if decide (k ∈ T) then (Err errDuplicateRemove, PT)
      else (Ok tt, (P, {[k]} ∪ T))
  end.

Definition op_fits (o : atomic_op) : Prop :=
  match o with ASet (mkElement k v ts) => entry_ok (k, (v, ts)) | ARemove _ => True end.

Lemma element_present P T k : NoDup P.*1 → k ∈ P.*1 → ∃ v ts, element P T k = Some (mkElem true v ts) ∧ om_get P k = Some (v, ts).
Proof using.
  intros Hnd Hk. unfold element. destruct (om_get P k) as [[v ts]|] eqn:E; [by exists v, ts|]. apply om_get_None in E. done.
Qed.

Lemma element_absent P T k : k ∉ P.*1 → element P T k = if decide (k ∈ T) then Some (mkElem false [] []) else None.
Proof using. intros Hk. unfold element. by rewrite (proj2 (om_get_None P k) Hk). Qed.

(** The value of one key changes. *)
Lemma element_other P T P' T' k (w : option dbElement) m m' : (∀ j, j ≠ k → element P' T' j = element P T j) → element P' T' k = w →
  (∀ j, strip vp m !! j = elem_bytes <$> element P T j) →
  strip vp m' = match w with Some e => <[k := elem_bytes e]> (strip vp m) | None => delete k (strip vp m) end →
  ∀ j, strip vp m' !! j = elem_bytes <$> element P' T' j.
Proof using.
  intros Ho Hk Hv -> j. destruct (decide (j = k)) as [->|Hne].
  - rewrite Hk. destruct w; [by rewrite lookup_insert_eq|by rewrite lookup_delete_eq].
  - rewrite Ho by done. destruct w; [by rewrite lookup_insert_ne|by rewrite lookup_delete_ne].
Qed.

Lemma SetValue_spec d m P T e : ainv d m P T → op_fits (ASet e) →
  ∃ d' m', atomic_apply (st d) (ASet e) = ((spec_apply (P, T) (ASet e)).1, st d') ∧ changes d m d' m'
    ∧ let '(P', T') := (spec_apply (P, T) (ASet e)).2 in ainv d' m' P' T'.
Proof using Hperm hash_length range_perm no_collision vp_length vp_apart.
  intros Ha Hf. destruct e as [k v ts]. pose proof Hf as (Hsk & Hel & HU). cbn [fst snd] in Hsk, Hel, HU.
  pose proof Ha as [Hd Hm Hv Hi Hnd Hok Hap]. cbn [atomic_apply spec_apply].
  unfold SetValue. cbn [e_Key e_Value e_Traits]. rewrite (loadValue_spec d m P T) by done. destruct (decide (k ∈ P.*1)) as [Hin|Hnin].
  { destruct (element_present P T k Hnd Hin) as (v' & ts' & -> & _). exists d, m. split; [done|]. split; [apply changes_refl|done]. }
  rewrite element_absent by done. destruct (decide (k ∈ T)) as [HT|HT]; cbn [Present negb fst snd].
  - destruct (delete_value_spec d m k Hd Hm) as (d' & m' & -> & Hd' & Hm' & Hv' & Hi' & Hch). exists d', m'. split; [done|]. split; [done|].
    split; [done|done| |intros t Ht; rewrite Hi' by done; by apply Hi|done|done|intros j [Hj _]%elem_of_difference; by apply Hap].
    apply (element_other P T P (T ∖ {[k]}) k None m m'); [| |done|done].
    + intros j Hj. unfold element. destruct (om_get P j) as [[]|]; [done|]. apply decide_ext. set_solver.
    + rewrite element_absent by done. rewrite decide_False; [done|]. set_solver.
  - destruct (put_traits_spec k P ts Hnin Hsk Hnd Hok HU [] d m Hd Hm Hi) as (d1 & m1 & -> & Hd1 & Hm1 & Hv1 & Hi1 & Hch1).
    destruct (put_value_spec d1 m1 k (mkElem true v ts) Hd1 Hm1 Hel) as (d' & m' & -> & Hd' & Hm' & Hv' & Hi' & Hch).
    exists d', m'. split; [done|]. split; [by eapply changes_trans|]. split; [done|done| | |by constructor|by constructor|].
    + apply (element_other P T ((k, (v, ts)) :: P) T k (Some (mkElem true v ts)) m m'); [| |done|by rewrite Hv', Hv1].
      * intros j Hj. unfold element. cbn. by rewrite bool_decide_false.
      * unfold element. cbn. by rewrite bool_decide_true.
    + intros t Ht. rewrite Hi' by done. rewrite index_cons. apply (Hi1 t Ht).
    + intros j Hj Hjin. apply elem_of_cons in Hjin as [->|Hjin]; [done|]. by apply (Hap j).
Qed.

Lemma RemoveValue_spec d m P T k : ainv d m P T →
  ∃ d' m', atomic_apply (st d) (ARemove k) = ((spec_apply (P, T) (ARemove k)).1, st d') ∧ changes d m d' m'
    ∧ let '(P', T') := (spec_apply (P, T) (ARemove k)).2 in ainv d' m' P' T'.
Proof using Hperm hash_length range_perm no_collision vp_length vp_apart.
  intros Ha. pose proof Ha as [Hd Hm Hv Hi Hnd Hok Hap]. cbn [atomic_apply spec_apply]. unfold RemoveValue.
  rewrite (loadValue_spec d m P T) by done. destruct (decide (k ∈ P.*1)) as [Hin|Hnin].
  - destruct (element_present P T k Hnd Hin) as (v & ts & -> & Eg). cbn [Present negb el_Traits fst snd].
    assert (HU : Forall U ts). { apply om_get_Some in Eg; [|done]. rewrite Forall_forall in Hok. by destruct (Hok _ Eg) as (_ & _ & ?). }
    destruct (delete_traits_spec k P ts Hnd Hok HU [] d m Hd Hm Hi) as (d1 & m1 & -> & Hd1 & Hm1 & Hv1 & Hi1 & Hch1).
    destruct (delete_value_spec d1 m1 k Hd1 Hm1) as (d' & m' & -> & Hd' & Hm' & Hv' & Hi' & Hch).
    assert (Hkn : k ∉ T) by (intros HT; by apply (Hap k)). exists d', m'. split; [done|]. split; [by eapply changes_trans|].
    split; [done|done| | |by apply (om_delete_wf P k)| |].
    + apply (element_other P T (om_delete P k) T k None m m'); [| |done|by rewrite Hv', Hv1].
      * intros j Hj. unfold element. rewrite om_get_delete by done. by rewrite (decide_False (P := j = k)).
      * rewrite element_absent by apply om_delete_not_in. by rewrite decide_False.
    + intros t Ht. rewrite Hi' by done. rewrite index_delete. specialize (Hi1 t Ht). unfold visited in Hi1. cbn [app] in Hi1.
      case_decide as Hts; [done|]. rewrite list_delete_absent; [done|]. rewrite index_keys.
      intros ([j [v' ts']] & -> & [Ht' He]%list_elem_of_filter)%list_elem_of_fmap. cbn [fst snd] in *.
      apply om_get_Some in He; [|done]. rewrite Eg in He. injection He as <- <-. done.
    + apply Forall_forall. intros e [He _]%om_delete_elem. rewrite Forall_forall in Hok. by apply Hok.
    + intros j Hj Hjin. apply (Hap j Hj). apply list_elem_of_fmap in Hjin as (e & -> & [He _]%om_delete_elem). by apply list_elem_of_fmap_2.
  - rewrite element_absent by done. destruct (decide (k ∈ T)) as [HT|HT]; cbn [Present negb fst snd].
    { exists d, m. split; [done|]. split; [apply changes_refl|done]. }
    destruct (put_value_spec d m k (mkElem false [] []) Hd Hm tombstone_ok) as (d' & m' & -> & Hd' & Hm' & Hv' & Hi' & Hch).
    exists d', m'. split; [done|]. split; [done|]. split; [done|done| |intros t Ht; rewrite Hi' by done; by apply Hi|done|done|].
    + apply (element_other P T P ({[k]} ∪ T) k (Some (mkElem false [] [])) m m'); [| |done|done].
      * intros j Hj. unfold element. destruct (om_get P j) as [[]|]; [done|]. apply decide_ext. set_solver.
      * rewrite element_absent by done. rewrite decide_True; [done|]. set_solver.
    + intros j [->%elem_of_singleton|Hj]%elem_of_union; [done|by apply Hap].
Qed.

(** *** [getKeys] *)

(** What the loop of [appendTraitKeys] does with the keys that it visits *)
Fixpoint take_keys (r : list bytes) (p : page) (lastKey : bytes) : page * bytes :=
  match r with
  | [] => (p, lastKey)
  | k :: r =>
      if 0 <? limit p then
        if bool_decide (ComputeHash256 k ∈ keySet p) then take_keys r p k
        else take_keys r (mkPage (keys p ++ [k]) ({[ComputeHash256 k]} ∪ keySet p) (limit p - 1)) k
      else (p, lastKey)
  end.

Lemma append_loop_spec r : ∀ fuel (l : trait_list) m pl it p lastKey,
  inv extra_cap implements (D := D') (L := L') l m pl → it_at pl it r → (length r < fuel)%nat →
  append_loop extra_cap implements ComputeHash256 fuel l it p lastKey = let '(p', k) := take_keys r.*1 p lastKey in Some (p', k, None).
Proof using Hperm.
  clear vp_length. induction r as [|[k v] r IH]; intros fuel l m pl it p lastKey Hi Hat Hf; (destruct fuel as [|fuel]; [cbn in Hf; lia|]); cbn [append_loop];
    pose proof (iterator_Next_at extra_cap implements map_range Hperm l m pl it _ Hi Hat) as H.
  - destruct H as (it' & l' & -> & Hr). cbn. by rewrite Hr.
  - destruct H as (it' & l' & -> & Hk & _ & Hi' & Hat'). cbn [fmap list_fmap fst take_keys andb]. rewrite Hk. cbn [length] in Hf.
    destruct (0 <? limit p) eqn:El.
    + destruct (bool_decide (ComputeHash256 k ∈ keySet p)); (apply (IH fuel l' m pl); [done|done|lia]).
    + assert (He : Linkeddb.err it' = None) by (by destruct Hat'). by rewrite He.
Qed.

Definition from_start P (trait startKey : bytes) : list bytes :=
  (if decide (startKey ∈ (index P trait).*1) then from_key startKey (index P trait) else index P trait).*1.

Lemma appendTraitKeys_spec d m P T fuel p trait startKey : ainv d m P T → U trait → (length P < fuel)%nat →
  appendTraitKeys extra_cap implements ComputeHash256 fuel (st d) p trait startKey
  = let '(p', k) := take_keys (from_start P trait startKey) p startKey in Some (p', k, None).
Proof using Hperm.
  clear vp_length. intros Ha Ht Hf. unfold appendTraitKeys.
  pose proof (traitList_inv trait d m (index P trait) (ai_db _ _ _ _ Ha) (ai_contents _ _ _ _ Ha) (ai_index _ _ _ _ Ha trait Ht)
    (index_ok P trait (ai_nodup _ _ _ _ Ha) (ai_ok _ _ _ _ Ha))) as Hi.
  eapply append_loop_spec; [exact Hi|by eapply start_at|].
  assert (Hl : (length (index P trait) ≤ length P)%nat) by (unfold index; rewrite length_fmap; apply length_filter).
  pose proof (length_from_key startKey (index P trait)). case_decide; lia.
Qed.

(** A page that collects keys of [K], which do not collide *)
Record page_ok (K : bytes → Prop) (total : Z) (p : page) : Prop := {
  pg_nodup : NoDup (keys p);
  pg_keys k : k ∈ keys p → K k;
  pg_set k : K k → ComputeHash256 k ∈ keySet p ↔ k ∈ keys p;
  pg_limit : limit p = total - Z.of_nat (length (keys p));
  pg_room : 0 ≤ limit p;
}.

Lemma take_keys_spec (K : bytes → Prop) total r : (∀ k k', K k → K k' → ComputeHash256 k = ComputeHash256 k' → k = k') → (∀ k, k ∈ r → K k) →
  ∀ p lastKey, page_ok K total p → let p' := (take_keys r p lastKey).1 in
  page_ok K total p' ∧ (∀ k, k ∈ keys p → k ∈ keys p') ∧ (∀ k, k ∈ keys p' → k ∈ keys p ∨ k ∈ r)
    ∧ (0 < limit p' → ∀ k, k ∈ r → k ∈ keys p').
Proof using.
  clear vp_length. intros Hinj HK. induction r as [|k r IH]; intros p lastKey Hp; cbn [take_keys].
  - cbn. split; [done|]. split; [done|]. split; [by left|]. intros _ k Hk. by apply elem_of_nil in Hk.
  - assert (HKr : ∀ k, k ∈ r → K k) by (intros j Hj; apply HK; by right). specialize (IH HKr). assert (HKk : K k) by (apply HK; by left).
    destruct (Z.ltb_spec 0 (limit p)) as [Hl|Hl].
    2: { cbn. split; [done|]. split; [done|]. split; [by left|]. lia. }
    pose proof (pg_set _ _ _ Hp k HKk) as Hset. case_bool_decide as Hin.
    + destruct (IH p k Hp) as (H1 & H2 & H3 & H4). split; [done|]. split; [done|]. split.
      * intros j Hj. destruct (H3 j Hj); [by left|right; by right].
      * intros H j [->|Hj]%elem_of_cons; [apply H2; by apply Hset|by apply H4].
    + set (p1 := mkPage _ _ _). assert (Hp1 : page_ok K total p1).
      { destruct Hp as [A1 A2 A3 A4 A5]. rewrite Hset in Hin. split; cbn [p1 keys keySet limit].
        - apply NoDup_app. split; [done|]. split; [|apply NoDup_singleton]. by intros j Hj ->%list_elem_of_singleton.
        - intros j [Hj| ->%list_elem_of_singleton]%elem_of_app; [by apply A2|done].
        - intros j Hj. rewrite elem_of_union, elem_of_singleton, elem_of_app, list_elem_of_singleton, (A3 j Hj).
          split; [intros [E|H]; [right; by apply Hinj|by left]|intros [H| ->]; [by right|by left]].
        - rewrite length_app. cbn [length]. lia.
        - lia. }
      destruct (IH p1 k Hp1) as (H1 & H2 & H3 & H4). split; [done|]. split; [|split].
      * intros j Hj. apply H2. cbn. apply elem_of_app. by left.
      * intros j Hj. destruct (H3 j Hj) as [Hj'|Hj']; [|right; by right]. cbn in Hj'.
        apply elem_of_app in Hj' as [?| ->%list_elem_of_singleton]; [by left|right; by left].
      * intros H j [->|Hj]%elem_of_cons; [|by apply H4]. apply H2. cbn. apply elem_of_app. right. by left.
Qed.

Lemma from_key_subset start (l : pairs_t) e : e ∈ from_key start l → e ∈ l.
Proof using. induction l as [|[k v] l IH]; cbn; [done|]. case_decide; [done|]. intros Hin. right. by apply IH. Qed.

Lemma from_start_index P t start k : k ∈ from_start P t start → k ∈ (index P t).*1.
Proof using.
  unfold from_start. case_decide; [|done]. intros (e & -> & He%from_key_subset)%list_elem_of_fmap. by apply list_elem_of_fmap_2.
Qed.

Lemma index_present P t k : k ∈ (index P t).*1 → k ∈ P.*1.
Proof using. destruct (decide (k ∈ P.*1)) as [|Hk]; [done|]. intros H. by apply (index_absent P t) in Hk. Qed.

Lemma keys_loop_spec d m P T total startTrait fuel traits : ainv d m P T → Forall U traits → (length P < fuel)%nat →
  (∀ k k', k ∈ P.*1 → k' ∈ P.*1 → ComputeHash256 k = ComputeHash256 k' → k = k') →
  ∀ p startKey lastTrait lastKey, page_ok (λ k, k ∈ P.*1) total p →
  ∃ p' lt lk, keys_loop extra_cap implements ComputeHash256 fuel (st d) startTrait traits p startKey lastTrait lastKey = Some (Ok (keys p', lt, lk))
    ∧ page_ok (λ k, k ∈ P.*1) total p' ∧ (∀ k, k ∈ keys p → k ∈ keys p')
    ∧ (∀ k, k ∈ keys p' → k ∈ keys p ∨ ∃ t, t ∈ traits ∧ k ∈ (index P t).*1)
    ∧ (startTrait = [] → startKey = [] → [] ∉ P.*1 → 0 < limit p' → ∀ t k, t ∈ traits → k ∈ (index P t).*1 → k ∈ keys p').
Proof using Hperm.
  clear vp_length. intros Ha HU Hf Hinj. induction HU as [|t traits Ht _ IH]; intros p startKey lastTrait lastKey Hp; cbn [keys_loop].
  - exists p, lastTrait, lastKey. split; [done|]. split; [done|]. split; [done|]. split; [by left|]. intros _ _ _ _ t k Hin. by apply elem_of_nil in Hin.
  - destruct (bytes_lt t startTrait) eqn:Elt.
    { destruct (IH p startKey lastTrait lastKey Hp) as (p' & lt & lk & E & Hp' & H1 & H2 & _). exists p', lt, lk. split; [done|]. split; [done|].
      split; [done|]. split; [intros k Hk; destruct (H2 k Hk) as [?|(t' & ? & ?)]; [by left|right; exists t'; split; [by right|done]]|].
      intros ->. by destruct t. }
    set (start := if bytes_lt startTrait t then [] else startKey). rewrite (appendTraitKeys_spec d m P T fuel p t start Ha Ht Hf).
    destruct (take_keys_spec (λ k, k ∈ P.*1) total (from_start P t start) Hinj) with (p := p) (lastKey := start) as (Hp1 & A1 & A2 & A3);
      [intros k Hk; by eapply index_present, from_start_index|done|].
    destruct (take_keys (from_start P t start) p start) as [p1 lk1]. cbn [fst] in *.
    assert (Hstart : startTrait = [] → startKey = [] → [] ∉ P.*1 → from_start P t start = (index P t).*1).
    { intros -> -> Hnil. assert (start = []) as -> by (unfold start; by destruct (bytes_lt [] t)). unfold from_start.
      rewrite decide_False; [done|]. intros H%index_present. done. }
    destruct (Z.eqb_spec (limit p1) 0) as [E0|E0].
    + exists p1, t, lk1. split; [done|]. split; [done|]. split; [done|]. split; [|lia].
      intros k Hk. destruct (A2 k Hk) as [?|Hk']; [by left|right]. exists t. split; [by left|]. by eapply from_start_index.
    + destruct (IH p1 start t lk1 Hp1) as (p' & lt & lk & E & Hp' & H1 & H2 & H3). exists p', lt, lk. split; [done|]. split; [done|].
      split; [intros k Hk; by apply H1, A1|]. split.
      * intros k Hk. destruct (H2 k Hk) as [Hk1|(t' & ? & ?)]; [|right; exists t'; split; [by right|done]].
        destruct (A2 k Hk1) as [?|Hk']; [by left|right]. exists t. split; [by left|]. by eapply from_start_index.
      * intros Hs Hk0 Hnil Hl t' k [->|Ht']%elem_of_cons Hk.
        -- apply H1, A3; [pose proof (pg_room _ _ _ Hp1); lia|]. by rewrite Hstart.
        -- apply (H3 Hs) with t'; try done. unfold start. rewrite Hs, Hk0. by destruct (bytes_lt [] t).
Qed.

Lemma index_elem P t k : k ∈ (index P t).*1 ↔ ∃ v ts, (k, (v, ts)) ∈ P ∧ t ∈ ts.
Proof using.
  rewrite index_keys, list_elem_of_fmap. split.
  - intros ([k' [v ts]] & -> & [Ht He]%list_elem_of_filter). by exists v, ts.
  - intros (v & ts & He & Ht). exists (k, (v, ts)). split; [done|]. by apply list_elem_of_filter.
Qed.

(** The pages of [getKeys] *)
Lemma getKeys_spec d m P T traits startTrait startKey total fuel : ainv d m P T → Forall U traits → 0 ≤ total → (length P < fuel)%nat →
  (∀ k k', k ∈ P.*1 → k' ∈ P.*1 → ComputeHash256 k = ComputeHash256 k' → k = k') →
  ∃ ks lt lk, getKeys extra_cap implements ComputeHash256 fuel (st d) traits startTrait startKey total = Some (Ok (ks, lt, lk))
    ∧ NoDup ks ∧ Z.of_nat (length ks) ≤ total
    ∧ (∀ k, k ∈ ks → ∃ v ts t, (k, (v, ts)) ∈ P ∧ t ∈ ts ∧ t ∈ traits)
    ∧ (startTrait = [] → startKey = [] → [] ∉ P.*1 → Z.of_nat (length ks) < total →
       ∀ k v ts t, (k, (v, ts)) ∈ P → t ∈ ts → t ∈ traits → k ∈ ks).
Proof using Hperm.
  intros Ha HU Ht Hf Hinj. clear vp_length. unfold getKeys.
  assert (HU' : Forall U (SortFunc bytes_lt traits)).
  { apply Forall_forall. intros t Hin. rewrite Forall_forall in HU. apply HU. by rewrite <- (SortFunc_perm id traits). }
  assert (Hin : ∀ t, t ∈ SortFunc bytes_lt traits ↔ t ∈ traits) by (intros t; by rewrite (SortFunc_perm id traits)).
  destruct (keys_loop_spec d m P T total startTrait fuel _ Ha HU' Hf Hinj (mkPage [] ∅ total) startKey startTrait startKey)
    as (p' & lt & lk & -> & Hp' & _ & H2 & H3).
  { split; cbn; [constructor|by intros k Hk%elem_of_nil| |lia|done]. intros k _. split; [by intros Hk%elem_of_empty|by intros Hk%elem_of_nil]. }
  exists (keys p'), lt, lk. split; [done|]. destruct Hp' as [A1 _ _ A4 A5]. split; [done|]. split; [lia|]. split.
  + intros k Hk. destruct (H2 k Hk) as [Hk'|(t & Ht' & Hk')]; [by apply elem_of_nil in Hk'|].
    apply index_elem in Hk' as (v & ts & ? & ?). exists v, ts, t. split; [done|]. split; [done|]. by apply Hin.
  + intros Hs Hk0 Hnil Hl k v ts t He Hts Htr. apply (H3 Hs Hk0 Hnil) with t; [lia|by apply Hin|]. apply index_elem. by exists v, ts.
Qed.

Lemma Value_spec d m P T k : ainv d m P T →
  Value extra_cap implements (st d) k = match om_get P k with Some (v, ts) => Ok (mkElement k v ts) | None => Err (ADb ErrNotFound) end.
Proof using Hperm.
  intros Ha. unfold Value. rewrite (loadValue_spec d m P T) by done. unfold element. destruct (om_get P k) as [[v ts]|]; [done|]. by case_decide.
Qed.

Lemma ainv_empty d : db_ok d → Database.contents d = Some ∅ → ainv d ∅ [] ∅.
Proof using.
  intros Hd Hm. split; [done|done| | |constructor|constructor|by intros k Hk%elem_of_empty].
  - intros k. rewrite strip_lookup, lookup_empty. unfold element. cbn. by rewrite decide_False by (apply not_elem_of_empty).
  - intros t _. split; [intros k|]; rewrite strip_lookup, lookup_empty; [|done]. by rewrite (proj2 (node_map_None (index [] t) k)) by apply not_elem_of_nil.
Qed.

(** *** Runs *)

Fixpoint atomic_run (s : state) (ops : list atomic_op) : list (result atomic_error unit) * state :=
  match ops with
  | [] => ([], s)
  | o :: ops => let '(r, s) := atomic_apply s o in let '(rs, s) := atomic_run s ops in (r :: rs, s)
  end.

Fixpoint atomic_spec (PT : elements_t * gset bytes) (ops : list atomic_op) : list (result atomic_error unit) * (elements_t * gset bytes) :=
  match ops with
  | [] => ([], PT)
  | o :: ops => let '(r, PT) := spec_apply PT o in let '(rs, PT) := atomic_spec PT ops in (r :: rs, PT)
  end.

Lemma atomic_run_inv ops : Forall op_fits ops → ∀ d m P T, ainv d m P T →
  ∃ d' m', atomic_run (st d) ops = ((atomic_spec (P, T) ops).1, st d') ∧ changes d m d' m'
    ∧ ainv d' m' (atomic_spec (P, T) ops).2.1 (atomic_spec (P, T) ops).2.2.
Proof using Hperm hash_length range_perm no_collision vp_length vp_apart.
  induction 1 as [|o ops Ho _ IH]; intros d m P T Ha; [exists d, m; split; [done|]; split; [apply changes_refl|done]|].
  assert (Hstep : ∃ d' m', atomic_apply (st d) o = ((spec_apply (P, T) o).1, st d') ∧ changes d m d' m'
    ∧ let '(P', T') := (spec_apply (P, T) o).2 in ainv d' m' P' T') by (destruct o; [by apply (SetValue_spec d m)|by apply (RemoveValue_spec d m)]).
  destruct Hstep as (d1 & m1 & E & Hch & Ha1). cbn [atomic_run atomic_spec]. rewrite E.
  destruct (spec_apply (P, T) o) as [r [P1 T1]]. cbn [fst snd] in *.
  destruct (IH d1 m1 P1 T1 Ha1) as (d' & m' & -> & Hch' & Ha'). destruct (atomic_spec (P1, T1) ops) as [rs [P' T']].
  exists d', m'. split; [done|]. split; [by eapply changes_trans|done].
Qed.

(** Removing an element before it is added has the same effect as removing it afterwards. *)
Lemma remove_before_put P T k v ts : k ∉ P.*1 → k ∉ T →
  atomic_spec (P, T) [ARemove k; ASet (mkElement k v ts)] = ([Ok tt; Ok tt], (P, T))
  ∧ atomic_spec (P, T) [ASet (mkElement k v ts); ARemove k] = ([Ok tt; Ok tt], (P, T)).
Proof using.
  intros HP HT. cbn [atomic_spec spec_apply]. rewrite (decide_False (P := k ∈ P.*1)), (decide_False (P := k ∈ T)) by done. cbn [fst snd]. split.
  - cbn [spec_apply]. rewrite (decide_False (P := k ∈ P.*1)), (decide_True (P := k ∈ {[k]} ∪ T)) by (done || (apply elem_of_union; left; by apply elem_of_singleton)).
    do 2 f_equal. apply set_eq. intros j. rewrite elem_of_difference, elem_of_union, !elem_of_singleton. split; [by intros [[->|?] ?]|].
    intros Hj. split; [by right|congruence].
  - rewrite (decide_False (P := k ∈ P.*1)), (decide_False (P := k ∈ T)) by done. cbn [spec_apply]. case_decide as Hk; [|exfalso; apply Hk; by left]. do 2 f_equal.
    unfold om_delete. rewrite filter_cons_False by (cbn; intros Hne; by apply Hne). by apply (om_delete_absent P k).
Qed.

(** Shared memory: after any sequence of [SetValue] and [RemoveValue] on an empty memory the
    calls returned what they mean: an element that is present is not added again, one that was
    removed too early is not removed again, and its later addition cancels the removal.  [Value]
    finds exactly the elements that are present, and [getKeys] returns different keys of present
    elements that have one of the traits, no more than the limit, and all of them if it starts at
    the beginning and the limit is not reached. *)
Theorem atomic_memory_refines d ops : db_ok d → Database.contents d = Some ∅ → Forall op_fits ops →
  ∃ d', let '(rs, (P, T)) := atomic_spec ([], ∅) ops in
    atomic_run (st d) ops = (rs, st d')
    ∧ (∀ k, Value extra_cap implements (st d') k
            = match om_get P k with Some (v, ts) => Ok (mkElement k v ts) | None => Err (ADb ErrNotFound) end)
    ∧ ∀ traits startTrait startKey total fuel, Forall U traits → 0 ≤ total → (length P < fuel)%nat →
        (∀ k k', k ∈ P.*1 → k' ∈ P.*1 → ComputeHash256 k = ComputeHash256 k' → k = k') →
        ∃ ks lt lk, getKeys extra_cap implements ComputeHash256 fuel (st d') traits startTrait startKey total = Some (Ok (ks, lt, lk))
          ∧ NoDup ks ∧ Z.of_nat (length ks) ≤ total
          ∧ (∀ k, k ∈ ks → ∃ v ts t, (k, (v, ts)) ∈ P ∧ t ∈ ts ∧ t ∈ traits)
          ∧ (startTrait = [] → startKey = [] → [] ∉ P.*1 → Z.of_nat (length ks) < total →
             ∀ k v ts t, (k, (v, ts)) ∈ P → t ∈ ts → t ∈ traits → k ∈ ks).
Proof using Hperm hash_length range_perm no_collision vp_length vp_apart.
  intros Hd Hm Hops. pose proof (ainv_empty d Hd Hm) as Ha.
  destruct (atomic_run_inv ops Hops d ∅ [] ∅ Ha) as (d' & m' & E & _ & Ha'). exists d'.
  destruct (atomic_spec ([], ∅) ops) as [rs [P T]]. cbn [fst snd] in *. split; [exact E|]. split.
  - intros k. by apply (Value_spec d' m' P T).
  - intros traits startTrait startKey total fuel HU Ht Hf Hinj. by apply (getKeys_spec d' m' P T).
Qed.
End lists.

(** ** Example *)

(** A function with the length of the hash, that does not collide on short strings *)
Definition ex_hash (b : bytes) : bytes := take 32 (Z.of_nat (length b) :: b ++ replicate 32 0).

Lemma ex_hash_length b : length (ex_hash b) = 32%nat.
Proof. unfold ex_hash. rewrite length_take. cbn [length]. rewrite length_app, length_replicate. lia. Qed.

Definition ex_trait (t : bytes) : Prop := t = [7] ∨ t = [8].

Lemma ex_no_collision t t' : ex_trait t → ex_trait t' → tp ex_hash [1] t = tp ex_hash [1] t' → t = t'.
Proof. intros [->| ->] [->| ->] E; vm_compute in E; congruence. Qed.

Definition ex_prefix : bytes := ex_hash [0; 0; 0].

Lemma ex_apart t : ex_trait t → tp ex_hash [1] t ≠ ex_prefix.
Proof. intros [->| ->] E; vm_compute in E; congruence. Qed.

Definition ex_atomic_ops : list atomic_op :=
  [ARemove [5]; ASet (mkElement [6] [60] [[7]; [8]]); ASet (mkElement [5] [50] [[7]]); ASet (mkElement [4] [40] [[8]]); ARemove [6]; ARemove [6]; ARemove [6]].

Definition ex_state (d : memdb) : state (D := memdb_database sample_range) := mkState (D := memdb_database sample_range) ex_prefix [1] d.

Lemma atomic_memory_refines_witness : ∃ d',
  (atomic_run ex_cap ex_implements ex_range (D := memdb_database sample_range) ex_hash ex_nodes (ex_state (mkMemdb (Some ∅))) ex_atomic_ops)
  = ([Ok tt; Ok tt; Ok tt; Ok tt; Ok tt; Ok tt; Err errDuplicateRemove], ex_state d')
  ∧ Value ex_cap ex_implements (ex_state d') [4] = Ok (mkElement [4] [40] [[8]])
  ∧ ∃ lt lk, getKeys ex_cap ex_implements ex_hash 2 (ex_state d') [[8]; [7]] [] [] 5 = Some (Ok ([[4]], lt, lk)).
Proof.
  assert (Hs : ∀ b, bytes_ok b → Z.of_nat (length b) ≤ 2 ^ 29 → small b) by (by split).
  destruct (atomic_memory_refines ex_cap ex_implements ex_range ex_perm (D := memdb_database sample_range)
    (L := memdb_laws sample_range (λ _ _, reflexivity _)) ex_hash ex_hash_length ex_nodes (λ _, reflexivity _) ex_prefix [1]
    ex_trait ex_no_collision eq_refl ex_apart (mkMemdb (Some ∅)) ex_atomic_ops) as (d' & H).
  - exact I.
  - reflexivity.
  - repeat constructor; cbn; try lia; (by left) || by right.
  - change (atomic_spec ([], ∅) ex_atomic_ops) with
      ([Ok tt; Ok tt; Ok tt; Ok tt; Ok tt; Ok tt; Err errDuplicateRemove], ([([4], ([40], [[8]]))], (atomic_spec ([], ∅) ex_atomic_ops).2.2)) in H.
    cbn iota in H. destruct H as (E & HV & HK). exists d'. split; [exact E|]. split; [apply (HV [4])|].
    destruct (HK [[8]; [7]] [] [] 5 2%nat) as (ks & lt & lk & Ek & Hnd & _ & Hsub & Hall).
    + constructor; [by right|]. constructor; [by left|constructor].
    + lia.
    + cbn. lia.
    + intros k k' Hk Hk' _. apply list_elem_of_singleton in Hk, Hk'. by subst.
    + exists lt, lk. unfold ex_state. etrans; [exact Ek|]. do 3 f_equal. assert (Hk4 : ∀ k, k ∈ ks → k = [4]).
      { intros k Hk. destruct (Hsub k Hk) as (v & ts & t & Hin & _). apply list_elem_of_singleton in Hin. congruence. }
      destruct ks as [|k ks].
      * exfalso. assert (Hin : [4] ∈ @nil bytes); [|by apply elem_of_nil in Hin].
        apply (Hall eq_refl eq_refl ltac:(intros Hn; by apply list_elem_of_singleton in Hn) ltac:(cbn; lia) [4] [40] [[8]] [8]); by left.
      * rewrite (Hk4 k) in * by (by left). destruct ks as [|k' ks]; [done|]. apply NoDup_cons in Hnd as [Hnd _]. exfalso. apply Hnd.
        rewrite (Hk4 k') by (right; by left). by left.
Defined.
