(* ===== verification/Locks.v ===== *)
(** * Locks of the shared memory

    [chains/atomic/memory.go] with the locking of [shared_memory.go].  A memory keeps one mutex
    for each shared database in use, counts the calls that use it, and forgets it when the
    last of them releases it.  The calls run concurrently: [Get] and [Indexed] lock one
    database, [Apply] locks the databases of all its requests, and the deferred releases run
    in reverse order when a call returns, by an error or not.

    The mutexes live on a heap, so that a mutex which the map has forgotten is still there for
    the call about to unlock it.  [makeLock] and [releaseLock] hold [m.lock] for their whole
    bodies, so that each is one step; [Lock] and [Unlock] of a mutex are steps of their own. *)

From S2P Require Import Prelude Packer Database Bimap Codec CodecWrite CodecRead CodecManager Cacher Linkeddb LinkeddbList Atomic.

Open Scope Z_scope.

(** ** The memory *)

Record rcLock := mkRcLock { lock : bool; count : Z }.

(** [locks] maps an ID to a pointer; [heap] holds what is pointed to, and [next] is unused. *)
Record Memory := mkMemory { locks : gmap bytes nat; heap : gmap nat rcLock; next : nat }.

Definition NewMemory : Memory := mkMemory ∅ ∅ 0.

Definition add_count (h : gmap nat rcLock) (l : nat) (n : Z) : gmap nat rcLock :=
  alter (λ rc, mkRcLock (lock rc) (count rc + n)) l h.

Definition makeLock (m : Memory) (sharedID : bytes) : nat * Memory :=
  let '(rc, m) := match locks m !! sharedID with
                  | Some rc => (rc, m)
                  | None => (next m, mkMemory (<[sharedID := next m]> (locks m)) (<[next m := mkRcLock false 0]> (heap m)) (S (next m)))
                  end in
  (rc, mkMemory (locks m) (add_count (heap m) rc 1) (next m)).

(** [None] is the panic on an unknown lock. *)
Definition releaseLock (m : Memory) (sharedID : bytes) : option (nat * Memory) :=
  match locks m !! sharedID with
  | None => None
  | Some rc =>
      let h := add_count (heap m) rc (-1) in
      let ls := if decide (count <$> h !! rc = Some 0) then delete sharedID (locks m) else locks m in
      Some (rc, mkMemory ls h (next m))
  end.

(** [sync.Mutex]: [Lock] waits while the mutex is locked; [Unlock] of an unlocked one is fatal. *)
Definition Lock (m : Memory) (l : nat) : option Memory :=
  match heap m !! l with
  | Some (mkRcLock false n) => Some (mkMemory (locks m) (<[l := mkRcLock true n]> (heap m)) (next m))
  | _ => None
  end.
Definition Unlock (m : Memory) (l : nat) : option Memory :=
  match heap m !! l with
  | Some (mkRcLock true n) => Some (mkMemory (locks m) (<[l := mkRcLock false n]> (heap m)) (next m))
  | _ => None
  end.

(** ** Calls *)

(** Where a call is: between two calls of the memory, in [GetSharedDatabase] waiting for a
    mutex, or in [ReleaseSharedDatabase] about to unlock one *)
Inductive place := Running | Waiting (id : bytes) (l : nat) | Unlocking (l : nat).

Record call := mkCall { todo : list bytes; deferred : list bytes; returning : bool; place_of : place }.

Inductive outcome := Next (m : Memory) (c : call) | Blocked | Returned | Panic.

(** One step of a call.  [fails] is whether the body of the loop of [Apply] returns an error
    before the next database is taken. *)
Definition call_step (m : Memory) (c : call) (fails : bool) : outcome :=
  match place_of c with
  | Waiting id l =>
      match Lock m l with
      | None => Blocked
      | Some m => Next m (mkCall (todo c) (id :: deferred c) false Running)
      end
  | Unlocking l =>
      match Unlock m l with
      | None => Panic
      | Some m => Next m (mkCall (todo c) (deferred c) true Running)
      end
  | Running =>
      if returning c then
        match deferred c with
        | [] => Returned
        | id :: ids =>
            match releaseLock m id with
            | None => Panic
            | Some (l, m) => Next m (mkCall (todo c) ids true (Unlocking l))
            end
        end
      else
        match todo c, fails && negb (bool_decide (deferred c = [])) with
        | id :: ids, false => let '(l, m) := makeLock m id in Next m (mkCall ids (deferred c) false (Waiting id l))
        | _, _ => Next m (mkCall [] (deferred c) true Running)
        end
  end.

Definition config : Type := Memory * list call.

Inductive step : config → config → Prop :=
  | step_call m cs i c fails m' c' :
      cs !! i = Some c → call_step m c fails = Next m' c' → step (m, cs) (m', <[i := c']> cs).

Definition returned (c : call) : Prop := place_of c = Running ∧ returning c = true ∧ deferred c = [].

(** ** Counting calls *)

Definition b2n (b : bool) : nat := if b then 1 else 0.

Definition holds (id : bytes) (c : call) : nat := b2n (bool_decide (id ∈ deferred c)).
Definition waits (id : bytes) (c : call) : nat :=
  match place_of c with Waiting id' _ => b2n (bool_decide (id' = id)) | _ => 0 end.
Definition unlocks (l : nat) (c : call) : nat :=
  match place_of c with Unlocking l' => b2n (bool_decide (l' = l)) | _ => 0 end.

Section total.
Context {A : Type} (f : A → nat).

Definition total (cs : list A) : nat := sum_list_with f cs.

Lemma total_move cs i c c' : cs !! i = Some c → (total (<[i := c']> cs) + f c = total cs + f c')%nat.
Proof using.
  revert i. induction cs as [|x cs IH]; intros [|i] H; [done|done| |]; unfold total in *.
  - injection H as ->. cbn [list_insert insert sum_list_with]. lia.
  - specialize (IH i H). change (<[S i := c']> (x :: cs)) with (x :: <[i := c']> cs). cbn [sum_list_with]. lia.
Qed.

Lemma total_ge cs i c : cs !! i = Some c → (f c ≤ total cs)%nat.
Proof using.
  revert i. induction cs as [|x cs IH]; intros [|i] H; [done|done| |]; unfold total in *; cbn [sum_list_with].
  - injection H as ->. lia.
  - specialize (IH i H). lia.
Qed.

Lemma total_ge2 cs i j c d : i ≠ j → cs !! i = Some c → cs !! j = Some d → (f c + f d ≤ total cs)%nat.
Proof using.
  revert i j. induction cs as [|x cs IH]; intros [|i] [|j] Hne Hi Hj; try done; unfold total in *; cbn [sum_list_with]; simpl in Hi, Hj.
  - injection Hi as ->. pose proof (total_ge cs j d Hj). unfold total in *. lia.
  - injection Hj as ->. pose proof (total_ge cs i c Hi). unfold total in *. lia.
  - specialize (IH i j ltac:(congruence) Hi Hj). lia.
Qed.

Lemma total_pos cs : (0 < total cs)%nat → ∃ i c, cs !! i = Some c ∧ (0 < f c)%nat.
Proof using.
  induction cs as [|x cs IH]; unfold total in *; cbn [sum_list_with]; [lia|]. intros H.
  destruct (f x) as [|n] eqn:E; [|exists O, x; split; [done|lia]].
  destruct IH as (i & c & Hi & Hc); [lia|]. by exists (S i), c.
Qed.

Lemma total_snoc cs c : total (cs ++ [c]) = (total cs + f c)%nat.
Proof using. unfold total. rewrite sum_list_with_app. cbn. lia. Qed.
End total.

(** ** The invariant *)

Definition waiting (c : call) : list bytes := match place_of c with Waiting id _ => [id] | _ => [] end.

(** A call takes its databases in increasing order, and once it returns it takes no more. *)
Record call_ok (m : Memory) (c : call) : Prop := {
  co_sorted : StronglySorted key_lt (reverse (deferred c) ++ waiting c ++ todo c);
  co_waiting : ∀ id l, place_of c = Waiting id l → locks m !! id = Some l ∧ returning c = false;
  co_unlocking : ∀ l, place_of c = Unlocking l → returning c = true;
  co_returning : returning c = true → todo c = [];
}.

(** A mutex in the map is counted by the calls that use its database, and locked by the one
    that holds it or is about to unlock it. *)
Record entry_ok (m : Memory) (cs : list call) (id : bytes) (l : nat) : Prop := {
  eo_rc : ∃ rc, heap m !! l = Some rc ∧ count rc = Z.of_nat (total (holds id) cs + total (waits id) cs)
            ∧ (total (holds id) cs + total (unlocks l) cs = b2n (lock rc))%nat;
  eo_used : (0 < total (holds id) cs + total (waits id) cs)%nat;
}.

Record lock_inv (m : Memory) (cs : list call) : Prop := {
  li_calls : ∀ i c, cs !! i = Some c → call_ok m c;
  li_entry : ∀ id l, locks m !! id = Some l → entry_ok m cs id l;
  li_unused : ∀ id, locks m !! id = None → total (holds id) cs = 0%nat ∧ total (waits id) cs = 0%nat;
  li_inj : ∀ id id' l, locks m !! id = Some l → locks m !! id' = Some l → id = id';
  li_free : ∀ l, (∀ id, locks m !! id ≠ Some l) →
    total (unlocks l) cs = match heap m !! l with Some rc => b2n (lock rc) | None => 0%nat end;
  li_fresh : ∀ l, (next m ≤ l)%nat → heap m !! l = None;
}.

Lemma locks_not_other m cs id l id' l' : lock_inv m cs → locks m !! id = Some l → locks m !! id' = Some l' → id ≠ id' → l ≠ l'.
Proof. intros H Hl Hl' Hne ->. by apply Hne, (li_inj m cs H id id' l'). Qed.

(** A mutex of the heap that another call may use keeps its fields. *)
Lemma add_count_other h l n l' : l ≠ l' → add_count h l n !! l' = h !! l'.
Proof. intros. unfold add_count. by rewrite lookup_alter_ne. Qed.
Lemma add_count_same h l n rc : h !! l = Some rc → add_count h l n !! l = Some (mkRcLock (lock rc) (count rc + n)).
Proof. intros E. unfold add_count. by rewrite lookup_alter_eq, E. Qed.
Lemma add_count_lock h l n l' : lock <$> add_count h l n !! l' = lock <$> h !! l'.
Proof.
  destruct (decide (l = l')) as [->|Hne]; [|by rewrite add_count_other]. unfold add_count. rewrite lookup_alter_eq.
  by destruct (h !! l').
Qed.

(** What changes of the counts when one call moves *)
Section moves.
Context (m : Memory) (cs : list call) (i : nat) (c c' : call) (Hi : cs !! i = Some c).

Lemma move_holds id : holds id c' = holds id c → total (holds id) (<[i := c']> cs) = total (holds id) cs.
Proof using Hi. intros E. pose proof (total_move (holds id) cs i c c' Hi). lia. Qed.
Lemma move_waits id : waits id c' = waits id c → total (waits id) (<[i := c']> cs) = total (waits id) cs.
Proof using Hi. intros E. pose proof (total_move (waits id) cs i c c' Hi). lia. Qed.
Lemma move_unlocks l : unlocks l c' = unlocks l c → total (unlocks l) (<[i := c']> cs) = total (unlocks l) cs.
Proof using Hi. intros E. pose proof (total_move (unlocks l) cs i c c' Hi). lia. Qed.

Lemma move_calls m' : (∀ j d, cs !! j = Some d → call_ok m d) → call_ok m' c' →
  (∀ j d id l, cs !! j = Some d → j ≠ i → place_of d = Waiting id l → locks m' !! id = Some l) →
  ∀ j d, <[i := c']> cs !! j = Some d → call_ok m' d.
Proof using Hi.
  intros Hok Hc' Hw j d Hj. apply list_lookup_insert_Some in Hj as [(-> & -> & _)|[Hne Hj]]; [done|].
  destruct (Hok j d Hj) as [S W U R]. split; [done| |done|done].
  intros id l E. split; [by eapply Hw|by eapply W].
Qed.
End moves.

(** ** Every step keeps the invariant *)

(** The call returns, or gives up the rest of its requests. *)
Lemma return_inv m cs i c : lock_inv m cs → cs !! i = Some c → place_of c = Running → returning c = false →
  lock_inv m (<[i := mkCall [] (deferred c) true Running]> cs).
Proof.
  intros H Hi Hp Hr. set (c' := mkCall _ _ _ _).
  assert (EH : ∀ id, total (holds id) (<[i := c']> cs) = total (holds id) cs) by (intros; by apply (move_holds cs i c)).
  assert (EW : ∀ id, total (waits id) (<[i := c']> cs) = total (waits id) cs)
    by (intros; apply (move_waits cs i c); [done|]; unfold waits; by rewrite Hp).
  assert (EU : ∀ l, total (unlocks l) (<[i := c']> cs) = total (unlocks l) cs)
    by (intros; apply (move_unlocks cs i c); [done|]; unfold unlocks; by rewrite Hp).
  destruct H as [Hc He Hn Hj Hf Hx]. split; [| | |done| |done].
  - eapply (move_calls m cs i c c' Hi); [done| |intros j d id l ???; by eapply Hc]. destruct (Hc i c Hi) as [S _ _ _].
    split; [|done..]. cbn. rewrite app_nil_r. by eapply StronglySorted_app_1_l.
  - intros id l Hl. destruct (He id l Hl) as [Hrc Hu]. split; by rewrite EH, EW, ?EU.
  - intros id Hl. rewrite EH, EW. by apply Hn.
  - intros l Hl. rewrite EU. by apply Hf.
Qed.

(** The count of a lock that exists goes up; a new lock is unlocked, with the count 1. *)
Lemma makeLock_spec m cs id l m' : lock_inv m cs → makeLock m id = (l, m') →
  locks m' = <[id := l]> (locks m)
  ∧ (∀ l', l' ≠ l → heap m' !! l' = heap m !! l')
  ∧ (next m ≤ next m')%nat ∧ (l < next m')%nat
  ∧ heap m' !! l = Some (mkRcLock (match heap m !! l with Some rc => lock rc | None => false end)
                           (Z.of_nat (total (holds id) cs + total (waits id) cs) + 1))
  ∧ match locks m !! id with Some l0 => l0 = l | None => l = next m end.
Proof.
  intros H. unfold makeLock. destruct (locks m !! id) as [l0|] eqn:E; intros [= <- <-]; cbn [locks heap next].
  - destruct (li_entry m cs H id l0 E) as [(rc & Hrc & Hn & _) _]. split; [by rewrite insert_id|].
    split; [intros; by apply add_count_other|]. split; [done|]. split; [|by rewrite (add_count_same _ _ _ rc), Hrc, Hn].
    destruct (decide (next m ≤ l0)%nat) as [Hle|]; [|lia]. by rewrite (li_fresh m cs H l0 Hle) in Hrc.
  - split; [done|]. split; [intros l' Hl'; by rewrite add_count_other, lookup_insert_ne|]. split; [lia|]. split; [lia|]. split; [|done].
    rewrite (add_count_same _ _ _ (mkRcLock false 0)) by apply lookup_insert_eq. destruct (li_unused m cs H id E) as [-> ->].
    by rewrite (li_fresh m cs H (next m)).
Qed.

(** A new lock is no lock of the map. *)
Lemma makeLock_apart m cs id l m' id' l' : lock_inv m cs → makeLock m id = (l, m') → id' ≠ id → locks m !! id' = Some l' → l' ≠ l.
Proof.
  intros H Em Hne Hl' ->. destruct (makeLock_spec m cs id l m' H Em) as (_ & _ & _ & _ & _ & Hcase).
  destruct (locks m !! id) as [l0|] eqn:E; subst.
  - by apply Hne, (li_inj m cs H id' id l).
  - destruct (li_entry m cs H id' _ Hl') as [(rc & Hrc & _) _]. by rewrite (li_fresh m cs H (next m)) in Hrc.
Qed.

Lemma acquire_inv m cs i c id ids l m' : lock_inv m cs → cs !! i = Some c → place_of c = Running → returning c = false →
  todo c = id :: ids → makeLock m id = (l, m') → lock_inv m' (<[i := mkCall ids (deferred c) false (Waiting id l)]> cs).
Proof.
  intros H Hi Hp Hr Ht Em. set (c' := mkCall _ _ _ _).
  destruct (makeLock_spec m cs id l m' H Em) as (El & Eh & Hnx & Hlt & Ehl & Hcase).
  assert (EH : ∀ id, total (holds id) (<[i := c']> cs) = total (holds id) cs) by (intros; by apply (move_holds cs i c)).
  assert (EU : ∀ l, total (unlocks l) (<[i := c']> cs) = total (unlocks l) cs)
    by (intros; apply (move_unlocks cs i c); [done|]; unfold unlocks; by rewrite Hp).
  assert (EW : ∀ id', total (waits id') (<[i := c']> cs) = (total (waits id') cs + b2n (bool_decide (id = id')))%nat).
  { intros id'. pose proof (total_move (waits id') cs i c c' Hi) as E. unfold waits in E at 2 4. rewrite Hp in E. cbn [place_of c'] in E. lia. }
  assert (Hap := λ id' l', makeLock_apart m cs id l m' id' l' H Em).
  destruct H as [Hc He Hn Hj Hf Hx]. split.
  - eapply (move_calls m cs i c c' Hi); [done| |].
    + destruct (Hc i c Hi) as [S _ _ _]. split; [|intros ?? [= <- <-]; by rewrite El, lookup_insert_eq|done|done].
      unfold waiting in *. rewrite Hp, Ht in S. done.
    + intros j d id' l' Hjd _ Hw. apply (Hc j d Hjd) in Hw as [Hw _]. rewrite El. destruct (decide (id = id')) as [->|Hne].
      * rewrite Hw in Hcase. subst. by rewrite lookup_insert_eq.
      * by rewrite lookup_insert_ne.
  - intros id' l'. rewrite El. intros [[-> ->]|[Hne Hl']]%lookup_insert_Some.
    + split; rewrite EH, EW, bool_decide_true by done; cbn [b2n]; [|lia].
      eexists. split; [exact Ehl|]. cbn [count lock]. split; [lia|]. rewrite EU.
      destruct (locks m !! id') as [l0|] eqn:E.
      * subst. destruct (He id' l' E) as [(rc & -> & _ & Hrc) _]. done.
      * subst. rewrite (Hx (next m)) by done. destruct (Hn id' E) as [-> _]. rewrite Hf, (Hx (next m)); [done..|].
        intros id Hid. destruct (He id _ Hid) as [(rc & Hrc & _) _]. by rewrite (Hx (next m)) in Hrc.
    + assert (Hll : l' ≠ l) by (apply (Hap id'); done). destruct (He id' l' Hl') as [Hrc Hu].
      split; rewrite EH, EW, bool_decide_false by done; cbn [b2n]; rewrite Nat.add_0_r, ?EU, ?Eh by done; done.
  - intros id'. rewrite El. intros [Hl' Hne]%lookup_insert_None. rewrite EH, EW, bool_decide_false by done.
    destruct (Hn id' Hl') as [-> ->]. done.
  - intros id1 id2 l'. rewrite El. intros [[-> ->]|[Hne1 H1]]%lookup_insert_Some [[-> E2]|[Hne2 H2]]%lookup_insert_Some; subst.
    + done.
    + by destruct (Hap id2 l').
    + by destruct (Hap id1 l').
    + by eapply Hj.
  - intros l' Hl'. rewrite EU. assert (Hne : l' ≠ l) by (intros ->; apply (Hl' id); by rewrite El, lookup_insert_eq).
    rewrite Eh by done. apply Hf. intros id' Hid'. destruct (decide (id' = id)) as [->|Hnid].
    + rewrite Hid' in Hcase. done.
    + apply (Hl' id'). by rewrite El, lookup_insert_ne.
  - intros l' Hl'. rewrite Eh; [apply Hx|]; lia.
Qed.

Lemma in_map_dec (ls : gmap bytes nat) (l : nat) : (∃ id, ls !! id = Some l) ∨ ∀ id, ls !! id ≠ Some l.
Proof.
  destruct (decide (map_Exists (λ _ l', l' = l) ls)) as [(id & l' & E & ->)|Hno]; [left; by exists id|].
  right. intros id E. apply Hno. by exists id, l.
Qed.

(** A call does not hold the database that it waits for, nor the same one twice. *)
Lemma sorted_apart (ids : list bytes) id rest : StronglySorted key_lt (ids ++ id :: rest) → id ∉ ids ∧ Forall (λ x, key_lt x id) ids.
Proof.
  intros H. assert (Hall : Forall (λ x, key_lt x id) ids).
  { apply Forall_forall. intros x Hx. eapply StronglySorted_app_1_elem_of; [exact H|done|apply list_elem_of_here]. }
  split; [|done]. intros Hin. rewrite Forall_forall in Hall. specialize (Hall id Hin). unfold key_lt in Hall. by rewrite bytes_lt_irrefl in Hall.
Qed.

Lemma lock_cases m l m' : Lock m l = Some m' → ∃ n, heap m !! l = Some (mkRcLock false n)
  ∧ m' = mkMemory (locks m) (<[l := mkRcLock true n]> (heap m)) (next m).
Proof. unfold Lock. destruct (heap m !! l) as [[[] n]|]; [done| |done]. intros [= <-]. by exists n. Qed.
Lemma unlock_cases m l m' : Unlock m l = Some m' → ∃ n, heap m !! l = Some (mkRcLock true n)
  ∧ m' = mkMemory (locks m) (<[l := mkRcLock false n]> (heap m)) (next m).
Proof. unfold Unlock. destruct (heap m !! l) as [[[] n]|]; [|done|done]. intros [= <-]. by exists n. Qed.

(** The heap of a memory after one mutex changed stays fresh. *)
Lemma insert_fresh m cs l rc rc' : lock_inv m cs → heap m !! l = Some rc →
  ∀ l', (next m ≤ l')%nat → <[l := rc']> (heap m) !! l' = None.
Proof.
  intros H Hl l' Hle. apply lookup_insert_None. split; [by apply (li_fresh m cs H)|]. intros ->. by rewrite (li_fresh m cs H l' Hle) in Hl.
Qed.

Lemma lock_step_inv m cs i c id l m' : lock_inv m cs → cs !! i = Some c → place_of c = Waiting id l → Lock m l = Some m' →
  lock_inv m' (<[i := mkCall (todo c) (id :: deferred c) false Running]> cs).
Proof.
  intros H Hi Hp (n & Hl & ->)%lock_cases. set (c' := mkCall _ _ _ _).
  destruct (li_calls m cs H i c Hi) as [S W _ _]. destruct (W id l Hp) as [Hid Hr]. unfold waiting in S. rewrite Hp in S.
  destruct (sorted_apart _ _ _ S) as [Hni _]. rewrite elem_of_reverse in Hni.
  assert (EH : ∀ id', total (holds id') (<[i := c']> cs) = (total (holds id') cs + b2n (bool_decide (id = id')))%nat).
  { intros id'. pose proof (total_move (holds id') cs i c c' Hi) as E. unfold holds in E at 2 4. cbn [c' deferred] in E.
    destruct (decide (id = id')) as [<-|Hne]; repeat case_bool_decide; cbn [b2n] in *; first [lia|set_solver]. }
  assert (EW : ∀ id', (total (waits id') (<[i := c']> cs) + b2n (bool_decide (id = id')) = total (waits id') cs)%nat).
  { intros id'. pose proof (total_move (waits id') cs i c c' Hi) as E. unfold waits in E at 2 4. rewrite Hp in E. cbn [place_of c'] in E. lia. }
  assert (EU : ∀ l, total (unlocks l) (<[i := c']> cs) = total (unlocks l) cs)
    by (intros; apply (move_unlocks cs i c); [done|]; unfold unlocks; by rewrite Hp).
  pose proof (insert_fresh m cs l _ (mkRcLock true n) H Hl) as Hx'. pose proof (locks_not_other m cs id l) as Hap.
  pose proof H as [Hc He Hn Hj Hf Hx]. split; cbn [locks heap next]; [| | |done| |done].
  - eapply (move_calls m cs i c c' Hi); [done| |intros j d id' l' ???; by eapply Hc].
    split; [|done..]. cbn [c' deferred todo waiting place_of app]. rewrite reverse_cons, <- (assoc_L (++)). exact S.
  - intros id' l' Hl'. destruct (He id' l' Hl') as [(rc & Hrc & Hcnt & Hown) Hu]. specialize (EH id'). specialize (EW id').
    split; cbn [heap]; [|lia]. destruct (decide (id = id')) as [<-|Hne].
    + replace l' with l in * by congruence. rewrite bool_decide_true in EH, EW by done. cbn [b2n] in *.
      rewrite Hl in Hrc. injection Hrc as <-. cbn [lock count b2n] in *. eexists. split; [apply lookup_insert_eq|].
      cbn [lock count b2n]. rewrite EU. lia.
    + rewrite bool_decide_false in EH, EW by done. cbn [b2n] in *. exists rc.
      rewrite lookup_insert_ne by (by apply (Hap id' l')). rewrite EU. split; [done|]. lia.
  - intros id' Hl'. destruct (Hn id' Hl') as [H1 H2]. specialize (EH id'). specialize (EW id').
    rewrite bool_decide_false in EH, EW by congruence. cbn [b2n] in *. lia.
  - intros l' Hl'. rewrite EU, lookup_insert_ne by (intros <-; by apply (Hl' id)). by apply Hf.
Qed.

Lemma release_cases m cs id l m' : lock_inv m cs → releaseLock m id = Some (l, m') →
  locks m !! id = Some l ∧ next m' = next m
  ∧ (∀ l', l' ≠ l → heap m' !! l' = heap m !! l') ∧ (∀ id', id' ≠ id → locks m' !! id' = locks m !! id')
  ∧ ∃ rc, heap m !! l = Some rc ∧ heap m' !! l = Some (mkRcLock (lock rc) (count rc - 1))
      ∧ locks m' !! id = if decide (count rc - 1 = 0) then None else Some l.
Proof.
  intros H. unfold releaseLock. destruct (locks m !! id) as [l0|] eqn:E; [|done]. intros [= <- <-]. cbn [locks heap next].
  destruct (li_entry m cs H id l0 E) as [(rc & Hrc & _) _]. split; [done|]. split; [done|]. split; [intros; by apply add_count_other|].
  split; [intros id' Hne; case_decide; [by rewrite lookup_delete_ne|done]|]. exists rc. split; [done|].
  rewrite (add_count_same _ _ _ rc) by done. split; [done|]. cbn. change (count rc + -1) with (count rc - 1).
  destruct (decide (count rc - 1 = 0)) as [Hz|Hz]; [rewrite decide_True by congruence; apply lookup_delete_eq|].
  by rewrite decide_False by congruence.
Qed.

(** A lock is forgotten when only the call that releases it uses it. *)
Lemma release_forgets m cs i c id l m' : lock_inv m cs → cs !! i = Some c → id ∈ deferred c → releaseLock m id = Some (l, m') →
  (∀ id' l', locks m' !! id' = Some l' → locks m !! id' = Some l')
  ∧ (locks m' !! id = None → total (holds id) cs = 1%nat ∧ total (waits id) cs = 0%nat).
Proof.
  intros H Hi Hd Em. destruct (release_cases m cs id l m' H Em) as (Hid & _ & _ & El & rc & Hrc & _ & Elid). split.
  - intros id' l'. destruct (decide (id' = id)) as [->|Hne]; [|by rewrite El]. rewrite Elid. case_decide; [done|congruence].
  - rewrite Elid. case_decide; [|done]. intros _. destruct (li_entry m cs H id l Hid) as [(rc0 & Hrc0 & Hcnt & _) _].
    pose proof (total_ge (holds id) cs i c Hi) as Hge. unfold holds in Hge at 1. rewrite bool_decide_true in Hge by done. cbn [b2n] in Hge.
    assert (rc0 = rc) as -> by congruence. lia.
Qed.

(** A call that still waits for the database keeps its lock in the map. *)
Lemma release_waiting m cs i c id l m' j d id' l' : lock_inv m cs → cs !! i = Some c → id ∈ deferred c → releaseLock m id = Some (l, m') →
  cs !! j = Some d → place_of d = Waiting id' l' → locks m' !! id' = Some l'.
Proof.
  intros H Hi Hd Em Hj Hw. destruct (release_cases m cs id l m' H Em) as (_ & _ & _ & El & _).
  destruct (release_forgets m cs i c id l m' H Hi Hd Em) as [Hkeep Hgone].
  pose proof (proj1 (co_waiting m d (li_calls m cs H j d Hj) id' l' Hw)) as Hl'.
  destruct (decide (id' = id)) as [->|Hne]; [|by rewrite El]. destruct (locks m' !! id) as [l0|] eqn:E; [by rewrite (Hkeep _ _ E) in Hl'|].
  destruct (Hgone eq_refl) as [_ Hz]. pose proof (total_ge (waits id) cs j d Hj) as Hge. unfold waits in Hge at 1.
  rewrite Hw, bool_decide_true in Hge by done. cbn [b2n] in Hge. lia.
Qed.

Lemma release_inv m cs i c id ids l m' : lock_inv m cs → cs !! i = Some c → place_of c = Running → returning c = true →
  deferred c = id :: ids → releaseLock m id = Some (l, m') → lock_inv m' (<[i := mkCall (todo c) ids true (Unlocking l)]> cs).
Proof.
  intros H Hi Hp Hr Hd Em. set (c' := mkCall _ _ _ _).
  destruct (release_cases m cs id l m' H Em) as (Hid & Hnx & Eh & El & rc & Hrc & Hrc' & Elid).
  destruct (li_calls m cs H i c Hi) as [S _ _ T]. unfold waiting in S. rewrite Hp, Hd, T, !app_nil_r, reverse_cons in S by done.
  destruct (sorted_apart _ _ _ S) as [Hni _]. rewrite elem_of_reverse in Hni.
  assert (EH : ∀ id', (total (holds id') (<[i := c']> cs) + b2n (bool_decide (id = id')) = total (holds id') cs)%nat).
  { intros id'. pose proof (total_move (holds id') cs i c c' Hi) as E. unfold holds in E at 2 4. rewrite Hd in E. cbn [c' deferred] in E.
    destruct (decide (id = id')) as [<-|Hne]; repeat case_bool_decide; cbn [b2n] in *; first [lia|set_solver]. }
  assert (EW : ∀ id, total (waits id) (<[i := c']> cs) = total (waits id) cs)
    by (intros; apply (move_waits cs i c); [done|]; unfold waits; by rewrite Hp).
  assert (EU : ∀ l', total (unlocks l') (<[i := c']> cs) = (total (unlocks l') cs + b2n (bool_decide (l = l')))%nat).
  { intros l'. pose proof (total_move (unlocks l') cs i c c' Hi) as E. unfold unlocks in E at 2 4. rewrite Hp in E. cbn [place_of c'] in E. lia. }
  pose proof (λ id' l', locks_not_other m cs id' l' id l H) as Hap.
  pose proof H as [Hc He Hn Hj Hf Hx]. destruct (He id l Hid) as [(rc0 & Hrc0 & Hcnt & Hown) Hu].
  assert (rc0 = rc) as -> by congruence.
  assert (Hin : id ∈ deferred c) by (rewrite Hd; apply list_elem_of_here).
  destruct (release_forgets m cs i c id l m' H Hi Hin Em) as [Hkeep Hgone].
  split.
  - eapply (move_calls m cs i c c' Hi); [done| |].
    + split; [|done|done|]; cbn [c' deferred todo waiting place_of app]; rewrite T by done; [|done].
      rewrite app_nil_r. by eapply StronglySorted_app_1_l.
    + intros j d id' l' Hjd _. by apply (release_waiting m cs i c id l m' j d).
  - intros id' l' Hl''. pose proof (Hkeep _ _ Hl'') as Hl'. specialize (EH id'). specialize (EW id'). specialize (EU l').
    destruct (decide (id' = id)) as [->|Hne].
    + replace l' with l in * by congruence. rewrite bool_decide_true in EH, EU by done. cbn [b2n] in *.
      rewrite Elid in Hl''. case_decide; [done|]. split; [|lia]. eexists. split; [exact Hrc'|]. cbn [lock count]. lia.
    + assert (Hll : l' ≠ l) by (apply (Hap id' l'); done). rewrite bool_decide_false in EH, EU by done. cbn [b2n] in *.
      destruct (He id' l' Hl') as [(rc' & Hrc1 & Hcnt1 & Hown1) Hu1]. split; [|lia]. exists rc'. rewrite Eh by done. split; [done|]. lia.
  - intros id' Hl'. specialize (EH id'). specialize (EW id'). destruct (decide (id' = id)) as [->|Hne].
    + destruct (Hgone Hl') as [H1 H2]. rewrite bool_decide_true in EH by done. cbn [b2n] in EH. lia.
    + rewrite El in Hl' by done. destruct (Hn id' Hl') as [H1 H2]. lia.
  - intros id1 id2 l' H1 H2. eapply Hj; by apply Hkeep.
  - intros l' Hl'. specialize (EU l'). destruct (decide (l = l')) as [<-|Hne].
    + rewrite bool_decide_true in EU by done. cbn [b2n] in EU. rewrite Hrc'. cbn [lock].
      assert (Hz : locks m' !! id = None) by (destruct (locks m' !! id) as [l0|] eqn:E; [|done]; rewrite (Hkeep _ _ E) in Hid; injection Hid as ->; by destruct (Hl' id)).
      destruct (Hgone Hz) as [H1 H2]. lia.
    + rewrite bool_decide_false in EU by done. cbn [b2n] in EU. rewrite Eh by done. rewrite EU, Nat.add_0_r. apply Hf.
      intros id' Hid'. destruct (decide (id' = id)) as [->|Hnid]; [congruence|]. apply (Hl' id'). by rewrite El.
  - intros l' Hl'. rewrite Hnx in Hl'. pose proof (Hx l' Hl') as Hxl. rewrite Eh; [done|]. intros ->. congruence.
Qed.

(** The mutex that a call is about to unlock is locked, by nobody else. *)
Lemma unlocking_locked m cs i c l : lock_inv m cs → cs !! i = Some c → place_of c = Unlocking l →
  ∃ n, heap m !! l = Some (mkRcLock true n) ∧ total (unlocks l) cs = 1%nat ∧ ∀ id, locks m !! id = Some l → total (holds id) cs = 0%nat.
Proof.
  intros H Hi Hp. pose proof (total_ge (unlocks l) cs i c Hi) as Hge. unfold unlocks in Hge at 1. rewrite Hp, bool_decide_true in Hge by done.
  cbn [b2n] in Hge. destruct H as [_ He _ Hj Hf _].
  destruct (in_map_dec (locks m) l) as [[id Hid]|Hno].
  - destruct (He id l Hid) as [([b n] & Hrc & _ & Hown) _]. cbn [lock] in Hown. destruct b; cbn [b2n] in Hown; [|lia].
    exists n. split; [done|]. split; [lia|]. intros id' Hid'. rewrite (Hj id' id l Hid' Hid). lia.
  - specialize (Hf l Hno). destruct (heap m !! l) as [[b n]|]; [|lia]. cbn [lock] in Hf. destruct b; cbn [b2n] in Hf; [|lia].
    exists n. split; [done|]. split; [lia|]. intros id Hid. by destruct (Hno id).
Qed.

Lemma unlock_step_inv m cs i c l m' : lock_inv m cs → cs !! i = Some c → place_of c = Unlocking l → Unlock m l = Some m' →
  lock_inv m' (<[i := mkCall (todo c) (deferred c) true Running]> cs).
Proof.
  intros H Hi Hp (n & Hl & ->)%unlock_cases. set (c' := mkCall _ _ _ _).
  destruct (unlocking_locked m cs i c l H Hi Hp) as (_ & _ & Hone & Hnone).
  assert (EH : ∀ id, total (holds id) (<[i := c']> cs) = total (holds id) cs) by (intros; by apply (move_holds cs i c)).
  assert (EW : ∀ id, total (waits id) (<[i := c']> cs) = total (waits id) cs)
    by (intros; apply (move_waits cs i c); [done|]; unfold waits; by rewrite Hp).
  assert (EU : ∀ l', (total (unlocks l') (<[i := c']> cs) + b2n (bool_decide (l = l')) = total (unlocks l') cs)%nat).
  { intros l'. pose proof (total_move (unlocks l') cs i c c' Hi) as E. unfold unlocks in E at 2 4. rewrite Hp in E. cbn [place_of c'] in E. lia. }
  pose proof (insert_fresh m cs l _ (mkRcLock false n) H Hl) as Hx'.
  pose proof H as [Hc He Hn Hj Hf Hx]. split; cbn [locks heap next]; [| | |done| |done].
  - eapply (move_calls m cs i c c' Hi); [done| |intros j d id' l' ???; by eapply Hc].
    destruct (Hc i c Hi) as [S _ U R]. specialize (U l Hp). unfold waiting in S. rewrite Hp in S. split; [done..|]. intros _. by apply R.
  - intros id l' Hl'. destruct (He id l' Hl') as [(rc & Hrc & Hcnt & Hown) Hu]. specialize (EU l').
    split; cbn [heap]; rewrite EH, EW; [|lia]. destruct (decide (l = l')) as [<-|Hne].
    + rewrite bool_decide_true in EU by done. cbn [b2n] in EU. rewrite Hl in Hrc. injection Hrc as <-.
      eexists. split; [apply lookup_insert_eq|]. cbn [lock count b2n] in *. lia.
    + rewrite bool_decide_false in EU by done. cbn [b2n] in EU. exists rc. rewrite lookup_insert_ne by done. split; [done|]. lia.
  - intros id Hid. rewrite EH, EW. by apply Hn.
  - intros l' Hl'. specialize (Hf l' Hl'). specialize (EU l'). destruct (decide (l = l')) as [<-|Hne].
    + rewrite bool_decide_true in EU by done. rewrite lookup_insert_eq. cbn [lock b2n] in *. lia.
    + rewrite bool_decide_false in EU by done. rewrite lookup_insert_ne by done. cbn [b2n] in EU. lia.
Qed.

Lemma step_inv m cs m' cs' : lock_inv m cs → step (m, cs) (m', cs') → lock_inv m' cs'.
Proof.
  intros H Hs. inversion Hs as [? ? i c fails ? c' Hi E]; subst. unfold call_step in E. destruct (place_of c) as [|id l|l] eqn:Hp.
  - destruct (returning c) eqn:Hr.
    + destruct (deferred c) as [|id ids] eqn:Hd; [done|]. destruct (releaseLock m id) as [[l m1]|] eqn:Er; [|done].
      injection E as <- <-. by eapply release_inv.
    + destruct (todo c) as [|id ids] eqn:Ht; [injection E as <- <-; by apply return_inv|].
      destruct (fails && _); [injection E as <- <-; by apply return_inv|].
      destruct (makeLock m id) as [l m1] eqn:Em. injection E as <- <-. by eapply acquire_inv.
  - destruct (Lock m l) as [m1|] eqn:El; [|done]. injection E as <- <-. by eapply lock_step_inv.
  - destruct (Unlock m l) as [m1|] eqn:El; [|done]. injection E as <- <-. by eapply unlock_step_inv.
Qed.

Lemma begin_inv m cs ids : lock_inv m cs → StronglySorted key_lt ids → lock_inv m (cs ++ [mkCall ids [] false Running]).
Proof.
  intros [Hc He Hn Hj Hf Hx] Hs. set (c' := mkCall _ _ _ _).
  assert (EH : ∀ id, total (holds id) (cs ++ [c']) = total (holds id) cs) by (intros; rewrite total_snoc; unfold holds; rewrite bool_decide_false by set_solver; cbn; lia).
  assert (EW : ∀ id, total (waits id) (cs ++ [c']) = total (waits id) cs) by (intros; rewrite total_snoc; cbn; lia).
  assert (EU : ∀ l, total (unlocks l) (cs ++ [c']) = total (unlocks l) cs) by (intros; rewrite total_snoc; cbn; lia).
  split; [| | |done| |done].
  - intros i c [Hi|[_ [_ <-]%list_lookup_singleton_Some]]%lookup_app_Some; [by eapply Hc|]. by split.
  - intros id l Hl. destruct (He id l Hl) as [Hrc Hu]. split; by rewrite EH, EW, ?EU.
  - intros id Hl. rewrite EH, EW. by apply Hn.
  - intros l Hl. rewrite EU. by apply Hf.
Qed.

(** ** Progress *)

(** A call that runs or unlocks can go on. *)
Lemma call_progress m cs i c : lock_inv m cs → cs !! i = Some c → ¬ returned c → (∀ id l, place_of c ≠ Waiting id l) →
  ∃ m' c', call_step m c false = Next m' c'.
Proof.
  intros H Hi Hr Hw. unfold call_step. destruct (place_of c) as [|id l|l] eqn:Hp; [|by destruct (Hw id l)|].
  - destruct (returning c) eqn:Er.
    + destruct (deferred c) as [|id ids] eqn:Hd; [by destruct Hr|].
      destruct (locks m !! id) as [l|] eqn:E; [unfold releaseLock; rewrite E; by eexists _, _|].
      destruct (li_unused m cs H id E) as [Hz _]. pose proof (total_ge (holds id) cs i c Hi) as Hge. unfold holds in Hge at 1.
      rewrite Hd, bool_decide_true in Hge by apply list_elem_of_here. cbn [b2n] in Hge. lia.
    + destruct (todo c) as [|id ids]; [by eexists _, _|]. cbn [andb]. destruct (makeLock m id). by eexists _, _.
  - destruct (unlocking_locked m cs i c l H Hi Hp) as (n & Hl & _). unfold Unlock. rewrite Hl. by eexists _, _.
Qed.

Lemma call_never_panics m cs i c fails : lock_inv m cs → cs !! i = Some c → call_step m c fails ≠ Panic.
Proof.
  intros H Hi E. destruct (place_of c) as [|id l|l] eqn:Hp; unfold call_step in E; rewrite Hp in E.
  - destruct (returning c) eqn:Er.
    + destruct (decide (deferred c = [])) as [Hd|Hd]; [by rewrite Hd in E|].
      destruct (call_progress m cs i c H Hi) as (m' & c' & E'); [by intros (_ & _ & ?)|by rewrite Hp|].
      unfold call_step in E'. rewrite Hp, Er in E'. congruence.
    + destruct (todo c) as [|id ids]; [done|]. destruct (fails && _); [done|]. by destruct (makeLock m id).
  - by destruct (Lock m l).
  - destruct (unlocking_locked m cs i c l H Hi Hp) as (n & Hl & _). unfold Unlock in E. by rewrite Hl in E.
Qed.

(** A list of databases has a greatest one. *)
Lemma greatest_id (ids : list bytes) : ids ≠ [] → ∃ id, id ∈ ids ∧ ∀ id', id' ∈ ids → ¬ key_lt id id'.
Proof.
  induction ids as [|x ids IH]; [done|]. intros _. destruct (decide (ids = [])) as [->|Hne].
  - exists x. split; [apply list_elem_of_here|]. intros id' ->%list_elem_of_singleton. unfold key_lt. by rewrite bytes_lt_irrefl.
  - destruct (IH Hne) as (y & Hy & Hmax). destruct (bytes_lt y x) eqn:E.
    + exists x. split; [apply list_elem_of_here|]. intros id' [->|Hin]%elem_of_cons; unfold key_lt; [by rewrite bytes_lt_irrefl|].
      intros Hlt. apply (Hmax id' Hin). by eapply bytes_lt_trans.
    + exists y. split; [by apply list_elem_of_further|]. intros id' [->|Hin]%elem_of_cons; [unfold key_lt; congruence|by apply Hmax].
Qed.

Definition waited (cs : list call) : list bytes := cs ≫= waiting.

Lemma waited_spec cs id : id ∈ waited cs ↔ ∃ i c l, cs !! i = Some c ∧ place_of c = Waiting id l.
Proof.
  unfold waited. rewrite list_elem_of_bind. split.
  - intros (c & Hid & [i Hi]%list_elem_of_lookup). unfold waiting in Hid. destruct (place_of c) as [|id' l|] eqn:Hp; [by apply elem_of_nil in Hid| |by apply elem_of_nil in Hid].
    apply list_elem_of_singleton in Hid as ->. by exists i, c, l.
  - intros (i & c & l & Hi & Hp). exists c. split; [|by eapply list_elem_of_lookup_2]. unfold waiting. rewrite Hp. apply list_elem_of_here.
Qed.

#[export] Instance place_eq_dec : EqDecision place.
Proof. solve_decision. Defined.
#[export] Instance returned_dec c : Decision (returned c).
Proof. unfold returned. apply _. Defined.

Definition is_waiting (c : call) : bool := match place_of c with Waiting _ _ => true | _ => false end.

(** The call that waits for the greatest database can take it, unless another call can go on. *)
Lemma no_deadlock m cs : lock_inv m cs → (∃ i c, cs !! i = Some c ∧ ¬ returned c) → ∃ s, step (m, cs) s.
Proof.
  intros H (i & c & Hi & Hr).
  destruct (decide (Exists (λ d, ¬ returned d ∧ is_waiting d = false) cs)) as [Hex|Hno%not_Exists_Forall]; [| |apply _].
  - apply Exists_exists in Hex as (d & [j Hj]%list_elem_of_lookup & Hd & Hw).
    destruct (call_progress m cs j d H Hj Hd) as (m' & d' & E); [intros id l Hp; unfold is_waiting in Hw; by rewrite Hp in Hw|].
    eexists. by eapply step_call.
  - assert (Hwait : ∀ j d, cs !! j = Some d → ¬ returned d → ∃ id l, place_of d = Waiting id l).
    { intros j d Hj Hd. rewrite Forall_lookup in Hno. specialize (Hno j d Hj).
      destruct (place_of d) as [|id l|] eqn:Hp; [|by exists id, l|]; destruct Hno; unfold is_waiting; by rewrite Hp. }
    destruct (Hwait i c Hi Hr) as (id0 & l0 & Hp0). destruct (greatest_id (waited cs)) as (id & (j & d & l & Hj & Hp)%waited_spec & Hmax).
    { intros E. assert (id0 ∈ waited cs) as Hin by (apply waited_spec; by exists i, c, l0). rewrite E in Hin. by apply elem_of_nil in Hin. }
    destruct (li_calls m cs H j d Hj) as [_ W _ _]. destruct (W id l Hp) as [Hid _].
    destruct (li_entry m cs H id l Hid) as [([b n] & Hl & _ & Hown) _]. destruct b; cycle 1.
    { exists (mkMemory (locks m) (<[l := mkRcLock true n]> (heap m)) (next m), <[j := mkCall (todo d) (id :: deferred d) false Running]> cs).
      apply (step_call m cs j d false); [done|]. unfold call_step, Lock. by rewrite Hp, Hl. }
    cbn [lock b2n] in Hown. destruct (decide (total (holds id) cs = 0%nat)) as [Hz|Hz].
    + destruct (total_pos (unlocks l) cs) as (k & e & Hk & He); [lia|]. unfold unlocks in He. destruct (place_of e) as [| |l'] eqn:Hpe; [cbn in He; lia..|].
      destruct (Hwait k e Hk) as (? & ? & Hc); [|congruence]. intros [Hc _]. congruence.
    + destruct (total_pos (holds id) cs) as (k & e & Hk & He); [lia|]. unfold holds in He. case_bool_decide as Hin; [|cbn in He; lia].
      destruct (Hwait k e Hk) as (id' & l' & Hpe); [intros (_ & _ & Hd); rewrite Hd in Hin; by apply elem_of_nil in Hin|].
      exfalso. apply (Hmax id'); [apply waited_spec; by exists k, e, l'|].
      destruct (li_calls m cs H k e Hk) as [S _ _ _]. unfold waiting in S. rewrite Hpe in S. destruct (sorted_apart _ _ _ S) as [_ Hall].
      rewrite Forall_forall in Hall. apply Hall. by apply elem_of_reverse.
Qed.

(** ** Termination *)

Definition place_work (p : place) : nat := match p with Running => 0 | Waiting _ _ => 3 | Unlocking _ => 1 end.
(** The steps that a call has still to make *)
Definition work (c : call) : nat :=
  (4 * length (todo c) + 2 * length (deferred c) + place_work (place_of c) + b2n (negb (returning c)))%nat.

Lemma call_step_work m cs i c fails m' c' : lock_inv m cs → cs !! i = Some c → call_step m c fails = Next m' c' → (work c' < work c)%nat.
Proof.
  intros H Hi. unfold call_step, work. destruct (li_calls m cs H i c Hi) as [_ W U _]. destruct (place_of c) as [|id l|l] eqn:Hp.
  - destruct (returning c).
    + destruct (deferred c) as [|id ids]; [done|]. destruct (releaseLock m id) as [[l m1]|]; [|done]. intros [= _ <-]. cbn. lia.
    + destruct (todo c) as [|id ids]; [intros [= _ <-]; cbn; lia|]. destruct (fails && _); [intros [= _ <-]; cbn; lia|].
      destruct (makeLock m id). intros [= _ <-]. cbn. lia.
  - destruct (W id l eq_refl) as [_ ->]. destruct (Lock m l); [|done]. intros [= _ <-]. cbn. lia.
  - rewrite (U l eq_refl). destruct (Unlock m l); [|done]. intros [= _ <-]. cbn. lia.
Qed.

Lemma steps_finite m cs : lock_inv m cs → sn step (m, cs).
Proof.
  remember (total work cs) as n eqn:En. revert m cs En. induction (lt_wf n) as [n _ IH]. intros m cs -> H.
  constructor. intros [m' cs'] Hs. unfold flip in Hs. pose proof (step_inv m cs m' cs' H Hs) as H'.
  eapply IH; [|reflexivity|done]. inversion Hs as [? ? i c fails ? c' Hi E]; subst.
  pose proof (call_step_work m cs i c fails m' c' H Hi E). pose proof (total_move work cs i c c' Hi). lia.
Qed.

Lemma steps_inv m cs m' cs' : lock_inv m cs → rtc step (m, cs) (m', cs') → lock_inv m' cs' ∧ length cs' = length cs.
Proof.
  intros H Hs. refine (rtc_ind_r (λ s, lock_inv s.1 s.2 ∧ length s.2 = length cs) (m, cs) _ _ (m', cs') Hs); [done|].
  intros [m1 cs1] [m2 cs2] _ Hs1 [H1 H2]. cbn [fst snd] in *. split; [by eapply step_inv|]. inversion Hs1; subst. by rewrite length_insert.
Qed.

Lemma all_returned_clean m cs : lock_inv m cs → (∀ i c, cs !! i = Some c → returned c) → locks m = ∅.
Proof.
  intros H Hall. apply map_empty. intros id. destruct (locks m !! id) as [l|] eqn:E; [|done]. exfalso.
  destruct (li_entry m cs H id l E) as [_ Hu]. destruct (decide (0 < total (holds id) cs)%nat) as [Hp|Hp].
  - destruct (total_pos _ _ Hp) as (i & c & Hi & Hc). destruct (Hall i c Hi) as (_ & _ & Hd). unfold holds in Hc. rewrite Hd in Hc.
    rewrite bool_decide_false in Hc by set_solver. cbn [b2n] in Hc. lia.
  - destruct (total_pos (waits id) cs) as (i & c & Hi & Hc); [lia|]. destruct (Hall i c Hi) as (Hrun & _). unfold waits in Hc. rewrite Hrun in Hc. lia.
Qed.

(** ** The calls of the chains *)

(** The chains that a call is about: the peer of [Get] and of [Indexed], or the keys of the
    requests of [Apply] in the order Go ranges over them *)
Inductive request := RGet (peerChainID : bytes) | RApply (peerChainIDs : list bytes).

Section chains.
Context (extra_cap : Z → Z → nat) (implements : ty → nat → bool).
Context (map_range : ∀ A : Type, list A → list A) (Hperm : ∀ A (l : list A), map_range A l ≡ₚ l).
Context (ComputeHash256 : bytes → bytes).

Notation sharedID := (sharedID extra_cap implements map_range ComputeHash256).

(** The databases that a call locks, in its order; [None] is the panic of [sharedID]. *)
Definition lockedIDs (thisChainID : bytes) (r : request) : option (list bytes) :=
  match r with
  | RGet peerChainID => id ← sharedID peerChainID thisChainID; Some [id]
  | RApply peerChainIDs => ids ← mapM (sharedID thisChainID) peerChainIDs; Some (sort_keys ids)
  end.

(** The chains of the node; the hash does not collide on the names of their pairs. *)
Context (Chain : bytes → Prop) (chain_ids : ∀ a, Chain a → chain_id a).
Context (no_collision : ∀ a b c, Chain a → Chain b → Chain c →
  ComputeHash256 (pair_name a b) = ComputeHash256 (pair_name a c) → pair_name a b = pair_name a c).

Definition request_ok (r : request) : Prop :=
  match r with RGet peer => Chain peer | RApply peers => NoDup peers ∧ Forall Chain peers end.

(** The databases of a call are locked in increasing order. *)
Lemma lockedIDs_sorted this r : Chain this → request_ok r → ∃ ids, lockedIDs this r = Some ids ∧ StronglySorted key_lt ids.
Proof using Hperm chain_ids no_collision.
  intros Ht Hr. destruct r as [peer|peers]; cbn [lockedIDs request_ok] in *.
  - rewrite sharedID_spec by auto. eexists. split; [reflexivity|]. repeat constructor.
  - destruct Hr as [Hnd Hch]. assert (E : mapM (sharedID this) peers = Some ((λ p, ComputeHash256 (pair_name this p)) <$> peers)).
    { clear Hnd. induction Hch as [|p peers Hp _ IH]; [done|]. cbn [mapM fmap list_fmap]. rewrite sharedID_spec by auto. cbn. cbn in IH. by rewrite IH. }
    rewrite E. eexists. split; [reflexivity|]. apply sort_keys_sorted. clear E. rewrite Forall_forall in Hch.
    apply NoDup_fmap_2_strong; [|done]. intros p q Hp Hq E. apply (pair_name_inj this); auto.
Qed.

(** A call begins. *)
Inductive begins : config → config → Prop :=
  | begins_call m cs this r ids :
      Chain this → request_ok r → lockedIDs this r = Some ids → begins (m, cs) (m, cs ++ [mkCall ids [] false Running]).

(** The configurations that calls of any number and in any interleaving reach *)
Definition reachable (s : config) : Prop := rtc (λ s s', step s s' ∨ begins s s') (NewMemory, []) s.

Lemma reachable_lock_inv m cs : reachable (m, cs) → lock_inv m cs.
Proof using Hperm chain_ids no_collision.
  intros H. refine (rtc_ind_r (λ s, lock_inv s.1 s.2) (NewMemory, []) _ _ (m, cs) H); [split; [done..| |done]; by intros l _|].
  intros [m1 cs1] [m2 cs2] _ [Hs|Hb] IH; cbn [fst snd] in *; [by eapply step_inv|].
  inversion Hb as [? ? this r ids Ht Hr E]; subst. apply begin_inv; [done|]. destruct (lockedIDs_sorted this r Ht Hr) as (ids' & E' & Hs). congruence.
Qed.

(** C18. Whatever calls run at the same time, two of them never hold the database of the same pair
    of chains, although locks are forgotten and made again; and neither [releaseLock] panics nor
    is a mutex unlocked that is not locked. *)
Theorem shared_locks_exclusive m cs : reachable (m, cs) →
  (∀ i j c d id, i ≠ j → cs !! i = Some c → cs !! j = Some d → id ∈ deferred c → id ∉ deferred d)
  ∧ ∀ i c fails, cs !! i = Some c → call_step m c fails ≠ Panic.
Proof using Hperm chain_ids no_collision.
  intros H%reachable_lock_inv. split; [|by intros; eapply call_never_panics].
  intros i j c d id Hne Hi Hj Hc Hd. pose proof (total_ge2 (holds id) cs i j c d Hne Hi Hj) as Hge. unfold holds in Hge at 1 2.
  rewrite !bool_decide_true in Hge by done. cbn [b2n] in Hge. destruct (locks m !! id) as [l|] eqn:E.
  - destruct (li_entry m cs H id l E) as [([b n] & _ & _ & Hown) _]. cbn [lock] in Hown. destruct b; cbn [b2n] in Hown; lia.
  - destruct (li_unused m cs H id E) as [Hz _]. lia.
Qed.

(** C19. Every call returns: the chains' calls can begin at any time; once no more begin, however
    those that run are interleaved there are finitely many steps left, and when none is possible
    all calls have returned, none waits for another one, and no lock is left in the map. *)
Theorem shared_calls_return m cs : reachable (m, cs) →
  (∀ this r, Chain this → request_ok r → ∃ s, begins (m, cs) s)
  ∧ sn step (m, cs)
  ∧ ∀ m' cs', rtc step (m, cs) (m', cs') → nf step (m', cs') → Forall returned cs' ∧ length cs' = length cs ∧ locks m' = ∅.
Proof using Hperm chain_ids no_collision.
  intros H%reachable_lock_inv. split; [|split; [by apply steps_finite|]].
  { intros this r Ht Hr. destruct (lockedIDs_sorted this r Ht Hr) as (ids & E & _). eexists. by eapply begins_call. }
  intros m' cs' Hs Hnf. destruct (steps_inv m cs m' cs' H Hs) as [H' Hl].
  assert (Hall : ∀ i c, cs' !! i = Some c → returned c).
  { intros i c Hi. destruct (decide (returned c)) as [|Hr]; [done|]. destruct Hnf. apply no_deadlock; [done|by exists i, c]. }
  split; [by apply Forall_lookup|]. split; [done|by eapply all_returned_clean].
Qed.
End chains.

(** ** Example *)

(** The steps of the calls, in the order that a scheduler chooses *)
Fixpoint run (s : config) (sched : list (nat * bool)) : option config :=
  match sched with
  | [] => Some s
  | (i, fails) :: sched =>
      match s.2 !! i with
      | Some c => match call_step s.1 c fails with Next m c' => run (m, <[i := c']> s.2) sched | _ => None end
      | None => None
      end
  end.

Lemma run_steps sched : ∀ s s', run s sched = Some s' → rtc step s s'.
Proof.
  induction sched as [|[i fails] sched IH]; intros [m cs] s'; cbn [run fst snd]; [intros [= <-]; apply rtc_refl|].
  destruct (cs !! i) as [c|] eqn:Hi; [|done]. destruct (call_step m c fails) as [m' c'| | |] eqn:E; try done.
  intros Hr%IH. eapply rtc_l; [by eapply step_call|done].
Qed.

(** Chain 1 applies requests for the chains 3 and 2; chain 2 reads what chain 1 sent. *)
Definition ex_chain (n : Z) : bytes := replicate 32 n.
Definition ex_Chain (a : bytes) : Prop := a = ex_chain 1 ∨ a = ex_chain 2 ∨ a = ex_chain 3.
Definition ex_name (a b : Z) : bytes := 0 :: 0 :: ex_chain a ++ ex_chain b.
Definition ex_start : config :=
  (NewMemory, [mkCall [ex_name 1 2; ex_name 1 3] [] false Running; mkCall [ex_name 1 2] [] false Running]).

Lemma ex_chain_ids a : ex_Chain a → chain_id a.
Proof. intros [->|[->| ->]]; (split; [done|]); by apply Forall_replicate. Qed.

Notation ex_reachable := (reachable ex_cap ex_implements ex_range id ex_Chain).

Lemma ex_start_reachable : ex_reachable ex_start.
Proof.
  eapply rtc_l; [right; eapply (begins_call _ _ _ _ _ _ _ (ex_chain 1) (RApply [ex_chain 3; ex_chain 2]))|].
  - by left.
  - split; [|constructor; [by right; right|constructor; [by right; left|constructor]]].
    apply NoDup_cons. split; [|apply NoDup_singleton]. intros E%list_elem_of_singleton. discriminate.
  - vm_compute. reflexivity.
  - eapply rtc_l; [right; eapply (begins_call _ _ _ _ _ _ _ (ex_chain 2) (RGet (ex_chain 1)))|apply rtc_refl].
    + by right; left.
    + by left.
    + vm_compute. reflexivity.
Qed.

Lemma run_reachable sched s : run ex_start sched = Some s → ex_reachable s.
Proof.
  intros H%run_steps. unfold reachable. etrans; [apply ex_start_reachable|]. eapply rtc_subrel; [|exact H]. by left.
Qed.

(** Both calls have asked for the database of the chains 1 and 2, and the first holds it. *)
Definition ex_middle : config := default ex_start (run ex_start [(0%nat, false); (1%nat, false); (0%nat, false)]).

Lemma ex_middle_reachable : ex_reachable (ex_middle.1, ex_middle.2).
Proof. apply (run_reachable [(0%nat, false); (1%nat, false); (0%nat, false)]). vm_compute. reflexivity. Qed.

Lemma shared_locks_exclusive_witness :
  (∃ c d, ex_middle.2 = [c; d] ∧ deferred c = [ex_name 1 2] ∧ call_step ex_middle.1 d false = Blocked ∧ ex_name 1 2 ∉ deferred d)
  ∧ ∀ i c fails, ex_middle.2 !! i = Some c → call_step ex_middle.1 c fails ≠ Panic.
Proof.
  destruct (shared_locks_exclusive ex_cap ex_implements ex_range ex_perm id ex_Chain ex_chain_ids (λ a b c _ _ _ E, E) ex_middle.1 ex_middle.2
    ex_middle_reachable) as [H1 H2].
  split; [|exact H2]. eexists _, _. split; [vm_compute; reflexivity|]. split; [vm_compute; reflexivity|]. split; [vm_compute; reflexivity|].
  apply (H1 0%nat 1%nat (mkCall [ex_name 1 3] [ex_name 1 2] false Running) _ (ex_name 1 2) ltac:(done)); [vm_compute; reflexivity..|by left].
Defined.

(** The first call fails before it takes its second database. *)
Definition ex_rest : list (nat * bool) :=
  [(0%nat, true); (0%nat, false); (0%nat, false); (1%nat, false); (1%nat, false); (1%nat, false); (1%nat, false)].

Lemma shared_calls_return_witness : sn step ex_middle
  ∧ ∃ m cs, run ex_middle ex_rest = Some (m, cs) ∧ Forall returned cs ∧ length cs = 2%nat ∧ locks m = ∅.
Proof.
  destruct (shared_calls_return ex_cap ex_implements ex_range ex_perm id ex_Chain ex_chain_ids (λ a b c _ _ _ E, E) ex_middle.1 ex_middle.2
    ex_middle_reachable) as (_ & H1 & H2).
  split; [exact H1|]. destruct (run ex_middle ex_rest) as [[m cs]|] eqn:E; [|by vm_compute in E]. exists m, cs. split; [done|].
  apply (H2 m cs); [by apply run_steps in E|]. intros [s Hs]. vm_compute in E. injection E as <- <-.
  inversion Hs as [? ? i c fails ? c' Hi Hc]; subst. destruct i as [|[|i]]; [injection Hi as <-; discriminate Hc..|done].
Defined.
