(* ===== verification/SharedMemory.v ===== *)
(** * Shared memory of all chains

    [chains/atomic/shared_memory.go], [writer.go] and [getValueDB] of [prefixes.go]: the reads of
    a chain, and [Apply], which removes the elements that the chain consumed from what its peers
    sent, adds the elements that it sends to them, and writes all of that together with other
    batches in one batch.  The memory is a prefix database, as the node makes it; [Apply] works
    on a versioned database on top of it.  The locks of the calls are the subject of another
    file; here a call runs alone. *)

From S2P Require Import Prelude Packer Database Memdb Versiondb Prefixdb Hashmap Cache Bimap Codec CodecWrite CodecRead CodecManager Dbhelpers Cacher Linkeddb LinkeddbList Atomic.

Open Scope Z_scope.

Record Requests := mkRequests { RemoveRequests : list bytes; PutRequests : list Element }.

(** ** Operations *)

Section operations.
Context (extra_cap : Z → Z → nat) (implements : ty → nat → bool) (map_range : ∀ A : Type, list A → list A).
Context {D : Database} (ComputeHash256 : bytes → bytes).
Context (range_updated : gmap bytes (option node) → list (bytes * option node)).
Context (range_keys : ∀ V : Type, gmap bytes V → list bytes).

Notation M := (prefixdb_database (D := D)).
Notation V := (versiondb_database (D := M) range_keys).
Notation sharedID := (sharedID extra_cap implements map_range ComputeHash256).

(** [getValueDB] *)
Definition getValueDB {D' : Database} (p : prefixes) (myChainID peerChainID : bytes) (db : prefixdb (D := D')) : prefixdb :=
  if bytes_lt myChainID peerChainID then New_on_prefixdb ComputeHash256 (smallerValuePrefix p) db
  else New_on_prefixdb ComputeHash256 (largerValuePrefix p) db.

(** The loops over the keys in [Get] and [Indexed] *)
Fixpoint values_of {D' : Database} (s : state (D := D')) (keys : list bytes) : result atomic_error (list bytes) :=
  match keys with
  | [] => Ok []
  | key :: keys =>
      let? elem := Value extra_cap implements s key in
      let? values := values_of s keys in
      Ok (e_Value elem :: values)
  end.

(** [Get]; the state has no index.  [None] is the panic of [sharedID]. *)
Definition Get (db : prefixdb (D := D)) (thisChainID peerChainID : bytes) (keys : list bytes) : option (result atomic_error (list bytes)) :=
  id ← sharedID peerChainID thisChainID;
  let valueDB := getValueDB (D' := M) inbound thisChainID peerChainID (NewNested (D := M) ComputeHash256 id db) in
  Some (values_of (mkState (D := M) (dbPrefix valueDB) [] (p_db valueDB)) keys).

(** [None] is the panic of [sharedID], or that there was too little fuel. *)
Definition Indexed (fuel : nat) (db : prefixdb (D := D)) (thisChainID peerChainID : bytes) (traits : list bytes) (startTrait startKey : bytes) (limit : Z)
    : option (result atomic_error (list bytes * bytes * bytes)) :=
  id ← sharedID peerChainID thisChainID;
  let s := getValueAndIndexDB (D := M) ComputeHash256 inbound thisChainID peerChainID (NewNested (D := M) ComputeHash256 id db) in
  r ← getKeys extra_cap implements (D := M) ComputeHash256 fuel s traits startTrait startKey limit;
  Some (let? '(keys, lastTrait, lastKey) := r in
        let? values := values_of s keys in
        Ok (values, lastTrait, lastKey)).

Fixpoint remove_requests {D' : Database} (s : state (D := D')) (reqs : list bytes) : result atomic_error unit * state (D := D') :=
  match reqs with
  | [] => (Ok tt, s)
  | removeRequest :: reqs =>
      match RemoveValue extra_cap implements map_range ComputeHash256 range_updated s removeRequest with
      | (Err err, s) => (Err err, s)
      | (Ok _, s) => remove_requests s reqs
      end
  end.

Fixpoint put_requests {D' : Database} (s : state (D := D')) (reqs : list Element) : result atomic_error unit * state (D := D') :=
  match reqs with
  | [] => (Ok tt, s)
  | putRequest :: reqs =>
      match SetValue extra_cap implements map_range ComputeHash256 range_updated s putRequest with
      | (Err err, s) => (Err err, s)
      | (Ok _, s) => put_requests s reqs
      end
  end.

(** The body of the loop of [Apply], on the versioned database *)
Definition apply_request {D' : Database} (vdb : db_t (Database := D')) (thisChainID sharedID peerChainID : bytes) (req : Requests)
    : result atomic_error unit * db_t (Database := D') :=
  let db := NewNested ComputeHash256 sharedID vdb in
  match remove_requests (getValueAndIndexDB ComputeHash256 inbound thisChainID peerChainID db) (RemoveRequests req) with
  | (Err err, s) => (Err err, shared s)
  | (Ok _, s) =>
      let db := set_inner db (shared s) in
      let '(r, s) := put_requests (getValueAndIndexDB ComputeHash256 outbound thisChainID peerChainID db) (PutRequests req) in
      (r, shared s)
  end.

(** The loop of [Apply].  [None] is the access to a request that is not there. *)
Fixpoint apply_loop {D' : Database} (vdb : db_t (Database := D')) (thisChainID : bytes) (sharedOperations : gmap bytes (bytes * Requests)) (sharedIDs : list bytes)
    : option (result atomic_error unit * db_t (Database := D')) :=
  match sharedIDs with
  | [] => Some (Ok tt, vdb)
  | sharedID :: sharedIDs =>
      '(peerChainID, req) ← sharedOperations !! sharedID;
      match apply_request vdb thisChainID sharedID peerChainID req with
      | (Err err, vdb) => Some (Err err, vdb)
      | (Ok _, vdb) => apply_loop vdb thisChainID sharedOperations sharedIDs
      end
  end.

(** The first loop of [Apply], over the requests in the order Go ranges over them *)
Fixpoint collect (thisChainID : bytes) (requests : list (bytes * Requests)) (sharedIDs : list bytes) (sharedOperations : gmap bytes (bytes * Requests))
    : option (list bytes * gmap bytes (bytes * Requests)) :=
  match requests with
  | [] => Some (sharedIDs, sharedOperations)
  | (peerChainID, request) :: requests =>
      id ← sharedID thisChainID peerChainID;
      collect thisChainID requests (sharedIDs ++ [id]) (<[id := (peerChainID, request)]> sharedOperations)
  end.

(** [WriteAll] on the inner batch; the other batches are those of the same database. *)
Fixpoint replay_all (baseBatch : batch_t (Database := D)) (batches : list BatchOps) : result db_error (batch_t (Database := D)) :=
  match batches with
  | [] => Ok baseBatch
  | batch :: batches =>
      let? baseBatch := BatchOps_Replay (λ b k v, Ok (batch_Put b k v)) (λ b k, Ok (batch_Delete b k)) batch baseBatch in
      replay_all baseBatch batches
  end.
Definition WriteAll (db : db_t (Database := D)) (baseBatch : batch_t (Database := D)) (batches : list BatchOps)
    : result db_error unit * db_t (Database := D) :=
  match replay_all baseBatch batches with
  | Err err => (Err err, db)
  | Ok baseBatch => match batch_Write db baseBatch with Err err => (Err err, db) | Ok db => (Ok tt, db) end
  end.

(** The memory, which the versioned database holds *)
Definition memory_of (vdb : db_t (Database := V)) (db : prefixdb (D := D)) : prefixdb (D := D) :=
  default db (v_GetDatabase (D := M) vdb).

(** [Apply], with the memory as it is afterwards, also when it returns an error.  [Inner] of a batch
    of a prefix database is the batch of the database below. *)
Definition Apply (db : prefixdb (D := D)) (thisChainID : bytes) (requests : list (bytes * Requests)) (batches : list BatchOps)
    : option (result atomic_error unit * prefixdb (D := D)) :=
  '(sharedIDs, sharedOperations) ← collect thisChainID requests [] ∅;
  '(r, vdb) ← apply_loop (D' := V) (v_New (D := M) db) thisChainID sharedOperations (sort_keys sharedIDs);
  Some (match r with
        | Err err => (Err err, memory_of vdb db)
        | Ok _ =>
            match commitBatch (D := M) range_keys vdb with
            | (Err err, vdb) => (Err (ADb err), memory_of vdb db)
            | (Ok batch, vdb) =>
                let db := memory_of vdb db in
                let '(r, d) := WriteAll (p_db db) (pb_inner batch) batches in
                (match r with Err err => Err (ADb err) | Ok _ => Ok tt end, set_inner db d)
            end
        end).
End operations.

(** ** The prefixes *)

Section world.
Context (extra_cap : Z → Z → nat) (implements : ty → nat → bool).
Context (map_range : ∀ A : Type, list A → list A) (Hperm : ∀ A (l : list A), map_range A l ≡ₚ l).
Context (ComputeHash256 : bytes → bytes) (hash_length : ∀ b, length (ComputeHash256 b) = 32%nat).
Context (range_updated : gmap bytes (option node) → list (bytes * option node)) (range_perm : ∀ u, range_updated u ≡ₚ map_to_list u).

(** The chains and the traits in use *)
Context (Chain : bytes → Prop) (chain_ids : ∀ a, Chain a → chain_id a) (U : bytes → Prop).

(** The prefixes of what chain [s] sent to chain [r] *)
Definition memory_prefix (r s : bytes) : bytes := ComputeHash256 (ComputeHash256 (pair_name r s)).
Definition value_byte (r s : bytes) : Z := if bytes_lt r s then 0 else 2.
Definition vp (r s : bytes) : bytes := ComputeHash256 (memory_prefix r s ++ [value_byte r s]).
Definition ip (r s : bytes) : bytes := ComputeHash256 (memory_prefix r s ++ [value_byte r s + 1]).

Notation tp := (Atomic.tp ComputeHash256).

Definition pair_ok (r s : bytes) : Prop := Chain r ∧ Chain s ∧ r ≠ s.

(** What is hashed to make the prefixes *)
Inductive used : bytes → Prop :=
  | used_pair r s : pair_ok r s → used (pair_name r s)
  | used_id r s : pair_ok r s → used (ComputeHash256 (pair_name r s))
  | used_value r s : pair_ok r s → used (memory_prefix r s ++ [value_byte r s])
  | used_index r s : pair_ok r s → used (memory_prefix r s ++ [value_byte r s + 1])
  | used_trait r s t : pair_ok r s → U t → used (ip r s ++ t).

Context (no_collision : ∀ x y, used x → used y → ComputeHash256 x = ComputeHash256 y → x = y).

Lemma inbound_state {D : Database} r s (d : db_t) :
  getValueAndIndexDB ComputeHash256 inbound r s (NewNested ComputeHash256 (ComputeHash256 (pair_name r s)) d) = mkState (vp r s) (ip r s) d.
Proof using. unfold getValueAndIndexDB, vp, ip, value_byte. by destruct (bytes_lt r s). Qed.

Lemma outbound_state {D : Database} r s (d : db_t) : r ≠ s →
  getValueAndIndexDB ComputeHash256 outbound s r (NewNested ComputeHash256 (ComputeHash256 (pair_name s r)) d) = mkState (vp r s) (ip r s) d.
Proof using.
  intros Hne. rewrite <- inbound_state, (pair_name_sym r s). unfold getValueAndIndexDB.
  destruct (bytes_lt_total r s) as [H|[H|H]]; [|done|]; by rewrite H, (bytes_lt_asym _ _ H).
Qed.

Lemma chain_length a : Chain a → length a = 32%nat.
Proof using chain_ids. intros H. apply (chain_ids a H). Qed.

(** The names and the order give back the chains. *)
Lemma pair_determined r s r' s' : pair_ok r s → pair_ok r' s' → pair_name r s = pair_name r' s' → value_byte r s = value_byte r' s' →
  r = r' ∧ s = s'.
Proof using chain_ids.
  intros (Hr & Hs & Hne) (Hr' & Hs' & Hne') E%app_inv_head Hb. pose proof (chain_length r Hr) as Lr. pose proof (chain_length r' Hr') as Lr'.
  pose proof (chain_length s Hs) as Ls. pose proof (chain_length s' Hs') as Ls'. unfold value_byte in Hb.
  destruct (bytes_lt_total r s) as [H1|[H1|H1]], (bytes_lt_total r' s') as [H2|[H2|H2]]; try done;
    rewrite ?H1, ?H2, ?(bytes_lt_asym _ _ H1), ?(bytes_lt_asym _ _ H2) in E;
    rewrite ?H1, ?H2, ?(bytes_lt_asym _ _ H1), ?(bytes_lt_asym _ _ H2) in Hb; try done; (apply app_inj_1 in E as [-> ->]; [done|congruence]).
Qed.

Lemma memory_prefix_inj r s r' s' : pair_ok r s → pair_ok r' s' → memory_prefix r s = memory_prefix r' s' → pair_name r s = pair_name r' s'.
Proof using no_collision. intros H H' E. apply no_collision; [by constructor..|]. by apply no_collision; [constructor..|]. Qed.

Lemma sub_inj r s r' s' c c' : pair_ok r s → pair_ok r' s' → used (memory_prefix r s ++ [c]) → used (memory_prefix r' s' ++ [c']) →
  ComputeHash256 (memory_prefix r s ++ [c]) = ComputeHash256 (memory_prefix r' s' ++ [c']) → pair_name r s = pair_name r' s' ∧ c = c'.
Proof using no_collision hash_length.
  intros H H' Hu Hu' E%no_collision; [|done..]. apply app_inj_1 in E as [E [= ->]]; [|unfold memory_prefix; by rewrite !hash_length].
  split; [by apply memory_prefix_inj|done].
Qed.

Lemma vp_inj r s r' s' : pair_ok r s → pair_ok r' s' → vp r s = vp r' s' → r = r' ∧ s = s'.
Proof using no_collision hash_length chain_ids.
  intros H H' E. apply sub_inj in E as [E Eb]; [|done|done|by constructor|by constructor]. by apply pair_determined.
Qed.

Lemma ip_inj r s r' s' : pair_ok r s → pair_ok r' s' → ip r s = ip r' s' → r = r' ∧ s = s'.
Proof using no_collision hash_length chain_ids.
  intros H H' E. apply sub_inj in E as [E Eb]; [|done|done|by constructor|by constructor]. apply pair_determined; [done..|lia].
Qed.

Lemma tp_inj r s r' s' t t' : pair_ok r s → pair_ok r' s' → U t → U t' → tp (ip r s) t = tp (ip r' s') t' → r = r' ∧ s = s' ∧ t = t'.
Proof using no_collision hash_length chain_ids.
  intros H H' Ht Ht' E. apply no_collision in E; [|by constructor..]. apply app_inj_1 in E as [E ->]; [|unfold ip; by rewrite !hash_length].
  apply ip_inj in E as [-> ->]; done.
Qed.

Lemma tp_not_vp r s r' s' t : pair_ok r s → pair_ok r' s' → U t → tp (ip r s) t ≠ vp r' s'.
Proof using no_collision hash_length.
  intros H H' Ht E. apply no_collision in E; [|by constructor..]. apply app_inj_1 in E as [E _]; [|unfold ip, memory_prefix; by rewrite !hash_length].
  apply no_collision in E; [|by constructor..]. apply (f_equal length) in E. rewrite length_app in E. unfold memory_prefix in E. rewrite !hash_length in E.
  cbn [length] in E. lia.
Qed.

(** ** What the memory holds *)

(** For each pair of chains the elements that the second sent to the first, and the keys of those
    that were consumed before they were sent *)
Definition mailbox : Type := list (bytes * (bytes * list bytes)) * gset bytes.
Definition world : Type := bytes → bytes → mailbox.

Definition deliver (A : world) (r s : bytes) (b : mailbox) : world :=
  λ r' s', if decide (r' = r ∧ s' = s) then b else A r' s'.

(** Operations up to the first error *)
Fixpoint spec_until (b : mailbox) (ops : list atomic_op) : result atomic_error unit * mailbox :=
  match ops with
  | [] => (Ok tt, b)
  | o :: ops => match spec_apply b o with (Err err, b) => (Err err, b) | (Ok _, b) => spec_until b ops end
  end.

(** The requests of [this]: it removes from what its peers sent and adds to what it sends to them. *)
Definition spec_request (A : world) (this peer : bytes) (req : Requests) : result atomic_error unit * world :=
  match spec_until (A this peer) (ARemove <$> RemoveRequests req) with
  | (Err err, b) => (Err err, deliver A this peer b)
  | (Ok _, b) =>
      let A := deliver A this peer b in
      let '(res, b) := spec_until (A peer this) (ASet <$> PutRequests req) in (res, deliver A peer this b)
  end.

Fixpoint spec_requests (A : world) (this : bytes) (reqs : list (bytes * Requests)) : result atomic_error unit * world :=
  match reqs with
  | [] => (Ok tt, A)
  | (peer, req) :: reqs =>
      match spec_request A this peer req with (Err err, A) => (Err err, A) | (Ok _, A) => spec_requests A this reqs end
  end.

Definition request_fits (req : Requests) : Prop := Forall (op_fits U) (ASet <$> PutRequests req).

Notation SetValue := (SetValue extra_cap implements map_range ComputeHash256 range_updated).
Notation RemoveValue := (RemoveValue extra_cap implements map_range ComputeHash256 range_updated).
Notation atomic_apply := (atomic_apply extra_cap implements map_range ComputeHash256 range_updated).
Notation ainv := (ainv extra_cap implements ComputeHash256).

Section db.
Context {D : Database} {L : DatabaseLaws D}.

Notation st r s := (mkState (vp r s) (ip r s)).

Record world_ok (d : db_t) (m : gmap bytes bytes) (A : world) : Prop := {
  wo_db : db_ok d;
  wo_contents : Database.contents d = Some m;
  wo_box r s : pair_ok r s → ainv (vp r s) (ip r s) U d m (A r s).1 (A r s).2;
}.

(** What one pair of chains does is not seen by others. *)
Lemma world_frame r s d m d' m' A b : pair_ok r s → world_ok d m A → changes ComputeHash256 (vp r s) (ip r s) U d m d' m' →
  ainv (vp r s) (ip r s) U d' m' b.1 b.2 → world_ok d' m' (deliver A r s b).
Proof using no_collision hash_length chain_ids.
  intros Hp [_ _ Hw] [_ Hch] Hb. pose proof (ai_db _ _ _ _ _ _ _ _ _ _ Hb) as Hd'. pose proof (ai_contents _ _ _ _ _ _ _ _ _ _ Hb) as Hm'.
  split; [done..|]. intros r' s' Hp'. unfold deliver. case_decide as E; [destruct E as [-> ->]; done|].
  assert (Hlen : ∀ x, length (ComputeHash256 x) = 32%nat) by done.
  destruct (Hw r' s' Hp') as [_ _ Hv Hi Hnd Hok Hap]. split; [done..| | |done|done|done].
  - intros k. rewrite Hch; [apply Hv|apply Hlen| |].
    + intros Ev. apply E. by apply vp_inj.
    + intros t Ht Et. by apply (tp_not_vp r s r' s' t).
  - intros t Ht. rewrite Hch; [by apply Hi|apply Hlen|by apply tp_not_vp|]. intros t' Ht' Et. apply E. by destruct (tp_inj r' s' r s t t' Hp' Hp Ht Ht' Et) as (? & ? & _).
Qed.

Lemma op_spec r s d m A o : pair_ok r s → world_ok d m A → op_fits U o →
  ∃ d' m', atomic_apply (st r s d) o = ((spec_apply (A r s) o).1, st r s d') ∧ writes d d' ∧ world_ok d' m' (deliver A r s (spec_apply (A r s) o).2).
Proof using Hperm hash_length range_perm no_collision chain_ids.
  intros Hp Hw Ho. pose proof (wo_box d m A Hw r s Hp) as Ha. destruct (A r s) as [P T] eqn:EA. cbn [fst snd] in Ha.
  assert (Hc : ∃ d' m', atomic_apply (st r s d) o = ((spec_apply (P, T) o).1, st r s d') ∧ changes ComputeHash256 (vp r s) (ip r s) U d m d' m'
    ∧ let '(P', T') := (spec_apply (P, T) o).2 in ainv (vp r s) (ip r s) U d' m' P' T').
  { assert (H1 : ∀ t t', U t → U t' → tp (ip r s) t = tp (ip r s) t' → t = t')
      by (intros t t' Ht Ht' E; by destruct (tp_inj r s r s t t' Hp Hp Ht Ht' E) as (_ & _ & ?)).
    assert (H2 : ∀ t, U t → tp (ip r s) t ≠ vp r s) by (intros t Ht; by apply tp_not_vp).
    destruct o as [e|k].
    - by apply (SetValue_spec extra_cap implements map_range Hperm ComputeHash256 hash_length range_updated range_perm (vp r s) (ip r s) U H1 (hash_length _) H2 d m P T e).
    - by apply (RemoveValue_spec extra_cap implements map_range Hperm ComputeHash256 hash_length range_updated range_perm (vp r s) (ip r s) U H1 (hash_length _) H2 d m P T k). }
  destruct Hc as (d' & m' & E & Hch & Ha'). exists d', m'. split; [exact E|]. split; [apply Hch|].
  destruct (spec_apply (P, T) o) as [res [P' T']]. by eapply world_frame.
Qed.

Lemma world_ok_ext d m A A' : (∀ r s, A r s = A' r s) → world_ok d m A → world_ok d m A'.
Proof using. intros E [Hd Hm Hw]. split; [done..|]. intros r s Hp. rewrite <- E. by apply Hw. Qed.

Fixpoint run_until (s : state (D := D)) (ops : list atomic_op) : result atomic_error unit * state (D := D) :=
  match ops with
  | [] => (Ok tt, s)
  | o :: ops => match atomic_apply s o with (Err err, s) => (Err err, s) | (Ok _, s) => run_until s ops end
  end.

Lemma remove_requests_until s reqs :
  remove_requests extra_cap implements map_range ComputeHash256 range_updated s reqs = run_until s (ARemove <$> reqs).
Proof using. revert s. induction reqs as [|k reqs IH]; intros s; [done|]. cbn. destruct (RemoveValue s k) as [[]]; [apply IH|done]. Qed.

Lemma put_requests_until s reqs :
  put_requests extra_cap implements map_range ComputeHash256 range_updated s reqs = run_until s (ASet <$> reqs).
Proof using. revert s. induction reqs as [|e reqs IH]; intros s; [done|]. cbn. destruct (SetValue s e) as [[]]; [apply IH|done]. Qed.

Lemma until_spec r s ops : pair_ok r s → Forall (op_fits U) ops → ∀ d m A, world_ok d m A →
  ∃ d' m', run_until (st r s d) ops = ((spec_until (A r s) ops).1, st r s d') ∧ writes d d'
    ∧ world_ok d' m' (deliver A r s (spec_until (A r s) ops).2).
Proof using Hperm hash_length range_perm no_collision chain_ids.
  intros Hp. induction 1 as [|o ops Ho _ IH]; intros d m A Hw.
  - exists d, m. split; [done|]. split; [apply rtc_refl|]. eapply world_ok_ext; [|exact Hw]. intros r' s'. unfold deliver. case_decide as E; [destruct E as [-> ->]|]; done.
  - destruct (op_spec r s d m A o Hp Hw Ho) as (d1 & m1 & E & Hwr & Hw1). cbn [run_until spec_until]. rewrite E.
    destruct (spec_apply (A r s) o) as [[[]|err] b] eqn:Eb; cbn [fst snd] in *; [|by exists d1, m1].
    destruct (IH d1 m1 _ Hw1) as (d2 & m2 & E2 & Hwr2 & Hw2). assert (Hself : deliver A r s b r s = b) by (unfold deliver; by rewrite decide_True).
    rewrite Hself in E2, Hw2. exists d2, m2. split; [exact E2|]. split; [unfold writes in *; by etrans|].
    eapply world_ok_ext; [|exact Hw2]. intros r' s'. unfold deliver. by case_decide.
Qed.

Notation apply_request := (apply_request extra_cap implements map_range ComputeHash256 range_updated).
Notation apply_loop := (apply_loop extra_cap implements map_range ComputeHash256 range_updated).

Definition name (a b : bytes) : bytes := ComputeHash256 (pair_name a b).

Lemma removes_fit keys : Forall (op_fits U) (ARemove <$> keys).
Proof using. apply Forall_fmap, Forall_forall. done. Qed.

Lemma request_spec d m A this peer req : pair_ok this peer → world_ok d m A → request_fits req →
  ∃ d' m', apply_request d this (name this peer) peer req = ((spec_request A this peer req).1, d') ∧ writes d d'
    ∧ world_ok d' m' (spec_request A this peer req).2.
Proof using Hperm hash_length range_perm no_collision chain_ids.
  intros Hp Hw Hf. pose proof Hp as (Ht & Hpe & Hne). assert (Hp' : pair_ok peer this) by done. unfold SharedMemory.apply_request, spec_request, name.
  rewrite inbound_state, remove_requests_until.
  destruct (until_spec this peer _ Hp (removes_fit (RemoveRequests req)) d m A Hw) as (d1 & m1 & -> & Hwr1 & Hw1).
  destruct (spec_until (A this peer) (ARemove <$> RemoveRequests req)) as [[[]|err] b]; cbn [fst snd] in *; [|by exists d1, m1].
  cbn [shared]. change (set_inner (NewNested ComputeHash256 (ComputeHash256 (pair_name this peer)) d) d1) with (NewNested ComputeHash256 (ComputeHash256 (pair_name this peer)) d1).
  rewrite (outbound_state peer this) by congruence. rewrite put_requests_until.
  destruct (until_spec peer this _ Hp' Hf d1 m1 _ Hw1) as (d2 & m2 & -> & Hwr2 & Hw2).
  destruct (spec_until _ (ASet <$> PutRequests req)) as [res b2]. exists d2, m2. split; [done|]. split; [unfold writes in *; by etrans|done].
Qed.

Lemma loop_spec this ops reqs : Forall (λ pr, pair_ok this pr.1 ∧ request_fits pr.2 ∧ ops !! name this pr.1 = Some pr) reqs →
  ∀ d m A, world_ok d m A →
  ∃ d' m', apply_loop d this ops ((λ pr, name this pr.1) <$> reqs) = Some ((spec_requests A this reqs).1, d') ∧ writes d d'
    ∧ world_ok d' m' (spec_requests A this reqs).2.
Proof using Hperm hash_length range_perm no_collision chain_ids.
  induction 1 as [|[peer req] reqs (Hp & Hf & Ho) _ IH]; intros d m A Hw; [exists d, m; split; [done|]; split; [apply rtc_refl|done]|].
  cbn [fmap list_fmap SharedMemory.apply_loop spec_requests fst snd] in *. rewrite Ho. cbn [mbind option_bind].
  destruct (request_spec d m A this peer req Hp Hw Hf) as (d1 & m1 & -> & Hwr1 & Hw1).
  destruct (spec_request A this peer req) as [[[]|err] A1]; cbn [fst snd] in *; [|by exists d1, m1].
  destruct (IH d1 m1 A1 Hw1) as (d2 & m2 & -> & Hwr2 & Hw2). exists d2, m2. split; [done|]. split; [unfold writes in *; by etrans|done].
Qed.

(** *** Reads *)

Definition read_all (b : mailbox) (keys : list bytes) : result atomic_error (list bytes) :=
  match mapM (om_get b.1) keys with Some es => Ok es.*1 | None => Err (ADb ErrNotFound) end.

Lemma values_spec r s i d m A keys : pair_ok r s → world_ok d m A →
  values_of extra_cap implements (mkState (vp r s) i d) keys = read_all (A r s) keys.
Proof using Hperm.
  intros Hp Hw. pose proof (wo_box d m A Hw r s Hp) as Ha. unfold read_all. induction keys as [|k keys IH]; [done|].
  cbn [values_of mapM]. change (Value extra_cap implements (mkState (vp r s) i d) k) with (Value extra_cap implements (st r s d) k).
  rewrite (Value_spec extra_cap implements map_range Hperm ComputeHash256 (vp r s) (ip r s) U d m _ _ k Ha).
  destruct (om_get (A r s).1 k) as [[v ts]|]; cbn [mbind option_bind]; [|done]. cbn [result_bind]. rewrite IH.
  destruct (mapM (om_get (A r s).1) keys); done.
Qed.
End db.

(** ** [Apply] *)

Section memory.
Context {D : Database} {L : DatabaseLaws D}.
Context (range_keys : ∀ V : Type, gmap bytes V → list bytes) (range_keys_perm : ∀ V (m : gmap bytes V), range_keys V m ≡ₚ (map_to_list m).*1).

Notation M := (prefixdb_database (D := D)).
Notation ML := (prefixdb_laws (D := D)).
Notation V := (versiondb_database (D := M) range_keys).
Notation VL := (versiondb_laws (D := M) range_keys (L := ML) range_keys_perm).

(** *** Collecting the requests *)

Lemma name_inj a b c : pair_ok a b → pair_ok a c → name a b = name a c → b = c.
Proof using no_collision chain_ids.
  intros Hb Hc E. apply no_collision in E; [|by constructor..]. apply pair_name_inj in E; [done|..]; apply chain_ids; (apply Hb || apply Hc).
Qed.

Lemma sharedID_name a b : pair_ok a b → sharedID extra_cap implements map_range ComputeHash256 a b = Some (name a b).
Proof using Hperm chain_ids. intros (Ha & Hb & _). apply sharedID_spec; auto. Qed.

Definition gather (this : bytes) (ops : gmap bytes (bytes * Requests)) (requests : list (bytes * Requests)) : gmap bytes (bytes * Requests) :=
  foldl (λ o pr, <[name this pr.1 := pr]> o) ops requests.

Lemma collect_spec this requests : Forall (λ pr, pair_ok this pr.1) requests → ∀ ids ops,
  collect extra_cap implements map_range ComputeHash256 this requests ids ops
  = Some (ids ++ ((λ pr, name this pr.1) <$> requests), gather this ops requests).
Proof using Hperm chain_ids.
  induction 1 as [|[peer req] requests Hp _ IH]; intros ids ops; [by rewrite app_nil_r|]. cbn [collect fst] in *.
  rewrite (sharedID_name this peer Hp). cbn [mbind option_bind]. rewrite IH. cbn [fmap list_fmap fst]. by rewrite <- (assoc_L (++)).
Qed.

Lemma collected_other this k (requests : list (bytes * Requests)) : k ∉ ((λ pr, name this pr.1) <$> requests) → ∀ ops,
  gather this ops requests !! k = ops !! k.
Proof using.
  induction requests as [|pr requests IH]; intros Hk ops; [done|]. rewrite fmap_cons in Hk. apply not_elem_of_cons in Hk as [Hne Hk]. cbn [gather foldl].
  etrans; [apply (IH Hk)|]. by rewrite lookup_insert_ne.
Qed.

Lemma collected this requests : Forall (λ pr, pair_ok this pr.1) requests → NoDup requests.*1 → ∀ ops,
  Forall (λ pr, gather this ops requests !! name this pr.1 = Some pr) requests.
Proof using no_collision chain_ids.
  induction 1 as [|pr requests Hp Hall IH]; intros Hnd ops; [constructor|]. cbn [fmap list_fmap] in *. apply NoDup_cons in Hnd as [Hni Hnd].
  change (gather this ops (pr :: requests)) with (gather this (<[name this pr.1 := pr]> ops) requests).
  constructor; [|by apply IH]. rewrite collected_other; [by rewrite lookup_insert_eq|].
  intros (pr' & E & Hin)%list_elem_of_fmap. rewrite Forall_forall in Hall. apply name_inj in E; [|done|by apply Hall]. apply Hni. rewrite E.
  by apply list_elem_of_fmap_2.
Qed.

(** *** Committing *)

Lemma writes_open mem pm b d' : writes (D := V) (VOpen mem pm b) d' → ∃ mem', d' = VOpen mem' pm b.
Proof using.
  intros H. refine (rtc_ind_r (λ d, ∃ mem', d = VOpen mem' pm b) _ _ _ d' H); [by exists mem|].
  intros d1 d2 _ Hs (mem1 & ->). destruct Hs as [(k & v & [= <-])|[(k & [= <-])|(ops & [= <-])]]; by eexists.
Qed.

Lemma replay_ops_spec ops : ∀ base : batch_t (Database := D), batch_ok base →
  ∃ b, replay_ops (λ b k v, Ok (batch_Put b k v)) (λ b k, Ok (batch_Delete b k)) base ops = Ok b
    ∧ batch_ok b ∧ batch_ident b = batch_ident base ∧ ∀ m, apply_ops m (batch_ops b) = apply_ops (apply_ops m (batch_ops base)) ops.
Proof using.
  induction ops as [|[k v del] ops IH]; intros base Hb; [by exists base|]. cbn [replay_ops op_Delete op_Key op_Value]. destruct del.
  - destruct (law_batch_Delete base k Hb) as (H1 & H2 & H3). destruct (IH _ H1) as (b & E & Hb' & Hid & Ho). exists b. split; [exact E|]. split; [done|].
    split; [congruence|]. intros m. rewrite Ho, H3, apply_ops_app. done.
  - destruct (law_batch_Put base k v Hb) as (H1 & H2 & H3). destruct (IH _ H1) as (b & E & Hb' & Hid & Ho). exists b. split; [exact E|]. split; [done|].
    split; [congruence|]. intros m. rewrite Ho, H3, apply_ops_app. done.
Qed.

Lemma replay_all_spec batches : ∀ base : batch_t (Database := D), batch_ok base →
  ∃ b, replay_all base batches = Ok b ∧ batch_ok b ∧ batch_ident b = batch_ident base
    ∧ ∀ m, apply_ops m (batch_ops b) = apply_ops (apply_ops m (batch_ops base)) (batches ≫= Ops).
Proof using.
  induction batches as [|batch batches IH]; intros base Hb; [by exists base|]. cbn [replay_all]. unfold BatchOps_Replay.
  destruct (replay_ops_spec (Ops batch) base Hb) as (b1 & -> & H1 & H2 & H3). cbn [result_bind].
  destruct (IH b1 H1) as (b & E & Hb' & Hid & Ho). exists b. split; [exact E|]. split; [done|]. split; [congruence|]. intros m.
  rewrite Ho, H3. cbn [mbind list_bind]. by rewrite apply_ops_app.
Qed.

(** Operations that do not have the prefix *)
Lemma strip_foreign p ops : Forall (λ op, ¬ has_prefix p op) ops → ∀ m, strip p (apply_ops m ops) = strip p m.
Proof using.
  intros Hf m. apply map_eq. intros k. rewrite !strip_lookup. apply apply_ops_lookup_ne.
  intros (op & E & Hin)%list_elem_of_fmap. rewrite Forall_forall in Hf. apply (Hf op Hin). by exists k.
Qed.

Lemma apply_ops_at ops k : ∀ m1 m2 : gmap bytes bytes, m1 !! k = m2 !! k → apply_ops m1 ops !! k = apply_ops m2 ops !! k.
Proof using.
  induction ops as [|[k' v del] ops IH]; intros m1 m2 E; [done|]. apply IH. unfold apply_op. cbn [op_Delete op_Key op_Value].
  destruct del, (decide (k' = k)) as [->|Hne];
    [by rewrite !lookup_delete_eq|by rewrite !lookup_delete_ne|by rewrite !lookup_insert_eq|by rewrite !lookup_insert_ne].
Qed.

(** The changes of the memory and the other batches are written together. *)
Lemma commit_all_spec (pm : prefixdb (D := D)) m mem (batches : list BatchOps) : db_ok (p_db pm) → Database.contents (p_db pm) = Some m →
  Forall (λ op, ¬ has_prefix (dbPrefix pm) op) (batches ≫= Ops) →
  ∃ batch b d' m', commitBatch (D := M) range_keys (VOpen (D := M) mem pm (p_NewBatch pm)) = (Ok batch, VOpen (D := M) mem pm batch)
    ∧ replay_all (pb_inner batch) batches = Ok b ∧ batch_Write (p_db pm) b = Ok d' ∧ db_ok d' ∧ Database.contents d' = Some m'
    ∧ m' = apply_ops m (batch_ops b)
    ∧ strip (dbPrefix pm) m' = overlay mem (strip (dbPrefix pm) m)
    ∧ ∀ k, ¬ (∃ k', k = dbPrefix pm ++ k') → m' !! k = apply_ops m (batches ≫= Ops) !! k.
Proof using L range_keys_perm.
  intros Hd Hm Hf. destruct (law_NewBatch (p_db pm) Hd) as (N1 & N2 & N3).
  assert (Hnb : p_batch_ok (p_NewBatch pm)) by (split; [done|]; split; [done|constructor]).
  destruct (@law_batch_Reset M ML (p_NewBatch pm) Hnb) as (R1 & R2 & R3).
  destruct (commit_loop_ops (D := M) (L := ML) mem (range_keys _ mem) (p_batch_Reset (p_NewBatch pm)) R1) as ((C1 & C2 & C3) & [= Cp Ci] & C4).
  set (batch := commit_loop (D := M) mem (range_keys _ mem) (p_batch_Reset (p_NewBatch pm))) in *.
  destruct (law_batch_Reset (db_NewBatch (p_db pm)) N1) as (_ & R5 & _).
  assert (Hpre : pb_prefix batch = dbPrefix pm) by exact Cp. rewrite Hpre in C3.
  destruct (replay_all_spec batches (pb_inner batch) C1) as (b & Eb & Hb & Hid & Ho).
  pose proof (law_Write (p_db pm) b Hd Hb ltac:(rewrite Hid; etrans; [exact Ci|]; etrans; [exact R5|exact N2])) as Hw. rewrite Hm in Hw.
  destruct Hw as (d' & Ew & Hd' & _ & Hm'). exists batch, b, d', (apply_ops m (batch_ops b)). do 6 (split; [done|]). rewrite Ho, C2. split.
  - rewrite strip_foreign by done. rewrite strip_apply_ops by done. cbn in C4. unfold p_batch_ops in C4. rewrite Hpre in C4. rewrite C4.
    by apply (commit_ops_overlay range_keys range_keys_perm).
  - intros k Hk. apply apply_ops_at, apply_ops_lookup_ne. intros (op & -> & Hin)%list_elem_of_fmap. rewrite Forall_forall in C3.
    destruct (C3 op Hin) as [k' E]. apply Hk. by exists k'.
Qed.

Lemma world_transfer {D1 : Database} {L1 : DatabaseLaws D1} {D2 : Database} {L2 : DatabaseLaws D2} (d1 : db_t (Database := D1)) (d2 : db_t (Database := D2)) m A :
  world_ok d1 m A → db_ok d2 → Database.contents d2 = Some m → world_ok d2 m A.
Proof using.
  intros [_ _ Hw] Hd Hm. split; [done..|]. intros r s Hp. destruct (Hw r s Hp) as [_ _ Hv Hi Hnd Hok Hap]. by split.
Qed.

(** The memory holds the world, in a database with the contents [m]. *)
Definition holds_world (pm : prefixdb (D := D)) (m : gmap bytes bytes) (A : world) : Prop :=
  db_ok (p_db pm) ∧ p_closed pm = false ∧ Database.contents (p_db pm) = Some m
  ∧ world_ok (D := M) (L := ML) pm (strip (dbPrefix pm) m) A.

Definition requests_ok (this : bytes) (requests : list (bytes * Requests)) : Prop :=
  Chain this ∧ NoDup requests.*1 ∧ Forall (λ pr, Chain pr.1 ∧ pr.1 ≠ this ∧ request_fits pr.2) requests.

Lemma apply_loop_spec pm m A this requests : holds_world pm m A → requests_ok this requests →
  ∃ reqs ids ops mem', reqs ≡ₚ requests
    ∧ collect extra_cap implements map_range ComputeHash256 this requests [] ∅ = Some (ids, ops)
    ∧ apply_loop extra_cap implements map_range (D' := V) ComputeHash256 range_updated (v_New (D := M) pm) this ops (sort_keys ids)
      = Some ((spec_requests A this reqs).1, VOpen (D := M) mem' pm (p_NewBatch pm))
    ∧ world_ok (D := V) (L := VL) (VOpen (D := M) mem' pm (p_NewBatch pm)) (overlay mem' (strip (dbPrefix pm) m)) (spec_requests A this reqs).2.
Proof using Hperm hash_length range_perm no_collision chain_ids L range_keys_perm.
  intros (Hd & Hcl & Hm & Hw) (Ht & Hnd & Hreq).
  assert (Hpairs : Forall (λ pr, pair_ok this pr.1) requests) by (eapply Forall_impl; [exact Hreq|]; intros [p r] (? & ? & _); split_and!; [done..|by apply not_eq_sym]).
  pose proof (sort_keys_perm ((λ pr : bytes * Requests, name this pr.1) <$> requests)) as Hsort.
  apply Permutation_map_inv in Hsort as (reqs & Es & Hrp%symmetry).
  exists reqs, ((λ pr : bytes * Requests, name this pr.1) <$> requests), (gather this ∅ requests).
  assert (Hloop : Forall (λ pr, pair_ok this pr.1 ∧ request_fits pr.2 ∧ gather this ∅ requests !! name this pr.1 = Some pr) reqs).
  { rewrite Hrp. pose proof (collected this requests Hpairs Hnd ∅) as Hc. rewrite Forall_forall in Hc, Hpairs, Hreq |- *.
    intros pr Hin. split; [by apply Hpairs|]. split; [apply (Hreq pr Hin)|by apply Hc]. }
  assert (Hv0 : world_ok (D := V) (L := VL) (v_New (D := M) pm) (strip (dbPrefix pm) m) A).
  { eapply (world_transfer (D1 := M) (L1 := ML)); [exact Hw| |].
    - destruct (law_NewBatch (p_db pm) Hd) as (N1 & N2 & N3). split; [apply Hw|]. split; [rewrite (wo_contents _ _ _ Hw); by eexists|].
      split; [split; [done|]; split; [done|constructor]|]. cbn. by rewrite N2.
    - cbn. unfold p_contents. rewrite Hcl, Hm. cbn. by rewrite overlay_empty. }
  destruct (loop_spec (D := V) (L := VL) this _ reqs Hloop _ _ A Hv0) as (d' & m' & E & Hwr & Hw').
  destruct (writes_open ∅ pm (p_NewBatch pm) d' Hwr) as [mem' ->]. exists mem'. split; [done|]. split; [by rewrite collect_spec|].
  rewrite Es. split; [exact E|].
  assert (m' = overlay mem' (strip (dbPrefix pm) m)) as <-; [|done].
  pose proof (wo_contents _ _ _ Hw') as Hm'. cbn in Hm'. unfold p_contents in Hm'. rewrite Hcl, Hm in Hm'. cbn in Hm'. congruence.
Qed.

(** After the commit the memory holds the world that the versioned database held. *)
Lemma commit_holds pm m A A' mem' (batches : list BatchOps) : holds_world pm m A →
  world_ok (D := V) (L := VL) (VOpen (D := M) mem' pm (p_NewBatch pm)) (overlay mem' (strip (dbPrefix pm) m)) A' →
  Forall (λ op, ¬ has_prefix (dbPrefix pm) op) (batches ≫= Ops) →
  ∃ batch b d' m', commitBatch (D := M) range_keys (VOpen (D := M) mem' pm (p_NewBatch pm)) = (Ok batch, VOpen (D := M) mem' pm batch)
    ∧ replay_all (pb_inner batch) batches = Ok b ∧ batch_Write (p_db pm) b = Ok d' ∧ m' = apply_ops m (batch_ops b)
    ∧ holds_world (set_inner pm d') m' A'
    ∧ ∀ k, ¬ (∃ k', k = dbPrefix pm ++ k') → m' !! k = apply_ops m (batches ≫= Ops) !! k.
Proof using L range_keys_perm.
  intros (Hd & Hcl & Hm & _) Hw Hf.
  destruct (commit_all_spec pm m mem' batches Hd Hm Hf) as (batch & b & d' & m' & Ec & Er & Ew & Hd' & Hm' & Eo & Hs & Hrest).
  exists batch, b, d', m'. do 4 (split; [done|]). split; [|done]. split; [done|]. split; [done|]. split; [done|].
  cbn [set_inner dbPrefix]. rewrite Hs. eapply (world_transfer (D1 := V) (L1 := VL) (D2 := M) (L2 := ML)); [exact Hw| |].
  - split; [done|]. intros _. cbn. rewrite Hm'. by eexists.
  - cbn. unfold p_contents. cbn. by rewrite Hcl, Hm', <- Hs.
Qed.

(** C16. [Apply] is atomic: when a request is refused, the error is returned and the memory, with
    the database below it, is what it was before; otherwise the database is changed by the write
    of one batch and by nothing else, after which the memory holds what the requests mean, for
    all pairs of chains and not only those in the requests, and the rest of the database is
    changed by the given batches only. *)
Theorem apply_atomic pm m A this requests batches : holds_world pm m A → requests_ok this requests →
  Forall (λ op, ¬ has_prefix (dbPrefix pm) op) (batches ≫= Ops) →
  ∃ reqs, reqs ≡ₚ requests
    ∧ match spec_requests A this reqs with
      | (Err err, _) => Apply extra_cap implements map_range ComputeHash256 range_updated range_keys pm this requests batches = Some (Err err, pm)
      | (Ok _, A') => ∃ b d' m',
          Apply extra_cap implements map_range ComputeHash256 range_updated range_keys pm this requests batches = Some (Ok tt, set_inner pm d')
          ∧ batch_Write (p_db pm) b = Ok d' ∧ m' = apply_ops m (batch_ops b) ∧ holds_world (set_inner pm d') m' A'
          ∧ ∀ k, ¬ (∃ k', k = dbPrefix pm ++ k') → m' !! k = apply_ops m (batches ≫= Ops) !! k
      end.
Proof using Hperm hash_length range_perm no_collision chain_ids L range_keys_perm.
  intros Hh Hreq Hf. destruct (apply_loop_spec pm m A this requests Hh Hreq) as (reqs & ids & ops & mem' & Hp & Ec & El & Hw).
  exists reqs. split; [done|]. unfold Apply. rewrite Ec. cbn [mbind option_bind]. rewrite El. cbn [mbind option_bind].
  destruct (spec_requests A this reqs) as [[[]|err] A']; cbn [fst snd] in *; [|done].
  destruct (commit_holds pm m A A' mem' batches Hh Hw Hf) as (batch & b & d' & m' & -> & Er & Ew & Eo & Hh' & Hrest).
  exists b, d', m'. split; [|done]. change (memory_of range_keys (VOpen (D := M) mem' pm batch) pm) with pm. unfold WriteAll. by rewrite Er, Ew.
Qed.

(** C17. A chain reads what its peers sent: [Get] returns the values of the keys, or that one is not
    found, which a consumed element is not; [Indexed] returns the values of different elements
    with one of the traits, no more than the limit, and all of them if it starts at the beginning
    and the limit is not reached. *)
Theorem shared_reads pm m A this peer : holds_world pm m A → pair_ok this peer →
  (∀ keys, Get extra_cap implements map_range ComputeHash256 pm this peer keys = Some (read_all (A this peer) keys))
  ∧ ∀ traits startTrait startKey limit fuel, Forall U traits → 0 ≤ limit → (length (A this peer).1 < fuel)%nat →
      (∀ k k', k ∈ (A this peer).1.*1 → k' ∈ (A this peer).1.*1 → ComputeHash256 k = ComputeHash256 k' → k = k') →
      ∃ ks vs lt lk, Indexed extra_cap implements map_range ComputeHash256 fuel pm this peer traits startTrait startKey limit = Some (Ok (vs, lt, lk))
        ∧ read_all (A this peer) ks = Ok vs ∧ NoDup ks ∧ Z.of_nat (length ks) ≤ limit
        ∧ (∀ k, k ∈ ks → ∃ v ts t, (k, (v, ts)) ∈ (A this peer).1 ∧ t ∈ ts ∧ t ∈ traits)
        ∧ (startTrait = [] → startKey = [] → [] ∉ (A this peer).1.*1 → Z.of_nat (length ks) < limit →
           ∀ k v ts t, (k, (v, ts)) ∈ (A this peer).1 → t ∈ ts → t ∈ traits → k ∈ ks).
Proof using Hperm chain_ids L.
  intros (_ & _ & _ & Hw) Hp. pose proof (wo_box _ _ _ Hw this peer Hp) as Ha.
  assert (Eid : sharedID extra_cap implements map_range ComputeHash256 peer this = Some (name this peer)).
  { rewrite sharedID_name by (destruct Hp as (? & ? & ?); split_and!; [done..|by apply not_eq_sym]). unfold name. by rewrite pair_name_sym. }
  split.
  - intros keys. unfold Get. rewrite Eid. cbn [mbind option_bind]. f_equal.
    rewrite <- (values_spec (D := M) (L := ML) this peer [] pm _ A keys Hp Hw). unfold getValueDB, vp, value_byte, name. by destruct (bytes_lt this peer).
  - intros traits startTrait startKey limit fuel HU Hl Hfuel Hinj. unfold Indexed. rewrite Eid. cbn [mbind option_bind]. unfold name.
    rewrite (inbound_state (D := M)).
    destruct (getKeys_spec extra_cap implements map_range Hperm (D := M) (L := ML) ComputeHash256 (vp this peer) (ip this peer) U pm _ _ _
      traits startTrait startKey limit fuel Ha HU Hl Hfuel Hinj) as (ks & lt & lk & -> & Hnd & Hlen & Hsub & Hall).
    cbn [mbind option_bind result_bind]. rewrite (values_spec (D := M) (L := ML) this peer _ pm _ A ks Hp Hw).
    assert (Hr : ∃ vs, read_all (A this peer) ks = Ok vs).
    { unfold read_all. destruct (mapM (om_get (A this peer).1) ks) as [es|] eqn:E; [by eexists|]. exfalso. apply mapM_None in E.
      apply Exists_exists in E as (k & Hk & E). destruct (Hsub k Hk) as (v & ts & t & He & _).
      apply om_get_Some in He; [congruence|]. apply Ha. }
    destruct Hr as [vs Er]. rewrite Er. exists ks, vs, lt, lk. done.
Qed.
End memory.
End world.

(** ** Example *)

Lemma inj_of_NoDup {A B} (f : A → B) (l : list A) x y : NoDup (f <$> l) → x ∈ l → y ∈ l → f x = f y → x = y.
Proof.
  intros Hnd [i Hi]%list_elem_of_lookup [j Hj]%list_elem_of_lookup E.
  assert (i = j) as ->; [|congruence]. apply (NoDup_lookup (f <$> l) i j (f x) Hnd); rewrite list_lookup_fmap; [by rewrite Hi|by rewrite Hj, E].
Qed.

(** Two chains, one trait, and a function with the length of the hash, that does not collide on what
    is hashed for them *)
Definition ex_peer (n : Z) : bytes := replicate 32 n.
Definition ex_peers (a : bytes) : Prop := a = ex_peer 1 ∨ a = ex_peer 2.
Definition ex_tag (t : bytes) : Prop := t = [7].
Definition ex_mix (b : bytes) : bytes := be_bytes 32 ((be_value b * 1000003 + Z.of_nat (length b)) mod (2 ^ 256 - 189)).

Lemma ex_mix_length b : length (ex_mix b) = 32%nat.
Proof. apply length_be_bytes. Qed.

Lemma ex_peer_ids a : ex_peers a → chain_id a.
Proof. intros [->| ->]; (split; [done|]); by apply Forall_replicate. Qed.

Definition ex_used : list bytes :=
  let p := memory_prefix ex_mix (ex_peer 1) (ex_peer 2) in
  [pair_name (ex_peer 1) (ex_peer 2); ex_mix (pair_name (ex_peer 1) (ex_peer 2)); p ++ [0]; p ++ [1]; p ++ [2]; p ++ [3];
   ip ex_mix (ex_peer 1) (ex_peer 2) ++ [7]; ip ex_mix (ex_peer 2) (ex_peer 1) ++ [7]].

Lemma ex_used_all x : used ex_mix ex_peers ex_tag x → x ∈ ex_used.
Proof.
  assert (E : ∀ r s, pair_ok ex_peers r s → (r, s) = (ex_peer 1, ex_peer 2) ∨ (r, s) = (ex_peer 2, ex_peer 1)).
  { intros r s ([->| ->] & [->| ->] & Hne); [done|by left|by right|done]. }
  assert (Hx : ∀ y, bool_decide (y ∈ ex_used) = true → y ∈ ex_used) by (intros y Hy; by apply bool_decide_eq_true in Hy).
  intros [r s H|r s H|r s H|r s H|r s t H ->]; destruct (E r s H) as [[= -> ->]|[= -> ->]]; apply Hx; vm_compute; reflexivity.
Qed.

Lemma ex_mix_inj x y : used ex_mix ex_peers ex_tag x → used ex_mix ex_peers ex_tag y → ex_mix x = ex_mix y → x = y.
Proof.
  intros Hx%ex_used_all Hy%ex_used_all. apply (inj_of_NoDup ex_mix ex_used); [|done..].
  apply (bool_decide_eq_true (NoDup (ex_mix <$> ex_used))). vm_compute. reflexivity.
Qed.

Notation ex_db := (memdb_database sample_range).
Definition ex_laws : DatabaseLaws ex_db := memdb_laws sample_range (λ _ _, reflexivity _).

(** An empty memory behind the prefix 100 *)
Definition ex_memory : prefixdb (D := ex_db) := newDB (D := ex_db) [100] (mkMemdb (Some ∅)).
Definition ex_empty : world := λ _ _, ([], ∅).

Lemma ex_holds : holds_world ex_cap ex_implements ex_mix ex_peers ex_tag (D := ex_db) (L := ex_laws) ex_memory ∅ ex_empty.
Proof.
  split; [exact I|]. split; [done|]. split; [done|]. assert (Hs : strip [100] ∅ = ∅) by (apply map_eq; intros k; by rewrite strip_lookup, !lookup_empty).
  cbn [ex_memory newDB dbPrefix]. rewrite Hs. split; [by split|cbn; by rewrite <- Hs|]. intros r s _. apply ainv_empty; [by split|cbn; by rewrite <- Hs].
Qed.

(** The first chain sends an element, and removes one that the second has not sent yet. *)
Definition ex_requests : list (bytes * Requests) := [(ex_peer 2, mkRequests [[9]] [mkElement [6] [60] [[7]]])].
Definition ex_batches : list BatchOps := [mkOps [mkOp [1] [2] false] 2].

Lemma ex_requests_ok : requests_ok ex_peers ex_tag (ex_peer 1) ex_requests.
Proof.
  split; [by left|]. split; [apply NoDup_singleton|]. constructor; [|constructor]. split; [by right|]. split; [done|].
  repeat constructor; cbn; lia.
Qed.

Lemma ex_foreign : Forall (λ op, ¬ has_prefix (dbPrefix ex_memory) op) (ex_batches ≫= Ops).
Proof. constructor; [|constructor]. intros [k E]. discriminate E. Qed.

Lemma apply_atomic_witness : ∃ b d' m' A',
  Apply ex_cap ex_implements ex_range ex_mix ex_nodes sample_range ex_memory (ex_peer 1) ex_requests ex_batches = Some (Ok tt, set_inner ex_memory d')
  ∧ batch_Write (p_db ex_memory) b = Ok d'
  ∧ holds_world ex_cap ex_implements ex_mix ex_peers ex_tag (D := ex_db) (L := ex_laws) (set_inner ex_memory d') m' A' ∧ m' !! [1] = Some [2]
  ∧ A' (ex_peer 2) (ex_peer 1) = ([([6], ([60], [[7]]))], ∅).
Proof.
  destruct (apply_atomic ex_cap ex_implements ex_range ex_perm ex_mix ex_mix_length ex_nodes (λ _, reflexivity _) ex_peers ex_peer_ids ex_tag ex_mix_inj
    (D := ex_db) (L := ex_laws) sample_range (λ _ _, reflexivity _) ex_memory ∅ ex_empty (ex_peer 1) ex_requests ex_batches
    ex_holds ex_requests_ok ex_foreign) as (reqs & Hp & H).
  apply Permutation_singleton_r in Hp as ->. change (spec_requests ex_empty (ex_peer 1) ex_requests) with
    (Ok (E := atomic_error) tt, (spec_requests ex_empty (ex_peer 1) ex_requests).2) in H. cbn iota in H.
  destruct H as (b & d' & m' & E & Ew & _ & Hh & Hk). exists b, d', m'. eexists. split; [exact E|]. split; [exact Ew|]. split; [exact Hh|]. split.
  - rewrite Hk; [by vm_compute|]. intros [k Ek]. discriminate Ek.
  - vm_compute. reflexivity.
Defined.

Lemma shared_reads_witness : ∃ pm,
  Get ex_cap ex_implements ex_range ex_mix (D := ex_db) pm (ex_peer 2) (ex_peer 1) [[6]; [6]] = Some (Ok [[60]; [60]])
  ∧ Get ex_cap ex_implements ex_range ex_mix (D := ex_db) pm (ex_peer 1) (ex_peer 2) [[9]] = Some (Err (ADb ErrNotFound)).
Proof.
  destruct (apply_loop_spec ex_cap ex_implements ex_range ex_perm ex_mix ex_mix_length ex_nodes (λ _, reflexivity _) ex_peers ex_peer_ids ex_tag ex_mix_inj
    (D := ex_db) (L := ex_laws) sample_range (λ _ _, reflexivity _) ex_memory ∅ ex_empty (ex_peer 1) ex_requests ex_holds ex_requests_ok)
    as (reqs & ids & ops & mem' & Hp & _ & _ & Hw). apply Permutation_singleton_r in Hp as ->.
  destruct (commit_holds ex_cap ex_implements ex_mix ex_peers ex_tag (D := ex_db) (L := ex_laws) sample_range (λ _ _, reflexivity _) ex_memory ∅ ex_empty _
    mem' [] ex_holds Hw (Forall_nil_2 _)) as (batch & b & d' & m' & _ & _ & _ & _ & Hh & _).
  exists (set_inner ex_memory d'). split.
  - refine (proj1 (shared_reads ex_cap ex_implements ex_range ex_perm ex_mix ex_peers ex_peer_ids ex_tag (D := ex_db) (L := ex_laws)
      (set_inner ex_memory d') m' _ (ex_peer 2) (ex_peer 1) Hh _) [[6]; [6]]). split; [by right|]. split; [by left|done].
  - refine (proj1 (shared_reads ex_cap ex_implements ex_range ex_perm ex_mix ex_peers ex_peer_ids ex_tag (D := ex_db) (L := ex_laws)
      (set_inner ex_memory d') m' _ (ex_peer 1) (ex_peer 2) Hh _) [[9]]). split; [by left|]. split; [by right|done].
Defined.
