(* ===== verification/Throttler.v ===== *)
(** * Throttling of messages by their bytes

    [network/throttling/common.go], [inbound_msg_byte_throttler.go] and [outbound_msg_throttler.go].
    A message that is read or sent takes as many bytes as it has from an allocation that all
    nodes share, up to a limit per node, and from the allocation of the node if it is a
    validator.  An inbound message that cannot get all its bytes keeps what it got and waits for
    the bytes that others release, the oldest message first.

    Each method holds the lock while it changes the throttler.  A call of [Acquire] that waits
    returns when its channel is closed or its context is done, in any order with the other
    calls; the callers make sure that at most one call of a node waits.  The share of a
    validator is computed with IEEE 754 numbers of 64 bits.  The weights are arguments of the calls.
    Message IDs count messages and are not bounded. *)

From Stdlib Require Import SpecFloat.
From stdpp Require Import sorting.
From S2P Require Import Prelude Linked Hashmap.

Open Scope Z_scope.

Definition add64 (a b : Z) : Z := u64 (a + b).
Definition sub64 (a b : Z) : Z := u64 (a - b).

Section throttling.
Context {NodeID : Type} `{Countable NodeID}.
(** Converting a number that is not a [uint64] gives a result that depends on the implementation. *)
Context (out_of_range : spec_float → Z).

(** [float64(x)], rounded to the nearest number, and [uint64(f)], rounded towards zero *)
Definition float64 (x : Z) : spec_float := binary_normalize 53 1024 x 0 false.
Definition to_uint64 (f : spec_float) : Z :=
  match f with
  | S754_zero _ => 0
  | S754_finite false m e => let z := Z.shiftl (Zpos m) e in if z <=? MaxUint64 then z else out_of_range f
  | S754_finite true m e => if Z.shiftl (Zpos m) e =? 0 then 0 else out_of_range f
  | _ => out_of_range f
  end.

(** [uint64(float64(a) * float64(b) / float64(c))] *)
Definition float_share (a b c : Z) : Z := to_uint64 (SFdiv 53 1024 (SFmul 53 1024 (float64 a) (float64 b)) (float64 c)).

(** ** [common.go] *)

Record MsgByteThrottlerConfig := mkConfig { VdrAllocSize : Z; AtLargeAllocSize : Z; NodeMaxAtLargeBytes : Z }.

Record commonMsgThrottler := mkCommon {
  nodeMaxAtLargeBytes : Z;
  remainingVdrBytes : Z;
  remainingAtLargeBytes : Z;
  nodeToVdrBytesUsed : gmap NodeID Z;
  nodeToAtLargeBytesUsed : gmap NodeID Z;
  maxVdrBytes : Z;
}.

Definition newCommon (config : MsgByteThrottlerConfig) : commonMsgThrottler :=
  mkCommon (NodeMaxAtLargeBytes config) (VdrAllocSize config) (AtLargeAllocSize config) ∅ ∅ (VdrAllocSize config).

(** [m[nodeID]] *)
Definition bytes_used (m : gmap NodeID Z) (n : NodeID) : Z := default 0 (m !! n).

(** [m[nodeID] -= b], and the entry is deleted when it is zero. *)
Definition sub_used (m : gmap NodeID Z) (n : NodeID) (b : Z) : gmap NodeID Z :=
  let m := <[n := sub64 (bytes_used m n) b]> m in
  if bytes_used m n =? 0 then delete n m else m.

Definition use_at_large (c : commonMsgThrottler) (n : NodeID) (b : Z) : commonMsgThrottler :=
  if 0 <? b then
    mkCommon (nodeMaxAtLargeBytes c) (remainingVdrBytes c) (sub64 (remainingAtLargeBytes c) b) (nodeToVdrBytesUsed c)
      (<[n := add64 (bytes_used (nodeToAtLargeBytesUsed c) n) b]> (nodeToAtLargeBytesUsed c)) (maxVdrBytes c)
  else c.
Definition use_vdr (c : commonMsgThrottler) (n : NodeID) (b : Z) : commonMsgThrottler :=
  if 0 <? b then
    mkCommon (nodeMaxAtLargeBytes c) (sub64 (remainingVdrBytes c) b) (remainingAtLargeBytes c)
      (<[n := add64 (bytes_used (nodeToVdrBytesUsed c) n) b]> (nodeToVdrBytesUsed c)) (nodeToAtLargeBytesUsed c) (maxVdrBytes c)
  else c.
Definition return_at_large (c : commonMsgThrottler) (n : NodeID) (b : Z) : commonMsgThrottler :=
  mkCommon (nodeMaxAtLargeBytes c) (remainingVdrBytes c) (add64 (remainingAtLargeBytes c) b) (nodeToVdrBytesUsed c)
    (sub_used (nodeToAtLargeBytesUsed c) n b) (maxVdrBytes c).
Definition return_vdr (c : commonMsgThrottler) (n : NodeID) (b : Z) : commonMsgThrottler :=
  mkCommon (nodeMaxAtLargeBytes c) (add64 (remainingVdrBytes c) b) (remainingAtLargeBytes c)
    (sub_used (nodeToVdrBytesUsed c) n b) (nodeToAtLargeBytesUsed c) (maxVdrBytes c).

(** [atLargeBytesUsed] and [vdrBytesUsed] of the two throttlers *)
Definition at_large_share (c : commonMsgThrottler) (bytesNeeded : Z) (n : NodeID) : Z :=
  Z.min bytesNeeded
    (Z.min (sub64 (nodeMaxAtLargeBytes c) (bytes_used (nodeToAtLargeBytesUsed c) n)) (remainingAtLargeBytes c)).

(** The weight of the node and the total weight, which may be an error *)
Definition vdrAllocationSize (c : commonMsgThrottler) (weight : Z) (totalWeight : option Z) : Z :=
  if negb (weight =? 0) then
    match totalWeight with None => 0 | Some totalWeight => float_share (maxVdrBytes c) weight totalWeight end
  else 0.

Definition vdr_share (c : commonMsgThrottler) (bytesNeeded : Z) (n : NodeID) (weight : Z) (totalWeight : option Z) : Z :=
  let size := vdrAllocationSize c weight totalWeight in
  let vdrBytesAlreadyUsed := bytes_used (nodeToVdrBytesUsed c) n in
  let vdrBytesAllowed := if size <=? vdrBytesAlreadyUsed then 0 else sub64 size vdrBytesAlreadyUsed in
  Z.min (remainingVdrBytes c) (Z.min bytesNeeded vdrBytesAllowed).

(** ** [outbound_msg_throttler.go] *)

(** [bypass] is whether the message bypasses throttling, [size] is [len(msg.Bytes())]. *)
Definition outbound_Acquire (c : commonMsgThrottler) (bypass : bool) (size : Z) (n : NodeID) (weight : Z) (totalWeight : option Z)
    : bool * commonMsgThrottler :=
  if bypass then (true, c)
  else
    let atLargeBytesUsed := at_large_share c size n in
    let bytesNeeded := sub64 size atLargeBytesUsed in
    let vdrBytesUsed := vdr_share c bytesNeeded n weight totalWeight in
    let bytesNeeded := sub64 bytesNeeded vdrBytesUsed in
    if negb (bytesNeeded =? 0) then (false, c)
    else (true, use_vdr (use_at_large c n atLargeBytesUsed) n vdrBytesUsed).

Definition outbound_Release (c : commonMsgThrottler) (bypass : bool) (size : Z) (n : NodeID) : commonMsgThrottler :=
  if bypass then c
  else
    let vdrBytesToReturn := Z.min size (bytes_used (nodeToVdrBytesUsed c) n) in
    let c := return_vdr c n vdrBytesToReturn in
    return_at_large c n (sub64 size vdrBytesToReturn).

(** ** [inbound_msg_byte_throttler.go] *)

(** The channel is nil, open or closed. *)
Inductive channel := Nil | Open | Closed.

#[export] Instance channel_eq_dec : EqDecision channel.
Proof using. solve_decision. Defined.

Record msgMetadata := mkMeta { bytesNeeded : Z; msgSize : Z; nodeID : NodeID; closeOnAcquireChan : channel }.

(** Metadata are shared by the queue and the calls: [heap] holds them, [next_ptr] is unused. *)
Record inboundMsgByteThrottler := mkInbound {
  common : commonMsgThrottler;
  nextMsgID : Z;
  nodeToWaitingMsgID : gmap NodeID Z;
  waitingToAcquire : list (Z * nat);
  heap : gmap nat msgMetadata;
  next_ptr : nat;
}.

Definition newInboundMsgByteThrottler (config : MsgByteThrottlerConfig) : inboundMsgByteThrottler :=
  mkInbound (newCommon config) 0 ∅ [] ∅ 0.

Definition set_common (t : inboundMsgByteThrottler) (c : commonMsgThrottler) : inboundMsgByteThrottler :=
  mkInbound c (nextMsgID t) (nodeToWaitingMsgID t) (waitingToAcquire t) (heap t) (next_ptr t).
Definition set_metadata (t : inboundMsgByteThrottler) (p : nat) (md : msgMetadata) : inboundMsgByteThrottler :=
  mkInbound (common t) (nextMsgID t) (nodeToWaitingMsgID t) (waitingToAcquire t) (<[p := md]> (heap t)) (next_ptr t).

(** [msg.bytesNeeded -= b] *)
Definition sub_needed (md : msgMetadata) (b : Z) : msgMetadata :=
  mkMeta (sub64 (bytesNeeded md) b) (msgSize md) (nodeID md) (closeOnAcquireChan md).

(** What both [Acquire] and [release] do to give a message bytes of the shared allocation *)
Definition give_at_large (t : inboundMsgByteThrottler) (p : nat) (md : msgMetadata) : Z * inboundMsgByteThrottler :=
  let given := at_large_share (common t) (bytesNeeded md) (nodeID md) in
  (given, if 0 <? given then set_metadata (set_common t (use_at_large (common t) (nodeID md) given)) p (sub_needed md given) else t).

(** [close(msg.closeOnAcquireChan)], which panics when the channel is nil or closed, and the
    removal of the message from the queue *)
Definition unblock (t : inboundMsgByteThrottler) (n : NodeID) (msgID : Z) (p : nat) (md : msgMetadata) : option inboundMsgByteThrottler :=
  match closeOnAcquireChan md with
  | Open =>
      Some (mkInbound (common t) (nextMsgID t) (delete n (nodeToWaitingMsgID t)) (om_delete (waitingToAcquire t) msgID)
        (<[p := mkMeta (bytesNeeded md) (msgSize md) (nodeID md) Closed]> (heap t)) (next_ptr t))
  | _ => None
  end.

(** The bytes that [Acquire] takes, and whether they are enough *)
Definition take_bytes (t : inboundMsgByteThrottler) (p : nat) (md : msgMetadata) (weight : Z) (total : option Z) : bool * msgMetadata * inboundMsgByteThrottler :=
  let '(given, t) := give_at_large t p md in
  let md := if 0 <? given then sub_needed md given else md in
  if (0 <? given) && (bytesNeeded md =? 0) then (true, md, t)
  else
    let given := vdr_share (common t) (bytesNeeded md) (nodeID md) weight total in
    let '(md, t) := if 0 <? given then
                      let md := sub_needed md given in
                      (md, set_metadata (set_common t (use_vdr (common t) (nodeID md) given)) p md)
                    else (md, t) in
    ((0 <? given) && (bytesNeeded md =? 0), md, t).

Inductive acquired := Refused | Granted (p : nat) | MustWait (p : nat) (msgID : Z).

(** [Acquire], up to the select statement *)
Definition Acquire (t : inboundMsgByteThrottler) (size : Z) (n : NodeID) (weight : Z) (totalWeight : option Z) : acquired * inboundMsgByteThrottler :=
  match nodeToWaitingMsgID t !! n with
  | Some _ => (Refused, t)
  | None =>
      let p := next_ptr t in
      let md := mkMeta size size n Nil in
      let t := mkInbound (common t) (nextMsgID t) (nodeToWaitingMsgID t) (waitingToAcquire t) (<[p := md]> (heap t)) (S p) in
      let '(ok, md, t) := take_bytes t p md weight totalWeight in
      if ok then (Granted p, t)
      else
        let msgID := nextMsgID t + 1 in
        (MustWait p msgID,
         mkInbound (common t) msgID (<[n := msgID]> (nodeToWaitingMsgID t)) (om_put (waitingToAcquire t) msgID p)
           (<[p := mkMeta (bytesNeeded md) (msgSize md) (nodeID md) Open]> (heap t)) (next_ptr t))
  end.

(** The case of [ctx.Done()] *)
Definition cancel (t : inboundMsgByteThrottler) (msgID : Z) (n : NodeID) : inboundMsgByteThrottler :=
  mkInbound (common t) (nextMsgID t) (delete n (nodeToWaitingMsgID t)) (om_delete (waitingToAcquire t) msgID) (heap t) (next_ptr t).

(** The body of the loop of [release] over the queue *)
Definition serve_one (t : inboundMsgByteThrottler) (msgID : Z) (p : nat) (md : msgMetadata) : option inboundMsgByteThrottler :=
  let '(given, t) := give_at_large t p md in
  let md := if 0 <? given then sub_needed md given else md in
  if bytesNeeded md =? 0 then unblock t (nodeID md) msgID p md else Some t.

(** The loop.  An iterator has the next entry in hand when the current one is deleted, so that the
    loop is over the entries at its start.  [None] is a panic. *)
Fixpoint give_loop (entries : list (Z * nat)) (t : inboundMsgByteThrottler) : option inboundMsgByteThrottler :=
  match entries with
  | [] => Some t
  | (msgID, p) :: entries =>
      if 0 <? remainingAtLargeBytes (common t) then
        md ← heap t !! p;
        t ← serve_one t msgID p md;
        give_loop entries t
      else Some t
  end.

(** The bytes for the message of the node itself, with those that are left *)
Definition give_own (t : inboundMsgByteThrottler) (n : NodeID) (vdrBytesToReturn : Z) : option (Z * inboundMsgByteThrottler) :=
  match nodeToWaitingMsgID t !! n with
  | Some msgID =>
      if 0 <? vdrBytesToReturn then
        match om_get (waitingToAcquire t) msgID with
        | Some p =>
            md ← heap t !! p;
            let bytesToGive := Z.min (bytesNeeded md) vdrBytesToReturn in
            let md := sub_needed md bytesToGive in
            let t := set_metadata t p md in
            t ← if bytesNeeded md =? 0 then unblock t n msgID p md else Some t;
            Some (sub64 vdrBytesToReturn bytesToGive, t)
        | None => Some (vdrBytesToReturn, t)
        end
      else Some (vdrBytesToReturn, t)
  | None => Some (vdrBytesToReturn, t)
  end.

Definition release (t : inboundMsgByteThrottler) (p : nat) (n : NodeID) : option inboundMsgByteThrottler :=
  md ← heap t !! p;
  let vdrBytesUsed := bytes_used (nodeToVdrBytesUsed (common t)) n in
  let releasedBytes := sub64 (msgSize md) (bytesNeeded md) in
  let vdrBytesToReturn := Z.min releasedBytes vdrBytesUsed in
  let atLargeBytesToReturn := sub64 releasedBytes vdrBytesToReturn in
  t ← if 0 <? atLargeBytesToReturn
      then give_loop (waitingToAcquire t) (set_common t (return_at_large (common t) n atLargeBytesToReturn))
      else Some t;
  '(vdrBytesToReturn, t) ← give_own t n vdrBytesToReturn;
  Some (if 0 <? vdrBytesToReturn then set_common t (return_vdr (common t) n vdrBytesToReturn) else t).

(** ** Accounting *)

Implicit Types (c : commonMsgThrottler) (n : NodeID) (b : Z).

Definition at_used c n : Z := bytes_used (nodeToAtLargeBytesUsed c) n.
Definition vdr_used c n : Z := bytes_used (nodeToVdrBytesUsed c) n.

Section accounting.
(** The sizes of the allocations and the limit of a node *)
Context (A V M : Z) (A_u64 : is_u64 A) (V_u64 : is_u64 V) (M_u64 : is_u64 M).

(** Every byte is in an allocation or used by a node; [held] is what the nodes use. *)
Record balanced c (held : NodeID → Z) : Prop := {
  ba_at_large : remainingAtLargeBytes c + map_sum (nodeToAtLargeBytesUsed c) = A ∧ 0 ≤ remainingAtLargeBytes c;
  ba_vdr : remainingVdrBytes c + map_sum (nodeToVdrBytesUsed c) = V ∧ 0 ≤ remainingVdrBytes c;
  ba_at_node n : 0 ≤ at_used c n ≤ M;
  ba_vdr_node n : 0 ≤ vdr_used c n;
  ba_held n : at_used c n + vdr_used c n = held n;
  ba_max : nodeMaxAtLargeBytes c = M;
}.

(** [held] with [b] more bytes for one node *)
Definition plus (held : NodeID → Z) n b : NodeID → Z := λ n', held n' + if decide (n' = n) then b else 0.

Lemma balanced_ext c held held' : (∀ n, held n = held' n) → balanced c held → balanced c held'.
Proof using. intros E [H1 H2 H3 H4 H5 H6]. split; [done..| |done]. intros n. by rewrite <- E. Qed.

Lemma new_balanced maxVdr : balanced (mkCommon M V A ∅ ∅ maxVdr) (λ _, 0).
Proof using A_u64 V_u64 M_u64. unfold is_u64 in *. split; cbn; rewrite ?map_sum_empty; try lia; intros n; unfold at_used, vdr_used, bytes_used; cbn; rewrite ?lookup_empty; cbn; lia. Qed.

Lemma used_le_sum (m : gmap NodeID Z) n : (∀ n, 0 ≤ bytes_used m n) → bytes_used m n ≤ map_sum m.
Proof using.
  intros Hpos. assert (Hall : map_Forall (λ _ z, 0 ≤ z) m) by (intros k z Hk; specialize (Hpos k); unfold bytes_used in Hpos; by rewrite Hk in Hpos).
  unfold bytes_used. destruct (m !! n) as [z|] eqn:E; cbn; [by apply map_sum_lookup_le with n|by apply map_sum_nonneg].
Qed.

Lemma balanced_bounds c held n : balanced c held → 0 ≤ at_used c n ≤ A ∧ 0 ≤ vdr_used c n ≤ V ∧ remainingAtLargeBytes c ≤ A ∧ remainingVdrBytes c ≤ V
  ∧ at_used c n + remainingAtLargeBytes c ≤ A ∧ vdr_used c n + remainingVdrBytes c ≤ V.
Proof using.
  intros [[H1 H1'] [H2 H2'] H3 H4 _ _]. pose proof (used_le_sum (nodeToAtLargeBytesUsed c) n (λ n, proj1 (H3 n))) as L1.
  pose proof (used_le_sum (nodeToVdrBytesUsed c) n H4) as L2. unfold at_used, vdr_used in *. specialize (H3 n). specialize (H4 n). cbn in *. lia.
Qed.

Lemma bytes_used_insert (m : gmap NodeID Z) n z n' : bytes_used (<[n := z]> m) n' = if decide (n' = n) then z else bytes_used m n'.
Proof using. unfold bytes_used. case_decide as E; [subst; by rewrite lookup_insert_eq|by rewrite lookup_insert_ne]. Qed.

Lemma map_sum_used (m : gmap NodeID Z) n z : map_sum (<[n := z]> m) = map_sum m + z - bytes_used m n.
Proof using. rewrite map_sum_insert. unfold bytes_used. lia. Qed.

Lemma sub64_exact a b : 0 ≤ b ≤ a → a ≤ MaxUint64 → sub64 a b = a - b.
Proof using. intros. apply u64_id. unfold is_u64. lia. Qed.
Lemma add64_exact a b : 0 ≤ a → 0 ≤ b → a + b ≤ MaxUint64 → add64 a b = a + b.
Proof using. intros. apply u64_id. unfold is_u64. lia. Qed.

Lemma sub_used_spec (m : gmap NodeID Z) n b : 0 ≤ b ≤ bytes_used m n → bytes_used m n ≤ MaxUint64 →
  map_sum (sub_used m n b) = map_sum m - b ∧ ∀ n', bytes_used (sub_used m n b) n' = bytes_used m n' - if decide (n' = n) then b else 0.
Proof using.
  intros Hb Hm. unfold sub_used. rewrite sub64_exact by done. set (m1 := <[n := bytes_used m n - b]> m).
  assert (Hs : map_sum m1 = map_sum m - b) by (unfold m1; rewrite map_sum_used; lia).
  assert (Hu : ∀ n', bytes_used m1 n' = bytes_used m n' - if decide (n' = n) then b else 0)
    by (intros n'; unfold m1; rewrite bytes_used_insert; case_decide; subst; unfold at_used, vdr_used; lia).
  destruct (Z.eqb_spec (bytes_used m1 n) 0) as [Hz|Hz]; [|done]. split.
  - rewrite <- Hs. assert (E : m1 !! n = Some (bytes_used m n - b)) by apply lookup_insert_eq. rewrite (map_sum_delete m1 n _ E).
    unfold bytes_used at 1 in Hz. rewrite E in Hz. cbn in Hz. lia.
  - intros n'. rewrite <- Hu. unfold bytes_used. destruct (decide (n' = n)) as [->|Hne].
    + rewrite lookup_delete_eq. unfold bytes_used in Hz. cbn. lia.
    + by rewrite lookup_delete_ne.
Qed.

Lemma use_at_large_ok c held n b : balanced c held → 0 ≤ b → b ≤ M - at_used c n → b ≤ remainingAtLargeBytes c →
  balanced (use_at_large c n b) (plus held n b)
  ∧ (∀ n', at_used (use_at_large c n b) n' = at_used c n' + if decide (n' = n) then b else 0)
  ∧ remainingAtLargeBytes (use_at_large c n b) = remainingAtLargeBytes c - b.
Proof using A_u64 V_u64 M_u64.
  intros Hb H0 H1 H2. pose proof (balanced_bounds c held n Hb) as Hbd. unfold is_u64 in *. unfold use_at_large. destruct (Z.ltb_spec 0 b) as [Hp|Hp].
  - assert (Eu : add64 (bytes_used (nodeToAtLargeBytesUsed c) n) b = at_used c n + b) by (apply add64_exact; unfold at_used in *; lia).
    assert (Er : sub64 (remainingAtLargeBytes c) b = remainingAtLargeBytes c - b) by (apply sub64_exact; lia). rewrite Eu, Er.
    set (c' := mkCommon _ _ _ _ _ _). assert (Ha : ∀ n', at_used c' n' = at_used c n' + if decide (n' = n) then b else 0)
      by (intros n'; unfold at_used at 1; cbn; rewrite bytes_used_insert; case_decide; subst; unfold at_used, vdr_used; lia).
    split; [|by split]. destruct Hb as [B1 B2 B3 B4 B5 B6]. split; cbn; [|done| |done| |done].
    + rewrite map_sum_used. fold (at_used c n). lia.
    + intros n'. rewrite Ha. specialize (B3 n'). case_decide; subst; lia.
    + intros n'. rewrite Ha. change (vdr_used c' n') with (vdr_used c n'). unfold plus. rewrite <- B5. lia.
  - assert (b = 0) as -> by lia. split; [|split; [intros n'; case_decide; lia|lia]]. eapply balanced_ext; [|exact Hb]. intros n'. unfold plus. case_decide; lia.
Qed.

Lemma use_vdr_ok c held n b : balanced c held → 0 ≤ b → b ≤ remainingVdrBytes c →
  balanced (use_vdr c n b) (plus held n b)
  ∧ (∀ n', at_used (use_vdr c n b) n' = at_used c n') ∧ remainingAtLargeBytes (use_vdr c n b) = remainingAtLargeBytes c.
Proof using A_u64 V_u64 M_u64.
  intros Hb H0 H1. pose proof (balanced_bounds c held n Hb) as Hbd. unfold is_u64 in *. unfold use_vdr. destruct (Z.ltb_spec 0 b) as [Hp|Hp].
  - assert (Eu : add64 (bytes_used (nodeToVdrBytesUsed c) n) b = vdr_used c n + b) by (apply add64_exact; unfold vdr_used in *; lia).
    assert (Er : sub64 (remainingVdrBytes c) b = remainingVdrBytes c - b) by (apply sub64_exact; lia). rewrite Eu, Er.
    set (c' := mkCommon _ _ _ _ _ _). assert (Ha : ∀ n', vdr_used c' n' = vdr_used c n' + if decide (n' = n) then b else 0)
      by (intros n'; unfold vdr_used at 1; cbn; rewrite bytes_used_insert; case_decide; subst; unfold at_used, vdr_used; lia).
    split; [|done]. destruct Hb as [B1 B2 B3 B4 B5 B6]. split; cbn; [done| |done| | |done].
    + rewrite map_sum_used. fold (vdr_used c n). lia.
    + intros n'. rewrite Ha. specialize (B4 n'). case_decide; subst; lia.
    + intros n'. rewrite Ha. change (at_used c' n') with (at_used c n'). unfold plus. rewrite <- B5. lia.
  - assert (b = 0) as -> by lia. split; [|done]. eapply balanced_ext; [|exact Hb]. intros n'. unfold plus. case_decide; lia.
Qed.

Lemma return_at_large_ok c held n b : balanced c held → 0 ≤ b ≤ at_used c n →
  balanced (return_at_large c n b) (plus held n (- b))
  ∧ (∀ n', at_used (return_at_large c n b) n' = at_used c n' - if decide (n' = n) then b else 0)
  ∧ remainingAtLargeBytes (return_at_large c n b) = remainingAtLargeBytes c + b.
Proof using A_u64 V_u64 M_u64.
  intros Hb H0. pose proof (balanced_bounds c held n Hb) as Hbd. unfold is_u64 in *. unfold return_at_large.
  destruct (sub_used_spec (nodeToAtLargeBytesUsed c) n b) as [Hs Hu]; [done|unfold at_used in *; lia|].
  assert (Er : add64 (remainingAtLargeBytes c) b = remainingAtLargeBytes c + b) by (destruct Hb as [[? ?] _ _ _ _ _]; apply add64_exact; lia). rewrite Er.
  set (c' := mkCommon _ _ _ _ _ _). assert (Ha : ∀ n', at_used c' n' = at_used c n' - if decide (n' = n) then b else 0) by exact Hu.
  split; [|by split]. destruct Hb as [B1 B2 B3 B4 B5 B6]. split; cbn; [|done| |done| |done].
  - lia.
  - intros n'. rewrite Ha. specialize (B3 n'). case_decide; subst; lia.
  - intros n'. rewrite Ha. change (vdr_used c' n') with (vdr_used c n'). unfold plus. rewrite <- B5. case_decide; lia.
Qed.

Lemma return_vdr_ok c held n b : balanced c held → 0 ≤ b ≤ vdr_used c n →
  balanced (return_vdr c n b) (plus held n (- b))
  ∧ (∀ n', at_used (return_vdr c n b) n' = at_used c n') ∧ remainingAtLargeBytes (return_vdr c n b) = remainingAtLargeBytes c.
Proof using A_u64 V_u64 M_u64.
  intros Hb H0. pose proof (balanced_bounds c held n Hb) as Hbd. unfold is_u64 in *. unfold return_vdr.
  destruct (sub_used_spec (nodeToVdrBytesUsed c) n b) as [Hs Hu]; [done|unfold vdr_used in *; lia|].
  assert (Er : add64 (remainingVdrBytes c) b = remainingVdrBytes c + b) by (destruct Hb as [_ [? ?] _ _ _ _]; apply add64_exact; lia). rewrite Er.
  set (c' := mkCommon _ _ _ _ _ _). assert (Ha : ∀ n', vdr_used c' n' = vdr_used c n' - if decide (n' = n) then b else 0) by exact Hu.
  split; [|done]. destruct Hb as [B1 B2 B3 B4 B5 B6]. split; cbn; [done| |done| | |done].
  - lia.
  - intros n'. rewrite Ha. specialize (B4 n'). case_decide; subst; lia.
  - intros n'. rewrite Ha. change (at_used c' n') with (at_used c n'). unfold plus. rewrite <- B5. case_decide; lia.
Qed.

Lemma at_large_share_spec c held n needed : balanced c held → 0 ≤ needed → let b := at_large_share c needed n in
  0 ≤ b ≤ needed ∧ b ≤ M - at_used c n ∧ b ≤ remainingAtLargeBytes c ∧ (b = needed ∨ b = M - at_used c n ∨ b = remainingAtLargeBytes c).
Proof using M_u64.
  intros Hb Hn. unfold at_large_share. fold (at_used c n). destruct Hb as [[_ H1] _ H3 _ _ ->]. specialize (H3 n).
  rewrite sub64_exact by (unfold is_u64 in *; lia). lia.
Qed.

Context (out_of_range_u64 : ∀ f, is_u64 (out_of_range f)).

Lemma float_share_u64 x y z : is_u64 (float_share x y z).
Proof using out_of_range_u64.
  unfold float_share, to_uint64. destruct (SFdiv _ _ _ _) as [s|s| |[] m e]; [unfold is_u64, MaxUint64; lia|done|done| |].
  - case_match; [unfold is_u64, MaxUint64; lia|done].
  - assert (0 ≤ Z.shiftl (Zpos m) e) by (apply Z.shiftl_nonneg; lia). destruct (Z.leb_spec (Z.shiftl (Zpos m) e) MaxUint64); [unfold is_u64; lia|done].
Qed.

Lemma vdr_share_spec c held n needed weight total : balanced c held → 0 ≤ needed → let b := vdr_share c needed n weight total in
  0 ≤ b ≤ needed ∧ b ≤ remainingVdrBytes c.
Proof using out_of_range_u64.
  intros Hb Hn. destruct Hb as [_ [_ H1] _ H2 _ _]. specialize (H2 n). unfold vdr_share. fold (vdr_used c n).
  assert (Hs : 0 ≤ vdrAllocationSize c weight total ≤ MaxUint64).
  { unfold vdrAllocationSize. destruct (negb _); [|done]. destruct total; [apply float_share_u64|done]. }
  destruct (Z.leb_spec (vdrAllocationSize c weight total) (vdr_used c n)) as [Hl|Hl]; [lia|]. rewrite sub64_exact by lia. lia.
Qed.

(** *** The outbound throttler *)

(** Messages that were queued and not released *)
Definition pending_bytes (pending : list (NodeID * Z)) n : Z := foldr (λ x z, z + if decide (n = x.1) then x.2 else 0) 0 pending.

Lemma pending_bytes_perm pending pending' n : pending ≡ₚ pending' → pending_bytes pending n = pending_bytes pending' n.
Proof using. unfold pending_bytes. induction 1; cbn; lia. Qed.

(** Queuing a message succeeds exactly if its bytes are available, and accounts for all of them. *)
Lemma outbound_Acquire_spec c pending size n weight total : balanced c (pending_bytes pending) → 0 ≤ size ≤ MaxUint64 →
  let '(ok, c') := outbound_Acquire c false size n weight total in
  if ok then balanced c' (pending_bytes ((n, size) :: pending)) else c' = c.
Proof using A_u64 V_u64 M_u64 out_of_range_u64.
  intros Hb Hs. unfold outbound_Acquire. destruct (at_large_share_spec c _ n size Hb (proj1 Hs)) as (H1 & H2 & H3 & _).
  set (a := at_large_share c size n) in *. rewrite (sub64_exact size a) by lia.
  assert (Hn : 0 ≤ size - a) by lia. destruct (vdr_share_spec c _ n (size - a) weight total Hb Hn) as [H4 H5].
  set (v := vdr_share c (size - a) n weight total) in *. rewrite (sub64_exact (size - a) v) by lia.
  destruct (Z.eqb_spec (size - a - v) 0) as [E|E]; cbn [negb]; [|done].
  destruct (use_at_large_ok c _ n a Hb ltac:(lia) H2 H3) as (B1 & _ & _).
  destruct (use_vdr_ok (use_at_large c n a) _ n v B1) as (B2 & _); [lia|unfold use_at_large; destruct (0 <? a); done|].
  eapply balanced_ext; [|exact B2]. intros n'. cbn [pending_bytes foldr fst snd]. unfold plus. fold (pending_bytes pending n'). case_decide; lia.
Qed.

Lemma outbound_Release_spec c pending size n : 0 ≤ size ≤ MaxUint64 → balanced c (pending_bytes ((n, size) :: pending)) →
  (∀ n, 0 ≤ pending_bytes pending n) → balanced (outbound_Release c false size n) (pending_bytes pending).
Proof using A_u64 V_u64 M_u64.
  intros Hs Hb Hpos. unfold outbound_Release. fold (vdr_used c n). pose proof (ba_held c _ Hb n) as Hh. cbn [pending_bytes foldr fst snd] in Hh. rewrite decide_True in Hh by done. fold (pending_bytes pending n) in Hh.
  pose proof (ba_vdr_node c _ Hb n) as Hv. pose proof (ba_at_node c _ Hb n) as Ha. specialize (Hpos n). set (v := Z.min size (vdr_used c n)) in *.
  destruct (return_vdr_ok c _ n v Hb ltac:(lia)) as (B1 & Ea & _).
  rewrite sub64_exact by lia. destruct (return_at_large_ok (return_vdr c n v) _ n (size - v) B1) as (B2 & _); [rewrite Ea; lia|].
  eapply balanced_ext; [|exact B2]. intros n'. unfold plus.
  change (pending_bytes ((n, size) :: pending) n') with (pending_bytes pending n' + if decide (n' = n) then size else 0). case_decide; lia.
Qed.

(** *** Bytes that messages hold *)

Implicit Types (t : inboundMsgByteThrottler) (h : gmap nat msgMetadata) (md : msgMetadata).

Definition got md : Z := msgSize md - bytesNeeded md.
Definition held_of n md : Z := if decide (n = nodeID md) then got md else 0.
Definition held h n : Z := map_sum (held_of n <$> h).

Lemma held_insert h p md n : held (<[p := md]> h) n = held h n + held_of n md - match h !! p with Some md' => held_of n md' | None => 0 end.
Proof using. unfold held. rewrite fmap_insert, map_sum_insert, lookup_fmap. destruct (h !! p); cbn; lia. Qed.

Lemma held_delete h p md n : h !! p = Some md → held (delete p h) n = held h n - held_of n md.
Proof using. intros E. unfold held. rewrite fmap_delete. rewrite (map_sum_delete (held_of n <$> h) p (held_of n md)) by (by rewrite lookup_fmap, E). lia. Qed.

(** ** Concurrent calls of the inbound throttler *)

(** A call of [Acquire] waits for its message, or has returned and its release function is still
    to be called. *)
Inductive status := Blocked (msgID : Z) | Done.

#[export] Instance status_eq_dec : EqDecision status.
Proof using. solve_decision. Defined.

Implicit Types (st : gmap nat status) (adj : NodeID → Z).

(** Metadata that no call uses are garbage. *)
Definition forget t (p : nat) : inboundMsgByteThrottler :=
  mkInbound (common t) (nextMsgID t) (nodeToWaitingMsgID t) (waitingToAcquire t) (delete p (heap t)) (next_ptr t).

Definition started (r : acquired) st : gmap nat status :=
  match r with Refused => st | Granted p => <[p := Done]> st | MustWait p msgID => <[p := Blocked msgID]> st end.

(** The sizes of messages *)
Context (size_ok : Z → Prop) (size_u64 : ∀ s, size_ok s → is_u64 s).

Definition tconfig : Type := inboundMsgByteThrottler * gmap nat status.

(** A call starts; at most one call of a node is blocked. *)
Inductive tstart : tconfig → tconfig → Prop :=
  | ts_acquire t st size n weight total r t' :
      size_ok size → (∀ p id md, st !! p = Some (Blocked id) → heap t !! p = Some md → nodeID md ≠ n) →
      Acquire t size n weight total = (r, t') → tstart (t, st) (t', started r st).

(** The context of a blocked call is done. *)
Inductive tcancel : tconfig → tconfig → Prop :=
  | ts_cancel t st p id md :
      st !! p = Some (Blocked id) → heap t !! p = Some md → tcancel (t, st) (cancel t id (nodeID md), <[p := Done]> st).

(** A call returns because its channel was closed, or a message is released. *)
Inductive tserve : tconfig → tconfig → Prop :=
  | ts_wake t st p id md :
      st !! p = Some (Blocked id) → heap t !! p = Some md → closeOnAcquireChan md = Closed → tserve (t, st) (t, <[p := Done]> st)
  | ts_release t st p md t' :
      st !! p = Some Done → heap t !! p = Some md → release t p (nodeID md) = Some t' → tserve (t, st) (forget t' p, delete p st).

Definition tstep (s s' : tconfig) : Prop := tstart s s' ∨ tcancel s s' ∨ tserve s s'.

(** [adj] is what the accounts lack of what the messages hold, while a message is released. *)
Record qinv adj t st : Prop := {
  q_bal : balanced (common t) (λ n, held (heap t) n - adj n);
  q_md p md : heap t !! p = Some md → 0 ≤ bytesNeeded md ≤ msgSize md ∧ size_ok (msgSize md);
  q_fresh p : (next_ptr t ≤ p)%nat → heap t !! p = None;
  q_calls p : is_Some (heap t !! p) ↔ is_Some (st !! p);
  q_wf : om_wf (waitingToAcquire t);
  q_queue id p : (id, p) ∈ waitingToAcquire t → st !! p = Some (Blocked id)
    ∧ ∃ md, heap t !! p = Some md ∧ closeOnAcquireChan md = Open ∧ nodeToWaitingMsgID t !! nodeID md = Some id;
  q_map n id : nodeToWaitingMsgID t !! n = Some id → ∃ p md, (id, p) ∈ waitingToAcquire t ∧ heap t !! p = Some md ∧ nodeID md = n;
  q_blocked p id : st !! p = Some (Blocked id) → id ≤ nextMsgID t
    ∧ ((id, p) ∈ waitingToAcquire t ∨ ∃ md, heap t !! p = Some md ∧ closeOnAcquireChan md = Closed ∧ bytesNeeded md = 0);
  q_one p p' id id' md md' : st !! p = Some (Blocked id) → st !! p' = Some (Blocked id') → heap t !! p = Some md → heap t !! p' = Some md' →
    nodeID md = nodeID md' → p = p';
  q_ids p p' id : st !! p = Some (Blocked id) → st !! p' = Some (Blocked id) → p = p';
}.

Lemma q_size adj t st p md : qinv adj t st → heap t !! p = Some md → 0 ≤ bytesNeeded md ≤ msgSize md ∧ msgSize md ≤ MaxUint64.
Proof using size_u64. intros Hq Hp. destruct (q_md adj t st Hq p md Hp) as [? Hs%size_u64]. unfold is_u64 in Hs. lia. Qed.

Lemma held_plus h p md b n : h !! p = Some md → 0 ≤ b ≤ bytesNeeded md → bytesNeeded md ≤ MaxUint64 →
  held (<[p := sub_needed md b]> h) n = plus (held h) (nodeID md) b n.
Proof using.
  intros Hp Hb Hm. rewrite held_insert, Hp. unfold held_of, sub_needed, got, plus. cbn. rewrite sub64_exact by lia. case_decide; lia.
Qed.

(** A message gets bytes. *)
Lemma needed_qinv adj t st p md b : qinv adj t st → heap t !! p = Some md → closeOnAcquireChan md ≠ Closed → 0 ≤ b ≤ bytesNeeded md →
  qinv (plus adj (nodeID md) b) (set_metadata t p (sub_needed md b)) st.
Proof using size_u64.
  intros Hq Hp Hcl Hb. destruct (q_size adj t st p md Hq Hp) as [Hn Hs]. destruct Hq as [Q1 Q2 Q3 Q4 Q5 Q6 Q7 Q8 Q9 Q10].
  assert (Hl : ∀ p' md', <[p := sub_needed md b]> (heap t) !! p' = Some md' → ∃ md0, heap t !! p' = Some md0
    ∧ nodeID md' = nodeID md0 ∧ closeOnAcquireChan md' = closeOnAcquireChan md0 ∧ msgSize md' = msgSize md0).
  { intros p' md' [[<- <-]|[Hne E]]%lookup_insert_Some; [by exists md|by exists md']. }
  assert (Hr : ∀ p' md0, heap t !! p' = Some md0 → ∃ md', <[p := sub_needed md b]> (heap t) !! p' = Some md'
    ∧ nodeID md' = nodeID md0 ∧ closeOnAcquireChan md' = closeOnAcquireChan md0 ∧ (closeOnAcquireChan md0 = Closed → bytesNeeded md' = bytesNeeded md0)).
  { intros p' md0 E. destruct (decide (p = p')) as [<-|Hne]; [|exists md0; by rewrite lookup_insert_ne].
    assert (md0 = md) as -> by congruence. exists (sub_needed md b). rewrite lookup_insert_eq. by split_and!. }
  split; cbn [common heap next_ptr waitingToAcquire nodeToWaitingMsgID nextMsgID set_metadata]; [| | | |done| | | | |done].
  - eapply balanced_ext; [|exact Q1]. intros n. cbn beta. rewrite held_plus by (done || lia). unfold plus. lia.
  - intros p' md' [[<- <-]|[_ E]]%lookup_insert_Some; [|by apply (Q2 p')]. cbn. rewrite sub64_exact by lia. split; [lia|by apply (Q2 p)].
  - intros p' Hle. apply lookup_insert_None. split; [by apply Q3|]. intros ->. by rewrite (Q3 p' Hle) in Hp.
  - intros p'. rewrite <- Q4. destruct (decide (p = p')) as [<-|Hne]; [rewrite lookup_insert_eq, Hp; by split; eexists|by rewrite lookup_insert_ne].
  - intros id p' Hin. destruct (Q6 id p' Hin) as [Hst (md0 & E & Ho & Hw)]. split; [done|].
    destruct (Hr p' md0 E) as (md' & E' & Hn' & Hc' & _). exists md'. split; [done|]. by rewrite Hn', Hc'.
  - intros n id Hw. destruct (Q7 n id Hw) as (p' & md0 & Hin & E & Hn0). destruct (Hr p' md0 E) as (md' & E' & Hn' & _). exists p', md'. split; [done|]. split; [done|congruence].
  - intros p' id Hst. destruct (Q8 p' id Hst) as [Hle [Hin|(md0 & E & Hc & Hz)]]; (split; [done|]); [by left|right].
    destruct (Hr p' md0 E) as (md' & E' & _ & Hc' & Hb'). exists md'. split; [done|]. split; [congruence|]. rewrite Hb'; done.
  - intros p1 p2 id1 id2 md1 md2 S1 S2 (m1 & E1 & N1 & _)%Hl (m2 & E2 & N2 & _)%Hl Hnn. apply (Q9 p1 p2 id1 id2 m1 m2); congruence.
Qed.

(** The accounts change. *)
Lemma common_qinv adj adj' t st c' : qinv adj t st → balanced c' (λ n, held (heap t) n - adj' n) → qinv adj' (set_common t c') st.
Proof using. intros [Q1 Q2 Q3 Q4 Q5 Q6 Q7 Q8 Q9 Q10] Hb. by split. Qed.

Lemma qinv_ext adj adj' t st : (∀ n, adj n = adj' n) → qinv adj t st → qinv adj' t st.
Proof using. intros E [Q1 Q2 Q3 Q4 Q5 Q6 Q7 Q8 Q9 Q10]. split; try done. eapply balanced_ext; [|exact Q1]. intros n. cbn beta. by rewrite E. Qed.

(** What giving bytes of the shared allocation to a message changes *)
Record given_to t t' (p : nat) md md' b : Prop := {
  g_heap : heap t' = if 0 <? b then <[p := md']> (heap t) else heap t;
  g_md : heap t' !! p = Some md';
  g_needed : bytesNeeded md' = bytesNeeded md - b;
  g_same : msgSize md' = msgSize md ∧ nodeID md' = nodeID md ∧ closeOnAcquireChan md' = closeOnAcquireChan md;
  g_bytes : 0 ≤ b ≤ bytesNeeded md ∧ b ≤ remainingAtLargeBytes (common t) ∧ b ≤ M - at_used (common t) (nodeID md);
  g_at n : at_used (common t') n = at_used (common t) n + if decide (n = nodeID md) then b else 0;
  g_rem : remainingAtLargeBytes (common t') = remainingAtLargeBytes (common t) - b;
  g_vdr : nodeToVdrBytesUsed (common t') = nodeToVdrBytesUsed (common t);
  g_queue : waitingToAcquire t' = waitingToAcquire t ∧ nodeToWaitingMsgID t' = nodeToWaitingMsgID t ∧ nextMsgID t' = nextMsgID t ∧ next_ptr t' = next_ptr t;
  g_enough : bytesNeeded md' = 0 ∨ at_used (common t') (nodeID md) = M ∨ remainingAtLargeBytes (common t') = 0;
}.

Lemma give_at_large_spec adj t st p md : qinv adj t st → heap t !! p = Some md → closeOnAcquireChan md ≠ Closed →
  let '(b, t') := give_at_large t p md in
  qinv adj t' st ∧ given_to t t' p md (if 0 <? b then sub_needed md b else md) b.
Proof using A_u64 V_u64 M_u64 size_u64.
  intros Hq Hp Hcl. unfold give_at_large. destruct (q_size adj t st p md Hq Hp) as [Hn Hs].
  destruct (at_large_share_spec _ _ (nodeID md) (bytesNeeded md) (q_bal adj t st Hq) (proj1 Hn)) as (B1 & B2 & B3 & B4).
  set (b := at_large_share (common t) (bytesNeeded md) (nodeID md)) in *.
  destruct (use_at_large_ok _ _ (nodeID md) b (q_bal adj t st Hq) (proj1 B1) B2 B3) as (C1 & C2 & C3).
  assert (Hen : bytesNeeded md - b = 0 ∨ at_used (common t) (nodeID md) + b = M ∨ remainingAtLargeBytes (common t) - b = 0) by lia.
  destruct (Z.ltb_spec 0 b) as [Hb|Hb].
  - split.
    + assert (Q1 : qinv (plus adj (nodeID md) (- b)) (set_common t (use_at_large (common t) (nodeID md) b)) st).
      { eapply common_qinv; [exact Hq|]. eapply balanced_ext; [|exact C1]. intros n. unfold plus. case_decide; lia. }
      eapply qinv_ext; [|apply (needed_qinv _ _ _ p md b Q1 Hp Hcl B1)]. intros n. unfold plus. case_decide; lia.
    + split; cbn; [by destruct (Z.ltb_spec 0 b); [|lia]|by rewrite lookup_insert_eq|by rewrite sub64_exact by lia|done|lia|exact C2|exact C3| |done|].
      { unfold use_at_large. by destruct (0 <? b). }
      rewrite sub64_exact by lia. rewrite C2, C3, decide_True by done. exact Hen.
  - assert (b = 0) as E by lia. clearbody b. subst b. split; [done|]. split; cbn; [done|done|lia|done|lia| |lia|done|done|].
    + intros n. case_decide; lia.
    + destruct Hen as [He|[He|He]]; [left|right; left|right; right]; lia.
Qed.

Definition closed md : msgMetadata := mkMeta (bytesNeeded md) (msgSize md) (nodeID md) Closed.

Lemma unblock_spec adj t st id p md : qinv adj t st → (id, p) ∈ waitingToAcquire t → heap t !! p = Some md → bytesNeeded md = 0 →
  ∃ t', unblock t (nodeID md) id p md = Some t' ∧ qinv adj t' st ∧ common t' = common t ∧ waitingToAcquire t' = om_delete (waitingToAcquire t) id
    ∧ heap t' = <[p := closed md]> (heap t) ∧ nextMsgID t' = nextMsgID t.
Proof using.
  intros Hq Hin Hp Hz. destruct Hq as [Q1 Q2 Q3 Q4 Q5 Q6 Q7 Q8 Q9 Q10]. destruct (Q6 id p Hin) as [Hst (md0 & E & Ho & Hw)].
  assert (md0 = md) as -> by congruence. unfold unblock. rewrite Ho. eexists. split; [done|]. split; [|done].
  assert (Hl : ∀ p' md', <[p := closed md]> (heap t) !! p' = Some md' → ∃ md0, heap t !! p' = Some md0
    ∧ nodeID md' = nodeID md0 ∧ bytesNeeded md' = bytesNeeded md0 ∧ msgSize md' = msgSize md0).
  { intros p' md' [[<- <-]|[Hne E']]%lookup_insert_Some; [by exists md|by exists md']. }
  assert (Hother : ∀ id' p', (id', p') ∈ om_delete (waitingToAcquire t) id → (id', p') ∈ waitingToAcquire t ∧ id' ≠ id ∧ p' ≠ p).
  { intros id' p' [Hin' Hne]%om_delete_elem. cbn in Hne. split; [done|]. split; [done|]. intros ->. destruct (Q6 id' p Hin') as [Hst' _]. congruence. }
  split; cbn; [| | | |by apply om_delete_wf| | | | |done].
  - eapply balanced_ext; [|exact Q1]. intros n. cbn beta. rewrite held_insert, Hp. unfold held_of, got. cbn. lia.
  - intros p' md' (md0 & E' & _ & -> & ->)%Hl. by apply (Q2 p').
  - intros p' Hle. apply lookup_insert_None. split; [by apply Q3|]. intros ->. by rewrite (Q3 p' Hle) in Hp.
  - intros p'. rewrite <- Q4. destruct (decide (p = p')) as [<-|Hne]; [rewrite lookup_insert_eq, Hp; by split; eexists|by rewrite lookup_insert_ne].
  - intros id' p' (Hin' & Hne & Hpn)%Hother. destruct (Q6 id' p' Hin') as [Hst' (md' & E' & Ho' & Hw')]. split; [done|]. exists md'.
    rewrite lookup_insert_ne by done. split; [done|]. split; [done|]. rewrite lookup_delete_ne; [done|]. intros En. rewrite En in Hw. congruence.
  - intros n id' [Hne Hw']%lookup_delete_Some. destruct (Q7 n id' Hw') as (p' & md' & Hin' & E' & Hn'). exists p', md'.
    assert (p' ≠ p) by (intros ->; congruence). split; [|by rewrite lookup_insert_ne].
    apply om_delete_elem. split; [done|]. cbn. intros ->. destruct (Q6 id p' Hin') as [Hst' _]. by rewrite (Q10 p' p id Hst' Hst) in *.
  - intros p' id' Hst'. destruct (Q8 p' id' Hst') as [Hle [Hin'|(md' & E' & Hc & Hz')]]; (split; [done|]).
    + destruct (decide (id' = id)) as [->|Hne]; [right|left; by apply om_delete_elem]. rewrite (Q10 p' p id Hst' Hst). exists (closed md). by rewrite lookup_insert_eq.
    + right. destruct (decide (p = p')) as [<-|Hne]; [congruence|]. exists md'. by rewrite lookup_insert_ne.
  - intros p1 p2 id1 id2 md1 md2 S1 S2 (m1 & E1 & N1 & _)%Hl (m2 & E2 & N2 & _)%Hl Hnn. apply (Q9 p1 p2 id1 id2 m1 m2); congruence.
Qed.

(** *** The loop over the queue *)

Record served t t' (id : Z) (p : nat) md b : Prop := {
  s_bytes : 0 ≤ b ≤ bytesNeeded md ∧ b ≤ remainingAtLargeBytes (common t) ∧ b ≤ M - at_used (common t) (nodeID md);
  s_at n : at_used (common t') n = at_used (common t) n + if decide (n = nodeID md) then b else 0;
  s_rem : remainingAtLargeBytes (common t') = remainingAtLargeBytes (common t) - b;
  s_vdr : nodeToVdrBytesUsed (common t') = nodeToVdrBytesUsed (common t);
  s_md : ∃ md', heap t' !! p = Some md' ∧ bytesNeeded md' = bytesNeeded md - b ∧ msgSize md' = msgSize md ∧ nodeID md' = nodeID md;
  s_other p' : p' ≠ p → heap t' !! p' = heap t !! p';
  s_queue : waitingToAcquire t' = if decide (bytesNeeded md - b = 0) then om_delete (waitingToAcquire t) id else waitingToAcquire t;
  s_enough : bytesNeeded md - b = 0 ∨ at_used (common t') (nodeID md) = M ∨ remainingAtLargeBytes (common t') = 0;
}.

Lemma serve_one_spec adj t st id p md : qinv adj t st → (id, p) ∈ waitingToAcquire t → heap t !! p = Some md →
  ∃ t' b, serve_one t id p md = Some t' ∧ qinv adj t' st ∧ served t t' id p md b.
Proof using A_u64 V_u64 M_u64 size_u64.
  intros Hq Hin Hp. unfold serve_one. destruct (q_queue adj t st Hq id p Hin) as [_ (md0 & E & Ho & _)]. assert (md0 = md) as -> by congruence.
  pose proof (give_at_large_spec adj t st p md Hq Hp ltac:(by rewrite Ho)) as Hg. destruct (give_at_large t p md) as [b t1]. destruct Hg as [Hq1 G].
  set (md1 := if 0 <? b then sub_needed md b else md) in *. destruct G as [G1 G2 G3 (G4a & G4b & G4c) G5 G6 G7 Gv (G8 & _) G9]. rewrite G3 in *.
  assert (Hoth : ∀ p', p' ≠ p → heap t1 !! p' = heap t !! p') by (intros p' Hne; rewrite G1; destruct (0 <? b); [by rewrite lookup_insert_ne|done]).
  destruct (Z.eqb_spec (bytesNeeded md - b) 0) as [Hz|Hz].
  - destruct (unblock_spec adj t1 st id p md1 Hq1 ltac:(by rewrite G8) G2 ltac:(lia)) as (t' & E' & Hq' & Hc & Hw & Hh & _).
    exists t', b. split; [done|]. split; [done|]. split; rewrite ?Hc; [done|done|done|done| | |by rewrite decide_True, Hw, G8|by left].
    + exists (closed md1). rewrite Hh, lookup_insert_eq. split; [done|]. cbn. lia || (split_and!; [lia|done..]).
    + intros p' Hne. rewrite Hh, lookup_insert_ne by done. by apply Hoth.
  - exists t1, b. split; [done|]. split; [done|]. split; [done|done|done|done| |done|by rewrite decide_False|done]. exists md1. split_and!; done.
Qed.

(** Messages in the queue need bytes, unless they are empty; when there are bytes in the shared
    allocation, the nodes of the messages in the queue are at their limit. *)
Definition needy t : Prop := ∀ id p md, (id, p) ∈ waitingToAcquire t → heap t !! p = Some md → bytesNeeded md = 0 → msgSize md = 0.
Definition settled t (e : Z * nat) : Prop :=
  ∀ md, heap t !! e.2 = Some md → bytesNeeded md = 0 ∨ at_used (common t) (nodeID md) = M.
Definition busy t : Prop := 0 < remainingAtLargeBytes (common t) → ∀ e, e ∈ waitingToAcquire t → settled t e.

(** An entry stays settled when bytes are given to another one. *)
Lemma served_settled t t' id p md b e : served t t' id p md b → (∀ n, at_used (common t') n ≤ M) → e.2 ≠ p → settled t e → settled t' e.
Proof using.
  intros [S1 S2 S3 Sv S4 S5 S6 S7] Hm Hne He md' Hmd. rewrite S5 in Hmd by done. destruct (He md' Hmd) as [?|Hat]; [by left|right].
  specialize (Hm (nodeID md')). rewrite S2 in Hm |- *. case_decide; lia.
Qed.

Lemma queue_ptr adj t st id id' p : qinv adj t st → (id, p) ∈ waitingToAcquire t → (id', p) ∈ waitingToAcquire t → id = id'.
Proof using. intros Hq H1 H2. destruct (q_queue adj t st Hq id p H1) as [E1 _]. destruct (q_queue adj t st Hq id' p H2) as [E2 _]. congruence. Qed.

(** What is left of the queue when a message was served *)
Lemma served_back adj t t' st id p md b e : qinv adj t st → served t t' id p md b → e ∈ waitingToAcquire t' →
  e ∈ waitingToAcquire t ∧ (e = (id, p) → bytesNeeded md - b ≠ 0).
Proof using.
  intros Hq S He. rewrite (s_queue _ _ _ _ _ _ S) in He. case_decide as Hz; [|done]. apply om_delete_elem in He as [He Hne]. split; [done|]. intros ->. by cbn in Hne.
Qed.

Lemma served_needy adj t t' st id p md b : qinv adj t st → (id, p) ∈ waitingToAcquire t → served t t' id p md b → needy t → needy t'.
Proof using.
  intros Hq Hin S Hn id1 p1 md1 He Hp1 Hz. destruct (served_back adj t t' st id p md b _ Hq S He) as [He1 Hdiff]. destruct (decide (p1 = p)) as [->|Hne].
  - assert (id1 = id) as -> by (by apply (queue_ptr adj t st id1 id p)). exfalso. destruct (s_md _ _ _ _ _ _ S) as (md' & E & Eb & _). apply Hdiff; [done|]. congruence.
  - rewrite (s_other _ _ _ _ _ _ S) in Hp1 by done. by apply (Hn id1 p1).
Qed.

Lemma give_loop_spec adj st entries : ∀ t, qinv adj t st → needy t → NoDup entries.*1 → (∀ e, e ∈ entries → e ∈ waitingToAcquire t) →
  (0 < remainingAtLargeBytes (common t) → ∀ e, e ∈ waitingToAcquire t → e ∉ entries → settled t e) →
  ∃ t', give_loop entries t = Some t' ∧ qinv adj t' st ∧ needy t' ∧ busy t'
    ∧ nodeToVdrBytesUsed (common t') = nodeToVdrBytesUsed (common t) ∧ ∀ p, st !! p = Some Done → heap t' !! p = heap t !! p.
Proof using A_u64 V_u64 M_u64 size_u64.
  induction entries as [|[id p] entries IH]; intros t Hq Hn Hnd Hsub Hset; cbn [give_loop].
  { exists t. split_and!; try done. intros Hr e He. apply Hset; [done|done|apply not_elem_of_nil]. }
  destruct (Z.ltb_spec 0 (remainingAtLargeBytes (common t))) as [Hr|Hr]; [|exists t; split_and!; try done; intros ?; lia].
  assert (Hin : (id, p) ∈ waitingToAcquire t) by (apply Hsub; by left).
  destruct (q_queue adj t st Hq id p Hin) as [_ (md & Hp & _)]. rewrite Hp. cbn [mbind option_bind].
  destruct (serve_one_spec adj t st id p md Hq Hin Hp) as (t1 & b & -> & Hq1 & S). cbn [mbind option_bind].
  pose proof S as [S1 S2 S3 Sv (md' & Hp' & Hnd' & Hsz & Hno) S5 S6 S7]. cbn [fmap list_fmap fst] in Hnd. apply NoDup_cons in Hnd as [Hni Hnd].
  assert (Hptr : ∀ e, e ∈ waitingToAcquire t → e ≠ (id, p) → e.2 ≠ p).
  { intros [id' p'] He Hne E. cbn in E. subst p'. apply Hne. by rewrite (queue_ptr adj t st id' id p Hq He Hin). }
  pose proof (λ e, served_back adj t t1 st id p md b e Hq S) as Hback.
  destruct (IH t1) as (t' & E & Q' & N' & B' & V' & D'); [done|by apply (served_needy adj t t1 st id p md b)|done| | |].
  - intros e He. rewrite S6. assert (He1 : e ∈ waitingToAcquire t) by (apply Hsub; by right). case_decide; [|done]. apply om_delete_elem. split; [done|].
    intros Eid. apply Hni. rewrite <- Eid. by apply list_elem_of_fmap_2.
  - intros Hr1 e He Hne. destruct (Hback e He) as [He1 Hdiff]. destruct (decide (e = (id, p))) as [->|Hnid].
    + intros md1 E1. cbn in E1. assert (md1 = md') as -> by congruence. rewrite Hno. specialize (Hdiff eq_refl). right.
      destruct S7 as [?|[?|?]]; [done|done|lia].
    + apply (served_settled t t1 id p md b e S); [intros n; apply (ba_at_node _ _ (q_bal _ _ _ Hq1) n)|by apply Hptr|].
      apply Hset; [done|done|]. by apply not_elem_of_cons.
  - exists t'. split_and!; try done; [by rewrite V'|]. intros p' Hd. rewrite D' by done. apply S5. intros ->.
    destruct (q_queue adj t st Hq id p Hin) as [Hb _]. congruence.
Qed.

(** *** Releasing *)

Record tinv t st : Prop := { ti_q : qinv (λ _, 0) t st; ti_needy : needy t; ti_busy : busy t }.

Lemma held_ge adj t st p md : qinv adj t st → heap t !! p = Some md → got md ≤ held (heap t) (nodeID md) ∧ 0 ≤ got md.
Proof using size_u64.
  intros Hq Hp. destruct (q_size adj t st p md Hq Hp) as [Hn _]. split; [|unfold got; lia]. unfold held.
  pose proof (map_sum_lookup_le (held_of (nodeID md) <$> heap t) p (got md)) as Hle. apply Hle.
  - intros q z. rewrite lookup_fmap. destruct (heap t !! q) as [md'|] eqn:E; cbn; [|done]. intros [= <-]. unfold held_of. case_decide; [|lia].
    destruct (q_size adj t st q md' Hq E) as [Hn' _]. unfold got. lia.
  - rewrite lookup_fmap, Hp. cbn. unfold held_of. by rewrite decide_True.
Qed.

Lemma give_own_spec adj t st n v : qinv adj t st → needy t → busy t → 0 ≤ v ≤ MaxUint64 →
  ∃ g t', give_own t n v = Some (v - g, t') ∧ 0 ≤ g ≤ v ∧ qinv (plus adj n g) t' st ∧ needy t' ∧ busy t'
    ∧ common t' = common t ∧ ∀ p, st !! p = Some Done → heap t' !! p = heap t !! p.
Proof using size_u64.
  intros Hq Hn Hb Hv. assert (Hnone : ∃ g t', Some (v, t) = Some (v - g, t') ∧ 0 ≤ g ≤ v ∧ qinv (plus adj n g) t' st ∧ needy t' ∧ busy t'
    ∧ common t' = common t ∧ ∀ p, st !! p = Some Done → heap t' !! p = heap t !! p).
  { exists 0, t. split; [do 2 f_equal; lia|]. split; [lia|]. split; [|done]. eapply qinv_ext; [|exact Hq]. intros n'. unfold plus. case_decide; lia. }
  unfold give_own. destruct (nodeToWaitingMsgID t !! n) as [id|] eqn:Ew; [|done]. destruct (Z.ltb_spec 0 v) as [Hp|Hp]; [|done].
  destruct (q_map adj t st Hq n id Ew) as (p & md & Hin & Hpd & Hnode). rewrite (proj2 (om_get_Some _ id p (q_wf adj t st Hq)) Hin), Hpd. cbn [mbind option_bind].
  destruct (q_queue adj t st Hq id p Hin) as [Hst (md0 & E & Ho & _)]. assert (md0 = md) as -> by congruence.
  destruct (q_size adj t st p md Hq Hpd) as [Hne Hsz]. set (g := Z.min (bytesNeeded md) v).
  pose proof (needed_qinv adj t st p md g Hq Hpd ltac:(by rewrite Ho) ltac:(lia)) as Hq1. rewrite Hnode in Hq1.
  rewrite (sub64_exact v g) by lia. assert (Eb : bytesNeeded (sub_needed md g) = bytesNeeded md - g) by (cbn; apply sub64_exact; lia).
  set (t1 := set_metadata t p (sub_needed md g)) in *. assert (Hp1 : heap t1 !! p = Some (sub_needed md g)) by apply lookup_insert_eq.
  assert (Hoth : ∀ p', p' ≠ p → heap t1 !! p' = heap t !! p') by (intros p' Hne'; by apply lookup_insert_ne).
  assert (Hbusy : ∀ e md', e ∈ waitingToAcquire t → heap t1 !! e.2 = Some md' → 0 < remainingAtLargeBytes (common t) → bytesNeeded md' = 0 ∨ at_used (common t) (nodeID md') = M).
  { intros [id' p'] md' He E' Hr. cbn [snd] in E'. destruct (decide (p' = p)) as [->|Hd].
    - assert (md' = sub_needed md g) as -> by congruence. destruct (Hb Hr _ He md Hpd) as [?|?]; [left; lia|by right].
    - rewrite Hoth in E' by done. by apply (Hb Hr _ He). }
  rewrite Eb. destruct (Z.eqb_spec (bytesNeeded md - g) 0) as [Hz|Hz].
  - destruct (unblock_spec _ t1 st id p _ Hq1 Hin Hp1 ltac:(lia)) as (t' & Eu & Hq' & Hc & Hw & Hh & _).
    change (nodeID (sub_needed md g)) with (nodeID md) in Eu. rewrite Hnode in Eu. rewrite Eu. exists g, t'.
    assert (Hrest : ∀ id' p', (id', p') ∈ waitingToAcquire t' → (id', p') ∈ waitingToAcquire t ∧ p' ≠ p).
    { intros id' p'. rewrite Hw. intros [He Hne']%om_delete_elem. split; [done|]. intros ->. by rewrite (queue_ptr adj t st id' id p Hq He Hin) in Hne'. }
    assert (Hh' : ∀ p', p' ≠ p → heap t' !! p' = heap t !! p') by (intros p' Hd; rewrite Hh, lookup_insert_ne by done; by apply Hoth).
    split; [done|]. split; [lia|]. split; [done|]. split; [|split; [|split; [done|]]].
    + intros id' p' md' [He Hd]%Hrest. rewrite Hh' by done. by apply (Hn id').
    + intros Hr [id' p'] He md' E'. destruct (Hrest _ _ He) as [He' Hd]. rewrite Hc in Hr |- *. cbn [snd] in E'. rewrite Hh' in E' by done. by apply (Hb Hr _ He').
    + intros p' Hd. apply Hh'. congruence.
  - exists g, t1. split; [done|]. split; [lia|]. split; [done|]. split; [|split; [|split; [done|]]].
    + intros id' p' md' He E' Hz'. destruct (decide (p' = p)) as [->|Hd]; [|rewrite Hoth in E' by done; by apply (Hn id' p')].
      assert (md' = sub_needed md g) as -> by congruence. lia.
    + intros Hr e He md' E'. by apply (Hbusy e).
    + intros p' Hd. apply Hoth. congruence.
Qed.

Lemma forget_qinv adj t st p md : qinv adj t st → st !! p = Some Done → heap t !! p = Some md → (∀ n, adj n = held_of n md) →
  qinv (λ _, 0) (forget t p) (delete p st).
Proof using.
  intros [Q1 Q2 Q3 Q4 Q5 Q6 Q7 Q8 Q9 Q10] Hst Hp Hadj.
  assert (Hb : ∀ q id, st !! q = Some (Blocked id) → delete p st !! q = Some (Blocked id) ∧ delete p (heap t) !! q = heap t !! q).
  { intros q id Hq. assert (q ≠ p) by congruence. by rewrite !lookup_delete_ne. }
  split; cbn; [| | | |done| | | | |].
  - eapply balanced_ext; [|exact Q1]. intros n. cbn beta. rewrite (held_delete _ p md) by done. rewrite Hadj. lia.
  - intros q md' [_ E]%lookup_delete_Some. by apply (Q2 q).
  - intros q Hle. apply lookup_delete_None. right. by apply Q3.
  - intros q. destruct (decide (q = p)) as [->|Hne]; [rewrite !lookup_delete_eq; split; by intros [? ?]|rewrite !lookup_delete_ne by done; apply Q4].
  - intros id q Hin. destruct (Q6 id q Hin) as [E1 Hmd]. destruct (Hb q id E1) as [-> ->]. done.
  - intros n id Hw. destruct (Q7 n id Hw) as (q & md' & Hin & E & Hn). exists q, md'. destruct (Q6 id q Hin) as [E1 _]. by destruct (Hb q id E1) as [_ ->].
  - intros q id [_ E]%lookup_delete_Some. destruct (Q8 q id E) as [Hle Hor]. split; [done|]. by destruct (Hb q id E) as [_ ->].
  - intros q1 q2 id1 id2 m1 m2 [_ S1]%lookup_delete_Some [_ S2]%lookup_delete_Some [_ E1]%lookup_delete_Some [_ E2]%lookup_delete_Some. by apply (Q9 q1 q2 id1 id2).
  - intros q1 q2 id [_ S1]%lookup_delete_Some [_ S2]%lookup_delete_Some. by apply (Q10 q1 q2 id).
Qed.

Lemma release_spec t st p md : tinv t st → st !! p = Some Done → heap t !! p = Some md →
  ∃ t', release t p (nodeID md) = Some t' ∧ tinv (forget t' p) (delete p st).
Proof using A_u64 V_u64 M_u64 size_u64.
  intros [Hq Hn Hb] Hst Hp. destruct (q_size _ t st p md Hq Hp) as [Hne Hsz]. destruct (held_ge _ t st p md Hq Hp) as [Hge Hpos].
  unfold release. rewrite Hp. cbn [mbind option_bind]. fold (vdr_used (common t) (nodeID md)). rewrite (sub64_exact (msgSize md)) by lia. fold (got md).
  set (n := nodeID md) in *. pose proof (q_bal _ _ _ Hq) as Hbal. pose proof (ba_held _ _ Hbal n) as Hh. cbn beta in Hh.
  pose proof (ba_vdr_node _ _ Hbal n) as Hvn. pose proof (ba_at_node _ _ Hbal n) as Han. set (v := Z.min (got md) (vdr_used (common t) n)).
  assert (Hv : 0 ≤ v ≤ got md) by lia. assert (Hg : got md ≤ MaxUint64) by (unfold got in *; lia). rewrite (sub64_exact (got md) v) by lia. set (a := got md - v).
  assert (Hloop : ∃ t1, (if 0 <? a then give_loop (waitingToAcquire t) (set_common t (return_at_large (common t) n a)) else Some t) = Some t1
    ∧ qinv (plus (λ _, 0) n a) t1 st ∧ needy t1 ∧ busy t1 ∧ nodeToVdrBytesUsed (common t1) = nodeToVdrBytesUsed (common t)
    ∧ ∀ q, st !! q = Some Done → heap t1 !! q = heap t !! q).
  { destruct (Z.ltb_spec 0 a) as [Ha|Ha].
    - destruct (return_at_large_ok _ _ n a Hbal ltac:(lia)) as (B1 & _ & _).
      assert (Hq1 : qinv (plus (λ _, 0) n a) (set_common t (return_at_large (common t) n a)) st).
      { eapply common_qinv; [exact Hq|]. eapply balanced_ext; [|exact B1]. intros n'. unfold plus. case_decide; lia. }
      apply (give_loop_spec _ st (waitingToAcquire t) _ Hq1 Hn (q_wf _ _ _ Hq) (λ _ He, He)). by intros _ e He Hnot.
    - exists t. split_and!; try done. eapply qinv_ext; [|exact Hq]. intros n'. unfold plus. case_decide; lia. }
  destruct Hloop as (t1 & -> & Hq1 & Hn1 & Hb1 & Hv1 & Hd1). cbn [mbind option_bind].
  destruct (give_own_spec _ t1 st n v Hq1 Hn1 Hb1 ltac:(lia)) as (g & t2 & -> & Hgv & Hq2 & Hn2 & Hb2 & Hc2 & Hd2). cbn [mbind option_bind].
  assert (Hp2 : heap t2 !! p = Some md) by (rewrite Hd2, Hd1 by done; done).
  set (t3 := if 0 <? v - g then set_common t2 (return_vdr (common t2) n (v - g)) else t2). exists t3. split; [done|].
  assert (H3 : qinv (λ n, held_of n md) t3 st ∧ waitingToAcquire t3 = waitingToAcquire t2 ∧ heap t3 = heap t2
    ∧ (∀ n', at_used (common t3) n' = at_used (common t2) n') ∧ remainingAtLargeBytes (common t3) = remainingAtLargeBytes (common t2)).
  { assert (Hadj : ∀ n', plus (plus (plus (λ _, 0) n a) n g) n (v - g) n' = held_of n' md).
    { intros n'. unfold plus, held_of. subst n. case_decide; lia. }
    assert (Hvu : vdr_used (common t2) n = vdr_used (common t) n) by (unfold vdr_used; by rewrite Hc2, Hv1).
    unfold t3. destruct (Z.ltb_spec 0 (v - g)) as [Hvg|Hvg].
    - destruct (return_vdr_ok _ _ n (v - g) (q_bal _ _ _ Hq2) ltac:(lia)) as (B1 & B2 & B3). split; [|done].
      eapply common_qinv; [exact Hq2|]. eapply balanced_ext; [|exact B1]. intros n'. rewrite <- Hadj. unfold plus. case_decide; lia.
    - split; [|done]. eapply qinv_ext; [|exact Hq2]. intros n'. rewrite <- Hadj. unfold plus. case_decide; lia. }
  destruct H3 as (Hq3 & Ew & Eh & Ea & Er). split.
  - eapply (forget_qinv _ t3 st p md); [exact Hq3|done|by rewrite Eh|done].
  - intros id q md' Hin. cbn [forget heap waitingToAcquire] in *. rewrite Ew in Hin. rewrite Eh. intros [_ E]%lookup_delete_Some. by apply (Hn2 id q).
  - intros Hr e He md'. cbn [forget heap waitingToAcquire common] in *. rewrite Er in Hr. rewrite Ew in He. rewrite Eh, Ea. intros [_ E]%lookup_delete_Some. by apply (Hb2 Hr e He).
Qed.

(** *** Acquiring *)

Lemma alloc_qinv adj t st n size : qinv adj t st → size_ok size → heap t !! next_ptr t = None
  ∧ qinv adj (mkInbound (common t) (nextMsgID t) (nodeToWaitingMsgID t) (waitingToAcquire t) (<[next_ptr t := mkMeta size size n Nil]> (heap t)) (S (next_ptr t)))
      (<[next_ptr t := Done]> st).
Proof using size_u64.
  intros [Q1 Q2 Q3 Q4 Q5 Q6 Q7 Q8 Q9 Q10] Hs. pose proof (Q3 (next_ptr t) ltac:(done)) as Hf. split; [done|]. set (p := next_ptr t) in *.
  assert (Hne : ∀ q md, heap t !! q = Some md → q ≠ p) by congruence.
  assert (Hbl : ∀ q id, <[p := Done]> st !! q = Some (Blocked id) → st !! q = Some (Blocked id) ∧ q ≠ p)
    by (intros q id [[_ ?]|[? ?]]%lookup_insert_Some; done).
  split; cbn; [| | | |done| | | | |].
  - eapply balanced_ext; [|exact Q1]. intros n'. cbn beta. rewrite held_insert, Hf. unfold held_of, got. cbn. case_decide; lia.
  - intros q md [[<- <-]|[_ E]]%lookup_insert_Some; [|by apply (Q2 q)]. cbn. pose proof (size_u64 size Hs) as Hu. unfold is_u64 in Hu. split; [lia|done].
  - intros q Hle. apply lookup_insert_None. split; [apply Q3; lia|lia].
  - intros q. destruct (decide (p = q)) as [<-|Hd]; [rewrite !lookup_insert_eq; split; by eexists|rewrite !lookup_insert_ne by done; apply Q4].
  - intros id q Hin. destruct (Q6 id q Hin) as [E1 (md & E & Hmd)]. pose proof (Hne q md E). rewrite !lookup_insert_ne by done. split; [done|by exists md].
  - intros n' id Hw. destruct (Q7 n' id Hw) as (q & md & Hin & E & Hn). exists q, md. pose proof (Hne q md E). by rewrite lookup_insert_ne.
  - intros q id [E Hd]%Hbl. rewrite lookup_insert_ne by done. by apply Q8.
  - intros q1 q2 id1 id2 m1 m2 [S1 D1]%Hbl [S2 D2]%Hbl. rewrite !lookup_insert_ne by done. by apply (Q9 q1 q2 id1 id2).
  - intros q1 q2 id [S1 _]%Hbl [S2 _]%Hbl. by apply (Q10 q1 q2 id).
Qed.

Lemma enqueue_qinv adj t st p md : let id := nextMsgID t + 1 in
  qinv adj t st → st !! p = Some Done → heap t !! p = Some md →
  (∀ q id md', st !! q = Some (Blocked id) → heap t !! q = Some md' → nodeID md' ≠ nodeID md) →
  om_put (waitingToAcquire t) id p = waitingToAcquire t ++ [(id, p)]
  ∧ qinv adj (mkInbound (common t) id (<[nodeID md := id]> (nodeToWaitingMsgID t)) (om_put (waitingToAcquire t) id p)
      (<[p := mkMeta (bytesNeeded md) (msgSize md) (nodeID md) Open]> (heap t)) (next_ptr t)) (<[p := Blocked id]> st).
Proof using.
  intros id [Q1 Q2 Q3 Q4 Q5 Q6 Q7 Q8 Q9 Q10] Hst Hp Hone. set (md1 := mkMeta _ _ _ Open).
  assert (Hid : ∀ q id', st !! q = Some (Blocked id') → id' ≠ id ∧ q ≠ p) by (intros q id' E; destruct (Q8 q id' E); split; [unfold id; lia|congruence]).
  assert (Hni : id ∉ (waitingToAcquire t).*1).
  { intros ([id' q] & E & Hin)%list_elem_of_fmap. cbn in E. subst id'. destruct (Q6 _ q Hin) as [E _]. by destruct (Hid q id E). }
  assert (Eput : om_put (waitingToAcquire t) id p = waitingToAcquire t ++ [(id, p)]) by (unfold om_put; by rewrite om_delete_absent).
  split; [exact Eput|]. assert (Hbl : ∀ q id', <[p := Blocked id]> st !! q = Some (Blocked id') → (q = p ∧ id' = id) ∨ (q ≠ p ∧ st !! q = Some (Blocked id'))).
  { intros q id' [[<- [= <-]]|[? ?]]%lookup_insert_Some; [by left|right; split; [by apply not_eq_sym|done]]. }
  assert (Hh : ∀ q md', <[p := md1]> (heap t) !! q = Some md' → ∃ md0, heap t !! q = Some md0 ∧ nodeID md' = nodeID md0 ∧ bytesNeeded md' = bytesNeeded md0 ∧ msgSize md' = msgSize md0).
  { intros q md' [[<- <-]|[_ E]]%lookup_insert_Some; [by exists md|by exists md']. }
  split; cbn; [| | | |by apply om_put_wf| | | | |].
  - eapply balanced_ext; [|exact Q1]. intros n. cbn beta. rewrite held_insert, Hp. unfold held_of, got. cbn. lia.
  - intros q md' (md0 & E & _ & -> & ->)%Hh. by apply (Q2 q).
  - intros q Hle. apply lookup_insert_None. split; [by apply Q3|]. intros ->. by rewrite (Q3 q Hle) in Hp.
  - intros q. destruct (decide (p = q)) as [<-|Hd]; [rewrite !lookup_insert_eq; split; by eexists|rewrite !lookup_insert_ne by done; apply Q4].
  - intros id' q. rewrite Eput. intros [Hin|[= -> ->]%list_elem_of_singleton]%elem_of_app.
    + destruct (Q6 id' q Hin) as [E1 (md' & E & Ho & Hw)]. destruct (Hid q id' E1) as [_ Hq]. rewrite !lookup_insert_ne by done.
      split; [done|]. exists md'. rewrite lookup_insert_ne by (apply not_eq_sym; by eapply Hone). done.
    + rewrite !lookup_insert_eq. split; [done|]. exists md1. cbn. by rewrite lookup_insert_eq.
  - intros n id' [[<- <-]|[Hne Hw]]%lookup_insert_Some.
    + exists p, md1. rewrite Eput, lookup_insert_eq. split; [apply elem_of_app; right; by left|done].
    + destruct (Q7 n id' Hw) as (q & md' & Hin & E & Hn). exists q, md'. rewrite Eput. split; [apply elem_of_app; by left|].
      destruct (Q6 id' q Hin) as [E1 _]. destruct (Hid q id' E1) as [_ Hq]. by rewrite lookup_insert_ne.
  - intros q id' [[-> ->]|[Hq E]]%Hbl; rewrite Eput.
    + split; [done|]. left. apply elem_of_app. right. by left.
    + destruct (Q8 q id' E) as [Hle Hor]. split; [unfold id; lia|]. rewrite lookup_insert_ne by done. destruct Hor as [Hin|Hor]; [left; apply elem_of_app; by left|by right].
  - intros q1 q2 id1 id2 m1 m2 S1 S2 (m1' & E1 & N1 & _)%Hh (m2' & E2 & N2 & _)%Hh Hnn.
    destruct (Hbl q1 id1 S1) as [[-> ->]|[Hq1 S1']], (Hbl q2 id2 S2) as [[-> ->]|[Hq2 S2']]; [done| | |apply (Q9 q1 q2 id1 id2 m1' m2'); congruence].
    + exfalso. apply (Hone q2 id2 m2' S2' E2). congruence.
    + exfalso. apply (Hone q1 id1 m1' S1' E1). congruence.
  - intros q1 q2 id' [[-> ->]|[Hq1 S1']]%Hbl [[-> E]|[Hq2 S2']]%Hbl; [done| | |by apply (Q10 q1 q2 id')].
    + by destruct (Hid q2 id S2').
    + subst id'. by destruct (Hid q1 id S1').
Qed.

(** Giving bytes to a message outside the queue *)
Lemma outside_good t t' p : waitingToAcquire t' = waitingToAcquire t → (∀ q, q ≠ p → heap t' !! q = heap t !! q) →
  (∀ id, (id, p) ∉ waitingToAcquire t) → (∀ n, at_used (common t) n ≤ at_used (common t') n ≤ M) →
  remainingAtLargeBytes (common t') ≤ remainingAtLargeBytes (common t) → needy t → busy t → needy t' ∧ busy t'.
Proof using.
  intros Ew Eh Hp Ha Hr Hn Hb. assert (Hq : ∀ id q, (id, q) ∈ waitingToAcquire t' → (id, q) ∈ waitingToAcquire t ∧ q ≠ p)
    by (rewrite Ew; intros id q Hin; split; [done|]; intros ->; by apply (Hp id)). split.
  - intros id q md [Hin Hne]%Hq. rewrite Eh by done. by apply (Hn id).
  - intros Hr' [id q] [Hin Hne]%Hq md E. cbn [snd] in E. rewrite Eh in E by done. destruct (Hb ltac:(lia) _ Hin md E) as [?|?]; [by left|right].
    specialize (Ha (nodeID md)). lia.
Qed.

Lemma take_bytes_spec t st p md weight total : tinv t st → heap t !! p = Some md → st !! p = Some Done → closeOnAcquireChan md ≠ Closed → bytesNeeded md = msgSize md →
  let '(ok, md', t') := take_bytes t p md weight total in
  tinv t' st ∧ heap t' !! p = Some md' ∧ waitingToAcquire t' = waitingToAcquire t ∧ nodeToWaitingMsgID t' = nodeToWaitingMsgID t
  ∧ nextMsgID t' = nextMsgID t ∧ nodeID md' = nodeID md ∧ msgSize md' = msgSize md
  ∧ (∀ q, q ≠ p → heap t' !! q = heap t !! q)
  ∧ (ok = false → (bytesNeeded md' = 0 → msgSize md' = 0)
      ∧ (0 < remainingAtLargeBytes (common t') → bytesNeeded md' = 0 ∨ at_used (common t') (nodeID md') = M)).
Proof using A_u64 V_u64 M_u64 out_of_range_u64 size_u64.
  intros [Hq Hn Hb] Hp Hst Hcl Hfull. unfold take_bytes.
  assert (Hnot : ∀ id, (id, p) ∉ waitingToAcquire t) by (intros id Hin; destruct (q_queue _ _ _ Hq id p Hin) as [? _]; congruence).
  pose proof (give_at_large_spec _ t st p md Hq Hp Hcl) as Hg. destruct (give_at_large t p md) as [b t1]. destruct Hg as [Hq1 G].
  set (md1 := if 0 <? b then sub_needed md b else md) in *. destruct G as [G1 G2 G3 (G4 & G5 & G6) G7 G8 G9 Gv (Ga & Gb & Gc & Gd) Ge].
  assert (Hoth : ∀ q, q ≠ p → heap t1 !! q = heap t !! q) by (intros q Hne; rewrite G1; destruct (0 <? b); [by rewrite lookup_insert_ne|done]).
  destruct (outside_good t t1 p Ga Hoth Hnot) as [Hn1 Hb1]; [|lia|done|done|].
  { intros n. pose proof (ba_at_node _ _ (q_bal _ _ _ Hq1) n) as Hm. rewrite G8 in Hm |- *. case_decide; lia. }
  destruct ((0 <? b) && (bytesNeeded md1 =? 0)) eqn:Eok; [split_and!; try done; by intros|].
  destruct (q_size _ t1 st p md1 Hq1 G2) as [Hne1 Hsz1].
  assert (Hz1 : bytesNeeded md1 = 0 → msgSize md = 0) by (intros Hz; rewrite Hz in Eok; cbn in Eok; rewrite andb_true_r in Eok; apply Z.ltb_ge in Eok; lia).
  destruct (vdr_share_spec _ _ (nodeID md1) (bytesNeeded md1) weight total (q_bal _ _ _ Hq1) (proj1 Hne1)) as [V1 V2].
  set (v := vdr_share (common t1) (bytesNeeded md1) (nodeID md1) weight total) in *.
  destruct (Z.ltb_spec 0 v) as [Hv0|Hv0]; cbn [andb]; cycle 1.
  { split_and!; try done. intros _. split; [rewrite G4; done|]. intros Hr. rewrite G5. destruct Ge as [?|[?|?]]; [by left|by right|lia]. }
  destruct (use_vdr_ok _ _ (nodeID md1) v (q_bal _ _ _ Hq1) (proj1 V1) V2) as (C1 & C2 & C3).
  set (t2 := set_metadata (set_common t1 (use_vdr (common t1) (nodeID md1) v)) p (sub_needed md1 v)).
  assert (Hq2 : qinv (λ _, 0) t2 st).
  { assert (Q1 : qinv (plus (λ _, 0) (nodeID md1) (- v)) (set_common t1 (use_vdr (common t1) (nodeID md1) v)) st).
    { eapply common_qinv; [exact Hq1|]. eapply balanced_ext; [|exact C1]. intros n. unfold plus. case_decide; lia. }
    eapply qinv_ext; [|apply (needed_qinv _ _ _ p md1 v Q1 G2 ltac:(by rewrite G6) V1)]. intros n. unfold plus. case_decide; lia. }
  assert (Hoth2 : ∀ q, q ≠ p → heap t2 !! q = heap t1 !! q) by (intros q Hne; by apply lookup_insert_ne).
  destruct (outside_good t1 t2 p eq_refl Hoth2) as [Hn2 Hb2]; [by rewrite Ga| |cbn; lia|done|done|].
  { intros n. pose proof (ba_at_node _ _ (q_bal _ _ _ Hq1) n) as Hm. cbn [t2 set_metadata set_common common]. rewrite C2. lia. }
  assert (Es : bytesNeeded (sub_needed md1 v) = bytesNeeded md1 - v) by (cbn; apply sub64_exact; lia).
  split; [by split|]. split; [apply lookup_insert_eq|]. split; [done|]. split; [done|]. split; [done|]. split; [done|]. split; [done|].
  split; [intros q Hne; rewrite Hoth2 by done; by apply Hoth|]. intros Hok. apply Z.eqb_neq in Hok. split; [done|].
  intros Hr. right. cbn [t2 set_metadata set_common common sub_needed nodeID] in Hr |- *. rewrite C3 in Hr. rewrite C2, G5. destruct Ge as [?|[?|?]]; [lia|done|lia].
Qed.

Lemma Acquire_spec t st size n weight total r t' : tinv t st → size_ok size →
  (∀ p id md, st !! p = Some (Blocked id) → heap t !! p = Some md → nodeID md ≠ n) →
  Acquire t size n weight total = (r, t') → tinv t' (started r st).
Proof using A_u64 V_u64 M_u64 out_of_range_u64 size_u64.
  intros Ht Hs Hone. unfold Acquire. destruct (nodeToWaitingMsgID t !! n) as [id0|] eqn:Ew; [by intros [= <- <-]|].
  pose proof Ht as [Hq Hn Hb]. destruct (alloc_qinv _ t st n size Hq Hs) as [Hf Hq0]. set (p := next_ptr t) in *. set (md := mkMeta size size n Nil) in *.
  set (t0 := mkInbound _ _ _ _ _ _) in *. assert (Hp0 : heap t0 !! p = Some md) by apply lookup_insert_eq.
  assert (Hst0 : <[p := Done]> st !! p = Some Done) by apply lookup_insert_eq.
  assert (Ht0 : tinv t0 (<[p := Done]> st)).
  { destruct (outside_good t t0 p eq_refl) as [Hn0 Hb0]; [intros q Hne; by apply lookup_insert_ne| | |cbn; lia|done|done|by split].
    - intros id Hin. destruct (q_queue _ _ _ Hq id p Hin) as [_ (md' & E & _)]. congruence.
    - intros n'. pose proof (ba_at_node _ _ (q_bal _ _ _ Hq) n'). cbn. lia. }
  pose proof (take_bytes_spec t0 _ p md weight total Ht0 Hp0 Hst0 ltac:(done) eq_refl) as Hk.
  destruct (take_bytes t0 p md weight total) as [[ok md'] t1]. destruct Hk as (Ht1 & Hp1 & Ew1 & Em1 & Ei1 & En1 & Es1 & Eo1 & Hok).
  destruct ok; [intros [= <- <-]; exact Ht1|]. intros [= <- <-]. cbn [started]. destruct (Hok eq_refl) as [Hz Hsat]. destruct Ht1 as [Hq1 Hn1 Hb1].
  destruct (enqueue_qinv _ t1 _ p md' Hq1 Hst0 Hp1) as [Eput Hq2].
  { intros q id m [[_ ?]|[Hne E]]%lookup_insert_Some Hm; [done|]. rewrite Eo1 in Hm by (by apply not_eq_sym). cbn in Hm. rewrite lookup_insert_ne in Hm by done.
    rewrite En1. cbn. by eapply Hone. }
  rewrite insert_insert_eq in Hq2. rewrite En1 in Hq2. cbn [nodeID md] in Hq2. rewrite En1. cbn [nodeID md].
  assert (Hent : ∀ id q m, (id, q) ∈ om_put (waitingToAcquire t1) (nextMsgID t1 + 1) p →
    <[p := mkMeta (bytesNeeded md') (msgSize md') n Open]> (heap t1) !! q = Some m →
    (bytesNeeded m = bytesNeeded md' ∧ msgSize m = msgSize md' ∧ nodeID m = nodeID md') ∨ ((id, q) ∈ waitingToAcquire t1 ∧ heap t1 !! q = Some m)).
  { intros id q m Hin [[<- <-]|[Hne E]]%lookup_insert_Some; [left; by rewrite En1|right]. split; [|done]. rewrite Eput in Hin.
    apply elem_of_app in Hin as [Hin|Hin]; [done|]. apply list_elem_of_singleton in Hin. congruence. }
  split; [exact Hq2| |].
  - intros id q m Hin Hm Hzero. cbn in Hin, Hm. destruct (Hent id q m Hin Hm) as [(E1 & E2 & E3)|[Hin' Hm']]; [rewrite E2; apply Hz; congruence|by apply (Hn1 id q)].
  - intros Hr [id q] Hin m Hm. cbn in Hin, Hm, Hr |- *. destruct (Hent id q m Hin Hm) as [(E1 & E2 & E3)|[Hin' Hm']]; [rewrite E1, E3; by apply Hsat|by apply (Hb1 Hr (id, q))].
Qed.

Lemma cancel_spec t st p id md : tinv t st → st !! p = Some (Blocked id) → heap t !! p = Some md →
  tinv (cancel t id (nodeID md)) (<[p := Done]> st).
Proof using.
  intros [Hq Hn Hb] Hst Hp. pose proof Hq as [Q1 Q2 Q3 Q4 Q5 Q6 Q7 Q8 Q9 Q10].
  assert (Hdel : ∀ id' q, (id', q) ∈ om_delete (waitingToAcquire t) id ↔ (id', q) ∈ waitingToAcquire t ∧ q ≠ p).
  { intros id' q. rewrite om_delete_elem. cbn. split; intros [Hin Hne]; (split; [done|]).
    - intros ->. destruct (Q6 id' p Hin) as [E _]. congruence.
    - intros ->. destruct (Q6 id q Hin) as [E _]. by apply Hne, (Q10 q p id). }
  assert (Hbl : ∀ q id', <[p := Done]> st !! q = Some (Blocked id') → st !! q = Some (Blocked id') ∧ q ≠ p)
    by (intros q id' [[_ ?]|[Hne E]]%lookup_insert_Some; [done|split; [done|by apply not_eq_sym]]).
  assert (Hnode : ∀ id' q md', (id', q) ∈ waitingToAcquire t → q ≠ p → heap t !! q = Some md' → nodeID md' ≠ nodeID md).
  { intros id' q md' Hin Hne E En. destruct (Q6 id' q Hin) as [E1 _]. by apply Hne, (Q9 q p id' id md' md). }
  split; [split; cbn| |].
  - exact Q1.
  - exact Q2.
  - exact Q3.
  - intros q. destruct (decide (p = q)) as [<-|Hd]; [rewrite lookup_insert_eq, Hp; split; by eexists|rewrite lookup_insert_ne by done; apply Q4].
  - by apply om_delete_wf.
  - intros id' q [Hin Hne]%Hdel. destruct (Q6 id' q Hin) as [E1 (md' & E & Ho & Hw)]. rewrite lookup_insert_ne by (by apply not_eq_sym). split; [done|].
    exists md'. split; [done|]. split; [done|]. rewrite lookup_delete_ne; [done|]. apply not_eq_sym. by eapply Hnode.
  - intros n id' [Hne Hw]%lookup_delete_Some. destruct (Q7 n id' Hw) as (q & md' & Hin & E & Hnq). exists q, md'. split; [|done]. apply Hdel. split; [done|]. intros ->. congruence.
  - intros q id' [E Hne]%Hbl. destruct (Q8 q id' E) as [Hle [Hin|Hor]]; (split; [done|]); [left; by apply Hdel|by right].
  - intros q1 q2 id1 id2 m1 m2 [S1 _]%Hbl [S2 _]%Hbl. by apply (Q9 q1 q2 id1 id2).
  - intros q1 q2 id' [S1 _]%Hbl [S2 _]%Hbl. by apply (Q10 q1 q2 id').
  - intros id' q md' [Hin _]%Hdel. by apply (Hn id').
  - intros Hr [id' q] [Hin _]%Hdel. by apply (Hb Hr).
Qed.

Lemma wake_spec t st p id md : tinv t st → st !! p = Some (Blocked id) → heap t !! p = Some md → closeOnAcquireChan md = Closed → tinv t (<[p := Done]> st).
Proof using.
  intros [Hq Hn Hb] Hst Hp Hc. pose proof Hq as [Q1 Q2 Q3 Q4 Q5 Q6 Q7 Q8 Q9 Q10].
  assert (Hbl : ∀ q id', <[p := Done]> st !! q = Some (Blocked id') → st !! q = Some (Blocked id'))
    by (intros q id' [[_ ?]|[Hne E]]%lookup_insert_Some; done).
  split; [split|done|done]; [done|done|done| |done| |done| | |].
  - intros q. destruct (decide (p = q)) as [<-|Hd]; [rewrite lookup_insert_eq, Hp; split; by eexists|rewrite lookup_insert_ne by done; apply Q4].
  - intros id' q Hin. destruct (Q6 id' q Hin) as [E1 (md' & E & Ho & Hw)]. rewrite lookup_insert_ne by (intros ->; congruence). split; [done|by exists md'].
  - intros q id' E%Hbl. by apply Q8.
  - intros q1 q2 id1 id2 m1 m2 S1%Hbl S2%Hbl. by apply (Q9 q1 q2 id1 id2).
  - intros q1 q2 id' S1%Hbl S2%Hbl. by apply (Q10 q1 q2 id').
Qed.

(** *** Every run *)

Lemma new_tinv : tinv (newInboundMsgByteThrottler (mkConfig V A M)) ∅.
Proof using A_u64 V_u64 M_u64.
  split; [split|..]; cbn.
  - eapply balanced_ext; [|exact (new_balanced V)]. intros n. unfold held. rewrite fmap_empty. done.
  - done.
  - done.
  - intros p. by rewrite !lookup_empty.
  - constructor.
  - by intros id p Hin%elem_of_nil.
  - done.
  - done.
  - done.
  - done.
  - by intros id p md Hin%elem_of_nil.
  - by intros _ e He%elem_of_nil.
Qed.

Lemma tstep_inv t st t' st' : tinv t st → tstep (t, st) (t', st') → tinv t' st'.
Proof using A_u64 V_u64 M_u64 out_of_range_u64 size_u64.
  intros Ht [Hs|[Hs|Hs]]; inversion Hs; subst.
  - by eapply Acquire_spec.
  - by apply cancel_spec.
  - by eapply wake_spec.
  - match goal with E : release t ?p _ = Some ?t1, D : st !! ?p = _, Hm : heap t !! ?p = _ |- _ =>
      destruct (release_spec t st p _ Ht D Hm) as (t2 & E2 & H2); by rewrite E2 in E; injection E as -> end.
Qed.

Definition treachable : tconfig → Prop := rtc tstep (newInboundMsgByteThrottler (mkConfig V A M), ∅).

Lemma treachable_inv t st : treachable (t, st) → tinv t st.
Proof using A_u64 V_u64 M_u64 out_of_range_u64 size_u64.
  intros Hr. refine (rtc_ind_r (λ s, tinv s.1 s.2) (newInboundMsgByteThrottler (mkConfig V A M), ∅) new_tinv _ (t, st) Hr). intros [t1 st1] [t2 st2] _ Hs IH. by eapply tstep_inv.
Qed.

(** C20. The inbound throttler accounts for every byte: whatever calls start, return, are cancelled
    and are released, what is left of the two allocations and what the nodes use add up to their
    sizes, with no wrap-around; a node uses exactly what its messages hold, and no more of the
    shared allocation than its limit; bytes are left in it only if the nodes of all waiting
    messages are at their limit; a call that is woken has all its bytes; no release panics. *)
Theorem byte_throttler_exact t st : treachable (t, st) →
  remainingAtLargeBytes (common t) + map_sum (nodeToAtLargeBytesUsed (common t)) = A ∧ 0 ≤ remainingAtLargeBytes (common t)
  ∧ remainingVdrBytes (common t) + map_sum (nodeToVdrBytesUsed (common t)) = V ∧ 0 ≤ remainingVdrBytes (common t)
  ∧ (∀ n, 0 ≤ at_used (common t) n ≤ M ∧ 0 ≤ vdr_used (common t) n ∧ at_used (common t) n + vdr_used (common t) n = held (heap t) n)
  ∧ (0 < remainingAtLargeBytes (common t) → ∀ id p md, (id, p) ∈ waitingToAcquire t → heap t !! p = Some md →
       bytesNeeded md = 0 ∨ at_used (common t) (nodeID md) = M)
  ∧ (∀ p id md, st !! p = Some (Blocked id) → heap t !! p = Some md → closeOnAcquireChan md = Closed → bytesNeeded md = 0)
  ∧ ∀ p md, st !! p = Some Done → heap t !! p = Some md → is_Some (release t p (nodeID md)).
Proof using A_u64 V_u64 M_u64 out_of_range_u64 size_u64.
  intros Hr%treachable_inv. pose proof Hr as [Hq Hn Hb]. destruct (q_bal _ _ _ Hq) as [[B1 B1'] [B2 B2'] B3 B4 B5 _]. split_and!; try done.
  - intros n. specialize (B5 n). cbn beta in B5. rewrite Z.sub_0_r in B5. done.
  - intros Hrem id p md Hin Hp. by apply (Hb Hrem (id, p) Hin).
  - intros p id md Hst Hp Hc. destruct (q_blocked _ _ _ Hq p id Hst) as [_ [Hin|(md' & E & _ & Hz)]]; [|congruence].
    destruct (q_queue _ _ _ Hq id p Hin) as [_ (md' & E & Ho & _)]. congruence.
  - intros p md Hst Hp. destruct (release_spec t st p md Hr Hst Hp) as (t' & -> & _). by eexists.
Qed.

(** ** Progress *)

(** When no bytes are set aside for validators, and a message fits in the shared allocation and in
    the limit of a node *)
Section progress.
Context (no_vdr : V = 0) (sizes_fit : ∀ s, size_ok s → 0 < s ≤ M ∧ s ≤ A).

(** A message gets bytes only if the nodes of all older ones are at their limit. *)
Definition ahead t (e e' : Z * nat) : Prop :=
  ∀ md md', heap t !! e.2 = Some md → heap t !! e'.2 = Some md' → at_used (common t) (nodeID md) = M ∨ got md' = 0.
Definition fair t : Prop := StronglySorted (ahead t) (waitingToAcquire t).

Definition capped t (e : Z * nat) : Prop := ∀ md, heap t !! e.2 = Some md → at_used (common t) (nodeID md) = M.

Lemma capped_ahead t e e' : capped t e → ahead t e e'.
Proof using. intros Hc md md' E _. left. by apply Hc. Qed.

Lemma served_capped t t' id p md b e : served t t' id p md b → (∀ n, at_used (common t') n ≤ M) → e.2 ≠ p → capped t e → capped t' e.
Proof using.
  intros [S1 S2 S3 Sv S4 S5 S6 S7] Hm Hne He md' Hmd. rewrite S5 in Hmd by done. specialize (He md' Hmd).
  specialize (Hm (nodeID md')). rewrite S2 in Hm |- *. case_decide; lia.
Qed.

Lemma served_ahead t t' id p md b e e' : served t t' id p md b → (∀ n, at_used (common t') n ≤ M) → e.2 ≠ p → e'.2 ≠ p → ahead t e e' → ahead t' e e'.
Proof using.
  intros [S1 S2 S3 Sv S4 S5 S6 S7] Hm Hne Hne' He m m' E E'. rewrite S5 in E, E' by done. destruct (He m m' E E') as [Hat|?]; [left|by right].
  specialize (Hm (nodeID m)). rewrite S2 in Hm |- *. case_decide; lia.
Qed.

(** In the loop of a release by [n], which gave back [r] bytes: no entry that is left has bytes, or
    the older entries are at their limits, except that of [n], which may take back the [r] bytes. *)
Definition owed t n (r : Z) (e e' : Z * nat) : Prop :=
  ahead t e e' ∨ (∀ md, heap t !! e.2 = Some md → nodeID md = n) ∧ at_used (common t) n + r = M ∧ 0 < r ≤ remainingAtLargeBytes (common t).
Definition waiting_ok t n r (E : list (Z * nat)) : Prop :=
  (∀ e md, e ∈ E → heap t !! e.2 = Some md → got md = 0) ∨ StronglySorted (owed t n r) E.

Lemma StronglySorted_weaken {X} (R R' : X → X → Prop) l : (∀ x y, x ∈ l → y ∈ l → R x y → R' x y) → StronglySorted R l → StronglySorted R' l.
Proof using.
  intros HR. induction 1 as [|x l Hs IH Hx]; constructor.
  - apply IH. intros y z Hy Hz. apply HR; by right.
  - rewrite Forall_forall in Hx |- *. intros y Hy. apply HR; [by left|by right|by apply Hx].
Qed.

Lemma waiting_ok_step t t' n r id p md b E : served t t' id p md b → heap t !! p = Some md → (∀ n, at_used (common t') n ≤ M) →
  (∀ e, e ∈ E → e.2 ≠ p ∧ ∀ m, heap t !! e.2 = Some m → nodeID m ≠ nodeID md) →
  (∀ e, e ∈ E → ∃ m, heap t !! e.2 = Some m) →
  waiting_ok t n r ((id, p) :: E) → waiting_ok t' n r E.
Proof using.
  intros S Hp Hm HE Hex Hok. pose proof S as [S1 S2 S3 Sv S4 S5 S6 S7].
  assert (Hzero : (∀ e m, e ∈ E → heap t !! e.2 = Some m → got m = 0) → waiting_ok t' n r E).
  { intros Hz. left. intros e m He. rewrite S5 by (by apply HE). by apply Hz. }
  destruct Hok as [Hz|Hs]; [apply Hzero; intros e m He; apply (Hz e m); by right|].
  apply StronglySorted_inv in Hs as [Hs He0]. rewrite Forall_forall in He0. destruct (decide (b = 0)) as [->|Hb].
  - right. eapply StronglySorted_weaken; [|exact Hs]. intros x y Hx Hy [Ha|(Hn & Hat & Hr)].
    + left. apply (served_ahead t t' id p md 0 x y S Hm); [by apply HE|by apply HE|done].
    + right. split; [|split; [rewrite S2; destruct (decide (n = nodeID md)); lia|lia]]. intros m. rewrite S5 by (by apply HE). apply Hn.
  - destruct (decide (nodeID md = n)) as [Hn|Hn].
    + right. eapply StronglySorted_weaken; [|exact Hs]. intros x y Hx Hy [Ha|(Hnx & _)]; left.
      * apply (served_ahead t t' id p md b x y S Hm); [by apply HE|by apply HE|done].
      * destruct (Hex x Hx) as [m E']. exfalso. apply (proj2 (HE x Hx) m E'). rewrite Hn. by apply Hnx.
    + apply Hzero. intros e m He E'. destruct (He0 e He) as [Ha|(Hne & _)]; [|exfalso; apply Hn; by apply Hne].
      destruct (Ha md m Hp E') as [?|?]; [lia|done].
Qed.

Lemma queue_nodes adj t st e e' md md' : qinv adj t st → e ∈ waitingToAcquire t → e' ∈ waitingToAcquire t → e.1 ≠ e'.1 →
  heap t !! e.2 = Some md → heap t !! e'.2 = Some md' → e'.2 ≠ e.2 ∧ nodeID md' ≠ nodeID md.
Proof using.
  intros Hq He He' Hne E E'. destruct e as [id p], e' as [id' p']. cbn [fst snd] in *.
  destruct (q_queue _ _ _ Hq id p He) as [S1 (m1 & E1 & _ & W1)]. destruct (q_queue _ _ _ Hq id' p' He') as [S2 (m2 & E2 & _ & W2)].
  split; [intros ->; congruence|]. intros En. assert (m1 = md) as -> by congruence. assert (m2 = md') as -> by congruence. rewrite En in W2. congruence.
Qed.

Lemma give_loop_fair adj st n r : ∀ E D t t', qinv adj t st → needy t → waitingToAcquire t = D ++ E →
  StronglySorted (ahead t) D → (∀ d e, d ∈ D → e ∈ E → ahead t d e) → (0 < remainingAtLargeBytes (common t) → ∀ d, d ∈ D → capped t d) →
  waiting_ok t n r E → give_loop E t = Some t' → fair t'.
Proof using A_u64 V_u64 M_u64 size_u64.
  induction E as [|[id p] E IH]; intros D t t' Hq Hn Ew Hs1 Hs2 Hcap Hok; cbn [give_loop].
  { intros [= <-]. unfold fair. rewrite Ew, app_nil_r. done. }
  destruct (Z.ltb_spec 0 (remainingAtLargeBytes (common t))) as [Hr|Hr].
  2:{ intros [= <-]. unfold fair. rewrite Ew. apply StronglySorted_app_2; [done|done|]. destruct Hok as [Hz|Hs].
      - clear -Hz. induction ((id, p) :: E) as [|x l IHl]; constructor; [apply IHl; intros e md He; apply Hz; by right|].
        apply Forall_forall. intros y Hy m m' _ E'. right. apply (Hz y m'); [by right|done].
      - eapply StronglySorted_weaken; [|exact Hs]. intros x y _ _ [?|(_ & _ & ?)]; [done|lia]. }
  assert (Hin : (id, p) ∈ waitingToAcquire t) by (rewrite Ew; apply elem_of_app; right; by left).
  destruct (q_queue adj t st Hq id p Hin) as [_ (md & Hp & _)]. rewrite Hp. cbn [mbind option_bind].
  destruct (serve_one_spec adj t st id p md Hq Hin Hp) as (t1 & b & -> & Hq1 & S). cbn [mbind option_bind].
  pose proof S as [S1 S2 S3 Sv S4 S5 S6 S7]. pose proof (q_wf _ _ _ Hq) as Hwf. pose proof Hwf as Hnd. unfold om_wf in Hnd. rewrite Ew, fmap_app, fmap_cons in Hnd. cbn [fst] in Hnd.
  assert (Hm : ∀ n, at_used (common t1) n ≤ M) by (intros n'; apply (ba_at_node _ _ (q_bal _ _ _ Hq1) n')).
  assert (Hother : ∀ e, e ∈ D ∨ e ∈ E → e.2 ≠ p ∧ (∃ m, heap t !! e.2 = Some m) ∧ ∀ m, heap t !! e.2 = Some m → nodeID m ≠ nodeID md).
  { intros e He. assert (Hew : e ∈ waitingToAcquire t) by (rewrite Ew; apply elem_of_app; destruct He; [by left|right; by right]).
    assert (Hid : id ≠ e.1).
    { apply NoDup_app in Hnd as (_ & Hdis & [Hni _]%NoDup_cons). intros ->. destruct He as [He|He]; [apply (Hdis e.1); [by apply list_elem_of_fmap_2|by left]|apply Hni; by apply list_elem_of_fmap_2]. }
    destruct e as [id' p']. destruct (q_queue _ _ _ Hq id' p' Hew) as [_ (m & E' & _)]. cbn [fst snd] in *.
    assert (Hqn : ∀ m, heap t !! p' = Some m → p' ≠ p ∧ nodeID m ≠ nodeID md) by (intros m' Em'; apply (queue_nodes adj t st (id, p) (id', p') md m' Hq Hin Hew Hid Hp Em')).
    split; [by apply (Hqn m)|]. split; [by exists m|]. intros m' Em'. by apply Hqn. }
  assert (Hcap1 : ∀ d, d ∈ D → capped t1 d) by (intros d Hd; apply (served_capped t t1 id p md b d S Hm); [apply Hother; by left|by apply Hcap]).
  assert (Hok1 : waiting_ok t1 n r E).
  { apply (waiting_ok_step t t1 n r id p md b E S Hp Hm); [| |done]; intros e He; destruct (Hother e (or_intror He)) as (H1 & H2 & H3); done. }
  assert (HD : StronglySorted (ahead t1) D) by (eapply StronglySorted_weaken; [|exact Hs1]; intros x y Hx Hy _; by apply capped_ahead, Hcap1).
  assert (Hn1 : needy t1) by (by apply (served_needy adj t t1 st id p md b)).
  destruct (decide (bytesNeeded md - b = 0)) as [Hz|Hz].
  - apply (IH D t1 t' Hq1 Hn1); [|done|by intros d e Hd _; apply capped_ahead, Hcap1|by intros _|done].
    rewrite S6, Ew. apply om_delete_split. by rewrite <- Ew.
  - apply (IH (D ++ [(id, p)]) t1 t' Hq1 Hn1); [by rewrite S6, Ew, <- (assoc_L (++))| | | |done].
    + apply StronglySorted_app_2; [by intros x y Hx _; apply capped_ahead, Hcap1|done|repeat constructor].
    + intros d e [Hd| ->%list_elem_of_singleton]%elem_of_app He; [by apply capped_ahead, Hcap1|].
      destruct S4 as (m & Em & _ & _ & Enm). intros m1 m2 E1 E2. cbn [snd] in E1. assert (m1 = m) as -> by congruence. rewrite Enm.
      destruct (Hother e (or_intror He)) as (Hep & _). rewrite S5 in E2 by done.
      destruct S7 as [?|[?|Hr0]]; [done|by left|]. destruct Hok as [Hzero|[_ Hs]%StronglySorted_inv]; [right; by apply (Hzero e m2); [right|]|].
      rewrite Forall_forall in Hs. destruct (Hs e He) as [Ha|(Hnn & Hat & Hrr)].
      * destruct (Ha md m2 Hp E2) as [Hc|?]; [lia|by right].
      * left. rewrite S2, decide_True, (Hnn md Hp) by done. rewrite (Hnn md Hp) in S1. lia.
    + intros Hr1 d [Hd| ->%list_elem_of_singleton]%elem_of_app; [by apply Hcap1|]. destruct S4 as (m & Em & _ & _ & Enm). intros m1 E1. cbn [snd] in E1.
      assert (m1 = m) as -> by congruence. rewrite Enm. destruct S7 as [?|[?|?]]; [done|done|lia].
Qed.

Lemma no_vdr_used adj t st n : qinv adj t st → vdr_used (common t) n = 0 ∧ remainingVdrBytes (common t) = 0.
Proof using no_vdr. intros Hq. pose proof (balanced_bounds _ _ n (q_bal _ _ _ Hq)). pose proof (ba_vdr _ _ (q_bal _ _ _ Hq)). lia. Qed.

Lemma needed_pos t st id p md : tinv t st → (id, p) ∈ waitingToAcquire t → heap t !! p = Some md → 0 < bytesNeeded md.
Proof using sizes_fit.
  intros [Hq Hn _] Hin Hp. destruct (q_md _ _ _ Hq p md Hp) as [Hb Hs]. destruct (sizes_fit _ Hs) as [? _].
  destruct (decide (bytesNeeded md = 0)) as [Hz|]; [|lia]. rewrite (Hn id p md Hin Hp Hz) in *. lia.
Qed.

Lemma busy_capped t st e : tinv t st → 0 < remainingAtLargeBytes (common t) → e ∈ waitingToAcquire t → capped t e.
Proof using sizes_fit.
  intros Ht Hr He md Hp. destruct (ti_busy t st Ht Hr e He md Hp) as [Hz|]; [|done]. destruct e as [id p]. pose proof (needed_pos t st id p md Ht He Hp). lia.
Qed.

(** Fairness depends on the queue, on what its messages hold and on the bytes of their nodes. *)
Lemma fair_same t t' : waitingToAcquire t' = waitingToAcquire t → (∀ e, e ∈ waitingToAcquire t → heap t' !! e.2 = heap t !! e.2) →
  (∀ e, e ∈ waitingToAcquire t → capped t e → capped t' e) → fair t → fair t'.
Proof using.
  intros Ew Eh Ec Hf. unfold fair. rewrite Ew. eapply StronglySorted_weaken; [|exact Hf]. intros x y Hx Hy Ha m m' E E'.
  rewrite Eh in E, E' by done. destruct (Ha m m' E E') as [Hat|?]; [left|by right]. apply (Ec x Hx); [|by rewrite Eh]. intros m1 E1. congruence.
Qed.

Lemma forget_fair t p : (∀ id, (id, p) ∉ waitingToAcquire t) → fair t → fair (forget t p).
Proof using.
  intros Hp. assert (Hq : ∀ e, e ∈ waitingToAcquire t → heap (forget t p) !! e.2 = heap t !! e.2)
    by (intros [id q] Hin; cbn; rewrite lookup_delete_ne; [done|intros ->; by apply (Hp id)]).
  apply fair_same; [done|exact Hq|]. intros e He Hc m E. apply Hc. by rewrite Hq in E.
Qed.

Lemma release_fair t st p md t' : tinv t st → fair t → st !! p = Some Done → heap t !! p = Some md → release t p (nodeID md) = Some t' → fair (forget t' p).
Proof using A_u64 V_u64 M_u64 size_u64 no_vdr.
  intros Ht Hf Hst Hp. pose proof Ht as [Hq Hn Hb]. destruct (q_size _ t st p md Hq Hp) as [Hne Hsz]. destruct (held_ge _ t st p md Hq Hp) as [Hge Hpos].
  unfold release. rewrite Hp. cbn [mbind option_bind]. fold (vdr_used (common t) (nodeID md)). rewrite (sub64_exact (msgSize md)) by lia. fold (got md).
  set (n := nodeID md) in *. pose proof (q_bal _ _ _ Hq) as Hbal. pose proof (ba_held _ _ Hbal n) as Hh. cbn beta in Hh.
  destruct (no_vdr_used _ t st n Hq) as [Hv0 _]. rewrite Hv0 in Hh |- *. replace (Z.min (got md) 0) with 0 by lia.
  assert (Hg : got md ≤ MaxUint64) by (unfold got in *; lia). rewrite (sub64_exact (got md) 0), Z.sub_0_r by lia.
  assert (Hown : ∀ t1, give_own t1 n 0 = Some (0, t1)) by (intros t1; unfold give_own; by destruct (nodeToWaitingMsgID t1 !! n)).
  assert (Hq' : ∀ adj t1, qinv adj t1 st → ∀ id, (id, p) ∉ waitingToAcquire t1)
    by (intros adj t1 Hq1 id Hin; destruct (q_queue _ _ _ Hq1 id p Hin) as [? _]; congruence).
  destruct (Z.ltb_spec 0 (got md)) as [Ha|Ha].
  2:{ cbn [mbind option_bind]. rewrite Hown. cbn. intros [= <-]. apply forget_fair; [by eapply Hq'|done]. }
  destruct (return_at_large_ok _ _ n (got md) Hbal ltac:(lia)) as (B1 & B2 & B3). set (t0 := set_common t (return_at_large (common t) n (got md))) in *.
  assert (Hq0 : qinv (plus (λ _, 0) n (got md)) t0 st).
  { eapply common_qinv; [exact Hq|]. eapply balanced_ext; [|exact B1]. intros n'. unfold plus. case_decide; lia. }
  destruct (give_loop_spec _ st (waitingToAcquire t) t0 Hq0 Hn (q_wf _ _ _ Hq) (λ _ He, He)) as (t1 & E1 & Hq1 & _); [by intros _ e He Hnot|].
  rewrite E1. cbn [mbind option_bind]. rewrite Hown. cbn. intros [= <-].
  assert (Hf1 : fair t1).
  { apply (give_loop_fair _ st n (got md) (waitingToAcquire t) [] t0 t1 Hq0 Hn eq_refl); [constructor|by intros d e Hd%elem_of_nil|by intros _ d Hd%elem_of_nil| |done].
    right. eapply StronglySorted_weaken; [|exact Hf]. intros [id q] y Hx Hy Hah. destruct (q_queue _ _ _ Hq id q Hx) as [_ (m & Em & _)].
    destruct (decide (nodeID m = n)) as [Hmn|Hmn].
    - destruct (decide (at_used (common t) n = M)) as [Hat|Hat].
      + right. split; [intros m1 E; cbn in E; congruence|]. change (common t0) with (return_at_large (common t) n (got md)). rewrite B2, B3, decide_True by done.
        pose proof (proj2 (ba_at_large _ _ Hbal)). lia.
      + left. intros m1 m2 E E2. right. destruct (Hah m1 m2 E E2) as [Hc|?]; [|done]. cbn in E. congruence.
    - left. intros m1 m2 E E2. destruct (Hah m1 m2 E E2) as [Hc|?]; [left|by right]. change (common t0) with (return_at_large (common t) n (got md)).
      assert (m1 = m) as -> by (cbn in E; congruence). rewrite B2, decide_False by done. lia. }
  apply forget_fair; [by eapply Hq'|done].
Qed.

Lemma take_bytes_fair t st p md weight total : tinv t st → heap t !! p = Some md → st !! p = Some Done → closeOnAcquireChan md ≠ Closed → bytesNeeded md = msgSize md →
  let '(ok, md', t') := take_bytes t p md weight total in
  (∀ n, at_used (common t) n ≤ at_used (common t') n ≤ M) ∧ (got md' = 0 ∨ 0 < remainingAtLargeBytes (common t)).
Proof using A_u64 V_u64 M_u64 size_u64 no_vdr.
  intros [Hq Hn Hb] Hp Hst Hcl Hfull. unfold take_bytes.
  pose proof (give_at_large_spec _ t st p md Hq Hp Hcl) as Hg. destruct (give_at_large t p md) as [b t1]. destruct Hg as [Hq1 G].
  set (md1 := if 0 <? b then sub_needed md b else md) in *. destruct G as [G1 G2 G3 (G4 & G5 & G6) G7 G8 G9 Gv _ Ge].
  assert (Hres : (∀ n, at_used (common t) n ≤ at_used (common t1) n ≤ M) ∧ (got md1 = 0 ∨ 0 < remainingAtLargeBytes (common t))).
  { split.
    - intros n. pose proof (ba_at_node _ _ (q_bal _ _ _ Hq1) n) as Hm. rewrite G8 in Hm |- *. case_decide; lia.
    - unfold got. rewrite G3, G4. destruct (decide (b = 0)); [left; lia|right; lia]. }
  destruct ((0 <? b) && (bytesNeeded md1 =? 0)); [done|].
  assert (Hv : (0 <? vdr_share (common t1) (bytesNeeded md1) (nodeID md1) weight total) = false); [|by rewrite Hv].
  apply Z.ltb_ge. destruct (no_vdr_used _ t1 st (nodeID md1) Hq1) as [_ Hz]. unfold vdr_share. rewrite Hz. lia.
Qed.

Lemma Acquire_fair t st size n weight total r t' : tinv t st → fair t → size_ok size → Acquire t size n weight total = (r, t') → fair t'.
Proof using A_u64 V_u64 M_u64 out_of_range_u64 size_u64 no_vdr sizes_fit.
  intros Ht Hf Hs. unfold Acquire. destruct (nodeToWaitingMsgID t !! n) as [id0|] eqn:Ew; [by intros [= <- <-]|].
  pose proof Ht as [Hq Hn Hb]. destruct (alloc_qinv _ t st n size Hq Hs) as [Hfr Hq0]. set (p := next_ptr t) in *. set (md := mkMeta size size n Nil) in *.
  set (t0 := mkInbound _ _ _ _ _ _) in *. assert (Hp0 : heap t0 !! p = Some md) by apply lookup_insert_eq.
  assert (Hst0 : <[p := Done]> st !! p = Some Done) by apply lookup_insert_eq.
  assert (Hin0 : ∀ e, e ∈ waitingToAcquire t → e.2 ≠ p) by (intros [id q] Hin E; cbn in E; subst q; destruct (q_queue _ _ _ Hq id p Hin) as [_ (m & E & _)]; congruence).
  assert (Ht0 : tinv t0 (<[p := Done]> st)).
  { destruct (outside_good t t0 p eq_refl) as [Hn0 Hb0]; [intros q Hne; by apply lookup_insert_ne| | |cbn; lia|done|done|by split].
    - intros id Hin. by apply (Hin0 _ Hin).
    - intros n'. pose proof (ba_at_node _ _ (q_bal _ _ _ Hq) n'). cbn. lia. }
  pose proof (take_bytes_spec t0 _ p md weight total Ht0 Hp0 Hst0 ltac:(done) eq_refl) as Hk.
  pose proof (take_bytes_fair t0 _ p md weight total Ht0 Hp0 Hst0 ltac:(done) eq_refl) as Hk2.
  destruct (take_bytes t0 p md weight total) as [[ok md'] t1]. destruct Hk as (Ht1 & Hp1 & Ew1 & _ & _ & _ & _ & Eo1 & _). destruct Hk2 as [Hat Hor].
  assert (Hcap : ∀ e, e ∈ waitingToAcquire t → capped t e → capped t1 e).
  { intros e He Hc m E. rewrite Eo1 in E by (by apply Hin0). cbn in E. rewrite lookup_insert_ne in E by (apply not_eq_sym; by apply Hin0).
    specialize (Hc m E). specialize (Hat (nodeID m)). cbn in Hat. lia. }
  assert (Hf1 : fair t1).
  { apply (fair_same t); [done| |done|done]. intros e He. rewrite Eo1 by (by apply Hin0). cbn. by rewrite lookup_insert_ne by (apply not_eq_sym; by apply Hin0). }
  destruct ok; [by intros [= <- <-]|]. intros [= <- <-]. set (id := nextMsgID t1 + 1).
  assert (Eput : om_put (waitingToAcquire t1) id p = waitingToAcquire t1 ++ [(id, p)]).
  { unfold om_put. rewrite om_delete_absent; [done|]. intros ([id' q] & E & Hin)%list_elem_of_fmap. cbn in E. subst id'.
    destruct (q_queue _ _ _ (ti_q _ _ Ht1) id q Hin) as [Eb _]. destruct (q_blocked _ _ _ (ti_q _ _ Ht1) q id Eb) as [Hle _]. unfold id in Hle. lia. }
  set (md2 := mkMeta _ _ _ Open). unfold fair. cbn [waitingToAcquire]. rewrite Eput. rewrite Ew1 in *.
  set (t2 := mkInbound _ _ _ _ _ _).
  assert (Hh : ∀ e, e ∈ waitingToAcquire t → heap t2 !! e.2 = heap t1 !! e.2) by (intros e He; cbn; by rewrite lookup_insert_ne by (apply not_eq_sym; by apply Hin0)).
  assert (Hc2 : ∀ e, e ∈ waitingToAcquire t → capped t1 e → capped t2 e) by (intros e He Hc m E; rewrite Hh in E by done; by apply Hc).
  apply StronglySorted_app_2; [| |repeat constructor].
  - intros e e' He ->%list_elem_of_singleton. destruct Hor as [Hz|Hr].
    + intros m1 m2 _ E2. right. cbn in E2. rewrite lookup_insert_eq in E2. injection E2 as <-. unfold got in *. cbn. lia.
    + apply capped_ahead, Hc2, Hcap; [done|done|]. by apply (busy_capped t st).
  - unfold fair in Hf1. rewrite Ew1 in Hf1. eapply StronglySorted_weaken; [|exact Hf1]. intros x y Hx Hy Ha m m' E E'. rewrite Hh in E, E' by done. by apply Ha.
Qed.

Lemma om_delete_sorted (R : Z * nat → Z * nat → Prop) l id : StronglySorted R l → StronglySorted R (om_delete l id).
Proof using.
  unfold om_delete. induction 1 as [|e l Hl IH He]; [constructor|]. rewrite filter_cons. case_decide; [|done]. constructor; [done|].
  rewrite Forall_forall in He |- *. intros y [_ Hy]%list_elem_of_filter. by apply He.
Qed.

Lemma tstep_fair t st t' st' : tinv t st → fair t → tstep (t, st) (t', st') → fair t'.
Proof using A_u64 V_u64 M_u64 out_of_range_u64 size_u64 no_vdr sizes_fit.
  intros Ht Hf [Hs|[Hs|Hs]]; inversion Hs; subst.
  - by eapply Acquire_fair.
  - by apply om_delete_sorted.
  - done.
  - by eapply release_fair.
Qed.

Lemma treachable_fair t st : treachable (t, st) → tinv t st ∧ fair t.
Proof using A_u64 V_u64 M_u64 out_of_range_u64 size_u64 no_vdr sizes_fit.
  intros Hr. refine (rtc_ind_r (λ s, tinv s.1 s.2 ∧ fair s.1) (newInboundMsgByteThrottler (mkConfig V A M), ∅) _ _ (t, st) Hr).
  - split; [apply new_tinv|constructor].
  - intros [t1 st1] [t2 st2] _ Hs [H1 H2]. split; [by eapply tstep_inv|by eapply tstep_fair].
Qed.

Lemma map_sum_zero {K} `{Countable K} (m : gmap K Z) : (∀ k z, m !! k = Some z → z = 0) → map_sum m = 0.
Proof using.
  induction m as [|k z m Hk IH] using map_ind; intros Hz; [apply map_sum_empty|].
  rewrite map_sum_insert_new by done. rewrite (Hz k z) by apply lookup_insert_eq. rewrite IH; [done|]. intros k' z' E. apply (Hz k'). rewrite lookup_insert_ne; [done|]. congruence.
Qed.

(** The oldest message cannot be the last one that waits for bytes. *)
Lemma head_not_stuck t st id p rest md : tinv t st → fair t → waitingToAcquire t = (id, p) :: rest → heap t !! p = Some md →
  (∀ q md', heap t !! q = Some md' → ∃ id', (id', q) ∈ waitingToAcquire t) → False.
Proof using A_u64 V_u64 M_u64 no_vdr sizes_fit.
  intros Ht Hf Ew Hp Hall. pose proof Ht as [Hq _ _]. assert (Hin : (id, p) ∈ waitingToAcquire t) by (rewrite Ew; by left).
  pose proof (needed_pos t st id p md Ht Hin Hp) as Hneed. destruct (q_md _ _ _ Hq p md Hp) as [_ [Hs1 Hs2]%sizes_fit].
  unfold fair in Hf. rewrite Ew in Hf. apply StronglySorted_inv in Hf as [_ Hhead]. rewrite Forall_forall in Hhead.
  assert (Hat : ∀ n, at_used (common t) n = held (heap t) n).
  { intros n. pose proof (ba_held _ _ (q_bal _ _ _ Hq) n) as Hh. cbn beta in Hh. destruct (no_vdr_used _ t st n Hq) as [Hz _]. lia. }
  assert (Hothers : ∀ q md', heap t !! q = Some md' → q ≠ p → nodeID md' ≠ nodeID md ∧ (at_used (common t) (nodeID md) = M ∨ got md' = 0)).
  { intros q md' E Hne. destruct (Hall q md' E) as [id' Hin']. assert (Hid : id ≠ id').
    { intros ->. destruct (q_queue _ _ _ Hq id' p Hin) as [S1 _]. destruct (q_queue _ _ _ Hq id' q Hin') as [S2 _]. by apply Hne, (q_ids _ _ _ Hq q p id'). }
    split; [apply (queue_nodes _ t st (id, p) (id', q) md md' Hq Hin Hin' Hid Hp E)|]. rewrite Ew in Hin'.
    apply elem_of_cons in Hin' as [[= -> ->]|Hin']; [done|]. by apply (Hhead (id', q) Hin'). }
  assert (Hself : held (heap t) (nodeID md) = got md).
  { pose proof (held_delete (heap t) p md (nodeID md) Hp) as Hd. unfold held_of in Hd at 1. rewrite decide_True in Hd by done.
    assert (Hz : held (delete p (heap t)) (nodeID md) = 0); [|lia]. apply map_sum_zero. intros q z. rewrite lookup_fmap.
    destruct (delete p (heap t) !! q) as [md'|] eqn:E; cbn; [|done]. apply lookup_delete_Some in E as [Hne E]. intros [= <-]. unfold held_of. rewrite decide_False; [done|].
    intros En. by destruct (Hothers q md' E (not_eq_sym Hne)) as [? _]. }
  assert (Hlow : at_used (common t) (nodeID md) < M) by (rewrite Hat, Hself; unfold got; lia).
  assert (Hrem : remainingAtLargeBytes (common t) = 0).
  { pose proof (ba_at_large _ _ (q_bal _ _ _ Hq)) as [_ Hr]. destruct (decide (0 < remainingAtLargeBytes (common t))) as [Hpos|]; [|lia].
    pose proof (busy_capped t st (id, p) Ht Hpos Hin md Hp). lia. }
  assert (Hzero : ∀ n, n ≠ nodeID md → at_used (common t) n = 0).
  { intros n Hne. rewrite Hat. apply map_sum_zero. intros q z. rewrite lookup_fmap. destruct (heap t !! q) as [md'|] eqn:E; cbn; [|done]. intros [= <-].
    unfold held_of. case_decide as En; [|done]. destruct (decide (q = p)) as [->|Hqp]; [congruence|]. destruct (Hothers q md' E Hqp) as [_ [?|?]]; [lia|done]. }
  pose proof (ba_at_large _ _ (q_bal _ _ _ Hq)) as [Hsum _]. pose proof (map_sum_used (nodeToAtLargeBytesUsed (common t)) (nodeID md) 0) as Hins.
  rewrite (map_sum_zero (<[nodeID md := 0]> _)) in Hins.
  - fold (at_used (common t) (nodeID md)) in Hins. rewrite Hat, Hself in Hins. unfold got in *. lia.
  - intros n z [[<- <-]|[Hne E]]%lookup_insert_Some; [done|]. specialize (Hzero n (not_eq_sym Hne)). unfold at_used, bytes_used in Hzero. by rewrite E in Hzero.
Qed.

Lemma serve_progress t st : tinv t st → fair t → st ≠ ∅ → ∃ s, tserve (t, st) s.
Proof using A_u64 V_u64 M_u64 size_u64 no_vdr sizes_fit.
  intros Ht Hf Hne. pose proof Ht as [Hq _ _].
  destruct (decide (map_Exists (λ _ s, s = Done) st)) as [(p & s & Hp & ->)|HnoD].
  { destruct (proj2 (q_calls _ _ _ Hq p) ltac:(by eexists)) as [md Hmd]. destruct (release_spec t st p md Ht Hp Hmd) as (t' & E & _).
    eexists. by eapply ts_release. }
  destruct (decide (map_Exists (λ _ md, closeOnAcquireChan md = Closed) (heap t))) as [(p & md & Hmd & Hc)|HnoC].
  { destruct (proj1 (q_calls _ _ _ Hq p) ltac:(by eexists)) as [s Hs]. destruct s as [id|]; [|exfalso; apply HnoD; by exists p, Done].
    eexists. by eapply ts_wake. }
  exfalso. assert (Hall : ∀ q md, heap t !! q = Some md → ∃ id, (id, q) ∈ waitingToAcquire t).
  { intros q md E. destruct (proj1 (q_calls _ _ _ Hq q) ltac:(by eexists)) as [s Hs]. destruct s as [id|]; [|exfalso; apply HnoD; by exists q, Done].
    destruct (q_blocked _ _ _ Hq q id Hs) as [_ [Hin|(md' & E' & Hc & _)]]; [by exists id|]. exfalso. apply HnoC. by exists q, md'. }
  apply map_choose in Hne as (p0 & s0 & Hs0). destruct (proj2 (q_calls _ _ _ Hq p0) ltac:(by eexists)) as [md0 Hm0]. destruct (Hall p0 md0 Hm0) as [id0 Hin0].
  destruct (waitingToAcquire t) as [|[id p] rest] eqn:Ew; [by apply elem_of_nil in Hin0|].
  destruct (q_queue _ _ _ Hq id p ltac:(rewrite Ew; by left)) as [_ (md & Hp & _)]. rewrite <- Ew in Hall. by apply (head_not_stuck t st id p rest md).
Qed.

Definition work st : Z := map_sum ((λ s, match s with Blocked _ => 2 | Done => 1 end) <$> st).

Lemma work_nonneg st : 0 ≤ work st.
Proof using. clear A_u64 V_u64 M_u64 no_vdr. apply map_sum_nonneg. intros p z. rewrite lookup_fmap. destruct (st !! p) as [[]|]; cbn; intros; simplify_eq; lia. Qed.

Lemma tserve_work t st t' st' : tserve (t, st) (t', st') → work st' < work st.
Proof using.
  clear A_u64 V_u64 M_u64 no_vdr. intros Hs. inversion Hs; subst; unfold work.
  - rewrite fmap_insert, map_sum_insert, lookup_fmap.
    match goal with E : st !! _ = Some (Blocked _) |- _ => rewrite E end. cbn. lia.
  - match goal with E : st !! ?p = Some Done |- _ => rewrite fmap_delete;
      rewrite (map_sum_delete ((λ s, match s with Blocked _ => 2 | Done => 1 end) <$> st) p 1) by (by rewrite lookup_fmap, E) end. lia.
Qed.

Lemma serves_finite t st : sn tserve (t, st).
Proof using.
  clear A_u64 V_u64 M_u64 no_vdr. remember (Z.to_nat (work st)) as k eqn:Ek. revert t st Ek. induction (lt_wf k) as [k _ IH]. intros t st ->. constructor.
  intros [t' st'] Hs. unfold flip in Hs. pose proof (tserve_work t st t' st' Hs). pose proof (work_nonneg st'). eapply IH; [|reflexivity]. lia.
Qed.

Lemma empty_idle t : tinv t ∅ → waitingToAcquire t = [] ∧ remainingAtLargeBytes (common t) = A.
Proof using M_u64.
  intros [Hq _ _]. assert (Hh : heap t = ∅).
  { apply map_empty. intros p. destruct (heap t !! p) as [md|] eqn:E; [|done]. destruct (proj1 (q_calls _ _ _ Hq p) ltac:(by eexists)) as [? Hs]. by rewrite lookup_empty in Hs. }
  split.
  - destruct (waitingToAcquire t) as [|[id p] l] eqn:Ew; [done|]. destruct (q_queue _ _ _ Hq id p ltac:(rewrite Ew; by left)) as [Hs _]. by rewrite lookup_empty in Hs.
  - destruct (q_bal _ _ _ Hq) as [[Hs _] _ Ha Hv Hheld _]. rewrite map_sum_zero in Hs; [lia|]. intros n z E.
    specialize (Ha n). specialize (Hv n). specialize (Hheld n). cbn beta in Hheld. unfold held in Hheld. rewrite Hh, fmap_empty in Hheld.
    change (map_sum ∅) with 0 in Hheld. unfold at_used, bytes_used in Ha, Hheld. rewrite E in Ha, Hheld. cbn in Ha, Hheld. lia.
Qed.

(** C21. When no bytes are set aside for validators, and every message fits in the shared allocation
    and in the limit of a node, no message waits forever: once no more calls start and every
    message that was read is released, after finitely many steps all calls have returned and
    all bytes are back, whatever the order. *)
Theorem throttler_serves_all t st : treachable (t, st) →
  sn tserve (t, st)
  ∧ ∀ t' st', rtc tserve (t, st) (t', st') → nf tserve (t', st') → st' = ∅ ∧ waitingToAcquire t' = [] ∧ remainingAtLargeBytes (common t') = A.
Proof using A_u64 V_u64 M_u64 out_of_range_u64 size_u64 no_vdr sizes_fit.
  intros Hr. split; [apply serves_finite|]. intros t' st' Hs Hnf.
  assert (Hr' : treachable (t', st')) by (unfold treachable in *; etrans; [exact Hr|]; eapply rtc_subrel; [|exact Hs]; intros x y Hxy; by right; right).
  destruct (treachable_fair t' st' Hr') as [Ht' Hf']. destruct (decide (st' = ∅)) as [->|Hne]; [split; [done|by apply empty_idle]|].
  destruct Hnf. by apply serve_progress.
Qed.
End progress.
End accounting.
End throttling.

(** ** Examples, and what goes wrong *)

(** What an implementation may return *)
Definition ex_conv (f : spec_float) : Z := 2 ^ 63.

Lemma ex_conv_u64 f : is_u64 (ex_conv f).
Proof. unfold ex_conv, is_u64, MaxUint64. lia. Qed.

(** The share of 1 of 3 parts of 32 MiB, and of a total of no weight *)
Example float_share_third : float_share ex_conv (32 * 2 ^ 20) 1 3 = 11184810 ∧ float_share ex_conv (2 ^ 53 + 1) 1 1 = 2 ^ 53 ∧ float_share ex_conv 5 5 0 = 2 ^ 63.
Proof. vm_compute. done. Qed.

Notation ex_throttler := (@inboundMsgByteThrottler nat _ _).
Notation ex_calls := (gmap nat status).

Inductive action := Start (size : Z) (n : nat) (weight : Z) (total : option Z) | Serve (p : nat).

Definition may_start (t : ex_throttler) (st : ex_calls) (n : nat) : bool :=
  forallb (λ ps, match ps.2 with
                 | Done => true
                 | Blocked _ => match heap t !! ps.1 with Some md => negb (bool_decide (nodeID md = n)) | None => true end
                 end) (map_to_list st).

Definition act (fits : Z → bool) (s : ex_throttler * ex_calls) (a : action) : option (ex_throttler * ex_calls) :=
  let '(t, st) := s in
  match a with
  | Start size n weight total =>
      if fits size && may_start t st n
      then let '(r, t') := Acquire ex_conv t size n weight total in Some (t', started r st)
      else None
  | Serve p =>
      md ← heap t !! p;
      match st !! p with
      | Some Done => t' ← release t p (nodeID md); Some (forget t' p, delete p st)
      | Some (Blocked _) => if bool_decide (closeOnAcquireChan md = Closed) then Some (t, <[p := Done]> st) else None
      | None => None
      end
  end.

Fixpoint acts (fits : Z → bool) (s : ex_throttler * ex_calls) (l : list action) : option (ex_throttler * ex_calls) :=
  match l with [] => Some s | a :: l => s ← act fits s a; acts fits s l end.

Lemma may_start_spec t st n p id md : may_start t st n = true → st !! p = Some (Blocked id) → heap t !! p = Some md → nodeID md ≠ n.
Proof.
  unfold may_start. rewrite forallb_forall. intros Hall Hst Hp. assert (Hin : In (p, Blocked id) (map_to_list st)) by (by apply list_elem_of_In, elem_of_map_to_list).
  specialize (Hall _ Hin). cbn in Hall. rewrite Hp in Hall. apply negb_true_iff, bool_decide_eq_false in Hall. done.
Qed.

Lemma acts_reach fits l : ∀ s s', acts fits s l = Some s' → rtc (tstep ex_conv (λ z, fits z = true)) s s'.
Proof.
  induction l as [|a l IH]; intros [t st] s'; cbn [acts]; [intros [= <-]; apply rtc_refl|]. destruct (act fits (t, st) a) as [s1|] eqn:E; cbn [mbind option_bind]; [|done].
  intros Hl%IH. eapply rtc_l; [|exact Hl]. destruct a as [size n weight total|p]; cbn in E.
  - destruct (fits size) eqn:Ef; [|done]. destruct (may_start t st n) eqn:Em; [|done]. cbn in E. destruct (Acquire ex_conv t size n weight total) as [r t'] eqn:Ea.
    injection E as <-. left. eapply ts_acquire; [done| |exact Ea]. intros p id md. by apply may_start_spec.
  - destruct (heap t !! p) as [md|] eqn:Ep; cbn in E; [|done]. right. right. destruct (st !! p) as [[id|]|] eqn:Es; [| |done].
    + case_bool_decide as Hc; [|done]. injection E as <-. by eapply ts_wake.
    + destruct (release t p (nodeID md)) as [t'|] eqn:Er; cbn in E; [|done]. injection E as <-. by eapply ts_release.
Qed.

(** Nothing can be released and no call is woken. *)
Definition idle (t : ex_throttler) (st : ex_calls) : bool :=
  forallb (λ ps, match ps.2 with
                 | Done => false
                 | Blocked _ => match heap t !! ps.1 with Some md => negb (bool_decide (closeOnAcquireChan md = Closed)) | None => true end
                 end) (map_to_list st).

Lemma idle_nf (t : ex_throttler) (st : ex_calls) : idle t st = true → nf (tserve (NodeID := nat)) (t, st).
Proof.
  unfold idle. rewrite forallb_forall. intros Hall [s Hs]. inversion Hs as [? ? p id md Hst Hp Hc|? ? p md t' Hst Hp Hr]; subst;
    (assert (Hin : In (p, default Done (st !! p)) (map_to_list st)) by (rewrite Hst; by apply list_elem_of_In, elem_of_map_to_list));
    specialize (Hall _ Hin); rewrite Hst in Hall; cbn in Hall; [|done]. rewrite Hp, bool_decide_true in Hall by done. done.
Qed.

(** With an allocation for validators messages can wait for each other forever, although each fits:
    node 1 is a validator with an allocation of 2 bytes; 10 bytes are shared, and any node may
    use all of them.  Node 1 reads 8 bytes; a message of 10 bytes of node 2 gets the other 2, and
    one of node 1 the 2 bytes of the validator.  When the first message is released, 2 of the 8
    bytes count as bytes of the validator and go to its newer message, so that the older one
    gets only 6. *)
Definition fits_10 (s : Z) : bool := (0 <? s) && (s <=? 10).
Definition stalled : option (ex_throttler * ex_calls) :=
  acts fits_10 (newInboundMsgByteThrottler (mkConfig 2 10 10), ∅) [Start 8 1 1 (Some 1); Start 10 2 0 (Some 1); Start 10 1 1 (Some 1); Serve 0].

Theorem throttler_can_stall : ∃ t st, treachable ex_conv 10 2 10 (λ s, fits_10 s = true) (t, st)
  ∧ waitingToAcquire t = [(1, 1%nat); (2, 2%nat)] ∧ st ≠ ∅ ∧ nf (tserve (NodeID := nat)) (t, st).
Proof.
  assert (E : is_Some stalled) by (vm_compute; by eexists). destruct E as [[t st] E]. exists t, st. split; [by apply (acts_reach fits_10) in E|].
  vm_compute in E. injection E as <- <-. split; [vm_compute; reflexivity|]. split; [intros E; apply (f_equal (lookup 1%nat)) in E; vm_compute in E; discriminate E|].
  apply idle_nf. vm_compute. reflexivity.
Qed.

(** A message of no bytes waits, although nothing is in use. *)
Theorem empty_message_waits config (n : nat) weight total :
  (Acquire ex_conv (newInboundMsgByteThrottler config) 0 n weight total).1 = MustWait 0 1.
Proof.
  unfold Acquire. cbn [newInboundMsgByteThrottler nodeToWaitingMsgID next_ptr common nextMsgID waitingToAcquire heap]. rewrite lookup_empty.
  assert (Hz : ∀ c b, (0 <? Z.min 0 b) = false ∧ (0 <? Z.min c (Z.min 0 b)) = false) by (intros c b; rewrite !Z.ltb_ge; lia).
  unfold take_bytes, give_at_large, at_large_share, vdr_share. cbn -[Z.min Z.ltb newCommon vdrAllocationSize]. rewrite (proj1 (Hz 0 _)).
  cbn -[Z.min Z.ltb newCommon vdrAllocationSize]. rewrite (proj2 (Hz _ _)). done.
Qed.

(** *** Witnesses *)

Definition ex_middle : option (ex_throttler * ex_calls) :=
  acts fits_10 (newInboundMsgByteThrottler (mkConfig 0 10 10), ∅) [Start 8 1 1 (Some 1); Start 10 2 0 (Some 1); Start 5 3 0 (Some 1)].

Lemma fits_10_u64 s : fits_10 s = true → is_u64 s.
Proof. unfold fits_10, is_u64, MaxUint64. rewrite andb_true_iff, Z.ltb_lt, Z.leb_le. lia. Qed.

Lemma fits_10_fit s : fits_10 s = true → 0 < s ≤ 10 ∧ s ≤ 10.
Proof. unfold fits_10. rewrite andb_true_iff, Z.ltb_lt, Z.leb_le. lia. Qed.

Lemma ex_u64_10 : is_u64 10.
Proof. unfold is_u64, MaxUint64. lia. Qed.
Lemma ex_u64_0 : is_u64 0.
Proof. unfold is_u64, MaxUint64. lia. Qed.

Lemma byte_throttler_exact_witness : ∃ t st, ex_middle = Some (t, st) ∧ waitingToAcquire t = [(1, 1%nat); (2, 2%nat)]
  ∧ remainingAtLargeBytes (common t) + map_sum (nodeToAtLargeBytesUsed (common t)) = 10 ∧ at_used (common t) 2%nat = 2
  ∧ at_used (common t) 2%nat + vdr_used (common t) 2%nat = held (heap t) 2%nat.
Proof.
  assert (E : is_Some ex_middle) by (vm_compute; by eexists). destruct E as [[t st] E]. exists t, st. split; [exact E|].
  destruct (byte_throttler_exact ex_conv 10 0 10 ex_u64_10 ex_u64_0 ex_u64_10 ex_conv_u64 (λ s, fits_10 s = true) fits_10_u64 t st
    (acts_reach fits_10 _ _ _ E)) as (H1 & _ & _ & _ & H5 & _).
  split; [|split; [exact H1|split; [|apply H5]]]; vm_compute in E; injection E as <- <-; vm_compute; reflexivity.
Defined.

Lemma throttler_serves_all_witness : ∃ t st t' st', ex_middle = Some (t, st)
  ∧ acts fits_10 (t, st) [Serve 0; Serve 1; Serve 1; Serve 2; Serve 2] = Some (t', st') ∧ sn (tserve (NodeID := nat)) (t, st) ∧ st' = ∅ ∧ remainingAtLargeBytes (common t') = 10.
Proof.
  assert (E : is_Some ex_middle) by (vm_compute; by eexists). destruct E as [[t st] E].
  destruct (throttler_serves_all ex_conv 10 0 10 ex_u64_10 ex_u64_0 ex_u64_10 ex_conv_u64 (λ s, fits_10 s = true) fits_10_u64 eq_refl fits_10_fit t st
    (acts_reach fits_10 _ _ _ E)) as [H1 _].
  assert (E' : is_Some (acts fits_10 (t, st) [Serve 0; Serve 1; Serve 1; Serve 2; Serve 2])) by (vm_compute in E; injection E as <- <-; vm_compute; by eexists).
  destruct E' as [[t' st'] E']. exists t, st, t', st'. split; [done|]. split; [done|]. split; [done|].
  vm_compute in E. injection E as <- <-. vm_compute in E'. injection E' as <- <-. split; [|vm_compute; reflexivity]. by apply map_eq; intros [|[|[|k]]].
Defined.
